(* ===== verification/_CoqProject ===== *)
-Q . S2P
Prelude.v
HashMap.v
Heap.v
Codec.v
Serde.v
ByteRange.v
Varint.v
TerminatedBytes.v
Sortable.v
Encoding.v
Storage.v
KvStore.v
KeyValue.v
Sequence.v
Coordinator.v
CoordinatorInv.v
CoordinatorSpec.v
Manifest.v
QueueStore.v
Batch.v
Buffer.v
BufferSpec.v
LogSerde.v
LogDb.v
LogSpec.v
LogView.v
LogFault.v
SortBy.v
TsSerde.v
TsBits.v
TsMerge.v
TsDb.v
TsDbSpec.v
TsDbReads.v
TsQuery.v
VecSerde.v
VecPosting.v
VecMerge.v
VecMath.v
VecList.v
VecSearch.v
VecSearchSpec.v
VecStore.v
VecState.v
VecStateSpec.v
VecCommit.v
VecKmeans.v
VecQuery.v
VecIndexer.v
VecIndexerSpec.v
VecQuerySpec.v
VecWriteSpec.v
VecDb.v
VecDbSpec.v
PqBatch.v
PqSource.v
PqSourceSpec.v
PqLeaf.v
PqLeafSpec.v
PqQuery.v
