(* ===== verification/Prelude.v ===== *)
(** * A verification development for OpenData

    OpenData is a family of databases on object storage: a key-value store, a
    log, a time series database and a vector database, over shared parts in
    [common], and a write buffer in [buffer].  This development models the
    shared parts, the buffer, the key-value store, the log, the storage side of
    the time series database, and the vector database with its index tree, and
    proves what each promises to the others.

    ** Parts and files

    Shared parts, [src/common/src]:
    - [Prelude] (this file): results of Rust code ([res], with [Panic] for a
      run that unwinds), machine integers as [Z] with [wrap], bytes, byte order, lists,
      and the tactics and hints the other files use.  [Codec] is the interface
      of a self-delimiting encoding, [SortBy], [HashMap] and [Heap] the standard library's sort and
      dedup, hash map iteration, and binary heap.
    - [Serde] (serde/mod.rs, key_prefix.rs, record_tag.rs, seq_block.rs),
      [Varint] (serde/varint.rs), [TerminatedBytes] (serde/terminated_bytes.rs),
      [Sortable] (serde/sortable.rs), [Encoding] (serde/encoding.rs) and [ByteRange] (bytes.rs):
      what the keys and values of all databases are made of.
    - [Storage] (storage/mod.rs, storage/in_memory.rs): records, operations,
      merge operators and [InMemoryStorage] with expiry and watermarks.  [KvStore]
      is the interface the databases are proved against: operations ([KvStore]) and
      laws ([KvStoreLaws], [KvMergeLaws]), with the in-memory store as an instance.
    - [Sequence] (sequence.rs): the block allocator of sequence numbers.
    - [Coordinator] (coordinator/): the write coordinator as a labelled transition
      system of its write task, flush task, channels, watermarks, view
      broadcasts and handles; [Delta] and [Flusher] are classes.  [CoordinatorInv]
      has the invariant, [CoordinatorSpec] the theorems.

    The write buffer, [src/buffer/src]: [Manifest] (the binary queue manifest of
    queue.rs), [QueueStore] (its producers and consumers over conditional puts),
    [Batch] (model.rs, the data batch format), [Buffer] (producer.rs, consumer.rs,
    gc.rs) and [BufferSpec] (their theorems).

    The key-value database, [src/keyvalue/src]: [KeyValue].

    The log, [src/log/src]: [LogSerde] (serde.rs, range.rs), [LogDb] (segment.rs,
    listing.rs, writer.rs, storage.rs, reader.rs, log.rs), [LogSpec] (the writer and its scans
    against the abstract log), [LogView] (view_tracker.rs and the subscriber tasks) and
    [LogFault] (an append whose put fails).

    The time series database, [src/timeseries/src]: [TsSerde] (model.rs and
    serde/: keys, bucket list, dictionary, forward index), [TsBits] (the bit
    reader of serde/timeseries.rs), [TsMerge] (sample and posting values, and
    storage/merge_operator.rs), [TsDb] (index.rs, delta.rs, flusher.rs,
    storage/mod.rs, minitsdb.rs), [TsDbSpec] (what a flush stores), [TsDbReads]
    (what readers see) and [TsQuery] (index queries, bucket selection, and from
    tsdb.rs the routing of writes and the ranges of queries).  [TsDb.tsdb_write_delta] and
    [TsDb.tsdb_flusher] are instances of the coordinator's classes, so the coordinator's
    theorems apply to it: the batches [TsDbReads.tsdb_reads_back] speaks of
    are the batches of [coordinator_pipeline].

    Queries over the time series, [src/timeseries/src/promql]:
    - [PqBatch] (memory.rs, batch.rs, operator.rs, source.rs): the ledger of bytes, bit sets,
      columnar batches, requests for samples.
    - [PqSource] (source_adapter.rs, index_cache.rs, query.rs, and from plan/physical.rs the
      roster of a leaf): the reader of buckets is the class [QueryReader]; matchers, the
      resolution of a selector bucket by bucket, the batches of samples.  The regular expression
      parser is an argument; the order in which a fan-out ends is one too.
    - [PqSourceSpec]: what a selector selects, and that resolving finds it.
    - [PqLeaf] (operators/vector_selector.rs, operators/matrix_selector.rs, the leaves of
      build_node_inner): both leaf operators are one state machine with two builders of
      batches; a poll finds a number of events of the stream of samples.
    - [PqLeafSpec]: over a source that [Delivers], what any sequence of polls emits.
    - [PqQuery]: the source over a reader delivers, and whole queries.

    The vector database, [src/vector/src]:
    - values and keys: [VecSerde] (serde/, model.rs), [VecPosting]
      (serde/posting_list.rs, with its merge over raw bytes), [VecMerge]
      (serde/metadata_index.rs, storage/merge_operator.rs), [VecStore] (storage/: records and typed reads);
    - numbers: [VecMath] (math/distance.rs, math/heuristics.rs), [VecKmeans] (math/kmeans.rs);
    - the tree under write/indexer/tree/: [VecList] (posting_list.rs), [VecSearch] (centroids.rs) with
      [VecSearchSpec], [VecState] (state.rs: the state, the delta of a round, the cache and
      the view of uncommitted changes), [VecStateSpec] (the invariant that cache, snapshot
      and state agree) and [VecCommit] (what freezing a round does);
    - the indexer's round, write/indexer/drivers and its steps (write, merge,
      split, reassign, grow the root): [VecIndexer], with [VecIndexerSpec] and [VecWriteSpec];
    - queries, query_engine.rs: [VecQuery] and [VecQuerySpec];
    - the database, db.rs, write/delta.rs and write/flusher.rs: [VecDb] and [VecDbSpec].
      The delta and the flusher have the shape of the coordinator's classes.

    A record of the code is a [Record], an enum an [Inductive], a function a
    [Definition] or [Fixpoint] with the name of the source where possible; a
    method that changes its object takes and returns it.  A [HashMap] is a [gmap],
    a [BTreeMap] a sorted association list, a [Vec] a list.

    ** What the theorems show

    - Encodings: round trips, exactness on arbitrary bytes (what is accepted, that nothing panics),
      and that byte order of keys is the order of what they encode, so scans
      are ranges ([terminated_bytes_codec], [varint_order], [f64_sortable_order],
      [ts_keys_exact], [vec_keys_exact], [vec_values_roundtrip], [manifest_refines_queue],
      [parse_manifest_total], [batch_roundtrip], [bit_reader_exact]).
    - Stores: the in-memory store refines a map with merges, scans are exact,
      its invariant is kept.
    - Allocation: sequence numbers are never given twice across crashes.
    - Coordinator: every interleaving refines a pipeline of batches; watermarks,
      epochs, no panic, graceful stop, progress of a flush, subscribers.
    - Buffer: each entry is delivered exactly once and in order over any
      interleaving of producers and consumers with failing requests; fencing;
      grouping of submissions; the collector deletes no named object.
    - Databases: the key-value store is a map; the log keeps its entries over
      appends, flushes and restarts and its views follow; the time series bucket
      reads back what was accepted, its merge operator is associative, and
      writes are routed to the bucket that accepts them.
    - Queries: a selector over the buckets of a reader, planned and polled to its end,
      shows for every label set and step the latest sample of the lookback window, or the samples
      of the range, of everything stored; the time ranges in between lose nothing.
      The plans of these theorems are within 2^61 ms of the epoch (no saturation), and the range
      windows under a limit of 64 GiB (offsets of cells are 32 bits wide).  A loop
      of [next] takes at most four turns a poll, which [leaf_poll] shows.
    - Vector database: merging posting lists keeps the latest update of each vector and
      its loops end; the distance kernels agree; a search of the tree is exact on what it
      visits and a query returns the nearest of what passes its filter; a batch of
      writes upserts; a split partitions its postings; committing a
      round gives the view of its delta and leaves older snapshots as they were; the index state
      survives restarts; a flush either commits or poisons the flusher.
    - Behaviour that is not what the code means to do is proved too, as error
      properties: [drain_failure_is_silent], [failed_append_hides_next],
      [reload_reuses_series_id], [restart_forgets_empty_list],
      [unmatched_regex_forgotten].

    ** Bounds and assumptions

    The code is that of a release build: arithmetic that may overflow wraps, at its width,
    and [debug_assert!] checks nothing; lengths that are cast are cast.  Allocation does not
    fail (a [Vec::with_capacity] of any size succeeds).  Recursion is structural where the code's is; loops which read until the
    input is empty recurse on its length.  Fuel is used where the source has a bound of its
    own (a thousand rounds of splitting, twenty iterations of clustering), for the walk over the levels of the tree (its depth) and for the merge
    loops of posting lists, where [posting_loops_terminate] shows that the number of bytes is enough.
    A step of a transition system is a block of code between two awaits; channels and
    watch cells are atomic.  A request to an object store may fail after having been
    applied.  The clock is an argument.  The laws of [KvStore] are for records that
    do not expire: retention is modelled ([bucket_ttl]) but the theorems of [TsDbReads] are for
    a flusher without it.  Arguments, with what is documented of them as
    named laws and a concrete instance each: the object store, zstd, ULIDs,
    Gorilla compression ([Tsz]), Roaring bitmaps ([Roaring], [RoaringTreemap]), the blake3 hash, the
    order in which a hash map is iterated ([HashOrder], [AnyOrder]), the operations of f32
    ([FloatOps]), the features of the processor ([Cpu]), the random generator (an [Rng] for each
    draw of each round, [Draw]) and the
    parser of regular expressions ([RegexSyntax]).
    [tsdb_reads_back] is for batches with the samples of a series in time order, of label sets
    with different fingerprints ([Workload]); the query theorems for the selectors, readers and plans of
    [supported], [narrows], [reader_ok] and [plan_ok]; [index_survives_restarts] for restarts where every
    inner centroid has a posting record ([Loadable]).

    ** Not modelled

    The PromQL engine above its leaf operators (lowering, rollups, aggregations,
    binary operators, subqueries), HTTP servers, foreign function
    interfaces, configuration, metrics and traces, the SlateDB store (only forwards to
    its library), texts of errors.  Of the time series database: the cache of open buckets,
    discovery in tsdb.rs, expiry by retention.  Of the vector
    database: the index validator of debug builds, the text dump of the tree, the
    rounding of f32 operations (theorems hold for any [FloatOps] with the laws they name).

    ** What would come next

    The operators above the leaves of the PromQL engine, over an abstract f64; the reader of
    buckets of the time series database as an instance of [QueryReader]; the expiry of buckets under retention. *)
From stdpp Require Export prelude list.
From Stdlib Require Export ZArith Lia Init.Byte Sorting.Sorted.
From Stdlib Require Strings.Byte.

Declare Scope rust_scope.
Delimit Scope rust_scope with rust.
#[global] Open Scope Z_scope.
#[global] Open Scope rust_scope.

(** ** Results of Rust code

    [Ok]/[Err] are [std::result::Result]; [Panic] is a run that unwinds: a
    failed [assert!], a slice index out of range, an [expect] on [None]. *)
Inductive res (E A : Type) : Type :=
| Ok (a : A)
| Err (e : E)
| Panic.
Arguments Ok {E A} a.
Arguments Err {E A} e.
Arguments Panic {E A}.

Definition res_bind {E A B} (m : res E A) (k : A → res E B) : res E B :=
  match m with Ok a => k a | Err e => Err e | Panic => Panic end.

Definition res_map_err {E F A} (f : E → F) (m : res E A) : res F A :=
  match m with Ok a => Ok a | Err e => Err (f e) | Panic => Panic end.

Notation "'let?' x := m 'in' k" := (res_bind m (fun x => k))
  (at level 10, x strict pattern, m at level 100, k at level 200) : rust_scope.

(** [assert!(b)] *)
Definition rust_assert {E} (b : bool) : res E unit := if b then Ok tt else Panic.

(** [opt.expect(..)] / indexing that panics when it is out of range. *)
Definition expect {E A} (o : option A) : res E A :=
  match o with Some a => Ok a | None => Panic end.

(** [iter().map(f).collect::<Result<Vec<_>, _>>()]: stops at the first failure *)
Fixpoint try_map {E A B} (f : A → res E B) (l : list A) : res E (list B) :=
  match l with
  | [] => Ok []
  | x :: l => let? y := f x in let? ys := try_map f l in Ok (y :: ys)
  end.

Definition is_ok {E A} (m : res E A) : bool :=
  match m with Ok _ => true | _ => false end.

Definition is_err {E A} (m : res E A) : bool :=
  match m with Err _ => true | _ => false end.

(** ** Machine integers

    A [uN] is a [Z] in [0, 2^N); casts and overflow wrap, as in the release
    profile of the workspace (no [overflow-checks] in [Cargo.toml]). *)
Definition wrap (w : Z) (z : Z) : Z := z mod 2 ^ w.
Definition in_u (w : Z) (z : Z) : Prop := 0 ≤ z < 2 ^ w.
Definition in_i (w : Z) (z : Z) : Prop := - 2 ^ (w - 1) ≤ z < 2 ^ (w - 1).
Definition u_max (w : Z) : Z := 2 ^ w - 1.
(** two's complement re-reading of an unsigned pattern as a signed value *)
Definition as_signed (w : Z) (z : Z) : Z :=
  let z := wrap w z in if bool_decide (z < 2 ^ (w - 1)) then z else z - 2 ^ w.
Definition saturating_sub (a b : Z) : Z := Z.max 0 (a - b).

(** ** Bytes *)
Abbreviation bytes := (list byte).

Definition u8 (b : byte) : Z := Z.of_N (Byte.to_N b).
#[global] Arguments u8 : simpl never.
(** [z as u8] *)
Definition to_u8 (z : Z) : byte :=
  match Byte.of_N (Z.to_N (z mod 256)) with Some b => b | None => x00 end.

#[global] Instance byte_eq_dec : EqDecision byte := Byte.byte_eq_dec.

(** [len() as u64] *)
Definition blen {A} (l : list A) : Z := Z.of_nat (length l).

(** [x.to_le_bytes()] and [uN::from_le_bytes]: [n] bytes, least significant first. *)
Fixpoint le_bytes (n : nat) (z : Z) : bytes :=
  match n with
  | O => []
  | S n => to_u8 z :: le_bytes n (z / 256)
  end.

Fixpoint from_le (bs : bytes) : Z :=
  match bs with
  | [] => 0
  | b :: bs => u8 b + 256 * from_le bs
  end.

(** [x.to_be_bytes()] and [uN::from_be_bytes]. *)
Definition be_bytes (n : nat) (z : Z) : bytes := reverse (le_bytes n z).
Definition from_be (bs : bytes) : Z := from_le (reverse bs).

(** [&data[a..b]]: panics when [a > b] or [b > data.len()]. *)
Definition slice {E} (data : bytes) (a b : nat) : res E bytes :=
  if bool_decide (a ≤ b ∧ b ≤ length data)%nat
  then Ok (take (b - a) (drop a data)) else Panic.

(** ** Lexicographic order of byte strings ([Ord for [u8]]) *)
Fixpoint bcmp (a b : bytes) : comparison :=
  match a, b with
  | [], [] => Eq
  | [], _ :: _ => Lt
  | _ :: _, [] => Gt
  | x :: a, y :: b =>
      match u8 x ?= u8 y with Eq => bcmp a b | c => c end
  end.

Definition blt (a b : bytes) : bool := match bcmp a b with Lt => true | _ => false end.
Definition ble (a b : bytes) : bool := match bcmp a b with Gt => false | _ => true end.

(** sequencing of comparisons: the second decides only when the first is [Eq] *)
Definition cmp_then (c d : comparison) : comparison :=
  match c with Eq => d | _ => c end.

(** ** Automation *)
Create HintDb rust discriminated.
Create Rewrite HintDb rust.

Lemma res_bind_ok {E A B} (m : res E A) (k : A → res E B) b :
  res_bind m k = Ok b → ∃ a, m = Ok a ∧ k a = Ok b.
Proof. destruct m; naive_solver. Qed.

Lemma res_bind_err {E A B} (m : res E A) (k : A → res E B) e :
  res_bind m k = Err e → m = Err e ∨ ∃ a, m = Ok a ∧ k a = Err e.
Proof. destruct m; naive_solver. Qed.

Lemma res_bind_panic {E A B} (m : res E A) (k : A → res E B) :
  res_bind m k = Panic → m = Panic ∨ ∃ a, m = Ok a ∧ k a = Panic.
Proof. destruct m; naive_solver. Qed.

Lemma Ok_inj {E A} (a b : A) : Ok (E:=E) a = Ok b → a = b.
Proof. congruence. Qed.

Lemma res_bind_assoc {E A B C} (m : res E A) (k : A → res E B) (h : B → res E C) :
  res_bind (res_bind m k) h = res_bind m (λ a, res_bind (k a) h).
Proof. by destruct m. Qed.

Lemma expect_ok {E A} (o : option A) a : expect (E:=E) o = Ok a → o = Some a.
Proof. destruct o; naive_solver. Qed.

Lemma try_map_ok {E A B} (f : A → res E B) (g : A → B) (l : list A) :
  (∀ x, x ∈ l → f x = Ok (g x)) → try_map f l = Ok (g <$> l).
Proof.
  induction l as [|x l IH]; intros H; cbn [try_map]; [done|]. rewrite H by left. cbn [res_bind].
  rewrite IH; [done|]. intros y Hy. apply H. by right.
Qed.

Lemma try_map_forall2 {E A B} (f : A → res E B) (l : list A) (k : list B) :
  try_map f l = Ok k ↔ Forall2 (λ x y, f x = Ok y) l k.
Proof.
  revert k. induction l as [|x l IH]; intros k; cbn [try_map].
  - split; [intros [= <-]; constructor|by inversion 1].
  - split.
    + intros (y & Hy & (ys & Hys & [= <-])%res_bind_ok)%res_bind_ok. constructor; [done|]. by apply IH.
    + inversion 1 as [|? y ? ys Hy Hys]; subst. rewrite Hy. cbn [res_bind]. apply IH in Hys. by rewrite Hys.
Qed.

Lemma try_map_exists {E A B} (f : A → res E B) (Q : A → B → Prop) (l : list A) :
  (∀ x, x ∈ l → ∃ y, f x = Ok y ∧ Q x y) → ∃ ys, try_map f l = Ok ys ∧ Forall2 Q l ys.
Proof.
  induction l as [|x l IH]; intros H; cbn [try_map]; [by exists []|]. destruct (H x ltac:(left)) as (y & -> & Hy).
  destruct IH as (ys & -> & Hys); [intros; apply H; by right|]. cbn. exists (y :: ys). by split; [|constructor].
Qed.

(** Invert every successful bind in the context. *)
Ltac inv_ok :=
  repeat match goal with
  | H : res_bind _ _ = Ok _ |- _ =>
      let a := fresh "a" in let H1 := fresh H in
      apply res_bind_ok in H as (a & H1 & H); cbn beta in H
  | H : Ok _ = Ok _ |- _ => injection H as H
  | H : Err _ = Ok _ |- _ => discriminate H
  | H : Panic = Ok _ |- _ => discriminate H
  | H : Ok _ = Err _ |- _ => discriminate H
  | H : Ok _ = Panic |- _ => discriminate H
  | H : expect _ = Ok _ |- _ => apply expect_ok in H
  | H : (if ?b then _ else _) = Ok _ |- _ => destruct b eqn:?; try discriminate H
  | H : match ?x with _ => _ end = Ok _ |- _ => destruct x eqn:?; try discriminate H
  end.

(** Turn boolean tests of the code into propositions. *)
Ltac reflect :=
  repeat match goal with
  | H : bool_decide _ = true |- _ => apply bool_decide_eq_true in H
  | H : bool_decide _ = false |- _ => apply bool_decide_eq_false in H
  | H : (_ && _)%bool = true |- _ => apply andb_true_iff in H as [? ?]
  | H : (_ || _)%bool = false |- _ => apply orb_false_iff in H as [? ?]
  | H : negb _ = true |- _ => apply negb_true_iff in H
  | H : negb _ = false |- _ => apply negb_false_iff in H
  | H : (_ =? _) = true |- _ => apply Z.eqb_eq in H
  | H : (_ =? _) = false |- _ => apply Z.eqb_neq in H
  | H : (_ <? _) = true |- _ => apply Z.ltb_lt in H
  | H : (_ <? _) = false |- _ => apply Z.ltb_ge in H
  | H : (_ <=? _) = true |- _ => apply Z.leb_le in H
  | H : (_ <=? _) = false |- _ => apply Z.leb_gt in H
  end.

(** Case analysis on an integer test of the goal. *)
Ltac case_z :=
  match goal with
  | |- context [?x <? ?y] => destruct (Z.ltb_spec x y)
  | |- context [?x <=? ?y] => destruct (Z.leb_spec x y)
  | |- context [?x =? ?y] => destruct (Z.eqb_spec x y)
  end.

(** ** Lemmas on machine integers *)
Lemma wrap_small w z : in_u w z → wrap w z = z.
Proof. intros [? ?]. by apply Z.mod_small. Qed.

Lemma wrap_range w z : 0 ≤ w → in_u w (wrap w z).
Proof. intros. apply Z.mod_pos_bound. lia. Qed.

Lemma as_signed_mod z : in_i 64 z → as_signed 64 (z mod 256 ^ Z.of_nat 8) = z.
Proof.
  unfold in_i, as_signed, wrap. change (256 ^ Z.of_nat 8) with (2 ^ 64). intros Hz.
  rewrite Z.mod_mod by lia. case_bool_decide as Hb.
  - destruct (decide (0 ≤ z)); [by rewrite Z.mod_small in * by lia|].
    rewrite <-(Z.mod_add _ 1), Z.mod_small in Hb by lia. lia.
  - destruct (decide (0 ≤ z)); [rewrite Z.mod_small in Hb by lia; lia|].
    rewrite <-(Z.mod_add _ 1), Z.mod_small by lia. lia.
Qed.

Lemma saturating_sub_le a b : b ≤ a → saturating_sub a b = a - b.
Proof. unfold saturating_sub. lia. Qed.

#[export] Hint Rewrite wrap_small using (unfold in_u in *; lia) : rust.

(** a value and the bits below it do not overlap: [|] and [^] are [+] *)
Lemma land_low_bits h l d : 0 ≤ d → 0 ≤ l < 2 ^ d → Z.land (h * 2 ^ d) l = 0.
Proof.
  intros Hd Hl. apply Z.bits_inj'. intros i Hi.
  rewrite Z.land_spec, <-Z.shiftl_mul_pow2, Z.shiftl_spec, Z.bits_0 by lia.
  destruct (Z.ltb_spec i d).
  - by rewrite Z.testbit_neg_r by lia.
  - rewrite <-(Z.mod_small l (2 ^ d)), Z.mod_pow2_bits_high by lia. apply andb_false_r.
Qed.

Lemma lxor_low_bits h l d : 0 ≤ d → 0 ≤ l < 2 ^ d → Z.lxor (h * 2 ^ d) l = h * 2 ^ d + l.
Proof. intros. by rewrite Z.add_nocarry_lxor by by apply land_low_bits. Qed.

Lemma lor_low_bits h l d : 0 ≤ d → 0 ≤ l < 2 ^ d → Z.lor (h * 2 ^ d) l = h * 2 ^ d + l.
Proof. intros. rewrite <-Z.lxor_lor by by apply land_low_bits. by apply lxor_low_bits. Qed.

(** ** Lemmas on bytes *)
Lemma u8_range b : 0 ≤ u8 b < 256.
Proof. unfold u8. pose proof (Byte.to_N_bounded b). lia. Qed.

Lemma u8_to_u8 z : u8 (to_u8 z) = z mod 256.
Proof.
  unfold u8, to_u8. pose proof (Z.mod_pos_bound z 256 ltac:(lia)).
  destruct (Byte.of_N _) as [b|] eqn:Hb.
  - apply Byte.to_of_N in Hb. rewrite Hb. lia.
  - apply Byte.of_N_None_iff in Hb. lia.
Qed.

Lemma to_u8_u8 b : to_u8 (u8 b) = b.
Proof.
  unfold to_u8. rewrite Z.mod_small by apply u8_range.
  unfold u8. by rewrite N2Z.id, Byte.of_to_N.
Qed.

#[global] Instance u8_inj : Inj (=) (=) u8.
Proof. intros a b H. by rewrite <-(to_u8_u8 a), H, to_u8_u8. Qed.

Lemma to_u8_mod z : to_u8 (z mod 256) = to_u8 z.
Proof. unfold to_u8. by rewrite Z.mod_mod. Qed.

Lemma le_bytes_length n z : length (le_bytes n z) = n.
Proof. revert z. induction n; intros; simpl; auto. Qed.

Lemma be_bytes_length n z : length (be_bytes n z) = n.
Proof. unfold be_bytes. by rewrite length_reverse, le_bytes_length. Qed.

Lemma from_le_range bs : 0 ≤ from_le bs < 256 ^ Z.of_nat (length bs).
Proof.
  induction bs as [|b bs IH]; cbn [from_le length]; [lia|].
  rewrite Nat2Z.inj_succ, Z.pow_succ_r by lia. pose proof (u8_range b). lia.
Qed.

Lemma from_be_range bs : 0 ≤ from_be bs < 256 ^ Z.of_nat (length bs).
Proof. unfold from_be. rewrite <-(length_reverse bs). apply from_le_range. Qed.

Lemma from_le_le_bytes n z : from_le (le_bytes n z) = z mod 256 ^ Z.of_nat n.
Proof.
  revert z. induction n as [|n IH]; intros z; cbn [le_bytes from_le].
  - by rewrite Z.mod_1_r.
  - rewrite IH, u8_to_u8, Nat2Z.inj_succ, Z.pow_succ_r by lia.
    by rewrite Z.rem_mul_r by lia.
Qed.

Lemma le_bytes_from_le bs : le_bytes (length bs) (from_le bs) = bs.
Proof.
  induction bs as [|b bs IH]; cbn [le_bytes from_le length]; [done|].
  pose proof (u8_range b). f_equal.
  - rewrite <-to_u8_mod, (Z.mul_comm 256), Z_mod_plus_full, Z.mod_small by lia.
    apply to_u8_u8.
  - rewrite (Z.mul_comm 256), Z.div_add, Z.div_small, Z.add_0_l by lia. done.
Qed.

Lemma from_be_be_bytes n z : from_be (be_bytes n z) = z mod 256 ^ Z.of_nat n.
Proof. unfold from_be, be_bytes. by rewrite reverse_involutive, from_le_le_bytes. Qed.

Lemma be_bytes_from_be bs : be_bytes (length bs) (from_be bs) = bs.
Proof.
  unfold from_be, be_bytes. rewrite <-length_reverse, le_bytes_from_le.
  apply reverse_involutive.
Qed.

(** the byte widths used by the program *)
Lemma pow256 n : 256 ^ Z.of_nat n = 2 ^ (8 * Z.of_nat n).
Proof. by rewrite Z.pow_mul_r by lia. Qed.

Lemma from_le_roundtrip n z : in_u (8 * Z.of_nat n) z → from_le (le_bytes n z) = z.
Proof. intros. rewrite from_le_le_bytes, pow256. by apply wrap_small. Qed.

Lemma from_be_roundtrip n z : in_u (8 * Z.of_nat n) z → from_be (be_bytes n z) = z.
Proof. intros. rewrite from_be_be_bytes, pow256. by apply wrap_small. Qed.

Lemma from_be_cons b bs :
  from_be (b :: bs) = u8 b * 256 ^ Z.of_nat (length bs) + from_be bs.
Proof.
  unfold from_be. rewrite reverse_cons.
  rewrite <-(length_reverse bs). induction (reverse bs) as [|c l IH]; cbn [from_le app length].
  - lia.
  - rewrite IH, Nat2Z.inj_succ, Z.pow_succ_r by lia. ring.
Qed.

Lemma from_be_app a b :
  from_be (a ++ b) = from_be a * 256 ^ Z.of_nat (length b) + from_be b.
Proof.
  induction a as [|x a IH]; cbn [app].
  - unfold from_be at 2. cbn. lia.
  - rewrite !from_be_cons, IH, length_app, Nat2Z.inj_add, Z.pow_add_r by lia. ring.
Qed.

Lemma from_be_singleton b : from_be [b] = u8 b.
Proof. rewrite from_be_cons. unfold from_be. cbn. lia. Qed.

Lemma slice_ok {E} data a b :
  (a ≤ b ∧ b ≤ length data)%nat → slice (E:=E) data a b = Ok (take (b - a) (drop a data)).
Proof. intros. unfold slice. by rewrite bool_decide_eq_true_2. Qed.

(** ** Lemmas on the lexicographic order *)
Lemma bcmp_refl a : bcmp a a = Eq.
Proof. induction a as [|x a IH]; simpl; [done|]. by rewrite Z.compare_refl. Qed.

Lemma bcmp_eq a b : bcmp a b = Eq ↔ a = b.
Proof.
  split; [|intros ->; apply bcmp_refl].
  revert b. induction a as [|x a IH]; intros [|y b]; simpl; try done.
  destruct (u8 x ?= u8 y) eqn:Hc; try done.
  intros. apply Z.compare_eq, (inj u8) in Hc. f_equal; auto.
Qed.

Lemma bcmp_opp a b : bcmp b a = CompOpp (bcmp a b).
Proof.
  revert b. induction a as [|x a IH]; intros [|y b]; simpl; try done.
  rewrite Z.compare_antisym. destruct (u8 x ?= u8 y); simpl; auto.
Qed.

Lemma bcmp_app a s t : bcmp (a ++ s) (a ++ t) = bcmp s t.
Proof. induction a as [|x a IH]; simpl; [done|]. by rewrite Z.compare_refl. Qed.

Lemma bcmp_lt_trans a b c : bcmp a b = Lt → bcmp b c = Lt → bcmp a c = Lt.
Proof.
  revert b c. induction a as [|x a IH]; intros [|y b] [|z c]; simpl; try done.
  destruct (Z.compare_spec (u8 x) (u8 y)), (Z.compare_spec (u8 y) (u8 z)),
    (Z.compare_spec (u8 x) (u8 z)); try done; try lia.
  apply IH.
Qed.

Lemma bcmp_cons_lt x y a b : u8 x < u8 y → bcmp (x :: a) (y :: b) = Lt.
Proof. intros H%Z.compare_lt_iff. simpl. by rewrite H. Qed.

Lemma ble_refl a : ble a a = true.
Proof. unfold ble. by rewrite bcmp_refl. Qed.

Lemma ble_trans a b c : ble a b = true → ble b c = true → ble a c = true.
Proof.
  unfold ble. destruct (bcmp a b) eqn:Hab, (bcmp b c) eqn:Hbc; try done; intros _ _.
  - apply bcmp_eq in Hab as ->. by rewrite Hbc.
  - apply bcmp_eq in Hab as ->. by rewrite Hbc.
  - apply bcmp_eq in Hbc as ->. by rewrite Hab.
  - by rewrite (bcmp_lt_trans _ _ _ Hab Hbc).
Qed.

Lemma blt_not_ble a b : blt a b = negb (ble b a).
Proof. unfold blt, ble. rewrite (bcmp_opp a b). by destruct (bcmp a b). Qed.

Lemma ble_blt_trans a b c : ble a b = true → blt b c = true → blt a c = true.
Proof.
  rewrite !blt_not_ble, !negb_true_iff. intros Hab Hcb. destruct (ble c a) eqn:Hca; [|done].
  by rewrite (ble_trans c a b) in Hcb.
Qed.

Lemma blt_ble a b : blt a b = true → ble a b = true.
Proof. unfold blt, ble. by destruct (bcmp a b). Qed.

Lemma ble_app_l p a b : ble (p ++ a) (p ++ b) = ble a b.
Proof. unfold ble. by rewrite bcmp_app. Qed.

Lemma blt_app_l p a b : blt (p ++ a) (p ++ b) = blt a b.
Proof. unfold blt. by rewrite bcmp_app. Qed.

Lemma ble_app p s : ble p (p ++ s) = true.
Proof.
  unfold ble. rewrite <-(app_nil_r p) at 1. rewrite bcmp_app. by destruct s.
Qed.

(** Two strings of one length: the order of the big-endian numbers they spell. *)
Lemma bcmp_from_be a b :
  length a = length b → bcmp a b = (from_be a ?= from_be b).
Proof.
  revert b. induction a as [|x a IH]; intros [|y b]; simpl; try done.
  intros [= Hlen]. rewrite !from_be_cons, Hlen.
  pose proof (from_be_range a) as Ha. rewrite Hlen in Ha.
  pose proof (from_be_range b).
  destruct (Z.compare_spec (u8 x) (u8 y)) as [->|?|?].
  - rewrite (IH b Hlen). symmetry. apply Z.add_compare_mono_l.
  - symmetry. apply Z.compare_lt_iff. nia.
  - symmetry. apply Z.compare_gt_iff. nia.
Qed.

Lemma bcmp_be n a b :
  in_u (8 * Z.of_nat n) a → in_u (8 * Z.of_nat n) b →
  bcmp (be_bytes n a) (be_bytes n b) = (a ?= b).
Proof.
  intros. rewrite bcmp_from_be by by rewrite !be_bytes_length.
  by rewrite !from_be_roundtrip.
Qed.

(** strings of one length followed by anything *)
Lemma bcmp_app_same_length a b s t :
  length a = length b → bcmp (a ++ s) (b ++ t) = cmp_then (bcmp a b) (bcmp s t).
Proof.
  revert b. induction a as [|x a IH]; intros [|y b]; simpl; try done.
  intros [= Hlen]. destruct (u8 x ?= u8 y); simpl; auto.
Qed.

(** ** Filters and sorted lists *)
Lemma filter_all {A} (P : A → Prop) `{∀ x, Decision (P x)} l : Forall P l → filter P l = l.
Proof. induction 1; [done|]. rewrite filter_cons_True by done. congruence. Qed.

Lemma elem_of_concat {A} (x : A) ls : x ∈ concat ls ↔ ∃ l, x ∈ l ∧ l ∈ ls.
Proof. rewrite list_elem_of_In, in_concat. setoid_rewrite list_elem_of_In. naive_solver. Qed.

Lemma Forall2_elem_l {A B} (P : A → B → Prop) l l' x : Forall2 P l l' → x ∈ l → ∃ y, y ∈ l' ∧ P x y.
Proof.
  induction 1 as [|a b l l' Hab Hf IH]; [by intros ?%not_elem_of_nil|]. intros [->|Hx]%elem_of_cons.
  - exists b. split; [left|done].
  - destruct (IH Hx) as (y & Hy & Hp). exists y. split; [by right|done].
Qed.

Lemma Forall2_elem_r {A B} (P : A → B → Prop) l l' y : Forall2 P l l' → y ∈ l' → ∃ x, x ∈ l ∧ P x y.
Proof. intros Hf%Forall2_flip Hy. by destruct (Forall2_elem_l _ _ _ _ Hf Hy) as (x & Hx & Hp); eauto. Qed.

Lemma Forall_filter {A} (P Q : A → Prop) `{∀ x, Decision (P x)} l : Forall Q l → Forall Q (filter P l).
Proof. rewrite !Forall_forall. intros Hq x [_ Hx]%list_elem_of_filter. auto. Qed.

Lemma filter_none {A} (P : A → Prop) `{∀ x, Decision (P x)} l : Forall (λ x, ¬ P x) l → filter P l = [].
Proof. induction 1; [done|]. by rewrite filter_cons_False. Qed.

Lemma StronglySorted_app_inv {A} (R : A → A → Prop) l1 l2 :
  StronglySorted R (l1 ++ l2) →
  StronglySorted R l1 ∧ StronglySorted R l2 ∧ ∀ x y, x ∈ l1 → y ∈ l2 → R x y.
Proof.
  induction l1 as [|a l1 IH]; simpl; intros H.
  - split_and!; [constructor|done|]. by intros x y ?%elem_of_nil.
  - apply StronglySorted_inv in H as [H Ha]. destruct (IH H) as (H1 & H2 & H3).
    apply Forall_app in Ha as [Ha1 Ha2]. rewrite Forall_forall in Ha2.
    split_and!; [by constructor|done|]. intros x y [->|Hx]%elem_of_cons Hy; eauto.
Qed.

Lemma sorted_app {A} (R : A → A → Prop) l1 l2 :
  StronglySorted R l1 → StronglySorted R l2 → (∀ x y, x ∈ l1 → y ∈ l2 → R x y) → StronglySorted R (l1 ++ l2).
Proof.
  induction 1 as [|x l1 Hl IH Hx]; intros H2 H3; [done|]. simpl. constructor.
  - apply IH; [done|]. intros a b Ha. apply H3. by right.
  - apply Forall_app. split; [done|]. apply Forall_forall. intros y Hy. apply H3; [left|done].
Qed.

Lemma sorted_filter {A} (R : A → A → Prop) (P : A → Prop) `{!∀ x, Decision (P x)} l :
  StronglySorted R l → StronglySorted R (filter P l).
Proof.
  induction 1 as [|a l Hl IH Ha]; [constructor|]. rewrite filter_cons. case_decide; [|done].
  constructor; [done|]. rewrite Forall_forall in Ha |- *. intros x [_ Hx]%list_elem_of_filter. auto.
Qed.

Lemma sorted_fmap {A B} (R : A → A → Prop) (Q : B → B → Prop) (f : A → B) l :
  (∀ x y, x ∈ l → y ∈ l → R x y → Q (f x) (f y)) → StronglySorted R l → StronglySorted Q (f <$> l).
Proof.
  intros Hf Hl. induction Hl as [|a l Hl IH Ha]; [constructor|]. rewrite fmap_cons. constructor.
  - apply IH. intros x y Hx Hy. apply Hf; by right.
  - apply Forall_fmap, Forall_forall. intros x Hx. apply Hf; [left|by right|].
    rewrite Forall_forall in Ha. by apply Ha.
Qed.

Lemma sorted_total {A} (R : A → A → Prop) l x y :
  StronglySorted R l → x ∈ l → y ∈ l → x = y ∨ R x y ∨ R y x.
Proof.
  induction 1 as [|z l Hl IH Hz]; [by intros ?%not_elem_of_nil|]. rewrite Forall_forall in Hz.
  intros [-> | Hx]%elem_of_cons [-> | Hy]%elem_of_cons; auto.
Qed.

Lemma sorted_split {A} (R : A → A → Prop) (P : A → Prop) `{!∀ x, Decision (P x)} l :
  (∀ x y, R x y → P y → P x) → StronglySorted R l → l = filter P l ++ filter (λ x, ¬ P x) l.
Proof.
  intros HP. induction 1 as [|x l Hl IH Hx]; [done|]. destruct (decide (P x)) as [Hp|Hp].
  - rewrite filter_cons_True, filter_cons_False by tauto. simpl. by rewrite <-IH.
  - rewrite filter_cons_False, (filter_cons_True (λ x, ¬ P x)) by tauto.
    assert (Hn : filter P l = []).
    { apply filter_none. eapply Forall_impl; [exact Hx|]. intros y Hy Hpy. eauto. }
    rewrite Hn in IH |- *. simpl in *. by rewrite <-IH.
Qed.

Lemma filter_fmap {A B} (f : A → B) (P : B → Prop) `{!∀ x, Decision (P x)} (l : list A) :
  filter P (f <$> l) = f <$> filter (λ x, P (f x)) l.
Proof.
  induction l as [|x l IH]; [done|]. rewrite fmap_cons, !filter_cons. case_decide; by rewrite IH.
Qed.

Lemma filter_subseteq {A} (P : A → Prop) `{!∀ x, Decision (P x)} (l : list A) : filter P l ⊆ l.
Proof. intros x Hx. by apply list_elem_of_filter in Hx as [_ ?]. Qed.
