(* ===== verification/HashMap.v ===== *)
(** * std::collections::HashMap

    A hash map is a finite map; what its type does not fix is the order in which it
    is iterated.  That order is an argument of the code that iterates ([HashOrder]),
    of which nothing is assumed but that every entry comes once. *)
From stdpp Require Export gmap.
From S2P Require Import Prelude.

Class HashOrder : Type := {
  hash_iter {K A} `{Countable K} : gmap K A → list (K * A);
}.
Class HashOrderLaws `{!HashOrder} : Prop := {
  hash_iter_perm {K A} `{Countable K} (m : gmap K A) : hash_iter m ≡ₚ map_to_list m;
}.

#[global] Instance byte_countable : Countable byte := inj_countable' u8 to_u8 to_u8_u8.

(** the order of the finite maps of the model: an instance *)
Definition tree_order : HashOrder := {| hash_iter K A _ _ := map_to_list |}.

Lemma tree_order_laws : @HashOrderLaws tree_order.
Proof. split. done. Qed.

(** the values, keys of a map *)
Definition hash_values `{HashOrder} {K A} `{Countable K} (m : gmap K A) : list A := snd <$> hash_iter m.
Definition hash_keys `{HashOrder} {K A} `{Countable K} (m : gmap K A) : list K := fst <$> hash_iter m.

Section laws.
Context {HO : HashOrder} {HOL : HashOrderLaws}.
Context {K A : Type} `{Countable K}.

Lemma elem_of_hash_iter (m : gmap K A) k x : (k, x) ∈ hash_iter m ↔ m !! k = Some x.
Proof. by rewrite hash_iter_perm, elem_of_map_to_list. Qed.

Lemma elem_of_hash_values (m : gmap K A) x : x ∈ hash_values m ↔ ∃ k, m !! k = Some x.
Proof.
  unfold hash_values. rewrite list_elem_of_fmap. split.
  - intros ([k y] & -> & Hk%elem_of_hash_iter). by exists k.
  - intros [k Hk]. exists (k, x). split; [done|]. by apply elem_of_hash_iter.
Qed.

Lemma hash_iter_nodup (m : gmap K A) : NoDup (fst <$> hash_iter m).
Proof. rewrite hash_iter_perm. apply NoDup_fst_map_to_list. Qed.
End laws.

(** ** A loop of [insert]s *)
Definition insert_all {K A} `{Countable K} (m : gmap K A) (l : list (K * A)) : gmap K A :=
  foldl (λ m kv, <[kv.1 := kv.2]> m) m l.

Section insert_all.
Context {K A : Type} `{Countable K}.
Implicit Types (m : gmap K A) (l : list (K * A)).

Lemma insert_all_app m l l' : insert_all m (l ++ l') = insert_all (insert_all m l) l'.
Proof. apply foldl_app. Qed.

Lemma insert_all_elem m l k x : insert_all m l !! k = Some x → (k, x) ∈ l ∨ m !! k = Some x.
Proof.
  induction l as [|[k' y] l IH] using rev_ind; [by right|]. rewrite insert_all_app. cbn. rewrite lookup_insert.
  case_decide as He; [intros [= ->]; left; subst; set_solver|]. intros [?|?]%IH; [set_solver|by right].
Qed.

Lemma insert_all_is_Some m l k : is_Some (insert_all m l !! k) ↔ k ∈ l.*1 ∨ is_Some (m !! k).
Proof.
  induction l as [|[k' y] l IH] using rev_ind; [set_solver|]. rewrite insert_all_app, fmap_app, elem_of_app. cbn.
  rewrite lookup_insert, list_elem_of_singleton. case_decide as He; [naive_solver|]. rewrite IH. naive_solver.
Qed.
End insert_all.

(** ** Loops over maps and sets *)
Section hash_loops.
Context {HO : HashOrder} {HOL : HashOrderLaws}.
Context {K A : Type} `{Countable K}.
Implicit Types (m u : gmap K A) (l : list (K * A)).

Lemma hash_iter_map u : list_to_map (hash_iter u) = u.
Proof. rewrite <-(list_to_map_to_list u) at 2. apply list_to_map_proper; [apply hash_iter_nodup|apply hash_iter_perm]. Qed.

Lemma insert_all_lookup m l k :
  NoDup l.*1 → insert_all m l !! k = match list_to_map (M:=gmap K A) l !! k with Some x => Some x | None => m !! k end.
Proof.
  revert m. induction l as [|[k' z] l IH]; intros m Hn; [done|]. rewrite fmap_cons, NoDup_cons in Hn. destruct Hn as [Hk Hn].
  change (insert_all m ((k', z) :: l)) with (insert_all (<[k' := z]> m) l). rewrite IH by done. rewrite list_to_map_cons.
  destruct (decide (k' = k)) as [<-|Hne].
  - by rewrite (not_elem_of_list_to_map_1 (M:=gmap K) l k' Hk), !lookup_insert_eq.
  - by rewrite !lookup_insert_ne.
Qed.

(** the entries of a map, inserted in any order, take precedence *)
Lemma insert_all_hash m u k : insert_all m (hash_iter u) !! k = match u !! k with Some x => Some x | None => m !! k end.
Proof. by rewrite insert_all_lookup, hash_iter_map by apply hash_iter_nodup. Qed.

(** a loop of [remove]s *)
Lemma delete_all_lookup m (ks : list K) k :
  foldl (λ m k, delete k m) m ks !! k = if bool_decide (k ∈ ks) then None else m !! k.
Proof.
  revert m. induction ks as [|k' ks IH]; intros m; [done|]. cbn [foldl]. rewrite IH, lookup_delete.
  destruct (decide (k' = k)) as [->|Hne].
  - rewrite (bool_decide_eq_true_2 (k ∈ k :: ks)) by left. by case_bool_decide.
  - rewrite (bool_decide_ext (k ∈ k' :: ks) (k ∈ ks)); [done|]. rewrite elem_of_cons. naive_solver.
Qed.
End hash_loops.
