(* ===== verification/Heap.v ===== *)
(** * [std::collections::BinaryHeap]

    A heap as the bag of its elements, most recently pushed first: [pop] takes a
    greatest element of the order and leaves the others.  Which of several greatest
    elements it takes is not specified by the standard library. *)
From S2P Require Import Prelude.

Section heap.
Context {A : Type} (cmp : A → A → comparison).

Fixpoint heap_pop_by (heap : list A) : option (A * list A) :=
  match heap with
  | [] => None
  | e :: heap =>
      match heap_pop_by heap with
      | None => Some (e, [])
      | Some (m, rest) => match cmp e m with Lt => Some (m, e :: rest) | _ => Some (e, m :: rest) end
      end
  end.
Definition heap_peek_by (heap : list A) : option A := fst <$> heap_pop_by heap.

Lemma heap_pop_perm heap :
  match heap_pop_by heap with None => heap = [] | Some (m, rest) => heap ≡ₚ m :: rest end.
Proof.
  induction heap as [|e heap IH]; [done|]. cbn [heap_pop_by]. destruct (heap_pop_by heap) as [[m rest]|]; [|by subst].
  destruct (cmp e m); [by rewrite IH|by rewrite IH, Permutation_swap|by rewrite IH].
Qed.

(** the elements on which [cmp] is an order *)
Context (P : A → Prop).
Context (cmp_antisym : ∀ a b, P a → P b → cmp b a = CompOpp (cmp a b)).
Context (cmp_trans : ∀ a b c, P a → P b → P c → cmp a b ≠ Gt → cmp b c ≠ Gt → cmp a c ≠ Gt).

Lemma heap_pop_max heap m rest :
  Forall P heap → heap_pop_by heap = Some (m, rest) → Forall (λ e, cmp e m ≠ Gt) rest.
Proof.
  revert m rest. induction heap as [|e heap IH]; intros m rest Hp; [done|]. apply Forall_cons in Hp as [He Hp].
  cbn [heap_pop_by]. pose proof (heap_pop_perm heap) as Hperm.
  destruct (heap_pop_by heap) as [[m' rest']|]; [|by intros [= <- <-]].
  rewrite Hperm in Hp. apply Forall_cons in Hp as [Hm' Hr]. specialize (IH m' rest').
  rewrite Hperm in IH. specialize (IH ltac:(by constructor) eq_refl).
  destruct (cmp e m') eqn:Hc; [|intros [= <- <-]; constructor; [by rewrite Hc|done]|];
    (assert (Hme : cmp m' e ≠ Gt) by (rewrite (cmp_antisym e m') by done; by rewrite Hc));
    intros [= <- <-]; (constructor; [done|]); rewrite Forall_forall in Hr, IH |- *; intros x Hx;
    apply (cmp_trans x m' e); auto.
Qed.
End heap.
