(* ===== verification/Codec.v ===== *)
(** * Interfaces of the key and value codecs

    What a serialization format of [common::serde] promises to the code that
    concatenates encoded fields into storage keys.  The codecs discharge these
    classes; clients (composite keys, range scans) are proved against them. *)
From S2P Require Import Prelude.

(** A decoder that consumes exactly what the encoder wrote and hands back the
    rest of the buffer. *)
Class SelfDelimiting {A E : Type} (wf : A → Prop)
    (enc : A → bytes) (dec : bytes → res E (A * bytes)) : Prop :=
  decode_encode : ∀ a s, wf a → dec (enc a ++ s) = Ok (a, s).

(** An encoding that can be used as a field of a sorted key: the byte order of
    two keys is decided by the order of the fields' values, and what follows
    only counts when the values are equal. *)
Class OrderedField {A : Type} (wf : A → Prop)
    (cmp : A → A → comparison) (enc : A → bytes) : Prop :=
  ordered_field : ∀ a b s t, wf a → wf b →
    bcmp (enc a ++ s) (enc b ++ t) = cmp_then (cmp a b) (bcmp s t).

(** Concatenation of two fields. *)
Definition enc_pair {A B} (encA : A → bytes) (encB : B → bytes) (p : A * B) : bytes :=
  encA p.1 ++ encB p.2.

Definition dec_pair {A B E} (decA : bytes → res E (A * bytes))
    (decB : bytes → res E (B * bytes)) (buf : bytes) : res E ((A * B) * bytes) :=
  let? (a, buf) := decA buf in
  let? (b, buf) := decB buf in
  Ok ((a, b), buf).

Definition cmp_pair {A B} (cmpA : A → A → comparison) (cmpB : B → B → comparison)
    (p q : A * B) : comparison := cmp_then (cmpA p.1 q.1) (cmpB p.2 q.2).

Definition wf_pair {A B} (wfA : A → Prop) (wfB : B → Prop) (p : A * B) : Prop :=
  wfA p.1 ∧ wfB p.2.

Lemma cmp_then_assoc a b c : cmp_then (cmp_then a b) c = cmp_then a (cmp_then b c).
Proof. by destruct a. Qed.

Lemma cmp_then_eq_r c : cmp_then c Eq = c.
Proof. by destruct c. Qed.

Section self_delimiting.
Context {A E : Type} (wf : A → Prop) (enc : A → bytes) (dec : bytes → res E (A * bytes)).
Context `{!SelfDelimiting wf enc dec}.

(** No encoding of a value is a proper prefix of another: a buffer that starts
    with two encodings starts with the same value twice. *)
Lemma self_delimiting_prefix_free a b s t :
  wf a → wf b → enc a ++ s = enc b ++ t → a = b ∧ s = t.
Proof.
  intros Ha Hb Heq. pose proof (decode_encode a s Ha) as H1.
  rewrite Heq, (decode_encode b t Hb) in H1. by simplify_eq.
Qed.

Lemma self_delimiting_inj a b : wf a → wf b → enc a = enc b → a = b.
Proof.
  intros Ha Hb Heq. apply (self_delimiting_prefix_free a b [] []); auto.
  by rewrite Heq.
Qed.
End self_delimiting.

Lemma ordered_field_cmp {A} (wf : A → Prop) cmp enc `{!OrderedField wf cmp enc} a b :
  wf a → wf b → bcmp (enc a) (enc b) = cmp a b.
Proof.
  intros Ha Hb. pose proof (ordered_field a b [] [] Ha Hb) as H.
  rewrite !app_nil_r in H. rewrite H. apply cmp_then_eq_r.
Qed.

#[global] Instance self_delimiting_pair {A B E} (wfA : A → Prop) (wfB : B → Prop)
    encA encB (decA : bytes → res E (A * bytes)) decB :
  SelfDelimiting wfA encA decA → SelfDelimiting wfB encB decB →
  SelfDelimiting (wf_pair wfA wfB) (enc_pair encA encB) (dec_pair decA decB).
Proof.
  intros HA HB [a b] s [Ha Hb]. unfold enc_pair, dec_pair. simpl.
  rewrite <-app_assoc, (decode_encode a _ Ha). simpl.
  by rewrite (decode_encode b _ Hb).
Qed.

#[global] Instance ordered_field_pair {A B} (wfA : A → Prop) (wfB : B → Prop)
    cmpA cmpB encA encB :
  OrderedField wfA cmpA encA → OrderedField wfB cmpB encB →
  OrderedField (wf_pair wfA wfB) (cmp_pair cmpA cmpB) (enc_pair encA encB).
Proof.
  intros HA HB [a b] [a' b'] s t [Ha Hb] [Ha' Hb']. unfold enc_pair, cmp_pair. simpl.
  rewrite <-!app_assoc, (ordered_field a a') by done.
  rewrite (ordered_field b b') by done. by rewrite cmp_then_assoc.
Qed.

(** A fixed-width big-endian unsigned integer is an ordered, self-delimiting field. *)
#[global] Instance ordered_field_be n :
  OrderedField (in_u (8 * Z.of_nat n)) Z.compare (be_bytes n).
Proof.
  intros a b s t Ha Hb.
  rewrite bcmp_app_same_length by by rewrite !be_bytes_length.
  by rewrite bcmp_be.
Qed.

#[global] Instance ordered_field_u32 : OrderedField (in_u 32) Z.compare (be_bytes 4).
Proof. exact (ordered_field_be 4). Qed.

(** A half-open interval between two keys with the same first field holds exactly
    the keys with that field whose rest lies between the rests. *)
Lemma field_interval {A} (wf : A → Prop) cmp enc `{!OrderedField wf cmp enc} x z s t u :
  wf x → wf z →
  ble (enc x ++ s) (enc z ++ u) = true ∧ blt (enc z ++ u) (enc x ++ t) = true ↔
  cmp x z = Eq ∧ ble s u = true ∧ blt u t = true.
Proof.
  intros Hx Hz. unfold ble, blt. rewrite (ordered_field x z), (ordered_field z x) by done.
  assert (Hop : cmp z x = CompOpp (cmp x z)).
  { by rewrite <-(ordered_field_cmp wf cmp enc z x), <-(ordered_field_cmp wf cmp enc x z), (bcmp_opp (enc x)). }
  rewrite Hop. destruct (cmp x z); simpl; [tauto|naive_solver..].
Qed.

(** the same at the end of a key *)
Lemma field_interval_last {A} (wf : A → Prop) cmp enc `{!OrderedField wf cmp enc} x y z :
  wf x → wf y → wf z →
  ble (enc x) (enc z) = true ∧ blt (enc z) (enc y) = true ↔ cmp x z ≠ Gt ∧ cmp z y = Lt.
Proof.
  intros Hx Hy Hz. unfold ble, blt. rewrite !(ordered_field_cmp wf cmp enc) by done.
  destruct (cmp x z), (cmp z y); naive_solver.
Qed.
