(* ===== verification/Serde.v ===== *)
(** * common::serde: errors, key prefix, record tag and sequence block

    [DeserializeError] stands for the [message] of the Rust struct: one
    constructor per message the crate builds, with the values it interpolates. *)
From S2P Require Import Prelude Codec.

Inductive DeserializeError : Type :=
(* serde/key_prefix.rs *)
| KeyPrefixTooShort (got : Z)
| SubsystemReserved (byte : byte)
| VersionReserved (byte : byte)
| TagReserved (byte : byte)
| InvalidSubsystem (expected got : byte)
| InvalidKeyVersion (expected got : byte)
(* serde/record_tag.rs *)
| RecordTypeReserved (byte : byte)
(* serde/seq_block.rs *)
| SeqBlockTooShort (got : Z)
(* serde/varint.rs *)
| VarintMissingFirstByte
| VarintInvalidLengthCode (len_code : Z)
| VarintTruncated (expected got : Z)
| VarintTooLarge (value : Z)
(* serde/terminated_bytes.rs *)
| TruncatedEscape
| InvalidEscape (next : byte)
| Unterminated.

(** ** Key prefix: subsystem, version, record tag (one byte each) *)
Module KeyPrefix.

Record t : Type := mk { subsystem : byte; version : byte; tag : byte }.

(** [KeyPrefix::new]: reserved zero bytes panic. *)
Definition new {E} (subsystem version tag : byte) : res E t :=
  let? _ := rust_assert (0 <? u8 subsystem) in
  let? _ := rust_assert (0 <? u8 version) in
  let? _ := rust_assert (0 <? u8 tag) in
  Ok (mk subsystem version tag).

Definition validate_key_version (byte : byte) : res DeserializeError Byte.byte :=
  if u8 byte =? 0 then Err (VersionReserved byte) else Ok byte.

Definition validate_subsystem (byte : byte) : res DeserializeError Byte.byte :=
  if u8 byte =? 0 then Err (SubsystemReserved byte) else Ok byte.

Definition validate_record_tag (byte : byte) : res DeserializeError Byte.byte :=
  if u8 byte =? 0 then Err (TagReserved byte) else Ok byte.

Definition from_bytes (data : bytes) : res DeserializeError t :=
  match data with
  | b0 :: b1 :: b2 :: _ =>
      let? subsystem := validate_subsystem b0 in
      let? version := validate_key_version b1 in
      let? tag := validate_record_tag b2 in
      Ok (mk subsystem version tag)
  | _ => Err (KeyPrefixTooShort (blen data))
  end.

Definition from_bytes_with_validation (data : bytes)
    (expected_subsystem expected_version : byte) : res DeserializeError t :=
  let? prefix := from_bytes data in
  if negb (bool_decide (subsystem prefix = expected_subsystem)) then
    Err (InvalidSubsystem expected_subsystem (subsystem prefix))
  else if negb (bool_decide (version prefix = expected_version)) then
    Err (InvalidKeyVersion expected_version (version prefix))
  else Ok prefix.

Definition to_bytes (p : t) : bytes := [subsystem p; version p; tag p].

Definition write_to (p : t) (buf : bytes) : bytes :=
  ((buf ++ [subsystem p]) ++ [version p]) ++ [tag p].

(** the prefixes [new] can build *)
Definition wf (p : t) : Prop :=
  0 < u8 (subsystem p) ∧ 0 < u8 (version p) ∧ 0 < u8 (tag p).

Definition dec (buf : bytes) : res DeserializeError (t * bytes) :=
  let? p := from_bytes buf in Ok (p, drop 3 buf).

Definition cmp (p q : t) : comparison := bcmp (to_bytes p) (to_bytes q).

Lemma new_wf {E} s v g p : new (E:=E) s v g = Ok p → wf p ∧ p = mk s v g.
Proof.
  unfold new, rust_assert. intros. inv_ok. reflect. subst. unfold wf. simpl. auto.
Qed.

Lemma from_bytes_wf data p :
  from_bytes data = Ok p → wf p ∧ ∃ rest, data = to_bytes p ++ rest.
Proof.
  unfold from_bytes, validate_subsystem, validate_key_version, validate_record_tag.
  intros. inv_ok. reflect. subst. unfold wf, to_bytes. simpl.
  repeat match goal with b : byte |- _ =>
    lazymatch goal with _ : 0 ≤ u8 b < 256 |- _ => fail | _ => pose proof (u8_range b) end end.
  split; [lia|eauto].
Qed.

Lemma from_bytes_to_bytes p rest : wf p → from_bytes (to_bytes p ++ rest) = Ok p.
Proof.
  destruct p as [s v g]. unfold wf, from_bytes, to_bytes,
    validate_subsystem, validate_key_version, validate_record_tag. simpl.
  intros (?&?&?).
  by rewrite !(proj2 (Z.eqb_neq _ _)) by lia.
Qed.

#[global] Instance key_prefix_self_delimiting : SelfDelimiting wf to_bytes dec.
Proof. intros p s Hp. unfold dec. by rewrite from_bytes_to_bytes. Qed.

#[global] Instance key_prefix_ordered : OrderedField wf cmp to_bytes.
Proof. intros p q s t _ _. by apply bcmp_app_same_length. Qed.

End KeyPrefix.

(** ** Record tag: type in the high nibble, reserved bits in the low one *)
Module RecordTag.

Definition new {E} (record_type reserved : Z) : res E Z :=
  let? _ := rust_assert ((0 <? record_type) && (record_type <=? 0x0F)) in
  let? _ := rust_assert (reserved <=? 0x0F) in
  Ok (Z.lor (wrap 8 (Z.shiftl record_type 4)) reserved).

Definition from_byte (byte : Z) : res DeserializeError Z :=
  let record_type := Z.shiftr (Z.land byte 0xF0) 4 in
  if record_type =? 0 then Err (RecordTypeReserved (to_u8 byte)) else Ok byte.

Definition record_type (tag : Z) : Z := Z.shiftr (Z.land tag 0xF0) 4.
Definition reserved (tag : Z) : Z := Z.land tag 0x0F.
Definition as_byte (tag : Z) : Z := tag.

Definition with_reserved {E} (tag reserved : Z) : res E Z :=
  let? _ := rust_assert (reserved <=? 0x0F) in
  Ok (Z.lor (Z.land tag 0xF0) reserved).

Lemma land_240 z : in_u 8 z → Z.land z 0xF0 = 16 * (z / 16).
Proof.
  intros Hz. change 0xF0 with (Z.shiftl (Z.ones 4) 4).
  replace (16 * (z / 16)) with (Z.shiftl (Z.shiftr z 4) 4).
  2: { rewrite Z.shiftl_mul_pow2, Z.shiftr_div_pow2 by lia. apply Z.mul_comm. }
  apply Z.bits_inj'. intros i Hi.
  rewrite Z.land_spec, !Z.shiftl_spec, Z.testbit_ones by lia.
  destruct (Z.ltb_spec i 4).
  - rewrite (Z.testbit_neg_r _ (i - 4)) by lia.
    replace (0 <=? i - 4) with false by lia. simpl. by rewrite andb_false_r.
  - rewrite Z.shiftr_spec by lia. replace (i - 4 + 4) with i by lia.
    destruct (Z.ltb_spec i 8).
    + replace (0 <=? i - 4) with true by lia. replace (i - 4 <? 4) with true by lia.
      by rewrite andb_true_r.
    + assert (Z.testbit z i = false) as ->; [|done].
      rewrite <-(Z.mod_small z (2 ^ 8)) by apply Hz. by apply Z.mod_pow2_bits_high.
Qed.

Lemma lor_nibbles h l : 0 ≤ l < 16 → Z.lor (16 * h) l = 16 * h + l.
Proof. intros. rewrite (Z.mul_comm 16). by apply (lor_low_bits h l 4). Qed.

(** [new] and the accessors: a tag holds exactly the type and the reserved bits
    it was built from, and [with_reserved] changes the reserved bits only. *)
Lemma record_tag_fields {E} ty rv rv' tag :
  0 ≤ rv → 0 ≤ rv' ≤ 15 → new (E:=E) ty rv = Ok tag →
  in_u 8 tag ∧ record_type tag = ty ∧ reserved tag = rv ∧ from_byte tag = Ok tag ∧
  ∃ tag', with_reserved (E:=E) tag rv' = Ok tag' ∧
    record_type tag' = ty ∧ reserved tag' = rv'.
Proof.
  unfold new, rust_assert. intros Hrv Hrv' H. inv_ok. reflect.
  rewrite Z.shiftl_mul_pow2, Z.mul_comm in H by lia. change (2 ^ 4) with 16 in H.
  rewrite (wrap_small 8), lor_nibbles in H by (unfold in_u; lia).
  assert (Hin : in_u 8 tag) by (unfold in_u; lia).
  assert (Hfields : ∀ x, 0 ≤ x ≤ 15 →
    record_type (16 * ty + x) = ty ∧ reserved (16 * ty + x) = x).
  { intros x Hx. unfold record_type, reserved. change 0x0F with (Z.ones 4).
    rewrite land_240 by (unfold in_u; lia).
    rewrite Z.land_ones, Z.shiftr_div_pow2 by lia. change (2 ^ 4) with 16.
    split.
    - rewrite Z.mul_comm, Z.div_mul by lia. rewrite Z.mul_comm, Z.div_add_l by lia.
      rewrite Z.div_small; lia.
    - rewrite Z.add_comm, (Z.mul_comm 16), Z.mod_add by lia. apply Z.mod_small. lia. }
  subst tag. destruct (Hfields rv) as [Ht Hr]; [lia|].
  split_and!; [done..| |].
  - unfold from_byte. fold (record_type (16 * ty + rv)). rewrite Ht.
    by rewrite (proj2 (Z.eqb_neq _ _)) by lia.
  - exists (16 * ty + rv'). unfold with_reserved, rust_assert.
    rewrite (proj2 (Z.leb_le _ _)) by lia. simpl. rewrite land_240 by done.
    replace ((16 * ty + rv) / 16) with ty.
    2: { rewrite Z.mul_comm, Z.div_add_l, Z.div_small by lia. lia. }
    rewrite lor_nibbles by lia. split; [done|]. apply Hfields. lia.
Qed.

End RecordTag.

(** ** Sequence block: a persisted range of sequence numbers *)
Module SeqBlock.

Record t : Type := new { base_sequence : Z; block_size : Z }.

Definition serialize (b : t) : bytes :=
  be_bytes 8 (base_sequence b) ++ be_bytes 8 (block_size b).

Definition deserialize (data : bytes) : res DeserializeError t :=
  if bool_decide (length data < 16)%nat then Err (SeqBlockTooShort (blen data))
  else
    let? hi := slice data 0 8 in
    let? lo := slice data 8 16 in
    Ok (new (from_be hi) (from_be lo)).

(** [base_sequence + block_size] in u64 *)
Definition next_base (b : t) : Z := wrap 64 (base_sequence b + block_size b).

Definition wf (b : t) : Prop := in_u 64 (base_sequence b) ∧ in_u 64 (block_size b).

Lemma serialize_length b : length (serialize b) = 16%nat.
Proof. unfold serialize. by rewrite length_app, !be_bytes_length. Qed.

Lemma deserialize_serialize b rest :
  wf b → deserialize (serialize b ++ rest) = Ok b.
Proof.
  destruct b as [x y]. unfold wf, deserialize. intros [Hx Hy]. simpl in Hx, Hy.
  rewrite bool_decide_eq_false_2 by (rewrite length_app, serialize_length; lia).
  rewrite !slice_ok by (rewrite length_app, serialize_length; lia).
  unfold serialize. simpl base_sequence. simpl block_size. rewrite <-!app_assoc.
  change (8 - 0)%nat with 8%nat. change (16 - 8)%nat with 8%nat. rewrite drop_0.
  rewrite (take_app_length' (be_bytes 8 x)) by by rewrite be_bytes_length.
  rewrite (drop_app_length' (be_bytes 8 x)) by by rewrite be_bytes_length.
  rewrite (take_app_length' (be_bytes 8 y)) by by rewrite be_bytes_length.
  simpl. by rewrite !from_be_roundtrip.
Qed.

Lemma deserialize_wf data b : deserialize data = Ok b → wf b ∧ (16 ≤ length data)%nat.
Proof.
  unfold deserialize. destruct (bool_decide _) eqn:Hlen; [done|]. reflect.
  rewrite !slice_ok by lia. change (8 - 0)%nat with 8%nat. change (16 - 8)%nat with 8%nat.
  intros. inv_ok. subst. unfold wf, in_u. simpl base_sequence. simpl block_size.
  pose proof (from_be_range (take 8 (drop 0 data))) as Hr1.
  pose proof (from_be_range (take 8 (drop 8 data))) as Hr2.
  rewrite length_take, length_drop, Nat.min_l in Hr1, Hr2 by lia.
  split; [split|lia]; assumption.
Qed.

End SeqBlock.
