(* ===== verification/ByteRange.v ===== *)
(** * common::bytes: key ranges and the prefix successor

    [BytesRange] is the range type every scan of the storage layer takes;
    [BytesRange::prefix] turns a key prefix into such a range through
    [lex_increment]. *)
From S2P Require Import Prelude.

(** The loop of [lex_increment]; the buffer is held reversed, so that its last
    byte ([result.last_mut()]) is the head and [truncate] drops it. *)
Fixpoint lex_increment_loop (result_rev : bytes) : option bytes :=
  match result_rev with
  | [] => None
  | last :: rest =>
      if u8 last <? 0xFF then Some (reverse (to_u8 (u8 last + 1) :: rest))
      else lex_increment_loop rest
  end.

Definition lex_increment (data : bytes) : option bytes :=
  if bool_decide (data = []) then None else lex_increment_loop (reverse data).

Inductive Bound : Type :=
| Included (b : bytes)
| Excluded (b : bytes)
| Unbounded.

Record BytesRange : Type := mkRange { start : Bound; end_ : Bound }.

Definition unbounded : BytesRange := mkRange Unbounded Unbounded.

Definition prefix (p : bytes) : BytesRange :=
  if bool_decide (p = []) then unbounded
  else match lex_increment p with
       | Some e => mkRange (Included p) (Excluded e)
       | None => mkRange (Included p) Unbounded
       end.

Definition contains (r : BytesRange) (k : bytes) : bool :=
  (match start r with
   | Included s => ble s k
   | Excluded s => blt s k
   | Unbounded => true
   end) &&
  (match end_ r with
   | Included e => ble k e
   | Excluded e => blt k e
   | Unbounded => true
   end).

(** ** Lemmas *)
Lemma lex_increment_loop_spec rv :
  match lex_increment_loop rv with
  | Some q => ∃ r c n, reverse rv = r ++ c :: replicate n xff ∧ u8 c < 255 ∧
                q = r ++ [to_u8 (u8 c + 1)]
  | None => reverse rv = replicate (length rv) xff
  end.
Proof.
  induction rv as [|x rv IH]; cbn [lex_increment_loop]; [done|].
  destruct (Z.ltb_spec (u8 x) 255) as [Hlt|Hge].
  - exists (reverse rv), x, 0%nat. rewrite !reverse_cons. done.
  - pose proof (u8_range x).
    assert (x = xff) as -> by (apply (inj u8); change (u8 xff) with 255; lia).
    assert (Hsnoc : ∀ n, replicate n xff ++ [xff] = replicate (S n) xff).
    { intros n. by rewrite <-replicate_S_end. }
    destruct (lex_increment_loop rv) as [q|]; cbn [length]; rewrite reverse_cons.
    + destruct IH as (r & c & n & -> & Hc & ->). exists r, c, (S n).
      split; [|done]. by rewrite <-Hsnoc, <-app_assoc.
    + by rewrite IH, Hsnoc.
Qed.

Lemma lex_increment_spec p :
  match lex_increment p with
  | Some q => ∃ r c n, p = r ++ c :: replicate n xff ∧ u8 c < 255 ∧
                q = r ++ [to_u8 (u8 c + 1)]
  | None => p = replicate (length p) xff
  end.
Proof.
  unfold lex_increment. destruct (decide (p = [])) as [->|Hne]; [done|].
  rewrite bool_decide_eq_false_2 by done.
  pose proof (lex_increment_loop_spec (reverse p)) as H.
  rewrite reverse_involutive, length_reverse in H. exact H.
Qed.

Lemma ble_cons x y a b :
  ble (x :: a) (y :: b) = true ↔ u8 x < u8 y ∨ (x = y ∧ ble a b = true).
Proof.
  unfold ble. cbn [bcmp]. destruct (Z.compare_spec (u8 x) (u8 y)) as [He|?|?].
  - apply (inj u8) in He as ->. split; [auto|]. intros [?|[_ ?]]; [lia|done].
  - split; [auto|done].
  - split; [done|]. intros [?|[-> ?]]; lia.
Qed.

Lemma blt_cons x y a b :
  blt (x :: a) (y :: b) = true ↔ u8 x < u8 y ∨ (x = y ∧ blt a b = true).
Proof.
  rewrite blt_not_ble, negb_true_iff, <-not_true_iff_false, ble_cons.
  rewrite blt_not_ble, negb_true_iff, <-not_true_iff_false.
  destruct (Z.lt_trichotomy (u8 x) (u8 y)) as [?|[He|?]].
  - split; [auto|]. intros _ [?|[-> ?]]; lia.
  - apply (inj u8) in He as ->. split.
    + intros Hn. right. split; [done|]. intros ?. apply Hn. auto.
    + intros [?|[_ Hn]] [?|[_ ?]]; try lia. auto.
  - split; [intros Hn; exfalso; apply Hn; auto|]. intros [?|[-> ?]]; lia.
Qed.

Lemma ble_replicate_ff n k :
  ble (replicate n xff) k = true ↔ replicate n xff `prefix_of` k.
Proof.
  revert k. induction n as [|n IH]; intros k; cbn [replicate].
  - split; [intros; apply prefix_nil|]. intros. by destruct k.
  - destruct k as [|y k].
    + split; [done|]. intros ?%prefix_nil_inv. done.
    + rewrite ble_cons, IH. change (u8 xff) with 255. pose proof (u8_range y).
      split.
      * intros [?|[-> ?]]; [lia|]. by apply prefix_cons.
      * intros Hp. right. split; [by apply prefix_cons_inv_1 in Hp|].
        by apply prefix_cons_inv_2 in Hp.
Qed.

Lemma prefix_interval r c n k :
  u8 c < 255 →
  ble (r ++ c :: replicate n xff) k = true ∧ blt k (r ++ [to_u8 (u8 c + 1)]) = true
  ↔ r ++ c :: replicate n xff `prefix_of` k.
Proof.
  intros Hc. revert k. induction r as [|x r IH]; intros [|y k]; cbn [app].
  - split; [by intros [? _]|]. intros ?%prefix_nil_inv. done.
  - rewrite ble_cons, blt_cons, ble_replicate_ff, u8_to_u8.
    pose proof (u8_range c). rewrite Z.mod_small by lia.
    split.
    + intros [[?|[-> ?]] [?|[_ ?]]]; try lia; try (by destruct k); by apply prefix_cons.
    + intros Hp. pose proof (prefix_cons_inv_1 _ _ _ _ Hp) as ->.
      apply prefix_cons_inv_2 in Hp. split; [by right|]. left. lia.
  - split; [by intros [? _]|]. intros ?%prefix_nil_inv. done.
  - rewrite ble_cons, blt_cons. split.
    + intros [[?|[-> H1]] [?|[? H2]]]; subst; try lia.
      apply prefix_cons, IH. auto.
    + intros Hp. pose proof (prefix_cons_inv_1 _ _ _ _ Hp) as ->.
      apply prefix_cons_inv_2, IH in Hp as [? ?]. auto.
Qed.

Lemma lex_increment_interval p q k :
  lex_increment p = Some q →
  ble p k = true ∧ blt k q = true ↔ p `prefix_of` k.
Proof.
  intros Hq. pose proof (lex_increment_spec p) as H. rewrite Hq in H.
  destruct H as (r & c & n & -> & Hc & ->). by apply prefix_interval.
Qed.

Lemma lex_increment_none p k :
  lex_increment p = None → ble p k = true ↔ p `prefix_of` k.
Proof.
  intros Hq. pose proof (lex_increment_spec p) as H. rewrite Hq in H.
  rewrite H. apply ble_replicate_ff.
Qed.

(** the range [BytesRange::prefix(p)] selects exactly the keys that start with [p]. *)
Theorem prefix_contains_exact p k :
  contains (prefix p) k = true ↔ p `prefix_of` k.
Proof.
  unfold prefix. destruct (decide (p = [])) as [->|Hne].
  { rewrite bool_decide_eq_true_2 by done. split; [intros; apply prefix_nil|done]. }
  rewrite bool_decide_eq_false_2 by done. unfold contains.
  destruct (lex_increment p) as [q|] eqn:Hq; simpl.
  - rewrite andb_true_iff. by apply lex_increment_interval.
  - rewrite andb_true_r. by apply lex_increment_none.
Qed.

(** [lex_increment p] is the least exclusive upper bound of the keys that
    start with [p]: all of them are below it, and no smaller string bounds them. *)
Theorem lex_increment_least p q :
  lex_increment p = Some q →
  (∀ k, p `prefix_of` k → blt k q = true) ∧
  (∀ q', (∀ k, p `prefix_of` k → blt k q' = true) → ble q q' = true).
Proof.
  intros Hq. split.
  - intros k Hk. by apply (lex_increment_interval p q k Hq) in Hk as [_ ?].
  - intros q' Hub. destruct (ble q q') eqn:Hle; [done|exfalso].
    assert (Hlt : blt q' q = true) by (rewrite blt_not_ble; by rewrite Hle).
    assert (Hpq : ble p q' = true).
    { pose proof (Hub p ltac:(done)) as H. unfold blt in H. unfold ble.
      by destruct (bcmp p q'). }
    pose proof (Hub q' (proj1 (lex_increment_interval p q q' Hq) (conj Hpq Hlt))) as H.
    unfold blt in H. by rewrite bcmp_refl in H.
Qed.

Lemma lex_increment_least_witness :
  lex_increment [x61; xff] = Some [x62] ∧
  (∀ k, [x61; xff] `prefix_of` k → blt k [x62] = true).
Proof.
  split; [reflexivity|].
  apply (lex_increment_least [x61; xff] [x62]). reflexivity.
Defined.

(** The documentation of [lex_increment] calls the result "the smallest byte
    sequence that is strictly greater than the input"; it is not. *)
Lemma lex_increment_not_successor :
  ∃ p q k, lex_increment p = Some q ∧ blt p k = true ∧ blt k q = true.
Proof. exists [x61], [x62], [x61; x00]. done. Qed.
