(* ===== verification/Varint.v ===== *)
(** * common::serde::varint: order-preserving variable-length integers

    Module [var_u32] and [var_u64] translate the two Rust modules.  Both write a
    length code [L] in the high bits of the first byte and the value big-endian
    after it; [venc] is the reference shape both refine, and the order and
    round-trip arguments are made once, on [venc]. *)
From S2P Require Import Prelude Codec Serde.

(** [for (i, &threshold) in THRESHOLDS.iter().enumerate()]: index of the first
    threshold above [x]. *)
Fixpoint first_below (i : Z) (thresholds : list Z) (x : Z) : option Z :=
  match thresholds with
  | [] => None
  | threshold :: rest => if x <? threshold then Some i else first_below (i + 1) rest x
  end.

(** The bytes [bytes[1..total_bytes]] both serializers fill in. *)
Definition tail_bytes (value total_bytes : Z) : bytes :=
  (λ i, to_u8 (Z.land (Z.shiftr value (8 * (total_bytes - 1 - i))) 0xFF)) <$>
    seqZ 1 (total_bytes - 1).

(** [value = (value << 8) | (buf[i] as u64)] over the bytes of the payload. *)
Definition accumulate (value : Z) (payload : bytes) : Z :=
  fold_left (λ value b, Z.lor (wrap 64 (Z.shiftl value 8)) (u8 b)) payload value.

Module var_u32.

Definition MAX_LEN_CODE : Z := 4.
Definition FIRST_BYTE_DATA_BITS : Z := 5.
Definition FIRST_BYTE_DATA_MASK : Z := 0x1F.
Definition THRESHOLDS : list Z :=
  [Z.shiftl 1 5; Z.shiftl 1 13; Z.shiftl 1 21; Z.shiftl 1 29; Z.shiftl 1 37].

Definition length_code (x : Z) : Z :=
  match first_below 0 THRESHOLDS x with Some i => i | None => MAX_LEN_CODE end.

Definition serialize (value : Z) : bytes :=
  let len_code := length_code value in
  let total_bytes := len_code + 1 in
  let shift := 8 * (total_bytes - 1) in
  let first_data_bits := Z.land (wrap 8 (Z.shiftr value shift)) FIRST_BYTE_DATA_MASK in
  to_u8 (Z.lor (wrap 8 (Z.shiftl len_code FIRST_BYTE_DATA_BITS)) first_data_bits)
    :: tail_bytes value total_bytes.

Definition deserialize (buf : bytes) : res DeserializeError (Z * bytes) :=
  match buf with
  | [] => Err VarintMissingFirstByte
  | first_byte :: _ =>
      let len_code := Z.shiftr (u8 first_byte) FIRST_BYTE_DATA_BITS in
      if MAX_LEN_CODE <? len_code then Err (VarintInvalidLengthCode len_code)
      else
        let total_bytes := Z.to_nat (len_code + 1) in
        if bool_decide (length buf < total_bytes)%nat then
          Err (VarintTruncated (Z.of_nat total_bytes) (blen buf))
        else
          let value := accumulate (Z.land (u8 first_byte) FIRST_BYTE_DATA_MASK)
                         (take (total_bytes - 1) (drop 1 buf)) in
          if u_max 32 <? value then Err (VarintTooLarge value)
          else Ok (value, drop total_bytes buf)
  end.

End var_u32.

Module var_u64.

Definition MAX_LEN_CODE : Z := 8.
Definition THRESHOLDS : list Z :=
  [Z.shiftl 1 4; Z.shiftl 1 12; Z.shiftl 1 20; Z.shiftl 1 28; Z.shiftl 1 36;
   Z.shiftl 1 44; Z.shiftl 1 52; Z.shiftl 1 60; u_max 64].

Definition length_code (x : Z) : Z :=
  match first_below 0 THRESHOLDS x with Some i => i | None => MAX_LEN_CODE end.

Definition serialize (value : Z) : bytes :=
  let len_code := length_code value in
  let total_bytes := len_code + 1 in
  let shift := 8 * (total_bytes - 1) in
  let first_data_bits :=
    if 64 <=? shift then 0 else Z.land (wrap 8 (Z.shiftr value shift)) 0x0F in
  to_u8 (Z.lor (wrap 8 (Z.shiftl len_code 4)) first_data_bits)
    :: tail_bytes value total_bytes.

Definition deserialize (buf : bytes) : res DeserializeError (Z * bytes) :=
  match buf with
  | [] => Err VarintMissingFirstByte
  | first_byte :: _ =>
      let len_code := Z.shiftr (u8 first_byte) 4 in
      if MAX_LEN_CODE <? len_code then Err (VarintInvalidLengthCode len_code)
      else
        let total_bytes := Z.to_nat (len_code + 1) in
        if bool_decide (length buf < total_bytes)%nat then
          Err (VarintTruncated (Z.of_nat total_bytes) (blen buf))
        else
          let value := accumulate (Z.land (u8 first_byte) 0x0F)
                         (take (total_bytes - 1) (drop 1 buf)) in
          Ok (value, drop total_bytes buf)
  end.

End var_u64.

(** ** The common shape *)

(** [d] data bits in the first byte, length code [L], value [v]. *)
Definition venc (d : Z) (L : nat) (v : Z) : bytes :=
  to_u8 (Z.of_nat L * 2 ^ d + v / 256 ^ Z.of_nat L) :: be_bytes L v.

(** the value fits the data bits of its length code *)
Definition fits (d : Z) (L : nat) (v : Z) : Prop := 0 ≤ v < 2 ^ d * 256 ^ Z.of_nat L.

Lemma venc_length d L v : length (venc d L v) = S L.
Proof. unfold venc. cbn [length]. by rewrite be_bytes_length. Qed.

Lemma be_bytes_S n v : be_bytes (S n) v = to_u8 (v / 256 ^ Z.of_nat n) :: be_bytes n v.
Proof.
  unfold be_bytes. revert v. induction n as [|n IH]; intros v.
  - cbn [le_bytes Z.of_nat]. by rewrite Z.pow_0_r, Z.div_1_r.
  - cbn [le_bytes] in *. rewrite reverse_cons, IH, reverse_cons.
    cbn [app]. f_equal. f_equal.
    rewrite Nat2Z.inj_succ, Z.pow_succ_r, Z.div_div by lia. done.
Qed.

Lemma tail_bytes_be n v : tail_bytes v (Z.of_nat n + 1) = be_bytes n v.
Proof.
  unfold tail_bytes. replace (Z.of_nat n + 1 - 1) with (Z.of_nat n) by lia.
  induction n as [|n IH]; [done|].
  rewrite seqZ_cons by lia. replace (Z.pred (Z.of_nat (S n))) with (Z.of_nat n) by lia.
  rewrite fmap_cons, be_bytes_S, <-IH. f_equal.
  - change 0xFF with (Z.ones 8). rewrite Z.land_ones, Z.shiftr_div_pow2 by lia.
    rewrite to_u8_mod. do 2 f_equal. rewrite pow256. f_equal. lia.
  - change (Z.succ 1) with (1 + 1). rewrite <-(fmap_add_seqZ 1 1 (Z.of_nat n)), <-list_fmap_compose.
    apply list_fmap_ext. intros i j _. unfold compose. do 3 f_equal. lia.
Qed.

Lemma accumulate_from_be v bs :
  0 ≤ v → v * 256 ^ blen bs + from_be bs < 2 ^ 64 →
  accumulate v bs = v * 256 ^ blen bs + from_be bs.
Proof.
  unfold accumulate, blen. revert v. induction bs as [|b bs IH]; intros v Hv.
  { change (from_be []) with 0. cbn [fold_left length Z.of_nat]. lia. }
  cbn [fold_left length]. rewrite from_be_cons, Nat2Z.inj_succ, Z.pow_succ_r by lia.
  intros Hlt. pose proof (u8_range b). pose proof (from_be_range bs).
  assert (0 < 256 ^ Z.of_nat (length bs)) by lia.
  rewrite Z.shiftl_mul_pow2 by lia.
  rewrite wrap_small by (unfold in_u; change (2 ^ 8) with 256; nia).
  rewrite (lor_low_bits v (u8 b) 8) by lia. change (2 ^ 8) with 256.
  rewrite IH by nia. ring.
Qed.

Lemma from_be_venc d L v :
  0 ≤ d → fits d L v → Z.of_nat L * 2 ^ d + 2 ^ d ≤ 256 →
  from_be (venc d L v) = Z.of_nat L * 2 ^ d * 256 ^ Z.of_nat L + v.
Proof.
  intros Hd [Hv0 Hv] HL. unfold venc.
  rewrite from_be_cons, from_be_be_bytes, be_bytes_length, u8_to_u8.
  assert (0 ≤ v / 256 ^ Z.of_nat L < 2 ^ d).
  { split; [apply Z.div_pos; lia|]. apply Z.div_lt_upper_bound; lia. }
  rewrite Z.mod_small by lia.
  pose proof (Z.div_mod v (256 ^ Z.of_nat L) ltac:(lia)). lia.
Qed.

Lemma venc_head_lt d L M v w :
  0 ≤ d → fits d L v → fits d M w →
  Z.of_nat M * 2 ^ d + 2 ^ d ≤ 256 → (L < M)%nat →
  ∀ s t, bcmp (venc d L v ++ s) (venc d M w ++ t) = Lt.
Proof.
  intros Hd [? Hv] [? Hw] HM HLM s t. unfold venc. cbn [app]. apply bcmp_cons_lt.
  assert (0 ≤ v / 256 ^ Z.of_nat L < 2 ^ d).
  { split; [apply Z.div_pos; lia|]. apply Z.div_lt_upper_bound; lia. }
  assert (0 ≤ w / 256 ^ Z.of_nat M < 2 ^ d).
  { split; [apply Z.div_pos; lia|]. apply Z.div_lt_upper_bound; lia. }
  rewrite !u8_to_u8, !Z.mod_small by nia. nia.
Qed.

Lemma venc_same d L v w s t :
  0 ≤ d → fits d L v → fits d L w → Z.of_nat L * 2 ^ d + 2 ^ d ≤ 256 →
  bcmp (venc d L v ++ s) (venc d L w ++ t) = cmp_then (v ?= w) (bcmp s t).
Proof.
  intros. rewrite bcmp_app_same_length by by rewrite !venc_length.
  rewrite bcmp_from_be by by rewrite !venc_length.
  rewrite !from_be_venc by done. by rewrite Z.add_compare_mono_l.
Qed.

(** Order of two encodings whose length codes are monotone in the value. *)
Lemma venc_order d (code : Z → nat) (wf : Z → Prop) :
  0 ≤ d →
  (∀ v, wf v → fits d (code v) v ∧ Z.of_nat (code v) * 2 ^ d + 2 ^ d ≤ 256) →
  (∀ v w, wf v → wf w → (code v < code w)%nat → v < w) →
  OrderedField wf Z.compare (λ v, venc d (code v) v).
Proof.
  intros Hd Hfits Hmono v w s t Hv Hw.
  destruct (Hfits v Hv) as [? ?], (Hfits w Hw) as [? ?].
  destruct (Nat.lt_trichotomy (code v) (code w)) as [Hlt|[Heq|Hgt]].
  - rewrite venc_head_lt by done.
    by rewrite (proj2 (Z.compare_lt_iff _ _) (Hmono v w Hv Hw Hlt)).
  - rewrite Heq in *. by apply venc_same.
  - rewrite bcmp_opp, venc_head_lt by done.
    by rewrite (proj2 (Z.compare_gt_iff _ _) (Hmono w v Hw Hv Hgt)).
Qed.

(** Splitting the first byte back into length code and data bits. *)
Lemma head_fields d L x :
  0 ≤ d → 0 ≤ x < 2 ^ d → 0 ≤ L → L * 2 ^ d + 2 ^ d ≤ 256 →
  Z.shiftr (u8 (to_u8 (L * 2 ^ d + x))) d = L ∧
  Z.land (u8 (to_u8 (L * 2 ^ d + x))) (Z.ones d) = x.
Proof.
  intros Hd Hx HL Hb. rewrite u8_to_u8, Z.mod_small by nia.
  rewrite Z.shiftr_div_pow2, Z.land_ones by lia.
  rewrite Z.div_add_l, Z.div_small by lia.
  rewrite (Z.add_comm (L * 2 ^ d)), Z.mod_add, Z.mod_small by lia. lia.
Qed.

(** The decoding loop reads back what [venc] wrote. *)
Lemma accumulate_venc d L v :
  0 ≤ d → fits d L v → v < 2 ^ 64 →
  accumulate (v / 256 ^ Z.of_nat L) (be_bytes L v) = v.
Proof.
  intros Hd [? ?] ?. pose proof (Z.div_mod v (256 ^ Z.of_nat L) ltac:(lia)).
  assert (blen (be_bytes L v) = Z.of_nat L) as Hl by (unfold blen; by rewrite be_bytes_length).
  rewrite accumulate_from_be; rewrite ?Hl, ?from_be_be_bytes; try lia.
  apply Z.div_pos; lia.
Qed.

(** ** Length codes *)
Lemma first_below_spec ts x k :
  match first_below k ts x with
  | Some i => ∃ n : nat, i = k + Z.of_nat n ∧ (n < length ts)%nat ∧
      (∀ t, ts !! n = Some t → x < t) ∧
      (∀ m t, (m < n)%nat → ts !! m = Some t → t ≤ x)
  | None => ∀ m t, ts !! m = Some t → t ≤ x
  end.
Proof.
  revert k. induction ts as [|t ts IH]; intros k; cbn [first_below]; [done|].
  destruct (Z.ltb_spec x t) as [Hlt|Hge].
  - exists 0%nat. split_and!; [lia|simpl; lia|simpl; naive_solver|lia].
  - specialize (IH (k + 1)). destruct (first_below (k + 1) ts x) as [i|].
    + destruct IH as (n & -> & Hn & Hlo & Hhi). exists (S n).
      split_and!; [lia|simpl; lia|done|].
      intros [|m] t' Hm; simpl; [naive_solver|]. apply Hhi. lia.
    + intros [|m] t'; simpl; [naive_solver|]. apply IH.
Qed.

Lemma scale_mono d (M L : nat) :
  0 ≤ d → (M ≤ L)%nat → 2 ^ d * 256 ^ Z.of_nat M ≤ 2 ^ d * 256 ^ Z.of_nat L.
Proof.
  intros. apply Z.mul_le_mono_nonneg_l; [lia|]. apply Z.pow_le_mono_r; lia.
Qed.

(** what both [length_code] functions compute: the least code the value fits *)
Definition least_code (d : Z) (max : nat) (x : Z) (L : nat) : Prop :=
  (L ≤ max)%nat ∧ fits d L x ∧ ∀ M : nat, (M < L)%nat → 2 ^ d * 256 ^ Z.of_nat M ≤ x.

Lemma least_code_mono d max v w L M :
  0 ≤ d → least_code d max v L → least_code d max w M → (L < M)%nat → v < w.
Proof.
  intros Hd (_ & [_ Hv] & _) (_ & _ & Hw) HLM. specialize (Hw L HLM). lia.
Qed.

Lemma var_u32_thresholds n t :
  var_u32.THRESHOLDS !! n = Some t → t = 2 ^ 5 * 256 ^ Z.of_nat n.
Proof. do 5 (destruct n as [|n]; [by intros [= <-]|]). done. Qed.

Lemma var_u32_length_code x :
  in_u 32 x → ∃ L : nat, var_u32.length_code x = Z.of_nat L ∧ least_code 5 4 x L.
Proof.
  intros [H0 H1]. unfold var_u32.length_code.
  pose proof (first_below_spec var_u32.THRESHOLDS x 0) as H.
  destruct (first_below 0 var_u32.THRESHOLDS x) as [i|].
  - destruct H as (n & -> & Hn & Hlo & Hhi). exists n. split; [lia|].
    destruct (lookup_lt_is_Some_2 _ _ Hn) as [t Ht].
    split_and!; [simpl in Hn; lia| |].
    + split; [done|]. rewrite <-(var_u32_thresholds _ _ Ht). auto.
    + intros m Hm. destruct (lookup_lt_is_Some_2 var_u32.THRESHOLDS m) as [t' Ht']; [lia|].
      rewrite <-(var_u32_thresholds _ _ Ht'). eauto.
  - specialize (H 4%nat _ eq_refl). change (2 ^ 32) with 4294967296 in H1.
    change (Z.shiftl 1 37) with 137438953472 in H. lia.
Qed.

Lemma var_u64_thresholds n t :
  (n < 8)%nat → var_u64.THRESHOLDS !! n = Some t → t = 2 ^ 4 * 256 ^ Z.of_nat n.
Proof. intros Hn. do 8 (destruct n as [|n]; [by intros [= <-]|]). lia. Qed.

Lemma var_u64_length_code x :
  in_u 64 x → ∃ L : nat, var_u64.length_code x = Z.of_nat L ∧ least_code 4 8 x L.
Proof.
  intros [H0 H1]. unfold var_u64.length_code.
  assert (Hlow : ∀ m, (m < 8)%nat →
    (∀ t, var_u64.THRESHOLDS !! m = Some t → t ≤ x) → 2 ^ 4 * 256 ^ Z.of_nat m ≤ x).
  { intros m Hm Hx.
    destruct (lookup_lt_is_Some_2 var_u64.THRESHOLDS m) as [t Ht]; [simpl; lia|].
    rewrite <-(var_u64_thresholds _ _ Hm Ht). eauto. }
  assert (H8 : fits 4 8 x).
  { split; [done|]. etrans; [apply H1|]. by compute. }
  pose proof (first_below_spec var_u64.THRESHOLDS x 0) as H.
  destruct (first_below 0 var_u64.THRESHOLDS x) as [i|].
  - destruct H as (n & -> & Hn & Hlo & Hhi). exists n. split; [lia|].
    simpl in Hn. split_and!; [lia| |].
    + destruct (decide (n = 8)%nat) as [->|?]; [done|]. split; [done|].
      destruct (lookup_lt_is_Some_2 var_u64.THRESHOLDS n) as [t Ht]; [simpl; lia|].
      rewrite <-(var_u64_thresholds n t) by (lia || done). eauto.
    + intros m Hm. apply Hlow; [lia|]. eauto.
  - exists 8%nat. split; [done|]. split; [lia|]. split; [done|].
    intros m Hm. apply Hlow; eauto.
Qed.

(** ** var_u32 refines the common shape *)
Definition code_u32 (v : Z) : nat := Z.to_nat (var_u32.length_code v).
Definition code_u64 (v : Z) : nat := Z.to_nat (var_u64.length_code v).

Lemma code_u32_least v : in_u 32 v → least_code 5 4 v (code_u32 v).
Proof.
  intros Hv. destruct (var_u32_length_code v Hv) as (L & HL & ?).
  unfold code_u32. by rewrite HL, Nat2Z.id.
Qed.

Lemma code_u64_least v : in_u 64 v → least_code 4 8 v (code_u64 v).
Proof.
  intros Hv. destruct (var_u64_length_code v Hv) as (L & HL & ?).
  unfold code_u64. by rewrite HL, Nat2Z.id.
Qed.

Lemma head_byte d L v :
  0 ≤ d ≤ 8 → fits d L v → Z.of_nat L * 2 ^ d + 2 ^ d ≤ 256 →
  Z.lor (wrap 8 (Z.shiftl (Z.of_nat L) d))
    (Z.land (wrap 8 (Z.shiftr v (8 * Z.of_nat L))) (Z.ones d)) =
  Z.of_nat L * 2 ^ d + v / 256 ^ Z.of_nat L.
Proof.
  intros Hd [Hv0 Hv] HL.
  assert (0 ≤ v / 256 ^ Z.of_nat L < 2 ^ d).
  { split; [apply Z.div_pos; lia|]. apply Z.div_lt_upper_bound; lia. }
  assert (0 < 2 ^ d) by lia. assert (0 ≤ Z.of_nat L * 2 ^ d) by lia.
  rewrite Z.shiftl_mul_pow2, Z.shiftr_div_pow2, <-pow256 by lia.
  rewrite !(wrap_small 8) by (unfold in_u; change (2 ^ 8) with 256; lia).
  rewrite Z.land_ones, (Z.mod_small (v / _)) by lia.
  apply lor_low_bits; lia.
Qed.

Lemma serialize_u32_venc v : in_u 32 v → var_u32.serialize v = venc 5 (code_u32 v) v.
Proof.
  intros Hv. destruct (var_u32_length_code v Hv) as (L & HL & (? & Hfits & _)).
  unfold var_u32.serialize, code_u32, venc. rewrite HL, Nat2Z.id, tail_bytes_be.
  replace (Z.of_nat L + 1 - 1) with (Z.of_nat L) by lia.
  change var_u32.FIRST_BYTE_DATA_MASK with (Z.ones 5).
  change var_u32.FIRST_BYTE_DATA_BITS with 5. by rewrite head_byte by (done || lia).
Qed.

Lemma serialize_u64_venc v : in_u 64 v → var_u64.serialize v = venc 4 (code_u64 v) v.
Proof.
  intros Hv. destruct (var_u64_length_code v Hv) as (L & HL & (? & Hfits & _)).
  unfold var_u64.serialize, code_u64, venc. rewrite HL, Nat2Z.id, tail_bytes_be.
  replace (Z.of_nat L + 1 - 1) with (Z.of_nat L) by lia.
  change 0x0F with (Z.ones 4). f_equal. f_equal.
  rewrite <-head_byte by (done || lia).
  destruct (Z.leb_spec 64 (8 * Z.of_nat L)); [|done].
  assert (L = 8%nat) as -> by lia. f_equal. symmetry.
  rewrite Z.shiftr_div_pow2, Z.div_small by (done || apply Hv). done.
Qed.

#[global] Instance var_u32_ordered : OrderedField (in_u 32) Z.compare var_u32.serialize.
Proof.
  intros v w s t Hv Hw. rewrite !serialize_u32_venc by done.
  apply (venc_order 5 code_u32 (in_u 32)); try done.
  - intros x Hx. destruct (code_u32_least x Hx) as (? & ? & _). split; [done|]. lia.
  - intros x y Hx Hy. apply (least_code_mono 5 4); auto using code_u32_least. lia.
Qed.

#[global] Instance var_u64_ordered : OrderedField (in_u 64) Z.compare var_u64.serialize.
Proof.
  intros v w s t Hv Hw. rewrite !serialize_u64_venc by done.
  apply (venc_order 4 code_u64 (in_u 64)); try done.
  - intros x Hx. destruct (code_u64_least x Hx) as (? & ? & _). split; [done|]. lia.
  - intros x y Hx Hy. apply (least_code_mono 4 8); auto using code_u64_least. lia.
Qed.

(** the first byte and the payload of an encoding followed by [s] *)
Lemma venc_parse d L v s :
  0 ≤ d → fits d L v → Z.of_nat L * 2 ^ d + 2 ^ d ≤ 256 →
  ∃ b, venc d L v ++ s = b :: be_bytes L v ++ s ∧
    Z.shiftr (u8 b) d = Z.of_nat L ∧ Z.land (u8 b) (Z.ones d) = v / 256 ^ Z.of_nat L ∧
    take (S L - 1) (drop 1 (venc d L v ++ s)) = be_bytes L v ∧
    drop (S L) (venc d L v ++ s) = s.
Proof.
  intros Hd [Hv0 Hv] HL. eexists. split; [reflexivity|].
  assert (0 ≤ v / 256 ^ Z.of_nat L < 2 ^ d).
  { split; [apply Z.div_pos; lia|]. apply Z.div_lt_upper_bound; lia. }
  destruct (head_fields d (Z.of_nat L) (v / 256 ^ Z.of_nat L)) as [-> ->]; try done; [lia|].
  split_and!; [done..| |].
  - unfold venc. cbn [app drop Nat.sub]. rewrite Nat.sub_0_r.
    apply take_app_length'. by rewrite be_bytes_length.
  - unfold venc. cbn [app drop]. apply drop_app_length'. by rewrite be_bytes_length.
Qed.

#[global] Instance var_u32_self_delimiting :
  SelfDelimiting (in_u 32) var_u32.serialize var_u32.deserialize.
Proof.
  intros v s Hv. rewrite serialize_u32_venc by done.
  destruct (code_u32_least v Hv) as (HL & Hfits & _).
  destruct (venc_parse 5 (code_u32 v) v s) as (b & Heq & Hb1 & Hb2 & Ht & Hd);
    [lia|done|lia|].
  unfold var_u32.deserialize.
  change var_u32.FIRST_BYTE_DATA_MASK with (Z.ones 5).
  change var_u32.FIRST_BYTE_DATA_BITS with 5. change var_u32.MAX_LEN_CODE with 4.
  rewrite Heq at 1. rewrite Hb1, Hb2.
  destruct (Z.ltb_spec 4 (Z.of_nat (code_u32 v))); [lia|].
  replace (Z.to_nat (Z.of_nat (code_u32 v) + 1)) with (S (code_u32 v)) by lia.
  rewrite bool_decide_eq_false_2 by (rewrite length_app, venc_length; lia).
  destruct Hv as [? Hv]. change (2 ^ 32) with 4294967296 in Hv.
  rewrite Ht, Hd, accumulate_venc with (d := 5) by (done || lia).
  unfold u_max. destruct (Z.ltb_spec (2 ^ 32 - 1) v); [lia|done].
Qed.

#[global] Instance var_u64_self_delimiting :
  SelfDelimiting (in_u 64) var_u64.serialize var_u64.deserialize.
Proof.
  intros v s Hv. rewrite serialize_u64_venc by done.
  destruct (code_u64_least v Hv) as (HL & Hfits & _).
  destruct (venc_parse 4 (code_u64 v) v s) as (b & Heq & Hb1 & Hb2 & Ht & Hd);
    [lia|done|lia|].
  unfold var_u64.deserialize. change 0x0F with (Z.ones 4).
  change var_u64.MAX_LEN_CODE with 8. rewrite Heq at 1. rewrite Hb1, Hb2.
  destruct (Z.ltb_spec 8 (Z.of_nat (code_u64 v))); [lia|].
  replace (Z.to_nat (Z.of_nat (code_u64 v) + 1)) with (S (code_u64 v)) by lia.
  rewrite bool_decide_eq_false_2 by (rewrite length_app, venc_length; lia).
  rewrite Ht, Hd, accumulate_venc with (d := 4); [done|lia|done|apply Hv].
Qed.

(** ** What the decoders accept *)
Lemma accumulate_wrap v bs :
  in_u 64 v → accumulate v bs = wrap 64 (v * 256 ^ blen bs + from_be bs).
Proof.
  unfold accumulate, blen. revert v. induction bs as [|b bs IH]; intros v Hv.
  { cbn [fold_left length Z.of_nat]. change (from_be []) with 0.
    rewrite Z.pow_0_r, Z.mul_1_r, Z.add_0_r, wrap_small; done. }
  cbn [fold_left length]. rewrite from_be_cons, Nat2Z.inj_succ, Z.pow_succ_r by lia.
  pose proof (u8_range b).
  assert (Hstep : Z.lor (wrap 64 (Z.shiftl v 8)) (u8 b) = wrap 64 (v * 256 + u8 b)).
  { rewrite Z.shiftl_mul_pow2 by lia. change (2 ^ 8) with 256. unfold wrap.
    change (2 ^ 64) with (2 ^ 56 * 256).
    rewrite Z.mul_mod_distr_r by lia.
    pose proof (Z.mod_pos_bound v (2 ^ 56) ltac:(lia)).
    pose proof (lor_low_bits (v mod 2 ^ 56) (u8 b) 8 ltac:(lia) ltac:(lia)) as Hlor.
    change (2 ^ 8) with 256 in Hlor. rewrite Hlor.
    rewrite (Z.div_mod v (2 ^ 56)) at 2 by lia.
    replace ((2 ^ 56 * (v / 2 ^ 56) + v mod 2 ^ 56) * 256 + u8 b)
      with ((v mod 2 ^ 56 * 256 + u8 b) + v / 2 ^ 56 * (2 ^ 56 * 256)) by ring.
    rewrite Z.mod_add by lia. symmetry. apply Z.mod_small. lia. }
  rewrite Hstep, IH by by apply wrap_range.
  unfold wrap. rewrite Zplus_mod, Zmult_mod_idemp_l, <-Zplus_mod.
  f_equal. ring.
Qed.

(** the number a first byte with [d] data bits and a payload spell *)
Definition spelled (d : Z) (first : byte) (payload : bytes) : Z :=
  Z.land (u8 first) (Z.ones d) * 256 ^ blen payload + from_be payload.

(** what a decoder makes of a buffer: [d] data bits in the first byte, length codes up to [max], [fit] the
    conversion of the number spelled into the type *)
Inductive decodes_to (d max : Z) (fit : Z → res DeserializeError Z) : bytes → res DeserializeError (Z * bytes) → Prop :=
| decodes_nothing : decodes_to d max fit [] (Err VarintMissingFirstByte)
| decodes_code first tail :
    max < Z.shiftr (u8 first) d →
    decodes_to d max fit (first :: tail) (Err (VarintInvalidLengthCode (Z.shiftr (u8 first) d)))
| decodes_short first tail :
    Z.shiftr (u8 first) d ≤ max → blen tail < Z.shiftr (u8 first) d →
    decodes_to d max fit (first :: tail) (Err (VarintTruncated (Z.shiftr (u8 first) d + 1) (blen tail + 1)))
| decodes_value first payload rest :
    Z.shiftr (u8 first) d = blen payload → blen payload ≤ max →
    decodes_to d max fit (first :: payload ++ rest)
      (let? v := fit (spelled d first payload) in Ok (v, rest)).

Lemma decodes_to_functional d max fit buf r r' : decodes_to d max fit buf r → decodes_to d max fit buf r' → r = r'.
Proof.
  destruct 1 as [|first tail H1|first tail H1 H2|first payload rest H1 H2]; inversion 1; subst; unfold blen in *; rewrite ?length_app in *; try done; try lia.
  match goal with E : _ ++ _ = _ ++ _ |- _ => apply app_inj_1 in E as [-> ->]; [done|lia] end.
Qed.

Lemma spelled_range d first payload :
  0 ≤ d → 0 ≤ spelled d first payload < 2 ^ d * 256 ^ blen payload.
Proof.
  intros Hd. unfold spelled. rewrite Z.land_ones by lia.
  pose proof (Z.mod_pos_bound (u8 first) (2 ^ d) ltac:(lia)).
  pose proof (from_be_range payload) as Hr. fold (blen payload) in Hr.
  assert (0 < 256 ^ blen payload) by lia. nia.
Qed.

(** the part both decoders share: a first byte, the code, and the bytes announced *)
Lemma decodes_split d max fit first tail r :
  let code := Z.shiftr (u8 first) d in
  (max < code → r = Err (VarintInvalidLengthCode code)) →
  (code ≤ max → blen tail < code → r = Err (VarintTruncated (code + 1) (blen tail + 1))) →
  (∀ payload rest, tail = payload ++ rest → code = blen payload → code ≤ max → r = let? v := fit (spelled d first payload) in Ok (v, rest)) →
  decodes_to d max fit (first :: tail) r.
Proof.
  intros code H1 H2 H3. assert (0 ≤ code) by (apply Z.shiftr_nonneg; apply u8_range).
  destruct (Z.lt_ge_cases max code) as [Hc|Hc]; [rewrite H1 by done; by constructor|].
  destruct (Z.lt_ge_cases (blen tail) code) as [Hl|Hl]; [rewrite H2 by done; by constructor|].
  set (n := Z.to_nat code). assert (Hn : blen (take n tail) = code) by (unfold blen in *; rewrite length_take; lia).
  rewrite (H3 (take n tail) (drop n tail)) by (done || by rewrite take_drop). rewrite <- (take_drop n tail) at 1. constructor; [done|lia].
Qed.

Lemma var_u64_decodes buf : decodes_to 4 8 (λ v, Ok (wrap 64 v)) buf (var_u64.deserialize buf).
Proof.
  unfold var_u64.deserialize. change var_u64.MAX_LEN_CODE with 8. destruct buf as [|first buf]; [constructor|].
  assert (0 ≤ Z.shiftr (u8 first) 4) by (apply Z.shiftr_nonneg; apply u8_range).
  apply decodes_split; [intros H1%Z.ltb_lt; by rewrite H1|intros Hc Hl|intros payload rest -> Hc Hm].
  - rewrite (proj2 (Z.ltb_ge _ _)) by done. unfold blen in *. cbn [length]. rewrite bool_decide_eq_true_2 by lia. do 2 f_equal; lia.
  - rewrite (proj2 (Z.ltb_ge _ _)) by done. unfold blen in *. cbn [length]. rewrite bool_decide_eq_false_2 by (rewrite length_app; lia).
    rewrite Hc. replace (Z.to_nat (Z.of_nat (length payload) + 1)) with (S (length payload)) by lia.
    cbn [drop Nat.sub]. rewrite Nat.sub_0_r, drop_0, take_app_length, drop_app_length. cbn [res_bind]. do 2 f_equal. unfold spelled.
    change 0x0F with (Z.ones 4). apply accumulate_wrap. rewrite Z.land_ones by lia. unfold in_u. pose proof (Z.mod_pos_bound (u8 first) (2 ^ 4)). lia.
Qed.

(** the conversion of [var_u32] *)
Definition fit_u32 (v : Z) : res DeserializeError Z := if u_max 32 <? v then Err (VarintTooLarge v) else Ok v.

Lemma var_u32_decodes buf : decodes_to 5 4 fit_u32 buf (var_u32.deserialize buf).
Proof.
  unfold var_u32.deserialize. change var_u32.MAX_LEN_CODE with 4. change var_u32.FIRST_BYTE_DATA_BITS with 5.
  change var_u32.FIRST_BYTE_DATA_MASK with (Z.ones 5). destruct buf as [|first buf]; [constructor|].
  assert (0 ≤ Z.shiftr (u8 first) 5) by (apply Z.shiftr_nonneg; apply u8_range).
  apply decodes_split; [intros H1%Z.ltb_lt; by rewrite H1|intros Hc Hl|intros payload rest -> Hc Hm].
  - rewrite (proj2 (Z.ltb_ge _ _)) by done. unfold blen in *. cbn [length]. rewrite bool_decide_eq_true_2 by lia. do 2 f_equal; lia.
  - rewrite (proj2 (Z.ltb_ge _ _)) by done. pose proof (spelled_range 5 first payload ltac:(lia)) as Hsp.
    assert (Hb : 256 ^ blen payload ≤ 256 ^ 4) by (apply Z.pow_le_mono_r; lia).
    assert (Hsmall : spelled 5 first payload < 2 ^ 64) by (change (2 ^ 64) with (2 ^ 5 * 256 ^ 4 * 2 ^ 27); change (2 ^ 5) with 32 in *; lia).
    unfold blen in Hc. cbn [length]. rewrite bool_decide_eq_false_2 by (rewrite length_app; lia).
    rewrite Hc. replace (Z.to_nat (Z.of_nat (length payload) + 1)) with (S (length payload)) by lia.
    cbn [drop Nat.sub]. rewrite Nat.sub_0_r, drop_0, take_app_length, drop_app_length.
    rewrite accumulate_from_be by (done || (apply Z.land_nonneg; left; apply u8_range)). fold (spelled 5 first payload). unfold fit_u32.
    by destruct (u_max 32 <? spelled 5 first payload).
Qed.

(** A [var_u64] whose first byte holds data bits above bit 63 is accepted and
    loses them, where [var_u32] reports [VarintTooLarge]. *)
Lemma var_u64_drops_high_bits :
  var_u64.deserialize [x8f; x00; x00; x00; x00; x00; x00; x00; x05] = Ok (5, []) ∧
  var_u32.deserialize [x9f; x00; x00; x00; x05] = Err (VarintTooLarge 133143986181).
Proof. by vm_compute. Qed.

(** ** Properties *)

(** both variable-length integer formats read back the value they wrote and
    leave exactly the bytes that follow it, for every value of the type. *)
Theorem varint_roundtrip v s :
  (in_u 32 v → var_u32.deserialize (var_u32.serialize v ++ s) = Ok (v, s)) ∧
  (in_u 64 v → var_u64.deserialize (var_u64.serialize v ++ s) = Ok (v, s)).
Proof. split; apply decode_encode. Qed.

Lemma varint_roundtrip_witness :
  var_u32.deserialize (var_u32.serialize 8192 ++ [xde]) = Ok (8192, [xde]) ∧
  var_u64.deserialize (var_u64.serialize 300 ++ [xad]) = Ok (300, [xad]).
Proof. split; apply varint_roundtrip; by split. Defined.

(** the byte order of two encoded integers, whatever follows them in the
    key, is the numeric order; equal integers defer to what follows. *)
Theorem varint_order v w s t :
  (in_u 32 v → in_u 32 w →
    bcmp (var_u32.serialize v ++ s) (var_u32.serialize w ++ t) =
      cmp_then (v ?= w) (bcmp s t)) ∧
  (in_u 64 v → in_u 64 w →
    bcmp (var_u64.serialize v ++ s) (var_u64.serialize w ++ t) =
      cmp_then (v ?= w) (bcmp s t)).
Proof. split; intros; by apply ordered_field. Qed.

Lemma varint_order_witness :
  bcmp (var_u32.serialize 31 ++ [xff]) (var_u32.serialize 32 ++ []) = Lt ∧
  bcmp (var_u64.serialize 16 ++ []) (var_u64.serialize 16 ++ [x00]) = Lt.
Proof. split; [rewrite (proj1 (varint_order 31 32 [xff] []))|rewrite (proj2 (varint_order 16 16 [] [x00]))]; by try split. Defined.

(** C29: what the two decoders make of any bytes, errors included, and nothing else.  An empty buffer, a length code
    above the largest (4, or 8) and a buffer shorter than its code announces are refused with the code and the lengths; otherwise
    exactly the announced bytes are consumed and the value is the number they spell: [var_u32] refuses it when it
    does not fit 32 bits, [var_u64], whose nine-byte form carries 68 bits, reduces it modulo 2^64. *)
Theorem varint_decode_exact buf r :
  (var_u32.deserialize buf = r ↔ decodes_to 5 4 fit_u32 buf r) ∧
  (var_u64.deserialize buf = r ↔ decodes_to 4 8 (λ v, Ok (wrap 64 v)) buf r).
Proof.
  split; split; [intros <-; apply var_u32_decodes|intros H; eapply decodes_to_functional; [apply var_u32_decodes|exact H]
    |intros <-; apply var_u64_decodes|intros H; eapply decodes_to_functional; [apply var_u64_decodes|exact H]].
Qed.

Example varint_refusals :
  var_u32.deserialize [xa0; x00; x00; x00; x00; x00; x00] = Err (VarintInvalidLengthCode 5) ∧
  var_u64.deserialize (x90 :: replicate 12 x00) = Err (VarintInvalidLengthCode 9) ∧
  var_u32.deserialize [x40; x20] = Err (VarintTruncated 3 2) ∧ var_u64.deserialize [] = Err VarintMissingFirstByte.
Proof. by vm_compute. Qed.
