(* ===== verification/TerminatedBytes.v ===== *)
(** * common::serde::terminated_bytes: escaped, 0x00-terminated byte strings

    The variable-length field of sorted keys: escaping keeps the byte order of
    the raw strings and the terminator makes the field self-delimiting. *)
From S2P Require Import Prelude Codec Serde ByteRange.

Definition TERMINATOR_BYTE : byte := x00.
Definition ESCAPE_BYTE : byte := x01.

(** the bytes the loop of [serialize] puts for one input byte *)
Definition put_escaped (buf : bytes) (b : byte) : bytes :=
  if bool_decide (b = TERMINATOR_BYTE) then (buf ++ [ESCAPE_BYTE]) ++ [x01]
  else if bool_decide (b = ESCAPE_BYTE) then (buf ++ [ESCAPE_BYTE]) ++ [x02]
  else buf ++ [b].

Definition serialize (data buf : bytes) : bytes :=
  fold_left put_escaped data buf ++ [TERMINATOR_BYTE].

Definition serialize_to_bytes (data : bytes) : bytes := serialize data [].

(** The [while i < buf.len()] loop; [buf] is the part not yet read. *)
Fixpoint deserialize_loop (buf result : bytes) : res DeserializeError (bytes * bytes) :=
  match buf with
  | [] => Err Unterminated
  | b :: rest =>
      if bool_decide (b = TERMINATOR_BYTE) then Ok (result, rest)
      else if bool_decide (b = ESCAPE_BYTE) then
        match rest with
        | [] => Err TruncatedEscape
        | next :: rest' =>
            if bool_decide (next = x01) then
              deserialize_loop rest' (result ++ [TERMINATOR_BYTE])
            else if bool_decide (next = x02) then
              deserialize_loop rest' (result ++ [ESCAPE_BYTE])
            else Err (InvalidEscape next)
        end
      else deserialize_loop rest (result ++ [b])
  end.

Definition deserialize (buf : bytes) : res DeserializeError (bytes * bytes) :=
  deserialize_loop buf [].

Definition prefix_range (p : bytes) : BytesRange :=
  if bool_decide (p = []) then unbounded
  else
    let start := serialize_to_bytes p in
    match lex_increment p with
    | Some e => mkRange (Included start) (Excluded (serialize_to_bytes e))
    | None => mkRange (Included start) Unbounded
    end.

(** ** The encoding as a function of each byte *)
Definition escape (b : byte) : bytes :=
  if bool_decide (b = x00) then [x01; x01]
  else if bool_decide (b = x01) then [x01; x02] else [b].

Definition escape_all (data : bytes) : bytes := data ≫= escape.

Lemma put_escaped_escape buf b : put_escaped buf b = buf ++ escape b.
Proof.
  unfold put_escaped, escape, TERMINATOR_BYTE, ESCAPE_BYTE.
  by repeat case_bool_decide; rewrite <-?app_assoc.
Qed.

Lemma serialize_escape data buf : serialize data buf = buf ++ escape_all data ++ [x00].
Proof.
  unfold serialize. revert buf. induction data as [|b data IH]; intros buf; [done|].
  cbn [fold_left escape_all mbind list_bind]. rewrite IH, put_escaped_escape.
  unfold escape_all. cbn [mbind list_bind]. by rewrite <-!app_assoc.
Qed.

Lemma serialize_to_bytes_escape data :
  serialize_to_bytes data = escape_all data ++ [x00].
Proof. apply serialize_escape. Qed.

(** bytes that are written as they are *)
Lemma escape_other b : b ≠ x00 → b ≠ x01 → escape b = [b] ∧ 2 ≤ u8 b.
Proof.
  intros H0 H1. unfold escape. rewrite !bool_decide_eq_false_2 by done. split; [done|].
  pose proof (u8_range b).
  assert (u8 b ≠ 0) by (intros E; by apply (inj u8 b x00) in E).
  assert (u8 b ≠ 1) by (intros E; by apply (inj u8 b x01) in E). lia.
Qed.

Lemma escape_nonzero b : ∃ c l, escape b = c :: l ∧ 0 < u8 c.
Proof.
  destruct (decide (b = x00)) as [->|]; [by exists x01, [x01]|].
  destruct (decide (b = x01)) as [->|]; [by exists x01, [x02]|].
  destruct (escape_other b) as [-> ?]; [done..|]. exists b, []. split; [done|lia].
Qed.

Lemma escape_order x y u v :
  bcmp (escape x ++ u) (escape y ++ v) = cmp_then (u8 x ?= u8 y) (bcmp u v).
Proof.
  destruct (decide (x = y)) as [->|Hne].
  { by rewrite bcmp_app, Z.compare_refl. }
  assert (Hcase : ∀ b, b = x00 ∨ b = x01 ∨ (escape b = [b] ∧ 2 ≤ u8 b)).
  { intros b. destruct (decide (b = x00)); [auto|]. destruct (decide (b = x01)); [auto|].
    right; right. by apply escape_other. }
  assert (Hu : u8 x ≠ u8 y) by (by intros ?%(inj u8)).
  destruct (Hcase x) as [->|[->|[-> ?]]], (Hcase y) as [->|[->|[-> ?]]];
    try done; change (escape x00) with [x01; x01]; change (escape x01) with [x01; x02];
    cbn [app bcmp].
  all: repeat match goal with
    | |- context [u8 ?c ?= u8 ?d] => destruct (Z.compare_spec (u8 c) (u8 d))
    end; try done; change (u8 x00) with 0 in *; change (u8 x01) with 1 in *; lia.
Qed.

#[global] Instance terminated_bytes_ordered :
  OrderedField (λ _, True) bcmp serialize_to_bytes.
Proof.
  intros a b s t _ _. rewrite !serialize_to_bytes_escape, <-!app_assoc. cbn [app].
  revert b. induction a as [|x a IH]; intros [|y b];
    unfold escape_all in *; cbn [mbind list_bind] in *; rewrite <-?app_assoc.
  - done.
  - destruct (escape_nonzero y) as (c & l & -> & Hc). cbn [app].
    by rewrite bcmp_cons_lt.
  - destruct (escape_nonzero x) as (c & l & -> & Hc). cbn [app].
    by rewrite bcmp_opp, bcmp_cons_lt.
  - rewrite escape_order, IH. simpl. by destruct (u8 x ?= u8 y).
Qed.

Lemma deserialize_loop_escape data result s :
  deserialize_loop (escape_all data ++ x00 :: s) result = Ok (result ++ data, s).
Proof.
  revert result. induction data as [|b data IH]; intros result.
  { simpl. by rewrite app_nil_r. }
  unfold escape_all in *. cbn [mbind list_bind]. rewrite <-app_assoc.
  destruct (decide (b = x00)) as [->|H0].
  { cbn [escape app deserialize_loop bool_decide]. simpl. by rewrite IH, <-app_assoc. }
  destruct (decide (b = x01)) as [->|H1].
  { simpl. by rewrite IH, <-app_assoc. }
  destruct (escape_other b) as [-> _]; [done..|]. cbn [app deserialize_loop].
  unfold TERMINATOR_BYTE, ESCAPE_BYTE.
  rewrite !bool_decide_eq_false_2 by done. by rewrite IH, <-app_assoc.
Qed.

#[global] Instance terminated_bytes_self_delimiting :
  SelfDelimiting (λ _, True) serialize_to_bytes deserialize.
Proof.
  intros data s _. rewrite serialize_to_bytes_escape, <-app_assoc.
  unfold deserialize. cbn [app]. by rewrite deserialize_loop_escape.
Qed.

Lemma deserialize_loop_inv n buf result d rest :
  (length buf < n)%nat →
  deserialize_loop buf result = Ok (d, rest) →
  ∃ data, d = result ++ data ∧ buf = escape_all data ++ x00 :: rest.
Proof.
  revert buf result. induction n as [|n IH]; intros buf result Hlen; [lia|].
  destruct buf as [|b buf]; [done|]. cbn [deserialize_loop length] in *.
  unfold TERMINATOR_BYTE, ESCAPE_BYTE.
  destruct (decide (b = x00)) as [->|H0].
  { simpl. intros [= <- <-]. exists []. by rewrite app_nil_r. }
  rewrite bool_decide_eq_false_2 by done.
  destruct (decide (b = x01)) as [->|H1].
  - simpl. destruct buf as [|next buf]; [done|]. simpl in Hlen.
    case_bool_decide as Hn1; [subst|case_bool_decide as Hn2; [subst|done]];
      intros (data & -> & ->)%IH; try lia.
    + exists (x00 :: data). by rewrite <-app_assoc.
    + exists (x01 :: data). by rewrite <-app_assoc.
  - rewrite bool_decide_eq_false_2 by done.
    intros (data & -> & ->)%IH; [|lia]. exists (b :: data). rewrite <-app_assoc.
    unfold escape_all. cbn [mbind list_bind]. by destruct (escape_other b) as [-> _].
Qed.

(** ** Properties *)

(** terminated bytes are a two-sided codec: decoding what [serialize] wrote
    returns the raw bytes and the rest of the buffer, and whatever the decoder
    accepts is the encoding of its result followed by that rest (so every byte
    string has exactly one accepted encoding). *)
Theorem terminated_bytes_codec buf d rest :
  deserialize buf = Ok (d, rest) ↔ buf = serialize_to_bytes d ++ rest.
Proof.
  split.
  - unfold deserialize. intros H.
    destruct (deserialize_loop_inv (S (length buf)) buf [] d rest) as (data & -> & ->);
      [lia|done|]. by rewrite serialize_to_bytes_escape, <-app_assoc.
  - intros ->. by apply decode_encode.
Qed.

(** a terminated-bytes field sorts like the raw bytes, whatever follows it. *)
Theorem terminated_bytes_order a b s t :
  bcmp (serialize_to_bytes a ++ s) (serialize_to_bytes b ++ t) =
  cmp_then (bcmp a b) (bcmp s t).
Proof. by apply ordered_field. Qed.

(** [prefix_range p] selects exactly the keys whose terminated-bytes field
    starts with [p], whatever the key holds after the field. *)
Theorem prefix_range_exact p k s :
  contains (prefix_range p) (serialize_to_bytes k ++ s) = true ↔ p `prefix_of` k.
Proof.
  unfold prefix_range. destruct (decide (p = [])) as [->|Hne].
  { rewrite bool_decide_eq_true_2 by done. split; [intros; apply prefix_nil|done]. }
  rewrite bool_decide_eq_false_2 by done.
  assert (Hlo : ble (serialize_to_bytes p) (serialize_to_bytes k ++ s) = ble p k).
  { unfold ble. rewrite <-(app_nil_r (serialize_to_bytes p)), ordered_field by done.
    by destruct (bcmp p k), s. }
  assert (Hhi : ∀ e, blt (serialize_to_bytes k ++ s) (serialize_to_bytes e) = blt k e).
  { intros e. unfold blt. rewrite <-(app_nil_r (serialize_to_bytes e)), ordered_field by done.
    by destruct (bcmp k e), s. }
  unfold contains. destruct (lex_increment p) as [e|] eqn:He; simpl; rewrite Hlo.
  - rewrite Hhi, andb_true_iff. by apply lex_increment_interval.
  - rewrite andb_true_r. by apply lex_increment_none.
Qed.
