(* ===== verification/Sortable.v ===== *)
(** * common::serde::sortable: byte-sortable i64 and f64

    An [f64] is its 64-bit IEEE 754 pattern ([to_bits]); [f64_scaled] gives the
    number a pattern denotes, multiplied by 2^1074 so that it is an integer. *)
From S2P Require Import Prelude Codec.

Definition SIGN_MASK : Z := 0x8000000000000000.

Definition encode_i64_sortable (value : Z) : Z := Z.lxor (wrap 64 value) SIGN_MASK.

Definition decode_i64_sortable (sortable : Z) : Z :=
  as_signed 64 (Z.lxor sortable SIGN_MASK).

(** [!x] on a u64 *)
Definition not_u64 (x : Z) : Z := Z.lxor x (Z.ones 64).

Definition encode_f64_sortable (bits : Z) : Z :=
  if negb (Z.land bits SIGN_MASK =? 0) then not_u64 bits else Z.lxor bits SIGN_MASK.

Definition decode_f64_sortable (sortable : Z) : Z :=
  if negb (Z.land sortable SIGN_MASK =? 0) then Z.lxor sortable SIGN_MASK
  else not_u64 sortable.

(** ** The number an f64 pattern denotes *)
Definition f64_negative (bits : Z) : bool := 2 ^ 63 <=? bits.

(** magnitude of the low 63 bits: exponent [x / 2^52], fraction [x mod 2^52];
    infinity comes out above every finite value, NaN patterns above infinity *)
Definition f64_magnitude (x : Z) : Z :=
  if x / 2 ^ 52 =? 0 then x mod 2 ^ 52
  else (2 ^ 52 + x mod 2 ^ 52) * 2 ^ (x / 2 ^ 52 - 1).

Definition f64_scaled (bits : Z) : Z :=
  if f64_negative bits then - f64_magnitude (bits - 2 ^ 63) else f64_magnitude bits.

(** ** Lemmas *)
Lemma lxor_sign x :
  in_u 64 x → Z.lxor x SIGN_MASK = if x <? 2 ^ 63 then x + 2 ^ 63 else x - 2 ^ 63.
Proof.
  intros [H0 H1].
  assert (Hlow : ∀ y, 0 ≤ y < 2 ^ 63 → Z.lxor y SIGN_MASK = y + 2 ^ 63).
  { intros y Hy. rewrite Z.lxor_comm. change SIGN_MASK with (1 * 2 ^ 63).
    rewrite lxor_low_bits by lia. lia. }
  destruct (Z.ltb_spec x (2 ^ 63)) as [Hlt|Hge]; [auto|].
  assert (0 ≤ x - 2 ^ 63 < 2 ^ 63).
  { change (2 ^ 64) with (2 ^ 63 + 2 ^ 63) in H1. lia. }
  replace x with (x - 2 ^ 63 + 2 ^ 63) at 1 by lia.
  rewrite <-Hlow by done. by rewrite Z.lxor_assoc, Z.lxor_nilpotent, Z.lxor_0_r.
Qed.

Lemma not_u64_sub x : in_u 64 x → not_u64 x = 2 ^ 64 - 1 - x.
Proof.
  intros [H0 H1]. unfold not_u64. rewrite Z.lxor_comm.
  assert (Hand : Z.land x (Z.ones 64) = x).
  { rewrite Z.land_ones by lia. by apply Z.mod_small. }
  assert (Hldiff : Z.ldiff (Z.ones 64) x = Z.lxor (Z.ones 64) x).
  { apply Z.bits_inj'. intros i Hi. rewrite Z.ldiff_spec, Z.lxor_spec.
    rewrite <-Hand, Z.land_spec. by destruct (Z.testbit (Z.ones 64) i), (Z.testbit x i). }
  rewrite <-Hldiff, <-Z.sub_nocarry_ldiff.
  - rewrite Z.ones_equiv. lia.
  - apply Z.bits_inj'. intros i Hi. rewrite Z.ldiff_spec, Z.bits_0.
    rewrite <-Hand, Z.land_spec. by destruct (Z.testbit (Z.ones 64) i), (Z.testbit x i).
Qed.

Lemma land_sign x : in_u 64 x → (Z.land x SIGN_MASK =? 0) = negb (2 ^ 63 <=? x).
Proof.
  intros Hx. destruct (Z.leb_spec (2 ^ 63) x) as [Hge|Hlt]; cbn [negb].
  - apply Z.eqb_neq. intros Hz%Z.add_nocarry_lxor.
    rewrite lxor_sign in Hz by done. change SIGN_MASK with (2 ^ 63) in Hz.
    destruct (Z.ltb_spec x (2 ^ 63)); lia.
  - apply Z.eqb_eq. rewrite Z.land_comm. change SIGN_MASK with (1 * 2 ^ 63).
    apply land_low_bits; [lia|]. destruct Hx. lia.
Qed.

Lemma pow64_63 : 2 ^ 64 = 2 ^ 63 + 2 ^ 63.
Proof. done. Qed.

(** the encodings as shifts of the number line *)
Lemma encode_i64_shift v : in_i 64 v → encode_i64_sortable v = v + 2 ^ 63.
Proof.
  unfold in_i. change (64 - 1) with 63. intros [H0 H1]. unfold encode_i64_sortable.
  rewrite lxor_sign by (apply wrap_range; lia).
  assert (Hw : wrap 64 v = if v <? 0 then v + 2 ^ 64 else v).
  { unfold wrap. destruct (Z.ltb_spec v 0).
    - rewrite <-(Z_mod_plus_full v 1), Z.mod_small; rewrite pow64_63; lia.
    - apply Z.mod_small. rewrite pow64_63. lia. }
  rewrite Hw, pow64_63. repeat case_z; lia.
Qed.

Lemma encode_f64_shift bits :
  in_u 64 bits →
  encode_f64_sortable bits =
    if f64_negative bits then 2 ^ 64 - 1 - bits else bits + 2 ^ 63.
Proof.
  intros Hb. unfold encode_f64_sortable, f64_negative. rewrite land_sign, negb_involutive by done.
  destruct (Z.leb_spec (2 ^ 63) bits).
  - by apply not_u64_sub.
  - rewrite lxor_sign by done. destruct (Z.ltb_spec bits (2 ^ 63)); [done|lia].
Qed.

Lemma encode_f64_range bits : in_u 64 bits → in_u 64 (encode_f64_sortable bits).
Proof.
  intros Hb. rewrite encode_f64_shift by done. unfold in_u, f64_negative in *.
  rewrite pow64_63 in *. destruct (Z.leb_spec (2 ^ 63) bits); lia.
Qed.

Lemma f64_magnitude_mono x y : 0 ≤ x < y → f64_magnitude x < f64_magnitude y.
Proof.
  intros [Hx Hxy]. unfold f64_magnitude.
  pose proof (Z.div_mod x (2 ^ 52) ltac:(lia)) as Ex.
  pose proof (Z.div_mod y (2 ^ 52) ltac:(lia)) as Ey.
  pose proof (Z.mod_pos_bound x (2 ^ 52) ltac:(lia)).
  pose proof (Z.mod_pos_bound y (2 ^ 52) ltac:(lia)).
  set (e := x / 2 ^ 52) in *. set (m := x mod 2 ^ 52) in *.
  set (f := y / 2 ^ 52) in *. set (n := y mod 2 ^ 52) in *.
  assert (0 ≤ e) by (apply Z.div_pos; lia).
  assert (e ≤ f) by (apply Z.div_le_mono; lia).
  destruct (Z.eqb_spec e 0) as [He|He], (Z.eqb_spec f 0) as [Hf|Hf]; try lia.
  destruct (decide (e = f)) as [Heq|Hne].
  - rewrite <-Heq in *. apply Z.mul_lt_mono_pos_r; lia.
  - assert (Hstep : 2 * 2 ^ (e - 1) ≤ 2 ^ (f - 1)).
      { rewrite <-Z.pow_succ_r by lia. apply Z.pow_le_mono_r; lia. }
      assert (0 < 2 ^ (e - 1)) by lia.
      apply Z.lt_le_trans with ((2 ^ 52 + n) * (2 * 2 ^ (e - 1))).
      * rewrite Z.mul_assoc. apply Z.mul_lt_mono_pos_r; lia.
      * apply Z.mul_le_mono_nonneg_l; lia.
Qed.

Lemma f64_magnitude_nonneg x : 0 ≤ x → 0 ≤ f64_magnitude x.
Proof.
  intros. unfold f64_magnitude. pose proof (Z.mod_pos_bound x (2 ^ 52) ltac:(lia)).
  assert (0 ≤ 2 ^ (x / 2 ^ 52 - 1)) by apply Z.pow_nonneg, Z.leb_le, eq_refl.
  destruct (_ =? 0); nia.
Qed.

Lemma f64_magnitude_cmp x y :
  0 ≤ x → 0 ≤ y → (f64_magnitude x ?= f64_magnitude y) = (x ?= y).
Proof.
  intros. destruct (Z.compare_spec x y) as [->|?|?].
  - apply Z.compare_refl.
  - apply Z.compare_lt_iff, f64_magnitude_mono. lia.
  - apply Z.compare_gt_iff, f64_magnitude_mono. lia.
Qed.

#[global] Instance i64_sortable_ordered :
  OrderedField (in_i 64) Z.compare (λ v, be_bytes 8 (encode_i64_sortable v)).
Proof.
  intros a b s t Ha Hb.
  assert (Hin : ∀ v, in_i 64 v → in_u (8 * Z.of_nat 8) (encode_i64_sortable v)).
  { intros v Hv. rewrite encode_i64_shift by done.
    unfold in_i, in_u in *. change (8 * Z.of_nat 8) with 64. change (64 - 1) with 63 in Hv.
    rewrite pow64_63. lia. }
  rewrite (ordered_field (encode_i64_sortable a)) by auto.
  rewrite !encode_i64_shift by done. f_equal. destruct (Z.compare_spec a b);
    [apply Z.compare_eq_iff|apply Z.compare_lt_iff|apply Z.compare_gt_iff]; lia.
Qed.

(** ** Properties *)

(** the sortable encodings lose nothing: decoding returns the i64, and the
    exact bit pattern of the f64 (NaN payloads and the sign of zero included). *)
Theorem sortable_roundtrip v bits :
  in_i 64 v → in_u 64 bits →
  decode_i64_sortable (encode_i64_sortable v) = v ∧
  decode_f64_sortable (encode_f64_sortable bits) = bits.
Proof.
  intros Hv Hb. split.
  - unfold decode_i64_sortable, encode_i64_sortable.
    rewrite Z.lxor_assoc, Z.lxor_nilpotent, Z.lxor_0_r.
    unfold as_signed, in_i in *. change (64 - 1) with 63 in *.
    unfold wrap. rewrite Z.mod_mod by done.
    destruct (decide (v < 0)).
    + rewrite <-(Z_mod_plus_full v 1), Z.mod_small by (rewrite pow64_63; lia).
      rewrite bool_decide_eq_false_2 by (rewrite pow64_63; lia). lia.
    + rewrite Z.mod_small by (rewrite pow64_63; lia).
      rewrite bool_decide_eq_true_2 by lia. done.
  - pose proof (encode_f64_range bits Hb) as Hr.
    unfold decode_f64_sortable. rewrite land_sign, negb_involutive by done.
    rewrite not_u64_sub, lxor_sign by done. rewrite encode_f64_shift in * by done.
    unfold in_u, f64_negative in *. rewrite pow64_63 in *.
    repeat case_z; lia.
Qed.

Lemma sortable_roundtrip_witness :
  decode_i64_sortable (encode_i64_sortable (-42)) = -42 ∧
  decode_f64_sortable (encode_f64_sortable 0xBFE0000000000000) = 0xBFE0000000000000.
Proof. apply sortable_roundtrip; by vm_compute. Defined.

(** the big-endian bytes of the encoded f64s compare like the numbers they
    denote; only the two zeros denote one number and sort by sign, -0 first. *)
Theorem f64_sortable_order a b :
  in_u 64 a → in_u 64 b →
  bcmp (be_bytes 8 (encode_f64_sortable a)) (be_bytes 8 (encode_f64_sortable b)) =
  cmp_then (f64_scaled a ?= f64_scaled b)
    (match f64_negative a, f64_negative b with
     | true, false => Lt | false, true => Gt | _, _ => Eq end).
Proof.
  intros Ha Hb. rewrite bcmp_be by by apply encode_f64_range.
  rewrite !encode_f64_shift by done. unfold f64_scaled, f64_negative, in_u in *.
  rewrite pow64_63 in *.
  assert (Hnn := f64_magnitude_nonneg).
  destruct (Z.leb_spec (2 ^ 63) a), (Z.leb_spec (2 ^ 63) b).
  - rewrite Z.compare_opp, f64_magnitude_cmp, cmp_then_eq_r by lia.
    destruct (Z.compare_spec (b - 2 ^ 63) (a - 2 ^ 63));
      [apply Z.compare_eq_iff|apply Z.compare_lt_iff|apply Z.compare_gt_iff]; lia.
  - rewrite (proj2 (Z.compare_lt_iff _ _)) by lia.
    pose proof (Hnn (a - 2 ^ 63)). pose proof (Hnn b).
    destruct (Z.compare_spec (- f64_magnitude (a - 2 ^ 63)) (f64_magnitude b)); simpl; try done; lia.
  - rewrite (proj2 (Z.compare_gt_iff _ _)) by lia.
    pose proof (Hnn a). pose proof (Hnn (b - 2 ^ 63)).
    destruct (Z.compare_spec (f64_magnitude a) (- f64_magnitude (b - 2 ^ 63))); simpl; try done; lia.
  - rewrite f64_magnitude_cmp, cmp_then_eq_r by lia.
    destruct (Z.compare_spec a b);
      [apply Z.compare_eq_iff|apply Z.compare_lt_iff|apply Z.compare_gt_iff]; lia.
Qed.

(** -0.5 sorts below 1.0 *)
Lemma f64_sortable_order_witness :
  bcmp (be_bytes 8 (encode_f64_sortable 0xBFE0000000000000))
       (be_bytes 8 (encode_f64_sortable 0x3FF0000000000000)) = Lt.
Proof. rewrite f64_sortable_order; by vm_compute. Defined.
