(* ===== verification/Encoding.v ===== *)
(** * common::serde::encoding: length-prefixed value encodings

    Strings are their bytes; [utf8_valid] is the check of [String::from_utf8]
    (the well-formed byte sequences of the Unicode standard).  A decoder returns
    the value and the rest of the buffer it is advanced to. *)
From S2P Require Import Prelude Codec.

Inductive EncodingError : Type :=
| Utf8LengthTooShort
| Utf8PayloadTooShort (need have : Z)
| InvalidUtf8
| OptionalUtf8LengthTooShort
| ArrayCountTooShort
| NotDivisible (buf_len element_size : Z)
| U64TooShort (have : Z).

(** ** UTF-8 well-formedness *)
Definition in_range (lo hi : Z) (b : byte) : bool := (lo <=? u8 b) && (u8 b <=? hi).
Definition cont (b : byte) : bool := in_range 0x80 0xBF b.

Fixpoint utf8_valid (bs : bytes) : bool :=
  match bs with
  | [] => true
  | b0 :: r0 =>
      if u8 b0 <? 0x80 then utf8_valid r0
      else match r0 with
      | [] => false
      | b1 :: r1 =>
          if in_range 0xC2 0xDF b0 then cont b1 && utf8_valid r1
          else match r1 with
          | [] => false
          | b2 :: r2 =>
              if in_range 0xE0 0xEF b0 then
                (if u8 b0 =? 0xE0 then in_range 0xA0 0xBF b1
                 else if u8 b0 =? 0xED then in_range 0x80 0x9F b1 else cont b1)
                && cont b2 && utf8_valid r2
              else match r2 with
              | [] => false
              | b3 :: r3 =>
                  in_range 0xF0 0xF4 b0 &&
                  (if u8 b0 =? 0xF0 then in_range 0x90 0xBF b1
                   else if u8 b0 =? 0xF4 then in_range 0x80 0x8F b1 else cont b1)
                  && cont b2 && cont b3 && utf8_valid r3
              end
          end
      end
  end.

(** [String::from_utf8(bytes.to_vec())] *)
Definition from_utf8 {E} (err : E) (bs : bytes) : res E bytes :=
  if utf8_valid bs then Ok bs else Err err.

(** ** The operations *)
Definition encode_utf8 {E} (s buf : bytes) : res E bytes :=
  if u_max 16 <? blen s then Panic
  else Ok ((buf ++ le_bytes 2 (wrap 16 (blen s))) ++ s).

Definition decode_utf8 (buf : bytes) : res EncodingError (bytes * bytes) :=
  if bool_decide (length buf < 2)%nat then Err Utf8LengthTooShort
  else
    let len := Z.to_nat (from_le (take 2 buf)) in
    let buf := drop 2 buf in
    if bool_decide (length buf < len)%nat then
      Err (Utf8PayloadTooShort (Z.of_nat len) (blen buf))
    else
      let payload := take len buf in
      let buf := drop len buf in
      let? s := from_utf8 InvalidUtf8 payload in
      Ok (s, buf).

Definition encode_optional_utf8 {E} (opt : option bytes) (buf : bytes) : res E bytes :=
  match opt with
  | Some s => encode_utf8 s buf
  | None => Ok (buf ++ le_bytes 2 0)
  end.

Definition decode_optional_utf8 (buf : bytes) : res EncodingError (option bytes * bytes) :=
  if bool_decide (length buf < 2)%nat then Err OptionalUtf8LengthTooShort
  else if from_le (take 2 buf) =? 0 then Ok (None, drop 2 buf)
  else let? (s, buf) := decode_utf8 buf in Ok (Some s, buf).

Definition decode_array_count (buf : bytes) : res EncodingError (Z * bytes) :=
  if bool_decide (length buf < 2)%nat then Err ArrayCountTooShort
  else Ok (from_le (take 2 buf), drop 2 buf).

Definition encode_array_count {E} (count : Z) (buf : bytes) : res E bytes :=
  if u_max 16 <? count then Panic else Ok (buf ++ le_bytes 2 (wrap 16 count)).

(** [is_multiple_of(0)] holds of 0 only, and then the division panics. *)
Definition validate_fixed_element_array_len (buf_len element_size : Z) :
    res EncodingError Z :=
  if negb (if element_size =? 0 then buf_len =? 0 else buf_len mod element_size =? 0)
  then Err (NotDivisible buf_len element_size)
  else if element_size =? 0 then Panic else Ok (buf_len / element_size).

Definition encode_u64 (value : Z) (buf : bytes) : bytes := buf ++ le_bytes 8 value.

Definition decode_u64 (buf : bytes) : res EncodingError (Z * bytes) :=
  if bool_decide (length buf < 8)%nat then Err (U64TooShort (blen buf))
  else Ok (from_le (take 8 buf), drop 8 buf).

(** ** Sequences of elements, one after the other; the elements' codecs are arguments *)
Fixpoint encode_items {E A} (enc : A → bytes → res E bytes) (items : list A) (buf : bytes) : res E bytes :=
  match items with
  | [] => Ok buf
  | x :: items => let? buf := enc x buf in encode_items enc items buf
  end.

Fixpoint decode_items {E A} (dec : bytes → res E (A * bytes)) (count : nat) (buf : bytes) :
    res E (list A * bytes) :=
  match count with
  | O => Ok ([], buf)
  | S count =>
      let? (x, buf) := dec buf in
      let? (xs, buf) := decode_items dec count buf in
      Ok (x :: xs, buf)
  end.

(** ** Lemmas *)
Lemma encode_items_spec {E A} (enc : A → bytes → res E bytes) (e : A → bytes) items buf :
  (∀ x b, x ∈ items → enc x b = Ok (b ++ e x)) → encode_items enc items buf = Ok (buf ++ (items ≫= e)).
Proof.
  revert buf. induction items as [|x items IH]; intros buf H; cbn [encode_items mbind list_bind]; [by rewrite app_nil_r|].
  rewrite H by left. cbn [res_bind]. rewrite IH by (intros; apply H; by right). by rewrite <-app_assoc.
Qed.

Lemma decode_items_spec {E A} (dec : bytes → res E (A * bytes)) (e : A → bytes) items rest :
  (∀ x b, x ∈ items → dec (e x ++ b) = Ok (x, b)) →
  decode_items dec (length items) ((items ≫= e) ++ rest) = Ok (items, rest).
Proof.
  induction items as [|x items IH]; intros H; [done|]. cbn [mbind list_bind decode_items length].
  rewrite <-app_assoc, H by left. cbn [res_bind]. by rewrite IH by (intros; apply H; by right).
Qed.

(** a string that fits the u16 length prefix *)
Definition wf_str (s : bytes) : Prop := utf8_valid s = true ∧ blen s ≤ u_max 16.

Definition enc_str (s : bytes) : bytes := le_bytes 2 (blen s) ++ s.

Lemma blen_nonneg {A} (l : list A) : 0 ≤ blen l.
Proof. unfold blen. lia. Qed.

Lemma blen_u16 {A} (l : list A) : blen l ≤ u_max 16 → in_u 16 (blen l).
Proof. pose proof (blen_nonneg l). unfold in_u, u_max. lia. Qed.

Lemma encode_utf8_spec {E} s buf :
  encode_utf8 (E:=E) s buf = if u_max 16 <? blen s then Panic else Ok (buf ++ enc_str s).
Proof.
  unfold encode_utf8, enc_str. destruct (Z.ltb_spec (u_max 16) (blen s)); [done|].
  rewrite wrap_small by by apply blen_u16. by rewrite <-app_assoc.
Qed.

Lemma enc_str_parts s rest :
  in_u 16 (blen s) →
  take 2 (enc_str s ++ rest) = le_bytes 2 (blen s) ∧
  drop 2 (enc_str s ++ rest) = s ++ rest ∧ (2 ≤ length (enc_str s ++ rest))%nat.
Proof.
  intros. unfold enc_str. rewrite <-app_assoc. split_and!.
  - apply take_app_length'. by rewrite le_bytes_length.
  - apply drop_app_length'. by rewrite le_bytes_length.
  - rewrite length_app, le_bytes_length. lia.
Qed.

#[global] Instance utf8_self_delimiting : SelfDelimiting wf_str enc_str decode_utf8.
Proof.
  intros s rest [Hv Hl]. pose proof (blen_u16 s Hl) as Hin.
  destruct (enc_str_parts s rest Hin) as (Ht & Hd & Hlen).
  unfold decode_utf8. rewrite bool_decide_eq_false_2 by lia.
  rewrite Ht, Hd, from_le_roundtrip by done.
  replace (Z.to_nat (blen s)) with (length s) by (unfold blen; lia).
  rewrite bool_decide_eq_false_2 by (rewrite length_app; lia).
  rewrite take_app_length, drop_app_length. unfold from_utf8. by rewrite Hv.
Qed.

#[global] Instance array_count_self_delimiting :
  SelfDelimiting (in_u 16) (le_bytes 2) decode_array_count.
Proof.
  intros n rest Hn. unfold decode_array_count.
  rewrite bool_decide_eq_false_2 by (rewrite length_app, le_bytes_length; lia).
  rewrite take_app_length', drop_app_length' by by rewrite le_bytes_length.
  by rewrite from_le_roundtrip.
Qed.

#[global] Instance u64_self_delimiting :
  SelfDelimiting (in_u 64) (le_bytes 8) decode_u64.
Proof.
  intros n rest Hn. unfold decode_u64.
  rewrite bool_decide_eq_false_2 by (rewrite length_app, le_bytes_length; lia).
  rewrite take_app_length', drop_app_length' by by rewrite le_bytes_length.
  by rewrite from_le_roundtrip.
Qed.

(** the strings [decode_utf8] returns are valid and end where it stops reading *)
Lemma decode_utf8_sound buf s rest :
  decode_utf8 buf = Ok (s, rest) → wf_str s ∧ buf = enc_str s ++ rest.
Proof.
  unfold decode_utf8, from_utf8. case_bool_decide as H2; [done|].
  case_bool_decide as Hlen; [done|].
  destruct (utf8_valid _) eqn:Hv; [|done]. simpl. intros [= <- <-].
  set (len := from_le (take 2 buf)) in *.
  assert (Hr : 0 ≤ len < 2 ^ 16).
  { pose proof (from_le_range (take 2 buf)) as H.
    rewrite length_take, Nat.min_l in H by lia. exact H. }
  assert (Hb : blen (take (Z.to_nat len) (drop 2 buf)) = len).
  { unfold blen. rewrite length_take. lia. }
  split; [split; [done|]; rewrite Hb; unfold u_max; lia|].
  unfold enc_str. rewrite Hb.
  pose proof (le_bytes_from_le (take 2 buf)) as Hle.
  rewrite length_take, Nat.min_l in Hle by lia.
  rewrite take_drop. change (buf = le_bytes 2 len ++ drop 2 buf).
  fold len in Hle. by rewrite Hle, take_drop.
Qed.

(** ** Properties *)

(** the optional-string encoding reads back what was written, except that
    [Some] of the empty string reads back as [None] (the format reserves length
    0); a string longer than 65 535 bytes panics instead of being written. *)
Theorem optional_utf8_roundtrip (o : option bytes) rest :
  (∀ s, o = Some s → utf8_valid s = true) →
  match encode_optional_utf8 (E:=EncodingError) o [] with
  | Ok enc => decode_optional_utf8 (enc ++ rest) =
                Ok (if bool_decide (o = Some []) then None else o, rest)
  | _ => ∃ s, o = Some s ∧ 65535 < blen s
  end.
Proof.
  intros Hvalid. destruct o as [s|]; cbn [encode_optional_utf8]; [|done].
  rewrite encode_utf8_spec. destruct (Z.ltb_spec (u_max 16) (blen s)) as [Hbig|Hl].
  { exists s. split; [done|]. exact Hbig. }
  pose proof (blen_u16 s Hl) as Hin. cbn [app].
  destruct (enc_str_parts s rest Hin) as (Ht & Hd & Hlen).
  unfold decode_optional_utf8. rewrite bool_decide_eq_false_2 by lia.
  rewrite Ht, from_le_roundtrip by done.
  destruct (Z.eqb_spec (blen s) 0) as [H0|H0].
  - destruct s; [|unfold blen in H0; simpl in H0; lia].
    rewrite bool_decide_eq_true_2 by done. by rewrite Hd.
  - rewrite bool_decide_eq_false_2 by (intros [= ->]; done).
    rewrite decode_encode by (split; auto). done.
Qed.

Lemma optional_utf8_roundtrip_witness :
  decode_optional_utf8 ([x02; x00; xc3; xa9] ++ [x07]) = Ok (Some [xc3; xa9], [x07]).
Proof.
  apply (optional_utf8_roundtrip (Some [xc3; xa9]) [x07]). by intros s [= <-].
Defined.
