(* ===== verification/Storage.v ===== *)
(** * common::storage: records, the Storage trait and the in-memory store

    [BTreeMap<Bytes, V>] is modelled by its in-order contents, an association
    list strictly sorted by key ([Module BTreeMap]).  The clock is an argument
    ([now]) of the operations that read it.  [InMemory] translates
    [InMemoryStorage] and its snapshots; [spec_op] is the reference meaning of a
    batch, on plain partial functions. *)
From S2P Require Import Prelude ByteRange.

Inductive StorageError : Type :=
| StorageErr_MergeOperatorMissing
| StorageErr_CheckpointUnsupported
| StorageErr_Internal.

Record Record_ : Type := mkRecord { key : bytes; value : bytes }.

Inductive Ttl : Type :=
| TtlDefault
| NoExpiry
| ExpireAfter (ms : Z)
| ExpireAt (ts : Z).

Inductive RecordOp : Type :=
| Put (r : Record_) (ttl : Ttl)
| Merge (r : Record_) (ttl : Ttl)
| Delete (k : bytes).

(** [MergeOperator::merge_batch] *)
Definition MergeOperator : Type := bytes → option bytes → list bytes → bytes.

(** [default_merge_batch] *)
Definition default_merge_batch {E} (key : bytes) (existing_value : option bytes)
    (operands : list bytes) (merge : bytes → option bytes → bytes → bytes) : res E bytes :=
  expect (fold_left (λ result operand, Some (merge key result operand))
            operands existing_value).

(** ** Ordered map *)
Module BTreeMap.
Section btree.
Context {V : Type}.

Fixpoint get (k : bytes) (m : list (bytes * V)) : option V :=
  match m with
  | [] => None
  | (k', v) :: m => match bcmp k k' with Eq => Some v | _ => get k m end
  end.

Fixpoint insert (k : bytes) (v : V) (m : list (bytes * V)) : list (bytes * V) :=
  match m with
  | [] => [(k, v)]
  | (k', v') :: m' =>
      match bcmp k k' with
      | Lt => (k, v) :: m
      | Eq => (k, v) :: m'
      | Gt => (k', v') :: insert k v m'
      end
  end.

Fixpoint remove (k : bytes) (m : list (bytes * V)) : list (bytes * V) :=
  match m with
  | [] => []
  | (k', v') :: m' =>
      match bcmp k k' with Eq => m' | _ => (k', v') :: remove k m' end
  end.

(** [BTreeMap::range] panics on an inverted range and on an empty one given by
    two equal excluded bounds. *)
Definition range_panics (r : BytesRange) : bool :=
  match start r, end_ r with
  | Excluded s, Excluded e => ble e s
  | Included s, Included e => blt e s
  | Included s, Excluded e => blt e s
  | Excluded s, Included e => blt e s
  | _, _ => false
  end.

Definition range {E} (r : BytesRange) (m : list (bytes * V)) : res E (list (bytes * V)) :=
  if range_panics r then Panic
  else Ok (filter (λ kv, contains r kv.1 = true) m).

Definition sorted (m : list (bytes * V)) : Prop :=
  StronglySorted (λ a b, bcmp a.1 b.1 = Lt) m.
End btree.
End BTreeMap.

(** ** InMemoryStorage *)
Module InMemory.

Record StoredValue : Type := mkStored { sv_value : bytes; expire_ts : option Z }.

Definition is_expired (s : StoredValue) (now : Z) : bool :=
  match expire_ts s with Some ts => ts <=? now | None => false end.

(** [now + ms as i64], wrapping *)
Definition add_i64 (now ms : Z) : Z := as_signed 64 (now + as_signed 64 ms).

Definition compute_expire_ts (now : Z) (ttl : Ttl) (default_ttl : option Z) : option Z :=
  match ttl with
  | TtlDefault => (λ ms, add_i64 now ms) <$> default_ttl
  | NoExpiry => None
  | ExpireAfter ms => Some (add_i64 now ms)
  | ExpireAt ts => Some ts
  end.

Record t : Type := mk {
  data : list (bytes * StoredValue);
  merge_operator : option MergeOperator;
  default_ttl : option Z;
  written_seq : Z;
  durable_seq : Z;
  durable_tx : Z;        (* value of the watch channel *)
  defer_durability : bool;
}.

Definition new (op : option MergeOperator) (ttl : option Z) (defer : bool) : t :=
  mk [] op ttl 0 0 0 defer.

Definition set_data (s : t) (d : list (bytes * StoredValue)) : t :=
  mk d (merge_operator s) (default_ttl s) (written_seq s) (durable_seq s)
    (durable_tx s) (defer_durability s).

Definition flush_to {E} (seq : Z) (s : t) : res E t :=
  let? _ := rust_assert (seq <=? written_seq s) in
  let? _ := rust_assert (durable_seq s <=? seq) in
  Ok (mk (data s) (merge_operator s) (default_ttl s) (written_seq s) seq seq
        (defer_durability s)).

Definition next_seqnum (s : t) : Z * t :=
  let seq := wrap 64 (written_seq s + 1) in
  (seq, mk (data s) (merge_operator s) (default_ttl s) seq
          (if defer_durability s then durable_seq s else seq)
          (if defer_durability s then durable_tx s else seq) (defer_durability s)).

(** the live entry of a key, as [get] and the merge paths read it *)
Definition live (now : Z) (k : bytes) (d : list (bytes * StoredValue)) : option bytes :=
  match BTreeMap.get k d with
  | Some stored => if is_expired stored now then None else Some (sv_value stored)
  | None => None
  end.

Definition get (now : Z) (k : bytes) (s : t) : res StorageError (option Record_) :=
  Ok (mkRecord k <$> live now k (data s)).

(** [scan_iter] followed by draining the iterator ([StorageRead::scan]) *)
Definition scan (now : Z) (r : BytesRange) (s : t) : res StorageError (list Record_) :=
  let? entries := BTreeMap.range r (data s) in
  Ok ((λ kv, mkRecord kv.1 (sv_value kv.2)) <$>
        filter (λ kv, is_expired kv.2 now = false) entries).

Definition put_op (now : Z) (s : t) (r : Record_) (ttl : Ttl)
    (d : list (bytes * StoredValue)) : list (bytes * StoredValue) :=
  BTreeMap.insert (key r)
    (mkStored (value r) (compute_expire_ts now ttl (default_ttl s))) d.

Definition merge_op (now : Z) (s : t) (f : MergeOperator) (r : Record_) (ttl : Ttl)
    (d : list (bytes * StoredValue)) : list (bytes * StoredValue) :=
  let existing_value := live now (key r) d in
  let merged_value := f (key r) existing_value [value r] in
  BTreeMap.insert (key r)
    (mkStored merged_value (compute_expire_ts now ttl (default_ttl s))) d.

(** one iteration of the loop of [apply_with_options]; the [unwrap] on a missing
    merge operator panics *)
Definition apply_op {E} (now : Z) (s : t) (d : list (bytes * StoredValue)) (op : RecordOp) :
    res E (list (bytes * StoredValue)) :=
  match op with
  | Put r ttl => Ok (put_op now s r ttl d)
  | Merge r ttl =>
      let? f := expect (merge_operator s) in
      Ok (merge_op now s f r ttl d)
  | Delete k => Ok (BTreeMap.remove k d)
  end.

Fixpoint apply_ops {E} (now : Z) (s : t) (ops : list RecordOp)
    (d : list (bytes * StoredValue)) : res E (list (bytes * StoredValue)) :=
  match ops with
  | [] => Ok d
  | op :: ops => let? d := apply_op now s d op in apply_ops now s ops d
  end.

Definition apply_with_options (now : Z) (ops : list RecordOp) (s : t) :
    res StorageError (t * Z) :=
  let? d := apply_ops now s ops (data s) in
  let '(seqnum, s) := next_seqnum (set_data s d) in
  Ok (s, seqnum).

Definition put_with_options (now : Z) (records : list (Record_ * Ttl)) (s : t) :
    res StorageError (t * Z) :=
  let d := fold_left (λ d '(r, ttl), put_op now s r ttl d) records (data s) in
  let '(seqnum, s) := next_seqnum (set_data s d) in
  Ok (s, seqnum).

Definition merge_with_options (now : Z) (records : list (Record_ * Ttl)) (s : t) :
    res StorageError (t * Z) :=
  match merge_operator s with
  | None => Err StorageErr_MergeOperatorMissing
  | Some f =>
      let d := fold_left (λ d '(r, ttl), merge_op now s f r ttl d) records (data s) in
      let '(seqnum, s) := next_seqnum (set_data s d) in
      Ok (s, seqnum)
  end.

(** a snapshot is a copy of the map; [snapshot_get] and [snapshot_scan] read it *)
Definition snapshot (s : t) : list (bytes * StoredValue) := data s.

Definition snapshot_get (now : Z) (k : bytes) (d : list (bytes * StoredValue)) :
    res StorageError (option Record_) := Ok (mkRecord k <$> live now k d).

Definition snapshot_scan (now : Z) (r : BytesRange) (d : list (bytes * StoredValue)) :
    res StorageError (list Record_) :=
  let? entries := BTreeMap.range r d in
  Ok ((λ kv, mkRecord kv.1 (sv_value kv.2)) <$>
        filter (λ kv, is_expired kv.2 now = false) entries).

Definition flush (s : t) : res StorageError t :=
  if defer_durability s then flush_to (written_seq s) s else Ok s.

Definition create_checkpoint (s : t) : res StorageError unit :=
  Err StorageErr_CheckpointUnsupported.

(** ** Reference meaning of a batch *)
Definition spec_live (now : Z) (o : option StoredValue) : option bytes :=
  match o with
  | Some stored => if is_expired stored now then None else Some (sv_value stored)
  | None => None
  end.

Definition spec_op (now : Z) (f : MergeOperator) (ttl0 : option Z)
    (m : bytes → option StoredValue) (op : RecordOp) : bytes → option StoredValue :=
  match op with
  | Put r ttl => λ k, if bool_decide (k = key r)
      then Some (mkStored (value r) (compute_expire_ts now ttl ttl0)) else m k
  | Merge r ttl => λ k, if bool_decide (k = key r)
      then Some (mkStored (f (key r) (spec_live now (m (key r))) [value r])
                   (compute_expire_ts now ttl ttl0)) else m k
  | Delete k' => λ k, if bool_decide (k = k') then None else m k
  end.

(** the store's invariant *)
Definition inv (s : t) : Prop :=
  BTreeMap.sorted (data s) ∧
  0 ≤ durable_seq s ≤ written_seq s ∧ durable_tx s = durable_seq s ∧
  (defer_durability s = false → durable_seq s = written_seq s).

End InMemory.

(** ** Lemmas on the ordered map *)
Section btree_lemmas.
Context {V : Type}.
Implicit Types m : list (bytes * V).

Lemma sorted_inv kv m :
  BTreeMap.sorted (kv :: m) → BTreeMap.sorted m ∧ ∀ x, x ∈ m → bcmp kv.1 x.1 = Lt.
Proof.
  intros [H1 H2]%StronglySorted_inv. split; [done|].
  intros x Hx. rewrite Forall_forall in H2. auto.
Qed.

Lemma get_below k m :
  (∀ x, x ∈ m → bcmp k x.1 = Lt) → BTreeMap.get k m = None.
Proof.
  induction m as [|[k' v'] m IH]; cbn [BTreeMap.get]; intros H; [done|].
  pose proof (H (k', v') ltac:(left)) as Hk. simpl in Hk. rewrite Hk. apply IH. intros x Hx. apply H. by right.
Qed.

Lemma get_insert k k' v m :
  BTreeMap.get k' (BTreeMap.insert k v m) =
  if bool_decide (k' = k) then Some v else BTreeMap.get k' m.
Proof.
  induction m as [|[x w] m IH]; cbn [BTreeMap.insert BTreeMap.get].
  - case_bool_decide as E; [subst; by rewrite bcmp_refl|].
    destruct (bcmp k' k) eqn:Hc; try done. by apply bcmp_eq in Hc.
  - destruct (bcmp k x) eqn:Hkx; cbn [BTreeMap.get]; rewrite ?IH.
    + apply bcmp_eq in Hkx as ->.
      case_bool_decide as E; [subst; by rewrite bcmp_refl|].
      destruct (bcmp k' x) eqn:Hc; try done. by apply bcmp_eq in Hc.
    + case_bool_decide as E; [subst; by rewrite bcmp_refl|].
      destruct (bcmp k' k) eqn:Hc; try done. by apply bcmp_eq in Hc.
    + case_bool_decide as E; [subst; by rewrite Hkx|]. done.
Qed.

Lemma elem_insert x k v m :
  x ∈ BTreeMap.insert k v m → x = (k, v) ∨ x ∈ m.
Proof.
  induction m as [|[k' v'] m IH]; cbn [BTreeMap.insert].
  - intros ?%list_elem_of_singleton. auto.
  - destruct (bcmp k k'); rewrite !elem_of_cons; naive_solver.
Qed.

Lemma elem_remove x k m : x ∈ BTreeMap.remove k m → x ∈ m.
Proof.
  induction m as [|[k' v'] m IH]; cbn [BTreeMap.remove]; [done|].
  destruct (bcmp k k'); rewrite !elem_of_cons; naive_solver.
Qed.

Lemma insert_sorted k v m : BTreeMap.sorted m → BTreeMap.sorted (BTreeMap.insert k v m).
Proof.
  induction m as [|[k' v'] m IH]; cbn [BTreeMap.insert].
  { intros _. repeat constructor. }
  intros Hs. destruct (sorted_inv _ _ Hs) as [Hm Hlt].
  destruct (bcmp k k') eqn:Hc.
  - apply bcmp_eq in Hc as ->. apply SSorted_cons; [done|].
    apply Forall_forall. intros x Hx. exact (Hlt x Hx).
  - apply SSorted_cons; [done|]. apply Forall_forall.
    intros x [->|Hx]%elem_of_cons; [done|].
    eapply bcmp_lt_trans; [exact Hc|]. exact (Hlt x Hx).
  - apply SSorted_cons; [by apply IH|]. apply Forall_forall.
    intros x [->|Hx]%elem_insert; [|by apply Hlt].
    simpl. rewrite bcmp_opp, Hc. done.
Qed.

Lemma remove_sorted k m : BTreeMap.sorted m → BTreeMap.sorted (BTreeMap.remove k m).
Proof.
  induction m as [|[k' v'] m IH]; cbn [BTreeMap.remove]; [done|].
  intros Hs. destruct (sorted_inv _ _ Hs) as [Hm Hlt].
  destruct (bcmp k k'); [done|..];
    (apply SSorted_cons; [by apply IH|]; apply Forall_forall;
     intros x Hx%elem_remove; by apply Hlt).
Qed.

Lemma get_remove k k' m :
  BTreeMap.sorted m →
  BTreeMap.get k' (BTreeMap.remove k m) =
  if bool_decide (k' = k) then None else BTreeMap.get k' m.
Proof.
  induction m as [|[x w] m IH]; cbn [BTreeMap.remove BTreeMap.get].
  { by case_bool_decide. }
  intros Hs. destruct (sorted_inv _ _ Hs) as [Hm Hlt]. specialize (IH Hm).
  destruct (bcmp k x) eqn:Hkx; cbn [BTreeMap.get]; rewrite ?IH.
  - apply bcmp_eq in Hkx as ->. case_bool_decide as E.
    + subst. by apply get_below.
    + destruct (bcmp k' x) eqn:Hc; try done. by apply bcmp_eq in Hc.
  - case_bool_decide as E; [subst; by rewrite Hkx|done].
  - case_bool_decide as E; [subst; by rewrite Hkx|done].
Qed.

Lemma elem_get k v m : BTreeMap.sorted m → (k, v) ∈ m ↔ BTreeMap.get k m = Some v.
Proof.
  induction m as [|[x w] m IH]; cbn [BTreeMap.get].
  { intros _. split; [by intros ?%not_elem_of_nil|done]. }
  intros Hs. destruct (sorted_inv _ _ Hs) as [Hm Hlt]. rewrite elem_of_cons, (IH Hm).
  destruct (bcmp k x) eqn:Hc.
  - apply bcmp_eq in Hc as ->. split; [|naive_solver].
    intros [?|Hg]; [naive_solver|]. apply IH in Hg; [|done].
    apply Hlt in Hg. simpl in Hg. by rewrite bcmp_refl in Hg.
  - split; [|auto]. intros [[= -> ->]|?]; [by rewrite bcmp_refl in Hc|done].
  - split; [|auto]. intros [[= -> ->]|?]; [by rewrite bcmp_refl in Hc|done].
Qed.

Lemma filter_sorted (P : bytes * V → Prop) `{!∀ x, Decision (P x)} m :
  BTreeMap.sorted m → BTreeMap.sorted (filter P m).
Proof.
  induction m as [|x m IH]; [done|]. intros Hs. destruct (sorted_inv _ _ Hs) as [Hm Hlt].
  rewrite filter_cons. case_decide; [|auto].
  apply SSorted_cons; [by apply IH|]. apply Forall_forall.
  intros y [_ Hy]%list_elem_of_filter. auto.
Qed.
End btree_lemmas.

(** ** Lemmas on the store *)
Lemma live_spec now k d : InMemory.live now k d = InMemory.spec_live now (BTreeMap.get k d).
Proof. done. Qed.

Lemma apply_op_sorted {E} now s d op d' :
  InMemory.apply_op (E:=E) now s d op = Ok d' → BTreeMap.sorted d → BTreeMap.sorted d'.
Proof.
  destruct op; cbn [InMemory.apply_op]; intros H Hs; inv_ok; subst;
    unfold InMemory.put_op, InMemory.merge_op; eauto using insert_sorted, remove_sorted.
Qed.

Lemma apply_ops_sorted {E} now s ops d d' :
  InMemory.apply_ops (E:=E) now s ops d = Ok d' → BTreeMap.sorted d → BTreeMap.sorted d'.
Proof.
  revert d. induction ops as [|op ops IH]; cbn [InMemory.apply_ops]; intros d H Hs;
    inv_ok; [by subst|]. eauto using apply_op_sorted.
Qed.

Lemma apply_op_refines {E} now s f d op d' m :
  InMemory.merge_operator s = Some f → BTreeMap.sorted d →
  (∀ k, BTreeMap.get k d = m k) →
  InMemory.apply_op (E:=E) now s d op = Ok d' →
  ∀ k, BTreeMap.get k d' = InMemory.spec_op now f (InMemory.default_ttl s) m op k.
Proof.
  intros Hf Hs Hm H k. destruct op; cbn [InMemory.apply_op InMemory.spec_op] in *; inv_ok;
    subst; unfold InMemory.put_op, InMemory.merge_op.
  - by rewrite get_insert, Hm.
  - rewrite get_insert, Hm, live_spec, Hm. by simplify_eq.
  - by rewrite get_remove, Hm.
Qed.

Lemma apply_ops_refines {E} now s f ops d d' m :
  InMemory.merge_operator s = Some f → BTreeMap.sorted d →
  (∀ k, BTreeMap.get k d = m k) →
  InMemory.apply_ops (E:=E) now s ops d = Ok d' →
  ∀ k, BTreeMap.get k d' =
    fold_left (InMemory.spec_op now f (InMemory.default_ttl s)) ops m k.
Proof.
  intros Hf. revert d m. induction ops as [|op ops IH];
    cbn [InMemory.apply_ops fold_left]; intros d m Hs Hm H; inv_ok; [by subst|].
  eapply IH; [by eapply apply_op_sorted| |done]. by eapply apply_op_refines.
Qed.

(** with a merge operator configured, a batch never fails and never panics *)
Lemma apply_ops_total {E} now s f ops d :
  InMemory.merge_operator s = Some f →
  ∃ d', InMemory.apply_ops (E:=E) now s ops d = Ok d'.
Proof.
  intros Hf. revert d. induction ops as [|op ops IH]; cbn [InMemory.apply_ops]; [eauto|].
  intros d. destruct op; cbn [InMemory.apply_op]; rewrite ?Hf; simpl; apply IH.
Qed.

Lemma next_seqnum_inv s d q s' :
  InMemory.inv s → BTreeMap.sorted d → InMemory.written_seq s + 1 < 2 ^ 64 →
  InMemory.next_seqnum (InMemory.set_data s d) = (q, s') →
  InMemory.inv s' ∧ q = InMemory.written_seq s'.
Proof.
  intros (_ & Hr & Htx & Hd) Hs Hb. unfold InMemory.next_seqnum. simpl. intros [= <- <-].
  split; [|done]. unfold InMemory.inv. simpl. rewrite wrap_small by (unfold in_u; lia).
  destruct (InMemory.defer_durability s); split_and!; try done; lia.
Qed.

Lemma fold_put_sorted now s records d :
  BTreeMap.sorted d →
  BTreeMap.sorted (fold_left (λ d '(r, ttl), InMemory.put_op now s r ttl d) records d).
Proof.
  revert d. induction records as [|[r ttl] records IH]; intros d Hd; [done|].
  apply IH, insert_sorted, Hd.
Qed.

Lemma fold_merge_sorted now s f records d :
  BTreeMap.sorted d →
  BTreeMap.sorted (fold_left (λ d '(r, ttl), InMemory.merge_op now s f r ttl d) records d).
Proof.
  revert d. induction records as [|[r ttl] records IH]; intros d Hd; [done|].
  apply IH, insert_sorted, Hd.
Qed.

(** ** Properties *)

(** the invariant of the in-memory store (keys strictly sorted; durable
    watermark at most the written one, equal to it unless durability is deferred,
    and always the value the watch channel shows) is kept by every write. *)
Theorem in_memory_inv_preserved now s s' seqnum ops recs :
  InMemory.inv s → InMemory.written_seq s + 1 < 2 ^ 64 →
  InMemory.apply_with_options now ops s = Ok (s', seqnum) ∨
  InMemory.put_with_options now recs s = Ok (s', seqnum) ∨
  InMemory.merge_with_options now recs s = Ok (s', seqnum) ∨
  (InMemory.flush s = Ok s' ∧ seqnum = InMemory.written_seq s) →
  InMemory.inv s' ∧ seqnum = InMemory.written_seq s'.
Proof.
  intros Hinv Hb. pose proof (proj1 Hinv) as Hs.
  intros [H|[H|[H|[H ->]]]].
  - unfold InMemory.apply_with_options in H. inv_ok. subst.
    eauto using next_seqnum_inv, apply_ops_sorted.
  - unfold InMemory.put_with_options in H. inv_ok. subst.
    eauto using next_seqnum_inv, fold_put_sorted.
  - unfold InMemory.merge_with_options in H. inv_ok. subst.
    eauto using next_seqnum_inv, fold_merge_sorted.
  - unfold InMemory.flush, InMemory.flush_to, rust_assert in H.
    destruct (InMemory.defer_durability s) eqn:Hd; inv_ok; reflect; subst; [|done].
    destruct Hinv as (_ & ? & ? & _). unfold InMemory.inv. simpl.
    split; [|done]. split_and!; try done; lia.
Qed.

Lemma in_memory_inv_preserved_witness :
  InMemory.inv (InMemory.mk [([x61], InMemory.mkStored [x01] None)] None None 1 1 1 false).
Proof.
  apply (in_memory_inv_preserved 0 (InMemory.new None None false) _ 1
           [Put (mkRecord [x61] [x01]) NoExpiry] []).
  - unfold InMemory.inv. simpl. split_and!; try done. constructor.
  - done.
  - left. reflexivity.
Defined.

(** an atomic batch of puts, merges and deletes does to the store what the
    reference meaning does to a partial function, key by key and in order; with a
    merge operator configured it always succeeds. *)
Theorem in_memory_apply_refines now s f ops :
  InMemory.merge_operator s = Some f → BTreeMap.sorted (InMemory.data s) →
  ∃ s' seqnum, InMemory.apply_with_options now ops s = Ok (s', seqnum) ∧
    ∀ k, BTreeMap.get k (InMemory.data s') =
      fold_left (InMemory.spec_op now f (InMemory.default_ttl s)) ops
        (λ k, BTreeMap.get k (InMemory.data s)) k.
Proof.
  intros Hf Hs. unfold InMemory.apply_with_options.
  destruct (apply_ops_total (E:=StorageError) now s f ops (InMemory.data s) Hf) as [d' Hd'].
  rewrite Hd'. simpl. do 2 eexists. split; [done|]. simpl.
  by eapply apply_ops_refines.
Qed.

Lemma in_memory_apply_refines_witness :
  ∃ s' seqnum, InMemory.apply_with_options 5
      [Merge (mkRecord [x61] [x01]) NoExpiry; Merge (mkRecord [x61] [x02]) NoExpiry]
      (InMemory.new (Some (λ _ e os, default [] e ++ concat os)) None false)
    = Ok (s', seqnum) ∧
    BTreeMap.get [x61] (InMemory.data s') = Some (InMemory.mkStored [x01; x02] None).
Proof.
  destruct (in_memory_apply_refines 5
    (InMemory.new (Some (λ _ e os, default [] e ++ concat os)) None false)
    (λ _ e os, default [] e ++ concat os)
    [Merge (mkRecord [x61] [x01]) NoExpiry; Merge (mkRecord [x61] [x02]) NoExpiry]
    eq_refl ltac:(constructor)) as (s' & q & H & Hg).
  exists s', q. split; [exact H|]. rewrite Hg. reflexivity.
Defined.

(** a scan returns, in strictly increasing key order, exactly the records of
    the range that a point [get] returns (expired entries left out). *)
Theorem in_memory_scan_exact now r s recs :
  BTreeMap.sorted (InMemory.data s) → InMemory.scan now r s = Ok recs →
  StronglySorted (λ a b, bcmp (key a) (key b) = Lt) recs ∧
  ∀ k v, mkRecord k v ∈ recs ↔
    contains r k = true ∧ InMemory.get now k s = Ok (Some (mkRecord k v)).
Proof.
  intros Hs. unfold InMemory.scan, BTreeMap.range. intros H. inv_ok. subst.
  set (d := filter (λ kv : bytes * InMemory.StoredValue, contains r kv.1 = true) (InMemory.data s)).
  assert (Hd : BTreeMap.sorted
    (filter (λ kv : bytes * InMemory.StoredValue, InMemory.is_expired kv.2 now = false) d))
    by (by apply filter_sorted, filter_sorted).
  split.
  - revert Hd. generalize
      (filter (λ kv : bytes * InMemory.StoredValue, InMemory.is_expired kv.2 now = false) d).
    intros l. induction l as [|x l IH]; cbn [fmap list_fmap]; [constructor|].
    intros Hl. destruct (sorted_inv _ _ Hl) as [Hl' Hlt]. constructor; [auto|].
    apply Forall_forall. intros y (z & -> & Hz)%list_elem_of_fmap. simpl. by apply Hlt.
  - intros k v. rewrite list_elem_of_fmap. unfold InMemory.get, InMemory.live. split.
    + intros ([k' sv] & [= -> ->] & [Hexp [Hin Hel]%list_elem_of_filter]%list_elem_of_filter).
      simpl in *. apply elem_get in Hel; [|done]. by rewrite Hel, Hexp.
    + intros [Hin Hg]. destruct (BTreeMap.get k (InMemory.data s)) as [sv|] eqn:Hget; [|done].
      destruct (InMemory.is_expired sv now) eqn:Hexp; [done|]. simpl in Hg. simplify_eq.
      exists (k, sv). split; [done|]. unfold d. rewrite !list_elem_of_filter.
      split; [done|]. split; [done|]. by apply elem_get.
Qed.

Lemma in_memory_scan_exact_witness :
  mkRecord [x61; x62] [x01] ∈ [mkRecord [x61; x62] [x01]].
Proof.
  apply (proj2 (in_memory_scan_exact 7 (ByteRange.prefix [x61])
    (InMemory.mk [([x61; x62], InMemory.mkStored [x01] (Some 9));
                  ([x61; x63], InMemory.mkStored [x02] (Some 7));
                  ([x62], InMemory.mkStored [x03] None)] None None 0 0 0 false)
    [mkRecord [x61; x62] [x01]] ltac:(repeat constructor) ltac:(reflexivity))).
  split; reflexivity.
Defined.

Lemma prefix_no_panic p : BTreeMap.range_panics (ByteRange.prefix p) = false.
Proof.
  unfold ByteRange.prefix. case_bool_decide; [done|].
  destruct (lex_increment p) as [e|] eqn:He; [|done].
  unfold BTreeMap.range_panics, start, end_.
  destruct (lex_increment_interval p e p He) as [_ Hp].
  destruct Hp as [_ Hlt]; [done|]. rewrite blt_not_ble. apply negb_false_iff.
  unfold blt in Hlt. unfold ble. by destruct (bcmp p e).
Qed.

(** a scan of a prefix range never panics, and a snapshot's scan is the scan
    of the store it was taken from. *)
Theorem in_memory_prefix_scan_total now p s :
  (∃ recs, InMemory.scan now (ByteRange.prefix p) s = Ok recs) ∧
  ∀ r, InMemory.snapshot_scan now r (InMemory.snapshot s) = InMemory.scan now r s.
Proof.
  split; [|done]. unfold InMemory.scan, BTreeMap.range.
  rewrite prefix_no_panic. simpl. eauto.
Qed.

Lemma default_merge_batch_fold {E} k e op ops merge :
  default_merge_batch (E:=E) k e (op :: ops) merge =
  Ok (fold_left (λ acc o, merge k (Some acc) o) ops (merge k e op)).
Proof.
  unfold default_merge_batch. cbn [fold_left]. generalize (merge k e op).
  induction ops as [|o ops IH]; intros acc; cbn [fold_left]; [done|]. apply IH.
Qed.

(** [default_merge_batch] of a split batch is the merge of the second part
    into the result of the first; it panics only when there is nothing to merge. *)
Theorem default_merge_batch_split {E} k e xs ys merge :
  xs ≠ [] →
  default_merge_batch (E:=E) k e (xs ++ ys) merge =
    (let? r := default_merge_batch k e xs merge in
     default_merge_batch k (Some r) ys merge).
Proof.
  intros Hne. destruct xs as [|x xs]; [done|].
  rewrite <-app_comm_cons, !default_merge_batch_fold. simpl.
  rewrite fold_left_app. destruct ys as [|y ys]; [done|].
  by rewrite default_merge_batch_fold.
Qed.

Lemma default_merge_batch_split_witness :
  default_merge_batch (E:=StorageError) [] None ([[x01]] ++ [[x02]])
    (λ _ e o, default [] e ++ o) = Ok [x01; x02].
Proof. rewrite default_merge_batch_split by done. reflexivity. Defined.

(** the record types that are only overwritten *)
Lemma default_split {E} key e o1 o2 :
  option_list e ++ o1 ≠ [] →
  ∃ v1 v, default_merge_batch (E:=E) key e o1 (λ _ _ v, v) = Ok v1 ∧
    default_merge_batch (E:=E) key (Some v1) o2 (λ _ _ v, v) = Ok v ∧
    default_merge_batch (E:=E) key e (o1 ++ o2) (λ _ _ v, v) = Ok v.
Proof.
  intros Hne.
  assert (Hv1 : ∃ v1, default_merge_batch (E:=E) key e o1 (λ _ _ v, v) = Ok v1).
  { destruct o1 as [|x o1]; [|rewrite default_merge_batch_fold; by eexists]. destruct e as [e|]; [by exists e|done]. }
  destruct Hv1 as [v1 Hv1].
  assert (Hv : ∃ v, default_merge_batch (E:=E) key (Some v1) o2 (λ _ _ v, v) = Ok v).
  { destruct o2 as [|y o2]; [by exists v1|rewrite default_merge_batch_fold; by eexists]. }
  destruct Hv as [v Hv]. exists v1, v. split_and!; [done..|].
  destruct o1 as [|x o1]; [|by rewrite default_merge_batch_split, Hv1 by done].
  destruct e as [e|]; [|done]. by injection Hv1 as ->.
Qed.
