(* ===== verification/KvStore.v ===== *)
(** * What the databases rely on from a store

    The databases reach their storage through the [Storage] and [StorageRead]
    traits of [common].  [KvStore] names the operations they call, [KvStoreLaws]
    what a working store promises: it behaves as a map from keys to values, and a
    scan returns the records of a range in key order.  The laws speak of records
    without expiry, the only ones the databases write here.  [InMemoryStorage]
    implements them ([in_memory_laws]). *)
From S2P Require Import Prelude ByteRange Storage.

(** The first argument of each operation is the store's clock. *)
Class KvStore (S : Type) : Type := {
  kv_put : Z → list (Record_ * Ttl) → S → res StorageError (S * Z);
  kv_apply : Z → list RecordOp → S → res StorageError (S * Z);
  kv_get : Z → bytes → S → res StorageError (option Record_);
  kv_scan : Z → BytesRange → S → res StorageError (list Record_);
  kv_flush : S → res StorageError S;
  kv_snapshot : S → res StorageError S;   (* read like the store itself *)
}.

(** a put that never expires, in a store without default expiry *)
Definition plain (p : Record_ * Ttl) : Prop := p.2 = NoExpiry ∨ p.2 = TtlDefault.

Definition map_put (m : bytes → option bytes) (p : Record_ * Ttl) : bytes → option bytes :=
  λ k, if bool_decide (k = key p.1) then Some (value p.1) else m k.
Definition map_delete (m : bytes → option bytes) (d : bytes) : bytes → option bytes :=
  λ k, if bool_decide (k = d) then None else m k.

Definition map_puts (m : bytes → option bytes) (ps : list (Record_ * Ttl)) : bytes → option bytes :=
  foldl map_put m ps.

(** the records of a range, in key order *)
Definition scan_result (m : bytes → option bytes) (r : BytesRange) (recs : list Record_) : Prop :=
  StronglySorted (λ a b, bcmp (key a) (key b) = Lt) recs ∧
  ∀ k v, mkRecord k v ∈ recs ↔ contains r k = true ∧ m k = Some v.

Class KvStoreLaws (S : Type) `{!KvStore S} : Type := {
  kv_ok : S → Prop;
  kv_map : S → bytes → option bytes;
  law_put now recs s :
    kv_ok s → Forall plain recs → ∃ s' n, kv_put now recs s = Ok (s', n) ∧ kv_ok s' ∧
      ∀ k, kv_map s' k = map_puts (kv_map s) recs k;
  law_delete now d s :
    kv_ok s → ∃ s' n, kv_apply now [Delete d] s = Ok (s', n) ∧ kv_ok s' ∧
      ∀ k, kv_map s' k = map_delete (kv_map s) d k;
  law_get now k s : kv_ok s → kv_get now k s = Ok (mkRecord k <$> kv_map s k);
  law_scan now r s :
    kv_ok s → BTreeMap.range_panics r = false →
    ∃ recs, kv_scan now r s = Ok recs ∧ scan_result (kv_map s) r recs;
  law_flush s :
    kv_ok s → ∃ s', kv_flush s = Ok s' ∧ kv_ok s' ∧ ∀ k, kv_map s' k = kv_map s k;
  law_snapshot s :
    kv_ok s → ∃ s', kv_snapshot s = Ok s' ∧ kv_ok s' ∧ ∀ k, kv_map s' k = kv_map s k;
}.

Lemma map_puts_ext m m' ps k : (∀ k, m k = m' k) → map_puts m ps k = map_puts m' ps k.
Proof.
  revert m m'. unfold map_puts. induction ps as [|p ps IH]; intros m m' H; simpl; [apply H|].
  apply IH. intros k'. unfold map_put. by case_bool_decide.
Qed.

(** a batch of puts sets its keys (to the last value given) and no other *)
Lemma map_puts_other m ps k : Forall (λ p, key p.1 ≠ k) ps → map_puts m ps k = m k.
Proof.
  revert m. unfold map_puts. induction ps as [|p ps IH]; intros m H; simpl; [done|].
  apply Forall_cons in H as [Hp H]. rewrite IH by done. unfold map_put.
  by rewrite bool_decide_false by congruence.
Qed.

Lemma map_puts_elem m ps k :
  map_puts m ps k = m k ∧ Forall (λ p, key p.1 ≠ k) ps ∨
  ∃ v ttl, (mkRecord k v, ttl) ∈ ps ∧ map_puts m ps k = Some v.
Proof.
  revert m. unfold map_puts. induction ps as [|[[k' v'] ttl'] ps IH]; intros m; simpl; [by left|].
  destruct (IH (map_put m (mkRecord k' v', ttl'))) as [[H1 H2]|(v & ttl & Hin & Hv)].
  - rewrite H1. unfold map_put; simpl. case_bool_decide as Hk.
    + subst k'. right. exists v', ttl'. split; [by left|done].
    + left. split; [done|]. constructor; [simpl; congruence|done].
  - right. exists v, ttl. split; [by right|done].
Qed.

Lemma scan_result_ext m m' r recs :
  (∀ k, m k = m' k) → scan_result m r recs → scan_result m' r recs.
Proof. intros He [H1 H2]. split; [done|]. intros k v. by rewrite <-He. Qed.

(** Two strictly sorted lists with the same elements are equal. *)
Lemma sorted_ext {A} (R : A → A → Prop) `{!Transitive R, !Irreflexive R} (l l' : list A) :
  StronglySorted R l → StronglySorted R l' → (∀ x, x ∈ l ↔ x ∈ l') → l = l'.
Proof.
  intros Hl. revert l'. induction Hl as [|x l Hl IH Hx]; intros l' Hl' He.
  - destruct l' as [|y l']; [done|]. exfalso. apply (not_elem_of_nil y), He. left.
  - destruct Hl' as [|y l' Hl' Hy]; [exfalso; apply (not_elem_of_nil x), He; left|].
    rewrite Forall_forall in Hx, Hy.
    assert (Hxy : x = y).
    { pose proof (proj1 (He x) ltac:(left)) as H1. pose proof (proj2 (He y) ltac:(left)) as H2.
      apply elem_of_cons in H1 as [->|H1]; [done|]. apply elem_of_cons in H2 as [->|H2]; [done|].
      destruct (irreflexivity R x). trans y; [by apply Hx|by apply Hy]. }
    subst y. f_equal. apply IH; [done|]. intros z.
    assert (Hz : ∀ a : list A, z ∈ a → (∀ b, b ∈ a → R x b) → z ≠ x).
    { intros a Ha Hb ->. by destruct (irreflexivity R x (Hb x Ha)). }
    specialize (He z). rewrite !elem_of_cons in He. naive_solver.
Qed.

#[global] Instance record_lt_trans : Transitive (λ a b : Record_, bcmp (key a) (key b) = Lt).
Proof. intros a b c. apply bcmp_lt_trans. Qed.
#[global] Instance record_lt_irrefl : Irreflexive (λ a b : Record_, bcmp (key a) (key b) = Lt).
Proof. intros a H. by rewrite bcmp_refl in H. Qed.

Lemma scan_result_unique m r recs recs' :
  scan_result m r recs → scan_result m r recs' → recs = recs'.
Proof.
  intros [H1 H2] [H1' H2']. eapply (sorted_ext (λ a b : Record_, bcmp (key a) (key b) = Lt)); [done..|].
  intros [k v]. by rewrite H2, H2'.
Qed.

(** ** Keys of an ordered map *)
Lemma btree_keys_sorted {V} (m : list (bytes * V)) :
  BTreeMap.sorted m → StronglySorted (λ a b, bcmp a b = Lt) (fst <$> m).
Proof. apply sorted_fmap. by intros x y _ _ H. Qed.

Lemma btree_elem_get {V} k (m : list (bytes * V)) : BTreeMap.get k m ≠ None ↔ k ∈ fst <$> m.
Proof.
  induction m as [|[k' v] m IH]; [by split; [|intros ?%not_elem_of_nil]|].
  rewrite fmap_cons, elem_of_cons. cbn [BTreeMap.get fst]. destruct (bcmp k k') eqn:E.
  - apply bcmp_eq in E. naive_solver.
  - rewrite IH. split; [by right|]. intros [->|?]; [by rewrite bcmp_refl in E|done].
  - rewrite IH. split; [by right|]. intros [->|?]; [by rewrite bcmp_refl in E|done].
Qed.

(** ** The in-memory store *)
#[global] Instance in_memory_store : KvStore InMemory.t := {
  kv_put := InMemory.put_with_options;
  kv_apply := InMemory.apply_with_options;
  kv_get := InMemory.get;
  kv_scan := InMemory.scan;
  kv_flush := InMemory.flush;
  kv_snapshot := Ok;
}.

(** nothing in it expires *)
Definition in_memory_ok (s : InMemory.t) : Prop :=
  BTreeMap.sorted (InMemory.data s) ∧ InMemory.default_ttl s = None ∧
  (∀ k sv, BTreeMap.get k (InMemory.data s) = Some sv → InMemory.expire_ts sv = None) ∧
  InMemory.defer_durability s = false.

Definition in_memory_map (s : InMemory.t) (k : bytes) : option bytes :=
  InMemory.sv_value <$> BTreeMap.get k (InMemory.data s).

Lemma in_memory_live now k s :
  in_memory_ok s → InMemory.live now k (InMemory.data s) = in_memory_map s k.
Proof.
  intros (_ & _ & Hx & _). unfold InMemory.live, in_memory_map.
  destruct (BTreeMap.get k (InMemory.data s)) as [sv|] eqn:E; [|done].
  unfold InMemory.is_expired. by rewrite (Hx k sv E).
Qed.

Lemma in_memory_put_one now s d r ttl k :
  InMemory.default_ttl s = None → plain (r, ttl) →
  (∀ k sv, BTreeMap.get k d = Some sv → InMemory.expire_ts sv = None) →
  BTreeMap.get k (InMemory.put_op now s r ttl d) =
    (if bool_decide (k = key r) then Some (InMemory.mkStored (value r) None) else BTreeMap.get k d).
Proof.
  intros Ht Hp _. unfold InMemory.put_op. rewrite get_insert.
  assert (He : InMemory.compute_expire_ts now ttl (InMemory.default_ttl s) = None)
    by (rewrite Ht; by destruct Hp as [Hp|Hp]; simpl in Hp; subst ttl).
  by rewrite He.
Qed.

Lemma in_memory_put_fold now s recs d :
  InMemory.default_ttl s = None → Forall plain recs →
  (∀ k sv, BTreeMap.get k d = Some sv → InMemory.expire_ts sv = None) →
  let d' := fold_left (λ d '(r, ttl), InMemory.put_op now s r ttl d) recs d in
  (∀ k sv, BTreeMap.get k d' = Some sv → InMemory.expire_ts sv = None) ∧
  ∀ k, InMemory.sv_value <$> BTreeMap.get k d' =
       map_puts (λ k, InMemory.sv_value <$> BTreeMap.get k d) recs k.
Proof.
  intros Ht Hp. revert d. induction Hp as [|[r ttl] recs Hr Hrs IH]; intros d Hd; simpl; [done|].
  pose proof (λ k, in_memory_put_one now s d r ttl k Ht Hr Hd) as Hone.
  destruct (IH (InMemory.put_op now s r ttl d)) as [H1 H2].
  { intros k sv. rewrite Hone. case_bool_decide; [by intros [= <-]|by apply Hd]. }
  split; [done|]. intros k. rewrite H2. unfold map_puts; simpl. apply map_puts_ext. intros k'.
  rewrite Hone. unfold map_put; simpl. by case_bool_decide.
Qed.

Lemma in_memory_scan now r s :
  in_memory_ok s → BTreeMap.range_panics r = false →
  ∃ recs, InMemory.scan now r s = Ok recs ∧ scan_result (in_memory_map s) r recs.
Proof.
  intros Hok Hr. pose proof Hok as (Hs & Ht & Hx & _). unfold InMemory.scan, BTreeMap.range.
  rewrite Hr. cbn [res_bind]. eexists. split; [reflexivity|].
  set (d := filter (λ kv : bytes * InMemory.StoredValue, InMemory.is_expired kv.2 now = false)
              (filter (λ kv : bytes * InMemory.StoredValue, contains r kv.1 = true) (InMemory.data s))).
  assert (Hd : BTreeMap.sorted d) by (by apply filter_sorted, filter_sorted).
  split.
  - clearbody d. induction d as [|x l IH]; cbn [fmap list_fmap]; [constructor|].
    destruct (sorted_inv _ _ Hd) as [Hl' Hlt]. constructor; [auto|].
    apply Forall_forall. intros y (z & -> & Hz)%list_elem_of_fmap. simpl. by apply Hlt.
  - intros k v. rewrite list_elem_of_fmap. unfold in_memory_map, d. setoid_rewrite list_elem_of_filter.
    setoid_rewrite list_elem_of_filter. split.
    + intros ([k' sv] & [= -> ->] & _ & Hin & Hel). apply elem_get in Hel; [|done]. by rewrite Hel.
    + intros [Hin Hg]. destruct (BTreeMap.get k (InMemory.data s)) as [sv|] eqn:Hget; [|done].
      simpl in Hg. simplify_eq. exists (k, sv). split; [done|]. simpl.
      split; [unfold InMemory.is_expired; by rewrite (Hx k sv Hget)|]. split; [done|]. by apply elem_get.
Qed.

#[global] Program Instance in_memory_laws : KvStoreLaws InMemory.t := {
  kv_ok := in_memory_ok;
  kv_map := in_memory_map;
}.
Next Obligation.
  intros now recs s (Hs & Ht & Hx & Hf) Hp. cbn. unfold InMemory.put_with_options.
  destruct (in_memory_put_fold now s recs (InMemory.data s) Ht Hp Hx) as [H1 H2].
  set (d' := fold_left _ _ _) in *. cbn [InMemory.next_seqnum]. do 2 eexists. split; [reflexivity|].
  split; [|exact H2]. split; [|done]. by apply fold_put_sorted.
Qed.
Next Obligation.
  intros now d s (Hs & Ht & Hx & Hf). cbn. unfold InMemory.apply_with_options. cbn.
  do 2 eexists. split; [reflexivity|]. unfold in_memory_ok, in_memory_map; cbn. split_and!; try done.
  - by apply remove_sorted.
  - intros k sv. rewrite get_remove by done. case_bool_decide; [done|]. apply Hx.
  - intros k. rewrite get_remove by done. unfold map_delete, in_memory_map. by case_bool_decide.
Qed.
Next Obligation. intros now k s Hok. cbn. unfold InMemory.get. by rewrite in_memory_live. Qed.
Next Obligation. intros now r s. apply in_memory_scan. Qed.
Next Obligation.
  intros s Hok. pose proof Hok as (_ & _ & _ & Hf). exists s. cbn. unfold InMemory.flush. by rewrite Hf.
Qed.
Next Obligation. intros s Hok. by exists s. Qed.

(** ** Batches with merges *)
(** What a store with a merge operator adds: a batch of puts and merges does to
    the map, in order, what its operations say. *)
Definition op_key (op : RecordOp) : bytes :=
  match op with Put r _ | Merge r _ => key r | Delete k => k end.

Definition plain_op (op : RecordOp) : Prop :=
  match op with Put r ttl | Merge r ttl => plain (r, ttl) | Delete _ => True end.

(** the new value of the operation's key *)
Definition op_value (f : MergeOperator) (op : RecordOp) (old : option bytes) : option bytes :=
  match op with
  | Put r _ => Some (value r)
  | Merge r _ => Some (f (key r) old [value r])
  | Delete _ => None
  end.

Definition map_op (f : MergeOperator) (m : bytes → option bytes) (op : RecordOp) : bytes → option bytes :=
  λ k, if bool_decide (k = op_key op) then op_value f op (m k) else m k.

Class KvMergeLaws (S : Type) (f : MergeOperator) `{KvStoreLaws S} : Type := {
  kvm_ok : S → Prop;
  kvm_ok_kv_ok s : kvm_ok s → kv_ok s;
  law_apply now ops s :
    kvm_ok s → Forall plain_op ops → ∃ s' n, kv_apply now ops s = Ok (s', n) ∧ kvm_ok s' ∧
      ∀ k, kv_map s' k = foldl (map_op f) (kv_map s) ops k;
  law_merge_flush s :
    kvm_ok s → ∃ s', kv_flush s = Ok s' ∧ kvm_ok s' ∧ ∀ k, kv_map s' k = kv_map s k;
}.

Lemma map_ops_other f ops m k : k ∉ op_key <$> ops → foldl (map_op f) m ops k = m k.
Proof.
  revert m. induction ops as [|op ops IH]; intros m H; simpl; [done|].
  rewrite fmap_cons, not_elem_of_cons in H. destruct H as [H1 H2]. rewrite IH by done. unfold map_op.
  by rewrite bool_decide_false.
Qed.

(** In a batch without repeated keys every operation acts on the old value. *)
Lemma map_ops_elem f ops m op :
  NoDup (op_key <$> ops) → op ∈ ops → foldl (map_op f) m ops (op_key op) = op_value f op (m (op_key op)).
Proof.
  revert m. induction ops as [|op' ops IH]; intros m Hnd Hin; [by apply not_elem_of_nil in Hin|].
  rewrite fmap_cons, NoDup_cons in Hnd. destruct Hnd as [Hn Hnd]. simpl.
  apply elem_of_cons in Hin as [->|Hin].
  - rewrite map_ops_other by done. unfold map_op. by rewrite bool_decide_true.
  - rewrite IH by done. unfold map_op. rewrite bool_decide_false; [done|].
    intros He. apply Hn. rewrite <-He. by apply list_elem_of_fmap_2.
Qed.

Definition in_memory_merge_ok (f : MergeOperator) (s : InMemory.t) : Prop :=
  in_memory_ok s ∧ InMemory.merge_operator s = Some f.

Lemma plain_expire now r ttl : plain (r, ttl) → InMemory.compute_expire_ts now ttl None = None.
Proof. by intros [Hp|Hp]; simpl in Hp; subst ttl. Qed.

Lemma in_memory_spec_ops now f ops m :
  Forall plain_op ops → (∀ k sv, m k = Some sv → InMemory.expire_ts sv = None) →
  let m' := fold_left (InMemory.spec_op now f None) ops m in
  (∀ k sv, m' k = Some sv → InMemory.expire_ts sv = None) ∧
  ∀ k, InMemory.sv_value <$> m' k = foldl (map_op f) (λ k, InMemory.sv_value <$> m k) ops k.
Proof.
  intros Hp. revert m. induction Hp as [|op ops Hop _ IH]; intros m Hm; cbn [fold_left foldl]; [done|].
  assert (Hm' : ∀ k sv, InMemory.spec_op now f None m op k = Some sv → InMemory.expire_ts sv = None).
  { intros k sv. destruct op as [r ttl|r ttl|d]; cbn [InMemory.spec_op]; case_bool_decide; try apply Hm; try done;
      intros [= <-]; by apply (plain_expire now r). }
  destruct (IH _ Hm') as [H1 H2]. split; [exact H1|]. intros k. rewrite H2.
  assert (Hext : ∀ ops (g g' : bytes → option bytes), (∀ k, g k = g' k) → ∀ k, foldl (map_op f) g ops k = foldl (map_op f) g' ops k).
  { clear. induction ops as [|op ops IH]; intros g g' H k; simpl; [done|]. apply IH. intros k'. unfold map_op.
    by rewrite H. }
  apply Hext. clear k. intros k.
  assert (Hl : InMemory.spec_live now (m k) = InMemory.sv_value <$> m k).
  { destruct (m k) as [sv|] eqn:E; [|done]. cbn. unfold InMemory.is_expired. by rewrite (Hm k sv E). }
  unfold map_op. destruct op as [r ttl|r ttl|d]; cbn [InMemory.spec_op op_key op_value];
    (case_bool_decide as Hk; [|done]); [done| |done]. subst k. by rewrite Hl.
Qed.

#[global] Program Instance in_memory_merge_laws f : KvMergeLaws InMemory.t f := {
  kvm_ok := in_memory_merge_ok f;
}.
Next Obligation. by intros f s [? _]. Qed.
Next Obligation.
  intros f now ops s [(Hs & Ht & Hx & Hf) Hop] Hp. cbn [kv_apply in_memory_store kv_map in_memory_laws].
  unfold InMemory.apply_with_options.
  destruct (apply_ops_total (E:=StorageError) now s f ops (InMemory.data s) Hop) as [d' Hd']. rewrite Hd'.
  cbn [res_bind InMemory.next_seqnum]. do 2 eexists. split; [reflexivity|].
  pose proof (apply_ops_refines now s f ops _ d' (λ k, BTreeMap.get k (InMemory.data s)) Hop Hs (λ _, eq_refl) Hd') as Hr.
  rewrite Ht in Hr. destruct (in_memory_spec_ops now f ops _ Hp Hx) as [H1 H2].
  pose proof (apply_ops_sorted now s ops _ d' Hd' Hs) as Hs'.
  unfold in_memory_merge_ok, in_memory_ok, in_memory_map; cbn. split; [|intros k; by rewrite Hr, H2].
  split; [|done]. split_and!; try done. intros k sv. rewrite Hr. apply H1.
Qed.
Next Obligation.
  intros f s [Hok Hop]. pose proof Hok as (_ & _ & _ & Hf). exists s. cbn. unfold InMemory.flush. by rewrite Hf.
Qed.
