(* ===== verification/KeyValue.v ===== *)
(** * keyvalue: the key-value database

    A thin layer over a store: user keys get a three-byte prefix, scans are
    confined to it.  Proved against the store interface of KvStore. *)
From S2P Require Import Prelude ByteRange Storage KvStore.

Module KeyValue.

Inductive Error : Type :=
| ErrStorage (e : StorageError)
| KeyTooShort (got : Z)
| InvalidSubsystem (got : byte)
| InvalidKeyVersion (got : byte)
| InvalidRecordTag (got : byte).

Definition KEY_VERSION : byte := x01.
Definition SUBSYSTEM : byte := x04.
Definition RECORD_TAG : byte := x10.
Definition NEXT_RECORD_TAG : byte := x11.

Definition encode_key (user_key : bytes) : bytes :=
  [SUBSYSTEM] ++ [KEY_VERSION] ++ [RECORD_TAG] ++ user_key.

Definition decode_key (storage_key : bytes) : res Error bytes :=
  match storage_key with
  | b0 :: b1 :: b2 :: rest =>
      if negb (bool_decide (b0 = SUBSYSTEM)) then Err (InvalidSubsystem b0)
      else if negb (bool_decide (b1 = KEY_VERSION)) then Err (InvalidKeyVersion b1)
      else if negb (bool_decide (b2 = RECORD_TAG)) then Err (InvalidRecordTag b2)
      else Ok rest
  | _ => Err (KeyTooShort (blen storage_key))
  end.

Definition encode_key_range (user_range : BytesRange) : BytesRange :=
  mkRange
    (match start user_range with
     | Included key => Included (encode_key key)
     | Excluded key => Excluded (encode_key key)
     | Unbounded => Included [SUBSYSTEM; KEY_VERSION; RECORD_TAG]
     end)
    (match end_ user_range with
     | Included key => Included (encode_key key)
     | Excluded key => Excluded (encode_key key)
     | Unbounded => Excluded [SUBSYSTEM; KEY_VERSION; NEXT_RECORD_TAG]
     end).

Record KeyValueEntry : Type := mkEntry { kv_key : bytes; kv_value : bytes }.

Section storage.
Context {S : Type} `{!KvStore S}.

Definition get (now : Z) (user_key : bytes) (s : S) : res Error (option bytes) :=
  let? record := res_map_err ErrStorage (kv_get now (encode_key user_key) s) in
  Ok (value <$> record).

(** [put_with_options]; waiting for durability does not change the contents *)
Definition put (now : Z) (user_key v : bytes) (s : S) : res Error S :=
  let? (s, _) := res_map_err ErrStorage
    (kv_put now [(mkRecord (encode_key user_key) v, TtlDefault)] s) in
  Ok s.

Definition flush (s : S) : res Error S := res_map_err ErrStorage (kv_flush s).

(** [delete_with_options] *)
Definition delete (now : Z) (user_key : bytes) (await_durable : bool) (s : S) : res Error S :=
  let? (s, _) := res_map_err ErrStorage (kv_apply now [Delete (encode_key user_key)] s) in
  if await_durable then flush s else Ok s.

(** [KeyValueScanIterator::next] on the records not yet read *)
Definition iter_next (inner : list Record_) : res Error (option KeyValueEntry) * list Record_ :=
  match inner with
  | [] => (Ok None, [])
  | r :: inner =>
      (let? user_key := decode_key (key r) in Ok (Some (mkEntry user_key (value r))), inner)
  end.

Definition scan (now : Z) (key_range : BytesRange) (s : S) : res Error (list Record_) :=
  res_map_err ErrStorage (kv_scan now (encode_key_range key_range) s).

(** reading an iterator to its end *)
Fixpoint drain (fuel : nat) (inner : list Record_) : res Error (list KeyValueEntry) :=
  match fuel with
  | O => Ok []
  | Datatypes.S fuel =>
      let '(r, inner) := iter_next inner in
      let? o := r in
      match o with
      | Some e => let? es := drain fuel inner in Ok (e :: es)
      | None => Ok []
      end
  end.
End storage.

(** ** Correctness *)
Definition P : bytes := [SUBSYSTEM; KEY_VERSION; RECORD_TAG].
Definition Q : bytes := [SUBSYSTEM; KEY_VERSION; NEXT_RECORD_TAG].

Lemma encode_key_P k : encode_key k = P ++ k.
Proof. done. Qed.

Lemma P_interval k : ble P k = true ∧ blt k Q = true ↔ P `prefix_of` k.
Proof. apply (lex_increment_interval P Q). reflexivity. Qed.

Lemma bcmp_encode a b : bcmp (encode_key a) (encode_key b) = bcmp a b.
Proof. rewrite !encode_key_P. apply bcmp_app. Qed.

Lemma ble_encode a b : ble (encode_key a) (encode_key b) = ble a b.
Proof. unfold ble. by rewrite bcmp_encode. Qed.
Lemma blt_encode a b : blt (encode_key a) (encode_key b) = blt a b.
Proof. unfold blt. by rewrite bcmp_encode. Qed.

Lemma decode_encode_key k : decode_key (encode_key k) = Ok k.
Proof. done. Qed.

Lemma encode_inj a b : encode_key a = encode_key b → a = b.
Proof. intros H. by injection H. Qed.

(** The storage range holds exactly the encodings of the user range. *)
Lemma encode_key_range_spec r K :
  contains (encode_key_range r) K = true ↔ ∃ k, K = encode_key k ∧ contains r k = true.
Proof.
  assert (Hlow : ∀ a, ble P (encode_key a) = true) by (intros a; apply ble_app).
  assert (Hhigh : ∀ a, blt (encode_key a) Q = true).
  { intros a. apply (P_interval (encode_key a)). by exists a. }
  split.
  - unfold contains, encode_key_range; cbn [start end_]. intros [Hs He]%andb_true_iff.
    assert (HP : P `prefix_of` K).
    { apply P_interval. split.
      - destruct (start r) as [a|a|]; [..|done]; eapply ble_trans; [apply Hlow|done|apply Hlow|by apply blt_ble].
      - destruct (end_ r) as [a|a|]; [by eapply ble_blt_trans| |done].
        eapply ble_blt_trans; [by apply blt_ble|done]. }
    destruct HP as [k ->]. exists k. split; [done|]. apply andb_true_iff.
    rewrite <-encode_key_P in Hs, He. split.
    + by destruct (start r); rewrite ?ble_encode, ?blt_encode in Hs.
    + by destruct (end_ r); rewrite ?ble_encode, ?blt_encode in He.
  - intros (k & -> & Hk). revert Hk. unfold contains, encode_key_range; cbn [start end_].
    rewrite !andb_true_iff. intros [Hs He]. split.
    + destruct (start r); rewrite ?ble_encode, ?blt_encode; try done.
    + destruct (end_ r); rewrite ?ble_encode, ?blt_encode; try done.
Qed.

Lemma encode_range_panics r :
  BTreeMap.range_panics (encode_key_range r) = BTreeMap.range_panics r.
Proof.
  assert (Hlow : ∀ a, blt (encode_key a) P = false).
  { intros a. rewrite blt_not_ble. apply negb_false_iff, ble_app. }
  assert (Hhigh : ∀ a, ble Q (encode_key a) = false).
  { intros a. rewrite <-negb_true_iff, <-blt_not_ble. apply (P_interval (encode_key a)). by exists a. }
  assert (Hhigh' : ∀ a, blt Q (encode_key a) = false).
  { intros a. destruct (blt Q _) eqn:E; [|done]. apply blt_ble in E. by rewrite Hhigh in E. }
  unfold BTreeMap.range_panics, encode_key_range; cbn [start end_].
  destruct (start r), (end_ r); rewrite ?ble_encode, ?blt_encode; try done;
    fold P; fold Q; by rewrite ?Hlow, ?Hhigh, ?Hhigh'.
Qed.

(** the database's contents: what the store maps the encoded keys to *)
Section correct.
Context {S : Type} `{!KvStore S, !KvStoreLaws S}.

Definition db (s : S) (k : bytes) : option bytes := kv_map s (encode_key k).

Definition entry_record (e : KeyValueEntry) : Record_ := mkRecord (encode_key (kv_key e)) (kv_value e).

Lemma drain_encoded es : drain (length es + 1) (entry_record <$> es) = Ok es.
Proof. induction es as [|[k v] es IH]; [done|]. cbn in *. by rewrite IH. Qed.

(** records under the prefix are encodings of entries *)
Lemma records_entries (recs : list Record_) :
  Forall (λ r, ∃ k, key r = encode_key k) recs → ∃ es, recs = entry_record <$> es.
Proof.
  induction 1 as [|[k v] recs [k' Hk] _ [es ->]]; [by exists []|].
  simpl in Hk. subst k. by exists (mkEntry k' v :: es).
Qed.

(** C20: The key-value database is a map.  A get returns the last value put for
    the key unless it was deleted since, a put or delete changes no other key,
    and a scan, read to its end, yields exactly the pairs of the range in
    increasing key order, whatever else lives in the store. *)
Theorem keyvalue_refines_map now (s : S) :
  kv_ok s →
  (∀ k, get now k s = Ok (db s k)) ∧
  (∀ k v, ∃ s', put now k v s = Ok s' ∧ kv_ok s' ∧
     ∀ k', db s' k' = if bool_decide (k' = k) then Some v else db s k') ∧
  (∀ k await_durable, ∃ s', delete now k await_durable s = Ok s' ∧ kv_ok s' ∧
     ∀ k', db s' k' = if bool_decide (k' = k) then None else db s k') ∧
  (∀ r, BTreeMap.range_panics r = false →
     ∃ recs es, scan now r s = Ok recs ∧ drain (length recs + 1) recs = Ok es ∧
       StronglySorted (λ a b, bcmp (kv_key a) (kv_key b) = Lt) es ∧
       ∀ k v, mkEntry k v ∈ es ↔ contains r k = true ∧ db s k = Some v).
Proof.
  intros Hok. split_and!.
  - intros k. unfold get. rewrite law_get by done. simpl. unfold db. by destruct (kv_map s _).
  - intros k v. destruct (law_put now [(mkRecord (encode_key k) v, TtlDefault)] s Hok) as (s' & n & Hp & Hok' & Hm).
    { apply Forall_singleton. by right. }
    exists s'. unfold put. rewrite Hp. split; [done|]. split; [done|]. intros k'. unfold db. rewrite Hm.
    unfold map_puts, map_put; simpl. by rewrite (bool_decide_ext _ (k' = k)) by (split; [apply encode_inj|congruence]).
  - intros k ad. destruct (law_delete now (encode_key k) s Hok) as (s' & n & Hd & Hok' & Hm).
    unfold delete, flush. rewrite Hd. cbn [res_map_err res_bind].
    assert (Hdb : ∀ s'', (∀ x, kv_map s'' x = kv_map s' x) → ∀ k', db s'' k' = if bool_decide (k' = k) then None else db s k').
    { intros s'' He k'. unfold db. rewrite He, Hm. unfold map_delete.
      by rewrite (bool_decide_ext _ (k' = k)) by (split; [apply encode_inj|congruence]). }
    destruct ad; [|by exists s'; auto]. destruct (law_flush s' Hok') as (s'' & Hf & Hok'' & He).
    exists s''. rewrite Hf. auto.
  - intros r Hr. destruct (law_scan now (encode_key_range r) s Hok) as (recs & Hs & Hsort & Hex);
      [by rewrite encode_range_panics|].
    destruct (records_entries recs) as [es ->].
    { apply Forall_forall. intros [k v] Hin. apply Hex in Hin as [(k' & -> & _)%encode_key_range_spec _].
      by exists k'. }
    exists (entry_record <$> es), es. unfold scan. rewrite Hs, length_fmap, drain_encoded. split_and!; [done..| |].
    + clear -Hsort. induction es as [|e es IH]; [constructor|]. rewrite fmap_cons in Hsort.
      apply StronglySorted_inv in Hsort as [Hs Hx]. constructor; [auto|]. apply Forall_fmap in Hx.
      eapply Forall_impl; [exact Hx|]. intros e' He. rewrite <-bcmp_encode. exact He.
    + intros k v. specialize (Hex (encode_key k) v). rewrite encode_key_range_spec in Hex. split.
      * intros Hin. destruct Hex as [[(k' & He & Hk) Hv] _]; [by apply list_elem_of_fmap; exists (mkEntry k v)|].
        apply encode_inj in He as <-. done.
      * intros [Hk Hv]. destruct Hex as [_ Hex]. destruct (proj1 (list_elem_of_fmap _ _ _) (Hex (conj (ex_intro _ k (conj eq_refl Hk)) Hv))) as ([k' v'] & He & Hin).
        injection He as He ->. by subst k'.
Qed.
End correct.

Lemma keyvalue_refines_map_witness :
  let s := InMemory.new None None false in
  ∃ s' es, put 5 [x61] [x01] s = Ok s' ∧ get 6 [x61] s' = Ok (db s' [x61]) ∧
    drain 2 (entry_record <$> es) = Ok [mkEntry [x61] [x01]].
Proof.
  intros s.
  destruct (keyvalue_refines_map 5 s) as (_ & Hput & _).
  { split; [constructor|]. split; [done|]. split; [done|]. reflexivity. }
  destruct (Hput [x61] [x01]) as (s' & Hp & Hok & _).
  exists s', [mkEntry [x61] [x01]]. split; [exact Hp|].
  split; [apply (keyvalue_refines_map 6 s' Hok)|reflexivity].
Defined.
End KeyValue.
