(* ===== verification/Sequence.v ===== *)
(** * common::sequence: block-based sequence numbers with crash recovery

    [SequenceAllocator] hands out contiguous ranges from a block it has reserved
    in storage.  The second half of the file runs it as the system does: the
    caller puts the returned record before it uses the range, and the process
    may stop at any time and reload from storage.

    u64 arithmetic wraps ([next_base], the cursor); the theorems name the bound
    below which it does not. *)
From S2P Require Import Prelude Serde Storage.

Definition DEFAULT_BLOCK_SIZE : Z := 4096.

Inductive SequenceError : Type :=
| SeqStorage (e : StorageError)
| SeqDeserialize (e : DeserializeError).

Record AllocatedSeqBlock : Type := mkAllocated {
  current_block : option SeqBlock.t;
  next_sequence : Z;
}.

Definition remaining (b : AllocatedSeqBlock) : Z :=
  match current_block b with
  | None => 0
  | Some block => saturating_sub (SeqBlock.next_base block) (next_sequence b)
  end.

(** [storage.get(key)] is the argument [storage_get]. *)
Definition load_block (storage_get : bytes → res StorageError (option Record_)) (k : bytes) :
    res SequenceError AllocatedSeqBlock :=
  let? record := res_map_err SeqStorage (storage_get k) in
  let? current_block :=
    match record with
    | Some record =>
        let? b := res_map_err SeqDeserialize (SeqBlock.deserialize (value record)) in
        Ok (Some b)
    | None => Ok None
    end in
  let next_sequence :=
    match current_block with Some b => SeqBlock.next_base b | None => 0 end in
  Ok (mkAllocated current_block next_sequence).

Record SequenceAllocator : Type := mkAllocator { seq_key : bytes; block : AllocatedSeqBlock }.

Definition load (storage_get : bytes → res StorageError (option Record_)) (k : bytes) :
    res SequenceError SequenceAllocator :=
  let? b := load_block storage_get k in Ok (mkAllocator k b).

Definition peek_next_sequence (a : SequenceAllocator) : Z := next_sequence (block a).

Definition init_next_block (a : SequenceAllocator) (min_count : Z) : SeqBlock.t * Record_ :=
  let base_sequence :=
    match current_block (block a) with
    | Some b => SeqBlock.next_base b
    | None => 0
    end in
  let block_size := Z.max min_count DEFAULT_BLOCK_SIZE in
  let new_block := SeqBlock.new base_sequence block_size in
  (new_block, mkRecord (seq_key a) (SeqBlock.serialize new_block)).

(** Returns the first sequence number of the range, the record to put, and the
    allocator after the call ([&mut self]). *)
Definition allocate (count : Z) (a : SequenceAllocator) :
    Z * option Record_ * SequenceAllocator :=
  let rem := remaining (block a) in
  if count <=? rem then
    (next_sequence (block a), None,
     mkAllocator (seq_key a)
       (mkAllocated (current_block (block a)) (wrap 64 (next_sequence (block a) + count))))
  else
    let from_new_block := count - rem in
    let '(new_block, record) := init_next_block a from_new_block in
    let base_sequence :=
      if 0 <? rem then next_sequence (block a) else SeqBlock.base_sequence new_block in
    (base_sequence, Some record,
     mkAllocator (seq_key a)
       (mkAllocated (Some new_block)
          (wrap 64 (SeqBlock.base_sequence new_block + from_new_block)))).

Definition allocate_one (a : SequenceAllocator) := allocate 1 a.

Definition freeze (a : SequenceAllocator) : bytes * AllocatedSeqBlock := (seq_key a, block a).

(** ** Crash-recovery machine

    [stored] is the value storage holds under the allocator's key.  A range is
    [used] once its record, if any, is stored. *)
Record machine : Type := mkMachine {
  stored : option bytes;
  alloc : SequenceAllocator;
  used : list (Z * Z);            (* (base, count), oldest first *)
}.

Inductive event : Type :=
| Allocate (count : Z)            (* allocate, put the record, use the range *)
| AllocateCrash (count : Z)       (* stop after [allocate], before the put *)
| Crash.                          (* stop and reload *)

Definition get_stored (k : bytes) (v : option bytes) (k' : bytes) :
    res StorageError (option Record_) :=
  Ok (if bool_decide (k' = k) then mkRecord k <$> v else None).

Definition reload (m : machine) : res SequenceError machine :=
  let? a := load (get_stored (seq_key (alloc m)) (stored m)) (seq_key (alloc m)) in
  Ok (mkMachine (stored m) a (used m)).

Definition step (m : machine) (e : event) : res SequenceError machine :=
  match e with
  | Allocate count =>
      let '(base, record, a) := allocate count (alloc m) in
      Ok (mkMachine (match record with Some r => Some (value r) | None => stored m end)
            a (used m ++ [(base, count)]))
  | AllocateCrash count =>
      let '(_, _, a) := allocate count (alloc m) in
      reload (mkMachine (stored m) a (used m))
  | Crash => reload m
  end.

Fixpoint run (m : machine) (es : list event) : res SequenceError machine :=
  match es with
  | [] => Ok m
  | e :: es => let? m := step m e in run m es
  end.

(** sequence numbers an event can take out of the u64 space *)
Definition cost (e : event) : Z :=
  match e with
  | Allocate count | AllocateCrash count => count + DEFAULT_BLOCK_SIZE
  | Crash => 0
  end.

Definition total_cost (es : list event) : Z := fold_right (λ e acc, cost e + acc) 0 es.

Definition valid_event (e : event) : Prop :=
  match e with Allocate count | AllocateCrash count => 0 ≤ count | Crash => True end.

(** a machine at first start, with nothing stored *)
Definition fresh (k : bytes) : machine :=
  mkMachine None (mkAllocator k (mkAllocated None 0)) [].

(** ** Invariant *)

(** where the next block starts *)
Definition block_end (b : AllocatedSeqBlock) : Z :=
  match current_block b with
  | Some blk => SeqBlock.base_sequence blk + SeqBlock.block_size blk
  | None => 0
  end.

Definition block_ok (b : AllocatedSeqBlock) : Prop :=
  (∀ blk, current_block b = Some blk → SeqBlock.wf blk) ∧
  0 ≤ next_sequence b ≤ block_end b ∧ block_end b < 2 ^ 64.

Definition above (bound : Z) (l : list (Z * Z)) : Prop :=
  Forall (λ r, 0 ≤ r.1 ∧ 0 ≤ r.2 ∧ r.1 + r.2 ≤ bound) l.

(** ranges in increasing order, none overlapping a later one *)
Definition increasing (l : list (Z * Z)) : Prop :=
  StronglySorted (λ r s, r.1 + r.2 ≤ s.1) l.

Definition minv (m : machine) : Prop :=
  block_ok (block (alloc m)) ∧
  stored m = SeqBlock.serialize <$> current_block (block (alloc m)) ∧
  above (next_sequence (block (alloc m))) (used m) ∧ increasing (used m).

Lemma next_base_end blk b :
  current_block b = Some blk → block_ok b → SeqBlock.next_base blk = block_end b.
Proof.
  intros Hb (Hwf & [? ?] & ?). unfold SeqBlock.next_base, block_end in *. rewrite Hb in *.
  destruct (Hwf blk eq_refl) as [[? ?] [? ?]]. apply wrap_small. unfold in_u. lia.
Qed.

Lemma remaining_spec b : block_ok b → remaining b = block_end b - next_sequence b.
Proof.
  intros Hok. unfold remaining. destruct (current_block b) as [blk|] eqn:Hb.
  - rewrite (next_base_end blk b) by done. apply saturating_sub_le. apply Hok.
  - destruct Hok as (_ & ? & _). unfold block_end in *. rewrite Hb in *. lia.
Qed.

Lemma init_base a :
  block_ok (block a) →
  match current_block (block a) with Some b => SeqBlock.next_base b | None => 0 end
  = block_end (block a).
Proof.
  intros Hok. destruct (current_block (block a)) as [blk|] eqn:Hb.
  - by apply next_base_end.
  - unfold block_end. by rewrite Hb.
Qed.

(** One call: the range starts where the last one ended, the cursor moves past
    it, and the block reserved in storage covers it. *)
Lemma allocate_spec a count base record a' :
  block_ok (block a) → 0 ≤ count →
  block_end (block a) + count + DEFAULT_BLOCK_SIZE < 2 ^ 64 →
  allocate count a = (base, record, a') →
  seq_key a' = seq_key a ∧ block_ok (block a') ∧
  base = next_sequence (block a) ∧
  next_sequence (block a') = base + count ∧
  block_end (block a) ≤ block_end (block a') ≤
    block_end (block a) + count + DEFAULT_BLOCK_SIZE ∧
  match record with
  | None => current_block (block a') = current_block (block a)
  | Some r => key r = seq_key a ∧
      Some (value r) = SeqBlock.serialize <$> current_block (block a') ∧
      block_end (block a) < block_end (block a')
  end.
Proof.
  unfold DEFAULT_BLOCK_SIZE. intros Hok Hc Hb. unfold allocate.
  rewrite remaining_spec by done. pose proof Hok as (Hwf & [Hn Hle] & Hlt).
  destruct (Z.leb_spec count (block_end (block a) - next_sequence (block a))).
  - intros [= <- <- <-]. simpl. rewrite wrap_small by (unfold in_u; lia).
    unfold block_ok, block_end in *. simpl. split_and!; try done; lia.
  - unfold init_next_block. rewrite init_base by done. unfold DEFAULT_BLOCK_SIZE.
    set (ext := count - (block_end (block a) - next_sequence (block a))) in *.
    intros [= <- <- <-]. cbn [SeqBlock.base_sequence seq_key block key value].
    rewrite wrap_small by (unfold in_u; lia).
    set (blk := SeqBlock.new (block_end (block a)) (ext `max` 4096)).
    set (e := block_end (block a)) in *.
    assert (Hend : block_end (mkAllocated (Some blk) (e + ext)) = e + ext `max` 4096) by done.
    unfold block_ok. rewrite Hend. cbn [next_sequence current_block].
    assert (Hblk : SeqBlock.wf blk).
    { unfold SeqBlock.wf, in_u. simpl. lia. }
    split_and!; try done; try lia; [by intros ? [= <-]|case_z; lia|case_z; lia].
Qed.

Lemma deserialize_stored blk : SeqBlock.wf blk → SeqBlock.deserialize (SeqBlock.serialize blk) = Ok blk.
Proof. intros. rewrite <-(app_nil_r (SeqBlock.serialize blk)). by apply SeqBlock.deserialize_serialize. Qed.

(** Reloading keeps the block and moves the cursor to its end. *)
Lemma load_spec k b :
  block_ok b →
  load (get_stored k (SeqBlock.serialize <$> current_block b)) k =
  Ok (mkAllocator k (mkAllocated (current_block b) (block_end b))).
Proof.
  intros Hok. unfold load, load_block, get_stored. rewrite bool_decide_eq_true_2 by done.
  unfold block_end. destruct (current_block b) as [blk|] eqn:Hb;
    cbn [fmap option_fmap option_map res_map_err res_bind value]; [|done].
  rewrite deserialize_stored by (by apply Hok). cbn [res_map_err res_bind].
  rewrite (next_base_end blk b) by done. unfold block_end. by rewrite Hb.
Qed.

Lemma above_mono l b c : b ≤ c → above b l → above c l.
Proof. intros Hbc Hl. eapply Forall_impl; [exact Hl|]. intros r (?&?&?). simpl in *. lia. Qed.

Lemma increasing_snoc l base count :
  above base l → increasing l → 0 ≤ count → increasing (l ++ [(base, count)]).
Proof.
  intros Ha. induction 1 as [|r l Hs IH Hr]; intros Hc; [repeat constructor|].
  apply Forall_cons in Ha as [(?&?&?) Ha]. cbn [app]. constructor; [by apply IH|].
  apply Forall_app. split; [done|]. apply Forall_singleton. done.
Qed.

Lemma reload_spec m b :
  block_ok b → stored m = SeqBlock.serialize <$> current_block b →
  above (next_sequence b) (used m) → increasing (used m) →
  ∃ m', reload m = Ok m' ∧ minv m' ∧ used m' = used m ∧
    block_end (block (alloc m')) = block_end b.
Proof.
  intros Hok Hst Hab Hinc. unfold reload. rewrite Hst, load_spec by done. simpl.
  eexists. split; [done|]. pose proof Hok as (Hwf & [? ?] & ?). unfold minv, block_ok. simpl.
  fold (block_end b).
  assert (He : block_end (mkAllocated (current_block b) (block_end b)) = block_end b) by done.
  rewrite He. split_and!; try done; try lia. by eapply above_mono.
Qed.

Lemma step_minv m e :
  minv m → valid_event e → block_end (block (alloc m)) + cost e < 2 ^ 64 →
  ∃ m', step m e = Ok m' ∧ minv m' ∧
    block_end (block (alloc m')) ≤ block_end (block (alloc m)) + cost e ∧
    used m' = used m ++ match e with
      | Allocate count => [(next_sequence (block (alloc m)), count)] | _ => [] end.
Proof.
  intros (Hok & Hst & Hab & Hinc) Hv Hb. destruct e as [count|count|]; cbn [step cost valid_event] in *.
  - destruct (allocate count (alloc m)) as [[base record] a'] eqn:Ha.
    destruct (allocate_spec _ _ _ _ _ Hok Hv ltac:(lia) Ha) as (Hk & Hok' & -> & Hn & ? & Hr).
    eexists. split; [done|]. simpl in *. split_and!; try done; [|lia].
    unfold minv. simpl. split; [done|]. split; [|split].
    + destruct record as [r|]; [by destruct Hr as (_ & ? & _)|]. by rewrite Hr.
    + apply Forall_app. destruct Hok as (_ & ? & _). split.
      * apply (above_mono _ (next_sequence (block (alloc m)))); [lia|done].
      * apply Forall_singleton. simpl. lia.
    + by apply increasing_snoc.
  - destruct (allocate count (alloc m)) as [[base record] a'] eqn:Ha.
    destruct (allocate_spec _ _ _ _ _ Hok Hv ltac:(lia) Ha) as (Hk & _).
    destruct (reload_spec (mkMachine (stored m) a' (used m)) (block (alloc m)))
      as (m' & -> & Hm & Hu & He); try done.
    exists m'. rewrite app_nil_r. split_and!; try done. unfold DEFAULT_BLOCK_SIZE. lia.
  - destruct (reload_spec m (block (alloc m))) as (m' & -> & Hm & Hu & He); try done.
    exists m'. rewrite app_nil_r. split_and!; try done. lia.
Qed.

Lemma run_minv m es :
  minv m → Forall valid_event es → block_end (block (alloc m)) + total_cost es < 2 ^ 64 →
  ∃ m', run m es = Ok m' ∧ minv m'.
Proof.
  revert m. induction es as [|e es IH]; intros m Hm Hv Hb; [by exists m|].
  apply Forall_cons in Hv as [Hve Hv]. cbn [run total_cost fold_right] in *.
  assert (Hnn : 0 ≤ fold_right (λ e acc, cost e + acc) 0 es).
  { clear -Hv. induction Hv as [|e es He _ IH]; simpl; [lia|].
    destruct e; simpl in *; unfold DEFAULT_BLOCK_SIZE; lia. }
  destruct (step_minv m e Hm Hve ltac:(lia)) as (m' & -> & Hm' & Hle & _). simpl.
  apply IH; [done..|]. unfold total_cost. lia.
Qed.

(** ** Properties *)

(** however allocations, crashes between allocation and put, and restarts
    interleave, reloading never fails and every used range lies after all earlier
    ones: no sequence number is used twice and the numbers only grow, as long as
    the u64 space is not exhausted (each event takes at most its count plus one
    default block). *)
Theorem sequence_ranges_disjoint k es :
  Forall valid_event es → total_cost es < 2 ^ 64 →
  ∃ m, run (fresh k) es = Ok m ∧ increasing (used m).
Proof.
  intros Hv Hb. destruct (run_minv (fresh k) es) as (m & Hr & Hm); try done.
  { unfold minv, block_ok, fresh. simpl. split_and!; try done; constructor. }
  exists m. split; [done|]. apply Hm.
Qed.

Lemma sequence_ranges_disjoint_witness :
  ∃ m, run (fresh [x01]) [Allocate 10; AllocateCrash 5000; Allocate 3; Crash; Allocate 9000]
    = Ok m ∧ increasing (used m).
Proof.
  apply sequence_ranges_disjoint; [|by vm_compute].
  repeat constructor; by vm_compute.
Defined.

(** an allocation returns the [count] numbers right after the last ones it
    handed out, across the boundary of two blocks too, and the record it asks to
    put is present exactly when the reserved block changes. *)
Theorem allocate_contiguous a count base record a' :
  block_ok (block a) → 0 ≤ count →
  block_end (block a) + count + DEFAULT_BLOCK_SIZE < 2 ^ 64 →
  allocate count a = (base, record, a') →
  base = peek_next_sequence a ∧ peek_next_sequence a' = base + count ∧
  block_ok (block a') ∧
  (record = None ↔ current_block (block a') = current_block (block a)).
Proof.
  intros Hok Hc Hb Ha.
  destruct (allocate_spec _ _ _ _ _ Hok Hc Hb Ha) as (_ & Hok' & -> & Hn & _ & Hr).
  split_and!; try done. destruct record as [r|]; [|done]. split; [done|].
  intros Hsame. exfalso. destruct Hr as (_ & _ & Hlt).
  unfold block_end in Hlt. rewrite Hsame in Hlt. lia.
Qed.

Lemma allocate_contiguous_witness :
  ∃ a', allocate 20 (mkAllocator [x01] (mkAllocated (Some (SeqBlock.new 0 4096)) 4090))
    = (4090, Some (mkRecord [x01] (SeqBlock.serialize (SeqBlock.new 4096 4096))), a') ∧
    peek_next_sequence a' = 4110.
Proof.
  eexists. split; [reflexivity|].
  apply (allocate_contiguous
    (mkAllocator [x01] (mkAllocated (Some (SeqBlock.new 0 4096)) 4090)) 20 4090
    (Some (mkRecord [x01] (SeqBlock.serialize (SeqBlock.new 4096 4096)))) _);
    [|done|by vm_compute|reflexivity].
  unfold block_ok. simpl. split_and!; [|by vm_compute..].
  intros blk [= <-]. by vm_compute.
Defined.
