(* ===== verification/Coordinator.v ===== *)
(** * common::coordinator: the write coordinator

    Two tasks share a view, three watermarks and a flush channel of capacity 2.
    The write task takes commands from named, pausable channels, stamps each
    write with an epoch and applies it to the current [Delta]; it freezes the
    delta on size, on a timer, on request and at shutdown.  The flush task hands
    the frozen deltas to a [Flusher], refreshes the view and moves the
    watermarks.

    The traits [Delta] and [Flusher] are type classes.  [step] runs one atomic
    action of one task (everything between two accesses to shared state): every
    [.await] and every lock, channel or watermark operation is a point where the
    other task may move.  A label says which task moves and, for [select!],
    which ready branch it takes; [None] is "not ready".

    [h_log] and [h_calls] are histories: the writes in the order in which they
    were applied, and the calls of the flusher with their results. *)
From stdpp Require Export strings gmap.
From S2P Require Import Prelude.
#[local] Open Scope Z_scope.

(** ** traits.rs *)
Inductive Durability : Type := Applied | Written | Durable.
#[global] Instance Durability_eq_dec : EqDecision Durability.
Proof. solve_decision. Defined.

Definition durability_rank (d : Durability) : Z :=
  match d with Applied => 0 | Written => 1 | Durable => 2 end.

(** A Rust method that may panic returns [res]; [&mut self] is threaded. *)
Class Delta : Type := {
  D : Type;
  Context_ : Type;
  Write : Type;
  Frozen : Type;
  FrozenView : Type;
  ApplyResult : Type;
  DeltaView : Type;
  init : Context_ → D;
  apply : D → Write → D * res string ApplyResult;
  estimate_size : D → Z;
  freeze : D → Frozen * FrozenView * Context_;
  reader : D → DeltaView;
}.

(** [Range<u64>] *)
Definition range : Type := Z * Z.

Record EpochStamped (T : Type) : Type := stamp { val : T; epoch_range : range }.
Arguments stamp {T} val epoch_range.
Arguments val {T} _.
Arguments epoch_range {T} _.

Class Flusher `{Delta} : Type := {
  F : Type;
  Snapshot : Type;
  flush_delta : F → Frozen → range → F * res string Snapshot;
  flush_storage : F → F * res string unit;
}.

(** ** error.rs *)
Inductive WriteError (W : Type) : Type :=
| Backpressure (w : W)
| TimeoutError (w : W)
| Shutdown
| ApplyError (epoch : Z) (msg : string)
| FlushError (msg : string)
| Internal (msg : string).
Arguments Backpressure {W} w.
Arguments TimeoutError {W} w.
Arguments Shutdown {W}.
Arguments ApplyError {W} epoch msg.
Arguments FlushError {W} msg.
Arguments Internal {W} msg.

Definition into_inner {W} (e : WriteError W) : option W :=
  match e with
  | Backpressure w | TimeoutError w => Some w
  | _ => None
  end.

Definition discard_inner {W} (e : WriteError W) : WriteError unit :=
  match e with
  | Backpressure _ => Backpressure tt
  | TimeoutError _ => TimeoutError tt
  | Shutdown => Shutdown
  | ApplyError epoch msg => ApplyError epoch msg
  | FlushError msg => FlushError msg
  | Internal msg => Internal msg
  end.

(** ** Watermarks: three [watch] channels

    [watch::Sender::send] does nothing when no receiver is left; the receivers
    of the three channels live and die together in clones of [EpochWatcher],
    counted by [watchers]. *)
Record EpochWatermarks : Type := mkWatermarks {
  applied : Z;
  written : Z;
  durable : Z;
  watchers : nat;
}.

Definition EpochWatermarks_new : EpochWatermarks := mkWatermarks 0 0 0 1.

Definition update_applied (w : EpochWatermarks) (epoch : Z) : EpochWatermarks :=
  match watchers w with
  | O => w
  | _ => mkWatermarks epoch (written w) (durable w) (watchers w)
  end.

Definition update_written (w : EpochWatermarks) (epoch : Z) : EpochWatermarks :=
  match watchers w with
  | O => w
  | _ => mkWatermarks (applied w) epoch (durable w) (watchers w)
  end.

Definition update_durable (w : EpochWatermarks) (epoch : Z) : EpochWatermarks :=
  match watchers w with
  | O => w
  | _ => mkWatermarks (applied w) (written w) epoch (watchers w)
  end.

Definition watermark (w : EpochWatermarks) (d : Durability) : Z :=
  match d with
  | Applied => applied w
  | Written => written w
  | Durable => durable w
  end.

(** A poll of [EpochWatcher::wait]: [None] is pending, [Err] when the sender is
    gone and the awaited value never came.  ([wait_for] looks at the value
    before it looks for closure.) *)
Definition EpochWatcher_wait (sender_alive : bool) (w : EpochWatermarks)
    (epoch : Z) (d : Durability) : option (res unit unit) :=
  if bool_decide (epoch ≤ watermark w d) then Some (Ok tt)
  else if sender_alive then None else Some (Err tt).

(** ** handle.rs: results of one write or flush *)
Record WriteApplied (M : Type) : Type := mkWriteApplied { wa_epoch : Z; wa_result : M }.
Arguments mkWriteApplied {M} wa_epoch wa_result.
Arguments wa_epoch {M} _.
Arguments wa_result {M} _.
Record WriteFailed : Type := mkWriteFailed { wf_epoch : Z; wf_error : string }.
Definition EpochResult (M : Type) : Type := res WriteFailed (WriteApplied M).

(** A oneshot channel seen by its receiver. *)
Inductive oneshot (M : Type) : Type :=
| OsPending
| OsValue (r : EpochResult M)
| OsDropped.
Arguments OsPending {M}.
Arguments OsValue {M} r.
Arguments OsDropped {M}.

(** Polls of [WriteHandle::recv], [epoch] and [wait]. *)
Definition WriteHandle_recv {M} (rx : oneshot M) :
    option (res (WriteError unit) (WriteApplied M)) :=
  match rx with
  | OsPending => None
  | OsDropped => Some (Err Shutdown)
  | OsValue r => Some (res_map_err (λ e, ApplyError (wf_epoch e) (wf_error e)) r)
  end.

Definition WriteHandle_epoch {M} (rx : oneshot M) : option (res (WriteError unit) Z) :=
  match WriteHandle_recv rx with
  | None => None
  | Some r => Some (let? a := r in Ok (wa_epoch a))
  end.

Definition WriteHandle_wait {M} (rx : oneshot M) (sender_alive : bool)
    (w : EpochWatermarks) (d : Durability) : option (res (WriteError unit) M) :=
  match WriteHandle_recv rx with
  | None => None
  | Some (Ok a) =>
      match EpochWatcher_wait sender_alive w (wa_epoch a) d with
      | None => None
      | Some (Ok _) => Some (Ok (wa_result a))
      | Some _ => Some (Err Shutdown)
      end
  | Some (Err e) => Some (Err e)
  | Some Panic => Some Panic
  end.

(** ** The coordinator *)
Section coordinator.
Context {DT : Delta} {FT : Flusher}.

Record View : Type := mkView {
  v_current : DeltaView;
  v_frozen : list (EpochStamped FrozenView);   (* newest first *)
  v_snapshot : Snapshot;
  v_last_written_delta : option (EpochStamped FrozenView);
}.

(** A panic inside the critical section poisons the mutex.  [bv_sent] is
    everything ever broadcast, oldest first. *)
Record BroadcastedView : Type := mkBroadcasted {
  bv_view : View;
  bv_sent : list View;
  bv_poisoned : bool;
}.

Definition BroadcastedView_new (initial_view : View) : BroadcastedView :=
  mkBroadcasted initial_view [] false.

Definition broadcast (v : View) (bv : BroadcastedView) : BroadcastedView :=
  mkBroadcasted v (bv_sent bv ++ [v]) (bv_poisoned bv).

(** The boolean says whether the call returned (and did not panic). *)
Definition update_flush_finished (bv : BroadcastedView) (snapshot : Snapshot) (r : range) :
    BroadcastedView * bool :=
  if bv_poisoned bv then (bv, false)
  else
    let poison := mkBroadcasted (bv_view bv) (bv_sent bv) true in
    match last (v_frozen (bv_view bv)) with
    | None => (poison, false)
    | Some last =>
        if bool_decide (epoch_range last = r)
        then (broadcast (mkView (v_current (bv_view bv))
                                (removelast (v_frozen (bv_view bv)))
                                snapshot (Some last)) bv, true)
        else (poison, false)
    end.

Definition update_delta_frozen (bv : BroadcastedView) (frozen : EpochStamped FrozenView)
    (rd : DeltaView) : BroadcastedView * bool :=
  if bv_poisoned bv then (bv, false)
  else (broadcast (mkView rd (frozen :: v_frozen (bv_view bv))
                          (v_snapshot (bv_view bv))
                          (v_last_written_delta (bv_view bv))) bv, true).

(** [current()] and [subscribe()]; a receiver is its position in the broadcasts *)
Definition bv_current (bv : BroadcastedView) : res unit View :=
  if bv_poisoned bv then Panic else Ok (bv_view bv).

Definition bv_subscribe (bv : BroadcastedView) : res unit (nat * View) :=
  if bv_poisoned bv then Panic else Ok (length (bv_sent bv), bv_view bv).

(** *** Commands and channels *)
Inductive FlushEvent : Type :=
| FlushDelta (frozen : EpochStamped Frozen)
| FlushStorage.

(** The oneshot sender of a command is its identifier. *)
Inductive WriteCommand : Type :=
| CmdWrite (write : Write) (result_tx : nat)
| CmdFlush (epoch_tx : nat) (flush_storage : bool).

(** An mpsc channel with its pause flag.  [ch_passed]: the receiver has got past
    [pause_rx.wait_for(..)] and waits in [rx.recv()]; a pause does not call it
    back (and a receiver whose pause handles are all gone does not wait).
    [ch_ended]: its stream has yielded [None]. *)
Record Channel : Type := mkChannel {
  ch_queue : list WriteCommand;
  ch_capacity : Z;
  ch_paused : bool;
  ch_passed : bool;
  ch_senders : nat;
  ch_ended : bool;
  ch_pause_tx : bool;               (* some [PauseHandle] is alive *)
}.

(** [mpsc::channel(0)] panics. *)
Definition pausable_channel (capacity : Z) : res unit Channel :=
  let? _ := rust_assert (bool_decide (0 < capacity)) in
  Ok (mkChannel [] capacity false false 1 false true).

Definition pause (ch : Channel) : Channel :=
  mkChannel (ch_queue ch) (ch_capacity ch) true (ch_passed ch) (ch_senders ch) (ch_ended ch)
    (ch_pause_tx ch).
Definition unpause (ch : Channel) : Channel :=
  mkChannel (ch_queue ch) (ch_capacity ch) false (ch_passed ch) (ch_senders ch) (ch_ended ch)
    (ch_pause_tx ch).

(** [PausableReceiver::recv] in two parts: past the pause, then the message. *)
Definition recv_pass (ch : Channel) : option Channel :=
  if ch_passed ch || ch_ended ch || (ch_paused ch && ch_pause_tx ch) then None
  else Some (mkChannel (ch_queue ch) (ch_capacity ch) (ch_paused ch) true
                       (ch_senders ch) (ch_ended ch) (ch_pause_tx ch)).

Definition recv_take (ch : Channel) : option (option WriteCommand * Channel) :=
  if negb (ch_passed ch) || ch_ended ch then None
  else match ch_queue ch with
       | cmd :: q =>
           Some (Some cmd, mkChannel q (ch_capacity ch) (ch_paused ch) false
                                     (ch_senders ch) false (ch_pause_tx ch))
       | [] =>
           match ch_senders ch with
           | O => Some (None, mkChannel [] (ch_capacity ch) (ch_paused ch) false O true (ch_pause_tx ch))
           | _ => None
           end
       end.

(** *** handle.rs: submitting commands

    The receiver is dropped when the write task ends. *)
Inductive TrySendError : Type := Full | Closed.

Definition try_send (rx_alive : bool) (ch : Channel) (cmd : WriteCommand) :
    res TrySendError Channel :=
  if negb rx_alive then Err Closed
  else if bool_decide (blen (ch_queue ch) < ch_capacity ch)
  then Ok (mkChannel (ch_queue ch ++ [cmd]) (ch_capacity ch) (ch_paused ch) (ch_passed ch)
                     (ch_senders ch) (ch_ended ch) (ch_pause_tx ch))
  else Err Full.

Definition try_write (rx_alive : bool) (ch : Channel) (write : Write) (id : nat) :
    res (WriteError Write) Channel :=
  res_map_err (λ e, match e with Full => Backpressure write | Closed => Shutdown end)
              (try_send rx_alive ch (CmdWrite write id)).

(** [send().await]: pending while the queue is full. *)
Definition write_ (rx_alive : bool) (ch : Channel) (write : Write) (id : nat) :
    option (res (WriteError Write) Channel) :=
  match try_send rx_alive ch (CmdWrite write id) with
  | Err Full => None
  | r => Some (res_map_err (λ _, Shutdown) r)
  end.

(** [send_timeout().await]: as [send] until the timer has fired. *)
Definition write_timeout (rx_alive fired : bool) (ch : Channel) (write : Write) (id : nat) :
    option (res (WriteError Write) Channel) :=
  match try_send rx_alive ch (CmdWrite write id) with
  | Err Full => if fired then Some (Err (TimeoutError write)) else None
  | r => Some (res_map_err (λ _, Shutdown) r)
  end.

Definition flush (rx_alive : bool) (ch : Channel) (fs : bool) (id : nat) :
    res (WriteError unit) Channel :=
  res_map_err (λ e, match e with Full => Backpressure tt | Closed => Shutdown end)
              (try_send rx_alive ch (CmdFlush id fs)).

(** *** The two tasks *)
Record WriteCoordinatorConfig : Type := mkConfig {
  queue_capacity : Z;
  flush_interval : Z;             (* seconds *)
  flush_size_threshold : Z;
}.

Definition default_config : WriteCoordinatorConfig :=
  mkConfig 10000 10 (64 * 1024 * 1024).

(** What the write task has still to do before it looks at its inputs again. *)
Inductive WriteAction : Type :=
| DoUpdateApplied (epoch : Z)
| DoFlushIfLarge
| DoFlush (flush_storage : bool)
| DoSend (ev : FlushEvent)
| DoCancelFlush.

Inductive JoinError : Type :=
| FlushTaskPanicked
| FlushTaskError (e : WriteError unit).

Inductive WritePhase : Type :=
| WRunning
| WStopping
| WJoining
| WDone (r : res JoinError unit)
| WPanicked.

Record WriteCoordinatorTask : Type := mkWriteTask {
  delta : option D;               (* CurrentDelta *)
  epoch : Z;
  delta_start_epoch : Z;
  w_threshold : Z;
  w_todo : list WriteAction;
  w_phase : WritePhase;
}.

(** The select loop, or the drain loop after it. *)
Inductive FlushMode : Type := MLoop | MDrain.

Inductive FlushPc : Type :=
| FIdle (m : FlushMode)
| FHandle (m : FlushMode) (ev : FlushEvent)
| FPublish (m : FlushMode) (snapshot : Snapshot) (r : range)
| FWritten (m : FlushMode)
| FDurable (m : FlushMode)
| FDone (r : res (WriteError unit) unit)
| FPanicked.

Record FlushTask : Type := mkFlushTask {
  f_pc : FlushPc;
  last_flushed_epoch : Z;
  flusher : F;
}.

Inductive Reply : Type :=
| ReplyWrite (r : EpochResult ApplyResult)
| ReplyFlush (r : EpochResult unit).

Inductive FlusherCall : Type :=
| CallDelta (frozen : EpochStamped Frozen) (r : res string Snapshot)
| CallStorage (r : res string unit).

Record State : Type := mkState {
  st_started : bool;
  st_w : WriteCoordinatorTask;
  st_f : FlushTask;
  st_q : list FlushEvent;               (* the flush channel *)
  st_bv : BroadcastedView;
  st_wm : EpochWatermarks;
  st_ch : gmap string Channel;
  st_stop : bool;                       (* stop_tok *)
  st_fstop : bool;                      (* flush_stop_tok *)
  st_replies : list (nat * Reply);
  st_next_id : nat;
  h_log : list Write;
  h_calls : list FlusherCall;
}.

Definition with_w (s : State) (w : WriteCoordinatorTask) : State :=
  mkState (st_started s) w (st_f s) (st_q s) (st_bv s) (st_wm s) (st_ch s) (st_stop s)
    (st_fstop s) (st_replies s) (st_next_id s) (h_log s) (h_calls s).
Definition with_f (s : State) (f : FlushTask) (q : list FlushEvent) : State :=
  mkState (st_started s) (st_w s) f q (st_bv s) (st_wm s) (st_ch s) (st_stop s)
    (st_fstop s) (st_replies s) (st_next_id s) (h_log s) (h_calls s).
Definition with_q (s : State) (q : list FlushEvent) : State :=
  with_f s (st_f s) q.
Definition with_bv (s : State) (bv : BroadcastedView) : State :=
  mkState (st_started s) (st_w s) (st_f s) (st_q s) bv (st_wm s) (st_ch s) (st_stop s)
    (st_fstop s) (st_replies s) (st_next_id s) (h_log s) (h_calls s).
Definition with_wm (s : State) (wm : EpochWatermarks) : State :=
  mkState (st_started s) (st_w s) (st_f s) (st_q s) (st_bv s) wm (st_ch s) (st_stop s)
    (st_fstop s) (st_replies s) (st_next_id s) (h_log s) (h_calls s).
Definition with_ch (s : State) (chs : gmap string Channel) : State :=
  mkState (st_started s) (st_w s) (st_f s) (st_q s) (st_bv s) (st_wm s) chs (st_stop s)
    (st_fstop s) (st_replies s) (st_next_id s) (h_log s) (h_calls s).
Definition with_flags (s : State) (started stop fstop : bool) : State :=
  mkState started (st_w s) (st_f s) (st_q s) (st_bv s) (st_wm s) (st_ch s) stop
    fstop (st_replies s) (st_next_id s) (h_log s) (h_calls s).
Definition with_reply (s : State) (id : nat) (r : Reply) : State :=
  mkState (st_started s) (st_w s) (st_f s) (st_q s) (st_bv s) (st_wm s) (st_ch s) (st_stop s)
    (st_fstop s) (st_replies s ++ [(id, r)]) (st_next_id s) (h_log s) (h_calls s).
Definition with_next_id (s : State) (n : nat) : State :=
  mkState (st_started s) (st_w s) (st_f s) (st_q s) (st_bv s) (st_wm s) (st_ch s) (st_stop s)
    (st_fstop s) (st_replies s) n (h_log s) (h_calls s).
Definition log_write (s : State) (w : Write) : State :=
  mkState (st_started s) (st_w s) (st_f s) (st_q s) (st_bv s) (st_wm s) (st_ch s) (st_stop s)
    (st_fstop s) (st_replies s) (st_next_id s) (h_log s ++ [w]) (h_calls s).
Definition log_call (s : State) (c : FlusherCall) : State :=
  mkState (st_started s) (st_w s) (st_f s) (st_q s) (st_bv s) (st_wm s) (st_ch s) (st_stop s)
    (st_fstop s) (st_replies s) (st_next_id s) (h_log s) (h_calls s ++ [c]).

Definition set_todo (w : WriteCoordinatorTask) (todo : list WriteAction) : WriteCoordinatorTask :=
  mkWriteTask (delta w) (epoch w) (delta_start_epoch w) (w_threshold w) todo (w_phase w).
Definition set_phase (w : WriteCoordinatorTask) (p : WritePhase) : WriteCoordinatorTask :=
  mkWriteTask (delta w) (epoch w) (delta_start_epoch w) (w_threshold w) (w_todo w) p.
Definition set_pc (f : FlushTask) (pc : FlushPc) : FlushTask :=
  mkFlushTask pc (last_flushed_epoch f) (flusher f).

Definition w_over (s : State) : bool :=
  match w_phase (st_w s) with WDone _ | WPanicked => true | _ => false end.
Definition f_over (s : State) : bool :=
  match f_pc (st_f s) with FDone _ | FPanicked => true | _ => false end.
(** the watermark senders live as long as one of the tasks *)
Definition wm_alive (s : State) : bool := negb (w_over s && f_over s).

(** *** Write task *)
Definition freeze_and_init (d : option D) :
    res unit (Frozen * FrozenView * D) :=
  let? d := expect d in
  let '(frozen, frozen_reader, context) := freeze d in
  Ok (frozen, frozen_reader, init context).

Definition write_panics (s : State) : State :=
  with_w s (set_phase (set_todo (st_w s) []) WPanicked).

(** The view is updated before the event is sent; [sends] is what remains to be
    sent, then [rest] to be done. *)
Definition flush_if_delta_has_writes (s : State) (rest : list WriteAction) : State :=
  let w := st_w s in
  if bool_decide (epoch w = delta_start_epoch w) then with_w s (set_todo w rest)
  else
    let r := (delta_start_epoch w, epoch w) in
    match freeze_and_init (delta w) with
    | Ok (frozen, frozen_reader, d) =>
        match update_delta_frozen (st_bv s) (stamp frozen_reader r) (reader d) with
        | (bv, true) =>
            with_w (with_bv s bv)
              (mkWriteTask (Some d) (epoch w) (epoch w) (w_threshold w)
                 (DoSend (FlushDelta (stamp frozen r)) :: rest) (w_phase w))
        | (bv, false) => write_panics (with_bv s bv)
        end
    | _ => write_panics s
    end.

Definition handle_flush (s : State) (fs : bool) (rest : list WriteAction) : State :=
  flush_if_delta_has_writes s ((if fs then [DoSend FlushStorage] else []) ++ rest).

Definition handle_write (s : State) (write : Write) (result_tx : nat) : State :=
  let w := st_w s in
  match delta w with
  | None => write_panics s
  | Some d =>
      let write_epoch := epoch w in
      let '(d', result) := apply d write in
      let reply :=
        match result with
        | Ok r => Some (Ok (mkWriteApplied write_epoch r))
        | Err e => Some (Err (mkWriteFailed write_epoch e))
        | Panic => None
        end in
      match reply with
      | None => write_panics s
      | Some reply =>
          log_write
            (with_reply
               (with_w s (mkWriteTask (Some d') (wrap 64 (write_epoch + 1))
                            (delta_start_epoch w) (w_threshold w)
                            [DoUpdateApplied write_epoch; DoFlushIfLarge] (w_phase w)))
               result_tx (ReplyWrite reply))
            write
      end
  end.

Definition FLUSH_CHANNEL_CAPACITY : nat := 2.

(** The next pending action; [None] when a send has to wait for room. *)
Definition write_action (s : State) : option State :=
  let w := st_w s in
  match w_todo w with
  | [] => None
  | DoUpdateApplied e :: rest =>
      Some (with_wm (with_w s (set_todo w rest)) (update_applied (st_wm s) e))
  | DoFlushIfLarge :: rest =>
      match delta w with
      | None => Some (write_panics s)
      | Some d =>
          Some (with_w s (set_todo w
                  (if bool_decide (w_threshold w ≤ estimate_size d)
                   then DoFlush false :: rest else rest)))
      end
  | DoFlush fs :: rest => Some (handle_flush s fs rest)
  | DoSend ev :: rest =>
      if f_over s then Some (with_w s (set_todo w rest))
      else if bool_decide (length (st_q s) < FLUSH_CHANNEL_CAPACITY)%nat
      then Some (with_w (with_q s (st_q s ++ [ev])) (set_todo w rest))
      else None
  | DoCancelFlush :: rest =>
      Some (with_flags (with_w s (set_phase (set_todo w rest) WJoining))
              (st_started s) (st_stop s) true)
  end.

(** The select loop of [run_coordinator] takes a new input only when nothing is
    left to do for the previous one. *)
Definition w_ready (s : State) : bool :=
  match w_phase (st_w s), w_todo (st_w s) with
  | WRunning, [] => st_started s
  | _, _ => false
  end.

Definition handle_command (s : State) (cmd : WriteCommand) : State :=
  match cmd with
  | CmdWrite write result_tx => handle_write s write result_tx
  | CmdFlush epoch_tx fs =>
      let s := with_reply s epoch_tx
                 (ReplyFlush (Ok (mkWriteApplied (saturating_sub (epoch (st_w s)) 1) tt))) in
      with_w s (set_todo (st_w s) [DoFlush fs])
  end.

(** Leaving the loop: a last flush, then the flush task is told to stop. *)
Definition shut_down (s : State) : State :=
  with_w s (set_phase (set_todo (st_w s) [DoFlush false; DoCancelFlush]) WStopping).

(** [flush_task_jh.await] *)
Definition join_flush_task (s : State) : option State :=
  match w_phase (st_w s), f_pc (st_f s) with
  | WJoining, FDone r => Some (with_w s (set_phase (st_w s) (WDone (res_map_err FlushTaskError r))))
  | WJoining, FPanicked => Some (with_w s (set_phase (st_w s) (WDone (Err FlushTaskPanicked))))
  | _, _ => None
  end.

(** *** Flush task *)
(** [handle_event(..)?] in the loop, [handle_event(..);] in the drain. *)
Definition event_failed (s : State) (m : FlushMode) (fl : F) (e : string) : State :=
  let f := st_f s in
  match m with
  | MLoop => with_f s (mkFlushTask (FDone (Err (FlushError e))) (last_flushed_epoch f) fl) []
  | MDrain => with_f s (mkFlushTask (FIdle MDrain) (last_flushed_epoch f) fl) (st_q s)
  end.

Definition flush_panics (s : State) : State := with_f s (set_pc (st_f s) FPanicked) [].

Definition flush_recv (s : State) : option State :=
  match f_pc (st_f s), st_q s with
  | FIdle MLoop, ev :: q => Some (with_f s (set_pc (st_f s) (FHandle MLoop ev)) q)
  | FIdle MLoop, [] =>
      if w_over s then Some (with_f s (set_pc (st_f s) (FIdle MDrain)) []) else None
  | _, _ => None
  end.

Definition flush_stop (s : State) : option State :=
  match f_pc (st_f s) with
  | FIdle MLoop =>
      if st_fstop s then Some (with_f s (set_pc (st_f s) (FIdle MDrain)) (st_q s)) else None
  | _ => None
  end.

Definition flush_drain (s : State) : option State :=
  match f_pc (st_f s), st_q s with
  | FIdle MDrain, ev :: q => Some (with_f s (set_pc (st_f s) (FHandle MDrain ev)) q)
  | FIdle MDrain, [] => Some (with_f s (set_pc (st_f s) (FDone (Ok tt))) [])
  | _, _ => None
  end.

(** The inside of [handle_event] and of the flush task's [handle_flush]. *)
Definition flush_work (s : State) : option State :=
  let f := st_f s in
  match f_pc f with
  | FHandle m (FlushDelta frozen) =>
      let '(fl, r) := flush_delta (flusher f) (val frozen) (epoch_range frozen) in
      let s := log_call s (CallDelta frozen r) in
      Some match r with
           | Ok snapshot =>
               with_f s (mkFlushTask (FPublish m snapshot (epoch_range frozen))
                           (wrap 64 ((epoch_range frozen).2 - 1)) fl) (st_q s)
           | Err e => event_failed s m fl e
           | Panic => flush_panics s
           end
  | FHandle m FlushStorage =>
      let '(fl, r) := flush_storage (flusher f) in
      let s := log_call s (CallStorage r) in
      Some match r with
           | Ok _ => with_f s (mkFlushTask (FDurable m) (last_flushed_epoch f) fl) (st_q s)
           | Err e => event_failed s m fl e
           | Panic => flush_panics s
           end
  | FPublish m snapshot r =>
      Some match update_flush_finished (st_bv s) snapshot r with
           | (bv, true) => with_f (with_bv s bv) (set_pc f (FWritten m)) (st_q s)
           | (bv, false) => flush_panics (with_bv s bv)
           end
  | FWritten m =>
      Some (with_f (with_wm s (update_written (st_wm s) (last_flushed_epoch f)))
              (set_pc f (FIdle m)) (st_q s))
  | FDurable m =>
      Some (with_f (with_wm s (update_durable (st_wm s) (last_flushed_epoch f)))
              (set_pc f (FIdle m)) (st_q s))
  | _ => None
  end.

(** *** WriteCoordinator: construction, start and stop *)
Fixpoint make_channels (capacity : Z) (names : list string) (chs : gmap string Channel) :
    res unit (gmap string Channel) :=
  match names with
  | [] => Ok chs
  | name :: names =>
      let? ch := pausable_channel capacity in
      make_channels capacity names (<[name := ch]> chs)
  end.

(** [write_txs.remove(..).expect("unreachable")]: a repeated name has no sender left. *)
Fixpoint take_senders (names : list string) (txs : gmap string Channel) : res unit unit :=
  match names with
  | [] => Ok tt
  | name :: names =>
      let? _ := expect (txs !! name) in
      take_senders names (delete name txs)
  end.

Definition WriteCoordinatorTask_new (config : WriteCoordinatorConfig) (ctx : Context_) :
    WriteCoordinatorTask :=
  mkWriteTask (Some (init ctx)) 1 1 (flush_size_threshold config) [] WRunning.

Definition initial_view (ctx : Context_) (snapshot : Snapshot) : View :=
  mkView (reader (init ctx)) [] snapshot None.

(** One clone of the watcher goes into each handle; the original is dropped. *)
Definition coordinator_new (config : WriteCoordinatorConfig) (names : list string)
    (ctx : Context_) (snapshot : Snapshot) (fl : F) : res unit State :=
  let? chs := make_channels (queue_capacity config) names ∅ in
  let? _ := take_senders names chs in
  Ok (mkState false (WriteCoordinatorTask_new config ctx)
        (mkFlushTask (FIdle MLoop) 0 fl) []
        (BroadcastedView_new (initial_view ctx snapshot))
        (mkWatermarks (applied EpochWatermarks_new) (written EpochWatermarks_new)
           (durable EpochWatermarks_new) (length names))
        chs false false [] 0 [] []).

Definition start (s : State) : State :=
  with_flags s true (st_stop s) (st_fstop s).

(** [stop] before [start] drops the tasks and returns [Ok(())]. *)
Definition stop (s : State) : State :=
  if st_started s then with_flags s true true (st_fstop s)
  else with_f (with_w s (set_phase (st_w s) (WDone (Ok tt))))
         (set_pc (st_f s) (FDone (Ok tt))) [].

(** What [stop().await] returns once the write task is over; [Err None] is the
    [JoinError] of a write task that panicked. *)
Definition stop_result (s : State) : option (res (option JoinError) unit) :=
  match w_phase (st_w s) with
  | WDone r => Some (res_map_err Some r)
  | WPanicked => Some (Err None)
  | _ => None
  end.

(** [handle]/[pause_handle]: [expect("unknown channel name")] *)
Definition handle (s : State) (name : string) : res unit Channel := expect (st_ch s !! name).

Definition flushed_epoch (s : State) : Z := written (st_wm s).

(** *** Labels *)
Inductive submission : Type :=
| STryWrite (w : Write)
| SWrite (w : Write)
| SWriteTimeout (w : Write) (fired : bool)
| SFlush (flush_storage : bool).

Inductive label : Type :=
| LStart | LStop
| LSubmit (name : string) (op : submission)
| LCloneHandle (name : string) | LDropHandle (name : string) | LDropWriteHandle
| LPause (name : string) | LUnpause (name : string) | LDropPause (name : string)
| LPass (name : string) | LRecv (name : string) | LTick | LBreak | LAllEnded
| LWrite | LJoin
| LFlushRecv | LFlushStop | LFlushDrain | LFlushWork.

Definition submit_result (s : State) (ch : Channel) (op : submission) :
    option (res (WriteError unit) Channel) :=
  let alive := negb (w_over s) in
  let id := st_next_id s in
  match op with
  | STryWrite w => Some (res_map_err discard_inner (try_write alive ch w id))
  | SWrite w => res_map_err discard_inner <$> write_ alive ch w id
  | SWriteTimeout w fired => res_map_err discard_inner <$> write_timeout alive fired ch w id
  | SFlush fs => Some (flush alive ch fs id)
  end.

Definition add_watchers (wm : EpochWatermarks) (n : nat) : EpochWatermarks :=
  mkWatermarks (applied wm) (written wm) (durable wm) n.
Definition set_senders (ch : Channel) (n : nat) : Channel :=
  mkChannel (ch_queue ch) (ch_capacity ch) (ch_paused ch) (ch_passed ch) n (ch_ended ch)
    (ch_pause_tx ch).
Definition drop_pause_handles (ch : Channel) : Channel :=
  mkChannel (ch_queue ch) (ch_capacity ch) (ch_paused ch) (ch_passed ch) (ch_senders ch)
    (ch_ended ch) false.

(** A submission needs a handle, which holds a watcher; when it is accepted its [WriteHandle] holds one
    more watcher. *)
Definition submit (s : State) (name : string) (op : submission) : option State :=
  match st_ch s !! name with
  | None => None
  | Some ch =>
      if bool_decide (ch_senders ch = O ∨ watchers (st_wm s) = O) then None
      else match submit_result s ch op with
           | None => None
           | Some (Ok ch) =>
               Some (with_wm (with_next_id (with_ch s (<[name := ch]> (st_ch s)))
                                (S (st_next_id s)))
                       (add_watchers (st_wm s) (S (watchers (st_wm s)))))
           | Some _ => Some s
           end
  end.

Definition on_channel (s : State) (name : string) (f : Channel → option Channel) : option State :=
  match st_ch s !! name with
  | None => None
  | Some ch =>
      match f ch with
      | None => None
      | Some ch => Some (with_ch s (<[name := ch]> (st_ch s)))
      end
  end.

Definition clone_handle (s : State) (name : string) : option State :=
  match st_ch s !! name with
  | Some ch =>
      match ch_senders ch, watchers (st_wm s) with
      | S n, S m =>
          Some (with_wm (with_ch s (<[name := set_senders ch (S (S n))]> (st_ch s)))
                  (add_watchers (st_wm s) (S (S m))))
      | _, _ => None
      end
  | None => None
  end.

Definition drop_watcher (s : State) : option State :=
  match watchers (st_wm s) with
  | O => None
  | S n => Some (with_wm s (add_watchers (st_wm s) n))
  end.

Definition drop_handle (s : State) (name : string) : option State :=
  match st_ch s !! name with
  | Some ch =>
      match ch_senders ch with
      | O => None
      | S n => drop_watcher (with_ch s (<[name := set_senders ch n]> (st_ch s)))
      end
  | None => None
  end.

Definition receive (s : State) (name : string) : option State :=
  match st_ch s !! name with
  | None => None
  | Some ch =>
      match recv_take ch with
      | None => None
      | Some (Some cmd, ch) => Some (handle_command (with_ch s (<[name := ch]> (st_ch s))) cmd)
      | Some (None, ch) => Some (with_ch s (<[name := ch]> (st_ch s)))
      end
  end.

Definition all_ended (s : State) : bool :=
  forallb (λ p, ch_ended p.2) (map_to_list (st_ch s)).

Definition guard_ {A} (b : bool) (o : option A) : option A := if b then o else None.

Definition step (s : State) (l : label) : option State :=
  match l with
  | LStart => Some (if w_over s then s else start s)
  | LStop => guard_ (negb (w_over s)) (Some (stop s))
  | LSubmit name op => submit s name op
  | LCloneHandle name => clone_handle s name
  | LDropHandle name => drop_handle s name
  | LDropWriteHandle => drop_watcher s
  | LPause name => on_channel s name (λ ch, guard_ (ch_pause_tx ch) (Some (pause ch)))
  | LUnpause name => on_channel s name (λ ch, guard_ (ch_pause_tx ch) (Some (unpause ch)))
  | LDropPause name => on_channel s name (λ ch, Some (drop_pause_handles ch))
  | LPass name => guard_ (w_ready s) (on_channel s name recv_pass)
  | LRecv name => guard_ (w_ready s) (receive s name)
  | LTick => guard_ (w_ready s) (Some (with_w s (set_todo (st_w s) [DoFlush false])))
  | LBreak => guard_ (w_ready s && st_stop s) (Some (shut_down s))
  | LAllEnded => guard_ (w_ready s && all_ended s) (Some (shut_down s))
  | LWrite => guard_ (st_started s) (write_action s)
  | LJoin => join_flush_task s
  | LFlushRecv => guard_ (st_started s) (flush_recv s)
  | LFlushStop => guard_ (st_started s) (flush_stop s)
  | LFlushDrain => guard_ (st_started s) (flush_drain s)
  | LFlushWork => guard_ (st_started s) (flush_work s)
  end.

Fixpoint steps (s : State) (ls : list label) : option State :=
  match ls with
  | [] => Some s
  | l :: ls => match step s l with Some s => steps s ls | None => None end
  end.

(** *** subscriber.rs *)
Inductive SubscribeError : Type := SubShutdown | NotInitialized | MessageLost.

Record ViewSubscriber : Type := mkSubscriber {
  sub_pos : nat;
  sub_initial : option View;
  sub_watermarks : EpochWatermarks;
}.

Definition ViewSubscriber_new (view_rx : nat) (v : View) : ViewSubscriber :=
  mkSubscriber view_rx (Some v) EpochWatermarks_new.

Definition initialize (sub : ViewSubscriber) : res unit (View * ViewSubscriber) :=
  let? v := expect (sub_initial sub) in
  Ok (v, mkSubscriber (sub_pos sub) None (sub_watermarks sub)).

Definition BROADCAST_CAPACITY : nat := 16.

(** A poll: [None] is pending.  A receiver more than 16 messages behind is moved
    to the oldest message kept. *)
Definition subscriber_recv (sub : ViewSubscriber) (bv : BroadcastedView) (closed : bool) :
    option (res SubscribeError View * ViewSubscriber) :=
  match sub_initial sub with
  | Some _ => Some (Err NotInitialized, sub)
  | None =>
      let n := length (bv_sent bv) in
      if bool_decide (BROADCAST_CAPACITY < n - sub_pos sub)%nat
      then Some (Err MessageLost,
                 mkSubscriber (n - BROADCAST_CAPACITY) None (sub_watermarks sub))
      else match bv_sent bv !! sub_pos sub with
           | Some v => Some (Ok v, mkSubscriber (S (sub_pos sub)) None (sub_watermarks sub))
           | None => if closed then Some (Err SubShutdown, sub) else None
           end
  end.

(** The monitor keeps the watermark senders alive itself. *)
Definition monitor_wait (sub : ViewSubscriber) (e : Z) (d : Durability) :
    option (res SubscribeError unit) :=
  res_map_err (λ _, SubShutdown) <$> EpochWatcher_wait true (sub_watermarks sub) e d.

Definition subscriber_update (sub : ViewSubscriber) (d : Durability) (e : Z) : ViewSubscriber :=
  mkSubscriber (sub_pos sub) (sub_initial sub)
    (match d with
     | Applied => update_applied (sub_watermarks sub) e
     | Written => update_written (sub_watermarks sub) e
     | Durable => update_durable (sub_watermarks sub) e
     end).
End coordinator.

(** Reachability from a fresh coordinator. *)
Inductive reachable `{FT : Flusher} (s0 : State) : State → Prop :=
| reachable_init : reachable s0 s0
| reachable_step s l s' : reachable s0 s → step s l = Some s' → reachable s0 s'.
