(* ===== verification/CoordinatorInv.v ===== *)
(** * The write coordinator: invariant and theorems

    [sealed_log] is the abstract specification: the writes in epoch order, cut
    into non-empty batches, each frozen from the context its predecessor left.
    [Inv] relates every reachable state to it: which batches are in the view,
    in the flush channel, in the flusher's history and in the watermarks. *)
From S2P Require Import Prelude Coordinator.
#[local] Open Scope Z_scope.

(** Case analysis of one enabled step. *)
Ltac step_cases :=
  unfold guard_, on_channel, clone_handle, drop_handle, drop_watcher, receive, submit,
    write_action, join_flush_task, flush_recv, flush_stop, flush_drain, flush_work,
    handle_command, handle_write, handle_flush, flush_if_delta_has_writes, event_failed in *;
  repeat (case_match; simplify_eq/=; try done).

Section invariant.
Context {DT : Delta} {FT : Flusher}.

(** ** The abstract pipeline *)
Record Sealed : Type := mkSealed {
  sl_frozen : Frozen;
  sl_view : FrozenView;
  sl_range : range;
}.

Definition stampf (x : Sealed) : EpochStamped Frozen := stamp (sl_frozen x) (sl_range x).
Definition stampv (x : Sealed) : EpochStamped FrozenView := stamp (sl_view x) (sl_range x).

(** Writes applied one after another; a failed apply keeps what it changed. *)
Definition replay (d : D) (ws : list Write) : D := foldl (λ d w, (apply d w).1) d ws.

(** [sealed_log c0 S ws c e]: from context [c0] and epoch 1, the writes [ws] were
    sealed into the batches [S], which leaves the context [c] and next epoch [e]. *)
Inductive sealed_log (c0 : Context_) : list Sealed → list Write → Context_ → Z → Prop :=
| sealed_nil : sealed_log c0 [] [] c0 1
| sealed_snoc S lw c e ws fr fv c' :
    sealed_log c0 S lw c e → ws ≠ [] →
    freeze (replay (init c) ws) = (fr, fv, c') →
    sealed_log c0 (S ++ [mkSealed fr fv (e, e + blen ws)]) (lw ++ ws) c' (e + blen ws).

(** the first epoch after the first [n] batches *)
Definition end_at (S : list Sealed) (n : nat) : Z :=
  match last (take n S) with Some x => (sl_range x).2 | None => 1 end.

Lemma end_at_app S T n : (n ≤ length S)%nat → end_at (S ++ T) n = end_at S n.
Proof. intros. unfold end_at. by rewrite take_app_le by done. Qed.

Lemma end_at_succ S n x : S !! n = Some x → end_at S (Datatypes.S n) = (sl_range x).2.
Proof. intros Hx. unfold end_at. rewrite (take_S_r _ _ _ Hx), last_snoc. done. Qed.

Lemma sealed_epoch c0 S lw c e : sealed_log c0 S lw c e → e = 1 + blen lw.
Proof.
  induction 1 as [|S lw c e ws fr fv c' _ IH]; [done|].
  rewrite IH. unfold blen. rewrite length_app. lia.
Qed.

Lemma sealed_end c0 S lw c e : sealed_log c0 S lw c e → end_at S (length S) = e.
Proof.
  destruct 1 as [|S lw c e ws fr fv c']; [done|].
  rewrite length_app; simpl. rewrite Nat.add_1_r.
  erewrite end_at_succ by (apply list_lookup_middle; done). done.
Qed.

(** Ranges are non-empty and contiguous. *)
Lemma sealed_range c0 S lw c e i x :
  sealed_log c0 S lw c e → S !! i = Some x →
  (sl_range x).1 = end_at S i ∧ (sl_range x).1 < (sl_range x).2 ∧
  (sl_range x).2 = end_at S (Datatypes.S i).
Proof.
  intros HS. revert i x.
  induction HS as [|S lw c e ws fr fv c' HS IH Hws Hfr]; intros i x Hx; [done|].
  apply lookup_app_Some in Hx as [Hx|[Hi Hx]].
  - pose proof (lookup_lt_Some _ _ _ Hx).
    rewrite !end_at_app by lia. eauto.
  - apply list_lookup_singleton_Some in Hx as [Hi0 <-].
    assert (i = length S) as -> by lia. simpl.
    rewrite end_at_app, (sealed_end _ _ _ _ _ HS) by done.
    erewrite end_at_succ by (apply list_lookup_middle; done). simpl.
    destruct ws; [done|]. unfold blen; simpl; lia.
Qed.

Lemma sealed_end_lt c0 S lw c e i j :
  sealed_log c0 S lw c e → (i < j ≤ length S)%nat → end_at S i < end_at S j.
Proof.
  intros HS [Hij Hj]. induction j as [|j IH]; [lia|].
  destruct (lookup_lt_is_Some_2 S j) as [x Hx]; [lia|].
  destruct (sealed_range _ _ _ _ _ _ _ HS Hx) as (H1 & H2 & H3).
  destruct (decide (i = j)) as [->|]; [lia|]. assert (end_at S i < end_at S j) by (apply IH; lia). lia.
Qed.

Lemma sealed_end_le c0 S lw c e i j :
  sealed_log c0 S lw c e → (i ≤ j ≤ length S)%nat → end_at S i ≤ end_at S j.
Proof.
  intros HS Hij. destruct (decide (i = j)) as [->|]; [lia|].
  assert (end_at S i < end_at S j); [eapply sealed_end_lt; eauto; lia|lia].
Qed.

Lemma sealed_end_pos c0 S lw c e i :
  sealed_log c0 S lw c e → (i ≤ length S)%nat → 1 ≤ end_at S i.
Proof.
  intros HS Hi. change 1 with (end_at S 0). eapply sealed_end_le; eauto; lia.
Qed.

(** A range names its batch. *)
Lemma sealed_range_inj c0 S lw c e i j x y :
  sealed_log c0 S lw c e → S !! i = Some x → S !! j = Some y → sl_range x = sl_range y → i = j.
Proof.
  intros HS Hx Hy Hr.
  pose proof (lookup_lt_Some _ _ _ Hx). pose proof (lookup_lt_Some _ _ _ Hy).
  destruct (sealed_range _ _ _ _ _ _ _ HS Hx) as [Hx1 _].
  destruct (sealed_range _ _ _ _ _ _ _ HS Hy) as [Hy1 _].
  rewrite Hr in Hx1.
  destruct (decide (i < j)%nat) as [|]; [|destruct (decide (j < i)%nat) as [|]; [|lia]].
  - assert (end_at S i < end_at S j); [eapply sealed_end_lt; eauto; lia|lia].
  - assert (end_at S j < end_at S i); [eapply sealed_end_lt; eauto; lia|lia].
Qed.

Lemma replay_snoc d ws w : replay d (ws ++ [w]) = (apply (replay d ws) w).1.
Proof. unfold replay. by rewrite foldl_app. Qed.

(** ** Where the sealed batches are *)
Fixpoint sends (t : list WriteAction) : list (EpochStamped Frozen) :=
  match t with
  | [] => []
  | DoSend (FlushDelta x) :: t => x :: sends t
  | _ :: t => sends t
  end.

Fixpoint q_deltas (q : list FlushEvent) : list (EpochStamped Frozen) :=
  match q with
  | [] => []
  | FlushDelta x :: q => x :: q_deltas q
  | FlushStorage :: q => q_deltas q
  end.

Definition in_hand (pc : FlushPc) : list (EpochStamped Frozen) :=
  match pc with FHandle _ (FlushDelta x) => [x] | _ => [] end.

(** frozen deltas on their way to the flusher, oldest first *)
Definition pending (s : State) : list (EpochStamped Frozen) :=
  in_hand (f_pc (st_f s)) ++ q_deltas (st_q s) ++ sends (w_todo (st_w s)).

(** Only sends stand before a send, and an applied-update only comes first. *)
Fixpoint todo_ok (t : list WriteAction) : Prop :=
  match t with
  | [] => True
  | a :: t =>
      Forall (λ b, match b with DoUpdateApplied _ => False | _ => True end) t ∧
      (match a with DoSend _ => True | _ => sends t = [] end) ∧
      todo_ok t
  end.

(** ** What the flusher was asked *)
Fixpoint succs (cs : list FlusherCall) : list (EpochStamped Frozen * Snapshot) :=
  match cs with
  | [] => []
  | CallDelta x (Ok snap) :: cs => (x, snap) :: succs cs
  | _ :: cs => succs cs
  end.

Definition no_failed (cs : list FlusherCall) : Prop :=
  Forall (λ c, match c with CallDelta _ (Err _) => False | _ => True end) cs.

Definition flusher_panicked (cs : list FlusherCall) : Prop :=
  Exists (λ c, match c with CallDelta _ Panic | CallStorage Panic => True | _ => False end) cs.

Lemma sends_app t u : sends (t ++ u) = sends t ++ sends u.
Proof. induction t as [|[| | |[]|] t IH]; simpl; congruence. Qed.

Lemma q_deltas_app q r : q_deltas (q ++ r) = q_deltas q ++ q_deltas r.
Proof. induction q as [|[] q IH]; simpl; congruence. Qed.

Lemma succs_app cs ds : succs (cs ++ ds) = succs cs ++ succs ds.
Proof. induction cs as [|[? []|] cs IH]; simpl; congruence. Qed.

(** ** The invariant

    [S]: the sealed batches; [cur]: the writes of the current delta; [c]: its
    context; the first [np] batches are published in the view's snapshot, and
    the batches from [k] on have not reached the flusher. *)
Context (c0 : Context_) (snap0 : Snapshot).

Record InvW (s : State) (S : list Sealed) (lw cur : list Write) (c : Context_) : Prop := {
  iw_sealed : sealed_log c0 S lw c (delta_start_epoch (st_w s));
  iw_log : h_log s = lw ++ cur;
  iw_delta : delta (st_w s) = Some (replay (init c) cur);
  iw_epoch : epoch (st_w s) = delta_start_epoch (st_w s) + blen cur;
  iw_todo : todo_ok (w_todo (st_w s));
  iw_applied :
    match w_todo (st_w s) with
    | DoUpdateApplied e :: _ =>
        e = epoch (st_w s) - 1 ∧ cur ≠ [] ∧ applied (st_wm s) ≤ e ∧
        ((0 < watchers (st_wm s))%nat → delta_start_epoch (st_w s) - 1 ≤ applied (st_wm s))
    | _ =>
        applied (st_wm s) ≤ epoch (st_w s) - 1 ∧
        ((0 < watchers (st_wm s))%nat → applied (st_wm s) = epoch (st_w s) - 1)
    end;
}.

Record InvV (s : State) (S : list Sealed) (c : Context_) (np : nat) : Prop := {
  iv_np : (np ≤ length S)%nat;
  iv_current : v_current (bv_view (st_bv s)) = reader (init c);
  iv_frozen : v_frozen (bv_view (st_bv s)) = reverse (stampv <$> drop np S);
  iv_last : v_last_written_delta (bv_view (st_bv s)) = last (stampv <$> take np S);
  iv_snapshot : v_snapshot (bv_view (st_bv s)) =
    default snap0 (last (take np (succs (h_calls s)).*2));
  iv_poison : bv_poisoned (st_bv s) = true → f_pc (st_f s) = FPanicked;
}.

Record InvF (s : State) (S : list Sealed) (np k : nat) : Prop := {
  if_k : (np ≤ k ≤ length S)%nat;
  if_pending : f_over s = false → pending s = stampf <$> drop k S;
  if_calls : ∃ extra, (succs (h_calls s)).*1 = (stampf <$> take np S) ++ extra ∧
    match f_pc (st_f s) with
    | FPublish _ snap r =>
        ∃ x, (np < k)%nat ∧ S !! (k - 1)%nat = Some x ∧ extra = [stampf x] ∧ sl_range x = r ∧
             last (succs (h_calls s)).*2 = Some snap ∧
             last_flushed_epoch (st_f s) = r.2 - 1
    | FPanicked => True
    | _ => extra = [] ∧ last_flushed_epoch (st_f s) = end_at S np - 1
    end;
  if_health : f_over s = false → no_failed (h_calls s) →
    k = match f_pc (st_f s) with FPublish _ _ _ => Datatypes.S np | _ => np end;
  if_panic : f_pc (st_f s) = FPanicked →
    flusher_panicked (h_calls s) ∨ ¬ no_failed (h_calls s);
}.

Record InvM (s : State) (S : list Sealed) (np : nat) : Prop := {
  im_order : 0 ≤ durable (st_wm s) ≤ written (st_wm s);
  im_written : written (st_wm s) ≤ end_at S np - 1;
  im_written_eq : (0 < watchers (st_wm s))%nat →
    match f_pc (st_f s) with
    | FWritten _ => True
    | _ => written (st_wm s) = end_at S np - 1
    end;
  im_written_applied : written (st_wm s) ≤ applied (st_wm s);
  im_durable : durable (st_wm s) = 0 ∨
    ∃ t1 t2 n, h_calls s = t1 ++ CallStorage (Ok tt) :: t2 ∧ (n ≤ np)%nat ∧
      durable (st_wm s) = end_at S n - 1 ∧ (stampf <$> take n S) = (succs t1).*1;
  im_durable_pc : ∀ m, f_pc (st_f s) = FDurable m →
    ∃ t1, h_calls s = t1 ++ [CallStorage (Ok tt)];
}.

Definition Inv (s : State) : Prop :=
  ∃ S lw cur c np k, InvW s S lw cur c ∧ InvV s S c np ∧ InvF s S np k ∧ InvM s S np.

(** *** Steps that leave the pipeline alone *)
Definition wm_grows (a b : EpochWatermarks) : Prop :=
  applied a = applied b ∧ written a = written b ∧ durable a = durable b ∧
  (watchers a = O → watchers b = O).

Definition same_pipeline (s s' : State) : Prop :=
  st_w s = st_w s' ∧ st_f s = st_f s' ∧ st_q s = st_q s' ∧ st_bv s = st_bv s' ∧
  h_log s = h_log s' ∧ h_calls s = h_calls s' ∧ wm_grows (st_wm s) (st_wm s').

Lemma inv_same s s' : same_pipeline s s' → Inv s → Inv s'.
Proof.
  intros (Hw & Hf & Hq & Hbv & Hl & Hc & Ha & Hwr & Hd & Hn) (S & lw & cur & c & np & k & IW & IV & IF & IM).
  assert (Hpos : (0 < watchers (st_wm s'))%nat → (0 < watchers (st_wm s))%nat) by lia.
  exists S, lw, cur, c, np, k. split_and!.
  - destruct IW as [? ? ? ? ? IA]. split; rewrite <-?Hw, <-?Hl, <-?Ha; try done.
    destruct (w_todo (st_w s)) as [|[] ?]; naive_solver.
  - destruct IV. split; rewrite <-?Hbv, <-?Hc, <-?Hf; done.
  - destruct IF. split; unfold f_over, pending in *; rewrite <-?Hf, <-?Hc, <-?Hq, <-?Hw; done.
  - destruct IM as [? ? IE ? ? ?]. split; rewrite <-?Hwr, <-?Hd, <-?Ha, <-?Hc, <-?Hf; try done.
    intros. by apply IE, Hpos.
Qed.

Lemma drop_watcher_same s s' : drop_watcher s = Some s' → same_pipeline s s'.
Proof.
  unfold drop_watcher. destruct (watchers (st_wm s)) eqn:E; [done|]. intros [= <-].
  repeat split; simpl; lia.
Qed.

Lemma on_channel_same s name f s' : on_channel s name f = Some s' → same_pipeline s s'.
Proof. unfold on_channel. intros ?; case_match; [|done]. case_match; simplify_eq. by repeat split. Qed.

Lemma submit_same s name op s' : submit s name op = Some s' → same_pipeline s s'.
Proof.
  unfold submit. intros H. repeat case_match; try done; simplify_eq.
  all: case_bool_decide; try done; simplify_eq; repeat split; simpl; try lia; naive_solver.
Qed.

Lemma clone_handle_same s name s' : clone_handle s name = Some s' → same_pipeline s s'.
Proof. unfold clone_handle. intros H. repeat case_match; simplify_eq. repeat split; simpl; lia. Qed.

Lemma drop_handle_same s name s' : drop_handle s name = Some s' → same_pipeline s s'.
Proof.
  unfold drop_handle. intros H. repeat case_match; simplify_eq.
  by apply drop_watcher_same in H.
Qed.

(** *** Steps of the write task *)
Definition not_ua (t : list WriteAction) : Prop :=
  match t with DoUpdateApplied _ :: _ => False | _ => True end.

Lemma todo_ok_tail a t : todo_ok (a :: t) → todo_ok t ∧ not_ua t.
Proof. intros (Hu & _ & Ht). split; [done|]. destruct t as [|[] ?]; by inv Hu. Qed.

(** A step that only rearranges what is left to do (or the phase). *)
Lemma inv_retodo s w' :
  Inv s → delta w' = delta (st_w s) → epoch w' = epoch (st_w s) →
  delta_start_epoch w' = delta_start_epoch (st_w s) →
  todo_ok (w_todo w') → not_ua (w_todo w') → not_ua (w_todo (st_w s)) →
  (f_over s = false → sends (w_todo w') = sends (w_todo (st_w s))) →
  Inv (with_w s w').
Proof.
  intros (S & lw & cur & c & np & k & IW & IV & IF & IM) Hd He Hs Hok Hu' Hu Hsends.
  exists S, lw, cur, c, np, k. split_and!.
  - destruct IW as [? ? ? ? ? IA]. split; simpl; try congruence. rewrite He.
    destruct (w_todo (st_w s)) as [|[] ?], (w_todo w') as [|[] ?]; try done; naive_solver.
  - destruct IV. by split.
  - destruct IF as [? IP ? ?]. split; try done.
    intros Hov. rewrite <-IP by done. unfold pending; simpl. by rewrite Hsends.
  - destruct IM. by split.
Qed.

Lemma sends_nil_todo_ok t :
  Forall (λ b, match b with DoUpdateApplied _ => False | _ => True end) t →
  sends t = [] → todo_ok t.
Proof. induction t as [|[| | |[]|] t IH]; simpl; rewrite ?Forall_cons; naive_solver. Qed.

Lemma inv_write_panics s :
  Inv s → not_ua (w_todo (st_w s)) → sends (w_todo (st_w s)) = [] → Inv (write_panics s).
Proof. intros HI Hu Hs. apply inv_retodo; simpl; done. Qed.

Lemma inv_handle_write s w id :
  Inv s → w_todo (st_w s) = [] → blen (h_log (handle_write s w id)) + 1 < 2 ^ 64 →
  Inv (handle_write s w id).
Proof.
  intros HI Ht Hb. pose proof HI as (S & lw & cur & c & np & k & IW & IV & IF & IM).
  unfold handle_write in *. destruct IW as [Hsl Hlog Hd He ? HA]. rewrite Hd in *.
  destruct (apply (replay (init c) cur) w) as [d' r] eqn:Happ.
  assert (Hpanic : Inv (write_panics s)) by (apply inv_write_panics; rewrite ?Ht; done).
  destruct r as [r|e|]; [| |done].
  all: simpl in Hb; rewrite Hlog in Hb; unfold blen in Hb; rewrite !length_app in Hb; simpl in Hb.
  all: pose proof (sealed_epoch _ _ _ _ _ Hsl) as Hse; unfold blen in *.
  all: exists S, lw, (cur ++ [w]), c, np, k; rewrite Ht in HA;
    split_and!; [|by destruct IV|destruct IF; by split; try done; unfold pending in *; simpl; rewrite Ht in *|by destruct IM].
  all: split; simpl; try done;
    [ by rewrite Hlog, <-app_assoc
    | by rewrite replay_snoc, Happ
    | unfold wrap; rewrite Z.mod_small by lia; unfold blen in *; rewrite length_app; simpl; lia
    | repeat split; repeat constructor
    | unfold wrap; rewrite Z.mod_small by lia; split_and!; [lia|by destruct cur|lia|] ].
  all: destruct HA as [HA1 HA2]; intros Hwp; specialize (HA2 Hwp); lia.
Qed.

Lemma inv_seal s rest :
  Inv s → not_ua (w_todo (st_w s)) → todo_ok rest → not_ua rest →
  sends rest = [] → sends (w_todo (st_w s)) = [] →
  Inv (flush_if_delta_has_writes s rest).
Proof.
  intros HI Hu Hok Hur Hsr Hst. unfold flush_if_delta_has_writes.
  case_bool_decide as Heq; [apply inv_retodo; simpl; congruence|].
  pose proof HI as (S & lw & cur & c & np & k & IW & IV & IF & IM).
  destruct IW as [Hsl Hlog Hd He ? HA]. rewrite Hd.
  destruct (freeze (replay (init c) cur)) as [[fr fv] c'] eqn:Hfr.
  unfold freeze_and_init, update_delta_frozen; simpl; rewrite Hfr; simpl. destruct (bv_poisoned (st_bv s)) eqn:Hp.
  { apply (inv_write_panics (with_bv s (st_bv s))); try done. eapply inv_same, HI. by repeat split. }
  set (x := mkSealed fr fv (delta_start_epoch (st_w s), epoch (st_w s))).
  assert (Hcur : cur ≠ []) by (intros ->; unfold blen in He; simpl in He; lia).
  assert (Hsl' : sealed_log c0 (S ++ [x]) (lw ++ cur) c' (epoch (st_w s))).
  { unfold x. rewrite He. by apply sealed_snoc with c. }
  destruct IV as [Hnp Hvc Hvf Hvl Hvs Hvp], IF as [Hk HP HC HH HX], IM as [M1 M2 M3 M4 M5 M6].
  exists (S ++ [x]), (lw ++ cur), [], c', np, k. split_and!.
  - split; simpl; try done; [by rewrite app_nil_r|unfold blen; simpl; lia| |].
    + split_and!; try done. destruct rest as [|a rest]; [constructor|].
      apply Forall_cons; split; [by destruct a|]. apply Hok.
    + by destruct (w_todo (st_w s)) as [|[] ?].
  - split; simpl; try done.
    + rewrite length_app; simpl; lia.
    + rewrite Hvf, drop_app_le, fmap_app, reverse_app by done. done.
    + by rewrite take_app_le.
  - split; simpl; try done.
    + rewrite length_app; simpl; lia.
    + intros Hov. specialize (HP Hov). unfold pending in *. simpl. rewrite Hst, app_nil_r in HP.
      rewrite drop_app_le, fmap_app, <-HP, Hsr, <-app_assoc by lia. done.
    + destruct HC as (extra & HC1 & HC2). exists extra.
      rewrite take_app_le, end_at_app by done. split; [done|].
      destruct (f_pc (st_f s)); try done. destruct HC2 as (y & ? & Hy & Hrest).
      exists y. split; [done|]. split; [|done].
      rewrite lookup_app_l; [done|]. by eapply lookup_lt_Some.
  - split; simpl; try done; rewrite ?end_at_app by done; try done.
    destruct M5 as [|(t1 & t2 & n & ? & ? & ? & ?)]; [by left|right].
    exists t1, t2, n. rewrite end_at_app, take_app_le by lia. done.
Qed.

Lemma inv_write_action s s' : Inv s → write_action s = Some s' → Inv s'.
Proof.
  intros HI. pose proof HI as (S & lw & cur & c & np & k & IW & IV & IF & IM).
  destruct IW as [Hsl Hlog Hd He Hok HA]. unfold write_action. rewrite Hd.
  destruct (w_todo (st_w s)) as [|[e| |fs|ev|] rest] eqn:Ht; [done| | | | |]; intros Hs;
    destruct (todo_ok_tail _ _ Hok) as [Hok' Hu']; destruct Hok as (Hall & Hsends & _); simplify_eq.
  - destruct HA as (-> & Hcur & HA1 & HA2).
    assert (Hwa : ∀ wm, wm = update_applied (st_wm s) (epoch (st_w s) - 1) →
      (wm = st_wm s ∧ watchers (st_wm s) = O) ∨
      wm = mkWatermarks (epoch (st_w s) - 1) (written (st_wm s)) (durable (st_wm s)) (watchers (st_wm s))).
    { intros wm ->. unfold update_applied. destruct (watchers (st_wm s)); auto. }
    specialize (Hwa _ eq_refl). revert Hwa. generalize (update_applied (st_wm s) (epoch (st_w s) - 1)).
    intros wm Hwa. exists S, lw, cur, c, np, k. split_and!.
    + split; simpl; try done. destruct rest as [|[] ?]; try done;
      destruct Hwa as [[-> ?]| ->]; simpl; lia.
    + by destruct IV.
    + destruct IF as [? IP ? ?]. split; try done. intros Hov. rewrite <-IP by done.
      unfold pending; simpl. by rewrite Ht.
    + destruct IM as [? ? ? ? ? ?]. destruct Hwa as [[-> ?]| ->]; split; simpl; try done; lia.
  - apply inv_retodo; simpl; rewrite ?Ht; try done; case_bool_decide; simpl; try done.
  - apply inv_seal; rewrite ?Ht; simpl; try done; destruct fs; simpl; try done.
  - destruct (f_over s) eqn:Hov; [simplify_eq; apply inv_retodo; simpl; rewrite ?Ht; try done; congruence|].
    case_bool_decide; [|done]. simplify_eq. exists S, lw, cur, c, np, k. split_and!.
    + split; simpl; try done. by destruct rest as [|[] ?].
    + by destruct IV.
    + destruct IF as [? IP ? ?]. split; try done. intros _. rewrite <-IP by done.
      unfold pending; simpl. rewrite q_deltas_app, Ht. destruct ev; simpl; by rewrite <-?app_assoc, ?app_nil_r.
    + by destruct IM.
  - eapply inv_same; [|eapply (inv_retodo s (set_phase (set_todo (st_w s) rest) WJoining)); eauto; rewrite ?Ht; done].
    repeat split; done.
Qed.

(** *** Steps of the flush task *)
Definition calm (pc : FlushPc) : Prop :=
  match pc with FIdle _ | FHandle _ _ => True | _ => False end.

(** Moving between idle and an event in hand keeps what is pending. *)
Lemma inv_calm s f q :
  Inv s → calm (f_pc (st_f s)) → last_flushed_epoch f = last_flushed_epoch (st_f s) →
  match f_pc f with
  | FDurable _ => ∃ t1, h_calls s = t1 ++ [CallStorage (Ok tt)]
  | pc => calm pc
  end →
  in_hand (f_pc f) ++ q_deltas q = in_hand (f_pc (st_f s)) ++ q_deltas (st_q s) →
  Inv (with_f s f q).
Proof.
  intros (S & lw & cur & c & np & k & IW & IV & IF & IM) Hc Hl Hc' Hp.
  exists S, lw, cur, c, np, k. split_and!.
  - by destruct IW.
  - destruct IV as [? ? ? ? ? HP]. split; try done. simpl. intros H. specialize (HP H).
    by rewrite HP in Hc.
  - destruct IF as [? IP IC IH IX].
    assert (f_over s = false) as Hov by (unfold f_over; by destruct (f_pc (st_f s))).
    split; try done; simpl.
    + intros _. rewrite <-IP by done. unfold pending; simpl. by rewrite !app_assoc, Hp.
    + destruct IC as (extra & ? & HC). exists extra. rewrite Hl.
      destruct (f_pc (st_f s)), (f_pc f); done.
    + intros _ Hnf. specialize (IH Hov Hnf). destruct (f_pc (st_f s)), (f_pc f); done.
    + intros Hf. by rewrite Hf in Hc'.
  - destruct IM as [? ? IE ? ? IDP]. split; try done; simpl.
    + intros Hw. specialize (IE Hw). destruct (f_pc (st_f s)), (f_pc f); done.
    + intros m Hm. by rewrite Hm in Hc'.
Qed.

Lemma inv_not_poisoned s : Inv s → f_pc (st_f s) ≠ FPanicked → bv_poisoned (st_bv s) = false.
Proof.
  intros (? & ? & ? & ? & ? & ? & _ & [_ _ _ _ _ HP] & _) Hpc.
  destruct (bv_poisoned (st_bv s)); [by specialize (HP eq_refl)|done].
Qed.

(** The flush task ends: only what it has published matters from here on. *)
Lemma inv_over s f :
  Inv s → (∀ m, f_pc (st_f s) ≠ FWritten m) →
  match f_pc f with
  | FDone _ => calm (f_pc (st_f s)) ∧ last_flushed_epoch f = last_flushed_epoch (st_f s)
  | FPanicked => flusher_panicked (h_calls s) ∨ ¬ no_failed (h_calls s)
  | _ => False
  end → Inv (with_f s f []).
Proof.
  intros HI Hnw Hpc. pose proof (inv_not_poisoned s HI) as Hpo.
  destruct HI as (S & lw & cur & c & np & k & IW & IV & IF & IM).
  assert (Hov : f_over (with_f s f []) = true) by (unfold f_over; simpl; by destruct (f_pc f)).
  exists S, lw, cur, c, np, k. split_and!.
  - by destruct IW.
  - destruct IV as [? ? ? ? ? HP]. split; try done. simpl. intros Hp.
    destruct (f_pc f); try done. destruct Hpc as [Hc _]. by rewrite (HP Hp) in Hc.
  - destruct IF as [? _ (extra & ? & HE) _ _]. split; try done; rewrite ?Hov; try done; simpl.
    + exists extra. split; [done|]. destruct (f_pc f); try done. destruct Hpc as [Hc ->].
      by destruct (f_pc (st_f s)).
    + by intros Hf; rewrite Hf in Hpc.
  - destruct IM as [? ? IE ? ? IDP]. split; try done; simpl.
    + intros Hw. specialize (IE Hw). destruct (f_pc f); try done;
        destruct (f_pc (st_f s)); naive_solver.
    + intros m Hm. by rewrite Hm in Hpc.
Qed.

Lemma no_failed_app cs ds : no_failed (cs ++ ds) ↔ no_failed cs ∧ no_failed ds.
Proof. apply Forall_app. Qed.

(** A call that did not write a delta. *)
Lemma inv_call s x :
  Inv s → succs [x] = [] → (∀ m, f_pc (st_f s) ≠ FDurable m) → Inv (log_call s x).
Proof.
  intros (S & lw & cur & c & np & k & IW & IV & IF & IM) Hx Hnd.
  assert (Hsc : succs (h_calls s ++ [x]) = succs (h_calls s))
    by (by rewrite succs_app, Hx, app_nil_r).
  exists S, lw, cur, c, np, k. split_and!.
  - by destruct IW.
  - destruct IV. split; try done. simpl. by rewrite Hsc.
  - destruct IF as [? ? ? IH IX]. split; try done; simpl; rewrite ?Hsc; try done.
    + intros ? [? ?]%no_failed_app. by apply IH.
    + intros Hp. rewrite no_failed_app. destruct (IX Hp) as [H|H]; [left|right; tauto].
      by apply Exists_app; left.
  - destruct IM as [? ? ? ? ID ?]. split; try done; simpl.
    + destruct ID as [|(t1 & t2 & n & -> & ?)]; [by left|right].
      exists t1, (t2 ++ [x]), n. by rewrite <-app_assoc.
    + naive_solver.
Qed.

Lemma inv_bounds s S lw cur c :
  InvW s S lw cur c → 1 ≤ delta_start_epoch (st_w s) ≤ epoch (st_w s) ∧
  epoch (st_w s) = 1 + blen (h_log s) ∧ end_at S (length S) = delta_start_epoch (st_w s).
Proof.
  intros [Hsl Hlog ? He]. pose proof (sealed_epoch _ _ _ _ _ Hsl).
  rewrite (sealed_end _ _ _ _ _ Hsl), Hlog. unfold blen in *. rewrite length_app. lia.
Qed.

Lemma drop_lookup_cons {A B} (f : A → B) (l : list A) k y ys :
  y :: ys = f <$> drop k l → ∃ x, l !! k = Some x ∧ y = f x ∧ ys = f <$> drop (S k) l.
Proof.
  intros H. destruct (drop k l) as [|x l'] eqn:E; [done|]. simpl in H. simplify_eq.
  exists x. split_and!; try done.
  - by rewrite <-(Nat.add_0_r k), <-lookup_drop, E.
  - rewrite <-Nat.add_1_r, <-drop_drop, E. done.
Qed.

(** The flusher wrote the delta in hand. *)
Lemma inv_flushed s m x snap fl :
  Inv s → blen (h_log s) + 1 < 2 ^ 64 → f_pc (st_f s) = FHandle m (FlushDelta x) →
  Inv (with_f (log_call s (CallDelta x (Ok snap)))
         (mkFlushTask (FPublish m snap (epoch_range x)) (wrap 64 ((epoch_range x).2 - 1)) fl)
         (st_q s)).
Proof.
  intros (S & lw & cur & c & np & k & IW & IV & IF & IM) Hb Hpc.
  assert (Hov : f_over s = false) by (unfold f_over; by rewrite Hpc).
  destruct (inv_bounds _ _ _ _ _ IW) as (Hd & He & Hend).
  destruct IF as [Hk IP (extra & HC & HE) IH _]. specialize (IP Hov). rewrite Hpc in *.
  destruct HE as [-> Hl]. rewrite app_nil_r in HC.
  unfold pending in IP. rewrite Hpc in IP. simpl in IP.
  apply drop_lookup_cons in IP as (y & Hy & -> & Hys).
  pose proof (lookup_lt_Some _ _ _ Hy) as Hlt.
  destruct IW as [Hsl ? ? ? ? ?].
  destruct (sealed_range _ _ _ _ _ _ _ Hsl Hy) as (R1 & R2 & R3).
  pose proof (sealed_end_pos _ _ _ _ _ k Hsl ltac:(lia)).
  pose proof (sealed_end_le _ _ _ _ _ (Datatypes.S k) (length S) Hsl ltac:(lia)).
  assert (Hlen : length (succs (h_calls s)).*2 = np).
  { apply (f_equal length) in HC. rewrite !length_fmap, length_take in *. lia. }
  exists S, lw, cur, c, np, (Datatypes.S k). split_and!.
  - by split.
  - destruct IV as [? ? ? ? HS HP]. split; try done; simpl.
    + rewrite succs_app, fmap_app; simpl. by rewrite take_app_le by lia.
    + intros Hpo. specialize (HP Hpo). congruence.
  - split; simpl; try done.
    + lia.
    + exists [stampf y]. rewrite succs_app, fmap_app, HC; simpl. split; [done|].
      exists y. rewrite Nat.sub_0_r, fmap_app; simpl; rewrite last_snoc. split_and!; try done; [lia|].
      unfold wrap. rewrite Z.mod_small; simpl; [done|]. lia.
    + intros _ [Hnf _]%no_failed_app. by rewrite (IH Hov Hnf).
  - destruct IM as [? ? IE ? ID ?]. split; try done; simpl.
    + rewrite Hpc in IE. done.
    + destruct ID as [|(t1 & t2 & n & -> & ?)]; [by left|right].
      eexists t1, (t2 ++ [_]), n. by rewrite <-app_assoc.
Qed.

(** A failed flush in the drain loop: the batch is skipped. *)
Lemma inv_skipped s x e fl :
  Inv s → f_pc (st_f s) = FHandle MDrain (FlushDelta x) →
  Inv (with_f (log_call s (CallDelta x (Err e)))
         (mkFlushTask (FIdle MDrain) (last_flushed_epoch (st_f s)) fl) (st_q s)).
Proof.
  intros HI Hpc.
  assert (HI' : Inv (log_call s (CallDelta x (Err e)))) by (apply inv_call; rewrite ?Hpc; done).
  destruct HI' as (S & lw & cur & c & np & k & IW & IV & IF & IM).
  assert (Hov : f_over s = false) by (unfold f_over; by rewrite Hpc).
  destruct IF as [Hk IP (extra & HC & HE) IH _]. specialize (IP Hov). simpl in *. rewrite Hpc in *.
  unfold pending in IP. simpl in IP. rewrite Hpc in IP. simpl in IP.
  apply drop_lookup_cons in IP as (y & Hy & -> & Hys).
  pose proof (lookup_lt_Some _ _ _ Hy) as Hlt.
  exists S, lw, cur, c, np, (Datatypes.S k). split_and!.
  - by destruct IW.
  - destruct IV as [? ? ? ? ? HP]. split; try done; simpl in *. intros Hp. specialize (HP Hp). congruence.
  - split; try done; simpl; [lia|by exists extra|].
    intros _ [_ Hnf]%no_failed_app. by inv Hnf.
  - destruct IM as [? ? IE ? ID ?]. simpl in *. rewrite Hpc in IE. by split.
Qed.

Lemma last_reverse_cons {A} (x : A) l : last (reverse (x :: l)) = Some x.
Proof. by rewrite reverse_cons, last_snoc. Qed.
Lemma removelast_reverse_cons {A} (x : A) l : removelast (reverse (x :: l)) = reverse l.
Proof. by rewrite reverse_cons, removelast_last. Qed.

Lemma inv_poison s :
  Inv s → f_pc (st_f s) = FPanicked →
  Inv (with_bv s (mkBroadcasted (bv_view (st_bv s)) (bv_sent (st_bv s)) true)).
Proof.
  intros (S & lw & cur & c & np & k & IW & IV & IF & IM) Hpc.
  exists S, lw, cur, c, np, k. split_and!; by destruct IW, IV, IF, IM.
Qed.

(** The view takes over the oldest frozen delta, or the assertion fails. *)
Lemma inv_publish s m snap r s' :
  Inv s → f_pc (st_f s) = FPublish m snap r → flush_work s = Some s' → Inv s'.
Proof.
  intros HI Hpc. pose proof HI as (S & lw & cur & c & np & k & IW & IV & IF & IM).
  assert (Hov : f_over s = false) by (unfold f_over; by rewrite Hpc).
  destruct IV as [Hnp Hvc Hvf Hvl Hvs Hvp], IF as [Hk IP (extra & HC & HE) IH _].
  specialize (IP Hov). rewrite Hpc in *. destruct HE as (x & Hlt & Hx & -> & <- & Hls & Hlf).
  destruct (bv_poisoned (st_bv s)) eqn:Hp; [by specialize (Hvp eq_refl)|].
  destruct (lookup_lt_is_Some_2 S np) as [y Hy]; [lia|].
  assert (Hdr : drop np S = y :: drop (Datatypes.S np) S) by (by apply drop_S).
  unfold flush_work, update_flush_finished. rewrite Hpc, Hp, Hvf, Hdr, fmap_cons.
  rewrite last_reverse_cons, removelast_reverse_cons. simpl.
  case_bool_decide as Hr; intros [= <-].
  - pose proof (iw_sealed _ _ _ _ _ IW) as Hsl.
    pose proof (sealed_range_inj _ _ _ _ _ _ _ _ _ Hsl Hy Hx Hr) as Hkn.
    assert (k = Datatypes.S np) as -> by lia. rewrite <-Hkn in Hx. assert (x = y) as -> by congruence.
    destruct (sealed_range _ _ _ _ _ _ _ Hsl Hy) as (R1 & R2 & R3).
    assert (Htk : take (Datatypes.S np) S = take np S ++ [y]) by (by apply take_S_r).
    assert (Hlen : length (succs (h_calls s)).*2 = Datatypes.S np).
    { apply (f_equal length) in HC. rewrite length_app, !length_fmap, length_take in *.
      simpl in HC. lia. }
    exists S, lw, cur, c, (Datatypes.S np), (Datatypes.S np). split_and!.
    + by destruct IW.
    + split; simpl; try done; try lia.
      * by rewrite Htk, fmap_app; simpl; rewrite last_snoc.
      * by rewrite take_ge, Hls by lia.
      * by rewrite Hp.
    + split; simpl; try done; try lia.
      * intros _. unfold pending in *. simpl. by rewrite Hpc in IP.
      * exists []. rewrite app_nil_r, HC, Htk, fmap_app. split_and!; try done. by rewrite <-R3.
    + destruct IM as [? M2 M3 ? ID ?]. split; simpl; try done; [lia|].
      destruct ID as [|(t1 & t2 & n & ? & ? & ? & ?)]; [by left|right].
      exists t1, t2, n. split_and!; try done. lia.
  - apply (inv_poison (with_f s (set_pc (st_f s) FPanicked) [])); [|done].
    apply inv_over; simpl; [done|by rewrite Hpc|]. right. intros Hnf.
    assert (k = Datatypes.S np) as -> by (by apply IH).
    rewrite Nat.sub_succ, Nat.sub_0_r in Hx. by simplify_eq.
Qed.

Lemma update_written_cases wm e :
  (update_written wm e = wm ∧ watchers wm = O) ∨
  ((0 < watchers wm)%nat ∧ update_written wm e = mkWatermarks (applied wm) e (durable wm) (watchers wm)).
Proof. unfold update_written. destruct (watchers wm); [by left|right; split; [lia|done]]. Qed.

Lemma update_durable_cases wm e :
  (update_durable wm e = wm ∧ watchers wm = O) ∨
  ((0 < watchers wm)%nat ∧ update_durable wm e = mkWatermarks (applied wm) (written wm) e (watchers wm)).
Proof. unfold update_durable. destruct (watchers wm); [by left|right; split; [lia|done]]. Qed.

Lemma inv_frozen_applied s S lw cur c :
  InvW s S lw cur c → (0 < watchers (st_wm s))%nat →
  delta_start_epoch (st_w s) - 1 ≤ applied (st_wm s).
Proof.
  intros IW Hw. destruct (inv_bounds _ _ _ _ _ IW) as (? & _ & _). destruct IW as [_ _ _ _ _ HA].
  destruct (w_todo (st_w s)) as [|[] ?]; destruct HA as (? & HA);
    try (specialize (HA Hw); lia). destruct HA as (_ & _ & HA). auto.
Qed.

(** Back to the loop with new written or durable marks. *)
Lemma inv_remark s m wm S lw cur c np k :
  InvW s S lw cur c → InvV s S c np → InvF s S np k →
  f_pc (st_f s) = FWritten m ∨ f_pc (st_f s) = FDurable m →
  applied wm = applied (st_wm s) → watchers wm = watchers (st_wm s) →
  let s' := with_f (with_wm s wm) (set_pc (st_f s) (FIdle m)) (st_q s) in
  InvM s' S np → Inv s'.
Proof.
  intros IW IV IF Hpc Ha Hw s' IM.
  assert (Hov : f_over s = false) by (unfold f_over; by destruct Hpc as [-> | ->]).
  exists S, lw, cur, c, np, k. split_and!; [| | |done].
  - destruct IW as [? ? ? ? ? HA]. split; simpl; try done. by rewrite Ha, Hw.
  - destruct IV as [? ? ? ? ? HP]. split; simpl; try done. intros Hp. specialize (HP Hp).
    destruct Hpc; congruence.
  - destruct IF as [Hk IP (extra & HC & HE) IH _]. split; simpl; try done.
    + intros _. rewrite <-IP by done. unfold pending; simpl. by destruct Hpc as [-> | ->].
    + exists extra. split; [done|]. by destruct Hpc as [E|E]; rewrite E in HE.
    + intros _ Hnf. rewrite (IH Hov Hnf). by destruct Hpc as [-> | ->].
Qed.

Lemma inv_mark s m s' :
  Inv s → f_pc (st_f s) = FWritten m ∨ f_pc (st_f s) = FDurable m →
  flush_work s = Some s' → Inv s'.
Proof.
  intros (S & lw & cur & c & np & k & IW & IV & IF & IM) Hpc Hs.
  destruct (if_calls _ _ _ _ IF) as (extra & HC & HE).
  assert (extra = [] ∧ last_flushed_epoch (st_f s) = end_at S np - 1) as [-> Hl]
    by (destruct Hpc as [E|E]; by rewrite E in HE).
  rewrite app_nil_r in HC.
  destruct (inv_bounds _ _ _ _ _ IW) as (Hb1 & _ & Hend).
  pose proof (inv_frozen_applied _ _ _ _ _ IW) as Hfa. pose proof (if_k _ _ _ _ IF) as Hk.
  pose proof (sealed_end_le _ _ _ _ _ np (length S) (iw_sealed _ _ _ _ _ IW) ltac:(lia)) as Hle.
  destruct IM as [M1 M2 M3 M4 M5 M6].
  unfold flush_work in Hs. destruct Hpc as [E|E]; rewrite E in Hs, M3; simplify_eq; rewrite Hl.
  - destruct (update_written_cases (st_wm s) (end_at S np - 1)) as [[-> Hz]|[Hz ->]];
      (eapply inv_remark; eauto; split; simpl; try done; try lia).
  - destruct (M6 m E) as (t1 & Ht1).
    assert (Hst : (succs t1).*1 = (succs (h_calls s)).*1)
      by (by rewrite Ht1, succs_app, app_nil_r).
    destruct (update_durable_cases (st_wm s) (end_at S np - 1)) as [[-> Hz]|[Hz ->]];
      (eapply inv_remark; eauto; split; simpl; try done; try lia).
    right. exists t1, [], np. split_and!; try done. by rewrite Hst, HC.
Qed.

Lemma inv_flush_work s s' :
  Inv s → blen (h_log s) + 1 < 2 ^ 64 → flush_work s = Some s' → Inv s'.
Proof.
  intros HI Hb Hs. destruct (f_pc (st_f s)) as [m|m [x|]|m snap r|m|m|r|] eqn:Hpc.
  all: try (eapply inv_publish; eauto; fail).
  all: try (eapply inv_mark; eauto; fail).
  all: unfold flush_work in Hs; rewrite Hpc in Hs; try done.
  - destruct (flush_delta _ _ _) as [fl [snap|e|]]; simplify_eq.
    + by apply (inv_flushed s).
    + destruct m; [|by apply (inv_skipped s)].
      apply (inv_over (log_call s _)); [apply inv_call|simpl|]; simpl; rewrite ?Hpc; done.
    + apply (inv_over (log_call s _)); [apply inv_call; rewrite ?Hpc|simpl; rewrite Hpc|]; try done.
      left. apply Exists_app. right. by constructor.
  - destruct (flush_storage _) as [fl [u|e|]]; simplify_eq.
    + destruct u. apply (inv_calm (log_call s (CallStorage (Ok tt)))); simpl; rewrite ?Hpc; try done;
        [apply inv_call; rewrite ?Hpc; done|eauto].
    + destruct m; [apply (inv_over (log_call s _)); [apply inv_call|simpl|]; simpl; rewrite ?Hpc; done|].
      apply (inv_calm (log_call s (CallStorage (Err e)))); simpl; rewrite ?Hpc; try done.
      apply inv_call; rewrite ?Hpc; done.
    + apply (inv_over (log_call s _)); [apply inv_call; rewrite ?Hpc|simpl; rewrite Hpc|]; try done.
      left. apply Exists_app. right. by constructor.
Qed.

Lemma w_ready_todo s : w_ready s = true → w_todo (st_w s) = [].
Proof. unfold w_ready. by destruct (w_phase (st_w s)), (w_todo (st_w s)). Qed.

Lemma inv_receive s name s' :
  Inv s → w_todo (st_w s) = [] → blen (h_log s') + 1 < 2 ^ 64 →
  receive s name = Some s' → Inv s'.
Proof.
  intros HI Ht Hb. unfold receive. destruct (st_ch s !! name) as [ch|]; [|done].
  destruct (recv_take ch) as [[[cmd|] ch']|]; [| |done]; intros [= <-];
    set (s1 := with_ch s (<[name:=ch']> (st_ch s))) in *;
    assert (HI1 : Inv s1) by (eapply inv_same, HI; by repeat split); [|done].
  destruct cmd as [w id|id fs]; [by apply inv_handle_write|].
  unfold handle_command.
  match goal with |- Inv (with_w ?s2 _) => assert (Inv s2) as HI2 by (eapply inv_same, HI1; by repeat split) end.
  apply inv_retodo; simpl; rewrite ?Ht; done.
Qed.

Lemma inv_phase s p : Inv s → Inv (with_w s (set_phase (st_w s) p)).
Proof.
  intros (S & lw & cur & c & np & k & IW & IV & IF & IM).
  exists S, lw, cur, c, np, k. split_and!; by destruct IW, IV, IF, IM.
Qed.

Lemma inv_join s s' : Inv s → join_flush_task s = Some s' → Inv s'.
Proof.
  intros HI. unfold join_flush_task. intros Hs.
  repeat case_match; simplify_eq; by apply inv_phase.
Qed.

(** The tasks run only after [start]. *)
Definition unstarted (s : State) : Prop :=
  st_started s = false → w_over s = false →
  f_pc (st_f s) = FIdle MLoop ∧ w_todo (st_w s) = [].

Lemma started_mono s l s' : st_started s = true → step s l = Some s' → st_started s' = true.
Proof.
  intros E Hs. destruct l; simpl in Hs; unfold stop, start in Hs; rewrite ?E in Hs;
    step_cases.
Qed.

Lemma unstarted_step s l s' : unstarted s → step s l = Some s' → unstarted s'.
Proof.
  unfold unstarted. intros HU Hs Hst Hov. destruct (st_started s) eqn:E.
  { by rewrite (started_mono _ _ _ E Hs) in Hst. }
  specialize (HU eq_refl).
  destruct l; simpl in Hs; unfold stop, start, w_ready, w_over in *; rewrite ?E in Hs;
    simpl in Hs; step_cases; naive_solver.
Qed.

Lemma inv_shut_down s : Inv s → w_todo (st_w s) = [] → Inv (shut_down s).
Proof. intros HI Ht. apply inv_retodo; simpl; rewrite ?Ht; try done. repeat constructor. Qed.

(** Taking an event from the channel, or leaving a loop. *)
Lemma inv_flush_take s s' (take : State → option State) :
  take = flush_recv ∨ take = flush_stop ∨ take = flush_drain →
  Inv s → take s = Some s' → Inv s'.
Proof.
  intros Ht HI Hs.
  destruct Ht as [-> |[-> | ->]]; unfold flush_recv, flush_stop, flush_drain in Hs.
  all: destruct (f_pc (st_f s)) as [[]| | | | | |] eqn:Hpc; try done.
  all: destruct (st_q s) as [|ev q] eqn:Hq; repeat case_match; simplify_eq.
  all: try (by apply inv_over; simpl; rewrite ?Hpc; auto).
  all: apply inv_calm; simpl; rewrite ?Hpc, ?Hq; try done; by destruct ev.
Qed.

Lemma flush_work_log s s' : flush_work s = Some s' → h_log s' = h_log s.
Proof. intros Hs. step_cases. Qed.

(** Every step of either task, of a handle or of the coordinator keeps [Inv]. *)
Lemma inv_step s l s' :
  Inv s → unstarted s → blen (h_log s') + 1 < 2 ^ 64 → step s l = Some s' → Inv s'.
Proof.
  intros HI HU Hb Hs.
  destruct l; simpl in Hs; unfold guard_ in Hs;
    try (destruct (w_ready s) eqn:Hr; [|done]; simpl in Hs; apply w_ready_todo in Hr).
  - simplify_eq. destruct (w_over s); [done|]. eapply inv_same, HI; by repeat split.
  - destruct (w_over s) eqn:Hov; [done|]. simpl in Hs. simplify_eq. unfold stop in *.
    destruct (st_started s) eqn:E; [eapply inv_same, HI; by repeat split|].
    destruct (HU E Hov) as [Hpc _].
    apply (inv_over (with_w s (set_phase (st_w s) (WDone (Ok tt))))); simpl; rewrite ?Hpc;
      [by apply inv_phase|done|done].
  - eapply inv_same, HI. by eapply submit_same.
  - eapply inv_same, HI. by eapply clone_handle_same.
  - eapply inv_same, HI. by eapply drop_handle_same.
  - eapply inv_same, HI. by eapply drop_watcher_same.
  - eapply inv_same, HI. by eapply on_channel_same.
  - eapply inv_same, HI. by eapply on_channel_same.
  - eapply inv_same, HI. by eapply on_channel_same.
  - eapply inv_same, HI. by eapply on_channel_same.
  - by eapply inv_receive.
  - simplify_eq. apply inv_retodo; simpl; rewrite ?Hr; try done.
  - destruct (st_stop s); simplify_eq. by apply inv_shut_down.
  - destruct (all_ended s); simplify_eq. by apply inv_shut_down.
  - destruct (st_started s); [|done]. by eapply inv_write_action.
  - by eapply inv_join.
  - destruct (st_started s); [|done]. by eapply inv_flush_take, Hs; eauto.
  - destruct (st_started s); [|done]. by eapply inv_flush_take, Hs; eauto.
  - destruct (st_started s); [|done]. by eapply inv_flush_take, Hs; eauto.
  - destruct (st_started s); [|done]. eapply inv_flush_work; eauto.
    by rewrite <-(flush_work_log _ _ Hs).
Qed.

(** ** Shutdown *)
Definition quiet (s : State) : bool :=
  match w_phase (st_w s) with WRunning | WStopping => false | _ => true end.

Definition draining (pc : FlushPc) : bool :=
  match pc with
  | FIdle MDrain | FHandle MDrain _ | FPublish MDrain _ _ | FWritten MDrain | FDurable MDrain
  | FDone (Ok _) => true
  | _ => false
  end.

(** What is left to do in each phase of the write task. *)
Definition phase_ok (w : WriteCoordinatorTask) : Prop :=
  match w_phase w with
  | WRunning => DoCancelFlush ∉ w_todo w
  | WStopping =>
      w_todo w = [DoFlush false; DoCancelFlush] ∨
      (delta_start_epoch w = epoch w ∧
       (w_todo w = [DoCancelFlush] ∨ ∃ x, w_todo w = [DoSend (FlushDelta x); DoCancelFlush]))
  | WJoining => w_todo w = [] ∧ delta_start_epoch w = epoch w
  | WDone _ | WPanicked => w_todo w = []
  end.

Record Down (s : State) : Prop := {
  dn_phase : phase_ok (st_w s);
  dn_fstop : st_fstop s = true → quiet s = true;
  dn_drain : draining (f_pc (st_f s)) = true → quiet s = true;
  dn_flushed : f_pc (st_f s) = FDone (Ok tt) → st_started s = true → no_failed (h_calls s) →
    last_flushed_epoch (st_f s) = delta_start_epoch (st_w s) - 1;
  dn_result : w_phase (st_w s) = WDone (Ok tt) → st_started s = true →
    f_pc (st_f s) = FDone (Ok tt) ∧ delta_start_epoch (st_w s) = epoch (st_w s);
}.

(** Steps that do not move the tasks, and neither start nor stop them. *)
Lemma down_same s s' :
  st_w s' = st_w s → st_f s' = st_f s → h_calls s' = h_calls s →
  st_fstop s' = st_fstop s → (st_started s' = true → st_started s = true ∨ w_over s = false ∧ f_over s = false) →
  Down s → Down s'.
Proof.
  intros Hw Hf Hc Hfs Hst [D1 D2 D3 D4 D5]. unfold quiet, w_over, f_over in *.
  split; unfold quiet; rewrite ?Hw, ?Hf, ?Hc, ?Hfs; try done.
  - intros Hpc Hs. destruct (Hst Hs) as [?|[_ Ho]]; [auto|by rewrite Hpc in Ho].
  - intros Hph Hs. destruct (Hst Hs) as [?|[Ho _]]; [auto|by rewrite Hph in Ho].
Qed.

Lemma down_write s w' s' :
  Down s → quiet s = false → st_w s' = w' → st_f s' = st_f s → h_calls s' = h_calls s →
  phase_ok w' → (w_phase w' = w_phase (st_w s) ∧ st_fstop s' = st_fstop s ∨
                 w_phase w' = WPanicked ∨ w_phase w' = WStopping ∧ st_fstop s' = st_fstop s ∨
                 w_phase w' = WJoining) →
  Down s'.
Proof.
  intros [D1 D2 D3 D4 D5] Hq Hw Hf Hc Hok Hph.
  assert (Hnf : st_fstop s = false) by (destruct (st_fstop s); [by rewrite D2 in Hq|done]).
  assert (Hnd : draining (f_pc (st_f s)) = false)
    by (destruct (draining _); [by rewrite D3 in Hq|done]).
  unfold quiet in *. split; unfold quiet; rewrite ?Hw, ?Hf; try done.
  - intros Hfs. destruct Hph as [[-> H]|[-> |[[-> H]| ->]]]; try done; congruence.
  - congruence.
  - intros Hpc. by rewrite Hpc in Hnd.
  - intros Hd. exfalso. rewrite Hd in Hph.
    destruct Hph as [[H _]|[H|[[H _]|H]]]; try done. by rewrite <-H in Hq.
Qed.

Lemma elem_cancel_tail a t : DoCancelFlush ∉ (a :: t) → DoCancelFlush ∉ t ∧ a ≠ DoCancelFlush.
Proof. rewrite elem_of_cons. naive_solver. Qed.

Lemma down_write_action s s' : Down s → write_action s = Some s' → Down s'.
Proof.
  intros HD. destruct (w_todo (st_w s)) as [|a rest] eqn:Ht.
  { unfold write_action. by rewrite Ht. }
  pose proof (dn_phase _ HD) as HP. unfold phase_ok in HP. rewrite Ht in HP.
  assert (Hq : quiet s = false) by (unfold quiet; destruct (w_phase (st_w s)); naive_solver).
  unfold write_action. rewrite Ht. intros Hs.
  assert (w_phase (st_w s) = WRunning ∨ w_phase (st_w s) = WStopping) as [Hph|Hph]
    by (unfold quiet in Hq; destruct (w_phase (st_w s)); try done; auto); rewrite Hph in HP.
  - apply elem_cancel_tail in HP as [HP Ha].
    unfold handle_flush, flush_if_delta_has_writes in Hs.
    destruct a; repeat case_match; simplify_eq; try done;
      (eapply down_write; [done|done|done|done|done|unfold phase_ok; simpl; rewrite ?Hph|simpl; auto]); try done.
    all: rewrite ?elem_of_cons, ?elem_of_app, ?elem_of_cons; try naive_solver.
  - unfold handle_flush, flush_if_delta_has_writes in Hs. simpl in Hs.
    destruct HP as [HP|[Hd [HP|[x HP]]]]; injection HP as HP1 HP2; subst a rest; simpl in Hs.
    all: repeat (case_match; simplify_eq/=); simplify_eq; try done;
      (eapply down_write; [done|done|done|done|done|unfold phase_ok; simpl; rewrite ?Hph|simpl; auto]); try done.
    all: rewrite ?bool_decide_eq_true in *; naive_solver.
Qed.

Lemma down_flush s s' :
  Down s → st_w s' = st_w s → st_fstop s' = st_fstop s → st_started s' = st_started s →
  f_over s = false →
  (draining (f_pc (st_f s')) = true → draining (f_pc (st_f s)) = true ∨ quiet s = true) →
  (f_pc (st_f s') = FDone (Ok tt) → no_failed (h_calls s') →
   last_flushed_epoch (st_f s') = delta_start_epoch (st_w s) - 1) →
  Down s'.
Proof.
  intros [D1 D2 D3 D4 D5] Hw Hfs Hst Hov Hdr Hl.
  split; unfold quiet in *; rewrite ?Hw, ?Hfs, ?Hst; try done.
  - naive_solver.
  - intros. by apply Hl.
  - intros Hd Hs. destruct (D5 Hd Hs) as [Hpc _]. unfold f_over in Hov. by rewrite Hpc in Hov.
Qed.

(** The drain loop ends with everything written, unless a flush failed. *)
Lemma inv_drained s m :
  Inv s → f_pc (st_f s) = FIdle m → st_q s = [] → sends (w_todo (st_w s)) = [] →
  no_failed (h_calls s) → last_flushed_epoch (st_f s) = delta_start_epoch (st_w s) - 1.
Proof.
  intros (S & lw & cur & c & np & k & IW & IV & IF & IM) Hpc Hq Hs Hnf.
  assert (Hov : f_over s = false) by (unfold f_over; by rewrite Hpc).
  destruct (inv_bounds _ _ _ _ _ IW) as (_ & _ & <-).
  destruct IF as [Hk IP (extra & HC & HE) IH _]. specialize (IP Hov). specialize (IH Hov Hnf).
  unfold pending in IP. rewrite Hpc, Hq, Hs in *. simpl in *. destruct HE as [_ ->].
  symmetry in IP. apply fmap_nil_inv in IP. apply (f_equal length) in IP.
  rewrite length_drop in IP. simpl in IP. f_equal. f_equal. lia.
Qed.

Lemma down_flush_take s s' (take : State → option State) :
  take = flush_recv ∨ take = flush_stop ∨ take = flush_drain →
  Inv s → Down s → take s = Some s' → Down s'.
Proof.
  intros Ht HI HD Hs.
  assert (Hq : w_over s = true ∨ st_fstop s = true → quiet s = true).
  { intros [H|H]; [|by apply (dn_fstop _ HD)]. unfold w_over, quiet in *. by destruct (w_phase (st_w s)). }
  destruct Ht as [-> |[-> | ->]]; unfold flush_recv, flush_stop, flush_drain in Hs.
  all: destruct (f_pc (st_f s)) as [[]| | | | | |] eqn:Hpc; try done.
  all: destruct (st_q s) as [|ev q] eqn:Hsq; repeat case_match; simplify_eq.
  all: eapply (down_flush s); try done; unfold f_over; simpl; rewrite ?Hpc; auto; try done.
  intros _ Hnf. simpl in *. eapply inv_drained; eauto.
  assert (Hqt : quiet s = true) by (apply (dn_drain _ HD); by rewrite Hpc).
  pose proof (dn_phase _ HD) as HP. unfold phase_ok, quiet in *.
  destruct (w_phase (st_w s)); try done; [destruct HP as [-> _]| rewrite HP | rewrite HP]; done.
Qed.

Lemma down_flush_work s s' : Down s → flush_work s = Some s' → Down s'.
Proof.
  intros HD Hs. unfold flush_work in Hs.
  destruct (f_pc (st_f s)) as [m|[] [x|]|[] snap r|[]|[]|r|] eqn:Hpc; try done.
  all: repeat case_match; simplify_eq/=.
  all: eapply (down_flush s); try done; unfold f_over; simpl; rewrite ?Hpc; auto.
Qed.

Lemma down_step s l s' : Inv s → unstarted s → Down s → step s l = Some s' → Down s'.
Proof.
  intros HI HU HD Hs.
  destruct l; simpl in Hs; unfold guard_ in Hs;
    try (destruct (w_ready s) eqn:Hr; [|done]; simpl in Hs;
         assert (Hq : quiet s = false) by (unfold w_ready, quiet in *; by destruct (w_phase (st_w s)));
         assert (Hph : w_phase (st_w s) = WRunning)
           by (unfold w_ready in Hr; by destruct (w_phase (st_w s)));
         apply w_ready_todo in Hr).
  all: try (destruct (st_started s) eqn:Est; [|done]).
  all: try (eapply down_flush_take; [|done|done|exact Hs]; auto; fail).
  all: try (eapply down_flush_work; eauto; fail).
  all: try (eapply down_write_action; eauto; fail).
  all: try (match type of Hs with
            | submit _ _ _ = _ => idtac | on_channel _ _ _ = _ => idtac
            | clone_handle _ _ = _ => idtac | drop_handle _ _ = _ => idtac
            | drop_watcher _ = _ => idtac end;
            apply (down_same s); [..|done]; unfold submit, on_channel, clone_handle, drop_handle, drop_watcher in Hs;
            repeat (case_match; simplify_eq/=); auto; fail).
  - simplify_eq. destruct (w_over s) eqn:Hov; [done|].
    apply (down_same s); try done. intros _. destruct (st_started s) eqn:E; [by left|right].
    destruct (HU E Hov) as [Hpc _]. unfold f_over. by rewrite Hpc.
  - destruct (w_over s) eqn:Hov; [done|]. simpl in Hs. simplify_eq. unfold stop.
    destruct (st_started s) eqn:E; [apply (down_same s); try done; auto|].
    destruct (HU E Hov) as [Hpc Ht]. split; simpl; unfold phase_ok; simpl; rewrite ?E; done.
  - unfold receive in Hs. repeat (case_match; simplify_eq/=); [|by apply (down_same s); auto].
    unfold handle_command, handle_write; repeat (case_match; simplify_eq/=);
      (eapply (down_write s); try done; simpl; auto); unfold phase_ok; simpl; rewrite ?Hph, ?elem_of_cons, ?elem_of_nil;
      naive_solver.
  - simplify_eq. eapply (down_write s); try done; simpl; auto. unfold phase_ok; simpl.
    rewrite Hph, elem_of_cons, elem_of_nil. naive_solver.
  - destruct (st_stop s); simplify_eq. eapply (down_write s); try done; simpl; auto.
    unfold phase_ok; simpl; auto.
  - destruct (all_ended s); simplify_eq. eapply (down_write s); try done; simpl; auto.
    unfold phase_ok; simpl; auto.
  - unfold join_flush_task in Hs. destruct (w_phase (st_w s)) eqn:Hph; try done.
    destruct HD as [D1 D2 D3 D4 D5]. unfold phase_ok in D1. rewrite Hph in D1. destruct D1 as [D1 D1'].
    destruct (f_pc (st_f s)) as [| | | | |[]|] eqn:Hpc; try done; simplify_eq; split; simpl; try done.
    all: try (intros; destruct a; split; congruence). all: rewrite ?Hpc; try done; auto.
Qed.

(** ** Reachable states *)
Lemma inv_init config names fl s0 :
  coordinator_new config names c0 snap0 fl = Ok s0 → Inv s0 ∧ unstarted s0 ∧ Down s0.
Proof.
  unfold coordinator_new. intros Hn. inv_ok. simplify_eq. split_and!; [|done|].
  - exists [], [], [], c0, O, O. split_and!.
    + split; simpl; try done. constructor.
    + by split.
    + split; simpl; try done. exists []. done.
    + split; simpl; try done; try lia.
  - split; simpl; try done. unfold phase_ok; simpl. apply not_elem_of_nil.
Qed.

Lemma log_mono s l s' : step s l = Some s' → ∃ ws, h_log s' = h_log s ++ ws.
Proof.
  intros Hs. destruct l; simpl in Hs; unfold stop, start, guard_ in Hs.
  all: try (exists []; rewrite app_nil_r; step_cases; fail).
  unfold receive, handle_command, handle_write in Hs.
  repeat (case_match; simplify_eq/=); try (by exists []; rewrite app_nil_r); eauto.
Qed.

Lemma reach_inv config names fl s0 s :
  coordinator_new config names c0 snap0 fl = Ok s0 → reachable s0 s →
  blen (h_log s) + 1 < 2 ^ 64 → Inv s ∧ unstarted s ∧ Down s.
Proof.
  intros Hn. induction 1 as [|s l s' _ IH Hs]; intros Hb; [by eapply inv_init|].
  destruct (log_mono _ _ _ Hs) as [ws Hws].
  destruct IH as (HI & HU & HD).
  { rewrite Hws in Hb. unfold blen in *. rewrite length_app in Hb. lia. }
  split_and!; [by eapply inv_step|by eapply unstarted_step|by eapply down_step].
Qed.

Lemma steps_reachable s0 ls s : steps s0 ls = Some s → reachable s0 s.
Proof.
  assert (H : ∀ ls s s', reachable s0 s → steps s ls = Some s' → reachable s0 s').
  { clear. induction ls as [|l ls IH]; simpl; intros s s' Hr Hs; [by simplify_eq|].
    destruct (step s l) eqn:E; [|done]. eapply IH; [|done]. by econstructor. }
  apply H. constructor.
Qed.
End invariant.
