(* ===== verification/CoordinatorSpec.v ===== *)
(** * The write coordinator: what it promises

    The theorems about every reachable state, read off the invariant of
    CoordinatorInv, and two concrete coordinators that run. *)
From S2P Require Import Prelude Coordinator CoordinatorInv.
#[local] Open Scope Z_scope.

(** ** A concrete delta and flusher

    Writes are numbers; a negative one is refused, 13 makes the flusher fail, 14
    makes it panic.  The store is the list of everything flushed. *)
#[local] Instance ListDelta : Delta := {|
  D := list Z; Context_ := unit; Write := Z; Frozen := list Z; FrozenView := list Z;
  ApplyResult := Z; DeltaView := list Z;
  init := λ _, [];
  apply := λ d w, if bool_decide (w < 0) then (d, Err "negative"%string) else (d ++ [w], Ok (blen d));
  estimate_size := λ d, blen d;
  freeze := λ d, (d, d, tt);
  reader := λ d, d;
|}.

#[local] Instance ListFlusher : Flusher := {|
  F := list Z; Snapshot := list Z;
  flush_delta := λ f x _,
    if bool_decide (14 ∈ x) then (f, Panic)
    else if bool_decide (13 ∈ x) then (f, Err "unlucky"%string) else (f ++ x, Ok (f ++ x));
  flush_storage := λ f, (f, Ok tt);
|}.

Definition demo : res unit State :=
  coordinator_new (DT:=ListDelta) (mkConfig 4 10 2) ["a"%string] tt [] [].

Definition demo_run (ls : list label) : option State :=
  match demo with Ok s => steps s ls | _ => None end.

(** submit, let the write task take it and do what follows *)
Definition demo_write (w : Z) : list (label (DT:=ListDelta)) :=
  [LSubmit "a"%string (STryWrite (w : @Write ListDelta)); LPass "a"%string; LRecv "a"%string; LWrite; LWrite].

Example demo_two_writes :
  (λ s, (epoch (st_w s), applied (st_wm s), w_todo (st_w s))) <$>
    demo_run (LStart :: demo_write 5 ++ demo_write 6) =
  Some (3, 2, [DoFlush false]).
Proof. vm_compute. reflexivity. Qed.

Section spec.
Context {DT : Delta} {FT : Flusher}.
Context (c0 : Context_) (snap0 : Snapshot) (config : WriteCoordinatorConfig)
        (names : list string) (fl : F).

(** ** Covering of epochs by batches *)
Lemma sealed_cover S lw c e n ep :
  sealed_log c0 S lw c e → (n ≤ length S)%nat → 1 ≤ ep < end_at S n →
  ∃ i x, (i < n)%nat ∧ S !! i = Some x ∧ (sl_range x).1 ≤ ep < (sl_range x).2.
Proof.
  intros HS. induction n as [|n IH]; intros Hn Hep.
  { unfold end_at in Hep; simpl in Hep; lia. }
  destruct (lookup_lt_is_Some_2 S n) as [x Hx]; [lia|].
  destruct (sealed_range _ _ _ _ _ _ _ HS Hx) as (R1 & R2 & R3).
  destruct (decide (ep < end_at S n)) as [Hlt|Hge].
  - destruct (IH ltac:(lia) ltac:(lia)) as (i & y & ? & ? & ?). exists i, y. auto with lia.
  - exists n, x. split_and!; try done; lia.
Qed.

Lemma covered_in_calls S lw c e n ep (cs : list (EpochStamped Frozen)) :
  sealed_log c0 S lw c e → (n ≤ length S)%nat → 1 ≤ ep < end_at S n →
  (stampf <$> take n S) `prefix_of` cs →
  ∃ x, x ∈ cs ∧ (epoch_range x).1 ≤ ep < (epoch_range x).2.
Proof.
  intros HS Hn Hep [k ->]. destruct (sealed_cover _ _ _ _ _ _ HS Hn Hep) as (i & x & Hi & Hx & Hr).
  exists (stampf x). split; [|done]. apply elem_of_app. left. apply list_elem_of_fmap. exists x.
  split; [done|]. apply list_elem_of_lookup. exists i. by rewrite lookup_take_lt.
Qed.

(** ** The pipeline loses nothing *)
(** C3: In every reachable state the writes, in epoch order, are the sealed
    batches followed by the writes of the current delta, each batch frozen from
    the context the one before left.  The view shows exactly this: a reader of
    the current delta, the batches not yet published newest first, and the
    snapshot and stamp of the last published one.  Published batches were
    accepted by the flusher in order, and as long as the flush task runs and no
    flush has failed, what the flusher accepted and what is on its way to it are
    together all batches, once each and in order. *)
Theorem coordinator_pipeline s0 s :
  coordinator_new config names c0 snap0 fl = Ok s0 → reachable s0 s →
  blen (h_log s) + 1 < 2 ^ 64 →
  ∃ S lw cur c np,
    sealed_log c0 S lw c (delta_start_epoch (st_w s)) ∧ h_log s = lw ++ cur ∧
    delta (st_w s) = Some (replay (init c) cur) ∧ epoch (st_w s) = 1 + blen (h_log s) ∧
    bv_view (st_bv s) =
      mkView (reader (init c)) (reverse (stampv <$> drop np S))
        (default snap0 (last (take np (succs (h_calls s)).*2))) (last (stampv <$> take np S)) ∧
    (stampf <$> take np S) `prefix_of` (succs (h_calls s)).*1 ∧
    (f_over s = false → no_failed (h_calls s) →
     (succs (h_calls s)).*1 ++ pending s = stampf <$> S).
Proof.
  intros Hn Hr Hb. destruct (reach_inv _ _ _ _ _ _ _ Hn Hr Hb) as ((S & lw & cur & c & np & k & IW & IV & IF & IM) & _).
  destruct (inv_bounds _ _ _ _ _ _ IW) as (_ & He & _).
  exists S, lw, cur, c, np. destruct IW as [? ? ? ? _ _], IV as [? Hvc Hvf Hvl Hvs _], IF as [Hk IP (extra & HC & HE) IH _].
  split_and!; try done.
  - destruct (bv_view (st_bv s)); simpl in *; congruence.
  - rewrite HC. by eexists.
  - intros Hov Hnf. rewrite (IP Hov), HC. specialize (IH Hov Hnf). unfold f_over in Hov.
    trans ((stampf <$> take k S) ++ (stampf <$> drop k S)); [|by rewrite <-fmap_app, take_drop].
    f_equal.
    destruct (f_pc (st_f s)); try done; try (by destruct HE as [-> _]; rewrite app_nil_r, IH).
    destruct HE as (x & _ & Hx & -> & _). rewrite IH in *. simpl in Hx. rewrite Nat.sub_0_r in Hx.
    by rewrite (take_S_r _ _ _ Hx), fmap_app.
Qed.

(** C15: The watermarks tell the truth: durable ≤ written ≤ applied < next epoch;
    every epoch up to [written] lies in a delta the flusher accepted and every
    frozen delta still in the view starts after it (a waiter woken by the
    watermark sees a view that already includes its write); every epoch up to
    [durable] lies in a delta accepted before a successful storage flush. *)
Theorem coordinator_watermarks s0 s :
  coordinator_new config names c0 snap0 fl = Ok s0 → reachable s0 s →
  blen (h_log s) + 1 < 2 ^ 64 →
  0 ≤ durable (st_wm s) ≤ written (st_wm s) ∧
  written (st_wm s) ≤ applied (st_wm s) < epoch (st_w s) ∧
  (∀ x, x ∈ v_frozen (bv_view (st_bv s)) → written (st_wm s) < (epoch_range x).1) ∧
  (∀ ep, 1 ≤ ep ≤ written (st_wm s) →
     ∃ x, x ∈ (succs (h_calls s)).*1 ∧ (epoch_range x).1 ≤ ep < (epoch_range x).2) ∧
  (∀ ep, 1 ≤ ep ≤ durable (st_wm s) →
     ∃ t1 t2 x, h_calls s = t1 ++ CallStorage (Ok tt) :: t2 ∧
       x ∈ (succs t1).*1 ∧ (epoch_range x).1 ≤ ep < (epoch_range x).2).
Proof.
  intros Hn Hr Hb. destruct (reach_inv _ _ _ _ _ _ _ Hn Hr Hb) as ((S & lw & cur & c & np & k & IW & IV & IF & IM) & _).
  destruct IM as [M1 M2 _ M4 M5 _], IV as [Hnp _ Hvf _ _ _], IF as [Hk _ (extra & HC & _) _ _].
  assert (Ha : applied (st_wm s) < epoch (st_w s)).
  { destruct IW as [_ _ _ _ _ HA]. destruct (w_todo (st_w s)) as [|[] ?]; lia. }
  pose proof (iw_sealed _ _ _ _ _ _ IW) as HS.
  split_and!; try lia.
  - intros x. rewrite Hvf, elem_of_reverse, list_elem_of_fmap. intros (y & -> & Hy).
    apply list_elem_of_lookup in Hy as [i Hy]. rewrite lookup_drop in Hy.
    destruct (sealed_range _ _ _ _ _ _ _ HS Hy) as (R1 & _ & _). simpl. rewrite R1.
    pose proof (sealed_end_le _ _ _ _ _ np (np + i) HS) as Hle.
    apply lookup_lt_Some in Hy. specialize (Hle ltac:(lia)). lia.
  - intros ep Hep. eapply (covered_in_calls S); [done| |split; [|]; [lia|]|]; [exact Hnp|lia|].
    rewrite HC. by eexists.
  - intros ep Hep. destruct M5 as [M5|(t1 & t2 & n & Ht & Hn' & Hd & Hs)]; [lia|].
    destruct (covered_in_calls S lw c _ n ep (succs t1).*1 HS ltac:(lia) ltac:(lia)) as (x & ? & ?).
    { by rewrite Hs. }
    by exists t1, t2, x.
Qed.

(** C18: The two assertions of [update_flush_finished] and the [expect]s on the
    view lock never fire: unless the flusher itself panicked or a flush failed,
    the flush task has not panicked and the lock is not poisoned. *)
Theorem coordinator_no_panic s0 s :
  coordinator_new config names c0 snap0 fl = Ok s0 → reachable s0 s →
  blen (h_log s) + 1 < 2 ^ 64 → no_failed (h_calls s) → ¬ flusher_panicked (h_calls s) →
  f_pc (st_f s) ≠ FPanicked ∧ bv_current (st_bv s) = Ok (bv_view (st_bv s)).
Proof.
  intros Hn Hr Hb Hnf Hnp. destruct (reach_inv _ _ _ _ _ _ _ Hn Hr Hb) as (HI & _).
  assert (Hpc : f_pc (st_f s) ≠ FPanicked).
  { destruct HI as (? & ? & ? & ? & ? & ? & _ & _ & IF & _). intros Hp.
    destruct (if_panic _ _ _ _ IF Hp); done. }
  split; [done|]. unfold bv_current. by rewrite (inv_not_poisoned _ _ _ HI Hpc).
Qed.

(** C16: When a started coordinator's [stop()] returns [Ok] and no flush has
    failed, every write ever applied has been handed to the flusher and
    accepted, in order, and the written watermark was last moved to the last
    epoch. *)
Theorem coordinator_graceful_stop s0 s :
  coordinator_new config names c0 snap0 fl = Ok s0 → reachable s0 s →
  blen (h_log s) + 1 < 2 ^ 64 → no_failed (h_calls s) →
  st_started s = true → stop_result s = Some (Ok tt) →
  last_flushed_epoch (st_f s) = blen (h_log s) ∧
  ∃ S c, sealed_log c0 S (h_log s) c (epoch (st_w s)) ∧ (succs (h_calls s)).*1 = stampf <$> S.
Proof.
  intros Hn Hr Hb Hnf Hst Hres.
  destruct (reach_inv _ _ _ _ _ _ _ Hn Hr Hb) as ((S & lw & cur & c & np & k & IW & IV & IF & IM) & _ & HD).
  assert (Hph : w_phase (st_w s) = WDone (Ok tt)).
  { unfold stop_result in Hres. destruct (w_phase (st_w s)) as [| | |[[]| |]|]; try done. }
  destruct (dn_result _ HD Hph Hst) as [Hpc Hde].
  pose proof (dn_flushed _ HD Hpc Hst Hnf) as Hl.
  destruct (inv_bounds _ _ _ _ _ _ IW) as (_ & He & Hend). destruct IW as [HS Hlog ? Hep _ _].
  assert (cur = []) as -> by (destruct cur; [done|unfold blen in Hep; simpl in Hep; lia]).
  rewrite app_nil_r in Hlog. split; [lia|].
  exists S, c. rewrite Hlog, <-Hde. split; [done|].
  destruct IF as [Hk _ (extra & HC & HE) _ _]. rewrite Hpc in HE. destruct HE as [-> Hl'].
  rewrite HC, app_nil_r. f_equal. apply take_ge.
  destruct (decide (np < length S)%nat) as [Hlt|]; [|lia].
  pose proof (sealed_end_lt _ _ _ _ _ np (length S) HS ltac:(lia)). lia.
Qed.

(** ** Replies *)
(** Reads the replies in order, counting writes: a write's reply must carry the
    next number, a flush's reply the number so far. *)
Fixpoint reply_count (n : Z) (rs : list (nat * Reply)) : option Z :=
  match rs with
  | [] => Some n
  | (_, ReplyWrite (Ok a)) :: rs =>
      if bool_decide (wa_epoch a = n + 1) then reply_count (n + 1) rs else None
  | (_, ReplyWrite (Err e)) :: rs =>
      if bool_decide (wf_epoch e = n + 1) then reply_count (n + 1) rs else None
  | (_, ReplyFlush (Ok a)) :: rs =>
      if bool_decide (wa_epoch a = n) then reply_count n rs else None
  | _ => None
  end.

Lemma reply_count_snoc n m rs x :
  reply_count n rs = Some m → reply_count n (rs ++ [x]) = reply_count m [x].
Proof.
  revert n. induction rs as [|[id [[]|[]]] rs IH]; simpl; intros n Hm; try done; [by simplify_eq|..].
  all: case_bool_decide; [|done]; by apply IH.
Qed.

Lemma step_replies s l s' :
  step s l = Some s' →
  (st_replies s' = st_replies s ∧ h_log s' = h_log s) ∨
  (∃ id r w, st_replies s' = st_replies s ++ [(id, ReplyWrite r)] ∧ h_log s' = h_log s ++ [w] ∧
     ((∃ a, r = Ok a ∧ wa_epoch a = epoch (st_w s)) ∨ (∃ f, r = Err f ∧ wf_epoch f = epoch (st_w s)))) ∨
  (∃ id, st_replies s' = st_replies s ++
     [(id, ReplyFlush (Ok (mkWriteApplied (saturating_sub (epoch (st_w s)) 1) tt)))] ∧ h_log s' = h_log s).
Proof.
  intros Hs. destruct l; simpl in Hs; unfold stop, start, guard_ in Hs.
  all: try (left; step_cases; fail).
  unfold receive, handle_command, handle_write in Hs.
  repeat (case_match; simplify_eq/=); try (left; done).
  all: try (right; right; eauto; fail).
  all: right; left; do 3 eexists; split_and!; eauto.
Qed.

(** Epochs are handed out in the order in which writes are applied: reading
    all replies in order, the n-th write's reply (applied or refused) carries
    epoch n, and a flush's reply the epoch of the last write before it. *)
Theorem coordinator_epochs s0 s :
  coordinator_new config names c0 snap0 fl = Ok s0 → reachable s0 s →
  blen (h_log s) + 1 < 2 ^ 64 → reply_count 0 (st_replies s) = Some (blen (h_log s)).
Proof.
  intros Hn. induction 1 as [|s l s' Hr IH Hs]; intros Hb.
  { unfold coordinator_new in Hn. inv_ok. by simplify_eq. }
  destruct (log_mono _ _ _ Hs) as [ws Hws].
  assert (Hb' : blen (h_log s) + 1 < 2 ^ 64) by (rewrite Hws in Hb; unfold blen in *; rewrite length_app in Hb; lia).
  specialize (IH Hb').
  destruct (reach_inv _ _ _ _ _ _ _ Hn Hr Hb') as ((S & lw & cur & c & np & k & IW & _) & _).
  destruct (inv_bounds _ _ _ _ _ _ IW) as (_ & He & _).
  destruct (step_replies _ _ _ Hs) as [[-> ->]|[(id & r & w & -> & -> & Hrep)|(id & -> & ->)]]; [done|..].
  - rewrite (reply_count_snoc _ _ _ _ IH). unfold blen in *. rewrite length_app; simpl.
    destruct Hrep as [(a & -> & Ha)|(f & -> & Hf)]; rewrite bool_decide_true by lia; f_equal; lia.
  - rewrite (reply_count_snoc _ _ _ _ IH). simpl. unfold saturating_sub, blen in *.
    rewrite bool_decide_true by lia. done.
Qed.

(** ** Subscribers *)
(** [recv] until it has to wait; the views received. *)
Fixpoint recv_all (fuel : nat) (sub : ViewSubscriber) (bv : BroadcastedView) : option (list View) :=
  match fuel with
  | O => None
  | Datatypes.S fuel =>
      match subscriber_recv sub bv false with
      | None => Some []
      | Some (Ok v, sub) => cons v <$> recv_all fuel sub bv
      | Some _ => None
      end
  end.

Lemma step_view s l s' :
  step s l = Some s' →
  bv_sent (st_bv s') = bv_sent (st_bv s) ∧ bv_view (st_bv s') = bv_view (st_bv s) ∨
  bv_sent (st_bv s') = bv_sent (st_bv s) ++ [bv_view (st_bv s')].
Proof.
  intros Hs. destruct l; simpl in Hs; unfold stop, start, guard_, flush_panics in Hs;
    step_cases; auto.
  all: unfold update_delta_frozen, update_flush_finished in *; repeat (case_match; simplify_eq/=); auto.
Qed.

Lemma views_later s s' :
  reachable s s' → ∃ vs, bv_sent (st_bv s') = bv_sent (st_bv s) ++ vs ∧
    bv_view (st_bv s') = default (bv_view (st_bv s)) (last vs).
Proof.
  induction 1 as [|s1 l s2 _ (vs & Hvs & Hv) Hs].
  { exists []. by rewrite app_nil_r. }
  destruct (step_view _ _ _ Hs) as [[-> ->]| ->]; [by exists vs|].
  exists (vs ++ [bv_view (st_bv s2)]). by rewrite Hvs, app_assoc, last_snoc.
Qed.

Lemma recv_all_spec vs : ∀ pre fuel wm bv,
  bv_sent bv = pre ++ vs → (length vs ≤ BROADCAST_CAPACITY)%nat → (length vs < fuel)%nat →
  recv_all fuel (mkSubscriber (length pre) None wm) bv = Some vs.
Proof.
  induction vs as [|v vs IH]; intros pre [|fuel] wm bv Hs Hc Hf; simpl in *; try lia.
  all: unfold subscriber_recv; simpl; rewrite Hs, length_app; rewrite bool_decide_false by (simpl; lia).
  - rewrite app_nil_r, lookup_ge_None_2; done.
  - rewrite lookup_app_r, Nat.sub_diag by lia. simpl.
    replace (Datatypes.S (length pre)) with (length (pre ++ [v])) by (rewrite length_app; simpl; lia).
    rewrite IH; [done|by rewrite <-app_assoc|lia|lia].
Qed.

(** A subscriber that is at most 16 views behind misses none: from the
    moment of [subscribe] it receives exactly the views published since, in
    order, and then the last view it holds is the current one. *)
Theorem subscriber_catches_up s s' pos v sub v0 :
  bv_subscribe (st_bv s) = Ok (pos, v) → reachable s s' →
  (length (bv_sent (st_bv s')) ≤ pos + BROADCAST_CAPACITY)%nat →
  initialize (ViewSubscriber_new pos v) = Ok (v0, sub) →
  ∃ vs, bv_sent (st_bv s') = bv_sent (st_bv s) ++ vs ∧
    recv_all (Datatypes.S (length vs)) sub (st_bv s') = Some vs ∧
    bv_view (st_bv s') = default v0 (last vs).
Proof.
  unfold bv_subscribe. intros Hsub Hr Hlag Hini. destruct (bv_poisoned (st_bv s)); [done|].
  cbn in Hini. simplify_eq. destruct (views_later _ _ Hr) as (vs & Hvs & Hv).
  exists vs. split_and!; try done.
  rewrite Hvs, length_app in Hlag. apply recv_all_spec; try done; lia.
Qed.

(** ** Progress

    With a flusher that does not fail, the tasks' own steps bring a flush
    request to its end. *)
Context (flush_delta_ok : ∀ f x r, ∃ f' snap, flush_delta f x r = (f', Ok snap))
        (flush_storage_ok : ∀ f, ∃ f', flush_storage f = (f', Ok tt)).

Definition task_label (l : label) : bool :=
  match l with LWrite | LFlushRecv | LFlushWork => true | _ => false end.

(** in the select loop, alive *)
Definition looping (pc : FlushPc) : bool :=
  match pc with
  | FIdle MLoop | FHandle MLoop _ | FPublish MLoop _ _ | FWritten MLoop | FDurable MLoop => true
  | _ => false
  end.

Record Good (s : State) : Prop := {
  gd_inv : Inv c0 snap0 s;
  gd_started : st_started s = true;
  gd_loop : looping (f_pc (st_f s)) = true;
  gd_nf : no_failed (h_calls s);
  gd_np : ¬ flusher_panicked (h_calls s);
  gd_watch : (0 < watchers (st_wm s))%nat;
  gd_bound : blen (h_log s) + 1 < 2 ^ 64;
}.

(** steps the flush task still needs for what it holds and what is queued *)
Definition pc_work (pc : FlushPc) : nat :=
  match pc with
  | FHandle _ (FlushDelta _) => 3
  | FHandle _ FlushStorage => 2
  | FPublish _ _ _ => 2
  | FWritten _ | FDurable _ => 1
  | _ => 0
  end%nat.
Definition flush_todo (s : State) : nat :=
  (pc_work (f_pc (st_f s)) + 4 * length (st_q s))%nat.

Definition frame (s s' : State) : Prop :=
  st_w s' = st_w s ∧ h_log s' = h_log s ∧ st_stop s' = st_stop s.

Lemma good_step s l s' :
  Good s → step s l = Some s' → looping (f_pc (st_f s')) = true →
  no_failed (h_calls s') → ¬ flusher_panicked (h_calls s') →
  watchers (st_wm s') = watchers (st_wm s) → h_log s' = h_log s → Good s'.
Proof.
  intros [HI Hst Hlp Hnf Hnp Hw Hb] Hs ? ? ? Hw' Hlog. split; try done; try congruence; try lia.
  - eapply inv_step; eauto; [by intros E; rewrite E in Hst|by rewrite Hlog].
  - by eapply started_mono.
Qed.

(** The view takes the flushed delta: its assertion holds. *)
Lemma good_publish s snap r :
  Good s → f_pc (st_f s) = FPublish MLoop snap r →
  ∃ bv, update_flush_finished (st_bv s) snap r = (bv, true).
Proof.
  intros HG Hpc. destruct (update_flush_finished (st_bv s) snap r) as [bv []] eqn:Hu; [by eexists|].
  exfalso. assert (Hs : step s LFlushWork = Some (flush_panics (with_bv s bv))).
  { simpl. rewrite (gd_started _ HG). simpl. unfold flush_work. by rewrite Hpc, Hu. }
  destruct HG as [HI Hst Hlp Hnf Hnp Hw Hb].
  assert (HI' : Inv c0 snap0 (flush_panics (with_bv s bv)))
    by (eapply inv_step; eauto; by intros E; rewrite E in Hst).
  destruct HI' as (? & ? & ? & ? & ? & ? & _ & _ & IF & _).
  destruct (if_panic _ _ _ _ IF eq_refl); done.
Qed.

Lemma watchers_marks wm e :
  watchers (update_written wm e) = watchers wm ∧ watchers (update_durable wm e) = watchers wm ∧
  watchers (update_applied wm e) = watchers wm.
Proof. unfold update_written, update_durable, update_applied. destruct (watchers wm) eqn:E; simpl; by rewrite ?E. Qed.

Lemma calls_snoc_ok cs x :
  no_failed cs → ¬ flusher_panicked cs → is_ok (match x with CallDelta _ r => res_bind r (λ _, Ok tt) | CallStorage r => r end) = true →
  no_failed (cs ++ [x]) ∧ ¬ flusher_panicked (cs ++ [x]).
Proof.
  intros Hnf Hnp Hx. rewrite no_failed_app. unfold flusher_panicked. rewrite Exists_app. split.
  - split; [done|]. repeat constructor. by destruct x as [? []|[]].
  - rewrite Exists_cons, Exists_nil. intros [?|[HE|[]]]; [done|]. by destruct x as [? []|[]].
Qed.

Definition progress (s : State) : Prop :=
  ∃ l s', task_label l = true ∧ step s l = Some s' ∧ Good s' ∧ frame s s' ∧
    (flush_todo s' < flush_todo s)%nat.

Lemma progress_intro s l s' :
  Good s → step s l = Some s' → task_label l = true → looping (f_pc (st_f s')) = true →
  no_failed (h_calls s') ∧ ¬ flusher_panicked (h_calls s') →
  watchers (st_wm s') = watchers (st_wm s) → frame s s' →
  (flush_todo s' < flush_todo s)%nat → progress s.
Proof.
  intros HG Hs Hl Hlp [? ?] Hw Hf Ht. exists l, s'. split_and!; try done.
  eapply good_step; eauto. apply Hf.
Qed.

Lemma flush_progress s : Good s → flush_todo s ≠ O → progress s.
Proof.
  intros HG Hn. pose proof (gd_started _ HG) as Hst. pose proof (gd_loop _ HG) as Hlp.
  assert (Hc : no_failed (h_calls s) ∧ ¬ flusher_panicked (h_calls s)) by (split; apply HG).
  assert (Hwk : ∀ s', flush_work s = Some s' → step s LFlushWork = Some s')
    by (intros s' Hs; simpl; by rewrite Hst).
  destruct (watchers_marks (st_wm s) (last_flushed_epoch (st_f s))) as (Hw1 & Hw2 & _).
  unfold flush_work in Hwk.
  destruct (f_pc (st_f s)) as [[]|[] [x|]|[] snap r|[]|[]|r|] eqn:Hpc; try done.
  - destruct (st_q s) as [|ev q] eqn:Hq; [by unfold flush_todo in Hn; rewrite Hpc, Hq in Hn|].
    apply (progress_intro s LFlushRecv (with_f s (set_pc (st_f s) (FHandle MLoop ev)) q)); try done.
    + simpl. rewrite Hst. simpl. unfold flush_recv. by rewrite Hpc, Hq.
    + unfold flush_todo; simpl. rewrite Hpc, Hq. destruct ev; simpl; lia.
  - destruct (flush_delta_ok (flusher (st_f s)) (val x) (epoch_range x)) as (f' & snap & Hf).
    rewrite Hf in Hwk. eapply progress_intro; [done|by apply Hwk|..]; try done.
    + apply calls_snoc_ok; by try apply Hc.
    + unfold flush_todo; simpl. rewrite Hpc. simpl; lia.
  - destruct (flush_storage_ok (flusher (st_f s))) as (f' & Hf).
    rewrite Hf in Hwk. eapply progress_intro; [done|by apply Hwk|..]; try done.
    + apply calls_snoc_ok; by try apply Hc.
    + unfold flush_todo; simpl. rewrite Hpc. simpl; lia.
  - destruct (good_publish s snap r HG Hpc) as (bv & Hu).
    rewrite Hu in Hwk. eapply progress_intro; [done|by apply Hwk|..]; try done.
    unfold flush_todo; simpl. rewrite Hpc. simpl; lia.
  - eapply progress_intro; [done|by apply Hwk|..]; try done.
    unfold flush_todo; simpl. rewrite Hpc. simpl; lia.
  - eapply progress_intro; [done|by apply Hwk|..]; try done.
    unfold flush_todo; simpl. rewrite Hpc. simpl; lia.
Qed.

Lemma steps_app s ls ls' s1 s2 : steps s ls = Some s1 → steps s1 ls' = Some s2 → steps s (ls ++ ls') = Some s2.
Proof.
  revert s. induction ls as [|l ls IH]; simpl; intros s H1 H2; [by simplify_eq|].
  destruct (step s l); [eauto|done].
Qed.

(** The flush task alone empties its channel and comes back to rest. *)
Lemma flush_settles s :
  Good s → ∃ ls s', Forall (λ l, task_label l = true) ls ∧ steps s ls = Some s' ∧ Good s' ∧
    frame s s' ∧ f_pc (st_f s') = FIdle MLoop ∧ st_q s' = [].
Proof.
  remember (flush_todo s) as n eqn:Hn. revert s Hn.
  induction n as [n IH] using lt_wf_ind. intros s -> HG. destruct (decide (flush_todo s = O)) as [Hz|Hz].
  - exists [], s. split_and!; try done; unfold flush_todo in Hz.
    + pose proof (gd_loop _ HG). by destruct (f_pc (st_f s)) as [[]|[] []|[]|[]|[]| |].
    + destruct (st_q s); [done|simpl in Hz; lia].
  - destruct (flush_progress s HG Hz) as (l & s1 & Hl & Hs & HG1 & Hf1 & Hlt).
    destruct (IH _ Hlt s1 eq_refl HG1) as (ls & s2 & ? & ? & ? & Hf2 & ? & ?).
    exists (l :: ls), s2. split_and!; try done.
    + by constructor.
    + simpl. by rewrite Hs.
    + unfold frame in *. naive_solver congruence.
Qed.

(** One action of the write task that changes neither the epoch nor the log. *)
Lemma good_write s s' :
  Good s → write_action s = Some s' → st_f s' = st_f s → h_calls s' = h_calls s →
  watchers (st_wm s') = watchers (st_wm s) → h_log s' = h_log s → Good s'.
Proof.
  intros HG Hs Hf Hc Hw Hl. eapply (good_step s LWrite); eauto; rewrite ?Hf, ?Hc; try apply HG.
  simpl. by rewrite (gd_started _ HG).
Qed.

(** Send the event at the head of the to-do list and let the flush task settle. *)
Lemma send_settles s ev rest :
  Good s → f_pc (st_f s) = FIdle MLoop → st_q s = [] → w_todo (st_w s) = DoSend ev :: rest →
  ∃ ls s', Forall (λ l, task_label l = true) ls ∧ steps s ls = Some s' ∧ Good s' ∧
    st_w s' = set_todo (st_w s) rest ∧ h_log s' = h_log s ∧ st_stop s' = st_stop s ∧
    f_pc (st_f s') = FIdle MLoop ∧ st_q s' = [].
Proof.
  intros HG Hpc Hq Ht.
  set (s1 := with_w (with_q s [ev]) (set_todo (st_w s) rest)).
  assert (Hs1 : write_action s = Some s1).
  { unfold write_action, f_over. by rewrite Ht, Hpc, Hq. }
  assert (HG1 : Good s1) by (by eapply good_write).
  destruct (flush_settles s1 HG1) as (ls & s2 & ? & Hs2 & ? & (Hw & Hl & Hsp) & ? & ?).
  exists (LWrite :: ls), s2. split_and!; try done.
  - by constructor.
  - simpl. rewrite (gd_started _ HG). simpl. by rewrite Hs1.
Qed.

(** Freeze, send the delta and let it be flushed. *)
Lemma seal_settles s fs :
  Good s → f_pc (st_f s) = FIdle MLoop → st_q s = [] → w_todo (st_w s) = [DoFlush fs] →
  ∃ ls s', Forall (λ l, task_label l = true) ls ∧ steps s ls = Some s' ∧ Good s' ∧
    w_todo (st_w s') = (if fs then [DoSend FlushStorage] else []) ∧
    w_phase (st_w s') = w_phase (st_w s) ∧
    epoch (st_w s') = epoch (st_w s) ∧ delta_start_epoch (st_w s') = epoch (st_w s) ∧
    f_pc (st_f s') = FIdle MLoop ∧ st_q s' = [].
Proof.
  intros HG Hpc Hq Ht. pose proof (gd_started _ HG) as Hst.
  assert (Hstep : ∀ s', handle_flush s fs [] = s' → step s LWrite = Some s').
  { intros s' <-. simpl. rewrite Hst. simpl. unfold write_action. by rewrite Ht. }
  unfold handle_flush, flush_if_delta_has_writes in Hstep. rewrite app_nil_r in Hstep.
  case_bool_decide as He.
  { eexists [LWrite], _. split_and!; [by repeat constructor|simpl in *; by rewrite (Hstep _ eq_refl)|..]; try done.
    eapply (good_step s LWrite); eauto; simpl; try apply HG. }
  assert (Hp : bv_poisoned (st_bv s) = false)
    by (eapply inv_not_poisoned; [apply HG|by rewrite Hpc]).
  destruct (gd_inv _ HG) as (S & lw & cur & c & np & k & IW & _).
  rewrite (iw_delta _ _ _ _ _ _ IW) in Hstep. unfold freeze_and_init in Hstep. simpl in Hstep.
  destruct (freeze (replay (init c) cur)) as [[fr fv] c'] eqn:Hfr. simpl in Hstep.
  unfold update_delta_frozen in Hstep. rewrite Hp in Hstep.
  specialize (Hstep _ eq_refl). match type of Hstep with _ = Some ?x => set (s1 := x) in Hstep end.
  assert (HG1 : Good s1) by (eapply (good_step s LWrite); eauto; simpl; rewrite ?Hpc; try apply HG; done).
  destruct (send_settles s1 _ _ HG1 Hpc Hq eq_refl) as (ls & s2 & Hall & Hs2 & HG2 & Hw & _ & _ & ? & ?).
  exists (LWrite :: ls), s2. rewrite Hw. split_and!; try done.
  - by constructor.
  - simpl in *. by rewrite Hstep.
Qed.

(** C17: A flush request with [flush_storage] comes true: from any reachable state
    in which the write task has just taken it, with a flusher that does not
    fail, the two tasks' own steps lead back to the select loop with the durable
    watermark at the epoch the request was answered with. *)
Theorem flush_request_completes s0 s :
  coordinator_new config names c0 snap0 fl = Ok s0 → reachable s0 s →
  blen (h_log s) + 1 < 2 ^ 64 → no_failed (h_calls s) → ¬ flusher_panicked (h_calls s) →
  st_started s = true → looping (f_pc (st_f s)) = true → (0 < watchers (st_wm s))%nat →
  w_phase (st_w s) = WRunning → w_todo (st_w s) = [DoFlush true] →
  ∃ ls s', Forall (λ l, task_label l = true) ls ∧ steps s ls = Some s' ∧ w_ready s' = true ∧
    epoch (st_w s') = epoch (st_w s) ∧
    durable (st_wm s') = saturating_sub (epoch (st_w s)) 1.
Proof.
  intros Hn Hr Hb Hnf Hnp Hst Hlp Hwt Hph Ht.
  assert (HG : Good s) by (split; try done; by eapply reach_inv).
  destruct (flush_settles s HG) as (l1 & s1 & HF1 & Hs1 & HG1 & (Hw1 & _) & Hpc1 & Hq1).
  destruct (seal_settles s1 true HG1 Hpc1 Hq1) as (l2 & s2 & HF2 & Hs2 & HG2 & Ht2 & Hp2 & He2 & Hd2 & Hpc2 & Hq2);
    [by rewrite Hw1|].
  assert (Hl : last_flushed_epoch (st_f s2) = epoch (st_w s2) - 1).
  { rewrite He2, <-Hd2. eapply inv_drained; eauto; try apply HG2. by rewrite Ht2. }
  destruct (flush_storage_ok (flusher (st_f s2))) as (f' & Hf).
  pose proof (gd_started _ HG2) as Hst2. pose proof (gd_watch _ HG2) as Hwt2.
  eexists (l1 ++ l2 ++ [LWrite; LFlushRecv; LFlushWork; LFlushWork]), _. split_and!.
  - rewrite !Forall_app. split_and!; try done. by repeat constructor.
  - eapply steps_app; [done|]. eapply steps_app; [done|].
    simpl. rewrite Hst2. simpl. unfold write_action, f_over, flush_recv, flush_work.
    rewrite Ht2, Hpc2, Hq2. simpl. rewrite Hst2. simpl. rewrite Hpc2. simpl. rewrite Hst2, Hf. simpl.
    rewrite Hst2. simpl. reflexivity.
  - simpl. unfold w_ready. simpl. rewrite Hp2, Hw1, Hph. done.
  - simpl. by rewrite He2, Hw1.
  - simpl. unfold update_durable. destruct (watchers (st_wm s2)); [lia|]. simpl.
    rewrite Hl, He2, Hw1. unfold saturating_sub.
    destruct (gd_inv _ HG) as (? & ? & ? & ? & ? & ? & IW & _).
    destruct (inv_bounds _ _ _ _ _ _ IW) as (? & _). lia.
Qed.
End spec.

(** What a submission answers depends only on the queue: with the write task
    alive and room in the queue every form accepts and appends the command at
    the end; with a full queue [try_write] and a timed-out [write_timeout] give
    the write back, [write] (and [write_timeout] before its timeout) waits, and
    [flush] reports backpressure; once the write task is gone all report
    [Shutdown] and the write is not given back. *)
Theorem handle_submissions `{FT : Flusher} (alive fired fs : bool) (ch : Channel) (w : Write) (id : nat) :
  let room := bool_decide (blen (ch_queue ch) < ch_capacity ch) in
  let push cmd := mkChannel (ch_queue ch ++ [cmd]) (ch_capacity ch) (ch_paused ch) (ch_passed ch)
                    (ch_senders ch) (ch_ended ch) (ch_pause_tx ch) in
  (alive = true → room = true →
   try_write alive ch w id = Ok (push (CmdWrite w id)) ∧
   write_ alive ch w id = Some (Ok (push (CmdWrite w id))) ∧
   write_timeout alive fired ch w id = Some (Ok (push (CmdWrite w id))) ∧
   flush alive ch fs id = Ok (push (CmdFlush id fs))) ∧
  (alive = true → room = false →
   (∃ e, try_write alive ch w id = Err e ∧ into_inner e = Some w ∧ discard_inner e = Backpressure tt) ∧
   write_ alive ch w id = None ∧
   write_timeout alive false ch w id = None ∧
   (∃ e, write_timeout alive true ch w id = Some (Err e) ∧ into_inner e = Some w ∧
         discard_inner e = TimeoutError tt) ∧
   flush alive ch fs id = Err (Backpressure tt)) ∧
  (alive = false →
   try_write alive ch w id = Err Shutdown ∧ write_ alive ch w id = Some (Err Shutdown) ∧
   write_timeout alive fired ch w id = Some (Err Shutdown) ∧ flush alive ch fs id = Err Shutdown ∧
   into_inner (Shutdown (W:=Write)) = None).
Proof.
  intros room push. unfold try_write, write_, write_timeout, flush, try_send, room, push.
  split_and!; intros; subst; simpl; try done; case_bool_decide; try done; simpl; split_and!; eauto.
Qed.

(** ** Witnesses *)
Definition demo_trace : list (label (DT:=ListDelta)) :=
  LStart :: demo_write 5 ++ demo_write 6 ++ [LWrite; LWrite; LFlushRecv; LFlushWork; LFlushWork] ++
  demo_write 7.

Lemma demo_reach ls s0 s : demo = Ok s0 → demo_run ls = Some s → reachable s0 s.
Proof. unfold demo_run. intros ->. apply steps_reachable. Qed.

Ltac demo_state ls :=
  let s0 := eval vm_compute in demo in
  lazymatch s0 with Ok ?s0 =>
  let s := eval vm_compute in (demo_run ls) in
  lazymatch s with Some ?s =>
    assert (Hn : demo = Ok s0) by (vm_compute; reflexivity);
    assert (Hr : reachable s0 s) by (apply (demo_reach ls); vm_compute; reflexivity)
  end end.

Lemma coordinator_pipeline_witness : ∃ s0 s : State (FT:=ListFlusher),
  reachable s0 s ∧ h_log s = [5; 6; 7] ∧ v_frozen (bv_view (st_bv s)) = [] ∧
  ∃ S lw cur c np,
    sealed_log (tt : @Context_ ListDelta) S lw c (delta_start_epoch (st_w s)) ∧ h_log s = lw ++ cur ∧
    delta (st_w s) = Some (replay (init c) cur) ∧ epoch (st_w s) = 1 + blen (h_log s) ∧
    bv_view (st_bv s) =
      mkView (reader (init c)) (reverse (stampv <$> drop np S))
        (default (@nil Z : @Snapshot _ ListFlusher) (last (take np (succs (h_calls s)).*2))) (last (stampv <$> take np S)) ∧
    (stampf <$> take np S) `prefix_of` (succs (h_calls s)).*1 ∧
    (f_over s = false → no_failed (h_calls s) →
     (succs (h_calls s)).*1 ++ pending s = stampf <$> S).
Proof.
  demo_state demo_trace. eexists _, _. split; [exact Hr|]. split; [reflexivity|]. split; [reflexivity|].
  apply (coordinator_pipeline (FT:=ListFlusher) tt (@nil Z) (mkConfig 4 10 2) ["a"%string] (@nil Z) _ _ Hn Hr).
  vm_compute. reflexivity.
Defined.

Lemma coordinator_watermarks_witness : ∃ s0 s : State (FT:=ListFlusher),
  reachable s0 s ∧ written (st_wm s) = 0 ∧ applied (st_wm s) = 3 ∧ 0 ≤ durable (st_wm s) ≤ written (st_wm s).
Proof.
  demo_state demo_trace. eexists _, _. split; [exact Hr|]. split; [reflexivity|]. split; [reflexivity|].
  apply (coordinator_watermarks (FT:=ListFlusher) tt (@nil Z) (mkConfig 4 10 2) ["a"%string] (@nil Z) _ _ Hn Hr).
  vm_compute. reflexivity.
Defined.

Lemma coordinator_no_panic_witness : ∃ s0 s : State (FT:=ListFlusher),
  reachable s0 s ∧ f_pc (st_f s) = FWritten MLoop ∧ bv_current (st_bv s) = Ok (bv_view (st_bv s)).
Proof.
  demo_state demo_trace. eexists _, _. split; [exact Hr|]. split; [reflexivity|].
  apply (coordinator_no_panic (FT:=ListFlusher) tt (@nil Z) (mkConfig 4 10 2) ["a"%string] (@nil Z) _ _ Hn Hr).
  - vm_compute. reflexivity.
  - repeat constructor.
  - intros H. repeat (inversion H as [? ? H'|? ? H']; subst; clear H; [exact H'|rename H' into H]). inversion H.
Defined.

(** one write, then the way down *)
Definition demo_stop (w : Z) : list (label (DT:=ListDelta)) :=
  LStart :: demo_write w ++
  [LStop; LBreak; LWrite; LWrite; LWrite; LFlushStop; LFlushDrain; LFlushWork].

Lemma coordinator_graceful_stop_witness : ∃ s0 s : State (FT:=ListFlusher),
  reachable s0 s ∧ h_log s = [5] ∧ stop_result s = Some (Ok tt) ∧
  last_flushed_epoch (st_f s) = blen (h_log s).
Proof.
  demo_state (demo_stop 5 ++ [LFlushWork; LFlushWork; LFlushDrain; LJoin]).
  eexists _, _. split; [exact Hr|]. split; [reflexivity|]. split; [reflexivity|].
  apply (coordinator_graceful_stop (FT:=ListFlusher) tt (@nil Z) (mkConfig 4 10 2) ["a"%string] (@nil Z) _ _ Hn Hr);
    [vm_compute; reflexivity|repeat constructor|reflexivity|reflexivity].
Defined.

Lemma coordinator_epochs_witness : ∃ s0 s : State (FT:=ListFlusher),
  reachable s0 s ∧ length (st_replies s) = 3%nat ∧
  reply_count 0 (st_replies s) = Some (blen (h_log s)).
Proof.
  demo_state demo_trace. eexists _, _. split; [exact Hr|]. split; [reflexivity|].
  apply (coordinator_epochs (FT:=ListFlusher) tt (@nil Z) (mkConfig 4 10 2) ["a"%string] (@nil Z) _ _ Hn Hr).
  vm_compute. reflexivity.
Defined.

Lemma subscriber_catches_up_witness : ∃ s0 s : State (FT:=ListFlusher),
  reachable s0 s ∧ length (bv_sent (st_bv s)) = 2%nat ∧
  ∃ vs, bv_sent (st_bv s) = bv_sent (st_bv s0) ++ vs ∧
    recv_all (S (length vs)) (mkSubscriber 0 None EpochWatermarks_new) (st_bv s) = Some vs ∧
    bv_view (st_bv s) = default (bv_view (st_bv s0)) (last vs).
Proof.
  demo_state demo_trace. eexists _, _. split; [exact Hr|]. split; [reflexivity|].
  eapply (λ H, subscriber_catches_up (FT:=ListFlusher) _ _ 0 _ _ _ H Hr);
    [reflexivity|vm_compute; lia|reflexivity].
Defined.

(** a flusher that never fails *)
Definition SafeFlusher : Flusher (H:=ListDelta) := {|
  F := list Z; Snapshot := list Z;
  flush_delta := λ f x _, (f ++ x, Ok (f ++ x));
  flush_storage := λ f, (f, Ok tt);
|}.

Lemma flush_request_completes_witness :
  ∃ s : State (FT:=SafeFlusher),
    epoch (st_w s) = 2 ∧ w_todo (st_w s) = [DoFlush true] ∧
    ∃ ls s', Forall (λ l, task_label l = true) ls ∧ steps s ls = Some s' ∧ w_ready s' = true ∧
      epoch (st_w s') = epoch (st_w s) ∧ durable (st_wm s') = 1.
Proof.
  set (ls := (LStart :: demo_write 5 ++
    [LSubmit "a"%string (SFlush true); LPass "a"%string; LRecv "a"%string])).
  let s0 := eval vm_compute in
    (coordinator_new (FT:=SafeFlusher) (mkConfig 4 10 2) ["a"%string] tt (@nil Z) (@nil Z)) in
  lazymatch s0 with Ok ?s0 =>
  let s := eval vm_compute in (steps (FT:=SafeFlusher) s0 ls) in
  lazymatch s with Some ?s =>
    exists s; split; [reflexivity|]; split; [reflexivity|];
    apply (flush_request_completes (FT:=SafeFlusher) tt (@nil Z) (mkConfig 4 10 2) ["a"%string] (@nil Z)
             (λ f x r, ex_intro _ _ (ex_intro _ _ eq_refl)) (λ f, ex_intro _ _ eq_refl) s0 s);
    [vm_compute; reflexivity|apply (steps_reachable _ ls); vm_compute; reflexivity
    |vm_compute; reflexivity|repeat constructor| |reflexivity|reflexivity|vm_compute; lia
    |reflexivity|reflexivity]
  end end.
  intros H. inversion H.
Defined.

(** ** A drain whose flushes fail *)
Section drain.
Context {DT : Delta} {FT : Flusher}.

(** a flusher that refuses everything *)
Definition refusing : Prop :=
  (∀ f x r, ∃ f' e, flush_delta f x r = (f', Err e)) ∧ (∀ f, ∃ f' e, flush_storage f = (f', Err e)).

(** the write task waits for the flush task, which drains: what is fixed from then on *)
Record Drains (s0 s : State) : Prop := {
  dr_started : st_started s = true;
  dr_todo : w_todo (st_w s) = [];
  dr_phase : w_phase (st_w s) = WJoining ∨ (w_phase (st_w s) = WDone (Ok tt) ∧ f_pc (st_f s) = FDone (Ok tt));
  dr_pc : f_pc (st_f s) = FIdle MDrain ∨ (∃ ev, f_pc (st_f s) = FHandle MDrain ev) ∨ f_pc (st_f s) = FDone (Ok tt);
  dr_log : h_log s = h_log s0;
  dr_succs : succs (h_calls s) = succs (h_calls s0);
  dr_marks : written (st_wm s) = written (st_wm s0) ∧ durable (st_wm s) = durable (st_wm s0);
  dr_view : st_bv s = st_bv s0;
}.

Lemma drains_channels s0 s chs wm n :
  Drains s0 s → written wm = written (st_wm s) → durable wm = durable (st_wm s) →
  Drains s0 (with_wm (with_next_id (with_ch s chs) n) wm).
Proof. intros [] ??. split; cbn; try done. naive_solver congruence. Qed.

Lemma drains_on_channel s0 s name f s' : Drains s0 s → on_channel s name f = Some s' → Drains s0 s'.
Proof. intros Hd. unfold on_channel. repeat case_match; try done. intros [= <-]. by destruct Hd. Qed.

Lemma drains_watcher s0 s s' : Drains s0 s → drop_watcher s = Some s' → Drains s0 s'.
Proof. intros Hd. unfold drop_watcher. case_match; [done|]. intros [= <-]. by destruct Hd. Qed.

Lemma drains_not_ready s0 s : Drains s0 s → w_ready s = false.
Proof. intros []. unfold w_ready. destruct dr_phase0 as [-> | [-> _]]; done. Qed.

Lemma drains_work s0 s s' : refusing → Drains s0 s → flush_work s = Some s' → Drains s0 s'.
Proof.
  intros [Hfd Hfs] Hd. unfold flush_work. destruct (dr_pc _ _ Hd) as [Hpc|[[ev Hpc]|Hpc]]; rewrite Hpc; [done| |done].
  assert (Hph : w_phase (st_w s) = WJoining) by (destruct (dr_phase _ _ Hd) as [|[_ ?]]; [done|congruence]). destruct ev as [frozen|].
  - destruct (Hfd (flusher (st_f s)) (val frozen) (epoch_range frozen)) as (f' & e & ->). intros [= <-]. destruct Hd. split; cbn; auto.
    rewrite succs_app. cbn. by rewrite app_nil_r.
  - destruct (Hfs (flusher (st_f s))) as (f' & e & ->). intros [= <-]. destruct Hd. split; cbn; auto.
    rewrite succs_app. cbn. by rewrite app_nil_r.
Qed.

Lemma drains_step s0 s l s' : refusing → Drains s0 s → step s l = Some s' → Drains s0 s'.
Proof.
  intros Hr Hd. pose proof (drains_not_ready _ _ Hd) as Hn. pose proof (dr_started _ _ Hd) as Hs.
  destruct l as [| |name op|name|name| |name|name|name|name|name| | | | | | | | |]; cbn [step]; rewrite ?Hn, ?Hs; cbn [guard_ andb]; try done.
  - intros [= <-]. case_match; [done|]. by destruct Hd.
  - destruct (w_over s); [done|]. cbn. intros [= <-]. unfold stop. rewrite Hs. by destruct Hd.
  - unfold submit. repeat case_match; try done; intros [= <-]; [by apply drains_channels|done..].
  - unfold clone_handle. repeat case_match; try done. intros [= <-]. by destruct Hd.
  - unfold drop_handle. repeat case_match; try done. apply drains_watcher. by destruct Hd.
  - by apply drains_watcher.
  - by apply drains_on_channel.
  - by apply drains_on_channel.
  - by apply drains_on_channel.
  - unfold write_action. by rewrite (dr_todo _ _ Hd).
  - unfold join_flush_task. destruct (dr_phase _ _ Hd) as [-> | [-> _]]; [|done].
    destruct (dr_pc _ _ Hd) as [->|[[ev ->]|Hpc]]; [done..|]. rewrite Hpc. intros [= <-]. destruct Hd. split; cbn; auto.
  - unfold flush_recv. by destruct (dr_pc _ _ Hd) as [->|[[ev ->]| ->]].
  - unfold flush_stop. by destruct (dr_pc _ _ Hd) as [->|[[ev ->]| ->]].
  - unfold flush_drain. destruct (dr_pc _ _ Hd) as [Hpc|[[ev Hpc]|Hpc]]; rewrite Hpc; [|done..].
    assert (Hph : w_phase (st_w s) = WJoining) by (destruct (dr_phase _ _ Hd) as [|[_ ?]]; [done|congruence]).
    case_match; intros [= <-]; destruct Hd; split; cbn; eauto.
  - by apply drains_work.
Qed.

Lemma drains_steps s0 s ls s' : refusing → Drains s0 s → steps s ls = Some s' → Drains s0 s'.
Proof.
  intros Hr. revert s. induction ls as [|l ls IH]; intros s Hd; cbn [steps]; [by intros [= <-]|].
  destruct (step s l) as [s1|] eqn:E; [|done]. apply IH. by eapply drains_step.
Qed.

(** the steps of the drain *)
Fixpoint drain_labels (n : nat) : list label :=
  match n with O => [LFlushDrain; LJoin] | S n => LFlushDrain :: LFlushWork :: drain_labels n end.

Lemma drain_ends s : refusing → st_started s = true → w_phase (st_w s) = WJoining → f_pc (st_f s) = FIdle MDrain →
  ∃ s', steps s (drain_labels (length (st_q s))) = Some s' ∧ stop_result s' = Some (Ok tt) ∧ st_q s' = [].
Proof.
  intros [Hfd Hfs]. remember (length (st_q s)) as n eqn:En. revert s En. induction n as [|n IH]; intros s En Hs Hw Hpc; cbn [drain_labels steps step].
  - destruct (st_q s) eqn:Eq; [|done]. rewrite Hs. cbn [guard_]. unfold flush_drain. rewrite Hpc, Eq. cbn [steps step]. unfold join_flush_task. cbn.
    rewrite Hw. by eexists.
  - destruct (st_q s) as [|ev q] eqn:Eq; [done|]. rewrite Hs. cbn [guard_]. unfold flush_drain. rewrite Hpc, Eq. cbn [steps step with_f st_started].
    rewrite Hs. cbn [guard_]. unfold flush_work. cbn [with_f set_pc st_f f_pc flusher]. destruct ev as [frozen|].
    + destruct (Hfd (flusher (st_f s)) (val frozen) (epoch_range frozen)) as (f' & e & ->). apply IH; [by injection En|done..].
    + destruct (Hfs (flusher (st_f s))) as (f' & e & ->). apply IH; [by injection En|done..].
Qed.

(** C28: Whatever is still to be flushed when the flush task drains after the stop signal, a flusher that refuses all of
    it goes unnoticed: from any state in which the write task waits for the draining flush task, no sequence of steps makes
    [stop()] return anything but [Ok]; no pending delta is accepted, nothing of it becomes written or durable, and the drain does
    end, with [Ok] and an empty queue. *)
Theorem drain_failure_is_silent s :
  refusing → st_started s = true → w_phase (st_w s) = WJoining → w_todo (st_w s) = [] → f_pc (st_f s) = FIdle MDrain →
  (∀ ls s', steps s ls = Some s' →
     h_log s' = h_log s ∧ succs (h_calls s') = succs (h_calls s) ∧ st_bv s' = st_bv s ∧
     written (st_wm s') = written (st_wm s) ∧ durable (st_wm s') = durable (st_wm s) ∧
     ∀ r, stop_result s' = Some r → r = Ok tt) ∧
  ∃ ls s', steps s ls = Some s' ∧ stop_result s' = Some (Ok tt) ∧ st_q s' = [].
Proof.
  intros Hr Hs Hw Ht Hpc. split.
  - intros ls s' Hst. assert (Hd0 : Drains s s) by (split; auto). destruct (drains_steps s s ls s' Hr Hd0 Hst) as [_ _ Hp _ H1 H2 [H3 H4] H5].
    split_and!; [done..|]. intros r. unfold stop_result. destruct Hp as [-> | [-> _]]; [done|]. by intros [= <-].
  - eexists. by apply drain_ends.
Qed.
End drain.

(** a flusher that refuses everything *)
Definition BrokenFlusher : Flusher (H:=ListDelta) := {|
  F := list Z; Snapshot := list Z;
  flush_delta := λ f _ _, (f, Err "refused"%string);
  flush_storage := λ f, (f, Err "refused"%string);
|}.

Lemma drain_failure_is_silent_witness :
  ∃ s : State (FT:=BrokenFlusher),
    h_log s = [13 : @Write ListDelta] ∧ applied (st_wm s) = 1 ∧ length (st_q s) = 1%nat ∧
    ∃ ls s', steps s ls = Some s' ∧ stop_result s' = Some (Ok tt) ∧ st_q s' = [] ∧ written (st_wm s') = 0 ∧ succs (h_calls s') = [].
Proof.
  set (ls := (LStart :: demo_write 13 ++ [LStop; LBreak; LWrite; LWrite; LWrite; LFlushStop])).
  let s0 := eval vm_compute in (coordinator_new (FT:=BrokenFlusher) (mkConfig 4 10 2) ["a"%string] tt (@nil Z) (@nil Z)) in
  lazymatch s0 with Ok ?s0 =>
  let s := eval vm_compute in (steps (FT:=BrokenFlusher) s0 ls) in
  lazymatch s with Some ?s => exists s end end.
  split; [reflexivity|]. split; [reflexivity|]. split; [reflexivity|].
  match goal with |- context [steps ?s _] =>
    destruct (drain_failure_is_silent (FT:=BrokenFlusher) s) as [H (ls' & s' & Hst & Hstop & Hq)]; [split; intros; by do 2 eexists|reflexivity..|] end.
  destruct (H ls' s' Hst) as (_ & Hsu & _ & Hwr & _). exists ls', s'. split_and!; [exact Hst|exact Hstop|exact Hq|exact Hwr|exact Hsu].
Defined.
