(* ===== verification/Manifest.v ===== *)
(** * buffer::queue, first half: the binary queue manifest

    A manifest is the concatenation of encoded entries followed by a 22-byte
    footer (entry count, next sequence, consumer epoch, version).  Appended
    entries are kept in a second buffer until [to_bytes] merges them.

    [usize] offsets are [nat] (on the 64-bit targets they cannot overflow: an
    offset is at most a buffer length plus a [u32]).  The decoder threads the
    offset through [dec], also on errors, because [ManifestIter] keeps using it. *)
From S2P Require Import Prelude Encoding.

Definition MANIFEST_VERSION : Z := 1.
Definition UNINITIALIZED_EPOCH : Z := u_max 64.
Definition ENTRY_LEN_SIZE : nat := 4.
Definition LOCATION_LEN_SIZE : nat := 2.
Definition INGESTION_TIME_MS_SIZE : nat := 8.
Definition METADATA_LEN_SIZE : nat := 4.
Definition START_INDEX_SIZE : nat := 4.
Definition METADATA_COUNT_SIZE : nat := 4.
Definition ENTRIES_COUNT_SIZE : nat := 4.
Definition SEQUENCE_SIZE : nat := 8.
Definition EPOCH_SIZE : nat := 8.
Definition VERSION_SIZE : nat := 2.
Definition FOOTER_SIZE : nat := ENTRIES_COUNT_SIZE + SEQUENCE_SIZE + EPOCH_SIZE + VERSION_SIZE.

(** [initialize]: the next epoch, never [u64::MAX] *)
Definition next_epoch (ep : Z) : Z :=
  let n := wrap 64 (ep + 1) in
  if bool_decide (n = UNINITIALIZED_EPOCH) then wrap 64 (n + 1) else n.

(** error.rs; the messages are constructors *)
Inductive SerializationError : Type :=
| ManifestEmpty
| ManifestTooShort
| UnsupportedVersion (v : Z)
| TooManyEntries (base appended : Z)
| EntryLenField
| EntryTooShort
| EntryBelowMinimum (entry_len min_entry_len location_len : nat)
| LocationUtf8
| StartIndexField
| IngestionTimeField
| MetadataLenField
| MetadataTooShort
| BaseNotConsumed (offset entries_end : nat)
| UnsupportedCompression (v : Z)
| CompressionFailed
| DecompressionFailed
| BatchTooSmall
| UnsupportedBatchVersion (v : Z)
| TruncatedRecordLength
| TruncatedRecordData.

Inductive InputError : Type :=
| LocationTooLong (len : Z)
| TooManyMetadata (count : Z)
| PayloadTooLarge (size : Z)
| EntryTooLarge (size : Z)
| TooManyBatchEntries (count : Z)
| EmptyEntries
| MetadataTooLarge (size : Z).

Inductive StorageMessage : Type :=
| GetFailed
| PutFailed
| ListFailed
| BufferShutDown
| WriterNotRunning
| OutOfOrderAck (expected got : Z).

Inductive Error : Type :=
| StorageErr (msg : StorageMessage)
| Serialization (e : SerializationError)
| InvalidInput (e : InputError)
| Fenced.

Record Metadata : Type := mkMetadata {
  start_index : Z;
  ingestion_time_ms : Z;
  payload : bytes;
}.

Record QueueEntry : Type := mkEntry {
  sequence : Z;
  location : bytes;
  metadata : list Metadata;
}.

#[global] Instance Metadata_eq_dec : EqDecision Metadata.
Proof. solve_decision. Defined.
#[global] Instance QueueEntry_eq_dec : EqDecision QueueEntry.
Proof. solve_decision. Defined.

Definition QueueEntry_new (loc : bytes) (md : list Metadata) : res Error QueueEntry :=
  if bool_decide (u_max 16 < blen loc) then Err (InvalidInput (LocationTooLong (blen loc)))
  else if bool_decide (u_max 32 < blen md) then Err (InvalidInput (TooManyMetadata (blen md)))
  else Ok (mkEntry 0 loc md).

Definition clone_with_sequence (e : QueueEntry) (s : Z) : QueueEntry :=
  mkEntry s (location e) (metadata e).

Record Manifest : Type := mkManifest {
  data : bytes;
  appended : bytes;
  appended_count : Z;
  next_sequence : Z;
  epoch : Z;
}.

(** the footer every writer puts *)
Definition footer (count next epoch : Z) : bytes :=
  le_bytes 4 count ++ le_bytes 8 next ++ le_bytes 8 epoch ++ le_bytes 2 MANIFEST_VERSION.

Definition empty : Manifest := mkManifest (footer 0 0 0) [] 0 0 0.

(** [uN::from_le_bytes(data[a..a+n])] *)
Definition get_le (d : bytes) (a n : nat) : res Error Z :=
  let? bs := slice d a (a + n) in Ok (from_le bs).

Definition from_bytes (d : bytes) : res Error Manifest :=
  if bool_decide (d = []) then Err (Serialization ManifestEmpty)
  else if bool_decide (length d < FOOTER_SIZE)%nat then Err (Serialization ManifestTooShort)
  else
    let? version := get_le d (length d - VERSION_SIZE) VERSION_SIZE in
    if bool_decide (version ≠ MANIFEST_VERSION) then Err (Serialization (UnsupportedVersion version))
    else
      let? ep := get_le d (length d - VERSION_SIZE - EPOCH_SIZE) EPOCH_SIZE in
      let? ns := get_le d (length d - VERSION_SIZE - EPOCH_SIZE - SEQUENCE_SIZE) SEQUENCE_SIZE in
      Ok (mkManifest d [] 0 ns ep).

(** [data.len() - FOOTER_SIZE], 0 for an empty buffer *)
Definition entries_end (m : Manifest) : nat :=
  if bool_decide (data m = []) then 0 else length (data m) - FOOTER_SIZE.

(** the same where it is used as an index: an underflow ends out of range *)
Definition footer_start (m : Manifest) : res Error nat :=
  if bool_decide (length (data m) < FOOTER_SIZE)%nat then Panic
  else Ok (length (data m) - FOOTER_SIZE)%nat.

Definition existing_entries_count (m : Manifest) : res Error Z :=
  if bool_decide (data m = []) then Ok 0
  else
    let? footer_start := footer_start m in
    get_le (data m) footer_start ENTRIES_COUNT_SIZE.

Definition entries_count (m : Manifest) : res Error Z :=
  let? base := existing_entries_count m in Ok (base + appended_count m).

(** ** Encoding *)
Definition meta_size (m : Metadata) : nat :=
  START_INDEX_SIZE + INGESTION_TIME_MS_SIZE + METADATA_LEN_SIZE + length (payload m).

Definition entry_body_len (e : QueueEntry) : nat :=
  SEQUENCE_SIZE + LOCATION_LEN_SIZE + length (location e) +
  (METADATA_COUNT_SIZE + sum_list_with meta_size (metadata e)).

(** A failing entry leaves what was already written in the buffer. *)
Fixpoint encode_metadata (buf : bytes) (ms : list Metadata) : bytes * res Error unit :=
  match ms with
  | [] => (buf, Ok tt)
  | m :: ms =>
      if bool_decide (u_max 32 < blen (payload m))
      then (buf, Err (InvalidInput (PayloadTooLarge (blen (payload m)))))
      else encode_metadata
             (buf ++ le_bytes 4 (start_index m) ++ le_bytes 8 (ingestion_time_ms m) ++
              le_bytes 4 (blen (payload m)) ++ payload m) ms
  end.

(** The [debug_assert!]s are not part of a release build. *)
Definition encode_entry (buf : bytes) (e : QueueEntry) : bytes * res Error unit :=
  encode_metadata
    (buf ++ le_bytes 4 (Z.of_nat (entry_body_len e)) ++ le_bytes 8 (sequence e) ++
     le_bytes 2 (blen (location e)) ++ location e ++ le_bytes 4 (blen (metadata e)))
    (metadata e).

Definition append (m : Manifest) (e : QueueEntry) : Manifest * res Error unit :=
  let sequenced := clone_with_sequence e (next_sequence m) in
  match encode_entry (appended m) sequenced with
  | (buf, Ok _) =>
      (mkManifest (data m) buf (appended_count m + 1) (wrap 64 (next_sequence m + 1)) (epoch m), Ok tt)
  | (buf, r) => (mkManifest (data m) buf (appended_count m) (next_sequence m) (epoch m), r)
  end.

(** ** Decoding *)
Definition dec (A : Type) : Type := nat → res Error A * nat.

Definition dec_bind {A B} (m : dec A) (k : A → dec B) : dec B :=
  λ off, match m off with
         | (Ok a, off) => k a off
         | (Err e, off) => (Err e, off)
         | (Panic, off) => (Panic, off)
         end.
Definition dec_ret {A} (a : A) : dec A := λ off, (Ok a, off).
Notation "'let!' x := m 'in' k" := (dec_bind m (fun x => k))
  (at level 10, x strict pattern, m at level 100, k at level 200) : rust_scope.

(** [if *offset + n > end { return Err(e) }] *)
Definition need (n end_ : nat) (e : SerializationError) : dec unit :=
  λ off, if bool_decide (end_ < off + n)%nat then (Err (Serialization e), off) else (Ok tt, off).

(** [data[*offset..*offset + n]; *offset += n] *)
Definition read_bytes (d : bytes) (n : nat) : dec bytes :=
  λ off, match slice d off (off + n) with
         | Ok bs => (Ok bs, (off + n)%nat)
         | Err e => (Err e, off)
         | Panic => (Panic, off)
         end.

Definition read_le (d : bytes) (n : nat) : dec Z :=
  let! bs := read_bytes d n in dec_ret (from_le bs).

Definition decode_meta (d : bytes) (end_ : nat) : dec Metadata :=
  let! _ := need START_INDEX_SIZE end_ StartIndexField in
  let! si := read_le d START_INDEX_SIZE in
  let! _ := need INGESTION_TIME_MS_SIZE end_ IngestionTimeField in
  let! t := read_le d INGESTION_TIME_MS_SIZE in
  let! _ := need METADATA_LEN_SIZE end_ MetadataLenField in
  let! m_len := read_le d METADATA_LEN_SIZE in
  let! _ := need (Z.to_nat m_len) end_ MetadataTooShort in
  let! p := read_bytes d (Z.to_nat m_len) in
  dec_ret (mkMetadata si (as_signed 64 t) p).

Fixpoint decode_metas (d : bytes) (end_ count : nat) : dec (list Metadata) :=
  match count with
  | O => dec_ret []
  | S count =>
      let! m := decode_meta d end_ in
      let! ms := decode_metas d end_ count in
      dec_ret (m :: ms)
  end.

Definition decode_entry (d : bytes) (end_ : nat) : dec QueueEntry :=
  let! _ := need ENTRY_LEN_SIZE end_ EntryLenField in
  let! entry_len := read_le d ENTRY_LEN_SIZE in
  let entry_len := Z.to_nat entry_len in
  let! _ := need entry_len end_ EntryTooShort in
  λ off0,
    let entry_end := (off0 + entry_len)%nat in
    (let! seq := read_le d SEQUENCE_SIZE in
     let! location_len := read_le d LOCATION_LEN_SIZE in
     let location_len := Z.to_nat location_len in
     let min_entry_len :=
       (SEQUENCE_SIZE + LOCATION_LEN_SIZE + location_len + METADATA_COUNT_SIZE)%nat in
     if bool_decide (entry_len < min_entry_len)%nat
     then λ off, (Err (Serialization (EntryBelowMinimum entry_len min_entry_len location_len)), off)
     else
       (* the offset moves past the location only when it is UTF-8 *)
       let! loc := λ off,
         match read_bytes d location_len off with
         | (Ok bs, off') =>
             if utf8_valid bs then (Ok bs, off') else (Err (Serialization LocationUtf8), off)
         | r => r
         end in
       let! metadata_count := read_le d METADATA_COUNT_SIZE in
       let! ms := decode_metas d end_ (Z.to_nat metadata_count) in
       λ _, (Ok (mkEntry seq loc ms), entry_end)) off0.

(** ** dequeue, set_epoch, to_bytes *)
(** The loop of [split_entries] from entry [count - left] on. *)
Fixpoint split_loop (d : bytes) (end_ : nat) (through : Z) (left : nat) (offset : nat)
    (removed : list QueueEntry) : res Error (list QueueEntry * nat * Z) :=
  match left with
  | O => Ok (removed, end_, 0)
  | S left' =>
      match decode_entry d end_ offset with
      | (Ok e, offset') =>
          if bool_decide (sequence e ≤ through)
          then split_loop d end_ through left' offset' (removed ++ [e])
          else Ok (removed, offset, wrap 32 (Z.of_nat left))
      | (Err e, _) => Err e
      | (Panic, _) => Panic
      end
  end.

Definition split_entries (d : bytes) (count : Z) (end_ : nat) (through : Z) :
    res Error (list QueueEntry * nat * Z) :=
  split_loop d end_ through (Z.to_nat count) 0 [].

Definition dequeue (m : Manifest) (through : Z) : res Error (list QueueEntry * Manifest) :=
  let? base_count := existing_entries_count m in
  let? (removed, base_start, base_left) :=
    split_entries (data m) base_count (entries_end m) through in
  let appended_end := length (appended m) in
  let? (appended_removed, appended_start, appended_left) :=
    split_entries (appended m) (appended_count m) appended_end through in
  let? remaining_base := slice (data m) base_start (entries_end m) in
  let? remaining_appended := slice (appended m) appended_start appended_end in
  let total_remaining := wrap 32 (base_left + appended_left) in
  let buf := remaining_base ++ remaining_appended ++
             footer total_remaining (next_sequence m) (epoch m) in
  Ok (removed ++ appended_removed, mkManifest buf [] 0 (next_sequence m) (epoch m)).

(** [buf[epoch_start..epoch_start + 8].copy_from_slice(..)]; a buffer shorter
    than ten bytes panics (the subtraction wraps, the index is out of range). *)
Definition set_epoch (m : Manifest) (ep : Z) : res Error Manifest :=
  let d := data m in
  if bool_decide (length d < VERSION_SIZE + EPOCH_SIZE)%nat then Panic
  else
    let s := (length d - VERSION_SIZE - EPOCH_SIZE)%nat in
    Ok (mkManifest (take s d ++ le_bytes 8 ep ++ drop (s + EPOCH_SIZE) d)
          (appended m) (appended_count m) (next_sequence m) ep).

Definition to_bytes (m : Manifest) : res Error bytes :=
  if bool_decide (appended m = []) then Ok (data m)
  else
    let? (prefix, base_count) :=
      if bool_decide (data m = []) then Ok ([], 0)
      else
        let? footer_start := footer_start m in
        let? count := get_le (data m) footer_start ENTRIES_COUNT_SIZE in
        let? p := slice (data m) 0 footer_start in
        Ok (p, count) in
    let added := wrap 32 (appended_count m) in
    if bool_decide (u_max 32 < base_count + added)
    then Err (Serialization (TooManyEntries base_count (appended_count m)))
    else Ok (prefix ++ appended m ++ footer (base_count + added) (next_sequence m) (epoch m)).

(** ** Iteration *)
Record ManifestIter : Type := mkIter {
  it_data : bytes;
  it_offset : nat;
  it_remaining : nat;
  it_entries_end : nat;
  it_appended : bytes;
  it_appended_offset : nat;
  it_appended_remaining : nat;
}.

Definition iter (m : Manifest) : res Error ManifestIter :=
  let? base := existing_entries_count m in
  Ok (mkIter (data m) 0 (Z.to_nat base) (entries_end m) (appended m) 0
        (Z.to_nat (appended_count m))).

Definition iter_next (it : ManifestIter) : option (res Error QueueEntry * ManifestIter) :=
  match it_remaining it, it_appended_remaining it with
  | S r, _ =>
      let '(x, off) := decode_entry (it_data it) (it_entries_end it) (it_offset it) in
      Some (x, mkIter (it_data it) off r (it_entries_end it) (it_appended it)
                 (it_appended_offset it) (it_appended_remaining it))
  | O, S a =>
      let '(x, off) :=
        decode_entry (it_appended it) (length (it_appended it)) (it_appended_offset it) in
      Some (x, mkIter (it_data it) (it_offset it) O (it_entries_end it) (it_appended it) off a)
  | O, O =>
      if bool_decide (it_offset it ≠ it_entries_end it)
      then Some (Err (Serialization (BaseNotConsumed (it_offset it) (it_entries_end it))),
                 mkIter (it_data it) (it_entries_end it) O (it_entries_end it) (it_appended it)
                   (it_appended_offset it) O)
      else None
  end.

(** items left, the closing check included *)
Definition iter_fuel (it : ManifestIter) : nat :=
  S (S (it_remaining it + it_appended_remaining it)).

(** [iter().collect::<Result<Vec<_>>>()]: stops at the first error. *)
Fixpoint collect_loop (fuel : nat) (it : ManifestIter) : res Error (list QueueEntry) :=
  match fuel with
  | O => Panic
  | S fuel =>
      match iter_next it with
      | None => Ok []
      | Some (r, it) => let? e := r in let? es := collect_loop fuel it in Ok (e :: es)
      end
  end.

Definition collect (it : ManifestIter) : res Error (list QueueEntry) :=
  collect_loop (iter_fuel it) it.

(** [iter().find(|e| matches!(e, Ok(e) if p(e)))]: skips errors. *)
Fixpoint find_loop (fuel : nat) (p : QueueEntry → bool) (it : ManifestIter) :
    res Error (option QueueEntry) :=
  match fuel with
  | O => Panic
  | S fuel =>
      match iter_next it with
      | None => Ok None
      | Some (Ok e, it) => if p e then Ok (Some e) else find_loop fuel p it
      | Some (Err _, it) => find_loop fuel p it
      | Some (Panic, _) => Panic
      end
  end.

Definition find (p : QueueEntry → bool) (it : ManifestIter) : res Error (option QueueEntry) :=
  find_loop (iter_fuel it) p it.

Record ManifestView : Type := mkManifestView {
  mv_epoch : Z;
  mv_next_sequence : Z;
  mv_entries : list QueueEntry;
}.

Definition parse_manifest (d : bytes) : res Error ManifestView :=
  let? m := from_bytes d in
  let? it := iter m in
  let? es := collect it in
  Ok (mkManifestView (epoch m) (next_sequence m) es).

(** * Correctness *)

(** ** The format as a pure function *)
Definition enc_meta (m : Metadata) : bytes :=
  le_bytes 4 (start_index m) ++ le_bytes 8 (ingestion_time_ms m) ++
  le_bytes 4 (blen (payload m)) ++ payload m.

Definition enc_entry (e : QueueEntry) : bytes :=
  le_bytes 4 (Z.of_nat (entry_body_len e)) ++ le_bytes 8 (sequence e) ++
  le_bytes 2 (blen (location e)) ++ location e ++ le_bytes 4 (blen (metadata e)) ++
  concat (enc_meta <$> metadata e).

#[local] Arguments enc_meta : simpl never.
#[local] Arguments enc_entry : simpl never.
#[local] Arguments meta_size : simpl never.
#[local] Arguments le_bytes : simpl never.

Definition enc_entries (es : list QueueEntry) : bytes := concat (enc_entry <$> es).

(** What a producer may put: the last condition is a [debug_assert!] of
    [encode_entry]; beyond it the length field is cut to 32 bits. *)
Definition wf_meta (m : Metadata) : Prop :=
  in_u 32 (start_index m) ∧ in_i 64 (ingestion_time_ms m) ∧ blen (payload m) ≤ u_max 32.
Definition wf_entry (e : QueueEntry) : Prop :=
  in_u 64 (sequence e) ∧ wf_str (location e) ∧ blen (metadata e) ≤ u_max 32 ∧
  Forall wf_meta (metadata e) ∧ Z.of_nat (entry_body_len e) ≤ u_max 32.

Lemma encode_metadata_spec buf ms :
  Forall wf_meta ms → encode_metadata buf ms = (buf ++ concat (enc_meta <$> ms), Ok tt).
Proof.
  intros Hms. revert buf. induction Hms as [|m ms (_ & _ & Hp) _ IH]; intros buf; simpl.
  - by rewrite app_nil_r.
  - rewrite bool_decide_false by lia. rewrite IH. unfold enc_meta. by rewrite <-!app_assoc.
Qed.

Lemma encode_entry_spec buf e :
  wf_entry e → encode_entry buf e = (buf ++ enc_entry e, Ok tt).
Proof.
  intros (_ & _ & _ & Hm & _). unfold encode_entry, enc_entry.
  rewrite encode_metadata_spec by done. by rewrite <-!app_assoc.
Qed.

Lemma enc_meta_length m : length (enc_meta m) = meta_size m.
Proof. unfold enc_meta, meta_size. rewrite !length_app, !le_bytes_length. unfold START_INDEX_SIZE, INGESTION_TIME_MS_SIZE, METADATA_LEN_SIZE. lia. Qed.

Lemma enc_metas_length ms : length (concat (enc_meta <$> ms)) = sum_list_with meta_size ms.
Proof.
  induction ms as [|m ms IH]; [done|]. rewrite !fmap_cons. cbn [concat sum_list_with].
  by rewrite length_app, enc_meta_length, IH.
Qed.

Lemma enc_entry_length e : length (enc_entry e) = (4 + entry_body_len e)%nat.
Proof.
  unfold enc_entry, entry_body_len. rewrite !length_app, !le_bytes_length, enc_metas_length.
  unfold SEQUENCE_SIZE, LOCATION_LEN_SIZE, METADATA_COUNT_SIZE. lia.
Qed.

(** ** Reading at an offset

    [at_ d off rest]: what lies at [off] in [d]. *)
Definition at_ (d : bytes) (off : nat) (rest : bytes) : Prop :=
  drop off d = rest ∧ (off ≤ length d)%nat.

Lemma at_slice d off x rest :
  at_ d off (x ++ rest) →
  slice (E:=Error) d off (off + length x) = Ok x ∧ at_ d (off + length x) rest.
Proof.
  intros [Hd Hl]. assert (Hlen : (off + length x + length rest = length d)%nat).
  { apply (f_equal length) in Hd. rewrite length_drop, length_app in Hd. lia. }
  split.
  - unfold slice. rewrite bool_decide_true by lia. f_equal. rewrite Hd.
    by rewrite take_app_length' by lia.
  - split; [|lia]. by rewrite <-drop_drop, Hd, drop_app_length.
Qed.

Lemma read_bytes_at d off x rest n :
  at_ d off (x ++ rest) → n = length x →
  read_bytes d n off = (Ok x, off + n)%nat ∧ at_ d (off + n) rest.
Proof. intros Ha ->. destruct (at_slice _ _ _ _ Ha) as [Hs ?]. unfold read_bytes. by rewrite Hs. Qed.

Lemma read_le_at d off n z rest :
  at_ d off (le_bytes n z ++ rest) → in_u (8 * Z.of_nat n) z →
  read_le d n off = (Ok z, off + n)%nat ∧ at_ d (off + n) rest.
Proof.
  intros Ha Hz. destruct (read_bytes_at _ _ _ _ n Ha) as [Hr ?]; [by rewrite le_bytes_length|].
  unfold read_le, dec_bind. rewrite Hr. unfold dec_ret. by rewrite from_le_roundtrip.
Qed.

Lemma blen_nat {A} (l : list A) : Z.to_nat (blen l) = length l.
Proof. unfold blen. lia. Qed.

Lemma need_ok n end_ e off : (off + n ≤ end_)%nat → need n end_ e off = (Ok tt, off).
Proof. intros. unfold need. by rewrite bool_decide_false by lia. Qed.

(** ** Round trip of one entry *)
Lemma decode_meta_at d end_ off m rest :
  wf_meta m → at_ d off (enc_meta m ++ rest) → (off + meta_size m ≤ end_)%nat →
  decode_meta d end_ off = (Ok m, off + meta_size m)%nat ∧ at_ d (off + meta_size m) rest.
Proof.
  intros (Hs & Ht & Hp) Ha He. unfold enc_meta in Ha. rewrite <-!app_assoc in Ha.
  unfold meta_size, START_INDEX_SIZE, INGESTION_TIME_MS_SIZE, METADATA_LEN_SIZE in *.
  unfold decode_meta, START_INDEX_SIZE, INGESTION_TIME_MS_SIZE, METADATA_LEN_SIZE.
  destruct (read_le_at _ _ _ _ _ Ha Hs) as [H1 Ha1].
  destruct (read_bytes_at _ _ _ _ 8 Ha1) as [H2 Ha2]; [by rewrite le_bytes_length|].
  assert (Hu : in_u (8 * Z.of_nat 4) (blen (payload m))) by (unfold in_u, u_max, blen in *; lia).
  destruct (read_le_at _ _ _ _ _ Ha2 Hu) as [H3 Ha3].
  destruct (read_bytes_at _ _ _ _ (Z.to_nat (blen (payload m))) Ha3) as [H4 Ha4];
    [unfold blen; lia|].
  unfold dec_bind at 1. rewrite need_ok by lia. unfold dec_bind at 1. rewrite H1.
  unfold dec_bind at 1. rewrite need_ok by lia. unfold dec_bind at 1.
  unfold read_le at 1, dec_bind at 1. rewrite H2. unfold dec_ret at 1.
  unfold dec_bind at 1. rewrite need_ok by lia. unfold dec_bind at 1. rewrite H3.
  unfold dec_bind at 1. rewrite need_ok by (unfold blen; lia). unfold dec_bind at 1. rewrite H4.
  unfold dec_ret, blen in *. rewrite Nat2Z.id in *.
  replace (off + (4 + 8 + 4 + length (payload m)))%nat with (off + 4 + 8 + 4 + length (payload m))%nat by lia.
  split; [|done]. rewrite from_le_le_bytes, as_signed_mod by done. by destruct m.
Qed.

Lemma decode_metas_at d end_ ms : ∀ off rest,
  Forall wf_meta ms → at_ d off (concat (enc_meta <$> ms) ++ rest) →
  (off + sum_list_with meta_size ms ≤ end_)%nat →
  decode_metas d end_ (length ms) off = (Ok ms, off + sum_list_with meta_size ms)%nat.
Proof.
  induction ms as [|m ms IH]; intros off rest Hwf Ha He.
  - cbn. by rewrite Nat.add_0_r.
  - apply Forall_cons in Hwf as [Hm Hms]. rewrite fmap_cons in Ha. cbn [concat sum_list_with] in Ha, He |- *. rewrite <-app_assoc in Ha.
    cbn [length decode_metas].
    destruct (decode_meta_at _ end_ _ _ _ Hm Ha) as [Hd Ha']; [lia|].
    unfold dec_bind at 1. rewrite Hd. unfold dec_bind at 1.
    rewrite (IH _ _ Hms Ha') by lia. unfold dec_ret. by rewrite Nat.add_assoc.
Qed.

Lemma decode_entry_at d end_ off e rest :
  wf_entry e → at_ d off (enc_entry e ++ rest) → (off + length (enc_entry e) ≤ end_)%nat →
  decode_entry d end_ off = (Ok e, off + length (enc_entry e))%nat ∧
  at_ d (off + length (enc_entry e)) rest.
Proof.
  intros (Hseq & [Hu Hl] & Hmc & Hms & Hbody) Ha He.
  split; [|by destruct (at_slice _ _ _ _ Ha)].
  rewrite enc_entry_length in *. unfold enc_entry in Ha. rewrite <-!app_assoc in Ha.
  assert (Hb : in_u (8 * Z.of_nat 4) (Z.of_nat (entry_body_len e))) by (unfold in_u, u_max in *; lia).
  assert (Hmc' : in_u (8 * Z.of_nat 4) (blen (metadata e))) by (unfold in_u, u_max, blen in *; lia).
  destruct (read_le_at _ _ _ _ _ Ha Hb) as [H1 Ha1].
  destruct (read_le_at _ _ _ _ _ Ha1 Hseq) as [H2 Ha2].
  destruct (read_le_at _ _ 2 _ _ Ha2 (blen_u16 _ Hl)) as [H3 Ha3].
  destruct (read_bytes_at _ _ _ _ (length (location e)) Ha3 eq_refl) as [H4 Ha4].
  destruct (read_le_at _ _ _ _ _ Ha4 Hmc') as [H5 Ha5].
  assert (Hlen : entry_body_len e = (8 + 2 + length (location e) + 4 + sum_list_with meta_size (metadata e))%nat)
    by (unfold entry_body_len, SEQUENCE_SIZE, LOCATION_LEN_SIZE, METADATA_COUNT_SIZE; lia).
  unfold decode_entry, ENTRY_LEN_SIZE, SEQUENCE_SIZE, LOCATION_LEN_SIZE, METADATA_COUNT_SIZE.
  unfold dec_bind at 1. rewrite need_ok by lia. unfold dec_bind at 1. rewrite H1, Nat2Z.id.
  unfold dec_bind at 1. rewrite need_ok by lia.
  unfold dec_bind at 1. rewrite H2. unfold dec_bind at 1. rewrite H3.
  rewrite !blen_nat. rewrite bool_decide_false by lia.
  unfold dec_bind at 1. rewrite H4, Hu. unfold dec_bind at 1. rewrite H5.
  unfold dec_bind at 1. rewrite blen_nat.
  rewrite (decode_metas_at _ _ _ _ _ Hms Ha5) by lia. rewrite Nat.add_assoc. by destruct e.
Qed.

(** ** The abstract queue *)
Record Queue : Type := mkQueue {
  q_entries : list QueueEntry;
  q_next : Z;
  q_epoch : Z;
}.

Definition q_empty : Queue := mkQueue [] 0 0.
Definition q_append (q : Queue) (e : QueueEntry) : Queue :=
  mkQueue (q_entries q ++ [clone_with_sequence e (q_next q)]) (q_next q + 1) (q_epoch q).
Definition q_removed (q : Queue) (t : Z) : list QueueEntry :=
  filter (λ e, sequence e ≤ t) (q_entries q).
Definition q_dequeue (q : Queue) (t : Z) : Queue :=
  mkQueue (filter (λ e, ¬ sequence e ≤ t) (q_entries q)) (q_next q) (q_epoch q).
Definition q_set_epoch (q : Queue) (ep : Z) : Queue := mkQueue (q_entries q) (q_next q) ep.

(** consecutive numbers, starting at [n] *)
Fixpoint seqs_from (n : Z) (es : list QueueEntry) : Prop :=
  match es with
  | [] => True
  | e :: es => sequence e = n ∧ seqs_from (n + 1) es
  end.

(** A queue as the program keeps it: numbered up to [q_next], storable. *)
Record QueueOk (q : Queue) : Prop := {
  qo_wf : Forall wf_entry (q_entries q);
  qo_seqs : seqs_from (q_next q - blen (q_entries q)) (q_entries q);
  qo_next : in_u 64 (q_next q) ∧ blen (q_entries q) ≤ q_next q;
  qo_epoch : in_u 64 (q_epoch q);
  qo_count : blen (q_entries q) ≤ u_max 32;
}.

(** [m] represents [q]: a base part with its footer and an appended part. *)
Record refines (m : Manifest) (q : Queue) : Prop := {
  rf_parts : ∃ b a ns ep,
    q_entries q = b ++ a ∧
    data m = enc_entries b ++ footer (blen b) ns ep ∧
    appended m = enc_entries a ∧ appended_count m = blen a ∧
    in_u 64 ns ∧ in_u 64 ep ∧
    (a = [] → ns = q_next q ∧ ep = q_epoch q);
  rf_next : next_sequence m = q_next q;
  rf_epoch : epoch m = q_epoch q;
}.

Lemma enc_entries_app a b : enc_entries (a ++ b) = enc_entries a ++ enc_entries b.
Proof. unfold enc_entries. by rewrite fmap_app, concat_app. Qed.

Lemma enc_entries_cons e es : enc_entries (e :: es) = enc_entry e ++ enc_entries es.
Proof. done. Qed.

Lemma enc_entries_nil es : enc_entries es = [] → es = [].
Proof.
  destruct es as [|e es]; [done|]. rewrite enc_entries_cons. intros H.
  apply app_eq_nil in H as [H _]. apply (f_equal length) in H. rewrite enc_entry_length in H.
  simpl in H. lia.
Qed.

Lemma footer_length c n e : length (footer c n e) = 22%nat.
Proof. unfold footer. by rewrite !length_app, !le_bytes_length. Qed.

(** ** Footers *)
Lemma get_le_at d off n z rest :
  at_ d off (le_bytes n z ++ rest) → in_u (8 * Z.of_nat n) z → get_le d off n = Ok z.
Proof.
  intros Ha Hz. destruct (at_slice _ _ _ _ Ha) as [Hs _]. rewrite le_bytes_length in Hs.
  unfold get_le. rewrite Hs. simpl. by rewrite from_le_roundtrip.
Qed.

Lemma at_app x y : at_ (x ++ y) (length x) y.
Proof. split; [by rewrite drop_app_length|rewrite length_app; lia]. Qed.

Lemma at_app' x y n : n = length x → at_ (x ++ y) n y.
Proof. intros ->. apply at_app. Qed.

(** The four fields of a footer at the end of any prefix. *)
Lemma footer_fields pre c n e :
  in_u 32 c → in_u 64 n → in_u 64 e →
  let d := pre ++ footer c n e in
  get_le d (length d - 22) 4 = Ok c ∧ get_le d (length d - 2 - 8 - 8) 8 = Ok n ∧
  get_le d (length d - 2 - 8) 8 = Ok e ∧ get_le d (length d - 2) 2 = Ok MANIFEST_VERSION.
Proof.
  intros Hc Hn He d. assert (Hl : length d = (length pre + 22)%nat).
  { unfold d. by rewrite length_app, footer_length. }
  rewrite Hl. unfold d, footer. split_and!.
  - eapply get_le_at; [|done]. apply at_app'. lia.
  - rewrite app_assoc. eapply get_le_at; [|done]. apply at_app'.
    rewrite length_app, le_bytes_length. lia.
  - rewrite !app_assoc, <-(app_assoc _ _ (le_bytes 2 _)). eapply get_le_at; [|done]. apply at_app'.
    rewrite !length_app, !le_bytes_length. lia.
  - rewrite !app_assoc. rewrite <-(app_nil_r (le_bytes 2 _)). eapply get_le_at; [apply at_app'|done].
    rewrite !length_app, !le_bytes_length. lia.
Qed.

Lemma from_bytes_footer pre c n e :
  in_u 32 c → in_u 64 n → in_u 64 e →
  from_bytes (pre ++ footer c n e) = Ok (mkManifest (pre ++ footer c n e) [] 0 n e).
Proof.
  intros Hc Hn He. destruct (footer_fields pre c n e Hc Hn He) as (_ & H2 & H3 & H4).
  assert (Hl : length (pre ++ footer c n e) = (length pre + 22)%nat)
    by (by rewrite length_app, footer_length).
  unfold from_bytes, VERSION_SIZE, EPOCH_SIZE, SEQUENCE_SIZE.
  rewrite bool_decide_false; [|intros E; rewrite E in Hl; simpl in Hl; lia].
  rewrite bool_decide_false by (rewrite Hl; unfold FOOTER_SIZE, ENTRIES_COUNT_SIZE, SEQUENCE_SIZE, EPOCH_SIZE, VERSION_SIZE; lia).
  rewrite H4. cbn [res_bind]. rewrite bool_decide_false by tauto. by rewrite H3, H2.
Qed.

(** ** Splitting at a sequence number *)
Lemma seqs_from_app n a b : seqs_from n (a ++ b) ↔ seqs_from n a ∧ seqs_from (n + blen a) b.
Proof.
  revert n. induction a as [|e a IH]; intros n; simpl.
  - unfold blen; simpl. rewrite Z.add_0_r. tauto.
  - rewrite IH. unfold blen; simpl. replace (n + 1 + Z.of_nat (length a)) with (n + Z.of_nat (S (length a))) by lia. tauto.
Qed.

Lemma seqs_from_ge n es : seqs_from n es → Forall (λ e, n ≤ sequence e < n + blen es) es.
Proof.
  revert n. induction es as [|e es IH]; intros n; simpl; [constructor|].
  intros [He Hs]. specialize (IH _ Hs). unfold blen in *; simpl. constructor; [lia|].
  eapply Forall_impl; [exact IH|]. simpl. intros. lia.
Qed.

(** On consecutive numbers the entries up to [t] are a prefix. *)
Lemma seqs_split n es t :
  seqs_from n es → es = filter (λ e, sequence e ≤ t) es ++ filter (λ e, ¬ sequence e ≤ t) es.
Proof.
  revert n. induction es as [|e es IH]; intros n; [done|]. intros [He Hs].
  destruct (decide (sequence e ≤ t)) as [Ht|Ht].
  - rewrite filter_cons_True, filter_cons_False by tauto. simpl. f_equal. eauto.
  - pose proof (seqs_from_ge _ _ Hs) as Hge.
    rewrite (filter_cons_False (λ e, sequence e ≤ t)), (filter_cons_True (λ e, ¬ _)) by done.
    rewrite (filter_none _ es), (filter_all _ es); [done|..];
      eapply Forall_impl; try exact Hge; simpl; intros; lia.
Qed.

Lemma split_loop_spec d end_ t es : ∀ n off removed rest,
  Forall wf_entry es → seqs_from n es → at_ d off (enc_entries es ++ rest) →
  (off + length (enc_entries es))%nat = end_ → blen es ≤ u_max 32 →
  split_loop d end_ t (length es) off removed =
    Ok (removed ++ filter (λ e, sequence e ≤ t) es,
        (off + length (enc_entries (filter (λ e, (sequence e ≤ t)%Z) es)))%nat,
        blen (filter (λ e, ¬ sequence e ≤ t) es)).
Proof.
  induction es as [|e es IH]; intros n off removed rest Hwf Hseq Ha He Hc.
  { cbn in *. by rewrite app_nil_r, He. }
  apply Forall_cons in Hwf as [Hwe Hwf]. destruct Hseq as [Hn Hseq].
  rewrite enc_entries_cons in *. rewrite <-app_assoc in Ha.
  destruct (decode_entry_at d end_ off e _ Hwe Ha) as [Hd Ha']; [rewrite length_app in He; lia|].
  cbn [length split_loop]. rewrite Hd. case_bool_decide as Ht.
  - erewrite (IH (n + 1)); eauto.
    + rewrite (filter_cons_True (λ e, sequence e ≤ t)) by done.
      rewrite (filter_cons_False (λ e, ¬ _)) by tauto.
      rewrite enc_entries_cons, length_app, <-app_assoc, Nat.add_assoc. done.
    + rewrite length_app in He. lia.
    + unfold blen in *. simpl in Hc. lia.
  - pose proof (seqs_from_ge _ _ Hseq) as Hge.
    rewrite (filter_none (λ e, sequence e ≤ t)), (filter_all (λ e, ¬ sequence e ≤ t)).
    + rewrite app_nil_r. cbn. rewrite Nat.add_0_r. unfold blen, wrap, u_max in *. cbn in *.
      rewrite Z.mod_small by lia. done.
    + constructor; [done|]. eapply Forall_impl; [exact Hge|]. simpl; intros; lia.
    + constructor; [done|]. eapply Forall_impl; [exact Hge|]. simpl; intros; lia.
Qed.

(** ** Iterating over a represented manifest *)
Lemma collect_entries d en ap : ∀ b a off aoff rest fuel,
  Forall wf_entry (b ++ a) → at_ d off (enc_entries b ++ rest) →
  (off + length (enc_entries b))%nat = en →
  at_ ap aoff (enc_entries a) →
  (S (length b + length a) ≤ fuel)%nat →
  collect_loop fuel (mkIter d off (length b) en ap aoff (length a)) = Ok (b ++ a).
Proof.
  induction b as [|e b IHb].
  - induction a as [|e a IHa]; intros off aoff rest [|fuel] Hwf Ha He Hap Hf; try (simpl in Hf; lia).
    + cbn in He. cbn. by rewrite bool_decide_false by lia.
    + apply Forall_cons in Hwf as [Hwe Hwf]. rewrite enc_entries_cons in Hap.
      destruct (decode_entry_at ap (length ap) aoff e _ Hwe Hap) as [Hd Hap'].
      { destruct Hap as [Hap ?]. apply (f_equal length) in Hap.
        rewrite length_drop, length_app in Hap. lia. }
      cbn [collect_loop iter_next it_remaining it_appended_remaining length it_appended it_appended_offset].
      rewrite Hd. cbn [res_bind it_data it_offset it_entries_end].
      cbn [length]. erewrite (IHa off); eauto. cbn [length] in *. lia.
  - intros a off aoff rest [|fuel] Hwf Ha He Hap Hf; [simpl in Hf; lia|].
    apply Forall_cons in Hwf as [Hwe Hwf]. rewrite enc_entries_cons in Ha, He.
    rewrite <-app_assoc in Ha. rewrite length_app in He.
    destruct (decode_entry_at d en off e _ Hwe Ha) as [Hd Ha']; [lia|].
    cbn [collect_loop iter_next it_remaining it_appended_remaining length it_data it_offset it_entries_end].
    rewrite Hd. cbn [res_bind it_appended it_appended_offset].
    erewrite IHb; eauto; [lia|simpl in Hf; lia].
Qed.

(** The first item of a successful collection. *)
Lemma collect_head it es :
  collect it = Ok es →
  match iter_next it with None => es = [] | Some (r, _) => ∃ e, r = Ok e ∧ head es = Some e end.
Proof.
  unfold collect. remember (iter_fuel it) as f. destruct f as [|f]; [done|]. cbn [collect_loop].
  destruct (iter_next it) as [[r it']|]; intros H; [|by simplify_eq].
  destruct r; [|done|done]. cbn [res_bind] in H. inv_ok. simplify_eq. eauto.
Qed.

Lemma find_entries p d en ap : ∀ b a off aoff rest fuel,
  Forall wf_entry (b ++ a) → at_ d off (enc_entries b ++ rest) →
  (off + length (enc_entries b))%nat = en →
  at_ ap aoff (enc_entries a) →
  (S (length b + length a) ≤ fuel)%nat →
  find_loop fuel p (mkIter d off (length b) en ap aoff (length a)) =
    Ok (head (filter (λ e, p e = true) (b ++ a))).
Proof.
  induction b as [|e b IHb].
  - induction a as [|e a IHa]; intros off aoff rest [|fuel] Hwf Ha He Hap Hf; try (simpl in Hf; lia).
    + cbn in He. cbn. by rewrite bool_decide_false by lia.
    + apply Forall_cons in Hwf as [Hwe Hwf]. rewrite enc_entries_cons in Hap.
      destruct (decode_entry_at ap (length ap) aoff e _ Hwe Hap) as [Hd Hap'].
      { destruct Hap as [Hap ?]. apply (f_equal length) in Hap.
        rewrite length_drop, length_app in Hap. lia. }
      cbn [find_loop iter_next it_remaining it_appended_remaining length it_appended it_appended_offset].
      rewrite Hd. cbn [it_data it_offset it_entries_end app].
      destruct (p e) eqn:Hp; [by rewrite filter_cons_True|]. rewrite filter_cons_False by congruence.
      eapply (IHa off); eauto. cbn [length] in *. lia.
  - intros a off aoff rest [|fuel] Hwf Ha He Hap Hf; [simpl in Hf; lia|].
    apply Forall_cons in Hwf as [Hwe Hwf]. rewrite enc_entries_cons in Ha, He.
    rewrite <-app_assoc in Ha. rewrite length_app in He.
    destruct (decode_entry_at d en off e _ Hwe Ha) as [Hd Ha']; [lia|].
    cbn [find_loop iter_next it_remaining it_appended_remaining length it_data it_offset it_entries_end].
    rewrite Hd. cbn [it_appended it_appended_offset app].
    destruct (p e) eqn:Hp; [by rewrite filter_cons_True|]. rewrite filter_cons_False by congruence.
    eapply IHb; eauto; [lia|simpl in Hf; lia].
Qed.

(** ** Refinement *)
Lemma count_u32 {A} (l : list A) : blen l ≤ u_max 32 → in_u 32 (blen l).
Proof. unfold in_u, u_max, blen. lia. Qed.

Lemma footer_size_22 : FOOTER_SIZE = 22%nat.
Proof. reflexivity. Qed.

(** the base part of a represented manifest *)
Lemma base_facts m b ns ep :
  data m = enc_entries b ++ footer (blen b) ns ep → in_u 64 ns → in_u 64 ep → blen b ≤ u_max 32 →
  existing_entries_count m = Ok (blen b) ∧ entries_end m = length (enc_entries b) ∧
  footer_start m = Ok (length (enc_entries b)) ∧ data m ≠ [] ∧ at_ (data m) 0 (data m).
Proof.
  intros Hd Hn He Hc. destruct (footer_fields (enc_entries b) _ _ _ (count_u32 _ Hc) Hn He) as (H1 & _).
  assert (Hl : length (data m) = (length (enc_entries b) + 22)%nat)
    by (by rewrite Hd, length_app, footer_length).
  assert (Hne : data m ≠ []) by (intros E; rewrite E in Hl; simpl in Hl; lia).
  assert (Hfs : footer_start m = Ok (length (enc_entries b))).
  { unfold footer_start. rewrite footer_size_22, bool_decide_false by lia. f_equal. lia. }
  split_and!; try done.
  - unfold existing_entries_count. rewrite bool_decide_false by done. rewrite Hfs. cbn [res_bind].
    rewrite Hd in *. rewrite Hl in H1.
    replace (length (enc_entries b) + 22 - 22)%nat with (length (enc_entries b)) in H1 by lia. done.
  - unfold entries_end. rewrite footer_size_22, bool_decide_false by done. lia.
  - split; [done|lia].
Qed.

Lemma clone_wf e s : in_u 64 s → wf_entry e → wf_entry (clone_with_sequence e s).
Proof. intros Hs (_ & ? & ? & ? & ?). by repeat (split; [done|]). Qed.

Lemma q_append_ok q e :
  QueueOk q → wf_entry e → q_next q + 1 < 2 ^ 64 → blen (q_entries q) + 1 ≤ u_max 32 →
  QueueOk (q_append q e).
Proof.
  intros [Hwf Hs [Hn Hle] He Hc] Hwe Hb Hb'.
  assert (Hl : blen (q_entries q ++ [clone_with_sequence e (q_next q)]) = blen (q_entries q) + 1)
    by (unfold blen; rewrite length_app; simpl; lia).
  split; cbn [q_append q_entries q_next q_epoch]; rewrite ?Hl; try done.
  - apply Forall_app. split; [done|]. constructor; [by apply clone_wf|done].
  - rewrite seqs_from_app. replace (q_next q + 1 - (blen (q_entries q) + 1)) with (q_next q - blen (q_entries q)) by lia.
    split; [done|]. simpl. lia.
  - unfold in_u in *. lia.
Qed.

Lemma append_refines m q e :
  refines m q → QueueOk q → wf_entry e → q_next q + 1 < 2 ^ 64 →
  (append m e).2 = Ok tt ∧ refines (append m e).1 (q_append q e).
Proof.
  intros [(b & a & ns & ep & Hq & Hd & Ha & Hc & Hns & Hep & Hx) Hn He] HQ Hwe Hb.
  pose proof (qo_next _ HQ) as [Hun _]. unfold append.
  rewrite encode_entry_spec by (apply clone_wf; [congruence|done]). simpl. split; [done|].
  split; simpl; [|rewrite wrap_small; [congruence|unfold in_u in *; lia]|done].
  exists b, (a ++ [clone_with_sequence e (q_next q)]), ns, ep. split_and!; try done.
  - by rewrite Hq, app_assoc.
  - rewrite enc_entries_app, Ha, Hn. unfold enc_entries at 3. simpl. by rewrite app_nil_r.
  - rewrite Hc. unfold blen. rewrite length_app. simpl. lia.
  - by destruct a.
Qed.

Lemma q_dequeue_ok q t : QueueOk q → QueueOk (q_dequeue q t).
Proof.
  intros [Hwf Hs [Hn Hle] He Hc]. pose proof (seqs_split _ _ t Hs) as Hsp.
  set (r := filter (λ e, sequence e ≤ t) (q_entries q)) in *.
  set (k := filter (λ e, ¬ sequence e ≤ t) (q_entries q)) in *.
  assert (Hl : blen (q_entries q) = blen r + blen k) by (rewrite Hsp; unfold blen; rewrite length_app; lia).
  split; cbn [q_dequeue q_entries q_next q_epoch]; fold k; try done.
  - rewrite Hsp in Hwf. by apply Forall_app in Hwf as [_ ?].
  - rewrite Hsp, seqs_from_app in Hs. destruct Hs as [_ Hs]. rewrite <-Hsp in Hs.
    replace (q_next q - blen k) with (q_next q - blen (q_entries q) + blen r) by lia. done.
  - split; [done|unfold blen in *; lia].
  - unfold blen in *. lia.
Qed.

Lemma dequeue_refines m q t :
  refines m q → QueueOk q →
  ∃ m', dequeue m t = Ok (q_removed q t, m') ∧ refines m' (q_dequeue q t).
Proof.
  intros [(b & a & ns & ep & Hq & Hd & Ha & Hc & Hns & Hep & Hx) Hn He] [Hwf Hs [Hun Hle] Hue Hct].
  unfold q_removed, q_dequeue. rewrite Hq in *. rewrite seqs_from_app in Hs. destruct Hs as [Hsb Hsa].
  apply Forall_app in Hwf as [Hwb Hwa].
  assert (Hlab : blen (b ++ a) = blen b + blen a) by (unfold blen; rewrite length_app; lia).
  assert (blen b ≤ u_max 32 ∧ blen a ≤ u_max 32) as [Hcb Hca] by (unfold blen in *; lia).
  destruct (base_facts m b ns ep Hd Hns Hep Hcb) as (Hec & Hee & _ & _ & Hat).
  rewrite Hd in Hat at 2.
  assert (Hata : at_ (appended m) 0 (enc_entries a ++ [])) by (rewrite Ha, app_nil_r; split; [done|lia]).
  unfold dequeue. rewrite Hec. cbn [res_bind]. unfold split_entries. rewrite Hc, !blen_nat.
  rewrite (split_loop_spec _ _ t b _ _ _ _ Hwb Hsb Hat) by (try done; lia). cbn [res_bind].
  rewrite (split_loop_spec _ _ t a _ _ _ _ Hwa Hsa Hata) by (try done; rewrite Ha; lia). cbn [res_bind].
  assert (Hslice : ∀ d es rest n, seqs_from n es → at_ d 0 (enc_entries es ++ rest) →
    slice (E:=Error) d (0 + length (enc_entries (filter (λ e, (sequence e ≤ t)%Z) es)))
      (length (enc_entries es)) = Ok (enc_entries (filter (λ e, ¬ (sequence e ≤ t)%Z) es))).
  { intros d es rest n Hss Hdd. pose proof (seqs_split _ _ t Hss) as Hsp.
    rewrite Hsp in Hdd at 1. rewrite enc_entries_app, <-app_assoc in Hdd.
    destruct (at_slice _ _ _ _ Hdd) as [_ Hdd']. destruct (at_slice _ _ _ _ Hdd') as [Hsl _].
    pose proof (f_equal (λ l, length (enc_entries l)) Hsp) as Hlen. simpl in Hlen.
    rewrite enc_entries_app, length_app in Hlen. rewrite <-Hsl. f_equal. lia. }
  rewrite Hee, (Hslice _ _ _ _ Hsb Hat). cbn [res_bind].
  rewrite Ha in *. rewrite (Hslice _ _ _ _ Hsa Hata). cbn [res_bind].
  eexists. split; [by rewrite filter_app|].
  assert (Hfl : ∀ es, blen (filter (λ e, ¬ sequence e ≤ t) es) ≤ blen es)
    by (intros es; unfold blen; pose proof (length_filter (λ e, ¬ sequence e ≤ t) es); lia).
  pose proof (Hfl b). pose proof (Hfl a).
  split; simpl; [|congruence|congruence].
  exists (filter (λ e, ¬ sequence e ≤ t) b ++ filter (λ e, ¬ sequence e ≤ t) a), [], (q_next q), (q_epoch q).
  split_and!; try done.
  - by rewrite filter_app, app_nil_r.
  - rewrite enc_entries_app, <-app_assoc, wrap_small by (unfold in_u, blen, u_max in *; lia).
    rewrite Hn, He. do 3 f_equal. unfold blen. rewrite length_app. lia.
Qed.

(** the bytes a queue is stored as *)
Definition q_bytes (q : Queue) : bytes :=
  enc_entries (q_entries q) ++ footer (blen (q_entries q)) (q_next q) (q_epoch q).

Lemma set_epoch_refines m q ep' :
  refines m q → QueueOk q → in_u 64 ep' →
  ∃ m', set_epoch m ep' = Ok m' ∧ refines m' (q_set_epoch q ep').
Proof.
  intros [(b & a & ns & ep & Hq & Hd & Ha & Hc & Hns & Hep & Hx) Hn He] HQ Hep'.
  assert (Hl : length (data m) = (length (enc_entries b) + 22)%nat)
    by (by rewrite Hd, length_app, footer_length).
  set (p := enc_entries b ++ le_bytes 4 (blen b) ++ le_bytes 8 ns).
  assert (Hd' : data m = p ++ le_bytes 8 ep ++ le_bytes 2 MANIFEST_VERSION)
    by (rewrite Hd; unfold footer, p; by rewrite <-!app_assoc).
  assert (Hp : (length (data m) - VERSION_SIZE - EPOCH_SIZE)%nat = length p).
  { rewrite Hd', !length_app, !le_bytes_length. unfold VERSION_SIZE, EPOCH_SIZE. lia. }
  unfold set_epoch. rewrite bool_decide_false by (unfold VERSION_SIZE, EPOCH_SIZE; lia).
  eexists. split; [reflexivity|]. split; simpl; try done.
  exists b, a, ns, ep'. split_and!; try done; [|naive_solver].
  rewrite Hp, Hd', take_app_length. rewrite <-drop_drop, drop_app_length.
  rewrite drop_app_length' by (by rewrite le_bytes_length).
  unfold p, footer. by rewrite <-!app_assoc.
Qed.

Lemma to_bytes_canonical m q : refines m q → QueueOk q → to_bytes m = Ok (q_bytes q).
Proof.
  intros [(b & a & ns & ep & Hq & Hd & Ha & Hc & Hns & Hep & Hx) Hn He] [_ _ _ _ Hct].
  assert (Hlab : blen (q_entries q) = blen b + blen a) by (rewrite Hq; unfold blen; rewrite length_app; lia).
  assert (blen b ≤ u_max 32 ∧ blen a ≤ u_max 32) as [Hcb Hca] by (unfold blen in *; lia).
  destruct (base_facts m b ns ep Hd Hns Hep Hcb) as (Hec & _ & Hfs & Hne & Hat).
  unfold to_bytes, q_bytes. case_bool_decide as Hap.
  - rewrite Ha in Hap. apply enc_entries_nil in Hap. subst a. destruct (Hx eq_refl) as [-> ->].
    by rewrite Hd, Hq, app_nil_r.
  - rewrite bool_decide_false by done. unfold existing_entries_count in Hec.
    rewrite bool_decide_false in Hec by done. rewrite Hfs in Hec |- *. cbn [res_bind] in Hec |- *.
    rewrite Hec. cbn [res_bind]. rewrite Hd in Hat at 2.
    destruct (at_slice _ _ _ _ Hat) as [Hsl _]. rewrite Nat.add_0_l in Hsl. rewrite Hsl. cbn [res_bind].
    rewrite Hc, (wrap_small 32 (blen a)) by (by apply count_u32).
    rewrite bool_decide_false by lia.
    by rewrite Hq, enc_entries_app, <-app_assoc, Ha, Hn, He, <-Hq, Hlab.
Qed.

Lemma q_bytes_read q :
  QueueOk q → ∃ m, from_bytes (q_bytes q) = Ok m ∧ refines m q.
Proof.
  intros [_ _ [Hn _] He Hc]. eexists. split; [by apply from_bytes_footer; [apply count_u32|..]|].
  split; try done. exists (q_entries q), [], (q_next q), (q_epoch q).
  by rewrite app_nil_r.
Qed.

Lemma iter_refines m q :
  refines m q → QueueOk q →
  entries_count m = Ok (blen (q_entries q)) ∧
  ∃ it, iter m = Ok it ∧ collect it = Ok (q_entries q) ∧
    ∀ p, find p it = Ok (head (filter (λ e, p e = true) (q_entries q))).
Proof.
  intros [(b & a & ns & ep & Hq & Hd & Ha & Hc & Hns & Hep & Hx) Hn He] [Hwf _ _ _ Hct].
  assert (Hlab : blen (q_entries q) = blen b + blen a) by (rewrite Hq; unfold blen; rewrite length_app; lia).
  assert (Hcb : blen b ≤ u_max 32) by (unfold blen in *; lia).
  destruct (base_facts m b ns ep Hd Hns Hep Hcb) as (Hec & Hee & _ & _ & Hat).
  unfold entries_count, iter. rewrite Hec. cbn [res_bind]. split; [by rewrite Hlab, Hc|].
  eexists. split; [reflexivity|]. unfold collect, find. rewrite Hc, !blen_nat, Hq.
  rewrite Hd in Hat at 2.
  assert (Hata : at_ (appended m) 0 (enc_entries a)) by (rewrite Ha; split; [done|lia]).
  split; [|intros p].
  - eapply (collect_entries _ _ _ b a 0 0 _ _); [by rewrite <-Hq|done|done|done|].
    unfold iter_fuel. simpl. lia.
  - eapply (find_entries p _ _ _ b a 0 0 _ _); [by rewrite <-Hq|done|done|done|].
    unfold iter_fuel. simpl. lia.
Qed.

(** A full manifest refuses one more entry when it is serialized. *)
Lemma append_full m q e :
  refines m q → QueueOk q → appended m = [] → wf_entry e → u_max 32 < blen (q_entries q) + 1 →
  ∃ err, to_bytes (append m e).1 = Err err.
Proof.
  intros [(b & a & ns & ep & Hq & Hd & Ha & Hc & Hns & Hep & Hx) Hn He] [_ _ [Hun _] _ Hct] Hap Hwe Hfull.
  rewrite Ha in Hap. apply enc_entries_nil in Hap. subst a. rewrite app_nil_r in Hq. subst b.
  unfold append. rewrite encode_entry_spec by (apply clone_wf; [congruence|done]). simpl.
  set (m' := mkManifest _ _ _ _ _).
  destruct (base_facts m' (q_entries q) ns ep Hd Hns Hep Hct) as (Hec & _ & Hfs & Hne & Hat).
  unfold to_bytes. rewrite bool_decide_false; [|].
  2:{ unfold m'; simpl. rewrite Ha. simpl. intros E. apply (f_equal length) in E.
      rewrite enc_entry_length in E. simpl in E. lia. }
  rewrite bool_decide_false by done. unfold existing_entries_count in Hec.
  rewrite bool_decide_false in Hec by done. rewrite Hfs in Hec |- *. cbn [res_bind] in Hec |- *.
  rewrite Hec. cbn [res_bind]. change (data m') with (data m) in *. rewrite Hd in Hat at 2.
  destruct (at_slice _ _ _ _ Hat) as [Hsl _]. rewrite Nat.add_0_l in Hsl. rewrite Hsl. cbn [res_bind].
  rewrite bool_decide_true; [eauto|]. unfold m'; simpl. rewrite Hc. unfold blen at 2; simpl.
  unfold wrap. change ((Z.of_nat 0 + 1) mod 2 ^ 32) with 1. done.
Qed.

(** C26: The manifest implements the queue: the bytes written depend only on the
    abstract queue and read back as it; appending numbers the entry and puts it
    last; dequeueing returns and removes exactly the entries up to the given
    sequence; setting the epoch changes nothing else; iteration lists the
    entries in order.  All of them succeed. *)
Theorem manifest_refines_queue m q :
  refines m q → QueueOk q →
  (to_bytes m = Ok (q_bytes q) ∧
   parse_manifest (q_bytes q) = Ok (mkManifestView (q_epoch q) (q_next q) (q_entries q)) ∧
   ∃ m', from_bytes (q_bytes q) = Ok m' ∧ refines m' q) ∧
  (entries_count m = Ok (blen (q_entries q)) ∧
   ∃ it, iter m = Ok it ∧ collect it = Ok (q_entries q) ∧
     ∀ p, find p it = Ok (head (filter (λ e, p e = true) (q_entries q)))) ∧
  (∀ e, wf_entry e → q_next q + 1 < 2 ^ 64 →
     (append m e).2 = Ok tt ∧ refines (append m e).1 (q_append q e)) ∧
  (∀ t, ∃ m', dequeue m t = Ok (q_removed q t, m') ∧ refines m' (q_dequeue q t) ∧
              QueueOk (q_dequeue q t)) ∧
  (∀ ep, in_u 64 ep → ∃ m', set_epoch m ep = Ok m' ∧ refines m' (q_set_epoch q ep)).
Proof.
  intros HR HQ. split_and!.
  - by apply to_bytes_canonical.
  - destruct (q_bytes_read q HQ) as (m' & Hm' & HR'). unfold parse_manifest. rewrite Hm'. cbn [res_bind].
    destruct (iter_refines m' q HR' HQ) as (_ & it & Hit & Hco & _). rewrite Hit. cbn [res_bind].
    rewrite Hco. cbn [res_bind]. by rewrite (rf_next _ _ HR'), (rf_epoch _ _ HR').
  - by apply q_bytes_read.
  - by apply iter_refines.
  - by apply iter_refines.
  - intros. by apply append_refines.
  - intros t. destruct (dequeue_refines m q t HR HQ) as (m' & ? & ?).
    exists m'. split_and!; try done. by apply q_dequeue_ok.
  - intros. by apply set_epoch_refines.
Qed.

Lemma empty_refines : refines empty q_empty ∧ QueueOk q_empty.
Proof.
  split; split; try done; try (by constructor).
  - by exists [], [], 0, 0.
Qed.

Definition demo_entry : QueueEntry :=
  mkEntry 0 [x61; x62] [mkMetadata 0 (-5) [x01; x02; x03]; mkMetadata 7 12 []].

Lemma demo_entry_wf : wf_entry demo_entry.
Proof.
  assert (H : ∀ m, m ∈ metadata demo_entry → wf_meta m).
  { intros m Hm. repeat (apply elem_of_cons in Hm as [-> |Hm]; [repeat split; vm_compute; congruence|]).
    by apply elem_of_nil in Hm. }
  split; [split; vm_compute; congruence|]. split; [split; vm_compute; congruence|].
  split; [vm_compute; congruence|]. split; [by apply Forall_forall|vm_compute; congruence].
Qed.

Lemma manifest_refines_queue_witness :
  ∃ m, append empty demo_entry = (m, Ok tt) ∧
    to_bytes m = Ok (q_bytes (q_append q_empty demo_entry)) ∧
    parse_manifest (q_bytes (q_append q_empty demo_entry)) =
      Ok (mkManifestView 0 1 [clone_with_sequence demo_entry 0]).
Proof.
  destruct (append_refines _ _ demo_entry (proj1 empty_refines) (proj2 empty_refines) demo_entry_wf)
    as [H1 H2]; [reflexivity|].
  assert (HQ : QueueOk (q_append q_empty demo_entry)).
  { apply q_append_ok; [apply empty_refines|apply demo_entry_wf|reflexivity|vm_compute; discriminate]. }
  exists (append empty demo_entry).1. split; [rewrite <-H1; apply surjective_pairing|].
  destruct (manifest_refines_queue _ _ H2 HQ) as ((H3 & H4 & _) & _). split; [exact H3|exact H4].
Defined.

(** ** Arbitrary bytes

    [wp m off Q]: [m] at [off] does not panic, and what it returns satisfies [Q]. *)
Definition wp {A} (m : dec A) (off : nat) (Q : A → nat → Prop) : Prop :=
  match m off with (Ok a, off) => Q a off | (Err _, _) => True | (Panic, _) => False end.

Lemma wp_bind {A B} (m : dec A) (k : A → dec B) off Q :
  wp m off (λ a off, wp (k a) off Q) → wp (dec_bind m k) off Q.
Proof. unfold wp, dec_bind. by destruct (m off) as [[] ?]. Qed.

Lemma wp_ret {A} (a : A) off Q : Q a off → wp (dec_ret a) off Q.
Proof. done. Qed.

Lemma wp_need n end_ e off Q :
  ((off + n ≤ end_)%nat → Q tt off) → wp (need n end_ e) off Q.
Proof. intros H. unfold wp, need. case_bool_decide; [done|]. apply H. lia. Qed.

Lemma wp_read d n off Q :
  (off + n ≤ length d)%nat → (∀ bs, Q bs (off + n)%nat) → wp (read_bytes d n) off Q.
Proof.
  intros Hl HQ. unfold wp, read_bytes, slice. by rewrite bool_decide_true by lia.
Qed.

Lemma wp_read_le d n off Q :
  (off + n ≤ length d)%nat → (∀ z, Q z (off + n)%nat) → wp (read_le d n) off Q.
Proof. intros Hl HQ. apply wp_bind, wp_read; [done|]. intros. by apply wp_ret. Qed.

Lemma wp_decode_meta d end_ off Q :
  (end_ ≤ length d)%nat → (∀ m off', Q m off') → wp (decode_meta d end_) off Q.
Proof.
  intros Hl HQ. unfold decode_meta.
  repeat (apply wp_bind; first [apply wp_need; intros ?|apply wp_read_le; [lia|intros ?]|apply wp_read; [lia|intros ?]]).
  by apply wp_ret.
Qed.

Lemma wp_decode_metas d end_ n : ∀ off (Q : list Metadata → nat → Prop),
  (end_ ≤ length d)%nat → (∀ ms off', Q ms off') → wp (decode_metas d end_ n) off Q.
Proof.
  induction n as [|n IH]; intros off Q Hl HQ; simpl; [by apply wp_ret|].
  apply wp_bind, wp_decode_meta; [done|]. intros. apply wp_bind, IH; [done|]. intros. by apply wp_ret.
Qed.

(** Ten bytes behind the entries (the footer has 22) are enough slack. *)
Lemma decode_entry_no_panic d end_ off :
  (end_ + 10 ≤ length d)%nat → (decode_entry d end_ off).1 ≠ Panic.
Proof.
  intros Hl. assert (Hw : wp (decode_entry d end_) off (λ _ _, True)).
  { unfold decode_entry, SEQUENCE_SIZE, LOCATION_LEN_SIZE, METADATA_COUNT_SIZE, ENTRY_LEN_SIZE.
    apply wp_bind, wp_need; intros ?. apply wp_bind, wp_read_le; [lia|]; intros el.
    apply wp_bind, wp_need; intros ?. unfold wp at 1.
    match goal with |- match ?m ?o with _ => _ end => change (wp m o (λ _ _, True)) end.
    apply wp_bind, wp_read_le; [lia|]; intros sq. apply wp_bind, wp_read_le; [lia|]; intros ll.
    case_bool_decide; [done|]. apply wp_bind. unfold wp at 1.
    assert (Hr : (off + 4 + 8 + 2 + Z.to_nat ll ≤ length d)%nat) by lia.
    unfold read_bytes, slice. rewrite bool_decide_true by lia.
    destruct (utf8_valid _); [|done].
    apply wp_bind, wp_read_le; [lia|]; intros mc. apply wp_bind, wp_decode_metas; [lia|done]. }
  unfold wp in Hw. by destruct (decode_entry d end_ off) as [[] ?].
Qed.

Lemma get_le_no_panic d a n : (a + n ≤ length d)%nat → ∃ z, get_le d a n = Ok z.
Proof.
  intros H. unfold get_le, slice. rewrite bool_decide_true by lia. simpl. eauto.
Qed.

Lemma from_bytes_no_panic d :
  from_bytes d ≠ Panic ∧ ∀ m, from_bytes d = Ok m →
    data m = d ∧ appended m = [] ∧ appended_count m = 0 ∧ (22 ≤ length d)%nat.
Proof.
  unfold from_bytes. case_bool_decide as H1; [done|]. case_bool_decide as H2; [done|].
  rewrite footer_size_22 in H2. unfold VERSION_SIZE, EPOCH_SIZE, SEQUENCE_SIZE.
  destruct (get_le_no_panic d (length d - 2) 2) as [v ->]; [lia|]. cbn [res_bind].
  case_bool_decide; [done|].
  destruct (get_le_no_panic d (length d - 2 - 8) 8) as [e ->]; [lia|]. cbn [res_bind].
  destruct (get_le_no_panic d (length d - 2 - 8 - 8) 8) as [s ->]; [lia|]. cbn [res_bind].
  split; [done|]. intros m [= <-]. simpl. split_and!; try done. lia.
Qed.

(** items an iterator can still yield *)
Definition iter_left (it : ManifestIter) : nat :=
  it_remaining it + it_appended_remaining it +
  (if bool_decide (it_remaining it = O ∧ it_appended_remaining it = O ∧ it_offset it = it_entries_end it)
   then 0 else 1).

Lemma collect_no_panic fuel : ∀ it,
  it_appended_remaining it = O → (it_entries_end it + 10 ≤ length (it_data it))%nat →
  (iter_left it < fuel)%nat → collect_loop fuel it ≠ Panic.
Proof.
  induction fuel as [|fuel IH]; intros it Ha Hl Hf; [lia|]. cbn [collect_loop].
  unfold iter_next. destruct it as [d off r en ap aoff ar]. simpl in *. subst ar.
  unfold iter_left in Hf. simpl in Hf. destruct r as [|r].
  - clear Hf. by case_bool_decide.
  - pose proof (decode_entry_no_panic d en off Hl) as Hd.
    destruct (decode_entry d en off) as [[e|err|] off']; simpl in *; try done.
    destruct (collect_loop _ _) eqn:E; simpl; try done. exfalso. eapply IH, E; simpl; try done.
    unfold iter_left; simpl. case_bool_decide; lia.
Qed.

(** Reading a manifest object never panics, whatever its bytes. *)
Theorem parse_manifest_total d : parse_manifest d ≠ Panic.
Proof.
  unfold parse_manifest. destruct (from_bytes_no_panic d) as [Hf Hm].
  destruct (from_bytes d) as [m|e|]; try done. cbn [res_bind].
  destruct (Hm m eq_refl) as (Hd & Ha & Hc & Hl).
  assert (Hne : data m ≠ []) by (intros E; rewrite <-Hd, E in Hl; simpl in Hl; lia).
  unfold iter, existing_entries_count, footer_start. rewrite bool_decide_false by done.
  rewrite footer_size_22, bool_decide_false by (rewrite Hd; lia). cbn [res_bind].
  unfold ENTRIES_COUNT_SIZE. destruct (get_le_no_panic (data m) (length (data m) - 22) 4) as [c ->]; [rewrite Hd; lia|].
  cbn [res_bind]. unfold collect.
  match goal with |- context [collect_loop ?f ?i] => pose proof (collect_no_panic f i) as H; destruct (collect_loop f i); try done end.
  exfalso. apply H; try done; simpl.
  - by rewrite Hc.
  - unfold entries_end. rewrite bool_decide_false by done. rewrite footer_size_22, Hd. lia.
  - unfold iter_left, iter_fuel; simpl. case_bool_decide; lia.
Qed.
