(* ===== verification/QueueStore.v ===== *)
(** * buffer::queue, second half: producers and consumers over an object store

    [QueueProducer] and [QueueConsumer] read the manifest object, change it
    locally and put it back on condition that nobody else has.  The object store
    is third-party code: the class [ObjectStore] has its two operations and
    [ObjectStoreLaws] what its documentation promises of conditional puts.

    [World] is any number of clients sharing one manifest object; a step is one
    call, one [get] or one [put] of one client.  A request may fail in transport,
    a put also after it has taken effect. *)
From S2P Require Import Prelude Encoding Manifest.

Inductive PutMode (V : Type) : Type := Create | Update (v : V).
Arguments Create {V}.
Arguments Update {V} v.
Inductive PutError : Type := Precondition | AlreadyExists | PutOther.
Inductive GetError : Type := NotFound | GetOther.

Class ObjectStore : Type := {
  os : Type;
  version : Type;
  version_eq_dec :: EqDecision version;
  os_get : os → res GetError (bytes * version);
  os_put : os → bytes → PutMode version → os * res PutError unit;
}.

(** Conditional puts: [Create] succeeds iff the object is absent, [Update v] iff
    it is present at version [v]; a failed put changes nothing; a version stands
    for one content for ever ([content]), so that a client may compare versions
    instead of contents. *)
Class ObjectStoreLaws (OS : ObjectStore) : Type := {
  content : os → version → option bytes;
  law_get_content : ∀ s b v, os_get s = Ok (b, v) → content s v = Some b;
  law_content_grows : ∀ s b md v c, content s v = Some c → content (os_put s b md).1 v = Some c;
  law_get_total : ∀ s, os_get s = Err NotFound ∨ ∃ b v, os_get s = Ok (b, v);
  law_create : ∀ s b, os_get s = Err NotFound →
    (os_put s b Create).2 = Ok tt ∧ ∃ v, os_get (os_put s b Create).1 = Ok (b, v);
  law_create_exists : ∀ s b c v, os_get s = Ok (c, v) → os_put s b Create = (s, Err AlreadyExists);
  law_update : ∀ s b c v, os_get s = Ok (c, v) →
    (os_put s b (Update v)).2 = Ok tt ∧ ∃ v', os_get (os_put s b (Update v)).1 = Ok (b, v');
  law_update_stale : ∀ s b v, (∀ c, os_get s ≠ Ok (c, v)) →
    os_put s b (Update v) = (s, Err Precondition);
}.

Section queue.
Context {OS : ObjectStore}.

(** ** ManifestStore *)
Inductive ManifestWriteError : Type := Conflict | Fatal (e : Error).

Definition manifest_read (s : os) : res Error (Manifest * option version) :=
  match os_get s with
  | Ok (bs, v) => let? m := from_bytes bs in Ok (m, Some v)
  | Err NotFound => Ok (empty, None)
  | Err GetOther => Err (StorageErr GetFailed)
  | Panic => Panic
  end.

Definition put_mode (v : option version) : PutMode version :=
  match v with Some v => Update v | None => Create end.

Definition manifest_write (s : os) (m : Manifest) (v : option version) :
    os * res ManifestWriteError unit :=
  match to_bytes m with
  | Ok data =>
      match os_put s data (put_mode v) with
      | (s, Ok _) => (s, Ok tt)
      | (s, Err Precondition) | (s, Err AlreadyExists) => (s, Err Conflict)
      | (s, Err PutOther) => (s, Err (Fatal (StorageErr PutFailed)))
      | (s, Panic) => (s, Panic)
      end
  | Err e => (s, Err (Fatal e))
  | Panic => (s, Panic)
  end.

(** ** Clients

    What a client is doing; the [..W] states hold the changed manifest and the
    version it was read at, up to the conditional put. *)
Inductive Task : Type :=
| TIdle
| TEnqueue (e : QueueEntry)
| TEnqueueW (e : QueueEntry) (m : Manifest) (v : option version)
| TInit
| TInitW (new_epoch : Z) (m : Manifest) (v : option version)
| TPeek
| TRead (seq : Z)
| TDequeue (through : Z)
| TDequeueW (through : Z) (removed : list QueueEntry) (m : Manifest) (v : option version).

Inductive Outcome : Type :=
| OutEnqueue (e : QueueEntry) (r : res Error unit)
| OutInit (r : res Error unit)
| OutPeek (r : res Error (option QueueEntry))
| OutRead (seq : Z) (r : res Error (option QueueEntry))
| OutDequeue (through : Z) (r : res Error (list QueueEntry)).

Record Client : Type := mkClient {
  c_task : Task;
  c_epoch : Z;
  c_queue_len : Z;
  c_write_count : Z;
  c_conflict_count : Z;
  c_outcomes : list Outcome;
}.

Definition new_client : Client := mkClient TIdle UNINITIALIZED_EPOCH 0 0 0 [].

Definition with_task (c : Client) (t : Task) : Client :=
  mkClient t (c_epoch c) (c_queue_len c) (c_write_count c) (c_conflict_count c) (c_outcomes c).
Definition finish (c : Client) (o : Outcome) : Client :=
  mkClient TIdle (c_epoch c) (c_queue_len c) (c_write_count c) (c_conflict_count c)
    (c_outcomes c ++ [o]).
Definition with_len (c : Client) (n : Z) : Client :=
  mkClient (c_task c) (c_epoch c) n (c_write_count c) (c_conflict_count c) (c_outcomes c).
Definition with_epoch (c : Client) (ep : Z) : Client :=
  mkClient (c_task c) ep (c_queue_len c) (c_write_count c) (c_conflict_count c) (c_outcomes c).
Definition record_write (c : Client) : Client :=
  mkClient (c_task c) (c_epoch c) (c_queue_len c) (wrap 64 (c_write_count c + 1))
    (c_conflict_count c) (c_outcomes c).
Definition record_conflict (c : Client) : Client :=
  mkClient (c_task c) (c_epoch c) (c_queue_len c) (c_write_count c)
    (wrap 64 (c_conflict_count c + 1)) (c_outcomes c).

(** *** Calls *)
Inductive Call : Type :=
| CallEnqueue (location : bytes) (metadata : list Metadata)
| CallInit
| CallPeek
| CallRead (seq : Z)
| CallDequeue (through : Z).

Definition call (c : Client) (k : Call) : Client :=
  match k with
  | CallEnqueue loc md =>
      match QueueEntry_new loc md with
      | Ok e => with_task c (TEnqueue e)
      | Err e => finish c (OutEnqueue (mkEntry 0 loc md) (Err e))
      | Panic => finish c (OutEnqueue (mkEntry 0 loc md) Panic)
      end
  | CallInit => with_task c TInit
  | CallPeek => with_task c TPeek
  | CallRead seq => with_task c (TRead seq)
  | CallDequeue t => with_task c (TDequeue t)
  end.

(** The first half of a loop: what follows a successful or failed manifest read.
    [read_manifest] of the consumer also remembers the queue length. *)
Definition fail_read (c : Client) (e : Error) : Client :=
  match c_task c with
  | TEnqueue en => finish c (OutEnqueue en (Err e))
  | TInit => finish c (OutInit (Err e))
  | TPeek => finish c (OutPeek (Err e))
  | TRead s => finish c (OutRead s (Err e))
  | TDequeue t => finish c (OutDequeue t (Err e))
  | _ => c
  end.

(** [manifest.iter().next().transpose()] *)
Definition first_entry (m : Manifest) : res Error (option QueueEntry) :=
  let? it := iter m in
  match iter_next it with
  | None => Ok None
  | Some (r, _) => let? e := r in Ok (Some e)
  end.

Definition find_sequence (m : Manifest) (seq : Z) : res Error (option QueueEntry) :=
  let? it := iter m in find (λ e, bool_decide (sequence e = seq)) it.

Definition consumer_len (c : Client) (m : Manifest) : Client :=
  match entries_count m with Ok n => with_len c n | _ => c end.

Definition enqueue_read (c : Client) (e : QueueEntry) (m : Manifest) (v : option version) : Client :=
  match append m e with
  | (m, Ok _) => with_task (record_write c) (TEnqueueW e m v)
  | (_, Err err) => finish c (OutEnqueue e (Err err))
  | (_, Panic) => finish c (OutEnqueue e Panic)
  end.

Definition initialize_read (c : Client) (m : Manifest) (v : option version) : Client :=
  let c := consumer_len c m in
  let new_epoch := next_epoch (epoch m) in
  match set_epoch m new_epoch with
  | Ok m => with_task (record_write c) (TInitW new_epoch m v)
  | Err e => finish c (OutInit (Err e))
  | Panic => finish c (OutInit Panic)
  end.

Definition peek_read (c : Client) (m : Manifest) : Client :=
  let c := consumer_len c m in
  if bool_decide (epoch m ≠ c_epoch c) then finish c (OutPeek (Err Fenced))
  else finish c (OutPeek (first_entry m)).

Definition read_read (c : Client) (seq : Z) (m : Manifest) : Client :=
  let c := consumer_len c m in
  if bool_decide (epoch m ≠ c_epoch c) then finish c (OutRead seq (Err Fenced))
  else finish c (OutRead seq (find_sequence m seq)).

Definition dequeue_read (c : Client) (t : Z) (m : Manifest) (v : option version) : Client :=
  let c := consumer_len c m in
  if bool_decide (epoch m ≠ c_epoch c) then finish c (OutDequeue t (Err Fenced))
  else match dequeue m t with
       | Ok (removed, m) => with_task (record_write c) (TDequeueW t removed m v)
       | Err e => finish c (OutDequeue t (Err e))
       | Panic => finish c (OutDequeue t Panic)
       end.

Definition client_read (s : os) (c : Client) : Client :=
  match manifest_read s with
  | Ok (m, v) =>
      match c_task c with
      | TEnqueue e => enqueue_read c e m v
      | TInit => initialize_read c m v
      | TPeek => peek_read c m
      | TRead seq => read_read c seq m
      | TDequeue t => dequeue_read c t m v
      | _ => c
      end
  | Err e => fail_read c e
  | Panic => c
  end.

(** The second half: what follows the conditional put.  A conflict goes back to
    the read. *)
Definition client_written (c : Client) (r : res ManifestWriteError unit) : Client :=
  match c_task c, r with
  | TEnqueueW e _ _, Ok _ => finish c (OutEnqueue e (Ok tt))
  | TEnqueueW e _ _, Err Conflict => with_task (record_conflict c) (TEnqueue e)
  | TEnqueueW e _ _, Err (Fatal err) => finish c (OutEnqueue e (Err err))
  | TInitW ep m _, Ok _ => finish (with_epoch (consumer_len c m) ep) (OutInit (Ok tt))
  | TInitW _ _ _, Err Conflict => with_task (record_conflict c) TInit
  | TInitW _ _ _, Err (Fatal err) => finish c (OutInit (Err err))
  | TDequeueW t removed m _, Ok _ => finish (consumer_len c m) (OutDequeue t (Ok removed))
  | TDequeueW t _ _ _, Err Conflict => with_task (record_conflict c) (TDequeue t)
  | TDequeueW t _ _ _, Err (Fatal err) => finish c (OutDequeue t (Err err))
  | _, _ => c
  end.

Definition pending_write (c : Client) : option (Manifest * option version) :=
  match c_task c with
  | TEnqueueW _ m v | TInitW _ m v | TDequeueW _ _ m v => Some (m, v)
  | _ => None
  end.

Definition wants_read (c : Client) : bool :=
  match c_task c with
  | TEnqueue _ | TInit | TPeek | TRead _ | TDequeue _ => true
  | _ => false
  end.

(** ** The world *)
(** what a successful put did; [acked]: the client learnt of it *)
Inductive Commit : Type :=
| CAppend (i : nat) (acked : bool) (e : QueueEntry)
| CEpoch (i : nat) (acked : bool) (ep : Z)
| CDequeue (i : nat) (acked : bool) (through : Z) (removed : list QueueEntry).

Record World : Type := mkWorld {
  w_os : os;
  w_clients : list Client;
  w_hist : list Commit;
}.

Definition commit_of (i : nat) (acked : bool) (c : Client) : list Commit :=
  match c_task c with
  | TEnqueueW e _ _ => [CAppend i acked e]
  | TInitW ep _ _ => [CEpoch i acked ep]
  | TDequeueW t removed _ _ => [CDequeue i acked t removed]
  | _ => []
  end.

(** transport: [None] works; [Some false] the request is lost; [Some true] only
    the answer is lost *)
Definition fault : Type := option bool.

Inductive label : Type :=
| LCall (i : nat) (k : Call)
| LRead (i : nat) (f : fault)
| LWrite (i : nat) (f : fault).

(** values the Rust types allow: a [String] is UTF-8, indices and times have
    their width, and the entry is within the [debug_assert!] of [encode_entry] *)
Definition call_typed (k : Call) : bool :=
  match k with
  | CallEnqueue loc md =>
      utf8_valid loc &&
      forallb (λ m, bool_decide (0 ≤ start_index m < 2 ^ 32) &&
                    bool_decide (- 2 ^ 63 ≤ ingestion_time_ms m < 2 ^ 63)) md &&
      bool_decide (Z.of_nat (entry_body_len (mkEntry 0 loc md)) ≤ u_max 32)
  | CallRead s => bool_decide (0 ≤ s < 2 ^ 64)
  | CallDequeue t => bool_decide (0 ≤ t < 2 ^ 64)
  | _ => true
  end.

Definition step (w : World) (l : label) : option World :=
  match l with
  | LCall i k =>
      match w_clients w !! i with
      | Some c =>
          match c_task c with
          | TIdle => if call_typed k
                     then Some (mkWorld (w_os w) (<[i := call c k]> (w_clients w)) (w_hist w))
                     else None
          | _ => None
          end
      | None => None
      end
  | LRead i f =>
      match w_clients w !! i with
      | Some c =>
          if wants_read c then
            let c := match f with
                     | None => client_read (w_os w) c
                     | Some _ => fail_read c (StorageErr GetFailed)
                     end in
            Some (mkWorld (w_os w) (<[i := c]> (w_clients w)) (w_hist w))
          else None
      | None => None
      end
  | LWrite i f =>
      match w_clients w !! i with
      | Some c =>
          match pending_write c with
          | Some (m, v) =>
              let lost := mkWorld (w_os w)
                (<[i := client_written c (Err (Fatal (StorageErr PutFailed)))]> (w_clients w)) (w_hist w) in
              match f with
              | Some false => Some lost
              | _ =>
                  let '(s, r) := manifest_write (w_os w) m v in
                  let acked := bool_decide (f = None) in
                  let hist := match r with
                              | Ok _ => w_hist w ++ commit_of i acked c
                              | _ => w_hist w
                              end in
                  let c := client_written c (if acked then r else Err (Fatal (StorageErr PutFailed))) in
                  Some (mkWorld s (<[i := c]> (w_clients w)) hist)
              end
          | None => None
          end
      | None => None
      end
  end.

Fixpoint steps (w : World) (ls : list label) : option World :=
  match ls with
  | [] => Some w
  | l :: ls => match step w l with Some w => steps w ls | None => None end
  end.
End queue.

Inductive reachable {OS : ObjectStore} (w0 : World) : World → Prop :=
| reachable_init : reachable w0 w0
| reachable_step w l w' : reachable w0 w → step w l = Some w' → reachable w0 w'.

(** * Correctness *)
Section correctness.
Context {OS : ObjectStore} {OL : ObjectStoreLaws OS}.

(** ** The history determines the queue *)
Definition apply_commit (q : Queue) (cm : Commit) : Queue :=
  match cm with
  | CAppend _ _ e => q_append q e
  | CEpoch _ _ ep => q_set_epoch q ep
  | CDequeue _ _ t _ => q_dequeue q t
  end.

Definition run (hist : list Commit) : Queue := foldl apply_commit q_empty hist.

Lemma run_snoc hist cm : run (hist ++ [cm]) = apply_commit (run hist) cm.
Proof. unfold run. by rewrite foldl_app. Qed.

Lemma q_bytes_inj q q' : QueueOk q → QueueOk q' → q_bytes q = q_bytes q' → q = q'.
Proof.
  intros HQ HQ' E. destruct (q_bytes_read q HQ) as (m & Hm & HR).
  destruct (q_bytes_read q' HQ') as (m' & Hm' & HR'). rewrite E, Hm' in Hm. simplify_eq.
  destruct (iter_refines _ _ HR HQ) as (_ & it & Hit & Hc & _).
  destruct (iter_refines _ _ HR' HQ') as (_ & it' & Hit' & Hc' & _). simplify_eq.
  destruct HR as [_ Hn He], HR' as [_ Hn' He']. destruct q, q'; simpl in *; congruence.
Qed.

(** ** Invariant *)
Definition store_ok (s : os) (hist : list Commit) : Prop :=
  match hist with
  | [] => os_get s = Err NotFound
  | _ => ∃ v, os_get s = Ok (q_bytes (run hist), v)
  end.

(** the queue a pending write started from *)
Definition base (s : os) (n : Z) (v : option version) (q0 : Queue) : Prop :=
  QueueOk q0 ∧ q_next q0 ≤ n ∧
  match v with
  | None => q0 = q_empty
  | Some v => content s v = Some (q_bytes q0)
  end.

Definition task_ok (s : os) (n : Z) (c : Client) : Prop :=
  match c_task c with
  | TEnqueue e => wf_entry e
  | TEnqueueW e m v => 
      wf_entry e ∧ ∃ q0 m0, base s n v q0 ∧ refines m0 q0 ∧ appended m0 = [] ∧ m = (append m0 e).1
  | TInitW ep m v =>
      ∃ q0, base s n v q0 ∧ ep = next_epoch (q_epoch q0) ∧ refines m (q_set_epoch q0 ep)
  | TDequeueW t removed m v =>
      ∃ q0, base s n v q0 ∧ q_epoch q0 = c_epoch c ∧ removed = q_removed q0 t ∧
            refines m (q_dequeue q0 t)
  | _ => True
  end.

Record Inv (w : World) : Prop := {
  inv_queue : QueueOk (run (w_hist w));
  inv_next : q_next (run (w_hist w)) ≤ blen (w_hist w);
  inv_store : store_ok (w_os w) (w_hist w);
  inv_tasks : ∀ i c, w_clients w !! i = Some c → task_ok (w_os w) (blen (w_hist w)) c;
}.

Lemma base_mono s s' n n' v q0 :
  (∀ ver b, content s ver = Some b → content s' ver = Some b) → n ≤ n' →
  base s n v q0 → base s' n' v q0.
Proof. intros Hc Hn (? & ? & Hv). split_and!; [done|lia|]. destruct v; auto. Qed.

Lemma task_mono s s' n n' c :
  (∀ ver b, content s ver = Some b → content s' ver = Some b) → n ≤ n' →
  task_ok s n c → task_ok s' n' c.
Proof.
  intros Hc Hn. unfold task_ok. pose proof (base_mono s s' n n') as Hb.
  destruct (c_task c); naive_solver.
Qed.

(** ** Reading *)
Lemma manifest_read_ok s hist :
  store_ok s hist → QueueOk (run hist) →
  ∃ m v, manifest_read s = Ok (m, v) ∧ refines m (run hist) ∧ appended m = [] ∧
    base s (q_next (run hist)) v (run hist).
Proof.
  intros Hs HQ. unfold manifest_read. destruct hist as [|cm hist].
  - simpl in Hs. rewrite Hs. exists empty, None. split_and!; [done|apply empty_refines|done|].
    split_and!; try done.
  - destruct Hs as (v & Hs). rewrite Hs. destruct (q_bytes_read _ HQ) as (m & Hm & HR).
    rewrite Hm. exists m, (Some v). split_and!; try done.
    + by destruct (from_bytes_no_panic (q_bytes (run (cm :: hist)))) as [_ Hf]; apply Hf in Hm as (_ & ? & _).
    + split_and!; try done. by apply law_get_content.
Qed.

(** ** Writing *)
Lemma manifest_write_ok s hist n q0 q1 m v :
  store_ok s hist → QueueOk (run hist) → base s n v q0 → refines m q1 → QueueOk q1 →
  manifest_write s m v = (s, Err Conflict) ∨
  ∃ s' v', manifest_write s m v = (s', Ok tt) ∧ run hist = q0 ∧ os_get s' = Ok (q_bytes q1, v') ∧
    (∀ ver b, content s ver = Some b → content s' ver = Some b).
Proof.
  intros Hs HQ (HQ0 & _ & Hb) HR HQ1. unfold manifest_write.
  rewrite (to_bytes_canonical _ _ HR HQ1).
  pose proof (law_content_grows s (q_bytes q1) (put_mode v)) as Hgrow.
  destruct v as [v|]; simpl in *.
  - destruct (law_get_total s) as [Hn|(b & v' & Hg)].
    { left. rewrite law_update_stale; [done|congruence]. }
    destruct (decide (v' = v)) as [->|Hne].
    + right. destruct (law_update s (q_bytes q1) b v Hg) as (Hok & v' & Hg').
      destruct (os_put s (q_bytes q1) (Update v)) as [s' r]. simpl in *. subst r.
      exists s', v'. split_and!; try done.
      destruct hist as [|cm hist]; [simpl in Hs; congruence|]. destruct Hs as (v0 & Hs).
      rewrite Hs in Hg. simplify_eq. apply law_get_content in Hs. rewrite Hb in Hs. simplify_eq.
      symmetry. by apply q_bytes_inj.
    + left. rewrite law_update_stale; [done|]. intros c. rewrite Hg. congruence.
  - destruct (law_get_total s) as [Hn|(b & v' & Hg)].
    + right. destruct (law_create s (q_bytes q1) Hn) as (Hok & v' & Hg').
      destruct (os_put s (q_bytes q1) Create) as [s' r]. simpl in *. subst r.
      exists s', v'. split_and!; try done.
      destruct hist; [done|]. destruct Hs as (? & Hs). congruence.
    + left. by rewrite (law_create_exists s _ b v').
Qed.

(** ** Steps keep the invariant *)
Lemma next_epoch_range ep : in_u 64 (next_epoch ep) ∧ next_epoch ep ≠ UNINITIALIZED_EPOCH.
Proof.
  unfold next_epoch. case_bool_decide as H.
  - split; [apply wrap_range; lia|]. rewrite H. vm_compute. congruence.
  - split; [apply wrap_range; lia|done].
Qed.

Lemma q_set_epoch_ok q ep : QueueOk q → in_u 64 ep → QueueOk (q_set_epoch q ep).
Proof. intros [? ? ? ? ?] ?. by split. Qed.

Lemma call_entry_wf loc md e :
  call_typed (CallEnqueue loc md) = true → QueueEntry_new loc md = Ok e → wf_entry e.
Proof.
  unfold call_typed, QueueEntry_new. rewrite !andb_true_iff, bool_decide_eq_true.
  intros ((Hu & Hm) & Hb) He. repeat case_bool_decide; try done. simplify_eq.
  rewrite forallb_forall in Hm.
  split; [unfold in_u; simpl; lia|]. split; [split; simpl; [done|lia]|]. split; [simpl; lia|].
  split; [|done]. apply Forall_forall. intros m Hin. simpl in Hin. specialize (Hm m).
  rewrite <-list_elem_of_In, andb_true_iff, !bool_decide_eq_true in Hm. destruct (Hm Hin) as [? ?].
  split; [done|]. split; [done|].
  assert (Hsz : (length (payload m) ≤ sum_list_with meta_size md)%nat).
  { clear -Hin. induction md as [|m' md IH]; [by apply elem_of_nil in Hin|].
    simpl. apply elem_of_cons in Hin as [-> |Hin]; [unfold meta_size; lia|]. specialize (IH Hin). lia. }
  unfold entry_body_len in Hb. simpl in Hb. unfold blen. lia.
Qed.

Lemma task_ok_call s n c k : call_typed k = true → task_ok s n (call c k).
Proof.
  intros Hk. destruct k as [loc md| | | |]; try done. unfold call.
  destruct (QueueEntry_new loc md) as [e| |] eqn:He; try done.
  unfold task_ok; simpl. by eapply call_entry_wf.
Qed.

Lemma task_ok_fail s n c e : wants_read c = true → task_ok s n (fail_read c e).
Proof. unfold wants_read, fail_read, task_ok. by destruct (c_task c). Qed.

Lemma consumer_len_keeps c m :
  c_task (consumer_len c m) = c_task c ∧ c_epoch (consumer_len c m) = c_epoch c ∧
  c_outcomes (consumer_len c m) = c_outcomes c.
Proof. unfold consumer_len. by destruct (entries_count m). Qed.

Lemma task_ok_read s hist c :
  store_ok s hist → QueueOk (run hist) → q_next (run hist) ≤ blen hist →
  task_ok s (blen hist) c → wants_read c = true → task_ok s (blen hist) (client_read s c).
Proof.
  intros Hs HQ Hn Ht Hw. destruct (manifest_read_ok s hist Hs HQ) as (m & v & Hr & HR & Hap & Hb).
  assert (Hb' : base s (blen hist) v (run hist)) by (eapply base_mono; [|exact Hn|exact Hb]; auto).
  unfold client_read. rewrite Hr. unfold task_ok in Ht |- *. unfold wants_read in Hw.
  destruct (consumer_len_keeps c m) as (_ & Hce & _).
  destruct (c_task c) as [|e| | | | |seq|t|]; try done.
  - unfold enqueue_read. destruct (append m e) as [m' [[]| |]] eqn:Ha; simpl; try done.
    split; [done|]. exists (run hist), m. split_and!; try done. by rewrite Ha.
  - unfold initialize_read. rewrite (rf_epoch _ _ HR).
    destruct (set_epoch_refines m _ (next_epoch (q_epoch (run hist))) HR HQ) as (m' & -> & HR');
      [apply next_epoch_range|]. simpl. by exists (run hist).
  - unfold peek_read. by case_bool_decide.
  - unfold read_read. by case_bool_decide.
  - unfold dequeue_read. rewrite (rf_epoch _ _ HR), Hce. case_bool_decide as He; [done|].
    destruct (dequeue_refines m _ t HR HQ) as (m' & -> & HR'). simpl. exists (run hist).
    split_and!; try done. rewrite Hce. by destruct (decide (q_epoch (run hist) = c_epoch c)).
Qed.

(** what a pending write would do to the queue [q0] it started from *)
Definition effect (c : Client) (q0 : Queue) : Queue :=
  match c_task c with
  | TEnqueueW e _ _ => q_append q0 e
  | TInitW ep _ _ => q_set_epoch q0 ep
  | TDequeueW t _ _ _ => q_dequeue q0 t
  | _ => q0
  end.

Lemma effect_commit i acked c q :
  pending_write c ≠ None → ∃ cm, commit_of i acked c = [cm] ∧ apply_commit q cm = effect c q.
Proof. unfold pending_write, commit_of, effect. destruct (c_task c); naive_solver. Qed.

(** A pending write either would be refused at serialization, or carries a
    manifest for the effect of its operation. *)
Lemma pending_effect s n c m v :
  task_ok s n c → pending_write c = Some (m, v) → n + 1 < 2 ^ 64 →
  ∃ q0, base s n v q0 ∧
    ((∃ e, to_bytes m = Err e) ∨
     refines m (effect c q0) ∧ QueueOk (effect c q0) ∧ q_next (effect c q0) ≤ n + 1).
Proof.
  unfold task_ok, pending_write, effect. intros Ht Hp Hn.
  destruct (c_task c) as [|e|e m1 v1| |ep m1 v1| |seq|t|t rm m1 v1]; try done; simplify_eq.
  - destruct Ht as (Hwe & q0 & m0 & Hb & HR & Hap & ->). exists q0. split; [done|].
    destruct Hb as (HQ & Hq & _).
    destruct (decide (blen (q_entries q0) + 1 ≤ u_max 32)) as [Hle|Hgt].
    + right. split_and!; [apply append_refines; try done; lia|apply q_append_ok; try done; lia|simpl; lia].
    + left. eapply append_full; eauto. lia.
  - destruct Ht as (q0 & Hb & Hep & HR). exists q0. split; [done|]. right. destruct Hb as (HQ & Hq & _).
    split_and!; try done; [|simpl; lia]. apply q_set_epoch_ok; [done|]. subst ep. apply next_epoch_range.
  - destruct Ht as (q0 & Hb & _ & _ & HR). exists q0. split; [done|]. right. destruct Hb as (HQ & Hq & _).
    split_and!; try done; [by apply q_dequeue_ok|simpl; lia].
Qed.

Lemma written_task_ok s n c r : task_ok s n c → task_ok s n (client_written c r).
Proof.
  unfold task_ok, client_written. intros Ht.
  destruct (c_task c) eqn:E, r as [|[]|]; simpl; rewrite ?E; try done; by destruct Ht.
Qed.

Lemma inv_clients w i c' s (hist : list Commit) :
  (∀ j c, w_clients w !! j = Some c → task_ok s (blen hist) c) → task_ok s (blen hist) c' →
  ∀ j c, <[i := c']> (w_clients w) !! j = Some c → task_ok s (blen hist) c.
Proof.
  intros H Hc' j c Hj. destruct (decide (i = j)) as [->|Hne].
  - destruct (decide (j < length (w_clients w))%nat).
    + rewrite list_lookup_insert_eq in Hj by done. by simplify_eq.
    + rewrite list_insert_ge in Hj by lia. eauto.
  - rewrite list_lookup_insert_ne in Hj by done. eauto.
Qed.

Lemma qinv_same w i c c' :
  Inv w → w_clients w !! i = Some c → (task_ok (w_os w) (blen (w_hist w)) c → task_ok (w_os w) (blen (w_hist w)) c') →
  Inv (mkWorld (w_os w) (<[i := c']> (w_clients w)) (w_hist w)).
Proof.
  intros [HQ Hn Hs HT] Hc Ht. split; simpl; try done. eapply (inv_clients w); eauto.
Qed.

Lemma inv_write w i c m v acked r' :
  Inv w → w_clients w !! i = Some c → pending_write c = Some (m, v) → blen (w_hist w) + 1 < 2 ^ 64 →
  let w' s r := mkWorld s (<[i := client_written c r']> (w_clients w))
                  (match r with Ok _ => w_hist w ++ commit_of i acked c | _ => w_hist w end) in
  Inv (w' (manifest_write (w_os w) m v).1 (manifest_write (w_os w) m v).2).
Proof.
  intros HI Hc Hp Hb w'. pose proof HI as [HQ Hn Hs HT]. pose proof (HT _ _ Hc) as Htc.
  assert (Hsame : Inv (mkWorld (w_os w) (<[i := client_written c r']> (w_clients w)) (w_hist w)))
    by (eapply qinv_same; eauto using written_task_ok).
  destruct (pending_effect _ _ _ _ _ Htc Hp Hb) as (q0 & Hbase & [(e & He)|(HR & HQ' & Hn')]).
  { unfold manifest_write. by rewrite He. }
  destruct (manifest_write_ok _ _ _ _ _ _ _ Hs HQ Hbase HR HQ')
    as [-> |(s' & v' & -> & Hrun & Hg & Hcont)]; simpl; [done|].
  destruct (effect_commit i acked c (run (w_hist w))) as (cm & Hcm & Hap); [congruence|].
  assert (Hlen : blen (w_hist w ++ [cm]) = blen (w_hist w) + 1)
    by (unfold blen; rewrite length_app; simpl; lia).
  unfold w'. rewrite Hcm. split; simpl.
  - by rewrite run_snoc, Hap, Hrun.
  - by rewrite run_snoc, Hap, Hrun, Hlen.
  - unfold store_ok. rewrite run_snoc, Hap, Hrun. destruct (w_hist w); simpl; eauto.
  - eapply (inv_clients w); [|apply written_task_ok].
    + intros j cj Hj. eapply task_mono; [exact Hcont| |by eapply HT]. lia.
    + eapply task_mono; [exact Hcont| |done]. lia.
Qed.

Lemma hist_step w l w' :
  step w l = Some w' → w_hist w' = w_hist w ∨ ∃ cm, w_hist w' = w_hist w ++ [cm].
Proof.
  intros Hst. destruct l as [i k|i f|i f]; simpl in Hst; destruct (w_clients w !! i) as [c|]; try done.
  - repeat case_match; simplify_eq; by left.
  - repeat case_match; simplify_eq; by left.
  - destruct (pending_write c) as [[m v]|] eqn:Hp; [|done].
    assert (Hcm : ∀ b, ∃ cm, commit_of i b c = [cm]).
    { intros b. destruct (effect_commit i b c q_empty) as (cm & ? & _); [congruence|eauto]. }
    destruct f as [[]|]; [destruct (manifest_write _ _ _) as [? []]| |destruct (manifest_write _ _ _) as [? []]];
      simplify_eq; simpl; try (by left); right;
      match goal with |- context [commit_of _ ?b _] => destruct (Hcm b) as (cm & ->); eauto end.
Qed.

Lemma hist_mono w l w' : step w l = Some w' → ∃ h, w_hist w' = w_hist w ++ h.
Proof.
  intros Hst. destruct (hist_step _ _ _ Hst) as [->|(cm & ->)]; [exists []; by rewrite app_nil_r|eauto].
Qed.

Lemma blen_mono {A} (a b h : list A) : b = a ++ h → blen b + 1 < 2 ^ 64 → blen a + 1 < 2 ^ 64.
Proof. intros ->. unfold blen. rewrite length_app. lia. Qed.

Lemma qinv_step w l w' :
  Inv w → step w l = Some w' → blen (w_hist w') + 1 < 2 ^ 64 → Inv w'.
Proof.
  intros HI Hst Hb. destruct (hist_mono _ _ _ Hst) as (h & Hh).
  pose proof (blen_mono _ _ _ Hh Hb) as Hb0.
  destruct l as [i k|i f|i f]; simpl in Hst; destruct (w_clients w !! i) as [c|] eqn:Hc; try done.
  - destruct (c_task c); try done. destruct (call_typed k) eqn:Hk; [|done]. simplify_eq.
    eapply qinv_same; eauto using task_ok_call.
  - destruct (wants_read c) eqn:Hw; [|done]. simplify_eq. eapply qinv_same; eauto. intros Ht.
    destruct f; [by apply task_ok_fail|]. destruct HI. eapply task_ok_read; eauto.
  - destruct (pending_write c) as [[m v]|] eqn:Hp; [|done].
    destruct f as [[]|]; [|simplify_eq; eapply qinv_same; eauto using written_task_ok|].
    all: pose proof (λ acked r', inv_write w i c m v acked r' HI Hc Hp Hb0) as HW;
      destruct (manifest_write (w_os w) m v) as [s r]; simplify_eq; apply HW.
Qed.

(** clients that have done nothing and an object that does not exist *)
Definition initial (w : World) : Prop :=
  os_get (w_os w) = Err NotFound ∧ w_hist w = [] ∧ Forall (λ c, c = new_client) (w_clients w).

Lemma qreach_inv w0 w :
  initial w0 → reachable w0 w → blen (w_hist w) + 1 < 2 ^ 64 → Inv w.
Proof.
  intros (Hos & Hh & Hcl). induction 1 as [|w l w' _ IH Hst]; intros Hb.
  - split; rewrite ?Hh; try done; try apply empty_refines.
    intros i c Hc. rewrite Forall_lookup in Hcl. by rewrite (Hcl _ _ Hc).
  - destruct (hist_mono _ _ _ Hst) as (h & Hh').
    eapply qinv_step; eauto. apply IH. by eapply blen_mono.
Qed.

(** ** What each commit did *)
(** clients whose [initialize] took effect, in order *)
Fixpoint inits (h : list Commit) : list nat :=
  match h with
  | [] => []
  | CEpoch i _ _ :: h => i :: inits h
  | _ :: h => inits h
  end.

Lemma inits_app h1 h2 : inits (h1 ++ h2) = inits h1 ++ inits h2.
Proof. induction h1 as [|[] h1 IH]; simpl; congruence. Qed.

Definition commit_ok (h : list Commit) (cm : Commit) : Prop :=
  match cm with
  | CAppend _ _ _ => True
  | CEpoch _ _ ep => ep = next_epoch (q_epoch (run h))
  | CDequeue i _ t rm => rm = q_removed (run h) t ∧ last (inits h) = Some i
  end.

Inductive hist_ok : list Commit → Prop :=
| hist_nil : hist_ok []
| hist_snoc h cm : hist_ok h → commit_ok h cm → hist_ok (h ++ [cm]).

Lemma inits_le h : blen (inits h) ≤ blen h.
Proof. unfold blen. induction h as [|[] h IH]; simpl; lia. Qed.

(** The epoch counts the initializations. *)
Lemma hist_epoch h :
  hist_ok h → blen h + 1 < 2 ^ 64 → q_epoch (run h) = blen (inits h).
Proof.
  induction 1 as [|h cm Hh IH Hcm]; intros Hb; [done|].
  assert (Hb' : blen h + 1 < 2 ^ 64) by (by eapply blen_mono).
  specialize (IH Hb'). pose proof (inits_le h) as Hle.
  rewrite run_snoc, inits_app. unfold blen in *. rewrite length_app in *.
  destruct cm as [i a e|i a ep|i a t rm]; simpl in *; try (rewrite Nat.add_0_r; done).
  subst ep. rewrite IH. unfold next_epoch, wrap, UNINITIALIZED_EPOCH, u_max.
  rewrite Z.mod_small by lia. rewrite bool_decide_false by lia. lia.
Qed.

(** ** Acknowledgements *)
Inductive Ack : Type :=
| AckAppend (e : QueueEntry)
| AckInit
| AckDequeue (through : Z) (removed : list QueueEntry).

(** the successes a client was told of, and the acknowledged commits of a client *)
Fixpoint told (os : list Outcome) : list Ack :=
  match os with
  | [] => []
  | OutEnqueue e (Ok _) :: os => AckAppend e :: told os
  | OutInit (Ok _) :: os => AckInit :: told os
  | OutDequeue t (Ok rm) :: os => AckDequeue t rm :: told os
  | _ :: os => told os
  end.

Fixpoint acked_by (i : nat) (h : list Commit) : list Ack :=
  match h with
  | [] => []
  | CAppend j true e :: h => if bool_decide (j = i) then AckAppend e :: acked_by i h else acked_by i h
  | CEpoch j true _ :: h => if bool_decide (j = i) then AckInit :: acked_by i h else acked_by i h
  | CDequeue j true t rm :: h =>
      if bool_decide (j = i) then AckDequeue t rm :: acked_by i h else acked_by i h
  | _ :: h => acked_by i h
  end.

Lemma told_app a b : told (a ++ b) = told a ++ told b.
Proof. induction a as [|[? []|[]| | |? []] a IH]; simpl; congruence. Qed.

Lemma acked_by_app i a b : acked_by i (a ++ b) = acked_by i a ++ acked_by i b.
Proof. induction a as [|[? []|? []|? []] a IH]; simpl; try case_bool_decide; simpl; congruence. Qed.

(** what is known of each client *)
Definition client_ok (h : list Commit) (i : nat) (c : Client) : Prop :=
  told (c_outcomes c) = acked_by i h ∧
  (c_epoch c = UNINITIALIZED_EPOCH ∨ ∃ k, inits h !! k = Some i ∧ c_epoch c = Z.of_nat k + 1).

Record Inv2 (w : World) : Prop := {
  i2_hist : hist_ok (w_hist w);
  i2_clients : ∀ i c, w_clients w !! i = Some c → client_ok (w_hist w) i c;
}.

(** Steps of a client that commit nothing tell it of no success. *)
Lemma client_ok_keep h i c c' :
  told (c_outcomes c') = told (c_outcomes c) → c_epoch c' = c_epoch c →
  client_ok h i c → client_ok h i c'.
Proof. intros Ht He [? ?]. split; [congruence|by rewrite He]. Qed.

Lemma told_snoc c o : told [o] = [] → told (c_outcomes (finish c o)) = told (c_outcomes c).
Proof. intros Ho. simpl. by rewrite told_app, Ho, app_nil_r. Qed.

Lemma call_keeps c k : told (c_outcomes (call c k)) = told (c_outcomes c) ∧ c_epoch (call c k) = c_epoch c.
Proof. destruct k; try done. unfold call. destruct (QueueEntry_new _ _); by rewrite ?told_snoc. Qed.

Lemma fail_keeps c e : told (c_outcomes (fail_read c e)) = told (c_outcomes c) ∧ c_epoch (fail_read c e) = c_epoch c.
Proof. unfold fail_read. destruct (c_task c); try done; by rewrite told_snoc. Qed.

Lemma read_keeps s c : told (c_outcomes (client_read s c)) = told (c_outcomes c) ∧ c_epoch (client_read s c) = c_epoch c.
Proof.
  unfold client_read. destruct (manifest_read s) as [[m v]|e|]; [|apply fail_keeps|done].
  destruct (consumer_len_keeps c m) as (_ & He & Ho).
  destruct (c_task c); try done.
  - unfold enqueue_read. destruct (append m e) as [? []]; rewrite ?told_snoc; done.
  - unfold initialize_read. destruct (set_epoch _ _); rewrite ?told_snoc; simpl; rewrite ?Ho, ?He; done.
  - unfold peek_read. case_bool_decide; rewrite ?told_snoc; simpl; rewrite ?Ho, ?He; done.
  - unfold read_read. case_bool_decide; rewrite ?told_snoc; simpl; rewrite ?Ho, ?He; done.
  - unfold dequeue_read. case_bool_decide; [rewrite ?told_snoc; simpl; rewrite ?Ho, ?He; done|].
    destruct (dequeue _ _) as [[? ?]| |]; rewrite ?told_snoc; simpl; rewrite ?Ho, ?He; done.
Qed.

(** A put that failed, or whose answer was lost. *)
Lemma written_keeps c r :
  (∀ u, r ≠ Ok u) → told (c_outcomes (client_written c r)) = told (c_outcomes c) ∧
  c_epoch (client_written c r) = c_epoch c.
Proof.
  intros Hr. unfold client_written.
  destruct (c_task c), r as [u|[]|]; try done; try (by destruct (Hr u)); by rewrite told_snoc.
Qed.

Lemma client_ok_grow h cm i c :
  acked_by i [cm] = [] → client_ok h i c → client_ok (h ++ [cm]) i c.
Proof.
  intros Ha [Ht He]. split; [by rewrite acked_by_app, Ha, app_nil_r|].
  destruct He as [?|(k & Hk & ?)]; [by left|right]. exists k. split; [|done].
  rewrite inits_app. by apply lookup_app_l_Some.
Qed.

(** Only the consumer of the last initialization holds the current epoch. *)
Lemma current_epoch_owner h i c :
  hist_ok h → blen h + 1 < 2 ^ 64 → client_ok h i c → q_epoch (run h) = c_epoch c →
  last (inits h) = Some i.
Proof.
  intros Hh Hb [_ He] Heq. rewrite (hist_epoch _ Hh Hb) in Heq. pose proof (inits_le h).
  destruct He as [He|(k & Hk & He)].
  - rewrite He in Heq. unfold UNINITIALIZED_EPOCH, u_max in Heq. lia.
  - rewrite He in Heq. unfold blen in Heq. rewrite last_lookup.
    by replace (pred (length (inits h))) with k by lia.
Qed.

(** A successful put: the commit is sound, and its client learns of it or not. *)
Lemma committed_ok w i c m v acked s' cm :
  Inv w → Inv2 w → w_clients w !! i = Some c → pending_write c = Some (m, v) →
  blen (w_hist w) + 1 < 2 ^ 64 → manifest_write (w_os w) m v = (s', Ok tt) →
  commit_of i acked c = [cm] →
  commit_ok (w_hist w) cm ∧ (∀ j, j ≠ i → acked_by j [cm] = []) ∧
  (acked = false → acked_by i [cm] = []) ∧
  (blen (w_hist w) + 2 < 2 ^ 64 → acked = true →
   client_ok (w_hist w ++ [cm]) i (client_written c (Ok tt))).
Proof.
  intros [HQ Hn Hs HT] [Hh HC] Hc Hp Hb Hw Hcm. pose proof (HT _ _ Hc) as Ht. pose proof (HC _ _ Hc) as HCc.
  destruct (pending_effect _ _ _ _ _ Ht Hp Hb) as (q0 & Hbase & Heff).
  destruct Heff as [(e & He)|(HR & HQ' & _)].
  { unfold manifest_write in Hw. by rewrite He in Hw. }
  assert (Hrun : ∀ q0, base (w_os w) (blen (w_hist w)) v q0 → q0 = run (w_hist w)).
  { intros q1 Hb1. destruct (manifest_write_ok _ _ _ _ _ _ _ Hs HQ Hb1 HR HQ') as [E|(? & ? & E & ? & _)];
      [rewrite E in Hw; done|done]. }
  destruct HCc as [Hto He].
  assert (Hgrow : c_epoch c = UNINITIALIZED_EPOCH ∨
    ∃ k, inits (w_hist w ++ [cm]) !! k = Some i ∧ c_epoch c = Z.of_nat k + 1).
  { destruct He as [?|(k & Hk & ?)]; [by left|right]. exists k. split; [|done].
    rewrite inits_app. by apply lookup_app_l_Some. }
  unfold task_ok, pending_write, commit_of, client_written, client_ok in *.
  destruct (c_task c) as [|e|e m1 v1| |ep m1 v1| |seq|t|t rm m1 v1]; try done; simplify_eq;
    (split_and!; [|intros j Hj; simpl; destruct acked; [by rewrite bool_decide_false|done]|by intros ->|intros Hb2 ->]).
  - done.
  - simpl. rewrite told_app, acked_by_app, Hto. simpl. by rewrite bool_decide_true.
  - destruct Ht as (q1 & Hb1 & -> & _). by rewrite (Hrun _ Hb1).
  - destruct (consumer_len_keeps c m) as (_ & _ & Ho). simpl.
    rewrite Ho, told_app, acked_by_app, Hto. simpl. rewrite bool_decide_true by done. split; [done|right].
    exists (length (inits (w_hist w))). rewrite inits_app. split; [by apply list_lookup_middle|].
    destruct Ht as (q1 & Hb1 & -> & _). rewrite (Hrun _ Hb1), (hist_epoch _ Hh Hb).
    pose proof (inits_le (w_hist w)). unfold next_epoch, wrap, UNINITIALIZED_EPOCH, u_max, blen in *.
    rewrite Z.mod_small by lia. rewrite bool_decide_false by lia. done.
  - destruct Ht as (q1 & Hb1 & Hep & -> & _). rewrite (Hrun _ Hb1) in *. split; [done|].
    by eapply (current_epoch_owner _ i c).
  - destruct (consumer_len_keeps c m) as (_ & Hce & Ho). simpl.
    rewrite Ho, Hce, told_app, acked_by_app, Hto. simpl. by rewrite bool_decide_true.
Qed.

Lemma inv2_same w i c c' s :
  Inv2 w → w_clients w !! i = Some c →
  told (c_outcomes c') = told (c_outcomes c) → c_epoch c' = c_epoch c →
  Inv2 (mkWorld s (<[i := c']> (w_clients w)) (w_hist w)).
Proof.
  intros [Hh HC] Hc Ht He. split; [done|]. simpl. intros j cj Hj.
  apply list_lookup_insert_Some in Hj as [(-> & <- & _)|[? Hj]]; [|by apply HC].
  eapply client_ok_keep; eauto.
Qed.

Lemma inv2_step w l w' :
  Inv w → Inv2 w → step w l = Some w' → blen (w_hist w') + 1 < 2 ^ 64 → Inv2 w'.
Proof.
  intros HI HI2 Hst Hb. destruct (hist_mono _ _ _ Hst) as (h & Hh).
  pose proof (blen_mono _ _ _ Hh Hb) as Hb0.
  destruct l as [i k|i f|i f]; simpl in Hst; destruct (w_clients w !! i) as [c|] eqn:Hc; try done.
  - destruct (c_task c); try done. destruct (call_typed k); [|done]. simplify_eq.
    eapply inv2_same; eauto; apply call_keeps.
  - destruct (wants_read c); [|done]. simplify_eq.
    destruct f; eapply inv2_same; eauto; first [apply fail_keeps|apply read_keeps].
  - destruct (pending_write c) as [[m v]|] eqn:Hp; [|done].
    destruct f as [[]|]; [|simplify_eq; eapply inv2_same; eauto; by apply written_keeps|].
    all: destruct (manifest_write (w_os w) m v) as [s [[]|e|]] eqn:Hw; simplify_eq; simpl in *;
      try (eapply inv2_same; eauto; by apply written_keeps).
    all: match goal with |- context [commit_of _ ?b _] =>
      destruct (effect_commit i b c q_empty) as (cm & Hcm & _); [congruence|];
      destruct (committed_ok _ _ _ _ _ b _ _ HI HI2 Hc Hp Hb0 Hw Hcm) as (Hok & Hoth & Hna & Hack) end.
    all: rewrite Hcm in *; assert (Hlen : blen (w_hist w ++ [cm]) = blen (w_hist w) + 1)
      by (unfold blen; rewrite length_app; simpl; lia).
    all: destruct HI2 as [Hho HC]; split; simpl; [by constructor|]; intros j cj Hj.
    all: apply list_lookup_insert_Some in Hj as [(<- & <- & _)|[? Hj]];
      [|by apply client_ok_grow; [apply Hoth|apply HC]].
    + apply client_ok_grow; [by apply Hna|]. eapply client_ok_keep; [..|by apply HC]; by apply written_keeps.
    + apply Hack; [lia|done].
Qed.

Lemma qreach_inv2 w0 w :
  initial w0 → reachable w0 w → blen (w_hist w) + 1 < 2 ^ 64 → Inv w ∧ Inv2 w.
Proof.
  intros Hi Hr Hb. split; [by eapply qreach_inv|]. revert Hb. pose proof Hi as (_ & Hh & Hcl).
  induction Hr as [|w l w' Hr IH Hst]; intros Hb.
  - split; rewrite Hh; [constructor|]. intros i c Hc. rewrite Forall_lookup in Hcl.
    rewrite (Hcl _ _ Hc). split; [done|by left].
  - destruct (hist_mono _ _ _ Hst) as (h & Hh').
    pose proof (blen_mono _ _ _ Hh' Hb). eapply inv2_step; eauto. by eapply qreach_inv.
Qed.

(** ** Theorems *)
(** all entries ever appended, with the numbers they got *)
Fixpoint numbered (n : Z) (h : list Commit) : list QueueEntry :=
  match h with
  | [] => []
  | CAppend _ _ e :: h => clone_with_sequence e n :: numbered (n + 1) h
  | _ :: h => numbered n h
  end.

(** all entries ever handed out by [dequeue] *)
Fixpoint delivered (h : list Commit) : list QueueEntry :=
  match h with
  | [] => []
  | CDequeue _ _ _ rm :: h => rm ++ delivered h
  | _ :: h => delivered h
  end.

Fixpoint appends (h : list Commit) : Z :=
  match h with [] => 0 | CAppend _ _ _ :: h => 1 + appends h | _ :: h => appends h end.

Lemma appends_app h1 h2 : appends (h1 ++ h2) = appends h1 + appends h2.
Proof. induction h1 as [|[] h1 IH]; simpl; lia. Qed.

Lemma numbered_app n h1 h2 : numbered n (h1 ++ h2) = numbered n h1 ++ numbered (n + appends h1) h2.
Proof.
  revert n. induction h1 as [|[] h1 IH]; intros n; simpl; rewrite ?Z.add_0_r; try done.
  rewrite IH, Z.add_assoc. done.
Qed.

Lemma delivered_app h1 h2 : delivered (h1 ++ h2) = delivered h1 ++ delivered h2.
Proof. induction h1 as [|[] h1 IH]; simpl; rewrite ?IH, ?app_assoc; done. Qed.

Lemma hist_exactly_once h :
  hist_ok h → (∀ h1 h2, h = h1 ++ h2 → QueueOk (run h1)) →
  delivered h ++ q_entries (run h) = numbered 0 h ∧ q_next (run h) = appends h.
Proof.
  induction 1 as [|h cm Hh IH Hcm]; intros HQ; [done|].
  destruct IH as [IH1 IH2]. { intros h1 h2 ->. apply (HQ h1 (h2 ++ [cm])). by rewrite app_assoc. }
  assert (HQh : QueueOk (run h)) by (by apply (HQ h [cm])).
  rewrite run_snoc, delivered_app, numbered_app, appends_app, <-IH1.
  destruct cm as [i a e|i a ep|i a t rm]; cbn in Hcm |- *.
  - rewrite app_nil_r, <-app_assoc, IH2. split; [done|lia].
  - rewrite !app_nil_r. split; [done|lia].
  - destruct Hcm as [-> _]. rewrite !app_nil_r. split; [|lia].
    rewrite <-app_assoc. f_equal. unfold q_removed, q_dequeue. simpl.
    symmetry. eapply seqs_split, HQh.
Qed.

Lemma run_prefix_ok w0 w : initial w0 → reachable w0 w → blen (w_hist w) + 1 < 2 ^ 64 →
  ∀ h1 h2, w_hist w = h1 ++ h2 → QueueOk (run h1).
Proof.
  intros Hi. induction 1 as [|w l w' Hr IH Hst]; intros Hb h1 h2 E.
  - destruct Hi as (_ & Hh & _). rewrite Hh in E. symmetry in E. apply app_eq_nil in E as [-> _].
    apply empty_refines.
  - destruct (hist_mono _ _ _ Hst) as (h & Hh). pose proof (blen_mono _ _ _ Hh Hb) as Hb0.
    assert (HI' : Inv w') by (eapply qreach_inv; eauto; by econstructor).
    destruct (decide (h2 = [])) as [->|Hne].
    { rewrite app_nil_r in E. rewrite <-E. apply HI'. }
    (* h1 is then a prefix of the history before the step, which adds at most one commit *)
    destruct (hist_step _ _ _ Hst) as [Hs|(cm & Hs)]; [rewrite Hs in E; eauto|].
    destruct (exists_last Hne) as (h2' & x & ->). rewrite app_assoc, Hs in E.
    apply app_inj_tail in E as [E _]. eauto.
Qed.

Section theorems.
Context (w0 w : World) (Hi : initial w0) (Hr : reachable w0 w) (Hb : blen (w_hist w) + 1 < 2 ^ 64).

(** C2: The shared manifest is linearizable: in every reachable state the object
    holds exactly the queue obtained by performing the successful operations one
    after another in commit order (or is absent before the first), and each
    client has been told of exactly those of its commits whose answer was not
    lost, in order. *)
Theorem queue_linearizable :
  QueueOk (run (w_hist w)) ∧
  (w_hist w = [] ∧ os_get (w_os w) = Err NotFound ∨
   ∃ v, os_get (w_os w) = Ok (q_bytes (run (w_hist w)), v)) ∧
  ∀ i c, w_clients w !! i = Some c → told (c_outcomes c) = acked_by i (w_hist w).
Proof.
  destruct (qreach_inv2 _ _ Hi Hr Hb) as [[HQ _ Hs _] [_ HC]]. split_and!; [done| |].
  - unfold store_ok in Hs. destruct (w_hist w); [by left|by right].
  - intros i c Hc. apply (HC _ _ Hc).
Qed.

(** C1: Exactly once: everything ever delivered by a committed dequeue, followed
    by what is still queued, is the list of all entries ever appended, numbered
    0, 1, 2, ... in commit order; nothing is lost, repeated or reordered. *)
Theorem queue_exactly_once :
  delivered (w_hist w) ++ q_entries (run (w_hist w)) = numbered 0 (w_hist w) ∧
  q_next (run (w_hist w)) = appends (w_hist w).
Proof.
  destruct (qreach_inv2 _ _ Hi Hr Hb) as [_ [Hh _]].
  apply hist_exactly_once; [done|]. by eapply run_prefix_ok.
Qed.

Lemma hist_ok_split h h1 cm h2 : hist_ok h → h = h1 ++ cm :: h2 → commit_ok h1 cm.
Proof.
  intros Hh. revert h2. induction Hh as [|h cm' Hh IH Hcm]; intros h2 E; [by destruct h1|].
  destruct (decide (h2 = [])) as [->|Hne].
  - apply app_inj_tail in E as [-> ->]. done.
  - destruct (exists_last Hne) as (h2' & x & ->). rewrite app_comm_cons, app_assoc in E.
    apply app_inj_tail in E as [E _]. eauto.
Qed.

(** C12: Fencing: a dequeue takes effect only for the consumer whose [initialize]
    was the last to take effect before it, and removes exactly the entries then
    queued up to its sequence number. *)
Theorem queue_fencing h1 i acked t removed h2 :
  w_hist w = h1 ++ CDequeue i acked t removed :: h2 →
  last (inits h1) = Some i ∧ removed = q_removed (run h1) t.
Proof.
  intros E. destruct (qreach_inv2 _ _ Hi Hr Hb) as [_ [Hh _]].
  by destruct (hist_ok_split _ _ _ _ Hh E).
Qed.

(** [peek] and [read] answer from the current queue: the first entry, and the
    entry with the given number, if the caller holds the current epoch, and
    [Fenced] otherwise; a caller with the current epoch is the last consumer that
    initialized. *)
Theorem queue_reads i c :
  w_clients w !! i = Some c →
  let q := run (w_hist w) in
  let current := bool_decide (q_epoch q = c_epoch c) in
  (current = true → last (inits (w_hist w)) = Some i) ∧
  (c_task c = TPeek →
   c_outcomes (client_read (w_os w) c) =
     c_outcomes c ++ [OutPeek (if current then Ok (head (q_entries q)) else Err Fenced)]) ∧
  (∀ seq, c_task c = TRead seq →
   c_outcomes (client_read (w_os w) c) =
     c_outcomes c ++
     [OutRead seq (if current
                   then Ok (head (filter (λ e, bool_decide (sequence e = seq) = true) (q_entries q)))
                   else Err Fenced)]).
Proof.
  intros Hc q current. destruct (qreach_inv2 _ _ Hi Hr Hb) as [[HQ _ Hs _] [Hh HC]].
  destruct (manifest_read_ok _ _ Hs HQ) as (m & v & Hm & HR & _ & _).
  destruct (iter_refines _ _ HR HQ) as (_ & it & Hit & Hco & Hfi).
  destruct (consumer_len_keeps c m) as (_ & Hce & Ho).
  assert (Hep : bool_decide (epoch m ≠ c_epoch (consumer_len c m)) = negb current).
  { unfold current, q. rewrite (rf_epoch _ _ HR), Hce. by repeat case_bool_decide. }
  unfold client_read. rewrite Hm. split_and!.
  - unfold current. rewrite bool_decide_eq_true. intros. eapply current_epoch_owner; eauto.
  - intros ->. unfold peek_read. rewrite Hep. destruct current; simpl; rewrite Ho; [|done].
    do 3 f_equal. unfold first_entry. rewrite Hit. cbn [res_bind].
    apply collect_head in Hco. destruct (iter_next it) as [[r it']|]; [|unfold q; by rewrite Hco].
    destruct Hco as (e & -> & He). cbn [res_bind]. unfold q; by rewrite He.
  - intros seq ->. unfold read_read. rewrite Hep. destruct current; simpl; rewrite Ho; [|done].
    unfold find_sequence. rewrite Hit. cbn [res_bind]. by rewrite Hfi.
Qed.

(** An enqueue that is not disturbed succeeds at its next attempt: with room
    for one more entry, reading and writing without another client's commit in
    between appends the entry and reports success (so a conflict means that some
    other client made progress). *)
Theorem enqueue_completes i c e :
  w_clients w !! i = Some c → c_task c = TEnqueue e →
  blen (q_entries (run (w_hist w))) + 1 ≤ u_max 32 → blen (w_hist w) + 2 < 2 ^ 64 →
  ∃ w' c', steps w [LRead i None; LWrite i None] = Some w' ∧
    w_hist w' = w_hist w ++ [CAppend i true e] ∧ w_clients w' !! i = Some c' ∧
    c_outcomes c' = c_outcomes c ++ [OutEnqueue e (Ok tt)] ∧ c_task c' = TIdle.
Proof.
  intros Hc Ht Hroom Hb2. pose proof (qreach_inv _ _ Hi Hr Hb) as HI. destruct HI as [HQ Hn Hs HT].
  pose proof (HT _ _ Hc) as Htc. unfold task_ok in Htc. rewrite Ht in Htc.
  destruct (manifest_read_ok _ _ Hs HQ) as (m & v & Hm & HR & Hap & Hbase).
  destruct (append_refines _ _ e HR HQ Htc) as [Hok HR']; [lia|].
  assert (HQ' : QueueOk (q_append (run (w_hist w)) e)) by (apply q_append_ok; try done; lia).
  destruct (append m e) as [m' r] eqn:Ha. simpl in Hok, HR'. subst r.
  assert (Hw : ∃ s', manifest_write (w_os w) m' v = (s', Ok tt)).
  { unfold manifest_write. rewrite (to_bytes_canonical _ _ HR' HQ'). destruct Hbase as (_ & _ & Hv).
    unfold manifest_read in Hm. destruct (law_get_total (w_os w)) as [Hg|(b & v0 & Hg)]; rewrite Hg in Hm.
    - simplify_eq. destruct (law_create (w_os w) (q_bytes (q_append (run (w_hist w)) e)) Hg) as (Hp & _).
      simpl. destruct (os_put _ _ _); simpl in Hp; subst. eauto.
    - inv_ok. simplify_eq.
      destruct (law_update (w_os w) (q_bytes (q_append (run (w_hist w)) e)) b v0 Hg) as (Hp & _).
      simpl. destruct (os_put _ _ _); simpl in Hp; subst. eauto. }
  destruct Hw as (s' & Hw). pose proof (lookup_lt_Some _ _ _ Hc) as Hl.
  eexists _, _. split_and!.
  - simpl. rewrite Hc. unfold wants_read. rewrite Ht. unfold client_read. rewrite Hm, Ht.
    unfold enqueue_read. rewrite Ha. simpl. rewrite list_lookup_insert_eq by done. simpl.
    rewrite Hw. simpl. reflexivity.
  - done.
  - simpl. apply list_lookup_insert_eq. by rewrite length_insert.
  - done.
  - done.
Qed.
End theorems.
End correctness.

(** * A concrete object store and runs *)
(** The store is the list of all contents; a version is a position in it. *)
#[global] Instance MemStore : ObjectStore := {|
  os := list bytes;
  version := nat;
  os_get := λ s, match last s with
                 | Some b => Ok (b, pred (length s))
                 | None => Err NotFound
                 end;
  os_put := λ s b md,
    match md with
    | Create => match s with [] => ([b], Ok tt) | _ => (s, Err AlreadyExists) end
    | Update v =>
        if bool_decide (s ≠ [] ∧ v = pred (length s)) then (s ++ [b], Ok tt)
        else (s, Err Precondition)
    end;
|}.

#[global] Program Instance MemStoreLaws : ObjectStoreLaws MemStore := {|
  content := λ s v, s !! v;
|}.
Next Obligation.
  intros s b v H. simpl in *. destruct (last s) eqn:E; [|done]. simplify_eq. by rewrite last_lookup in E.
Qed.
Next Obligation.
  intros s b [|v'] v c H; simpl in *.
  - destruct s; [done|done].
  - case_bool_decide; simpl; [by apply lookup_app_l_Some|done].
Qed.
Next Obligation. intros s. simpl. destruct (last s); eauto. Qed.
Next Obligation.
  intros s b H. simpl in *. destruct (last s) eqn:E; [done|]. apply last_None in E. subst. simpl. eauto.
Qed.
Next Obligation. intros s b c v H. simpl in *. by destruct s. Qed.
Next Obligation.
  intros s b c v H. simpl in *. destruct (last s) eqn:E; [|done]. simplify_eq.
  rewrite bool_decide_true; [|split; [by intros ->|done]]. simpl. rewrite last_snoc. eauto.
Qed.
Next Obligation.
  intros s b v H. simpl in *. rewrite bool_decide_false; [done|]. intros [Hne ->].
  destruct (last s) eqn:E; [by eapply H|]. by apply last_None in E.
Qed.

(** a producer (0) and two consumers (1, 2); consumer 2 takes over from 1 *)
Definition q_demo_world : World := mkWorld (OS:=MemStore) [] [new_client; new_client; new_client] [].
Definition q_demo_labels : list label :=
  [LCall 0 (CallEnqueue [x61] []); LCall 1 CallInit; LRead 0 None; LRead 1 None;
   LWrite 1 None; LWrite 0 None; LRead 0 None; LWrite 0 None;
   LCall 0 (CallEnqueue [x62] [mkMetadata 0 7 [x01]]); LRead 0 None; LWrite 0 (Some true);
   LCall 1 (CallDequeue 0); LRead 1 None; LWrite 1 None;
   LCall 2 CallInit; LRead 2 None; LWrite 2 None;
   LCall 1 (CallDequeue 1); LRead 1 None; LCall 2 CallPeek].

Definition q_demo : option World := steps q_demo_world q_demo_labels.

Example q_demo_outcomes :
  (λ w, c_outcomes <$> w_clients w) <$> q_demo =
  Some [[OutEnqueue (mkEntry 0 [x61] []) (Ok tt);
         OutEnqueue (mkEntry 0 [x62] [mkMetadata 0 7 [x01]]) (Err (StorageErr PutFailed))];
        [OutInit (Ok tt); OutDequeue 0 (Ok [mkEntry 0 [x61] []]); OutDequeue 1 (Err Fenced)];
        [OutInit (Ok tt)]].
Proof. vm_compute. reflexivity. Qed.

Lemma qsteps_reachable {OS : ObjectStore} w0 ls w : steps w0 ls = Some w → reachable w0 w.
Proof.
  assert (H : ∀ ls w w', reachable w0 w → steps w ls = Some w' → reachable w0 w').
  { clear. induction ls as [|l ls IH]; simpl; intros w w' Hr Hs; [by simplify_eq|].
    destruct (step w l) eqn:E; [|done]. eapply IH; [|done]. by econstructor. }
  apply H. constructor.
Qed.

Lemma q_demo_initial : initial q_demo_world.
Proof. repeat split; repeat constructor. Qed.

Ltac q_demo_state :=
  let w := eval vm_compute in q_demo in
  lazymatch w with Some ?w =>
    exists w; assert (Hr : reachable q_demo_world w)
      by (apply (qsteps_reachable _ q_demo_labels); vm_compute; reflexivity);
    assert (Hb : blen (w_hist w) + 1 < 2 ^ 64) by (vm_compute; reflexivity)
  end.

Lemma queue_linearizable_witness : ∃ w, reachable q_demo_world w ∧ length (w_hist w) = 5%nat ∧
  QueueOk (run (w_hist w)) ∧
  (w_hist w = [] ∧ os_get (w_os w) = Err NotFound ∨
   ∃ v, os_get (w_os w) = Ok (q_bytes (run (w_hist w)), v)) ∧
  ∀ i c, w_clients w !! i = Some c → told (c_outcomes c) = acked_by i (w_hist w).
Proof.
  q_demo_state. split; [exact Hr|]. split; [reflexivity|].
  apply (queue_linearizable _ _ q_demo_initial Hr Hb).
Defined.

Lemma queue_exactly_once_witness : ∃ w, reachable q_demo_world w ∧
  delivered (w_hist w) = [mkEntry 0 [x61] []] ∧
  delivered (w_hist w) ++ q_entries (run (w_hist w)) = numbered 0 (w_hist w).
Proof.
  q_demo_state. split; [exact Hr|]. split; [vm_compute; reflexivity|].
  apply (queue_exactly_once _ _ q_demo_initial Hr Hb).
Defined.

Lemma queue_fencing_witness : ∃ w, reachable q_demo_world w ∧
  last (inits [CEpoch 1 true 1; CAppend 0 true (mkEntry 0 [x61] []);
               CAppend 0 false (mkEntry 0 [x62] [mkMetadata 0 7 [x01]])]) = Some 1%nat.
Proof.
  q_demo_state. split; [exact Hr|].
  apply (queue_fencing _ _ q_demo_initial Hr Hb _ 1%nat true 0 [mkEntry 0 [x61] []] [CEpoch 2 true 2]).
  reflexivity.
Defined.

Lemma queue_reads_witness : ∃ w c, reachable q_demo_world w ∧ w_clients w !! 2%nat = Some c ∧
  c_outcomes (client_read (w_os w) c) =
    [OutInit (Ok tt); OutPeek (Ok (Some (mkEntry 1 [x62] [mkMetadata 0 7 [x01]])))].
Proof.
  q_demo_state. eexists. split; [exact Hr|]. split; [reflexivity|].
  edestruct (queue_reads _ _ q_demo_initial Hr Hb 2%nat) as (_ & H & _); [reflexivity|].
  rewrite H by reflexivity. vm_compute. reflexivity.
Defined.

Lemma enqueue_completes_witness : ∃ w w' c', steps q_demo_world [LCall 0 (CallEnqueue [x61] [])] = Some w ∧
  steps w [LRead 0 None; LWrite 0 None] = Some w' ∧ w_clients w' !! 0%nat = Some c' ∧
  c_outcomes c' = [OutEnqueue (mkEntry 0 [x61] []) (Ok tt)].
Proof.
  let w := eval vm_compute in (steps q_demo_world [LCall 0 (CallEnqueue [x61] [])]) in
  lazymatch w with Some ?w => exists w;
    edestruct (λ Hr Hb, enqueue_completes q_demo_world w q_demo_initial Hr Hb 0%nat) as (w' & c' & H1 & _ & H2 & H3 & _);
    [eapply qsteps_reachable with (ls := [LCall 0 (CallEnqueue [x61] [])]); vm_compute; reflexivity
    |vm_compute; reflexivity|reflexivity|reflexivity|vm_compute; congruence|vm_compute; reflexivity|]
  end.
  exists w', c'. split; [vm_compute; reflexivity|]. split; [exact H1|]. split; [exact H2|exact H3].
Defined.
