(* ===== verification/Batch.v ===== *)
(** * buffer::model: the data batch format

    A batch object is the length-prefixed records, possibly compressed, followed
    by a 7-byte footer (compression type, record count, version).  zstd is
    third-party code: its two functions are arguments, and what is relied on is
    that decompression undoes compression. *)
From S2P Require Import Prelude Encoding Manifest.

Module Batch.

Definition ENTRY_LEN_SIZE : nat := 4.
Definition FORMAT_VERSION : Z := 1.
Definition COMPRESSION_TYPE_SIZE : nat := 1.
Definition ENTRIES_COUNT_SIZE : nat := 4.
Definition VERSION_SIZE : nat := 2.
Definition FOOTER_SIZE : nat := COMPRESSION_TYPE_SIZE + ENTRIES_COUNT_SIZE + VERSION_SIZE.

Inductive CompressionType : Type := CNone | CZstd.

Definition compression_u8 (c : CompressionType) : Z :=
  match c with CNone => 0 | CZstd => 1 end.

Definition compression_try_from (v : Z) : res Error CompressionType :=
  if bool_decide (v = 0) then Ok CNone
  else if bool_decide (v = 1) then Ok CZstd
  else Err (Serialization (UnsupportedCompression v)).

(** the record block *)
Definition put_record (e : bytes) : bytes := le_bytes 4 (wrap 32 (blen e)) ++ e.

Section zstd.
Context (zstd_compress zstd_decompress : bytes → res unit bytes).

Definition encode_batch (entries : list bytes) (c : CompressionType) : res Error bytes :=
  let entry_buf := concat (put_record <$> entries) in
  let? compressed :=
    match c with
    | CNone => Ok entry_buf
    | CZstd => res_map_err (λ _, Serialization CompressionFailed) (zstd_compress entry_buf)
    end in
  Ok (compressed ++ le_bytes 1 (compression_u8 c) ++
      le_bytes 4 (wrap 32 (blen entries)) ++ le_bytes 2 FORMAT_VERSION).

(** the record loop *)
Fixpoint decode_records (n : nat) (d : bytes) : res Error (list bytes) :=
  match n with
  | O => Ok []
  | S n =>
      if bool_decide (length d < ENTRY_LEN_SIZE)%nat
      then Err (Serialization TruncatedRecordLength)
      else
        let len := Z.to_nat (from_le (take ENTRY_LEN_SIZE d)) in
        let d := drop ENTRY_LEN_SIZE d in
        if bool_decide (length d < len)%nat then Err (Serialization TruncatedRecordData)
        else
          let? es := decode_records n (drop len d) in Ok (take len d :: es)
  end.

Definition decode_batch (data : bytes) : res Error (list bytes) :=
  if bool_decide (length data < FOOTER_SIZE)%nat then Err (Serialization BatchTooSmall)
  else
    let footer_start := (length data - FOOTER_SIZE)%nat in
    let footer := drop footer_start data in
    let data := take footer_start data in
    let? compression := compression_try_from (from_le (take 1 footer)) in
    let record_count := from_le (take 4 (drop 1 footer)) in
    let version := from_le (take 2 (drop 5 footer)) in
    if bool_decide (version ≠ FORMAT_VERSION)
    then Err (Serialization (UnsupportedBatchVersion version))
    else
      let? entry_data :=
        match compression with
        | CNone => Ok data
        | CZstd => res_map_err (λ _, Serialization DecompressionFailed) (zstd_decompress data)
        end in
      decode_records (Z.to_nat record_count) entry_data.

(** ** Correctness *)
(** the sizes the [debug_assert!]s state; [Batch::add] of the producer checks them *)
Definition wf_entries (es : list bytes) : Prop :=
  Forall (λ e, blen e ≤ u_max 32) es ∧ blen es ≤ u_max 32.

Lemma decode_records_put es rest :
  Forall (λ e, blen e ≤ u_max 32) es →
  decode_records (length es) (concat (put_record <$> es) ++ rest) = Ok es.
Proof.
  intros Hes. induction Hes as [|e es He Hes IH]; [done|].
  assert (Hu : in_u 32 (blen e)) by (unfold in_u, u_max, blen in *; lia).
  assert (Hd : concat (put_record <$> e :: es) ++ rest =
               le_bytes 4 (blen e) ++ e ++ concat (put_record <$> es) ++ rest).
  { rewrite fmap_cons. cbn [concat]. unfold put_record at 1. rewrite (wrap_small 32) by done.
    by rewrite <-!(assoc_L (++)). }
  rewrite Hd. cbn [length decode_records]. unfold ENTRY_LEN_SIZE.
  rewrite bool_decide_false by (rewrite length_app, le_bytes_length; lia).
  rewrite take_app_length' by (by rewrite le_bytes_length).
  rewrite drop_app_length' by (by rewrite le_bytes_length).
  rewrite (from_le_roundtrip 4) by done. unfold blen. rewrite Nat2Z.id.
  rewrite bool_decide_false by (rewrite length_app; lia).
  rewrite take_app_length, drop_app_length, IH. done.
Qed.

Lemma decode_records_no_panic n d : decode_records n d ≠ Panic.
Proof.
  revert d. induction n as [|n IH]; intros d; cbn [decode_records]; [done|].
  repeat case_bool_decide; try done.
  match goal with |- res_bind (decode_records n ?x) _ ≠ _ => specialize (IH x); by destruct (decode_records n x) end.
Qed.

Context (zstd_roundtrip : ∀ b c, zstd_compress b = Ok c → zstd_decompress c = Ok b).

Lemma decode_encode es c bs :
  wf_entries es → encode_batch es c = Ok bs → decode_batch bs = Ok es.
Proof.
  intros [Hes Hn] He. unfold encode_batch in He. apply res_bind_ok in He as (z & Hz & He).
  apply Ok_inj in He. subst bs.
  assert (Hu : in_u 32 (blen es)) by (unfold in_u, u_max, blen in *; lia).
  rewrite (wrap_small 32) by done.
  set (f := le_bytes 1 (compression_u8 c) ++ le_bytes 4 (blen es) ++ le_bytes 2 FORMAT_VERSION).
  assert (Hf : length f = 7%nat) by (unfold f; by rewrite !length_app, !le_bytes_length).
  unfold decode_batch. change FOOTER_SIZE with 7%nat. rewrite length_app, Hf. rewrite bool_decide_false by lia.
  rewrite take_app_length' by lia. rewrite drop_app_length' by lia.
  assert (F1 : take 1 f = le_bytes 1 (compression_u8 c))
    by (unfold f; by rewrite take_app_length' by (by rewrite le_bytes_length)).
  assert (F2 : take 4 (drop 1 f) = le_bytes 4 (blen es)).
  { unfold f. rewrite drop_app_length' by (by rewrite le_bytes_length).
    by rewrite take_app_length' by (by rewrite le_bytes_length). }
  assert (F3 : take 2 (drop 5 f) = le_bytes 2 FORMAT_VERSION).
  { unfold f. rewrite app_assoc, drop_app_length' by (by rewrite length_app, !le_bytes_length).
    by rewrite firstn_all2 by (by rewrite le_bytes_length). }
  rewrite F1, F2, F3, (from_le_roundtrip 4), (from_le_roundtrip 2) by done.
  rewrite (from_le_roundtrip 1) by (destruct c; unfold in_u; simpl; lia).
  assert (Hc : compression_try_from (compression_u8 c) = Ok c) by (by destruct c).
  rewrite Hc. cbn [res_bind]. rewrite bool_decide_false by tauto.
  assert (Hd : match c with
               | CNone => Ok z
               | CZstd => res_map_err (λ _, Serialization DecompressionFailed) (zstd_decompress z)
               end = Ok (concat (put_record <$> es))).
  { destruct c; [by simplify_eq|].
    destruct (zstd_compress _) as [z'| |] eqn:E; simpl in Hz; simplify_eq.
    by rewrite (zstd_roundtrip _ _ E). }
  rewrite Hd. cbn [res_bind]. unfold blen. rewrite Nat2Z.id, <-(app_nil_r (concat _)).
  by apply decode_records_put.
Qed.

(** A batch reads back as written, with either compression; without
    compression encoding cannot fail; and decoding fails on nothing but a
    malformed object (it never panics, unless zstd does). *)
Theorem batch_roundtrip es c :
  wf_entries es →
  (∀ bs, encode_batch es c = Ok bs → decode_batch bs = Ok es) ∧
  (∃ bs, encode_batch es CNone = Ok bs) ∧
  (∀ bs, (∀ d, zstd_decompress d ≠ Panic) → decode_batch bs ≠ Panic).
Proof.
  intros Hes. split_and!.
  - intros bs. by apply decode_encode.
  - eexists. reflexivity.
  - intros bs Hz. unfold decode_batch. case_bool_decide; [done|].
    unfold compression_try_from. repeat case_bool_decide; cbn [res_bind]; try done.
    + apply decode_records_no_panic.
    + match goal with |- context [zstd_decompress ?x] => specialize (Hz x); destruct (zstd_decompress x) end;
        cbn [res_map_err res_bind]; try done. apply decode_records_no_panic.
Qed.
End zstd.

(** a stand-in compressor: one marker byte in front *)
Lemma batch_roundtrip_witness :
  decode_batch (λ d, match d with _ :: d => Ok d | [] => Err tt end)
    ([x2a] ++ put_record [x01; x02] ++ put_record [] ++
     le_bytes 1 1 ++ le_bytes 4 2 ++ le_bytes 2 1) = Ok [[x01; x02]; []].
Proof.
  apply (batch_roundtrip (λ d, Ok (x2a :: d)) (λ d, match d with _ :: d => Ok d | [] => Err tt end)
           (λ b c H, ltac:(by injection H as <-)) [[x01; x02]; []] CZstd);
    [|reflexivity].
  split; [repeat constructor; vm_compute; congruence|vm_compute; congruence].
Defined.
End Batch.
