(* ===== verification/Buffer.v ===== *)
(** * buffer::producer, buffer::consumer, buffer::gc

    The producer's batch writer task collects submissions into a batch, writes it
    as one object and enqueues its location; the consumer follows the queue and
    fetches the objects; the garbage collector deletes objects nobody refers to.

    They use the queue through its abstract state [Queue]; QueueStore shows that
    the manifest clients implement it one committed operation at a time.  An
    enqueue that reports an error may nevertheless have been committed, and so
    may a put.  Object names (ULIDs), zstd and the ULID parser are third-party:
    they are arguments. *)
From S2P Require Import Prelude Encoding Manifest Batch.

(** ** The objects in the store *)
Definition objects : Type := list (bytes * bytes).

Fixpoint obj_get (p : bytes) (o : objects) : option bytes :=
  match o with
  | [] => None
  | (p', b) :: o => if bool_decide (p' = p) then Some b else obj_get p o
  end.
Definition obj_put (p b : bytes) (o : objects) : objects := (p, b) :: o.
Definition obj_delete (ps : list bytes) (o : objects) : objects :=
  filter (λ x, x.1 ∉ ps) o.

Record Store : Type := mkStore { st_objects : objects; st_queue : Queue }.

(** What any process does to the shared store, one atomic operation each. *)
Inductive StoreOp : Type :=
| OpPut (path data : bytes)
| OpEnqueue (e : QueueEntry)
| OpDequeue (sequence : Z)
| OpDelete (paths : list bytes).

Definition apply_op (s : Store) (op : StoreOp) : Store :=
  match op with
  | OpPut p b => mkStore (obj_put p b (st_objects s)) (st_queue s)
  | OpEnqueue e => mkStore (st_objects s) (q_append (st_queue s) e)
  | OpDequeue n => mkStore (st_objects s) (q_dequeue (st_queue s) n)
  | OpDelete ps => mkStore (obj_delete ps (st_objects s)) (st_queue s)
  end.

Definition apply_ops : Store → list StoreOp → Store := foldl apply_op.

(** How one request to the shared store ends: an operation that reports an error
    may nevertheless have been applied. *)
Record Outcome : Type := mkOutcome { out_result : res Error unit; out_applied : bool }.

Definition request (s : Store) (op : StoreOp) (o : Outcome) : Store * res Error unit :=
  match out_result o with
  | Ok _ => (apply_op s op, Ok tt)
  | r => (if out_applied o then apply_op s op else s, r)
  end.

Section buffer.
Context (zstd_compress zstd_decompress : bytes → res unit bytes).

(** ** producer.rs *)
Record DataAndNotifiers : Type := mkData {
  dn_entries : list bytes;
  dn_metadata : list Metadata;
  dn_notifiers : list nat;
}.

Definition dn_default : DataAndNotifiers := mkData [] [] [].

(** On error the entries stay extended. *)
Definition dn_add (d : DataAndNotifiers) (entries : list bytes) (md : bytes) (time : Z)
    (notifier : nat) : DataAndNotifiers * res Error unit :=
  let start := wrap 32 (blen (dn_entries d)) in
  let es := dn_entries d ++ entries in
  if bool_decide (u_max 32 < blen es)
  then (mkData es (dn_metadata d) (dn_notifiers d),
        Err (InvalidInput (TooManyBatchEntries (blen es))))
  else (mkData es (dn_metadata d ++ [mkMetadata start time md]) (dn_notifiers d ++ [notifier]),
        Ok tt).

Definition dn_is_empty (d : DataAndNotifiers) : bool :=
  bool_decide (dn_entries d = [] ∧ dn_metadata d = [] ∧ dn_notifiers d = []).

Record BatchState : Type := mkBatch {
  b_data : DataAndNotifiers;
  size_bytes : Z;
  started_at : option Z;
}.

Definition batch_new : BatchState := mkBatch dn_default 0 None.

(** the size loop at the head of [Batch::add] *)
Fixpoint sum_sizes (es : list bytes) : res Error Z :=
  match es with
  | [] => Ok 0
  | e :: es =>
      if bool_decide (u_max 32 < blen e) then Err (InvalidInput (EntryTooLarge (blen e)))
      else let? n := sum_sizes es in Ok (blen e + n)
  end.

Definition batch_add (b : BatchState) (entries : list bytes) (md : bytes) (time : Z)
    (notifier : nat) (now : Z) : BatchState * res Error unit :=
  match sum_sizes entries with
  | Ok n =>
      let size := wrap 64 (size_bytes b + (n + blen md)) in
      match dn_add (b_data b) entries md time notifier with
      | (d, Ok _) =>
          (mkBatch d size (match started_at b with None => Some now | s => s end), Ok tt)
      | (d, r) => (mkBatch d size (started_at b), r)
      end
  | Err e => (b, Err e)
  | Panic => (b, Panic)
  end.

Definition batch_take (b : BatchState) : DataAndNotifiers * BatchState :=
  (b_data b, mkBatch dn_default 0 None).

Definition batch_is_empty (b : BatchState) : bool := dn_is_empty (b_data b).

(** what the world does during one flush *)
Record Io : Type := mkIo {
  io_path : bytes;                 (* "{prefix}/{ulid}.batch" *)
  io_put : bool * bool;            (* the put succeeds; if not, it was applied *)
  io_meanwhile : list StoreOp;     (* other processes, between put and enqueue *)
  io_enqueue : Outcome;
}.

Definition write_and_enqueue (c : Batch.CompressionType) (s : Store) (entries : list bytes)
    (md : list Metadata) (io : Io) : Store * res Error unit :=
  match Batch.encode_batch zstd_compress entries c with
  | Ok payload =>
      let '(ok, applied) := io_put io in
      match request s (OpPut (io_path io) payload)
              (mkOutcome (if ok then Ok tt else Err (StorageErr PutFailed)) applied) with
      | (s, Ok _) =>
          let s := apply_ops s (io_meanwhile io) in
          match QueueEntry_new (io_path io) md with
          | Ok e => request s (OpEnqueue e) (io_enqueue io)
          | Err e => (s, Err e)
          | Panic => (s, Panic)
          end
      | (s, r) => (s, r)
      end
  | Err e => (s, Err e)
  | Panic => (s, Panic)
  end.

Record BatchWriterTask : Type := mkTask {
  t_flush_interval : Z;
  t_flush_size_bytes : Z;
  t_compression : Batch.CompressionType;
  t_batch : BatchState;
}.

Definition set_batch (t : BatchWriterTask) (b : BatchState) : BatchWriterTask :=
  mkTask (t_flush_interval t) (t_flush_size_bytes t) (t_compression t) b.

(** The result and the notifications sent. *)
Definition write_batch (t : BatchWriterTask) (s : Store) (io : Io) :
    BatchWriterTask * Store * list (nat * res Error unit) * res Error unit :=
  if batch_is_empty (t_batch t) then (t, s, [], Ok tt)
  else
    let '(d, b) := batch_take (t_batch t) in
    let '(s, r) := write_and_enqueue (t_compression t) s (dn_entries d) (dn_metadata d) io in
    (set_batch t b, s, (λ n, (n, r)) <$> dn_notifiers d, r).

Inductive ProduceMessage : Type :=
| MsgAdd (entries : list bytes) (md : bytes) (time : Z) (notifier : nat)
| MsgFlush (sender : nat).

(** [Producer::produce] and [BatchWriter::add]: the message for the writer task
    and the ingestion time, or the refusal *)
Definition produce (writer_alive : bool) (entries : list bytes) (md : bytes) (now : Z)
    (notifier : nat) : res Error (ProduceMessage * Z) :=
  if bool_decide (entries = []) then Err (InvalidInput EmptyEntries)
  else if bool_decide (u_max 32 < blen md) then Err (InvalidInput (MetadataTooLarge (blen md)))
  else if writer_alive then Ok (MsgAdd entries md now notifier, now)
  else Err (StorageErr BufferShutDown).

(** One turn of the select loop: a message, or the timer. *)
Inductive Turn : Type :=
| TurnMessage (m : ProduceMessage) (now : Z) (io : Io)
| TurnTimer (io : Io).

(** how long the loop sleeps before the timer branch *)
Definition sleep_duration (t : BatchWriterTask) (now : Z) : Z :=
  match started_at (t_batch t) with
  | Some started => Z.max 0 (started + t_flush_interval t - now)
  | None => t_flush_interval t
  end.

Record Writer : Type := mkWriter {
  wr_task : BatchWriterTask;
  wr_store : Store;
  wr_notified : list (nat * res Error unit);
  wr_flushed : list (nat * res Error unit);
}.

Definition after_write (w : Writer) (io : Io) : Writer * res Error unit :=
  let '(t, s, ns, r) := write_batch (wr_task w) (wr_store w) io in
  (mkWriter t s (wr_notified w ++ ns) (wr_flushed w), r).

Definition turn (w : Writer) (x : Turn) : Writer :=
  match x with
  | TurnTimer io => (after_write w io).1
  | TurnMessage (MsgFlush sender) _ io =>
      let '(w, r) := after_write w io in
      mkWriter (wr_task w) (wr_store w) (wr_notified w) (wr_flushed w ++ [(sender, r)])
  | TurnMessage (MsgAdd entries md time notifier) now io =>
      match batch_add (t_batch (wr_task w)) entries md time notifier now with
      | (b, Err e) =>
          mkWriter (set_batch (wr_task w) b) (wr_store w)
            (wr_notified w ++ [(notifier, Err e)]) (wr_flushed w)
      | (b, _) =>
          let w := mkWriter (set_batch (wr_task w) b) (wr_store w) (wr_notified w) (wr_flushed w) in
          if bool_decide (t_flush_size_bytes (wr_task w) ≤ size_bytes b)
          then (after_write w io).1 else w
      end
  end.

Definition run : Writer → list Turn → Writer := foldl turn.

(** [BatchWriter::flush] from the caller's side, once the task answered or ended *)
Definition flush_result (w : Writer) (task_alive : bool) (sender : nat) : option (res Error unit) :=
  match head (filter (λ x, x.1 = sender) (wr_flushed w)) with
  | Some (_, r) => Some r
  | None => if task_alive then None else Some (Err (StorageErr WriterNotRunning))
  end.

(** [DurabilityWatcher]: a poll of [result] and of [await_durable] *)
Definition watcher_result (notified : list (nat * res Error unit)) (n : nat) : option (res Error unit) :=
  snd <$> head (filter (λ x, x.1 = n) notified).
Definition await_durable (notified : list (nat * res Error unit)) (writer_alive : bool) (n : nat) :
    option (res Error unit) :=
  match watcher_result notified n with
  | Some r => Some r
  | None => if writer_alive then None else Some (Err (StorageErr BufferShutDown))
  end.

(** ** consumer.rs *)
Definition DEQUEUE_INTERVAL : Z := 100.

Record ConsumedBatch : Type := mkConsumed {
  cb_entries : list bytes;
  cb_sequence : Z;
  cb_location : bytes;
  cb_metadata : list Metadata;
}.

Record Consumer : Type := mkConsumer {
  ack_count : Z;
  last_acked_sequence : option Z;
  last_fetched_sequence : option Z;
}.

(** the read of the manifest and the fetch of the object, either may fail *)
Record NextIo : Type := mkNextIo { nx_read : res Error unit; nx_get : bool }.

Definition fetch_batch (o : objects) (e : QueueEntry) (got : bool) : res Error ConsumedBatch :=
  match (if got then obj_get (location e) o else None) with
  | None => Err (StorageErr GetFailed)
  | Some data =>
      let? entries := Batch.decode_batch zstd_decompress data in
      Ok (mkConsumed entries (sequence e) (location e) (metadata e))
  end.

(** The queue's answers are those of [queue_reads] for the current consumer. *)
Definition queue_peek (q : Queue) : option QueueEntry := head (q_entries q).
Definition queue_read (q : Queue) (seq : Z) : option QueueEntry :=
  head (filter (λ e, sequence e = seq) (q_entries q)).

(** [with_object_store]: initialize, and dequeue what was acked in an earlier run *)
Definition consumer_new (s : Store) (last_acked : option Z) (initialize : res Error unit)
    (dequeue : Outcome) : Store * res Error Consumer :=
  match initialize with
  | Ok _ =>
      let s := mkStore (st_objects s) (q_set_epoch (st_queue s) (next_epoch (q_epoch (st_queue s)))) in
      match (match last_acked with
             | Some seq => request s (OpDequeue seq) dequeue
             | None => (s, Ok tt)
             end) with
      | (s, Ok _) => (s, Ok (mkConsumer 0 last_acked last_acked))
      | (s, Err e) => (s, Err e)
      | (s, Panic) => (s, Panic)
      end
  | Err e => (s, Err e)
  | Panic => (s, Panic)
  end.

Definition next_batch (s : Store) (c : Consumer) (io : NextIo) :
    Consumer * res Error (option ConsumedBatch) :=
  match nx_read io with
  | Ok _ =>
      let queue_entry :=
        match last_fetched_sequence c with
        | None => queue_peek (st_queue s)
        | Some seq => queue_read (st_queue s) (wrap 64 (seq + 1))
        end in
      match queue_entry with
      | None => (c, Ok None)
      | Some e =>
          match fetch_batch (st_objects s) e (nx_get io) with
          | Ok b => (mkConsumer (ack_count c) (last_acked_sequence c) (Some (sequence e)), Ok (Some b))
          | Err err => (c, Err err)
          | Panic => (c, Panic)
          end
      end
  | Err err => (c, Err err)
  | Panic => (c, Panic)
  end.

Definition ack (s : Store) (c : Consumer) (seq : Z) (dequeue : Outcome) :
    Store * Consumer * res Error unit :=
  let go :=
    let c := mkConsumer (wrap 64 (ack_count c + 1)) (Some seq) (last_fetched_sequence c) in
    if bool_decide (ack_count c mod DEQUEUE_INTERVAL = 0) then
      let '(s, r) := request s (OpDequeue seq) dequeue in (s, c, r)
    else (s, c, Ok tt) in
  match last_acked_sequence c with
  | Some last =>
      if bool_decide (seq ≠ wrap 64 (last + 1))
      then (s, c, Err (StorageErr (OutOfOrderAck (wrap 64 (last + 1)) seq)))
      else go
  | None => go
  end.

Definition consumer_flush (s : Store) (c : Consumer) (dequeue : Outcome) : Store * res Error unit :=
  match last_acked_sequence c with
  | Some seq => request s (OpDequeue seq) dequeue
  | None => (s, Ok tt)
  end.

(** ** gc.rs *)
Context (ulid_millis : bytes → option Z).    (* Ulid::from_string(..).datetime() *)

Fixpoint rsplit_slash (path acc : bytes) : bytes :=
  match path with
  | [] => acc
  | b :: path => if bool_decide (b = x2f) then rsplit_slash path [] else rsplit_slash path (acc ++ [b])
  end.

Definition DOT_BATCH : bytes := [x2e; x62; x61; x74; x63; x68].

Definition strip_suffix (s suffix : bytes) : option bytes :=
  let n := (length s - length suffix)%nat in
  if bool_decide (drop n s = suffix ∧ (length suffix ≤ length s)%nat) then Some (take n s) else None.

Definition extract_ulid_timestamp (path : bytes) : option Z :=
  match strip_suffix (rsplit_slash path []) DOT_BATCH with
  | Some stem => ulid_millis stem
  | None => None
  end.

Record ManifestSnapshot : Type := mkSnapshot {
  sn_locations : list bytes;
  sn_oldest : option Z;
}.

Definition snapshot_add (sn : ManifestSnapshot) (e : QueueEntry) : ManifestSnapshot :=
  mkSnapshot (location e :: sn_locations sn)
    (match extract_ulid_timestamp (location e), sn_oldest sn with
     | Some ts, Some old => if bool_decide (ts < old) then Some ts else Some old
     | Some ts, None => Some ts
     | None, old => old
     end).

Definition manifest_snapshot (es : list QueueEntry) : ManifestSnapshot :=
  foldl snapshot_add (mkSnapshot [] None) es.

(** [read_manifest_snapshot]: an undecodable entry ends the cycle *)
Definition read_manifest_snapshot (manifest : res Error Manifest) : res Error ManifestSnapshot :=
  let? m := manifest in
  let? it := iter m in
  let? es := collect it in
  Ok (manifest_snapshot es).

(** the filter of the listing loop *)
Definition gc_candidate (sn : ManifestSnapshot) (now grace : Z) (path : bytes) : bool :=
  match extract_ulid_timestamp path with
  | None => false
  | Some ts =>
      if match sn_oldest sn with Some old => bool_decide (old ≤ ts) | None => false end then false
      else if bool_decide (Z.max 0 (now - ts) < grace) then false
      else negb (bool_decide (path ∈ sn_locations sn))
  end.

(** [collect_once]: the paths handed to [delete_stream] ([listed] is what the
    listing returned); each of them is deleted or fails on its own. *)
Definition collect_once (manifest : res Error Manifest) (listed : res Error (list bytes))
    (now grace : Z) : res Error (list bytes) :=
  let? sn := read_manifest_snapshot manifest in
  let? paths := listed in
  Ok (List.filter (gc_candidate sn now grace) paths).
End buffer.
