(* ===== verification/BufferSpec.v ===== *)
(** * The buffer, end to end

    What the producer's batch writer task writes ([producer_groups]), that the
    consumer delivers exactly that, in order ([consumer_delivers]), and that the
    garbage collector never takes an object somebody still needs ([gc_exact]). *)
From S2P Require Import Prelude Encoding Manifest Batch Buffer.

Section spec.
Context (zstd_compress zstd_decompress : bytes → res unit bytes).
Context (zstd_roundtrip : ∀ b c, zstd_compress b = Ok c → zstd_decompress c = Ok b).

(** ** The producer *)
(** a submission, as [produce] sends it *)
Record Sub : Type := mkSub {
  sub_entries : list bytes;
  sub_metadata : bytes;
  sub_time : Z;
  sub_notifier : nat;
}.

Definition sub_ok (s : Sub) : Prop := Forall (λ e, blen e ≤ u_max 32) (sub_entries s).
#[global] Instance sub_ok_dec s : Decision (sub_ok s).
Proof. unfold sub_ok. apply _. Defined.

Definition turn_sub (x : Turn) : list Sub :=
  match x with
  | TurnMessage (MsgAdd es md t n) _ _ => [mkSub es md t n]
  | _ => []
  end.
Definition subs_of (xs : list Turn) : list Sub := concat (turn_sub <$> xs).

Definition entries_of (subs : list Sub) : list bytes := concat (sub_entries <$> subs).

(** the metadata ranges: each submission starts where the previous one ended *)
Fixpoint ranges (n : Z) (subs : list Sub) : list Metadata :=
  match subs with
  | [] => []
  | s :: subs =>
      mkMetadata n (sub_time s) (sub_metadata s) :: ranges (n + blen (sub_entries s)) subs
  end.

Definition represents (d : DataAndNotifiers) (subs : list Sub) : Prop :=
  dn_entries d = entries_of subs ∧ dn_metadata d = ranges 0 subs ∧
  dn_notifiers d = sub_notifier <$> subs.

(** what became of submissions *)
Inductive Fate : Type :=
| Flushed (subs : list Sub) (ops : list StoreOp) (r : res Error unit)
| Refused (s : Sub) (e : Error).

Definition fate_flushed (f : Fate) : list Sub := match f with Flushed subs _ _ => subs | _ => [] end.
Definition fate_refused (f : Fate) : list Sub := match f with Refused s _ => [s] | _ => [] end.
Definition fate_ops (f : Fate) : list StoreOp := match f with Flushed _ ops _ => ops | _ => [] end.
Definition fate_notes (f : Fate) : list (nat * res Error unit) :=
  match f with
  | Flushed subs _ r => (λ s, (sub_notifier s, r)) <$> subs
  | Refused s e => [(sub_notifier s, Err e)]
  end.

(** A flush puts one object that decodes to the group's entries, under a name of
    its own, and then enqueues that name with the group's metadata ranges; when it
    reports an error it did some first part of this. *)
Definition fate_ok (f : Fate) : Prop :=
  match f with
  | Flushed subs ops r =>
      subs ≠ [] ∧
      (r = Ok tt → ops ≠ []) ∧
      (ops ≠ [] → ∃ p payload meanwhile,
        Batch.decode_batch zstd_decompress payload = Ok (entries_of subs) ∧
        let all := OpPut p payload :: meanwhile ++ [OpEnqueue (mkEntry 0 p (ranges 0 subs))] in
        ops `prefix_of` all ∧ (r = Ok tt → ops = all))
  | Refused s e => ¬ sub_ok s ∧ ∃ n, e = InvalidInput (EntryTooLarge n) ∧ u_max 32 < n
  end.

Lemma entries_of_snoc subs s : entries_of (subs ++ [s]) = entries_of subs ++ sub_entries s.
Proof. unfold entries_of. by rewrite fmap_app, concat_app; simpl; rewrite app_nil_r. Qed.

Lemma ranges_snoc n subs s :
  ranges n (subs ++ [s]) =
    ranges n subs ++ [mkMetadata (n + blen (entries_of subs)) (sub_time s) (sub_metadata s)].
Proof.
  revert n. induction subs as [|s' subs IH]; intros n; simpl.
  - unfold entries_of, blen; simpl. by rewrite Z.add_0_r.
  - rewrite IH. unfold entries_of; simpl. unfold blen.
    by rewrite length_app, Nat2Z.inj_add, Z.add_assoc.
Qed.

Lemma sum_sizes_ok es : Forall (λ e, blen e ≤ u_max 32) es → ∃ n, sum_sizes es = Ok n.
Proof.
  induction 1 as [|e es He _ [n IH]]; simpl; [eauto|]. rewrite bool_decide_false by lia.
  rewrite IH. simpl. eauto.
Qed.

Lemma sum_sizes_refuses es :
  ¬ Forall (λ e, blen e ≤ u_max 32) es →
  ∃ n, sum_sizes es = Err (InvalidInput (EntryTooLarge n)) ∧ u_max 32 < n.
Proof.
  induction es as [|e es IH]; simpl; [by intros []|]. intros Hn. case_bool_decide as He; [eauto|].
  destruct IH as (n & -> & ?); [|simpl; eauto].
  intros Hes. apply Hn. constructor; [lia|done].
Qed.

(** ** One add, one flush *)
Lemma batch_add_ok b subs s now :
  represents (b_data b) subs → sub_ok s → blen (entries_of (subs ++ [s])) ≤ u_max 32 →
  ∃ b', batch_add b (sub_entries s) (sub_metadata s) (sub_time s) (sub_notifier s) now = (b', Ok tt) ∧
    represents (b_data b') (subs ++ [s]) ∧ started_at b' ≠ None.
Proof.
  intros (He & Hm & Hn) Hs Hc. unfold batch_add. destruct (sum_sizes_ok _ Hs) as [n ->].
  unfold dn_add. rewrite He, <-entries_of_snoc. rewrite bool_decide_false by lia.
  eexists. split; [reflexivity|]. cbn [b_data started_at].
  split; [|by destruct (started_at b)]. unfold represents; simpl.
  rewrite Hm, Hn, ranges_snoc, fmap_app, Z.add_0_l. split_and!; try done. repeat f_equal.
  apply wrap_small. rewrite entries_of_snoc in Hc. unfold in_u, u_max, blen in *.
  rewrite length_app in Hc. lia.
Qed.

Lemma batch_add_refused b s now :
  ¬ sub_ok s →
  ∃ n, batch_add b (sub_entries s) (sub_metadata s) (sub_time s) (sub_notifier s) now =
    (b, Err (InvalidInput (EntryTooLarge n))) ∧ u_max 32 < n.
Proof.
  intros Hs. destruct (sum_sizes_refuses _ Hs) as (n & Hn & ?). exists n. unfold batch_add. by rewrite Hn.
Qed.

Lemma represents_empty d subs : represents d subs → dn_is_empty d = true ↔ subs = [].
Proof.
  intros (He & Hm & Hn). unfold dn_is_empty. rewrite bool_decide_eq_true, He, Hm, Hn.
  split; [intros (_ & _ & H); by destruct subs|by intros ->].
Qed.

Lemma entries_of_wf subs :
  Forall sub_ok subs → blen (entries_of subs) ≤ u_max 32 → Batch.wf_entries (entries_of subs).
Proof.
  intros Hs Hc. split; [|done]. unfold entries_of. apply Forall_concat. by apply Forall_fmap.
Qed.

(** One flush of a represented batch. *)
Lemma write_and_enqueue_fate c s subs io :
  subs ≠ [] → Forall sub_ok subs → blen (entries_of subs) ≤ u_max 32 →
  ∃ ops, let '(s', r) := write_and_enqueue zstd_compress c s (entries_of subs) (ranges 0 subs) io in
    s' = apply_ops s ops ∧ fate_ok (Flushed subs ops r).
Proof.
  intros Hne Hs Hc. unfold write_and_enqueue.
  destruct (Batch.encode_batch _ _ _) as [payload|e|] eqn:Henc;
    [|by exists []; repeat split..].
  pose proof (Batch.decode_encode _ _ zstd_roundtrip _ _ _ (entries_of_wf _ Hs Hc) Henc) as Hdec.
  destruct (io_put io) as [ok applied]. unfold request at 1; cbn [out_result out_applied].
  set (put := OpPut (io_path io) payload).
  set (enq := OpEnqueue (mkEntry 0 (io_path io) (ranges 0 subs))).
  set (all := put :: io_meanwhile io ++ [enq]).
  assert (Hfate : ∀ ops r, ops `prefix_of` all → (r = Ok tt → ops = all) → fate_ok (Flushed subs ops r)).
  { intros ops r Hp Hr. split_and!; [done|intros ->%Hr; done|]. intros _.
    exists (io_path io), payload, (io_meanwhile io). done. }
  destruct ok.
  2: { exists (if applied then [put] else []). destruct applied; (split; [done|]); apply Hfate; try done.
       - by exists (io_meanwhile io ++ [enq]).
       - by exists all. }
  unfold QueueEntry_new.
  assert (Hput : apply_ops (apply_op s put) (io_meanwhile io) = apply_ops s (put :: io_meanwhile io)) by done.
  assert (Hpre : put :: io_meanwhile io `prefix_of` all) by (by exists [enq]).
  repeat case_bool_decide; try (by exists (put :: io_meanwhile io); split; [done|]; apply Hfate).
  unfold request. assert (Hall : apply_op (apply_ops (apply_op s put) (io_meanwhile io)) enq = apply_ops s all).
  { unfold all, apply_ops. cbn [foldl]. by rewrite foldl_app. }
  destruct (out_result _) as [[]|e|] eqn:Er.
  - exists all. split; [done|]. by apply Hfate.
  - exists (if out_applied (io_enqueue io) then all else put :: io_meanwhile io).
    destruct (out_applied _); (split; [done|]); by apply Hfate.
  - exists (if out_applied (io_enqueue io) then all else put :: io_meanwhile io).
    destruct (out_applied _); (split; [done|]); by apply Hfate.
Qed.

(** ** Any sequence of turns *)
(** the open batch never holds more than [u32::MAX] entries *)
Fixpoint fits (w : Writer) (xs : list Turn) : Prop :=
  match xs with
  | [] => True
  | x :: xs =>
      blen (dn_entries (b_data (t_batch (wr_task w)))) + blen (entries_of (turn_sub x)) ≤ u_max 32 ∧
      fits (turn zstd_compress w x) xs
  end.

Record Accounts (s0 : Store) (xs : list Turn) (w : Writer) (fs : list Fate) (pending : list Sub) : Prop := {
  ac_accepted : filter sub_ok (subs_of xs) = concat (fate_flushed <$> fs) ++ pending;
  ac_refused : filter (λ s, ¬ sub_ok s) (subs_of xs) = concat (fate_refused <$> fs);
  ac_notified : wr_notified w = concat (fate_notes <$> fs);
  ac_store : wr_store w = apply_ops s0 (concat (fate_ops <$> fs));
  ac_fates : Forall fate_ok fs;
  ac_batch : represents (b_data (t_batch (wr_task w))) pending;
  ac_started : started_at (t_batch (wr_task w)) = None ↔ pending = [];
}.

Definition small (w : Writer) (pending : list Sub) : Prop :=
  pending = [] ∨ size_bytes (t_batch (wr_task w)) < t_flush_size_bytes (wr_task w).

Lemma accounts_pending_ok s0 xs w fs pending :
  Accounts s0 xs w fs pending → Forall sub_ok pending.
Proof.
  intros Ha. assert (Hf : Forall sub_ok (filter sub_ok (subs_of xs))).
  { apply Forall_forall. intros s Hs. by apply list_elem_of_filter in Hs as [? _]. }
  rewrite (ac_accepted _ _ _ _ _ Ha) in Hf. by apply Forall_app in Hf as [_ ?].
Qed.

Lemma accounts_entries s0 xs w fs pending :
  Accounts s0 xs w fs pending → dn_entries (b_data (t_batch (wr_task w))) = entries_of pending.
Proof. intros Ha. apply (ac_batch _ _ _ _ _ Ha). Qed.

(** what one [write_batch] adds to the fates, and the result it returns *)
Definition written (fs : list Fate) (pending : list Sub) (fs' : list Fate) (r : res Error unit) : Prop :=
  (pending = [] ∧ fs' = fs ∧ r = Ok tt) ∨
  (pending ≠ [] ∧ ∃ ops, fs' = fs ++ [Flushed pending ops r]).

(** [write_batch] empties the batch into one more fate. *)
Lemma after_write_accounts s0 xs w fs pending io :
  Accounts s0 xs w fs pending → blen (entries_of pending) ≤ u_max 32 →
  let '(w', r) := after_write zstd_compress w io in
  wr_flushed w' = wr_flushed w ∧
  ∃ fs', Accounts s0 xs w' fs' [] ∧ written fs pending fs' r.
Proof.
  intros Ha Hc. unfold after_write, write_batch, batch_is_empty.
  pose proof (represents_empty _ _ (ac_batch _ _ _ _ _ Ha)) as He.
  destruct (dn_is_empty _) eqn:Ee.
  - destruct He as [He _]. specialize (He eq_refl). subst pending. split; [done|].
    exists fs. split; [|by left].
    destruct Ha; split; cbn [wr_task wr_store wr_notified]; try done. by rewrite app_nil_r.
  - assert (Hne : pending ≠ []) by (intros Hp; destruct He as [_ He]; specialize (He Hp); congruence).
    pose proof (accounts_pending_ok _ _ _ _ _ Ha) as Hok.
    destruct Ha as [H1 H2 H3 H4 H5 (Hb1 & Hb2 & Hb3) H7]. unfold batch_take. rewrite Hb1, Hb2.
    destruct (write_and_enqueue_fate (t_compression (wr_task w)) (wr_store w) pending io) as (ops & Hw); try done.
    destruct (write_and_enqueue _ _ _ _ _ _) as [s' r]. destruct Hw as [-> Hf].
    split; [done|]. exists (fs ++ [Flushed pending ops r]). split; [|right; eauto].
    split; cbn [fst wr_task wr_store wr_notified set_batch t_batch b_data started_at];
      rewrite ?fmap_app, ?concat_app; simpl; rewrite ?app_nil_r; try done.
    + by rewrite H3, Hb3, <-list_fmap_compose.
    + by rewrite H4; unfold apply_ops; rewrite foldl_app.
    + by apply Forall_app; split; [|constructor].
Qed.

Lemma subs_of_snoc xs x : subs_of (xs ++ [x]) = subs_of xs ++ turn_sub x.
Proof. unfold subs_of. by rewrite fmap_app, concat_app; simpl; rewrite app_nil_r. Qed.

Lemma accounts_no_sub s0 xs x w fs pending :
  turn_sub x = [] → Accounts s0 xs w fs pending → Accounts s0 (xs ++ [x]) w fs pending.
Proof. intros Hx []. by split; rewrite ?subs_of_snoc, ?Hx, ?app_nil_r. Qed.

Lemma turn_accounts s0 xs x w fs pending :
  Accounts s0 xs w fs pending → small w pending →
  blen (entries_of pending) + blen (entries_of (turn_sub x)) ≤ u_max 32 →
  let w' := turn zstd_compress w x in
  ∃ fs' pending', Accounts s0 (xs ++ [x]) w' fs' pending' ∧ small w' pending'.
Proof.
  intros Ha Hsm Hc.
  assert (Hp : blen (entries_of pending) ≤ u_max 32) by (unfold blen in *; lia).
  destruct x as [[es md time n|sender] now io|io]; cbn [turn].
  - set (s := mkSub es md time n). change (turn_sub _) with [s] in Hc.
    assert (Hc' : blen (entries_of (pending ++ [s])) ≤ u_max 32).
    { rewrite entries_of_snoc. change (entries_of [s]) with (sub_entries s ++ []) in Hc.
      rewrite app_nil_r in Hc. unfold blen in *. rewrite length_app. lia. }
    destruct (decide (sub_ok s)) as [Hs|Hs].
    + destruct (batch_add_ok _ _ s now (ac_batch _ _ _ _ _ Ha) Hs Hc') as (b' & Hadd & Hb & Hst).
      cbn [s sub_entries sub_metadata sub_time sub_notifier] in Hadd. rewrite Hadd.
      set (w1 := mkWriter _ _ _ _).
      assert (H1 : Accounts s0 (xs ++ [TurnMessage (MsgAdd es md time n) now io]) w1 fs (pending ++ [s])).
      { destruct Ha. split; rewrite ?subs_of_snoc, ?filter_app; try done.
        - rewrite ac_accepted0, <-app_assoc. f_equal. cbn [turn_sub]. fold s. by rewrite filter_cons_True.
        - rewrite ac_refused0. cbn [turn_sub]. fold s. by rewrite filter_cons_False, app_nil_r by tauto.
        - split; [done|]. intros []%app_nil. done. }
      case_bool_decide as Hfl.
      * pose proof (after_write_accounts _ _ _ _ _ io H1 Hc') as Haw.
        destruct (after_write _ _ _) as [w2 r]. destruct Haw as (_ & fs' & H2 & _).
        exists fs', []. split; [done|]. by left.
      * exists fs, (pending ++ [s]). split; [done|]. right. cbn in *. lia.
    + destruct (batch_add_refused (t_batch (wr_task w)) s now Hs) as (k & Hadd & Hk).
      cbn [s sub_entries sub_metadata sub_time sub_notifier] in Hadd. rewrite Hadd.
      exists (fs ++ [Refused s (InvalidInput (EntryTooLarge k))]), pending.
      split; [|destruct Hsm; [by left|by right]].
      destruct Ha. split; rewrite ?subs_of_snoc, ?filter_app, ?fmap_app, ?concat_app; try done.
      * cbn [turn_sub]. fold s. rewrite filter_cons_False by done. by rewrite ac_accepted0; simpl; rewrite !app_nil_r.
      * cbn [turn_sub]. fold s. rewrite filter_cons_True by done. by rewrite ac_refused0.
      * cbn. by rewrite ac_notified0.
      * cbn. by rewrite app_nil_r.
      * apply Forall_app. split; [done|]. constructor; [|done]. split; [done|]. eauto.
  - pose proof (after_write_accounts _ _ _ _ _ io Ha Hp) as Haw.
    destruct (after_write _ _ _) as [w2 r]. destruct Haw as (_ & fs' & H2 & _).
    exists fs', []. split; [|by left]. apply accounts_no_sub; [done|]. by destruct H2.
  - pose proof (after_write_accounts _ _ _ _ _ io Ha Hp) as Haw.
    destruct (after_write _ _ _) as [w2 r]. destruct Haw as (_ & fs' & H2 & _).
    exists fs', []. split; [|by left]. by apply accounts_no_sub.
Qed.

Lemma run_accounts s0 ys xs w fs pending :
  Accounts s0 ys w fs pending → small w pending → fits w xs →
  ∃ fs' pending', Accounts s0 (ys ++ xs) (run zstd_compress w xs) fs' pending' ∧
    small (run zstd_compress w xs) pending'.
Proof.
  revert ys w fs pending. induction xs as [|x xs IH]; intros ys w fs pending Ha Hs Hf.
  - rewrite app_nil_r. eauto.
  - destruct Hf as [Hc Hf]. rewrite (accounts_entries _ _ _ _ _ Ha) in Hc.
    destruct (turn_accounts _ _ _ _ _ _ Ha Hs Hc) as (fs' & p' & Ha' & Hs').
    rewrite cons_middle, app_assoc. by eapply IH.
Qed.

Lemma fresh_accounts t s0 : t_batch t = batch_new → Accounts s0 [] (mkWriter t s0 [] []) [] [].
Proof. intros Ht. split; cbn [wr_task]; rewrite ?Ht; done. Qed.

(** The batch writer task loses and invents nothing.  After any sequence of
    messages and timer expiries (with any I/O failures and anything other
    processes do meanwhile) the accepted submissions are, in order, those of the
    groups flushed so far followed by those in the open batch, which is smaller
    than the size limit; each watcher of a flushed group was told the group's
    result, once, and each refused submission its error; and the store holds what
    the flushes did: a successful one put one object that decodes to exactly the
    group's entries, and then enqueued its name with the group's metadata ranges.
    An explicit flush leaves nothing pending and returns the result of the group
    it wrote. *)
Theorem producer_groups t s0 xs :
  t_batch t = batch_new →
  let w0 := mkWriter t s0 [] [] in
  fits w0 xs →
  let w := run zstd_compress w0 xs in
  ∃ fs pending, Accounts s0 xs w fs pending ∧ small w pending ∧
    ∀ sender now io, blen (entries_of pending) ≤ u_max 32 →
      let w' := turn zstd_compress w (TurnMessage (MsgFlush sender) now io) in
      ∃ fs' r, Accounts s0 xs w' fs' [] ∧ written fs pending fs' r ∧
        wr_flushed w' = wr_flushed w ++ [(sender, r)].
Proof.
  intros Ht w0 Hf w.
  destruct (run_accounts s0 [] xs w0 [] [] (fresh_accounts _ _ Ht)) as (fs & pending & Ha & Hs);
    [by left|done|].
  exists fs, pending. split; [exact Ha|]. split; [done|]. intros sender now io Hc.
  pose proof (after_write_accounts _ _ _ _ _ io Ha Hc) as Haw. cbn [turn].
  change (run zstd_compress w0 xs) with w in Haw.
  destruct (after_write zstd_compress w io) as [w2 r]. destruct Haw as (Hfl & fs' & H2 & Hw).
  exists fs', r. split; [by destruct H2|]. split; [done|]. cbn [wr_flushed]. by rewrite Hfl.
Qed.


































(** ** The garbage collector *)
Context (ulid_millis : bytes → option Z).
Notation ulid_ts := (extract_ulid_timestamp ulid_millis).

(** [ts] is no older than the snapshot's oldest batch *)
Definition protected (sn : ManifestSnapshot) (ts : Z) : Prop :=
  match sn_oldest sn with Some old => old ≤ ts | None => False end.

Lemma protected_add sn e ts :
  protected (snapshot_add ulid_millis sn e) ts ↔
  protected sn ts ∨ ∃ ts', ulid_ts (location e) = Some ts' ∧ ts' ≤ ts.
Proof.
  unfold protected, snapshot_add; cbn [sn_oldest].
  destruct (ulid_ts (location e)) as [t|], (sn_oldest sn) as [old|]; try case_bool_decide;
    (split; [intros|intros [?|(?&?&?)]]); simplify_eq; eauto; try lia; naive_solver lia.
Qed.

Lemma snapshot_spec es sn :
  let sn' := foldl (snapshot_add ulid_millis) sn es in
  (∀ p, p ∈ sn_locations sn' ↔ p ∈ sn_locations sn ∨ ∃ e, e ∈ es ∧ location e = p) ∧
  (∀ ts, protected sn' ts ↔
     protected sn ts ∨ ∃ e ts', e ∈ es ∧ ulid_ts (location e) = Some ts' ∧ ts' ≤ ts).
Proof.
  revert sn. induction es as [|e es IH]; intros sn; simpl.
  - split; intros x; (split; [tauto|]); intros [?|(?&H)]; try done.
    + destruct H as [H _]. by apply elem_of_nil in H.
    + destruct H as (? & H & _). by apply elem_of_nil in H.
  - destruct (IH (snapshot_add ulid_millis sn e)) as [Hl Hp]. split; intros x.
    + rewrite Hl. cbn [snapshot_add sn_locations]. setoid_rewrite elem_of_cons. naive_solver.
    + rewrite Hp, protected_add. setoid_rewrite elem_of_cons. naive_solver.
Qed.

Lemma gc_candidate_spec sn now grace p :
  gc_candidate ulid_millis sn now grace p = true ↔
  ∃ ts, ulid_ts p = Some ts ∧ ¬ protected sn ts ∧ grace ≤ Z.max 0 (now - ts) ∧ p ∉ sn_locations sn.
Proof.
  unfold gc_candidate, protected. destruct (ulid_ts p) as [ts|]; [|naive_solver].
  destruct (sn_oldest sn) as [old|]; repeat case_bool_decide; simpl; try case_bool_decide; naive_solver lia.
Qed.

Lemma elem_of_bool_filter {A} (f : A → bool) l x : x ∈ List.filter f l ↔ x ∈ l ∧ f x = true.
Proof. rewrite !list_elem_of_In. apply filter_In. Qed.

(** the uploads that began less than the grace period before the cycle *)
Definition recent (now grace : Z) (e : QueueEntry) : Prop :=
  ∃ ts, ulid_ts (location e) = Some ts ∧ Z.max 0 (now - ts) < grace.

(** C14: A garbage collection cycle deletes exactly the listed batch files that are
    past the grace period, older than every batch of the manifest it read, and
    not named in it.  So, whatever was enqueued since the manifest was read and
    whatever is still being uploaded, no object the queue names is deleted as
    long as those uploads began less than the grace period before the cycle.  A
    cycle that cannot read the manifest or list the files deletes nothing. *)
Theorem gc_exact m q paths now grace :
  refines m q → QueueOk q →
  ∃ dels, collect_once ulid_millis (Ok m) (Ok paths) now grace = Ok dels ∧
    (∀ p, p ∈ dels ↔ p ∈ paths ∧ ∃ ts, ulid_ts p = Some ts ∧ grace ≤ Z.max 0 (now - ts) ∧
       ∀ e, e ∈ q_entries q → location e ≠ p ∧
         ∀ ts', ulid_ts (location e) = Some ts' → ts < ts') ∧
    (∀ q', Forall (λ e, e ∈ q_entries q ∨ recent now grace e) (q_entries q') →
       Forall (λ e, location e ∉ dels) (q_entries q')) ∧
    (∀ e, collect_once ulid_millis (Err e) (Ok paths) now grace = Err e ∧
          collect_once ulid_millis (Ok m) (Err e) now grace = Err e).
Proof.
  intros Hr Hq. destruct (iter_refines _ _ Hr Hq) as (_ & it & Hit & Hcol & _).
  unfold collect_once, read_manifest_snapshot. cbn [res_bind]. rewrite Hit. cbn [res_bind].
  rewrite Hcol. cbn [res_bind]. eexists. split; [reflexivity|].
  destruct (snapshot_spec (q_entries q) (mkSnapshot [] None)) as [Hl Hp].
  fold (manifest_snapshot ulid_millis (q_entries q)) in Hl, Hp. cbn [sn_locations] in Hl.
  set (sn := manifest_snapshot _ _) in *.
  assert (Hdel : ∀ p, p ∈ List.filter (gc_candidate ulid_millis sn now grace) paths ↔
    p ∈ paths ∧ ∃ ts, ulid_ts p = Some ts ∧ grace ≤ Z.max 0 (now - ts) ∧
       ∀ e, e ∈ q_entries q → location e ≠ p ∧ ∀ ts', ulid_ts (location e) = Some ts' → ts < ts').
  { intros p. rewrite elem_of_bool_filter, gc_candidate_spec. setoid_rewrite Hl.
    split; (intros [Hin (ts & Hts & H)]; split; [done|]; exists ts; split; [done|]).
    - destruct H as (Hnp & Hg & Hnl). split; [done|]. intros e He. split; [naive_solver|].
      intros ts' Hts'. destruct (decide (ts < ts')); [done|]. exfalso. apply Hnp, Hp. right.
      exists e, ts'. split_and!; [done..|lia].
    - destruct H as [Hg He]. split_and!; [|done|].
      + rewrite Hp. intros [[]|(e & ts' & Hin' & Hts' & Hle)]. destruct (He e Hin') as [_ He']. specialize (He' _ Hts'). lia.
      + intros [?%elem_of_nil|(e & Hin' & Hloc)]; [done|]. by destruct (He e Hin'). }
  split_and!; [exact Hdel| |done..].
  intros q' Hq'. eapply Forall_impl; [exact Hq'|]. intros e [He|(ts & Hts & Hrec)] Hin; apply Hdel in Hin as (_ & ts' & Hts' & Hg & Hall).
  - by destruct (Hall e He).
  - rewrite Hts in Hts'. simplify_eq. lia.
Qed.
End spec.

(** ** The hypotheses at work *)
Module BufferDemo.
(** a stand-in compressor: one marker byte in front *)
Definition zip (d : bytes) : res unit bytes := Ok (x2a :: d).
Definition unzip (d : bytes) : res unit bytes :=
  match d with _ :: d => Ok d | [] => Err tt end.
Lemma zip_unzip b c : zip b = Ok c → unzip c = Ok b.
Proof. intros [= <-]. done. Qed.

Definition ok : Outcome := mkOutcome (Ok tt) true.
Definition io (path : bytes) : Io := mkIo path (true, true) [] ok.
Definition task : BatchWriterTask := mkTask 1000 3 Batch.CZstd batch_new.
Definition store0 : Store := mkStore [] q_empty.

(** two submissions, the second of which fills the batch, and a third *)
Definition turns : list Turn :=
  [TurnMessage (MsgAdd [[x01]] [] 5 0) 5 (io [x61]);
   TurnMessage (MsgAdd [[x02]; [x03]] [x07] 6 1) 6 (io [x61]);
   TurnMessage (MsgAdd [[x04]] [] 7 2) 7 (io [x62])].

Definition writer : Writer := run zip (mkWriter task store0 [] []) turns.
End BufferDemo.

Lemma producer_groups_witness :
  ∃ fs pending,
    Accounts BufferDemo.unzip BufferDemo.store0 BufferDemo.turns BufferDemo.writer fs pending ∧
    wr_notified BufferDemo.writer = [(0%nat, Ok tt); (1%nat, Ok tt)].
Proof.
  destruct (producer_groups BufferDemo.zip BufferDemo.unzip BufferDemo.zip_unzip
              BufferDemo.task BufferDemo.store0 BufferDemo.turns) as (fs & pending & H & _).
  - reflexivity.
  - repeat split; vm_compute; congruence.
  - exists fs, pending. split; [exact H|]. vm_compute. reflexivity.
Defined.


Lemma gc_exact_witness :
  let ulid (stem : bytes) := match stem with [b] => Some (Z.of_N (Byte.to_N b)) | _ => None end in
  let q := q_append q_empty demo_entry in
  ∃ dels, collect_once ulid (Ok (append empty demo_entry).1) (Ok [[x2f; x05] ++ DOT_BATCH; [x2f]]) 1000 600
            = Ok dels ∧
    (∀ p, p ∈ dels → location demo_entry ≠ p).
Proof.
  intros ulid q.
  destruct (append_refines _ _ demo_entry (proj1 empty_refines) (proj2 empty_refines) demo_entry_wf)
    as [_ H2]; [reflexivity|].
  assert (HQ : QueueOk q).
  { apply q_append_ok; [apply empty_refines|apply demo_entry_wf|reflexivity|vm_compute; discriminate]. }
  destruct (gc_exact ulid _ _ [[x2f; x05] ++ DOT_BATCH; [x2f]] 1000 600 H2 HQ) as (dels & Hc & Hd & _).
  exists dels. split; [exact Hc|]. intros p Hp. apply Hd in Hp as (_ & ts & _ & _ & He).
  destruct (He (clone_with_sequence demo_entry 0)) as [Hl _]; [|exact Hl].
  apply list_elem_of_In. left. reflexivity.
Defined.
