(* ===== verification/LogSerde.v ===== *)
(** * log::serde, log::range: the log's records

    Storage keys of the log: entries (segment id, user key, sequence number
    relative to the segment's first), segment metadata, key listings and the
    sequence block.  The second half shows that the key order is the order of
    the fields, and that a scan range of a record type selects exactly the keys
    of that type with the fields it names. *)
From S2P Require Import Prelude Codec Serde ByteRange Varint TerminatedBytes Storage.

Module Log.

Inductive Error : Type :=
| ErrStorage (e : StorageError)
| ErrDeserialize (e : DeserializeError)       (* Encoding(err.message) *)
| InvalidRecordType (id : Z)
| WrongSubsystem (got : byte)
| UnexpectedRecordType (id : Z)               (* expected another type *)
| KeyTooShort
| ValueTooShort (got : Z)
| ListingValueNotEmpty (got : Z)
| ErrInternal.

Definition KEY_VERSION : byte := x01.
Definition SUBSYSTEM : byte := x03.
Definition SEQ_BLOCK_KEY : bytes := [SUBSYSTEM; KEY_VERSION; x20].

Inductive RecordType : Type := LogEntry_ | SeqBlock_ | SegmentMeta_ | ListingEntry_.

#[global] Instance RecordType_eq_dec : EqDecision RecordType.
Proof. solve_decision. Defined.

Definition id (t : RecordType) : Z :=
  match t with LogEntry_ => 1 | SeqBlock_ => 2 | SegmentMeta_ => 3 | ListingEntry_ => 4 end.

Definition from_id (i : Z) : res Error RecordType :=
  if bool_decide (i = 1) then Ok LogEntry_
  else if bool_decide (i = 2) then Ok SeqBlock_
  else if bool_decide (i = 3) then Ok SegmentMeta_
  else if bool_decide (i = 4) then Ok ListingEntry_
  else Err (InvalidRecordType i).

Definition from_prefix (p : KeyPrefix.t) : res Error RecordType :=
  if negb (bool_decide (KeyPrefix.subsystem p = SUBSYSTEM))
  then Err (WrongSubsystem (KeyPrefix.subsystem p))
  else from_id (Z.shiftr (Z.land (u8 (KeyPrefix.tag p)) 0xF0) 4).

(** The assertions of [RecordTag::new] and [KeyPrefix::new] hold for every record
    type ([prefix_new]), so the model leaves them out. *)
Definition tag (t : RecordType) : Z := Z.lor (wrap 8 (Z.shiftl (id t) 4)) 0.
Definition prefix (t : RecordType) : KeyPrefix.t := KeyPrefix.mk SUBSYSTEM KEY_VERSION (to_u8 (tag t)).

(** ** Entries *)
Record LogEntryKey : Type := mkEntryKey { ek_segment_id : Z; ek_key : bytes; ek_sequence : Z }.

Definition entry_key_bytes (segment_id : Z) (key : bytes) (relative_seq : Z) : bytes :=
  let buf := KeyPrefix.write_to (prefix LogEntry_) [] in
  let buf := buf ++ be_bytes 4 segment_id in
  let buf := TerminatedBytes.serialize key buf in
  buf ++ var_u64.serialize relative_seq.

Definition entry_key_serialize (k : LogEntryKey) (segment_start_seq : Z) : bytes :=
  entry_key_bytes (ek_segment_id k) (ek_key k) (wrap 64 (ek_sequence k - segment_start_seq)).

(** the checks every key decoder starts with; the bytes after the prefix *)
Definition check_prefix (t : RecordType) (data : bytes) : res Error unit :=
  let? p := res_map_err ErrDeserialize (KeyPrefix.from_bytes_with_validation data SUBSYSTEM KEY_VERSION) in
  let? ty := from_prefix p in
  if negb (bool_decide (ty = t)) then Err (UnexpectedRecordType (id ty))
  else if bool_decide (length data < 7)%nat then Err KeyTooShort
  else Ok tt.

Definition segment_id_at (data : bytes) : Z := from_be (take 4 (drop 3 data)).

Definition entry_key_deserialize (data : bytes) (segment_start_seq : Z) : res Error LogEntryKey :=
  let? _ := check_prefix LogEntry_ data in
  let segment_id := segment_id_at data in
  let? (key, buf) := res_map_err ErrDeserialize (TerminatedBytes.deserialize (drop 7 data)) in
  let? (relative_seq, _) := res_map_err ErrDeserialize (var_u64.deserialize buf) in
  Ok (mkEntryKey segment_id key (wrap 64 (segment_start_seq + relative_seq))).

(** ** Segment metadata *)
Definition meta_key_serialize (segment_id : Z) : bytes :=
  KeyPrefix.write_to (prefix SegmentMeta_) [] ++ be_bytes 4 segment_id.

Definition meta_key_deserialize (data : bytes) : res Error Z :=
  let? _ := check_prefix SegmentMeta_ data in Ok (segment_id_at data).

Definition meta_scan_range (lo hi : Z) : BytesRange :=
  mkRange (Included (meta_key_serialize lo)) (Excluded (meta_key_serialize hi)).

Record SegmentMeta : Type := mkMeta { start_seq : Z; start_time_ms : Z }.

Definition meta_serialize (m : SegmentMeta) : bytes :=
  be_bytes 8 (start_seq m) ++ be_bytes 8 (start_time_ms m).

Definition meta_deserialize (data : bytes) : res Error SegmentMeta :=
  if bool_decide (length data < 16)%nat then Err (ValueTooShort (blen data))
  else Ok (mkMeta (from_be (take 8 data)) (as_signed 64 (from_be (take 8 (drop 8 data))))).

Record LogSegment : Type := mkSegment { seg_id : Z; seg_meta : SegmentMeta }.

Definition build_scan_key (s : LogSegment) (key : bytes) (seq : Z) : bytes :=
  entry_key_bytes (seg_id s) key (saturating_sub seq (start_seq (seg_meta s))).

Definition entry_scan_range (s : LogSegment) (key : bytes) (lo hi : Z) : BytesRange :=
  mkRange (Included (build_scan_key s key lo)) (Excluded (build_scan_key s key hi)).

(** ** Key listings *)
Definition segment_prefix (segment_id : Z) : bytes :=
  KeyPrefix.write_to (prefix ListingEntry_) [] ++ be_bytes 4 segment_id.

Definition listing_key_serialize (segment_id : Z) (key : bytes) : bytes :=
  segment_prefix segment_id ++ key.

Definition listing_key_deserialize (data : bytes) : res Error (Z * bytes) :=
  let? _ := check_prefix ListingEntry_ data in Ok (segment_id_at data, drop 7 data).

Definition listing_scan_range (lo hi : Z) : BytesRange :=
  mkRange (Included (segment_prefix lo)) (Excluded (segment_prefix hi)).

Definition listing_value_serialize : bytes := [].
Definition listing_value_deserialize (data : bytes) : res Error unit :=
  if bool_decide (data = []) then Ok tt else Err (ListingValueNotEmpty (blen data)).

(** ** Ranges of the public API *)
Inductive RangeBound : Type := RIncluded (x : Z) | RExcluded (x : Z) | RUnbounded.

Definition saturating_add (w : Z) (x : Z) : Z := Z.min (u_max w) (x + 1).

(** [normalize_sequence] with [w = 64], [normalize_segment_id] with [w = 32] *)
Definition normalize (w : Z) (lo hi : RangeBound) : Z * Z :=
  (match lo with RIncluded s => s | RExcluded s => saturating_add w s | RUnbounded => 0 end,
   match hi with RIncluded e => saturating_add w e | RExcluded e => e | RUnbounded => u_max w end).

(** ** Shapes *)
Lemma prefix_new {E} t :
  RecordTag.new (E:=E) (id t) 0 = Ok (tag t) ∧
  KeyPrefix.new (E:=E) SUBSYSTEM KEY_VERSION (to_u8 (tag t)) = Ok (prefix t).
Proof. by destruct t. Qed.

Lemma prefix_wf t : KeyPrefix.wf (prefix t).
Proof. by destruct t. Qed.

Lemma prefix_cmp t u : KeyPrefix.cmp (prefix t) (prefix u) = Eq ↔ t = u.
Proof. by destruct t, u. Qed.

Lemma entry_key_bytes_fields i k r :
  entry_key_bytes i k r =
    KeyPrefix.to_bytes (prefix LogEntry_) ++ be_bytes 4 i ++ serialize_to_bytes k ++ var_u64.serialize r.
Proof.
  unfold entry_key_bytes, serialize_to_bytes. rewrite !serialize_escape.
  cbn [KeyPrefix.write_to KeyPrefix.to_bytes app]. by rewrite <-!app_assoc.
Qed.

Lemma meta_key_fields i : meta_key_serialize i = KeyPrefix.to_bytes (prefix SegmentMeta_) ++ be_bytes 4 i ++ [].
Proof. by rewrite app_nil_r. Qed.

Lemma listing_key_fields i k :
  listing_key_serialize i k = KeyPrefix.to_bytes (prefix ListingEntry_) ++ be_bytes 4 i ++ k.
Proof. done. Qed.

(** the record type of a storage key *)
Definition typed (t : RecordType) (K : bytes) : Prop :=
  ∃ rest, K = KeyPrefix.to_bytes (prefix t) ++ rest.

Lemma typed_entry i k r : typed LogEntry_ (entry_key_bytes i k r).
Proof. rewrite entry_key_bytes_fields. eexists. reflexivity. Qed.
Lemma typed_meta i : typed SegmentMeta_ (meta_key_serialize i).
Proof. rewrite meta_key_fields. eexists. reflexivity. Qed.
Lemma typed_listing i k : typed ListingEntry_ (listing_key_serialize i k).
Proof. eexists. reflexivity. Qed.
Lemma typed_seq_block : typed SeqBlock_ SEQ_BLOCK_KEY.
Proof. by exists []. Qed.

Lemma typed_inj t u K : typed t K → typed u K → t = u.
Proof.
  intros [r ->] [r' H]. apply prefix_cmp, bcmp_eq.
  injection H as H _. by destruct t, u.
Qed.

#[global] Instance prefix_ordered : OrderedField (λ _, True) (λ t u, KeyPrefix.cmp (prefix t) (prefix u))
  (λ t, KeyPrefix.to_bytes (prefix t)).
Proof. intros a b s t _ _. apply (ordered_field (prefix a) (prefix b)); apply prefix_wf. Qed.

(** ** What a scan range selects *)
Lemma entry_range_spec i k lo hi j k' r :
  in_u 32 i → in_u 32 j → in_u 64 lo → in_u 64 hi → in_u 64 r →
  contains (mkRange (Included (entry_key_bytes i k lo)) (Excluded (entry_key_bytes i k hi)))
    (entry_key_bytes j k' r) = true ↔ i = j ∧ k = k' ∧ lo ≤ r < hi.
Proof.
  intros Hi Hj Hlo Hhi Hr. unfold contains; cbn [start end_]. rewrite andb_true_iff, !entry_key_bytes_fields.
  rewrite (field_interval (λ _, True) (λ t u, KeyPrefix.cmp (prefix t) (prefix u)) (λ t, KeyPrefix.to_bytes (prefix t)) LogEntry_ LogEntry_) by done.
  rewrite prefix_cmp.
  rewrite (field_interval (in_u 32) Z.compare (be_bytes 4)) by done. rewrite Z.compare_eq_iff.
  rewrite (field_interval (λ _, True) bcmp serialize_to_bytes) by done. rewrite bcmp_eq.
  rewrite (field_interval_last (in_u 64) Z.compare var_u64.serialize) by done.
  rewrite Z.compare_lt_iff, Z.compare_ngt_iff || rewrite Z.compare_lt_iff. naive_solver lia.
Qed.

(** no key of another type lies between two keys of one type *)
Lemma range_typed t u a b K :
  typed t a → typed t b → typed u K →
  contains (mkRange (Included a) (Excluded b)) K = true → t = u.
Proof.
  intros [x ->] [y ->] [z ->]. unfold contains; cbn [start end_]. rewrite andb_true_iff.
  rewrite (field_interval (λ _, True) (λ t u, KeyPrefix.cmp (prefix t) (prefix u)) (λ t, KeyPrefix.to_bytes (prefix t)) t u) by done.
  intros [H _]. by apply prefix_cmp.
Qed.

Lemma meta_range_spec lo hi j :
  in_u 32 lo → in_u 32 hi → in_u 32 j →
  contains (meta_scan_range lo hi) (meta_key_serialize j) = true ↔ lo ≤ j < hi.
Proof.
  intros Hlo Hhi Hj. unfold contains, meta_scan_range; cbn [start end_].
  unfold meta_key_serialize, ble, blt. rewrite !bcmp_app, !(ordered_field_cmp (in_u 32) Z.compare (be_bytes 4)) by done.
  rewrite andb_true_iff. destruct (Z.compare_spec lo j), (Z.compare_spec j hi); naive_solver lia.
Qed.

Lemma listing_range_spec lo hi j k :
  in_u 32 lo → in_u 32 hi → in_u 32 j →
  contains (listing_scan_range lo hi) (listing_key_serialize j k) = true ↔ lo ≤ j < hi.
Proof.
  intros Hlo Hhi Hj. unfold contains, listing_scan_range; cbn [start end_].
  unfold listing_key_serialize, segment_prefix, ble, blt. rewrite <-!app_assoc, !bcmp_app.
  rewrite andb_true_iff. rewrite <-(app_nil_r (be_bytes 4 lo)), <-(app_nil_r (be_bytes 4 hi)).
  rewrite (ordered_field lo j), (ordered_field j hi) by done.
  destruct (Z.compare_spec lo j), (Z.compare_spec j hi), k; simpl;
    (split; [intros [? ?]|intros ?]; try done; try lia).
Qed.

(** ** Decoding *)
Lemma check_prefix_ok t rest :
  (4 ≤ length rest)%nat → check_prefix t (KeyPrefix.to_bytes (prefix t) ++ rest) = Ok tt.
Proof.
  intros Hl. unfold check_prefix.
  assert (Hp : KeyPrefix.from_bytes_with_validation (KeyPrefix.to_bytes (prefix t) ++ rest) SUBSYSTEM KEY_VERSION
               = Ok (prefix t)).
  { unfold KeyPrefix.from_bytes_with_validation. rewrite KeyPrefix.from_bytes_to_bytes by apply prefix_wf. done. }
  rewrite Hp. cbn [res_map_err res_bind].
  assert (Ht : from_prefix (prefix t) = Ok t) by (by destruct t). rewrite Ht. cbn [res_bind].
  rewrite bool_decide_true by done. cbn [negb].
  by rewrite bool_decide_false by (rewrite length_app; simpl; lia).
Qed.

Lemma key_drop t i rest : drop 7 (KeyPrefix.to_bytes (prefix t) ++ be_bytes 4 i ++ rest) = rest.
Proof. rewrite app_assoc. apply drop_app_length'. by rewrite length_app, be_bytes_length. Qed.

Lemma key_segment_id t i rest :
  in_u 32 i → segment_id_at (KeyPrefix.to_bytes (prefix t) ++ be_bytes 4 i ++ rest) = i.
Proof.
  intros Hi. unfold segment_id_at. rewrite (drop_app_length' _ _ 3) by done.
  rewrite take_app_length' by (by rewrite be_bytes_length). by apply (from_be_roundtrip 4).
Qed.

Lemma entry_key_decode i k r start :
  in_u 32 i → in_u 64 r →
  entry_key_deserialize (entry_key_bytes i k r) start = Ok (mkEntryKey i k (wrap 64 (start + r))).
Proof.
  intros Hi Hr. rewrite entry_key_bytes_fields. unfold entry_key_deserialize.
  rewrite check_prefix_ok by (rewrite length_app, be_bytes_length; lia). cbn [res_bind].
  rewrite key_drop, key_segment_id by done.
  rewrite (decode_encode (dec:=TerminatedBytes.deserialize) k) by done. cbn [res_map_err res_bind].
  rewrite <-(app_nil_r (var_u64.serialize r)).
  by rewrite (decode_encode (dec:=var_u64.deserialize) r).
Qed.

Lemma meta_key_decode i : in_u 32 i → meta_key_deserialize (meta_key_serialize i) = Ok i.
Proof.
  intros Hi. rewrite meta_key_fields. unfold meta_key_deserialize.
  rewrite check_prefix_ok by (rewrite length_app, be_bytes_length; lia). cbn [res_bind].
  by rewrite key_segment_id.
Qed.

Lemma listing_key_decode i k : in_u 32 i → listing_key_deserialize (listing_key_serialize i k) = Ok (i, k).
Proof.
  intros Hi. rewrite listing_key_fields. unfold listing_key_deserialize.
  rewrite check_prefix_ok by (rewrite length_app, be_bytes_length; lia). cbn [res_bind].
  by rewrite key_segment_id, key_drop.
Qed.

Definition wf_segment (s : LogSegment) : Prop :=
  in_u 32 (seg_id s) ∧ in_u 64 (start_seq (seg_meta s)) ∧ in_i 64 (start_time_ms (seg_meta s)).

Lemma as_signed_be8 z : in_i 64 z → as_signed 64 (from_be (be_bytes 8 z)) = z.
Proof. intros Hz. rewrite from_be_be_bytes. by apply as_signed_mod. Qed.

Lemma meta_decode m :
  in_u 64 (start_seq m) → in_i 64 (start_time_ms m) → meta_deserialize (meta_serialize m) = Ok m.
Proof.
  intros Hs Ht. unfold meta_deserialize, meta_serialize.
  rewrite bool_decide_false by (rewrite length_app, !be_bytes_length; lia).
  rewrite take_app_length' by (by rewrite be_bytes_length).
  rewrite drop_app_length' by (by rewrite be_bytes_length).
  rewrite firstn_all2 by (by rewrite be_bytes_length).
  rewrite (from_be_roundtrip 8), as_signed_be8 by done. by destruct m.
Qed.
End Log.
