(* ===== verification/LogDb.v ===== *)
(** * log: segments, listings, writer and reader

    The log over any store with the operations of [KvStore].  The writer task
    owns the sequence allocator and two caches; each append becomes one batch of
    puts.  A read view (a store snapshot and the segments known in it) serves
    scans through [LogIterator], which walks the segments covering the range.

    [BTreeMap<u64, LogSegment>] is the list of segments sorted by first sequence
    number, [BTreeSet<Bytes>] the keys of a [BTreeMap] to unit. *)
From S2P Require Import Prelude ByteRange Serde Storage KvStore Sequence LogSerde.

Module LogDb.
Import Log.

(** ** segment.rs *)
Record SegmentCache : Type := mkCache {
  segments : list LogSegment;             (* by start_seq *)
  seal_interval : option Z;               (* in milliseconds *)
}.

Fixpoint seg_insert (s : LogSegment) (l : list LogSegment) : list LogSegment :=
  match l with
  | [] => [s]
  | x :: l =>
      match Z.compare (start_seq (seg_meta s)) (start_seq (seg_meta x)) with
      | Lt => s :: x :: l
      | Eq => s :: l
      | Gt => x :: seg_insert s l
      end
  end.

Definition insert (c : SegmentCache) (s : LogSegment) : SegmentCache :=
  mkCache (seg_insert s (segments c)) (seal_interval c).

Definition latest (c : SegmentCache) : option LogSegment := last (segments c).

Definition find_covering (c : SegmentCache) (lo hi : Z) : list LogSegment :=
  if bool_decide (hi ≤ lo) then []
  else
    (match last (filter (λ s, start_seq (seg_meta s) ≤ lo) (segments c)) with
     | Some first_seg => [first_seg]
     | None => []
     end) ++
    filter (λ s, saturating_add 64 lo ≤ start_seq (seg_meta s) < hi) (segments c).

Definition should_roll (seal_interval : option Z) (current_time_ms : Z) (latest : option LogSegment) : bool :=
  match latest with
  | None => true
  | Some latest =>
      match seal_interval with
      | None => false
      | Some interval =>
          bool_decide (as_signed 64 interval ≤ as_signed 64 (current_time_ms - start_time_ms (seg_meta latest)))
      end
  end.

(** the assignment (segment, is_new), the cache and the records to put *)
Definition assign_segment (c : SegmentCache) (current_time_ms start_seq_ : Z) (force_seal : bool) :
    LogSegment * bool * SegmentCache * list (Record_ * Ttl) :=
  let roll segment_id :=
    let meta := mkMeta start_seq_ current_time_ms in
    let segment := mkSegment segment_id meta in
    (segment, true, insert c segment,
     [(mkRecord (meta_key_serialize segment_id) (meta_serialize meta), NoExpiry)]) in
  match latest c with
  | None => roll 0
  | Some s =>
      if force_seal || should_roll (seal_interval c) current_time_ms (Some s)
      then roll (wrap 32 (seg_id s + 1))
      else (s, false, c, [])
  end.

(** ** listing.rs *)
Record ListingCache : Type := mkListing {
  current_segment_id : option Z;
  listed : list (bytes * unit);
}.

Definition listing_new : ListingCache := mkListing None [].

Fixpoint assign_keys (segment_id : Z) (keys : list bytes) (seen : list (bytes * unit)) :
    list (bytes * unit) * list (Record_ * Ttl) :=
  match keys with
  | [] => (seen, [])
  | k :: keys =>
      match BTreeMap.get k seen with
      | Some _ => assign_keys segment_id keys seen
      | None =>
          let '(seen, records) := assign_keys segment_id keys (BTreeMap.insert k tt seen) in
          (seen, (mkRecord (listing_key_serialize segment_id k) listing_value_serialize, NoExpiry) :: records)
      end
  end.

Definition assign_new_keys (c : ListingCache) (segment_id : Z) (keys : list bytes) :
    ListingCache * list (Record_ * Ttl) :=
  let seen := if bool_decide (current_segment_id c = Some segment_id) then listed c else [] in
  let '(seen, records) := assign_keys segment_id keys seen in
  (mkListing (Some segment_id) seen, records).

(** ** model.rs *)
Record UserRecord : Type := mkUser { u_key : bytes; u_value : bytes }.
Record LogEntry : Type := mkEntry { le_key : bytes; le_sequence : Z; le_value : bytes }.

Section db.
Context {S : Type} `{!KvStore S}.

(** ** storage.rs *)
Fixpoint decode_segments (recs : list Record_) : res Error (list LogSegment) :=
  match recs with
  | [] => Ok []
  | r :: recs =>
      let? i := meta_key_deserialize (key r) in
      let? meta := meta_deserialize (value r) in
      let? segs := decode_segments recs in
      Ok (mkSegment i meta :: segs)
  end.

Definition scan_segments (now : Z) (s : S) (lo hi : Z) : res Error (list LogSegment) :=
  let? recs := res_map_err ErrStorage (kv_scan now (meta_scan_range lo hi) s) in
  decode_segments recs.

Fixpoint decode_listing (recs : list Record_) (keys : list (bytes * unit)) : res Error (list (bytes * unit)) :=
  match recs with
  | [] => Ok keys
  | r :: recs =>
      let? (_, k) := listing_key_deserialize (key r) in
      decode_listing recs (BTreeMap.insert k tt keys)
  end.

(** [list_keys] and draining the [LogKeyIterator] *)
Definition list_keys (now : Z) (s : S) (lo hi : Z) : res Error (list bytes) :=
  if bool_decide (hi ≤ lo) then Ok []
  else
    let? recs := res_map_err ErrStorage (kv_scan now (listing_scan_range lo hi) s) in
    let? keys := decode_listing recs [] in
    Ok (fst <$> keys).

Record SegmentIterator : Type := mkSegIter {
  si_inner : list Record_;                (* records not yet read *)
  si_lo : Z;
  si_hi : Z;
  si_start : Z;
}.

Definition scan_entries (now : Z) (s : S) (segment : LogSegment) (k : bytes) (lo hi : Z) :
    res Error SegmentIterator :=
  let? inner := res_map_err ErrStorage (kv_scan now (entry_scan_range segment k lo hi) s) in
  Ok (mkSegIter inner lo hi (start_seq (seg_meta segment))).

(** [SegmentIterator::next]: the entry and the records left *)
Fixpoint seg_next (inner : list Record_) (lo hi start : Z) : res Error (option (LogEntry * list Record_)) :=
  match inner with
  | [] => Ok None
  | r :: inner =>
      let? k := entry_key_deserialize (key r) start in
      if bool_decide (ek_sequence k < lo) then seg_next inner lo hi start
      else if bool_decide (hi ≤ ek_sequence k) then Ok None
      else Ok (Some (mkEntry (ek_key k) (ek_sequence k) (value r), inner))
  end.

(** ** reader.rs *)
Record LogReadView : Type := mkView { rv_storage : S; rv_segments : SegmentCache }.

Record LogIterator : Type := mkIter {
  it_storage : S;
  it_segments : list LogSegment;          (* from current_segment_idx on *)
  it_key : bytes;
  it_lo : Z;
  it_hi : Z;
  it_current : option SegmentIterator;
}.

Definition iter_open (v : LogReadView) (k : bytes) (lo hi : Z) : LogIterator :=
  mkIter (rv_storage v) (find_covering (rv_segments v) lo hi) k lo hi None.

Definition set_current (it : LogIterator) (segs : list LogSegment) (cur : option SegmentIterator) : LogIterator :=
  mkIter (it_storage it) segs (it_key it) (it_lo it) (it_hi it) cur.

(** [LogIterator::next]; each turn of its loop takes two units of fuel at most
    per segment *)
Fixpoint iter_next (fuel : nat) (now : Z) (it : LogIterator) : res Error (option LogEntry * LogIterator) :=
  match fuel with
  | O => Ok (None, it)
  | Datatypes.S fuel =>
      match it_current it with
      | Some cur =>
          let? o := seg_next (si_inner cur) (si_lo cur) (si_hi cur) (si_start cur) in
          match o with
          | Some (e, inner) =>
              Ok (Some e, set_current it (it_segments it)
                            (Some (mkSegIter inner (si_lo cur) (si_hi cur) (si_start cur))))
          | None => iter_next fuel now (set_current it (drop 1 (it_segments it)) None)
          end
      | None =>
          match it_segments it with
          | [] => Ok (None, it)
          | seg :: _ =>
              let? cur := scan_entries now (it_storage it) seg (it_key it) (it_lo it) (it_hi it) in
              iter_next fuel now (set_current it (it_segments it) (Some cur))
          end
      end
  end.

Definition iter_fuel (it : LogIterator) : nat := 2 * length (it_segments it) + 2.

Fixpoint drain (fuel : nat) (now : Z) (it : LogIterator) : res Error (list LogEntry) :=
  match fuel with
  | O => Ok []
  | Datatypes.S fuel =>
      let? (o, it) := iter_next (iter_fuel it) now it in
      match o with
      | Some e => let? es := drain fuel now it in Ok (e :: es)
      | None => Ok []
      end
  end.

(** [scan_with_options] on a normalized range *)
Definition scan (v : LogReadView) (k : bytes) (lo hi : Z) : LogIterator := iter_open v k lo hi.

Definition list_segments (v : LogReadView) (lo hi : Z) : list LogSegment :=
  find_covering (rv_segments v) lo hi.

(** [SegmentCache::open] and [refresh] *)
Definition insert_all (c : SegmentCache) (segs : list LogSegment) : SegmentCache := foldl insert c segs.

Definition cache_open (now : Z) (s : S) (interval : option Z) : res Error SegmentCache :=
  let? loaded := scan_segments now s 0 (u_max 32) in
  Ok (insert_all (mkCache [] interval) loaded).

Definition refresh (now : Z) (s : S) (c : SegmentCache) (after_segment_id : option Z) : res Error SegmentCache :=
  let? loaded := scan_segments now s
    (match after_segment_id with Some i => saturating_add 32 i | None => 0 end) (u_max 32) in
  Ok (insert_all (match after_segment_id with Some _ => c | None => mkCache [] (seal_interval c) end) loaded).

(** ** writer.rs *)
Record WrittenView : Type := mkWritten {
  wv_epoch : Z;
  wv_snapshot : S;
  wv_seqnum : Z;
  wv_last_segment_id : option Z;
}.

Record LogWriter : Type := mkWriter {
  storage : S;
  sequence_allocator : SequenceAllocator;
  segment_cache : SegmentCache;
  listing_cache : ListingCache;
  epoch : Z;
  written : WrittenView;                  (* value of the watch channel *)
  written_epoch : Z;
  durable_epoch : Z;
  last_segment_id : option Z;
}.

Definition set_storage (w : LogWriter) (s : S) : LogWriter :=
  mkWriter s (sequence_allocator w) (segment_cache w) (listing_cache w) (epoch w) (written w)
    (written_epoch w) (durable_epoch w) (last_segment_id w).

Fixpoint add_entries (segment : LogSegment) (sequence : Z) (records : list UserRecord) : list (Record_ * Ttl) :=
  match records with
  | [] => []
  | r :: records =>
      let entry_key := mkEntryKey (seg_id segment) (u_key r) (wrap 64 sequence) in
      (mkRecord (entry_key_serialize entry_key (start_seq (seg_meta segment))) (u_value r), NoExpiry)
        :: add_entries segment (sequence + 1) records
  end.

(** The store and the published view; [storage] is the store after a put that
    succeeded, unchanged after one that failed. *)
Definition write_and_broadcast (now : Z) (w : LogWriter) (records : list (Record_ * Ttl))
    (segment : LogSegment) (is_new : bool) : LogWriter * res StorageError unit :=
  match kv_put now records (storage w) with
  | Ok (s, seqnum) =>
      match kv_snapshot s with
      | Ok snapshot =>
          let e := wrap 64 (epoch w + 1) in
          let last := if is_new then Some (seg_id segment) else last_segment_id w in
          (mkWriter s (sequence_allocator w) (segment_cache w) (listing_cache w) e
             (mkWritten e snapshot seqnum last) e (durable_epoch w) last, Ok tt)
      | Err err => (set_storage w s, Err err)
      | Panic => (set_storage w s, Panic)
      end
  | Err e => (w, Err e)
  | Panic => (w, Panic)
  end.

Definition handle_append (now : Z) (w : LogWriter) (records : list UserRecord) (timestamp_ms : Z) :
    LogWriter * res StorageError (option Z) :=
  let count := blen records in
  if bool_decide (count = 0) then (w, Ok None)
  else
    let '(base_seq, block_record, alloc) := allocate count (sequence_allocator w) in
    let block_puts := match block_record with Some r => [(r, NoExpiry)] | None => [] end in
    let '(segment, is_new, segs, seg_puts) := assign_segment (segment_cache w) timestamp_ms base_seq false in
    let '(listing, listing_puts) := assign_new_keys (listing_cache w) (seg_id segment) (u_key <$> records) in
    let entry_puts := add_entries segment base_seq records in
    let w := mkWriter (storage w) alloc segs listing (epoch w) (written w)
               (written_epoch w) (durable_epoch w) (last_segment_id w) in
    match write_and_broadcast now w (block_puts ++ seg_puts ++ listing_puts ++ entry_puts) segment is_new with
    | (w, Ok _) => (w, Ok (Some base_seq))
    | (w, Err e) => (w, Err e)
    | (w, Panic) => (w, Panic)
    end.

Definition handle_flush (w : LogWriter) : LogWriter * res StorageError Z :=
  match kv_flush (storage w) with
  | Ok s =>
      (mkWriter s (sequence_allocator w) (segment_cache w) (listing_cache w) (epoch w) (written w)
         (written_epoch w) (epoch w) (last_segment_id w), Ok (epoch w))
  | Err e => (w, Err e)
  | Panic => (w, Panic)
  end.

(** [LogWriter::new] *)
Definition writer_new (s : S) (alloc : SequenceAllocator) (cache : SegmentCache) (listing : ListingCache) :
    res StorageError LogWriter :=
  let? initial_snapshot := kv_snapshot s in
  let last := seg_id <$> latest cache in
  Ok (mkWriter s alloc cache listing 0 (mkWritten 0 initial_snapshot 0 last) 0 0 last).

(** [LogDb::from_storage]: the writer and the read view of a newly opened log *)
Definition from_storage (now : Z) (s : S) (interval : option Z) : res Error (LogWriter * LogReadView) :=
  let? alloc := res_map_err (λ _, ErrInternal) (load (λ k, kv_get now k s) SEQ_BLOCK_KEY) in
  let? snapshot := res_map_err ErrStorage (kv_snapshot s) in
  let? cache := cache_open now snapshot interval in
  let? w := res_map_err ErrStorage (writer_new s alloc cache listing_new) in
  Ok (w, mkView snapshot cache).
End db.
End LogDb.
