(* ===== verification/LogSpec.v ===== *)
(** * The log, end to end

    The ghost state is the list of segments with their entries.  [LogOk] says
    the store holds exactly its records, [WriterOk] that the writer's caches
    agree with it.  Appends and reopening keep both; a scan of a view that agrees
    with it returns exactly the entries of the key in the range
    ([log_scan_exact]). *)
From S2P Require Import Prelude ByteRange Codec Serde Storage KvStore Sequence LogSerde LogDb.

Module LogSpec.
Import Log LogDb.

Notation Ghost := (list (LogSegment * list LogEntry)).

Definition entries (G : Ghost) : list LogEntry := concat (snd <$> G).

Definition rel (seg : LogSegment) (e : LogEntry) : Z := le_sequence e - start_seq (seg_meta seg).

Definition entry_record (seg : LogSegment) (e : LogEntry) : Record_ :=
  mkRecord (entry_key_bytes (seg_id seg) (le_key e) (rel seg e)) (le_value e).

Definition meta_record (seg : LogSegment) : Record_ :=
  mkRecord (meta_key_serialize (seg_id seg)) (meta_serialize (seg_meta seg)).

Definition listing_record (seg : LogSegment) (e : LogEntry) : Record_ :=
  mkRecord (listing_key_serialize (seg_id seg) (le_key e)) [].

(** the records of the log *)
Inductive image (G : Ghost) (blk : option bytes) : Record_ → Prop :=
| im_block v : blk = Some v → image G blk (mkRecord SEQ_BLOCK_KEY v)
| im_meta seg es : (seg, es) ∈ G → image G blk (meta_record seg)
| im_listing seg es e : (seg, es) ∈ G → e ∈ es → image G blk (listing_record seg e)
| im_entry seg es e : (seg, es) ∈ G → e ∈ es → image G blk (entry_record seg e).

Definition seq_lt (a b : LogEntry) : Prop := le_sequence a < le_sequence b.
#[global] Instance seq_lt_trans : Transitive seq_lt.
Proof. intros a b c. unfold seq_lt. lia. Qed.
#[global] Instance seq_lt_irrefl : Irreflexive seq_lt.
Proof. intros a. unfold Irreflexive, complement, seq_lt. lia. Qed.

(** Segments are numbered from 0, none is empty, each starts at its first entry;
    sequence numbers increase throughout. *)
Record GhostOk (G : Ghost) (next : Z) : Prop := {
  go_ids : ∀ i seg es, G !! i = Some (seg, es) → seg_id seg = Z.of_nat i;
  go_count : blen G < u_max 32;
  go_heads : ∀ seg es, (seg, es) ∈ G → ∃ e es', es = e :: es' ∧ le_sequence e = start_seq (seg_meta seg);
  go_times : ∀ seg es, (seg, es) ∈ G → in_i 64 (start_time_ms (seg_meta seg));
  go_sorted : StronglySorted seq_lt (entries G);
  go_range : Forall (λ e, 0 ≤ le_sequence e < next) (entries G);
  go_next : next < 2 ^ 64;
}.

Lemma elem_entries G seg es e : (seg, es) ∈ G → e ∈ es → e ∈ entries G.
Proof.
  intros Hg He. unfold entries. apply list_elem_of_In, in_concat. exists es.
  split; [|by apply list_elem_of_In]. apply list_elem_of_In, list_elem_of_fmap. by exists (seg, es).
Qed.

Lemma entries_app G1 G2 : entries (G1 ++ G2) = entries G1 ++ entries G2.
Proof. unfold entries. by rewrite fmap_app, concat_app. Qed.
Lemma entries_cons seg es G : entries ((seg, es) :: G) = es ++ entries G.
Proof. done. Qed.

Lemma ghost_sorted G next seg es : GhostOk G next → (seg, es) ∈ G → StronglySorted seq_lt es.
Proof.
  intros HG (G1 & G2 & ->)%list_elem_of_split. pose proof (go_sorted _ _ HG) as Hs.
  rewrite entries_app, entries_cons in Hs.
  apply StronglySorted_app_inv in Hs as (_ & Hs & _). by apply StronglySorted_app_inv in Hs as (? & _).
Qed.

Lemma elem_ghost G next seg es e :
  GhostOk G next → (seg, es) ∈ G → e ∈ es →
  start_seq (seg_meta seg) ≤ le_sequence e < next ∧ 0 ≤ start_seq (seg_meta seg) ∧ in_u 64 (rel seg e).
Proof.
  intros HG Hin He. pose proof (ghost_sorted _ _ _ _ HG Hin) as Hs.
  pose proof (go_range _ _ HG) as Hr. rewrite Forall_forall in Hr.
  pose proof (Hr e (elem_entries _ _ _ _ Hin He)) as Hre. pose proof (go_next _ _ HG) as Hn.
  destruct (go_heads _ _ HG _ _ Hin) as (e0 & es' & -> & H0).
  pose proof (Hr e0 (elem_entries _ _ _ e0 Hin ltac:(left))) as Hr0.
  apply StronglySorted_inv in Hs as [_ Hs]. rewrite Forall_forall in Hs. unfold in_u, rel.
  apply elem_of_cons in He as [->|He]; [lia|]. specialize (Hs e He). unfold seq_lt in Hs. lia.
Qed.

Lemma ghost_segment G next seg es : GhostOk G next → (seg, es) ∈ G → wf_segment seg.
Proof.
  intros HG Hin. pose proof Hin as [i Hi]%list_elem_of_lookup.
  destruct (go_heads _ _ HG _ _ Hin) as (e0 & es' & Hes & H0).
  destruct (elem_ghost _ _ _ _ e0 HG Hin) as ((_ & H1) & H2 & _); [subst; left|].
  pose proof (go_count _ _ HG) as Hc. pose proof (go_next _ _ HG).
  pose proof (lookup_lt_Some _ _ _ Hi). split_and!.
  - rewrite (go_ids _ _ HG _ _ _ Hi). unfold in_u, u_max, blen in *. lia.
  - unfold in_u. lia.
  - by apply (go_times _ _ HG _ es).
Qed.

Lemma ghost_id_inj G next seg es seg' es' :
  GhostOk G next → (seg, es) ∈ G → (seg', es') ∈ G → seg_id seg = seg_id seg' → seg = seg' ∧ es = es'.
Proof.
  intros HG [i Hi]%list_elem_of_lookup [j Hj]%list_elem_of_lookup He.
  rewrite (go_ids _ _ HG _ _ _ Hi), (go_ids _ _ HG _ _ _ Hj) in He.
  assert (i = j) as -> by lia. rewrite Hi in Hj. by simplify_eq.
Qed.

(** ** The image is a function *)
Lemma entry_key_inj i k r j k' r' :
  in_u 32 i → in_u 32 j → in_u 64 r → in_u 64 r' →
  entry_key_bytes i k r = entry_key_bytes j k' r' → i = j ∧ k = k' ∧ r = r'.
Proof.
  intros Hi Hj Hr Hr' He. pose proof (entry_key_decode i k r 0 Hi Hr) as H1.
  rewrite He, (entry_key_decode j k' r' 0 Hj Hr') in H1. rewrite !Z.add_0_l, !wrap_small in H1 by done.
  apply Ok_inj in H1. by injection H1 as -> -> ->.
Qed.

Lemma listing_key_inj i k j k' :
  in_u 32 i → in_u 32 j → listing_key_serialize i k = listing_key_serialize j k' → i = j ∧ k = k'.
Proof.
  intros Hi Hj He. pose proof (listing_key_decode i k Hi) as H1.
  rewrite He, (listing_key_decode j k' Hj) in H1. apply Ok_inj in H1. by injection H1 as -> ->.
Qed.

Lemma meta_key_inj i j :
  in_u 32 i → in_u 32 j → meta_key_serialize i = meta_key_serialize j → i = j.
Proof.
  intros Hi Hj He. pose proof (meta_key_decode i Hi) as H1.
  rewrite He, (meta_key_decode j Hj) in H1. by apply Ok_inj in H1.
Qed.

Lemma record_inj k v k' v' : mkRecord k v = mkRecord k' v' → k = k' ∧ v = v'.
Proof. by intros [= -> ->]. Qed.

(** an image record by the type of its key *)
Lemma image_typed G blk r :
  image G blk r →
  (typed SeqBlock_ (key r) ∧ key r = SEQ_BLOCK_KEY ∧ blk = Some (value r)) ∨
  (typed SegmentMeta_ (key r) ∧ ∃ seg es, (seg, es) ∈ G ∧ r = meta_record seg) ∨
  (typed ListingEntry_ (key r) ∧ ∃ seg es e, (seg, es) ∈ G ∧ e ∈ es ∧ r = listing_record seg e) ∨
  (typed LogEntry_ (key r) ∧ ∃ seg es e, (seg, es) ∈ G ∧ e ∈ es ∧ r = entry_record seg e).
Proof.
  intros [v ->|seg es|seg es e|seg es e].
  - left. split; [apply typed_seq_block|done].
  - right; left. split; [apply typed_meta|eauto].
  - right; right; left. split; [apply typed_listing|eauto 8].
  - right; right; right. split; [apply typed_entry|eauto 8].
Qed.

(** Two entries of a segment with one sequence number are one entry. *)
Lemma sorted_seq_inj es a b :
  StronglySorted seq_lt es → a ∈ es → b ∈ es → le_sequence a = le_sequence b → a = b.
Proof.
  induction 1 as [|x es Hs IH Hx]; [by intros ?%elem_of_nil|].
  rewrite Forall_forall in Hx. rewrite !elem_of_cons. unfold seq_lt in Hx.
  intros [->|Ha] [->|Hb] He; [done| | |by apply IH].
  - specialize (Hx b Hb). lia.
  - specialize (Hx a Ha). lia.
Qed.

Lemma image_functional G blk next k v v' :
  GhostOk G next → image G blk (mkRecord k v) → image G blk (mkRecord k v') → v = v'.
Proof.
  intros HG H1 H2. apply image_typed in H1, H2. cbn [key value] in *.
  destruct H1 as [(T1 & H1)|[(T1 & H1)|[(T1 & H1)|(T1 & H1)]]],
    H2 as [(T2 & H2)|[(T2 & H2)|[(T2 & H2)|(T2 & H2)]]];
    pose proof (typed_inj _ _ _ T1 T2) as Ht; try discriminate Ht; clear Ht T1 T2.
  - destruct H1 as [_ H1], H2 as [_ H2]. congruence.
  - destruct H1 as (seg & es & Hin & H1), H2 as (seg' & es' & Hin' & H2). apply record_inj in H1 as [-> ->]. apply record_inj in H2 as [Hk ->].
    pose proof (ghost_segment _ _ _ _ HG Hin) as (Hi & _). pose proof (ghost_segment _ _ _ _ HG Hin') as (Hi' & _).
    apply meta_key_inj in Hk; [|done..]. by destruct (ghost_id_inj _ _ _ _ _ _ HG Hin Hin' Hk) as [-> _].
  - destruct H1 as (? & ? & ? & _ & _ & H1), H2 as (? & ? & ? & _ & _ & H2).
    apply record_inj in H1 as [_ ->]. by apply record_inj in H2 as [_ ->].
  - destruct H1 as (seg & es & e & Hin & He & H1), H2 as (seg' & es' & e' & Hin' & He' & H2).
    apply record_inj in H1 as [-> ->]. apply record_inj in H2 as [Hk ->].
    pose proof (ghost_segment _ _ _ _ HG Hin) as (Hi & _). pose proof (ghost_segment _ _ _ _ HG Hin') as (Hi' & _).
    destruct (elem_ghost _ _ _ _ _ HG Hin He) as (_ & _ & Hr).
    destruct (elem_ghost _ _ _ _ _ HG Hin' He') as (_ & _ & Hr').
    apply entry_key_inj in Hk as (Hid & _ & Hrel); [|done..].
    destruct (ghost_id_inj _ _ _ _ _ _ HG Hin Hin' Hid) as [<- <-].
    rewrite (sorted_seq_inj es e e'); [done|by eapply ghost_sorted|done..|]. unfold rel in Hrel. lia.
Qed.

(** ** Reading *)
Section reads.
Context {S : Type} `{!KvStore S, !KvStoreLaws S}.

Record LogOk (s : S) (G : Ghost) (blk : option bytes) (next : Z) : Prop := {
  lo_ok : kv_ok s;
  lo_map : ∀ k v, kv_map s k = Some v ↔ image G blk (mkRecord k v);
  lo_ghost : GhostOk G next;
}.

(** the entries of a key in a range *)
Definition sel (k : bytes) (lo hi : Z) (es : list LogEntry) : list LogEntry :=
  filter (λ e, le_key e = k ∧ lo ≤ le_sequence e < hi) es.

Lemma rel_range seg e lo hi :
  start_seq (seg_meta seg) ≤ le_sequence e → start_seq (seg_meta seg) < hi →
  saturating_sub lo (start_seq (seg_meta seg)) ≤ rel seg e < saturating_sub hi (start_seq (seg_meta seg)) ↔
  lo ≤ le_sequence e < hi.
Proof. unfold rel, saturating_sub. lia. Qed.

Lemma entry_record_lt G next seg es a b :
  GhostOk G next → (seg, es) ∈ G → a ∈ es → b ∈ es → le_key a = le_key b → seq_lt a b →
  bcmp (key (entry_record seg a)) (key (entry_record seg b)) = Lt.
Proof.
  intros HG Hin Ha Hb Hk Hlt.
  destruct (elem_ghost _ _ _ _ _ HG Hin Ha) as (_ & _ & Hra).
  destruct (elem_ghost _ _ _ _ _ HG Hin Hb) as (_ & _ & Hrb). cbn.
  rewrite !entry_key_bytes_fields, Hk, !bcmp_app.
  rewrite (ordered_field_cmp (in_u 64) Z.compare Varint.var_u64.serialize) by done.
  apply Z.compare_lt_iff. unfold seq_lt, rel in *. lia.
Qed.

(** the scans of the log are over ranges the store accepts *)
Lemma meta_range_ok lo hi : in_u 32 lo → in_u 32 hi → lo ≤ hi → BTreeMap.range_panics (meta_scan_range lo hi) = false.
Proof.
  intros Hlo Hhi Hle. unfold BTreeMap.range_panics, meta_scan_range, meta_key_serialize, blt; cbn [start end_].
  rewrite bcmp_app, (ordered_field_cmp (in_u 32) Z.compare (be_bytes 4)) by done.
  destruct (Z.compare_spec hi lo); try done. lia.
Qed.

Lemma entry_range_ok seg k lo hi :
  in_u 64 (start_seq (seg_meta seg)) → 0 ≤ lo < hi → in_u 64 hi → start_seq (seg_meta seg) < hi →
  BTreeMap.range_panics (entry_scan_range seg k lo hi) = false.
Proof.
  intros Hs Hlo Hhi Hst. unfold BTreeMap.range_panics, entry_scan_range, build_scan_key, blt; cbn [start end_].
  rewrite !entry_key_bytes_fields, !bcmp_app.
  rewrite (ordered_field_cmp (in_u 64) Z.compare Varint.var_u64.serialize) by (unfold in_u, saturating_sub in *; lia).
  destruct (Z.compare_spec (saturating_sub hi (start_seq (seg_meta seg))) (saturating_sub lo (start_seq (seg_meta seg)))); try done.
  unfold saturating_sub in *. lia.
Qed.

Lemma scan_segment now s G blk next seg es k lo hi :
  LogOk s G blk next → (seg, es) ∈ G → 0 ≤ lo < hi → in_u 64 hi → start_seq (seg_meta seg) < hi →
  scan_entries now s seg k lo hi =
    Ok (mkSegIter (entry_record seg <$> sel k lo hi es) lo hi (start_seq (seg_meta seg))).
Proof.
  intros [Hok Hm HG] Hin Hlo Hhi Hst.
  destruct (ghost_segment _ _ _ _ HG Hin) as (Hid & Hs & _).
  set (lo' := saturating_sub lo (start_seq (seg_meta seg))).
  set (hi' := saturating_sub hi (start_seq (seg_meta seg))).
  assert (Hlo' : in_u 64 lo') by (unfold in_u, lo', saturating_sub in *; lia).
  assert (Hhi' : in_u 64 hi') by (unfold in_u, hi', saturating_sub in *; lia).
  assert (Hle : lo' < hi') by (unfold lo', hi', saturating_sub; lia).
  destruct (law_scan now (entry_scan_range seg k lo hi) s Hok) as (recs & Hscan & Hres).
  { by apply entry_range_ok. }
  unfold scan_entries. rewrite Hscan. cbn [res_map_err res_bind]. do 2 f_equal.
  eapply scan_result_unique; [exact Hres|]. split.
  - eapply (sorted_fmap seq_lt); [|by apply sorted_filter, (ghost_sorted _ _ _ _ HG Hin)].
    intros a b [[Hka _] Ha]%list_elem_of_filter [[Hkb _] Hb]%list_elem_of_filter.
    apply (entry_record_lt _ _ _ _ _ _ HG Hin Ha Hb). congruence.
  - intros K v. rewrite Hm, list_elem_of_fmap. unfold sel. setoid_rewrite list_elem_of_filter. split.
    + intros (e & He & ([Hk Hr] & Hin')). destruct (elem_ghost _ _ _ _ _ HG Hin Hin') as (H1 & H2 & H3).
      split; [|rewrite He; by eapply im_entry]. injection He as -> _.
      unfold entry_scan_range, build_scan_key. fold lo' hi'. apply entry_range_spec; try done.
      split; [done|]. split; [done|]. apply rel_range; lia.
    + intros [Hc Him]. apply image_typed in Him as Ht.
      assert (Hty : ∀ u, typed u K → LogEntry_ = u).
      { intros u Hu. eapply range_typed; [apply typed_entry|apply typed_entry|exact Hu|exact Hc]. }
      destruct Ht as [(Ht & _)|[(Ht & _)|[(Ht & _)|(_ & seg' & es' & e & Hin' & He & Heq)]]];
        [by specialize (Hty _ Ht)..|].
      destruct (elem_ghost _ _ _ _ _ HG Hin' He) as (H1 & H2 & H3).
      destruct (ghost_segment _ _ _ _ HG Hin') as (Hid' & _).
      injection Heq as -> ->. unfold entry_scan_range, build_scan_key in Hc. fold lo' hi' in Hc.
      apply entry_range_spec in Hc as (Hids & -> & Hr); [|done..].
      destruct (ghost_id_inj _ _ _ _ _ _ HG Hin Hin' Hids) as [<- <-].
      exists e. split; [done|]. split; [|done]. split; [done|]. apply (rel_range seg e lo hi); [lia|done|exact Hr].
Qed.

Lemma seg_next_record G next seg es e l lo hi :
  GhostOk G next → (seg, es) ∈ G → e ∈ es → lo ≤ le_sequence e < hi →
  seg_next (entry_record seg <$> e :: l) lo hi (start_seq (seg_meta seg)) =
    Ok (Some (e, entry_record seg <$> l)).
Proof.
  intros HG Hin He Hr. destruct (elem_ghost _ _ _ _ _ HG Hin He) as (H1 & H2 & H3).
  destruct (ghost_segment _ _ _ _ HG Hin) as (Hid & _). pose proof (go_next _ _ HG).
  rewrite fmap_cons. cbn [seg_next entry_record key value]. rewrite entry_key_decode by done.
  cbn [res_bind ek_sequence ek_key]. unfold rel.
  replace (start_seq (seg_meta seg) + (le_sequence e - start_seq (seg_meta seg))) with (le_sequence e) by lia.
  rewrite wrap_small by (unfold in_u; lia). rewrite !bool_decide_false by lia. by destruct e.
Qed.

(** What an iterator still has to return. *)
Definition segment_sel (k : bytes) (lo hi : Z) (x : LogSegment * list LogEntry) : list LogEntry :=
  sel k lo hi x.2.

Inductive Rep (s : S) (G : Ghost) (k : bytes) (lo hi : Z) : LogIterator → list LogEntry → Prop :=
| rep_between L :
    L ⊆ G → Forall (λ x, start_seq (seg_meta x.1) < hi) L →
    Rep s G k lo hi (mkIter s (fst <$> L) k lo hi None) (concat (segment_sel k lo hi <$> L))
| rep_inside seg es L l :
    (seg, es) :: L ⊆ G → Forall (λ x, start_seq (seg_meta x.1) < hi) L →
    Forall (λ e, e ∈ es ∧ lo ≤ le_sequence e < hi) l →
    Rep s G k lo hi
      (mkIter s (fst <$> (seg, es) :: L) k lo hi
         (Some (mkSegIter (entry_record seg <$> l) lo hi (start_seq (seg_meta seg)))))
      (l ++ concat (segment_sel k lo hi <$> L)).

Definition turns (it : LogIterator (S:=S)) : nat :=
  2 * length (it_segments it) + match it_current it with Some _ => 1 | None => 2 end.

Lemma iter_next_rep now s G blk next k lo hi fuel it out :
  LogOk s G blk next → 0 ≤ lo < hi → in_u 64 hi → Rep s G k lo hi it out → (turns it ≤ fuel)%nat →
  ∃ it', iter_next fuel now it = Ok (head out, it') ∧ Rep s G k lo hi it' (tail out).
Proof.
  intros Hlog Hlo Hhi. pose proof (lo_ghost _ _ _ _ Hlog) as HG.
  revert it out. induction fuel as [|fuel IH]; intros it out Hrep Hf;
    [unfold turns in Hf; destruct (it_current it); lia|].
  destruct Hrep as [L HL Hst|seg es L l HL Hst Hl].
  - destruct L as [|[seg es] L].
    { cbn. eexists. split; [reflexivity|]. by apply (rep_between _ _ _ _ _ []). }
    apply Forall_cons in Hst as [Hst0 Hst]. cbn [iter_next it_current it_segments it_storage it_key it_lo it_hi fmap list_fmap fst].
    assert (Hin : (seg, es) ∈ G) by (apply HL; left).
    rewrite (scan_segment now s G blk next seg es k lo hi) by done. cbn [res_bind].
    apply IH; [|unfold turns in *; cbn [it_segments it_current set_current] in *; rewrite ?fmap_cons in *; cbn [length] in *; rewrite ?length_fmap in *; lia].
    apply (rep_inside _ _ _ _ _ seg es L (sel k lo hi es)); [done..|].
    apply Forall_forall. intros e [[_ ?] ?]%list_elem_of_filter. done.
  - assert (Hin : (seg, es) ∈ G) by (apply HL; left).
    destruct l as [|e l].
    + cbn [iter_next it_current it_segments si_inner fmap list_fmap seg_next res_bind set_current drop app]. rewrite drop_0.
      apply IH; [|unfold turns in *; cbn [it_segments it_current set_current] in *; rewrite ?fmap_cons in *; cbn [length] in *; rewrite ?length_fmap in *; lia]. apply rep_between; [|done]. intros x Hx. apply HL. by right.
    + apply Forall_cons in Hl as [[He Hr] Hl]. cbn [iter_next it_current si_inner si_lo si_hi si_start].
      rewrite (seg_next_record _ _ _ _ _ _ _ _ HG Hin He Hr). cbn [res_bind].
      eexists. split; [reflexivity|]. by apply (rep_inside _ _ _ _ _ seg es L l).
Qed.

Lemma drain_rep now s G blk next k lo hi fuel it out :
  LogOk s G blk next → 0 ≤ lo < hi → in_u 64 hi → Rep s G k lo hi it out → (length out < fuel)%nat →
  drain fuel now it = Ok out.
Proof.
  intros Hlog Hlo Hhi. revert it out. induction fuel as [|fuel IH]; intros it out Hrep Hf; [lia|].
  cbn [drain]. destruct (iter_next_rep now _ _ _ _ _ _ _ (iter_fuel it) _ _ Hlog Hlo Hhi Hrep) as (it' & -> & Hrep').
  { unfold turns, iter_fuel. destruct (it_current it); lia. }
  cbn [res_bind]. destruct out as [|e out]; [done|]. cbn [head tail] in *.
  by rewrite (IH _ _ Hrep') by (simpl in Hf; lia).
Qed.

(** ** The covering segments *)
Definition starts_after (x y : LogSegment * list LogEntry) : Prop :=
  start_seq (seg_meta x.1) < start_seq (seg_meta y.1) ∧
  ∀ e, e ∈ x.2 → le_sequence e < start_seq (seg_meta y.1).

Lemma ghost_before G next : GhostOk G next → StronglySorted starts_after G.
Proof.
  intros HG. pose proof (go_heads _ _ HG) as Hh. pose proof (go_sorted _ _ HG) as Hs. clear HG.
  induction G as [|[seg es] G IH]; [constructor|]. rewrite entries_cons in Hs.
  apply StronglySorted_app_inv in Hs as (_ & Hs & Hx). constructor.
  - apply IH; [|done]. intros seg' es' Hin. apply (Hh seg' es'). by right.
  - apply Forall_forall. intros [seg' es'] Hin. unfold starts_after; cbn [fst snd].
    destruct (Hh seg es ltac:(left)) as (e & es1 & -> & He).
    destruct (Hh seg' es') as (e' & es2 & -> & He'); [by right|].
    assert (He2 : e' ∈ entries G) by (apply (elem_entries _ _ _ _ Hin); left).
    rewrite <-He, <-He'. split; [apply Hx; [left|done]|]. intros x Hx'. by apply Hx.
Qed.

Lemma sel_entries k lo hi L : concat (segment_sel k lo hi <$> L) = sel k lo hi (entries L).
Proof.
  induction L as [|[seg es] L IH]; [done|]. rewrite entries_cons. unfold sel in *. rewrite filter_app, <-IH. done.
Qed.

Lemma sel_none k lo hi es : Forall (λ e, ¬ lo ≤ le_sequence e < hi) es → sel k lo hi es = [].
Proof. intros H. apply filter_none. eapply Forall_impl; [exact H|]. naive_solver. Qed.

Lemma covering G next k lo hi si :
  GhostOk G next → 0 ≤ lo < hi → in_u 64 hi →
  ∃ L, find_covering (mkCache (fst <$> G) si) lo hi = fst <$> L ∧ L ⊆ G ∧
    Forall (λ x, start_seq (seg_meta x.1) < hi) L ∧
    concat (segment_sel k lo hi <$> L) = sel k lo hi (entries G).
Proof.
  intros HG Hlo Hhi. pose proof (ghost_before _ _ HG) as Hb.
  set (st := λ x : LogSegment * list LogEntry, start_seq (seg_meta x.1)).
  set (A := filter (λ x, st x ≤ lo) G). set (B := filter (λ x, ¬ st x ≤ lo) G).
  set (B1 := filter (λ x, st x < hi) B). set (B2 := filter (λ x, ¬ st x < hi) B).
  assert (HAB : G = A ++ B).
  { apply (sorted_split starts_after); [|done]. intros x y [Hxy _]. unfold st. lia. }
  assert (HB : B = B1 ++ B2).
  { apply (sorted_split starts_after); [|by apply sorted_filter]. intros x y [Hxy _]. unfold st. lia. }
  assert (Hcov : filter (λ s, saturating_add 64 lo ≤ start_seq (seg_meta s) < hi) (fst <$> G) = fst <$> B1).
  { rewrite filter_fmap. apply (f_equal (fmap fst)). unfold B1, B. rewrite list_filter_filter. apply list_filter_iff.
    intros x. unfold st, saturating_add, u_max. unfold in_u in Hhi. lia. }
  assert (Hsub : A ⊆ G ∧ B1 ⊆ G).
  { split; [apply filter_subseteq|]. intros x Hx%filter_subseteq. by apply filter_subseteq in Hx. }
  assert (Hs2 : sel k lo hi (entries B2) = []).
  { apply sel_none, Forall_forall. intros e He Hr. unfold entries in He.
    apply list_elem_of_In, in_concat in He as (es & Hes & He).
    apply list_elem_of_In, list_elem_of_fmap in Hes as ([seg es'] & -> & Hin). apply list_elem_of_In in He.
    pose proof Hin as [Hst Hin']%list_elem_of_filter. apply filter_subseteq in Hin'.
    destruct (elem_ghost _ _ _ _ _ HG Hin' He) as ((? & _) & _). unfold st in Hst. cbn in *. lia. }
  assert (HselB : sel k lo hi (entries B) = sel k lo hi (entries B1)).
  { rewrite HB, entries_app. unfold sel in *. by rewrite filter_app, Hs2, app_nil_r. }
  unfold find_covering. rewrite bool_decide_false by lia. cbn [segments]. rewrite Hcov, filter_fmap.
  change (filter (λ x, start_seq (seg_meta x.1) ≤ lo) G) with A.
  assert (HstB1 : Forall (λ x, st x < hi) B1) by (apply Forall_forall; by intros x [? _]%list_elem_of_filter).
  destruct A as [|x0 A0 _] eqn:EA using rev_ind.
  - exists B1. split; [done|]. split; [apply Hsub|]. split; [done|].
    rewrite sel_entries, <-HselB. by rewrite HAB.
  - rewrite fmap_app. change (fst <$> [x0]) with [x0.1]. rewrite last_snoc. exists (x0 :: B1). split; [done|].
    assert (Hx0 : st x0 ≤ lo).
    { assert (Hin : x0 ∈ A) by (rewrite EA; apply list_elem_of_In, in_or_app; right; by left).
      by apply list_elem_of_filter in Hin as [? _]. }
    split; [|split].
    + intros y [->|Hy]%elem_of_cons; [|by apply (proj2 Hsub)].
      apply (proj1 Hsub), elem_of_app. right. by left.
    + constructor; [unfold st in Hx0; lia|done].
    + rewrite sel_entries. rewrite HAB, !entries_app. change (x0 :: B1) with ([x0] ++ B1).
      rewrite entries_app. unfold sel in *. rewrite !filter_app, <-HselB. f_equal.
      assert (Hnil : filter (λ e, le_key e = k ∧ lo ≤ le_sequence e < hi) (entries A0) = []); [|by rewrite Hnil].
      apply (sel_none k), Forall_forall. intros e He Hr. unfold entries in He.
      apply list_elem_of_In, in_concat in He as (es & Hes & He).
      apply list_elem_of_In, list_elem_of_fmap in Hes as ([seg es'] & -> & Hin). apply list_elem_of_In in He.
      rewrite HAB, <-app_assoc in Hb. apply StronglySorted_app_inv in Hb as (_ & _ & Hb).
      destruct (Hb _ x0 Hin ltac:(left)) as [_ Hb']. specialize (Hb' e He). unfold st in Hx0. lia.
Qed.

(** A view of the store that knows its segments scans exactly. *)
Lemma scan_view now s G blk next si k lo hi fuel :
  LogOk s G blk next → 0 ≤ lo → in_u 64 hi → (length (sel k lo hi (entries G)) < fuel)%nat →
  drain fuel now (scan (mkView s (mkCache (fst <$> G) si)) k lo hi) = Ok (sel k lo hi (entries G)).
Proof.
  intros Hlog Hlo Hhi Hf. destruct (decide (hi ≤ lo)) as [Hle|Hgt].
  - assert (Hn : sel k lo hi (entries G) = []) by (apply sel_none, Forall_forall; intros; lia).
    rewrite Hn in *. destruct fuel as [|fuel]; [lia|]. unfold scan, iter_open, find_covering. cbn [rv_segments].
    rewrite bool_decide_true by done. done.
  - destruct (covering _ _ k lo hi si (lo_ghost _ _ _ _ Hlog)) as (L & Hcov & HL & Hst & Hsel); [lia|done|].
    rewrite <-Hsel in *. apply (drain_rep now s G blk next k lo hi); [done|lia|done| |done].
    unfold scan, iter_open. cbn [rv_segments rv_storage]. rewrite Hcov. by apply rep_between.
Qed.

(** ** Segments from storage *)
Lemma decode_segments_records segs :
  Forall wf_segment segs → decode_segments (meta_record <$> segs) = Ok segs.
Proof.
  induction 1 as [|[i m] segs (H1 & H2 & H3) _ IH]; [done|]. rewrite fmap_cons.
  cbn [decode_segments meta_record key value seg_id seg_meta] in *.
  rewrite meta_key_decode by done. cbn [res_bind]. rewrite meta_decode by done. cbn [res_bind].
  by rewrite IH.
Qed.

Lemma ghost_ids_sorted G next :
  GhostOk G next → StronglySorted (λ a b, seg_id a < seg_id b) (fst <$> G).
Proof.
  intros HG. pose proof (go_ids _ _ HG) as Hids. clear HG.
  assert (H : ∀ off, (∀ i seg es, G !! i = Some (seg, es) → seg_id seg = Z.of_nat (off + i)) →
              StronglySorted (λ a b, seg_id a < seg_id b) (fst <$> G)).
  { clear Hids. induction G as [|[seg es] G IH]; intros off Hids; [constructor|]. rewrite fmap_cons. constructor.
    - apply (IH (Datatypes.S off)). intros i seg' es' Hi. rewrite (Hids (Datatypes.S i) _ _ Hi). lia.
    - apply Forall_fmap, Forall_forall. intros [seg' es'] [i Hi]%list_elem_of_lookup. cbn.
      rewrite (Hids 0%nat seg es eq_refl), (Hids (Datatypes.S i) seg' es' Hi). lia. }
  by apply (H 0%nat).
Qed.

Lemma scan_segments_exact now s G blk next lo :
  LogOk s G blk next → 0 ≤ lo ≤ u_max 32 →
  scan_segments now s lo (u_max 32) = Ok (filter (λ seg, lo ≤ seg_id seg) (fst <$> G)).
Proof.
  intros [Hok Hm HG] Hlo.
  assert (Hlo' : in_u 32 lo) by (unfold in_u, u_max in *; lia).
  assert (Hhi : in_u 32 (u_max 32)) by done.
  assert (Hsegs : Forall wf_segment (fst <$> G)).
  { apply Forall_fmap, Forall_forall. intros [seg es] Hin. by apply (ghost_segment _ _ _ _ HG Hin). }
  assert (Hids : Forall (λ seg, seg_id seg < u_max 32) (fst <$> G)).
  { apply Forall_fmap, Forall_forall. intros [seg es] [i Hi]%list_elem_of_lookup. cbn.
    rewrite (go_ids _ _ HG _ _ _ Hi). apply lookup_lt_Some in Hi. pose proof (go_count _ _ HG) as Hc.
    unfold blen in Hc. lia. }
  destruct (law_scan now (meta_scan_range lo (u_max 32)) s Hok) as (recs & Hscan & Hres).
  { apply meta_range_ok; [done..|lia]. }
  unfold scan_segments. rewrite Hscan. cbn [res_map_err res_bind].
  set (segs := filter (λ seg, lo ≤ seg_id seg) (fst <$> G)).
  assert (Hrecs : recs = meta_record <$> segs); [|rewrite Hrecs; apply decode_segments_records;
    rewrite Forall_forall in Hsegs |- *; intros x Hx%filter_subseteq; by apply Hsegs].
  eapply scan_result_unique; [exact Hres|]. split.
  - eapply (sorted_fmap (λ a b, seg_id a < seg_id b)); [|by apply sorted_filter, (ghost_ids_sorted _ _ HG)].
    intros a b [_ Ha]%list_elem_of_filter [_ Hb]%list_elem_of_filter Hab. cbn [meta_record key].
    rewrite Forall_forall in Hsegs. unfold meta_key_serialize.
    rewrite bcmp_app, (ordered_field_cmp (in_u 32) Z.compare (be_bytes 4)) by (by apply Hsegs).
    by apply Z.compare_lt_iff.
  - intros K v. rewrite Hm, list_elem_of_fmap. unfold segs. setoid_rewrite list_elem_of_filter. split.
    + intros (seg & Heq & Hge & Hin). rewrite Forall_forall in Hids, Hsegs.
      pose proof Hin as ([seg' es] & -> & Hg)%list_elem_of_fmap. cbn [fst] in *. split.
      * injection Heq as -> _. apply meta_range_spec; [done..|by apply Hsegs|]. specialize (Hids _ Hin). lia.
      * rewrite Heq. by eapply im_meta.
    + intros [Hc Him]. apply image_typed in Him as Ht.
      assert (Hty : ∀ u, typed u K → SegmentMeta_ = u).
      { intros u Hu. eapply range_typed; [apply typed_meta|apply typed_meta|exact Hu|exact Hc]. }
      destruct Ht as [(Ht & _)|[(_ & seg & es & Hin & Heq)|[(Ht & _)|(Ht & _)]]];
        [by specialize (Hty _ Ht)| |by specialize (Hty _ Ht)..].
      exists seg. split; [done|]. injection Heq as -> _.
      assert (Hin' : seg ∈ fst <$> G) by (apply list_elem_of_fmap; by exists (seg, es)).
      split; [|done]. rewrite Forall_forall in Hsegs. by apply meta_range_spec in Hc; [lia|..|apply Hsegs].
Qed.

Lemma seg_insert_last seg l :
  Forall (λ x, start_seq (seg_meta x) < start_seq (seg_meta seg)) l → seg_insert seg l = l ++ [seg].
Proof.
  induction 1 as [|x l Hx _ IH]; [done|]. cbn [seg_insert app].
  destruct (Z.compare_spec (start_seq (seg_meta seg)) (start_seq (seg_meta x))); try lia. by rewrite IH.
Qed.

Lemma insert_all_sorted c l :
  StronglySorted (λ a b, start_seq (seg_meta a) < start_seq (seg_meta b)) (segments c ++ l) →
  insert_all c l = mkCache (segments c ++ l) (seal_interval c).
Proof.
  revert c. induction l as [|x l IH]; intros c Hs; cbn [insert_all foldl].
  - rewrite app_nil_r. by destruct c.
  - pose proof Hs as (_ & _ & Hx)%StronglySorted_app_inv.
    assert (Hi : insert c x = mkCache (segments c ++ [x]) (seal_interval c)).
    { unfold insert. rewrite seg_insert_last; [done|]. apply Forall_forall. intros y Hy. apply Hx; [done|left]. }
    rewrite Hi. fold (insert_all (mkCache (segments c ++ [x]) (seal_interval c)) l).
    rewrite IH; cbn [segments seal_interval]; by rewrite <-app_assoc.
Qed.

Lemma ghost_starts_sorted G next :
  GhostOk G next → StronglySorted (λ a b, start_seq (seg_meta a) < start_seq (seg_meta b)) (fst <$> G).
Proof.
  intros HG. eapply (sorted_fmap starts_after); [|by eapply ghost_before].
  intros x y _ _ [H _]. exact H.
Qed.

Lemma cache_open_exact now s G blk next si :
  LogOk s G blk next → cache_open now s si = Ok (mkCache (fst <$> G) si).
Proof.
  intros Hlog. unfold cache_open. rewrite (scan_segments_exact _ _ _ _ _ 0 Hlog) by (unfold u_max; lia).
  cbn [res_bind]. pose proof (lo_ghost _ _ _ _ Hlog) as HG. rewrite filter_all.
  - rewrite insert_all_sorted; [done|]. by apply (ghost_starts_sorted _ _ HG).
  - apply Forall_fmap, Forall_forall. intros [seg es] [i Hi]%list_elem_of_lookup. cbn.
    rewrite (go_ids _ _ HG _ _ _ Hi). lia.
Qed.

(** ** Appending *)
Fixpoint new_entries (base : Z) (records : list UserRecord) : list LogEntry :=
  match records with
  | [] => []
  | r :: records => mkEntry (u_key r) base (u_value r) :: new_entries (base + 1) records
  end.

Lemma new_entries_range base records :
  Forall (λ e, base ≤ le_sequence e < base + blen records) (new_entries base records) ∧
  StronglySorted seq_lt (new_entries base records).
Proof.
  revert base. induction records as [|r records IH]; intros base; simpl; [by split; constructor|].
  destruct (IH (base + 1)) as [H1 H2].
  assert (Hl : blen (r :: records) = 1 + blen records) by (unfold blen; simpl; lia).
  split; constructor; try done.
  - cbn. unfold blen. simpl. lia.
  - eapply Forall_impl; [exact H1|]. cbn. intros. lia.
  - eapply Forall_impl; [exact H1|]. unfold seq_lt. cbn. intros. lia.
Qed.

Lemma new_entries_keys base records : le_key <$> new_entries base records = u_key <$> records.
Proof. revert base. induction records as [|r records IH]; intros base; [done|]. simpl. by rewrite IH. Qed.

Lemma add_entries_spec seg base records :
  start_seq (seg_meta seg) ≤ base → 0 ≤ start_seq (seg_meta seg) → base + blen records ≤ 2 ^ 64 →
  add_entries seg base records = (λ e, (entry_record seg e, NoExpiry)) <$> new_entries base records.
Proof.
  revert base. induction records as [|r records IH]; intros base H1 H2 H3; [done|].
  assert (Hl : blen (r :: records) = 1 + blen records) by (unfold blen; simpl; lia).
  assert (0 ≤ blen records) by (unfold blen; lia).
  cbn [add_entries new_entries]. rewrite fmap_cons, IH by lia. do 2 f_equal.
  unfold entry_record, entry_key_serialize, rel. cbn [ek_segment_id ek_key ek_sequence le_key le_sequence le_value].
  rewrite (wrap_small 64 base) by (unfold in_u; lia). by rewrite wrap_small by (unfold in_u; lia).
Qed.

Lemma assign_keys_spec i keys seen seen' recs :
  assign_keys i keys seen = (seen', recs) →
  (∀ p, p ∈ recs → p.2 = NoExpiry ∧ ∃ k, k ∈ keys ∧ p.1 = mkRecord (listing_key_serialize i k) []) ∧
  (∀ k, k ∈ keys → BTreeMap.get k seen = None →
     (mkRecord (listing_key_serialize i k) [], NoExpiry) ∈ recs) ∧
  (∀ k, BTreeMap.get k seen' ≠ None ↔ BTreeMap.get k seen ≠ None ∨ k ∈ keys).
Proof.
  revert seen seen' recs. induction keys as [|x keys IH]; intros seen seen' recs; cbn [assign_keys].
  { intros [= <- <-]. split_and!; [by intros p ?%elem_of_nil|by intros k ?%elem_of_nil|].
    intros k. split; [tauto|]. by intros [?|?%elem_of_nil]. }
  destruct (BTreeMap.get x seen) eqn:Ex.
  - intros H. destruct (IH _ _ _ H) as (H1 & H2 & H3). split_and!.
    + intros p Hp. destruct (H1 p Hp) as (? & k & ? & ?). split; [done|]. exists k. split; [by right|done].
    + intros k [->|Hk]%elem_of_cons Hn; [congruence|]. by apply H2.
    + intros k. rewrite H3, elem_of_cons. split; [tauto|]. intros [?|[->|?]]; [by left|left; congruence|by right].
  - destruct (assign_keys i keys (BTreeMap.insert x tt seen)) as [seen1 recs1] eqn:Ea. intros [= <- <-].
    destruct (IH _ _ _ Ea) as (H1 & H2 & H3). split_and!.
    + intros p [->|Hp]%elem_of_cons; [split; [done|]; exists x; split; [left|done]|].
      destruct (H1 p Hp) as (? & k & ? & ?). split; [done|]. exists k. split; [by right|done].
    + intros k Hk Hn. destruct (decide (k = x)) as [->|Hne]; [left|]. right.
      apply elem_of_cons in Hk as [->|Hk]; [done|]. apply H2; [done|].
      by rewrite get_insert, bool_decide_false by done.
    + intros k. rewrite H3, get_insert, elem_of_cons. case_bool_decide; naive_solver.
Qed.

(** The ghost state after an append: a new segment, or more entries in the last. *)
Inductive Extends (G : Ghost) (seg : LogSegment) (new : list LogEntry) : bool → Ghost → Prop :=
| ext_new : Extends G seg new true (G ++ [(seg, new)])
| ext_old G0 es : G = G0 ++ [(seg, es)] → Extends G seg new false (G0 ++ [(seg, es ++ new)]).

Lemma extend_entries G seg new b G' : Extends G seg new b G' → entries G' = entries G ++ new.
Proof.
  intros [|G0 es ->]; rewrite !entries_app; unfold entries; simpl; rewrite ?app_nil_r; [done|].
  by rewrite app_assoc.
Qed.

Lemma extend_fst G seg new b G' :
  Extends G seg new b G' → fst <$> G' = if b then (fst <$> G) ++ [seg] else fst <$> G.
Proof. intros [|G0 es ->]; by rewrite !fmap_app. Qed.

Lemma extend_elem G seg new b G' s es :
  Extends G seg new b G' → (s, es) ∈ G' →
  (∃ es0, (s, es0) ∈ G ∧ (es = es0 ∨ s = seg ∧ es = es0 ++ new)) ∨ (b = true ∧ s = seg ∧ es = new).
Proof.
  intros [|G0 es0 ->] [Hin|Hin]%elem_of_app.
  - left. eauto.
  - right. apply list_elem_of_singleton in Hin. by injection Hin as -> ->.
  - left. exists es. split; [by apply elem_of_app; left|by left].
  - left. apply list_elem_of_singleton in Hin. injection Hin as -> ->. exists es0.
    split; [apply elem_of_app; right; by left|by right].
Qed.

Lemma extend_ok G next seg new b G' next' :
  GhostOk G next → Extends G seg new b G' → StronglySorted seq_lt new →
  Forall (λ e, next ≤ le_sequence e < next') new → 0 ≤ next ≤ next' → next' < 2 ^ 64 →
  (b = true → seg_id seg = blen G ∧ in_i 64 (start_time_ms (seg_meta seg)) ∧ blen G + 1 < u_max 32 ∧
     ∃ e es, new = e :: es ∧ le_sequence e = start_seq (seg_meta seg)) →
  GhostOk G' next'.
Proof.
  intros HG He Hs Hr Hn Hn' Hb.
  rewrite Forall_forall in Hr. pose proof (go_range _ _ HG) as HrG. rewrite Forall_forall in HrG.
  split.
  - intros i s es Hi. destruct He as [|G0 es0 ->].
    + apply lookup_app_Some in Hi as [Hi|[Hle Hi]]; [by apply (go_ids _ _ HG i s es)|].
      apply list_lookup_singleton_Some in Hi as [Hi [= <- <-]]. destruct (Hb eq_refl) as [-> _]. unfold blen. lia.
    + apply lookup_app_Some in Hi as [Hi|[Hle Hi]].
      * apply (go_ids _ _ HG i s es). by apply lookup_app_l_Some.
      * apply list_lookup_singleton_Some in Hi as [Hi [= <- <-]].
        apply (go_ids _ _ HG i seg es0). rewrite lookup_app_r by done. by rewrite Hi.
  - pose proof (go_count _ _ HG) as Hc. destruct He as [|G0 es0 ->].
    + destruct (Hb eq_refl) as (_ & _ & Hb' & _). unfold blen in *. rewrite length_app. simpl. lia.
    + unfold blen in *. rewrite length_app in *. simpl in *. lia.
  - intros s es Hin. destruct (extend_elem _ _ _ _ _ _ _ He Hin) as [(es0 & Hin0 & Hc)|(-> & -> & ->)].
    + destruct (go_heads _ _ HG _ _ Hin0) as (e & es1 & -> & Hst).
      destruct Hc as [->|[-> ->]]; [eauto|]. simpl. eauto.
    + by destruct (Hb eq_refl) as (_ & _ & _ & ?).
  - intros s es Hin. destruct (extend_elem _ _ _ _ _ _ _ He Hin) as [(es0 & Hin0 & Hc)|(-> & -> & ->)].
    + by apply (go_times _ _ HG s es0).
    + by destruct (Hb eq_refl) as (_ & ? & _).
  - rewrite (extend_entries _ _ _ _ _ He). apply sorted_app; [apply (go_sorted _ _ HG)|done|].
    intros x y Hx Hy. specialize (HrG x Hx). specialize (Hr y Hy). unfold seq_lt. lia.
  - rewrite (extend_entries _ _ _ _ _ He). apply Forall_forall. intros e [Hx|Hx]%elem_of_app.
    + specialize (HrG e Hx). lia.
    + specialize (Hr e Hx). lia.
  - done.
Qed.

Lemma extend_image G seg new b G' r :
  Extends G seg new b G' →
  image G' None r ↔ image G None r ∨ (b = true ∧ r = meta_record seg) ∨
    ∃ e, e ∈ new ∧ (r = listing_record seg e ∨ r = entry_record seg e).
Proof.
  intros He. split.
  - intros Hi. destruct Hi as [v Hv|s es Hin|s es e Hin Hx|s es e Hin Hx]; [done|..];
      destruct (extend_elem _ _ _ _ _ _ _ He Hin) as [(es0 & Hin0 & Hc)|(-> & -> & ->)]; try (by eauto 8).
    + left. by eapply im_meta.
    + destruct Hc as [->|[-> ->]]; [left; by eapply im_listing|].
      apply elem_of_app in Hx as [Hx|Hx]; [left; by eapply im_listing|eauto 8].
    + destruct Hc as [->|[-> ->]]; [left; by eapply im_entry|].
      apply elem_of_app in Hx as [Hx|Hx]; [left; by eapply im_entry|eauto 8].
  - assert (Hold : ∀ s es0, (s, es0) ∈ G → ∃ es, (s, es) ∈ G' ∧ ∀ e, e ∈ es0 → e ∈ es).
    { destruct He as [|G0 es1 ->]; intros s es0 Hin.
      - exists es0. split; [by apply elem_of_app; left|done].
      - apply elem_of_app in Hin as [Hin|Hin]; [exists es0; split; [by apply elem_of_app; left|done]|].
        apply list_elem_of_singleton in Hin. injection Hin as -> ->. exists (es1 ++ new).
        split; [apply elem_of_app; right; by left|]. intros e Hx. apply elem_of_app. by left. }
    assert (Hnew : ∃ es, (seg, es) ∈ G' ∧ ∀ e, e ∈ new → e ∈ es).
    { destruct He as [|G0 es1 ->]; [exists new; split; [apply elem_of_app; right; by left|done]|].
      exists (es1 ++ new). split; [apply elem_of_app; right; by left|]. intros e Hx. apply elem_of_app. by right. }
    destruct Hnew as (es & Hseg & Hsub). intros [Hi|[[-> ->]|(e & Hx & [-> | ->])]].
    + destruct Hi as [v Hv|s es1 Hin|s es1 e Hin Hx|s es1 e Hin Hx]; [done|..];
        destruct (Hold _ _ Hin) as (es2 & Hin2 & Hsub2); [by eapply im_meta|eapply im_listing|eapply im_entry]; eauto.
    + by eapply im_meta.
    + eapply im_listing; eauto.
    + eapply im_entry; eauto.
Qed.

Lemma image_block G blk k v :
  image G blk (mkRecord k v) ↔ (k = SEQ_BLOCK_KEY ∧ blk = Some v) ∨ image G None (mkRecord k v).
Proof.
  split.
  - intros Hi. inversion Hi; subst; [by left|right; by econstructor..].
  - intros [[-> ?]|Hi]; [by constructor|]. inversion Hi; subst; [done|by econstructor..].
Qed.

Lemma image_none_key G k v : image G None (mkRecord k v) → k ≠ SEQ_BLOCK_KEY.
Proof.
  intros Hi ->. apply image_typed in Hi. pose proof typed_seq_block as Hs. cbn [key] in Hi.
  destruct Hi as [(_ & _ & ?)|[(T & _)|[(T & _)|(T & _)]]]; [done|..]; by pose proof (typed_inj _ _ _ Hs T).
Qed.

(** ** The writer *)
Definition stored_block (a : SequenceAllocator) : option bytes :=
  SeqBlock.serialize <$> current_block (block a).

Record WriterOk (w : LogWriter (S:=S)) (G : Ghost) : Prop := {
  wo_log : LogOk (storage w) G (stored_block (sequence_allocator w)) (next_sequence (block (sequence_allocator w)));
  wo_alloc : block_ok (block (sequence_allocator w)) ∧ seq_key (sequence_allocator w) = SEQ_BLOCK_KEY;
  wo_cache : segments (segment_cache w) = fst <$> G;
  wo_listing : ∀ i, current_segment_id (listing_cache w) = Some i → i < blen G ∧
    ∀ seg es k, (seg, es) ∈ G → seg_id seg = i → BTreeMap.get k (listed (listing_cache w)) ≠ None →
      ∃ e, e ∈ es ∧ le_key e = k;
  wo_last : last_segment_id w = seg_id <$> last (fst <$> G);
  wo_written : wv_epoch (written w) = epoch w ∧ written_epoch w = epoch w ∧
    wv_last_segment_id (written w) = last_segment_id w ∧
    LogOk (wv_snapshot (written w)) G (stored_block (sequence_allocator w))
      (next_sequence (block (sequence_allocator w)));
}.

Lemma ghost_last G next seg :
  GhostOk G next → last (fst <$> G) = Some seg →
  ∃ G0 es, G = G0 ++ [(seg, es)] ∧ seg_id seg = blen G - 1.
Proof.
  intros HG. destruct G as [|[s es] G0 _] using rev_ind; [done|].
  rewrite fmap_app. change (fst <$> [(s, es)]) with [s]. rewrite last_snoc. intros [= ->].
  exists G0, es. split; [done|]. rewrite (go_ids _ _ HG (length G0) seg es).
  - unfold blen. rewrite length_app. simpl. lia.
  - by rewrite lookup_app_r, Nat.sub_diag by lia.
Qed.

Lemma assign_segment_spec c ts base G seg b c' puts :
  segments c = fst <$> G → GhostOk G base → assign_segment c ts base false = (seg, b, c', puts) →
  seal_interval c' = seal_interval c ∧
  if b then seg = mkSegment (blen G) (mkMeta base ts) ∧ segments c' = (fst <$> G) ++ [seg] ∧
            puts = [(meta_record seg, NoExpiry)]
  else c' = c ∧ puts = [] ∧ ∃ G0 es, G = G0 ++ [(seg, es)].
Proof.
  intros Hc HG. unfold assign_segment, latest. rewrite Hc.
  assert (Hins : ∀ i, segments (insert c (mkSegment i (mkMeta base ts))) =
                      (fst <$> G) ++ [mkSegment i (mkMeta base ts)]).
  { intros i. unfold insert; cbn [segments]. rewrite Hc. apply seg_insert_last.
    apply Forall_fmap, Forall_forall. intros [s es] Hin. cbn.
    destruct (go_heads _ _ HG _ _ Hin) as (e & es' & -> & He).
    destruct (elem_ghost _ _ _ _ e HG Hin ltac:(left)) as ((_ & ?) & _). lia. }
  destruct (last (fst <$> G)) as [s|] eqn:El.
  - destruct (ghost_last _ _ _ HG El) as (G0 & es & HG0 & Hid). cbn [orb].
    destruct (should_roll _ _ _) eqn:Er.
    + intros [= <- <- <- <-].
      assert (Hw : wrap 32 (seg_id s + 1) = blen G).
      { rewrite Hid. replace (blen G - 1 + 1) with (blen G) by lia. apply wrap_small.
        pose proof (go_count _ _ HG). unfold in_u, u_max, blen in *. lia. }
      rewrite Hw. split; [reflexivity|]. split; [reflexivity|]. split; [apply Hins|reflexivity].
    + intros [= <- <- <- <-]. split; [done|]. eauto.
  - intros [= <- <- <- <-]. apply last_None in El. apply fmap_nil_inv in El. subst G. change (blen []) with 0.
    split; [reflexivity|]. split; [reflexivity|]. split; [apply Hins|reflexivity].
Qed.

(** What the batch of an append does to the store. *)
Lemma append_map m G next seg new b G' next' blk blk' puts :
  (∀ k v, m k = Some v ↔ image G blk (mkRecord k v)) →
  Extends G seg new b G' → GhostOk G' next' →
  (∀ p, p ∈ puts → image G' blk' p.1) →
  (blk' = blk ∨ ∃ v, blk' = Some v ∧ (mkRecord SEQ_BLOCK_KEY v, NoExpiry) ∈ puts) →
  (∀ r, (b = true ∧ r = meta_record seg) ∨ (∃ e, e ∈ new ∧ (r = listing_record seg e ∨ r = entry_record seg e)) →
     image G None r ∨ (r, NoExpiry) ∈ puts) →
  GhostOk G next →
  ∀ k v, map_puts m puts k = Some v ↔ image G' blk' (mkRecord k v).
Proof.
  intros Hm He HG' Hin Hblk Hnew HG k v.
  destruct (map_puts_elem m puts k) as [[Hk Hno]|(v' & ttl & Hp & Hk)]; rewrite Hk.
  - rewrite Hm, (image_block G blk), (image_block G' blk'), (extend_image _ _ _ _ _ _ He). rewrite Forall_forall in Hno.
    assert (Hb : k = SEQ_BLOCK_KEY → blk' = blk).
    { intros ->. destruct Hblk as [?|(x & _ & Hx)]; [done|]. by destruct (Hno _ Hx). }
    split.
    + intros [[-> Hv]|Hi]; [left; split; [done|]; by rewrite Hb|right; by left].
    + intros [[-> Hv]|[Hi|Hi]]; [left; split; [done|]; by rewrite <-Hb|by right|].
      destruct (Hnew _ Hi) as [?|Hx]; [by right|]. by destruct (Hno _ Hx).
  - pose proof (Hin _ Hp) as Hi. cbn in Hi. split.
    + by intros [= <-].
    + intros Hi'. f_equal. exact (image_functional _ _ _ _ _ _ HG' Hi Hi').
Qed.

Lemma wo_ghost w G : WriterOk w G → GhostOk G (next_sequence (block (sequence_allocator w))).
Proof. intros Hw. apply (lo_ghost _ _ _ _ (wo_log _ _ Hw)). Qed.

(** the listing records of an append: the keys not listed yet *)
Lemma append_listing w G seg new b G' listing puts base records :
  WriterOk w G → Extends G seg new b G' → (b = true → seg_id seg = blen G) →
  new = new_entries base records →
  assign_new_keys (listing_cache w) (seg_id seg) (u_key <$> records) = (listing, puts) →
  (∀ p, p ∈ puts → p.2 = NoExpiry ∧ ∃ e, e ∈ new ∧ p.1 = listing_record seg e) ∧
  (∀ e, e ∈ new → image G None (listing_record seg e) ∨ (listing_record seg e, NoExpiry) ∈ puts) ∧
  (current_segment_id listing = Some (seg_id seg) ∧
   ∀ k, BTreeMap.get k (listed listing) ≠ None → ∃ es e, (seg, es) ∈ G' ∧ e ∈ es ∧ le_key e = k).
Proof.
  intros Hw He Hb Hnew. unfold assign_new_keys. rewrite <-(new_entries_keys base), <-Hnew.
  set (seen := if bool_decide _ then _ else _).
  assert (Hseen : ∀ k, BTreeMap.get k seen ≠ None → ∃ es e, (seg, es) ∈ G ∧ e ∈ es ∧ le_key e = k).
  { intros k. unfold seen. case_bool_decide as Hcur; [|by intros []]. intros Hk.
    destruct (wo_listing _ _ Hw _ Hcur) as [Hlt Hl]. destruct b.
    - rewrite (Hb eq_refl) in Hlt. lia.
    - inversion He as [|G0 es HG0]; subst. exists es.
      destruct (Hl seg es k) as (e & ? & ?); [apply elem_of_app; right; by left|done..|].
      exists e. split; [apply elem_of_app; right; by left|done]. }
  destruct (assign_keys _ _ seen) as [seen' recs] eqn:Ea. intros [= <- <-].
  destruct (assign_keys_spec _ _ _ _ _ Ea) as (H1 & H2 & H3).
  split_and!.
  - intros p Hp. destruct (H1 p Hp) as (? & k & Hk & ->). split; [done|].
    apply list_elem_of_fmap in Hk as (e & -> & Hx). by exists e.
  - intros e Hx. destruct (BTreeMap.get (le_key e) seen) eqn:Eg.
    + left. destruct (Hseen (le_key e)) as (es & e' & Hin & Hx' & Hk); [by rewrite Eg|].
      unfold listing_record. rewrite <-Hk. by eapply im_listing.
    + right. apply H2; [|done]. apply list_elem_of_fmap. by exists e.
  - done.
  - cbn [listed]. intros k Hk. apply H3 in Hk as [Hk|Hk].
    + destruct (Hseen k Hk) as (es & e & Hin & Hx & Hke).
      assert (Hi : image G' None (listing_record seg e)).
      { apply (extend_image _ _ _ _ _ _ He). left. by eapply im_listing. }
      destruct He as [|G0 es0 ->]; [exists es, e; split; [by apply elem_of_app; left|done]|].
      pose proof (wo_ghost _ _ Hw) as HG.
      destruct (ghost_id_inj _ _ seg es seg es0 HG Hin) as [_ ->]; [apply elem_of_app; right; by left|done|].
      exists (es0 ++ new), e. split; [apply elem_of_app; right; by left|]. split; [by apply elem_of_app; left|done].
    + apply list_elem_of_fmap in Hk as (e & -> & Hx).
      destruct He as [|G0 es0 ->].
      * exists new, e. split; [apply elem_of_app; right; by left|done].
      * exists (es0 ++ new), e. split; [apply elem_of_app; right; by left|]. split; [by apply elem_of_app; right|done].
Qed.

(** what [handle_append] computes before it writes *)
Lemma append_prepare w G records ts base record alloc seg b segs seg_puts :
  WriterOk w G → records ≠ [] → in_i 64 ts → blen G + 1 < u_max 32 →
  block_end (block (sequence_allocator w)) + blen records + DEFAULT_BLOCK_SIZE < 2 ^ 64 →
  allocate (blen records) (sequence_allocator w) = (base, record, alloc) →
  assign_segment (segment_cache w) ts base false = (seg, b, segs, seg_puts) →
  let new := new_entries base records in
  base = next_sequence (block (sequence_allocator w)) ∧
  ∃ G', Extends G seg new b G' ∧ GhostOk G' (next_sequence (block alloc)) ∧
    (b = true → seg_id seg = blen G) ∧ segments segs = fst <$> G' ∧
    add_entries seg base records = (λ e, (entry_record seg e, NoExpiry)) <$> new.
Proof.
  intros Hw Hne Hts Hg Hbe Ea Es new. pose proof (wo_ghost _ _ Hw) as HG.
  destruct (wo_alloc _ _ Hw) as [Hbo Hkey].
  assert (Hlen : 0 < blen records) by (destruct records; [done|unfold blen; simpl; lia]).
  destruct (allocate_spec _ _ _ _ _ Hbo (Z.lt_le_incl _ _ Hlen) Hbe Ea) as (Hk' & Hbo' & Hbase & Hnext & Hend & Hrec).
  rewrite <-Hbase in HG. split; [done|].
  destruct (assign_segment_spec _ _ _ _ _ _ _ _ (wo_cache _ _ Hw) HG Es) as [Hsi Hseg].
  assert (Hext : ∃ G', Extends G seg new b G').
  { destruct b; [eexists; constructor|]. destruct Hseg as (_ & _ & G0 & es & HG0). eexists. by eapply ext_old. }
  destruct Hext as [G' Hext]. exists G'.
  destruct (new_entries_range base records) as [Hr Hs]. fold new in Hr, Hs.
  assert (Hb0 : 0 ≤ base) by (rewrite Hbase; apply Hbo).
  assert (Hnext' : next_sequence (block alloc) < 2 ^ 64) by (destruct Hbo' as (_ & ? & ?); lia).
  assert (Hstart : start_seq (seg_meta seg) ≤ base ∧ 0 ≤ start_seq (seg_meta seg)).
  { destruct b; [by destruct Hseg as (-> & _)|]. destruct Hseg as (_ & _ & G0 & es & HG0).
    assert (Hin : (seg, es) ∈ G) by (rewrite HG0; apply elem_of_app; right; by left).
    destruct (go_heads _ _ HG _ _ Hin) as (e & es' & -> & ?).
    destruct (elem_ghost _ _ _ _ e HG Hin ltac:(left)) as (? & ? & _). lia. }
  split_and!; [done| | | |].
  - apply (extend_ok G base seg new b G'); try done; [by rewrite Hnext|lia|]. intros ->.
    destruct Hseg as (-> & _ & _). cbn. split_and!; try done. unfold new.
    destruct records as [|r records]; [done|]. cbn. eauto.
  - intros ->. by destruct Hseg as (-> & _).
  - rewrite (extend_fst _ _ _ _ _ Hext). destruct b; [by destruct Hseg as (_ & ? & _)|].
    destruct Hseg as (-> & _). apply (wo_cache _ _ Hw).
  - apply add_entries_spec; lia.
Qed.

(** the store after the batch of an append *)
Lemma log_same s s' G blk n :
  LogOk s G blk n → kv_ok s' → (∀ k, kv_map s' k = kv_map s k) → LogOk s' G blk n.
Proof. intros [] Hok He. split; try done. intros k v. by rewrite He. Qed.

Lemma append_store now w G records base record alloc seg (b : bool) seg_puts listing listing_puts G' :
  WriterOk w G → 0 < blen records →
  block_end (block (sequence_allocator w)) + blen records + DEFAULT_BLOCK_SIZE < 2 ^ 64 →
  allocate (blen records) (sequence_allocator w) = (base, record, alloc) →
  (seg_puts = if b then [(meta_record seg, NoExpiry)] else []) →
  let new := new_entries base records in
  Extends G seg new b G' → GhostOk G' (next_sequence (block alloc)) → (b = true → seg_id seg = blen G) →
  assign_new_keys (listing_cache w) (seg_id seg) (u_key <$> records) = (listing, listing_puts) →
  let puts := match record with Some r => [(r, NoExpiry)] | None => [] end ++ seg_puts ++ listing_puts ++
              ((λ e, (entry_record seg e, NoExpiry)) <$> new) in
  ∃ s n, kv_put now puts (storage w) = Ok (s, n) ∧
    LogOk s G' (stored_block alloc) (next_sequence (block alloc)).
Proof.
  intros Hw Hlen Hbe Ea Hsp new Hext HG' Hb El puts.
  destruct (append_listing _ _ _ _ _ _ _ _ base records Hw Hext Hb eq_refl El) as (HL1 & HL2 & _).
  destruct (wo_alloc _ _ Hw) as [Hbo Hkey].
  destruct (allocate_spec _ _ _ _ _ Hbo (Z.lt_le_incl _ _ Hlen) Hbe Ea) as (Hk' & _ & _ & _ & _ & Hrec).
  assert (Hmem : ∀ p, p ∈ puts → p.2 = NoExpiry ∧
    ((record = Some p.1) ∨ (b = true ∧ p.1 = meta_record seg) ∨
     ∃ e, e ∈ new ∧ (p.1 = listing_record seg e ∨ p.1 = entry_record seg e))).
  { intros p. unfold puts. rewrite !elem_of_app, list_elem_of_fmap. intros [Hp|[Hp|[Hp|(e & -> & He)]]].
    - destruct record; [|by apply elem_of_nil in Hp]. apply list_elem_of_singleton in Hp as ->. auto.
    - destruct b; subst seg_puts; [|by apply elem_of_nil in Hp]. apply list_elem_of_singleton in Hp as ->. auto.
    - destruct (HL1 p Hp) as (? & e & ? & ?). eauto 8.
    - split; [done|]. eauto 8. }
  destruct (law_put now puts (storage w) (lo_ok _ _ _ _ (wo_log _ _ Hw))) as (s' & n & Hput & Hok' & Hmap).
  { apply Forall_forall. intros p Hp. left. by apply Hmem. }
  exists s', n. split; [done|]. split; [done| |done]. intros k v. rewrite Hmap.
  refine (append_map (kv_map (storage w)) G _ seg new b G' _ _ (stored_block alloc) puts
    (lo_map _ _ _ _ (wo_log _ _ Hw)) Hext HG' _ _ _ (wo_ghost _ _ Hw) k v).
  - intros p Hp. destruct (Hmem p Hp) as [_ [Hr|Hr]].
    + rewrite Hr in Hrec. destruct Hrec as (Hk & Hv & _). destruct (p.1) as [pk pv]. cbn in Hk, Hv.
      rewrite Hk, Hkey. constructor. unfold stored_block. by rewrite <-Hv.
    + destruct (p.1) as [pk pv]. apply image_block. right. apply (extend_image _ _ _ _ _ _ Hext). right. exact Hr.
  - destruct record as [[rk rv]|]; [right|left; unfold stored_block; by rewrite Hrec].
    destruct Hrec as (Hk & Hv & _). cbn in Hk, Hv. exists rv. unfold stored_block. rewrite <-Hv. split; [done|].
    unfold puts. rewrite Hk, Hkey. left.
  - intros r [[-> ->]|(e & He & [-> | ->])]; unfold puts; rewrite !elem_of_app, list_elem_of_fmap.
    + right. subst seg_puts. right. left. left.
    + destruct (HL2 e He); [by left|]. right. auto.
    + right. right. right. right. eauto.
Qed.

Lemma log_snapshot s G blk n :
  LogOk s G blk n → ∃ s', kv_snapshot s = Ok s' ∧ LogOk s' G blk n.
Proof.
  intros Hlog. destruct (law_snapshot s (lo_ok _ _ _ _ Hlog)) as (s' & Hs & Hok & He).
  exists s'. split; [done|]. by eapply log_same.
Qed.

Lemma append_spec now w G records ts :
  WriterOk w G → records ≠ [] → in_i 64 ts →
  block_end (block (sequence_allocator w)) + blen records + DEFAULT_BLOCK_SIZE < 2 ^ 64 →
  blen G + 1 < u_max 32 →
  let base := next_sequence (block (sequence_allocator w)) in
  ∃ w' G', handle_append now w records ts = (w', Ok (Some base)) ∧ WriterOk w' G' ∧
    entries G' = entries G ++ new_entries base records ∧
    block_end (block (sequence_allocator w')) ≤
      block_end (block (sequence_allocator w)) + blen records + DEFAULT_BLOCK_SIZE ∧
    blen G' ≤ blen G + 1 ∧ epoch w' = wrap 64 (epoch w + 1) ∧ (fst <$> G) `prefix_of` (fst <$> G').
Proof.
  intros Hw Hne Hts Hbe Hg base0.
  assert (Hlen : 0 < blen records) by (destruct records; [done|unfold blen; simpl; lia]).
  destruct (allocate (blen records) (sequence_allocator w)) as [[base record] alloc] eqn:Ea.
  destruct (assign_segment (segment_cache w) ts base false) as [[[seg b] segs] seg_puts] eqn:Es.
  destruct (append_prepare _ _ _ _ _ _ _ _ _ _ _ Hw Hne Hts Hg Hbe Ea Es) as (Hbase & G' & Hext & HG' & Hb & Hsegs & Hadd).
  fold base0 in Hbase. subst base.
  destruct (assign_new_keys (listing_cache w) (seg_id seg) (u_key <$> records)) as [listing listing_puts] eqn:El.
  destruct (wo_alloc _ _ Hw) as [Hbo Hkey].
  assert (Hsp : seg_puts = if b then [(meta_record seg, NoExpiry)] else []).
  { destruct (assign_segment_spec _ _ _ _ _ _ _ _ (wo_cache _ _ Hw) (wo_ghost _ _ Hw) Es) as [_ H].
    destruct b; by destruct H as (_ & ? & ?). }
  destruct (append_store now _ _ _ _ _ _ _ _ seg_puts _ _ _ Hw Hlen Hbe Ea Hsp Hext HG' Hb El) as (s' & n & Hput & Hlog).
  destruct (log_snapshot _ _ _ _ Hlog) as (snap & Hsnap & Hlog').
  destruct (append_listing _ _ _ _ _ _ _ _ base0 records Hw Hext Hb eq_refl El) as (_ & _ & HL3 & HL4).
  destruct (allocate_spec _ _ _ _ _ Hbo (Z.lt_le_incl _ _ Hlen) Hbe Ea) as (Hk' & Hbo' & _ & _ & Hend & _).
  eexists _, G'. split.
  { unfold handle_append. rewrite bool_decide_false by lia. rewrite Ea, Es, El, Hadd.
    unfold write_and_broadcast. cbn [storage]. rewrite Hput, Hsnap. reflexivity. }
  assert (HlenG : blen G ≤ blen G' ≤ blen G + 1).
  { apply (f_equal length) in Hsegs. destruct Hext as [|G0 es ->]; unfold blen; rewrite !length_app; simpl; lia. }
  split; [|cbn [sequence_allocator epoch]; split_and!; try lia; [by eapply extend_entries|]].
  2: { rewrite (extend_fst _ _ _ _ _ Hext). destruct b; [by apply prefix_app_r|done]. }
  split; cbn [storage sequence_allocator segment_cache listing_cache epoch written written_epoch last_segment_id].
  - done.
  - split; [done|congruence].
  - done.
  - intros i Hi. rewrite HL3 in Hi. injection Hi as <-.
    assert (Hin : ∃ es, (seg, es) ∈ G').
    { destruct Hext as [|G0 es ->]; eexists; apply elem_of_app; right; by left. }
    destruct Hin as [es0 [j Hj]%list_elem_of_lookup]. split.
    + rewrite (go_ids _ _ HG' _ _ _ Hj). apply lookup_lt_Some in Hj. unfold blen. lia.
    + intros seg' es k Hin Hid Hk. destruct (HL4 k Hk) as (es1 & e & Hin1 & He & Hke).
      destruct (ghost_id_inj _ _ _ _ _ _ HG' Hin Hin1 Hid) as [-> ->]. eauto.
  - rewrite (extend_fst _ _ _ _ _ Hext), (wo_last _ _ Hw). destruct b; [|done].
    by rewrite last_snoc.
  - by split_and!.
Qed.

Lemma ghost_mono G n n' : GhostOk G n → n ≤ n' → n' < 2 ^ 64 → GhostOk G n'.
Proof.
  intros [] Hle Hlt. split; try done. eapply Forall_impl; [done|]. cbn. intros. lia.
Qed.

Lemma flush_spec w G :
  WriterOk w G → ∃ w', handle_flush w = (w', Ok (epoch w)) ∧ WriterOk w' G ∧
    sequence_allocator w' = sequence_allocator w ∧ durable_epoch w' = epoch w ∧ epoch w' = epoch w.
Proof.
  intros Hw. unfold handle_flush.
  destruct (law_flush (storage w) (lo_ok _ _ _ _ (wo_log _ _ Hw))) as (s' & -> & Hok & He).
  eexists. split; [reflexivity|]. split; [|done].
  destruct Hw. split; cbn; try done. by eapply log_same.
Qed.

Lemma stored_map s G blk n : LogOk s G blk n → kv_map s SEQ_BLOCK_KEY = blk.
Proof.
  intros [_ Hm _]. destruct (kv_map s SEQ_BLOCK_KEY) as [v|] eqn:E.
  - apply Hm, image_block in E as [[_ ?]|E]; [done|]. by apply image_none_key in E.
  - destruct blk as [v|]; [|done]. assert (H : kv_map s SEQ_BLOCK_KEY = Some v) by (apply Hm; by constructor). congruence.
Qed.

(** Opening a log, for the first time or after a stop: the segments and the
    sequence block come back from the store. *)
Lemma open_spec now s G b n si :
  LogOk s G (SeqBlock.serialize <$> current_block b) n → block_ok b → n ≤ block_end b →
  ∃ w v, from_storage now s si = Ok (w, v) ∧ WriterOk w G ∧
    (epoch w = 0 ∧ durable_epoch w = 0 ∧ wv_seqnum (written w) = 0) ∧
    block_end (block (sequence_allocator w)) = block_end b ∧
    rv_segments v = mkCache (fst <$> G) si ∧
    LogOk (rv_storage v) G (stored_block (sequence_allocator w)) (next_sequence (block (sequence_allocator w))).
Proof.
  intros Hlog Hbo Hn. unfold from_storage.
  assert (Hload : load (λ k, kv_get now k s) SEQ_BLOCK_KEY =
                  load (get_stored SEQ_BLOCK_KEY (SeqBlock.serialize <$> current_block b)) SEQ_BLOCK_KEY).
  { unfold load, load_block, get_stored. rewrite law_get by apply Hlog. rewrite (stored_map _ _ _ _ Hlog).
    by rewrite bool_decide_true by done. }
  rewrite Hload, load_spec by done. cbn [res_map_err res_bind].
  pose proof Hbo as (Hwf & Hr & Hlt).
  assert (Hlog' : LogOk s G (SeqBlock.serialize <$> current_block b) (block_end b)).
  { destruct Hlog. split; try done. by eapply ghost_mono. }
  destruct (log_snapshot _ _ _ _ Hlog') as (snap & Hs & Hsnap).
  rewrite Hs. cbn [res_map_err res_bind].
  rewrite (cache_open_exact now _ _ _ _ si Hsnap). cbn [res_bind].
  unfold writer_new. rewrite Hs. cbn [res_map_err res_bind].
  eexists _, _. split; [reflexivity|]. split; [|done].
  split; cbn [storage sequence_allocator segment_cache listing_cache written epoch written_epoch last_segment_id block
                current_block next_sequence seq_key segments current_segment_id latest]; try done.
  split; [|done]. unfold block_ok. cbn. split; [done|]. unfold block_end in *. cbn. lia.
Qed.

(** ** Running the log *)
Inductive LogEvent : Type :=
| Append (records : list UserRecord) (timestamp_ms : Z)
| Flush
| Reopen.                              (* stop, and open the log again *)

Definition log_step (si : option Z) (now : Z) (st : LogWriter (S:=S) * list LogEntry) (ev : LogEvent) :
    res Error (LogWriter (S:=S) * list LogEntry) :=
  let '(w, h) := st in
  match ev with
  | Append records ts =>
      let '(w, r) := handle_append now w records ts in
      let? o := res_map_err ErrStorage r in
      Ok (w, h ++ match o with Some base => new_entries base records | None => [] end)
  | Flush => let '(w, r) := handle_flush w in let? _ := res_map_err ErrStorage r in Ok (w, h)
  | Reopen => let? (w, _) := from_storage now (storage w) si in Ok (w, h)
  end.

Fixpoint log_run (si : option Z) (st : LogWriter (S:=S) * list LogEntry) (evs : list (Z * LogEvent)) :
    res Error (LogWriter (S:=S) * list LogEntry) :=
  match evs with
  | [] => Ok st
  | (now, ev) :: evs => let? st := log_step si now st ev in log_run si st evs
  end.

Definition event_ok (ev : Z * LogEvent) : Prop :=
  match ev.2 with Append _ ts => in_i 64 ts | _ => True end.

(** sequence numbers an event can use up *)
Definition event_cost (ev : Z * LogEvent) : Z :=
  match ev.2 with Append records _ => blen records + DEFAULT_BLOCK_SIZE | _ => 0 end.
Definition events_cost (evs : list (Z * LogEvent)) : Z := foldr (λ ev n, event_cost ev + n) 0 evs.

(** the records appended, in order *)
Definition event_records (ev : Z * LogEvent) : list UserRecord :=
  match ev.2 with Append records _ => records | _ => [] end.
Definition appended (evs : list (Z * LogEvent)) : list UserRecord := evs ≫= event_records.
Definition content (h : list LogEntry) : list UserRecord := (λ e, mkUser (le_key e) (le_value e)) <$> h.

Lemma new_entries_content base records : content (new_entries base records) = records.
Proof.
  revert base. induction records as [|[k v] records IH]; intros base; [done|].
  unfold content in *. cbn [new_entries]. by rewrite fmap_cons, IH.
Qed.

Lemma event_cost_nonneg ev : 0 ≤ event_cost ev.
Proof. unfold event_cost, blen, DEFAULT_BLOCK_SIZE. destruct (ev.2); lia. Qed.
Lemma events_cost_nonneg evs : 0 ≤ events_cost evs.
Proof. induction evs as [|ev evs IH]; simpl; [lia|]. pose proof (event_cost_nonneg ev). lia. Qed.

Lemma log_step_spec si now w h G ev :
  WriterOk w G → entries G = h → event_ok (now, ev) →
  block_end (block (sequence_allocator w)) + event_cost (now, ev) < 2 ^ 64 → blen G + 1 < u_max 32 →
  ∃ w' h' G', log_step si now (w, h) ev = Ok (w', h') ∧ WriterOk w' G' ∧ entries G' = h' ∧ content h' = content h ++ event_records (now, ev) ∧
    block_end (block (sequence_allocator w')) ≤ block_end (block (sequence_allocator w)) + event_cost (now, ev) ∧
    blen G' ≤ blen G + 1.
Proof.
  intros Hw Hh Hok Hc Hg. destruct ev as [records ts| |]; cbn [log_step event_cost snd] in *.
  - destruct (decide (records = [])) as [->|Hne].
    { unfold handle_append. rewrite bool_decide_true by done. cbn.
      exists w, (h ++ []), G. rewrite !app_nil_r. pose proof (event_cost_nonneg (now, Append [] ts)).
      split_and!; try done; unfold event_cost, blen, DEFAULT_BLOCK_SIZE in *; cbn in *; lia. }
    unfold event_cost in Hc |- *. cbn [snd] in *.
    destruct (append_spec now w G records ts Hw Hne Hok ltac:(lia) Hg) as (w' & G' & -> & Hw' & He & Hb & Hl & _).
    cbn [res_map_err res_bind]. eexists _, _, G'. split; [reflexivity|].
    split_and!; [done|by rewrite He, Hh| |lia|lia].
    unfold content. rewrite fmap_app. by rewrite (new_entries_content (next_sequence _) records).
  - destruct (flush_spec w G Hw) as (w' & -> & Hw' & Ha & _). cbn [res_map_err res_bind].
    exists w', h, G. rewrite Ha, app_nil_r. split_and!; try done; lia.
  - destruct (wo_alloc _ _ Hw) as [Hbo _].
    destruct (open_spec now (storage w) G (block (sequence_allocator w)) _ si (wo_log _ _ Hw) Hbo) as (w' & v & -> & Hw' & _ & Hb & _).
    { apply Hbo. }
    cbn [res_bind]. exists w', h, G. rewrite app_nil_r. split_and!; try done; lia.
Qed.

Lemma log_run_spec si evs w h G :
  WriterOk w G → entries G = h → Forall event_ok evs →
  block_end (block (sequence_allocator w)) + events_cost evs < 2 ^ 64 → blen G + blen evs < u_max 32 →
  ∃ w' h' G', log_run si (w, h) evs = Ok (w', h') ∧ WriterOk w' G' ∧ entries G' = h' ∧
    content h' = content h ++ appended evs ∧
    block_end (block (sequence_allocator w')) ≤ block_end (block (sequence_allocator w)) + events_cost evs ∧
    blen G' ≤ blen G + blen evs.
Proof.
  revert w h G. induction evs as [|[now ev] evs IH]; intros w h G Hw Hh Hok Hc Hg; [exists w, h, G; rewrite app_nil_r; cbn; unfold blen; simpl; split_and!; try done; lia|].
  apply Forall_cons in Hok as [Hok Hoks]. cbn [events_cost foldr] in Hc. fold (events_cost evs) in Hc.
  pose proof (events_cost_nonneg evs).
  assert (Hl : blen ((now, ev) :: evs) = 1 + blen evs) by (unfold blen; simpl; lia).
  assert (0 ≤ blen evs) by (unfold blen; lia).
  destruct (log_step_spec si now w h G ev Hw Hh Hok ltac:(lia) ltac:(lia)) as (w' & h' & G' & Hs & Hw' & Hh' & Hcon & Hb & HG').
  cbn [log_run]. rewrite Hs. cbn [res_bind].
  destruct (IH w' h' G') as (w2 & h2 & G2 & Hr & Hw2 & Hh2 & Hc2 & Hb2 & HG2); [done..|lia|lia|].
  exists w2, h2, G2. cbn [events_cost foldr]. fold (events_cost evs). split_and!; try done; try lia.
  rewrite Hc2, Hcon. by rewrite <-app_assoc.
Qed.

(** An empty store is an empty log. *)
Lemma log_empty s : kv_ok s → (∀ k, kv_map s k = None) → LogOk s [] None 0.
Proof.
  intros Hok Hn. split; [done| |].
  - intros k v. rewrite Hn. split; [done|].
    intros H. inversion H as [|? ? Hi|? ? ? Hi|? ? ? Hi]; simplify_eq/=; by apply not_elem_of_nil in Hi.
  - split; try done; try (by intros ? ? Hi%not_elem_of_nil); try constructor.
Qed.

(** ** Listing keys *)
Lemma decode_listing_spec recs : ∀ m,
  (∀ r, r ∈ recs → ∃ i k, key r = listing_key_serialize i k ∧ in_u 32 i) → BTreeMap.sorted m →
  ∃ m', decode_listing recs m = Ok m' ∧ BTreeMap.sorted m' ∧
    ∀ k, BTreeMap.get k m' ≠ None ↔
      BTreeMap.get k m ≠ None ∨ ∃ r i, r ∈ recs ∧ in_u 32 i ∧ key r = listing_key_serialize i k.
Proof.
  induction recs as [|r recs IH]; intros m Hr Hm; cbn [decode_listing].
  - exists m. split_and!; [done..|]. intros k. split; [by left|]. intros [?|(? & ? & Hin & _)]; [done|].
    by apply not_elem_of_nil in Hin.
  - destruct (Hr r) as (i & k & Hk & Hi); [left|]. rewrite Hk, listing_key_decode by done. cbn [res_bind].
    destruct (IH (BTreeMap.insert k tt m)) as (m' & -> & Hs & Hg);
      [intros r' Hr'; apply Hr; by right|by apply insert_sorted|].
    exists m'. split_and!; [done..|]. intros k'. rewrite Hg, get_insert. clear Hg. split.
    + intros [H|(r' & j & Hin & Hj & He)]; [|right; exists r', j; split_and!; [by right|done..]].
      case_bool_decide; [subst k'; right; exists r, i; split_and!; [left|done..]|by left].
    + intros [H|(r' & j & [->|Hin]%elem_of_cons & Hj & He)]; [left; by case_bool_decide| |right; by exists r', j].
      left. rewrite Hk in He. assert (H : listing_key_deserialize (listing_key_serialize i k) = Ok (j, k')).
      { rewrite He. by apply listing_key_decode. }
      rewrite listing_key_decode in H by done. by case_bool_decide; simplify_eq.
Qed.

Lemma list_keys_exact now s G blk next lo hi :
  LogOk s G blk next → in_u 32 lo → in_u 32 hi →
  ∃ keys, list_keys now s lo hi = Ok keys ∧ StronglySorted (λ a b, bcmp a b = Lt) keys ∧
    ∀ k, k ∈ keys ↔ ∃ seg es e, (seg, es) ∈ G ∧ lo ≤ seg_id seg < hi ∧ e ∈ es ∧ le_key e = k.
Proof.
  intros [Hok Hm HG] Hlo Hhi. unfold list_keys. case_bool_decide as Hd.
  { exists []. split_and!; [done|constructor|]. intros k. split; [by intros ?%not_elem_of_nil|].
    intros (? & ? & ? & _ & ? & _). lia. }
  destruct (law_scan now (listing_scan_range lo hi) s Hok) as (recs & -> & _ & Hres).
  { unfold BTreeMap.range_panics, listing_scan_range, segment_prefix, blt; cbn [start end_].
    rewrite bcmp_app, (ordered_field_cmp (in_u 32) Z.compare (be_bytes 4)) by done.
    destruct (Z.compare_spec hi lo); try done. lia. }
  cbn [res_map_err res_bind].
  assert (Hrecs : ∀ K v, mkRecord K v ∈ recs ↔
    ∃ seg es e, (seg, es) ∈ G ∧ e ∈ es ∧ lo ≤ seg_id seg < hi ∧ mkRecord K v = listing_record seg e).
  { intros K v. rewrite Hres, Hm. split.
    - intros [Hc Him]. apply image_typed in Him as Ht.
      assert (Hty : ∀ u, typed u K → ListingEntry_ = u).
      { intros u Hu. eapply range_typed; [eexists; reflexivity|eexists; reflexivity|exact Hu|exact Hc]. }
      destruct Ht as [(Ht & _)|[(Ht & _)|[(_ & seg & es & e & Hin & He & Heq)|(Ht & _)]]];
        [by specialize (Hty _ Ht)..| |by specialize (Hty _ Ht)].
      exists seg, es, e. split_and!; try done; injection Heq as -> _;
        apply listing_range_spec in Hc; try done; try (by apply (ghost_segment _ _ _ _ HG Hin)); lia.
    - intros (seg & es & e & Hin & He & Hr & Heq). rewrite Heq. split; [|by eapply im_listing].
      injection Heq as -> _. apply listing_range_spec; try done. by apply (ghost_segment _ _ _ _ HG Hin). }
  destruct (decode_listing_spec recs []) as (m & -> & Hs & Hg); [|constructor|].
  { intros [K v] (seg & es & e & Hin & _ & _ & [= -> _])%Hrecs. exists (seg_id seg), (le_key e). split; [done|].
    by apply (ghost_segment _ _ _ _ HG Hin). }
  cbn [res_bind]. eexists. split; [reflexivity|]. split; [by apply btree_keys_sorted|].
  intros k. rewrite <-btree_elem_get, Hg. cbn. split.
  - intros [?|([K v] & i & (seg & es & e & Hin & He & Hr & [= -> _])%Hrecs & Hi & Heq)]; [done|].
    exists seg, es, e. split_and!; try done; try lia. cbn [key] in Heq.
    assert (Hseg : in_u 32 (seg_id seg)) by (by apply (ghost_segment _ _ _ _ HG Hin)).
    assert (H : listing_key_deserialize (listing_key_serialize (seg_id seg) (le_key e)) = Ok (i, k)).
    { rewrite Heq. by apply listing_key_decode. }
    rewrite listing_key_decode in H by done. by simplify_eq.
  - intros (seg & es & e & Hin & Hr & He & <-). right. exists (listing_record seg e), (seg_id seg).
    split_and!; [|by apply (ghost_segment _ _ _ _ HG Hin)|done]. apply Hrecs. by exists seg, es, e.
Qed.

(** What a reader of the log finds: every scan and every key listing is exact. *)
Definition reads_exact (now : Z) (v : LogReadView (S:=S)) (G : Ghost) : Prop :=
  (∀ k lo hi n, 0 ≤ lo → in_u 64 hi → (length (entries G) < n)%nat →
     drain n now (scan v k lo hi) = Ok (sel k lo hi (entries G))) ∧
  (∀ lo hi, in_u 32 lo → in_u 32 hi → ∃ keys, list_keys now (rv_storage v) lo hi = Ok keys ∧
     StronglySorted (λ a b, bcmp a b = Lt) keys ∧
     ∀ k, k ∈ keys ↔ ∃ seg es e, (seg, es) ∈ G ∧ lo ≤ seg_id seg < hi ∧ e ∈ es ∧ le_key e = k).

Lemma reads_view now s G blk next si :
  LogOk s G blk next → reads_exact now (mkView s (mkCache (fst <$> G) si)) G.
Proof.
  intros Hlog. split.
  - intros k lo hi n Hlo Hhi Hn. eapply scan_view; [done..|].
    pose proof (length_filter (λ e, le_key e = k ∧ lo ≤ le_sequence e < hi) (entries G)).
    unfold sel. lia.
  - intros lo hi Hlo Hhi. by eapply list_keys_exact.
Qed.

(** C4: The log keeps what is appended.  From an empty store, any appends, flushes
    and restarts succeed, and the records appended, in order, are the entries
    of the log, numbered increasingly by the answers of the appends and cut
    into the segments of the writer's cache.  A scan of a key and range then
    yields exactly the entries of that key and range in order, a listing the
    keys of its segments, both on the writer's own view and for a reader that
    opens the published snapshot. *)
Theorem log_keeps_entries (si : option Z) (s0 : S) (now0 : Z) (evs : list (Z * LogEvent)) :
  kv_ok s0 → (∀ k, kv_map s0 k = None) → Forall event_ok evs →
  events_cost evs < 2 ^ 64 → blen evs < u_max 32 →
  ∃ w G, (let? (w, _) := from_storage now0 s0 si in log_run si (w, []) evs) = Ok (w, entries G) ∧
    content (entries G) = appended evs ∧ StronglySorted seq_lt (entries G) ∧
    segments (segment_cache w) = fst <$> G ∧
    ∀ now, reads_exact now (mkView (storage w) (segment_cache w)) G ∧
      ∃ c, cache_open now (wv_snapshot (written w)) si = Ok c ∧
           reads_exact now (mkView (wv_snapshot (written w)) c) G.
Proof.
  intros Hok Hn Hev Hcost Hlen.
  destruct (open_spec now0 s0 [] (mkAllocated None 0) 0 si (log_empty _ Hok Hn)) as (w0 & v0 & -> & Hw0 & _ & Hb0 & _);
    [by split_and!|done|].
  cbn [res_bind].
  destruct (log_run_spec si evs w0 [] [] Hw0 eq_refl Hev) as (w & h & G & -> & Hw & <- & Hcon & _);
    [rewrite Hb0; exact Hcost|exact Hlen|].
  exists w, G. pose proof (wo_cache _ _ Hw) as Hc.
  split_and!; [done|exact Hcon|apply (wo_ghost _ _ Hw)|done|].
  intros now. split.
  - destruct (segment_cache w) as [segs i]. cbn in Hc. subst segs. eapply reads_view, Hw.
  - destruct (wo_written _ _ Hw) as (_ & _ & _ & Hlog).
    exists (mkCache (fst <$> G) si). split; [by eapply cache_open_exact|by eapply reads_view].
Qed.
End reads.

Definition sample_run : list (Z * LogEvent) :=
  [(1, Append [mkUser [x61] [x01]; mkUser [x62] [x02]] 1); (2, Append [mkUser [x61] [x03]] 20);
   (3, Flush); (4, Reopen); (5, Append [mkUser [x61] [x04]] 21)].
Definition sample_log : res Error (LogWriter * list LogEntry) :=
  let? (w, _) := from_storage 0 (InMemory.new None None false) (Some 10) in log_run (Some 10) (w, []) sample_run.

Lemma sample_shape :
  match sample_log with
  | Ok (w, h) => le_sequence <$> h = [0; 1; 2; DEFAULT_BLOCK_SIZE] ∧ length (segments (segment_cache w)) = 2%nat
  | _ => False
  end.
Proof. vm_compute. by split. Qed.

Lemma log_keeps_entries_witness :
  ∃ w G, sample_log = Ok (w, entries G) ∧
    le_sequence <$> entries G = [0; 1; 2; DEFAULT_BLOCK_SIZE] ∧ length G = 2%nat.
Proof.
  destruct (log_keeps_entries (Some 10) (InMemory.new None None false) 0 sample_run)
    as (w & G & Hrun & Hcon & Hsort & Hseg & Hreads).
  - split; [constructor|]. split; [done|]. split; [done|]. reflexivity.
  - reflexivity.
  - repeat constructor; vm_compute; done.
  - vm_compute. done.
  - vm_compute. done.
  - exists w, G. split; [exact Hrun|]. pose proof sample_shape as H.
    unfold sample_log in H. rewrite Hrun in H. by rewrite Hseg, length_fmap in H.
Defined.
End LogSpec.
