(* ===== verification/LogView.v ===== *)
(** * log: read views kept up to date

    A log serves reads from a view, a store snapshot with the segments known in
    it.  A subscriber task follows the writer's published [WrittenView] and
    replaces the view: at once in the mode [Memory], in the mode [Remote] when
    the store reports the write durable, the views waiting in a [ViewTracker].
    A [LogDbReader] in another process refreshes its segments on a timer.

    The watch channels are the values last sent: the subscriber may miss any
    number of them. *)
From S2P Require Import Coordinator.
From S2P Require Import Prelude ByteRange Serde Storage KvStore Sequence LogSerde LogDb LogSpec.

Module LogView.
Import Log LogDb LogSpec.

Inductive ReadVisibility : Type := Memory | Remote.

Section view.
Context {S : Type} `{!KvStore S}.

(** ** view_tracker.rs *)
Record ViewEntry : Type := mkViewEntry {
  ve_seqnum : Z;
  ve_epoch : Z;
  ve_snapshot : S;
  ve_last_segment_id : option Z;
}.

(** the loop of [advance]: the last entry drained, and the entries left *)
Fixpoint advance_loop (durable_seq : Z) (last : option ViewEntry) (pending : list ViewEntry) :
    option ViewEntry * list ViewEntry :=
  match pending with
  | e :: pending' =>
      if bool_decide (ve_seqnum e ≤ durable_seq) then advance_loop durable_seq (Some e) pending'
      else (last, pending)
  | [] => (last, [])
  end.

Definition advance (durable_seq : Z) (pending : list ViewEntry) : option ViewEntry * list ViewEntry :=
  advance_loop durable_seq None pending.

(** ** log.rs: the subscriber tasks *)
Record Subscriber : Type := mkSub {
  read_view : LogReadView (S:=S);
  pending : list ViewEntry;
  known_segment_id : option Z;
  sub_written : Z;                        (* watermarks *)
  sub_durable : Z;
  last_durable_seq : Z;
}.

Definition subscriber_new (view : LogReadView (S:=S)) (initial_segment_id : option Z) (durable_seq : Z) : Subscriber :=
  mkSub view [] initial_segment_id 0 0 durable_seq.

Definition push (sub : Subscriber) (v : WrittenView (S:=S)) : Subscriber :=
  mkSub (read_view sub)
    (pending sub ++ [mkViewEntry (wv_seqnum v) (wv_epoch v) (wv_snapshot v) (wv_last_segment_id v)])
    (known_segment_id sub) (sub_written sub) (sub_durable sub) (last_durable_seq sub).

(** A failing refresh is only logged. *)
Definition try_advance_read_view (now : Z) (sub : Subscriber) (durability : Durability) (through_seq : Z) :
    res Error Subscriber :=
  match advance through_seq (pending sub) with
  | (None, rest) =>
      Ok (mkSub (read_view sub) rest (known_segment_id sub) (sub_written sub) (sub_durable sub) (last_durable_seq sub))
  | (Some advanced, rest) =>
      let rv := mkView (ve_snapshot advanced) (rv_segments (read_view sub)) in
      let? (rv, known) :=
        (if bool_decide (ve_last_segment_id advanced = known_segment_id sub) then Ok (rv, known_segment_id sub)
         else
           match refresh now (rv_storage rv) (rv_segments rv) (known_segment_id sub) with
           | Ok c => Ok (mkView (rv_storage rv) c, ve_last_segment_id advanced)
           | Err _ => Ok (rv, known_segment_id sub)
           | Panic => Panic
           end) in
      Ok (match durability with
          | Written => mkSub rv rest known (ve_epoch advanced) (sub_durable sub) (last_durable_seq sub)
          | Durable | Applied => mkSub rv rest known (sub_written sub) (ve_epoch advanced) (last_durable_seq sub)
          end)
  end.

(** One turn of [spawn_written_subscriber] on the value of the writer's channel. *)
Definition memory_turn (now : Z) (sub : Subscriber) (v : WrittenView (S:=S)) : res Error Subscriber :=
  try_advance_read_view now (push sub v) Written (wv_seqnum v).

(** The first branch of [spawn_durable_subscriber]. *)
Definition remote_turn (now : Z) (sub : Subscriber) (v : WrittenView (S:=S)) : res Error Subscriber :=
  let sub := push sub v in
  try_advance_read_view now
    (mkSub (read_view sub) (pending sub) (known_segment_id sub) (wv_epoch v) (sub_durable sub) (last_durable_seq sub))
    Durable (last_durable_seq sub).

Definition written_changed (mode : ReadVisibility) (now : Z) (sub : Subscriber) (v : WrittenView (S:=S)) :
    res Error Subscriber :=
  match mode with Memory => memory_turn now sub v | Remote => remote_turn now sub v end.

(** The second branch of [spawn_durable_subscriber]. *)
Definition durable_changed (now : Z) (sub : Subscriber) (durable_seq : Z) : res Error Subscriber :=
  try_advance_read_view now
    (mkSub (read_view sub) (pending sub) (known_segment_id sub) (sub_written sub) (sub_durable sub) durable_seq)
    Durable durable_seq.

(** What [sync_reads] waits for, and the watermark it waits on. *)
Definition sync_target (mode : ReadVisibility) (w : LogWriter (S:=S)) : Z :=
  match mode with Remote => durable_epoch w | Memory => written_epoch w end.
Definition visible_epoch (mode : ReadVisibility) (sub : Subscriber) : Z :=
  match mode with Remote => sub_durable sub | Memory => sub_written sub end.

(** ** reader.rs: a turn of the refresh task of [LogDbReader] *)
Definition reader_refresh (now : Z) (v : LogReadView (S:=S)) : res Error (LogReadView (S:=S)) :=
  match refresh now (rv_storage v) (rv_segments v) (seg_id <$> latest (rv_segments v)) with
  | Ok c => Ok (mkView (rv_storage v) c)
  | Err _ => Ok v
  | Panic => Panic
  end.
End view.

(** ** Refreshing *)
Section follow.
Context {S : Type} `{!KvStore S, !KvStoreLaws S}.
Notation Ghost := (list (LogSegment * list LogEntry)).

Definition last_id (G : Ghost) : option Z := seg_id <$> last (fst <$> G).

Lemma prefix_ids G G0 n :
  GhostOk G n → (fst <$> G0) `prefix_of` (fst <$> G) →
  ∃ tl, fst <$> G = (fst <$> G0) ++ tl ∧ Forall (λ s, blen G0 ≤ seg_id s) tl ∧
    Forall (λ s, seg_id s < blen G0) (fst <$> G0) ∧
    last_id G0 = (if decide (G0 = []) then None else Some (blen G0 - 1)).
Proof.
  intros HG [tl Htl]. exists tl.
  assert (Hid : ∀ i s, (fst <$> G) !! i = Some s → seg_id s = Z.of_nat i).
  { intros i s. rewrite list_lookup_fmap. destruct (G !! i) as [[s' es]|] eqn:Hi; [|done]. intros [= <-].
    by apply (go_ids _ _ HG i s' es). }
  split; [done|]. rewrite Htl in Hid. unfold blen. split_and!.
  - apply Forall_lookup. intros i s Hi. rewrite (Hid (length (fst <$> G0) + i)%nat).
    + rewrite length_fmap. lia.
    + rewrite lookup_app_r by lia. by rewrite Nat.add_sub_swap, Nat.sub_diag by lia.
  - apply Forall_lookup. intros i s Hi. rewrite (Hid i) by (by apply lookup_app_l_Some).
    apply lookup_lt_Some in Hi. rewrite length_fmap in Hi. lia.
  - unfold last_id. case_decide as Hd; [by rewrite Hd|].
    rewrite last_lookup, length_fmap. destruct G0 as [|x G0]; [done|]. cbn [length pred].
    destruct ((fst <$> x :: G0) !! length G0) as [s|] eqn:Hs; [|apply lookup_ge_None in Hs; rewrite length_fmap in Hs; simpl in Hs; lia].
    cbn [fmap option_fmap option_map]. rewrite (Hid (length G0) s) by (by apply lookup_app_l_Some). f_equal. lia.
Qed.

(** A refresh from the last known segment finds exactly the missing ones. *)
Lemma refresh_exact now s G blk n G0 si :
  LogOk s G blk n → (fst <$> G0) `prefix_of` (fst <$> G) →
  refresh now s (mkCache (fst <$> G0) si) (last_id G0) = Ok (mkCache (fst <$> G) si).
Proof.
  intros Hlog Hp. pose proof (lo_ghost _ _ _ _ Hlog) as HG.
  destruct (prefix_ids _ _ _ HG Hp) as (tl & Htl & Hge & Hlt & Hl). unfold refresh. rewrite Hl.
  pose proof (ghost_starts_sorted _ _ HG) as Hsort.
  case_decide as Hd.
  - rewrite (scan_segments_exact _ _ _ _ _ 0 Hlog) by (unfold u_max; lia). cbn [res_bind seal_interval].
    subst G0. rewrite filter_all; [by rewrite insert_all_sorted|].
    rewrite Htl. eapply Forall_impl; [exact Hge|]. intros s' H. exact H.
  - assert (Hlen : 0 < blen G0) by (destruct G0; [done|unfold blen; simpl; lia]).
    assert (Hlen' : blen G0 ≤ blen G).
    { apply (f_equal length) in Htl. rewrite length_app, !length_fmap in Htl. unfold blen. lia. }
    pose proof (go_count _ _ HG) as Hcount.
    assert (Hsat : saturating_add 32 (blen G0 - 1) = blen G0) by (unfold saturating_add, u_max in *; lia).
    rewrite Hsat, (scan_segments_exact _ _ _ _ _ _ Hlog) by lia. cbn [res_bind].
    rewrite Htl, filter_app, filter_none, filter_all; [|done|].
    + rewrite Htl in Hsort. cbn [app]. by rewrite insert_all_sorted.
    + eapply Forall_impl; [exact Hlt|]. cbn. intros. lia.
Qed.

Lemma same_last_same_segments G G0 n :
  GhostOk G n → (fst <$> G0) `prefix_of` (fst <$> G) → last_id G = last_id G0 → fst <$> G = fst <$> G0.
Proof.
  intros HG Hp Heq. destruct (prefix_ids _ _ _ HG Hp) as (tl & Htl & _ & _ & H0).
  destruct (prefix_ids _ _ _ HG (reflexivity (fst <$> G))) as (_ & _ & _ & _ & H1).
  rewrite Heq, H0 in H1. destruct tl as [|x tl]; [by rewrite Htl, app_nil_r|]. exfalso.
  assert (Hlen : (length G0 < length G)%nat).
  { apply (f_equal length) in Htl. rewrite length_app, !length_fmap in Htl. simpl in Htl. lia. }
  destruct (decide (G0 = [])), (decide (G = [])); simplify_eq; unfold blen in *; simpl in *; lia.
Qed.

(** So a [LogDbReader] whose store shows another process's appends catches up. *)
Lemma reader_refresh_exact now s G blk n (G0 : Ghost) si :
  LogOk s G blk n → (fst <$> G0) `prefix_of` (fst <$> G) →
  reader_refresh now (mkView s (mkCache (fst <$> G0) si)) = Ok (mkView s (mkCache (fst <$> G) si)).
Proof.
  intros Hlog Hp. pose proof (refresh_exact now s G blk n G0 si Hlog Hp) as H. unfold last_id in H.
  unfold reader_refresh, latest. cbn [rv_storage rv_segments segments]. by rewrite H.
Qed.

(** ** The tracker *)
Lemma advance_spec q pend :
  ∃ drained rest, pend = drained ++ rest ∧ Forall (λ v : ViewEntry (S:=S), ve_seqnum v ≤ q) drained ∧
    advance q pend = (last drained, rest) ∧
    match rest with v :: _ => q < ve_seqnum v | [] => True end.
Proof.
  assert (H : ∀ l0, ∃ drained rest, pend = drained ++ rest ∧ Forall (λ v : ViewEntry (S:=S), ve_seqnum v ≤ q) drained ∧
    advance_loop q (last l0) pend = (last (l0 ++ drained), rest) ∧
    match rest with v :: _ => q < ve_seqnum v | [] => True end).
  { induction pend as [|v pend IH]; intros l0; cbn [advance_loop].
    - exists [], []. rewrite !app_nil_r. split_and!; [done|by apply Forall_nil|done|done].
    - case_bool_decide as Hd.
      + destruct (IH (l0 ++ [v])) as (d & r & -> & Hf & Ha & Hr). rewrite last_snoc, <-app_assoc in Ha.
        exists (v :: d), r. split_and!; [done|by constructor|done|done].
      + exists [], (v :: pend). rewrite ?app_nil_r. split_and!; [done|by apply Forall_nil|done|lia]. }
  destruct (H []) as (d & r & ? & ? & ? & ?). by exists d, r.
Qed.

(** ** Following the writer *)
(** The log at each epoch: the sequence number of its last write and its entries
    by segment. *)
Notation History := (list (Z * Ghost)).

Definition ghost_le (G G' : Ghost) : Prop :=
  (fst <$> G) `prefix_of` (fst <$> G') ∧ entries G `prefix_of` entries G'.

Definition HistOk (H : History) : Prop :=
  ∀ i j p p', H !! i = Some p → H !! j = Some p' → (i ≤ j)%nat → ghost_le p.2 p'.2.

(** snapshot [s] is the log at epoch [e] *)
Definition SnapAt (H : History) (e : Z) (q : Z) (G : Ghost) (s : S) : Prop :=
  0 ≤ e ∧ H !! Z.to_nat e = Some (q, G) ∧ ∃ blk n, LogOk s G blk n.

Definition EntryAt (H : History) (v : ViewEntry (S:=S)) : Prop :=
  ∃ G, SnapAt H (ve_epoch v) (ve_seqnum v) G (ve_snapshot v) ∧ ve_last_segment_id v = last_id G.

Record SubOk (mode : ReadVisibility) (si : option Z) (H : History) (sub : Subscriber (S:=S)) : Prop := {
  so_pending : Forall (EntryAt H) (pending sub);
  so_order : StronglySorted Z.le (visible_epoch mode sub :: (ve_epoch <$> pending sub));
  so_memory : mode = Memory → pending sub = [];
  so_view : ∃ q G, SnapAt H (visible_epoch mode sub) q G (rv_storage (read_view sub)) ∧
    rv_segments (read_view sub) = mkCache (fst <$> G) si ∧ known_segment_id sub = last_id G ∧
    (mode = Remote → visible_epoch mode sub = 0 ∨ q ≤ last_durable_seq sub);
}.

Lemma snap_grow H x e q G s : SnapAt H e q G s → SnapAt (H ++ [x]) e q G s.
Proof. intros (He & Hl & Hs). split_and!; [done|by apply lookup_app_l_Some|done]. Qed.

Lemma sub_grow mode si H x sub : SubOk mode si H sub → SubOk mode si (H ++ [x]) sub.
Proof.
  intros [Hp Ho Hm (q & G & Hs & Hrest)]. split; try done.
  - eapply Forall_impl; [exact Hp|]. intros v (G' & Hv & Hl). exists G'. split; [by apply snap_grow|done].
  - exists q, G. split; [by apply snap_grow|done].
Qed.

Definition durability_of (mode : ReadVisibility) : Durability :=
  match mode with Memory => Written | Remote => Durable end.

(** One attempt to advance keeps the view exact, and moves it to the last
    drained entry. *)
Lemma try_advance_spec mode si now H sub q :
  HistOk H → Forall (EntryAt H) (pending sub) →
  StronglySorted Z.le (visible_epoch mode sub :: (ve_epoch <$> pending sub)) →
  (mode = Memory → Forall (λ v, ve_seqnum v ≤ q) (pending sub)) → (mode = Remote → q = last_durable_seq sub) →
  (∃ q G, SnapAt H (visible_epoch mode sub) q G (rv_storage (read_view sub)) ∧
    rv_segments (read_view sub) = mkCache (fst <$> G) si ∧ known_segment_id sub = last_id G ∧
    (mode = Remote → visible_epoch mode sub = 0 ∨ q ≤ last_durable_seq sub)) →
  ∃ sub', try_advance_read_view now sub (durability_of mode) q = Ok sub' ∧ SubOk mode si H sub' ∧
    last_durable_seq sub' = last_durable_seq sub ∧
    ∃ drained, pending sub = drained ++ pending sub' ∧
      visible_epoch mode sub' = default (visible_epoch mode sub) (last (ve_epoch <$> drained)) ∧
      (Forall (λ v, ve_seqnum v ≤ q) (pending sub) → pending sub' = []).
Proof.
  intros HH Hpend Hord Hmem Hrem (q0 & G0 & (He0 & Hl0 & Hs0) & Hseg & Hknown & Hdur).
  destruct (advance_spec q (pending sub)) as (dr & rest & Hsplit & Hdr & Hadv & Hrest).
  assert (Hall : Forall (λ v, ve_seqnum v ≤ q) (pending sub) → rest = [] ∧ pending sub = dr).
  { intros Hf. rewrite Hsplit in Hf |- *. apply Forall_app in Hf as [_ Hf]. destruct rest as [|v rest].
    - by rewrite app_nil_r.
    - apply Forall_cons in Hf as [Hv _]. lia. }
  unfold try_advance_read_view. rewrite Hadv. rewrite Hsplit in Hpend, Hord.
  apply Forall_app in Hpend as [Hpd Hpr].
  destruct (last dr) as [a|] eqn:Hlast; cycle 1.
  { apply last_None in Hlast as ->. eexists. split; [reflexivity|]. split_and!; [|done|].
    - split; cbn [pending read_view known_segment_id last_durable_seq].
      + done.
      + by destruct mode.
      + intros Hm. by apply Hall, Hmem.
      + exists q0, G0. destruct mode; split_and!; done.
    - exists []. split_and!; [done|by destruct mode|]. intros Hf. by apply Hall. }
  apply last_Some in Hlast as [dr0 ->].
  apply Forall_app in Hpd as [_ [Ha _]%Forall_cons]. destruct Ha as (G & (Hea & Hla & blk & n & Hloga) & Hlid).
  apply Forall_app in Hdr as [_ [Hqa _]%Forall_cons].
  rewrite fmap_app, app_comm_cons in Hord. apply StronglySorted_app_inv in Hord as (Hord1 & Hord2 & Hord3).
  assert (Hle : visible_epoch mode sub ≤ ve_epoch a).
  { apply StronglySorted_inv in Hord1 as [_ Hf]. rewrite fmap_app, Forall_app in Hf.
    destruct Hf as [_ Hf]. by apply Forall_cons in Hf as [Hf _]. }
  assert (Hg : ghost_le G0 G) by (apply (HH _ _ _ _ Hl0 Hla); lia).
  cbn [rv_storage rv_segments]. rewrite Hseg, Hknown, Hlid.
  set (step := if bool_decide (last_id G = last_id G0) then _ else _).
  assert (Hstep : step = Ok (mkView (ve_snapshot a) (mkCache (fst <$> G) si), last_id G)).
  { unfold step. case_bool_decide as Hd.
    - rewrite <-Hd. by rewrite (same_last_same_segments _ _ _ (lo_ghost _ _ _ _ Hloga) (proj1 Hg) Hd).
    - by rewrite (refresh_exact now _ _ _ _ _ si Hloga (proj1 Hg)). }
  rewrite Hstep. cbn [res_bind]. clear step Hstep.
  eexists. split; [reflexivity|].
  assert (Hvis : ∀ d rv, visible_epoch mode (match durability_of mode with
            | Written => mkSub rv rest (last_id G) (ve_epoch a) d (last_durable_seq sub)
            | _ => mkSub rv rest (last_id G) (sub_written sub) (ve_epoch a) (last_durable_seq sub) end) = ve_epoch a)
    by (by destruct mode).
  split_and!; [split| |].
  - by destruct mode.
  - rewrite Hvis. assert (Hr : StronglySorted Z.le (ve_epoch a :: (ve_epoch <$> rest))).
    { constructor; [done|]. apply Forall_forall. intros y Hy. apply Hord3; [|done].
      rewrite fmap_app. right. apply elem_of_app. right. by left. }
    by destruct mode.
  - intros Hm. destruct (Hall (Hmem Hm)) as [-> _]. by destruct mode.
  - exists (ve_seqnum a), G. rewrite Hvis. split_and!.
    + split_and!; [done..|]. exists blk, n. by destruct mode.
    + by destruct mode.
    + by destruct mode.
    + intros Hm. right. specialize (Hrem Hm). destruct mode; [done|]. cbn. lia.
  - by destruct mode.
  - exists (dr0 ++ [a]). rewrite Hvis, fmap_last, last_snoc.
    split_and!; [by destruct mode|done|]. intros Hf. destruct (Hall Hf) as [-> _]. by destruct mode.
Qed.

(** ** Writer and subscriber, interleaved *)
Inductive ViewEvent : Type :=
| VAppend (records : list UserRecord) (timestamp_ms : Z)
| VFlush
| VWritten                        (* the subscriber sees the writer's channel *)
| VDurable (grown : N).           (* the store's durable watermark has grown *)

(** the log at each epoch *)
Notation Logs := (list (Z * list LogEntry)).

Definition view_step (mode : ReadVisibility) (now : Z) (st : LogWriter (S:=S) * Subscriber (S:=S) * Logs)
    (ev : ViewEvent) : res Error (LogWriter (S:=S) * Subscriber (S:=S) * Logs) :=
  let '(w, sub, hs) := st in
  match ev with
  | VAppend records ts =>
      let '(w, r) := handle_append now w records ts in
      let? o := res_map_err ErrStorage r in
      Ok (w, sub, hs ++ match o with
                        | Some base => [(wv_seqnum (written w), default [] (snd <$> last hs) ++ new_entries base records)]
                        | None => []
                        end)
  | VFlush => let '(w, r) := handle_flush w in let? _ := res_map_err ErrStorage r in Ok (w, sub, hs)
  | VWritten => let? sub := written_changed mode now sub (written w) in Ok (w, sub, hs)
  | VDurable d =>
      match mode with
      | Memory => Ok (w, sub, hs)       (* not subscribed *)
      | Remote => let? sub := durable_changed now sub (last_durable_seq sub + Z.of_N d) in Ok (w, sub, hs)
      end
  end.

Fixpoint view_run (mode : ReadVisibility) (st : LogWriter (S:=S) * Subscriber (S:=S) * Logs)
    (evs : list (Z * ViewEvent)) : res Error (LogWriter (S:=S) * Subscriber (S:=S) * Logs) :=
  match evs with
  | [] => Ok st
  | (now, ev) :: evs => let? st := view_step mode now st ev in view_run mode st evs
  end.

Definition log_event (ev : Z * ViewEvent) : Z * LogEvent :=
  (ev.1, match ev.2 with VAppend records ts => Append records ts | _ => Flush end).

Record ViewInv (mode : ReadVisibility) (si : option Z) (w : LogWriter (S:=S)) (sub : Subscriber (S:=S))
    (H : History) : Prop := {
  vi_hist : HistOk H;
  vi_last : ∃ G, last H = Some (wv_seqnum (written w), G) ∧ WriterOk w G;
  vi_epoch : Z.of_nat (length H) = epoch w + 1;
  vi_durable : 0 ≤ durable_epoch w ≤ epoch w;
  vi_sub : SubOk mode si H sub;
}.

Lemma hist_last_entry (H : History) q G (w : LogWriter (S:=S)) :
  last H = Some (q, G) → Z.of_nat (length H) = epoch w + 1 → H !! Z.to_nat (epoch w) = Some (q, G).
Proof. rewrite last_lookup. intros <- Hl. f_equal. lia. Qed.

Lemma hist_snoc H q G q' G' : HistOk H → last H = Some (q, G) → ghost_le G G' → HistOk (H ++ [(q', G')]).
Proof.
  intros HH Hlast [Hle1 Hle2] i j p p' Hi Hj Hij.
  apply lookup_app_Some in Hi as [Hi|[Hgi Hi]], Hj as [Hj|[Hgj Hj]].
  - by apply (HH i j).
  - apply list_lookup_singleton_Some in Hj as [_ <-]. cbn [snd].
    assert (Hp : ghost_le p.2 G).
    { rewrite last_lookup in Hlast. apply (HH _ _ _ _ Hi Hlast). apply lookup_lt_Some in Hi. lia. }
    destruct Hp. split; by etrans.
  - apply lookup_lt_Some in Hj. lia.
  - apply list_lookup_singleton_Some in Hi as [_ <-], Hj as [_ <-]. by split.
Qed.

(** The writer's published view is the log at its epoch. *)
Lemma written_at w H G :
  last H = Some (wv_seqnum (written w), G) → WriterOk w G → Z.of_nat (length H) = epoch w + 1 →
  EntryAt H (mkViewEntry (wv_seqnum (written w)) (wv_epoch (written w)) (wv_snapshot (written w))
                         (wv_last_segment_id (written w))).
Proof.
  intros Hlast Hw Hlen. destruct (wo_written _ _ Hw) as (He & _ & Hl & Hlog). exists G.
  cbn [ve_epoch ve_seqnum ve_snapshot ve_last_segment_id]. rewrite He, Hl, (wo_last _ _ Hw). split; [|done].
  split_and!; [|by apply hist_last_entry|by eexists _, _].
  destruct H; [done|]. simpl in Hlen. lia.
Qed.

Lemma entries_le_epoch H v (w : LogWriter (S:=S)) : EntryAt H v → Z.of_nat (length H) = epoch w + 1 → ve_epoch v ≤ epoch w.
Proof. intros (G & (He & Hl & _) & _) Hlen. apply lookup_lt_Some in Hl. lia. Qed.

(** A turn of the subscriber on the writer's channel. *)
Lemma written_changed_spec mode si now w sub H :
  ViewInv mode si w sub H →
  ∃ sub', written_changed mode now sub (written w) = Ok sub' ∧ SubOk mode si H sub' ∧
    last_durable_seq sub' = last_durable_seq sub ∧
    default (visible_epoch mode sub') (last (ve_epoch <$> pending sub')) = epoch w ∧
    ∀ q, Forall (λ v, ve_seqnum v ≤ q) (pending sub) → wv_seqnum (written w) ≤ q →
      Forall (λ v, ve_seqnum v ≤ q) (pending sub').
Proof.
  intros [HH (G & Hlast & Hw) Hlen _ Hsub].
  pose proof (written_at _ _ _ Hlast Hw Hlen) as Hat. destruct Hsub as [Hp Ho Hm Hv].
  destruct (wo_written _ _ Hw) as (He & _).
  assert (Hord : StronglySorted Z.le (visible_epoch mode sub :: (ve_epoch <$> pending sub) ++ [epoch w])).
  { rewrite app_comm_cons. apply sorted_app; [done|repeat constructor|].
    intros x y Hx ->%list_elem_of_singleton. apply elem_of_cons in Hx as [->|Hx].
    - destruct Hv as (q & G' & (? & Hl & _) & _). apply lookup_lt_Some in Hl. lia.
    - apply list_elem_of_fmap in Hx as (v & -> & Hx). rewrite Forall_forall in Hp. apply (entries_le_epoch H v); auto. }
  unfold written_changed, memory_turn, remote_turn.
  set (v := mkViewEntry (wv_seqnum (written w)) (wv_epoch (written w)) (wv_snapshot (written w))
                        (wv_last_segment_id (written w))) in *.
  set (sub1 := mkSub (read_view sub) (pending sub ++ [v]) (known_segment_id sub)
                 (match mode with Memory => sub_written sub | Remote => wv_epoch (written w) end)
                 (sub_durable sub) (last_durable_seq sub)).
  set (q1 := match mode with Memory => wv_seqnum (written w) | Remote => last_durable_seq sub end).
  assert (Hrun : ∃ sub', try_advance_read_view now sub1 (durability_of mode) q1 = Ok sub' ∧ SubOk mode si H sub' ∧
    last_durable_seq sub' = last_durable_seq sub ∧ ∃ drained, pending sub ++ [v] = drained ++ pending sub' ∧
      visible_epoch mode sub' = default (visible_epoch mode sub1) (last (ve_epoch <$> drained))).
  { destruct (try_advance_spec mode si now H sub1 q1) as (sub' & Hr & Hok & Hd & dr & Hsp & Hvis & _); try done.
    - apply Forall_app. by split; [|constructor].
    - cbn [sub1 pending]. rewrite fmap_app. cbn. rewrite He. by destruct mode.
    - intros Hmem. cbn [sub1 pending]. rewrite (Hm Hmem). unfold q1. destruct mode; by repeat constructor.
    - unfold q1. by destruct mode.
    - destruct Hv as (q & G' & Hv). exists q, G'. by destruct mode.
    - exists sub'. split_and!; try done. by exists dr. }
  destruct Hrun as (sub' & Hr & Hok & Hd & dr & Hsp & Hvis). exists sub'.
  split; [by destruct mode|]. split_and!; try done.
  - destruct (pending sub') as [|x l _] using rev_ind.
    + rewrite app_nil_r in Hsp. cbn. rewrite Hvis, <-Hsp, fmap_last, last_snoc. exact He.
    + rewrite app_assoc in Hsp. apply app_inj_tail in Hsp as [_ <-]. rewrite fmap_last, last_snoc. exact He.
  - intros q Hq Hw1. assert (Hf : Forall (λ v, ve_seqnum v ≤ q) (pending sub ++ [v])) by (apply Forall_app; by repeat constructor).
    rewrite Hsp in Hf. by apply Forall_app in Hf as [_ Hf].
Qed.

Lemma durable_changed_spec si now w sub H q :
  ViewInv Remote si w sub H → last_durable_seq sub ≤ q →
  ∃ sub', durable_changed now sub q = Ok sub' ∧ SubOk Remote si H sub' ∧
    (Forall (λ v, ve_seqnum v ≤ q) (pending sub) →
     visible_epoch Remote sub' = default (visible_epoch Remote sub) (last (ve_epoch <$> pending sub))).
Proof.
  intros [HH _ _ _ [Hp Ho Hm (q0 & G & Hs & Hseg & Hk & Hd)]] Hq. unfold durable_changed.
  destruct (try_advance_spec Remote si now H
    (mkSub (read_view sub) (pending sub) (known_segment_id sub) (sub_written sub) (sub_durable sub) q) q)
    as (sub' & Hr & Hok & _ & dr & Hsp & Hvis & Hf); cbn [pending read_view known_segment_id last_durable_seq]; try done.
  - exists q0, G. split_and!; try done. intros Hmode. destruct (Hd Hmode); [by left|right; lia].
  - exists sub'. split_and!; try done. intros Hall. cbn [pending] in Hsp, Hf. rewrite (Hf Hall), app_nil_r in Hsp.
    rewrite Hsp. exact Hvis.
Qed.

Definition logs (H : History) : Logs := (λ p, (p.1, entries p.2)) <$> H.

Lemma logs_last H : default [] (snd <$> last (logs H)) = default [] (entries <$> (snd <$> last H)).
Proof. unfold logs. rewrite fmap_last. by destruct (last H). Qed.

Lemma flush_same (w w' : LogWriter (S:=S)) e :
  handle_flush w = (w', Ok e) →
  segment_cache w' = segment_cache w ∧ written w' = written w ∧ sequence_allocator w' = sequence_allocator w.
Proof. unfold handle_flush. destruct (kv_flush (storage w)) as [s| |]; intros [= <-]; done. Qed.

Lemma append_durable now (w w' : LogWriter (S:=S)) records ts r :
  handle_append now w records ts = (w', Ok r) → durable_epoch w' = durable_epoch w.
Proof.
  unfold handle_append. case_bool_decide; [by intros [= <- _]|].
  destruct (allocate _ _) as [[base o] alloc], (assign_segment _ _ _ _) as [[[seg b] segs] sp], (assign_new_keys _ _ _) as [l lp].
  unfold write_and_broadcast. cbn [storage]. destruct (kv_put _ _ _) as [[s q]| |]; [|by intros [=]..].
  destruct (kv_snapshot s); [|by intros [=]..]. by intros [= <- _].
Qed.

Lemma view_step_spec mode si now w sub H ev :
  ViewInv mode si w sub H → event_ok (log_event (now, ev)) →
  block_end (block (sequence_allocator w)) + event_cost (log_event (now, ev)) < 2 ^ 64 →
  Z.of_nat (length (default [] (snd <$> last H))) + 1 < u_max 32 → epoch w + 1 < 2 ^ 64 →
  ∃ w' sub' H', view_step mode now (w, sub, logs H) ev = Ok (w', sub', logs H') ∧ ViewInv mode si w' sub' H' ∧
    block_end (block (sequence_allocator w')) ≤
      block_end (block (sequence_allocator w)) + event_cost (log_event (now, ev)) ∧
    (length (default [] (snd <$> last H')) ≤ length (default [] (snd <$> last H)) + 1)%nat ∧
    epoch w' ≤ epoch w + 1.
Proof.
  intros Hinv Hok Hc Hg Hep. pose proof Hinv as [HH (G & Hlast & Hw) Hlen Hdur Hsub].
  rewrite Hlast in Hg. cbn in Hg.
  destruct ev as [records ts| | |d]; unfold log_event in *; cbn [view_step snd fst] in *.
  - destruct (decide (records = [])) as [->|Hne].
    { unfold handle_append. rewrite bool_decide_true by done. cbn [res_map_err res_bind].
      exists w, sub, H. rewrite app_nil_r. pose proof (event_cost_nonneg (now, Append [] ts)).
      split_and!; try done; lia. }
    unfold event_cost in Hc |- *. cbn [snd] in *.
    destruct (append_spec now w G records ts Hw Hne Hok ltac:(lia) Hg)
      as (w' & G' & Ha & Hw' & He & Hb & Hl & Hep' & Hpre).
    pose proof (append_durable _ _ _ _ _ _ Ha) as Hd. rewrite Ha. cbn [res_map_err res_bind].
    assert (0 ≤ epoch w) by (destruct H; [done|simpl in Hlen; lia]).
    rewrite wrap_small in Hep' by (unfold in_u; lia).
    exists w', sub, (H ++ [(wv_seqnum (written w'), G')]). split_and!.
    + f_equal. f_equal. rewrite logs_last, Hlast. unfold logs. rewrite fmap_app. cbn -[entries new_entries]. by rewrite He.
    + split.
      * eapply hist_snoc; [done..|]. split; [done|]. rewrite He. by apply prefix_app_r.
      * exists G'. by rewrite last_snoc.
      * rewrite length_app. simpl. lia.
      * lia.
      * by apply sub_grow.
    + lia.
    + rewrite last_snoc, Hlast. cbn. unfold blen in *. lia.
    + lia.
  - destruct (flush_spec w G Hw) as (w' & Hf & Hw' & Ha & Hde & Hee). rewrite Hf. cbn [res_map_err res_bind].
    destruct (flush_same _ _ _ Hf) as (_ & Hwr & _).
    exists w', sub, H. rewrite Ha. cbn [event_cost snd]. split_and!; try done; try lia.
    split; try done; [|lia|].
    + exists G. by rewrite Hwr.
    + destruct H; [done|]. simpl in Hlen. lia.
  - destruct (written_changed_spec mode si now w sub H Hinv) as (sub' & -> & Hs & _). cbn [res_bind].
    exists w, sub', H. cbn [event_cost snd]. split_and!; try done; try lia. by split; [..|exists G| | |].
  - destruct mode.
    + exists w, sub, H. cbn [event_cost snd]. split_and!; try done; lia.
    + destruct (durable_changed_spec si now w sub H (last_durable_seq sub + Z.of_N d) Hinv) as (sub' & -> & Hs & _); [lia|].
      cbn [res_bind]. exists w, sub', H. cbn [event_cost snd]. split_and!; try done; try lia. by split; [..|exists G| | |].
Qed.

Lemma view_run_spec mode si evs : ∀ w sub H,
  ViewInv mode si w sub H → Forall event_ok (log_event <$> evs) →
  block_end (block (sequence_allocator w)) + events_cost (log_event <$> evs) < 2 ^ 64 →
  Z.of_nat (length (default [] (snd <$> last H))) + blen evs < u_max 32 → epoch w + blen evs < 2 ^ 64 →
  ∃ w' sub' H', view_run mode (w, sub, logs H) evs = Ok (w', sub', logs H') ∧ ViewInv mode si w' sub' H'.
Proof.
  induction evs as [|[now ev] evs IH]; intros w sub H Hinv Hok Hc Hg Hep; [by exists w, sub, H|].
  rewrite fmap_cons in *. apply Forall_cons in Hok as [Hok Hoks]. cbn [events_cost foldr] in Hc.
  fold (events_cost (log_event <$> evs)) in Hc. pose proof (events_cost_nonneg (log_event <$> evs)).
  assert (Hl : blen ((now, ev) :: evs) = 1 + blen evs) by (unfold blen; simpl; lia).
  assert (0 ≤ blen evs) by (unfold blen; lia).
  destruct (view_step_spec mode si now w sub H ev Hinv Hok ltac:(lia) ltac:(lia) ltac:(lia))
    as (w' & sub' & H' & Hs & Hinv' & Hb & HG' & He').
  cbn [view_run]. rewrite Hs. cbn [res_bind]. apply IH; try done; lia.
Qed.

(** The log opened on a store with a past, its writer and its subscriber run. *)
Definition view_session (mode : ReadVisibility) (si : option Z) (s0 : S) (now0 : Z) (past : list (Z * LogEvent))
    (now1 durable0 : Z) (evs : list (Z * ViewEvent)) : res Error (LogWriter (S:=S) * Subscriber (S:=S) * Logs) :=
  let? (w, _) := from_storage now0 s0 si in
  let? (w, h) := log_run si (w, []) past in
  let? (w, v) := from_storage now1 (storage w) si in
  view_run mode (w, subscriber_new v (seg_id <$> latest (rv_segments v)) durable0, [(0, h)]) evs.

Lemma view_session_inv mode si s0 now0 past now1 durable0 evs :
  kv_ok s0 → (∀ k, kv_map s0 k = None) → Forall event_ok past → Forall event_ok (log_event <$> evs) →
  events_cost past + events_cost (log_event <$> evs) < 2 ^ 64 → blen past + blen evs < u_max 32 →
  ∃ w sub H, view_session mode si s0 now0 past now1 durable0 evs = Ok (w, sub, logs H) ∧ ViewInv mode si w sub H.
Proof.
  intros Hok Hn Hpast Hev Hcost Hlen. unfold view_session.
  pose proof (events_cost_nonneg (log_event <$> evs)). pose proof (events_cost_nonneg past).
  assert (0 ≤ blen evs) by (unfold blen; lia). assert (0 ≤ blen past) by (unfold blen; lia).
  destruct (open_spec now0 s0 [] (mkAllocated None 0) 0 si (log_empty _ Hok Hn)) as (w0 & v0 & -> & Hw0 & _ & Hb0 & _);
    [by split_and!|done|]. cbn [res_bind].
  assert (Hb0' : block_end (block (sequence_allocator w0)) = 0) by (rewrite Hb0; reflexivity).
  assert (Hnil : blen (A:=LogSegment * list LogEntry) [] = 0) by reflexivity.
  destruct (log_run_spec si past w0 [] [] Hw0 eq_refl Hpast) as (w1 & h & G & -> & Hw1 & <- & _ & Hb1 & HG1); [lia..|].
  cbn [res_bind]. destruct (wo_alloc _ _ Hw1) as [Hbo _].
  destruct (open_spec now1 (storage w1) G (block (sequence_allocator w1)) _ si (wo_log _ _ Hw1) Hbo)
    as (w & v & -> & Hw & (He & Hde & Hq) & Hb & Hseg & Hlog); [apply Hbo|].
  cbn [res_bind].
  assert (Hinv : ViewInv mode si w (subscriber_new v (seg_id <$> latest (rv_segments v)) durable0)
                   [(wv_seqnum (written w), G)]).
  { assert (Hat : ∀ e, e = 0 → SnapAt [(wv_seqnum (written w), G)] e (wv_seqnum (written w)) G (rv_storage v)).
    { intros e ->. split_and!; [done|done|]. by eexists _, _. }
    split.
    - intros i j p p' Hi Hj _. apply list_lookup_singleton_Some in Hi as [_ <-], Hj as [_ <-]. by split.
    - by exists G.
    - rewrite He. done.
    - lia.
    - split; cbn [pending read_view known_segment_id last_durable_seq subscriber_new].
      + constructor.
      + by destruct mode; repeat constructor.
      + done.
      + exists (wv_seqnum (written w)), G. rewrite Hseg. split_and!; [apply Hat; by destruct mode|done|done|].
        intros _. left. by destruct mode. }
  destruct (view_run_spec mode si evs _ _ _ Hinv Hev) as (w' & sub' & H' & Hr & Hinv'); [lia|cbn; unfold blen in *; lia|rewrite He; unfold u_max in *; lia|].
  exists w', sub', H'. split; [|done]. rewrite <-Hr. unfold logs. cbn -[entries]. by rewrite Hq.
Qed.

(** C19: Reads follow the log.  A log is opened on a store with any past, and its
    writer and its subscriber run in any interleaving, the subscriber missing
    any number of published views.  Then the read view is exact for the log as
    it was at the epoch of the subscriber's watermark, every log of an earlier
    epoch being a prefix of it, so a read that has waited for the epoch of an
    append finds its entries; in the mode [Remote] the view's last write was
    reported durable.  And the wait ends: when the subscriber has seen the
    writer's view (in the mode [Remote], and the store has reported what is
    pending durable), its watermark has reached what [sync_reads] waits for. *)
Theorem read_view_follows (mode : ReadVisibility) (si : option Z) (s0 : S) (now0 : Z) (past : list (Z * LogEvent))
    (now1 durable0 : Z) (evs : list (Z * ViewEvent)) :
  kv_ok s0 → (∀ k, kv_map s0 k = None) → Forall event_ok past → Forall event_ok (log_event <$> evs) →
  events_cost past + events_cost (log_event <$> evs) < 2 ^ 64 → blen past + blen evs < u_max 32 →
  ∃ w sub hs q G,
    view_session mode si s0 now0 past now1 durable0 evs = Ok (w, sub, hs) ∧
    Z.of_nat (length hs) = epoch w + 1 ∧
    hs !! Z.to_nat (visible_epoch mode sub) = Some (q, entries G) ∧
    (∀ now, reads_exact now (read_view sub) G) ∧
    (∀ (e : nat) q' h, hs !! e = Some (q', h) → Z.of_nat e ≤ visible_epoch mode sub → h `prefix_of` entries G) ∧
    (mode = Remote → visible_epoch mode sub = 0 ∨ q ≤ last_durable_seq sub) ∧
    ∀ now d, Forall (λ v, ve_seqnum v ≤ d) (pending sub) → wv_seqnum (written w) ≤ d → last_durable_seq sub ≤ d →
      ∃ sub', (let? sub := written_changed mode now sub (written w) in
               match mode with Memory => Ok sub | Remote => durable_changed now sub d end) = Ok sub' ∧
        sync_target mode w ≤ visible_epoch mode sub'.
Proof.
  intros Hok Hn Hpast Hev Hcost Hlen.
  destruct (view_session_inv mode si s0 now0 past now1 durable0 evs) as (w & sub & H & Hrun & Hinv); [done..|].
  pose proof Hinv as [HH (G & Hlast & Hw) Hl Hdur Hsub].
  destruct (so_view _ _ _ _ Hsub) as (q & Gv & (Hv0 & Hvl & blk & n & Hlog) & Hseg & _ & Hd).
  exists w, sub, (logs H), q, Gv. split_and!; try done.
  - unfold logs. by rewrite length_fmap.
  - unfold logs. by rewrite list_lookup_fmap, Hvl.
  - intros now. destruct (read_view sub) as [st segs]. cbn in Hseg, Hlog. subst segs. by eapply reads_view.
  - intros e q' h. unfold logs. rewrite list_lookup_fmap. destruct (H !! e) as [[q0 G0]|] eqn:He; [|done].
    intros [= <- <-] Hle. apply (HH _ _ _ _ He Hvl). lia.
  - intros now d Hf Hwd Hld.
    destruct (written_changed_spec mode si now w sub H Hinv) as (sub1 & -> & Hs1 & Hd1 & He1 & Hf1).
    cbn [res_bind]. specialize (Hf1 d Hf Hwd).
    destruct (wo_written _ _ Hw) as (_ & Hwe & _). destruct mode.
    + exists sub1. split; [done|]. rewrite (so_memory _ _ _ _ Hs1 eq_refl) in He1. cbn in He1 |- *. lia.
    + assert (Hinv1 : ViewInv Remote si w sub1 H) by (split; try done; by exists G).
      destruct (durable_changed_spec si now w sub1 H d Hinv1) as (sub2 & -> & _ & Hvis); [lia|].
      exists sub2. split; [done|]. rewrite (Hvis Hf1), He1. cbn. lia.
Qed.
End follow.

Lemma read_view_follows_witness :
  ∃ w sub hs,
    view_session Remote (Some 10) (InMemory.new None None false) 0
      [(1, Append [mkUser [x61] [x01]] 1)] 2 0
      [(3, VAppend [mkUser [x61] [x02]] 30); (4, VWritten); (5, VDurable 7); (6, VAppend [mkUser [x62] [x03]] 31)]
      = Ok (w, sub, hs) ∧ length hs = 3%nat ∧ visible_epoch Remote sub = 1.
Proof.
  destruct (read_view_follows Remote (Some 10) (InMemory.new None None false) 0 [(1, Append [mkUser [x61] [x01]] 1)] 2 0
      [(3, VAppend [mkUser [x61] [x02]] 30); (4, VWritten); (5, VDurable 7); (6, VAppend [mkUser [x62] [x03]] 31)])
    as (w & sub & hs & q & G & Hrun & _).
  - split; [constructor|]. split; [done|]. split; [done|]. reflexivity.
  - reflexivity.
  - repeat constructor; vm_compute; done.
  - repeat constructor; vm_compute; done.
  - vm_compute. done.
  - vm_compute. done.
  - exists w, sub, hs. split; [exact Hrun|].
    assert (H : match view_session Remote (Some 10) (InMemory.new None None false) 0
      [(1, Append [mkUser [x61] [x01]] 1)] 2 0
      [(3, VAppend [mkUser [x61] [x02]] 30); (4, VWritten); (5, VDurable 7); (6, VAppend [mkUser [x62] [x03]] 31)]
      with Ok (w, sub, hs) => length hs = 3%nat ∧ visible_epoch Remote sub = 1 | _ => False end)
      by (vm_compute; by split).
    by rewrite Hrun in H.
Defined.
End LogView.
