(* ===== verification/LogFault.v ===== *)
(** * log: an append whose put fails

    [handle_append] puts a new segment into the writer's cache before it writes
    the segment's metadata.  When the put fails the cache keeps the segment, and
    the next append goes on in it without writing the metadata. *)
From S2P Require Import Coordinator.
From S2P Require Import Prelude ByteRange Serde Storage KvStore Sequence LogSerde LogDb LogSpec LogView.

Module LogFault.
Import Log LogDb LogSpec LogView.

Section fault.
Context {S : Type} `{KS : !KvStore S, KL : !KvStoreLaws S}.

(** ** Stores that agree on a range answer its scans alike *)
Lemma scan_agree now r s s' :
  kv_ok s → kv_ok s' → BTreeMap.range_panics r = false →
  (∀ k, contains r k = true → kv_map s' k = kv_map s k) → kv_scan now r s' = kv_scan now r s.
Proof.
  intros Hok Hok' Hr Hag. destruct (law_scan now r s Hok Hr) as (l & -> & Hs & Hl), (law_scan now r s' Hok' Hr) as (l' & -> & Hs' & Hl').
  f_equal. apply (scan_result_unique (kv_map s) r); [|by split]. split; [done|]. intros k v. rewrite Hl'.
  split; intros [Hc Hv]; (split; [done|]); [rewrite <-Hag|rewrite Hag]; done.
Qed.

(** [s'] is [s] but for entries and listings of the segment [i], which has no
    metadata, and the sequence block *)
Definition hidden_segment (i : Z) (s s' : S) : Prop :=
  ∀ k, kv_map s' k = kv_map s k ∨ k = SEQ_BLOCK_KEY ∨ (∃ u, k = listing_key_serialize i u) ∨
    ∃ u r, in_u 64 r ∧ k = entry_key_bytes i u r.

Section hidden.
Context (s s' : S) (G : Ghost) (blk : option bytes) (next : Z).
Context (Hlog : LogOk s G blk next) (Hok' : kv_ok s') (Hh : hidden_segment (blen G) s s').

Lemma hidden_segments now lo :
  0 ≤ lo ≤ u_max 32 → scan_segments now s' lo (u_max 32) = Ok (filter (λ seg, lo ≤ seg_id seg) (fst <$> G)).
Proof.
  intros Hlo. rewrite <-(scan_segments_exact now s G blk next lo Hlog Hlo). unfold scan_segments.
  rewrite (scan_agree now _ s s'); [done|apply Hlog|done|by apply meta_range_ok; unfold in_u, u_max in *; lia|].
  intros k Hc. assert (Hty : ∀ u, typed u k → SegmentMeta_ = u).
  { intros u Hu. eapply range_typed; [apply typed_meta|apply typed_meta|exact Hu|exact Hc]. }
  destruct (Hh k) as [?|[->|[(u & ->)|(u & r & _ & ->)]]]; [done|..]; exfalso.
  - by specialize (Hty _ typed_seq_block).
  - by specialize (Hty _ (typed_listing _ _)).
  - by specialize (Hty _ (typed_entry _ _ _)).
Qed.

Lemma hidden_open now si : cache_open now s' si = Ok (mkCache (fst <$> G) si).
Proof.
  rewrite <-(cache_open_exact now s G blk next si Hlog). unfold cache_open.
  rewrite hidden_segments, (scan_segments_exact now s G blk next 0 Hlog) by (unfold u_max; lia). done.
Qed.

Lemma hidden_entries now seg es k lo hi :
  (seg, es) ∈ G → 0 ≤ lo < hi → in_u 64 hi → start_seq (seg_meta seg) < hi →
  scan_entries now s' seg k lo hi = scan_entries now s seg k lo hi.
Proof.
  intros Hin Hlo Hhi Hst. unfold scan_entries. pose proof (lo_ghost _ _ _ _ Hlog) as HG.
  destruct (ghost_segment _ _ _ _ HG Hin) as (Hid & Hs & _).
  rewrite (scan_agree now _ s s'); [done|apply Hlog|done|by apply entry_range_ok|].
  intros K Hc. assert (Hty : ∀ u, typed u K → LogEntry_ = u).
  { intros u Hu. eapply range_typed; [apply typed_entry|apply typed_entry|exact Hu|exact Hc]. }
  destruct (Hh K) as [?|[->|[(u & ->)|(u & r & Hr & ->)]]]; [done|..]; exfalso.
  - by specialize (Hty _ typed_seq_block).
  - by specialize (Hty _ (typed_listing _ _)).
  - pose proof (go_count _ _ HG). pose proof Hin as [i Hi]%list_elem_of_lookup.
    apply entry_range_spec in Hc as (Hids & _); [|unfold in_u, u_max, blen, saturating_sub in *; try lia; done..].
    rewrite (go_ids _ _ HG _ _ _ Hi) in Hids. apply lookup_lt_Some in Hi. unfold blen in Hids. lia.
Qed.

Definition on_hidden (it : LogIterator (S:=S)) : LogIterator :=
  mkIter s' (it_segments it) (it_key it) (it_lo it) (it_hi it) (it_current it).

(** an iterator over segments that both stores answer alike *)
Definition alike now (it : LogIterator (S:=S)) : Prop :=
  it_storage it = s ∧
  ∀ seg, seg ∈ it_segments it → scan_entries now s' seg (it_key it) (it_lo it) (it_hi it) = scan_entries now s seg (it_key it) (it_lo it) (it_hi it).

Lemma iter_next_alike now fuel it :
  alike now it →
  match iter_next fuel now it with
  | Ok (o, it') => iter_next fuel now (on_hidden it) = Ok (o, on_hidden it') ∧ alike now it'
  | Err e => iter_next fuel now (on_hidden it) = Err e
  | Panic => iter_next fuel now (on_hidden it) = Panic
  end.
Proof.
  revert it. induction fuel as [|fuel IH]; intros it Hal; [done|]. pose proof Hal as [Hs Hseg].
  cbn [iter_next]. cbn [on_hidden it_current it_segments it_key it_lo it_hi it_storage].
  destruct (it_current it) as [cur|].
  - destruct (seg_next _ _ _ _) as [[[e inner]|]| |]; cbn [res_bind]; [done| |done..].
    apply (IH (set_current it (drop 1 (it_segments it)) None)). split; [done|]. cbn. intros seg Hin. apply Hseg.
    destruct (it_segments it); [done|by right].
  - destruct (it_segments it) as [|seg segs] eqn:E; [done|]. rewrite Hs, Hseg by left.
    destruct (scan_entries now s seg _ _ _) as [cur| |]; cbn [res_bind]; [|done..].
    apply (IH (set_current it (seg :: segs) (Some cur))). by split.
Qed.

Lemma drain_alike now fuel it : alike now it → drain fuel now (on_hidden it) = drain fuel now it.
Proof.
  revert it. induction fuel as [|fuel IH]; intros it Hal; [done|]. cbn [drain].
  change (iter_fuel (on_hidden it)) with (iter_fuel it). pose proof (iter_next_alike now (iter_fuel it) it Hal) as H.
  destruct (iter_next (iter_fuel it) now it) as [[o it']| |]; [destruct H as [-> Hal']|by rewrite H..].
  cbn [res_bind]. destruct o; [|done]. by rewrite IH.
Qed.

(** A reader of [s'] finds the entries of [s]. *)
Lemma hidden_scan now si k lo hi fuel :
  0 ≤ lo → in_u 64 hi → (length (entries G) < fuel)%nat →
  drain fuel now (scan (mkView s' (mkCache (fst <$> G) si)) k lo hi) = Ok (sel k lo hi (entries G)).
Proof.
  intros Hlo Hhi Hf.
  rewrite <-(proj1 (reads_view now s G blk next si Hlog) k lo hi fuel Hlo Hhi Hf).
  apply (drain_alike now fuel (scan (mkView s (mkCache (fst <$> G) si)) k lo hi)). split; [done|].
  unfold scan, iter_open. cbn [it_segments it_key it_lo it_hi rv_segments]. intros seg Hin.
  destruct (decide (hi ≤ lo)) as [Hle|Hgt].
  { unfold find_covering in Hin. rewrite bool_decide_true in Hin by done. by apply not_elem_of_nil in Hin. }
  destruct (covering _ _ k lo hi si (lo_ghost _ _ _ _ Hlog)) as (L & Hcov & HL & Hst & _); [lia|done|].
  rewrite Hcov in Hin. apply list_elem_of_fmap in Hin as ([seg' es] & -> & Hin). rewrite Forall_forall in Hst.
  apply (hidden_entries now seg' es); [by apply HL|lia|done|by apply (Hst (seg', es))].
Qed.
End hidden.

(** ** The two appends *)
(** the store at a moment when its puts fail *)
Definition put_fails (err : StorageError) : KvStore S := {|
  kv_put _ _ _ := Err err;
  kv_apply := kv_apply;
  kv_get := kv_get;
  kv_scan := kv_scan;
  kv_flush := kv_flush;
  kv_snapshot := kv_snapshot;
|}.

Section appends.
Context (err : StorageError) (now1 now2 : Z) (w : LogWriter (S:=S)) (G : Ghost).
Context (r1 r2 : list UserRecord) (ts1 ts2 : Z) (Hw : WriterOk w G) (Hr1 : r1 ≠ []) (Hr2 : r2 ≠ []).
Context (Hcap : block_end (block (sequence_allocator w)) + (blen r1 + DEFAULT_BLOCK_SIZE) + (blen r2 + DEFAULT_BLOCK_SIZE) < 2 ^ 64).
Context (Hroll : should_roll (seal_interval (segment_cache w)) ts1 (latest (segment_cache w)) = true).

(** the segment the failed append starts *)
Definition orphan : LogSegment :=
  mkSegment (blen (segments (segment_cache w))) (mkMeta (next_sequence (block (sequence_allocator w))) ts1).
Context (Hstay : should_roll (seal_interval (segment_cache w)) ts2 (Some orphan) = false).

Lemma orphan_assigned :
  ∃ puts, assign_segment (segment_cache w) ts1 (next_sequence (block (sequence_allocator w))) false =
      (orphan, true, mkCache (segments (segment_cache w) ++ [orphan]) (seal_interval (segment_cache w)), puts).
Proof.
  destruct (assign_segment (segment_cache w) ts1 _ false) as [[[seg b] c] puts] eqn:Es. exists puts.
  assert (Hb : b = true).
  { unfold assign_segment, latest in *. destruct (last (segments (segment_cache w))) as [sg|]; [|by injection Es].
    cbn [orb] in Es. rewrite Hroll in Es. by injection Es. }
  destruct (assign_segment_spec _ _ _ _ _ _ _ _ (wo_cache _ _ Hw) (wo_ghost _ _ Hw) Es) as [Hsi Hs]. rewrite Hb in Hs.
  destruct Hs as (Hseg & Hc & _). unfold orphan. rewrite (wo_cache _ _ Hw). unfold blen in *. rewrite length_fmap, <-Hseg, <-Hc, <-Hsi, Hb.
  by destruct c.
Qed.

(** The append fails, and the segment stays in the cache. *)
Lemma append_fails :
  ∃ alloc listing, @handle_append S (put_fails err) now1 w r1 ts1 =
    (mkWriter (storage w) alloc (mkCache (segments (segment_cache w) ++ [orphan]) (seal_interval (segment_cache w))) listing
       (epoch w) (written w) (written_epoch w) (durable_epoch w) (last_segment_id w), Err err) ∧
    block_ok (block alloc) ∧ seq_key alloc = SEQ_BLOCK_KEY ∧
    next_sequence (block alloc) = next_sequence (block (sequence_allocator w)) + blen r1 ∧
    block_end (block alloc) ≤ block_end (block (sequence_allocator w)) + blen r1 + DEFAULT_BLOCK_SIZE.
Proof.
  destruct (wo_alloc _ _ Hw) as [Hbo Hkey]. unfold blen, DEFAULT_BLOCK_SIZE in *.
  assert (Hlen : 0 < blen r1) by (destruct r1; [done|unfold blen; simpl; lia]).
  destruct (allocate (blen r1) (sequence_allocator w)) as [[base record] alloc] eqn:Ea.
  destruct (allocate_spec _ _ _ _ _ Hbo (Z.lt_le_incl _ _ Hlen) ltac:(unfold blen, DEFAULT_BLOCK_SIZE; lia) Ea)
    as (Hk & Hbo' & -> & Hn & Hend & _).
  destruct orphan_assigned as (puts & Hs).
  destruct (assign_new_keys (listing_cache w) (seg_id orphan) (u_key <$> r1)) as [listing lputs] eqn:El.
  exists alloc, listing. unfold blen, DEFAULT_BLOCK_SIZE in *. split_and!; [|done|congruence|done|lia].
  unfold handle_append, blen. rewrite bool_decide_false by lia. rewrite Ea, Hs, El. unfold write_and_broadcast. done.
Qed.

Lemma orphan_id : seg_id orphan = blen G.
Proof. unfold orphan, blen. cbn [seg_id]. by rewrite (wo_cache _ _ Hw), length_fmap. Qed.

(** what an append into the orphan puts: entries, listings, perhaps a sequence block *)
Definition orphan_put (new : list LogEntry) (p : Record_ * Ttl) : Prop :=
  p.2 = NoExpiry ∧
  (key p.1 = SEQ_BLOCK_KEY ∨ (∃ u, key p.1 = listing_key_serialize (seg_id orphan) u) ∨ ∃ e, e ∈ new ∧ p.1 = entry_record orphan e).

Lemma orphan_puts_map base puts m :
  start_seq (seg_meta orphan) ≤ base → base + blen r2 ≤ 2 ^ 64 → 0 ≤ start_seq (seg_meta orphan) →
  (∀ p, p ∈ puts → orphan_put (new_entries base r2) p) →
  (∀ e, e ∈ new_entries base r2 → (entry_record orphan e, NoExpiry) ∈ puts) →
  (∀ k, map_puts m puts k = m k ∨ k = SEQ_BLOCK_KEY ∨ (∃ u, k = listing_key_serialize (seg_id orphan) u) ∨
     ∃ u r, in_u 64 r ∧ k = entry_key_bytes (seg_id orphan) u r) ∧
  ∀ e, e ∈ new_entries base r2 → map_puts m puts (key (entry_record orphan e)) = Some (le_value e).
Proof.
  intros Hb Hmax Hst Hputs Hnew. destruct (new_entries_range base r2) as [Hrange Hsort]. rewrite Forall_forall in Hrange.
  assert (Hrel : ∀ e, e ∈ new_entries base r2 → in_u 64 (rel orphan e)).
  { intros e He. specialize (Hrange e He). unfold in_u, rel. lia. }
  assert (Hid : in_u 32 (seg_id orphan)).
  { rewrite orphan_id. pose proof (go_count _ _ (wo_ghost _ _ Hw)). unfold in_u, u_max, blen in *. lia. }
  split.
  - intros k. destruct (map_puts_elem m puts k) as [[Hk _]|(v & ttl & Hp & _)]; [by left|right].
    destruct (Hputs _ Hp) as [_ [Hk|[Hk|(e & He & Hk)]]]; cbn [fst key] in Hk; [by left|by right; left|].
    right; right. injection Hk as -> _. exists (le_key e), (rel orphan e). auto.
  - intros e He. destruct (map_puts_elem m puts (key (entry_record orphan e))) as [[_ Hno]|(v & ttl & Hp & Hv)].
    + rewrite Forall_forall in Hno. by destruct (Hno _ (Hnew e He)).
    + rewrite Hv. destruct (Hputs _ Hp) as [_ [Hk|[(u & Hk)|(e' & He' & Hk)]]]; cbn [fst key entry_record] in Hk.
      * by pose proof (typed_inj _ _ _ (typed_entry _ _ _) ltac:(rewrite Hk; apply typed_seq_block)).
      * by pose proof (typed_inj _ _ _ (typed_entry _ _ _) ltac:(rewrite Hk; apply typed_listing)).
      * injection Hk as Hk ->. apply entry_key_inj in Hk as (_ & _ & Hrr);
          [|exact Hid|exact Hid|by apply Hrel|by apply Hrel].
        f_equal. f_equal. symmetry. apply (sorted_seq_inj (new_entries base r2)); [done..|]. unfold rel in Hrr. lia.
Qed.

(** The next append is acknowledged and writes everything but the segment's metadata. *)
Lemma append_after_failure :
  ∃ w1 w2, @handle_append S (put_fails err) now1 w r1 ts1 = (w1, Err err) ∧
    handle_append now2 w1 r2 ts2 = (w2, Ok (Some (start_seq (seg_meta orphan) + blen r1))) ∧
    wv_last_segment_id (written w2) = last_segment_id w ∧
    kv_ok (storage w2) ∧ hidden_segment (seg_id orphan) (storage w) (storage w2) ∧
    kv_ok (wv_snapshot (written w2)) ∧ (∀ k, kv_map (wv_snapshot (written w2)) k = kv_map (storage w2) k) ∧
    ∀ e, e ∈ new_entries (start_seq (seg_meta orphan) + blen r1) r2 →
      kv_map (storage w2) (key (entry_record orphan e)) = Some (le_value e).
Proof.
  destruct append_fails as (alloc & listing & Hf & Hbo & Hkey & Hnext & Hend). eexists.
  set (base := start_seq (seg_meta orphan) + blen r1).
  assert (Hlen : 0 < blen r2) by (destruct r2; [done|unfold blen; simpl; lia]).
  assert (Hst : 0 ≤ start_seq (seg_meta orphan)) by apply (wo_alloc _ _ Hw).
  assert (Hlen1 : 0 ≤ blen r1) by (unfold blen; lia).
  destruct (allocate (blen r2) alloc) as [[base2 record] alloc2] eqn:Ea.
  destruct (allocate_spec _ _ _ _ _ Hbo (Z.lt_le_incl _ _ Hlen) ltac:(lia) Ea) as (Hk2 & Hbo2 & Hb2 & Hn2 & Hend2 & Hrec).
  rewrite Hnext in Hb2. change (base2 = base) in Hb2. subst base2.
  destruct (assign_new_keys listing (seg_id orphan) (u_key <$> r2)) as [listing2 lputs] eqn:El.
  assert (Hmax : base + blen r2 ≤ 2 ^ 64) by (destruct Hbo2 as (_ & ? & ?); lia).
  assert (Hadd : add_entries orphan base r2 = (λ e, (entry_record orphan e, NoExpiry)) <$> new_entries base r2)
    by (apply add_entries_spec; unfold base; lia).
  set (puts := match record with Some r => [(r, NoExpiry)] | None => [] end ++ [] ++ lputs ++ ((λ e, (entry_record orphan e, NoExpiry)) <$> new_entries base r2)).
  assert (Hputs : ∀ p, p ∈ puts → orphan_put (new_entries base r2) p).
  { intros p. unfold puts. rewrite !elem_of_app, list_elem_of_fmap. intros [Hp|[Hp|[Hp|(e & -> & He)]]].
    - destruct record as [r|]; [|by apply not_elem_of_nil in Hp]. apply list_elem_of_singleton in Hp as ->. split; [done|left].
      destruct Hrec as (Hk & _). cbn. congruence.
    - by apply not_elem_of_nil in Hp.
    - unfold assign_new_keys in El. destruct (assign_keys _ _ _) as [seen recs] eqn:Ek. injection El as <- <-.
      destruct (proj1 (assign_keys_spec _ _ _ _ _ Ek) p Hp) as (Ht & u & _ & Hu). split; [done|right; left]. exists u. by rewrite Hu.
    - split; [done|right; right]. by exists e. }
  destruct (orphan_puts_map base puts (kv_map (storage w)) ltac:(unfold base; lia) Hmax Hst Hputs) as [Hother Hent].
  { intros e He. unfold puts. rewrite !elem_of_app, list_elem_of_fmap. right; right; right. by exists e. }
  destruct (law_put now2 puts (storage w) (lo_ok _ _ _ _ (wo_log _ _ Hw))) as (s' & n & Hput & Hok' & Hmap).
  { apply Forall_forall. intros p Hp. left. by apply Hputs. }
  destruct (law_snapshot s' Hok') as (snap & Hsnap & Hsok & Hsm).
  eexists. split; [exact Hf|]. split.
  { unfold handle_append. rewrite bool_decide_false by lia. cbn [sequence_allocator segment_cache listing_cache]. rewrite Ea.
    unfold assign_segment, latest. cbn [segments seal_interval]. rewrite last_snoc. cbn [orb]. rewrite Hstay, El, Hadd. fold puts.
    unfold write_and_broadcast. cbn [storage]. rewrite Hput, Hsnap. reflexivity. }
  cbn [written wv_last_segment_id wv_snapshot storage last_segment_id]. split_and!; try done.
  - intros k. rewrite Hmap. apply Hother.
  - intros e He. rewrite Hmap. by apply Hent.
Qed.
End appends.

(** C27: An append that starts a new segment and whose put fails leaves the
    segment in the writer's cache.  After any appends, flushes and restarts,
    such a failed append, and then an append that the seal interval keeps in
    the same segment: the second append is acknowledged with the numbers after those of
    the first, its entries are in the store and flushed, but no metadata of the
    segment is, and no new segment is announced.  A reader that opens the store or
    the published snapshot finds in every scan only the entries from before:
    the acknowledged entries are lost. *)
Theorem failed_append_hides_next (si : option Z) (s0 : S) (now0 now1 now2 : Z) (evs : list (Z * LogEvent)) (w : LogWriter)
    (h : list LogEntry) (err : StorageError) (r1 r2 : list UserRecord) (ts1 ts2 : Z) :
  let seg := orphan w ts1 in
  let base := start_seq (seg_meta seg) + blen r1 in
  kv_ok s0 → (∀ k, kv_map s0 k = None) → Forall event_ok evs → blen evs < u_max 32 →
  events_cost (evs ++ [(now1, Append r1 ts1); (now2, Append r2 ts2)]) < 2 ^ 64 →
  (let? (w, _) := from_storage now0 s0 si in log_run si (w, []) evs) = Ok (w, h) → r1 ≠ [] → r2 ≠ [] →
  should_roll (seal_interval (segment_cache w)) ts1 (latest (segment_cache w)) = true →
  should_roll (seal_interval (segment_cache w)) ts2 (Some seg) = false →
  ∃ w1 w2 w3, @handle_append S (put_fails err) now1 w r1 ts1 = (w1, Err err) ∧
    handle_append now2 w1 r2 ts2 = (w2, Ok (Some base)) ∧ handle_flush w2 = (w3, Ok (epoch w2)) ∧
    (∀ e, e ∈ new_entries base r2 → kv_map (storage w3) (key (entry_record seg e)) = Some (le_value e)) ∧
    wv_last_segment_id (written w3) = last_segment_id w ∧
    ∀ s', s' = storage w3 ∨ s' = wv_snapshot (written w3) → ∀ now, ∃ c, cache_open now s' si = Ok c ∧
      ∀ k lo hi n, 0 ≤ lo → in_u 64 hi → (length h < n)%nat → drain n now (scan (mkView s' c) k lo hi) = Ok (sel k lo hi h).
Proof.
  intros seg base Hok Hn Hev Hlen Hcost Hrun Hr1 Hr2 Hroll Hstay.
  destruct (open_spec now0 s0 [] (mkAllocated None 0) 0 si (log_empty _ Hok Hn)) as (w0 & v0 & Hopen & Hw0 & _ & Hb0 & _);
    [by split_and!|done|]. rewrite Hopen in Hrun. cbn [res_bind] in Hrun.
  assert (Happ : events_cost (evs ++ [(now1, Append r1 ts1); (now2, Append r2 ts2)]) =
    events_cost evs + (blen r1 + DEFAULT_BLOCK_SIZE) + (blen r2 + DEFAULT_BLOCK_SIZE)).
  { clear. induction evs as [|ev evs IH]; cbn [app events_cost foldr event_cost snd]; [|unfold events_cost in IH; rewrite IH]; lia. }
  destruct (log_run_spec si evs w0 [] [] Hw0 eq_refl Hev) as (w' & h' & G & Hrun' & Hw & Hh & _ & Hb & _);
    [rewrite Hb0; unfold blen, DEFAULT_BLOCK_SIZE, block_end in *; cbn; lia|unfold blen; cbn; exact Hlen|].
  rewrite Hrun in Hrun'. injection Hrun' as <- <-.
  destruct (append_after_failure err now1 now2 w G r1 r2 ts1 ts2 Hw Hr1 Hr2) as (w1 & w2 & H1 & H2 & Hlast & Hok2 & Hhid & Hsok & Hsm & Hent);
    [rewrite Hb0 in Hb; unfold block_end in Hb at 2; cbn in Hb; lia|done..|].
  destruct (law_flush (storage w2) Hok2) as (s3 & Hfl & Hok3 & Hm3).
  eexists w1, w2, _. split_and!; [exact H1|exact H2|unfold handle_flush; by rewrite Hfl| |exact Hlast|]; cbn [storage written].
  { intros e He. rewrite Hm3. by apply Hent. }
  rewrite (orphan_id w G ts1 Hw) in Hhid. intros s' Hs' now. exists (mkCache (fst <$> G) si).
  assert (Hall : kv_ok s' ∧ hidden_segment (blen G) (storage w) s').
  { destruct Hs' as [-> | ->]; (split; [done|]); intros k; [rewrite Hm3|rewrite Hsm]; apply Hhid. }
  destruct Hall as [Hok' Hhid']. split; [by eapply hidden_open; [apply Hw|..]|].
  intros k lo hi n Hlo Hhi Hf. rewrite <-Hh in *. by eapply hidden_scan; [apply Hw|..].
Qed.
End fault.

(** two appends, a restart; then the failure, with a seal interval of 10 *)
Definition failing_run : list (Z * LogEvent) := [(1, Append [mkUser [x61] [x01]] 1); (2, Flush); (3, Reopen)].
Definition failing_log : res Error (LogWriter * list LogEntry) :=
  let? (w, _) := from_storage 0 (InMemory.new None None false) (Some 10) in log_run (Some 10) (w, []) failing_run.

Lemma failed_append_hides_next_witness :
  ∃ w h w1 w2, failing_log = Ok (w, h) ∧
    @handle_append _ (put_fails StorageErr_Internal) 4 w [mkUser [x61] [x02]] 20 = (w1, Err StorageErr_Internal) ∧
    handle_append 5 w1 [mkUser [x61] [x03]] 21 = (w2, Ok (Some 4097)) ∧ h = [mkEntry [x61] 0 [x01]] ∧
    ∃ c, cache_open 6 (wv_snapshot (written w2)) (Some 10) = Ok c ∧
      drain 5 6 (scan (mkView (wv_snapshot (written w2)) c) [x61] 0 (u_max 64)) = Ok h.
Proof.
  destruct failing_log as [[w h]| |] eqn:E; [|by vm_compute in E..].
  assert (Hh : h = [mkEntry [x61] 0 [x01]]) by (vm_compute in E; by injection E as _ <-).
  destruct (failed_append_hides_next (Some 10) (InMemory.new None None false) 0 4 5 failing_run w h StorageErr_Internal
    [mkUser [x61] [x02]] [mkUser [x61] [x03]] 20 21) as (w1 & w2 & w3 & H1 & H2 & H3 & _ & _ & Hread).
  - split; [constructor|]. split; [done|]. split; [done|]. reflexivity.
  - reflexivity.
  - repeat constructor; vm_compute; done.
  - vm_compute. done.
  - vm_compute. done.
  - exact E.
  - done.
  - done.
  - vm_compute in E. injection E as <- _. vm_compute. reflexivity.
  - vm_compute in E. injection E as <- _. vm_compute. reflexivity.
  - exists w, h, w1, w2. split; [done|]. split; [exact H1|]. split.
    { rewrite H2. do 3 f_equal. vm_compute in E. injection E as <- _. vm_compute. reflexivity. }
    split; [exact Hh|]. assert (Hw : written w3 = written w2) by (unfold handle_flush in H3; destruct (kv_flush _); by inversion H3).
    rewrite <-Hw. destruct (Hread (wv_snapshot (written w3)) (or_intror eq_refl) 6) as (c & Hc & Hscan). exists c. split; [exact Hc|].
    rewrite Hscan; [|done|done|subst h; simpl; lia]. by subst h.
Defined.

(** ** The readers of the running log *)
(** The in-memory store, with a put at time 2 failing. *)
Record Flaky : Type := mkFlaky { inner : InMemory.t }.

#[local] Instance flaky_store : KvStore Flaky := {
  kv_put now recs s :=
    if bool_decide (now = 2) then Err StorageErr_Internal
    else let? (s', n) := kv_put now recs (inner s) in Ok (mkFlaky s', n);
  kv_apply now ops s := let? (s', n) := kv_apply now ops (inner s) in Ok (mkFlaky s', n);
  kv_get now k s := kv_get now k (inner s);
  kv_scan now r s := kv_scan now r (inner s);
  kv_flush s := let? s' := kv_flush (inner s) in Ok (mkFlaky s');
  kv_snapshot s := Ok s;
}.

(** neither this log's readers nor a log opened later find the acknowledged entry *)
Example failed_append_live_readers :
  match from_storage 1 (mkFlaky (InMemory.new None None false)) None with
  | Ok (w0, v) =>
      let '(w1, r1) := handle_append 2 w0 [mkUser [x61] [x01]] 0 in
      let '(w2, r2) := handle_append 3 w1 [mkUser [x61] [x02]] 0 in
      let '(w3, r3) := handle_flush w2 in
      r1 = Err StorageErr_Internal ∧ r2 = Ok (Some 1) ∧ r3 = Ok 1 ∧
      match written_changed Memory 4 (subscriber_new v None 0) (written w3) with
      | Ok sub => visible_epoch Memory sub = sync_target Memory w3 ∧
                  drain 5 4 (scan (read_view sub) [x61] 0 (u_max 64)) = Ok []
      | _ => False
      end ∧
      match from_storage 5 (storage w3) None with
      | Ok (_, v) => drain 5 5 (scan v [x61] 0 (u_max 64)) = Ok []
      | _ => False
      end ∧
      match kv_scan 5 unbounded (storage w3) with
      | Ok recs => (value <$> recs) = [[x02]]
      | _ => False
      end
  | _ => False
  end.
Proof. vm_compute. by split_and!. Qed.
End LogFault.
