(* ===== verification/SortBy.v ===== *)
(** * [slice::sort_by] and [Vec::dedup_by]

    The stable sort of the standard library as insertion sort, and the removal
    of consecutive equal elements, with what the code relies on. *)
From S2P Require Import Prelude.

Section sort.
Context {A : Type} (le : A → A → bool).

Fixpoint insert_by (x : A) (l : list A) : list A :=
  match l with
  | [] => [x]
  | y :: l => if le x y then x :: y :: l else y :: insert_by x l
  end.

(** [l.sort_by(..)], [le x y] when the comparison of [x] and [y] is not [Greater] *)
Definition sort_by (l : list A) : list A := foldr insert_by [] l.

Lemma insert_by_perm x l : insert_by x l ≡ₚ x :: l.
Proof.
  induction l as [|y l IH]; simpl; [done|]. destruct (le x y); [done|]. by rewrite IH, Permutation_swap.
Qed.

Lemma sort_by_perm l : sort_by l ≡ₚ l.
Proof. induction l as [|x l IH]; [done|]. simpl. by rewrite insert_by_perm, IH. Qed.

Context (le_total : ∀ x y, le x y = false → le y x = true).
Context (le_trans : ∀ x y z, le x y = true → le y z = true → le x z = true).

Lemma insert_by_sorted x l :
  StronglySorted (λ a b, le a b = true) l → StronglySorted (λ a b, le a b = true) (insert_by x l).
Proof.
  induction 1 as [|y l Hl IH Hy]; simpl; [by repeat constructor|]. destruct (le x y) eqn:E.
  - constructor; [by constructor|]. constructor; [done|]. eapply Forall_impl; [exact Hy|]. intros z. by apply le_trans.
  - constructor; [done|]. rewrite insert_by_perm. constructor; [by apply le_total|done].
Qed.

Lemma sort_by_sorted l : StronglySorted (λ a b, le a b = true) (sort_by l).
Proof. induction l as [|x l IH]; [constructor|]. by apply insert_by_sorted. Qed.

(** elements that are not tied may be inserted in any order *)
Lemma insert_by_comm x y l : le x y = false → insert_by x (insert_by y l) = insert_by y (insert_by x l).
Proof.
  intros Hxy. pose proof (le_total _ _ Hxy) as Hyx.
  induction l as [|z l IH]; simpl; [by rewrite Hxy, Hyx|].
  destruct (le y z) eqn:Hy, (le x z) eqn:Hx; simpl; rewrite ?Hxy, ?Hyx, ?Hx, ?Hy; simpl; rewrite ?Hx, ?IH;
    try done.
  by rewrite (le_trans _ _ _ Hyx Hx) in Hy.
Qed.

Lemma foldr_insert s x l : foldr insert_by s (insert_by x l) = insert_by x (foldr insert_by s l).
Proof.
  induction l as [|y l IH]; simpl; [done|]. destruct (le x y) eqn:E; simpl; [done|].
  by rewrite IH, (insert_by_comm x y).
Qed.

(** Stability: sorting a part of the list beforehand changes nothing. *)
Lemma sort_by_presorted a b : sort_by (sort_by a ++ b) = sort_by (a ++ b).
Proof.
  unfold sort_by. rewrite !foldr_app. generalize (foldr insert_by [] b) as s. intros s.
  induction a as [|x a IH]; [done|]. simpl. by rewrite foldr_insert, IH.
Qed.
End sort.

(** sorting commutes with a map that keeps the order *)
Lemma sort_by_fmap {A B} (le : A → A → bool) (le' : B → B → bool) (f : A → B) (l : list A) :
  (∀ x y, x ∈ l → y ∈ l → le x y = le' (f x) (f y)) → f <$> sort_by le l = sort_by le' (f <$> l).
Proof.
  induction l as [|x l IH]; intros H; [done|].
  change (f <$> insert_by le x (sort_by le l) = insert_by le' (f x) (sort_by le' (f <$> l))).
  rewrite <-IH by (intros; apply H; by right).
  assert (Hs : ∀ y, y ∈ sort_by le l → le x y = le' (f x) (f y)).
  { intros y Hy. rewrite sort_by_perm in Hy. apply H; [left|by right]. }
  clear -Hs. induction (sort_by le l) as [|y s IH]; [done|]. cbn [insert_by fmap list_fmap].
  rewrite <-Hs by left. destruct (le x y); [done|]. cbn [fmap list_fmap]. f_equal. apply IH. intros; apply Hs. by right.
Qed.

Section dedup.
Context {A : Type} (same : A → A → bool).

(** the elements kept after [prev], the last one kept *)
Fixpoint dedup_from (prev : A) (l : list A) : list A :=
  match l with
  | [] => []
  | x :: l => if same x prev then dedup_from prev l else x :: dedup_from x l
  end.

Definition dedup_by (l : list A) : list A :=
  match l with [] => [] | x :: l => x :: dedup_from x l end.
End dedup.

(** On a list sorted by [cmp] and then by preference, [dedup_by] on the first
    key keeps the preferred element of every group, in order. *)
Section dedup_sorted.
Context {A : Type} (key rank : A → Z).
Let le (x y : A) : bool := (key x <? key y) || ((key x =? key y) && (rank y <=? rank x)).
Let same (x y : A) : bool := key x =? key y.

Lemma le_spec x y : le x y = true ↔ key x < key y ∨ key x = key y ∧ rank y ≤ rank x.
Proof. unfold le. rewrite orb_true_iff, andb_true_iff, Z.ltb_lt, Z.eqb_eq, Z.leb_le. done. Qed.

Lemma dedup_from_spec prev l :
  StronglySorted (λ a b, le a b = true) (prev :: l) →
  StronglySorted (λ a b, key a < key b) (dedup_from same prev l) ∧
  Forall (λ x, key prev < key x) (dedup_from same prev l) ∧
  (∀ x, x ∈ dedup_from same prev l → x ∈ l ∧ ∀ y, y ∈ l → key y = key x → rank y ≤ rank x) ∧
  (∀ y, y ∈ l → key y ≠ key prev → ∃ x, x ∈ dedup_from same prev l ∧ key x = key y).
Proof.
  revert prev. induction l as [|z l IH]; intros prev Hs; cbn [dedup_from].
  { split_and!; [constructor|constructor|by intros ? ?%not_elem_of_nil|by intros ? ?%not_elem_of_nil]. }
  apply StronglySorted_inv in Hs as [Hzl [Hpz Hpl]%Forall_cons]. apply le_spec in Hpz.
  pose proof Hzl as [Hl Hzall]%StronglySorted_inv. rewrite Forall_forall in Hzall, Hpl.
  unfold same. destruct (Z.eqb_spec (key z) (key prev)) as [Hk|Hk]; fold same.
  - destruct (IH prev) as (H1 & H2 & H3 & H4); [constructor; [done|by apply Forall_forall]|].
    rewrite Forall_forall in H2. split_and!; [done|by apply Forall_forall| |].
    + intros x Hx. destruct (H3 x Hx) as [Hin Hr]. split; [by right|].
      intros y [->|Hy]%elem_of_cons Hky; [specialize (H2 x Hx); lia|by apply Hr].
    + intros y [->|Hy]%elem_of_cons Hne; [done|]. by apply H4.
  - destruct (IH z) as (H1 & H2 & H3 & H4); [done|]. split_and!.
    + by constructor.
    + constructor; [lia|]. eapply Forall_impl; [exact H2|]. cbn. intros. lia.
    + rewrite Forall_forall in H2. intros x [->|Hx]%elem_of_cons.
      * split; [left|]. intros y [->|Hy]%elem_of_cons Hky; [lia|]. specialize (Hzall y Hy). apply le_spec in Hzall. lia.
      * destruct (H3 x Hx) as [Hin Hr]. split; [by right|]. specialize (H2 x Hx).
        intros y [->|Hy]%elem_of_cons Hky; [lia|by apply Hr].
    + intros y [->|Hy]%elem_of_cons Hne; [exists z; split; [left|done]|].
      destruct (decide (key y = key z)) as [He|He]; [exists z; split; [left|done]|].
      destruct (H4 y Hy He) as (x & Hx & Hkx). exists x. split; [by right|done].
Qed.

(** sort, then dedup: one element per key, the one with the highest rank *)
Lemma sort_dedup_spec l :
  let r := dedup_by same (sort_by le l) in
  StronglySorted (λ a b, key a < key b) r ∧
  (∀ x, x ∈ r → x ∈ l ∧ ∀ y, y ∈ l → key y = key x → rank y ≤ rank x) ∧
  (∀ y, y ∈ l → ∃ x, x ∈ r ∧ key x = key y).
Proof.
  assert (Hs : StronglySorted (λ a b, le a b = true) (sort_by le l)).
  { apply sort_by_sorted.
    - intros x y Hf. apply le_spec. destruct (decide (key y < key x ∨ key y = key x ∧ rank x ≤ rank y)) as [|Hn]; [done|].
      assert (le x y = true) by (apply le_spec; lia). congruence.
    - intros x y z. rewrite !le_spec. lia. }
  pose proof (sort_by_perm le l) as Hp. cbv zeta.
  assert (Hin : ∀ x, x ∈ l ↔ x ∈ sort_by le l) by (intros x; by rewrite Hp).
  setoid_rewrite Hin. clear Hp Hin. destruct (sort_by le l) as [|p s]; cbn [dedup_by].
  { split_and!; [constructor|by intros ? ?%not_elem_of_nil|by intros ? ?%not_elem_of_nil]. }
  pose proof Hs as [_ Hall]%StronglySorted_inv. rewrite Forall_forall in Hall.
  destruct (dedup_from_spec p s Hs) as (H1 & H2 & H3 & H4). split_and!.
  - by constructor.
  - rewrite Forall_forall in H2. intros x [->|Hx]%elem_of_cons.
    + split; [left|]. intros y [->|Hy]%elem_of_cons Hky; [done|]. specialize (Hall y Hy). apply le_spec in Hall. lia.
    + destruct (H3 x Hx) as [Hin Hr]. split; [by right|]. specialize (H2 x Hx).
      intros y [->|Hy]%elem_of_cons Hky; [lia|by apply Hr].
  - intros y [->|Hy]%elem_of_cons; [exists p; split; [left|done]|].
    destruct (decide (key y = key p)) as [He|He]; [exists p; split; [left|done]|].
    destruct (H4 y Hy He) as (x & Hx & Hkx). exists x. split; [by right|done].
Qed.
End dedup_sorted.
