(* ===== verification/TsSerde.v ===== *)
(** * timeseries: data model, keys and values

    [model.rs] (time buckets, labels, samples, series), the storage keys of
    [serde/key.rs] with the ranges that scan them, and the values of
    [bucket_list.rs], [dictionary.rs] and [forward_index.rs].  The codecs of
    other crates (Gorilla compression, Roaring bitmaps) are in [TsMerge].

    Strings are their bytes, an [f64] is its bit pattern. *)
From S2P Require Import Prelude Codec Serde ByteRange TerminatedBytes Encoding Storage.

Module Ts.

Inductive Error : Type :=
| ErrStorage (e : StorageError)
| ErrDeserialize (e : DeserializeError)
| ErrEncoding (e : EncodingError)
| InvalidRecordType (id : Z)
| WrongSubsystem (got : byte)
| UnexpectedRecordType (id : Z)
| NotBucketScoped
| NotGlobalScoped
| KeyTooShort
| SeriesIdTooShort
| InvalidName                                  (* not UTF-8 *)
| BucketTooShort
| MetaTooShort
| LabelCountTooShort
| LabelCountMismatch (expected got : Z)
| ErrRoaring                                   (* errors of the libraries *)
| ErrTsz
| InvalidRange
| BucketOutOfRange                             (* a time before the epoch or past [u32] minutes *)
| InvalidTimeseries.

(** ** model.rs *)
Record TimeBucket : Type := mkBucket { bk_start : Z; bk_size : Z }.

#[global] Instance TimeBucket_eq_dec : EqDecision TimeBucket.
Proof. solve_decision. Defined.

Definition hour (start : Z) : TimeBucket := mkBucket start 1.

(** [(self.size.pow(2) * 60) as u32], computed in [u8] *)
Definition size_in_mins (b : TimeBucket) : Z := wrap 8 (wrap 8 (bk_size b * bk_size b) * 60).

Record Label : Type := mkLabel { l_name : bytes; l_value : bytes }.

#[global] Instance Label_eq_dec : EqDecision Label.
Proof. solve_decision. Defined.

Record Sample : Type := mkSample { timestamp_ms : Z; s_value : Z }.

#[global] Instance Sample_eq_dec : EqDecision Sample.
Proof. solve_decision. Defined.

Inductive Temporality : Type := Cumulative | TDelta | Unspecified.

#[global] Instance Temporality_eq_dec : EqDecision Temporality.
Proof. solve_decision. Defined.

Inductive MetricType : Type :=
| Gauge
| Sum (monotonic : bool) (temporality : Temporality)
| Histogram (temporality : Temporality)
| ExponentialHistogram (temporality : Temporality)
| Summary.

#[global] Instance MetricType_eq_dec : EqDecision MetricType.
Proof. solve_decision. Defined.

Record Series : Type := mkSeries {
  sr_labels : list Label;
  sr_metric_type : option MetricType;
  sr_unit : option bytes;
  sr_description : option bytes;
  sr_samples : list Sample;
}.

(** index.rs *)
Record SeriesSpec : Type := mkSpec {
  sp_unit : option bytes;
  sp_metric_type : option MetricType;
  sp_labels : list Label;
}.

(** ** serde/mod.rs *)
Definition KEY_VERSION : byte := x01.
Definition SUBSYSTEM : byte := x01.

Inductive RecordType : Type :=
| BucketList | SeriesDictionary | ForwardIndex | InvertedIndex | TimeSeries.

#[global] Instance RecordType_eq_dec : EqDecision RecordType.
Proof. solve_decision. Defined.

Definition id (t : RecordType) : Z :=
  match t with
  | BucketList => 1 | SeriesDictionary => 2 | ForwardIndex => 3 | InvertedIndex => 4 | TimeSeries => 5
  end.

Definition from_id (i : Z) : res Error RecordType :=
  if bool_decide (i = 1) then Ok BucketList
  else if bool_decide (i = 2) then Ok SeriesDictionary
  else if bool_decide (i = 3) then Ok ForwardIndex
  else if bool_decide (i = 4) then Ok InvertedIndex
  else if bool_decide (i = 5) then Ok TimeSeries
  else Err (InvalidRecordType i).

Definition from_prefix (p : KeyPrefix.t) : res Error RecordType :=
  if negb (bool_decide (KeyPrefix.subsystem p = SUBSYSTEM))
  then Err (WrongSubsystem (KeyPrefix.subsystem p))
  else from_id (Z.shiftr (Z.land (u8 (KeyPrefix.tag p)) 0xF0) 4).

(** the tag panics on a bucket size above 15 *)
Definition prefix_with_bucket_size (t : RecordType) (bucket_size : Z) : res Error KeyPrefix.t :=
  let? tag := RecordTag.new (id t) bucket_size in
  KeyPrefix.new SUBSYSTEM KEY_VERSION (to_u8 (RecordTag.as_byte tag)).

Definition global_prefix (t : RecordType) : res Error KeyPrefix.t := prefix_with_bucket_size t 0.

Definition bucket_size_from_prefix (p : KeyPrefix.t) : option Z :=
  let size := Z.land (u8 (KeyPrefix.tag p)) 0x0F in
  if bool_decide (size = 0) then None else Some size.

(** the bucket-scoped start of a key: [bucket_range] and the encoders begin with it *)
Definition bucket_prefix (t : RecordType) (b : TimeBucket) : res Error bytes :=
  let? p := prefix_with_bucket_size t (bk_size b) in
  Ok (KeyPrefix.write_to p [] ++ be_bytes 4 (bk_start b)).

Definition bucket_range (t : RecordType) (b : TimeBucket) : res Error BytesRange :=
  let? buf := bucket_prefix t b in Ok (ByteRange.prefix buf).

(** [encode_array] and [decode_array]; the elements' codecs are arguments *)
Definition encode_array {A} (enc : A → bytes → res Error bytes) (items : list A) (buf : bytes) : res Error bytes :=
  if u_max 16 <? blen items then Panic
  else encode_items enc items (buf ++ le_bytes 2 (wrap 16 (blen items))).

Definition decode_array {A} (dec : bytes → res Error (A * bytes)) (buf : bytes) : res Error (list A * bytes) :=
  if bool_decide (length buf < 2)%nat then Err (ErrEncoding ArrayCountTooShort)
  else decode_items dec (Z.to_nat (from_le (take 2 buf))) (drop 2 buf).

Definition decode_fixed_element_array {A} (dec : bytes → res Error (A * bytes)) (element_size : nat) (buf : bytes) :
    res Error (list A) :=
  if negb (bool_decide (length buf mod element_size = 0)%nat)
  then Err (ErrEncoding (NotDivisible (blen buf) (Z.of_nat element_size)))
  else let? (xs, _) := decode_items dec (length buf / element_size) buf in Ok xs.

(** ** serde/key.rs *)
Definition bucket_list_key : res Error bytes :=
  let? p := global_prefix BucketList in Ok (KeyPrefix.to_bytes p).

Record SeriesDictionaryKey : Type := mkDictKey { dk_bucket : TimeBucket; dk_fingerprint : Z }.
Record ForwardIndexKey : Type := mkForwardKey { fk_bucket : TimeBucket; fk_series_id : Z }.
Record InvertedIndexKey : Type := mkInvertedKey { ik_bucket : TimeBucket; ik_attribute : bytes; ik_value : bytes }.
Record TimeSeriesKey : Type := mkSeriesKey { tk_bucket : TimeBucket; tk_metric_name : bytes; tk_series_id : Z }.

Definition dict_key_encode (k : SeriesDictionaryKey) : res Error bytes :=
  let? buf := bucket_prefix SeriesDictionary (dk_bucket k) in Ok (buf ++ be_bytes 16 (dk_fingerprint k)).
Definition forward_key_encode (k : ForwardIndexKey) : res Error bytes :=
  let? buf := bucket_prefix ForwardIndex (fk_bucket k) in Ok (buf ++ be_bytes 4 (fk_series_id k)).
Definition inverted_key_encode (k : InvertedIndexKey) : res Error bytes :=
  let? buf := bucket_prefix InvertedIndex (ik_bucket k) in
  Ok (TerminatedBytes.serialize (ik_attribute k) buf ++ ik_value k).
Definition series_key_encode (k : TimeSeriesKey) : res Error bytes :=
  let? buf := bucket_prefix TimeSeries (tk_bucket k) in
  Ok (TerminatedBytes.serialize (tk_metric_name k) buf ++ be_bytes 4 (tk_series_id k)).

Definition attribute_range (b : TimeBucket) (attribute : bytes) : res Error BytesRange :=
  let? buf := bucket_prefix InvertedIndex b in
  Ok (ByteRange.prefix (TerminatedBytes.serialize attribute buf)).

(** the checks the decoders share: length, prefix, record type, bucket scope *)
Definition check_key (t : RecordType) (min_len : nat) (buf : bytes) : res Error Z :=
  if bool_decide (length buf < min_len)%nat then Err KeyTooShort
  else
    let? p := res_map_err ErrDeserialize (KeyPrefix.from_bytes_with_validation buf SUBSYSTEM KEY_VERSION) in
    let? ty := from_prefix p in
    if negb (bool_decide (ty = t)) then Err (UnexpectedRecordType (id ty))
    else match bucket_size_from_prefix p with Some size => Ok size | None => Err NotBucketScoped end.

Definition time_bucket_at (buf : bytes) : Z := from_be (take 4 (drop 3 buf)).

Definition dict_key_decode (buf : bytes) : res Error SeriesDictionaryKey :=
  let? size := check_key SeriesDictionary 23 buf in
  Ok (mkDictKey (mkBucket (time_bucket_at buf) size) (from_be (take 16 (drop 7 buf)))).

Definition forward_key_decode (buf : bytes) : res Error ForwardIndexKey :=
  let? size := check_key ForwardIndex 11 buf in
  Ok (mkForwardKey (mkBucket (time_bucket_at buf) size) (from_be (take 4 (drop 7 buf)))).

Definition inverted_key_decode (buf : bytes) : res Error InvertedIndexKey :=
  let? size := check_key InvertedIndex 7 buf in
  let? (attribute, slice) := res_map_err ErrDeserialize (TerminatedBytes.deserialize (drop 7 buf)) in
  let? attribute := from_utf8 InvalidName attribute in
  let? value := from_utf8 InvalidName slice in
  Ok (mkInvertedKey (mkBucket (time_bucket_at buf) size) attribute value).

Definition series_key_decode (buf : bytes) : res Error TimeSeriesKey :=
  let? size := check_key TimeSeries 12 buf in
  let? (name, slice) := res_map_err ErrDeserialize (TerminatedBytes.deserialize (drop 7 buf)) in
  let? name := from_utf8 InvalidName name in
  if bool_decide (length slice < 4)%nat then Err SeriesIdTooShort
  else Ok (mkSeriesKey (mkBucket (time_bucket_at buf) size) name (from_be (take 4 slice))).

Definition bucket_list_key_decode (buf : bytes) : res Error unit :=
  let? p := res_map_err ErrDeserialize (KeyPrefix.from_bytes_with_validation buf SUBSYSTEM KEY_VERSION) in
  let? ty := from_prefix p in
  if negb (bool_decide (ty = BucketList)) then Err (UnexpectedRecordType (id ty))
  else match bucket_size_from_prefix p with Some _ => Err NotGlobalScoped | None => Ok tt end.

(** ** serde/bucket_list.rs, serde/dictionary.rs *)
Definition bucket_encode (b : Z * Z) (buf : bytes) : res Error bytes :=
  Ok ((buf ++ [to_u8 b.1]) ++ le_bytes 4 b.2).

Definition bucket_decode (buf : bytes) : res Error ((Z * Z) * bytes) :=
  match buf with
  | size :: rest =>
      if bool_decide (length buf < 5)%nat then Err BucketTooShort
      else Ok ((u8 size, from_le (take 4 rest)), drop 4 rest)
  | [] => Err BucketTooShort
  end.

Definition bucket_list_encode (buckets : list (Z * Z)) : res Error bytes := encode_items bucket_encode buckets [].
Definition bucket_list_decode (buf : bytes) : res Error (list (Z * Z)) :=
  decode_fixed_element_array bucket_decode 5 buf.

Definition dict_value_encode (series_id : Z) : bytes := le_bytes 4 series_id.
Definition dict_value_decode (buf : bytes) : res Error Z :=
  if bool_decide (length buf < 4)%nat then Err SeriesIdTooShort else Ok (from_le (take 4 buf)).

(** ** serde/forward_index.rs *)
Record MetricMeta : Type := mkMetricMeta { mm_type : Z; mm_flags : Z }.

Definition meta_temporality (m : MetricMeta) : Z := Z.land (mm_flags m) 0x03.
Definition meta_monotonic (m : MetricMeta) : bool := negb (bool_decide (Z.land (mm_flags m) 0x04 = 0)).

Definition meta_of_type (t : MetricType) : MetricMeta :=
  let '(ty, temporality, monotonic) :=
    match t with
    | Gauge => (1, Unspecified, false)
    | Sum monotonic temporality => (2, temporality, monotonic)
    | Histogram temporality => (3, temporality, false)
    | ExponentialHistogram temporality => (4, temporality, false)
    | Summary => (5, Unspecified, false)
    end in
  let temporality_bits := match temporality with Unspecified => 0 | Cumulative => 1 | TDelta => 2 end in
  let monotonic_bit := if monotonic : bool then 0x04 else 0x00 in
  mkMetricMeta ty (Z.lor temporality_bits monotonic_bit).

Definition meta_of_option (o : option MetricType) : MetricMeta :=
  match o with Some t => meta_of_type t | None => mkMetricMeta 0 0 end.

Definition label_encode (l : Label) (buf : bytes) : res Error bytes :=
  let? buf := encode_utf8 (l_name l) buf in encode_utf8 (l_value l) buf.

Definition label_decode (buf : bytes) : res Error (Label * bytes) :=
  let? (name, buf) := res_map_err ErrEncoding (decode_utf8 buf) in
  let? (value, buf) := res_map_err ErrEncoding (decode_utf8 buf) in
  Ok (mkLabel name value, buf).

Record ForwardIndexValue : Type := mkForwardValue {
  fv_unit : option bytes;
  fv_meta : MetricMeta;
  fv_label_count : Z;
  fv_labels : list Label;
}.

Definition forward_value_encode (v : ForwardIndexValue) : res Error bytes :=
  let? buf := encode_optional_utf8 (fv_unit v) [] in
  let buf := buf ++ [to_u8 (mm_type (fv_meta v)); to_u8 (mm_flags (fv_meta v))] in
  let buf := buf ++ le_bytes 2 (fv_label_count v) in
  encode_array label_encode (fv_labels v) buf.

Definition forward_value_decode (buf : bytes) : res Error ForwardIndexValue :=
  let? (unit_, slice) := res_map_err ErrEncoding (decode_optional_utf8 buf) in
  match slice with
  | ty :: flags :: slice =>
      if bool_decide (length slice < 2)%nat then Err LabelCountTooShort
      else
        let label_count := from_le (take 2 slice) in
        let? (labels, _) := decode_array label_decode (drop 2 slice) in
        if negb (bool_decide (blen labels = label_count))
        then Err (LabelCountMismatch label_count (blen labels))
        else Ok (mkForwardValue unit_ (mkMetricMeta (u8 ty) (u8 flags)) label_count labels)
  | _ => Err MetaTooShort
  end.

(** [From<ForwardIndexValue> for SeriesSpec] *)
Definition spec_of_value (v : ForwardIndexValue) : SeriesSpec :=
  let temporality :=
    let t := meta_temporality (fv_meta v) in
    if bool_decide (t = 1) then Cumulative else if bool_decide (t = 2) then TDelta else Unspecified in
  let ty := mm_type (fv_meta v) in
  let metric_type :=
    if bool_decide (ty = 1) then Some Gauge
    else if bool_decide (ty = 2) then Some (Sum (meta_monotonic (fv_meta v)) temporality)
    else if bool_decide (ty = 3) then Some (Histogram temporality)
    else if bool_decide (ty = 4) then Some (ExponentialHistogram temporality)
    else if bool_decide (ty = 5) then Some Summary
    else None in
  mkSpec (fv_unit v) metric_type (fv_labels v).

(** ** Keys: round trips and ranges *)
Definition wf_bucket (b : TimeBucket) : Prop := in_u 32 (bk_start b) ∧ 1 ≤ bk_size b ≤ 15.

Definition key_prefix (t : RecordType) (size : Z) : KeyPrefix.t :=
  KeyPrefix.mk SUBSYSTEM KEY_VERSION (to_u8 (16 * id t + size)).

Lemma id_range t : 1 ≤ id t ≤ 5.
Proof. by destruct t. Qed.

Lemma prefix_spec t size :
  0 ≤ size ≤ 15 →
  prefix_with_bucket_size t size = Ok (key_prefix t size) ∧ KeyPrefix.wf (key_prefix t size) ∧
  from_prefix (key_prefix t size) = Ok t ∧
  bucket_size_from_prefix (key_prefix t size) = (if bool_decide (size = 0) then None else Some size).
Proof.
  intros Hs. pose proof (id_range t) as Hid.
  assert (Hn : RecordTag.new (E:=Error) (id t) size = Ok (16 * id t + size)).
  { unfold RecordTag.new, rust_assert. rewrite !(proj2 (Z.leb_le _ _)), (proj2 (Z.ltb_lt _ _)) by lia. cbn.
    rewrite Z.shiftl_mul_pow2, Z.mul_comm by lia. change (2 ^ 4) with 16.
    rewrite wrap_small, RecordTag.lor_nibbles by (unfold in_u; lia). done. }
  destruct (RecordTag.record_tag_fields (E:=Error) _ _ 0 _ (proj1 Hs) ltac:(lia) Hn) as (Hin & Hty & Hrv & _).
  assert (Hu : u8 (to_u8 (16 * id t + size)) = 16 * id t + size)
    by (rewrite u8_to_u8; apply Z.mod_small; unfold in_u in Hin; lia).
  split_and!.
  - unfold prefix_with_bucket_size. rewrite Hn. cbn [res_bind].
    unfold KeyPrefix.new, rust_assert, RecordTag.as_byte. rewrite Hu.
    rewrite (proj2 (Z.ltb_lt _ (16 * _ + _))) by lia. reflexivity.
  - unfold KeyPrefix.wf, key_prefix. cbn [KeyPrefix.subsystem KeyPrefix.version KeyPrefix.tag]. rewrite Hu.
    split_and!; [done|done|lia].
  - unfold from_prefix, key_prefix. cbn [KeyPrefix.subsystem KeyPrefix.tag]. rewrite bool_decide_true by done.
    cbn [negb]. rewrite Hu. unfold RecordTag.record_type in Hty. rewrite Hty. by destruct t.
  - unfold bucket_size_from_prefix, key_prefix. cbn [KeyPrefix.tag]. rewrite Hu.
    unfold RecordTag.reserved in Hrv. by rewrite Hrv.
Qed.

Definition ts_prefix_bytes (t : RecordType) (b : TimeBucket) : bytes :=
  KeyPrefix.to_bytes (key_prefix t (bk_size b)) ++ be_bytes 4 (bk_start b).

Lemma bucket_prefix_spec t b : wf_bucket b → bucket_prefix t b = Ok (ts_prefix_bytes t b).
Proof.
  intros [_ Hb]. unfold bucket_prefix. destruct (prefix_spec t (bk_size b)) as (-> & _); [lia|]. done.
Qed.

Lemma prefix_bytes_length t b : length (ts_prefix_bytes t b) = 7%nat.
Proof. unfold ts_prefix_bytes. by rewrite length_app, be_bytes_length. Qed.

Lemma prefix_bytes_inj t b t' b' s s' :
  wf_bucket b → wf_bucket b' → ts_prefix_bytes t b ++ s = ts_prefix_bytes t' b' ++ s' → t = t' ∧ b = b' ∧ s = s'.
Proof.
  intros [H1 H2] [H1' H2'] He. apply app_inj_1 in He as [He ->]; [|by rewrite !prefix_bytes_length].
  unfold ts_prefix_bytes in He. apply app_inj_1 in He as [Hp Hs]; [|done].
  apply (f_equal from_be) in Hs. rewrite !(from_be_roundtrip 4) in Hs by done.
  destruct (prefix_spec t (bk_size b)) as (_ & _ & Hf & Hz); [lia|].
  destruct (prefix_spec t' (bk_size b')) as (_ & _ & Hf' & Hz'); [lia|].
  assert (Hk : key_prefix t (bk_size b) = key_prefix t' (bk_size b')).
  { unfold KeyPrefix.to_bytes, key_prefix in *. cbn [KeyPrefix.subsystem KeyPrefix.version KeyPrefix.tag] in Hp.
    by injection Hp as ->. }
  rewrite Hk, Hf' in Hf. rewrite Hk, Hz' in Hz. injection Hf as ->.
  rewrite !bool_decide_false in Hz by lia. injection Hz as Hz. destruct b, b'; cbn in *. by subst.
Qed.

Lemma check_key_spec t b min_len rest :
  wf_bucket b → (min_len ≤ 7 + length rest)%nat →
  check_key t min_len (ts_prefix_bytes t b ++ rest) = Ok (bk_size b) ∧
  time_bucket_at (ts_prefix_bytes t b ++ rest) = bk_start b ∧ drop 7 (ts_prefix_bytes t b ++ rest) = rest.
Proof.
  intros [H1 H2] Hl. destruct (prefix_spec t (bk_size b)) as (_ & Hwf & Hf & Hz); [lia|]. split_and!.
  - unfold check_key. rewrite bool_decide_false by (rewrite length_app, prefix_bytes_length; lia).
    unfold ts_prefix_bytes. rewrite <-app_assoc.
    unfold KeyPrefix.from_bytes_with_validation. rewrite KeyPrefix.from_bytes_to_bytes by done. cbn [res_bind].
    unfold key_prefix at 1 2. cbn [KeyPrefix.subsystem KeyPrefix.version]. rewrite !bool_decide_true by done.
    cbn [negb res_map_err res_bind]. rewrite Hf. cbn [res_bind]. rewrite bool_decide_true by done. cbn [negb].
    rewrite Hz. by rewrite bool_decide_false by lia.
  - unfold time_bucket_at, ts_prefix_bytes. rewrite <-app_assoc, (drop_app_length' _ _ 3) by done.
    rewrite take_app_length' by (by rewrite be_bytes_length). by apply (from_be_roundtrip 4).
  - apply drop_app_length'. by rewrite prefix_bytes_length.
Qed.

(** every key of the database *)
Inductive Key : Type :=
| KDict (k : SeriesDictionaryKey) | KForward (k : ForwardIndexKey)
| KInverted (k : InvertedIndexKey) | KSeries (k : TimeSeriesKey).

Definition key_type (k : Key) : RecordType :=
  match k with
  | KDict _ => SeriesDictionary | KForward _ => ForwardIndex | KInverted _ => InvertedIndex | KSeries _ => TimeSeries
  end.
Definition key_bucket (k : Key) : TimeBucket :=
  match k with KDict k => dk_bucket k | KForward k => fk_bucket k | KInverted k => ik_bucket k | KSeries k => tk_bucket k end.
Definition key_encode (k : Key) : res Error bytes :=
  match k with
  | KDict k => dict_key_encode k | KForward k => forward_key_encode k
  | KInverted k => inverted_key_encode k | KSeries k => series_key_encode k
  end.
Definition key_decode (t : RecordType) (buf : bytes) : res Error Key :=
  match t with
  | SeriesDictionary => let? k := dict_key_decode buf in Ok (KDict k)
  | ForwardIndex => let? k := forward_key_decode buf in Ok (KForward k)
  | InvertedIndex => let? k := inverted_key_decode buf in Ok (KInverted k)
  | TimeSeries => let? k := series_key_decode buf in Ok (KSeries k)
  | BucketList => Err (InvalidRecordType 1)
  end.

Definition wf_key (k : Key) : Prop :=
  wf_bucket (key_bucket k) ∧
  match k with
  | KDict k => in_u 128 (dk_fingerprint k)
  | KForward k => in_u 32 (fk_series_id k)
  | KInverted k => utf8_valid (ik_attribute k) = true ∧ utf8_valid (ik_value k) = true
  | KSeries k => utf8_valid (tk_metric_name k) = true ∧ in_u 32 (tk_series_id k)
  end.

(** the bytes after the bucket prefix *)
Definition key_tail (k : Key) : bytes :=
  match k with
  | KDict k => be_bytes 16 (dk_fingerprint k)
  | KForward k => be_bytes 4 (fk_series_id k)
  | KInverted k => TerminatedBytes.serialize_to_bytes (ik_attribute k) ++ ik_value k
  | KSeries k => TerminatedBytes.serialize_to_bytes (tk_metric_name k) ++ be_bytes 4 (tk_series_id k)
  end.
Definition key_bytes (k : Key) : bytes := ts_prefix_bytes (key_type k) (key_bucket k) ++ key_tail k.

Lemma serialize_append data buf : TerminatedBytes.serialize data buf = buf ++ TerminatedBytes.serialize_to_bytes data.
Proof. by rewrite TerminatedBytes.serialize_escape, TerminatedBytes.serialize_to_bytes_escape. Qed.

Lemma key_encode_spec k : wf_bucket (key_bucket k) → key_encode k = Ok (key_bytes k).
Proof.
  intros Hb. destruct k as [k|k|k|k]; cbn [key_bucket key_encode] in *;
    unfold dict_key_encode, forward_key_encode, inverted_key_encode, series_key_encode;
    rewrite bucket_prefix_spec by done; cbn [res_bind]; rewrite ?serialize_append, <-?app_assoc; done.
Qed.

Lemma key_decode_spec k : wf_key k → key_decode (key_type k) (key_bytes k) = Ok k.
Proof.
  intros [Hb Hk]. unfold key_bytes.
  assert (Hc : ∀ n, (n ≤ 7 + length (key_tail k))%nat → _) by (intros n; exact (check_key_spec (key_type k) _ n (key_tail k) Hb)).
  destruct k as [[b fp]|[b i]|[b a v]|[b n i]]; cbn [key_type key_bucket key_tail dk_bucket fk_bucket ik_bucket tk_bucket] in *.
  - destruct (Hc 23%nat) as (H1 & H2 & H3); [rewrite be_bytes_length; lia|].
    unfold key_decode, dict_key_decode. rewrite H1. cbn [res_bind]. rewrite H2, H3.
    rewrite firstn_all2 by (rewrite be_bytes_length; lia). rewrite (from_be_roundtrip 16) by done. by destruct b.
  - destruct (Hc 11%nat) as (H1 & H2 & H3); [rewrite be_bytes_length; lia|].
    unfold key_decode, forward_key_decode. rewrite H1. cbn [res_bind]. rewrite H2, H3.
    rewrite firstn_all2 by (rewrite be_bytes_length; lia). rewrite (from_be_roundtrip 4) by done. by destruct b.
  - destruct (Hc 7%nat) as (H1 & H2 & H3); [lia|]. destruct Hk as [Hn Hv]. cbn [ik_attribute ik_value] in *.
    unfold key_decode, inverted_key_decode. rewrite H1. cbn [res_bind]. rewrite H2, H3.
    rewrite (decode_encode (dec:=TerminatedBytes.deserialize) a) by done. cbn [res_map_err res_bind].
    unfold from_utf8. rewrite Hn, Hv. by destruct b.
  - destruct Hk as [Hn Hi]. cbn [tk_metric_name tk_series_id] in *.
    destruct (Hc 12%nat) as (H1 & H2 & H3).
    { rewrite length_app, be_bytes_length, TerminatedBytes.serialize_to_bytes_escape, length_app. simpl. lia. }
    unfold key_decode, series_key_decode. rewrite H1. cbn [res_bind]. rewrite H2, H3.
    rewrite (decode_encode (dec:=TerminatedBytes.deserialize) n) by done. cbn [res_map_err res_bind].
    unfold from_utf8. rewrite Hn. cbn [res_bind].
    rewrite bool_decide_false by (rewrite be_bytes_length; lia).
    rewrite firstn_all2 by (rewrite be_bytes_length; lia). rewrite (from_be_roundtrip 4) by done. by destruct b.
Qed.

Lemma key_bytes_inj k k' : wf_key k → wf_key k' → key_bytes k = key_bytes k' → k = k'.
Proof.
  intros Hk Hk' He. pose proof (key_decode_spec k Hk) as H. rewrite He in H.
  assert (Ht : key_type k = key_type k') by (by apply prefix_bytes_inj in He as (? & _); [|apply Hk|apply Hk']).
  rewrite Ht, (key_decode_spec k' Hk') in H. by injection H.
Qed.

(** The bucket list key is none of the others. *)
Definition bucket_list_bytes : bytes := [x01; x01; x10].
Lemma bucket_list_key_spec : bucket_list_key = Ok bucket_list_bytes.
Proof. reflexivity. Qed.

Lemma key_not_bucket_list k : key_bytes k ≠ bucket_list_bytes.
Proof. intros H. apply (f_equal length) in H. unfold key_bytes in H. rewrite length_app, prefix_bytes_length in H. simpl in H. lia. Qed.

(** ** Values: round trips *)
Definition wf_bucket_entry (b : Z * Z) : Prop := in_u 8 b.1 ∧ in_u 32 b.2.
Definition bucket_bytes (b : Z * Z) : bytes := to_u8 b.1 :: le_bytes 4 b.2.
Definition bucket_list_value (bs : list (Z * Z)) : bytes := bs ≫= bucket_bytes.

Lemma bucket_list_encode_spec bs : bucket_list_encode bs = Ok (bucket_list_value bs).
Proof.
  unfold bucket_list_encode. rewrite (encode_items_spec _ bucket_bytes); [done|].
  intros b buf _. unfold bucket_encode, bucket_bytes. by rewrite <-app_assoc.
Qed.

Lemma bucket_list_value_length bs : length (bucket_list_value bs) = (length bs * 5)%nat.
Proof.
  induction bs as [|b bs IH]; [done|]. unfold bucket_list_value in *. cbn [mbind list_bind].
  rewrite length_app, IH. unfold bucket_bytes. cbn [length]. rewrite le_bytes_length. lia.
Qed.

Lemma bucket_list_decode_spec bs : Forall wf_bucket_entry bs → bucket_list_decode (bucket_list_value bs) = Ok bs.
Proof.
  intros Hbs. unfold bucket_list_decode, decode_fixed_element_array.
  rewrite bucket_list_value_length, Nat.Div0.mod_mul, Nat.div_mul by lia. rewrite bool_decide_true by done. cbn [negb].
  unfold bucket_list_value. rewrite <-(app_nil_r (bs ≫= _)), (decode_items_spec _ bucket_bytes); [done|].
  intros [size start] b Hin. rewrite Forall_forall in Hbs. destruct (Hbs _ Hin) as [H1 H2]. cbn [fst snd] in *.
  unfold bucket_bytes, bucket_decode. cbn [app fst snd].
  rewrite bool_decide_false by (cbn [length]; rewrite length_app, le_bytes_length; lia).
  rewrite take_app_length', drop_app_length' by (by rewrite le_bytes_length).
  rewrite u8_to_u8, Z.mod_small by (unfold in_u in H1; lia). by rewrite (from_le_roundtrip 4).
Qed.

Lemma dict_value_spec i : in_u 32 i → dict_value_decode (dict_value_encode i) = Ok i.
Proof.
  intros Hi. unfold dict_value_decode, dict_value_encode. rewrite bool_decide_false by (rewrite le_bytes_length; lia).
  rewrite firstn_all2 by (rewrite le_bytes_length; lia). by rewrite (from_le_roundtrip 4).
Qed.

Definition wf_label (l : Label) : Prop := wf_str (l_name l) ∧ wf_str (l_value l).
Definition label_bytes (l : Label) : bytes := enc_str (l_name l) ++ enc_str (l_value l).

Lemma label_encode_spec l buf : wf_label l → label_encode l buf = Ok (buf ++ label_bytes l).
Proof.
  intros [[_ H1] [_ H2]]. unfold label_encode. rewrite !encode_utf8_spec.
  rewrite (proj2 (Z.ltb_ge _ _)) by lia. cbn [res_bind]. rewrite encode_utf8_spec.
  rewrite (proj2 (Z.ltb_ge _ _)) by lia. by rewrite <-app_assoc.
Qed.

Lemma label_decode_spec l buf : wf_label l → label_decode (label_bytes l ++ buf) = Ok (l, buf).
Proof.
  intros [H1 H2]. unfold label_decode, label_bytes. rewrite <-app_assoc, decode_encode by done.
  cbn [res_map_err res_bind]. rewrite decode_encode by done. by destruct l.
Qed.

Lemma metric_type_roundtrip u n ls o :
  spec_of_value (mkForwardValue u (meta_of_option o) n ls) = mkSpec u o ls.
Proof. destruct o as [[|m t|t|t|]|]; try done; try destruct m; by destruct t. Qed.

Definition wf_spec (sp : SeriesSpec) : Prop :=
  (∀ u, sp_unit sp = Some u → wf_str u ∧ u ≠ []) ∧ Forall wf_label (sp_labels sp) ∧ blen (sp_labels sp) ≤ u_max 16.

Definition value_of_spec (sp : SeriesSpec) : ForwardIndexValue :=
  mkForwardValue (sp_unit sp) (meta_of_option (sp_metric_type sp)) (wrap 16 (blen (sp_labels sp))) (sp_labels sp).

Lemma meta_bytes o : in_u 8 (mm_type (meta_of_option o)) ∧ in_u 8 (mm_flags (meta_of_option o)).
Proof. unfold in_u. destruct o as [[|[] []|[]|[]|]|]; vm_compute; intuition congruence. Qed.

(** The metadata of a series comes back from storage unchanged. *)
Lemma forward_value_roundtrip sp :
  wf_spec sp → ∃ enc v, forward_value_encode (value_of_spec sp) = Ok enc ∧ forward_value_decode enc = Ok v ∧
    spec_of_value v = sp.
Proof.
  intros (Hu & Hl & Hn). pose proof (blen_u16 _ Hn) as Hn'.
  destruct (meta_bytes (sp_metric_type sp)) as [Hm1 Hm2].
  set (ub := match sp_unit sp with Some u => enc_str u | None => le_bytes 2 0 end).
  assert (He : ∀ buf, encode_optional_utf8 (E:=Error) (sp_unit sp) buf = Ok (buf ++ ub)).
  { intros buf. unfold ub. destruct (sp_unit sp) as [u|]; [|done]. cbn [encode_optional_utf8].
    rewrite encode_utf8_spec, (proj2 (Z.ltb_ge _ _)); [done|]. by destruct (Hu u) as [[_ ?] _]. }
  assert (Hd : ∀ rest, decode_optional_utf8 (ub ++ rest) = Ok (sp_unit sp, rest)).
  { intros rest. unfold ub. destruct (sp_unit sp) as [u|]; [|done]. destruct (Hu u eq_refl) as [Hw Hne].
    unfold decode_optional_utf8. destruct (enc_str_parts u rest) as (Ht & _ & Hlen); [by apply blen_u16, Hw|].
    rewrite bool_decide_false by lia. rewrite Ht, (from_le_roundtrip 2) by (apply blen_u16, Hw).
    rewrite (proj2 (Z.eqb_neq _ _)); [by rewrite decode_encode|]. destruct u; [done|]. unfold blen. simpl. lia. }
  set (labels := sp_labels sp) in *.
  exists (ub ++ [to_u8 (mm_type (meta_of_option (sp_metric_type sp))); to_u8 (mm_flags (meta_of_option (sp_metric_type sp)))]
          ++ le_bytes 2 (blen labels) ++ le_bytes 2 (blen labels) ++ (labels ≫= label_bytes)).
  exists (value_of_spec sp). rewrite Forall_forall in Hl. split_and!.
  - unfold forward_value_encode, value_of_spec. cbn [fv_unit fv_meta fv_label_count fv_labels]. fold labels.
    rewrite He. cbn [res_bind]. unfold encode_array. rewrite (proj2 (Z.ltb_ge _ _)) by lia.
    rewrite (encode_items_spec _ label_bytes) by (intros; by apply label_encode_spec, Hl).
    rewrite !wrap_small by done. by rewrite <-!app_assoc.
  - unfold forward_value_decode. rewrite Hd. cbn [res_map_err res_bind app].
    rewrite bool_decide_false by (rewrite length_app, le_bytes_length; lia).
    rewrite take_app_length', drop_app_length' by (by rewrite le_bytes_length).
    rewrite (from_le_roundtrip 2) by done. unfold decode_array.
    rewrite bool_decide_false by (rewrite length_app, le_bytes_length; lia).
    rewrite take_app_length', drop_app_length' by (by rewrite le_bytes_length).
    rewrite (from_le_roundtrip 2) by done. replace (Z.to_nat (blen labels)) with (length labels) by (unfold blen; lia).
    rewrite <-(app_nil_r (labels ≫= _)), (decode_items_spec _ label_bytes) by (intros; by apply label_decode_spec, Hl).
    cbn [res_bind]. rewrite bool_decide_true by done. cbn [negb].
    rewrite !u8_to_u8, !Z.mod_small by (unfold in_u in *; lia). unfold value_of_spec. fold labels.
    rewrite wrap_small by done. by destruct (meta_of_option _).
  - unfold value_of_spec. rewrite metric_type_roundtrip. by destruct sp.
Qed.

(** the keys that start with a bucket and label name *)
Lemma attribute_prefix k b name :
  wf_bucket (key_bucket k) → wf_bucket b →
  ts_prefix_bytes InvertedIndex b ++ TerminatedBytes.serialize_to_bytes name `prefix_of` key_bytes k ↔
    ∃ value, k = KInverted (mkInvertedKey b name value).
Proof.
  intros Hb Hb'. unfold key_bytes. split.
  - intros [s He]. rewrite <-app_assoc in He. apply prefix_bytes_inj in He as (Ht & Hbk & He); [|done..].
    destruct k as [?|?|[b0 a v]|?]; cbn [key_type] in Ht; try done.
    cbn [key_tail ik_attribute ik_value key_bucket ik_bucket] in *. subst b0.
    apply (self_delimiting_prefix_free (λ _, True) _ TerminatedBytes.deserialize) in He as [-> ->]; [|done..].
    by exists s.
  - intros [v ->]. exists v. cbn [key_type key_bucket key_tail ik_bucket ik_attribute ik_value]. by rewrite <-app_assoc.
Qed.

(** C31: Keys of the time series database.  Every key decodes to itself; the scan
    of a record type in a bucket selects exactly the keys of that type and
    bucket, and the scan of a label name exactly the index keys of the bucket
    with that name, whatever their value. *)
Theorem ts_keys_exact k :
  wf_key k → ∃ enc, key_encode k = Ok enc ∧ key_decode (key_type k) enc = Ok k ∧
    (∀ t b r, wf_bucket b → bucket_range t b = Ok r → contains r enc = true ↔ key_type k = t ∧ key_bucket k = b) ∧
    (∀ b name r, wf_bucket b → attribute_range b name = Ok r →
       contains r enc = true ↔ ∃ value, k = KInverted (mkInvertedKey b name value)).
Proof.
  intros Hk. pose proof Hk as [Hb _]. exists (key_bytes k).
  split_and!; [by apply key_encode_spec|by apply key_decode_spec| |].
  - intros t b r Hb'. unfold bucket_range. rewrite bucket_prefix_spec by done. cbn [res_bind]. intros [= <-].
    rewrite prefix_contains_exact. unfold key_bytes. split.
    + intros [s He]. rewrite <-(app_nil_r (ts_prefix_bytes t b)), <-app_assoc in He.
      by apply prefix_bytes_inj in He as (-> & -> & _).
    + intros [-> ->]. by apply prefix_app_r.
  - intros b name r Hb'. unfold attribute_range. rewrite bucket_prefix_spec by done. cbn [res_bind]. intros [= <-].
    rewrite prefix_contains_exact, serialize_append. by apply attribute_prefix.
Qed.

Lemma ts_keys_exact_witness :
  ∃ enc, key_encode (KInverted (mkInvertedKey (hour 60) [x61] [x62])) = Ok enc ∧
    contains (prefix (ts_prefix_bytes InvertedIndex (hour 60) ++ [x61; x00])) enc = true.
Proof.
  destruct (ts_keys_exact (KInverted (mkInvertedKey (hour 60) [x61] [x62]))) as (enc & He & _ & _ & Ha).
  { split; [unfold wf_bucket, in_u; cbn; lia|done]. }
  exists enc. split; [exact He|]. apply (Ha (hour 60) [x61]); [unfold wf_bucket, in_u; cbn; lia|reflexivity|by exists [x62]].
Defined.
End Ts.
