(* ===== verification/TsBits.v ===== *)
(** * timeseries::serde::timeseries: the bit reader

    [BytesReader] feeds the Gorilla decoder from a byte slice, bit by bit, a
    byte at a time when it can.  The reference is the slice as a list of bits,
    most significant first ([bits_of]); [remaining] is what a reader has left. *)
From S2P Require Import Prelude.

Module TsBits.

Record BytesReader : Type := mkReader { rd_bytes : bytes; byte_pos : nat; bit_pos : nat }.

Definition new (bs : bytes) : BytesReader := mkReader bs 0 0.

(** the only error is [TszError::EOF]; the reader is returned with it *)
Definition read_bit (r : BytesReader) : BytesReader * option Z :=
  let r := if bool_decide (bit_pos r = 8)%nat then mkReader (rd_bytes r) (byte_pos r + 1) 0 else r in
  match rd_bytes r !! byte_pos r with
  | None => (r, None)
  | Some byte =>
      let bit := if bool_decide (Z.land (u8 byte) (wrap 8 (Z.shiftl 1 (7 - Z.of_nat (bit_pos r)))) = 0) then 0 else 1 in
      (mkReader (rd_bytes r) (byte_pos r) (bit_pos r + 1), Some bit)
  end.

Definition read_byte (r : BytesReader) : BytesReader * option Z :=
  if bool_decide (bit_pos r = 0)%nat then
    match rd_bytes r !! byte_pos r with
    | None => (r, None)
    | Some byte => (mkReader (rd_bytes r) (byte_pos r) 8, Some (u8 byte))
    end
  else if bool_decide (bit_pos r = 8)%nat then
    let r := mkReader (rd_bytes r) (byte_pos r + 1) 8 in
    match rd_bytes r !! byte_pos r with
    | None => (r, None)
    | Some byte => (r, Some (u8 byte))
    end
  else
    match rd_bytes r !! byte_pos r with
    | None => (r, None)
    | Some b1 =>
        let byte := wrap 8 (Z.shiftl (u8 b1) (Z.of_nat (bit_pos r))) in
        let r := mkReader (rd_bytes r) (byte_pos r + 1) (bit_pos r) in
        match rd_bytes r !! byte_pos r with
        | None => (r, None)
        | Some b2 => (r, Some (Z.lor byte (Z.shiftr (u8 b2) (8 - Z.of_nat (bit_pos r)))))
        end
    end.

(** the two loops of [read_bits], [num] counting down *)
Fixpoint read_single_bits (num : nat) (bits : Z) (r : BytesReader) : BytesReader * option Z :=
  match num with
  | O => (r, Some bits)
  | S num =>
      match read_bit r with
      | (r, Some bit) => read_single_bits num (Z.lor (wrap 64 (Z.shiftl bits 1)) bit) r
      | (r, None) => (r, None)
      end
  end.

Fixpoint read_whole_bytes (n : nat) (bits : Z) (r : BytesReader) : BytesReader * option Z :=
  match n with
  | O => (r, Some bits)
  | S n =>
      match read_byte r with
      | (r, Some byte) => read_whole_bytes n (Z.lor (wrap 64 (Z.shiftl bits 8)) byte) r
      | (r, None) => (r, None)
      end
  end.

Definition read_bits (num : nat) (r : BytesReader) : BytesReader * option Z :=
  let num := Nat.min num 64 in
  match read_whole_bytes (num / 8) 0 r with
  | (r, Some bits) => read_single_bits (num mod 8) bits r
  | (r, None) => (r, None)
  end.

(** an error leaves the reader where it stopped *)
Definition peak_bits (num : nat) (r : BytesReader) : BytesReader * option Z :=
  match read_bits num r with
  | (r', Some bits) => (mkReader (rd_bytes r') (byte_pos r) (bit_pos r), Some bits)
  | (r', None) => (r', None)
  end.

(** ** The reference: a list of bits *)
Definition byte_bits (b : byte) : list Z :=
  (λ i, Z.b2z (Z.testbit (u8 b) i)) <$> [7; 6; 5; 4; 3; 2; 1; 0].
Definition bits_of (bs : bytes) : list Z := bs ≫= byte_bits.

Fixpoint value_of (bits : list Z) (acc : Z) : Z :=
  match bits with [] => acc | b :: bits => value_of bits (2 * acc + b) end.

Definition remaining (r : BytesReader) : list Z := drop (8 * byte_pos r + bit_pos r) (bits_of (rd_bytes r)).

(** ** Bytes and their bits *)
Definition all_bytes : bytes := (λ n, to_u8 (Z.of_nat n)) <$> seq 0 256.

Lemma elem_all_bytes b : b ∈ all_bytes.
Proof.
  apply list_elem_of_fmap. exists (Z.to_nat (u8 b)). pose proof (u8_range b).
  rewrite Z2Nat.id by lia. rewrite to_u8_u8. split; [done|]. apply elem_of_seq. lia.
Qed.

Lemma forall_bytes (P : byte → bool) : forallb P all_bytes = true → ∀ b, P b = true.
Proof. intros H b. rewrite forallb_forall in H. apply H, list_elem_of_In, elem_all_bytes. Qed.

Lemma value_of_app l1 l2 acc : value_of (l1 ++ l2) acc = value_of l2 (value_of l1 acc).
Proof. revert acc. induction l1 as [|b l1 IH]; intros acc; [done|]. simpl. apply IH. Qed.

Lemma value_of_acc l acc : value_of l acc = acc * 2 ^ Z.of_nat (length l) + value_of l 0.
Proof.
  revert acc. induction l as [|b l IH]; intros acc; simpl; [lia|].
  rewrite IH, (IH (2 * 0 + b)), Nat2Z.inj_succ, Z.pow_succ_r by lia. lia.
Qed.

Lemma byte_value b : value_of (byte_bits b) 0 = u8 b.
Proof.
  apply Z.eqb_eq. revert b. apply (forall_bytes (λ b, value_of (byte_bits b) 0 =? u8 b)). vm_compute. reflexivity.
Qed.

Lemma byte_bits_length b : length (byte_bits b) = 8%nat.
Proof. done. Qed.

Lemma bits_of_length bs : length (bits_of bs) = (8 * length bs)%nat.
Proof.
  induction bs as [|b bs IH]; [done|]. unfold bits_of in *. cbn [mbind list_bind length].
  rewrite length_app, IH, byte_bits_length. lia.
Qed.

Lemma drop_bits n bs : drop (8 * n) (bits_of bs) = bits_of (drop n bs).
Proof.
  revert bs. induction n as [|n IH]; intros bs; [done|]. destruct bs as [|b bs]; [by rewrite drop_nil|].
  unfold bits_of at 1. cbn [mbind list_bind]. fold (bits_of bs).
  replace (8 * S n)%nat with (length (byte_bits b) + 8 * n)%nat by (rewrite byte_bits_length; lia).
  by rewrite drop_app_add, IH.
Qed.

(** what is left, at a byte boundary and inside a byte *)
Lemma remaining_in r b :
  rd_bytes r !! byte_pos r = Some b → (bit_pos r ≤ 8)%nat →
  remaining r = drop (bit_pos r) (byte_bits b) ++ bits_of (drop (S (byte_pos r)) (rd_bytes r)).
Proof.
  intros Hb Hp. unfold remaining. rewrite <-drop_drop, drop_bits, (drop_S _ _ _ Hb).
  unfold bits_of. cbn [mbind list_bind]. rewrite drop_app_le by (rewrite byte_bits_length; lia). done.
Qed.

Lemma remaining_end r : rd_bytes r !! byte_pos r = None → remaining r = [].
Proof.
  intros Hb. apply lookup_ge_None in Hb. unfold remaining. apply drop_ge. rewrite bits_of_length. lia.
Qed.

Lemma remaining_next bs n : remaining (mkReader bs n 8) = remaining (mkReader bs (n + 1) 0).
Proof. unfold remaining. cbn [rd_bytes byte_pos bit_pos]. f_equal. lia. Qed.

(** one bit *)
Lemma bit_at b k : (k < 8)%nat →
  drop k (byte_bits b) =
    (if bool_decide (Z.land (u8 b) (wrap 8 (Z.shiftl 1 (7 - Z.of_nat k))) = 0) then 0 else 1) :: drop (S k) (byte_bits b).
Proof.
  intros Hk. apply (bool_decide_eq_true_1 _).
  revert b. apply (forall_bytes (λ b, bool_decide (drop k (byte_bits b) =
    (if bool_decide (Z.land (u8 b) (wrap 8 (Z.shiftl 1 (7 - Z.of_nat k))) = 0) then 0 else 1) :: drop (S k) (byte_bits b)))).
  do 8 (destruct k as [|k]; [vm_compute; reflexivity|]). lia.
Qed.

Lemma read_bit_spec r :
  (bit_pos r ≤ 8)%nat →
  match remaining r with
  | [] => (read_bit r).2 = None
  | b :: bits => ∃ r', read_bit r = (r', Some b) ∧ remaining r' = bits ∧ rd_bytes r' = rd_bytes r ∧ (bit_pos r' ≤ 8)%nat
  end.
Proof.
  intros Hp. destruct r as [bs n k]. cbn [bit_pos] in Hp. unfold read_bit. cbn [bit_pos byte_pos rd_bytes].
  set (r0 := if bool_decide (k = 8%nat) then mkReader bs (n + 1) 0 else mkReader bs n k).
  assert (Hr0 : rd_bytes r0 = bs ∧ (bit_pos r0 < 8)%nat ∧ remaining (mkReader bs n k) = remaining r0).
  { unfold r0. case_bool_decide; cbn [rd_bytes bit_pos]; split_and!; try done; try lia. subst k. apply remaining_next. }
  destruct Hr0 as (Hbs & Hk & ->). clearbody r0. rewrite Hbs.
  destruct (bs !! byte_pos r0) as [b|] eqn:Hb; [|by rewrite remaining_end by (by rewrite Hbs)].
  rewrite (remaining_in r0 b) by first [by rewrite Hbs|lia]. rewrite (bit_at b (bit_pos r0)) by done. cbn [app].
  eexists. split; [reflexivity|]. split_and!; [|done|cbn; lia].
  rewrite (remaining_in _ b) by first [done|cbn [bit_pos]; lia]. cbn [rd_bytes byte_pos bit_pos].
  by rewrite Hbs, Nat.add_1_r.
Qed.

(** one byte *)
Lemma byte_split b k : (k ≤ 8)%nat →
  wrap 8 (Z.shiftl (u8 b) (Z.of_nat k)) = value_of (drop k (byte_bits b)) 0 * 2 ^ Z.of_nat k ∧
  Z.shiftr (u8 b) (8 - Z.of_nat k) = value_of (take k (byte_bits b)) 0 ∧
  0 ≤ value_of (take k (byte_bits b)) 0 < 2 ^ Z.of_nat k.
Proof.
  intros Hk. apply (bool_decide_eq_true_1 _). revert b.
  apply (forall_bytes (λ b, bool_decide (
    wrap 8 (Z.shiftl (u8 b) (Z.of_nat k)) = value_of (drop k (byte_bits b)) 0 * 2 ^ Z.of_nat k ∧
    Z.shiftr (u8 b) (8 - Z.of_nat k) = value_of (take k (byte_bits b)) 0 ∧
    0 ≤ value_of (take k (byte_bits b)) 0 < 2 ^ Z.of_nat k))).
  do 9 (destruct k as [|k]; [vm_compute; reflexivity|]). lia.
Qed.

Lemma read_byte_spec r :
  (bit_pos r ≤ 8)%nat →
  if bool_decide (length (remaining r) < 8)%nat then (read_byte r).2 = None
  else ∃ r', read_byte r = (r', Some (value_of (take 8 (remaining r)) 0)) ∧ remaining r' = drop 8 (remaining r) ∧
       rd_bytes r' = rd_bytes r ∧ (bit_pos r' ≤ 8)%nat.
Proof.
  intros Hp. destruct r as [bs n k]. cbn [bit_pos] in Hp. unfold read_byte. cbn [bit_pos byte_pos rd_bytes].
  assert (Hwhole : ∀ m b, bs !! m = Some b →
    take 8 (remaining (mkReader bs m 0)) = byte_bits b ∧ remaining (mkReader bs m 8) = drop 8 (remaining (mkReader bs m 0)) ∧
    (8 ≤ length (remaining (mkReader bs m 0)))%nat).
  { intros m b Hb. rewrite !(remaining_in _ b) by first [done|cbn [bit_pos]; lia]. cbn [bit_pos byte_pos rd_bytes].
    rewrite drop_0, take_app_length', drop_app_length' by done. rewrite drop_ge by (by rewrite byte_bits_length).
    split_and!; [done..|]. rewrite length_app, byte_bits_length. lia. }
  destruct (decide (k = 0%nat)) as [->|H0]; [|destruct (decide (k = 8%nat)) as [->|H8]].
  - rewrite (bool_decide_true (0%nat = 0%nat)) by done. destruct (bs !! n) as [b|] eqn:Hb.
    + destruct (Hwhole n b Hb) as (Ht & Hd & Hl). rewrite bool_decide_false by lia. rewrite Ht, byte_value.
      eexists. by split_and!.
    + rewrite remaining_end by done. by rewrite bool_decide_true by (simpl; lia).
  - rewrite (bool_decide_false (8%nat = 0%nat)), (bool_decide_true (8%nat = 8%nat)) by done. rewrite remaining_next. cbn [byte_pos rd_bytes].
    destruct (bs !! (n + 1)%nat) as [b|] eqn:Hb.
    + destruct (Hwhole (n + 1)%nat b Hb) as (Ht & Hd & Hl). rewrite bool_decide_false by lia. rewrite Ht, byte_value.
      eexists. by split_and!.
    + rewrite remaining_end by done. by rewrite bool_decide_true by (simpl; lia).
  - rewrite (bool_decide_false (k = 0%nat)), (bool_decide_false (k = 8%nat)) by done.
    destruct (bs !! n) as [b1|] eqn:Hb1; cycle 1.
    { rewrite remaining_end by done. by rewrite bool_decide_true by (simpl; lia). }
    rewrite (remaining_in _ b1) by first [done|cbn [bit_pos]; lia]. cbn [bit_pos byte_pos rd_bytes].
    assert (Hlen1 : length (drop k (byte_bits b1)) = (8 - k)%nat) by (rewrite length_drop, byte_bits_length; done).
    rewrite Nat.add_1_r. destruct (bs !! S n) as [b2|] eqn:Hb2; cycle 1.
    { apply lookup_ge_None in Hb2. rewrite (drop_ge bs) by lia. cbn [bits_of mbind list_bind]. rewrite app_nil_r, Hlen1.
      by rewrite bool_decide_true by lia. }
    rewrite (drop_S _ _ _ Hb2). unfold bits_of. cbn [mbind list_bind]. fold (bits_of (drop (S (S n)) bs)).
    rewrite bool_decide_false by (rewrite !length_app, Hlen1, byte_bits_length; lia).
    exists (mkReader bs (S n) k). split; [|split_and!; [|done|cbn; lia]].
    + destruct (byte_split b1 k) as (-> & _ & _); [lia|]. destruct (byte_split b2 k) as (_ & -> & Hr); [lia|].
      rewrite lor_low_bits by lia. f_equal. f_equal.
      rewrite take_app, Hlen1. rewrite (firstn_all2 (drop k _)) by lia. replace (8 - (8 - k))%nat with k by lia.
      rewrite take_app_le by (rewrite byte_bits_length; lia). rewrite value_of_app.
      rewrite (value_of_acc (take k _) (value_of _ _)), length_take, byte_bits_length, Nat.min_l by lia. done.
    + rewrite (remaining_in _ b2) by first [done|cbn [bit_pos]; lia]. cbn [rd_bytes byte_pos bit_pos].
      rewrite drop_app, Hlen1, (drop_ge (drop k _)) by lia. replace (8 - (8 - k))%nat with k by lia.
      rewrite drop_app_le by (rewrite byte_bits_length; lia). done.
Qed.

(** ** Several bits *)
Lemma remaining_bits r : Forall (λ b, 0 ≤ b ≤ 1) (remaining r).
Proof.
  unfold remaining, bits_of. apply Forall_drop, Forall_bind, Forall_forall. intros b _.
  apply Forall_fmap, Forall_forall. intros i _. cbn. destruct (Z.testbit (u8 b) i); simpl; lia.
Qed.

Lemma value_of_range l acc m :
  Forall (λ b, 0 ≤ b ≤ 1) l → 0 ≤ acc < 2 ^ Z.of_nat m → 0 ≤ value_of l acc < 2 ^ Z.of_nat (m + length l).
Proof.
  intros Hl. revert acc m. induction Hl as [|b l Hb _ IH]; intros acc m Ha; cbn [value_of length].
  - by rewrite Nat.add_0_r.
  - rewrite Nat.add_succ_r, <-Nat.add_succ_l. apply IH.
    rewrite Nat2Z.inj_succ, Z.pow_succ_r by lia. lia.
Qed.

Lemma shift_or acc x k :
  0 ≤ acc → 0 ≤ k → acc * 2 ^ k + x < 2 ^ 64 → 0 ≤ x < 2 ^ k → Z.lor (wrap 64 (Z.shiftl acc k)) x = acc * 2 ^ k + x.
Proof.
  intros Ha Hk Hs Hx. rewrite Z.shiftl_mul_pow2, wrap_small by (unfold in_u; lia). by apply lor_low_bits.
Qed.

Lemma read_whole_spec n : ∀ bits r m,
  (bit_pos r ≤ 8)%nat → 0 ≤ bits < 2 ^ Z.of_nat m → (m + 8 * n ≤ 64)%nat →
  if bool_decide (length (remaining r) < 8 * n)%nat then (read_whole_bytes n bits r).2 = None
  else ∃ r', read_whole_bytes n bits r = (r', Some (value_of (take (8 * n) (remaining r)) bits)) ∧
       remaining r' = drop (8 * n) (remaining r) ∧ rd_bytes r' = rd_bytes r ∧ (bit_pos r' ≤ 8)%nat.
Proof.
  induction n as [|n IH]; intros bits r m Hp Hb Hm; cbn [read_whole_bytes].
  { rewrite bool_decide_false by lia. exists r. by rewrite Nat.mul_0_r, take_0, drop_0. }
  pose proof (read_byte_spec r Hp) as Hr. destruct (decide (length (remaining r) < 8)%nat) as [Hlt|Hlt].
  { rewrite bool_decide_true in Hr by done. destruct (read_byte r) as [r' o]. cbn in Hr. subst o. by rewrite bool_decide_true by lia. }
  rewrite bool_decide_false in Hr by done. destruct Hr as (r' & -> & Hrem & Hbs & Hp').
  assert (Hf : Forall (λ b, 0 ≤ b ≤ 1) (take 8 (remaining r))) by apply Forall_take, remaining_bits.
  assert (Hl8 : length (take 8 (remaining r)) = 8%nat) by (rewrite length_take; lia).
  pose proof (value_of_range _ 0 0 Hf ltac:(simpl; lia)) as Hv. rewrite Hl8 in Hv.
  pose proof (value_of_range _ bits m Hf Hb) as Hv'. rewrite Hl8 in Hv'.
  assert (H64 : 2 ^ Z.of_nat (m + 8) ≤ 2 ^ 64) by (apply Z.pow_le_mono_r; lia).
  pose proof (value_of_acc (take 8 (remaining r)) bits) as Hacc. rewrite Hl8 in Hacc.
  change (Z.of_nat 8) with 8 in Hacc. change (Z.of_nat (0 + 8)) with 8 in Hv.
  rewrite shift_or by lia. rewrite <-Hacc.
  pose proof (IH (value_of (take 8 (remaining r)) bits) r' (m + 8)%nat Hp' Hv' ltac:(lia)) as HIH.
  rewrite Hrem, length_drop in HIH.
  destruct (decide (length (remaining r) < 8 * S n)%nat) as [H1|H1].
  - rewrite bool_decide_true in HIH by lia. by rewrite bool_decide_true by lia.
  - rewrite bool_decide_false in HIH by lia. rewrite bool_decide_false by lia.
    destruct HIH as (r2 & -> & Hrem2 & Hbs2 & Hp2). exists r2. split_and!; try done; try congruence.
    + f_equal. f_equal. rewrite <-value_of_app, take_take_drop. f_equal. f_equal. lia.
    + rewrite Hrem2, drop_drop. f_equal. lia.
Qed.

Lemma read_single_spec n : ∀ bits r m,
  (bit_pos r ≤ 8)%nat → 0 ≤ bits < 2 ^ Z.of_nat m → (m + n ≤ 64)%nat →
  if bool_decide (length (remaining r) < n)%nat then (read_single_bits n bits r).2 = None
  else ∃ r', read_single_bits n bits r = (r', Some (value_of (take n (remaining r)) bits)) ∧
       remaining r' = drop n (remaining r) ∧ rd_bytes r' = rd_bytes r ∧ (bit_pos r' ≤ 8)%nat.
Proof.
  induction n as [|n IH]; intros bits r m Hp Hb Hm; cbn [read_single_bits].
  { rewrite bool_decide_false by lia. exists r. by rewrite take_0, drop_0. }
  pose proof (read_bit_spec r Hp) as Hr. pose proof (remaining_bits r) as Hf.
  destruct (remaining r) as [|b bits'] eqn:Hrem0.
  { destruct (read_bit r) as [r' o]. cbn in Hr. subst o. by rewrite bool_decide_true by (simpl; lia). }
  destruct Hr as (r' & -> & Hrem & Hbs & Hp'). apply Forall_cons in Hf as [Hb1 _].
  assert (H64 : 2 ^ Z.of_nat (S m) ≤ 2 ^ 64) by (apply Z.pow_le_mono_r; lia).
  assert (Hs : 2 ^ Z.of_nat (S m) = 2 * 2 ^ Z.of_nat m) by (rewrite Nat2Z.inj_succ, Z.pow_succ_r by lia; lia).
  rewrite shift_or by lia. change (2 ^ 1) with 2.
  pose proof (IH (bits * 2 + b) r' (S m) Hp' ltac:(lia) ltac:(lia)) as HIH. rewrite Hrem in HIH.
  cbn [length]. destruct (decide (length bits' < n)%nat) as [H1|H1].
  - rewrite bool_decide_true in HIH by done. by rewrite bool_decide_true by lia.
  - rewrite bool_decide_false in HIH by done. rewrite bool_decide_false by lia.
    destruct HIH as (r2 & -> & Hrem2 & Hbs2 & Hp2). exists r2. cbn [take drop value_of].
    replace (2 * bits + b) with (bits * 2 + b) by lia. split_and!; try done. congruence.
Qed.

(** The bit reader reads the slice as a list of bits.  Whatever bits were
    read before, [read_bits n] returns the next [min n 64] bits as a number,
    most significant first, and advances by as many; it fails exactly when
    fewer are left.  [peak_bits] returns the same number and, when it succeeds,
    does not advance. *)
Theorem bit_reader_exact (num : nat) (r : BytesReader) :
  (bit_pos r ≤ 8)%nat →
  let n := Nat.min num 64 in
  if bool_decide (length (remaining r) < n)%nat
  then (read_bits num r).2 = None ∧ (peak_bits num r).2 = None
  else ∃ r', read_bits num r = (r', Some (value_of (take n (remaining r)) 0)) ∧
       remaining r' = drop n (remaining r) ∧ (bit_pos r' ≤ 8)%nat ∧
       peak_bits num r = (r, Some (value_of (take n (remaining r)) 0)).
Proof.
  intros Hp n. pose proof (Nat.div_mod_eq n 8) as Hn. pose proof (Nat.mod_upper_bound n 8 ltac:(lia)) as Hn8.
  assert (Hn64 : (n ≤ 64)%nat) by (unfold n; lia).
  unfold peak_bits, read_bits. fold n.
  pose proof (read_whole_spec (n / 8) 0 r 0 Hp ltac:(simpl; lia) ltac:(lia)) as Hw.
  destruct (decide (length (remaining r) < 8 * (n / 8))%nat) as [H1|H1].
  { rewrite bool_decide_true in Hw by done. destruct (read_whole_bytes _ _ _) as [r' o]. cbn in Hw. subst o.
    by rewrite bool_decide_true by lia. }
  rewrite bool_decide_false in Hw by done. destruct Hw as (r1 & -> & Hrem1 & Hbs1 & Hp1).
  assert (Hf : Forall (λ b, 0 ≤ b ≤ 1) (take (8 * (n / 8)) (remaining r))) by apply Forall_take, remaining_bits.
  pose proof (value_of_range _ 0 0 Hf ltac:(simpl; lia)) as Hv. rewrite length_take, Nat.min_l in Hv by lia.
  pose proof (read_single_spec (n mod 8) _ r1 _ Hp1 Hv ltac:(lia)) as Hs. rewrite Hrem1, length_drop in Hs.
  destruct (decide (length (remaining r) < n)%nat) as [H2|H2].
  - rewrite bool_decide_true in Hs by lia. rewrite bool_decide_true by done.
    destruct (read_single_bits _ _ _) as [r' o]. cbn in Hs. by subst o.
  - rewrite bool_decide_false in Hs by lia. rewrite bool_decide_false by done.
    destruct Hs as (r2 & -> & Hrem2 & Hbs2 & Hp2). exists r2.
    assert (Hval : value_of (take (n mod 8) (drop (8 * (n / 8)) (remaining r))) (value_of (take (8 * (n / 8)) (remaining r)) 0)
                   = value_of (take n (remaining r)) 0).
    { by rewrite <-value_of_app, take_take_drop, <-Hn. }
    rewrite Hval. split_and!; try done.
    + rewrite Hrem2, drop_drop. f_equal. lia.
    + f_equal. rewrite Hbs2, Hbs1. by destruct r.
Qed.

Lemma bit_reader_exact_witness :
  ∃ r', read_bits 11 (mkReader [x61; xff; x80] 0 3) = (r', Some 127) ∧ bit_pos r' = 6%nat.
Proof.
  pose proof (bit_reader_exact 11 (mkReader [x61; xff; x80] 0 3) ltac:(simpl; lia)) as H.
  cbv zeta in H. rewrite bool_decide_false in H by (vm_compute; lia). destruct H as (r' & Hr & _).
  exists r'. split; [exact Hr|]. vm_compute in Hr. by injection Hr as <-.
Defined.
End TsBits.
