(* ===== verification/TsMerge.v ===== *)
(** * timeseries: sample values and the merge operator

    [TimeSeriesValue] over Gorilla compression (the [tsz] crate) and posting
    lists over Roaring bitmaps (the [roaring] crate) are classes with the round
    trips of those crates as laws; [merge_batch] is the operator the store
    applies to the values of one key. *)
From stdpp Require Import gmap.
From S2P Require Import Prelude SortBy Serde Encoding Storage KvStore TsSerde.

Module TsMerge.
Import Ts.

(** A stream of (time, value), both [u64]; an item is an error when decoding
    fails there, and the stream ends at [EndOfStream]. *)
Class Tsz : Type := {
  tsz_encode : Z → list (Z * Z) → bytes;
  tsz_items : bytes → list (option (Z * Z));
}.

(** What [tsz] documents: a stream of non-decreasing times that starts at its first
    point, the times no further apart than the widest delta of deltas, reads back. *)
Definition tsz_ok (start : Z) (pts : list (Z * Z)) : Prop :=
  fst <$> head pts = Some start ∧ Forall (λ p, in_u 64 p.1 ∧ in_u 64 p.2 ∧ start ≤ p.1 < start + 2 ^ 31) pts ∧
  StronglySorted (λ p q, p.1 ≤ q.1) pts.

Class TszLaws `{!Tsz} : Prop := {
  tsz_nonempty start pts : tsz_ok start pts → tsz_encode start pts ≠ [];
  tsz_roundtrip start pts : tsz_ok start pts → tsz_items (tsz_encode start pts) = Some <$> pts;
}.

(** A set of [u32], serialized. *)
Class Roaring : Type := {
  rb_serialize : gset Z → option bytes;
  rb_deserialize : bytes → option (gset Z);
}.

Class RoaringLaws `{!Roaring} : Prop := {
  rb_roundtrip s : (∀ x, x ∈ s → in_u 32 x) → ∃ b, rb_serialize s = Some b ∧ rb_deserialize b = Some s;
}.

Section merge.
Context {T : Tsz} {RB : Roaring}.

(** ** serde/timeseries.rs *)
Definition data_point (s : Sample) : Z * Z := (wrap 64 (timestamp_ms s), s_value s).
Definition sample_of (p : Z * Z) : Sample := mkSample (as_signed 64 p.1) p.2.

(** [TimeSeriesIterator::new] and the items it yields *)
Definition series_items (buf : bytes) : option (list (res Error Sample)) :=
  if bool_decide (buf = []) then None
  else Some ((λ o, match o with Some p => Ok (sample_of p) | None => Err ErrTsz end) <$> tsz_items buf).

Fixpoint collect {A} (items : list (res Error A)) : res Error (list A) :=
  match items with
  | [] => Ok []
  | i :: items => let? x := i in let? xs := collect items in Ok (x :: xs)
  end.

Definition series_encode (points : list Sample) : res Error bytes :=
  match points with
  | [] => Ok []
  | p :: _ => Ok (tsz_encode (wrap 64 (timestamp_ms p)) (data_point <$> points))
  end.

Definition series_decode (buf : bytes) : res Error (list Sample) :=
  match series_items buf with
  | None => Ok []
  | Some items => collect items
  end.

Definition sources (existing : option bytes) (operands : list bytes) : list bytes :=
  filter (λ b, b ≠ []) (option_list existing ++ operands).

(** the samples of every source with its index *)
Fixpoint prioritized (priority : Z) (srcs : list bytes) : res Error (list (Z * Sample)) :=
  match srcs with
  | [] => Ok []
  | src :: srcs =>
      let? items := expect (series_items src) in
      let? points := collect items in
      let? rest := prioritized (priority + 1) srcs in
      Ok ((pair priority <$> points) ++ rest)
  end.

Definition by_time_then_newest (a b : Z * Sample) : bool :=
  (timestamp_ms a.2 <? timestamp_ms b.2) || ((timestamp_ms a.2 =? timestamp_ms b.2) && (b.1 <=? a.1)).

Definition merge_batch_time_series (existing : option bytes) (operands : list bytes) : res Error bytes :=
  match sources existing operands with
  | [] => Ok []
  | [src] => Ok src
  | srcs =>
      let? samples := prioritized 0 srcs in
      if bool_decide (samples = []) then Ok []
      else
        let samples := sort_by by_time_then_newest samples in
        let samples := dedup_by (λ a b, timestamp_ms a.2 =? timestamp_ms b.2) samples in
        series_encode (snd <$> samples)
  end.

(** ** serde/inverted_index.rs, storage/merge_operator.rs *)
Definition postings_encode (s : gset Z) : res Error bytes :=
  match rb_serialize s with Some b => Ok b | None => Err ErrRoaring end.
Definition postings_decode (buf : bytes) : res Error (gset Z) :=
  match rb_deserialize buf with Some s => Ok s | None => Err ErrRoaring end.

Fixpoint union_all (acc : gset Z) (operands : list bytes) : res Error (gset Z) :=
  match operands with
  | [] => Ok acc
  | op :: operands => let? s := postings_decode op in union_all (acc ∪ s) operands
  end.

Definition merge_batch_inverted_index (existing : option bytes) (operands : list bytes) : res Error bytes :=
  let? acc := match existing with Some e => postings_decode e | None => Ok ∅ end in
  let? merged := union_all acc operands in
  postings_encode merged.

Definition add_bucket (buckets : list (Z * Z)) (b : Z * Z) : list (Z * Z) :=
  if bool_decide (b ∈ buckets) then buckets else buckets ++ [b].

Fixpoint add_buckets (buckets : list (Z * Z)) (operands : list bytes) : res Error (list (Z * Z)) :=
  match operands with
  | [] => Ok buckets
  | op :: operands => let? other := bucket_list_decode op in add_buckets (foldl add_bucket buckets other) operands
  end.

Definition by_start (a b : Z * Z) : bool := a.2 <=? b.2.

Definition merge_batch_bucket_list (existing : option bytes) (operands : list bytes) : res Error bytes :=
  let? buckets := match existing with Some e => bucket_list_decode e | None => Ok [] end in
  let? buckets := add_buckets buckets operands in
  bucket_list_encode (sort_by by_start buckets).

(** [OpenTsdbMergeOperator::merge_batch]; every [unwrap] and [expect] panics *)
Definition merge_batch (key : bytes) (existing_value : option bytes) (operands : list bytes) : res Error bytes :=
  let unwrap {A} (r : res Error A) : res Error A := match r with Err _ => Panic | _ => r end in
  let? p := unwrap (res_map_err ErrDeserialize (KeyPrefix.from_bytes key)) in
  let? record_type := unwrap (from_prefix p) in
  match record_type with
  | InvertedIndex => unwrap (merge_batch_inverted_index existing_value operands)
  | TimeSeries => unwrap (merge_batch_time_series existing_value operands)
  | BucketList => unwrap (merge_batch_bucket_list existing_value operands)
  | _ => default_merge_batch key existing_value operands (λ _ _ v, v)
  end.
End merge.

(** ** Time series *)
Section series.
Context {T : Tsz} {TL : TszLaws} {RB : Roaring}.

Definition time_lt (a b : Sample) : Prop := timestamp_ms a < timestamp_ms b.
#[global] Instance time_lt_trans : Transitive time_lt.
Proof. intros a b c. unfold time_lt. lia. Qed.
#[global] Instance time_lt_irrefl : Irreflexive time_lt.
Proof. intros a. unfold Irreflexive, complement, time_lt. lia. Qed.

(** samples of a time window, [i64] times and [u64] values *)
Definition in_window (lo : Z) (s : Sample) : Prop :=
  0 ≤ lo ∧ lo + 2 ^ 31 ≤ 2 ^ 63 ∧ lo ≤ timestamp_ms s < lo + 2 ^ 31 ∧ in_u 64 (s_value s).

(** [points] as they are stored: in time order, one sample per time *)
Definition Stored (lo : Z) (value : bytes) (points : list Sample) : Prop :=
  series_encode points = Ok value ∧ Forall (in_window lo) points ∧ StronglySorted time_lt points.

Lemma window_cast lo s : in_window lo s → sample_of (data_point s) = s ∧ data_point s = (timestamp_ms s, s_value s).
Proof.
  intros (H1 & H2 & H3 & H4). unfold sample_of, data_point. cbn [fst snd].
  rewrite wrap_small by (unfold in_u; lia). unfold as_signed. rewrite wrap_small by (unfold in_u; lia).
  rewrite bool_decide_true by lia. by destruct s.
Qed.

Lemma points_tsz_ok lo p pts :
  Forall (in_window lo) (p :: pts) → StronglySorted time_lt (p :: pts) →
  tsz_ok (wrap 64 (timestamp_ms p)) (data_point <$> p :: pts).
Proof.
  intros Hw Hs. pose proof Hw as [Hp _]%Forall_cons. pose proof Hs as [_ Hall]%StronglySorted_inv.
  assert (Hstart : wrap 64 (timestamp_ms p) = timestamp_ms p)
    by (rewrite wrap_small; [done|]; destruct Hp as (? & ? & ? & ?); unfold in_u; lia).
  rewrite Hstart. split_and!.
  - rewrite fmap_cons. unfold data_point. cbn. by rewrite Hstart.
  - apply Forall_fmap, Forall_forall. intros s Hin. rewrite Forall_forall in Hw, Hall.
    pose proof (Hw s Hin) as Hws. unfold compose. destruct (window_cast lo s Hws) as [_ ->]. cbn [fst snd].
    destruct Hws as (? & ? & ? & Hv), Hp as (? & ? & ? & ?). unfold in_u in *. split_and!; try lia.
    apply elem_of_cons in Hin as [->|Hin]; [lia|]. specialize (Hall s Hin). unfold time_lt in Hall. lia.
  - eapply (sorted_fmap time_lt); [|exact Hs]. intros a b Ha Hb Hab. rewrite Forall_forall in Hw.
    destruct (window_cast lo a (Hw a Ha)) as [_ ->], (window_cast lo b (Hw b Hb)) as [_ ->]. cbn.
    unfold time_lt in Hab. lia.
Qed.

Lemma collect_ok {A} (l : list A) : collect (Ok <$> l) = Ok l.
Proof. induction l as [|x l IH]; [done|]. rewrite fmap_cons. cbn [collect res_bind]. by rewrite IH. Qed.

(** Stored points read back. *)
Lemma stored_items lo value points :
  Stored lo value points → (points = [] ∧ value = []) ∨
    (points ≠ [] ∧ value ≠ [] ∧ series_items value = Some (Ok <$> points)).
Proof.
  intros (He & Hw & Hs). destruct points as [|p pts]; [by left; injection He as <-|right].
  cbn [series_encode] in He. injection He as <-. pose proof (points_tsz_ok lo p pts Hw Hs) as Hok.
  pose proof (tsz_nonempty _ _ Hok) as Hne.
  split_and!; [done|exact Hne|]. unfold series_items. rewrite bool_decide_false by exact Hne. rewrite tsz_roundtrip by done.
  clear -Hw. f_equal. change (data_point p :: _) with (data_point <$> p :: pts). revert Hw. generalize (p :: pts) as l. intros l Hw. induction Hw as [|s l Hs _ IH]; [done|]. rewrite !fmap_cons, IH.
  by destruct (window_cast lo s Hs) as [-> _].
Qed.

Lemma stored_decode lo value points : Stored lo value points → series_decode value = Ok points.
Proof.
  intros Hs. unfold series_decode. destruct (stored_items _ _ _ Hs) as [[-> ->]|(_ & _ & ->)]; [done|apply collect_ok].
Qed.

Lemma stored_encode lo points :
  Forall (in_window lo) points → StronglySorted time_lt points → ∃ value, Stored lo value points.
Proof. intros Hw Hs. destruct points as [|p pts]; eexists; split; done. Qed.

(** ** What a merge means: for every time, the newest value *)
Definition lookup_at (t : Z) (points : list Sample) : option Z := s_value <$> head (filter (λ s, timestamp_ms s = t) points).
Definition newest (t : Z) (sources : list (list Sample)) : option Z := last (omap (lookup_at t) sources).

Lemma lookup_at_spec t v points :
  StronglySorted time_lt points → lookup_at t points = Some v ↔ mkSample t v ∈ points.
Proof.
  intros Hs. unfold lookup_at. split.
  - destruct (filter _ points) as [|s l] eqn:E; [done|]. intros [= <-].
    assert (Hin : s ∈ filter (λ s, timestamp_ms s = t) points) by (rewrite E; left).
    apply list_elem_of_filter in Hin as [<- Hin]. by destruct s.
  - intros Hin. assert (Hf : filter (λ s, timestamp_ms s = t) points = [mkSample t v]); [|by rewrite Hf].
    eapply (sorted_ext time_lt); [by apply sorted_filter|repeat constructor|].
    intros x. rewrite list_elem_of_filter, list_elem_of_singleton. split; [|by intros ->].
    intros [Ht Hx]. destruct (sorted_total time_lt points x (mkSample t v) Hs Hx Hin) as [->|[H|H]]; [done|..];
      unfold time_lt in H; cbn in H; lia.
Qed.

Lemma newest_snoc t ptss pts :
  newest t (ptss ++ [pts]) = match lookup_at t pts with Some v => Some v | None => newest t ptss end.
Proof.
  unfold newest. rewrite omap_app. cbn. destruct (lookup_at t pts); [by rewrite last_snoc|by rewrite app_nil_r].
Qed.

Lemma newest_app t ptss1 ptss2 :
  newest t (ptss1 ++ ptss2) = match newest t ptss2 with Some v => Some v | None => newest t ptss1 end.
Proof.
  induction ptss2 as [|pts ptss2 IH] using rev_ind; [by rewrite app_nil_r|].
  rewrite app_assoc, !newest_snoc, IH. by destruct (lookup_at t pts).
Qed.

Lemma newest_nil_source t ptss : newest t (filter (λ l, l ≠ []) ptss) = newest t ptss.
Proof.
  unfold newest. f_equal. induction ptss as [|pts ptss IH]; [done|]. rewrite filter_cons. case_decide as H.
  - cbn. by rewrite IH.
  - subst pts. exact IH.
Qed.

Lemma newest_spec t v ptss :
  newest t ptss = Some v ↔ ∃ j pts, ptss !! j = Some pts ∧ lookup_at t pts = Some v ∧
    ∀ j' pts', (j < j')%nat → ptss !! j' = Some pts' → lookup_at t pts' = None.
Proof.
  induction ptss as [|pts ptss IH] using rev_ind.
  { split; [done|]. intros (? & ? & ? & _). done. }
  rewrite newest_snoc. split.
  - destruct (lookup_at t pts) as [w|] eqn:E.
    + intros [= <-]. exists (length ptss), pts. split_and!; [by rewrite lookup_app_r, Nat.sub_diag by lia|done|].
      intros j' pts' Hj Hl. apply lookup_lt_Some in Hl. rewrite length_app in Hl. simpl in Hl. lia.
    + intros (j & pts0 & Hj & Hv & Hlater)%IH. exists j, pts0. split_and!; [by apply lookup_app_l_Some|done|].
      intros j' pts' Hjj Hl. apply lookup_app_Some in Hl as [Hl|[Hge Hl]]; [by apply (Hlater j')|].
      apply list_lookup_singleton_Some in Hl as [_ <-]. done.
  - intros (j & pts0 & Hj & Hv & Hlater). apply lookup_app_Some in Hj as [Hj|[Hge Hj]].
    + assert (Hn : lookup_at t pts = None).
      { apply (Hlater (length ptss)); [by eapply lookup_lt_Some|]. by rewrite lookup_app_r, Nat.sub_diag by lia. }
      rewrite Hn. apply IH. exists j, pts0. split_and!; [done..|]. intros j' pts' Hjj Hl.
      apply (Hlater j'); [done|]. by apply lookup_app_l_Some.
    + apply list_lookup_singleton_Some in Hj as [_ <-]. by rewrite Hv.
Qed.

Lemma prioritized_spec srcs ptss : ∀ i,
  Forall2 (λ v pts, series_items v = Some (Ok <$> pts)) srcs ptss →
  ∃ samples, prioritized i srcs = Ok samples ∧
    ∀ k s, (k, s) ∈ samples ↔ ∃ j pts, ptss !! j = Some pts ∧ k = i + Z.of_nat j ∧ s ∈ pts.
Proof.
  intros i H. revert i. induction H as [|v pts srcs ptss Hv _ IH]; intros i; cbn [prioritized].
  { exists []. split; [done|]. intros k s. split; [by intros ?%not_elem_of_nil|]. by intros (? & ? & ? & _). }
  rewrite Hv. cbn [expect res_bind]. rewrite collect_ok. cbn [res_bind].
  destruct (IH (i + 1)) as (rest & -> & Hrest). cbn [res_bind]. eexists. split; [done|].
  intros k s. rewrite elem_of_app, Hrest, list_elem_of_fmap. split.
  - intros [(s' & [= -> ->] & Hs)|(j & pts' & Hj & -> & Hs)].
    + exists 0%nat, pts. split_and!; [done|lia|done].
    + exists (S j), pts'. split_and!; [done|lia|done].
  - intros ([|j] & pts' & Hj & -> & Hs); cbn in Hj.
    + left. injection Hj as <-. exists s. split; [f_equal; lia|done].
    + right. exists j, pts'. split_and!; [done|lia|done].
Qed.

(** Sorting by time and age and keeping the first of each time keeps the newest. *)
Lemma merged_samples ptss samples :
  Forall (StronglySorted time_lt) ptss →
  (∀ k s, (k, s) ∈ samples ↔ ∃ j pts, ptss !! j = Some pts ∧ k = 0 + Z.of_nat j ∧ s ∈ pts) →
  let r := snd <$> dedup_by (λ a b, timestamp_ms a.2 =? timestamp_ms b.2) (sort_by by_time_then_newest samples) in
  StronglySorted time_lt r ∧ ∀ s, s ∈ r ↔ newest (timestamp_ms s) ptss = Some (s_value s).
Proof.
  intros Hsort Hin. cbv zeta.
  destruct (sort_dedup_spec (λ a : Z * Sample, timestamp_ms a.2) fst samples) as (H1 & H2 & H3).
  change (λ x y : Z * Sample, _ || _) with by_time_then_newest in *.
  set (d := dedup_by _ _) in *. rewrite Forall_forall in Hsort.
  assert (Hlook : ∀ j pts s, ptss !! j = Some pts → s ∈ pts → lookup_at (timestamp_ms s) pts = Some (s_value s)).
  { intros j pts s Hj Hs. apply lookup_at_spec; [by eapply Hsort, list_elem_of_lookup_2|]. by destruct s. }
  split; [by eapply (sorted_fmap _ time_lt); [|exact H1]|].
  intros s. rewrite list_elem_of_fmap, newest_spec. split.
  - intros ([k s'] & -> & Hd). cbn [snd]. destruct (H2 _ Hd) as [(j & pts & Hj & Hk & Hs)%Hin Hmax]. cbn [fst snd] in *.
    exists j, pts. split_and!; [done|by eapply Hlook|].
    intros j' pts' Hlt Hj'. destruct (lookup_at (timestamp_ms s') pts') as [v'|] eqn:E; [|done].
    apply lookup_at_spec in E; [|by eapply Hsort, list_elem_of_lookup_2].
    specialize (Hmax (Z.of_nat j', mkSample (timestamp_ms s') v')). cbn in Hmax.
    assert (Z.of_nat j' ≤ k); [|lia]. apply Hmax; [|done]. apply Hin. exists j', pts'. split_and!; [done|lia|done].
  - intros (j & pts & Hj & Hv & Hlater).
    assert (Hs : s ∈ pts) by (apply lookup_at_spec in Hv; [by destruct s|by eapply Hsort, list_elem_of_lookup_2]).
    destruct (H3 (Z.of_nat j, s)) as ([k s'] & Hd & Hk); [apply Hin; exists j, pts; split_and!; [done|lia|done]|].
    cbn [snd] in Hk. destruct (H2 _ Hd) as [(j' & pts' & Hj' & Hk' & Hs')%Hin Hmax]. cbn [fst snd] in *.
    assert (Hle : Z.of_nat j ≤ k).
    { apply (Hmax (Z.of_nat j, s)); [|done]. apply Hin. exists j, pts. split_and!; [done|lia|done]. }
    pose proof (Hlook _ _ _ Hj' Hs') as Hv'.
    assert (Hjj : j' = j).
    { destruct (decide (j < j')%nat) as [Hlt|]; [|lia]. rewrite Hk, (Hlater j' pts' Hlt Hj') in Hv'. done. }
    subst j'. rewrite Hj in Hj'. injection Hj' as <-. rewrite Hk, Hv in Hv'. injection Hv' as Hval.
    exists (k, s'). split; [|done]. cbn. destruct s, s'; cbn in *. by subst.
Qed.

Lemma stored_nonempty lo vs ptss :
  Forall2 (Stored lo) vs ptss →
  Forall2 (λ v pts, series_items v = Some (Ok <$> pts)) (filter (λ b, b ≠ []) vs) (filter (λ l, l ≠ []) ptss) ∧
  Forall2 (Stored lo) (filter (λ b, b ≠ []) vs) (filter (λ l, l ≠ []) ptss).
Proof.
  induction 1 as [|v pts vs ptss Hv _ [IH1 IH2]]; [by split; constructor|]. rewrite !filter_cons.
  destruct (stored_items _ _ _ Hv) as [[-> ->]|(Hp & Hn & Hi)].
  - by rewrite !decide_False by auto.
  - rewrite !decide_True by done. by split; constructor.
Qed.

Lemma stored_unique lo v pts v' pts' :
  Stored lo v pts → Stored lo v' pts' → (∀ t, lookup_at t pts = lookup_at t pts') → pts = pts' ∧ v = v'.
Proof.
  intros (He & _ & Hs) (He' & _ & Hs') Hl.
  assert (pts = pts') as <-; [|split; congruence].
  eapply (sorted_ext time_lt); [done..|]. intros [t x]. rewrite <-!lookup_at_spec by done. by rewrite Hl.
Qed.

(** Merging stored values keeps, for every time, the newest sample. *)
Lemma merge_series_spec lo existing ops ptss :
  Forall2 (Stored lo) (option_list existing ++ ops) ptss →
  ∃ value points, merge_batch_time_series existing ops = Ok value ∧ Stored lo value points ∧
    ∀ t, lookup_at t points = newest t ptss.
Proof.
  intros H. destruct (stored_nonempty _ _ _ H) as [H1 H2].
  unfold merge_batch_time_series. fold (sources existing ops) in H1, H2.
  setoid_rewrite <-(newest_nil_source _ ptss).
  assert (Hne : Forall (λ l, l ≠ []) (filter (λ l, l ≠ []) ptss))
    by (apply Forall_forall; by intros l [? _]%list_elem_of_filter).
  set (ps := filter (λ l, l ≠ []) ptss) in *. clearbody ps. clear H ptss.
  set (srcs := sources existing ops) in *. clearbody srcs.
  destruct H2 as [|v pts srcs ps Hv H2].
  { exists [], []. split_and!; [done| |done]. split_and!; [done|constructor..]. }
  destruct H2 as [|v2 pts2 srcs ps Hv2 H2].
  { exists v, pts. split_and!; [done..|]. intros t. unfold newest. cbn. by destruct (lookup_at t pts). }
  set (all := pts :: pts2 :: ps) in *.
  assert (Hst : Forall (λ l, Forall (in_window lo) l ∧ StronglySorted time_lt l) all).
  { repeat constructor; try apply Hv; try apply Hv2. clear -H2. induction H2 as [|? ? ? ? Hs]; constructor; [apply Hs|done]. }
  destruct (prioritized_spec _ _ 0 H1) as (samples & -> & Hin). cbn [res_bind].
  rewrite bool_decide_false; cycle 1.
  { intros ->. apply Forall_cons in Hne as [Hp _]. destruct pts as [|s pts]; [done|].
    apply (not_elem_of_nil (A:=Z * Sample) (0, s)), Hin. exists 0%nat, (s :: pts). split_and!; [done|lia|left]. }
  destruct (merged_samples all samples) as [Hs Hr]; [|done|].
  { eapply Forall_impl; [exact Hst|]. by intros l [_ ?]. }
  set (r := snd <$> _) in *.
  assert (Hw : Forall (in_window lo) r).
  { apply Forall_forall. intros s (j & l & Hj & Hl & _)%Hr%newest_spec. rewrite Forall_forall in Hst.
    destruct (Hst l) as [Hwl Hsl]; [by eapply list_elem_of_lookup_2|].
    apply lookup_at_spec in Hl; [|done]. rewrite Forall_forall in Hwl. apply Hwl. by destruct s. }
  destruct (stored_encode lo r Hw Hs) as [value Hval]. pose proof Hval as (He & _).
  exists value, r. split_and!; [done..|]. intros t. apply option_eq. intros x.
  rewrite lookup_at_spec by done. by rewrite Hr.
Qed.
End series.

(** ** Bucket lists *)
Lemma add_bucket_perm (a a' : list (Z * Z)) l :
  a ≡ₚ a' → ∃ new, foldl add_bucket a l = a ++ new ∧ foldl add_bucket a' l = a' ++ new ∧
    (∀ b, b ∈ new → b ∈ l).
Proof.
  revert a a'. induction l as [|b l IH]; intros a a' Hp; cbn [foldl].
  { exists []. by rewrite !app_nil_r. }
  unfold add_bucket at 2 4. destruct (decide (b ∈ a)) as [Hb|Hb].
  - rewrite !bool_decide_true by (by rewrite <-?Hp). destruct (IH a a' Hp) as (new & H1 & H2 & H3).
    exists new. split_and!; [done..|]. intros x Hx. right. auto.
  - rewrite !bool_decide_false by (by rewrite <-?Hp). destruct (IH (a ++ [b]) (a' ++ [b])) as (new & H1 & H2 & H3); [by rewrite Hp|].
    exists (b :: new). rewrite H1, H2, <-!app_assoc. split_and!; [done..|].
    intros x [->|Hx]%elem_of_cons; [left|right; auto].
Qed.

Lemma add_buckets_spec a ls :
  Forall (Forall wf_bucket_entry) ls → add_buckets a (bucket_list_value <$> ls) = Ok (foldl add_bucket a (concat ls)).
Proof.
  intros H. revert a. induction H as [|l ls Hl _ IH]; intros a; [done|]. rewrite fmap_cons. cbn [add_buckets concat].
  rewrite bucket_list_decode_spec by done. cbn [res_bind]. by rewrite IH, foldl_app.
Qed.

Lemma merge_buckets_spec (e : option (list (Z * Z))) ls :
  Forall (Forall wf_bucket_entry) (option_list e ++ ls) →
  merge_batch_bucket_list (bucket_list_value <$> e) (bucket_list_value <$> ls) =
    Ok (bucket_list_value (sort_by by_start (foldl add_bucket (default [] e) (concat ls)))).
Proof.
  intros [He Hls]%Forall_app. unfold merge_batch_bucket_list.
  assert (Hd : match bucket_list_value <$> e with Some e => bucket_list_decode e | None => Ok [] end = Ok (default [] e)).
  { destruct e as [l|]; [|done]. apply Forall_cons in He as [He _]. by apply bucket_list_decode_spec. }
  rewrite Hd. cbn [res_bind]. rewrite add_buckets_spec by done. cbn [res_bind]. by rewrite bucket_list_encode_spec.
Qed.

Lemma by_start_total a b : by_start a b = false → by_start b a = true.
Proof. unfold by_start. rewrite Z.leb_gt, Z.leb_le. lia. Qed.
Lemma by_start_trans a b c : by_start a b = true → by_start b c = true → by_start a c = true.
Proof. unfold by_start. rewrite !Z.leb_le. lia. Qed.

Lemma merged_buckets_wf a ls :
  Forall wf_bucket_entry a → Forall (Forall wf_bucket_entry) ls →
  Forall wf_bucket_entry (sort_by by_start (foldl add_bucket a (concat ls))).
Proof.
  intros Ha Hl. rewrite sort_by_perm. destruct (add_bucket_perm a a (concat ls)) as (new & -> & _ & Hn); [done|].
  apply Forall_app. split; [done|]. apply Forall_forall. intros b Hb%Hn.
  apply list_elem_of_In, in_concat in Hb as (l & Hl' & Hb). apply list_elem_of_In in Hl', Hb.
  rewrite Forall_forall in Hl. specialize (Hl l Hl'). rewrite Forall_forall in Hl. by apply Hl.
Qed.

Lemma merged_buckets_split a l1 l2 :
  sort_by by_start (foldl add_bucket (sort_by by_start (foldl add_bucket a l1)) l2) =
  sort_by by_start (foldl add_bucket a (l1 ++ l2)).
Proof.
  rewrite foldl_app. set (b := foldl add_bucket a l1).
  destruct (add_bucket_perm (sort_by by_start b) b l2) as (new & -> & -> & _); [apply sort_by_perm|].
  apply sort_by_presorted; [apply by_start_total|apply by_start_trans].
Qed.

(** ** Posting lists *)
Section postings.
Context {T : Tsz} {RB : Roaring} {RL : RoaringLaws}.

Definition u32_set (s : gset Z) : Prop := ∀ x, x ∈ s → in_u 32 x.
Definition Postings (v : bytes) (s : gset Z) : Prop := u32_set s ∧ rb_serialize s = Some v.

Lemma postings_decode_spec v s : Postings v s → postings_decode v = Ok s.
Proof.
  intros [Hu Hs]. destruct (rb_roundtrip s Hu) as (b & Hb & Hd). unfold postings_decode.
  rewrite Hs in Hb. injection Hb as ->. by rewrite Hd.
Qed.

Lemma union_all_spec acc ops ss :
  Forall2 Postings ops ss → union_all acc ops = Ok (acc ∪ ⋃ ss).
Proof.
  intros H. revert acc. induction H as [|v s ops ss Hv _ IH]; intros acc; cbn [union_all].
  - f_equal. cbn. set_solver.
  - rewrite (postings_decode_spec v s) by done. cbn [res_bind]. rewrite IH. f_equal. cbn. set_solver.
Qed.

Lemma merge_postings_spec existing ops ss :
  Forall2 Postings (option_list existing ++ ops) ss →
  ∃ v, merge_batch_inverted_index existing ops = Ok v ∧ Postings v (⋃ ss).
Proof.
  intros H. apply Forall2_app_inv_l in H as (se & so & He & Ho & ->).
  assert (Hu : u32_set (⋃ (se ++ so))).
  { intros x. rewrite elem_of_union_list. intros (s & Hs & Hx).
    assert (Hall : Forall u32_set (se ++ so)).
    { apply Forall_app. split; [clear -He; induction He as [|? ? ? ? Hp]|clear -Ho; induction Ho as [|? ? ? ? Hp]];
        constructor; try done; apply Hp. }
    rewrite Forall_forall in Hall. by apply (Hall s). }
  assert (Hacc : ∃ acc, match existing with Some e => postings_decode e | None => Ok ∅ end = Ok acc ∧ acc = ⋃ se).
  { destruct existing as [e|]; cbn in He.
    - apply Forall2_cons_inv_l in He as (s & ? & Hs & Hn & ->). apply Forall2_nil_inv_l in Hn as ->.
      exists s. split; [by apply postings_decode_spec|]. cbn. set_solver.
    - apply Forall2_nil_inv_l in He as ->. by exists ∅. }
  destruct Hacc as (acc & Ha & ->). unfold merge_batch_inverted_index. rewrite Ha. cbn [res_bind].
  rewrite (union_all_spec _ _ so) by done. cbn [res_bind]. rewrite <-union_list_app_L.
  destruct (rb_roundtrip _ Hu) as (b & Hb & _). unfold postings_encode. exists b. rewrite Hb. by split_and!.
Qed.
End postings.

(** ** The operator *)
Section operator.
Context {T : Tsz} {TL : TszLaws} {RB : Roaring} {RL : RoaringLaws}.

(** the values the database stores under keys of a record type *)
Definition Mergeable (lo : Z) (t : RecordType) (v : bytes) : Prop :=
  match t with
  | TimeSeries => ∃ points, Stored lo v points
  | InvertedIndex => ∃ s, Postings v s
  | BucketList => ∃ bs, Forall wf_bucket_entry bs ∧ v = bucket_list_value bs
  | _ => True
  end.

Definition key_of_type (key : bytes) (t : RecordType) : Prop :=
  ∃ p, KeyPrefix.from_bytes key = Ok p ∧ from_prefix p = Ok t.

Lemma forall_exists {A B} (P : A → B → Prop) l : Forall (λ x, ∃ y, P x y) l → ∃ l', Forall2 P l l'.
Proof.
  induction 1 as [|x l [y Hy] _ [l' IH]]; [exists []; constructor|]. exists (y :: l'). by constructor.
Qed.

Lemma merge_series_split lo e o1 o2 :
  Forall (Mergeable lo TimeSeries) (option_list e ++ o1 ++ o2) →
  ∃ v1 v, merge_batch_time_series e o1 = Ok v1 ∧ Mergeable lo TimeSeries v1 ∧
    merge_batch_time_series (Some v1) o2 = Ok v ∧ merge_batch_time_series e (o1 ++ o2) = Ok v.
Proof.
  rewrite app_assoc. intros H. apply forall_exists in H as (ptss & H).
  apply Forall2_app_inv_l in H as (p1 & p2 & H1 & H2 & ->).
  destruct (merge_series_spec lo e o1 p1 H1) as (v1 & pts1 & Hm1 & Hs1 & Hn1).
  destruct (merge_series_spec lo (Some v1) o2 (pts1 :: p2)) as (v2 & pts2 & Hm2 & Hs2 & Hn2); [by constructor|].
  destruct (merge_series_spec lo e (o1 ++ o2) (p1 ++ p2)) as (v & pts & Hm & Hs & Hn).
  { rewrite app_assoc. by apply Forall2_app. }
  exists v1, v2. split_and!; [done|by exists pts1|done|]. rewrite Hm. f_equal. symmetry.
  apply (stored_unique lo v2 pts2 v pts); [done..|]. intros t. rewrite Hn2, Hn, newest_app.
  change (pts1 :: p2) with ([pts1] ++ p2). rewrite newest_app, <-Hn1. unfold newest. cbn.
  destruct (last (omap _ p2)); [done|]. by destruct (lookup_at t pts1).
Qed.

Lemma merge_postings_split lo e o1 o2 :
  Forall (Mergeable lo InvertedIndex) (option_list e ++ o1 ++ o2) →
  ∃ v1 v, merge_batch_inverted_index e o1 = Ok v1 ∧ Mergeable lo InvertedIndex v1 ∧
    merge_batch_inverted_index (Some v1) o2 = Ok v ∧ merge_batch_inverted_index e (o1 ++ o2) = Ok v.
Proof.
  rewrite app_assoc. intros H. apply forall_exists in H as (ss & H).
  apply Forall2_app_inv_l in H as (s1 & s2 & H1 & H2 & ->).
  destruct (merge_postings_spec e o1 s1 H1) as (v1 & Hm1 & Hp1).
  destruct (merge_postings_spec (Some v1) o2 (⋃ s1 :: s2)) as (v2 & Hm2 & Hp2); [by constructor|].
  destruct (merge_postings_spec e (o1 ++ o2) (s1 ++ s2)) as (v & Hm & Hp); [rewrite app_assoc; by apply Forall2_app|].
  exists v1, v2. split_and!; [done|by exists (⋃ s1)|done|]. rewrite Hm. f_equal.
  destruct Hp2 as [_ Hp2], Hp as [_ Hp]. rewrite union_list_app_L in Hp. cbn in Hp2. congruence.
Qed.

Lemma merge_buckets_split lo e o1 o2 :
  Forall (Mergeable lo BucketList) (option_list e ++ o1 ++ o2) →
  ∃ v1 v, merge_batch_bucket_list e o1 = Ok v1 ∧ Mergeable lo BucketList v1 ∧
    merge_batch_bucket_list (Some v1) o2 = Ok v ∧ merge_batch_bucket_list e (o1 ++ o2) = Ok v.
Proof.
  intros H.
  assert (Hlist : ∀ o, Forall (Mergeable lo BucketList) o →
    ∃ ls, Forall (Forall wf_bucket_entry) ls ∧ o = bucket_list_value <$> ls).
  { induction 1 as [|v o (bs & Hbs & ->) _ (ls & Hls & ->)]; [by exists []; split; [constructor|]|].
    exists (bs :: ls). by split; [constructor|]. }
  apply Forall_app in H as [He [(l1 & H1 & ->)%Hlist (l2 & H2 & ->)%Hlist]%Forall_app].
  assert (He' : ∃ e', e = bucket_list_value <$> e' ∧ Forall (Forall wf_bucket_entry) (option_list e')).
  { destruct e as [e|]; [|by exists None; split; [|constructor]]. apply Forall_cons in He as [(bs & Hbs & ->) _].
    exists (Some bs). split; [done|]. by repeat constructor. }
  destruct He' as (e' & -> & He'). rewrite <-fmap_app.
  assert (Hd : Forall wf_bucket_entry (default [] e')).
  { destruct e'; [|constructor]. by apply Forall_cons in He' as [? _]. }
  rewrite merge_buckets_spec by (apply Forall_app; by split).
  set (b1 := sort_by by_start (foldl add_bucket (default [] e') (concat l1))).
  assert (Hb1 : Forall wf_bucket_entry b1) by (by apply merged_buckets_wf).
  eexists _, _. split_and!; [reflexivity|by exists b1| |].
  - apply (merge_buckets_spec (Some b1) l2). by constructor.
  - rewrite merge_buckets_spec by (rewrite !Forall_app; by split_and!).
    by rewrite concat_app, <-merged_buckets_split.
Qed.

(** C30: The merge operator is associative: merging a batch at once, as a compaction
    may, or in two steps, as reads and other compactions may, gives the same
    bytes, for every record type; and on values the database writes it does not
    panic. *)
Theorem ts_merge_split (lo : Z) (key : bytes) (t : RecordType) (existing : option bytes) (o1 o2 : list bytes) :
  key_of_type key t → option_list existing ++ o1 ≠ [] → Forall (Mergeable lo t) (option_list existing ++ o1 ++ o2) →
  ∃ v1 v, merge_batch key existing o1 = Ok v1 ∧ Mergeable lo t v1 ∧
    merge_batch key (Some v1) o2 = Ok v ∧ merge_batch key existing (o1 ++ o2) = Ok v.
Proof.
  intros (p & Hp & Ht) Hne H. unfold merge_batch. rewrite Hp. cbn [res_map_err res_bind]. rewrite Ht. cbn [res_bind].
  destruct t.
  - destruct (merge_buckets_split lo existing o1 o2 H) as (v1 & v & H1 & Hv & H2 & H3). exists v1, v. by rewrite H1, H2, H3.
  - destruct (default_split (E:=Error) key existing o1 o2 Hne) as (v1 & v & H1 & H2 & H3). exists v1, v. by rewrite H1, H2, H3.
  - destruct (default_split (E:=Error) key existing o1 o2 Hne) as (v1 & v & H1 & H2 & H3). exists v1, v. by rewrite H1, H2, H3.
  - destruct (merge_postings_split lo existing o1 o2 H) as (v1 & v & H1 & Hv & H2 & H3). exists v1, v. by rewrite H1, H2, H3.
  - destruct (merge_series_split lo existing o1 o2 H) as (v1 & v & H1 & Hv & H2 & H3). exists v1, v. by rewrite H1, H2, H3.
Qed.
End operator.

(** ** Plain codecs *)
(** Fixed-width instances of the two libraries' classes: the laws can hold. *)
Module Plain.
Definition point_bytes (p : Z * Z) : bytes := be_bytes 8 p.1 ++ be_bytes 8 p.2.
Definition point_decode (b : bytes) : res Error ((Z * Z) * bytes) :=
  if bool_decide (length b < 16)%nat then Err ErrTsz
  else Ok ((from_be (take 8 b), from_be (take 8 (drop 8 b))), drop 16 b).

#[global] Instance plain_tsz : Tsz := {
  tsz_encode _ pts := pts ≫= point_bytes;
  tsz_items b :=
    match decode_items point_decode (length b / 16) b with Ok (xs, _) => Some <$> xs | _ => [] end;
}.

Lemma bind_length {A} (f : A → bytes) n l : (∀ x, length (f x) = n) → length (l ≫= f) = (length l * n)%nat.
Proof.
  intros H. induction l as [|x l IH]; [done|]. cbn [mbind list_bind length] in *. by rewrite length_app, H, IH.
Qed.

#[global] Instance plain_tsz_laws : TszLaws.
Proof.
  split.
  - intros start [|p pts] (Hne & _); [done|]. cbn. done.
  - intros start pts (_ & Hw & _). cbn [tsz_items tsz_encode plain_tsz].
    assert (Hl : ∀ p, length (point_bytes p) = 16%nat)
      by (intros p; unfold point_bytes; by rewrite length_app, !be_bytes_length).
    rewrite (bind_length _ 16) by done. rewrite Nat.div_mul by lia.
    rewrite <-(app_nil_r (pts ≫= point_bytes)), (decode_items_spec _ point_bytes); [done|].
    intros [t v] b Hin. rewrite Forall_forall in Hw. destruct (Hw _ Hin) as (Ht & Hv & _). cbn [fst snd] in *.
    unfold point_decode. rewrite bool_decide_false by (rewrite length_app, Hl; lia).
    rewrite (drop_app_length' _ _ 16) by (by rewrite Hl). unfold point_bytes. cbn [fst snd]. rewrite <-app_assoc.
    rewrite take_app_length' by (by rewrite be_bytes_length).
    rewrite drop_app_length' by (by rewrite be_bytes_length).
    rewrite take_app_length' by (by rewrite be_bytes_length). by rewrite !(from_be_roundtrip 8).
Qed.

Definition id_decode (b : bytes) : res Error (Z * bytes) :=
  if bool_decide (length b < 4)%nat then Err ErrRoaring else Ok (from_be (take 4 b), drop 4 b).

#[global] Instance plain_roaring : Roaring := {
  rb_serialize s := Some (elements s ≫= be_bytes 4);
  rb_deserialize b :=
    match decode_items id_decode (length b / 4) b with Ok (xs, _) => Some (list_to_set xs) | _ => None end;
}.

#[global] Instance plain_roaring_laws : RoaringLaws.
Proof.
  split. intros s Hs. eexists. split; [reflexivity|]. cbn [rb_deserialize plain_roaring].
  rewrite (bind_length _ 4) by apply be_bytes_length. rewrite Nat.div_mul by lia.
  rewrite <-(app_nil_r (elements s ≫= _)), (decode_items_spec _ (be_bytes 4)).
  - f_equal. apply list_to_set_elements_L.
  - intros x b Hx. apply elem_of_elements, Hs in Hx. unfold id_decode.
    rewrite bool_decide_false by (rewrite length_app, be_bytes_length; lia).
    rewrite take_app_length', drop_app_length' by (by rewrite be_bytes_length). by rewrite (from_be_roundtrip 4).
Qed.
End Plain.

Definition demo_value (points : list Sample) : bytes :=
  match series_encode points with Ok v => v | _ => [] end.
Lemma demo_stored points :
  Forall (in_window 0) points → StronglySorted time_lt points → Stored 0 (demo_value points) points.
Proof. intros Hw Hs. split; [by destruct points|done]. Qed.
Definition demo_key : bytes := [x01; x01; x51; x00; x00; x00; x3c; x61; x00; x00; x00; x00; x07].

Lemma ts_merge_split_witness :
  ∃ v1 v,
    merge_batch demo_key None [demo_value [mkSample 10 1; mkSample 20 2]; demo_value [mkSample 20 3]] = Ok v1 ∧
    merge_batch demo_key (Some v1) [demo_value [mkSample 15 4]] = Ok v ∧
    v = demo_value [mkSample 10 1; mkSample 15 4; mkSample 20 3].
Proof.
  destruct (ts_merge_split 0 demo_key TimeSeries None
    [demo_value [mkSample 10 1; mkSample 20 2]; demo_value [mkSample 20 3]] [demo_value [mkSample 15 4]])
    as (v1 & v & H1 & _ & H2 & H3).
  - by exists (KeyPrefix.mk x01 x01 x51).
  - done.
  - unfold option_list. cbn [option_rect app]. rewrite !Forall_cons. split_and!; [..|by apply Forall_nil];
      (eexists; apply demo_stored;
       [rewrite !Forall_cons; unfold in_window, in_u; cbn; split_and!; try lia; by apply Forall_nil|repeat constructor]).
  - exists v1, v. split_and!; [done..|]. apply (f_equal (λ r, match r with Ok b => b | _ => [] end)) in H3.
    cbn beta iota in H3. rewrite <-H3. vm_compute. reflexivity.
Defined.
End TsMerge.
