(* ===== verification/TsDb.v ===== *)
(** * timeseries: the database of one time bucket

    [index.rs] (forward and inverted index), [util.rs] (fingerprints),
    [delta.rs] (the delta of the write coordinator), [flusher.rs],
    [storage/mod.rs] (the typed reads and record operations) and the reads and
    the opening of [minitsdb.rs].

    A [HashMap] or [DashMap] is a [gmap]; its iteration order is an argument
    ([HashOrder]).  The hash function of the [blake3] crate is an argument too.
    The metrics and traces the functions record are left out. *)
From stdpp Require Import gmap pretty.
From S2P Require Import Prelude HashMap SortBy Serde ByteRange Encoding Storage KvStore Coordinator TsSerde TsMerge.
#[local] Open Scope Z_scope.

Module TsDb.
Import Ts TsMerge.

#[global] Program Instance label_countable : Countable Label :=
  inj_countable' (λ l, (l_name l, l_value l)) (λ p, mkLabel p.1 p.2) _.
Next Obligation. by intros []. Qed.

(** ** index.rs *)
Abbreviation ForwardIndex := (gmap Z SeriesSpec).
Abbreviation InvertedIndex := (gmap Label (gset Z)).

Section index.
Context {HO : HashOrder}.

Definition forward_merge (self other : ForwardIndex) : ForwardIndex :=
  foldl (λ acc e, <[e.1 := e.2]> acc) self (hash_iter other).
Definition get_spec (self : ForwardIndex) (series_id : Z) : option SeriesSpec := self !! series_id.
Definition all_series (self : ForwardIndex) : list (Z * SeriesSpec) := hash_iter self.

Fixpoint lookup_terms (self : InvertedIndex) (terms : list Label) : option (list (gset Z)) :=
  match terms with
  | [] => Some []
  | t :: terms =>
      match self !! t with
      | Some bitmap => cons bitmap <$> lookup_terms self terms
      | None => None
      end
  end.

Definition intersect (self : InvertedIndex) (terms : list Label) : gset Z :=
  match terms with
  | [] => ∅
  | _ =>
      match lookup_terms self terms with
      | None => ∅
      | Some bitmaps =>
          match sort_by (λ a b : gset Z, bool_decide (size a ≤ size b)%nat) bitmaps with
          | [] => ∅
          | first :: rest => foldl (∩) first rest
          end
      end
  end.

Definition all_keys (self : InvertedIndex) : list Label := fst <$> hash_iter self.

Definition union (self : InvertedIndex) (terms : list Label) : gset Z :=
  match terms with
  | [] => ∅
  | _ => foldl (λ result t, match self !! t with Some bitmap => result ∪ bitmap | None => result end) ∅ terms
  end.

Definition inverted_insert (self : InvertedIndex) (term : Label) (postings : gset Z) : InvertedIndex :=
  <[term := default ∅ (self !! term) ∪ postings]> self.
(** also [merge_from_map] *)
Definition inverted_merge (self other : InvertedIndex) : InvertedIndex :=
  foldl (λ acc e, inverted_insert acc e.1 e.2) self (hash_iter other).
End index.

(** ** util.rs *)
Class Blake3 : Type := { blake3 : bytes → bytes }.   (* the digest of the bytes given to the hasher *)

Definition fingerprint {B : Blake3} (labels : list Label) : Z :=
  from_le (take 16 (blake3 (labels ≫= λ l, l_name l ++ l_value l))).

(** ** delta.rs *)
Record SeriesSamples : Type := mkSeriesSamples { metric_name : bytes; points : list Sample }.

Record TsdbContext : Type := mkContext {
  cx_bucket : TimeBucket;
  cx_series_dict : gmap Z Z;
  cx_next_series_id : Z;
}.

Record FrozenTsdbDelta : Type := mkFrozen {
  fr_bucket : TimeBucket;
  fr_forward_index : ForwardIndex;
  fr_inverted_index : InvertedIndex;
  fr_series_dict_delta : gmap Z Z;
  fr_samples : gmap Z SeriesSamples;
}.

Definition is_empty (f : FrozenTsdbDelta) : bool :=
  bool_decide (fr_samples f = ∅) && bool_decide (fr_series_dict_delta f = ∅).

Record TsdbWriteDelta : Type := mkDelta {
  bucket : TimeBucket;
  series_dict_base : gmap Z Z;
  series_dict_delta : gmap Z Z;
  forward_index : ForwardIndex;
  inverted_index : InvertedIndex;
  samples : gmap Z SeriesSamples;
  next_series_id : Z;
}.

Definition name_label : bytes := [x5f; x5f; x6e; x61; x6d; x65; x5f; x5f].   (* __name__ *)

(** the value of the first [__name__] label, or the empty string *)
Definition metric_name_of (labels : list Label) : bytes :=
  default [] (l_value <$> head (filter (λ l, l_name l = name_label) labels)).

Definition sort_labels (labels : list Label) : list Label :=
  sort_by (λ a b, ble (l_name a) (l_name b)) labels.

Definition bucket_start_ms (b : TimeBucket) : Z := bk_start b * 60 * 1000.
Definition bucket_end_ms (b : TimeBucket) : Z := (bk_start b + size_in_mins b) * 60 * 1000.

Definition outside_bucket (b : TimeBucket) (s : Sample) : string :=
  "Sample timestamp " +:+ pretty (timestamp_ms s) +:+ " is outside bucket range [" +:+
  pretty (bucket_start_ms b) +:+ ", " +:+ pretty (bucket_end_ms b) +:+ ")".

(** a loop with [?]: the state reached when it ends or a step fails *)
Fixpoint try_for {A S} (f : A → S → S * res string unit) (items : list A) (s : S) : S * res string unit :=
  match items with
  | [] => (s, Ok tt)
  | x :: items =>
      match f x s with
      | (s, Ok _) => try_for f items s
      | failed => failed
      end
  end.

Section delta.
Context {B : Blake3}.

(** the new series branch of [ingest_sample] *)
Definition new_series (labels : list Label) (unit_ : option bytes) (metric_type : option MetricType)
    (fp : Z) (d : TsdbWriteDelta) : TsdbWriteDelta * Z :=
  let id := next_series_id d in
  (mkDelta (bucket d) (series_dict_base d)
     (<[fp := id]> (series_dict_delta d))
     (<[id := mkSpec unit_ metric_type labels]> (forward_index d))
     (foldl (λ idx l, inverted_insert idx l {[id]}) (inverted_index d) labels)
     (samples d) (wrap 32 (next_series_id d + 1)),
   id).

Definition push_sample (id : Z) (name : bytes) (sample : Sample) (m : gmap Z SeriesSamples) : gmap Z SeriesSamples :=
  let entry := default (mkSeriesSamples name []) (m !! id) in
  <[id := mkSeriesSamples (metric_name entry) (points entry ++ [sample])]> m.

Definition set_samples (d : TsdbWriteDelta) (m : gmap Z SeriesSamples) : TsdbWriteDelta :=
  mkDelta (bucket d) (series_dict_base d) (series_dict_delta d) (forward_index d) (inverted_index d) m (next_series_id d).

Definition ingest_sample (labels : list Label) (unit_ : option bytes) (metric_type : option MetricType)
    (sample : Sample) (d : TsdbWriteDelta) : TsdbWriteDelta * res string unit :=
  if (timestamp_ms sample <? bucket_start_ms (bucket d)) || (bucket_end_ms (bucket d) <=? timestamp_ms sample)
  then (d, Err (outside_bucket (bucket d) sample))
  else
    let fp := fingerprint labels in
    let name := metric_name_of labels in
    let '(d, series_id) :=
      match series_dict_delta d !! fp with
      | Some id => (d, id)
      | None =>
          match series_dict_base d !! fp with
          | Some id => (d, id)
          | None => new_series labels unit_ metric_type fp d
          end
      end in
    (set_samples d (push_sample series_id name sample (samples d)), Ok tt).

Definition ingest (series : Series) (d : TsdbWriteDelta) : TsdbWriteDelta * res string unit :=
  let sorted_labels := sort_labels (sr_labels series) in
  try_for (ingest_sample sorted_labels (sr_unit series) (sr_metric_type series)) (sr_samples series) d.

Definition delta_init (context : TsdbContext) : TsdbWriteDelta :=
  mkDelta (cx_bucket context) (cx_series_dict context) ∅ ∅ ∅ ∅ (cx_next_series_id context).

Definition delta_apply (d : TsdbWriteDelta) (write : list Series) : TsdbWriteDelta * res string unit :=
  try_for ingest write d.

Definition delta_estimate_size (d : TsdbWriteDelta) : Z :=
  let sample_count := sum_list ((λ e, length (points e.2)) <$> map_to_list (samples d)) in
  Z.of_nat (sample_count * 16 + size (forward_index d) * 128 + size (inverted_index d) * 64).

Definition delta_freeze (d : TsdbWriteDelta) : FrozenTsdbDelta * unit * TsdbContext :=
  let merged_dict := series_dict_delta d ∪ series_dict_base d in   (* [extend] overwrites *)
  (mkFrozen (bucket d) (forward_index d) (inverted_index d) (series_dict_delta d) (samples d), tt,
   mkContext (bucket d) merged_dict (next_series_id d)).

#[global] Instance tsdb_write_delta : Coordinator.Delta := {
  D := TsdbWriteDelta;
  Context_ := TsdbContext;
  Write := list Series;
  Frozen := FrozenTsdbDelta;
  FrozenView := unit;
  ApplyResult := unit;
  DeltaView := unit;
  init := delta_init;
  apply := delta_apply;
  estimate_size := delta_estimate_size;
  freeze := delta_freeze;
  reader _ := tt;
}.
End delta.

(** ** storage/mod.rs: record operations *)
Section ops.
Context {T : Tsz} {RB : Roaring}.

Definition merge_bucket_list (b : TimeBucket) (ttl : Ttl) : res Error RecordOp :=
  let? k := bucket_list_key in
  let? v := bucket_list_encode [(bk_size b, bk_start b)] in
  Ok (Storage.Merge (mkRecord k v) ttl).

Definition insert_series_id (b : TimeBucket) (fp id : Z) (ttl : Ttl) : res Error RecordOp :=
  let? k := dict_key_encode (mkDictKey b fp) in
  Ok (Put (mkRecord k (dict_value_encode id)) ttl).

Definition insert_forward_index (b : TimeBucket) (series_id : Z) (spec : SeriesSpec) (ttl : Ttl) : res Error RecordOp :=
  let? k := forward_key_encode (mkForwardKey b series_id) in
  let? v := forward_value_encode (mkForwardValue (sp_unit spec) (meta_of_option (sp_metric_type spec))
                                    (wrap 16 (blen (sp_labels spec))) (sp_labels spec)) in
  Ok (Put (mkRecord k v) ttl).

Definition merge_inverted_index (b : TimeBucket) (l : Label) (postings : gset Z) (ttl : Ttl) : res Error RecordOp :=
  let? k := inverted_key_encode (mkInvertedKey b (l_name l) (l_value l)) in
  let? v := postings_encode postings in
  Ok (Storage.Merge (mkRecord k v) ttl).

Definition merge_samples (b : TimeBucket) (series_id : Z) (name : bytes) (pts : list Sample) (ttl : Ttl) : res Error RecordOp :=
  let? k := series_key_encode (mkSeriesKey b name series_id) in
  let? v := series_encode pts in
  Ok (Storage.Merge (mkRecord k v) ttl).
End ops.

(** ** storage/mod.rs: reads *)
Section reads.
Context {T : Tsz} {RB : Roaring} {St : Type} {KV : KvStore St} (now : Z).

Definition ts_get (k : bytes) (s : St) : res Error (option Record_) := res_map_err ErrStorage (kv_get now k s).
Definition ts_scan (r : BytesRange) (s : St) : res Error (list Record_) := res_map_err ErrStorage (kv_scan now r s).

(** the stored bucket list; [None] when there is no such record *)
Definition stored_buckets (s : St) : res Error (option (list (Z * Z))) :=
  let? k := bucket_list_key in
  let? record := ts_get k s in
  match record with
  | Some r => let? buckets := bucket_list_decode (value r) in Ok (Some buckets)
  | None => Ok None
  end.

Definition bucket_of (p : Z * Z) : TimeBucket := mkBucket p.2 p.1.

(** [t - t % mins]; the remainder by zero panics *)
Definition round_down (t mins : Z) : res Error Z := if mins =? 0 then Panic else Ok (t - t mod mins).

Definition bucket_in_range (start_min end_min : option Z) (b : TimeBucket) : res Error bool :=
  match start_min, end_min with
  | None, None => Ok true
  | Some start, None =>
      let? start_bucket_min := round_down start (size_in_mins b) in
      Ok (start_bucket_min <=? bk_start b)
  | None, Some end_ =>
      let? end_bucket_min := round_down end_ (size_in_mins b) in
      Ok (bk_start b <=? end_bucket_min)
  | Some start, Some end_ =>
      let? start_bucket_min := round_down start (size_in_mins b) in
      let? end_bucket_min := round_down end_ (size_in_mins b) in
      Ok ((start_bucket_min <=? bk_start b) && (bk_start b <=? end_bucket_min))
  end.

Fixpoint filter_res {A} (f : A → res Error bool) (l : list A) : res Error (list A) :=
  match l with
  | [] => Ok []
  | x :: l =>
      let? keep := f x in
      let? l := filter_res f l in
      Ok (if keep then x :: l else l)
  end.

Definition by_bucket_start (a b : TimeBucket) : bool := bk_start a <=? bk_start b.

(** [(s / 60) as u32] *)
Definition minutes (secs : Z) : Z := wrap 32 (Z.quot secs 60).

Definition get_buckets_in_range (start_secs end_secs : option Z) (s : St) : res Error (list TimeBucket) :=
  if match start_secs, end_secs with Some start, Some end_ => end_ <? start | _, _ => false end then Err InvalidRange
  else
    let start_min := minutes <$> start_secs in
    let end_min := minutes <$> end_secs in
    let? buckets := stored_buckets s in
    let? filtered := filter_res (bucket_in_range start_min end_min) (bucket_of <$> default [] buckets) in
    Ok (sort_by by_bucket_start filtered).

Definition bucket_overlaps (ranges : list (Z * Z)) (b : TimeBucket) : bool :=
  let bucket_start_secs := bk_start b * 60 in
  let bucket_end_secs := (bk_start b + size_in_mins b) * 60 in
  existsb (λ r : Z * Z, (r.1 <? bucket_end_secs) && (bucket_start_secs <=? r.2)) ranges.

Definition get_buckets_for_ranges (ranges : list (Z * Z)) (s : St) : res Error (list TimeBucket) :=
  match ranges with
  | [] => Ok []
  | _ =>
      let? buckets := stored_buckets s in
      match buckets with
      | None => Ok []
      | Some buckets =>
          Ok (sort_by by_bucket_start (filter (λ b, bucket_overlaps ranges b = true) (bucket_of <$> buckets)))
      end
  end.

(** a loop over scanned records that decodes each and updates an accumulator *)
Fixpoint fold_records {A} (f : Record_ → A → res Error A) (records : list Record_) (acc : A) : res Error A :=
  match records with
  | [] => Ok acc
  | r :: records => let? acc := f r acc in fold_records f records acc
  end.

Definition get_forward_index (b : TimeBucket) (s : St) : res Error ForwardIndex :=
  let? range := bucket_range Ts.ForwardIndex b in
  let? records := ts_scan range s in
  fold_records (λ r idx,
    let? k := forward_key_decode (key r) in
    let? v := forward_value_decode (value r) in
    Ok (<[fk_series_id k := spec_of_value v]> idx)) records ∅.

Definition get_inverted_index (b : TimeBucket) (s : St) : res Error InvertedIndex :=
  let? range := bucket_range Ts.InvertedIndex b in
  let? records := ts_scan range s in
  fold_records (λ r idx,
    let? k := inverted_key_decode (key r) in
    let? postings := postings_decode (value r) in
    Ok (<[mkLabel (ik_attribute k) (ik_value k) := postings]> idx)) records ∅.

Definition get_inverted_index_term (b : TimeBucket) (term : Label) (s : St) : res Error (option (gset Z)) :=
  let? k := inverted_key_encode (mkInvertedKey b (l_name term) (l_value term)) in
  let? record := ts_get k s in
  match record with
  | Some r => let? postings := postings_decode (value r) in Ok (Some postings)
  | None => Ok None
  end.

Definition get_forward_index_one (b : TimeBucket) (series_id : Z) (s : St) : res Error (option SeriesSpec) :=
  let? k := forward_key_encode (mkForwardKey b series_id) in
  let? record := ts_get k s in
  match record with
  | Some r => let? v := forward_value_decode (value r) in Ok (Some (spec_of_value v))
  | None => Ok None
  end.

Fixpoint get_inverted_index_terms (b : TimeBucket) (terms : list Label) (s : St) (result : InvertedIndex) :
    res Error InvertedIndex :=
  match terms with
  | [] => Ok result
  | term :: terms =>
      let? o := get_inverted_index_term b term s in
      get_inverted_index_terms b terms s (match o with Some postings => <[term := postings]> result | None => result end)
  end.

Fixpoint get_forward_index_series (b : TimeBucket) (series_ids : list Z) (s : St) (result : ForwardIndex) :
    res Error ForwardIndex :=
  match series_ids with
  | [] => Ok result
  | series_id :: series_ids =>
      let? o := get_forward_index_one b series_id s in
      get_forward_index_series b series_ids s (match o with Some spec => <[series_id := spec]> result | None => result end)
  end.

(** the dictionary and the largest id in it *)
Definition load_series_dictionary (b : TimeBucket) (s : St) : res Error (gmap Z Z * Z) :=
  let? range := bucket_range SeriesDictionary b in
  let? records := ts_scan range s in
  fold_records (λ r acc,
    let? k := dict_key_decode (key r) in
    let? id := dict_value_decode (value r) in
    Ok (<[dk_fingerprint k := id]> acc.1, Z.max acc.2 id)) records (∅, 0).

Definition bucket_list_contains (b : TimeBucket) (s : St) : res Error bool :=
  let? buckets := stored_buckets s in
  Ok (match buckets with Some buckets => bool_decide ((bk_size b, bk_start b) ∈ buckets) | None => false end).

Definition get_label_values (b : TimeBucket) (label_name : bytes) (s : St) : res Error (list bytes) :=
  let? range := attribute_range b label_name in
  let? records := ts_scan range s in
  fold_records (λ r values, let? k := inverted_key_decode (key r) in Ok (values ++ [ik_value k])) records [].

Definition coalesce_bucket_list (s : St) : res Error St :=
  let? k := bucket_list_key in
  let? record := ts_get k s in
  match record with
  | None => Ok s
  | Some r => let? (s, _) := res_map_err ErrStorage (kv_put now [(mkRecord k (value r), TtlDefault)] s) in Ok s
  end.

(** ** minitsdb.rs *)
Definition mini_samples (b : TimeBucket) (series_id : Z) (name : bytes) (start_ms end_ms : Z) (s : St) :
    res Error (list Sample) :=
  let? k := series_key_encode (mkSeriesKey b name series_id) in
  let? record := ts_get k s in
  match record with
  | Some r =>
      match series_items (value r) with
      | None => Err InvalidTimeseries
      | Some items =>
          let decoded := omap (λ i, match i with Ok sample => Some sample | _ => None end) items in
          Ok (filter (λ sample, (start_ms <? timestamp_ms sample) && (timestamp_ms sample <=? end_ms) = true) decoded)
      end
  | None => Ok []
  end.

(** [MiniTsdb::load]: the context its write coordinator starts with *)
Definition load (b : TimeBucket) (s : St) : res Error TsdbContext :=
  let? snapshot := res_map_err ErrStorage (kv_snapshot s) in
  let? (series_dict, next_series_id) := load_series_dictionary b snapshot in
  Ok (mkContext b series_dict next_series_id).
End reads.

(** ** flusher.rs *)
Section flusher.
Context {T : Tsz} {RB : Roaring} {HO : HashOrder} {St : Type} {KV : KvStore St}.

Record TsdbFlusher : Type := mkFlusher { fl_storage : St; fl_retention : option Z }.   (* retention in ms, [u128] *)

Definition saturate_i64 (z : Z) : Z := Z.max (- 2 ^ 63) (Z.min (2 ^ 63 - 1) z).

Definition bucket_ttl (b : TimeBucket) (retention : option Z) : Ttl :=
  match retention with
  | None => TtlDefault
  | Some ms => ExpireAt (saturate_i64 (bucket_start_ms b + as_signed 64 ms))
  end.

(** the operations of a flush *)
Definition flush_ops (now : Z) (fl : TsdbFlusher) (frozen : FrozenTsdbDelta) : res Error (list RecordOp) :=
  let b := fr_bucket frozen in
  let ttl := bucket_ttl b (fl_retention fl) in
  let? bucket_announced := bucket_list_contains now b (fl_storage fl) in
  let? announce := if (bucket_announced : bool) then Ok [] else (let? op := merge_bucket_list b ttl in Ok [op]) in
  let? dict := collect ((λ e, insert_series_id b e.1 e.2 ttl) <$> hash_iter (fr_series_dict_delta frozen)) in
  let? forward := collect ((λ e, insert_forward_index b e.1 e.2 ttl) <$> hash_iter (fr_forward_index frozen)) in
  let? inverted := collect ((λ e, merge_inverted_index b e.1 e.2 ttl) <$> hash_iter (fr_inverted_index frozen)) in
  let? series := collect ((λ e, merge_samples b e.1 (metric_name e.2) (points e.2) ttl) <$> hash_iter (fr_samples frozen)) in
  Ok (announce ++ dict ++ forward ++ inverted ++ series).

Definition ts_flush_delta (now : Z) (fl : TsdbFlusher) (frozen : FrozenTsdbDelta) : TsdbFlusher * res Error St :=
  if is_empty frozen then (fl, res_map_err ErrStorage (kv_snapshot (fl_storage fl)))
  else
    match (let? ops := flush_ops now fl frozen in res_map_err ErrStorage (kv_apply now ops (fl_storage fl))) with
    | Ok (s, _) => (mkFlusher s (fl_retention fl), res_map_err ErrStorage (kv_snapshot s))
    | Err e => (fl, Err e)
    | Panic => (fl, Panic)
    end.

Definition ts_flush_storage (fl : TsdbFlusher) : TsdbFlusher * res Error unit :=
  match kv_flush (fl_storage fl) with
  | Ok s => (mkFlusher s (fl_retention fl), Ok tt)
  | Err e => (fl, Err (ErrStorage e))
  | Panic => (fl, Panic)
  end.
End flusher.
#[global] Arguments TsdbFlusher : clear implicits.

(** The flusher of the write coordinator, at a given clock; [to_string] prints
    its errors. *)
#[global] Instance tsdb_flusher {B : Blake3} {T : Tsz} {RB : Roaring} {HO : HashOrder} {St} {KV : KvStore St}
    (now : Z) (to_string : Error → string) : Coordinator.Flusher := {
  F := TsdbFlusher St;
  Snapshot := St;
  flush_delta fl frozen _ := let '(fl, r) := ts_flush_delta now fl frozen in (fl, res_map_err to_string r);
  flush_storage fl := let '(fl, r) := ts_flush_storage fl in (fl, res_map_err to_string r);
}.
End TsDb.
