(* ===== verification/TsDbSpec.v ===== *)
(** * timeseries: the database of one bucket keeps what it is given

    Batches of writes go through the delta, are frozen and flushed; the indexes,
    the dictionary and the samples read from the store are then exactly those
    of the accepted samples.  [add_series] and [series_points] are the
    reference: the series in order of first appearance (a position is an id), and
    the samples of a series in a batch. *)
From stdpp Require Import gmap strings.
From S2P Require Import Prelude HashMap SortBy Serde ByteRange TerminatedBytes Encoding Storage KvStore TsSerde TsMerge TsDb.
#[local] Open Scope Z_scope.

Module TsDbSpec.
Import Ts TsMerge TsDb.

(** ** Reference *)
Record Entry : Type := mkEntry {
  e_labels : list Label;        (* sorted by name *)
  e_unit : option bytes;
  e_type : option MetricType;
  e_sample : Sample;
}.

Definition entries_of (s : Series) : list Entry :=
  mkEntry (sort_labels (sr_labels s)) (sr_unit s) (sr_metric_type s) <$> sr_samples s.

Definition in_bucket (b : TimeBucket) (e : Entry) : bool :=
  (bucket_start_ms b <=? timestamp_ms (e_sample e)) && (timestamp_ms (e_sample e) <? bucket_end_ms b).

Fixpoint take_while {A} (f : A → bool) (l : list A) : list A :=
  match l with [] => [] | x :: l => if f x then x :: take_while f l else [] end.

(** the samples of a write up to the first one outside the bucket *)
Definition accepted (b : TimeBucket) (write : list Series) : list Entry :=
  take_while (in_bucket b) (write ≫= entries_of).

Definition spec_of (e : Entry) : SeriesSpec := mkSpec (e_unit e) (e_type e) (e_labels e).

Definition add_series (known : list SeriesSpec) (e : Entry) : list SeriesSpec :=
  if bool_decide (e_labels e ∈ (sp_labels <$> known)) then known else known ++ [spec_of e].

Definition series_points (labels : list Label) (es : list Entry) : list Sample :=
  e_sample <$> filter (λ e, e_labels e = labels) es.

(** the ids, from the [n]-th on, of the series with a label *)
Definition has_label (known : list SeriesSpec) (l : Label) (i : nat) : bool :=
  match known !! i with Some sp => bool_decide (l ∈ sp_labels sp) | None => false end.
Definition ids (n : nat) (known : list SeriesSpec) (l : Label) : gset Z :=
  list_to_set (Z.of_nat <$> filter (λ i, has_label known l i = true) (seq n (length known - n))).

(** ** The delta as a fold over entries *)
Lemma try_for_bind {A A' St} (f : A' → St → St * res string unit) (g : A → list A') (l : list A) (s : St) :
  try_for (λ x, try_for f (g x)) l s = try_for f (l ≫= g) s.
Proof.
  assert (Happ : ∀ l1 l2 s, try_for f (l1 ++ l2) s =
    match try_for f l1 s with (s, Ok _) => try_for f l2 s | failed => failed end).
  { induction l1 as [|x l1 IH]; intros l2 s1; [done|]. cbn [try_for app]. destruct (f x s1) as [s2 [[]| |]]; auto. }
  revert s. induction l as [|x l IH]; intros s; [done|]. cbn [try_for mbind list_bind]. rewrite Happ.
  destruct (try_for f (g x) s) as [s2 [[]| |]]; auto.
Qed.

Lemma try_for_fmap {A A' St} (f : A' → St → St * res string unit) (h : A → A') (l : list A) (s : St) :
  try_for (λ x, f (h x)) l s = try_for f (h <$> l) s.
Proof.
  revert s. induction l as [|x l IH]; intros s; [done|]. rewrite fmap_cons. cbn [try_for].
  destruct (f (h x) s) as [s2 [[]| |]]; auto.
Qed.

Section delta.
Context {B : Blake3}.

Definition put_entry (e : Entry) (d : TsdbWriteDelta) : TsdbWriteDelta * res string unit :=
  ingest_sample (e_labels e) (e_unit e) (e_type e) (e_sample e) d.

Lemma delta_apply_entries d write : delta_apply d write = try_for put_entry (write ≫= entries_of) d.
Proof.
  unfold delta_apply. rewrite <-try_for_bind. generalize d. induction write as [|s write IH]; intros d0; [done|].
  cbn [try_for]. unfold ingest at 1, entries_of at 1. rewrite <-try_for_fmap. unfold put_entry at 1. cbn [e_labels e_unit e_type e_sample].
  destruct (try_for _ (sr_samples s) d0) as [s2 [[]| |]]; auto.
Qed.

Lemma put_entry_bucket e d : bucket (put_entry e d).1 = bucket d.
Proof.
  unfold put_entry, ingest_sample. destruct (_ || _); [done|].
  destruct (series_dict_delta d !! _); [done|]. by destruct (series_dict_base d !! _).
Qed.

Lemma put_entry_in e d : in_bucket (bucket d) e = true → (put_entry e d).2 = Ok tt.
Proof.
  unfold in_bucket, put_entry, ingest_sample. intros [H1%Z.leb_le H2%Z.ltb_lt]%andb_true_iff.
  rewrite (proj2 (Z.ltb_ge _ _)), (proj2 (Z.leb_gt _ _)) by lia. cbn [orb].
  destruct (series_dict_delta d !! _); [done|]. by destruct (series_dict_base d !! _).
Qed.

Lemma put_entry_out e d :
  in_bucket (bucket d) e = false → put_entry e d = (d, Err (outside_bucket (bucket d) (e_sample e))).
Proof.
  unfold in_bucket, put_entry, ingest_sample. intros H. destruct (_ || _) eqn:E; [done|].
  apply orb_false_iff in E as [?%Z.ltb_ge ?%Z.leb_gt].
  by rewrite (proj2 (Z.leb_le _ _)), (proj2 (Z.ltb_lt _ _)) in H by lia.
Qed.

(** A write adds its samples up to the first one outside the bucket, and is
    refused exactly when there is one. *)
Lemma delta_apply_accepted d write :
  (delta_apply d write).1 = foldl (λ d e, (put_entry e d).1) d (accepted (bucket d) write) ∧
  (delta_apply d write).2 =
    match filter (λ e, in_bucket (bucket d) e = false) (write ≫= entries_of) with
    | [] => Ok tt
    | e :: _ => Err (outside_bucket (bucket d) (e_sample e))
    end.
Proof.
  rewrite delta_apply_entries. unfold accepted. generalize (write ≫= entries_of) as es. intros es.
  revert d. induction es as [|e es IH]; intros d; [done|]. cbn [try_for take_while]. rewrite filter_cons.
  destruct (in_bucket (bucket d) e) eqn:E.
  - pose proof (put_entry_in e d E) as Hok. pose proof (put_entry_bucket e d) as Hb.
    destruct (put_entry e d) as [d' r] eqn:Ep. cbn [fst snd] in *. subst r. rewrite decide_False by congruence.
    cbn [foldl]. rewrite Ep. cbn [fst]. rewrite <-Hb. apply IH.
  - rewrite (put_entry_out e d E), decide_True by done. done.
Qed.

(** series [sp] has id [id], the [n]-th or a later one *)
Definition At (n : nat) (known : list SeriesSpec) (id : Z) (sp : SeriesSpec) : Prop :=
  ∃ i : nat, (n ≤ i)%nat ∧ known !! i = Some sp ∧ id = Z.of_nat i.

Lemma At_weaken n known id sp : At n known id sp → At 0 known id sp.
Proof. intros (i & ? & ? & ?). exists i. split_and!; [lia|done..]. Qed.

Lemma At_range n known id sp : At n known id sp → 0 ≤ id < Z.of_nat (length known).
Proof. intros (i & ? & ?%lookup_lt_Some & ->). lia. Qed.

Lemma At_inj n m known id sp sp' : At n known id sp → At m known id sp' → sp = sp'.
Proof. intros (i & _ & H & ->) (j & _ & H' & ?). assert (i = j) as <- by lia. congruence. Qed.

Lemma At_elem known sp : sp ∈ known ↔ ∃ id, At 0 known id sp.
Proof.
  rewrite list_elem_of_lookup. split; [intros [i Hi]; by exists (Z.of_nat i), i; split_and!; [lia|..]|].
  intros (id & i & _ & Hi & _). by exists i.
Qed.

Lemma At_labels known n m id id' sp sp' :
  NoDup (sp_labels <$> known) → At n known id sp → At m known id' sp' → sp_labels sp = sp_labels sp' → id = id' ∧ sp = sp'.
Proof.
  intros Hnd (i & _ & H & ->) (j & _ & H' & ->) He.
  assert (i = j) as <-; [|by rewrite H in H'; injection H'].
  apply (proj1 (NoDup_alt _) Hnd i j (sp_labels sp)); rewrite list_lookup_fmap; [by rewrite H|by rewrite H', He].
Qed.

Lemma At_add n known e id sp :
  (n ≤ length known)%nat →
  At n (add_series known e) id sp ↔
    At n known id sp ∨ e_labels e ∉ sp_labels <$> known ∧ id = Z.of_nat (length known) ∧ sp = spec_of e.
Proof.
  intros Hn. unfold add_series. case_bool_decide as Hin; [naive_solver|]. split.
  - intros (i & Hi & Hl & ->). apply lookup_app_Some in Hl as [Hl|[Hge Hl]]; [left; by exists i|].
    apply list_lookup_singleton_Some in Hl as [Hi0 <-]. right. split_and!; [done|f_equal; lia|done].
  - intros [(i & Hi & Hl & ->)|(_ & -> & ->)].
    + exists i. split_and!; [done|by apply lookup_app_l_Some|done].
    + exists (length known). split_and!; [done| |done]. by rewrite lookup_app_r, Nat.sub_diag by lia.
Qed.

(** ids are given once and for all *)
Lemma add_all_prefix known es : known `prefix_of` foldl add_series known es.
Proof.
  revert known. induction es as [|e es IH]; intros known; [done|]. cbn [foldl]. etrans; [|apply IH].
  unfold add_series. case_bool_decide; [done|]. by apply prefix_app_r.
Qed.

Lemma add_all_At known es id sp :
  At 0 known id sp ↔ At 0 (foldl add_series known es) id sp ∧ ¬ At (length known) (foldl add_series known es) id sp.
Proof.
  pose proof (add_all_prefix known es) as [rest Hr]. rewrite Hr. split.
  - intros (i & _ & Hi & ->). pose proof (lookup_lt_Some _ _ _ Hi). split.
    + exists i. split_and!; [lia|by apply lookup_app_l_Some|done].
    + intros (j & Hj & _ & ?). lia.
  - intros [(i & _ & Hi & ->) Hn]. exists i. split_and!; [lia| |done].
    apply lookup_app_Some in Hi as [Hi|[Hge Hi]]; [done|]. exfalso. apply Hn. exists i. split_and!; [done| |done].
    by rewrite lookup_app_r by done.
Qed.

Lemma add_all_nodup known es : NoDup (sp_labels <$> known) → NoDup (sp_labels <$> foldl add_series known es).
Proof.
  revert known. induction es as [|e es IH]; intros known H; [done|]. cbn [foldl]. apply IH. unfold add_series.
  case_bool_decide as Hin; [done|]. rewrite fmap_app. apply NoDup_app. split_and!; [done| |repeat constructor; by intros ?%not_elem_of_nil].
  intros l Hl Hl'. cbn in Hl'. apply list_elem_of_singleton in Hl' as ->. done.
Qed.

Lemma add_all_elem known es e : e ∈ es → e_labels e ∈ sp_labels <$> foldl add_series known es.
Proof.
  revert known. induction es as [|e' es IH]; intros known; [by intros ?%not_elem_of_nil|].
  intros [->|Hin]%elem_of_cons; [|by apply IH]. cbn [foldl].
  destruct (add_all_prefix (add_series known e') es) as [rest ->]. rewrite fmap_app. apply elem_of_app. left.
  unfold add_series. case_bool_decide as Hin; [done|]. rewrite fmap_app. apply elem_of_app. right. by left.
Qed.

Lemma add_all_origin known es sp :
  sp ∈ foldl add_series known es → sp ∈ known ∨ ∃ e, e ∈ es ∧ sp = spec_of e.
Proof.
  revert known. induction es as [|e es IH]; intros known; [by left|]. cbn [foldl].
  intros [H|(e' & He & ->)]%IH; [|right; exists e'; split; [by right|done]].
  unfold add_series in H. case_bool_decide; [by left|]. apply elem_of_app in H as [H|H]; [by left|].
  apply list_elem_of_singleton in H as ->. right. exists e. split; [by left|done].
Qed.

Lemma series_points_snoc labels es e :
  series_points labels (es ++ [e]) =
    series_points labels es ++ (if decide (e_labels e = labels) then [e_sample e] else []).
Proof. unfold series_points. rewrite filter_app, fmap_app. f_equal. rewrite filter_cons. by case_decide. Qed.

Lemma series_points_other labels es : (∀ e, e ∈ es → e_labels e ≠ labels) → series_points labels es = [].
Proof. intros H. unfold series_points. rewrite filter_none; [done|]. by apply Forall_forall. Qed.

(** ** What a delta holds after the entries of a batch *)
Definition DictFrom (n : nat) (known : list SeriesSpec) (m : gmap Z Z) : Prop :=
  ∀ fp id, m !! fp = Some id ↔ ∃ sp, At n known id sp ∧ fp = fingerprint (sp_labels sp).

Record DeltaOk (b : TimeBucket) (before : list SeriesSpec) (es : list Entry) (d : TsdbWriteDelta) : Prop := {
  do_bucket : bucket d = b;
  do_base : DictFrom 0 before (series_dict_base d);
  do_delta : DictFrom (length before) (foldl add_series before es) (series_dict_delta d);
  do_forward id sp : forward_index d !! id = Some sp ↔ At (length before) (foldl add_series before es) id sp;
  do_inverted l x : x ∈ default ∅ (inverted_index d !! l) ↔
    ∃ sp, At (length before) (foldl add_series before es) x sp ∧ l ∈ sp_labels sp;
  do_inhabited l : inverted_index d !! l ≠ Some ∅;
  do_samples id ss : samples d !! id = Some ss ↔
    ∃ sp, At 0 (foldl add_series before es) id sp ∧ series_points (sp_labels sp) es ≠ [] ∧
      ss = mkSeriesSamples (metric_name_of (sp_labels sp)) (series_points (sp_labels sp) es);
  do_next : next_series_id d = blen (foldl add_series before es);
}.

(** fingerprints tell the label sets of [U] apart *)
Definition collision_free (U : list Label → Prop) : Prop :=
  ∀ l l', U l → U l' → fingerprint l = fingerprint l' → l = l'.

Definition Known (U : list Label → Prop) (known : list SeriesSpec) : Prop :=
  NoDup (sp_labels <$> known) ∧ Forall (λ sp, U (sp_labels sp)) known.

Section steps.
Context (U : list Label → Prop) (HU : collision_free U) (b : TimeBucket).

Lemma Known_add before es :
  Known U before → Forall (λ e, U (e_labels e)) es → Known U (foldl add_series before es).
Proof.
  intros [Hnd Hu] Hes. split; [by apply add_all_nodup|]. rewrite Forall_forall in Hu. rewrite Forall_forall in Hes. apply Forall_forall.
  intros sp [H|(e & He & ->)]%add_all_origin; [by apply Hu|by apply Hes].
Qed.

Lemma Known_At n known id sp : Known U known → At n known id sp → U (sp_labels sp).
Proof.
  intros [_ Hu] (i & _ & Hi & _). rewrite Forall_forall in Hu. apply Hu. by apply list_elem_of_lookup_2 in Hi.
Qed.

(** The dictionary of the batch over that of the context is the dictionary of
    all series. *)
Lemma dict_union before es base delta :
  Known U (foldl add_series before es) → DictFrom 0 before base →
  DictFrom (length before) (foldl add_series before es) delta →
  DictFrom 0 (foldl add_series before es) (delta ∪ base).
Proof.
  intros HK Hbase Hdelta fp id. unfold DictFrom in Hbase, Hdelta. rewrite lookup_union_Some_raw, Hdelta. split.
  - intros [(sp & Hat & ->)|[_ (sp & Hat & ->)%Hbase]]; exists sp; split; [|done| |done].
    + by eapply At_weaken.
    + by apply (add_all_At before es) in Hat as [? _].
  - intros (sp & Hat & ->). destruct (delta !! fingerprint (sp_labels sp)) as [id'|] eqn:E.
    + left. pose proof E as (sp' & Hat' & He)%Hdelta. exists sp'. split; [|done].
      apply HU in He; [|by eapply Known_At..]. by destruct (At_labels _ _ _ _ _ _ _ (proj1 HK) Hat Hat' He) as [-> ->].
    + right. split; [done|]. apply Hbase. exists sp. split; [|done]. apply (add_all_At before es). split; [done|].
      intros Hat'. assert (Hs : delta !! fingerprint (sp_labels sp) = Some id) by (apply Hdelta; by exists sp).
      by rewrite E in Hs.
Qed.

Lemma put_entry_eq e d :
  in_bucket (bucket d) e = true →
  (put_entry e d).1 =
    let '(d, id) :=
      match (series_dict_delta d ∪ series_dict_base d) !! fingerprint (e_labels e) with
      | Some id => (d, id)
      | None => new_series (e_labels e) (e_unit e) (e_type e) (fingerprint (e_labels e)) d
      end in
    set_samples d (push_sample id (metric_name_of (e_labels e)) (e_sample e) (samples d)).
Proof.
  unfold in_bucket, put_entry, ingest_sample. intros [H1%Z.leb_le H2%Z.ltb_lt]%andb_true_iff.
  rewrite (proj2 (Z.ltb_ge _ _)), (proj2 (Z.leb_gt _ _)) by lia. cbn [orb]. rewrite lookup_union.
  destruct (series_dict_delta d !! _); [by destruct (series_dict_base d !! _)|]. by destruct (series_dict_base d !! _).
Qed.

Lemma postings_insert (id : Z) labels (idx : InvertedIndex) l :
  default ∅ (foldl (λ idx l, inverted_insert idx l {[id]}) idx labels !! l) =
    default ∅ (idx !! l) ∪ (if decide (l ∈ labels) then {[id]} else ∅).
Proof.
  revert idx. induction labels as [|l' labels IH]; intros idx; cbn [foldl].
  { rewrite decide_False by apply not_elem_of_nil. set_solver. }
  rewrite IH. unfold inverted_insert. destruct (decide (l' = l)) as [->|Hne].
  - rewrite lookup_insert_eq, (decide_True (P:=l ∈ l :: _)) by left. cbn [default]. case_decide; set_solver.
  - rewrite lookup_insert_ne by done. f_equal. rewrite (decide_ext (l ∈ l' :: labels) (l ∈ labels)); [done|].
    rewrite elem_of_cons. naive_solver.
Qed.

Lemma postings_inhabited (id : Z) labels (idx : InvertedIndex) l :
  idx !! l ≠ Some ∅ → foldl (λ idx l, inverted_insert idx l {[id]}) idx labels !! l ≠ Some ∅.
Proof.
  revert idx. induction labels as [|l' labels IH]; intros idx H; cbn [foldl]; [done|]. apply IH. unfold inverted_insert.
  destruct (decide (l' = l)) as [->|Hne]; [rewrite lookup_insert_eq; intros [= He]; set_solver|by rewrite lookup_insert_ne].
Qed.

(** The samples map after one more sample of series [sp]. *)
Lemma push_sample_spec known es e id sp (m : gmap Z SeriesSamples) :
  NoDup (sp_labels <$> known) → At 0 known id sp → sp_labels sp = e_labels e →
  (∀ id ss, m !! id = Some ss ↔
    ∃ sp, At 0 known id sp ∧ series_points (sp_labels sp) es ≠ [] ∧
      ss = mkSeriesSamples (metric_name_of (sp_labels sp)) (series_points (sp_labels sp) es)) →
  ∀ id' ss, push_sample id (metric_name_of (e_labels e)) (e_sample e) m !! id' = Some ss ↔
    ∃ sp, At 0 known id' sp ∧ series_points (sp_labels sp) (es ++ [e]) ≠ [] ∧
      ss = mkSeriesSamples (metric_name_of (sp_labels sp)) (series_points (sp_labels sp) (es ++ [e])).
Proof.
  intros Hnd Hat Hl Hm id' ss. unfold push_sample. destruct (decide (id = id')) as [<-|Hne].
  - rewrite lookup_insert_eq.
    assert (Hd : default (mkSeriesSamples (metric_name_of (e_labels e)) []) (m !! id) =
      mkSeriesSamples (metric_name_of (e_labels e)) (series_points (e_labels e) es)).
    { destruct (m !! id) as [ss'|] eqn:E.
      - apply Hm in E as (sp' & Hat' & _ & ->). by rewrite (At_inj _ _ _ _ _ _ Hat' Hat), Hl.
      - cbn. f_equal. destruct (decide (series_points (e_labels e) es = [])) as [->|Hn]; [done|]. exfalso.
        rewrite <-Hl in Hn. assert (Hs : m !! id = Some (mkSeriesSamples (metric_name_of (sp_labels sp)) (series_points (sp_labels sp) es)))
          by (apply Hm; by exists sp). by rewrite E in Hs. }
    rewrite Hd. cbn [metric_name points]. split.
    + intros [= <-]. exists sp. rewrite series_points_snoc, Hl, decide_True by done.
      split_and!; [done|by destruct (series_points _ _)|done].
    + intros (sp' & Hat' & _ & ->). rewrite (At_inj _ _ _ _ _ _ Hat' Hat), Hl, series_points_snoc. by rewrite decide_True.
  - rewrite lookup_insert_ne by done. rewrite Hm. apply exist_proper. intros sp'. split.
    + intros (Hat' & Hp & ->). rewrite series_points_snoc, decide_False, app_nil_r; [done|].
      intros He. apply Hne. rewrite <-Hl in He. by destruct (At_labels _ _ _ _ _ _ _ Hnd Hat Hat' He).
    + intros (Hat' & Hp & ->). rewrite series_points_snoc, decide_False, app_nil_r in Hp |- *; try done;
      (intros He; apply Hne; rewrite <-Hl in He; by destruct (At_labels _ _ _ _ _ _ _ Hnd Hat Hat' He)).
Qed.

(** A new series extends dictionary and indexes; its samples come later. *)
Lemma new_series_ok before es e d :
  let known := foldl add_series before es in
  let d' := (new_series (e_labels e) (e_unit e) (e_type e) (fingerprint (e_labels e)) d).1 in
  Known U known → U (e_labels e) → e_labels e ∉ sp_labels <$> known → blen known + 1 < 2 ^ 32 → DeltaOk b before es d →
  DictFrom (length before) (add_series known e) (series_dict_delta d') ∧
  (∀ id sp, forward_index d' !! id = Some sp ↔ At (length before) (add_series known e) id sp) ∧
  (∀ l x, x ∈ default ∅ (inverted_index d' !! l) ↔ ∃ sp, At (length before) (add_series known e) x sp ∧ l ∈ sp_labels sp) ∧
  (∀ l, inverted_index d' !! l ≠ Some ∅) ∧ next_series_id d' = blen (add_series known e).
Proof.
  intros known d' HK Hu Hnew Hlen [Hb Hbase Hdelta Hfwd Hinv Hinh Hs Hnext]. unfold d', new_series, DictFrom in *. fold known in Hdelta, Hfwd, Hinv, Hnext.
  cbn [fst series_dict_delta forward_index inverted_index next_series_id]. rewrite Hnext.
  assert (Hle : (length before ≤ length known)%nat) by apply prefix_length, add_all_prefix.
  assert (Hfresh : ∀ sp, ¬ At (length before) known (blen known) sp)
    by (intros sp Hat; apply At_range in Hat; unfold blen in Hat; lia).
  split_and!.
  - intros fp id. rewrite lookup_insert_Some, Hdelta. setoid_rewrite (At_add _ _ e _ _ Hle). split.
    + intros [[<- <-]|[Hne (sp & Hat & ->)]]; [|exists sp; naive_solver]. exists (spec_of e). split; [right|]; done.
    + intros (sp & [Hat|(_ & -> & ->)] & ->); [|by left]. destruct (decide (fingerprint (e_labels e) = fingerprint (sp_labels sp))) as [He|He].
      * exfalso. apply Hnew. apply HU in He; [|done|by eapply Known_At]. rewrite He. apply list_elem_of_fmap_2, At_elem.
        exists id. by eapply At_weaken.
      * right. split; [done|]. by exists sp.
  - intros id sp. rewrite lookup_insert_Some, Hfwd, (At_add _ _ e _ _ Hle). split.
    + intros [[<- <-]|[Hne Hat]]; [right|left]; done.
    + intros [Hat|(_ & -> & ->)]; [|by left]. right. split; [|done]. intros <-. by apply (Hfresh sp).
  - intros l x. rewrite postings_insert, elem_of_union, Hinv. setoid_rewrite (At_add _ _ e _ _ Hle). split.
    + intros [(sp & Hat & Hl)|Hx]; [exists sp; naive_solver|]. case_decide as Hl; [|set_solver].
      apply elem_of_singleton in Hx as ->. exists (spec_of e). split; [by right|done].
    + intros (sp & [Hat|(_ & -> & ->)] & Hl); [left; by exists sp|]. right. rewrite decide_True by done. by apply elem_of_singleton.
  - intros l. by apply postings_inhabited.
  - unfold add_series. rewrite bool_decide_false by done. unfold blen in *. rewrite length_app. cbn [length].
    rewrite wrap_small by (unfold in_u; lia). lia.
Qed.

Lemma put_entry_ok before es e d :
  Known U before → Forall (λ e, U (e_labels e)) es → U (e_labels e) → in_bucket b e = true →
  blen (foldl add_series before (es ++ [e])) < 2 ^ 32 → DeltaOk b before es d →
  DeltaOk b before (es ++ [e]) (put_entry e d).1.
Proof.
  intros HK0 Hus Hu Hin Hlen Hok. pose proof (Known_add before es HK0 Hus) as HK.
  rewrite put_entry_eq by (by rewrite (do_bucket _ _ _ _ Hok)). rewrite foldl_snoc in Hlen.
  pose proof (dict_union _ _ _ _ HK (do_base _ _ _ _ Hok) (do_delta _ _ _ _ Hok)) as Hdict.
  assert (HK' : NoDup (sp_labels <$> add_series (foldl add_series before es) e))
    by (rewrite <-(foldl_snoc add_series); by apply add_all_nodup; destruct HK0).
  set (known := foldl add_series before es) in *. destruct (decide (e_labels e ∈ sp_labels <$> known)) as [Hold|Hnew].
  - apply list_elem_of_fmap in Hold as (sp & Hl & [id Hat]%At_elem).
    assert (Hlook : (series_dict_delta d ∪ series_dict_base d) !! fingerprint (e_labels e) = Some id)
      by (apply Hdict; exists sp; by rewrite Hl).
    rewrite Hlook. assert (Hsame : add_series known e = known).
    { unfold add_series. rewrite bool_decide_true; [done|]. rewrite Hl. apply list_elem_of_fmap_2, At_elem. by exists id. }
    destruct Hok. constructor; rewrite ?foldl_snoc; fold known; rewrite ?Hsame; try done.
    intros id' ss. apply (push_sample_spec known es e id sp); [apply HK|done..].
  - assert (Hlook : (series_dict_delta d ∪ series_dict_base d) !! fingerprint (e_labels e) = None).
    { destruct (_ !! fingerprint (e_labels e)) as [id|] eqn:E; [|done]. apply Hdict in E as (sp & Hat & He). exfalso. apply Hnew.
      apply HU in He; [|done|by eapply Known_At]. rewrite He. apply list_elem_of_fmap_2, At_elem. by exists id. }
    rewrite Hlook.
    assert (Hlen' : blen (add_series known e) = blen known + 1).
    { unfold add_series. rewrite bool_decide_false by done. unfold blen. rewrite length_app. cbn [length]. lia. }
    destruct (new_series_ok before es e d HK Hu Hnew ltac:(fold known; lia) Hok) as (N1 & N2 & N3 & N4 & N5).
    fold known in N1, N2, N3, N5. destruct Hok as [Hb Hbase Hdelta Hfwd Hinv Hinh Hs Hnext].
    constructor; rewrite ?foldl_snoc; fold known; try done.
    intros id' ss. apply (push_sample_spec (add_series known e) es e (next_series_id d) (spec_of e));
      [done|rewrite Hnext; apply At_add; [lia|by right]|done|].
    intros id ss'. cbn [new_series fst samples]. rewrite Hs. fold known. split.
    + intros (sp & Hat & Hp & ->). exists sp. split_and!; [apply At_add; [lia|by left]|done..].
    + intros (sp & Hat & Hp & ->). exists sp. split_and!; [|done..]. apply At_add in Hat as [Hat|(_ & -> & ->)]; [done| |lia].
      exfalso. apply Hp. apply series_points_other. intros e' He' Heq. apply Hnew.
      change (e_labels e) with (sp_labels (spec_of e)). rewrite <-Heq. by apply add_all_elem.
Qed.

Lemma put_entries_ok before es es' d :
  Known U before → Forall (λ e, U (e_labels e)) (es ++ es') → Forall (λ e, in_bucket b e = true) es' →
  blen (foldl add_series before (es ++ es')) < 2 ^ 32 → DeltaOk b before es d →
  DeltaOk b before (es ++ es') (foldl (λ d e, (put_entry e d).1) d es').
Proof.
  intros HK. revert es d. induction es' as [|e es' IH]; intros es d Hu Hin Hlen Hok; [by rewrite app_nil_r|].
  apply Forall_cons in Hin as [He Hin]. cbn [foldl]. rewrite (cons_middle e es es'), app_assoc in *.
  apply IH; [done..|]. pose proof (proj1 (proj1 (Forall_app _ _ _) Hu)) as [Hu1 Hu2]%Forall_app.
  apply put_entry_ok; [done..|by apply Forall_cons in Hu2 as [? _]|done| |done].
  eapply Z.le_lt_trans; [|exact Hlen]. unfold blen. rewrite (foldl_app _ _ es').
  apply Nat2Z.inj_le, prefix_length, add_all_prefix.
Qed.

Lemma accepted_in_bucket write : Forall (λ e, in_bucket b e = true) (accepted b write).
Proof.
  unfold accepted. generalize (write ≫= entries_of) as es. induction es as [|e es IH]; [constructor|]. cbn [take_while].
  destruct (in_bucket b e) eqn:E; by constructor.
Qed.

(** the accepted entries of the writes of a batch *)
Definition batch_entries (writes : list (list Series)) : list Entry := writes ≫= accepted b.
Definition apply_writes (d : TsdbWriteDelta) (writes : list (list Series)) : TsdbWriteDelta :=
  foldl (λ d w, (delta_apply d w).1) d writes.

Lemma apply_writes_entries d writes :
  bucket d = b → apply_writes d writes = foldl (λ d e, (put_entry e d).1) d (batch_entries writes).
Proof.
  revert d. induction writes as [|w writes IH]; intros d Hb; [done|]. unfold apply_writes, batch_entries in *.
  cbn [foldl mbind list_bind]. destruct (delta_apply_accepted d w) as [-> _]. rewrite Hb, foldl_app. apply IH.
  generalize (accepted b w) as es. intros es. clear -Hb. revert d Hb. induction es as [|e es IH]; intros d Hb; [done|].
  cbn [foldl]. apply IH. by rewrite put_entry_bucket.
Qed.

(** The delta of a batch holds exactly the entries accepted from its writes. *)
Lemma batch_delta_ok before dict writes :
  Known U before → DictFrom 0 before dict → Forall (λ e, U (e_labels e)) (batch_entries writes) →
  blen (foldl add_series before (batch_entries writes)) < 2 ^ 32 →
  DeltaOk b before (batch_entries writes) (apply_writes (delta_init (mkContext b dict (blen before))) writes).
Proof.
  intros HK Hd Hu Hlen. rewrite apply_writes_entries by done. apply (put_entries_ok before [] (batch_entries writes)); [done..| |done|].
  { unfold batch_entries. clear. induction writes as [|w ws IH]; [constructor|]. cbn [mbind list_bind]. apply Forall_app.
    split; [apply accepted_in_bucket|exact IH]. }
  assert (Hno : ∀ id sp, ¬ At (length before) before id sp) by (intros id sp Hat; pose proof Hat as (i & Hi & Hl%lookup_lt_Some & _); lia).
  constructor; cbn; try done.
  - intros fp id. rewrite lookup_empty. split; [done|]. intros (sp & Hat & _). by apply Hno in Hat.
  - intros id sp. rewrite lookup_empty. split; [done|]. intros Hat. by apply Hno in Hat.
  - intros l x. rewrite lookup_empty. cbn. split; [set_solver|]. intros (sp & Hat & _). by apply Hno in Hat.
  - intros id ss. rewrite lookup_empty. split; [done|]. by intros (sp & _ & Hp & _).
Qed.
End steps.
End delta.

(** ** The operations of a flush *)
Lemma NoDup_fmap_fst {K A C} (f : K * A → C) (l : list (K * A)) :
  NoDup l.*1 → (∀ x y, f x = f y → x.1 = y.1) → NoDup (f <$> l).
Proof.
  intros Hnd Hf. induction l as [|x l IH]; [constructor|]. rewrite fmap_cons in Hnd. rewrite fmap_cons.
  apply NoDup_cons in Hnd as [Hx Hnd]. apply NoDup_cons. split; [|by apply IH].
  intros (y & Hy & Hin)%list_elem_of_fmap. apply Hx, list_elem_of_fmap. exists y. split; [by apply Hf|done].
Qed.

Lemma collect_fmap {A C} (f : A → res Error C) (g : A → C) (l : list A) :
  (∀ x, x ∈ l → f x = Ok (g x)) → collect (f <$> l) = Ok (g <$> l).
Proof.
  intros H. rewrite <-(collect_ok (g <$> l)). f_equal. rewrite <-list_fmap_compose. apply list_fmap_ext.
  intros i x Hi. apply H. by eapply list_elem_of_lookup_2.
Qed.

Section flush.
Context {T : Tsz} {TL : TszLaws} {RB : Roaring} {RL : RoaringLaws} {HO : HashOrder} {HOL : HashOrderLaws}.
Context (b : TimeBucket) (Hb : wf_bucket b).

Lemma hash_iter_elem {K A} `{Countable K} (m : gmap K A) k x : (k, x) ∈ hash_iter m ↔ m !! k = Some x.
Proof. rewrite hash_iter_perm. apply elem_of_map_to_list. Qed.


Definition or_nil (r : res Error bytes) : bytes := match r with Ok v => v | _ => [] end.

Definition dict_entry (e : Z * Z) : Key * RecordOp :=
  let k := KDict (mkDictKey b e.1) in (k, Put (mkRecord (key_bytes k) (dict_value_encode e.2)) TtlDefault).
Definition forward_entry (e : Z * SeriesSpec) : Key * RecordOp :=
  let k := KForward (mkForwardKey b e.1) in
  (k, Put (mkRecord (key_bytes k) (or_nil (forward_value_encode (value_of_spec e.2)))) TtlDefault).
Definition inverted_entry (e : Label * gset Z) : Key * RecordOp :=
  let k := KInverted (mkInvertedKey b (l_name e.1) (l_value e.1)) in
  (k, Storage.Merge (mkRecord (key_bytes k) (or_nil (postings_encode e.2))) TtlDefault).
Definition series_entry (e : Z * SeriesSamples) : Key * RecordOp :=
  let k := KSeries (mkSeriesKey b (metric_name e.2) e.1) in
  (k, Storage.Merge (mkRecord (key_bytes k) (or_nil (series_encode (points e.2)))) TtlDefault).

Definition frozen_entries (fr : FrozenTsdbDelta) : list (Key * RecordOp) :=
  (dict_entry <$> hash_iter (fr_series_dict_delta fr)) ++ (forward_entry <$> hash_iter (fr_forward_index fr)) ++
  (inverted_entry <$> hash_iter (fr_inverted_index fr)) ++ (series_entry <$> hash_iter (fr_samples fr)).

(** the operation a flush has for a key of the bucket *)
Definition frozen_op (fr : FrozenTsdbDelta) (k : Key) : option RecordOp :=
  match k with
  | KDict k => (λ id, (dict_entry (dk_fingerprint k, id)).2) <$> fr_series_dict_delta fr !! dk_fingerprint k
  | KForward k => (λ sp, (forward_entry (fk_series_id k, sp)).2) <$> fr_forward_index fr !! fk_series_id k
  | KInverted k =>
      let l := mkLabel (ik_attribute k) (ik_value k) in (λ set, (inverted_entry (l, set)).2) <$> fr_inverted_index fr !! l
  | KSeries k =>
      match fr_samples fr !! tk_series_id k with
      | Some ss => if bool_decide (metric_name ss = tk_metric_name k) then Some (series_entry (tk_series_id k, ss)).2 else None
      | None => None
      end
  end.

Lemma frozen_entries_elem fr k op :
  (k, op) ∈ frozen_entries fr ↔ key_bucket k = b ∧ frozen_op fr k = Some op.
Proof.
  unfold frozen_entries. rewrite !elem_of_app, !list_elem_of_fmap. split.
  - intros [([x y] & [= -> ->] & H%hash_iter_elem)|[([x y] & [= -> ->] & H%hash_iter_elem)|[([x y] & [= -> ->] & H%hash_iter_elem)|([x y] & [= -> ->] & H%hash_iter_elem)]]];
      cbn; try rewrite H; try done.
    + destruct x as [n v]. cbn. by rewrite H.
    + by rewrite bool_decide_true.
  - destruct k as [[b' fp]|[b' i]|[b' a v]|[b' n i]]; cbn [key_bucket dk_bucket fk_bucket ik_bucket tk_bucket frozen_op
      dk_fingerprint fk_series_id ik_attribute ik_value tk_metric_name tk_series_id]; intros [-> H].
    + apply fmap_Some in H as (id & H & ->). left. exists (fp, id). split; [done|by apply hash_iter_elem].
    + apply fmap_Some in H as (sp & H & ->). right; left. exists (i, sp). split; [done|by apply hash_iter_elem].
    + apply fmap_Some in H as (set & H & ->). right; right; left. exists (mkLabel a v, set). split; [done|by apply hash_iter_elem].
    + destruct (fr_samples fr !! i) as [ss|] eqn:E; [|done]. case_bool_decide as Hn; [|done]. injection H as <-.
      right; right; right. exists (i, ss). rewrite <-Hn. split; [done|by apply hash_iter_elem].
Qed.

Lemma frozen_entries_nodup fr : NoDup (frozen_entries fr).*1.
Proof.
  unfold frozen_entries. rewrite !fmap_app, <-!list_fmap_compose. unfold compose.
  rewrite !NoDup_app. split_and!; try (apply NoDup_fmap_fst; [apply hash_iter_nodup|]).
  all: try (intros k (x & -> & _)%list_elem_of_fmap; rewrite ?elem_of_app, !list_elem_of_fmap; naive_solver).
  - by intros [x y] [x' y'] [= ->].
  - by intros [x y] [x' y'] [= ->].
  - by intros [[n v] y] [[n' v'] y'] [= -> ->].
  - by intros [x y] [x' y'] [= _ ->].
Qed.

Record FrozenOk (fr : FrozenTsdbDelta) : Prop := {
  fo_bucket : fr_bucket fr = b;
  fo_dict fp id : fr_series_dict_delta fr !! fp = Some id → in_u 128 fp ∧ in_u 32 id;
  fo_forward id sp : fr_forward_index fr !! id = Some sp → in_u 32 id ∧ wf_spec sp;
  fo_inverted l set : fr_inverted_index fr !! l = Some set → wf_label l ∧ u32_set set ∧ set ≠ ∅;
  fo_samples id ss : fr_samples fr !! id = Some ss → in_u 32 id ∧ utf8_valid (metric_name ss) = true ∧ points ss ≠ [] ∧
    Forall (in_window (bucket_start_ms b)) (points ss) ∧ StronglySorted time_lt (points ss);
}.

Lemma frozen_op_wf fr k op :
  FrozenOk fr → key_bucket k = b → frozen_op fr k = Some op → wf_key k ∧ op_key op = key_bytes k ∧ plain_op op.
Proof.
  intros Hfr Hk H. split.
  - split; [by rewrite Hk|]. destruct k as [[b' fp]|[b' i]|[b' a v]|[b' n i]]; cbn in *.
    + apply fmap_Some in H as (id & H & ->). by apply (fo_dict _ Hfr) in H as [? _].
    + apply fmap_Some in H as (sp & H & ->). by apply (fo_forward _ Hfr) in H as [? _].
    + apply fmap_Some in H as (set & H & ->). by apply (fo_inverted _ Hfr) in H as ([[? _] [? _]] & _).
    + destruct (fr_samples fr !! i) as [ss|] eqn:E; [|done]. case_bool_decide as Hn; [|done].
      apply (fo_samples _ Hfr) in E as (? & ? & _). by subst.
  - assert (Hin : (k, op) ∈ frozen_entries fr) by (by apply frozen_entries_elem). revert Hin. unfold frozen_entries.
    rewrite !elem_of_app, !list_elem_of_fmap. intros [(x & He & _)|[(x & He & _)|[(x & He & _)|(x & He & _)]]];
      injection He as -> ->; split; [done|by right|done|by right|done|by right|done|by right].
Qed.
End flush.

(** ** The store after a flush *)
(** the operator as the store sees it: a panic gives no value *)
Definition operator {T : Tsz} {RB : Roaring} : MergeOperator := λ k existing ops, or_nil (merge_batch k existing ops).

Section store.
Context {T : Tsz} {TL : TszLaws} {RB : Roaring} {RL : RoaringLaws} {HO : HashOrder} {HOL : HashOrderLaws}.
Context {St : Type} {KV : KvStore St} {KL : KvStoreLaws St} {KM : KvMergeLaws St operator}.
Context (b : TimeBucket) (Hb : wf_bucket b).

Definition this_bucket : Z * Z := (bk_size b, bk_start b).

(** the buckets the store lists *)
Definition Buckets (s : St) (bs : list (Z * Z)) : Prop :=
  Forall wf_bucket_entry bs ∧
  match kv_map s bucket_list_bytes with Some v => v = bucket_list_value bs | None => bs = [] end.

Lemma this_bucket_wf : wf_bucket_entry this_bucket.
Proof. destruct Hb as [H1 H2]. split; [unfold in_u; cbn; lia|done]. Qed.

Lemma stored_buckets_spec now s bs :
  kv_ok s → Buckets s bs →
  stored_buckets now s = Ok (match kv_map s bucket_list_bytes with Some _ => Some bs | None => None end).
Proof.
  intros Hok [Hwf Hs]. unfold stored_buckets. rewrite bucket_list_key_spec. cbn [res_bind].
  unfold ts_get. rewrite law_get by done. cbn [res_map_err res_bind].
  destruct (kv_map s bucket_list_bytes) as [v|]; cbn [fmap option_fmap option_map]; [|done].
  subst v. cbn [value]. by rewrite bucket_list_decode_spec.
Qed.

Lemma bucket_list_contains_spec now s bs :
  kv_ok s → Buckets s bs → bucket_list_contains now b s = Ok (bool_decide (this_bucket ∈ bs)).
Proof.
  intros Hok HB. unfold bucket_list_contains. rewrite (stored_buckets_spec now s bs) by done. cbn [res_bind]. f_equal.
  destruct HB as [_ HB]. destruct (kv_map s bucket_list_bytes); [done|]. subst bs.
  by rewrite bool_decide_false by apply not_elem_of_nil.
Qed.

Lemma key_bytes_type k : wf_bucket (key_bucket k) → key_of_type (key_bytes k) (key_type k).
Proof.
  intros [_ Hs]. exists (key_prefix (key_type k) (bk_size (key_bucket k))).
  destruct (prefix_spec (key_type k) (bk_size (key_bucket k))) as (_ & Hwf & Hf & _); [lia|]. split; [|done].
  unfold key_bytes, ts_prefix_bytes. rewrite <-app_assoc. by apply KeyPrefix.from_bytes_to_bytes.
Qed.

(** the operations as a flush writes them *)
Definition announcement (bs : list (Z * Z)) : list RecordOp :=
  if bool_decide (this_bucket ∈ bs) then []
  else [Storage.Merge (mkRecord bucket_list_bytes (bucket_list_value [this_bucket])) TtlDefault].

Lemma flush_ops_spec now s fr bs :
  kv_ok s → Buckets s bs → FrozenOk b fr →
  flush_ops now (mkFlusher s None) fr = Ok (announcement bs ++ (frozen_entries b fr).*2).
Proof.
  intros Hok HB Hfr. unfold flush_ops. rewrite (fo_bucket _ _ Hfr). cbn [fl_storage fl_retention bucket_ttl].
  rewrite (bucket_list_contains_spec now s bs) by done. cbn [res_bind].
  assert (Hann : (if bool_decide (this_bucket ∈ bs) then Ok [] else (let? op := merge_bucket_list b TtlDefault in Ok [op])) =
    Ok (E:=Error) (announcement bs)).
  { unfold announcement. case_bool_decide; [done|]. unfold merge_bucket_list. rewrite bucket_list_key_spec. cbn [res_bind].
    by rewrite bucket_list_encode_spec. }
  rewrite Hann. cbn [res_bind].
  assert (Hk : ∀ k, key_bucket k = b → key_encode k = Ok (key_bytes k)) by (intros k <-; by apply key_encode_spec).
  rewrite (collect_fmap _ (λ e, (dict_entry b e).2)).
  2:{ intros [fp id] _. unfold insert_series_id. pose proof (Hk (KDict (mkDictKey b fp)) eq_refl) as Hk'. cbn [key_encode] in Hk'.
      cbn [fst snd]. by rewrite Hk'. }
  cbn [res_bind]. rewrite (collect_fmap _ (λ e, (forward_entry b e).2)).
  2:{ intros [id sp] Hin%hash_iter_elem. apply (fo_forward _ _ Hfr) in Hin as [_ Hsp]. unfold insert_forward_index.
      pose proof (Hk (KForward (mkForwardKey b id)) eq_refl) as Hk'. cbn [key_encode] in Hk'. cbn [fst snd]. rewrite Hk'.
      destruct (forward_value_roundtrip sp Hsp) as (enc & _ & He & _). unfold forward_entry, value_of_spec in *. cbn [res_bind snd].
      by rewrite He. }
  cbn [res_bind]. rewrite (collect_fmap _ (λ e, (inverted_entry b e).2)).
  2:{ intros [l set] Hin%hash_iter_elem. apply (fo_inverted _ _ Hfr) in Hin as (_ & Hset & _). unfold merge_inverted_index.
      pose proof (Hk (KInverted (mkInvertedKey b (l_name l) (l_value l))) eq_refl) as Hk'. cbn [key_encode] in Hk'. cbn [fst snd]. rewrite Hk'.
      destruct (rb_roundtrip set Hset) as (v & Hv & _). unfold inverted_entry, postings_encode. cbn [res_bind snd]. by rewrite Hv. }
  cbn [res_bind]. rewrite (collect_fmap _ (λ e, (series_entry b e).2)).
  2:{ intros [id ss] Hin%hash_iter_elem. apply (fo_samples _ _ Hfr) in Hin as (_ & _ & _ & Hw & Hs). unfold merge_samples.
      pose proof (Hk (KSeries (mkSeriesKey b (metric_name ss) id)) eq_refl) as Hk'. cbn [key_encode] in Hk'. cbn [fst snd]. rewrite Hk'.
      destruct (stored_encode _ _ Hw Hs) as (v & He & _). unfold series_entry. cbn [res_bind snd]. by rewrite He. }
  cbn [res_bind]. unfold frozen_entries. by rewrite !fmap_app, <-!list_fmap_compose.
Qed.

Lemma ops_keys fr bs :
  FrozenOk b fr → op_key <$> announcement bs ++ (frozen_entries b fr).*2 =
    (op_key <$> announcement bs) ++ (key_bytes <$> (frozen_entries b fr).*1).
Proof.
  intros Hfr. rewrite fmap_app. f_equal. rewrite <-!list_fmap_compose. apply list_fmap_ext.
  intros i [k op] Hi%list_elem_of_lookup_2. apply frozen_entries_elem in Hi as [Hk Ho].
  by destruct (frozen_op_wf b Hb fr k op Hfr Hk Ho) as (_ & ? & _).
Qed.

Lemma frozen_key_wf fr k : FrozenOk b fr → k ∈ (frozen_entries b fr).*1 → wf_key k.
Proof.
  intros Hfr ([k' op] & -> & Hin)%list_elem_of_fmap. apply frozen_entries_elem in Hin as [Hk Ho].
  by destruct (frozen_op_wf b Hb fr k' op Hfr Hk Ho).
Qed.

Lemma ops_nodup fr bs : FrozenOk b fr → NoDup (op_key <$> announcement bs ++ (frozen_entries b fr).*2).
Proof.
  intros Hfr. rewrite ops_keys by done. apply NoDup_app. split_and!.
  - unfold announcement. case_bool_decide; repeat constructor. by intros ?%not_elem_of_nil.
  - intros x Hx (k & -> & _)%list_elem_of_fmap. unfold announcement in Hx. case_bool_decide; [by apply not_elem_of_nil in Hx|].
    apply list_elem_of_singleton in Hx. by apply key_not_bucket_list in Hx.
  - apply NoDup_fmap_2_strong; [|apply frozen_entries_nodup; done].
    intros k k' Hk Hk'. apply key_bytes_inj; by apply (frozen_key_wf fr).
Qed.

Lemma ops_plain fr bs : FrozenOk b fr → Forall plain_op (announcement bs ++ (frozen_entries b fr).*2).
Proof.
  intros Hfr. apply Forall_app. split; [unfold announcement; case_bool_decide; repeat constructor; by right|].
  apply Forall_fmap, Forall_forall. intros [k op] [Hk Ho]%frozen_entries_elem.
  by destruct (frozen_op_wf b Hb fr k op Hfr Hk Ho) as (_ & _ & ?).
Qed.

(** A flush does to each key what the frozen delta has for it, and to nothing else. *)
Lemma flush_keys f m fr bs k :
  FrozenOk b fr → wf_key k →
  foldl (map_op f) m (announcement bs ++ (frozen_entries b fr).*2) (key_bytes k) =
    match (if decide (key_bucket k = b) then frozen_op b fr k else None) with
    | Some op => op_value f op (m (key_bytes k))
    | None => m (key_bytes k)
    end.
Proof.
  intros Hfr Hwf.
  assert (Hno : (∀ op, (k, op) ∉ frozen_entries b fr) → key_bytes k ∉ op_key <$> announcement bs ++ (frozen_entries b fr).*2).
  { intros Hn. rewrite ops_keys, elem_of_app by done. intros [Hx|(k' & He & Hk')%list_elem_of_fmap].
    - unfold announcement in Hx. case_bool_decide; [by apply not_elem_of_nil in Hx|].
      apply list_elem_of_singleton in Hx. by apply key_not_bucket_list in Hx.
    - apply key_bytes_inj in He as <-; [|done|by eapply frozen_key_wf].
      apply list_elem_of_fmap in Hk' as ([k' op] & -> & Hin). by apply (Hn op). }
  case_decide as Hk; [destruct (frozen_op b fr k) as [op|] eqn:Ho|].
  - destruct (frozen_op_wf b Hb fr k op Hfr Hk Ho) as (_ & Hkey & _). rewrite <-Hkey. apply map_ops_elem; [by apply ops_nodup|].
    apply elem_of_app. right. apply list_elem_of_fmap. exists (k, op). split; [done|by apply frozen_entries_elem].
  - apply map_ops_other, Hno. intros op [_ Ho']%frozen_entries_elem. congruence.
  - apply map_ops_other, Hno. by intros op [? _]%frozen_entries_elem.
Qed.

(** nothing but keys of the database is written *)
Lemma flush_clean f m fr bs k v :
  FrozenOk b fr → foldl (map_op f) m (announcement bs ++ (frozen_entries b fr).*2) k = Some v →
  m k = Some v ∨ k = bucket_list_bytes ∨ ∃ k', wf_key k' ∧ k = key_bytes k'.
Proof.
  intros Hfr. destruct (decide (k ∈ op_key <$> announcement bs ++ (frozen_entries b fr).*2)) as [Hin|Hnin].
  - intros _. right. rewrite ops_keys, elem_of_app in Hin by done. destruct Hin as [Hin|(k' & -> & Hin)%list_elem_of_fmap].
    + left. unfold announcement in Hin. case_bool_decide; [by apply not_elem_of_nil in Hin|]. by apply list_elem_of_singleton in Hin.
    + right. exists k'. split; [by eapply frozen_key_wf|done].
  - rewrite map_ops_other by done. by left.
Qed.

Lemma flush_bucket_list m fr bs :
  FrozenOk b fr → Forall wf_bucket_entry bs →
  match m bucket_list_bytes with Some v => v = bucket_list_value bs | None => bs = [] end →
  ∃ bs', Forall wf_bucket_entry bs' ∧ this_bucket ∈ bs' ∧ (∀ x, x ∈ bs' ↔ x ∈ bs ∨ x = this_bucket) ∧
    match foldl (map_op operator) m (announcement bs ++ (frozen_entries b fr).*2) bucket_list_bytes with
    | Some v => v = bucket_list_value bs' | None => bs' = [] end.
Proof.
  intros Hfr Hwf Hm. destruct (decide (this_bucket ∈ bs)) as [Hin|Hnin].
  - exists bs. split_and!; [done..|intros x; naive_solver|]. rewrite map_ops_other; [done|].
    rewrite ops_keys by done. unfold announcement. rewrite bool_decide_true by done.
    intros (k & He & _)%list_elem_of_fmap. by apply (key_not_bucket_list k).
  - set (op := Storage.Merge (mkRecord bucket_list_bytes (bucket_list_value [this_bucket])) TtlDefault).
    assert (Hin : op ∈ announcement bs ++ (frozen_entries b fr).*2).
    { apply elem_of_app. left. unfold announcement. rewrite bool_decide_false by done. by left. }
    pose proof (map_ops_elem operator _ m op (ops_nodup fr bs Hfr) Hin) as Hop. change (op_key op) with bucket_list_bytes in Hop.
    rewrite Hop. clear Hop Hin.
    set (old := match m bucket_list_bytes with Some _ => Some bs | None => None end).
    assert (Ho : m bucket_list_bytes = bucket_list_value <$> old ∧ default [] old = bs).
    { unfold old. destruct (m bucket_list_bytes); cbn; by subst. }
    destruct Ho as [Ho Hd].
    assert (Hl : Forall (Forall wf_bucket_entry) (option_list old ++ [[this_bucket]])).
    { apply Forall_app. split; [|repeat constructor; apply this_bucket_wf].
      unfold old. destruct (m bucket_list_bytes); repeat constructor; done. }
    pose proof (merge_buckets_spec old [[this_bucket]] Hl) as Hmerge. rewrite Hd in Hmerge.
    cbn [concat app foldl] in Hmerge. unfold add_bucket in Hmerge. rewrite bool_decide_false in Hmerge by done.
    exists (sort_by by_start (bs ++ [this_bucket])). split_and!.
    + rewrite sort_by_perm. apply Forall_app. split; [done|]. repeat constructor; apply this_bucket_wf.
    + rewrite sort_by_perm. apply elem_of_app. right. by left.
    + intros x. by rewrite sort_by_perm, elem_of_app, list_elem_of_singleton.
    + cbn [op_value op op_key key value]. rewrite Ho. unfold operator, merge_batch. cbn [KeyPrefix.from_bytes].
      change (bucket_list_value <$> [[this_bucket]]) with [bucket_list_value [this_bucket]] in Hmerge.
      replace (KeyPrefix.from_bytes bucket_list_bytes) with (Ok (E:=DeserializeError) (key_prefix BucketList 0)) by reflexivity.
      cbn [res_map_err res_bind]. replace (from_prefix (key_prefix BucketList 0)) with (Ok (E:=Error) BucketList) by reflexivity.
      cbn [res_bind]. by rewrite Hmerge.
Qed.

(** ** What the store holds after some batches *)
Context {B : Blake3} (U : list Label → Prop) (HU : collision_free U).

Lemma fingerprint_range labels : in_u 128 (fingerprint labels).
Proof.
  unfold fingerprint. set (h := take 16 _). pose proof (from_le_range h) as H.
  assert (Hl : (length h ≤ 16)%nat) by (unfold h; rewrite length_take; lia). unfold in_u. change 128 with (8 * 16).
  split; [lia|]. eapply Z.lt_le_trans; [apply H|]. rewrite pow256. apply Z.pow_le_mono_r; lia.
Qed.

Definition dict_key (fp : Z) : bytes := key_bytes (KDict (mkDictKey b fp)).
Definition forward_key (id : Z) : bytes := key_bytes (KForward (mkForwardKey b id)).
Definition inverted_key (l : Label) : bytes := key_bytes (KInverted (mkInvertedKey b (l_name l) (l_value l))).
Definition series_key (name : bytes) (id : Z) : bytes := key_bytes (KSeries (mkSeriesKey b name id)).

Definition utf8_label (l : Label) : Prop := utf8_valid (l_name l) = true ∧ utf8_valid (l_value l) = true.

(** the samples of a series over the batches, the newest value at each time *)
Definition Newest (labels : list Label) (batches : list (list Entry)) (pts : list Sample) : Prop :=
  ∀ t, lookup_at t pts = newest t (series_points labels <$> batches).

Record StoreOk (known : list SeriesSpec) (batches : list (list Entry)) (s : St) : Prop := {
  so_ok : kvm_ok s;
  so_clean t k v : ts_prefix_bytes t b `prefix_of` k → kv_map s k = Some v → ∃ k', wf_key k' ∧ k = key_bytes k';
  so_labels es e : es ∈ batches → e ∈ es → e_labels e ∈ sp_labels <$> known;
  so_buckets : ∃ bs, Buckets s bs ∧ (known ≠ [] → this_bucket ∈ bs);
  so_dict fp v : in_u 128 fp →
    kv_map s (dict_key fp) = Some v ↔
      ∃ id sp, At 0 known id sp ∧ fp = fingerprint (sp_labels sp) ∧ v = dict_value_encode id;
  so_forward id v : in_u 32 id →
    kv_map s (forward_key id) = Some v ↔ ∃ sp, At 0 known id sp ∧ v = or_nil (forward_value_encode (value_of_spec sp));
  so_inverted l : utf8_label l →
    ∃ set, (∀ x, x ∈ set ↔ ∃ sp, At 0 known x sp ∧ l ∈ sp_labels sp) ∧
      match kv_map s (inverted_key l) with Some v => Postings v set ∧ set ≠ ∅ | None => set = ∅ end;
  so_series name id : utf8_valid name = true → in_u 32 id →
    match kv_map s (series_key name id) with
    | Some v => ∃ sp pts, At 0 known id sp ∧ name = metric_name_of (sp_labels sp) ∧ pts ≠ [] ∧
        Stored (bucket_start_ms b) v pts ∧ Newest (sp_labels sp) batches pts
    | None => ∀ sp, At 0 known id sp → name = metric_name_of (sp_labels sp) →
        ∀ es, es ∈ batches → series_points (sp_labels sp) es = []
    end;
}.

Definition EntryOk (e : Entry) : Prop :=
  U (e_labels e) ∧ wf_spec (spec_of e) ∧ in_u 64 (s_value (e_sample e)) ∧ in_bucket b e = true.

(** a batch the theorems speak of: well-formed, the samples of each series in time order *)
Definition BatchOk (es : list Entry) : Prop :=
  Forall EntryOk es ∧ ∀ labels, StronglySorted time_lt (series_points labels es).

Definition KnownOk (known : list SeriesSpec) : Prop :=
  Known U known ∧ Forall wf_spec known ∧ blen known < 2 ^ 32.

Lemma in_bucket_window e : in_bucket b e = true → in_u 64 (s_value (e_sample e)) → in_window (bucket_start_ms b) (e_sample e).
Proof.
  unfold in_bucket. intros [H1%Z.leb_le H2%Z.ltb_lt]%andb_true_iff Hv. destruct Hb as [Hs _]. unfold in_window, in_u in *.
  unfold bucket_start_ms, bucket_end_ms in *.
  assert (Hm : 0 ≤ size_in_mins b < 256) by (unfold size_in_mins, wrap; apply Z.mod_pos_bound; lia).
  split_and!; lia.
Qed.

Lemma metric_name_utf8 labels : Forall wf_label labels → utf8_valid (metric_name_of labels) = true.
Proof.
  intros H. unfold metric_name_of. destruct (filter _ labels) as [|l ls] eqn:E; [done|]. cbn.
  assert (Hin : l ∈ filter (λ l, l_name l = name_label) labels) by (rewrite E; left).
  apply list_elem_of_filter in Hin as [_ Hin]. rewrite Forall_forall in H. by destruct (H l Hin) as [_ [? _]].
Qed.

Lemma KnownOk_add known es :
  KnownOk known → Forall EntryOk es → blen (foldl add_series known es) < 2 ^ 32 → KnownOk (foldl add_series known es).
Proof.
  intros (HK & Hwf & _) Hes Hlen. split_and!; [|apply Forall_forall|done].
  - apply Known_add; [done|]. eapply Forall_impl; [exact Hes|]. by intros e (? & _).
  - rewrite Forall_forall in Hwf. rewrite Forall_forall in Hes. intros sp [H|(e & He & ->)]%add_all_origin; [by apply Hwf|]. by apply Hes in He as (_ & ? & _).
Qed.

Lemma At_u32 known n id sp : KnownOk known → At n known id sp → in_u 32 id ∧ wf_spec sp.
Proof.
  intros (_ & Hwf & Hlen) Hat. split; [apply At_range in Hat; unfold in_u, blen in *; lia|].
  rewrite Forall_forall in Hwf. apply Hwf, At_elem. exists id. by eapply At_weaken.
Qed.

(** The delta of a well-formed batch can be flushed. *)
Lemma frozen_ok known es d :
  KnownOk (foldl add_series known es) → BatchOk es → DeltaOk b known es d → FrozenOk b (delta_freeze d).1.1.
Proof.
  intros HK [Hes Hsort] Hok. cbn [delta_freeze fst]. destruct Hok. constructor; cbn; [done|..].
  - intros fp id (sp & Hat & ->)%do_delta0. split; [apply fingerprint_range|by eapply At_u32].
  - intros id sp Hat%do_forward0. by eapply At_u32.
  - intros l set Hl. assert (Hd : default ∅ (inverted_index d !! l) = set) by (by rewrite Hl).
    assert (Hne : set ≠ ∅) by (intros ->; by apply (do_inhabited0 l)).
    pose proof (do_inverted0 l) as Hx. rewrite Hd in Hx. split_and!; [|intros x|done].
    + apply set_choose_L in Hne as [x (sp & Hat & Hin)%Hx]. destruct (At_u32 _ _ _ _ HK Hat) as [_ (_ & Hls & _)].
      rewrite Forall_forall in Hls. by apply Hls.
    + intros (sp & Hat & _)%Hx. by eapply At_u32.
  - intros id ss (sp & Hat & Hne & ->)%do_samples0. destruct (At_u32 _ _ _ _ HK Hat) as [Hid (_ & Hls & _)]. cbn.
    split_and!; [done|by apply metric_name_utf8|done| |apply Hsort].
    unfold series_points. apply Forall_fmap, Forall_forall. intros e [_ He]%list_elem_of_filter.
    rewrite Forall_forall in Hes. apply Hes in He as (_ & _ & ? & ?). by apply in_bucket_window.
Qed.

Lemma At_split known es id sp :
  At 0 (foldl add_series known es) id sp ↔ At 0 known id sp ∨ At (length known) (foldl add_series known es) id sp.
Proof.
  pose proof (add_all_prefix known es) as [rest Hr]. rewrite Hr. split.
  - intros (i & _ & Hi & ->). apply lookup_app_Some in Hi as [Hi|[Hge Hi]].
    + left. exists i. split_and!; [lia|done..].
    + right. exists i. split_and!; [done| |done]. by rewrite lookup_app_r by done.
  - intros [(i & _ & Hi & ->)|Hat]; [|by eapply At_weaken]. exists i. split_and!; [lia|by apply lookup_app_l_Some|done].
Qed.

Lemma newest_none t ptss : (∀ pts, pts ∈ ptss → pts = []) → newest t ptss = None.
Proof.
  intros H. unfold newest. replace (omap (lookup_at t) ptss) with (@nil Z); [done|].
  induction ptss as [|pts ptss IH]; [done|]. rewrite (H pts ltac:(left)) in *. cbn. apply IH. intros pts' Hin. apply H. by right.
Qed.

Lemma newest_one t q : newest t [q] = lookup_at t q.
Proof. unfold newest. cbn. by destruct (lookup_at t q). Qed.
Lemma newest_two t p q : newest t [p; q] = match lookup_at t q with Some v => Some v | None => lookup_at t p end.
Proof. unfold newest. cbn. by destruct (lookup_at t p), (lookup_at t q). Qed.

Lemma Newest_snoc labels batches es pts :
  Newest labels (batches ++ [es]) pts ↔
  ∀ t, lookup_at t pts = match lookup_at t (series_points labels es) with
                         | Some v => Some v | None => newest t (series_points labels <$> batches) end.
Proof. unfold Newest. rewrite fmap_app. cbn [fmap list_fmap]. by setoid_rewrite newest_snoc. Qed.

Lemma lookup_at_some q : q ≠ [] → ∃ t v, lookup_at t q = Some v.
Proof.
  destruct q as [|x q]; [done|]. intros _. exists (timestamp_ms x), (s_value x). unfold lookup_at.
  by rewrite filter_cons, decide_True by done.
Qed.

(** One flush, key by key: [m] the values before it, [m'] after it. *)
Section one_flush.
Context (known : list SeriesSpec) (batches : list (list Entry)) (es : list Entry) (d : TsdbWriteDelta) (s s' : St).
Context (HS : StoreOk known batches s) (HK : KnownOk known) (HK' : KnownOk (foldl add_series known es)).
Context (HB : BatchOk es) (HD : DeltaOk b known es d).
Context (Hmap : ∀ k, wf_key k → key_bucket k = b →
  kv_map s' (key_bytes k) =
    match frozen_op b (delta_freeze d).1.1 k with
    | Some op => op_value operator op (kv_map s (key_bytes k))
    | None => kv_map s (key_bytes k)
    end).

Lemma flush_dict fp v :
  in_u 128 fp →
  kv_map s' (dict_key fp) = Some v ↔
    ∃ id sp, At 0 (foldl add_series known es) id sp ∧ fp = fingerprint (sp_labels sp) ∧ v = dict_value_encode id.
Proof.
  intros Hfp. unfold dict_key. rewrite Hmap by done. cbn [frozen_op delta_freeze fst fr_series_dict_delta dk_fingerprint].
  pose proof (do_delta _ _ _ _ HD) as Hd. unfold DictFrom in Hd. setoid_rewrite At_split.
  destruct (series_dict_delta d !! fp) as [id|] eqn:E; cbn [fmap option_fmap option_map op_value dict_entry snd value].
  - apply Hd in E as (sp & Hat & ->). split; [intros [= <-]; by exists id, sp; auto|].
    intros (id' & sp' & Hat' & He & ->). f_equal. f_equal. destruct HK' as [HK1 _].
    rewrite <-At_split in Hat'. apply HU in He; [|by eapply Known_At..].
    by destruct (At_labels _ _ _ _ _ _ _ (proj1 HK1) Hat Hat' He).
  - fold (dict_key fp). rewrite (so_dict _ _ _ HS) by done. split; [naive_solver|].
    intros (id & sp & [Hat|Hat] & -> & ->); [by exists id, sp|]. exfalso.
    assert (Hs : series_dict_delta d !! fingerprint (sp_labels sp) = Some id) by (apply Hd; by exists sp). by rewrite E in Hs.
Qed.

Lemma flush_forward id v :
  in_u 32 id →
  kv_map s' (forward_key id) = Some v ↔
    ∃ sp, At 0 (foldl add_series known es) id sp ∧ v = or_nil (forward_value_encode (value_of_spec sp)).
Proof.
  intros Hid. unfold forward_key. rewrite Hmap by done. cbn [frozen_op delta_freeze fst fr_forward_index fk_series_id].
  pose proof (do_forward _ _ _ _ HD) as Hd. setoid_rewrite At_split.
  destruct (forward_index d !! id) as [sp|] eqn:E; cbn [fmap option_fmap option_map op_value forward_entry snd value].
  - apply Hd in E. split; [intros [= <-]; by exists sp; auto|]. intros (sp' & Hat' & ->).
    rewrite <-At_split in Hat'. by rewrite (At_inj _ _ _ _ _ _ Hat' E).
  - fold (forward_key id). rewrite (so_forward _ _ _ HS) by done. split; [naive_solver|].
    intros (sp & [Hat|Hat] & ->); [by exists sp|]. exfalso. apply Hd in Hat. by rewrite E in Hat.
Qed.

Lemma flush_inverted l :
  utf8_label l →
  ∃ set, (∀ x, x ∈ set ↔ ∃ sp, At 0 (foldl add_series known es) x sp ∧ l ∈ sp_labels sp) ∧
    match kv_map s' (inverted_key l) with Some v => Postings v set ∧ set ≠ ∅ | None => set = ∅ end.
Proof.
  intros Hl. destruct (so_inverted _ _ _ HS l Hl) as (old & Hold & Hv). unfold inverted_key in *. rewrite Hmap by done.
  set (k := KInverted _) in *.
  assert (Hlabel : mkLabel (l_name l) (l_value l) = l) by (by destruct l).
  cbn [frozen_op delta_freeze fst fr_inverted_index ik_attribute ik_value k]. rewrite Hlabel. fold k.
  pose proof (do_inverted _ _ _ _ HD l) as Hd. pose proof (frozen_ok known es d HK' HB HD) as Hfr.
  destruct (inverted_index d !! l) as [new|] eqn:E.
  - cbn [default] in Hd. pose proof (fo_inverted _ _ Hfr l new E) as (_ & Hu & Hne).
    exists (old ∪ new). split.
    { intros x. rewrite elem_of_union, Hold, Hd. setoid_rewrite At_split. naive_solver. }
    cbn [fmap option_fmap option_map op_value inverted_entry snd value fst key]. fold k.
    destruct (rb_roundtrip new Hu) as (vn & Hvn & _). unfold postings_encode. rewrite Hvn. cbn [or_nil].
    destruct (key_bytes_type k Hb) as (p & Hp & Ht).
    assert (Hm : ∃ v, merge_batch_inverted_index (kv_map s (key_bytes k)) [vn] = Ok v ∧ Postings v (old ∪ new)).
    { destruct (kv_map s (key_bytes k)) as [vo|].
      - destruct (merge_postings_spec (Some vo) [vn] [old; new]) as (v & ? & Hv'); [constructor; [apply Hv|constructor; [by split|constructor]]|].
        exists v. split; [done|]. cbn in Hv'. by rewrite union_empty_r_L in Hv'.
      - subst old. destruct (merge_postings_spec None [vn] [new]) as (v & ? & Hv'); [constructor; [by split|constructor]|].
        exists v. split; [done|]. cbn in Hv'. rewrite union_empty_r_L in Hv'. by rewrite union_empty_l_L. }
    destruct Hm as (v & Hm & Hpost). unfold operator, merge_batch. rewrite Hp. cbn [res_map_err res_bind]. rewrite Ht.
    cbn [res_bind key_type k]. rewrite Hm. cbn [or_nil]. split; [done|]. set_solver.
  - cbn [default] in Hd. exists old. cbn [fmap option_fmap option_map]. split; [|done].
    intros x. rewrite Hold. setoid_rewrite At_split. split; [naive_solver|]. intros (sp & [Hat|Hat] & Hin); [by exists sp|].
    exfalso. apply (not_elem_of_empty (C:=gset Z) x), Hd. by exists sp.
Qed.

(** a series has no samples in the batch unless the delta has an entry for it *)
Lemma no_samples id sp : At 0 (foldl add_series known es) id sp →
  (∀ ss, samples d !! id = Some ss → metric_name ss ≠ metric_name_of (sp_labels sp)) → series_points (sp_labels sp) es = [].
Proof.
  intros Hat Hn. destruct (decide (series_points (sp_labels sp) es = [])) as [?|Hne]; [done|]. exfalso.
  eapply Hn; [apply (do_samples _ _ _ _ HD); by exists sp|done].
Qed.

Lemma no_older_samples id sp es' :
  At (length known) (foldl add_series known es) id sp → es' ∈ batches → series_points (sp_labels sp) es' = [].
Proof.
  intros Hat Hin. apply series_points_other. intros e He Heq.
  pose proof (so_labels _ _ _ HS es' e Hin He) as (sp' & Hl & [id' Hat']%At_elem)%list_elem_of_fmap.
  assert (Hat'' : At 0 (foldl add_series known es) id' sp') by (apply At_split; by left).
  rewrite Heq in Hl. destruct (At_labels _ _ _ _ _ _ _ (proj1 (proj1 HK')) Hat Hat'' Hl) as [-> ->].
  apply At_range in Hat'. destruct Hat as (i & Hi & _ & ->). lia.
Qed.

Lemma flush_series name id :
  utf8_valid name = true → in_u 32 id →
  match kv_map s' (series_key name id) with
  | Some v => ∃ sp pts, At 0 (foldl add_series known es) id sp ∧ name = metric_name_of (sp_labels sp) ∧ pts ≠ [] ∧
      Stored (bucket_start_ms b) v pts ∧ Newest (sp_labels sp) (batches ++ [es]) pts
  | None => ∀ sp, At 0 (foldl add_series known es) id sp → name = metric_name_of (sp_labels sp) →
      ∀ es', es' ∈ batches ++ [es] → series_points (sp_labels sp) es' = []
  end.
Proof.
  intros Hname Hid. pose proof (so_series _ _ _ HS name id Hname Hid) as Hold. unfold series_key in *. rewrite Hmap by done.
  set (k := KSeries _) in *. cbn [frozen_op delta_freeze fst fr_samples tk_series_id tk_metric_name k]. fold k.
  pose proof (do_samples _ _ _ _ HD id) as Hd. pose proof (frozen_ok known es d HK' HB HD) as Hfr.
  destruct (match samples d !! id with Some ss => if bool_decide (metric_name ss = name) then Some _ else None | None => None end)
    as [op|] eqn:E.
  - destruct (samples d !! id) as [ss|] eqn:Es; [|done]. case_bool_decide as Hn; [|done]. injection E as <-.
    pose proof (fo_samples _ _ Hfr id ss Es) as (_ & _ & Hne & Hw & Hsort).
    destruct (proj1 (Hd ss) eq_refl) as (sp & Hat & _ & ->). cbn [metric_name points] in *.
    destruct (stored_encode _ _ Hw Hsort) as (vn & Hvn).
    cbn [op_value series_entry snd fst key value metric_name points]. rewrite Hn. fold k. destruct Hvn as [He ?]. rewrite He. cbn [or_nil].
    assert (Hm : ∃ v pts, merge_batch_time_series (kv_map s (key_bytes k)) [vn] = Ok v ∧ Stored (bucket_start_ms b) v pts ∧
      Newest (sp_labels sp) (batches ++ [es]) pts).
    { destruct (kv_map s (key_bytes k)) as [vo|].
      - destruct Hold as (sp0 & pts0 & Hat0 & _ & _ & Hst0 & Hnew0).
        assert (sp0 = sp) as -> by (eapply (At_inj 0 0 (foldl add_series known es)); [apply At_split; by left|done]).
        destruct (merge_series_spec (bucket_start_ms b) (Some vo) [vn] [pts0; series_points (sp_labels sp) es]) as (v & pts & Hv & Hst & Hl);
          [constructor; [done|constructor; [by split|constructor]]|].
        exists v, pts. split_and!; [done..|]. apply Newest_snoc. intros t. by rewrite Hl, <-Hnew0, newest_two.
      - destruct (merge_series_spec (bucket_start_ms b) None [vn] [series_points (sp_labels sp) es]) as (v & pts & Hv & Hst & Hl);
          [constructor; [by split|constructor]|].
        exists v, pts. split_and!; [done..|]. apply Newest_snoc. intros t. rewrite Hl, newest_one.
        rewrite (newest_none t (_ <$> batches)); [by destruct (lookup_at t _)|]. intros p (es' & -> & Hin)%list_elem_of_fmap.
        pose proof Hat as [Hat0|Hat0]%At_split; [by apply Hold|by eapply no_older_samples]. }
    destruct Hm as (v & pts & Hm & Hst & Hnew). destruct (key_bytes_type k Hb) as (p & Hp & Ht).
    unfold operator, merge_batch. rewrite Hp. cbn [res_map_err res_bind]. rewrite Ht. cbn [res_bind key_type k]. rewrite Hm. cbn [or_nil].
    exists sp, pts. split_and!; [done..| |done|done].
    destruct (lookup_at_some _ Hne) as (t & w & Hw'). rewrite Newest_snoc in Hnew. specialize (Hnew t). rewrite Hw' in Hnew. by intros ->.
  - assert (Hno : ∀ sp, At 0 (foldl add_series known es) id sp → name = metric_name_of (sp_labels sp) → series_points (sp_labels sp) es = []).
    { intros sp Hat Hn. apply (no_samples id sp Hat). intros ss Hss. rewrite Hss in E. rewrite <-Hn. by case_bool_decide. }
    destruct (kv_map s (key_bytes k)) as [v|].
    + destruct Hold as (sp & pts & Hat & Hn & Hne & Hst & Hnew).
      assert (Hat' : At 0 (foldl add_series known es) id sp) by (apply At_split; by left).
      exists sp, pts. split_and!; [done..|]. apply Newest_snoc. intros t. rewrite (Hno sp Hat' Hn). apply Hnew.
    + intros sp Hat Hn es' [Hin|Hin]%elem_of_app; [|apply list_elem_of_singleton in Hin as ->; by apply Hno].
      pose proof Hat as [Hat0|Hat0]%At_split; [by apply Hold|by eapply no_older_samples].
Qed.

Lemma flush_store_ok bs :
  kvm_ok s' → (∀ t k v, ts_prefix_bytes t b `prefix_of` k → kv_map s' k = Some v → ∃ k', wf_key k' ∧ k = key_bytes k') →
  Buckets s' bs → this_bucket ∈ bs → StoreOk (foldl add_series known es) (batches ++ [es]) s'.
Proof.
  intros Hok Hclean Hbs Hin. constructor; [done|done| |by exists bs|exact flush_dict|exact flush_forward|exact flush_inverted|exact flush_series].
  intros es' e [Hin'|Hin']%elem_of_app He; [|apply list_elem_of_singleton in Hin' as ->; by apply add_all_elem].
  pose proof (so_labels _ _ _ HS es' e Hin' He) as Hl. destruct (add_all_prefix known es) as [rest ->].
  rewrite fmap_app. apply elem_of_app. by left.
Qed.
End one_flush.

Lemma empty_batch known batches s : StoreOk known batches s → StoreOk known (batches ++ [[]]) s.
Proof.
  intros [H1 Hc H2 H3 H4 H5 H6 H7]. constructor; try done.
  - intros es e [Hin|Hin]%elem_of_app He; [by eapply H2|]. apply list_elem_of_singleton in Hin as ->. by apply not_elem_of_nil in He.
  - intros name id Hn Hid. specialize (H7 name id Hn Hid). destruct (kv_map s _) as [v|].
    + destruct H7 as (sp & pts & ? & ? & ? & ? & Hnew). exists sp, pts. split_and!; [done..|]. apply Newest_snoc. apply Hnew.
    + intros sp Hat Hname es [Hin|Hin]%elem_of_app; [by apply H7|]. by apply list_elem_of_singleton in Hin as ->.
Qed.

Lemma empty_delta known es d :
  Forall EntryOk es → DeltaOk b known es d → is_empty (delta_freeze d).1.1 = true → es = [].
Proof.
  intros Hes HD He. unfold is_empty in He. apply andb_true_iff in He as [He%bool_decide_eq_true _].
  destruct es as [|e es]; [done|]. exfalso.
  pose proof (add_all_elem known (e :: es) e ltac:(left)) as (sp & Hl & [id Hat]%At_elem)%list_elem_of_fmap.
  assert (Hs : samples d !! id = Some (mkSeriesSamples (metric_name_of (sp_labels sp)) (series_points (sp_labels sp) (e :: es)))).
  { apply (do_samples _ _ _ _ HD). exists sp. split_and!; [done| |done]. unfold series_points. by rewrite filter_cons, decide_True. }
  cbn in He. rewrite He in Hs. by rewrite lookup_empty in Hs.
Qed.

(** Flushing the delta of a batch extends the store by the batch. *)
Lemma flush_step now known batches es d s :
  StoreOk known batches s → KnownOk known → KnownOk (foldl add_series known es) → BatchOk es → DeltaOk b known es d →
  ∃ s' snapshot, ts_flush_delta now (mkFlusher s None) (delta_freeze d).1.1 = (mkFlusher s' None, Ok snapshot) ∧
    StoreOk (foldl add_series known es) (batches ++ [es]) s' ∧
    kv_ok snapshot ∧ (∀ k, kv_map snapshot k = kv_map s' k) ∧
    (∀ k, wf_key k → key_bucket k ≠ b → kv_map s' (key_bytes k) = kv_map s (key_bytes k)).
Proof.
  intros HS HK HK' HB HD. pose proof (so_ok _ _ _ HS) as Hok. pose proof (kvm_ok_kv_ok _ Hok) as Hkv.
  unfold ts_flush_delta. destruct (is_empty _) eqn:Hempty.
  { pose proof (empty_delta known es d (proj1 HB) HD Hempty) as ->. cbn [foldl fl_storage].
    destruct (law_snapshot s Hkv) as (sn & -> & Hsn & Hm). exists s, sn. split_and!; [done|by apply empty_batch|done..]. }
  pose proof (frozen_ok known es d HK' HB HD) as Hfr. destruct (so_buckets _ _ _ HS) as (bs & Hbs & _).
  rewrite (flush_ops_spec now s _ bs) by done. cbn [res_bind fl_storage fl_retention].
  destruct (law_apply now _ s Hok (ops_plain _ bs Hfr)) as (s' & n & Ha & Hok' & Hmap). rewrite Ha. cbn [res_map_err].
  destruct (law_snapshot s' (kvm_ok_kv_ok _ Hok')) as (sn & Hsnap & Hsn & Hm). rewrite Hsnap.
  destruct (flush_bucket_list (kv_map s) _ bs Hfr (proj1 Hbs) (proj2 Hbs)) as (bs' & Hwf' & Hin' & _ & Hl').
  exists s', sn. split_and!; [done| |done..|].
  - eapply (flush_store_ok known batches es d s s'); [exact HS|exact HK|exact HK'|exact HB|exact HD| |done| | |exact Hin'].
    + intros k Hk Hbk. rewrite Hmap, flush_keys by done. by rewrite decide_True.
    + intros t k v Hp. rewrite Hmap. intros [Hold|[->|?]]%flush_clean; [by eapply (so_clean _ _ _ HS)| |done|done].
      apply prefix_length in Hp. rewrite prefix_bytes_length in Hp. cbn in Hp. lia.
    + split; [done|]. by rewrite Hmap.
  - intros k Hk Hbk. rewrite Hmap, flush_keys by done. by rewrite decide_False.
Qed.

(** ** A sequence of batches *)
(** the writes of a batch, then its freeze and flush at the given clock *)
Definition run_batch (now : Z) (writes : list (list Series)) (st : TsdbContext * TsdbFlusher St) :
    (TsdbContext * TsdbFlusher St) * res Error St :=
  let d := apply_writes (delta_init st.1) writes in
  let '(frozen, _, cx) := delta_freeze d in
  let '(fl, r) := ts_flush_delta now st.2 frozen in
  ((cx, fl), r).

Fixpoint run (batches : list (Z * list (list Series))) (st : TsdbContext * TsdbFlusher St) :
    res Error (TsdbContext * TsdbFlusher St) :=
  match batches with
  | [] => Ok st
  | (now, writes) :: batches => let '(st, r) := run_batch now writes st in let? _ := r in run batches st
  end.

Definition all_series_of (known : list SeriesSpec) (ess : list (list Entry)) : list SeriesSpec :=
  foldl add_series known (concat ess).

Lemma run_ok batches : ∀ known done dict s,
  let ess := batch_entries b <$> batches.*2 in
  StoreOk known done s → KnownOk known → DictFrom 0 known dict → Forall BatchOk ess → blen (all_series_of known ess) < 2 ^ 32 →
  ∃ dict' s', run batches (mkContext b dict (blen known), mkFlusher s None) =
      Ok (mkContext b dict' (blen (all_series_of known ess)), mkFlusher s' None) ∧
    StoreOk (all_series_of known ess) (done ++ ess) s' ∧ KnownOk (all_series_of known ess) ∧
    DictFrom 0 (all_series_of known ess) dict' ∧
    (∀ k, wf_key k → key_bucket k ≠ b → kv_map s' (key_bytes k) = kv_map s (key_bytes k)).
Proof.
  induction batches as [|[now writes] batches IH]; intros known done_ dict s ess HS HK Hd HB Hlen.
  { exists dict, s. subst ess. rewrite app_nil_r. by split_and!. }
  unfold ess in *. cbn [fmap list_fmap snd] in *. fold (batch_entries b <$> batches.*2) in *.
  set (es := batch_entries b writes) in *. set (ess' := batch_entries b <$> batches.*2) in *.
  apply Forall_cons in HB as [HBe HB].
  assert (Hall : all_series_of known (es :: ess') = all_series_of (foldl add_series known es) ess')
    by (unfold all_series_of; cbn [concat]; by rewrite foldl_app). rewrite Hall in *.
  assert (Hlen1 : blen (foldl add_series known es) < 2 ^ 32).
  { eapply Z.le_lt_trans; [|exact Hlen]. unfold blen, all_series_of. apply Nat2Z.inj_le, prefix_length, add_all_prefix. }
  pose proof (KnownOk_add known es HK (proj1 HBe) Hlen1) as HK1.
  pose proof (batch_delta_ok U HU b known dict writes (proj1 HK) Hd
    ltac:(eapply Forall_impl; [exact (proj1 HBe)|by intros e (? & _)]) Hlen1) as HD. fold es in HD.
  set (d := apply_writes _ _) in HD.
  destruct (flush_step now known done_ es d s HS HK HK1 HBe HD) as (s1 & sn & Hf & HS1 & _ & _ & Hother).
  cbn [run]. unfold run_batch. cbn [fst snd]. fold d. change (delta_freeze d) with ((delta_freeze d).1.1, tt, (delta_freeze d).2).
  cbv beta iota zeta. rewrite Hf. cbn [res_bind].
  assert (Hcx : (delta_freeze d).2 = mkContext b (series_dict_delta d ∪ series_dict_base d) (blen (foldl add_series known es))).
  { cbn [delta_freeze snd]. by rewrite (do_bucket _ _ _ _ HD), (do_next _ _ _ _ HD). }
  rewrite Hcx. pose proof (dict_union U HU _ _ _ _ (proj1 HK1) (do_base _ _ _ _ HD) (do_delta _ _ _ _ HD)) as Hd1.
  destruct (IH _ _ _ _ HS1 HK1 Hd1 HB Hlen) as (dict' & s' & Hr & HS' & HKe & Hd' & Ho).
  exists dict', s'. rewrite <-app_assoc in HS'. split_and!; [done..|]. intros k Hk Hbk. rewrite Ho by done. by apply Hother.
Qed.
End store.
End TsDbSpec.
