(* ===== verification/TsDbReads.v ===== *)
(** * timeseries: what readers of a bucket see

    The reads of [storage/mod.rs] and [minitsdb.rs] on a store that holds the
    batches of a bucket ([TsDbSpec]): dictionary, indexes, label values, samples. *)
From stdpp Require Import gmap strings.
From S2P Require Import Prelude HashMap Codec SortBy Serde ByteRange TerminatedBytes Encoding Storage KvStore TsSerde TsMerge TsDb TsDbSpec.
#[local] Open Scope Z_scope.

Module TsDbReads.
Import Ts TsMerge TsDb TsDbSpec.

(** ** Scans *)
Lemma sorted_keys_nodup (recs : list Record_) :
  StronglySorted (λ a b, bcmp (key a) (key b) = Lt) recs → NoDup (key <$> recs).
Proof.
  induction 1 as [|r recs _ IH Hr]; [constructor|]. rewrite fmap_cons. apply NoDup_cons. split; [|done].
  intros (r' & He & Hin)%list_elem_of_fmap. rewrite Forall_forall in Hr. specialize (Hr r' Hin). rewrite He, bcmp_refl in Hr. done.
Qed.

Lemma NoDup_firsts {K V C} (P : K * V → C) items :
  (∀ x y, x.1 = y.1 → P x = P y) → NoDup (P <$> items) → NoDup items.*1.
Proof.
  intros HP. induction items as [|x items IH]; [constructor|]. rewrite !fmap_cons, !NoDup_cons. intros [Hx Hnd].
  split; [|by apply IH]. intros (y & Hy & Hin)%list_elem_of_fmap. apply Hx, list_elem_of_fmap. exists y. split; [by apply HP|done].
Qed.

(** a loop whose steps all succeed *)
Lemma fold_records_spec {A X} (f : Record_ → A → res Error A) (step : X → A → A) recs items acc :
  Forall2 (λ r x, ∀ acc, f r acc = Ok (step x acc)) recs items →
  fold_records f recs acc = Ok (foldl (λ acc x, step x acc) acc items).
Proof.
  intros H. revert acc. induction H as [|r x recs items Hr _ IH]; intros acc; [done|]. cbn [fold_records foldl].
  rewrite Hr. cbn [res_bind]. apply IH.
Qed.

Lemma foldl_insert {K V} `{Countable K} (items : list (K * V)) (m : gmap K V) k v :
  NoDup items.*1 →
  foldl (λ m kv, <[kv.1 := kv.2]> m) m items !! k = Some v ↔ (k, v) ∈ items ∨ k ∉ items.*1 ∧ m !! k = Some v.
Proof.
  revert m. induction items as [|[k' v'] items IH]; intros m Hnd; cbn [foldl].
  { split; [intros Hm; right; split; [apply not_elem_of_nil|done]|]. intros [?%not_elem_of_nil|[_ ?]]; done. }
  rewrite fmap_cons, NoDup_cons in Hnd. destruct Hnd as [Hk' Hnd]. rewrite IH by done. cbn [fst snd]. rewrite fmap_cons, elem_of_cons, not_elem_of_cons.
  cbn [fst]. split.
  - intros [Hin|[Hn Hm]]; [by left; right|]. apply lookup_insert_Some in Hm as [[-> ->]|[Hne Hm]]; [by left; left|right; done].
  - intros [[[= -> ->]|Hin]|[[Hne Hn] Hm]]; [|by left|]; right.
    + split; [done|]. by rewrite lookup_insert_eq.
    + split; [done|]. by rewrite lookup_insert_ne.
Qed.

Section reads.
Context {T : Tsz} {TL : TszLaws} {RB : Roaring} {RL : RoaringLaws} {HO : HashOrder} {HOL : HashOrderLaws} {B : Blake3}.
Context {St : Type} {KV : KvStore St} {KL : KvStoreLaws St} {KM : KvMergeLaws St operator}.
Context (b : TimeBucket) (Hb : wf_bucket b) (U : list Label → Prop) (HU : collision_free U).
Context (now : Z) (known : list SeriesSpec) (batches : list (list Entry)) (s : St).
Context (HS : StoreOk b known batches s) (HK : KnownOk U known).

Let Hkv : kv_ok s := kvm_ok_kv_ok _ (so_ok _ _ _ _ HS).

Lemma scan_prefix p :
  ∃ recs, ts_scan now (prefix p) s = Ok recs ∧ NoDup (key <$> recs) ∧
    ∀ k v, mkRecord k v ∈ recs ↔ p `prefix_of` k ∧ kv_map s k = Some v.
Proof.
  destruct (law_scan now (prefix p) s Hkv (prefix_no_panic p)) as (recs & Hs & Hsort & Hel).
  exists recs. split_and!; [unfold ts_scan; by rewrite Hs|by apply sorted_keys_nodup|].
  intros k v. rewrite Hel. by rewrite prefix_contains_exact.
Qed.

(** The scan of a record type, each record decoded to an item. *)
Lemma scan_items {X} t (P : X → Key) (Q : X → bytes → Prop) :
  (∀ k v, wf_key k → key_bucket k = b → key_type k = t → kv_map s (key_bytes k) = Some v → ∃ x, k = P x ∧ Q x v) →
  ∃ recs items, bucket_range t b = Ok (prefix (ts_prefix_bytes t b)) ∧
    ts_scan now (prefix (ts_prefix_bytes t b)) s = Ok recs ∧
    Forall2 (λ r x, key r = key_bytes (P x) ∧ wf_key (P x) ∧ Q x (value r)) recs items ∧
    NoDup (P <$> items) ∧
    ∀ k v, wf_key k → key_bucket k = b → key_type k = t → kv_map s (key_bytes k) = Some v → ∃ x, x ∈ items ∧ k = P x ∧ Q x v.
Proof.
  intros HP. destruct (scan_prefix (ts_prefix_bytes t b)) as (recs & Hs & Hnd & Hel).
  assert (Hall : Forall (λ r, ∃ x, key r = key_bytes (P x) ∧ wf_key (P x) ∧ Q x (value r)) recs).
  { apply Forall_forall. intros [k v] [Hp Hv]%Hel. destruct (so_clean _ _ _ _ HS t k v Hp Hv) as (k' & Hwf & ->).
    destruct Hp as [rest Hp]. unfold key_bytes in Hp. apply prefix_bytes_inj in Hp as (Ht & Hbk & _); [|apply Hwf|done].
    destruct (HP k' v Hwf Hbk Ht Hv) as (x & -> & HQ). by exists x. }
  apply forall_exists in Hall as (items & Hitems). exists recs, items.
  split_and!; [unfold bucket_range; by rewrite bucket_prefix_spec|done|done| |].
  - assert (He : key <$> recs = key_bytes <$> (P <$> items)).
    { clear -Hitems. induction Hitems as [|r x recs items (Hr & _) _ IH]; [done|]. by rewrite !fmap_cons, Hr, IH. }
    rewrite He in Hnd. by apply NoDup_fmap_1 in Hnd.
  - intros k v Hwf Hbk Ht Hv.
    assert (Hin : mkRecord (key_bytes k) v ∈ recs).
    { apply Hel. split; [|done]. unfold key_bytes. rewrite Ht, Hbk. by apply prefix_app_r. }
    destruct (Forall2_elem_l _ _ _ _ Hitems Hin) as (x & Hx & He & Hwf' & HQ). cbn [key value] in *.
    exists x. split_and!; [done|by apply key_bytes_inj|done].
Qed.

Lemma At_lookup id sp : in_u 32 id → At 0 known id sp ↔ known !! Z.to_nat id = Some sp.
Proof.
  intros Hid. unfold in_u in Hid. split; [intros (i & _ & Hi & ->); by rewrite Nat2Z.id|].
  intros Hi. exists (Z.to_nat id). split_and!; [lia|done|lia].
Qed.

Lemma ts_get_spec k : wf_bucket (key_bucket k) → ts_get now (key_bytes k) s = Ok (mkRecord (key_bytes k) <$> kv_map s (key_bytes k)).
Proof. intros _. unfold ts_get. by rewrite (law_get now _ s Hkv). Qed.

Lemma forward_decoded sp : wf_spec sp →
  ∃ v, forward_value_decode (or_nil (forward_value_encode (value_of_spec sp))) = Ok v ∧ spec_of_value v = sp.
Proof. intros Hsp. destruct (forward_value_roundtrip sp Hsp) as (enc & v & He & Hd & Hv). exists v. by rewrite He. Qed.

Lemma read_forward_one id : in_u 32 id → get_forward_index_one now b id s = Ok (known !! Z.to_nat id).
Proof.
  intros Hid. unfold get_forward_index_one. pose proof (key_encode_spec (KForward (mkForwardKey b id)) Hb) as He. cbn [key_encode] in He.
  rewrite He. cbn [res_bind]. rewrite ts_get_spec by done. cbn [res_bind]. fold (forward_key b id).
  destruct (kv_map s (forward_key b id)) as [v|] eqn:E; cbn [fmap option_fmap option_map].
  - apply (so_forward _ _ _ _ HS) in E as (sp & Hat & ->); [|done]. destruct (At_u32 U known 0 id sp HK Hat) as [_ Hsp].
    destruct (forward_decoded sp Hsp) as (v & Hv & Hsv). cbn [value]. rewrite Hv. cbn [res_bind]. rewrite Hsv.
    by apply At_lookup in Hat as ->.
  - destruct (known !! Z.to_nat id) as [sp|] eqn:El; [|done]. apply At_lookup in El; [|done]. exfalso.
    assert (Hs : kv_map s (forward_key b id) = Some (or_nil (forward_value_encode (value_of_spec sp))))
      by (apply (so_forward _ _ _ _ HS); [done|by exists sp]). by rewrite E in Hs.
Qed.

Lemma read_forward : ∃ m, get_forward_index now b s = Ok m ∧ ∀ id sp, m !! id = Some sp ↔ At 0 known id sp.
Proof.
  destruct (scan_items (X:=Z * SeriesSpec) Ts.ForwardIndex (λ x, KForward (mkForwardKey b x.1))
    (λ x v, At 0 known x.1 x.2 ∧ v = or_nil (forward_value_encode (value_of_spec x.2)))) as (recs & items & Hr & Hs & Hf & Hnd & Hall).
  { intros [?|[b' id]|?|?] v Hwf Hbk Ht Hv; try done. cbn [key_bucket fk_bucket] in Hbk. subst b'. destruct Hwf as [_ Hid]. cbn in Hid.
    apply (so_forward _ _ _ _ HS) in Hv as (sp & Hat & ->); [|done]. by exists (id, sp). }
  unfold get_forward_index. rewrite Hr. cbn [res_bind]. rewrite Hs. cbn [res_bind].
  rewrite (fold_records_spec _ (λ x m, <[x.1 := x.2]> m) _ items).
  2:{ eapply Forall2_impl; [exact Hf|]. intros r [id sp] (Hk & Hwf & Hat & Hv) acc. cbn [fst snd] in *. rewrite Hk.
      pose proof (key_decode_spec _ Hwf) as Hd. cbn [key_decode key_type] in Hd. apply res_bind_ok in Hd as (k & Hd & [= ->]).
      rewrite Hd. cbn [res_bind]. destruct (At_u32 U known 0 id sp HK Hat) as [_ Hsp]. destruct (forward_decoded sp Hsp) as (v & Hv' & Hsv).
      rewrite Hv, Hv'. cbn [res_bind fk_series_id]. by rewrite Hsv. }
  eexists. split; [reflexivity|]. intros id sp.
  apply NoDup_firsts in Hnd; [|by intros [x1 x2] [y1 y2] [= ->]]. rewrite foldl_insert by done. rewrite lookup_empty. split.
  - intros [Hin|[_ ?]]; [|done]. destruct (Forall2_elem_r _ _ _ _ Hf Hin) as (r & _ & _ & _ & Hat & _). done.
  - intros Hat. left. destruct (At_u32 U known 0 id sp HK Hat) as [Hid _].
    destruct (Hall (KForward (mkForwardKey b id)) (or_nil (forward_value_encode (value_of_spec sp)))) as ([id' sp'] & Hin & [= ->] & Hat' & _);
      [by split|done..|apply (so_forward _ _ _ _ HS); [done|by exists sp]|].
    cbn [fst snd] in *. by rewrite (At_inj _ _ _ _ _ _ Hat Hat').
Qed.

Lemma ids_elem l x : x ∈ ids 0 known l ↔ ∃ sp, At 0 known x sp ∧ l ∈ sp_labels sp.
Proof.
  unfold ids. rewrite elem_of_list_to_set, list_elem_of_fmap. setoid_rewrite list_elem_of_filter. unfold has_label. split.
  - intros (i & -> & Hl & Hi). destruct (known !! i) as [sp|] eqn:E; [|done]. apply bool_decide_eq_true in Hl.
    exists sp. split; [|done]. exists i. split_and!; [lia|done..].
  - intros (sp & (i & _ & Hi & ->) & Hl). exists i. rewrite Hi. split_and!; [done|by apply bool_decide_eq_true|].
    apply lookup_lt_Some in Hi. apply elem_of_seq. lia.
Qed.

Lemma read_inverted_term l :
  utf8_label l →
  get_inverted_index_term now b l s = Ok (if decide (ids 0 known l = ∅) then None else Some (ids 0 known l)).
Proof.
  intros Hl. unfold get_inverted_index_term.
  pose proof (key_encode_spec (KInverted (mkInvertedKey b (l_name l) (l_value l))) Hb) as He. cbn [key_encode] in He.
  rewrite He. cbn [res_bind]. rewrite ts_get_spec by done. cbn [res_bind]. fold (inverted_key b l).
  destruct (so_inverted _ _ _ _ HS l Hl) as (set & Hset & Hv).
  assert (Hids : ids 0 known l = set) by (apply set_eq; intros x; by rewrite ids_elem, Hset). rewrite Hids.
  destruct (kv_map s (inverted_key b l)) as [v|]; cbn [fmap option_fmap option_map].
  - destruct Hv as [Hp Hne]. cbn [value]. rewrite (postings_decode_spec v set) by done. cbn [res_bind]. by rewrite decide_False.
  - subst set. by rewrite decide_True.
Qed.

Lemma series_values sp : sp ∈ known → Forall wf_label (sp_labels sp).
Proof. intros Hin. destruct HK as (_ & Hwf & _). rewrite Forall_forall in Hwf. by destruct (Hwf sp Hin) as (_ & ? & _). Qed.

(** the inverted index of the bucket: the labels in use, each with its series *)
Lemma read_inverted :
  ∃ m, get_inverted_index now b s = Ok m ∧ ∀ l set, m !! l = Some set ↔ set ≠ ∅ ∧ set = ids 0 known l.
Proof.
  destruct (scan_items (X:=Label * gset Z) Ts.InvertedIndex (λ x, KInverted (mkInvertedKey b (l_name x.1) (l_value x.1)))
    (λ x v, Postings v x.2 ∧ x.2 ≠ ∅ ∧ x.2 = ids 0 known x.1)) as (recs & items & Hr & Hs & Hf & Hnd & Hall).
  { intros [?|?|[b' a va]|?] v Hwf Hbk Ht Hv; try done. cbn [key_bucket ik_bucket] in Hbk. subst b'. destruct Hwf as [_ Hl]. cbn in Hl.
    destruct (so_inverted _ _ _ _ HS (mkLabel a va) Hl) as (set & Hset & Hv'). unfold inverted_key in Hv'. cbn [l_name l_value] in Hv'.
    rewrite Hv in Hv'. exists (mkLabel a va, set). split; [done|]. destruct Hv' as [? ?]. split_and!; [done..|].
    apply set_eq. intros x. by rewrite ids_elem, Hset. }
  unfold get_inverted_index. rewrite Hr. cbn [res_bind]. rewrite Hs. cbn [res_bind].
  rewrite (fold_records_spec _ (λ x m, <[x.1 := x.2]> m) _ items).
  2:{ eapply Forall2_impl; [exact Hf|]. intros r [l set] (Hk & Hwf & Hp & _) acc. cbn [fst snd] in *. rewrite Hk.
      pose proof (key_decode_spec _ Hwf) as Hd. cbn [key_decode key_type] in Hd. apply res_bind_ok in Hd as (k & Hd & [= ->]).
      rewrite Hd. cbn [res_bind]. rewrite (postings_decode_spec _ set) by done. cbn [res_bind ik_attribute ik_value]. by destruct l. }
  eexists. split; [reflexivity|]. intros l set.
  apply NoDup_firsts in Hnd; [|by intros [x1 x2] [y1 y2] [= ->]]. rewrite foldl_insert by done. rewrite lookup_empty. split.
  - intros [Hin|[_ ?]]; [|done]. by destruct (Forall2_elem_r _ _ _ _ Hf Hin) as (r & _ & _ & _ & _ & ? & ?).
  - intros [Hne ->]. left. assert (Hl : utf8_label l).
    { apply set_choose_L in Hne as [x (sp & Hat & Hin)%ids_elem]. pose proof (proj2 (At_elem known sp) (ex_intro _ x Hat)) as Hsp%series_values.
      rewrite Forall_forall in Hsp. by destruct (Hsp l Hin) as [[? _] [? _]]. }
    destruct (so_inverted _ _ _ _ HS l Hl) as (set & Hset & Hv).
    assert (Hids : ids 0 known l = set) by (apply set_eq; intros x; by rewrite ids_elem, Hset).
    destruct (kv_map s (inverted_key b l)) as [v|] eqn:E; [|by subst].
    destruct (Hall (KInverted (mkInvertedKey b (l_name l) (l_value l))) v) as ([l' set'] & Hin & [= Hn Hv'] & _ & _ & Hs');
      [by split|done..|]. cbn [fst snd] in *.
    destruct l as [n v'], l' as [n2 v2]. cbn in *. by subst.
Qed.

Lemma foldl_max (items : list (Z * Z)) (acc : gmap Z Z * Z) :
  let r := foldl (λ (acc : gmap Z Z * Z) x, (<[x.1 := x.2]> acc.1, Z.max acc.2 x.2)) acc items in
  r.1 = foldl (λ m x, <[x.1 := x.2]> m) acc.1 items ∧
  acc.2 ≤ r.2 ∧ (∀ x, x ∈ items → x.2 ≤ r.2) ∧ (r.2 = acc.2 ∨ ∃ x, x ∈ items ∧ x.2 = r.2).
Proof.
  revert acc. induction items as [|x items IH]; intros acc; cbn [foldl].
  { split_and!; [done|lia|by intros ? ?%not_elem_of_nil|by left]. }
  destruct (IH (<[x.1 := x.2]> acc.1, Z.max acc.2 x.2)) as (H1 & H2 & H3 & H4). cbn [fst snd] in *. split_and!; [done|lia| |].
  - intros y [->|Hy]%elem_of_cons; [lia|by apply H3].
  - destruct H4 as [H4|(y & Hy & H4)]; [|right; exists y; split; [by right|done]]. rewrite H4.
    destruct (Z.max_spec acc.2 x.2) as [[_ ->]|[_ ->]]; [right; exists x; split; [by left|done]|by left].
Qed.

(** Opening the bucket again: the dictionary of all series, and as the next id
    the last one given ([0] when there is none). *)
Lemma read_load :
  ∃ dict, load now b s = Ok (mkContext b dict (Z.max 0 (blen known - 1))) ∧ DictFrom 0 known dict.
Proof.
  destruct (law_snapshot s Hkv) as (sn & Hsn & Hok & Hmap).
  assert (Hscan : ∀ r, BTreeMap.range_panics r = false → ts_scan now r sn = ts_scan now r s).
  { intros r Hr. unfold ts_scan. destruct (law_scan now r s Hkv Hr) as (l & -> & Hl), (law_scan now r sn Hok Hr) as (l' & -> & Hl').
    cbn [res_map_err]. f_equal. eapply scan_result_unique; [eapply scan_result_ext; [|exact Hl']; exact Hmap|exact Hl]. }
  destruct (scan_items (X:=Z * Z) SeriesDictionary (λ x, KDict (mkDictKey b x.1))
    (λ x v, in_u 32 x.2 ∧ v = dict_value_encode x.2 ∧ ∃ sp, At 0 known x.2 sp ∧ x.1 = fingerprint (sp_labels sp)))
    as (recs & items & Hr & Hs & Hf & Hnd & Hall).
  { intros [[b' fp]|?|?|?] v Hwf Hbk Ht Hv; try done. cbn [key_bucket dk_bucket] in Hbk. subst b'. destruct Hwf as [_ Hfp]. cbn in Hfp.
    apply (so_dict _ _ _ _ HS) in Hv as (id & sp & Hat & -> & ->); [|done]. exists (fingerprint (sp_labels sp), id).
    split_and!; [done|by eapply At_u32|done|by exists sp]. }
  unfold load, load_series_dictionary. rewrite Hsn. cbn [res_map_err res_bind]. rewrite Hr. cbn [res_bind].
  rewrite Hscan by apply prefix_no_panic. rewrite Hs. cbn [res_bind].
  rewrite (fold_records_spec _ (λ x acc, (<[x.1 := x.2]> acc.1, Z.max acc.2 x.2)) _ items).
  2:{ eapply Forall2_impl; [exact Hf|]. intros r [fp id] (Hk & Hwf & Hid & Hv & _) acc. cbn [fst snd] in *. rewrite Hk.
      pose proof (key_decode_spec _ Hwf) as Hd. cbn [key_decode key_type] in Hd. apply res_bind_ok in Hd as (k & Hd & [= ->]).
      rewrite Hd. cbn [res_bind]. rewrite Hv, dict_value_spec by done. done. }
  cbn [res_bind]. destruct (foldl_max items (∅, 0)) as (H1 & H2 & H3 & H4). cbv zeta in H1, H2, H3, H4.
  destruct (foldl _ (∅, 0) items) as [dict mx]. cbn [fst snd] in *. exists dict.
  assert (Hdict : DictFrom 0 known dict).
  { intros fp id. rewrite H1. apply NoDup_firsts in Hnd; [|by intros [x1 x2] [y1 y2] [= ->]]. rewrite foldl_insert by done.
    rewrite lookup_empty. split.
    - intros [Hin|[_ ?]]; [|done]. by destruct (Forall2_elem_r _ _ _ _ Hf Hin) as (r & _ & _ & _ & _ & _ & ?).
    - intros (sp & Hat & ->). left.
      destruct (Hall (KDict (mkDictKey b (fingerprint (sp_labels sp)))) (dict_value_encode id)) as ([fp id'] & Hin & [= Hk] & Hid' & He & sp' & Hat' & Hfp);
        [split; [done|apply fingerprint_range]|done|done|apply (so_dict _ _ _ _ HS); [apply fingerprint_range|by exists id, sp]|].
      cbn [fst snd] in *. rewrite <-Hk in Hin, Hfp. apply HU in Hfp; [|eapply Known_At; [exact (proj1 HK)|done]..].
      by destruct (At_labels known _ _ _ _ _ _ (proj1 (proj1 HK)) Hat Hat' Hfp) as [-> _]. }
  split; [|done]. do 2 f_equal. destruct known as [|sp0 rest] eqn:Hkn.
  - destruct H4 as [->|([fp id] & Hin & <-)]; [done|]. exfalso.
    destruct (Forall2_elem_r _ _ _ _ Hf Hin) as (r & _ & _ & _ & _ & _ & sp & (i & _ & Hi & _) & _). by rewrite lookup_nil in Hi.
  - rewrite <-Hkn in *. assert (Hlast : ∃ sp, At 0 known (blen known - 1) sp).
    { destruct (lookup_lt_is_Some_2 known (length known - 1)) as [sp Hsp]; [rewrite Hkn; cbn [length]; lia|].
      exists sp, (length known - 1)%nat. split_and!; [lia|done|]. unfold blen. rewrite Hkn. cbn [length]. lia. }
    destruct Hlast as [sp Hsp].
    assert (Hin : dict !! fingerprint (sp_labels sp) = Some (blen known - 1)) by (apply Hdict; by exists sp).
    rewrite H1 in Hin. apply NoDup_firsts in Hnd; [|by intros [x1 x2] [y1 y2] [= ->]]. apply foldl_insert in Hin; [|done].
    rewrite lookup_empty in Hin. destruct Hin as [Hin|[_ ?]]; [|done]. apply H3 in Hin. cbn [snd] in Hin.
    destruct H4 as [->|([fp id] & Hin' & <-)]; [unfold blen in *; rewrite Hkn in *; cbn [length] in *; lia|].
    destruct (Forall2_elem_r _ _ _ _ Hf Hin') as (r & _ & _ & _ & _ & _ & sp' & Hat%At_range & _). cbn [snd fst] in *. unfold blen in *. lia.
Qed.

Lemma foldl_snoc_values {X} (items acc : list X) : foldl (λ vs x, vs ++ [x]) acc items = acc ++ items.
Proof.
  revert acc. induction items as [|x items IH]; intros acc; cbn [foldl]; [by rewrite app_nil_r|]. by rewrite IH, <-app_assoc.
Qed.

(** the values of a label name: each value in use once *)
Lemma read_label_values name :
  ∃ vs, get_label_values now b name s = Ok vs ∧ NoDup vs ∧
    ∀ v, v ∈ vs ↔ ∃ sp, sp ∈ known ∧ mkLabel name v ∈ sp_labels sp.
Proof.
  set (p := ts_prefix_bytes Ts.InvertedIndex b ++ TerminatedBytes.serialize_to_bytes name).
  set (K v := KInverted (mkInvertedKey b name v)).
  destruct (scan_prefix p) as (recs & Hs & Hnd & Hel).
  assert (Hall : Forall (λ r, ∃ v, wf_key (K v) ∧ key r = key_bytes (K v)) recs).
  { apply Forall_forall. intros [k v] [Hp Hv]%Hel.
    destruct (so_clean _ _ _ _ HS Ts.InvertedIndex k v) as (k' & Hwf & ->); [by etrans; [apply prefix_app_r|]|done|].
    apply attribute_prefix in Hp as (va & ->); [by exists va|apply Hwf|done]. }
  apply forall_exists in Hall as (vs & Hvs). exists vs.
  assert (Hkeys : key <$> recs = (λ v, key_bytes (K v)) <$> vs).
  { clear -Hvs. induction Hvs as [|r x recs items (_ & Hr) _ IH]; [done|]. by rewrite !fmap_cons, Hr, IH. }
  split_and!.
  - unfold get_label_values, attribute_range. rewrite bucket_prefix_spec by done. cbn [res_bind]. rewrite serialize_append. fold p.
    rewrite Hs. cbn [res_bind]. rewrite (fold_records_spec _ (λ v vs, vs ++ [v]) _ vs), foldl_snoc_values; [done|].
    eapply Forall2_impl; [exact Hvs|]. intros r v (Hwf & Hk) acc. rewrite Hk. pose proof (key_decode_spec _ Hwf) as Hd.
    cbn [key_decode key_type K] in Hd. apply res_bind_ok in Hd as (k & Hd & [= ->]). fold (K v) in Hd. by rewrite Hd.
  - rewrite Hkeys in Hnd. by apply NoDup_fmap_1 in Hnd.
  - intros v.
    assert (Hv : v ∈ vs ↔ utf8_label (mkLabel name v) ∧ kv_map s (inverted_key b (mkLabel name v)) ≠ None).
    { split.
      - intros Hin. destruct (Forall2_elem_r _ _ _ _ Hvs Hin) as ([k x] & Hr & [_ Hwf] & Hk). cbn [key] in Hk. subst k.
        apply Hel in Hr as [_ Hr]. split; [done|]. unfold inverted_key. cbn [l_name l_value]. unfold K in Hr. by rewrite Hr.
      - intros [Hu Hne]. destruct (kv_map s _) as [x|] eqn:E; [|done].
        assert (Hin : mkRecord (key_bytes (K v)) x ∈ recs) by (apply Hel; split; [apply attribute_prefix; [done..|by exists v]|done]).
        destruct (Forall2_elem_l _ _ _ _ Hvs Hin) as (v' & Hin' & Hwf & Hk). cbn [key] in Hk.
        apply key_bytes_inj in Hk; [|by split|done]. by injection Hk as ->. }
    rewrite Hv. split.
    + intros [Hu Hne]. destruct (so_inverted _ _ _ _ HS _ Hu) as (set & Hset & Hv'). destruct (kv_map s _) as [x|]; [|done].
      destruct Hv' as [_ [y (sp & Hat & Hl)%Hset]%set_choose_L]. exists sp. split; [|done]. apply At_elem. by exists y.
    + intros (sp & Hsp & Hl). assert (Hu : utf8_label (mkLabel name v)).
      { apply series_values in Hsp. rewrite Forall_forall in Hsp. by destruct (Hsp _ Hl) as [[? _] [? _]]. }
      split; [done|]. destruct (so_inverted _ _ _ _ HS _ Hu) as (set & Hset & Hv'). destruct (kv_map s _); [done|]. subst set.
      apply At_elem in Hsp as [y Hat]. exfalso. apply (not_elem_of_empty (C:=gset Z) y), Hset. by exists sp.
Qed.

Lemma omap_ok (l : list Sample) :
  omap (λ i : res Error Sample, match i with Ok sample => Some sample | _ => None end) (Ok <$> l) = l.
Proof. induction l as [|x l IH]; [done|]. rewrite fmap_cons. cbn. by f_equal. Qed.

(** the samples of a series in a time range: at each time the newest value *)
Lemma read_samples id sp start_ms end_ms :
  At 0 known id sp →
  ∃ pts, mini_samples now b id (metric_name_of (sp_labels sp)) start_ms end_ms s = Ok pts ∧ StronglySorted time_lt pts ∧
    ∀ t v, mkSample t v ∈ pts ↔ start_ms < t ≤ end_ms ∧ newest t (series_points (sp_labels sp) <$> batches) = Some v.
Proof.
  intros Hat. destruct (At_u32 U known 0 id sp HK Hat) as [Hid (_ & Hls & _)]. set (name := metric_name_of (sp_labels sp)).
  pose proof (key_encode_spec (KSeries (mkSeriesKey b name id)) Hb) as He. cbn [key_encode] in He.
  unfold mini_samples. rewrite He. cbn [res_bind]. rewrite ts_get_spec by done. cbn [res_bind]. fold (series_key b name id).
  pose proof (so_series _ _ _ _ HS name id (metric_name_utf8 _ Hls) Hid) as Hv.
  destruct (kv_map s (series_key b name id)) as [v|]; cbn [fmap option_fmap option_map].
  - destruct Hv as (sp' & pts & Hat' & _ & Hne & Hst & Hnew). rewrite (At_inj _ _ _ _ _ _ Hat' Hat) in Hnew. cbn [value].
    destruct (stored_items _ _ _ Hst) as [[? _]|(_ & _ & ->)]; [done|]. rewrite omap_ok. eexists. split; [reflexivity|].
    destruct Hst as (_ & _ & Hsort). split; [by apply sorted_filter|]. intros t w. rewrite list_elem_of_filter. cbn [timestamp_ms].
    rewrite andb_true_iff, Z.ltb_lt, Z.leb_le, <-lookup_at_spec by done. by rewrite Hnew.
  - exists []. split_and!; [done|constructor|]. intros t w. split; [by intros ?%not_elem_of_nil|]. intros [_ Hn].
    rewrite newest_none in Hn; [done|]. intros p (es & -> & Hin)%list_elem_of_fmap. by apply (Hv sp Hat eq_refl).
Qed.

Lemma read_listed : known ≠ [] → bucket_list_contains now b s = Ok true.
Proof.
  intros Hne. destruct (so_buckets _ _ _ _ HS) as (bs & Hbs & Hin). rewrite (bucket_list_contains_spec b now s bs) by done.
  by rewrite bool_decide_true by auto.
Qed.
(** *** Opening the bucket again and writing a new series *)
Lemma flush_frozen fr :
  FrozenOk b fr → is_empty fr = false →
  ∃ s' snapshot, ts_flush_delta now (mkFlusher s None) fr = (mkFlusher s' None, Ok snapshot) ∧ kvm_ok s' ∧
    ∀ k, wf_key k → key_bucket k = b →
      kv_map s' (key_bytes k) =
        match frozen_op b fr k with
        | Some op => op_value operator op (kv_map s (key_bytes k))
        | None => kv_map s (key_bytes k)
        end.
Proof.
  intros Hfr Hne. destruct (so_buckets _ _ _ _ HS) as (bs & Hbs & _). unfold ts_flush_delta. rewrite Hne.
  rewrite (flush_ops_spec b Hb now s fr bs) by done. cbn [res_bind fl_storage fl_retention].
  destruct (law_apply now _ s (so_ok _ _ _ _ HS) (ops_plain b Hb fr bs Hfr)) as (s' & n & Ha & Hok' & Hmap). rewrite Ha. cbn [res_map_err].
  destruct (law_snapshot s' (kvm_ok_kv_ok _ Hok')) as (sn & Hsnap & _). rewrite Hsnap. exists s', sn. split_and!; [done..|].
  intros k Hk Hbk. rewrite Hmap, (flush_keys b Hb) by done. by rewrite decide_True.
Qed.

Section reload.
Context (old : SeriesSpec) (Hold : last known = Some old) (e : Entry) (dict : gmap Z Z) (Hdict : DictFrom 0 known dict).
Context (Hst : wf_spec (spec_of e)) (Hval : in_u 64 (s_value (e_sample e))) (Hin : in_bucket b e = true).
Context (Hnew : ∀ sp, sp ∈ known → fingerprint (sp_labels sp) ≠ fingerprint (e_labels e)).

(** the id of the last series, with which a reopened bucket goes on *)
Definition last_id : Z := Z.max 0 (blen known - 1).

Lemma last_at : At 0 known last_id old.
Proof.
  rewrite last_lookup in Hold. pose proof (lookup_lt_Some _ _ _ Hold). exists (pred (length known)).
  split_and!; [lia|done|]. unfold last_id, blen. lia.
Qed.

Definition reopened : TsdbWriteDelta := delta_init (mkContext b dict last_id).

(** the delta of the write *)
Lemma reopened_write :
  (put_entry e reopened).1 =
    mkDelta b dict {[fingerprint (e_labels e) := last_id]} {[last_id := spec_of e]}
      (foldl (λ idx l, inverted_insert idx l {[last_id]}) ∅ (e_labels e))
      {[last_id := mkSeriesSamples (metric_name_of (e_labels e)) [e_sample e]]} (wrap 32 (last_id + 1)).
Proof.
  rewrite put_entry_eq by done. cbn [reopened delta_init series_dict_delta series_dict_base cx_series_dict].
  rewrite map_empty_union. destruct (dict !! fingerprint (e_labels e)) as [i|] eqn:E; [|done].
  apply Hdict in E as (sp & Hat & He). exfalso. eapply Hnew; [apply At_elem; by exists i|done].
Qed.

Lemma reopened_frozen_ok : FrozenOk b (delta_freeze (put_entry e reopened).1).1.1.
Proof.
  rewrite reopened_write. destruct (At_u32 U known 0 _ _ HK last_at) as [Hid _]. destruct Hst as (_ & Hls & _). cbn [sp_labels spec_of] in Hls.
  constructor; cbn; [done|..].
  - intros fp i [<- <-]%lookup_singleton_Some. split; [apply fingerprint_range|done].
  - by intros i sp [<- <-]%lookup_singleton_Some.
  - intros l set Hl. pose proof (postings_insert U HU last_id (e_labels e) ∅ l) as Hp. rewrite Hl, lookup_empty in Hp. cbn in Hp.
    assert (Hne : set ≠ ∅) by (intros ->; by eapply (postings_inhabited U HU last_id (e_labels e) ∅ l); [rewrite lookup_empty|]).
    case_decide as Hel; [|set_solver]. rewrite Forall_forall in Hls. split_and!; [by apply Hls|intros x|done]. set_solver.
  - intros i ss [<- <-]%lookup_singleton_Some. cbn. split_and!; [done|by apply metric_name_utf8|done| |repeat constructor].
    apply Forall_singleton. by apply in_bucket_window.
Qed.

(** The stored values after the flush: the metadata of the old series is replaced, the
    new sample is added to the samples of the old series if the metric names agree. *)
Lemma reopened_flush :
  ∃ s' snapshot, ts_flush_delta now (mkFlusher s None) (delta_freeze (put_entry e reopened).1).1.1 = (mkFlusher s' None, Ok snapshot) ∧
    kvm_ok s' ∧
    kv_map s' (forward_key b last_id) = Some (or_nil (forward_value_encode (value_of_spec (spec_of e)))) ∧
    (metric_name_of (e_labels e) = metric_name_of (sp_labels old) →
     ∃ v pts, kv_map s' (series_key b (metric_name_of (sp_labels old)) last_id) = Some v ∧ Stored (bucket_start_ms b) v pts ∧ pts ≠ [] ∧
       ∀ t, lookup_at t pts = newest t ((series_points (sp_labels old) <$> batches) ++ [[e_sample e]])).
Proof.
  destruct (At_u32 U known 0 _ _ HK last_at) as [Hid Hwf].
  destruct (flush_frozen _ reopened_frozen_ok) as (s' & sn & Hf & Hok & Hmap).
  { rewrite reopened_write. unfold is_empty. cbn [delta_freeze fst fr_samples samples]. by rewrite bool_decide_false by apply map_non_empty_singleton. }
  exists s', sn. split_and!; [done..| |].
  - unfold forward_key. rewrite Hmap by done. rewrite reopened_write. cbn [frozen_op delta_freeze fst fr_forward_index forward_index fk_series_id].
    by rewrite lookup_singleton_eq.
  - intros Hname. assert (Hutf : utf8_valid (metric_name_of (sp_labels old)) = true) by (apply metric_name_utf8; apply Hwf).
    pose proof (so_series _ _ _ _ HS _ last_id Hutf Hid) as Hser. unfold series_key in *. rewrite Hmap by done. clear Hf.
    set (k := KSeries _) in *. rewrite reopened_write. cbn [frozen_op delta_freeze fst fr_samples samples tk_series_id tk_metric_name k].
    rewrite lookup_singleton_eq. cbn [metric_name]. rewrite bool_decide_true by done.
    assert (Hw : Forall (in_window (bucket_start_ms b)) [e_sample e]) by (apply Forall_singleton; by apply in_bucket_window).
    destruct (stored_encode _ _ Hw ltac:(repeat constructor)) as (vn & Hvn).
    cbn [op_value series_entry snd fst key value metric_name points]. rewrite Hname. fold k. pose proof Hvn as [He _]. rewrite He. cbn [or_nil].
    assert (Hm : ∃ v pts, merge_batch_time_series (kv_map s (key_bytes k)) [vn] = Ok v ∧ Stored (bucket_start_ms b) v pts ∧
      ∀ t, lookup_at t pts = newest t ((series_points (sp_labels old) <$> batches) ++ [[e_sample e]])).
    { setoid_rewrite newest_snoc. destruct (kv_map s (key_bytes k)) as [vo|].
      - destruct Hser as (sp & pts0 & Hat & _ & _ & Hst0 & Hnew0). rewrite (At_inj _ _ _ _ _ _ Hat last_at) in Hnew0.
        destruct (merge_series_spec (bucket_start_ms b) (Some vo) [vn] [pts0; [e_sample e]]) as (v & pts & Hv & Hs & Hl);
          [constructor; [done|constructor; [done|constructor]]|].
        exists v, pts. split_and!; [done..|]. intros t. by rewrite Hl, <-Hnew0, newest_two.
      - destruct (merge_series_spec (bucket_start_ms b) None [vn] [[e_sample e]]) as (v & pts & Hv & Hs & Hl);
          [constructor; [done|constructor]|].
        exists v, pts. split_and!; [done..|]. intros t. rewrite Hl, newest_one.
        rewrite (newest_none t (_ <$> batches)); [by destruct (lookup_at t _)|]. intros q (es & -> & Hes)%list_elem_of_fmap.
        apply (Hser old last_at eq_refl es Hes). }
    destruct Hm as (v & pts & Hm & Hs & Hl). destruct (key_bytes_type k Hb) as (pre & Hp & Ht). exists v, pts.
    unfold operator, merge_batch. rewrite Hp. cbn [res_map_err res_bind]. rewrite Ht. cbn [res_bind key_type k]. rewrite Hm. cbn [or_nil].
    split_and!; [done..| |done]. intros ->. specialize (Hl (timestamp_ms (e_sample e))). rewrite newest_snoc in Hl.
    unfold lookup_at at 2 in Hl. by rewrite filter_cons, decide_True in Hl by done.
Qed.

(** The same through the readers. *)
Lemma reopened_reads :
  ∃ s' snapshot, ts_flush_delta now (mkFlusher s None) (delta_freeze (put_entry e reopened).1).1.1 = (mkFlusher s' None, Ok snapshot) ∧
    get_forward_index_one now b last_id s' = Ok (Some (spec_of e)) ∧
    (metric_name_of (e_labels e) = metric_name_of (sp_labels old) → ∀ start_ms end_ms,
     ∃ pts, mini_samples now b last_id (metric_name_of (sp_labels old)) start_ms end_ms s' = Ok pts ∧
       ∀ t v, mkSample t v ∈ pts ↔
         start_ms < t ≤ end_ms ∧ newest t ((series_points (sp_labels old) <$> batches) ++ [[e_sample e]]) = Some v).
Proof.
  destruct reopened_flush as (s' & sn & Hf & Hok & Hfwd & Hser). exists s', sn. pose proof (kvm_ok_kv_ok _ Hok) as Hkv'. split_and!; [done| |].
  - unfold get_forward_index_one. pose proof (key_encode_spec (KForward (mkForwardKey b last_id)) Hb) as He. cbn [key_encode] in He.
    rewrite He. cbn [res_bind]. unfold ts_get. rewrite (law_get now _ s' Hkv'). cbn [res_map_err res_bind]. fold (forward_key b last_id).
    rewrite Hfwd. cbn [fmap option_fmap option_map value]. destruct (forward_decoded _ Hst) as (v & Hv & Hsv). rewrite Hv. cbn [res_bind].
    by rewrite Hsv.
  - intros Hname start_ms end_ms. destruct (Hser Hname) as (v & pts & Hv & Hs & Hne & Hl). set (name := metric_name_of (sp_labels old)) in *.
    pose proof (key_encode_spec (KSeries (mkSeriesKey b name last_id)) Hb) as He. cbn [key_encode] in He.
    unfold mini_samples. rewrite He. cbn [res_bind]. unfold ts_get. rewrite (law_get now _ s' Hkv'). cbn [res_map_err res_bind].
    fold (series_key b name last_id). rewrite Hv. cbn [fmap option_fmap option_map value].
    destruct (stored_items _ _ _ Hs) as [[? _]|(_ & _ & ->)]; [done|]. rewrite omap_ok. eexists. split; [reflexivity|].
    destruct Hs as (_ & _ & Hsort). intros t w. rewrite list_elem_of_filter. cbn [timestamp_ms].
    by rewrite andb_true_iff, Z.ltb_lt, Z.leb_le, <-lookup_at_spec, Hl by done.
Qed.
End reload.
End reads.

(** ** The database of a bucket from its opening on *)
Section database.
Context {T : Tsz} {TL : TszLaws} {RB : Roaring} {RL : RoaringLaws} {HO : HashOrder} {HOL : HashOrderLaws} {B : Blake3}.
Context {St : Type} {KV : KvStore St} {KL : KvStoreLaws St} {KM : KvMergeLaws St operator}.

(** What the reads of the bucket return for the series [known] and the batches:
    of the metadata, only that it came with some write of the series. *)
Record ReadsBack (b : TimeBucket) (known : list SeriesSpec) (batches : list (list Entry)) (s : St) : Prop := {
  rb_forward_one now id : in_u 32 id →
    ∃ o, get_forward_index_one now b id s = Ok o ∧ sp_labels <$> o = sp_labels <$> known !! Z.to_nat id ∧
      ∀ sp, o = Some sp → ∃ e, e ∈ concat batches ∧ sp = spec_of e;
  rb_forward now : ∃ m, get_forward_index now b s = Ok m ∧
    (∀ id labels, sp_labels <$> m !! id = Some labels ↔ ∃ sp, At 0 known id sp ∧ sp_labels sp = labels) ∧
    ∀ id sp, m !! id = Some sp → ∃ e, e ∈ concat batches ∧ sp = spec_of e;
  rb_term now l : utf8_label l →
    get_inverted_index_term now b l s = Ok (if decide (ids 0 known l = ∅) then None else Some (ids 0 known l));
  rb_inverted now :
    ∃ m, get_inverted_index now b s = Ok m ∧ ∀ l set, m !! l = Some set ↔ set ≠ ∅ ∧ set = ids 0 known l;
  rb_values now name : ∃ vs, get_label_values now b name s = Ok vs ∧ NoDup vs ∧
    ∀ v, v ∈ vs ↔ ∃ sp, sp ∈ known ∧ mkLabel name v ∈ sp_labels sp;
  rb_samples now id sp start_ms end_ms : At 0 known id sp →
    ∃ pts, mini_samples now b id (metric_name_of (sp_labels sp)) start_ms end_ms s = Ok pts ∧ StronglySorted time_lt pts ∧
      ∀ t v, mkSample t v ∈ pts ↔ start_ms < t ≤ end_ms ∧ newest t (series_points (sp_labels sp) <$> batches) = Some v;
  rb_load now : ∃ dict n, load now b s = Ok (mkContext b dict n) ∧ DictFrom 0 known dict;
  rb_listed now : known ≠ [] → bucket_list_contains now b s = Ok true;
}.

Lemma reads_back b (U : list Label → Prop) known batches s :
  wf_bucket b → collision_free U → StoreOk b known batches s → KnownOk U known →
  (∀ sp, sp ∈ known → ∃ e, e ∈ concat batches ∧ sp = spec_of e) → ReadsBack b known batches s.
Proof.
  intros Hb HU HS HK Hfrom. constructor; intros.
  - eexists. split; [by eapply read_forward_one|]. split; [done|]. intros sp Hsp. by eapply Hfrom, list_elem_of_lookup_2.
  - destruct (read_forward b Hb U now known batches s HS HK) as (m & Hm & Hel). exists m. split_and!; [done| |].
    + intros id labels. rewrite fmap_Some. setoid_rewrite Hel. naive_solver.
    + intros id sp Hat%Hel. apply Hfrom, At_elem. by exists id.
  - by eapply read_inverted_term.
  - by eapply read_inverted.
  - by eapply read_label_values.
  - by eapply read_samples.
  - destruct (read_load b Hb U HU now known batches s HS HK) as (dict & Hl & Hd). by eexists dict, _.
  - by eapply read_listed.
Qed.

Definition fresh (b : TimeBucket) (s : St) : Prop :=
  ∀ t k, ts_prefix_bytes t b `prefix_of` k → kv_map s k = None.

Lemma fresh_store_ok b bs s : wf_bucket b → kvm_ok s → Buckets s bs → fresh b s → StoreOk b [] [] s.
Proof.
  intros Hb Hok Hbs Hf.
  assert (Hnone : ∀ k, key_bucket k = b → kv_map s (key_bytes k) = None).
  { intros k Hk. apply (Hf (key_type k)). unfold key_bytes. rewrite Hk. by apply prefix_app_r. }
  assert (Hat : ∀ n id sp, ¬ At n [] id sp) by (intros n id sp (i & _ & Hi & _); by rewrite lookup_nil in Hi).
  constructor; [done| | |by exists bs| | | |].
  - intros t k v Hp. by rewrite (Hf t k Hp).
  - by intros es e ?%not_elem_of_nil.
  - intros fp v _. unfold dict_key. rewrite Hnone by done. split; [done|]. by intros (id & sp & ?%Hat & _).
  - intros id v _. unfold forward_key. rewrite Hnone by done. split; [done|]. by intros (sp & ?%Hat & _).
  - intros l _. exists ∅. unfold inverted_key. rewrite Hnone by done. split; [|done]. intros x. split; [set_solver|].
    by intros (sp & ?%Hat & _).
  - intros name id _ _. unfold series_key. rewrite Hnone by done. by intros sp ?%Hat.
Qed.

(** a sample that can be stored: labels and unit within the lengths of the format *)
Definition Storable (e : Entry) : Prop := wf_spec (spec_of e) ∧ in_u 64 (s_value (e_sample e)).

Lemma batches_ok b (U : list Label → Prop) batches :
  let ess := batch_entries b <$> batches in
  (∀ es e, es ∈ ess → e ∈ es → U (e_labels e)) → Forall (Forall Storable) ess →
  Forall (λ es, ∀ labels, StronglySorted time_lt (series_points labels es)) ess → Forall (BatchOk b U) ess.
Proof.
  intros ess HU Hst Hsort. apply Forall_forall. intros es Hes. rewrite Forall_forall in Hst. rewrite Forall_forall in Hsort.
  split; [|by apply Hsort]. apply Forall_forall. intros e He. specialize (Hst es Hes). rewrite Forall_forall in Hst.
  destruct (Hst e He) as [H1 H2]. split_and!; [by eapply HU|done..|].
  apply list_elem_of_fmap in Hes as (ws & -> & _). unfold batch_entries in He. apply list_elem_of_bind in He as (w & He & _).
  pose proof (accepted_in_bucket b w) as Hall. rewrite Forall_forall in Hall. by apply Hall.
Qed.

(** A bucket that the store has nothing of, and batches of writes (with the
    clock at their flush): the accepted samples can be stored, fingerprints tell their
    label sets apart, each batch has the samples of a series in time order,
    and there are fewer than [2^32] series. *)
Record Workload (b : TimeBucket) (s0 : St) (batches : list (Z * list (list Series))) : Prop := {
  wl_bucket : wf_bucket b;
  wl_store : kvm_ok s0;
  wl_listed : ∃ bs, Buckets s0 bs;
  wl_fresh : fresh b s0;
  wl_fingerprints :
    collision_free (λ labels, ∃ es e, es ∈ batch_entries b <$> batches.*2 ∧ e ∈ es ∧ e_labels e = labels);
  wl_storable : Forall (Forall Storable) (batch_entries b <$> batches.*2);
  wl_in_order : Forall (λ es, ∀ labels, StronglySorted time_lt (series_points labels es)) (batch_entries b <$> batches.*2);
  wl_count : blen (all_series_of [] (batch_entries b <$> batches.*2)) < 2 ^ 32;
}.

Lemma workload_run b s0 now batches :
  let ess := batch_entries b <$> batches.*2 in
  let known := all_series_of [] ess in
  Workload b s0 batches →
  ∃ U cx0 dict s, load now b s0 = Ok cx0 ∧
    run batches (cx0, mkFlusher s0 None) = Ok (mkContext b dict (blen known), mkFlusher s None) ∧
    collision_free U ∧ StoreOk b known ess s ∧ KnownOk U known ∧ DictFrom 0 known dict ∧
    (∀ k, wf_key k → key_bucket k ≠ b → kv_map s (key_bytes k) = kv_map s0 (key_bytes k)).
Proof.
  intros ess known [Hb Hok (bs & Hbs) Hf HU Hst Hsort Hlen]. fold ess in HU, Hst, Hsort, Hlen. set (U := λ labels, _) in HU.
  pose proof (fresh_store_ok b bs s0 Hb Hok Hbs Hf) as HS0.
  assert (HK0 : KnownOk U []) by (split_and!; [split; constructor|constructor|done]).
  destruct (read_load b Hb U HU now [] [] s0 HS0 HK0) as (dict0 & Hload & Hd0). cbn in Hload.
  pose proof (batches_ok b U batches.*2 ltac:(intros es e Hes He; by exists es, e) Hst Hsort) as HB.
  destruct (run_ok b Hb U HU batches [] [] dict0 s0 HS0 HK0 Hd0 HB Hlen) as (dict & s & Hr & HS & HK & Hd & Ho).
  by exists U, (mkContext b dict0 0), dict, s.
Qed.

(** C5: A bucket opened on a store that has nothing of it, and then batches of
    writes, each applied, frozen and flushed, without retention.  Every flush
    succeeds.  The accepted samples (of a refused write those before the first
    one outside the bucket) give the series, numbered in order of first
    appearance, and what the readers return: the forward index has each
    series' labels, with metadata that came with a write of it (which one is
    [first_metadata_kept]), the inverted index and the label
    values are those of the series' labels, the samples of a series have at
    each time the value of the newest batch, the dictionary maps each
    fingerprint to its series, and the bucket is listed.  Other buckets keep
    their records.  The accepted samples are assumed to fit the format, each batch
    to have the samples of a series in time order, and the fingerprints to tell
    the label sets apart ([Workload]). *)
Theorem tsdb_reads_back (b : TimeBucket) (s0 : St) (now : Z) (batches : list (Z * list (list Series))) :
  let ess := batch_entries b <$> batches.*2 in
  let known := all_series_of [] ess in
  Workload b s0 batches →
  ∃ cx0 dict s, load now b s0 = Ok cx0 ∧
    run batches (cx0, mkFlusher s0 None) = Ok (mkContext b dict (blen known), mkFlusher s None) ∧
    DictFrom 0 known dict ∧ ReadsBack b known ess s ∧
    (∀ k, wf_key k → key_bucket k ≠ b → kv_map s (key_bytes k) = kv_map s0 (key_bytes k)).
Proof.
  intros ess known HW. destruct (workload_run b s0 now batches HW) as (U & cx0 & dict & s & Hl & Hr & HU & HS & HK & Hd & Ho).
  exists cx0, dict, s. split_and!; [done..| |done]. eapply reads_back; [apply HW|done..|].
  intros sp [?%not_elem_of_nil|(e & He & ->)]%add_all_origin; [done|]. by exists e.
Qed.

(** The metadata is that of the first write of the series: a later unit or type is
    dropped. *)
Lemma first_metadata_kept (b : TimeBucket) (s0 : St) (now : Z) (batches : list (Z * list (list Series))) :
  Workload b s0 batches →
  ∃ cx0 cx s, load now b s0 = Ok cx0 ∧ run batches (cx0, mkFlusher s0 None) = Ok (cx, mkFlusher s None) ∧
    ∀ now id, in_u 32 id →
      get_forward_index_one now b id s = Ok (all_series_of [] (batch_entries b <$> batches.*2) !! Z.to_nat id).
Proof.
  intros HW. destruct (workload_run b s0 now batches HW) as (U & cx0 & dict & s & Hl & Hr & HU & HS & HK & _).
  exists cx0, (mkContext b dict (blen (all_series_of [] (batch_entries b <$> batches.*2)))), s. split_and!; [done..|].
  intros. eapply read_forward_one; [apply HW|done..].
Qed.

(** C32: Opening a bucket again goes on with the id of the last series, not with
    the one after it.  Whatever was written to the bucket, when it
    is opened again and a write brings a sample of a series with a new
    fingerprint, that series gets the id of the last one: the forward index
    then has the new series' metadata in place of the old one's, the dictionary
    maps both fingerprints to the id, and, if the metric names agree, the
    samples read for the old series have the new series' sample among them. *)
Theorem reload_reuses_series_id (b : TimeBucket) (s0 : St) (now : Z) (batches : list (Z * list (list Series)))
    (old : SeriesSpec) (w : Series) (p : Sample) :
  let ess := batch_entries b <$> batches.*2 in
  let known := all_series_of [] ess in
  let e := mkEntry (sort_labels (sr_labels w)) (sr_unit w) (sr_metric_type w) p in
  let id := blen known - 1 in
  Workload b s0 batches → last known = Some old →
  sr_samples w = [p] → Storable e → in_bucket b e = true →
  (∀ sp, sp ∈ known → fingerprint (sp_labels sp) ≠ fingerprint (e_labels e)) →
  ∃ cx0 cx s cx1 dict s', load now b s0 = Ok cx0 ∧ run batches (cx0, mkFlusher s0 None) = Ok (cx, mkFlusher s None) ∧
    get_forward_index_one now b id s = Ok (Some old) ∧
    load now b s = Ok cx1 ∧ run [(now, [[w]])] (cx1, mkFlusher s None) = Ok (mkContext b dict (wrap 32 (id + 1)), mkFlusher s' None) ∧
    get_forward_index_one now b id s' = Ok (Some (spec_of e)) ∧
    dict !! fingerprint (sp_labels old) = Some id ∧ dict !! fingerprint (e_labels e) = Some id ∧
    (metric_name_of (e_labels e) = metric_name_of (sp_labels old) → ∀ start_ms end_ms,
       ∃ pts, mini_samples now b id (metric_name_of (sp_labels old)) start_ms end_ms s' = Ok pts ∧
         ∀ t v, mkSample t v ∈ pts ↔
           start_ms < t ≤ end_ms ∧ newest t ((series_points (sp_labels old) <$> ess) ++ [[p]]) = Some v).
Proof.
  intros ess known e id HW Hold Hp [Hst Hval] Hin Hnew.
  destruct (workload_run b s0 now batches HW) as (U & cx0 & dict & s & Hl & Hr & HU & HS & HK & Hd & _). pose proof (wl_bucket _ _ _ HW) as Hb.
  destruct (read_load b Hb U HU now known ess s HS HK) as (dict1 & Hl1 & Hd1).
  destruct (reopened_reads b Hb U HU now known ess s HS HK old Hold e dict1 Hd1 Hst Hval Hin Hnew) as (s' & sn & Hf & Hfwd & Hsamples).
  pose proof (last_at known old Hold) as Hat. change (e_sample e) with p in Hsamples.
  assert (Hid : last_id known = id).
  { unfold last_id, id. apply At_range in Hat. unfold last_id, blen in *. lia. }
  rewrite Hid in *. exists cx0, (mkContext b dict (blen known)), s, (mkContext b dict1 id), ({[fingerprint (e_labels e) := id]} ∪ dict1), s'.
  assert (He : batch_entries b [[w]] = [e]).
  { unfold batch_entries, accepted. cbn [mbind list_bind]. unfold entries_of. rewrite Hp, !app_nil_r. cbn [fmap list_fmap take_while]. fold e. by rewrite Hin. }
  pose proof (reopened_write b known e dict1 Hd1 Hin Hnew) as Hw.
  split_and!; [done..| | | |done| | |done].
  - rewrite (read_forward_one b Hb U now known ess s HS HK) by (by eapply At_u32). f_equal.
    destruct Hat as (i & _ & Hi & Hi'). by rewrite Hi', Nat2Z.id.
  - unfold last_id in Hid. by rewrite Hl1, Hid.
  - cbn [run]. unfold run_batch. cbn [fst snd]. rewrite (apply_writes_entries b), He by done. cbn [foldl].
    unfold reopened in Hf, Hw. rewrite Hid in Hf, Hw. change (delta_freeze ?d) with ((delta_freeze d).1.1, tt, (delta_freeze d).2).
    cbv beta iota zeta. rewrite Hf. cbn [res_bind]. by rewrite Hw.
  - rewrite lookup_union_r; [apply Hd1; by exists old|]. apply lookup_singleton_None. intros Heq. symmetry in Heq. revert Heq.
    apply Hnew, At_elem. by exists id.
  - by rewrite lookup_union_l', lookup_singleton_eq by (rewrite lookup_singleton_eq; by eexists).
Qed.
End database.

(** ** Examples *)
(** an order of iteration, and a hash, for the examples *)
#[local] Existing Instances tree_order tree_order_laws.
#[local] Instance plain_hash : Blake3 := { blake3 bs := bs }.

Definition demo_bucket : TimeBucket := hour 0.
Definition demo_label (v : byte) : Label := mkLabel [x61] [v].
Definition demo_series (v : byte) (pts : list Sample) : Series := mkSeries [demo_label v] (Some Gauge) None None pts.
Definition demo_store : InMemory.t := InMemory.new (Some operator) None false.

Lemma demo_store_ok b : kvm_ok (f:=operator) demo_store ∧ Buckets demo_store [] ∧ fresh b demo_store.
Proof. split_and!; [|by split; [constructor|]|done]. split; [|done]. split_and!; try done. by constructor. Qed.

Lemma points_sorted es labels :
  StronglySorted (λ a c, time_lt (e_sample a) (e_sample c)) es → StronglySorted time_lt (series_points labels es).
Proof.
  intros H. unfold series_points. eapply sorted_fmap; [|by apply sorted_filter]. by intros a c _ _ ?.
Qed.

Definition demo_batches : list (Z * list (list Series)) :=
  [(5, [[demo_series x62 [mkSample 10 1; mkSample 20 2]]]);
   (6, [[demo_series x63 [mkSample 15 4]; demo_series x62 [mkSample 20 3]]])].

Definition demo_entries : list (list Entry) :=
  let e v t w := mkEntry [demo_label v] None (Some Gauge) (mkSample t w) in
  [[e x62 10 1; e x62 20 2]; [e x63 15 4; e x62 20 3]].
Lemma demo_entries_eq : batch_entries demo_bucket <$> demo_batches.*2 = demo_entries.
Proof. vm_compute. reflexivity. Qed.

Lemma demo_workload : Workload demo_bucket demo_store demo_batches.
Proof.
  destruct (demo_store_ok demo_bucket) as (Hok & Hbs & Hf). constructor.
  - split; [unfold in_u; cbn; lia|cbn; lia].
  - exact Hok.
  - by exists [].
  - exact Hf.
  - assert (Hlab : ∀ labels, (∃ es e, es ∈ batch_entries demo_bucket <$> demo_batches.*2 ∧ e ∈ es ∧ e_labels e = labels) →
      labels = [demo_label x62] ∨ labels = [demo_label x63]).
    { intros labels (es & e & Hes & He & <-). rewrite demo_entries_eq in Hes. unfold demo_entries in Hes. rewrite !elem_of_cons, elem_of_nil in Hes.
      destruct Hes as [->|[->|[]]]; rewrite !elem_of_cons, elem_of_nil in He; naive_solver. }
    intros l l' [-> | ->]%Hlab [-> | ->]%Hlab; vm_compute; done.
  - rewrite demo_entries_eq. repeat constructor; cbn; try done; try lia; intros u; done.
  - rewrite demo_entries_eq. repeat constructor; intros labels; apply points_sorted; repeat constructor.
  - vm_compute. done.
Qed.

Lemma tsdb_reads_back_witness :
  ∃ dict s, run demo_batches (mkContext demo_bucket ∅ 0, mkFlusher demo_store None) = Ok (mkContext demo_bucket dict 2, mkFlusher s None) ∧
    (∃ o, get_forward_index_one 7 demo_bucket 1 s = Ok o ∧ sp_labels <$> o = Some [demo_label x63]) ∧
    ∃ pts, mini_samples 7 demo_bucket 0 [] 0 100 s = Ok pts ∧ mkSample 20 3 ∈ pts.
Proof.
  destruct (tsdb_reads_back demo_bucket demo_store 4 demo_batches demo_workload) as (cx0 & dict & s & Hl & Hr & _ & Hrb & _).
  assert (Hcx : cx0 = mkContext demo_bucket ∅ 0) by (vm_compute in Hl; by injection Hl). subst cx0.
  exists dict, s. split; [exact Hr|]. split.
  - destruct (rb_forward_one _ _ _ _ Hrb 7 1) as (o & Ho & Hlabels & _); [unfold in_u; lia|]. exists o. split; [exact Ho|].
    rewrite Hlabels. vm_compute. reflexivity.
  - destruct (rb_samples _ _ _ _ Hrb 7 0 (mkSpec None (Some Gauge) [demo_label x62]) 0 100) as (pts & Hp & _ & Hin).
    { exists 0%nat. split_and!; [lia|vm_compute; reflexivity|reflexivity]. }
    exists pts. split; [exact Hp|]. apply Hin. split; [lia|]. vm_compute. reflexivity.
Defined.

(** a third series, written after the two of [demo_batches] and a reopening *)
Lemma reload_reuses_series_id_witness :
  let old := mkSpec None (Some Gauge) [demo_label x63] in
  let spec := mkSpec None (Some Gauge) [demo_label x64] in
  ∃ s s', get_forward_index_one 7 demo_bucket 1 s = Ok (Some old) ∧ get_forward_index_one 7 demo_bucket 1 s' = Ok (Some spec) ∧
    ∃ pts, mini_samples 7 demo_bucket 1 [] 0 100 s' = Ok pts ∧ mkSample 15 4 ∈ pts ∧ mkSample 30 9 ∈ pts.
Proof.
  destruct (reload_reuses_series_id demo_bucket demo_store 7 demo_batches (mkSpec None (Some Gauge) [demo_label x63])
    (demo_series x64 [mkSample 30 9]) (mkSample 30 9) demo_workload) as (cx0 & cx & s & cx1 & dict & s' & _ & _ & Hb & _ & _ & Ha & _ & _ & Hs).
  - vm_compute. reflexivity.
  - reflexivity.
  - repeat constructor; cbn; try done; try lia; intros u; done.
  - vm_compute. reflexivity.
  - assert (Hk : all_series_of [] (batch_entries demo_bucket <$> demo_batches.*2) =
      [mkSpec None (Some Gauge) [demo_label x62]; mkSpec None (Some Gauge) [demo_label x63]]) by (vm_compute; reflexivity).
    rewrite Hk. intros sp Hin. rewrite !elem_of_cons, elem_of_nil in Hin.
    destruct Hin as [->|[->|[]]]; vm_compute; discriminate.
  - exists s, s'. split; [exact Hb|]. split; [exact Ha|].
    destruct (Hs ltac:(vm_compute; reflexivity) 0 100) as (pts & Hp & Hin). exists pts. split; [exact Hp|].
    split; apply Hin; (split; [lia|vm_compute; reflexivity]).
Defined.

(** A write with a sample outside the bucket is refused, but its earlier samples
    stay in the delta and are stored. *)
Example refused_write_kept :
  let d := delta_init (mkContext demo_bucket ∅ 0) in
  let '(d, answer) := delta_apply d [demo_series x62 [mkSample 10 1; mkSample 3600000 2; mkSample 20 3]] in
  answer = Err "Sample timestamp 3600000 is outside bucket range [0, 3600000)"%string ∧
  points <$> (fr_samples (delta_freeze d).1.1 !! 0) = Some [mkSample 10 1].
Proof. vm_compute. done. Qed.

(** Names and values are hashed one after the other without a separator: label
    sets that read the same are one series, whatever the hash. *)
Example fingerprint_ambiguous {B : Blake3} :
  fingerprint [mkLabel [x61; x62] [x63]] = fingerprint [mkLabel [x61] [x62; x63]].
Proof. reflexivity. Qed.
End TsDbReads.
