(* ===== verification/TsQuery.v ===== *)
(** * timeseries: index queries, bucket selection and routing

    The index lookups of [index.rs], how [storage/mod.rs] picks the buckets of a
    time range, how [tsdb.rs] merges the ranges a query touches and routes the
    samples of a write to hour buckets. *)
From stdpp Require Import gmap strings.
From S2P Require Import Prelude HashMap SortBy Storage KvStore TsSerde TsMerge TsDb TsDbSpec.
#[local] Open Scope Z_scope.

Module TsQuery.
Import Ts TsMerge TsDb TsDbSpec.

(** ** Index queries *)
Lemma lookup_terms_spec (idx : InvertedIndex) terms :
  match lookup_terms idx terms with
  | Some bitmaps => Forall2 (λ t bm, idx !! t = Some bm) terms bitmaps
  | None => ∃ t, t ∈ terms ∧ idx !! t = None
  end.
Proof.
  induction terms as [|t terms IH]; cbn [lookup_terms]; [constructor|]. destruct (idx !! t) as [bm|] eqn:E.
  - destruct (lookup_terms idx terms) as [bms|]; cbn; [by constructor|]. destruct IH as (t' & ? & ?). exists t'. split; [by right|done].
  - exists t. split; [by left|done].
Qed.

Lemma foldl_intersection (x : Z) (bm : gset Z) (bms : list (gset Z)) :
  x ∈ foldl (∩) bm bms ↔ ∀ c, c ∈ bm :: bms → x ∈ c.
Proof.
  revert bm. induction bms as [|c bms IH]; intros bm; cbn [foldl].
  - split; [intros H c [->|?%not_elem_of_nil]%elem_of_cons; done|]. intros H. apply H. by left.
  - rewrite IH. split.
    + intros H d [->|[->|Hd]%elem_of_cons]%elem_of_cons; [| |apply H; by right];
        pose proof (H (bm ∩ c) ltac:(left)) as [??]%elem_of_intersection; done.
    + intros H d [->|Hd]%elem_of_cons; [|apply H; by do 2 right].
      apply elem_of_intersection. split; apply H; [left|right; left].
Qed.

(** [intersect] has the series with every term, whatever the order in which it
    takes the posting lists; [union] those with at least one. *)
Lemma index_queries (idx : InvertedIndex) terms x :
  (x ∈ intersect idx terms ↔ terms ≠ [] ∧ ∀ t, t ∈ terms → x ∈ default ∅ (idx !! t)) ∧
  (x ∈ union idx terms ↔ ∃ t, t ∈ terms ∧ x ∈ default ∅ (idx !! t)).
Proof.
  split.
  - unfold intersect. destruct terms as [|t0 ts]; [split; [set_solver|by intros [? _]]|]. set (terms := t0 :: ts).
    pose proof (lookup_terms_spec idx terms) as Hl. destruct (lookup_terms idx terms) as [bms|].
    + set (sorted := sort_by _ bms). assert (Hp : sorted ≡ₚ bms) by apply sort_by_perm.
      assert (Hel : ∀ c, c ∈ sorted ↔ ∃ t, t ∈ terms ∧ idx !! t = Some c).
      { intros c. rewrite Hp. clear -Hl. induction Hl as [|t bm terms bms Ht _ IH]; [set_solver|].
        rewrite elem_of_cons, IH. setoid_rewrite elem_of_cons. naive_solver. }
      destruct sorted as [|bm rest] eqn:Es.
      * exfalso. apply Permutation_nil_l in Hp. subst bms. inversion Hl.
      * rewrite foldl_intersection. split.
        -- intros H. split; [done|]. intros t [i Hi]%list_elem_of_lookup. destruct (Forall2_lookup_l _ _ _ _ _ Hl Hi) as (c & _ & Hc).
           rewrite Hc. apply H, Hel. exists t. split; [by eapply list_elem_of_lookup_2|done].
        -- intros [_ H] c (t & Ht & Hc)%Hel. specialize (H t Ht). by rewrite Hc in H.
    + destruct Hl as (t & Ht & Hn). split; [set_solver|]. intros [_ H]. specialize (H t Ht). rewrite Hn in H. set_solver.
  - assert (Hf : ∀ acc, x ∈ foldl (λ result t, match idx !! t with Some bitmap => result ∪ bitmap | None => result end) acc terms ↔
      x ∈ acc ∨ ∃ t, t ∈ terms ∧ x ∈ default ∅ (idx !! t)).
    { induction terms as [|t ts IH]; intros acc; cbn [foldl]; [set_solver|]. rewrite IH. setoid_rewrite elem_of_cons.
      destruct (idx !! t) as [bm|] eqn:E; rewrite ?elem_of_union; split.
      - intros [[?|?]|(t' & ? & ?)]; [by left|right; exists t; rewrite E; auto|right; exists t'; auto].
      - intros [?|(t' & [->|?] & Hx)]; [auto| |right; eauto]. rewrite E in Hx. auto.
      - intros [?|(t' & ? & ?)]; [by left|right; eauto].
      - intros [?|(t' & [->|?] & Hx)]; [auto| |right; eauto]. rewrite E in Hx. set_solver. }
    unfold union. destruct terms as [|t0 ts]; [set_solver|]. rewrite Hf. set_solver.
Qed.

(** ** Buckets of a time range *)
Lemma filter_res_spec {A} (f : A → res Error bool) (g : A → bool) l :
  (∀ x, x ∈ l → f x = Ok (g x)) → filter_res f l = Ok (filter (λ x, g x = true) l).
Proof.
  induction l as [|x l IH]; intros H; [done|]. cbn [filter_res]. rewrite H by left. cbn [res_bind].
  rewrite IH by (intros y Hy; apply H; by right). cbn [res_bind]. rewrite filter_cons.
  destruct (g x); [by rewrite decide_True|by rewrite decide_False].
Qed.

(** an hour bucket, starting on the hour *)
Definition hourly (p : Z * Z) : Prop := p.1 = 1 ∧ in_u 32 p.2 ∧ p.2 mod 60 = 0.

Lemma hour_selected start end_ p :
  hourly p → 0 ≤ start ≤ end_ → end_ / 60 < 2 ^ 32 →
  bucket_in_range (Some (minutes start)) (Some (minutes end_)) (bucket_of p) = Ok (bucket_overlaps [(start, end_)] (bucket_of p)).
Proof.
  destruct p as [size st]. intros (Hsize & Hst & Hal) Hr He. cbn [fst snd] in *. subst size.
  assert (Hm : ∀ t, 0 ≤ t ≤ end_ → minutes t = t / 60).
  { intros t Ht. unfold minutes. rewrite Z.quot_div_nonneg by lia. apply wrap_small. split; [apply Z.div_pos; lia|].
    eapply Z.le_lt_trans; [|exact He]. apply Z.div_le_mono; lia. }
  rewrite !Hm by lia. unfold bucket_in_range, round_down. change (size_in_mins (bucket_of (1, st))) with 60.
  cbn [Z.eqb res_bind bucket_of bk_start snd fst]. f_equal. unfold bucket_overlaps. cbn [bk_start bucket_of existsb fst snd].
  change (size_in_mins (bucket_of (1, st))) with 60. rewrite orb_false_r. apply eq_true_iff_eq.
  rewrite !andb_true_iff, !Z.leb_le, Z.ltb_lt.
  assert (Hd : ∀ t, t / 60 - (t / 60) mod 60 = 60 * (t / 3600)).
  { intros t. rewrite Z.mod_eq, Z.div_div by lia. change (60 * 60) with 3600. lia. }
  rewrite !Hd. apply Z.div_exact in Hal; [|lia]. pose proof (Z.div_mod start 3600 ltac:(lia)). pose proof (Z.mod_pos_bound start 3600 ltac:(lia)).
  pose proof (Z.div_mod end_ 3600 ltac:(lia)). pose proof (Z.mod_pos_bound end_ 3600 ltac:(lia)).
  lia.
Qed.

Section buckets.
Context {T : Tsz} {TL : TszLaws} {RB : Roaring} {St : Type} {KV : KvStore St} {KL : KvStoreLaws St}.

(** Both ways of choosing buckets agree on one range: the listed buckets that
    have a second of the range, in order of start.  Neither panics nor fails. *)
Theorem buckets_of_range now s bs start end_ :
  kv_ok s → Buckets s bs → Forall hourly bs → 0 ≤ start ≤ end_ → end_ / 60 < 2 ^ 32 →
  ∃ l, get_buckets_in_range now (Some start) (Some end_) s = Ok l ∧ get_buckets_for_ranges now [(start, end_)] s = Ok l ∧
    StronglySorted (λ a b, bk_start a ≤ bk_start b) l ∧
    ∀ p, hourly p → bucket_of p ∈ l ↔ p ∈ bs ∧ ∃ t, start ≤ t ≤ end_ ∧ bk_start (bucket_of p) * 60 ≤ t < (bk_start (bucket_of p) + 60) * 60.
Proof.
  intros Hok Hbs Hh Hr He. pose proof (stored_buckets_spec now s bs Hok Hbs) as Hst.
  set (l := filter (λ b, bucket_overlaps [(start, end_)] b = true) (bucket_of <$> bs)).
  exists (sort_by by_bucket_start l).
  assert (Hfil : filter_res (bucket_in_range (Some (minutes start)) (Some (minutes end_))) (bucket_of <$> bs) = Ok l).
  { apply filter_res_spec. intros x (p & -> & Hp)%list_elem_of_fmap. rewrite Forall_forall in Hh. by apply hour_selected; auto. }
  split_and!.
  - unfold get_buckets_in_range. rewrite (proj2 (Z.ltb_ge _ _)) by lia. rewrite Hst. cbn [res_bind].
    change (minutes <$> Some start) with (Some (minutes start)). change (minutes <$> Some end_) with (Some (minutes end_)).
    destruct Hbs as [_ Hbs]. destruct (kv_map s _); [change (default [] (Some bs)) with bs; by rewrite Hfil|]. by subst bs.
  - unfold get_buckets_for_ranges. rewrite Hst. cbn [res_bind]. destruct Hbs as [_ Hbs]. destruct (kv_map s _); [done|]. by subst bs.
  - assert (Hs : StronglySorted (λ a b, by_bucket_start a b = true) (sort_by by_bucket_start l)).
    { apply sort_by_sorted; unfold by_bucket_start; intros *; rewrite ?Z.leb_le, ?Z.leb_gt; lia. }
    rewrite <-(list_fmap_id (sort_by _ l)). eapply sorted_fmap; [|exact Hs]. intros a c _ _ Hac. by apply Z.leb_le in Hac.
  - intros p Hp. rewrite sort_by_perm. unfold l. rewrite list_elem_of_filter, list_elem_of_fmap.
    assert (Hin : (∃ y, bucket_of p = bucket_of y ∧ y ∈ bs) ↔ p ∈ bs).
    { split; [|by exists p]. intros ([y1 y2] & Heq & Hy). destruct p as [p1 p2]. by injection Heq as -> ->. }
    rewrite Hin. unfold bucket_overlaps. cbn [existsb fst snd]. rewrite orb_false_r, andb_true_iff, Z.ltb_lt, Z.leb_le.
    destruct p as [p1 p2], Hp as (Hp1 & _). cbn [fst] in Hp1. subst p1. change (size_in_mins (bucket_of (1, p2))) with 60.
    cbn [bk_start bucket_of snd]. split; [|naive_solver lia]. intros [Hov Hi]. split; [done|].
    exists (Z.max start (p2 * 60)). lia.
Qed.
End buckets.

Definition demo_buckets : list (Z * Z) := [(1, 0); (1, 60); (1, 120)].
Definition demo_listed : InMemory.t :=
  InMemory.set_data (InMemory.new None None false) [(bucket_list_bytes, InMemory.mkStored (bucket_list_value demo_buckets) None)].

Lemma buckets_of_range_witness :
  ∃ l, get_buckets_in_range 0 (Some 3599) (Some 3600) demo_listed = Ok l ∧ l = [hour 0; hour 60].
Proof.
  destruct (buckets_of_range 0 demo_listed demo_buckets 3599 3600) as (l & H1 & _).
  - split_and!; try done; [repeat constructor|]. intros k sv. cbn. destruct (bcmp k _); naive_solver.
  - split; [repeat constructor; cbn; lia|reflexivity].
  - repeat constructor; cbn; lia.
  - lia.
  - vm_compute. done.
  - exists l. split; [exact H1|]. vm_compute in H1. by injection H1.
Defined.

(** ** Ranges of a query (tsdb.rs) *)
Fixpoint merge_ranges (cur : Z * Z) (ranges : list (Z * Z)) : list (Z * Z) :=
  match ranges with
  | [] => [cur]
  | r :: ranges =>
      if r.1 <=? cur.2 then merge_ranges (cur.1, Z.max cur.2 r.2) ranges else cur :: merge_ranges r ranges
  end.

Definition by_range_start (a b : Z * Z) : bool := a.1 <=? b.1.

Definition normalize_ranges (ranges : list (Z * Z)) : list (Z * Z) :=
  match sort_by by_range_start ranges with [] => [] | r :: ranges => merge_ranges r ranges end.

(** milliseconds to seconds, outwards ([div_euclid], [rem_euclid] by 1000) *)
Definition range_secs (r : Z * Z) : Z * Z :=
  (r.1 / 1000, r.2 / 1000 + (if r.2 mod 1000 =? 0 then 0 else 1)).

Definition covered (t : Z) (ranges : list (Z * Z)) : Prop := ∃ r, r ∈ ranges ∧ r.1 ≤ t ≤ r.2.

Lemma covered_cons t r rs : covered t (r :: rs) ↔ r.1 ≤ t ≤ r.2 ∨ covered t rs.
Proof. unfold covered. setoid_rewrite elem_of_cons. naive_solver. Qed.

Lemma merge_ranges_spec cur ranges :
  StronglySorted (λ a b, by_range_start a b = true) (cur :: ranges) →
  (∀ t, covered t (merge_ranges cur ranges) ↔ covered t (cur :: ranges)) ∧
  StronglySorted (λ a b, a.2 < b.1) (merge_ranges cur ranges) ∧ Forall (λ r, cur.1 ≤ r.1) (merge_ranges cur ranges).
Proof.
  revert cur. induction ranges as [|r ranges IH]; intros cur Hs; cbn [merge_ranges].
  { split_and!; [done|repeat constructor|repeat constructor; lia]. }
  apply StronglySorted_inv in Hs as [Hs Hc]. pose proof Hs as [Hs' Hr]%StronglySorted_inv.
  pose proof Hc as [Hcr%Z.leb_le Hc']%Forall_cons. destruct (Z.leb_spec r.1 cur.2) as [Hle|Hgt].
  - destruct (IH (cur.1, Z.max cur.2 r.2)) as (H1 & H2 & H3); [by constructor|]. split_and!; [|done|exact H3].
    intros t. rewrite H1, !covered_cons. cbn [fst snd].
    assert (He : cur.1 ≤ t ≤ Z.max cur.2 r.2 ↔ cur.1 ≤ t ≤ cur.2 ∨ r.1 ≤ t ≤ r.2) by lia. rewrite He. tauto.
  - destruct (IH r Hs) as (H1 & H2 & H3). split_and!.
    + intros t. by rewrite covered_cons, H1, (covered_cons t cur).
    + constructor; [done|]. eapply Forall_impl; [exact H3|]. cbn. intros a Ha. lia.
    + constructor; [lia|]. eapply Forall_impl; [exact H3|]. cbn. intros a Ha. lia.
Qed.

(** Normalizing the ranges of a query leaves the same times covered, in ranges
    that are sorted and do not touch. *)
Lemma normalize_ranges_exact ranges :
  (∀ t, covered t (normalize_ranges ranges) ↔ covered t ranges) ∧
  StronglySorted (λ a b, a.2 < b.1) (normalize_ranges ranges).
Proof.
  unfold normalize_ranges.
  assert (Hs : StronglySorted (λ a b, by_range_start a b = true) (sort_by by_range_start ranges)).
  { apply sort_by_sorted; unfold by_range_start; intros *; rewrite ?Z.leb_le, ?Z.leb_gt; lia. }
  assert (Hc : ∀ t, covered t (sort_by by_range_start ranges) ↔ covered t ranges)
    by (intros t; unfold covered; by setoid_rewrite sort_by_perm).
  destruct (sort_by by_range_start ranges) as [|r rs]; [by split; [|constructor]|].
  destruct (merge_ranges_spec r rs Hs) as (H1 & H2 & _). split; [|done]. intros t. by rewrite H1, Hc.
Qed.

(** ** Routing a write to hour buckets (tsdb.rs) *)
#[global] Program Instance bucket_countable : Countable TimeBucket :=
  inj_countable' (λ b, (bk_start b, bk_size b)) (λ p, mkBucket p.1 p.2) _.
Next Obligation. by intros []. Qed.

Record MetricMetadata : Type := mkMetadata {
  md_metric_name : bytes;
  md_metric_type : option MetricType;
  md_description : option bytes;
  md_unit : option bytes;
}.
#[global] Instance MetricMetadata_eq_dec : EqDecision MetricMetadata.
Proof. solve_decision. Defined.

(** [TimeBucket::round_to_hour] of [UNIX_EPOCH + Duration::from_millis(ms as u64)],
    through [hour_bucket_in_epoch_minutes] *)
Definition round_to_hour (ms : Z) : res Error TimeBucket :=
  let mins := wrap 64 ms / 1000 / 60 in
  let bucket := mins - mins mod 60 in
  if bucket <? 2 ^ 32 then Ok (hour bucket) else Err BucketOutOfRange.

Section routing.
Context {HO : HashOrder}.

(** the samples of a series by bucket *)
Fixpoint group_samples (samples : list Sample) (groups : gmap TimeBucket (list Sample)) :
    res Error (gmap TimeBucket (list Sample)) :=
  match samples with
  | [] => Ok groups
  | p :: samples =>
      let? b := round_to_hour (timestamp_ms p) in
      group_samples samples (<[b := default [] (groups !! b) ++ [p]]> groups)
  end.

Definition with_samples (s : Series) (samples : list Sample) : Series :=
  mkSeries (sr_labels s) (sr_metric_type s) (sr_unit s) (sr_description s) samples.

Definition add_groups (s : Series) (groups : gmap TimeBucket (list Sample)) (m : gmap TimeBucket (list Series)) :
    gmap TimeBucket (list Series) :=
  foldl (λ m e, <[e.1 := default [] (m !! e.1) ++ [with_samples s e.2]]> m) m (hash_iter groups).

Definition catalog_add (s : Series) (catalog : gmap bytes (list MetricMetadata)) : gmap bytes (list MetricMetadata) :=
  match head (filter (λ l, l_name l = name_label) (sr_labels s)) with
  | None => catalog
  | Some l =>
      let entry := mkMetadata (l_value l) (sr_metric_type s) (sr_description s) (sr_unit s) in
      let entries := default [] (catalog !! l_value l) in
      <[l_value l := if bool_decide (entry ∈ entries) then entries else entries ++ [entry]]> catalog
  end.

(** the first pass of [Tsdb::ingest_samples] *)
Fixpoint split_by_bucket (series_list : list Series) (catalog : gmap bytes (list MetricMetadata))
    (m : gmap TimeBucket (list Series)) : gmap bytes (list MetricMetadata) * res Error (gmap TimeBucket (list Series)) :=
  match series_list with
  | [] => (catalog, Ok m)
  | s :: series_list =>
      let catalog := catalog_add s catalog in
      match group_samples (sr_samples s) ∅ with
      | Ok groups => split_by_bucket series_list catalog (add_groups s groups m)
      | Err e => (catalog, Err e)
      | Panic => (catalog, Panic)
      end
  end.

Context {HOL : HashOrderLaws}.

(** times the hour buckets can hold *)
Definition routable (p : Sample) : Prop := 0 ≤ timestamp_ms p < 2 ^ 63 ∧ timestamp_ms p / 60000 < 2 ^ 32.
Definition bucket_of_sample (p : Sample) : TimeBucket := hour (timestamp_ms p / 3600000 * 60).

Lemma round_to_hour_spec p : routable p → round_to_hour (timestamp_ms p) = Ok (bucket_of_sample p).
Proof.
  intros [H1 H2]. unfold round_to_hour, bucket_of_sample. rewrite wrap_small by (unfold in_u; lia).
  rewrite Z.div_div by lia. change (1000 * 60) with 60000.
  assert (Hd : timestamp_ms p / 60000 - (timestamp_ms p / 60000) mod 60 = timestamp_ms p / 3600000 * 60).
  { rewrite Z.mod_eq, Z.div_div by lia. change (60000 * 60) with 3600000. lia. }
  rewrite Hd. rewrite (proj2 (Z.ltb_lt _ _)); [done|]. rewrite <-Hd.
  pose proof (Z.mod_pos_bound (timestamp_ms p / 60000) 60). lia.
Qed.

Lemma group_samples_spec samples groups :
  Forall routable samples →
  ∃ g, group_samples samples groups = Ok g ∧
    ∀ b, default [] (g !! b) = default [] (groups !! b) ++ filter (λ p, bucket_of_sample p = b) samples ∧
      (g !! b = None ↔ groups !! b = None ∧ filter (λ p, bucket_of_sample p = b) samples = []).
Proof.
  intros H. revert groups. induction H as [|p samples Hp _ IH]; intros groups.
  { exists groups. split; [done|]. intros b. rewrite app_nil_r. split; [done|]. naive_solver. }
  cbn [group_samples]. rewrite round_to_hour_spec by done. cbn [res_bind].
  destruct (IH (<[bucket_of_sample p := default [] (groups !! bucket_of_sample p) ++ [p]]> groups)) as (g & Hg & Hspec).
  exists g. split; [done|]. intros b. destruct (Hspec b) as [H1 H2]. rewrite H1, H2, filter_cons.
  destruct (decide (bucket_of_sample p = b)) as [<-|Hne].
  - rewrite lookup_insert_eq. cbn [from_option Datatypes.id]. rewrite <-app_assoc. split; [done|]. naive_solver.
  - by rewrite lookup_insert_ne by done.
Qed.

Lemma add_groups_spec s (groups : gmap TimeBucket (list Sample)) m b :
  default [] (add_groups s groups m !! b) =
    default [] (m !! b) ++ match groups !! b with Some samples => [with_samples s samples] | None => [] end.
Proof.
  unfold add_groups.
  assert (Hf : ∀ (l : list (TimeBucket * list Sample)) (m : gmap TimeBucket (list Series)), NoDup l.*1 →
    default [] (foldl (λ m e, <[e.1 := default [] (m !! e.1) ++ [with_samples s e.2]]> m) m l !! b) =
      default [] (m !! b) ++ (with_samples s <$> (filter (λ e, e.1 = b) l).*2)).
  { clear. induction l as [|[b' ps] l IH]; intros m Hnd; [by rewrite app_nil_r|]. rewrite fmap_cons, NoDup_cons in Hnd. destruct Hnd as [Hn Hnd].
    cbn [foldl]. rewrite IH by done. cbn [fst snd]. rewrite filter_cons. cbn [fst]. destruct (decide (b' = b)) as [->|Hne].
    - rewrite lookup_insert_eq. cbn [from_option Datatypes.id]. rewrite <-app_assoc. done.
    - by rewrite lookup_insert_ne by done. }
  rewrite Hf by apply hash_iter_nodup. f_equal.
  destruct (groups !! b) as [ps|] eqn:E.
  - assert (Hp : filter (λ e : TimeBucket * list Sample, e.1 = b) (hash_iter groups) = [(b, ps)]); [|by rewrite Hp].
    apply hash_iter_elem in E. pose proof (hash_iter_nodup groups) as Hnd. revert E Hnd. generalize (hash_iter groups) as l. clear.
    induction l as [|[b' ps'] l IH]; intros Hin Hnd; [by apply not_elem_of_nil in Hin|]. rewrite fmap_cons, NoDup_cons in Hnd.
    destruct Hnd as [Hn Hnd]. cbn [fst] in Hn. rewrite filter_cons. cbn [fst]. apply elem_of_cons in Hin as [[= <- <-]|Hin].
    + rewrite decide_True by done. f_equal. apply filter_none, Forall_forall. intros [b2 p2] Hin2 Heq. cbn in Heq. subst b2.
      apply Hn, list_elem_of_fmap. by exists (b, p2).
    + rewrite decide_False; [by apply IH|]. intros ->. apply Hn, list_elem_of_fmap. by exists (b, ps).
  - rewrite filter_none; [done|]. apply Forall_forall. intros [b' ps'] Hin Heq. cbn in Heq. subst b'.
    apply hash_iter_elem in Hin. by rewrite E in Hin.
Qed.

(** the part of a series that falls in a bucket *)
Definition part_of (b : TimeBucket) (s : Series) : option Series :=
  match filter (λ p, bucket_of_sample p = b) (sr_samples s) with [] => None | ps => Some (with_samples s ps) end.

Lemma bucket_of_sample_in p : routable p → bucket_start_ms (bucket_of_sample p) ≤ timestamp_ms p < bucket_end_ms (bucket_of_sample p).
Proof.
  intros [H _]. unfold bucket_start_ms, bucket_end_ms, bucket_of_sample. change (size_in_mins (hour _)) with 60. cbn [hour bk_start].
  pose proof (Z.div_mod (timestamp_ms p) 3600000 ltac:(lia)). pose proof (Z.mod_pos_bound (timestamp_ms p) 3600000 ltac:(lia)). lia.
Qed.

(** A write is split into one batch per hour bucket: the bucket gets, in order,
    the part of every series whose samples fall in it, and the bucket's delta
    refuses none of them. *)
Theorem samples_routed {B : Blake3} (l : list Series) catalog :
  Forall (λ s, Forall routable (sr_samples s)) l →
  ∃ catalog' m, split_by_bucket l catalog ∅ = (catalog', Ok m) ∧
    ∀ b, default [] (m !! b) = omap (part_of b) l ∧
      ∀ d, bucket d = b → (delta_apply d (default [] (m !! b))).2 = Ok tt.
Proof.
  intros Hl.
  assert (Hs : ∀ m catalog, ∃ catalog' m', split_by_bucket l catalog m = (catalog', Ok m') ∧
    ∀ b, default [] (m' !! b) = default [] (m !! b) ++ omap (part_of b) l).
  { clear catalog. induction Hl as [|s l Hs _ IH]; intros m catalog; cbn [split_by_bucket].
    { exists catalog, m. split; [done|]. intros b. by rewrite app_nil_r. }
    destruct (group_samples_spec (sr_samples s) ∅ Hs) as (g & -> & Hg).
    destruct (IH (add_groups s g m) (catalog_add s catalog)) as (c' & m' & -> & Hm'). exists c', m'. split; [done|]. intros b.
    rewrite Hm', add_groups_spec, <-app_assoc. f_equal. destruct (Hg b) as [H1 H2]. rewrite lookup_empty in H1, H2. cbn in H1.
    cbn. unfold part_of at 2. destruct (g !! b) as [ps|]; cbn in H1.
    - subst ps. destruct (filter _ (sr_samples s)) eqn:E; [|done]. by pose proof (proj2 H2 (conj eq_refl eq_refl)).
    - by rewrite <-H1. }
  destruct (Hs ∅ catalog) as (c' & m & Hsplit & Hm). exists c', m. split; [done|]. intros b. specialize (Hm b).
  rewrite lookup_empty in Hm. cbn in Hm. rewrite Hm. split; [done|]. intros d Hd.
  destruct (delta_apply_accepted d (omap (part_of b) l)) as [_ ->]. rewrite filter_none; [done|].
  apply Forall_forall. intros e (s & He & Hin)%list_elem_of_bind. apply list_elem_of_omap in Hin as (s0 & Hs0 & Hp). rewrite Hd.
  assert (Hsam : ∀ p, p ∈ sr_samples s → p ∈ sr_samples s0 ∧ bucket_of_sample p = b).
  { intros p Hpin. assert (Hf : p ∈ filter (λ p, bucket_of_sample p = b) (sr_samples s0)).
    { unfold part_of in Hp. destruct (filter _ _) as [|q qs]; [done|]. injection Hp as <-. exact Hpin. }
    by apply list_elem_of_filter in Hf as [? ?]. }
  unfold entries_of in He. apply list_elem_of_fmap in He as (p & -> & Hpin). destruct (Hsam p Hpin) as [Hp0 <-].
  rewrite Forall_forall in Hl. specialize (Hl s0 Hs0). rewrite Forall_forall in Hl.
  destruct (bucket_of_sample_in p (Hl p Hp0)) as [H1 H2]. unfold in_bucket. cbn [e_sample].
  rewrite (proj2 (Z.leb_le _ _)), (proj2 (Z.ltb_lt _ _)) by lia. done.
Qed.
End routing.

#[local] Instance tree_order : HashOrder := { hash_iter K A _ _ := map_to_list }.
#[local] Instance tree_order_laws : HashOrderLaws.
Proof. by split. Qed.
#[local] Instance plain_hash : Blake3 := { blake3 bs := bs }.

Definition demo_write : list Series :=
  [mkSeries [mkLabel name_label [x6d]] None None None [mkSample 3599999 1; mkSample 3600000 2]].

Lemma samples_routed_witness :
  ∃ catalog m, split_by_bucket demo_write ∅ ∅ = (catalog, Ok m) ∧
    sr_samples <$> default [] (m !! hour 60) = [[mkSample 3600000 2]] ∧
    (delta_apply (delta_init (mkContext (hour 60) ∅ 0)) (default [] (m !! hour 60))).2 = Ok tt.
Proof.
  destruct (samples_routed demo_write ∅) as (catalog & m & Hs & Hm).
  - repeat constructor; cbn; try lia; vm_compute; done.
  - destruct (Hm (hour 60)) as [Hb Hd]. exists catalog, m. split; [exact Hs|]. split; [|by apply Hd].
    rewrite Hb. vm_compute. reflexivity.
Defined.
End TsQuery.
