(* ===== verification/VecSerde.v ===== *)
(** * vector: identifiers, keys and values

    [serde/vector_id.rs], the field values of [serde/mod.rs], the storage keys
    of [serde/key.rs] with the ranges that scan them, and the values of
    [collection_meta.rs], [id_dictionary.rs], [vector_data.rs],
    [vector_index_data.rs], [centroid_info.rs], [centroid_stats.rs] and
    [centroids.rs].  Strings are their bytes; an [f32] or [f64] is its bit
    pattern; a [VectorId] is its [u64].  Posting lists and metadata indexes are
    in [VecMerge]. *)
From S2P Require Import Prelude Codec SortBy Serde ByteRange TerminatedBytes Sortable Encoding Storage.

Module Vec.

Inductive Error : Type :=
| ErrStorage (e : StorageError)
| ErrDeserialize (e : DeserializeError)
| ErrEncoding (e : EncodingError)
| InvalidRecordType (id : Z)
| WrongSubsystem (got : byte)
| UnexpectedRecordType (id : Z)
| KeyTooShort
| VectorIdTooShort (have : Z)
| PrimitiveTooShort (need : Z)
| FieldTypeTooShort
| InvalidFieldType (got : byte)
| FieldValueTooShort
| InvalidString                             (* not UTF-8 *)
| VectorNotSortable
| VectorNeedsDimensions
| VectorTooShort (need have : Z)
| InvalidMetric (got : byte)
| ValueTooShort (have : Z)
| FieldCountTooShort
| VectorFieldNotVector                      (* a field named "vector" of another type *)
| PostingNotCentroid (id : Z)
| IndexedVectorField
| PostingTooShort (need have : Z)
| InvalidPostingType (got : byte)
| BitmapTooShort
| ErrRoaring                                (* errors of the roaring crate *)
| InvalidInput
| ErrInternal.

(** ** serde/vector_id.rs *)
Abbreviation VectorId := Z.

Definition NUMBER_MASK : Z := 0x00FFFFFFFFFFFFFF.
Definition LEVEL_MASK : Z := 0xFF00000000000000.
Definition ROOT_ID_NUM : Z := 0.
Definition ROOT_VECTOR_ID : VectorId := 0xFF00000000000000.
Definition ROOT_LEVEL : Z := 0xFF.
Definition LEAF_LEVEL : Z := 1.

Definition level (v : VectorId) : Z := wrap 8 (Z.shiftr v 56).
Definition number (v : VectorId) : Z := Z.land v NUMBER_MASK.
Definition is_data_vector (v : VectorId) : bool := level v =? 0.
Definition is_root (v : VectorId) : bool := v =? ROOT_VECTOR_ID.
Definition is_centroid (v : VectorId) : bool := (0 <? level v) && negb (is_root v).
Definition is_tree_node (v : VectorId) : bool := is_centroid v || is_root v.

Definition data_vector_id (n : Z) : res Error VectorId :=
  let? _ := rust_assert (level n =? 0) in Ok n.

Definition centroid_id (lv n : Z) : res Error VectorId :=
  let? _ := rust_assert (negb (lv =? 0)) in
  let? _ := rust_assert (negb (lv =? 0xFF)) in
  let? _ := rust_assert (Z.land n LEVEL_MASK =? 0) in
  let raw := Z.lor (wrap 64 (Z.shiftl lv 56)) n in
  let? _ := rust_assert (level raw =? lv) in
  let? _ := rust_assert (number raw =? n) in
  let? _ := rust_assert (negb (number raw =? ROOT_ID_NUM)) in
  Ok raw.

Definition vid_encode (v : VectorId) (buf : bytes) : bytes := buf ++ be_bytes 8 v.
Definition encode_level_prefix (buf : bytes) (lv : Z) : bytes := buf ++ [to_u8 lv].

Definition vid_decode (buf : bytes) : res Error (VectorId * bytes) :=
  if bool_decide (length buf < 8)%nat then Err (VectorIdTooShort (blen buf))
  else Ok (from_be (take 8 buf), drop 8 buf).

(** ** serde/mod.rs *)
Definition KEY_VERSION : byte := x01.
Definition SUBSYSTEM : byte := x02.

Inductive RecordType : Type :=
| CollectionMeta | PostingList | IdDictionary | VectorData | VectorIndexData | MetadataIndex
| SeqBlock | CentroidStats | Centroids | CentroidInfo | CentroidSeqBlock.

#[global] Instance RecordType_eq_dec : EqDecision RecordType.
Proof. solve_decision. Defined.

Definition id (t : RecordType) : Z :=
  match t with
  | CollectionMeta => 0x01 | PostingList => 0x04 | IdDictionary => 0x05 | VectorData => 0x06
  | VectorIndexData => 0x0D | MetadataIndex => 0x07 | SeqBlock => 0x08 | CentroidStats => 0x09
  | Centroids => 0x0A | CentroidInfo => 0x0B | CentroidSeqBlock => 0x0C
  end.

Definition from_id (i : Z) : res Error RecordType :=
  if bool_decide (i = 0x01) then Ok CollectionMeta
  else if bool_decide (i = 0x04) then Ok PostingList
  else if bool_decide (i = 0x05) then Ok IdDictionary
  else if bool_decide (i = 0x06) then Ok VectorData
  else if bool_decide (i = 0x0D) then Ok VectorIndexData
  else if bool_decide (i = 0x07) then Ok MetadataIndex
  else if bool_decide (i = 0x08) then Ok SeqBlock
  else if bool_decide (i = 0x09) then Ok CentroidStats
  else if bool_decide (i = 0x0A) then Ok Centroids
  else if bool_decide (i = 0x0B) then Ok CentroidInfo
  else if bool_decide (i = 0x0C) then Ok CentroidSeqBlock
  else Err (InvalidRecordType i).

Definition from_prefix (p : KeyPrefix.t) : res Error RecordType :=
  if negb (bool_decide (KeyPrefix.subsystem p = SUBSYSTEM))
  then Err (WrongSubsystem (KeyPrefix.subsystem p))
  else from_id (Z.shiftr (Z.land (u8 (KeyPrefix.tag p)) 0xF0) 4).

(** The assertions of [RecordTag::new] and [KeyPrefix::new] hold for every record
    type ([vec_prefix_new]), so the model leaves them out. *)
Definition tag (t : RecordType) : Z := Z.lor (wrap 8 (Z.shiftl (id t) 4)) 0.
Definition prefix (t : RecordType) : KeyPrefix.t := KeyPrefix.mk SUBSYSTEM KEY_VERSION (to_u8 (tag t)).

Lemma vec_prefix_new t :
  (let? g := RecordTag.new (E:=Error) (id t) 0 in
   KeyPrefix.new SUBSYSTEM KEY_VERSION (to_u8 (RecordTag.as_byte g))) = Ok (prefix t).
Proof. by destruct t. Qed.

(** [Self::RECORD_TYPE.prefix().write_to(&mut buf)] on an empty buffer *)
Definition start_key (t : RecordType) : bytes := KeyPrefix.write_to (prefix t) [].

Inductive FieldType : Type := TString | TInt64 | TFloat64 | TBool | TVector.

#[global] Instance FieldType_eq_dec : EqDecision FieldType.
Proof. solve_decision. Defined.

(** [field_type as u8] *)
Definition field_type_byte (t : FieldType) : byte :=
  match t with TString => x00 | TInt64 => x01 | TFloat64 => x02 | TBool => x03 | TVector => xff end.

Definition field_type_from_byte (b : byte) : res Error FieldType :=
  match b with
  | x00 => Ok TString | x01 => Ok TInt64 | x02 => Ok TFloat64 | x03 => Ok TBool | xff => Ok TVector
  | _ => Err (InvalidFieldType b)
  end.

Inductive FieldValue : Type :=
| FString (s : bytes)
| FInt64 (v : Z)
| FFloat64 (bits : Z)
| FBool (b : bool)
| FVector (v : list Z).

#[global] Instance FieldValue_eq_dec : EqDecision FieldValue.
Proof. solve_decision. Defined.

Definition field_type (v : FieldValue) : FieldType :=
  match v with
  | FString _ => TString | FInt64 _ => TInt64 | FFloat64 _ => TFloat64 | FBool _ => TBool | FVector _ => TVector
  end.

Definition bool_byte (b : bool) : byte := if b then x01 else x00.

Definition encode_sortable (v : FieldValue) (buf : bytes) : res Error bytes :=
  match v with
  | FString s => Ok (TerminatedBytes.serialize s (buf ++ [field_type_byte TString]))
  | FInt64 v => Ok ((buf ++ [field_type_byte TInt64]) ++ be_bytes 8 (encode_i64_sortable v))
  | FFloat64 v => Ok ((buf ++ [field_type_byte TFloat64]) ++ be_bytes 8 (encode_f64_sortable v))
  | FBool b => Ok ((buf ++ [field_type_byte TBool]) ++ [bool_byte b])
  | FVector _ => Panic
  end.

Definition decode_sortable (buf : bytes) : res Error (FieldValue * bytes) :=
  match buf with
  | [] => Err FieldTypeTooShort
  | b :: buf =>
      let? ty := field_type_from_byte b in
      match ty with
      | TString =>
          let? (raw, buf) := res_map_err ErrDeserialize (TerminatedBytes.deserialize buf) in
          let? s := from_utf8 InvalidString raw in
          Ok (FString s, buf)
      | TInt64 =>
          if bool_decide (length buf < 8)%nat then Err FieldValueTooShort
          else Ok (FInt64 (decode_i64_sortable (from_be (take 8 buf))), drop 8 buf)
      | TFloat64 =>
          if bool_decide (length buf < 8)%nat then Err FieldValueTooShort
          else Ok (FFloat64 (decode_f64_sortable (from_be (take 8 buf))), drop 8 buf)
      | TBool =>
          match buf with
          | [] => Err FieldValueTooShort
          | b :: buf => Ok (FBool (negb (bool_decide (b = x00))), buf)
          end
      | TVector => Err VectorNotSortable
      end
  end.

(** [Encode] and [Decode] of the integers and floats, little-endian at [n] bytes *)
Definition le_encode (n : nat) (v : Z) (buf : bytes) : res Error bytes := Ok (buf ++ le_bytes n v).
Definition le_decode (n : nat) (buf : bytes) : res Error (Z * bytes) :=
  if bool_decide (length buf < n)%nat then Err (PrimitiveTooShort (Z.of_nat n))
  else Ok (from_le (take n buf), drop n buf).

Definition f32_encode := le_encode 4.
Definition f32_decode := le_decode 4.
Definition u8_encode := le_encode 1.
Definition u8_decode := le_decode 1.
Definition u16_encode := le_encode 2.
Definition u16_decode := le_decode 2.
Definition u32_encode := le_encode 4.
Definition u32_decode := le_decode 4.
Definition u64_encode := le_encode 8.
Definition u64_decode := le_decode 8.
Definition f64_encode := le_encode 8.
Definition f64_decode := le_decode 8.
Definition i64_encode (v : Z) (buf : bytes) : res Error bytes := le_encode 8 (wrap 64 v) buf.
Definition i64_decode (buf : bytes) : res Error (Z * bytes) :=
  let? (v, buf) := le_decode 8 buf in Ok (as_signed 64 v, buf).

Definition encode_array {A} (enc : A → bytes → res Error bytes) (items : list A) (buf : bytes) : res Error bytes :=
  if u_max 16 <? blen items then Panic
  else encode_items enc items (buf ++ le_bytes 2 (wrap 16 (blen items))).

Definition decode_array {A} (dec : bytes → res Error (A * bytes)) (buf : bytes) : res Error (list A * bytes) :=
  if bool_decide (length buf < 2)%nat then Err (ErrEncoding ArrayCountTooShort)
  else decode_items dec (Z.to_nat (from_le (take 2 buf))) (drop 2 buf).

Definition encode_fixed_element_array {A} (enc : A → bytes → res Error bytes) (items : list A) (buf : bytes) :
    res Error bytes := encode_items enc items buf.

(** the element sizes in use are positive, so the division does not panic *)
Definition decode_fixed_element_array {A} (dec : bytes → res Error (A * bytes)) (element_size : nat) (buf : bytes) :
    res Error (list A * bytes) :=
  if negb (bool_decide (length buf mod element_size = 0)%nat)
  then Err (ErrEncoding (NotDivisible (blen buf) (Z.of_nat element_size)))
  else decode_items dec (length buf / element_size) buf.

(** value encoding of a field *)
Definition field_value_encode (v : FieldValue) (buf : bytes) : res Error bytes :=
  match v with
  | FString s => encode_utf8 s (buf ++ [field_type_byte TString])
  | FInt64 v => Ok ((buf ++ [field_type_byte TInt64]) ++ le_bytes 8 (wrap 64 v))
  | FFloat64 v => Ok ((buf ++ [field_type_byte TFloat64]) ++ le_bytes 8 v)
  | FBool b => Ok ((buf ++ [field_type_byte TBool]) ++ [bool_byte b])
  | FVector v => encode_fixed_element_array f32_encode v (buf ++ [field_type_byte TVector])
  end.

(** the cases the two decoders share; [vec] reads a vector *)
Definition decode_value (vec : bytes → res Error (FieldValue * bytes)) (buf : bytes) : res Error (FieldValue * bytes) :=
  match buf with
  | [] => Err FieldTypeTooShort
  | b :: buf =>
      let? ty := field_type_from_byte b in
      match ty with
      | TString => let? (s, buf) := res_map_err ErrEncoding (decode_utf8 buf) in Ok (FString s, buf)
      | TInt64 =>
          if bool_decide (length buf < 8)%nat then Err FieldValueTooShort
          else Ok (FInt64 (as_signed 64 (from_le (take 8 buf))), drop 8 buf)
      | TFloat64 =>
          if bool_decide (length buf < 8)%nat then Err FieldValueTooShort
          else Ok (FFloat64 (from_le (take 8 buf)), drop 8 buf)
      | TBool =>
          match buf with
          | [] => Err FieldValueTooShort
          | b :: buf => Ok (FBool (negb (bool_decide (b = x00))), buf)
          end
      | TVector => vec buf
      end
  end.

Definition field_value_decode : bytes → res Error (FieldValue * bytes) :=
  decode_value (λ _, Err VectorNeedsDimensions).

Definition decode_with_dimensions (dimensions : nat) : bytes → res Error (FieldValue * bytes) :=
  decode_value (λ buf,
    let expected_bytes := (dimensions * 4)%nat in
    if bool_decide (length buf < expected_bytes)%nat
    then Err (VectorTooShort (Z.of_nat expected_bytes) (blen buf))
    else
      let? (vector, _) := decode_fixed_element_array f32_decode 4 (take expected_bytes buf) in
      Ok (FVector vector, drop expected_bytes buf)).

(** ** serde/key.rs *)
Definition validate_key_prefix (t : RecordType) (buf : bytes) : res Error unit :=
  let? p := res_map_err ErrDeserialize (KeyPrefix.from_bytes_with_validation buf SUBSYSTEM KEY_VERSION) in
  let? ty := from_prefix p in
  if negb (bool_decide (ty = t)) then Err (UnexpectedRecordType (id ty)) else Ok tt.

(** singleton keys: the prefix alone *)
Definition collection_meta_key_encode : bytes := start_key CollectionMeta.
Definition centroids_key_encode : bytes := start_key Centroids.
Definition seq_block_key_encode : bytes := start_key SeqBlock.
Definition centroid_seq_block_key_encode : bytes := start_key CentroidSeqBlock.

Definition singleton_key_decode (t : RecordType) (buf : bytes) : res Error unit :=
  if bool_decide (length buf < 3)%nat then Err KeyTooShort else validate_key_prefix t buf.
Definition collection_meta_key_decode := singleton_key_decode CollectionMeta.
Definition centroids_key_decode := singleton_key_decode Centroids.
Definition seq_block_key_decode := singleton_key_decode SeqBlock.
Definition centroid_seq_block_key_decode := singleton_key_decode CentroidSeqBlock.

(** keys of one vector or centroid: the prefix and the id *)
Definition id_key_decode (t : RecordType) (buf : bytes) : res Error VectorId :=
  if bool_decide (length buf < 11)%nat then Err KeyTooShort
  else
    let? _ := validate_key_prefix t buf in
    let? (v, _) := vid_decode (drop 3 buf) in
    Ok v.

Definition posting_list_key_new (v : VectorId) : res Error VectorId :=
  let? _ := rust_assert (is_centroid v || is_root v) in Ok v.
Definition posting_list_key_encode (v : VectorId) : bytes := vid_encode v (start_key PostingList).
Definition posting_list_key_decode := id_key_decode PostingList.

Definition vector_data_key_new (v : VectorId) : res Error VectorId :=
  let? _ := rust_assert (is_data_vector v) in Ok v.
Definition vector_data_key_encode (v : VectorId) : bytes := vid_encode v (start_key VectorData).
Definition vector_data_key_decode := id_key_decode VectorData.

Definition vector_index_data_key_new (v : VectorId) : res Error VectorId :=
  let? _ := rust_assert (is_data_vector v) in Ok v.
Definition vector_index_data_key_encode (v : VectorId) : bytes := vid_encode v (start_key VectorIndexData).
Definition vector_index_data_key_decode := id_key_decode VectorIndexData.

Definition centroid_stats_key_new (v : VectorId) : res Error VectorId :=
  let? _ := rust_assert (is_centroid v) in Ok v.
Definition centroid_stats_key_encode (v : VectorId) : bytes := vid_encode v (start_key CentroidStats).
Definition centroid_stats_key_decode := id_key_decode CentroidStats.

Definition centroid_info_key_new (v : VectorId) : res Error VectorId :=
  let? _ := rust_assert (is_centroid v) in Ok v.
Definition centroid_info_key_encode (v : VectorId) : bytes := vid_encode v (start_key CentroidInfo).
Definition centroid_info_key_decode := id_key_decode CentroidInfo.

(** keys with strings *)
Definition id_dictionary_key_encode (external_id : bytes) : bytes :=
  TerminatedBytes.serialize external_id (start_key IdDictionary).

Definition id_dictionary_key_decode (buf : bytes) : res Error bytes :=
  if bool_decide (length buf < 4)%nat then Err KeyTooShort
  else
    let? _ := validate_key_prefix IdDictionary buf in
    let? (raw, _) := res_map_err ErrDeserialize (TerminatedBytes.deserialize (drop 3 buf)) in
    from_utf8 InvalidString raw.

Record MetadataIndexKey : Type := mkIndexKey { mk_field : bytes; mk_value : FieldValue }.

Definition metadata_index_key_encode (k : MetadataIndexKey) : res Error bytes :=
  encode_sortable (mk_value k) (TerminatedBytes.serialize (mk_field k) (start_key MetadataIndex)).

Definition metadata_index_key_decode (buf : bytes) : res Error MetadataIndexKey :=
  if bool_decide (length buf < 5)%nat then Err KeyTooShort
  else
    let? _ := validate_key_prefix MetadataIndex buf in
    let? (raw, slice) := res_map_err ErrDeserialize (TerminatedBytes.deserialize (drop 3 buf)) in
    let? field := from_utf8 InvalidString raw in
    let? (value, _) := decode_sortable slice in
    Ok (mkIndexKey field value).

(** ranges *)
Definition all_posting_lists_range : BytesRange := ByteRange.prefix (start_key PostingList).
Definition all_ids_range : BytesRange := ByteRange.prefix (start_key IdDictionary).
Definition all_vectors_range : BytesRange := ByteRange.prefix (start_key VectorData).
Definition all_indexes_range : BytesRange := ByteRange.prefix (start_key MetadataIndex).
Definition all_centroid_infos_range : BytesRange := ByteRange.prefix (start_key CentroidInfo).

Definition id_prefix_range (p : bytes) : BytesRange :=
  ByteRange.prefix (TerminatedBytes.serialize p (start_key IdDictionary)).
Definition field_range (field : bytes) : BytesRange :=
  ByteRange.prefix (TerminatedBytes.serialize field (start_key MetadataIndex)).

Definition encode_prefix_for_level (lv : Z) : bytes := encode_level_prefix (start_key PostingList) lv.

Definition inner_level_bytes_range : res Error BytesRange :=
  let start_buf := encode_prefix_for_level (LEAF_LEVEL + 1) in
  let? root := posting_list_key_new ROOT_VECTOR_ID in
  Ok (mkRange (Included start_buf) (Excluded (posting_list_key_encode root))).

(** ** serde/collection_meta.rs *)
Inductive DistanceMetric : Type := L2 | Cosine | DotProduct.

#[global] Instance DistanceMetric_eq_dec : EqDecision DistanceMetric.
Proof. solve_decision. Defined.

(** [metric as u8] *)
Definition metric_byte (m : DistanceMetric) : byte := match m with L2 => x00 | Cosine => x01 | DotProduct => x02 end.
Definition metric_from_byte (b : byte) : res Error DistanceMetric :=
  match b with x00 => Ok L2 | x01 => Ok Cosine | x02 => Ok DotProduct | _ => Err (InvalidMetric b) end.

Record MetadataFieldSpec : Type := mkFieldSpec { fs_name : bytes; fs_type : FieldType; fs_indexed : bool }.

Definition field_spec_encode (f : MetadataFieldSpec) (buf : bytes) : res Error bytes :=
  let? buf := encode_utf8 (fs_name f) buf in
  Ok ((buf ++ [field_type_byte (fs_type f)]) ++ [bool_byte (fs_indexed f)]).

Definition field_spec_decode (buf : bytes) : res Error (MetadataFieldSpec * bytes) :=
  let? (name, buf) := res_map_err ErrEncoding (decode_utf8 buf) in
  match buf with
  | b0 :: b1 :: rest =>
      let? ty := field_type_from_byte b0 in
      Ok (mkFieldSpec name ty (negb (bool_decide (b1 = x00))), rest)
  | _ => Err (ValueTooShort (blen buf))
  end.

Record CollectionMetaValue : Type := mkMeta {
  cm_schema_version : Z;
  cm_dimensions : Z;
  cm_distance_metric : DistanceMetric;
  cm_chunk_target : Z;
  cm_fields : list MetadataFieldSpec;
}.

Definition collection_meta_new (dimensions : Z) (m : DistanceMetric) (chunk_target : Z)
    (fields : list MetadataFieldSpec) : CollectionMetaValue := mkMeta 1 dimensions m chunk_target fields.

Definition collection_meta_encode (v : CollectionMetaValue) : res Error bytes :=
  let buf := le_bytes 4 (cm_schema_version v) in
  let buf := buf ++ le_bytes 2 (cm_dimensions v) in
  let buf := buf ++ [metric_byte (cm_distance_metric v)] in
  let buf := buf ++ le_bytes 2 (cm_chunk_target v) in
  encode_array field_spec_encode (cm_fields v) buf.

Definition collection_meta_decode (buf : bytes) : res Error CollectionMetaValue :=
  if bool_decide (length buf < 9)%nat then Err (ValueTooShort (blen buf))
  else
    let schema_version := from_le (take 4 buf) in
    let dimensions := from_le (take 2 (drop 4 buf)) in
    let? b := expect (buf !! 6%nat) in
    let? metric := metric_from_byte b in
    let chunk_target := from_le (take 2 (drop 7 buf)) in
    let? (fields, _) := decode_array field_spec_decode (drop 9 buf) in
    Ok (mkMeta schema_version dimensions metric chunk_target fields).

Definition get_field (v : CollectionMetaValue) (name : bytes) : option MetadataFieldSpec :=
  head (filter (λ f, fs_name f = name) (cm_fields v)).
Definition indexed_fields (v : CollectionMetaValue) : list bytes :=
  fs_name <$> filter (λ f, fs_indexed f = true) (cm_fields v).

(** ** serde/id_dictionary.rs *)
Definition id_dictionary_value_new (v : VectorId) : res Error VectorId :=
  let? _ := rust_assert (is_data_vector v) in Ok v.
Definition id_dictionary_value_encode (v : VectorId) : bytes := vid_encode v [].
Definition id_dictionary_value_decode (buf : bytes) : res Error VectorId :=
  if bool_decide (length buf < 8)%nat then Err (ValueTooShort (blen buf))
  else let? (v, _) := vid_decode buf in Ok v.

(** ** serde/vector_data.rs *)
Definition VECTOR_FIELD_NAME : bytes := [x76; x65; x63; x74; x6f; x72].  (* "vector" *)

Record Field : Type := mkField { field_name : bytes; field_value : FieldValue }.

#[global] Instance Field_eq_dec : EqDecision Field.
Proof. solve_decision. Defined.

Definition field_encode (f : Field) (buf : bytes) : res Error bytes :=
  let? buf := encode_utf8 (field_name f) buf in field_value_encode (field_value f) buf.

(** the two decoders of a field differ in the decoder of its value *)
Definition decode_field (dec : bytes → res Error (FieldValue * bytes)) (buf : bytes) : res Error (Field * bytes) :=
  let? (name, buf) := res_map_err ErrEncoding (decode_utf8 buf) in
  let? (value, buf) := dec buf in
  if bool_decide (name = VECTOR_FIELD_NAME) && negb (bool_decide (field_type value = TVector))
  then Err VectorFieldNotVector
  else Ok (mkField name value, buf).

Definition field_decode := decode_field field_value_decode.
Definition field_decode_with_dimensions (dimensions : nat) := decode_field (decode_with_dimensions dimensions).

Record VectorDataValue : Type := mkVectorData { vd_external_id : bytes; vd_fields : list Field }.

(** [fields.sort_by(|a, b| a.field_name.cmp(&b.field_name))] *)
Definition by_field_name (a b : Field) : bool := ble (field_name a) (field_name b).

Definition vector_data_new (external_id : bytes) (fields : list Field) : VectorDataValue :=
  mkVectorData external_id (sort_by by_field_name fields).

Definition vector_data_encode (v : VectorDataValue) : res Error bytes :=
  let? buf := encode_utf8 (vd_external_id v) [] in
  if u_max 16 <? blen (vd_fields v) then Panic
  else encode_items field_encode (vd_fields v) (buf ++ le_bytes 2 (wrap 16 (blen (vd_fields v)))).

Definition vector_data_decode (dimensions : nat) (buf : bytes) : res Error VectorDataValue :=
  let? (external_id, slice) := res_map_err ErrEncoding (decode_utf8 buf) in
  if bool_decide (length slice < 2)%nat then Err FieldCountTooShort
  else
    let count := Z.to_nat (from_le (take 2 slice)) in
    let? (fields, _) := decode_items (field_decode_with_dimensions dimensions) count (drop 2 slice) in
    Ok (mkVectorData external_id fields).

Definition vector_data_field (v : VectorDataValue) (name : bytes) : option FieldValue :=
  field_value <$> head (filter (λ f, field_name f = name) (vd_fields v)).

Definition vector_field (v : VectorDataValue) : res Error (list Z) :=
  match vector_data_field v VECTOR_FIELD_NAME with
  | Some (FVector x) => Ok x
  | _ => Panic
  end.

(** ** serde/vector_index_data.rs *)
Record VectorIndexDataValue : Type := mkIndexData { vi_postings : list VectorId; vi_indexed_fields : list Field }.

Definition index_data_new (postings : list VectorId) (fields : list Field) : res Error VectorIndexDataValue :=
  let? _ := rust_assert (forallb is_centroid postings) in
  let? _ := rust_assert (forallb (λ f, negb (bool_decide (field_name f = VECTOR_FIELD_NAME))) fields) in
  Ok (mkIndexData postings (sort_by by_field_name fields)).

Definition index_data_encode (v : VectorIndexDataValue) : res Error bytes :=
  if u_max 16 <? blen (vi_postings v) then Panic
  else
    let buf := le_bytes 2 (blen (vi_postings v)) in
    let buf := foldl (λ buf p, vid_encode p buf) buf (vi_postings v) in
    if u_max 16 <? blen (vi_indexed_fields v) then Panic
    else encode_items field_encode (vi_indexed_fields v) (buf ++ le_bytes 2 (blen (vi_indexed_fields v))).

Definition decode_posting (buf : bytes) : res Error (VectorId * bytes) :=
  let? (p, buf) := vid_decode buf in
  if negb (is_centroid p) then Err (PostingNotCentroid p) else Ok (p, buf).

Definition decode_indexed_field (buf : bytes) : res Error (Field * bytes) :=
  let? (f, buf) := field_decode buf in
  if bool_decide (field_name f = VECTOR_FIELD_NAME) then Err IndexedVectorField else Ok (f, buf).

Definition index_data_decode (buf : bytes) : res Error VectorIndexDataValue :=
  if bool_decide (length buf < 2)%nat then Err (ValueTooShort (blen buf))
  else
    let? (postings, buf) := decode_items decode_posting (Z.to_nat (from_le (take 2 buf))) (drop 2 buf) in
    if bool_decide (length buf < 2)%nat then Err (ValueTooShort (blen buf))
    else
      let? (fields, _) := decode_items decode_indexed_field (Z.to_nat (from_le (take 2 buf))) (drop 2 buf) in
      Ok (mkIndexData postings fields).

(** ** serde/centroid_info.rs, centroid_stats.rs, centroids.rs *)
Record CentroidInfoValue : Type := mkInfo { ci_level : Z; ci_vector : list Z; ci_parent : VectorId }.

(** [level + 1] wraps at [u8] *)
Definition centroid_info_new (lv : Z) (vector : list Z) (parent : VectorId) : res Error CentroidInfoValue :=
  let? _ := rust_assert ((level parent =? wrap 8 (lv + 1)) || (parent =? ROOT_VECTOR_ID)) in
  Ok (mkInfo lv vector parent).

Definition centroid_info_encode (v : CentroidInfoValue) : res Error bytes :=
  let? buf := encode_array f32_encode (ci_vector v) [to_u8 (ci_level v)] in
  Ok (vid_encode (ci_parent v) buf).

Definition centroid_info_decode (buf : bytes) : res Error CentroidInfoValue :=
  match buf with
  | [] => Err (ValueTooShort 0)
  | b :: buf =>
      let? (vector, buf) := decode_array f32_decode buf in
      let? (parent, _) := vid_decode buf in
      Ok (mkInfo (u8 b) vector parent)
  end.

Definition centroid_stats_encode (num_vectors : Z) : bytes := le_bytes 4 (wrap 32 num_vectors).
Definition centroid_stats_decode (buf : bytes) : res Error Z :=
  if bool_decide (length buf < 4)%nat then Err (ValueTooShort (blen buf))
  else Ok (as_signed 32 (from_le (take 4 buf))).

Definition centroids_encode (depth : Z) : bytes := [to_u8 depth].
Definition centroids_decode (buf : bytes) : res Error Z :=
  match buf with [] => Err (ValueTooShort 0) | b :: _ => Ok (u8 b) end.

(** ** Identifiers *)
Lemma level_div v : in_u 64 v → level v = v / 2 ^ 56 ∧ 0 ≤ level v < 256.
Proof.
  unfold in_u, level. intros Hv. rewrite Z.shiftr_div_pow2 by lia.
  assert (H : 0 ≤ v / 2 ^ 56 < 256).
  { split; [apply Z.div_pos; lia|]. apply Z.div_lt_upper_bound; [lia|].
    change (2 ^ 56 * 256) with (2 ^ 64). lia. }
  rewrite wrap_small by (unfold in_u; lia). lia.
Qed.

Lemma level_cmp v w : in_u 64 v → in_u 64 w → v ≤ w → level v ≤ level w.
Proof.
  intros Hv Hw Hle. destruct (level_div v Hv) as [-> _], (level_div w Hw) as [-> _].
  apply Z.div_le_mono; lia.
Qed.

Lemma root_in : in_u 64 ROOT_VECTOR_ID.
Proof. by vm_compute. Qed.

Lemma level_at_least v lv : in_u 64 v → 0 ≤ lv → lv ≤ level v ↔ lv * 2 ^ 56 ≤ v.
Proof.
  intros Hv Hlv. destruct (level_div v Hv) as [-> _]. split; intros H.
  - pose proof (Z.mul_div_le v (2 ^ 56) ltac:(lia)). lia.
  - apply Z.div_le_lower_bound; lia.
Qed.

(** an id built by [centroid_id] has the level and the number it was built from *)
Lemma centroid_id_spec lv n v :
  in_u 8 lv → in_u 64 n → centroid_id lv n = Ok v →
  level v = lv ∧ number v = n ∧ is_centroid v = true ∧ in_u 64 v.
Proof.
  unfold centroid_id, rust_assert, in_u. intros Hlv Hn H. inv_ok. reflect. subst v.
  set (raw := Z.lor _ _) in *.
  assert (Hr : 0 ≤ raw < 2 ^ 64).
  { unfold raw. assert (Hw : in_u 64 (wrap 64 (Z.shiftl lv 56))) by (apply wrap_range; lia). unfold in_u in Hw.
    split; [apply Z.lor_nonneg; lia|].
    destruct (decide (Z.lor (wrap 64 (Z.shiftl lv 56)) n = 0)) as [-> |Hne]; [lia|].
    apply Z.log2_lt_pow2; [pose proof (proj2 (Z.lor_nonneg (wrap 64 (Z.shiftl lv 56)) n)); lia|].
    rewrite Z.log2_lor by lia.
    assert (∀ x, 0 ≤ x < 2 ^ 64 → Z.log2 x < 64).
    { intros x Hx. destruct (decide (x = 0)) as [-> |]; [by vm_compute|]. apply Z.log2_lt_pow2; lia. }
    apply Z.max_lub_lt; auto. }
  split_and!; try done; try lia. unfold is_centroid.
  rewrite (proj2 (Z.ltb_lt _ _)) by lia. unfold is_root. destruct (Z.eqb_spec raw ROOT_VECTOR_ID) as [He|]; [|done].
  exfalso. match goal with H : level raw = lv |- _ => rewrite He in H; vm_compute in H; lia end.
Qed.

#[global] Instance vid_self_delimiting : SelfDelimiting (in_u 64) (be_bytes 8) vid_decode.
Proof.
  intros v rest Hv. unfold vid_decode.
  rewrite bool_decide_eq_false_2 by (rewrite length_app, be_bytes_length; lia).
  rewrite take_app_length', drop_app_length' by by rewrite be_bytes_length.
  by rewrite (from_be_roundtrip 8).
Qed.

#[global] Instance vid_ordered : OrderedField (in_u 64) Z.compare (be_bytes 8).
Proof. exact (ordered_field_be 8). Qed.

(** ** Keys *)
Definition type_bytes (t : RecordType) : bytes := KeyPrefix.to_bytes (prefix t).

Lemma start_key_bytes t : start_key t = type_bytes t.
Proof. by destruct t. Qed.

Lemma type_bytes_inj t t' s s' : type_bytes t ++ s = type_bytes t' ++ s' → t = t' ∧ s = s'.
Proof.
  intros He. apply app_inj_1 in He as [He ->]; [|done]. split; [|done].
  by destruct t, t'.
Qed.

Lemma validate_key_prefix_spec t rest : validate_key_prefix t (type_bytes t ++ rest) = Ok tt.
Proof. by destruct t. Qed.

(** sortable field values *)
Definition wf_sortable (v : FieldValue) : Prop :=
  match v with
  | FString s => utf8_valid s = true
  | FInt64 v => in_i 64 v
  | FFloat64 v => in_u 64 v
  | FBool _ => True
  | FVector _ => False
  end.

Definition sortable_tail (v : FieldValue) : bytes :=
  match v with
  | FString s => TerminatedBytes.serialize_to_bytes s
  | FInt64 v => be_bytes 8 (encode_i64_sortable v)
  | FFloat64 v => be_bytes 8 (encode_f64_sortable v)
  | FBool b => [bool_byte b]
  | FVector _ => []
  end.
Definition sortable_bytes (v : FieldValue) : bytes := field_type_byte (field_type v) :: sortable_tail v.

(** the order of field values: by type, then strings by their bytes, numbers by
    value (-0 before +0), false before true *)
Definition cmp_f64 (a b : Z) : comparison :=
  cmp_then (f64_scaled a ?= f64_scaled b)
    (match f64_negative a, f64_negative b with
     | true, false => Lt | false, true => Gt | _, _ => Eq end).
Definition cmp_bool (a b : bool) : comparison :=
  match a, b with false, true => Lt | true, false => Gt | _, _ => Eq end.
Definition type_rank (t : FieldType) : Z :=
  match t with TString => 0 | TInt64 => 1 | TFloat64 => 2 | TBool => 3 | TVector => 255 end.
Definition cmp_value (a b : FieldValue) : comparison :=
  match a, b with
  | FString s, FString t => bcmp s t
  | FInt64 x, FInt64 y => x ?= y
  | FFloat64 x, FFloat64 y => cmp_f64 x y
  | FBool x, FBool y => cmp_bool x y
  | _, _ => type_rank (field_type a) ?= type_rank (field_type b)
  end.

Lemma terminated_append data buf : TerminatedBytes.serialize data buf = buf ++ TerminatedBytes.serialize_to_bytes data.
Proof. by rewrite TerminatedBytes.serialize_escape, TerminatedBytes.serialize_to_bytes_escape. Qed.

Lemma encode_sortable_spec v buf :
  wf_sortable v → encode_sortable v buf = Ok (buf ++ sortable_bytes v).
Proof.
  intros Hv. destruct v; try done; cbn [encode_sortable]; unfold sortable_bytes; cbn [sortable_tail field_type];
    rewrite ?terminated_append, <-?app_assoc; done.
Qed.

Lemma i64_sortable_range v : in_i 64 v → in_u 64 (encode_i64_sortable v).
Proof.
  intros Hv. rewrite encode_i64_shift by done. unfold in_i, in_u in *. change (64 - 1) with 63 in Hv.
  rewrite pow64_63. lia.
Qed.

#[global] Instance sortable_self_delimiting : SelfDelimiting wf_sortable sortable_bytes decode_sortable.
Proof.
  intros v rest Hv. unfold sortable_bytes. destruct v as [s|v|v|b|]; try done; cbn [wf_sortable] in Hv;
    unfold decode_sortable; cbn [field_type field_type_byte sortable_tail app field_type_from_byte res_bind].
  - rewrite (decode_encode (dec:=TerminatedBytes.deserialize) s) by done. cbn [res_map_err res_bind].
    unfold from_utf8. by rewrite Hv.
  - rewrite bool_decide_eq_false_2 by (rewrite length_app, be_bytes_length; lia).
    rewrite take_app_length', drop_app_length' by by rewrite be_bytes_length.
    rewrite (from_be_roundtrip 8) by (by apply i64_sortable_range).
    by rewrite (proj1 (sortable_roundtrip v 0 Hv ltac:(by vm_compute))).
  - rewrite bool_decide_eq_false_2 by (rewrite length_app, be_bytes_length; lia).
    rewrite take_app_length', drop_app_length' by by rewrite be_bytes_length.
    rewrite (from_be_roundtrip 8) by (by apply encode_f64_range).
    by rewrite (proj2 (sortable_roundtrip 0 v ltac:(by vm_compute) Hv)).
  - by destruct b.
Qed.

#[global] Instance sortable_ordered : OrderedField wf_sortable cmp_value sortable_bytes.
Proof.
  intros a b s t Ha Hb. unfold sortable_bytes. rewrite <-!app_comm_cons.
  destruct a as [x|x|x|x|], b as [y|y|y|y|]; try done; cbn [bcmp field_type field_type_byte sortable_tail cmp_value];
    rewrite ?Z.compare_refl; try reflexivity.
  - by apply ordered_field.
  - rewrite (ordered_field (A:=Z) (enc:=λ v, be_bytes 8 (encode_i64_sortable v)) x y) by done. done.
  - rewrite bcmp_app_same_length by (by rewrite !be_bytes_length). by rewrite f64_sortable_order.
  - by destruct x, y.
Qed.

Inductive Key : Type :=
| KSingleton (t : RecordType)
| KId (t : RecordType) (v : VectorId)
| KDict (external_id : bytes)
| KIndex (k : MetadataIndexKey).

Definition key_type (k : Key) : RecordType :=
  match k with KSingleton t => t | KId t _ => t | KDict _ => IdDictionary | KIndex _ => MetadataIndex end.

(** every key with its own encoder and decoder *)
Definition key_encode (k : Key) : res Error bytes :=
  match k with
  | KSingleton CollectionMeta => Ok collection_meta_key_encode
  | KSingleton Centroids => Ok centroids_key_encode
  | KSingleton SeqBlock => Ok seq_block_key_encode
  | KSingleton CentroidSeqBlock => Ok centroid_seq_block_key_encode
  | KId PostingList v => let? v := posting_list_key_new v in Ok (posting_list_key_encode v)
  | KId VectorData v => let? v := vector_data_key_new v in Ok (vector_data_key_encode v)
  | KId VectorIndexData v => let? v := vector_index_data_key_new v in Ok (vector_index_data_key_encode v)
  | KId CentroidStats v => let? v := centroid_stats_key_new v in Ok (centroid_stats_key_encode v)
  | KId CentroidInfo v => let? v := centroid_info_key_new v in Ok (centroid_info_key_encode v)
  | KDict s => Ok (id_dictionary_key_encode s)
  | KIndex k => metadata_index_key_encode k
  | _ => Panic
  end.

Definition key_decode (t : RecordType) (buf : bytes) : res Error Key :=
  match t with
  | CollectionMeta => let? _ := collection_meta_key_decode buf in Ok (KSingleton CollectionMeta)
  | Centroids => let? _ := centroids_key_decode buf in Ok (KSingleton Centroids)
  | SeqBlock => let? _ := seq_block_key_decode buf in Ok (KSingleton SeqBlock)
  | CentroidSeqBlock => let? _ := centroid_seq_block_key_decode buf in Ok (KSingleton CentroidSeqBlock)
  | PostingList => let? v := posting_list_key_decode buf in Ok (KId PostingList v)
  | VectorData => let? v := vector_data_key_decode buf in Ok (KId VectorData v)
  | VectorIndexData => let? v := vector_index_data_key_decode buf in Ok (KId VectorIndexData v)
  | CentroidStats => let? v := centroid_stats_key_decode buf in Ok (KId CentroidStats v)
  | CentroidInfo => let? v := centroid_info_key_decode buf in Ok (KId CentroidInfo v)
  | IdDictionary => let? s := id_dictionary_key_decode buf in Ok (KDict s)
  | MetadataIndex => let? k := metadata_index_key_decode buf in Ok (KIndex k)
  end.

Definition wf_key (k : Key) : Prop :=
  match k with
  | KSingleton t => t ∈ [CollectionMeta; Centroids; SeqBlock; CentroidSeqBlock]
  | KId PostingList v => in_u 64 v ∧ is_tree_node v = true
  | KId VectorData v => in_u 64 v ∧ is_data_vector v = true
  | KId VectorIndexData v => in_u 64 v ∧ is_data_vector v = true
  | KId CentroidStats v => in_u 64 v ∧ is_centroid v = true
  | KId CentroidInfo v => in_u 64 v ∧ is_centroid v = true
  | KId _ _ => False
  | KDict s => utf8_valid s = true
  | KIndex k => utf8_valid (mk_field k) = true ∧ wf_sortable (mk_value k)
  end.

Definition key_tail (k : Key) : bytes :=
  match k with
  | KSingleton _ => []
  | KId _ v => be_bytes 8 v
  | KDict s => TerminatedBytes.serialize_to_bytes s
  | KIndex k => TerminatedBytes.serialize_to_bytes (mk_field k) ++ sortable_bytes (mk_value k)
  end.
Definition key_bytes (k : Key) : bytes := type_bytes (key_type k) ++ key_tail k.

Lemma vec_key_encode_spec k : wf_key k → key_encode k = Ok (key_bytes k).
Proof.
  destruct k as [t|t v|s|[f v]]; cbn [wf_key].
  - intros Ht. repeat (apply elem_of_cons in Ht as [-> | Ht]; [done|]). by apply elem_of_nil in Ht.
  - unfold key_bytes. cbn [key_type key_tail]. rewrite <-start_key_bytes.
    destruct t; try done; intros [_ Hv]; cbn [key_encode];
      unfold posting_list_key_new, vector_data_key_new, vector_index_data_key_new, centroid_stats_key_new,
        centroid_info_key_new, rust_assert, is_tree_node in *; rewrite Hv; done.
  - intros _. cbn [key_encode]. unfold id_dictionary_key_encode, key_bytes.
    by rewrite terminated_append, start_key_bytes.
  - cbn [mk_field mk_value key_encode]. intros [_ Hv]. unfold metadata_index_key_encode. cbn [mk_field mk_value].
    rewrite encode_sortable_spec by done. rewrite terminated_append, start_key_bytes, <-app_assoc. done.
Qed.

Lemma id_key_decode_spec t v : in_u 64 v → id_key_decode t (type_bytes t ++ be_bytes 8 v) = Ok v.
Proof.
  intros Hv. unfold id_key_decode.
  rewrite bool_decide_eq_false_2 by (rewrite length_app, be_bytes_length; simpl; lia).
  rewrite validate_key_prefix_spec. cbn [res_bind]. rewrite drop_app_length' by done.
  rewrite <-(app_nil_r (be_bytes 8 v)), (decode_encode (dec:=vid_decode)) by done. done.
Qed.

Lemma terminated_length s : (1 ≤ length (TerminatedBytes.serialize_to_bytes s))%nat.
Proof. rewrite TerminatedBytes.serialize_to_bytes_escape, length_app. simpl. lia. Qed.

Lemma vec_key_decode_spec k : wf_key k → key_decode (key_type k) (key_bytes k) = Ok k.
Proof.
  unfold key_bytes. destruct k as [t|t v|s|[f v]]; cbn [wf_key key_type key_tail mk_field mk_value].
  - intros Ht. repeat (apply elem_of_cons in Ht as [-> | Ht]; [done|]). by apply elem_of_nil in Ht.
  - intros Hv. assert (Hd : in_u 64 v) by (by destruct t, Hv).
    destruct t; try done; cbn [key_decode];
      unfold posting_list_key_decode, vector_data_key_decode, vector_index_data_key_decode,
        centroid_stats_key_decode, centroid_info_key_decode; by rewrite id_key_decode_spec.
  - intros Hs. cbn [key_decode]. unfold id_dictionary_key_decode. pose proof (terminated_length s).
    rewrite bool_decide_eq_false_2 by (rewrite length_app; simpl; lia).
    rewrite validate_key_prefix_spec. cbn [res_bind]. rewrite drop_app_length' by done.
    rewrite <-(app_nil_r (TerminatedBytes.serialize_to_bytes s)), (decode_encode (dec:=TerminatedBytes.deserialize) s)
      by done.
    cbn [res_map_err res_bind]. unfold from_utf8. by rewrite Hs.
  - intros [Hf Hv]. cbn [key_decode]. unfold metadata_index_key_decode. pose proof (terminated_length f).
    rewrite bool_decide_eq_false_2 by (rewrite !length_app; simpl; lia).
    rewrite validate_key_prefix_spec. cbn [res_bind]. rewrite drop_app_length' by done.
    rewrite (decode_encode (dec:=TerminatedBytes.deserialize) f) by done. cbn [res_map_err res_bind].
    unfold from_utf8. rewrite Hf. cbn [res_bind].
    rewrite <-(app_nil_r (sortable_bytes v)), (decode_encode (dec:=decode_sortable) v) by done. done.
Qed.

Lemma type_range_exact t k : contains (ByteRange.prefix (start_key t)) (key_bytes k) = true ↔ key_type k = t.
Proof.
  rewrite prefix_contains_exact, start_key_bytes. unfold key_bytes. split.
  - intros [s He]. by apply type_bytes_inj in He as [-> _].
  - intros <-. by apply prefix_app_r.
Qed.

Lemma string_range_exact t s k :
  contains (ByteRange.prefix (TerminatedBytes.serialize s (start_key t))) (key_bytes k) = true ↔
    key_type k = t ∧ TerminatedBytes.serialize_to_bytes s `prefix_of` key_tail k.
Proof.
  rewrite prefix_contains_exact, terminated_append, start_key_bytes. unfold key_bytes. split.
  - intros [r He]. rewrite <-app_assoc in He. apply type_bytes_inj in He as [<- ->]. split; [done|by apply prefix_app_r].
  - intros [<- [r ->]]. exists r. by rewrite <-app_assoc.
Qed.

Lemma terminated_prefix s s' r : TerminatedBytes.serialize_to_bytes s `prefix_of` TerminatedBytes.serialize_to_bytes s' ++ r ↔ s = s'.
Proof.
  split; [|intros ->; by apply prefix_app_r]. intros [q He]. symmetry in He.
  by apply (self_delimiting_prefix_free (λ _, True) _ TerminatedBytes.deserialize) in He as [-> _].
Qed.

Lemma ble_zeros n m : (n ≤ length m)%nat → ble (replicate n x00) m = true.
Proof.
  revert m. induction n as [|n IH]; intros [|c m]; try done; [simpl; lia|]. intros Hm.
  change (replicate (S n) x00) with (x00 :: replicate n x00). apply ble_cons.
  pose proof (u8_range c). change (u8 x00) with 0.
  destruct (decide (u8 c = 0)) as [Hc|]; [right|left; lia]. split; [by apply (inj u8)|]. apply IH. simpl in Hm. lia.
Qed.

Lemma key_type_inv k t :
  wf_key k → key_type k = t →
  match t with
  | IdDictionary => ∃ s, k = KDict s
  | MetadataIndex => ∃ i, k = KIndex i
  | _ => True
  end.
Proof.
  intros Hk <-. destruct k as [t|t v|s|i]; cbn [key_type]; eauto; destruct t; try done.
  all: cbn [wf_key] in Hk; exfalso; by vm_compute in Hk;
    repeat (apply elem_of_cons in Hk as [? | Hk]; [done|]); apply elem_of_nil in Hk.
Qed.

(** the posting lists between the leaves and the root *)
Lemma inner_range_exact t v :
  in_u 64 v → (ble (encode_prefix_for_level (LEAF_LEVEL + 1)) (key_bytes (KId t v)) &&
    blt (key_bytes (KId t v)) (posting_list_key_encode ROOT_VECTOR_ID))%bool = true ↔
  t = PostingList ∧ LEAF_LEVEL < level v < ROOT_LEVEL.
Proof.
  intros Hv. unfold encode_prefix_for_level, encode_level_prefix, posting_list_key_encode, vid_encode, key_bytes.
  rewrite !start_key_bytes. cbn [key_type key_tail].
  destruct (decide (t = PostingList)) as [-> |Hne].
  2: { split; [|naive_solver]. destruct t; done. }
  rewrite ble_app_l, blt_app_l, andb_true_iff.
  assert (Hlo : ble [to_u8 (LEAF_LEVEL + 1)] (be_bytes 8 v) = true ↔ 2 * 2 ^ 56 ≤ v).
  { assert (Hb : ble [to_u8 (LEAF_LEVEL + 1)] (be_bytes 8 v) = ble (be_bytes 8 (2 * 2 ^ 56)) (be_bytes 8 v)).
    { change (be_bytes 8 (2 * 2 ^ 56)) with ([to_u8 2] ++ replicate 7 x00). change (LEAF_LEVEL + 1) with 2.
      remember (be_bytes 8 v) as l. assert (length l = 8%nat) by (by subst; rewrite be_bytes_length).
      destruct l as [|b l]; [done|]. unfold ble. cbn [app bcmp].
      destruct (u8 (to_u8 2) ?= u8 b); try done.
      pose proof (ble_zeros 7 l) as Hz. unfold ble in Hz.
      rewrite Hz by (simpl in *; lia). by destruct l. }
    rewrite Hb. unfold ble. rewrite (bcmp_be 8) by (unfold in_u in *; lia).
    destruct (Z.compare_spec (2 * 2 ^ 56) v); split; try done; lia. }
  assert (Hhi : blt (be_bytes 8 v) (be_bytes 8 ROOT_VECTOR_ID) = true ↔ v < ROOT_VECTOR_ID).
  { unfold blt. rewrite (bcmp_be 8) by (done || apply root_in).
    destruct (Z.compare_spec v ROOT_VECTOR_ID); split; try done; lia. }
  rewrite Hlo, Hhi. pose proof (level_at_least v 2 Hv) as H2. pose proof (level_at_least v 255 Hv) as H255.
  unfold LEAF_LEVEL, ROOT_LEVEL. change ROOT_VECTOR_ID with (255 * 2 ^ 56). split; [intros; split; [done|]|intros [_ ?]]; lia.
Qed.

(** the range that is documented to cover the ids that start with a prefix holds the one id that equals it *)
Lemma id_prefix_range_single k p : wf_key k → contains (id_prefix_range p) (key_bytes k) = true ↔ k = KDict p.
Proof.
  intros Hk. unfold id_prefix_range. rewrite string_range_exact. split.
  - intros [(s & ->)%key_type_inv Hp]; [|done]. cbn [key_tail] in Hp.
    rewrite <-(app_nil_r (TerminatedBytes.serialize_to_bytes s)) in Hp. by apply terminated_prefix in Hp as ->.
  - intros ->. done.
Qed.

(** C37: Keys of the vector database.  Every key decodes to itself.  The scan of a
    record type selects exactly the keys of that type; the scan of an indexed field
    exactly the index keys of the field, whatever their value; the scan of the inner
    levels exactly the posting lists above the leaves and below the root. *)
Theorem vec_keys_exact k :
  wf_key k → ∃ enc, key_encode k = Ok enc ∧ key_decode (key_type k) enc = Ok k ∧
    Forall (λ p : RecordType * BytesRange, contains p.2 enc = true ↔ key_type k = p.1)
      [(PostingList, all_posting_lists_range); (IdDictionary, all_ids_range); (VectorData, all_vectors_range);
       (MetadataIndex, all_indexes_range); (CentroidInfo, all_centroid_infos_range)] ∧
    (∀ field, contains (field_range field) enc = true ↔ ∃ value, k = KIndex (mkIndexKey field value)) ∧
    (∀ r, inner_level_bytes_range = Ok r →
       contains r enc = true ↔ ∃ v, k = KId PostingList v ∧ LEAF_LEVEL < level v < ROOT_LEVEL).
Proof.
  intros Hk. exists (key_bytes k). split_and!; [by apply vec_key_encode_spec|by apply vec_key_decode_spec| | |].
  - repeat (apply Forall_cons; split; [apply type_range_exact|]). constructor.
  - intros field. unfold field_range. rewrite string_range_exact. split.
    + intros [([f v] & ->)%key_type_inv Hp]; [|done]. exists v. by apply terminated_prefix in Hp as ->.
    + intros [v ->]. split; [done|]. by apply terminated_prefix.
  - intros r. unfold inner_level_bytes_range. cbn [res_bind posting_list_key_new]. intros [= <-].
    unfold contains. cbn [start end_].
    destruct k as [t|t v|s|[f v]]; [| |cbn; naive_solver..].
    + cbn [wf_key] in Hk. repeat (apply elem_of_cons in Hk as [-> | Hk]; [cbn; naive_solver|]). by apply elem_of_nil in Hk.
    + assert (Hv : in_u 64 v) by (by destruct t, Hk). rewrite inner_range_exact by done. naive_solver.
Qed.

(** The range documented to include all ids that start with a prefix misses every id that continues it: the prefix is written
    with the terminator of an id. *)
Lemma id_prefix_range_misses p suffix :
  utf8_valid (p ++ suffix) = true → suffix ≠ [] → contains (id_prefix_range p) (id_dictionary_key_encode (p ++ suffix)) = false.
Proof.
  intros Hu Hs. pose proof (vec_key_encode_spec (KDict (p ++ suffix)) Hu) as He. cbn [key_encode] in He. injection He as ->.
  apply not_true_iff_false. rewrite id_prefix_range_single by done. intros [= E]. apply Hs, (app_inv_head p). by rewrite app_nil_r.
Qed.

Lemma vec_keys_exact_witness :
  ∃ enc, key_encode (KIndex (mkIndexKey [x61] (FInt64 (-5)))) = Ok enc ∧
    contains (field_range [x61]) enc = true ∧ contains all_ids_range enc = false.
Proof.
  destruct (vec_keys_exact (KIndex (mkIndexKey [x61] (FInt64 (-5))))) as (enc & He & _ & Ht & Hf & _).
  { split; [done|]. by vm_compute. }
  exists enc. split; [exact He|]. split; [apply Hf; by exists (FInt64 (-5))|].
  vm_compute in He. injection He as <-. reflexivity.
Defined.

(** Index keys sort by field name and then by value: strings by their bytes,
    integers and floats by the number they denote (negative numbers first, -0 before
    +0), false before true; so a filter on a field is a range of keys. *)
Theorem metadata_index_key_order f v f' v' enc enc' :
  wf_sortable v → wf_sortable v' →
  metadata_index_key_encode (mkIndexKey f v) = Ok enc → metadata_index_key_encode (mkIndexKey f' v') = Ok enc' →
  bcmp enc enc' = cmp_then (bcmp f f') (cmp_value v v').
Proof.
  intros Hv Hv'. unfold metadata_index_key_encode. cbn [mk_field mk_value].
  rewrite !encode_sortable_spec by done. intros [= <-] [= <-].
  rewrite !terminated_append, <-!app_assoc, bcmp_app.
  rewrite (ordered_field (enc:=TerminatedBytes.serialize_to_bytes) f f') by done.
  by rewrite (ordered_field_cmp wf_sortable cmp_value sortable_bytes).
Qed.

Lemma metadata_index_key_order_witness :
  ∃ e e', metadata_index_key_encode (mkIndexKey [x61] (FFloat64 0xC000000000000000)) = Ok e ∧
    metadata_index_key_encode (mkIndexKey [x61] (FFloat64 0x3FF0000000000000)) = Ok e' ∧ bcmp e e' = Lt.
Proof.
  do 2 eexists. split; [reflexivity|]. split; [reflexivity|].
  etransitivity; [eapply (metadata_index_key_order [x61] (FFloat64 0xC000000000000000) [x61] (FFloat64 0x3FF0000000000000));
    [by vm_compute|by vm_compute|reflexivity|reflexivity]|]. by vm_compute.
Defined.

(** ** Values *)
Definition wf_value (dimensions : nat) (v : FieldValue) : Prop :=
  match v with
  | FString s => wf_str s
  | FInt64 v => in_i 64 v
  | FFloat64 v => in_u 64 v
  | FBool _ => True
  | FVector v => length v = dimensions ∧ Forall (in_u 32) v
  end.

Definition value_tail (v : FieldValue) : bytes :=
  match v with
  | FString s => enc_str s
  | FInt64 v => le_bytes 8 (wrap 64 v)
  | FFloat64 v => le_bytes 8 v
  | FBool b => [bool_byte b]
  | FVector v => v ≫= le_bytes 4
  end.
Definition value_bytes (v : FieldValue) : bytes := field_type_byte (field_type v) :: value_tail v.

Lemma f32s_encode v buf : encode_items f32_encode v buf = Ok (buf ++ (v ≫= le_bytes 4)).
Proof. by apply encode_items_spec. Qed.

Lemma le_decode_spec n v rest : in_u (8 * Z.of_nat n) v → le_decode n (le_bytes n v ++ rest) = Ok (v, rest).
Proof.
  intros Hv. unfold le_decode. rewrite bool_decide_eq_false_2 by (rewrite length_app, le_bytes_length; lia).
  rewrite take_app_length', drop_app_length' by by rewrite le_bytes_length. by rewrite from_le_roundtrip.
Qed.

Lemma f32s_decode v rest :
  Forall (in_u 32) v → decode_items f32_decode (length v) ((v ≫= le_bytes 4) ++ rest) = Ok (v, rest).
Proof.
  intros Hv. rewrite Forall_forall in Hv. apply decode_items_spec. intros x b Hx.
  apply (le_decode_spec 4). by apply Hv.
Qed.

Lemma f32s_length (v : list Z) : length (v ≫= le_bytes 4) = (length v * 4)%nat.
Proof.
  induction v as [|x v IH]; [done|]. cbn [mbind list_bind length] in *. rewrite length_app, IH, le_bytes_length. lia.
Qed.

Lemma field_value_encode_spec d v buf : wf_value d v → field_value_encode v buf = Ok (buf ++ value_bytes v).
Proof.
  intros Hv. unfold value_bytes. destruct v as [s| | | |v]; cbn [field_value_encode field_type value_tail wf_value] in *;
    rewrite <-?app_assoc; try done.
  - destruct Hv as [_ Hl]. rewrite encode_utf8_spec, (proj2 (Z.ltb_ge _ _)) by done. by rewrite <-app_assoc.
  - unfold encode_fixed_element_array. rewrite f32s_encode, <-app_assoc. done.
Qed.

Lemma i64_le_roundtrip v rest :
  in_i 64 v → as_signed 64 (from_le (take 8 (le_bytes 8 (wrap 64 v) ++ rest))) = v.
Proof.
  intros Hv. rewrite take_app_length' by (by rewrite le_bytes_length).
  rewrite (from_le_roundtrip 8) by (apply wrap_range; lia). exact (as_signed_mod v Hv).
Qed.

Lemma decode_value_spec vec v rest :
  (∀ x, v = FVector x → vec ((x ≫= le_bytes 4) ++ rest) = Ok (v, rest)) →
  wf_value (match v with FVector x => length x | _ => 0%nat end) v →
  decode_value vec (value_bytes v ++ rest) = Ok (v, rest).
Proof.
  intros Hvec Hv. unfold value_bytes, decode_value.
  destruct v as [s|v|v|b|v]; cbn [field_type field_type_byte value_tail app field_type_from_byte res_bind wf_value] in *.
  - rewrite decode_encode by done. done.
  - rewrite bool_decide_eq_false_2 by (rewrite length_app, le_bytes_length; lia).
    rewrite i64_le_roundtrip by done. rewrite drop_app_length' by by rewrite le_bytes_length. done.
  - rewrite bool_decide_eq_false_2 by (rewrite length_app, le_bytes_length; lia).
    rewrite take_app_length', drop_app_length' by by rewrite le_bytes_length. by rewrite (from_le_roundtrip 8).
  - by destruct b.
  - by apply Hvec.
Qed.

Lemma decode_with_dimensions_spec d v rest :
  wf_value d v → decode_with_dimensions d (value_bytes v ++ rest) = Ok (v, rest).
Proof.
  intros Hv. apply decode_value_spec; [|by destruct v as [| | | |v]; [..|destruct Hv]].
  intros x ->. destruct Hv as [Hl Hx]. cbn beta zeta. pose proof (f32s_length x) as Hlen.
  rewrite bool_decide_eq_false_2 by (rewrite length_app, Hlen, Hl; lia).
  rewrite take_app_length', drop_app_length' by (by rewrite Hlen, Hl).
  unfold decode_fixed_element_array. rewrite Hlen, Nat.Div0.mod_mul, Nat.div_mul by lia.
  rewrite bool_decide_eq_true_2 by done. cbn [negb].
  rewrite <-(app_nil_r (x ≫= _)), f32s_decode by done. done.
Qed.

(** a field of a stored vector: strings fit their length prefix, and the field
    named "vector" is a vector *)
Definition wf_field (dimensions : nat) (f : Field) : Prop :=
  wf_str (field_name f) ∧ wf_value dimensions (field_value f) ∧
  (field_name f = VECTOR_FIELD_NAME → field_type (field_value f) = TVector).

Definition field_bytes (f : Field) : bytes := enc_str (field_name f) ++ value_bytes (field_value f).

Lemma field_encode_spec d f buf : wf_field d f → field_encode f buf = Ok (buf ++ field_bytes f).
Proof.
  intros ([_ Hl] & Hv & _). unfold field_encode. rewrite encode_utf8_spec, (proj2 (Z.ltb_ge _ _)) by done.
  cbn [res_bind]. rewrite (field_value_encode_spec d) by done. by rewrite <-app_assoc.
Qed.

Lemma decode_field_spec dec d f rest :
  wf_field d f → dec (value_bytes (field_value f) ++ rest) = Ok (field_value f, rest) →
  decode_field dec (field_bytes f ++ rest) = Ok (f, rest).
Proof.
  intros (Hn & _ & Hvec) Hd. unfold decode_field, field_bytes. rewrite <-app_assoc, decode_encode by done.
  cbn [res_map_err res_bind]. rewrite Hd. cbn [res_bind]. case_bool_decide as Hb.
  - rewrite bool_decide_eq_true_2 by auto. by destruct f.
  - by destruct f.
Qed.

Lemma wf_value_novec d v : field_type v ≠ TVector → wf_value d v → wf_value 0 v.
Proof. by destruct v. Qed.

Lemma indexed_field_decode_spec d f rest :
  wf_field d f → field_type (field_value f) ≠ TVector → field_name f ≠ VECTOR_FIELD_NAME →
  decode_indexed_field (field_bytes f ++ rest) = Ok (f, rest).
Proof.
  intros Hf Ht Hn. unfold decode_indexed_field, field_decode.
  assert (Hd : field_value_decode (value_bytes (field_value f) ++ rest) = Ok (field_value f, rest)).
  { apply decode_value_spec; [intros x Hx; by rewrite Hx in Ht|]. destruct Hf as (_ & Hv & _).
    by destruct (field_value f). }
  rewrite (decode_field_spec _ d) by done.
  cbn [res_bind]. by rewrite bool_decide_eq_false_2.
Qed.

Inductive Value : Type :=
| VMeta (v : CollectionMetaValue)
| VDict (v : VectorId)
| VData (v : VectorDataValue)
| VIndex (v : VectorIndexDataValue)
| VInfo (v : CentroidInfoValue)
| VStats (num_vectors : Z)
| VDepth (depth : Z).

Definition value_encode (v : Value) : res Error bytes :=
  match v with
  | VMeta v => collection_meta_encode v
  | VDict v => Ok (id_dictionary_value_encode v)
  | VData v => vector_data_encode v
  | VIndex v => index_data_encode v
  | VInfo v => centroid_info_encode v
  | VStats n => Ok (centroid_stats_encode n)
  | VDepth d => Ok (centroids_encode d)
  end.

(** the decoder for the kind of value [v] *)
Definition value_decode_as (dimensions : nat) (v : Value) (buf : bytes) : res Error Value :=
  match v with
  | VMeta _ => let? v := collection_meta_decode buf in Ok (VMeta v)
  | VDict _ => let? v := id_dictionary_value_decode buf in Ok (VDict v)
  | VData _ => let? v := vector_data_decode dimensions buf in Ok (VData v)
  | VIndex _ => let? v := index_data_decode buf in Ok (VIndex v)
  | VInfo _ => let? v := centroid_info_decode buf in Ok (VInfo v)
  | VStats _ => let? n := centroid_stats_decode buf in Ok (VStats n)
  | VDepth _ => let? d := centroids_decode buf in Ok (VDepth d)
  end.

Definition wf_val (dimensions : nat) (v : Value) : Prop :=
  match v with
  | VMeta v => in_u 32 (cm_schema_version v) ∧ in_u 16 (cm_dimensions v) ∧ in_u 16 (cm_chunk_target v) ∧
      blen (cm_fields v) ≤ u_max 16 ∧ Forall (λ f, wf_str (fs_name f)) (cm_fields v)
  | VDict v => in_u 64 v
  | VData v => wf_str (vd_external_id v) ∧ blen (vd_fields v) ≤ u_max 16 ∧ Forall (wf_field dimensions) (vd_fields v)
  | VIndex v => blen (vi_postings v) ≤ u_max 16 ∧ blen (vi_indexed_fields v) ≤ u_max 16 ∧
      Forall (λ p, in_u 64 p ∧ is_centroid p = true) (vi_postings v) ∧
      Forall (λ f, wf_field dimensions f ∧ field_type (field_value f) ≠ TVector ∧ field_name f ≠ VECTOR_FIELD_NAME)
        (vi_indexed_fields v)
  | VInfo v => in_u 8 (ci_level v) ∧ blen (ci_vector v) ≤ u_max 16 ∧ Forall (in_u 32) (ci_vector v) ∧ in_u 64 (ci_parent v)
  | VStats n => in_i 32 n
  | VDepth d => in_u 8 d
  end.

(** an array with its count: written and read back *)
Lemma array_roundtrip {A} (enc : A → bytes → res Error bytes) dec (e : A → bytes) (items : list A) buf rest :
  blen items ≤ u_max 16 →
  (∀ x b, x ∈ items → enc x b = Ok (b ++ e x)) → (∀ x b, x ∈ items → dec (e x ++ b) = Ok (x, b)) →
  encode_array enc items buf = Ok (buf ++ le_bytes 2 (blen items) ++ (items ≫= e)) ∧
  decode_array dec (le_bytes 2 (blen items) ++ (items ≫= e) ++ rest) = Ok (items, rest).
Proof.
  intros Hl He Hd. pose proof (blen_u16 _ Hl) as Hu. split.
  - unfold encode_array. rewrite (proj2 (Z.ltb_ge _ _)) by done. rewrite (encode_items_spec _ e) by done.
    rewrite wrap_small by done. by rewrite <-app_assoc.
  - unfold decode_array. rewrite bool_decide_eq_false_2 by (rewrite length_app, le_bytes_length; lia).
    rewrite take_app_length', drop_app_length' by by rewrite le_bytes_length.
    rewrite (from_le_roundtrip 2) by done. replace (Z.to_nat (blen items)) with (length items) by (unfold blen; lia).
    by apply decode_items_spec.
Qed.

Definition spec_bytes (f : MetadataFieldSpec) : bytes :=
  enc_str (fs_name f) ++ [field_type_byte (fs_type f); bool_byte (fs_indexed f)].

Lemma field_spec_codec f buf :
  wf_str (fs_name f) → field_spec_encode f buf = Ok (buf ++ spec_bytes f) ∧ field_spec_decode (spec_bytes f ++ buf) = Ok (f, buf).
Proof.
  intros Hn. pose proof Hn as [_ Hl]. unfold field_spec_encode, field_spec_decode, spec_bytes. split.
  - rewrite encode_utf8_spec, (proj2 (Z.ltb_ge _ _)) by done. cbn [res_bind]. by rewrite <-!app_assoc.
  - rewrite <-app_assoc, decode_encode by done. cbn [res_map_err res_bind app]. by destruct f as [n [] []].
Qed.

Lemma collection_meta_roundtrip d v : wf_val d (VMeta v) →
  ∃ enc, collection_meta_encode v = Ok enc ∧ collection_meta_decode enc = Ok v.
Proof.
  intros (H1 & H2 & H3 & Hl & Hf). rewrite Forall_forall in Hf.
  destruct (array_roundtrip field_spec_encode field_spec_decode spec_bytes (cm_fields v)
    (((le_bytes 4 (cm_schema_version v) ++ le_bytes 2 (cm_dimensions v)) ++ [metric_byte (cm_distance_metric v)])
       ++ le_bytes 2 (cm_chunk_target v)) [] Hl) as [He Hd].
  { intros x b Hx. by apply field_spec_codec, Hf. } { intros x b Hx. by apply field_spec_codec, Hf. }
  rewrite app_nil_r in Hd. eexists. split; [exact He|]. unfold collection_meta_decode.
  set (tl := le_bytes 2 (blen (cm_fields v)) ++ (cm_fields v ≫= spec_bytes)) in *.
  rewrite bool_decide_eq_false_2 by (rewrite !length_app, !le_bytes_length; simpl; lia).
  replace (drop 9 _) with tl by (rewrite drop_app_length'; [done|rewrite !length_app, !le_bytes_length; done]).
  rewrite <-!app_assoc. rewrite take_app_length', drop_app_length' by by rewrite le_bytes_length.
  rewrite take_app_length' by by rewrite le_bytes_length.
  rewrite lookup_app_r by (rewrite le_bytes_length; lia). rewrite le_bytes_length.
  rewrite lookup_app_r by (rewrite le_bytes_length; lia). rewrite le_bytes_length. cbn [Nat.sub app lookup list_lookup expect res_bind].
  assert (Hm : metric_from_byte (metric_byte (cm_distance_metric v)) = Ok (cm_distance_metric v)) by (by destruct (cm_distance_metric v)).
  rewrite Hm. cbn [res_bind].
  assert (Hdr : drop 7 (le_bytes 4 (cm_schema_version v) ++ le_bytes 2 (cm_dimensions v) ++
      metric_byte (cm_distance_metric v) :: le_bytes 2 (cm_chunk_target v) ++ tl) = le_bytes 2 (cm_chunk_target v) ++ tl).
  { change 7%nat with (4 + 3)%nat. rewrite <-drop_drop, drop_app_length' by by rewrite le_bytes_length.
    change 3%nat with (2 + 1)%nat. rewrite <-drop_drop, drop_app_length' by by rewrite le_bytes_length. done. }
  rewrite Hdr, take_app_length' by by rewrite le_bytes_length. rewrite Hd. cbn [res_bind].
  rewrite (from_le_roundtrip 4), !(from_le_roundtrip 2) by done. by destruct v.
Qed.

Lemma vector_data_roundtrip d v : wf_val d (VData v) →
  ∃ enc, vector_data_encode v = Ok enc ∧ vector_data_decode d enc = Ok v.
Proof.
  intros (Hs & Hl & Hf). rewrite Forall_forall in Hf. pose proof Hs as [_ Hsl].
  destruct (array_roundtrip field_encode (field_decode_with_dimensions d) field_bytes (vd_fields v)
    (enc_str (vd_external_id v)) [] Hl) as [He Hd].
  { intros x b Hx. by apply (field_encode_spec d), Hf. }
  { intros x b Hx. apply (decode_field_spec _ d); [by apply Hf|]. apply decode_with_dimensions_spec, Hf, Hx. }
  rewrite app_nil_r in Hd. unfold encode_array in He. unfold decode_array in Hd.
  eexists. split.
  - unfold vector_data_encode. rewrite encode_utf8_spec, (proj2 (Z.ltb_ge _ _)) by done. cbn [res_bind app]. exact He.
  - unfold vector_data_decode. rewrite decode_encode by done. cbn [res_map_err res_bind].
    case_bool_decide; [done|]. rewrite Hd. by destruct v.
Qed.

Lemma vids_encode ps buf : foldl (λ buf p, vid_encode p buf) buf ps = buf ++ (ps ≫= be_bytes 8).
Proof.
  revert buf. induction ps as [|p ps IH]; intros buf; cbn [foldl mbind list_bind] in *; [by rewrite app_nil_r|].
  rewrite IH. unfold vid_encode. by rewrite <-app_assoc.
Qed.

Lemma index_data_roundtrip d v : wf_val d (VIndex v) →
  ∃ enc, index_data_encode v = Ok enc ∧ index_data_decode enc = Ok v.
Proof.
  intros (Hl & Hl' & Hp & Hf). rewrite Forall_forall in Hp. rewrite Forall_forall in Hf.
  pose proof (blen_u16 _ Hl) as Hu. pose proof (blen_u16 _ Hl') as Hu'.
  assert (Hpd : ∀ x b, x ∈ vi_postings v → decode_posting (be_bytes 8 x ++ b) = Ok (x, b)).
  { intros x b [Hin Hc]%Hp. unfold decode_posting. rewrite (decode_encode (dec:=vid_decode) x) by done.
    cbn [res_bind]. by rewrite Hc. }
  destruct (array_roundtrip field_encode decode_indexed_field field_bytes (vi_indexed_fields v)
    (le_bytes 2 (blen (vi_postings v)) ++ (vi_postings v ≫= be_bytes 8)) [] Hl') as [He Hd].
  { intros x b Hx. apply (field_encode_spec d). by destruct (Hf x Hx) as (? & _). }
  { intros x b Hx. destruct (Hf x Hx) as (? & ? & ?). by apply (indexed_field_decode_spec d). }
  rewrite app_nil_r in Hd. unfold encode_array in He. unfold decode_array in Hd.
  eexists. split.
  - unfold index_data_encode. rewrite !(proj2 (Z.ltb_ge _ _)) by done. rewrite vids_encode.
    rewrite (proj2 (Z.ltb_ge _ _)), wrap_small in He by done. exact He.
  - unfold index_data_decode. rewrite bool_decide_eq_false_2 by (rewrite !length_app, le_bytes_length; lia).
    rewrite <-app_assoc, take_app_length', drop_app_length' by by rewrite le_bytes_length.
    rewrite (from_le_roundtrip 2) by done. replace (Z.to_nat (blen (vi_postings v))) with (length (vi_postings v)) by (unfold blen; lia).
    rewrite (decode_items_spec _ (be_bytes 8)) by done. cbn [res_bind]. case_bool_decide; [done|].
    rewrite Hd. by destruct v.
Qed.

Lemma centroid_info_roundtrip d v : wf_val d (VInfo v) →
  ∃ enc, centroid_info_encode v = Ok enc ∧ centroid_info_decode enc = Ok v.
Proof.
  intros (H1 & Hl & Hv & Hp). rewrite Forall_forall in Hv.
  destruct (array_roundtrip f32_encode f32_decode (le_bytes 4) (ci_vector v) [to_u8 (ci_level v)]
    (be_bytes 8 (ci_parent v)) Hl) as [He Hd]; [done| |].
  { intros x b Hx. by apply (le_decode_spec 4), Hv. }
  eexists. split.
  - unfold centroid_info_encode. rewrite He. done.
  - unfold centroid_info_decode, vid_encode. cbn [app]. rewrite <-app_assoc, Hd. cbn [res_bind].
    rewrite <-(app_nil_r (be_bytes 8 _)), (decode_encode (dec:=vid_decode)) by done. cbn [res_bind].
    rewrite u8_to_u8, Z.mod_small by (unfold in_u in H1; lia). by destruct v.
Qed.

Lemma as_signed_wrap32 n : in_i 32 n → as_signed 32 (wrap 32 n) = n.
Proof.
  unfold in_i, as_signed, wrap. change (32 - 1) with 31. intros Hz. rewrite Z.mod_mod by lia. case_bool_decide as Hb.
  - destruct (decide (0 ≤ n)); [by rewrite Z.mod_small in * by lia|].
    rewrite <-(Z.mod_add _ 1), Z.mod_small in Hb by lia. lia.
  - destruct (decide (0 ≤ n)); [rewrite Z.mod_small in Hb by lia; lia|].
    rewrite <-(Z.mod_add _ 1), Z.mod_small by lia. lia.
Qed.

Lemma centroid_stats_codec n rest : in_i 32 n → centroid_stats_decode (centroid_stats_encode n ++ rest) = Ok n.
Proof.
  intros Hn. unfold centroid_stats_decode, centroid_stats_encode.
  rewrite bool_decide_eq_false_2 by (rewrite length_app, le_bytes_length; lia).
  rewrite take_app_length' by by rewrite le_bytes_length.
  rewrite (from_le_roundtrip 4) by (apply wrap_range; lia). by rewrite as_signed_wrap32.
Qed.

(** Every value record that fits its length prefixes is written without a panic
    and reads back unchanged: collection schema, dictionary entry, vector with its
    fields (given the collection's dimensions), index assignments, centroid, centroid
    count and tree depth. *)
Theorem vec_values_roundtrip dimensions v :
  wf_val dimensions v → ∃ enc, value_encode v = Ok enc ∧ value_decode_as dimensions v enc = Ok v.
Proof.
  intros Hv. destruct v as [v|v|v|v|v|n|n]; cbn [value_encode value_decode_as].
  - destruct (collection_meta_roundtrip _ _ Hv) as (enc & He & Hd). exists enc. by rewrite Hd.
  - exists (be_bytes 8 v). split; [done|]. unfold id_dictionary_value_decode.
    rewrite bool_decide_eq_false_2 by (rewrite be_bytes_length; lia).
    by rewrite <-(app_nil_r (be_bytes 8 v)), (decode_encode (dec:=vid_decode)).
  - destruct (vector_data_roundtrip _ _ Hv) as (enc & He & Hd). exists enc. by rewrite Hd.
  - destruct (index_data_roundtrip _ _ Hv) as (enc & He & Hd). exists enc. by rewrite Hd.
  - destruct (centroid_info_roundtrip _ _ Hv) as (enc & He & Hd). exists enc. by rewrite Hd.
  - eexists. split; [done|]. by rewrite <-(app_nil_r (centroid_stats_encode n)), centroid_stats_codec.
  - eexists. split; [done|]. cbn [centroids_decode centroids_encode res_bind].
    cbn [wf_val] in Hv. by rewrite u8_to_u8, Z.mod_small by (unfold in_u in Hv; lia).
Qed.

Lemma vec_values_roundtrip_witness :
  let v := vector_data_new [x69] [mkField VECTOR_FIELD_NAME (FVector [0x3f800000; 0]); mkField [x61] (FInt64 (-1))] in
  ∃ enc, vector_data_encode v = Ok enc ∧ vector_data_decode 2 enc = Ok v ∧
    vector_field v = Ok [0x3f800000; 0].
Proof.
  set (v := vector_data_new _ _).
  destruct (vec_values_roundtrip 2 (VData v)) as (enc & He & Hd).
  { unfold wf_val. split; [by split|]. split; [by vm_compute|].
    repeat constructor; unfold wf_value, in_u, in_i; simpl; try done; try lia; by intros [=]. }
  exists enc. split; [exact He|]. split; [|reflexivity].
  cbn [value_decode_as] in Hd. destruct (vector_data_decode 2 enc) as [w| |]; try done. by injection Hd as ->.
Defined.
End Vec.
