(* ===== verification/VecPosting.v ===== *)
(** * vector: posting lists

    [serde/posting_list.rs]: updates of a centroid's posting list, their
    encoding, and the merge of the versions of a list over raw byte cursors with a
    binary heap ([Heap.v]); the loops run on fuel, and [posting_loops_terminate] shows that the fuel
    given is enough on every input.  The reference meaning is [latest]: the newest
    update of every id. *)
From stdpp Require Import gmap.
From S2P Require Import Prelude HashMap Heap Codec SortBy Encoding Storage KvStore VecSerde.
#[local] Open Scope Z_scope.

Module VecPosting.
Import Vec.

Definition POSTING_UPDATE_TYPE_APPEND_BYTE : byte := x00.
Definition POSTING_UPDATE_TYPE_DELETE_BYTE : byte := x01.

Inductive PostingUpdate : Type :=
| PAppend (id : VectorId) (vector : list Z)
| PDelete (id : VectorId).

#[global] Instance PostingUpdate_eq_dec : EqDecision PostingUpdate.
Proof. solve_decision. Defined.

Definition uid (u : PostingUpdate) : VectorId := match u with PAppend id _ => id | PDelete id => id end.

Definition update_encode (u : PostingUpdate) (buf : bytes) : bytes :=
  match u with
  | PAppend id vector =>
      foldl (λ buf val, buf ++ le_bytes 4 val) (vid_encode id (buf ++ [POSTING_UPDATE_TYPE_APPEND_BYTE])) vector
  | PDelete id => vid_encode id (buf ++ [POSTING_UPDATE_TYPE_DELETE_BYTE])
  end.

Definition update_decode (dimensions : nat) (buf : bytes) : res Error (PostingUpdate * bytes) :=
  let min_size := (1 + 8)%nat in
  if bool_decide (length buf < min_size)%nat then Err (PostingTooShort (Z.of_nat min_size) (blen buf))
  else
    match buf with
    | [] => Panic
    | posting_type :: buf =>
        let? (id, buf) := vid_decode buf in
        if bool_decide (posting_type = POSTING_UPDATE_TYPE_APPEND_BYTE) then
          let vector_size := (dimensions * 4)%nat in
          if bool_decide (length buf < vector_size)%nat
          then Err (PostingTooShort (Z.of_nat vector_size) (blen buf))
          else let? (vector, buf) := decode_items f32_decode dimensions buf in Ok (PAppend id vector, buf)
        else if bool_decide (posting_type = POSTING_UPDATE_TYPE_DELETE_BYTE) then Ok (PDelete id, buf)
        else Err (InvalidPostingType posting_type)
    end.

Definition encoded_size (u : PostingUpdate) : nat :=
  match u with PAppend _ vector => 1 + 8 + length vector * 4 | PDelete _ => 1 + 8 end.

(** ** PostingListValue *)
Definition by_id (a b : PostingUpdate) : bool := uid a <=? uid b.

Section hash.
Context {HO : HashOrder}.

(** the index of the last update of every id, then those updates, sorted *)
Definition last_by_id (updates : list PostingUpdate) : gmap Z nat :=
  foldl (λ m e, <[uid e.2 := e.1]> m) ∅ (imap pair updates).

Definition from_posting_updates (updates : list PostingUpdate) : list PostingUpdate :=
  sort_by by_id (omap (λ idx, updates !! idx) (hash_values (last_by_id updates))).

Definition postings_encode (postings : list PostingUpdate) : bytes :=
  foldl (λ buf p, update_encode p buf) [] postings.

(** [while buf.has_remaining()]; every update read takes at least a byte *)
Fixpoint decode_updates (fuel : nat) (dimensions : nat) (buf : bytes) : res Error (list PostingUpdate) :=
  match buf, fuel with
  | [], _ => Ok []
  | _, O => Panic
  | _, S fuel =>
      let? (p, buf) := update_decode dimensions buf in
      let? ps := decode_updates fuel dimensions buf in
      Ok (p :: ps)
  end.

Definition postings_decode (dimensions : nat) (buf : bytes) : res Error (list PostingUpdate) :=
  if bool_decide (buf = []) then Ok []
  else let? ps := decode_updates (length buf) dimensions buf in Ok (from_posting_updates ps).
End hash.

(** ** The merge *)
Record Cursor : Type := mkCursor { cur_buf : bytes; cur_priority : Z }.
Record HeapEntry : Type := mkEntry { he_id : VectorId; he_priority : Z; he_cursor : nat; he_size : nat }.

(** [Ord for HeapEntry] *)
Definition entry_cmp (self other : HeapEntry) : comparison :=
  cmp_then (he_id other ?= he_id self) (he_priority self ?= he_priority other).

(** [BinaryHeap::pop] of the entries *)
Definition heap_pop : list HeapEntry → option (HeapEntry * list HeapEntry) := heap_pop_by entry_cmp.

Section merge.
Context (append_size delete_size : nat).

Definition peek_entry (buf : bytes) : res Error (option (VectorId * nat)) :=
  match buf with
  | [] => Ok None
  | entry_type :: id_buf =>
      let? _ := rust_assert (bool_decide (delete_size ≤ length buf)%nat) in
      match vid_decode id_buf with
      | Ok (id, _) =>
          Ok (Some (id, if bool_decide (entry_type = POSTING_UPDATE_TYPE_APPEND_BYTE) then append_size else delete_size))
      | _ => Panic
      end
  end.

(** push the entry at the head of a cursor, if there is one *)
Definition push_head (idx : nat) (c : Cursor) (heap : list HeapEntry) : res Error (list HeapEntry) :=
  let? head := peek_entry (cur_buf c) in
  Ok (match head with
      | Some (id, size) => mkEntry id (cur_priority c) idx size :: heap
      | None => heap
      end).

Fixpoint seed (idx : nat) (cursors : list Cursor) (heap : list HeapEntry) : res Error (list HeapEntry) :=
  match cursors with
  | [] => Ok heap
  | c :: cursors => let? heap := push_head idx c heap in seed (S idx) cursors heap
  end.

(** [cursor.buf.advance(size)] and the push of what follows; past the end it panics *)
Definition advance_cursor (e : HeapEntry) (cursors : list Cursor) (heap : list HeapEntry) :
    res Error (list Cursor * list HeapEntry) :=
  let? c := expect (cursors !! he_cursor e) in
  let? _ := rust_assert (bool_decide (he_size e ≤ length (cur_buf c))%nat) in
  let c := mkCursor (drop (he_size e) (cur_buf c)) (cur_priority c) in
  let? heap := push_head (he_cursor e) c heap in
  Ok (<[he_cursor e := c]> cursors, heap).

(** [while heap.peek().is_some_and(|e| e.id == id)]; [None] when the fuel is used up *)
Fixpoint skip_losers (fuel : nat) (id : VectorId) (cursors : list Cursor) (heap : list HeapEntry) :
    option (res Error (list Cursor * list HeapEntry)) :=
  match fuel with
  | O => None
  | S fuel =>
      match heap_pop heap with
      | None => Some (Ok (cursors, heap))
      | Some (loser, rest) =>
          if he_id loser =? id then
            match advance_cursor loser cursors rest with
            | Ok (cursors, heap) => skip_losers fuel id cursors heap
            | Err e => Some (Err e)
            | Panic => Some Panic
            end
          else Some (Ok (cursors, heap))
      end
  end.

(** [while let Some(winner) = heap.pop()] *)
Fixpoint merge_loop (limit fuel : nat) (cursors : list Cursor) (heap : list HeapEntry) (result : bytes) :
    option (res Error bytes) :=
  match fuel with
  | O => None
  | S fuel =>
      match heap_pop heap with
      | None => Some (Ok result)
      | Some (winner, heap) =>
          match
            let? c := expect (cursors !! he_cursor winner) in
            let? bytes := slice (cur_buf c) 0 (he_size winner) in
            let? st := advance_cursor winner cursors heap in
            Ok (bytes, st)
          with
          | Ok (bytes, (cursors, heap)) =>
              match skip_losers limit (he_id winner) cursors heap with
              | Some (Ok (cursors, heap)) => merge_loop limit fuel cursors heap (result ++ bytes)
              | Some (Err e) => Some (Err e)
              | Some Panic => Some Panic
              | None => None
              end
          | Err e => Some (Err e)
          | Panic => Some Panic
          end
      end
  end.
End merge.

Definition cursors_of (existing : option bytes) (operands : list bytes) : list Cursor :=
  (match existing with
   | Some ex => if bool_decide (ex = []) then [] else [mkCursor ex 0]
   | None => []
   end) ++
  omap (λ x : nat * bytes, if bool_decide (x.2 = []) then None else Some (mkCursor x.2 (Z.of_nat (x.1 + 1))))
    (imap pair operands).

Definition total_size (cursors : list Cursor) : nat := sum_list ((λ c, length (cur_buf c)) <$> cursors).

(** the merge of two or more sources *)
Definition merge_cursors (dimensions : nat) (cursors : list Cursor) : option (res Error bytes) :=
  let append_size := (1 + 8 + dimensions * 4)%nat in
  let delete_size := (1 + 8)%nat in
  match seed append_size delete_size 0 cursors [] with
  | Ok heap =>
      let fuel := S (total_size cursors) in
      merge_loop append_size delete_size fuel fuel cursors heap []
  | Err e => Some (Err e)
  | Panic => Some Panic
  end.

Definition merge_batch_posting_list (existing : option bytes) (operands : list bytes) (dimensions : nat) :
    res Error bytes :=
  match operands, existing with
  | [], _ => Ok (default [] existing)
  | [op], None => Ok op
  | _, _ =>
      let cursors := cursors_of existing operands in
      if bool_decide (cursors = []) then Ok []
      else match merge_cursors dimensions cursors with Some r => r | None => Panic end
  end.

(** ** The heap *)
Lemma entry_cmp_le a b :
  entry_cmp a b ≠ Gt ↔ he_id b < he_id a ∨ he_id b = he_id a ∧ he_priority a ≤ he_priority b.
Proof.
  unfold entry_cmp. destruct (Z.compare_spec (he_id b) (he_id a)); simpl;
    [destruct (Z.compare_spec (he_priority a) (he_priority b))|..]; (split; [intros; try lia|intros; try done; lia]); done.
Qed.

Lemma entry_cmp_antisym a b : entry_cmp b a = CompOpp (entry_cmp a b).
Proof.
  unfold entry_cmp. rewrite (Z.compare_antisym (he_id b)), (Z.compare_antisym (he_priority a)).
  by destruct (he_id b ?= he_id a).
Qed.

Lemma heap_pop_spec heap :
  match heap_pop heap with
  | None => heap = []
  | Some (m, rest) => heap ≡ₚ m :: rest ∧ Forall (λ e, entry_cmp e m ≠ Gt) rest
  end.
Proof.
  pose proof (heap_pop_perm entry_cmp heap) as Hp. unfold heap_pop.
  destruct (heap_pop_by entry_cmp heap) as [[m rest]|] eqn:E; [|done]. split; [done|].
  apply (heap_pop_max entry_cmp (λ _, True)) in E; [done|..].
  - intros. apply entry_cmp_antisym.
  - intros a b c _ _ _. rewrite !entry_cmp_le. lia.
  - by apply Forall_true.
Qed.

(** ** Termination *)
Lemma total_size_insert i c c' cursors :
  cursors !! i = Some c → (total_size (<[i := c']> cursors) + length (cur_buf c) = total_size cursors + length (cur_buf c'))%nat.
Proof.
  unfold total_size. revert i. induction cursors as [|d cursors IH]; intros [|i] H; try done.
  - injection H as ->. change (<[0%nat := c']> (c :: cursors)) with (c' :: cursors). rewrite !fmap_cons. cbn [sum_list_with sum_list foldr Datatypes.id]. lia.
  - specialize (IH i H). change (<[S i := c']> (d :: cursors)) with (d :: <[i := c']> cursors). rewrite !fmap_cons. cbn. lia.
Qed.

Section terminates.
Context (append_size delete_size : nat) (Ha : (1 ≤ append_size)%nat) (Hd : (1 ≤ delete_size)%nat).

Definition sized (heap : list HeapEntry) : Prop := Forall (λ e, 1 ≤ he_size e)%nat heap.

Lemma push_head_sized idx c heap heap' :
  push_head append_size delete_size idx c heap = Ok heap' → sized heap → sized heap'.
Proof.
  unfold push_head, peek_entry. intros H Hs. inv_ok; subst; try done.
  constructor; [|done]. cbn [he_size]. by destruct (bool_decide (b = _)).
Qed.

Lemma advance_cursor_size e cursors heap cursors' heap' :
  advance_cursor append_size delete_size e cursors heap = Ok (cursors', heap') → sized heap →
  (total_size cursors' + he_size e = total_size cursors)%nat ∧ sized heap'.
Proof.
  unfold advance_cursor, rust_assert. intros H Hs. inv_ok. reflect. subst.
  split; [|by eapply push_head_sized].
  match goal with H : cursors !! _ = Some ?c |- context [<[_ := ?c']> _] => pose proof (total_size_insert _ _ c' _ H) as Ht end.
  cbn [cur_buf] in Ht. rewrite length_drop in Ht. lia.
Qed.

Lemma sized_perm heap m rest : heap ≡ₚ m :: rest → sized heap → (1 ≤ he_size m)%nat ∧ sized rest.
Proof. unfold sized. intros ->. by rewrite Forall_cons. Qed.

Lemma skip_losers_returns fuel id cursors heap :
  (total_size cursors < fuel)%nat → sized heap →
  ∃ r, skip_losers append_size delete_size fuel id cursors heap = Some r ∧
    ∀ cursors' heap', r = Ok (cursors', heap') → (total_size cursors' ≤ total_size cursors)%nat ∧ sized heap'.
Proof.
  revert cursors heap. induction fuel as [|fuel IH]; intros cursors heap Hf Hs; [lia|]. cbn [skip_losers].
  pose proof (heap_pop_spec heap) as Hp. destruct (heap_pop heap) as [[loser rest]|]; [|naive_solver lia].
  destruct Hp as [Hp _]. destruct (sized_perm _ _ _ Hp Hs) as [Hl Hr].
  destruct (_ =? _); [|naive_solver lia].
  destruct (advance_cursor _ _ loser cursors rest) as [[cs' heap']| |] eqn:E; [|naive_solver..].
  destruct (advance_cursor_size _ _ _ _ _ E Hr) as [Ht Hs'].
  destruct (IH cs' heap' ltac:(lia) Hs') as (r & Hr1 & Hr2). exists r. split; [done|].
  intros c h He. destruct (Hr2 c h He). split; [lia|done].
Qed.

Lemma merge_loop_returns limit fuel cursors heap result :
  (total_size cursors < fuel)%nat → (total_size cursors < limit)%nat → sized heap →
  is_Some (merge_loop append_size delete_size limit fuel cursors heap result).
Proof.
  revert cursors heap result. induction fuel as [|fuel IH]; intros cursors heap result Hf Hl Hs; [lia|].
  cbn [merge_loop]. pose proof (heap_pop_spec heap) as Hp. destruct (heap_pop heap) as [[w rest]|]; [|done].
  destruct Hp as [Hp _]. destruct (sized_perm _ _ _ Hp Hs) as [Hw Hr].
  destruct (expect (cursors !! he_cursor w)) as [c| |]; try done. cbn [res_bind].
  destruct (slice _ _ _) as [b| |]; try done. cbn [res_bind].
  destruct (advance_cursor _ _ w cursors rest) as [[cs' heap']| |] eqn:E; try done. cbn [res_bind].
  destruct (advance_cursor_size _ _ _ _ _ E Hr) as [Ht Hs'].
  destruct (skip_losers_returns limit (he_id w) cs' heap' ltac:(lia) Hs') as (r & -> & Hr2).
  destruct r as [[cs'' heap'']| |]; try done. destruct (Hr2 cs'' heap'' eq_refl) as [Ht' Hs''].
  apply IH; try done; lia.
Qed.

Lemma seed_sized idx cursors heap heap' :
  seed append_size delete_size idx cursors heap = Ok heap' → sized heap → sized heap'.
Proof.
  revert idx heap. induction cursors as [|c cursors IH]; intros idx heap H Hs; cbn [seed] in H; [by injection H as <-|].
  inv_ok. eapply IH; [done|]. by eapply push_head_sized.
Qed.
End terminates.

Lemma merge_cursors_returns dimensions cursors : is_Some (merge_cursors dimensions cursors).
Proof.
  unfold merge_cursors. destruct (seed _ _ 0 cursors []) as [heap| |] eqn:E; try done.
  apply merge_loop_returns; try lia. eapply seed_sized; [..|exact E|constructor]; lia.
Qed.

(** ** The reference meaning: the newest update of every id *)
Definition latest (updates : list PostingUpdate) : gmap Z PostingUpdate :=
  foldl (λ m u, <[uid u := u]> m) ∅ updates.

Definition id_lt (a b : PostingUpdate) : Prop := uid a < uid b.
#[global] Instance id_lt_trans : Transitive id_lt.
Proof. intros a b c. unfold id_lt. lia. Qed.
#[global] Instance id_lt_irrefl : Irreflexive id_lt.
Proof. intros a. unfold Irreflexive, complement, id_lt. lia. Qed.

Lemma latest_last updates k : latest updates !! k = last (filter (λ u, uid u = k) updates).
Proof.
  unfold latest. induction updates as [|u l IH] using rev_ind; [done|].
  rewrite foldl_app, filter_app. cbn [foldl]. destruct (decide (uid u = k)) as [<-|Hne].
  - rewrite lookup_insert_eq, filter_cons_True by done. cbn. by rewrite last_snoc.
  - rewrite lookup_insert_ne, filter_cons_False by done. rewrite filter_nil, app_nil_r. exact IH.
Qed.

Lemma latest_id updates k u : latest updates !! k = Some u → uid u = k ∧ u ∈ updates.
Proof.
  rewrite latest_last. intros H. apply last_Some in H as [l H].
  assert (Hin : u ∈ filter (λ u, uid u = k) updates) by (rewrite H; set_solver).
  by apply list_elem_of_filter in Hin.
Qed.

(** [l] is the posting list of these updates: sorted, the newest update per id *)
Definition IsLatest (updates l : list PostingUpdate) : Prop :=
  StronglySorted id_lt l ∧ ∀ u, u ∈ l ↔ latest updates !! uid u = Some u.

Lemma is_latest_unique us us' l l' :
  (∀ k, latest us !! k = latest us' !! k) → IsLatest us l → IsLatest us' l' → l = l'.
Proof.
  intros He [H1 H2] [H1' H2']. apply (sorted_ext id_lt); [done..|]. intros u. by rewrite H2, H2', He.
Qed.

Lemma is_latest_self l : StronglySorted id_lt l → IsLatest l l.
Proof.
  intros Hs. split; [done|]. intros u. split; [|by intros [_ H]%latest_id].
  intros Hu. rewrite latest_last.
  assert (Hf : filter (λ v, uid v = uid u) l = [u]); [|by rewrite Hf].
  apply (sorted_ext id_lt); [by apply sorted_filter|repeat constructor|]. intros v.
  rewrite list_elem_of_filter, list_elem_of_singleton. split; [|by intros ->]. intros [He Hv].
  destruct (sorted_total id_lt l u v Hs Hu Hv) as [? |[? |?]]; unfold id_lt in *; [done|lia..].
Qed.

(** the newest updates of a batch and of what it is merged into *)
Lemma latest_app us vs k : latest (us ++ vs) !! k = match latest vs !! k with Some u => Some u | None => latest us !! k end.
Proof. by rewrite !latest_last, filter_app, last_app. Qed.

Lemma latest_is_latest us l k : IsLatest us l → latest l !! k = latest us !! k.
Proof.
  intros [Hs Hl]. pose proof (is_latest_self l Hs) as [_ Hself]. apply option_eq. intros u. split.
  - intros Hk. pose proof (latest_id _ _ _ Hk) as [<- Hin]. by apply Hl.
  - intros Hk. pose proof (latest_id _ _ _ Hk) as [<- _]. by apply Hself, Hl.
Qed.

Lemma last_by_id_spec updates k :
  last_by_id updates !! k = fst <$> last (filter (λ e : nat * PostingUpdate, uid e.2 = k) (imap pair updates)).
Proof.
  unfold last_by_id. induction (imap pair updates) as [|e l IH] using rev_ind; [done|].
  rewrite foldl_app, filter_app. cbn [foldl]. destruct (decide (uid e.2 = k)) as [<-|Hne].
  - rewrite lookup_insert_eq, filter_cons_True by done. cbn. by rewrite last_snoc.
  - rewrite lookup_insert_ne, filter_cons_False by done. rewrite filter_nil, app_nil_r. exact IH.
Qed.

Lemma last_by_id_mem updates k i :
  last_by_id updates !! k = Some i → ∃ u, updates !! i = Some u ∧ latest updates !! k = Some u.
Proof.
  rewrite last_by_id_spec, latest_last. set (l := filter _ _). intros H.
  assert (Hs : filter (λ u, uid u = k) updates = snd <$> l).
  { etrans; [|exact (filter_fmap snd (λ u, uid u = k) (imap pair updates))]. f_equal. apply list_eq. intros j.
    rewrite list_lookup_fmap, list_lookup_imap. by destruct (updates !! j). }
  rewrite Hs, fmap_last. destruct (last l) as [[j u]|] eqn:E; [|done]. cbn in H. injection H as ->.
  exists u. split; [|done]. apply last_Some in E as [l' E].
  assert (Hin : (i, u) ∈ l) by (rewrite E; set_solver). apply list_elem_of_filter in Hin as [_ Hin].
  apply list_elem_of_lookup in Hin as [j' Hj]. rewrite list_lookup_imap in Hj.
  destruct (updates !! j') eqn:Ej; [|done]. cbn in Hj. by injection Hj as -> ->.
Qed.

Lemma last_by_id_some updates k u :
  latest updates !! k = Some u → ∃ i, last_by_id updates !! k = Some i ∧ updates !! i = Some u.
Proof.
  intros H. destruct (last_by_id updates !! k) as [i|] eqn:E.
  - destruct (last_by_id_mem _ _ _ E) as (u' & Hi & Hl). exists i. split; [done|]. congruence.
  - exfalso. rewrite last_by_id_spec in E. apply latest_id in H as [<- [i Hi]%list_elem_of_lookup].
    destruct (last _) eqn:El; [done|]. apply last_None in El.
    apply (not_elem_of_nil (A:=nat * PostingUpdate) (i, u)). rewrite <-El. apply list_elem_of_filter. split; [done|].
    apply list_elem_of_lookup. exists i. by rewrite list_lookup_imap, Hi.
Qed.

Lemma by_id_sorted l : NoDup (uid <$> l) → StronglySorted id_lt (sort_by by_id l).
Proof.
  intros Hn. assert (Hs : StronglySorted (λ a b, by_id a b = true) (sort_by by_id l)).
  { apply sort_by_sorted; unfold by_id; intros *; rewrite ?Z.leb_gt, ?Z.leb_le; lia. }
  assert (Hn' : NoDup (uid <$> sort_by by_id l)) by (by rewrite sort_by_perm).
  induction Hs as [|a s Hs IH Ha]; [constructor|]. rewrite fmap_cons in Hn'. apply NoDup_cons in Hn' as [Hna Hn'].
  constructor; [by apply IH|]. rewrite Forall_forall in Ha |- *. intros b Hb. specialize (Ha b Hb).
  apply Z.leb_le in Ha. unfold id_lt.
  destruct (decide (uid a = uid b)) as [He|]; [|lia]. exfalso. apply Hna. rewrite He. by apply list_elem_of_fmap_2.
Qed.

Section dedup.
Context {HO : HashOrder} {HOL : HashOrderLaws}.

(** [from_posting_updates] keeps the newest update of every id, in the order of ids *)
Lemma from_posting_updates_spec updates : IsLatest updates (from_posting_updates updates).
Proof.
  unfold from_posting_updates, hash_values. set (m := last_by_id updates).
  assert (Hm : ∀ k i, m !! k = Some i → ∃ u, updates !! i = Some u ∧ uid u = k ∧ latest updates !! k = Some u).
  { intros k i Hk. destruct (last_by_id_mem _ _ _ Hk) as (u & Hu & Hl). exists u. by destruct (latest_id _ _ _ Hl). }
  split.
  - apply by_id_sorted. eapply (sublist_NoDup _ (fst <$> hash_iter m)); [apply hash_iter_nodup|].
    assert (Hi : ∀ k i, (k, i) ∈ hash_iter m → m !! k = Some i) by (intros; by apply elem_of_hash_iter).
    induction (hash_iter m) as [|[k i] l IH]; [done|]. rewrite !fmap_cons. cbn [snd fst omap list_omap].
    change (list_omap ?f ?l) with (omap f l). destruct (Hm k i) as (u & -> & Hid & _); [apply Hi; left|].
    rewrite fmap_cons, Hid. apply sublist_skip. apply IH. intros; apply Hi; by right.
  - intros u. rewrite sort_by_perm, list_elem_of_omap. split.
    + intros (i & ([k j] & -> & Hk)%list_elem_of_fmap & Hu). apply elem_of_hash_iter in Hk. cbn [snd] in Hu.
      destruct (Hm k j Hk) as (v & Hv & Hid & Hl). rewrite Hv in Hu. injection Hu as ->. by rewrite Hid.
    + intros Hl. destruct (last_by_id_some _ _ _ Hl) as (i & Hi & Hu). exists i. split; [|done].
      apply list_elem_of_fmap. exists (uid u, i). split; [done|]. by apply elem_of_hash_iter.
Qed.
End dedup.

(** ** Encodings *)
Definition wf_update (dimensions : nat) (u : PostingUpdate) : Prop :=
  in_u 64 (uid u) ∧ match u with PAppend _ v => length v = dimensions ∧ Forall (in_u 32) v | PDelete _ => True end.

Definition update_bytes (u : PostingUpdate) : bytes :=
  match u with
  | PAppend id v => POSTING_UPDATE_TYPE_APPEND_BYTE :: be_bytes 8 id ++ (v ≫= le_bytes 4)
  | PDelete id => POSTING_UPDATE_TYPE_DELETE_BYTE :: be_bytes 8 id
  end.

Lemma update_encode_spec u buf : update_encode u buf = buf ++ update_bytes u.
Proof.
  assert (Hf : ∀ v b, foldl (λ buf val, buf ++ le_bytes 4 val) b v = b ++ (v ≫= le_bytes 4)).
  { induction v as [|x v IH]; intros b; cbn [foldl mbind list_bind] in *; [by rewrite app_nil_r|]. by rewrite IH, <-app_assoc. }
  destruct u; cbn [update_encode update_bytes]; unfold vid_encode; rewrite ?Hf, <-?app_assoc; done.
Qed.

Lemma postings_encode_spec us : postings_encode us = us ≫= update_bytes.
Proof.
  unfold postings_encode. change (us ≫= update_bytes) with ([] ++ (us ≫= update_bytes)). generalize (@nil byte).
  induction us as [|u us IH]; intros b; cbn [foldl mbind list_bind] in *; [by rewrite app_nil_r|].
  by rewrite IH, update_encode_spec, <-app_assoc.
Qed.

Lemma update_bytes_length d u :
  wf_update d u → length (update_bytes u) = encoded_size u ∧
    encoded_size u = match u with PAppend _ _ => 1 + 8 + d * 4 | PDelete _ => 1 + 8 end%nat.
Proof.
  intros [_ H]. destruct u; cbn [update_bytes encoded_size length]; rewrite ?length_app, ?be_bytes_length, ?f32s_length.
  - by destruct H as [-> _].
  - done.
Qed.

Lemma update_decode_spec d u rest : wf_update d u → update_decode d (update_bytes u ++ rest) = Ok (u, rest).
Proof.
  intros [Hid H]. unfold update_decode. destruct u as [id v|id]; cbn [update_bytes uid] in *;
    rewrite bool_decide_eq_false_2 by (rewrite ?length_app; cbn [length]; rewrite ?length_app, be_bytes_length; lia);
    cbn [app]; rewrite <-?app_assoc, (decode_encode (dec:=vid_decode) id) by done; cbn [res_bind].
  - rewrite bool_decide_eq_true_2 by done. destruct H as [Hl Hv].
    rewrite bool_decide_eq_false_2 by (rewrite length_app, f32s_length, Hl; lia).
    rewrite <-Hl, f32s_decode by done. done.
  - by rewrite bool_decide_eq_false_2, bool_decide_eq_true_2 by done.
Qed.

Lemma update_bytes_cons u : ∃ b l, update_bytes u = b :: l.
Proof. destruct u; cbn [update_bytes]; eauto. Qed.

Lemma decode_updates_spec fuel d us :
  Forall (wf_update d) us → (length us ≤ fuel)%nat → decode_updates fuel d (us ≫= update_bytes) = Ok us.
Proof.
  intros Hw. revert fuel. induction Hw as [|u us Hu Hus IH]; intros fuel Hf; [by destruct fuel|].
  destruct fuel as [|fuel]; [simpl in Hf; lia|]. rewrite bind_cons.
  pose proof (update_decode_spec d u (us ≫= update_bytes) Hu) as Hd. destruct (update_bytes_cons u) as (b & l & Hb).
  rewrite Hb in *. cbn [app decode_updates]. cbn [app] in Hd. rewrite Hd. cbn [res_bind]. rewrite IH by (simpl in Hf; lia). done.
Qed.

Lemma postings_length us : (length us ≤ length (us ≫= update_bytes))%nat.
Proof.
  induction us as [|u us IH]; [done|]. cbn [mbind list_bind length] in *. rewrite length_app.
  destruct (update_bytes_cons u) as (b & l & ->). cbn [length]. lia.
Qed.

(** a stored posting list *)
Definition Stored (dimensions : nat) (value : bytes) (us : list PostingUpdate) : Prop :=
  value = postings_encode us ∧ Forall (wf_update dimensions) us ∧ StronglySorted id_lt us.

Lemma stored_updates_decode `{HashOrderLaws} d value us : Stored d value us → postings_decode d value = Ok us.
Proof.
  intros (-> & Hw & Hs). unfold postings_decode. rewrite postings_encode_spec. case_bool_decide as He.
  - destruct us as [|u us]; [done|]. exfalso. cbn [mbind list_bind] in He. destruct (update_bytes_cons u) as (b & l & Hb).
    by rewrite Hb in He.
  - rewrite decode_updates_spec by (try done; apply postings_length). cbn [res_bind]. f_equal.
    eapply is_latest_unique; [done|apply from_posting_updates_spec|by apply is_latest_self].
Qed.

(** ** Cursors over stored lists *)
Section cursors.
Context (dimensions : nat).
Let append_size := (1 + 8 + dimensions * 4)%nat.
Let delete_size := (1 + 8)%nat.

Abbreviation AbsCursor := (list PostingUpdate * Z)%type.
Definition conc (c : AbsCursor) : Cursor := mkCursor (c.1 ≫= update_bytes) c.2.

(** the entry of the heap for a cursor, and the heap for all of them *)
Definition entry (i : nat) (us : list PostingUpdate) (p : Z) : list HeapEntry :=
  match us with [] => [] | u :: _ => [mkEntry (uid u) p i (encoded_size u)] end.
Fixpoint heads (k : nat) (acs : list AbsCursor) : list HeapEntry :=
  match acs with [] => [] | (us, p) :: acs => entry k us p ++ heads (S k) acs end.

Lemma push_head_spec i us p heap :
  Forall (wf_update dimensions) us →
  push_head append_size delete_size i (conc (us, p)) heap = Ok (entry i us p ++ heap).
Proof.
  intros Hw. unfold push_head, conc. cbn [cur_buf cur_priority fst snd].
  destruct us as [|u us]; [done|]. apply Forall_cons in Hw as [Hu _]. destruct (update_bytes_length _ u Hu) as [Hl Hsz].
  rewrite bind_cons. cbn [entry]. rewrite Hsz. unfold peek_entry.
  assert (Hge : (delete_size ≤ length (update_bytes u ++ (us ≫= update_bytes)))%nat).
  { rewrite length_app, Hl, Hsz. unfold delete_size. destruct u; lia. }
  destruct Hu as [Hid _]. destruct u as [id v|id]; cbn [update_bytes uid app] in *; unfold rust_assert;
    rewrite bool_decide_eq_true_2 by done; cbn [res_bind];
    rewrite <-?app_assoc, (decode_encode (dec:=vid_decode) id) by done; cbn [res_bind].
  - by rewrite bool_decide_eq_true_2.
  - by rewrite bool_decide_eq_false_2.
Qed.

Lemma seed_spec k acs heap :
  Forall (λ c : AbsCursor, Forall (wf_update dimensions) c.1) acs →
  ∃ heap', seed append_size delete_size k (conc <$> acs) heap = Ok heap' ∧ heap' ≡ₚ heads k acs ++ heap.
Proof.
  intros Hw. revert k heap. induction Hw as [|[us p] acs Hu Hw IH]; intros k heap; cbn [seed fmap list_fmap heads]; [by exists heap|].
  rewrite push_head_spec by done. cbn [res_bind].
  destruct (IH (S k) (entry k us p ++ heap)) as (h & Hh & Hp). exists h. split; [exact Hh|].
  rewrite Hp. rewrite <-app_assoc. rewrite !(app_assoc (heads _ _)), !(app_assoc (entry _ _ _)).
  by rewrite (Permutation_app_comm (heads _ _)).
Qed.

Lemma heads_clear k i us p acs :
  acs !! i = Some (us, p) → heads k acs ≡ₚ entry (k + i) us p ++ heads k (<[i := ([], p)]> acs).
Proof.
  revert k i. induction acs as [|[vs q] acs IH]; intros k [|i] H; try done.
  - injection H as -> ->. cbn [heads]. by rewrite Nat.add_0_r.
  - change (<[S i := ([], p)]> ((vs, q) :: acs)) with ((vs, q) :: <[i := ([], p)]> acs). cbn [heads].
    rewrite (IH (S k) i H). replace (S k + i)%nat with (k + S i)%nat by lia.
    rewrite !app_assoc. by rewrite (Permutation_app_comm (entry k vs q)).
Qed.

Lemma heads_set k i us us' p acs :
  acs !! i = Some (us, p) → heads k (<[i := (us', p)]> acs) ≡ₚ entry (k + i) us' p ++ heads k (<[i := ([], p)]> acs).
Proof.
  intros H. rewrite (heads_clear k i us' p); [by rewrite list_insert_insert_eq|].
  apply list_lookup_insert_eq. by apply lookup_lt_Some in H.
Qed.

Lemma elem_of_heads k e acs :
  e ∈ heads k acs ↔ ∃ i u us p, acs !! i = Some (u :: us, p) ∧ e = mkEntry (uid u) p (k + i) (encoded_size u).
Proof.
  revert k. induction acs as [|[vs q] acs IH]; intros k; cbn [heads].
  - rewrite elem_of_nil. split; [done|]. by intros (i & u & us & p & H & _).
  - rewrite elem_of_app, IH. split.
    + intros [He | (i & u & us & p & H & ->)].
      * destruct vs as [|v vs]; [by apply elem_of_nil in He|]. apply list_elem_of_singleton in He as ->.
        exists 0%nat, v, vs, q. by rewrite Nat.add_0_r.
      * exists (S i), u, us, p. split; [done|]. f_equal. lia.
    + intros ([|i] & u & us & p & H & ->).
      * injection H as -> ->. left. rewrite Nat.add_0_r. cbn. left.
      * right. exists i, u, us, p. split; [done|]. f_equal. lia.
Qed.
Definition wf_abs (acs : list AbsCursor) : Prop :=
  Forall (λ c : AbsCursor, Forall (wf_update dimensions) c.1 ∧ StronglySorted id_lt c.1) acs ∧
  StronglySorted (λ c d : AbsCursor, c.2 < d.2) acs.

Lemma wf_abs_at acs i us p : wf_abs acs → acs !! i = Some (us, p) → Forall (wf_update dimensions) us ∧ StronglySorted id_lt us.
Proof. intros [H _] Hi. by apply (Forall_lookup_1 _ _ _ _ H Hi). Qed.

Lemma wf_abs_pop acs i u us p : wf_abs acs → acs !! i = Some (u :: us, p) → wf_abs (<[i := (us, p)]> acs).
Proof.
  intros Hwf Hi. destruct (wf_abs_at _ _ _ _ Hwf Hi) as [[_ Hu]%Forall_cons [Hs _]%StronglySorted_inv].
  destruct Hwf as [H1 H2]. split; [by apply Forall_insert|].
  assert (Hf : snd <$> <[i := (us, p)]> acs = snd <$> acs).
  { rewrite list_fmap_insert. apply list_insert_id. by rewrite list_lookup_fmap, Hi. }
  clear - H2 Hf. revert H2 Hf. generalize (<[i := (us, p)]> acs) as l. induction acs as [|a acs IH]; intros [|b l] H2 Hf; try done.
  rewrite !fmap_cons in Hf. injection Hf as Hba Hf. apply StronglySorted_inv in H2 as [H2 Ha]. constructor; [by apply IH|].
  apply (Forall_fmap snd (λ x, a.2 < x)) in Ha. rewrite <-Hf in Ha. apply (Forall_fmap snd (λ x, a.2 < x)) in Ha.
  eapply Forall_impl; [exact Ha|]. cbn. intros. lia.
Qed.

(** Taking an entry out of the heap and moving its cursor on. *)
Lemma advance_cursor_spec acs rest e :
  wf_abs acs → e :: rest ≡ₚ heads 0 acs →
  ∃ i u us p heap', acs !! i = Some (u :: us, p) ∧ e = mkEntry (uid u) p i (encoded_size u) ∧
    slice (E:=Error) (cur_buf (conc (u :: us, p))) 0 (he_size e) = Ok (update_bytes u) ∧
    advance_cursor append_size delete_size e (conc <$> acs) rest = Ok (conc <$> <[i := (us, p)]> acs, heap') ∧
    heap' ≡ₚ heads 0 (<[i := (us, p)]> acs).
Proof.
  intros Hwf Hp. assert (He : e ∈ heads 0 acs) by (rewrite <-Hp; left).
  apply elem_of_heads in He as (i & u & us & p & Hi & ->). cbn [Nat.add] in *.
  destruct (wf_abs_at _ _ _ _ Hwf Hi) as [[Hu Hus]%Forall_cons _]. destruct (update_bytes_length _ u Hu) as [Hl _].
  exists i, u, us, p, (entry i us p ++ rest). split_and!; [done|done| | |].
  - unfold conc. cbn [cur_buf fst he_size]. rewrite bind_cons, slice_ok by (rewrite length_app; lia).
    rewrite drop_0, Nat.sub_0_r, take_app_length' by done. done.
  - unfold advance_cursor. cbn [he_cursor he_size]. rewrite list_lookup_fmap, Hi. cbn [fmap option_fmap option_map expect res_bind].
    assert (Hc : drop (encoded_size u) (cur_buf (conc (u :: us, p))) = us ≫= update_bytes)
      by (unfold conc; cbn [cur_buf fst]; by rewrite bind_cons, drop_app_length').
    assert (Hge : (encoded_size u ≤ length (cur_buf (conc (u :: us, p))))%nat)
      by (unfold conc; cbn [cur_buf fst]; rewrite bind_cons, length_app; lia).
    unfold rust_assert. rewrite bool_decide_eq_true_2, Hc by done. cbn [res_bind].
    change (mkCursor (us ≫= update_bytes) (cur_priority (conc (u :: us, p)))) with (conc (us, p)).
    rewrite push_head_spec by done. cbn [res_bind]. by rewrite list_fmap_insert.
  - rewrite (heads_set 0 i (u :: us)) by done. apply Permutation_app_head.
    rewrite (heads_clear 0 i (u :: us) p acs Hi) in Hp. cbn [entry app Nat.add] in Hp. by apply Permutation_cons_inv in Hp.
Qed.

(** drop the update of [id] at the head of a list *)
Definition drop_id (id : Z) (us : list PostingUpdate) : list PostingUpdate :=
  match us with u :: r => if uid u =? id then r else us | [] => [] end.
Definition drop_ids (id : Z) (acs : list AbsCursor) : list AbsCursor := (λ c : AbsCursor, (drop_id id c.1, c.2)) <$> acs.

(** no update is older than [id] *)
Definition from_id_on (id : Z) (acs : list AbsCursor) : Prop := Forall (λ c : AbsCursor, Forall (λ u, id ≤ uid u) c.1) acs.

Lemma drop_ids_pop id acs i u us p :
  wf_abs acs → acs !! i = Some (u :: us, p) → uid u = id → drop_ids id (<[i := (us, p)]> acs) = drop_ids id acs.
Proof.
  intros Hwf Hi Hid. unfold drop_ids. rewrite list_fmap_insert. apply list_insert_id. rewrite list_lookup_fmap, Hi. cbn.
  rewrite (proj2 (Z.eqb_eq _ _)) by done. f_equal.
  destruct (wf_abs_at _ _ _ _ Hwf Hi) as [_ [_ Ha]%StronglySorted_inv]. destruct us as [|v us]; [done|]. cbn.
  apply Forall_cons in Ha as [Ha _]. unfold id_lt in Ha. by rewrite (proj2 (Z.eqb_neq _ _)) by lia.
Qed.

Lemma drop_ids_none id acs : Forall (λ e, he_id e ≠ id) (heads 0 acs) → drop_ids id acs = acs.
Proof.
  generalize 0%nat as k. intros k. revert k. induction acs as [|[us p] acs IH]; intros k H; [done|]. cbn [heads] in H.
  apply Forall_app in H as [H1 H2]. unfold drop_ids in *. rewrite fmap_cons, (IH (S k)) by done. f_equal. cbn.
  destruct us as [|u us]; [done|]. apply Forall_cons in H1 as [H1 _]. cbn in *. by rewrite (proj2 (Z.eqb_neq _ _)).
Qed.

Lemma heads_from id acs : from_id_on id acs → Forall (λ e, id ≤ he_id e) (heads 0 acs).
Proof.
  intros H. apply Forall_forall. intros e (i & u & us & p & Hi & ->)%elem_of_heads. cbn.
  pose proof (Forall_lookup_1 _ _ _ _ H Hi) as [Hu _]%Forall_cons. done.
Qed.

(** the inner loop drops the update of [id] at the head of every cursor *)
Lemma skip_losers_spec fuel id acs heap r :
  wf_abs acs → from_id_on id acs → heap ≡ₚ heads 0 acs →
  skip_losers append_size delete_size fuel id (conc <$> acs) heap = Some r →
  ∃ heap', r = Ok (conc <$> drop_ids id acs, heap') ∧ heap' ≡ₚ heads 0 (drop_ids id acs).
Proof.
  revert acs heap. induction fuel as [|fuel IH]; intros acs heap Hwf Hfrom Hp H; [done|]. cbn [skip_losers] in H.
  pose proof (heap_pop_spec heap) as Hpop. destruct (heap_pop heap) as [[loser rest]|].
  - destruct Hpop as [Hh Hmax]. rewrite Hh in Hp. destruct (Z.eqb_spec (he_id loser) id) as [Hid|Hid].
    + destruct (advance_cursor_spec acs rest loser Hwf Hp) as (i & u & us & p & heap' & Hi & He & _ & Ha & Hp').
      rewrite Ha in H. rewrite He in Hid. cbn [he_id] in Hid.
      rewrite <-(drop_ids_pop id acs i u us p) by done. eapply IH; [by eapply wf_abs_pop| |done|exact H].
      apply Forall_insert; [done|]. by pose proof (Forall_lookup_1 _ _ _ _ Hfrom Hi) as [_ Hu]%Forall_cons.
    + injection H as <-. rewrite drop_ids_none; [exists heap; split; [done|by rewrite Hh]|]. rewrite <-Hp.
      pose proof (heads_from id acs Hfrom) as Hge. rewrite <-Hp in Hge. apply Forall_cons in Hge as [Hge _].
      constructor; [done|]. eapply Forall_impl; [exact Hmax|]. cbn. intros e Hle%entry_cmp_le. lia.
  - injection H as <-. subst heap. apply Permutation_nil_l in Hp. rewrite drop_ids_none by (by rewrite <-Hp).
    exists []. split; [done|by rewrite <-Hp].
Qed.

(** the updates left, oldest source first *)
Definition remaining (acs : list AbsCursor) : list PostingUpdate := concat (fst <$> acs).

Lemma filter_drop_id id k us : k ≠ id → filter (λ u, uid u = k) (drop_id id us) = filter (λ u, uid u = k) us.
Proof.
  intros Hk. destruct us as [|u us]; [done|]. cbn [drop_id]. destruct (Z.eqb_spec (uid u) id); [|done].
  rewrite (filter_cons_False _ u) by lia. done.
Qed.

Lemma latest_drop_ids id k acs : k ≠ id → latest (remaining (drop_ids id acs)) !! k = latest (remaining acs) !! k.
Proof.
  intros Hk. rewrite !latest_last. f_equal. unfold remaining, drop_ids. induction acs as [|[us p] acs IH]; [done|].
  rewrite !fmap_cons. cbn [concat fst]. by rewrite !filter_app, filter_drop_id, IH.
Qed.

Lemma drop_ids_after id acs :
  wf_abs acs → from_id_on id acs → Forall (λ u, id < uid u) (remaining (drop_ids id acs)).
Proof.
  intros [Hwf _] Hfrom. unfold remaining, drop_ids. induction Hwf as [|[us p] acs [_ Hs] Hwf IH]; [done|].
  apply Forall_cons in Hfrom as [Hu Hfrom]. rewrite !fmap_cons. cbn [concat fst] in *. apply Forall_app. split; [|by apply IH].
  destruct us as [|u us]; [done|]. apply StronglySorted_inv in Hs as [_ Ha]. apply Forall_cons in Hu as [Hu _]. cbn [drop_id].
  destruct (Z.eqb_spec (uid u) id) as [He|He].
  - eapply Forall_impl; [exact Ha|]. unfold id_lt. intros. lia.
  - constructor; [lia|]. eapply Forall_impl; [exact Ha|]. unfold id_lt. intros. lia.
Qed.

Lemma wf_abs_drop id acs : wf_abs acs → wf_abs (drop_ids id acs).
Proof.
  intros [H1 H2]. unfold drop_ids. split.
  - apply Forall_fmap. eapply Forall_impl; [exact H1|]. intros [[|u us] p] [Hu Hs]; [done|]. cbn.
    destruct (_ =? _); [|done]. apply Forall_cons in Hu as [_ Hu]. by apply StronglySorted_inv in Hs as [Hs _].
  - by apply (sorted_fmap (λ c d : AbsCursor, c.2 < d.2)).
Qed.

(** the entry the heap gives up: least id, newest source *)
Lemma winner_spec acs rest i u us p :
  wf_abs acs → acs !! i = Some (u :: us, p) → mkEntry (uid u) p i (encoded_size u) :: rest ≡ₚ heads 0 acs →
  Forall (λ e, entry_cmp e (mkEntry (uid u) p i (encoded_size u)) ≠ Gt) rest →
  from_id_on (uid u) acs ∧ latest (remaining acs) !! uid u = Some u.
Proof.
  intros Hwf Hi Hp Hmax.
  assert (Hle : ∀ j v vs q, acs !! j = Some (v :: vs, q) → uid u < uid v ∨ uid u = uid v ∧ (i = j ∨ q ≤ p)).
  { intros j v vs q Hj. assert (He : mkEntry (uid v) q j (encoded_size v) ∈ heads 0 acs) by (apply elem_of_heads; eauto 10).
    rewrite <-Hp in He. apply elem_of_cons in He as [[= <- <- <- _]|He]; [lia|].
    rewrite Forall_forall in Hmax. apply Hmax, entry_cmp_le in He. cbn in He. lia. }
  assert (Hfrom : from_id_on (uid u) acs).
  { apply Forall_lookup_2. intros j [[|v vs] q] Hj; [constructor|]. cbn [fst].
    destruct (wf_abs_at _ _ _ _ Hwf Hj) as [_ [_ Ha]%StronglySorted_inv]. destruct (Hle _ _ _ _ Hj) as [? |[? _]].
    all: constructor; [lia|]; eapply Forall_impl; [exact Ha|]; unfold id_lt; intros; lia. }
  split; [done|]. rewrite latest_last. unfold remaining.
  rewrite <-(take_drop_middle acs i _ Hi), fmap_app, fmap_cons, concat_app. cbn [concat fst].
  rewrite filter_app, last_app, filter_app, last_app.
  destruct (wf_abs_at _ _ _ _ Hwf Hi) as [_ Hs]. pose proof Hs as [_ Ha]%StronglySorted_inv.
  assert (Hnew : filter (λ v, uid v = uid u) (concat (fst <$> drop (S i) acs)) = []).
  { apply filter_none, Forall_concat, Forall_fmap, Forall_lookup_2. intros j [[|v vs] q] Hj; [constructor|]. unfold compose. cbn [fst].
    rewrite lookup_drop in Hj. destruct (wf_abs_at _ _ _ _ Hwf Hj) as [_ [_ Hv]%StronglySorted_inv].
    assert (Hq : p < q).
    { destruct Hwf as [_ Hsort]. rewrite <-(take_drop_middle acs i _ Hi) in Hsort.
      apply StronglySorted_app_inv in Hsort as (_ & [_ Hd]%StronglySorted_inv & _). rewrite Forall_forall in Hd.
      apply (Hd (v :: vs, q)). apply list_elem_of_lookup. exists j. by rewrite lookup_drop. }
    destruct (Hle _ _ _ _ Hj) as [Hlt|[Heq [Hij|Hqp]]]; [|lia..].
    constructor; [lia|]. eapply Forall_impl; [exact Hv|]. unfold id_lt. intros. lia. }
  rewrite Hnew. cbn [last]. rewrite filter_cons_True by done.
  rewrite filter_none by (eapply Forall_impl; [exact Ha|]; unfold id_lt; cbn; intros; lia). done.
Qed.

Lemma merge_loop_spec limit fuel acs heap result r :
  wf_abs acs → heap ≡ₚ heads 0 acs →
  merge_loop append_size delete_size limit fuel (conc <$> acs) heap result = Some r →
  ∃ l, r = Ok (result ++ postings_encode l) ∧ Forall (wf_update dimensions) l ∧ IsLatest (remaining acs) l.
Proof.
  revert acs heap result. induction fuel as [|fuel IH]; intros acs heap result Hwf Hp H; [done|]. cbn [merge_loop] in H.
  pose proof (heap_pop_spec heap) as Hpop. destruct (heap_pop heap) as [[w rest]|].
  - destruct Hpop as [Hh Hmax]. rewrite Hh in Hp.
    destruct (advance_cursor_spec acs rest w Hwf Hp) as (i & u & us & p & heap' & Hi & -> & Hb & Ha & Hp').
    destruct (winner_spec acs rest i u us p Hwf Hi Hp Hmax) as [Hfrom Hlast].
    cbn [he_cursor he_id] in *. rewrite list_lookup_fmap, Hi in H. cbn [fmap option_fmap option_map expect res_bind] in H.
    rewrite Hb, Ha in H. cbn [res_bind] in H.
    destruct (skip_losers _ _ _ _ _ _) as [s|] eqn:Es; [|done].
    assert (Hwf1 : wf_abs (<[i := (us, p)]> acs)) by (by eapply wf_abs_pop).
    apply skip_losers_spec in Es as (heap'' & -> & Hp''); [|done| |done].
    2: { apply Forall_insert; [done|]. by pose proof (Forall_lookup_1 _ _ _ _ Hfrom Hi) as [_ Hu]%Forall_cons. }
    rewrite (drop_ids_pop _ _ _ u) in * by done.
    destruct (IH _ _ _ (wf_abs_drop _ _ Hwf) Hp'' H) as (l & -> & Hwl & Hsort & Hmem).
    pose proof (drop_ids_after _ _ Hwf Hfrom) as Hafter. rewrite Forall_forall in Hafter.
    exists (u :: l). split_and!.
    + rewrite !postings_encode_spec, bind_cons. by rewrite <-app_assoc.
    + constructor; [|done]. by destruct (wf_abs_at _ _ _ _ Hwf Hi) as [[Hu _]%Forall_cons _].
    + split.
      * constructor; [done|]. apply Forall_forall. intros v Hv. apply Hmem, latest_id in Hv as [_ Hv]. by apply Hafter.
      * intros v. rewrite elem_of_cons. destruct (decide (uid v = uid u)) as [He|He].
        -- rewrite He, Hlast. split; [|intros [= ->]; by left]. intros [-> | Hv]; [done|].
           apply Hmem, latest_id in Hv as [_ Hv%Hafter]. lia.
        -- rewrite Hmem, latest_drop_ids by done. split; [intros [-> | ?]; done|by right].
  - injection H as <-. subst heap. exists []. rewrite app_nil_r. split_and!; [done|constructor|]. split; [constructor|].
    intros v. rewrite latest_last. apply Permutation_nil_l in Hp. symmetry in Hp.
    assert (Hr : remaining acs = []); [|rewrite Hr; split; [by intros ?%elem_of_nil|done]].
    clear -Hp. unfold remaining. revert Hp. generalize 0%nat. induction acs as [|[us q] acs IH]; intros k Hp; [done|].
    cbn [heads] in Hp. apply app_eq_nil in Hp as [H1 H2]. rewrite fmap_cons. cbn [concat fst]. rewrite (IH _ H2).
    by destruct us.
Qed.

Lemma merge_cursors_spec acs :
  wf_abs acs → ∃ l, merge_cursors dimensions (conc <$> acs) = Some (Ok (postings_encode l)) ∧
    Forall (wf_update dimensions) l ∧ IsLatest (remaining acs) l.
Proof.
  intros Hwf. destruct (merge_cursors_returns dimensions (conc <$> acs)) as [r Hr]. pose proof Hr as Hr'.
  unfold merge_cursors in Hr'.
  destruct (seed_spec 0 acs []) as (heap & Hs & Hp); [destruct Hwf as [Hw _]; eapply Forall_impl; [exact Hw|]; by intros ? []|].
  unfold append_size, delete_size in Hs. rewrite Hs in Hr'. rewrite app_nil_r in Hp.
  destruct (merge_loop_spec _ _ _ _ _ _ Hwf Hp Hr') as (l & -> & Hl). by exists l.
Qed.

Lemma stored_nil value us : Stored dimensions value us → value = [] ↔ us = [].
Proof.
  intros (-> & _). rewrite postings_encode_spec. destruct us as [|u us]; [done|]. rewrite bind_cons.
  destruct (update_bytes_cons u) as (b & l & ->). done.
Qed.

Lemma stored_cursor value us p : Stored dimensions value us → mkCursor value p = conc (us, p).
Proof. intros (-> & _). unfold conc. by rewrite postings_encode_spec. Qed.

Lemma operand_cursors k ops srcs :
  Forall2 (Stored dimensions) ops srcs →
  ∃ acs, omap (λ x : nat * bytes, if bool_decide (x.2 = []) then None else Some (mkCursor x.2 (Z.of_nat (x.1 + 1))))
      (imap (λ i b, ((k + i)%nat, b)) ops) = conc <$> acs ∧
    wf_abs acs ∧ Forall (λ c : AbsCursor, Z.of_nat k < c.2) acs ∧ remaining acs = concat srcs.
Proof.
  intros H. revert k. induction H as [|b us ops srcs Hb H IH]; intros k.
  { exists []. split_and!; [done|by split; constructor|constructor|done]. }
  destruct (IH (S k)) as (acs & He & [Hw Hs] & Hk & Hr). cbn [imap omap list_omap concat].
  assert (Hi : imap ((λ i b, ((k + i)%nat, b)) ∘ S) ops = imap (λ i b, ((S k + i)%nat, b)) ops).
  { apply imap_ext. intros. cbn. f_equal. lia. }
  rewrite Hi. change (list_omap _ _ ?f ?l) with (omap f l). rewrite He. cbn [fst snd].
  pose proof (stored_nil b us Hb) as Hnil. case_bool_decide as Hbn.
  - exists acs. apply Hnil in Hbn as ->. split_and!; [done|by split| |done].
    eapply Forall_impl; [exact Hk|]. cbn. intros. lia.
  - exists ((us, Z.of_nat (k + 0 + 1)) :: acs). rewrite fmap_cons, (stored_cursor b us) by done. split_and!; [done| | |].
    + destruct Hb as (_ & Hwu & Hsu). split; [by constructor|]. constructor; [done|].
      eapply Forall_impl; [exact Hk|]. cbn. intros. lia.
    + constructor; [cbn; lia|]. eapply Forall_impl; [exact Hk|]. cbn. intros. lia.
    + unfold remaining in *. rewrite fmap_cons. cbn [concat fst]. by rewrite Hr.
Qed.

Lemma source_cursors existing ops srcs :
  Forall2 (Stored dimensions) (option_list existing ++ ops) srcs →
  ∃ acs, cursors_of existing ops = conc <$> acs ∧ wf_abs acs ∧ remaining acs = concat srcs.
Proof.
  unfold cursors_of. destruct existing as [ex|]; cbn [option_list option_rect app].
  - intros H. apply Forall2_cons_inv_l in H as (us & srcs' & Hex & H & ->).
    destruct (operand_cursors 0 ops srcs' H) as (acs & He & [Hw Hs] & Hk & Hr). change (imap (λ i b, ((0 + i)%nat, b)) ops) with (imap pair ops) in He. rewrite He.
    pose proof (stored_nil ex us Hex) as Hnil. case_bool_decide as Hbn.
    + apply Hnil in Hbn as ->. exists acs. by split_and!.
    + exists ((us, 0) :: acs). rewrite fmap_cons, (stored_cursor ex us) by done. cbn [app]. split_and!; [done| |].
      * destruct Hex as (_ & Hwu & Hsu). split; [by constructor|]. constructor; [done|]. exact Hk.
      * unfold remaining in *. rewrite fmap_cons. cbn [concat fst]. by rewrite Hr.
  - intros H. destruct (operand_cursors 0 ops srcs H) as (acs & He & Hw & _ & Hr). exists acs. by split_and!.
Qed.

End cursors.

(** The merge of stored lists is the stored list of the newest updates. *)
Lemma posting_merge_spec d existing ops srcs :
  Forall2 (Stored d) (option_list existing ++ ops) srcs →
  ∃ v l, merge_batch_posting_list existing ops d = Ok v ∧ Stored d v l ∧ IsLatest (concat srcs) l.
Proof.
  intros H. assert (Hgen : ∃ v l, (let cursors := cursors_of existing ops in
      if bool_decide (cursors = []) then Ok []
      else match merge_cursors d cursors with Some r => r | None => Panic end) = Ok v ∧ Stored d v l ∧ IsLatest (concat srcs) l).
  { destruct (source_cursors d _ _ _ H) as (acs & Hc & Hw & Hr). cbv zeta. rewrite Hc, <-Hr. case_bool_decide as Hn.
    - apply fmap_nil_inv in Hn as ->. exists [], []. split_and!; [done|by split_and!; constructor|by apply is_latest_self; constructor].
    - destruct (merge_cursors_spec d acs Hw) as (l & -> & Hwl & Hl). eexists _, l. split_and!; [done| |done].
      split_and!; [done|done|]. apply Hl. }
  unfold merge_batch_posting_list. destruct ops as [|op ops].
  - destruct existing as [ex|]; cbn [option_list option_rect app] in H.
    + apply Forall2_cons_inv_l in H as (us & srcs' & Hex & H & ->). apply Forall2_nil_inv_l in H as ->.
      exists ex, us. split_and!; [done|done|]. cbn [concat]. rewrite app_nil_r. apply is_latest_self, Hex.
    + apply Forall2_nil_inv_l in H as ->. exists [], []. split_and!; [done|by split_and!; constructor|].
      by apply is_latest_self; constructor.
  - destruct existing as [ex|]; [by destruct ops|]. destruct ops as [|op2 ops]; [|done].
    cbn [option_list option_rect app] in H. apply Forall2_cons_inv_l in H as (us & srcs' & Hex & H & ->).
    apply Forall2_nil_inv_l in H as ->. exists op, us. split_and!; [done|done|].
    cbn [concat]. rewrite app_nil_r. apply is_latest_self, Hex.
Qed.

(** Merging in two rounds is merging at once. *)
Lemma posting_merge_split d existing o1 o2 srcs :
  Forall2 (Stored d) (option_list existing ++ o1 ++ o2) srcs →
  ∃ v1 v l, merge_batch_posting_list existing o1 d = Ok v1 ∧ (∃ l1, Stored d v1 l1) ∧
    merge_batch_posting_list (Some v1) o2 d = Ok v ∧ merge_batch_posting_list existing (o1 ++ o2) d = Ok v ∧
    Stored d v l ∧ IsLatest (concat srcs) l.
Proof.
  intros H. destruct (posting_merge_spec d _ _ _ H) as (v & l & Hv & Hs & Hl).
  rewrite app_assoc in H. apply Forall2_app_inv_l in H as (s1 & s2 & H1 & H2 & ->).
  destruct (posting_merge_spec d _ _ _ H1) as (v1 & l1 & Hv1 & Hs1 & Hl1).
  destruct (posting_merge_spec d (Some v1) o2 (l1 :: s2)) as (v' & l' & Hv' & Hs' & Hl'); [by constructor|].
  assert (l = l') as <-.
  { eapply is_latest_unique; [|exact Hl|exact Hl']. intros k. cbn [concat]. rewrite concat_app, !latest_app.
    by rewrite (latest_is_latest _ _ k Hl1). }
  assert (v = v') as <- by (destruct Hs as (-> & _), Hs' as (-> & _); done).
  exists v1, v, l. split_and!; eauto.
Qed.

(** C34: The posting-list merge of a centroid, a k-way merge of raw bytes with a heap,
    computes what decoding all versions and keeping the newest update of each
    vector would: the result decodes to [from_posting_updates] of the versions in
    order, oldest first.  It does not panic, and its own output is again a list it
    can merge. *)
Theorem posting_merge_latest `{HashOrderLaws} d existing ops srcs :
  Forall2 (Stored d) (option_list existing ++ ops) srcs →
  ∃ v, merge_batch_posting_list existing ops d = Ok v ∧
    postings_decode d v = Ok (from_posting_updates (concat srcs)) ∧ Stored d v (from_posting_updates (concat srcs)).
Proof.
  intros Hs. destruct (posting_merge_spec d _ _ _ Hs) as (v & l & Hv & Hst & Hl).
  pose proof (from_posting_updates_spec (concat srcs)) as Hf.
  assert (l = from_posting_updates (concat srcs)) as <- by (by eapply is_latest_unique).
  exists v. split_and!; [done|by apply stored_updates_decode|done].
Qed.

Lemma posting_merge_latest_witness :
  let old := postings_encode [PAppend 1 [0; 1]; PAppend 3 [2; 3]] in
  let new := postings_encode [PDelete 1; PAppend 2 [4; 5]] in
  ∃ v, merge_batch_posting_list (Some old) [new] 2 = Ok v ∧
    v = postings_encode [PDelete 1; PAppend 2 [4; 5]; PAppend 3 [2; 3]].
Proof.
  cbv zeta.
  destruct (@posting_merge_latest tree_order tree_order_laws 2
    (Some (postings_encode [PAppend 1 [0; 1]; PAppend 3 [2; 3]])) [postings_encode [PDelete 1; PAppend 2 [4; 5]]]
    [[PAppend 1 [0; 1]; PAppend 3 [2; 3]]; [PDelete 1; PAppend 2 [4; 5]]]) as (v & Hv & _ & Hs).
  { repeat constructor; unfold in_u, id_lt; cbn; lia. }
  exists v. split; [exact Hv|]. destruct Hs as [-> _]. vm_compute. reflexivity.
Defined.

(** ** Fuel *)
Lemma skip_losers_more a d fuel n id cursors heap r :
  skip_losers a d fuel id cursors heap = Some r → skip_losers a d (n + fuel) id cursors heap = Some r.
Proof.
  revert cursors heap. induction fuel as [|fuel IH]; intros cursors heap H; [done|]. rewrite <-plus_n_Sm.
  cbn [skip_losers] in *. destruct (heap_pop heap) as [[w rest]|]; [|done]. destruct (_ =? _); [|done].
  destruct (advance_cursor _ _ _ _ _) as [[cs h]| |]; [by apply IH|done|done].
Qed.

Lemma merge_loop_more a d n m limit fuel cursors heap result r :
  merge_loop a d limit fuel cursors heap result = Some r →
  merge_loop a d (n + limit) (m + fuel) cursors heap result = Some r.
Proof.
  revert cursors heap result. induction fuel as [|fuel IH]; intros cursors heap result H; [done|]. rewrite <-plus_n_Sm.
  cbn [merge_loop] in *. destruct (heap_pop heap) as [[w rest]|]; [|done].
  destruct (let? c := _ in _) as [[b [cs h]]| |]; [|done|done].
  destruct (skip_losers _ _ limit _ _ _) as [s|] eqn:E; [|done]. rewrite (skip_losers_more _ _ _ _ _ _ _ _ E).
  destruct s as [[cs' h']| |]; [by apply IH|done|done].
Qed.

Lemma decode_items_no_panic {A} (dec : bytes → res Error (A * bytes)) n buf :
  (∀ b, dec b ≠ Panic) → decode_items dec n buf ≠ Panic.
Proof.
  intros Hd. revert buf. induction n as [|n IH]; intros buf; [done|]. cbn [decode_items].
  intros [H|((x & b) & _ & H)]%res_bind_panic; [by apply Hd in H|].
  apply res_bind_panic in H as [H|((xs & b') & _ & H)]; [by apply IH in H|done].
Qed.

Lemma update_decode_shrinks d buf :
  match update_decode d buf with Ok (_, rest) => (length rest < length buf)%nat | Err _ => True | Panic => False end.
Proof.
  unfold update_decode. case_bool_decide as Hl; [done|]. destruct buf as [|b buf]; [simpl in Hl; lia|].
  unfold vid_decode. cbn [length] in Hl. rewrite bool_decide_eq_false_2 by lia. cbn [res_bind].
  case_bool_decide as Ht; [|case_bool_decide; [cbn [length]; rewrite length_drop; lia|done]].
  case_bool_decide; [done|].
  assert (Hn : decode_items f32_decode d (drop 8 buf) ≠ Panic).
  { apply decode_items_no_panic. intros. unfold f32_decode, le_decode. by case_bool_decide. }
  assert (Hsh : ∀ n b xs rest, decode_items f32_decode n b = Ok (xs, rest) → (length rest ≤ length b)%nat).
  { induction n as [|n IH]; intros bb xs rest; cbn [decode_items]; [by intros [= _ <-]|].
    intros ((x & b') & Hx & ((ys & b'') & Hy & [= _ <-])%res_bind_ok)%res_bind_ok. apply IH in Hy.
    unfold f32_decode, le_decode in Hx. inv_ok. subst. rewrite length_drop in Hy. lia. }
  destruct (decode_items f32_decode d (drop 8 buf)) as [[v rest]| |] eqn:E; [|done|done]. cbn [res_bind].
  apply Hsh in E. rewrite length_drop in E. cbn [length]. lia.
Qed.

(** C35: The loops over posting-list bytes end on every input, well-formed or not.  The
    heap merge needs no more rounds than there are bytes, since each consumes an
    entry, and further rounds change nothing; the decoder never reads past the fuel of
    one step per byte and never panics. *)
Theorem posting_loops_terminate d :
  (∀ cursors limit fuel heap, (total_size cursors < limit)%nat → (total_size cursors < fuel)%nat →
     seed (1 + 8 + d * 4) (1 + 8) 0 cursors [] = Ok heap →
     ∃ r, merge_loop (1 + 8 + d * 4) (1 + 8) limit fuel cursors heap [] = Some r ∧ merge_cursors d cursors = Some r) ∧
  (∀ buf fuel, (length buf ≤ fuel)%nat → decode_updates fuel d buf ≠ Panic).
Proof.
  split.
  - intros cursors limit fuel heap Hl Hf Hs. destruct (merge_cursors_returns d cursors) as [r Hr]. exists r.
    split; [|done]. unfold merge_cursors in Hr. rewrite Hs in Hr.
    apply (merge_loop_more _ _ (limit - S (total_size cursors)) (fuel - S (total_size cursors))) in Hr.
    by rewrite !Nat.sub_add in Hr by lia.
  - intros buf fuel. revert buf. induction fuel as [|fuel IH]; intros buf Hl; [by destruct buf; [|simpl in Hl; lia]|].
    destruct buf as [|b buf]; [done|]. cbn [decode_updates]. pose proof (update_decode_shrinks d (b :: buf)) as Hsh.
    destruct (update_decode d (b :: buf)) as [[p rest]| |]; [|done|done]. cbn [res_bind] in *.
    specialize (IH rest ltac:(cbn [length] in *; lia)). by destruct (decode_updates fuel d rest).
Qed.

Lemma posting_loops_terminate_witness :
  ∃ r, merge_loop 17 9 100 100 [mkCursor [x00; x01] 0] [mkEntry 5 0 0 17] [] = Some r ∧
    decode_updates 2 2 [x07; x07] ≠ Panic ∧ merge_cursors 2 [] = Some (Ok []).
Proof.
  exists Panic. split; [by vm_compute|]. destruct (posting_loops_terminate 2) as [Hm Hd]. split; [apply Hd; simpl; lia|].
  destruct (Hm [] 1%nat 1%nat []) as (r & H1 & H2); [cbn; lia|cbn; lia|done|]. rewrite H2. exact (eq_sym H1).
Defined.
End VecPosting.
