(* ===== verification/VecMerge.v ===== *)
(** * vector: metadata indexes and the merge operator

    [serde/vector_bitmap.rs], [serde/metadata_index.rs] and
    [storage/merge_operator.rs].  Bitmaps are sets of ids; the [RoaringTreemap] of
    the [roaring] crate is a class with its round trip and the size of its format as
    laws.  The merge operator is shown to be associative for every record type. *)
From stdpp Require Import gmap.
From S2P Require Import Prelude HashMap Codec Serde Encoding Storage KvStore VecSerde VecPosting.
#[local] Open Scope Z_scope.

Module VecMerge.
Import Vec VecPosting.

(** A set of [u64], serialized. *)
Class RoaringTreemap : Type := {
  rt_serialize : gset Z → option bytes;
  rt_deserialize : bytes → option (gset Z);
}.

(** The format spends a header, and at most the headers of a bitmap and of a
    container for every value. *)
Class RoaringTreemapLaws `{!RoaringTreemap} : Prop := {
  rt_roundtrip s : (∀ x, x ∈ s → in_u 64 x) →
    ∃ b, rt_serialize s = Some b ∧ rt_deserialize b = Some s ∧ blen b ≤ 8 + 32 * Z.of_nat (size s);
}.

Section merge.
Context {RT : RoaringTreemap}.

(** ** serde/vector_bitmap.rs *)
Definition bitmap_encode (s : gset Z) : res Error bytes :=
  match rt_serialize s with Some b => Ok b | None => Err ErrRoaring end.
Definition bitmap_decode (buf : bytes) : res Error (gset Z) :=
  match rt_deserialize buf with Some s => Ok s | None => Err ErrRoaring end.

(** ** serde/metadata_index.rs *)
Record MetadataIndexValue : Type := mkIndex { included : gset Z; excluded : gset Z }.

Definition index_new : MetadataIndexValue := mkIndex ∅ ∅.
Definition include_vector (id : Z) (v : MetadataIndexValue) : MetadataIndexValue :=
  mkIndex (included v ∪ {[id]}) (excluded v ∖ {[id]}).
Definition exclude_vector (id : Z) (v : MetadataIndexValue) : MetadataIndexValue :=
  mkIndex (included v ∖ {[id]}) (excluded v ∪ {[id]}).

Definition make_mutually_exclusive (v : MetadataIndexValue) : MetadataIndexValue :=
  let overlap := included v ∩ excluded v in
  mkIndex (included v) (excluded v ∖ overlap).

Definition effective_vector_ids (v : MetadataIndexValue) : gset Z := included v ∖ excluded v.
Definition index_contains (v : MetadataIndexValue) (id : Z) : bool :=
  bool_decide (id ∈ included v) && negb (bool_decide (id ∈ excluded v)).
Definition index_len (v : MetadataIndexValue) : Z := Z.of_nat (size (effective_vector_ids v)).
Definition index_is_empty (v : MetadataIndexValue) : bool := index_len v =? 0.

Definition index_encode (v : MetadataIndexValue) : res Error bytes :=
  let normalized := make_mutually_exclusive v in
  let? incl := bitmap_encode (included normalized) in
  let? excl := bitmap_encode (excluded normalized) in
  let? _ := rust_assert (blen incl <=? u_max 32) in
  let? _ := rust_assert (blen excl <=? u_max 32) in
  Ok (((le_bytes 4 (blen incl) ++ incl) ++ le_bytes 4 (blen excl)) ++ excl).

Definition index_decode (buf : bytes) : res Error MetadataIndexValue :=
  if bool_decide (length buf < 8)%nat then Err BitmapTooShort
  else
    let included_len := Z.to_nat (from_le (take 4 buf)) in
    if bool_decide (length buf < 4 + included_len + 4)%nat then Err BitmapTooShort
    else
      let? incl := bitmap_decode (take included_len (drop 4 buf)) in
      let excluded_len_offset := (4 + included_len)%nat in
      let excluded_len := Z.to_nat (from_le (take 4 (drop excluded_len_offset buf))) in
      let excluded_offset := (excluded_len_offset + 4)%nat in
      if bool_decide (length buf < excluded_offset + excluded_len)%nat then Err BitmapTooShort
      else
        let? excl := bitmap_decode (take excluded_len (drop excluded_offset buf)) in
        Ok (make_mutually_exclusive (mkIndex incl excl)).

(** ** storage/merge_operator.rs *)
Definition merge_metadata_index_pair (newer older : MetadataIndexValue) : MetadataIndexValue :=
  let incl := included newer ∪ (included older ∖ excluded newer) in
  let excl := excluded newer ∪ (excluded older ∖ included newer) in
  make_mutually_exclusive (mkIndex incl excl).

Fixpoint merge_indexes (merged : MetadataIndexValue) (operands : list bytes) : res Error MetadataIndexValue :=
  match operands with
  | [] => Ok merged
  | op :: operands =>
      let? newer := index_decode op in
      merge_indexes (merge_metadata_index_pair newer merged) operands
  end.

Definition merge_batch_metadata_index (existing : option bytes) (operands : list bytes) : res Error bytes :=
  let? merged := match existing with Some e => index_decode e | None => Ok index_new end in
  let? merged := merge_indexes merged operands in
  index_encode merged.

(** [total += ..] at [i32]; the [expect]s panic *)
Fixpoint sum_stats (total : Z) (operands : list bytes) : res Error Z :=
  match operands with
  | [] => Ok total
  | op :: operands =>
      match centroid_stats_decode op with
      | Ok n => sum_stats (as_signed 32 (total + n)) operands
      | _ => Panic
      end
  end.

Definition merge_batch_centroid_stats (existing : option bytes) (operands : list bytes) : res Error bytes :=
  let? total := match existing with
    | Some e => match centroid_stats_decode e with Ok n => Ok n | _ => Panic end
    | None => Ok 0
    end in
  let? total := sum_stats total operands in
  Ok (centroid_stats_encode total).

(** [VectorDbMergeOperator::merge_batch]; every [expect] panics *)
Definition merge_batch (dimensions : nat) (key : bytes) (existing_value : option bytes) (operands : list bytes) :
    res Error bytes :=
  let unwrap {A} (r : res Error A) : res Error A := match r with Err _ => Panic | _ => r end in
  let? p := unwrap (res_map_err ErrDeserialize (KeyPrefix.from_bytes_with_validation key SUBSYSTEM KEY_VERSION)) in
  let? record_type := unwrap (from_prefix p) in
  match record_type with
  | MetadataIndex => unwrap (merge_batch_metadata_index existing_value operands)
  | PostingList => merge_batch_posting_list existing_value operands dimensions
  | CentroidStats => merge_batch_centroid_stats existing_value operands
  | _ => default_merge_batch key existing_value operands (λ _ _ v, v)
  end.
End merge.

(** ** Metadata indexes *)
(** what an index value says of a vector: included, excluded, or nothing *)
Definition verdict (v : MetadataIndexValue) (x : Z) : option bool :=
  if decide (x ∈ included v) then Some true else if decide (x ∈ excluded v) then Some false else None.

Definition exclusive (v : MetadataIndexValue) : Prop := included v ## excluded v.

Lemma verdict_ext v w : exclusive v → exclusive w → (∀ x, verdict v x = verdict w x) → v = w.
Proof.
  unfold exclusive, verdict. destruct v as [i e], w as [i' e']. cbn. intros H H' Hx. f_equal; apply set_eq; intros x;
    specialize (Hx x); repeat case_decide; set_solver.
Qed.

Lemma make_exclusive v : exclusive (make_mutually_exclusive v).
Proof. unfold exclusive, make_mutually_exclusive. cbn. set_solver. Qed.

Lemma make_exclusive_id v : exclusive v → make_mutually_exclusive v = v.
Proof.
  unfold exclusive, make_mutually_exclusive. destruct v as [i e]. cbn. intros H. f_equal. set_solver.
Qed.

(** the newer value decides where it says something *)
Lemma merge_pair_verdict newer older x :
  exclusive newer → exclusive older →
  verdict (merge_metadata_index_pair newer older) x =
    match verdict newer x with Some b => Some b | None => verdict older x end.
Proof.
  unfold exclusive, verdict, merge_metadata_index_pair, make_mutually_exclusive. cbn. intros H H'.
  repeat case_decide; set_solver.
Qed.

Lemma merge_pair_exclusive newer older : exclusive (merge_metadata_index_pair newer older).
Proof. apply make_exclusive. Qed.

Lemma merge_pair_new v : exclusive v → merge_metadata_index_pair v index_new = v ∧ merge_metadata_index_pair index_new v = v.
Proof.
  intros Hv. assert (Hn : exclusive index_new) by (unfold exclusive; cbn; set_solver).
  split; (apply verdict_ext; [apply merge_pair_exclusive|done|]); intros x; rewrite merge_pair_verdict by done.
  - by destruct (verdict v x).
  - done.
Qed.

Definition index_ids (v : MetadataIndexValue) : gset Z := included v ∪ excluded v.

Lemma merge_pair_ids newer older : index_ids (merge_metadata_index_pair newer older) ⊆ index_ids newer ∪ index_ids older.
Proof. unfold index_ids, merge_metadata_index_pair, make_mutually_exclusive. cbn. set_solver. Qed.

Section operator.
Context {RT : RoaringTreemap} {RL : RoaringTreemapLaws}.

(** the ids in play: [u64]s, few enough for their bitmaps to fit the length prefix *)
Definition ids_fit (U : gset Z) : Prop := (∀ x, x ∈ U → in_u 64 x) ∧ Z.of_nat (size U) ≤ 2 ^ 26.

Lemma bitmap_codec U s : ids_fit U → s ⊆ U →
  ∃ b, bitmap_encode s = Ok b ∧ bitmap_decode b = Ok s ∧ blen b ≤ u_max 32.
Proof.
  intros [HU Hn] Hs. destruct (rt_roundtrip s) as (b & H1 & H2 & H3); [set_solver|]. exists b.
  unfold bitmap_encode, bitmap_decode. rewrite H1, H2. split_and!; [done..|].
  pose proof (subseteq_size s U Hs). unfold u_max. lia.
Qed.

Lemma index_codec U v : ids_fit U → exclusive v → index_ids v ⊆ U →
  ∃ value, index_encode v = Ok value ∧ index_decode value = Ok v.
Proof.
  intros HU Hx Hids. unfold index_ids in Hids.
  destruct (bitmap_codec U (included v) HU) as (bi & Hi1 & Hi2 & Hi3); [set_solver|].
  destruct (bitmap_codec U (excluded v) HU) as (be & He1 & He2 & He3); [set_solver|].
  assert (Hu : ∀ b : bytes, blen b ≤ u_max 32 → in_u (8 * Z.of_nat 4) (blen b))
    by (intros b Hb; pose proof (blen_nonneg b); unfold in_u, u_max in *; lia).
  unfold index_encode. rewrite make_exclusive_id by done. rewrite Hi1, He1. cbn [res_bind]. unfold rust_assert.
  rewrite !(proj2 (Z.leb_le _ _)) by done. cbn [res_bind]. eexists. split; [done|].
  rewrite <-!app_assoc. set (tl := le_bytes 4 (blen be) ++ be).
  assert (Htl : length tl = (4 + length be)%nat) by (unfold tl; by rewrite length_app, le_bytes_length).
  unfold index_decode. rewrite bool_decide_eq_false_2 by (rewrite !length_app, le_bytes_length, Htl; lia).
  rewrite take_app_length', drop_app_length' by (by rewrite le_bytes_length).
  rewrite from_le_roundtrip by auto. replace (Z.to_nat (blen bi)) with (length bi) by (unfold blen; lia).
  rewrite bool_decide_eq_false_2 by (rewrite !length_app, le_bytes_length, Htl; lia).
  rewrite take_app_length, Hi2. cbn [res_bind].
  assert (Hd : drop (4 + length bi) (le_bytes 4 (blen bi) ++ bi ++ tl) = tl)
    by (rewrite <-drop_drop, (drop_app_length' (le_bytes 4 _) _ 4); [by rewrite drop_app_length|by rewrite le_bytes_length]).
  assert (Hlen : Z.to_nat (from_le (take 4 tl)) = length be).
  { unfold tl. rewrite (take_app_length' (le_bytes 4 _) _ 4) by (by rewrite le_bytes_length).
    rewrite from_le_roundtrip by auto. unfold blen. lia. }
  rewrite Hd, Hlen. rewrite bool_decide_eq_false_2 by (rewrite !length_app, Htl, !le_bytes_length; lia).
  assert (Hd2 : drop (4 + length bi + 4) (le_bytes 4 (blen bi) ++ bi ++ tl) = be)
    by (rewrite <-drop_drop, Hd; unfold tl; rewrite drop_app_length'; [done|by rewrite le_bytes_length]).
  rewrite Hd2, firstn_all, He2. cbn [res_bind]. rewrite make_exclusive_id by done. by destruct v.
Qed.

Definition IndexStored (U : gset Z) (value : bytes) (v : MetadataIndexValue) : Prop :=
  exclusive v ∧ index_ids v ⊆ U ∧ index_encode v = Ok value.

Lemma index_stored_decode U value v : ids_fit U → IndexStored U value v → index_decode value = Ok v.
Proof.
  intros HU (Hx & Hi & He). destruct (index_codec U v HU Hx Hi) as (value' & He' & Hd). congruence.
Qed.

(** the merge of several values, oldest first *)
Definition merged_index (base : MetadataIndexValue) (vs : list MetadataIndexValue) : MetadataIndexValue :=
  foldl (λ m n, merge_metadata_index_pair n m) base vs.

Lemma merge_indexes_spec U m ops vs :
  ids_fit U → Forall2 (IndexStored U) ops vs → merge_indexes m ops = Ok (merged_index m vs).
Proof.
  intros HU H. revert m. induction H as [|op v ops vs Hv H IH]; intros m; [done|]. cbn [merge_indexes].
  rewrite (index_stored_decode U op v) by done. cbn [res_bind]. by rewrite IH.
Qed.

Lemma merged_index_ok U base vs :
  exclusive base → index_ids base ⊆ U → Forall (λ v, exclusive v ∧ index_ids v ⊆ U) vs →
  exclusive (merged_index base vs) ∧ index_ids (merged_index base vs) ⊆ U.
Proof.
  intros Hb Hi H. revert base Hb Hi. induction H as [|v vs [Hv Hiv] H IH]; intros base Hb Hi; [done|].
  apply IH; [apply merge_pair_exclusive|]. pose proof (merge_pair_ids v base). set_solver.
Qed.

Lemma index_merge_split U existing o1 o2 vs :
  ids_fit U → Forall2 (IndexStored U) (option_list existing ++ o1 ++ o2) vs →
  ∃ v1 v m1, merge_batch_metadata_index existing o1 = Ok v1 ∧ IndexStored U v1 m1 ∧
    merge_batch_metadata_index (Some v1) o2 = Ok v ∧ merge_batch_metadata_index existing (o1 ++ o2) = Ok v ∧
    IndexStored U v (merged_index index_new vs).
Proof.
  intros HU H.
  assert (Hall : Forall (λ v, exclusive v ∧ index_ids v ⊆ U) vs)
    by (clear -H; induction H as [|? ? ? ? (? & ? & _)]; constructor; auto).
  apply Forall2_app_inv_l in H as (ve & vr & He & H & ->). apply Forall2_app_inv_l in H as (s1 & s2 & H1 & H2 & ->).
  apply Forall_app in Hall as [Hae Ha]. apply Forall_app in Ha as [Ha1 Ha2].
  set (base := merged_index index_new ve).
  assert (Hbase : (match existing with Some e => index_decode e | None => Ok index_new end) = Ok base ∧
    exclusive base ∧ index_ids base ⊆ U).
  { unfold base. assert (Hn : exclusive index_new ∧ index_ids index_new ⊆ U) by (unfold exclusive, index_ids; cbn; set_solver).
    destruct existing as [e|]; cbn [option_list option_rect] in He.
    - apply Forall2_cons_inv_l in He as (v & ? & Hv & He & ->). apply Forall2_nil_inv_l in He as ->.
      rewrite (index_stored_decode U e v) by done. apply Forall_cons in Hae as [[Hve Hvi] _]. cbn [merged_index foldl].
      destruct (merge_pair_new v Hve) as [-> _]. done.
    - apply Forall2_nil_inv_l in He as ->. done. }
  destruct Hbase as (Hb & Hbx & Hbi).
  destruct (merged_index_ok U base s1 Hbx Hbi Ha1) as [Hx1 Hi1]. set (m1 := merged_index base s1) in *.
  destruct (index_codec U m1 HU Hx1 Hi1) as (v1 & Hv1 & Hd1).
  destruct (merged_index_ok U m1 s2 Hx1 Hi1 Ha2) as [Hx2 Hi2]. set (m := merged_index m1 s2) in *.
  destruct (index_codec U m HU Hx2 Hi2) as (v & Hv & Hd).
  assert (Hm : merged_index index_new (ve ++ s1 ++ s2) = m) by (unfold m, m1, base, merged_index; by rewrite !foldl_app).
  exists v1, v, m1. unfold merge_batch_metadata_index. rewrite Hm, Hb. cbn [res_bind].
  rewrite (merge_indexes_spec U base o1 s1) by done. cbn [res_bind]. fold m1. split_and!; [done|by split_and!| | |by split_and!].
  - rewrite Hd1. cbn [res_bind]. rewrite (merge_indexes_spec U m1 o2 s2) by done. done.
  - rewrite (merge_indexes_spec U base (o1 ++ o2) (s1 ++ s2)) by (done || by apply Forall2_app).
    cbn [res_bind]. unfold merged_index. rewrite foldl_app. exact Hv.
Qed.
Lemma merged_verdict base vs x :
  exclusive base → Forall exclusive vs →
  verdict (merged_index base vs) x = match last (omap (λ w, verdict w x) vs) with Some b => Some b | None => verdict base x end.
Proof.
  intros Hb H. revert base Hb. induction H as [|v vs Hv H IH]; intros base Hb; [done|].
  unfold merged_index. cbn [foldl]. change (foldl _ ?b vs) with (merged_index b vs).
  rewrite IH, merge_pair_verdict by (done || apply merge_pair_exclusive). cbn [omap list_omap].
  change (list_omap _ _ ?f ?l) with (omap f l).
  destruct (verdict v x) as [b|]; [|done].
  change (b :: ?l) with ([b] ++ l). rewrite last_app. by destruct (last _).
Qed.

(** A filter sees the newest write: after any number of versions of an index entry
    are merged, a vector is among the effective ids exactly when the newest version that
    mentions it includes it. *)
Theorem metadata_index_newest_wins U existing ops vs x :
  ids_fit U → Forall2 (IndexStored U) (option_list existing ++ ops) vs →
  ∃ v m, merge_batch_metadata_index existing ops = Ok v ∧ index_decode v = Ok m ∧
    (x ∈ effective_vector_ids m ↔ last (omap (λ w, verdict w x) vs) = Some true) ∧
    index_contains m x = bool_decide (x ∈ effective_vector_ids m).
Proof.
  intros HU H. pose proof H as H'. rewrite <-(app_nil_r ops) in H'.
  destruct (index_merge_split U existing ops [] vs HU H') as (_ & v & _ & _ & _ & _ & Hv & Hs).
  rewrite app_nil_r in Hv. exists v, (merged_index index_new vs). split_and!; [done|by apply (index_stored_decode U)| |].
  - assert (Hx : Forall exclusive vs) by (clear -H; induction H as [|? ? ? ? (? & _)]; constructor; auto).
    pose proof (merged_verdict index_new vs x ltac:(unfold exclusive; cbn; set_solver) Hx) as Hm.
    assert (Hn : verdict index_new x = None) by (unfold verdict, index_new; cbn; by rewrite !decide_False by set_solver).
    rewrite Hn in Hm. destruct Hs as (Hexc & _). unfold effective_vector_ids, exclusive, verdict in *.
    rewrite elem_of_difference. destruct (last _) as [[]|]; repeat case_decide; naive_solver.
  - unfold index_contains, effective_vector_ids. case_bool_decide; case_bool_decide; cbn; symmetry;
      rewrite ?bool_decide_eq_true, ?bool_decide_eq_false; set_solver.
Qed.

(** ** Counters *)
Lemma as_signed_range z : in_i 32 (as_signed 32 z).
Proof.
  unfold as_signed, in_i. pose proof (wrap_range 32 z ltac:(lia)) as H. unfold in_u in H. change (32 - 1) with 31.
  case_bool_decide; lia.
Qed.

Lemma sum_stats_spec total ns : in_i 32 total → Forall (in_i 32) ns →
  ∃ s, sum_stats total (centroid_stats_encode <$> ns) = Ok s ∧ in_i 32 s ∧ s mod 2 ^ 32 = (total + foldr Z.add 0 ns) mod 2 ^ 32.
Proof.
  intros Ht Hn. revert total Ht. induction Hn as [|n ns Hn Hns IH]; intros total Ht.
  { exists total. split_and!; [done|done|]. cbn. f_equal. lia. }
  rewrite fmap_cons. cbn [sum_stats foldr]. rewrite <-(app_nil_r (centroid_stats_encode n)), centroid_stats_codec by done.
  destruct (IH _ (as_signed_range (total + n))) as (s & Hs & Hi & Hm). exists s. split_and!; [done|done|].
  rewrite Hm. replace (total + (n + foldr Z.add 0 ns)) with ((total + n) + foldr Z.add 0 ns) by lia.
  rewrite Z.add_mod, (Z.add_mod (total + n)) by lia. f_equal. f_equal.
  unfold as_signed, wrap. case_bool_decide; [by rewrite !Z.mod_mod by lia|].
  replace ((total + n) mod 2 ^ 32 - 2 ^ 32) with ((total + n) mod 2 ^ 32 + (-1) * 2 ^ 32) by lia.
  rewrite Z.mod_add by lia. by rewrite Z.mod_mod by lia.
Qed.

Lemma sum_stats_app total a b : sum_stats total (a ++ b) = let? t := sum_stats total a in sum_stats t b.
Proof.
  revert total. induction a as [|x a IH]; intros total; [done|]. cbn [app sum_stats].
  destruct (centroid_stats_decode x); [apply IH|done|done].
Qed.

(** ** The operator *)
(** the values of a record type that are merged *)
Definition Mergeable (d : nat) (U : gset Z) (t : RecordType) (value : bytes) : Prop :=
  match t with
  | PostingList => ∃ us, Stored d value us
  | MetadataIndex => ∃ v, IndexStored U value v
  | CentroidStats => ∃ n, in_i 32 n ∧ value = centroid_stats_encode n
  | _ => True
  end.

Lemma Forall_ex_2 {A B} (P : A → B → Prop) l : Forall (λ x, ∃ y, P x y) l → ∃ l', Forall2 P l l'.
Proof.
  induction 1 as [|x l [y Hy] Hl [l' IH]]; [by exists []|]. exists (y :: l'). by constructor.
Qed.

Lemma stats_merge_split d U existing o1 o2 :
  Forall (Mergeable d U CentroidStats) (option_list existing ++ o1 ++ o2) →
  ∃ v1 v, merge_batch_centroid_stats existing o1 = Ok v1 ∧ Mergeable d U CentroidStats v1 ∧
    merge_batch_centroid_stats (Some v1) o2 = Ok v ∧ merge_batch_centroid_stats existing (o1 ++ o2) = Ok v.
Proof.
  intros H. apply Forall_app in H as [He H]. apply Forall_app in H as [H1 H2]. cbn [Mergeable] in *.
  assert (Hns : ∀ ops, Forall (λ v, ∃ n, in_i 32 n ∧ v = centroid_stats_encode n) ops →
    ∃ ns, ops = centroid_stats_encode <$> ns ∧ Forall (in_i 32) ns).
  { intros ops. induction 1 as [|v ops (n & Hn & ->) Ho (ns & -> & Hns)]; [by exists []|]. exists (n :: ns). by split; [|constructor]. }
  destruct (Hns _ H1) as (n1 & -> & Hn1), (Hns _ H2) as (n2 & -> & Hn2).
  assert (Hbase : ∃ t, (match existing with
    | Some e => match centroid_stats_decode e with Ok n => Ok n | _ => Panic end
    | None => Ok 0 end) = Ok (E:=Error) t ∧ in_i 32 t).
  { destruct existing as [e|]; [|exists 0; by vm_compute]. apply Forall_cons in He as [(n & Hn & ->) _]. exists n.
    rewrite <-(app_nil_r (centroid_stats_encode n)), centroid_stats_codec by done. done. }
  destruct Hbase as (t & Hb & Ht). destruct (sum_stats_spec t n1 Ht Hn1) as (s1 & Hs1 & Hi1 & _).
  destruct (sum_stats_spec s1 n2 Hi1 Hn2) as (s2 & Hs2 & Hi2 & _).
  exists (centroid_stats_encode s1), (centroid_stats_encode s2). unfold merge_batch_centroid_stats. rewrite Hb. cbn [res_bind].
  split_and!; [by rewrite Hs1|by exists s1| |].
  - rewrite <-(app_nil_r (centroid_stats_encode s1)), centroid_stats_codec by done. cbn [res_bind]. by rewrite Hs2.
  - rewrite sum_stats_app, Hs1. cbn [res_bind]. by rewrite Hs2.
Qed.

(** C36: The vector database's merge operator is associative: merging a batch of
    operands into the existing value of a key gives the same bytes as merging a first part
    and then the rest, for posting lists, metadata indexes, centroid counters
    and the record types that are only overwritten, so it does not matter when the store
    compacts.  It never panics on values the database wrote. *)
Theorem vec_merge_split (d : nat) (U : gset Z) (k : Key) (existing : option bytes) (o1 o2 : list bytes) :
  option_list existing ++ o1 ≠ [] → ids_fit U →
  Forall (Mergeable d U (key_type k)) (option_list existing ++ o1 ++ o2) →
  ∃ v1 v, merge_batch d (key_bytes k) existing o1 = Ok v1 ∧ Mergeable d U (key_type k) v1 ∧
    merge_batch d (key_bytes k) (Some v1) o2 = Ok v ∧ merge_batch d (key_bytes k) existing (o1 ++ o2) = Ok v.
Proof.
  intros Hne HU H. unfold merge_batch, key_bytes.
  assert (Hp : KeyPrefix.from_bytes_with_validation (type_bytes (key_type k) ++ key_tail k) SUBSYSTEM KEY_VERSION =
    Ok (prefix (key_type k)) ∧ from_prefix (prefix (key_type k)) = Ok (key_type k)) by (by destruct (key_type k)).
  destruct Hp as [Hp Ht]. rewrite Hp. cbn [res_map_err res_bind]. rewrite Ht. cbn [res_bind].
  set (key := type_bytes _ ++ _).
  destruct (key_type k) eqn:Hty; cbn [Mergeable] in H |- *;
    try (destruct (default_split (E:=Error) key existing o1 o2 Hne) as (v1 & v & H1 & H2 & H3);
         exists v1, v; by rewrite H1, H2, H3).
  - destruct (Forall_ex_2 _ _ H) as [srcs Hs].
    destruct (posting_merge_split d existing o1 o2 srcs Hs) as (v1 & v & l & H1 & Hv & H2 & H3 & _).
    exists v1, v. by rewrite H1, H2, H3.
  - destruct (Forall_ex_2 _ _ H) as [vs Hs].
    destruct (index_merge_split U existing o1 o2 vs HU Hs) as (v1 & v & m1 & H1 & Hv & H2 & H3 & _).
    exists v1, v. rewrite H1, H2, H3. split_and!; eauto.
  - destruct (stats_merge_split d U existing o1 o2 H) as (v1 & v & H1 & Hv & H2 & H3). exists v1, v. by rewrite H1, H2, H3.
Qed.
End operator.

(** ** A plain format: the laws can hold *)
Module Plain.
(** a set as the 8-byte words of its elements *)
#[local] Instance plain_treemap : RoaringTreemap := {
  rt_serialize s := Some (elements s ≫= be_bytes 8);
  rt_deserialize b := match decode_items vid_decode (length b / 8) b with Ok (xs, _) => Some (list_to_set xs) | _ => None end;
}.
#[local] Instance plain_treemap_laws : RoaringTreemapLaws.
Proof.
  split. intros s Hs. exists (elements s ≫= be_bytes 8). split; [done|].
  assert (Hl : ∀ xs : list Z, length (xs ≫= be_bytes 8) = (length xs * 8)%nat).
  { induction xs as [|x xs IH]; [done|]. rewrite bind_cons, length_app, IH, be_bytes_length. cbn [length]. lia. }
  split.
  - unfold rt_deserialize, plain_treemap. rewrite Hl, Nat.div_mul by lia. rewrite <-(app_nil_r (elements s ≫= _)).
    rewrite (decode_items_spec vid_decode (be_bytes 8)); [by rewrite list_to_set_elements_L|].
    intros x b Hx%elem_of_elements. by apply (decode_encode (dec:=vid_decode)), Hs.
  - unfold blen. rewrite Hl. change (size s) with (length (elements s)). lia.
Qed.

Definition demo_key : Key := KIndex (mkIndexKey [x61] (FBool true)).
Definition demo_value (v : MetadataIndexValue) : bytes := match index_encode v with Ok b => b | _ => [] end.

Lemma vec_merge_split_witness :
  let inc x := demo_value (include_vector x index_new) in
  let exc x := demo_value (exclude_vector x index_new) in
  ∃ v1 v, merge_batch 2 (key_bytes demo_key) None [inc 1; inc 2] = Ok v1 ∧
    merge_batch 2 (key_bytes demo_key) (Some v1) [exc 1] = Ok v ∧
    index_decode v = Ok (mkIndex {[2]} {[1]}).
Proof.
  cbv zeta. set (U := {[1; 2]} : gset Z).
  destruct (vec_merge_split 2 U demo_key None
    [demo_value (include_vector 1 index_new); demo_value (include_vector 2 index_new)]
    [demo_value (exclude_vector 1 index_new)]) as (v1 & v & H1 & _ & H2 & H3).
  - done.
  - split; [intros x Hx; unfold U in Hx; unfold in_u; set_solver by lia|by vm_compute].
  - cbn [option_list option_rect app key_type demo_key Mergeable]. rewrite !Forall_cons.
    split_and!; [exists (mkIndex {[1]} ∅)|exists (mkIndex {[2]} ∅)|exists (mkIndex ∅ {[1]})|by apply Forall_nil].
    all: unfold IndexStored, exclusive, index_ids, U; cbn [included excluded]; split_and!; [set_solver..|vm_compute; reflexivity].
  - exists v1, v. split; [exact H1|]. split; [exact H2|].
    apply (f_equal (λ r, match r with Ok b => index_decode b | _ => Panic end)) in H3.
    cbn beta iota in H3. rewrite <-H3. vm_compute. reflexivity.
Defined.

Lemma metadata_index_newest_wins_witness :
  ∃ v m, merge_batch_metadata_index None [demo_value (include_vector 1 index_new); demo_value (exclude_vector 1 index_new)] = Ok v ∧
    index_decode v = Ok m ∧ (1 ∈ effective_vector_ids m ↔ Some false = Some true).
Proof.
  destruct (metadata_index_newest_wins {[1]} None
    [demo_value (include_vector 1 index_new); demo_value (exclude_vector 1 index_new)]
    [mkIndex {[1]} ∅; mkIndex ∅ {[1]}] 1) as (v & m & Hv & Hd & Hm & _).
  - split; [intros x Hx; unfold in_u; set_solver by lia|by vm_compute].
  - repeat constructor; unfold exclusive, index_ids; cbn [included excluded]; try set_solver.
  - exists v, m. split; [exact Hv|]. split; [exact Hd|]. exact Hm.
Defined.
End Plain.

End VecMerge.
