(* ===== verification/VecMath.v ===== *)
(** * vector: distances

    [math/distance.rs] and [math/heuristics.rs]: the scalar and vectorised kernels,
    the distance between two vectors with its order, normalisation and the split
    heuristics.  The kernels are written over the operations of the processor on
    32-bit floats ([FloatOps]), so that every theorem holds whatever they return;
    [f32_ops] computes them for bit patterns with the IEEE 754 arithmetic of
    [SpecFloat] (a NaN result is the canonical one).  Which kernel runs depends on
    the features of the processor ([Cpu]). *)
From Stdlib Require Import Floats.SpecFloat.
From S2P Require Import Prelude VecSerde.
#[local] Open Scope Z_scope.

(** ** 32-bit floats *)
Class FloatOps (F : Type) : Type := {
  fadd : F → F → F;
  fsub : F → F → F;
  fmul : F → F → F;
  fdiv : F → F → F;
  ffma : F → F → F → F;                  (* a * b + c, rounded once *)
  fsqrt : F → F;
  fneg : F → F;
  fzero : F;
  fneg_zero : F;
  fone : F;
  fcmp : F → F → option comparison;      (* [partial_cmp] *)
}.

Module VecMath.
Import Vec.

Section kernels.
Context {F : Type} `{!FloatOps F}.

(** [iter().sum::<f32>()] starts from -0.0 *)
Definition sum_f32 (l : list F) : F := foldl fadd fneg_zero l.

Definition l2_distance_scalar (a b : list F) : F :=
  sum_f32 (zip_with (λ x y, let d := fsub x y in fmul d d) a b).

Definition dot_product_scalar (a b : list F) : F := sum_f32 (zip_with fmul a b).

(** [_mm256_loadu_ps(v.as_ptr().add(idx))]: a read of [n] floats; outside the slice
    it would be undefined behaviour *)
Definition loadu (n idx : nat) (v : list F) : res Error (list F) :=
  if bool_decide (idx + n ≤ length v)%nat then Ok (take n (drop idx v)) else Panic.

(** the operation on each lane *)
Definition on_lanes (step : F → F → F → F) (acc lhs rhs : list F) : list F :=
  zip_with (λ c xy, step c xy.1 xy.2) acc (zip lhs rhs).

(** [while idx + n <= len { .. idx += n }] *)
Fixpoint simd_loop (n : nat) (step : F → F → F → F) (fuel idx : nat) (a b acc : list F) :
    res Error (nat * list F) :=
  if bool_decide (idx + n ≤ length a)%nat then
    match fuel with
    | O => Panic
    | S fuel =>
        let? lhs := loadu n idx a in
        let? rhs := loadu n idx b in
        simd_loop n step fuel (idx + n)%nat a b (on_lanes step acc lhs rhs)
    end
  else Ok (idx, acc).

(** the lanes, their sum, then the elements left over one by one *)
Definition simd_sum (n : nat) (step : F → F → F → F) (term : F → F → F) (a b : list F) : res Error F :=
  let? (idx, acc) := simd_loop n step (length a) 0 a b (replicate n fzero) in
  Ok (foldl (λ sum xy, fadd sum (term xy.1 xy.2)) (sum_f32 acc) (zip (drop idx a) (drop idx b))).

Definition square_diff (x y : F) : F := let diff := fsub x y in fmul diff diff.
Definition add_square_diff (acc x y : F) : F := let diff := fsub x y in fadd acc (fmul diff diff).
Definition fma_square_diff (acc x y : F) : F := let diff := fsub x y in ffma diff diff acc.
Definition add_product (acc x y : F) : F := fadd acc (fmul x y).

Definition l2_distance_avx512 := simd_sum 16 fma_square_diff square_diff.
Definition l2_distance_avx_fma := simd_sum 8 fma_square_diff square_diff.
Definition l2_distance_avx := simd_sum 8 add_square_diff square_diff.
Definition dot_product_avx512 := simd_sum 16 add_product fmul.
Definition dot_product_avx := simd_sum 8 add_product fmul.

(** what [is_x86_feature_detected!] says; on another architecture nothing *)
Record Cpu : Type := mkCpu { has_avx512f : bool; has_avx : bool; has_fma : bool }.

Definition l2_distance (cpu : Cpu) (a b : list F) : res Error F :=
  if has_avx512f cpu then l2_distance_avx512 a b
  else if has_avx cpu && has_fma cpu then l2_distance_avx_fma a b
  else if has_avx cpu then l2_distance_avx a b
  else Ok (l2_distance_scalar a b).

Definition dot_product (cpu : Cpu) (a b : list F) : res Error F :=
  if has_avx512f cpu then dot_product_avx512 a b
  else if has_avx cpu then dot_product_avx a b
  else Ok (dot_product_scalar a b).

(** ** Normalisation *)
Definition l2_normalize_vector (v : list F) : list F :=
  let norm := fsqrt (sum_f32 ((λ x, fmul x x) <$> v)) in
  match fcmp norm fzero with Some Gt => (λ x, fdiv x norm) <$> v | _ => v end.

Definition normalize_if_needed (metric : DistanceMetric) (v : list F) : list F :=
  match metric with Cosine => l2_normalize_vector v | _ => v end.
End kernels.

(** ** Arithmetic of bit patterns *)
Definition f32_of_bits (z : Z) : spec_float :=
  let s := Z.testbit z 31 in
  let e := Z.land (Z.shiftr z 23) 255 in
  let m := Z.land z (2 ^ 23 - 1) in
  if e =? 255 then (if m =? 0 then S754_infinity s else S754_nan)
  else if e =? 0 then
    match m with Zpos p => S754_finite s p (-149) | _ => S754_zero s end
  else match m + 2 ^ 23 with Zpos p => S754_finite s p (e - 150) | _ => S754_nan end.

Definition bits_of_f32 (f : spec_float) : Z :=
  let sign (s : bool) := if s then 2 ^ 31 else 0 in
  match f with
  | S754_zero s => sign s
  | S754_infinity s => sign s + 255 * 2 ^ 23
  | S754_nan => 0x7fc00000
  | S754_finite s m e =>
      if Zpos m <? 2 ^ 23 then sign s + Zpos m else sign s + (e + 150) * 2 ^ 23 + (Zpos m - 2 ^ 23)
  end.

Definition f32_lift2 (op : spec_float → spec_float → spec_float) (x y : Z) : Z :=
  bits_of_f32 (op (f32_of_bits x) (f32_of_bits y)).

(** the exact value of a finite product, plus the third operand, rounded once *)
Definition SFfma (x y z : spec_float) : spec_float :=
  match x, y, z with
  | S754_finite s1 m1 e1, S754_finite s2 m2 e2, S754_finite s3 m3 e3 =>
      let e := Z.min (e1 + e2) e3 in
      let p := cond_Zopp (xorb s1 s2) (Zpos m1 * Zpos m2 * 2 ^ (e1 + e2 - e)) in
      let c := cond_Zopp s3 (Zpos m3 * 2 ^ (e3 - e)) in
      binary_normalize 24 128 (p + c) e (xorb s1 s2 && s3)
  | S754_finite s1 m1 e1, S754_finite s2 m2 e2, S754_zero _ =>
      binary_normalize 24 128 (cond_Zopp (xorb s1 s2) (Zpos m1 * Zpos m2)) (e1 + e2) false
  | S754_finite _ _ _, S754_finite _ _ _, _ => z
  | _, _, _ => SFadd 24 128 (SFmul 24 128 x y) z
  end.

#[global] Instance f32_ops : FloatOps Z := {
  fadd := f32_lift2 (SFadd 24 128);
  fsub := f32_lift2 (SFsub 24 128);
  fmul := f32_lift2 (SFmul 24 128);
  fdiv := f32_lift2 (SFdiv 24 128);
  ffma x y z := bits_of_f32 (SFfma (f32_of_bits x) (f32_of_bits y) (f32_of_bits z));
  fsqrt x := bits_of_f32 (SFsqrt 24 128 (f32_of_bits x));
  fneg x := bits_of_f32 (SFopp (f32_of_bits x));
  fzero := 0;
  fneg_zero := 2 ^ 31;
  fone := 0x3f800000;
  fcmp x y := SFcompare (f32_of_bits x) (f32_of_bits y);
}.

(** ** VectorDistance *)
(** [f32::total_cmp]: the bit patterns as signed integers, the bits below the sign
    flipped when it is set *)
Definition total_key (x : Z) : Z :=
  let left := as_signed 32 x in Z.lxor left (Z.shiftr (wrap 32 (Z.shiftr left 31)) 1).
Definition total_cmp (x y : Z) : comparison := total_key x ?= total_key y.

Record VectorDistance : Type := mkDistance { score : Z; metric : DistanceMetric }.

Definition distance_cmp (self other : VectorDistance) : comparison :=
  match metric self with
  | L2 | Cosine => total_cmp (score self) (score other)
  | DotProduct => total_cmp (score other) (score self)
  end.

Definition distance_le (a b : VectorDistance) : bool := match distance_cmp a b with Gt => false | _ => true end.
Definition distance_lt (a b : VectorDistance) : bool := match distance_cmp a b with Lt => true | _ => false end.

Section distances.
Context `{!FloatOps Z} (cpu : Cpu).

Definition compute_distance (a b : list Z) (metric : DistanceMetric) : res Error VectorDistance :=
  let? _ := rust_assert (bool_decide (length a = length b)) in
  let? v := match metric with
            | L2 | Cosine => l2_distance cpu a b
            | DotProduct => dot_product cpu a b
            end in
  Ok (mkDistance v metric).

Definition raw_distance (a b : list Z) (metric : DistanceMetric) : res Error Z :=
  let? d := compute_distance a b metric in
  Ok (match metric with L2 | Cosine => score d | DotProduct => fneg (score d) end).

(** ** Split heuristics *)
Definition split_heuristic (vector c_vector c0_vector c1_vector : list Z) (m : DistanceMetric) : res Error bool :=
  let? d_old := compute_distance vector c_vector m in
  let? d0 := compute_distance vector c0_vector m in
  let? d1 := compute_distance vector c1_vector m in
  Ok (distance_le d_old d0 && distance_le d_old d1).

Definition neighbour_split_heuristic (vector c_vector c0_vector c1_vector : list Z) (m : DistanceMetric) :
    res Error bool :=
  let? d_old := compute_distance vector c_vector m in
  let? d0 := compute_distance vector c0_vector m in
  let? d1 := compute_distance vector c1_vector m in
  Ok (distance_le d0 d_old || distance_le d1 d_old).
End distances.

(** ** The order of distances *)
Lemma distance_cmp_refl a : distance_cmp a a = Eq.
Proof. unfold distance_cmp, total_cmp. destruct (metric a); apply Z.compare_refl. Qed.

(** distances are compared within one metric *)
Lemma distance_cmp_antisym a b : metric a = metric b → distance_cmp b a = CompOpp (distance_cmp a b).
Proof.
  intros He. unfold distance_cmp, total_cmp. rewrite He. destruct (metric b); apply Z.compare_antisym.
Qed.

Lemma distance_cmp_eq a b : metric a = metric b → distance_cmp a b = Eq ↔ total_key (score a) = total_key (score b).
Proof.
  intros He. unfold distance_cmp, total_cmp. destruct (metric a); rewrite Z.compare_eq_iff; naive_solver.
Qed.

Lemma distance_cmp_trans c a b d :
  metric a = metric b → metric b = metric d → distance_cmp a b = c → distance_cmp b d = c → distance_cmp a d = c.
Proof.
  intros He He'. unfold distance_cmp, total_cmp. rewrite He, He'.
  destruct (metric d), c; rewrite ?Z.compare_eq_iff, ?Z.compare_lt_iff, ?Z.compare_gt_iff; lia.
Qed.

Lemma compute_distance_metric `{!FloatOps Z} cpu a b m d : compute_distance cpu a b m = Ok d → metric d = m.
Proof. unfold compute_distance. by intros (_ & _ & (v & _ & [= <-])%res_bind_ok)%res_bind_ok. Qed.

(** ** The kernels sum the same terms *)
(** arithmetic without rounding *)
Class ExactFloat (F : Type) `{!FloatOps F} : Prop := {
  fadd_assoc (x y z : F) : fadd x (fadd y z) = fadd (fadd x y) z;
  fadd_comm (x y : F) : fadd x y = fadd y x;
  fadd_zero (x : F) : fadd fzero x = x;
  fadd_neg_zero (x : F) : fadd fneg_zero x = x;
  ffma_exact (x y z : F) : ffma x y z = fadd z (fmul x y);
}.

Section sums.
Context {F : Type} `{!FloatOps F}.

Definition total (l : list F) : F := foldr fadd fzero l.

Lemma length_on_lanes step acc lhs rhs n :
  length acc = n → length lhs = n → length rhs = n → length (on_lanes (F:=F) step acc lhs rhs) = n.
Proof. intros. unfold on_lanes. rewrite length_zip_with, length_zip. lia. Qed.

Section exact.
Context `{!ExactFloat F}.

Lemma foldl_total z l : foldl fadd z l = fadd z (total l).
Proof.
  revert z. induction l as [|x l IH]; intros z; simpl; [by rewrite fadd_comm, fadd_zero|].
  by rewrite IH, fadd_assoc.
Qed.

Lemma total_app a b : total (a ++ b) = fadd (total a) (total b).
Proof. induction a as [|x a IH]; simpl; [by rewrite fadd_zero|]. by rewrite IH, fadd_assoc. Qed.

Lemma sum_total l : sum_f32 l = total l.
Proof. unfold sum_f32. by rewrite foldl_total, fadd_neg_zero. Qed.

Lemma total_replicate n : total (replicate n fzero) = fzero.
Proof. induction n as [|n IH]; simpl; [done|]. by rewrite IH, fadd_zero. Qed.

Lemma total_lanes step term acc lhs rhs :
  (∀ c x y, step c x y = fadd c (term x y)) → length acc = length lhs → length lhs = length rhs →
  total (on_lanes step acc lhs rhs) = fadd (total acc) (total (zip_with term lhs rhs)).
Proof.
  intros Hs. unfold on_lanes. revert lhs rhs. induction acc as [|c acc IH]; intros [|x lhs] [|y rhs] H1 H2;
    try done; simpl; [by rewrite fadd_zero|].
  rewrite IH by (simpl in *; congruence). rewrite Hs, <-!fadd_assoc. f_equal.
  rewrite !fadd_assoc, (fadd_comm (term x y)). done.
Qed.
End exact.

Lemma simd_loop_spec n step term fuel idx (a b acc : list F) :
  (0 < n)%nat → length a = length b → length acc = n → (idx ≤ length a)%nat → (length a ≤ idx + fuel)%nat →
  ∃ idx' acc', simd_loop n step fuel idx a b acc = Ok (idx', acc') ∧ (idx' ≤ length a)%nat ∧
    (ExactFloat F → (∀ c x y, step c x y = fadd c (term x y)) →
     fadd (total acc') (total (drop idx' (zip_with term a b))) = fadd (total acc) (total (drop idx (zip_with term a b)))).
Proof.
  intros Hn Hab. revert idx acc. induction fuel as [|fuel IH]; intros idx acc Hacc Hi Hf; cbn [simd_loop];
    case_bool_decide as Hlt; try (by eexists _, _; split_and!); [lia|].
  unfold loadu. rewrite !bool_decide_eq_true_2 by lia. cbn [res_bind].
  assert (Hl : ∀ v : list F, length v = length a → length (take n (drop idx v)) = n).
  { intros v Hv. rewrite length_take, length_drop. lia. }
  destruct (IH (idx + n)%nat (on_lanes step acc (take n (drop idx a)) (take n (drop idx b)))) as (idx' & acc' & H1 & H2 & H3);
    [by apply length_on_lanes; [|apply Hl|apply Hl]|lia|lia|].
  exists idx', acc'. split_and!; [done|done|]. intros He Hs. rewrite (H3 He Hs).
  rewrite (total_lanes step term) by (try done; rewrite ?Hl; congruence).
  rewrite <-drop_drop. set (ts := zip_with term a b).
  assert (zip_with term (take n (drop idx a)) (take n (drop idx b)) = take n (drop idx ts)) as ->
    by (unfold ts; by rewrite zip_with_drop, zip_with_take).
  rewrite <-(take_drop n (drop idx ts)) at 3. by rewrite total_app, fadd_assoc.
Qed.

Lemma simd_sum_spec n step term (a b : list F) :
  (0 < n)%nat → length a = length b →
  ∃ r, simd_sum n step term a b = Ok r ∧
    (ExactFloat F → (∀ c x y, step c x y = fadd c (term x y)) → r = sum_f32 (zip_with term a b)).
Proof.
  intros Hn Hab. unfold simd_sum.
  destruct (simd_loop_spec n step term (length a) 0 a b (replicate n fzero)) as (idx & acc & H1 & H2 & H3);
    [done|done|by rewrite length_replicate|lia|lia|].
  rewrite H1. cbn [res_bind]. eexists. split; [done|]. intros He Hs. specialize (H3 He Hs).
  rewrite total_replicate, fadd_zero, drop_0 in H3. rewrite (sum_total (zip_with term a b)), <-H3, sum_total.
  rewrite (zip_with_drop term), <-foldl_total. clear.
  generalize (total acc) (drop idx a) (drop idx b). intros z l k. revert z k.
  induction l as [|x l IH]; intros z [|y k]; simpl; [done..|]. apply IH.
Qed.
End sums.

Lemma kernels_spec {F} `{!FloatOps F} (cpu : Cpu) (a b : list F) :
  length a = length b →
  ∃ r s, l2_distance cpu a b = Ok r ∧ dot_product cpu a b = Ok s ∧
    (ExactFloat F → r = l2_distance_scalar a b ∧ s = dot_product_scalar a b).
Proof.
  intros Hab. unfold l2_distance, dot_product, l2_distance_avx512, l2_distance_avx_fma, l2_distance_avx,
    dot_product_avx512, dot_product_avx.
  assert (Hf : ExactFloat F → ∀ c x y, fma_square_diff c x y = fadd c (square_diff x y))
    by (intros; apply ffma_exact).
  destruct (simd_sum_spec 16 fma_square_diff square_diff a b) as (r1 & E1 & H1); [lia|done|].
  destruct (simd_sum_spec 8 fma_square_diff square_diff a b) as (r2 & E2 & H2); [lia|done|].
  destruct (simd_sum_spec 8 add_square_diff square_diff a b) as (r3 & E3 & H3); [lia|done|].
  destruct (simd_sum_spec 16 add_product fmul a b) as (r4 & E4 & H4); [lia|done|].
  destruct (simd_sum_spec 8 add_product fmul a b) as (r5 & E5 & H5); [lia|done|].
  rewrite E1, E2, E3, E4, E5.
  repeat case_match; eexists _, _; (split; [done|]); (split; [done|]); intros He;
    split; first [by apply (H1 He (Hf He))|by apply (H2 He (Hf He))|by apply H3|by apply H4|by apply H5|done].
Qed.

Lemma compute_distance_ok `{!FloatOps Z} cpu a b m :
  length a = length b → ∃ d, compute_distance cpu a b m = Ok d ∧ metric d = m.
Proof.
  intros Hab. destruct (kernels_spec cpu a b Hab) as (r & s & Hr & Hs & _). unfold compute_distance.
  rewrite bool_decide_eq_true_2 by done. cbn [rust_assert res_bind]. rewrite Hr, Hs. destruct m; cbn; eauto.
Qed.

(** C38: On vectors of one length every kernel, whichever the processor selects, reads
    only inside the slices and returns, whatever the arithmetic; and with arithmetic
    that does not round it returns what the scalar kernel does.  So the vectorised
    kernels sum each term once: they differ from the scalar one in the order of the
    additions alone. *)
Theorem distance_kernels_agree {F} `{!FloatOps F} (cpu : Cpu) (a b : list F) :
  length a = length b →
  (∃ r, l2_distance cpu a b = Ok r) ∧ (∃ r, dot_product cpu a b = Ok r) ∧
  (ExactFloat F → l2_distance cpu a b = Ok (l2_distance_scalar a b) ∧ dot_product cpu a b = Ok (dot_product_scalar a b)).
Proof.
  intros Hab. destruct (kernels_spec cpu a b Hab) as (r & s & Hr & Hs & He). split_and!; eauto.
  intros Hx. destruct (He Hx) as [<- <-]. done.
Qed.

(** integers as exact floats *)
Definition int_ops : FloatOps Z := {|
  fadd := Z.add; fsub := Z.sub; fmul := Z.mul; fdiv := Z.div; ffma x y z := x * y + z; fsqrt := Z.sqrt;
  fneg := Z.opp; fzero := 0; fneg_zero := 0; fone := 1; fcmp x y := Some (x ?= y) |}.

Lemma int_exact : @ExactFloat Z int_ops.
Proof. split; intros; cbn; lia. Qed.

Lemma distance_kernels_agree_witness :
  let a := Z.of_nat <$> seq 0 19 in let b := replicate 19 1 in
  @l2_distance Z int_ops (mkCpu false true true) a b = Ok (@l2_distance_scalar Z int_ops a b) ∧
  @l2_distance_scalar Z int_ops a b = 1786 ∧ (∃ r, @dot_product Z f32_ops (mkCpu true true true) a b = Ok r).
Proof.
  cbv zeta. set (a := Z.of_nat <$> seq 0 19). set (b := replicate 19 1).
  assert (Hab : length a = length b) by reflexivity. split_and!.
  - apply (@distance_kernels_agree Z int_ops (mkCpu false true true) a b Hab), int_exact.
  - reflexivity.
  - apply (@distance_kernels_agree Z f32_ops (mkCpu true true true) a b Hab).
Defined.
End VecMath.
