(* ===== verification/VecList.v ===== *)
(** * vector: posting lists in memory

    [write/indexer/tree/posting_list.rs]: the postings of a centroid as the search
    reads them.  A posting is a window of a float buffer; a flattened list keeps all
    its vectors in one buffer shared by the postings.  Reading a vector outside its
    buffer panics; [wf_list] says it cannot happen, and every operation keeps it.
    [apply_updates] is the reference: the updates done one after the other on a map
    from ids to vectors. *)
From stdpp Require Import gmap.
From S2P Require Import Prelude HashMap SortBy VecSerde VecPosting.
#[local] Open Scope Z_scope.

Module VecList.
Import Vec VecPosting.

Record Posting : Type := mkPosting {
  p_id : VectorId;
  p_buffer : list Z;
  p_offset : nat;
  p_length : nat;
}.

#[global] Instance Posting_eq_dec : EqDecision Posting.
Proof. solve_decision. Defined.

Definition posting_new (id : VectorId) (vector : list Z) : Posting := mkPosting id vector 0 (length vector).
Definition from_shared_buffer (id : VectorId) (buffer : list Z) (offset length : nat) : Posting :=
  mkPosting id buffer offset length.

(** [&self.buffer[self.offset..self.offset + self.length]] *)
Definition posting_vector (p : Posting) : res Error (list Z) :=
  if bool_decide (p_offset p + p_length p ≤ length (p_buffer p))%nat
  then Ok (take (p_length p) (drop (p_offset p) (p_buffer p))) else Panic.

(** [From<Posting> for PostingUpdate] *)
Definition posting_update (p : Posting) : res Error PostingUpdate :=
  let? v := posting_vector p in Ok (PAppend (p_id p) v).

Abbreviation PostingList := (list Posting).

(** the ids and vectors of a list *)
Definition id_vector (p : Posting) : res Error (VectorId * list Z) :=
  let? v := posting_vector p in Ok (p_id p, v).

Definition dedupe_updates (updates : list PostingUpdate) : list PostingUpdate :=
  let last_by_id := last_by_id updates in
  snd <$> filter (λ e : nat * PostingUpdate, last_by_id !! uid e.2 = Some e.1) (imap pair updates).

Definition updated_ids (updates : list PostingUpdate) : gset Z := list_to_set (uid <$> updates).

Definition update_in_place (self : PostingList) (updates : list PostingUpdate) : PostingList :=
  let updates := dedupe_updates updates in
  if bool_decide (updates = []) then self
  else
    filter (λ p, p_id p ∉ updated_ids updates) self ++
    omap (λ u, match u with
               | PAppend id vector => Some (from_shared_buffer id vector 0 (length vector))
               | PDelete _ => None
               end) updates.

(** the buffer built so far, and the window of each vector in it *)
Definition add_vector (acc : list Z * list (VectorId * nat * nat)) (iv : VectorId * list Z) :
    list Z * list (VectorId * nat * nat) :=
  (acc.1 ++ iv.2, acc.2 ++ [(iv.1, length acc.1, length iv.2)]).

Definition from_vectors (vectors : list (VectorId * list Z)) : PostingList :=
  let '(buffer, offsets) := foldl add_vector ([], []) vectors in
  (λ o, from_shared_buffer o.1.1 buffer o.1.2 o.2) <$> offsets.

Definition flatten (self : PostingList) : res Error PostingList :=
  let? vectors := try_map id_vector self in
  Ok (from_vectors vectors).

Definition appended (updates : list PostingUpdate) : list (VectorId * list Z) :=
  omap (λ u, match u with PAppend id vector => Some (id, vector) | PDelete _ => None end) updates.

Definition update_and_flatten (self : PostingList) (updates : list PostingUpdate) : res Error PostingList :=
  let updates := dedupe_updates updates in
  if bool_decide (updates = []) then flatten self
  else
    let? retained := try_map id_vector (filter (λ p, p_id p ∉ updated_ids updates) self) in
    Ok (from_vectors (retained ++ appended updates)).

(** [assert!(seen.insert(posting.id()))] on the way *)
Fixpoint value_vectors (seen : gset Z) (postings : list PostingUpdate) : res Error (list (VectorId * list Z)) :=
  match postings with
  | [] => Ok []
  | u :: postings =>
      let? _ := rust_assert (bool_decide (uid u ∉ seen)) in
      let? vs := value_vectors ({[uid u]} ∪ seen) postings in
      Ok (match u with PAppend id vector => (id, vector) :: vs | PDelete _ => vs end)
  end.

Definition from_value (value : list PostingUpdate) : res Error PostingList :=
  let? vectors := value_vectors ∅ value in
  Ok (from_vectors vectors).

(** ** What a list holds *)
Definition in_bounds (p : Posting) : Prop := (p_offset p + p_length p ≤ length (p_buffer p))%nat.
Definition wf_list (pl : PostingList) : Prop := Forall in_bounds pl ∧ NoDup (p_id <$> pl).

Definition entry_of (p : Posting) : VectorId * list Z := (p_id p, take (p_length p) (drop (p_offset p) (p_buffer p))).
Definition entries (pl : PostingList) : list (VectorId * list Z) := entry_of <$> pl.
Definition content (pl : PostingList) : gmap Z (list Z) := list_to_map (entries pl).

Definition apply_update (m : gmap Z (list Z)) (u : PostingUpdate) : gmap Z (list Z) :=
  match u with PAppend id v => <[id := v]> m | PDelete id => delete id m end.
Definition apply_updates (m : gmap Z (list Z)) (us : list PostingUpdate) : gmap Z (list Z) := foldl apply_update m us.

(** ** Flattened lists *)
Fixpoint windows (n : nat) (vs : list (VectorId * list Z)) : list (VectorId * nat * nat) :=
  match vs with [] => [] | (id, v) :: vs => (id, n, length v) :: windows (n + length v) vs end.

Lemma add_vectors_spec vs buf offs :
  foldl add_vector (buf, offs) vs = (buf ++ concat vs.*2, offs ++ windows (length buf) vs).
Proof.
  revert buf offs. induction vs as [|[id v] vs IH]; intros buf offs; [by rewrite !app_nil_r|].
  cbn [foldl]. unfold add_vector at 2. cbn [fst snd]. rewrite IH. cbn [fmap list_fmap concat windows snd].
  by rewrite <-!app_assoc, length_app.
Qed.

Lemma windows_entries vs buf :
  (λ o, entry_of (from_shared_buffer o.1.1 (buf ++ concat vs.*2) o.1.2 o.2)) <$> windows (length buf) vs = vs.
Proof.
  revert buf. induction vs as [|[id v] vs IH]; intros buf; [done|]. cbn [windows]. rewrite fmap_cons. f_equal.
  - unfold entry_of. cbn. f_equal. by rewrite drop_app_length, take_app_length.
  - cbn [fmap list_fmap concat snd]. rewrite app_assoc, <-length_app. apply IH.
Qed.

Lemma windows_bounds vs buf rest :
  Forall in_bounds ((λ o, from_shared_buffer o.1.1 (buf ++ concat vs.*2 ++ rest) o.1.2 o.2) <$> windows (length buf) vs).
Proof.
  revert buf. induction vs as [|[id v] vs IH]; intros buf; [done|]. cbn [windows]. rewrite fmap_cons. constructor.
  - unfold in_bounds. cbn. rewrite !length_app. lia.
  - cbn [fmap list_fmap concat snd]. rewrite <-length_app. specialize (IH (buf ++ v)). by rewrite <-!app_assoc in *.
Qed.

(** a flattened list holds the vectors it was built from, in one buffer *)
Lemma from_vectors_spec vs :
  entries (from_vectors vs) = vs ∧ Forall in_bounds (from_vectors vs) ∧
  Forall (λ p, p_buffer p = concat vs.*2) (from_vectors vs).
Proof.
  unfold from_vectors, entries. rewrite add_vectors_spec. cbn [app length]. split_and!.
  - rewrite <-list_fmap_compose. apply (windows_entries vs []).
  - pose proof (windows_bounds vs [] []) as H. cbn [app length] in H. by rewrite app_nil_r in H.
  - apply Forall_fmap, Forall_true. done.
Qed.

Lemma entries_ids pl : (entries pl).*1 = p_id <$> pl.
Proof. unfold entries. by rewrite <-list_fmap_compose. Qed.

Lemma from_vectors_wf vs : NoDup vs.*1 → wf_list (from_vectors vs).
Proof. intros Hn. destruct (from_vectors_spec vs) as (He & Hb & _). split; [done|]. by rewrite <-entries_ids, He. Qed.

Lemma posting_vector_ok p : in_bounds p → posting_vector p = Ok (entry_of p).2.
Proof. intros H. unfold posting_vector. by rewrite bool_decide_eq_true_2. Qed.

Lemma id_vectors_ok pl : Forall in_bounds pl → try_map id_vector pl = Ok (entries pl).
Proof.
  intros Hb. apply try_map_ok. intros p Hp. rewrite Forall_forall in Hb. unfold id_vector.
  by rewrite (posting_vector_ok p (Hb p Hp)).
Qed.

(** ** Updates *)
Lemma dedupe_nodup us : NoDup (uid <$> dedupe_updates us).
Proof.
  unfold dedupe_updates. rewrite <-list_fmap_compose. apply NoDup_fmap_2_strong.
  - intros [i u] [j v] [H1 Hi]%list_elem_of_filter [H2 Hj]%list_elem_of_filter He. cbn in H1, H2, He.
    rewrite <-He, H1 in H2. injection H2 as ->.
    apply elem_of_lookup_imap in Hi as (? & ? & [= <- <-] & Hi), Hj as (? & ? & [= <- <-] & Hj).
    by rewrite Hi in Hj; injection Hj as ->.
  - apply NoDup_filter. apply (NoDup_fmap_1 fst).
    assert (fst <$> imap pair us = seq 0 (length us)) as ->; [|apply NoDup_seq]. apply list_eq. intros i.
    rewrite list_lookup_fmap, list_lookup_imap. destruct (us !! i) eqn:E; cbn.
    + symmetry. apply lookup_seq. split; [done|]. by eapply lookup_lt_Some.
    + symmetry. apply lookup_seq_ge. by apply lookup_ge_None_1 in E.
Qed.

Lemma elem_of_dedupe us u : u ∈ dedupe_updates us ↔ latest us !! uid u = Some u.
Proof.
  unfold dedupe_updates. rewrite list_elem_of_fmap. split.
  - intros ([i v] & -> & [H Hin]%list_elem_of_filter). cbn in *. destruct (last_by_id_mem _ _ _ H) as (w & Hw & Hl).
    apply elem_of_lookup_imap in Hin as (? & ? & [= <- <-] & Hi). congruence.
  - intros Hl. destruct (last_by_id_some _ _ _ Hl) as (i & Hi & Hu). exists (i, u). split; [done|].
    apply list_elem_of_filter. split; [done|]. apply elem_of_lookup_imap. eauto.
Qed.

Lemma dedupe_empty us : dedupe_updates us = [] → us = [].
Proof.
  destruct (last us) as [u|] eqn:E; [|by apply last_None in E]. intros H. exfalso.
  apply (not_elem_of_nil u). rewrite <-H, elem_of_dedupe, latest_last.
  apply last_Some in E as [l ->]. rewrite filter_app, filter_cons_True by done. cbn. by rewrite last_snoc.
Qed.

Lemma apply_updates_lookup m us k :
  apply_updates m us !! k = match latest us !! k with
                            | Some (PAppend _ v) => Some v | Some (PDelete _) => None | None => m !! k end.
Proof.
  unfold apply_updates. induction us as [|u us IH] using rev_ind; [done|]. rewrite foldl_app, latest_app. cbn [foldl].
  unfold latest at 1. cbn [foldl]. destruct (decide (uid u = k)) as [Hk|Hk].
  - rewrite <-Hk, lookup_insert_eq. destruct u; cbn [apply_update uid]; [apply lookup_insert_eq|apply lookup_delete_eq].
  - rewrite lookup_insert_ne, lookup_empty by done. rewrite <-IH.
    destruct u; cbn [apply_update uid] in *; [by apply lookup_insert_ne|by apply lookup_delete_ne].
Qed.

Lemma apply_updates_app m us vs : apply_updates m (us ++ vs) = apply_updates (apply_updates m us) vs.
Proof. apply foldl_app. Qed.

(** updates with the same newest entries do the same *)
Lemma apply_updates_latest m us vs :
  (∀ k, latest us !! k = latest vs !! k) → apply_updates m us = apply_updates m vs.
Proof. intros H. apply map_eq. intros k. by rewrite !apply_updates_lookup, H. Qed.

Lemma elem_of_appended us id v : (id, v) ∈ appended us ↔ PAppend id v ∈ us.
Proof.
  unfold appended. rewrite list_elem_of_omap. split.
  - intros ([id' v'|] & Hin & H); [|done]. by injection H as -> ->.
  - intros H. by exists (PAppend id v).
Qed.

Lemma appended_ids us : (appended us).*1 `sublist_of` (uid <$> us).
Proof.
  induction us as [|[id v|id] us IH]; [done|..]; cbn [appended omap list_omap fmap list_fmap uid].
  - by apply sublist_skip.
  - by apply sublist_cons.
Qed.

(** what remains of the entries and what is appended *)
Definition updated_entries (es : list (VectorId * list Z)) (us : list PostingUpdate) : list (VectorId * list Z) :=
  filter (λ e, e.1 ∉ updated_ids (dedupe_updates us)) es ++ appended (dedupe_updates us).

Lemma elem_of_updated_ids us k : k ∈ updated_ids (dedupe_updates us) ↔ is_Some (latest us !! k).
Proof.
  unfold updated_ids. rewrite elem_of_list_to_set, list_elem_of_fmap. split.
  - intros (u & -> & Hu%elem_of_dedupe). by exists u.
  - intros [u Hu]. exists u. destruct (latest_id _ _ _ Hu) as [<- _]. split; [done|]. by apply elem_of_dedupe.
Qed.

Lemma updated_entries_nodup es us : NoDup es.*1 → NoDup (updated_entries es us).*1.
Proof.
  intros Hn. unfold updated_entries. rewrite fmap_app. apply NoDup_app. split_and!.
  - eapply sublist_NoDup; [exact Hn|]. apply fmap_sublist, sublist_filter.
  - intros k ([k' v] & -> & [H _]%list_elem_of_filter)%list_elem_of_fmap Hin. cbn in *. apply H.
    unfold updated_ids. rewrite elem_of_list_to_set. by eapply elem_of_submseteq; [|apply sublist_submseteq, appended_ids].
  - eapply sublist_NoDup; [apply dedupe_nodup|apply appended_ids].
Qed.

Lemma updated_entries_map es us :
  NoDup es.*1 → list_to_map (updated_entries es us) =@{gmap Z (list Z)} apply_updates (list_to_map es) us.
Proof.
  intros Hn. apply map_eq. intros k. apply option_eq. intros v.
  rewrite <-elem_of_list_to_map by by apply updated_entries_nodup. rewrite apply_updates_lookup.
  unfold updated_entries. rewrite elem_of_app, list_elem_of_filter, elem_of_appended, elem_of_dedupe. cbn [fst uid].
  rewrite elem_of_updated_ids, elem_of_list_to_map by done. destruct (latest us !! k) as [u|] eqn:E.
  - destruct (latest_id _ _ _ E) as [Hk _]. split.
    + intros [[H _]|[= ->]]; [by destruct H|done].
    + destruct u as [id w|]; [|done]. intros [= ->]. cbn in Hk. subst id. by right.
  - split; [by intros [[_ ?]|?]|]. intros. left. split; [by intros []|done].
Qed.

Lemma filter_entries (P : VectorId → Prop) `{!∀ x, Decision (P x)} (pl : PostingList) :
  entries (filter (λ p, P (p_id p)) pl) = filter (λ e, P e.1) (entries pl).
Proof.
  unfold entries. induction pl as [|p pl IH]; [done|]. rewrite fmap_cons. destruct (decide (P (p_id p))).
  - rewrite !filter_cons_True by done. by rewrite fmap_cons, IH.
  - rewrite !filter_cons_False by done. done.
Qed.

Lemma appended_entries us :
  entries (omap (λ u, match u with
                      | PAppend id v => Some (from_shared_buffer id v 0 (length v)) | PDelete _ => None end) us) = appended us.
Proof.
  unfold entries, appended. induction us as [|[id v|id] us IH]; [done|..]; cbn [omap list_omap]; [|done].
  rewrite fmap_cons. f_equal; [|done]. unfold entry_of. cbn. by rewrite firstn_all.
Qed.

Lemma updated_no_updates es us : dedupe_updates us = [] → updated_entries es us = es.
Proof.
  intros H. unfold updated_entries. rewrite H. cbn [appended omap list_omap]. rewrite app_nil_r.
  apply filter_all, Forall_true. set_solver.
Qed.

Lemma update_in_place_entries pl us : entries (update_in_place pl us) = updated_entries (entries pl) us.
Proof.
  unfold update_in_place. case_bool_decide as He; [by rewrite updated_no_updates|].
  unfold updated_entries. etrans; [apply fmap_app|]. f_equal; [|apply appended_entries].
  exact (filter_entries (λ i, i ∉ updated_ids (dedupe_updates us)) pl).
Qed.

Lemma update_in_place_spec pl us :
  wf_list pl → wf_list (update_in_place pl us) ∧ content (update_in_place pl us) = apply_updates (content pl) us.
Proof.
  intros [Hb Hn]. rewrite <-entries_ids in Hn. split; [split|].
  - unfold update_in_place. case_bool_decide; [done|]. apply Forall_app. split; [by apply Forall_filter|].
    apply Forall_forall. intros p ([id v|id] & _ & [= <-])%list_elem_of_omap. unfold in_bounds; cbn. lia.
  - rewrite <-entries_ids, update_in_place_entries. by apply updated_entries_nodup.
  - unfold content. by rewrite update_in_place_entries, updated_entries_map.
Qed.

Lemma update_and_flatten_spec pl us :
  wf_list pl → update_and_flatten pl us = Ok (from_vectors (updated_entries (entries pl) us)).
Proof.
  intros [Hb Hn]. unfold update_and_flatten, flatten. case_bool_decide as He.
  - rewrite id_vectors_ok by done. cbn [res_bind]. by rewrite updated_no_updates.
  - rewrite id_vectors_ok by by apply Forall_filter. cbn [res_bind]. unfold updated_entries. do 3 f_equal.
    exact (filter_entries (λ i, i ∉ updated_ids (dedupe_updates us)) pl).
Qed.

(** ** Reading a stored value *)
Lemma value_vectors_spec seen value :
  NoDup (uid <$> value) → (∀ u, u ∈ value → uid u ∉ seen) → value_vectors seen value = Ok (appended value).
Proof.
  revert seen. induction value as [|u value IH]; intros seen Hn Hs; [done|]. rewrite fmap_cons, NoDup_cons in Hn.
  destruct Hn as [Hu Hn]. cbn [value_vectors]. rewrite bool_decide_eq_true_2 by (apply Hs; left). cbn [res_bind rust_assert].
  rewrite IH; [by destruct u|done|]. intros v Hv Hin. apply elem_of_union in Hin as [Heq%elem_of_singleton|Hin].
  - apply Hu. rewrite <-Heq. by apply list_elem_of_fmap_2.
  - apply (Hs v); [by right|done].
Qed.

Lemma from_value_spec value :
  NoDup (uid <$> value) → ∃ pl, from_value value = Ok pl ∧ wf_list pl ∧ content pl = apply_updates ∅ value ∧
    entries pl = appended value.
Proof.
  intros Hn. unfold from_value. rewrite value_vectors_spec by (try done; set_solver). cbn [res_bind].
  eexists. split; [done|].
  assert (Hids : NoDup (appended value).*1) by (eapply sublist_NoDup; [exact Hn|apply appended_ids]).
  destruct (from_vectors_spec (appended value)) as (He & _). split_and!; [by apply from_vectors_wf| |done].
  unfold content. rewrite He. apply map_eq. intros k. apply option_eq. intros v.
  rewrite <-elem_of_list_to_map by done. rewrite elem_of_appended, apply_updates_lookup, latest_last, lookup_empty.
  assert (Hf : ∀ u, u ∈ value → last (filter (λ u', uid u' = uid u) value) = Some u).
  { clear -Hn. induction value as [|w value IH]; intros u Hu; [by apply not_elem_of_nil in Hu|].
    rewrite fmap_cons, NoDup_cons in Hn. destruct Hn as [Hw Hn]. apply elem_of_cons in Hu as [->|Hu].
    - rewrite filter_cons_True by done.
      assert (filter (λ u', uid u' = uid w) value = []) as ->; [|done]. apply filter_none, Forall_forall. intros u' Hu' He.
      apply Hw. rewrite <-He. by apply list_elem_of_fmap_2.
    - rewrite filter_cons_False; [by apply IH|]. intros He. apply Hw. rewrite He. by apply list_elem_of_fmap_2. }
  split.
  - intros Hin. specialize (Hf (PAppend k v) Hin). cbn [uid] in Hf. by rewrite Hf.
  - destruct (last _) as [[id w|]|] eqn:El; [|done..]. intros [= ->]. apply last_Some in El as [l El].
    assert (Hin : PAppend id v ∈ filter (λ u, uid u = k) value) by (rewrite El; set_solver).
    apply list_elem_of_filter in Hin as [<- Hin]. done.
Qed.

(** C39: The two ways of updating a posting list in memory agree with applying the updates
    one after the other: for the reader of an unfinished round [update_in_place], which
    adds the new vectors in buffers of their own, and for the cache [update_and_flatten],
    which copies everything into one buffer.  Both keep every posting inside its buffer
    and no id twice, they return the same vectors in the same order, and the flattened
    list shares one buffer; a stored value reads as what its updates leave. *)
Theorem posting_list_updates pl us value :
  wf_list pl → NoDup (uid <$> value) →
  (wf_list (update_in_place pl us) ∧ content (update_in_place pl us) = apply_updates (content pl) us) ∧
  (∃ pl', update_and_flatten pl us = Ok pl' ∧ wf_list pl' ∧ entries pl' = entries (update_in_place pl us) ∧
    ∃ buffer, Forall (λ p, p_buffer p = buffer) pl') ∧
  (∃ pv, from_value value = Ok pv ∧ wf_list pv ∧ content pv = apply_updates ∅ value).
Proof.
  intros Hw Hv. split; [by apply update_in_place_spec|split].
  - destruct (from_vectors_spec (updated_entries (entries pl) us)) as (He & Hb & Hs). eexists.
    split; [by apply update_and_flatten_spec|]. split; [|split; [by rewrite update_in_place_entries|eauto]].
    apply from_vectors_wf, updated_entries_nodup. rewrite entries_ids. apply Hw.
  - destruct (from_value_spec value Hv) as (pv & H1 & H2 & H3 & _). eauto.
Qed.

Lemma posting_list_updates_witness :
  let pl := [posting_new 1 [10; 11]; mkPosting 2 [0; 20; 21; 0] 1 2] in
  let us := [PAppend 1 [5; 5]; PAppend 3 [30; 31]; PDelete 1] in
  content (update_in_place pl us) = list_to_map [(2, [20; 21]); (3, [30; 31])] ∧
  update_and_flatten pl us = Ok [mkPosting 2 [20; 21; 30; 31] 0 2; mkPosting 3 [20; 21; 30; 31] 2 2].
Proof.
  cbv zeta. destruct (posting_list_updates [posting_new 1 [10; 11]; mkPosting 2 [0; 20; 21; 0] 1 2]
    [PAppend 1 [5; 5]; PAppend 3 [30; 31]; PDelete 1] [PDelete 4]) as ((_ & H) & _).
  - split; [repeat constructor; cbv; lia|]. apply (bool_decide_unpack _). vm_compute. exact I.
  - apply (bool_decide_unpack _). vm_compute. exact I.
  - split; [|vm_compute; reflexivity]. rewrite H. vm_compute. reflexivity.
Defined.
End VecList.
