(* ===== verification/VecSearch.v ===== *)
(** * vector: search in the centroid tree

    [write/indexer/tree/centroids.rs]: levels of the tree, readers of posting lists
    with values already in memory or to be loaded, the ranking of candidates, and the
    search that descends level by level, suspended whenever posting lists have to be
    loaded and resumed for a whole batch of queries.  A future is the result it will
    have: the reads go to an immutable snapshot.  The cache of the writer is in
    [VecState.v]. *)
From stdpp Require Import gmap.
From Stdlib Require Strings.String.
From S2P Require Import Prelude HashMap Heap SortBy Storage KvStore VecSerde VecPosting VecMath VecList.
#[local] Open Scope Z_scope.

Module VecSearch.
Import Vec VecPosting VecMath VecList.

(** ** Errors of the database *)
Inductive DbError : Type :=
| EStorage (e : StorageError)
| EStorageText (what : String.string)       (* [Error::Storage] with a text of this crate *)
| EEncoding (e : Error)
| EInvalidInput (what : String.string)
| EInternal (what : String.string).

(** [?] on an encoding result *)
Definition of_encoding {A} (r : res Error A) : res DbError A := res_map_err EEncoding r.
Definition of_storage {A} (r : res StorageError A) : res DbError A := res_map_err EStorage r.

(** ** Levels *)
Definition depth_of (val : Z) : res DbError Z := let? _ := rust_assert (3 <=? val) in Ok val.
Definition max_inner_level (depth : Z) : Z := depth - 2.

Inductive TreeLevel : Type :=
| Root (depth : Z)
| Inner (lv : Z) (depth : Z).

#[global] Instance TreeLevel_eq_dec : EqDecision TreeLevel.
Proof. solve_decision. Defined.

Definition tl_root (depth : Z) : TreeLevel := Root depth.
Definition tl_leaf (depth : Z) : TreeLevel := Inner LEAF_LEVEL depth.
Definition tl_inner (lv depth : Z) : res DbError TreeLevel :=
  let? _ := rust_assert (0 <? lv) in
  let? _ := rust_assert (lv <=? max_inner_level depth) in
  Ok (Inner lv depth).
Definition tl_of (lv depth : Z) : res DbError TreeLevel :=
  let? _ := rust_assert (LEAF_LEVEL <=? lv) in
  if lv =? ROOT_LEVEL then Ok (tl_root depth) else tl_inner lv depth.

Definition tl_is_inner (l : TreeLevel) : bool := match l with Inner _ _ => true | Root _ => false end.
Definition tl_is_leaf (l : TreeLevel) : bool := match l with Root _ => false | Inner lv _ => lv =? LEAF_LEVEL end.
Definition tl_is_root (l : TreeLevel) : bool := match l with Root _ => true | Inner _ _ => false end.
Definition tl_depth (l : TreeLevel) : Z := match l with Root d => d | Inner _ d => d end.
Definition tl_level (l : TreeLevel) : Z := match l with Root _ => ROOT_LEVEL | Inner lv _ => lv end.

Definition next_level_up (l : TreeLevel) : res DbError TreeLevel :=
  match l with
  | Root _ => Panic
  | Inner lv depth =>
      let? _ := rust_assert (lv <=? max_inner_level depth) in
      if lv =? max_inner_level depth then Ok (tl_root depth) else tl_inner (lv + 1) depth
  end.

Definition next_level_down (l : TreeLevel) : res DbError TreeLevel :=
  match l with
  | Root depth => tl_inner (max_inner_level depth) depth
  | Inner lv depth => let? _ := rust_assert (LEAF_LEVEL <? lv) in tl_inner (lv - 1) depth
  end.

(** ** Values in memory or to be read *)
Inductive MaybeCached (T : Type) : Type :=
| MValue (value : T)
| MFuture (future : res DbError T).
Arguments MValue {T} value.
Arguments MFuture {T} future.

Definition maybe_get {T} (m : MaybeCached T) : res DbError T :=
  match m with MValue v => Ok v | MFuture f => f end.

Definition maybe_map {T O} (mapper : T → O) (m : MaybeCached T) : MaybeCached O :=
  match m with
  | MValue v => MValue (mapper v)
  | MFuture f => MFuture (let? v := f in Ok (mapper v))
  end.

(** [trait CentroidReader] *)
Record CentroidReader : Type := mkReader {
  read_root : MaybeCached PostingList;
  read_postings : VectorId → MaybeCached PostingList;
}.

(** ** Suspended searches *)
Record BlockedCentroidSearch : Type := mkBlocked {
  bl_level : TreeLevel;
  bl_found : list (VectorId * PostingList);
  bl_reads : list (VectorId * res DbError (VectorId * PostingList));
}.

Record InFlightBlockedCentroidSearch : Type := mkInFlight {
  if_level : TreeLevel;
  if_found : list (VectorId * PostingList);
  if_reads : list VectorId;
}.

Record ResumableCentroidSearch : Type := mkResumable {
  rs_level : TreeLevel;
  rs_found : list (VectorId * PostingList);
  rs_read : list (VectorId * PostingList);
}.

Definition blocked_start (b : BlockedCentroidSearch) :
    list (VectorId * res DbError (VectorId * PostingList)) * InFlightBlockedCentroidSearch :=
  (bl_reads b, mkInFlight (bl_level b) (bl_found b) (bl_reads b).*1).

(** [read[&c]] panics when [c] is missing *)
Definition in_flight_finish (f : InFlightBlockedCentroidSearch) (read : gmap Z PostingList) :
    res DbError ResumableCentroidSearch :=
  let? rd := try_map (λ c, let? pl := expect (read !! c) in Ok (c, pl)) (if_reads f) in
  Ok (mkResumable (if_level f) (if_found f) rd).

Definition all_found (l : TreeLevel) (found : list (VectorId * PostingList)) : res DbError ResumableCentroidSearch :=
  let? _ := rust_assert (forallb (λ f : VectorId * PostingList, tl_level l =? level f.1) found) in
  Ok (mkResumable l found []).

Inductive SearchResult : Type :=
| ReadsRequired (blocked : BlockedCentroidSearch)
| Ann (postings : list Posting).

(** ** Ranking *)
Record RankedPosting : Type := mkRanked { rp_posting : Posting; rp_distance : VectorDistance }.

Definition ranked_cmp (self other : RankedPosting) : comparison :=
  cmp_then (distance_cmp (rp_distance self) (rp_distance other)) (p_id (rp_posting self) ?= p_id (rp_posting other)).

Definition ranked_le (a b : RankedPosting) : bool := match ranked_cmp a b with Gt => false | _ => true end.

Definition USIZE_MAX : Z := 2 ^ 64 - 1.

Section search.
Context `{!FloatOps Z} (cpu : Cpu).

Section rank.
Context (postings_level : TreeLevel) (query : list Z) (distance_metric : DistanceMetric).

Definition rank_posting (p : Posting) : res DbError RankedPosting :=
  let? v := of_encoding (posting_vector p) in
  let? d := of_encoding (compute_distance cpu query v distance_metric) in
  Ok (mkRanked p d).

Definition check_level (p : Posting) : res DbError unit :=
  rust_assert (level (p_id p) =? tl_level postings_level).

(** [k == usize::MAX]: every posting once *)
Definition rank_all_step (acc : gset Z * list RankedPosting) (p : Posting) :
    res DbError (gset Z * list RankedPosting) :=
  let '(seen, ranked) := acc in
  let? _ := check_level p in
  if bool_decide (p_id p ∈ seen) then Ok (seen, ranked)
  else let? r := rank_posting p in Ok ({[p_id p]} ∪ seen, ranked ++ [r]).

(** the [k] best so far in a heap whose greatest element is the worst of them *)
Definition rank_heap_step (k : Z) (acc : gset Z * list RankedPosting) (p : Posting) :
    res DbError (gset Z * list RankedPosting) :=
  let '(heap_ids, ranked) := acc in
  let? _ := check_level p in
  let? candidate := rank_posting p in
  if bool_decide (p_id p ∈ heap_ids) then Ok (heap_ids, ranked)
  else if blen ranked <? k then Ok ({[p_id p]} ∪ heap_ids, candidate :: ranked)
  else
    match heap_pop_by ranked_cmp ranked with
    | None => Ok (heap_ids, ranked)
    | Some (worst, rest) =>
        match ranked_cmp candidate worst with
        | Lt => Ok ({[p_id p]} ∪ (heap_ids ∖ {[p_id (rp_posting worst)]}), candidate :: rest)
        | _ => Ok (heap_ids, ranked)
        end
    end.

Fixpoint rank_loop (step : gset Z * list RankedPosting → Posting → res DbError (gset Z * list RankedPosting))
    (acc : gset Z * list RankedPosting) (ps : list Posting) : res DbError (gset Z * list RankedPosting) :=
  match ps with
  | [] => Ok acc
  | p :: ps => let? acc := step acc p in rank_loop step acc ps
  end.

Definition score_and_rank (postings : list PostingList) (k : Z) : res DbError (list Posting) :=
  if (k =? 0) || bool_decide (postings = []) then Ok []
  else
    let step := if k =? USIZE_MAX then rank_all_step else rank_heap_step k in
    let? (_, ranked) := rank_loop step (∅, []) (concat postings) in
    Ok (rp_posting <$> sort_by ranked_le ranked).
End rank.

(** ** LeveledCentroidIndex *)
Record LeveledCentroidIndex : Type := mkLeveled {
  ix_depth : Z;
  ix_beam : Z;
  ix_metric : DistanceMetric;
  ix_reader : CentroidReader;
}.

Definition leveled_new (depth : Z) (metric : DistanceMetric) (reader : CentroidReader) : LeveledCentroidIndex :=
  mkLeveled depth 100 metric reader.

Section index.
Context (index : LeveledCentroidIndex) (query : list Z) (k : Z) (target_level : TreeLevel).

Definition check_depth : res DbError unit := rust_assert (bool_decide (tl_depth target_level = ix_depth index)).

(** the lists found in memory, and the reads that are needed *)
Definition split_reads (posting_futs : list (VectorId * MaybeCached PostingList)) :
    list (VectorId * PostingList) * list (VectorId * res DbError (VectorId * PostingList)) :=
  (omap (λ cf : VectorId * MaybeCached PostingList, match cf.2 with MValue p => Some (cf.1, p) | MFuture _ => None end)
     posting_futs,
   omap (λ cf : VectorId * MaybeCached PostingList,
           match cf.2 with
           | MValue _ => None
           | MFuture fut => Some (cf.1, let? p := fut in Ok (cf.1, p))
           end) posting_futs).

(** [resume]: the search one level further down *)
Definition search_inner_level (resume : ResumableCentroidSearch → res DbError SearchResult)
    (inner_level : TreeLevel) (centroids : list VectorId) : res DbError SearchResult :=
  let? _ := check_depth in
  let '(found, reads) := split_reads ((λ c, (c, read_postings (ix_reader index) c)) <$> centroids) in
  match reads with
  | [] => let? r := all_found inner_level found in resume r
  | _ => Ok (ReadsRequired (mkBlocked inner_level found reads))
  end.

(** [fuel]: the levels left below the postings *)
Fixpoint resume_search_in_level (fuel : nat) (postings : ResumableCentroidSearch) : res DbError SearchResult :=
  match fuel with
  | O => Panic
  | S fuel =>
      let? _ := check_depth in
      let all_postings := (rs_found postings).*2 ++ (rs_read postings).*2 in
      let? _ := rust_assert (negb (bool_decide (all_postings = []))) in
      let? down := next_level_down (rs_level postings) in
      if bool_decide (down = target_level) then
        let? ann := score_and_rank target_level query (ix_metric index) all_postings k in
        Ok (Ann ann)
      else
        let beam := Z.max (ix_beam index) k in
        let? next := score_and_rank down query (ix_metric index) all_postings beam in
        search_inner_level (resume_search_in_level fuel) down (p_id <$> next)
  end.

Definition search_in_level (fuel : nat) : res DbError SearchResult :=
  let? _ := check_depth in
  match read_root (ix_reader index) with
  | MValue root =>
      let? r := all_found (tl_root (ix_depth index)) [(ROOT_VECTOR_ID, root)] in
      resume_search_in_level fuel r
  | MFuture fut =>
      Ok (ReadsRequired (mkBlocked (tl_root (ix_depth index)) []
            [(ROOT_VECTOR_ID, let? p := fut in Ok (ROOT_VECTOR_ID, p))]))
  end.
End index.

(** ** Batches of queries *)
Section batch.
Context {HO : HashOrder} {K : Type} `{Countable K}.
Context (index : LeveledCentroidIndex) (k : Z) (lvl : TreeLevel).

(** the number of levels bounds both the descent of a query and the rounds of reads *)
Definition level_fuel : nat := S (Z.to_nat (ix_depth index)).

Definition search_one (q : K * list Z * option ResumableCentroidSearch) : res DbError (K * list Z * SearchResult) :=
  let '(key, q, ip) := q in
  let? result := match ip with
                 | Some ip => resume_search_in_level index q k lvl level_fuel ip
                 | None => search_in_level index q k lvl level_fuel
                 end in
  Ok (key, q, result).

(** finished searches, the reads of the others by centroid, and the others *)
Definition add_results (results : gmap K (list Posting)) (intermediate : list (K * list Z * SearchResult)) :
    gmap K (list Posting) :=
  foldl (λ m r, match r.2 with Ann ann => <[r.1.1 := ann]> m | ReadsRequired _ => m end) results intermediate.

Definition gather_reads (intermediate : list (K * list Z * SearchResult)) :
    gmap Z (res DbError (VectorId * PostingList)) :=
  foldl (λ m r, match r.2 with
                | ReadsRequired b => insert_all m (blocked_start b).1
                | Ann _ => m
                end) ∅ intermediate.

Definition pending_of (intermediate : list (K * list Z * SearchResult)) :
    list (K * list Z * InFlightBlockedCentroidSearch) :=
  omap (λ r, match r.2 with
             | ReadsRequired b => Some (r.1.1, r.1.2, (blocked_start b).2)
             | Ann _ => None
             end) intermediate.

(** [AsyncBatchDriver::execute] gives the results in any order; the first failure is returned *)
Definition execute_reads (reads : gmap Z (res DbError (VectorId * PostingList))) : res DbError (gmap Z PostingList) :=
  let? loaded := try_map Datatypes.id (hash_values reads) in
  Ok (insert_all ∅ loaded).

Fixpoint batch_loop (rounds : nat) (results : gmap K (list Posting))
    (remaining : list (K * list Z * option ResumableCentroidSearch)) : res DbError (gmap K (list Posting)) :=
  match rounds with
  | O => Panic
  | S rounds =>
      let? intermediate := try_map search_one remaining in
      let results := add_results results intermediate in
      match pending_of intermediate with
      | [] => Ok results
      | pending =>
          let? postings := execute_reads (gather_reads intermediate) in
          let? next := try_map (λ p : K * list Z * InFlightBlockedCentroidSearch,
                                  let? r := in_flight_finish p.2 postings in Ok (p.1.1, p.1.2, Some r)) pending in
          batch_loop rounds results next
      end
  end.

Definition batch_search_centroids_in_level (queries : list (K * list Z)) : res DbError (gmap K (list Posting)) :=
  batch_loop level_fuel ∅ ((λ q, (q.1, q.2, None)) <$> queries).
End batch.

Definition batch_search_centroids {HO : HashOrder} {K} `{Countable K} (index : LeveledCentroidIndex) (k : Z)
    (queries : list (K * list Z)) : res DbError (gmap K (list Posting)) :=
  batch_search_centroids_in_level index k (tl_leaf (ix_depth index)) queries.

Definition search_centroids {HO : HashOrder} (index : LeveledCentroidIndex) (query : list Z) (k : Z) :
    res DbError (list Posting) :=
  let? results := batch_search_centroids index k [(0, query)] in
  expect (results !! 0).
End search.
End VecSearch.
