(* ===== verification/VecSearchSpec.v ===== *)
(** * vector: what a tree search returns

    The ranking of postings against sorting them all ([nearest]), and the suspended
    and resumed search of a batch of queries against a plain descent of the tree
    ([beam_search]), whatever is cached. *)
From stdpp Require Import gmap.
From S2P Require Import Prelude HashMap Heap SortBy KvStore VecSerde VecPosting VecMath VecList VecSearch.
#[local] Open Scope Z_scope.

Module VecSearchSpec.
Import Vec VecPosting VecMath VecList VecSearch.

(** ** Order of candidates *)
(** distances of one metric are ordered as these integers *)
Definition dkey (d : VectorDistance) : Z :=
  match metric d with L2 | Cosine => total_key (score d) | DotProduct => - total_key (score d) end.

Lemma distance_cmp_dkey a b : metric a = metric b → distance_cmp a b = (dkey a ?= dkey b).
Proof.
  intros He. unfold distance_cmp, total_cmp, dkey. rewrite He. destruct (metric b); [done|done|].
  by rewrite Z.compare_opp.
Qed.

Abbreviation Entry := (VectorId * list Z)%type.

Section spec.
Context `{!FloatOps Z} (cpu : Cpu) (query : list Z) (m : DistanceMetric).

(** the distance to the query; [compute_distance_ok]: it is defined for vectors of the query's length *)
Definition dist (v : list Z) : VectorDistance :=
  match compute_distance cpu query v m with Ok d => d | _ => mkDistance 0 m end.

Lemma dist_ok v : length v = length query → compute_distance cpu query v m = Ok (dist v).
Proof. intros H. unfold dist. by destruct (compute_distance_ok cpu query v m (eq_sym H)) as (d & -> & _). Qed.

Lemma dist_metric v : metric (dist v) = m.
Proof. unfold dist. destruct (compute_distance _ _ _ _) eqn:E; [by eapply compute_distance_metric|done..]. Qed.

(** nearer to the query, and of two equally near the one of smaller id *)
Definition ecmp (a b : Entry) : comparison := cmp_then (dkey (dist a.2) ?= dkey (dist b.2)) (a.1 ?= b.1).
Definition closer (a b : Entry) : Prop := ecmp a b = Lt.
Definition closer_le (a b : Entry) : bool := match ecmp a b with Gt => false | _ => true end.

Lemma ecmp_spec a b :
  match ecmp a b with
  | Lt => dkey (dist a.2) < dkey (dist b.2) ∨ dkey (dist a.2) = dkey (dist b.2) ∧ a.1 < b.1
  | Eq => dkey (dist a.2) = dkey (dist b.2) ∧ a.1 = b.1
  | Gt => dkey (dist b.2) < dkey (dist a.2) ∨ dkey (dist a.2) = dkey (dist b.2) ∧ b.1 < a.1
  end.
Proof.
  unfold ecmp. destruct (Z.compare_spec (dkey (dist a.2)) (dkey (dist b.2))); cbn; [|lia..].
  destruct (Z.compare_spec a.1 b.1); lia.
Qed.

Lemma closer_spec a b :
  closer a b ↔ dkey (dist a.2) < dkey (dist b.2) ∨ dkey (dist a.2) = dkey (dist b.2) ∧ a.1 < b.1.
Proof. unfold closer. pose proof (ecmp_spec a b). destruct (ecmp a b); (split; [try done|intros; try done; lia]). Qed.

Lemma closer_le_spec a b :
  closer_le a b = true ↔ dkey (dist a.2) < dkey (dist b.2) ∨ dkey (dist a.2) = dkey (dist b.2) ∧ a.1 ≤ b.1.
Proof.
  unfold closer_le. pose proof (ecmp_spec a b). destruct (ecmp a b); (split; [try done|intros; try done; lia]); lia.
Qed.

#[local] Instance closer_trans : Transitive closer.
Proof. intros a b c. rewrite !closer_spec. lia. Qed.
#[local] Instance closer_irrefl : Irreflexive closer.
Proof. intros a H. apply closer_spec in H. lia. Qed.

(** an id stands for one vector *)
Definition functional (es : list Entry) : Prop := ∀ a b, a ∈ es → b ∈ es → a.1 = b.1 → a = b.

Lemma functional_subseteq es es' : es' ⊆ es → functional es → functional es'.
Proof. intros Hs Hf a b Ha Hb. apply Hf; by apply Hs. Qed.

Lemma sort_closer es : NoDup es → functional es → StronglySorted closer (sort_by closer_le es).
Proof.
  intros Hn Hf. assert (Hs : StronglySorted (λ a b, closer_le a b = true) (sort_by closer_le es)).
  { apply sort_by_sorted.
    - intros x y Hxy. apply closer_le_spec. destruct (closer_le y x) eqn:E; [by apply closer_le_spec|].
      pose proof (ecmp_spec x y) as H1. pose proof (ecmp_spec y x) as H2. unfold closer_le in *.
      destruct (ecmp x y), (ecmp y x); try done; lia.
    - intros x y z. rewrite !closer_le_spec. lia. }
  assert (Hn' : NoDup (sort_by closer_le es)) by (by rewrite sort_by_perm).
  assert (Hf' : functional (sort_by closer_le es)).
  { eapply functional_subseteq; [|exact Hf]. intros x. by rewrite sort_by_perm. }
  clear Hn Hf. induction Hs as [|a l Hs IH Ha]; [constructor|]. apply NoDup_cons in Hn' as [Ha' Hn'].
  constructor; [apply IH; [done|]; eapply functional_subseteq; [|exact Hf']; set_solver|].
  rewrite Forall_forall in Ha |- *. intros b Hb. specialize (Ha b Hb). apply closer_le_spec in Ha. apply closer_spec.
  destruct (decide (a.1 = b.1)) as [He|]; [|lia]. exfalso. apply Ha'. rewrite (Hf' a b) by (try done; set_solver). done.
Qed.

(** ** The nearest entries *)
Definition limit {A} (k : Z) (l : list A) : list A := if k =? USIZE_MAX then l else take (Z.to_nat k) l.

Definition nearest (k : Z) (es : list Entry) : list Entry := limit k (sort_by closer_le (remove_dups es)).

(** only the set of entries matters *)
Lemma nearest_ext k es es' : functional es → (∀ e, e ∈ es ↔ e ∈ es') → nearest k es = nearest k es'.
Proof.
  intros Hf He. unfold nearest. f_equal.
  assert (Hf' : functional (remove_dups es) ∧ functional (remove_dups es')).
  { split; (eapply functional_subseteq; [|exact Hf]); intros x; rewrite elem_of_remove_dups; [done|by rewrite He]. }
  apply (sorted_ext closer); [apply sort_closer, Hf'; apply NoDup_remove_dups..|].
  intros x. by rewrite !sort_by_perm, !elem_of_remove_dups.
Qed.

Lemma nearest_subseteq k es : nearest k es ⊆ es.
Proof.
  intros x. unfold nearest, limit. intros Hx. apply elem_of_remove_dups. rewrite <-(sort_by_perm closer_le).
  destruct (k =? _); [done|]. by eapply elem_of_take in Hx as (i & Hi%list_elem_of_lookup_2 & _).
Qed.

Lemma nearest_nonempty k es e : 0 < k → e ∈ es → nearest k es ≠ [].
Proof.
  intros Hk He Hn. unfold nearest, limit in Hn. rewrite <-elem_of_remove_dups, <-(sort_by_perm closer_le) in He.
  destruct (k =? _); [by rewrite Hn in He; apply not_elem_of_nil in He|].
  destruct (sort_by _ _) as [|x s]; [by apply not_elem_of_nil in He|].
  destruct (Z.to_nat k) as [|n] eqn:Ek; [lia|done].
Qed.

(** a part of the entries that is nearer than the others is the beginning of the sorted list *)
Lemma sort_split h d :
  NoDup h → h ⊆ d → functional d → (∀ x y, x ∈ d → x ∉ h → y ∈ h → closer y x) →
  ∃ rest, sort_by closer_le (remove_dups d) = sort_by closer_le h ++ rest ∧ (∀ x, x ∈ rest ↔ x ∈ d ∧ x ∉ h).
Proof.
  intros Hn Hs Hf Hc. exists (sort_by closer_le (filter (.∉ h) (remove_dups d))).
  assert (Hr : ∀ x, x ∈ sort_by closer_le (filter (.∉ h) (remove_dups d)) ↔ x ∈ d ∧ x ∉ h).
  { intros x. rewrite sort_by_perm, list_elem_of_filter, elem_of_remove_dups. naive_solver. }
  split; [|done]. apply (sorted_ext closer).
  - apply sort_closer; [apply NoDup_remove_dups|]. eapply functional_subseteq; [|exact Hf].
    intros x. by rewrite elem_of_remove_dups.
  - apply sorted_app.
    + apply sort_closer; [done|]. by eapply functional_subseteq.
    + apply sort_closer; [apply NoDup_filter, NoDup_remove_dups|]. eapply functional_subseteq; [|exact Hf].
      intros x. rewrite list_elem_of_filter, elem_of_remove_dups. naive_solver.
    + intros x y Hx [Hy Hny]%Hr. rewrite sort_by_perm in Hx. by apply Hc.
  - intros x. rewrite elem_of_app, Hr, !sort_by_perm, elem_of_remove_dups. specialize (Hs x).
    destruct (decide (x ∈ h)); naive_solver.
Qed.
(** ** The ranking loop *)
Definition r_entry (r : RankedPosting) : Entry := entry_of (rp_posting r).
Definition good_ranked (r : RankedPosting) : Prop :=
  in_bounds (rp_posting r) ∧ rp_distance r = dist (r_entry r).2.

Definition good_posting (lv : Z) (p : Posting) : Prop :=
  in_bounds p ∧ level (p_id p) = lv ∧ length (entry_of p).2 = length query.

Lemma ranked_cmp_good a b : good_ranked a → good_ranked b → ranked_cmp a b = ecmp (r_entry a) (r_entry b).
Proof.
  intros [_ Ha] [_ Hb]. unfold ranked_cmp, ecmp. rewrite Ha, Hb, distance_cmp_dkey by by rewrite !dist_metric. done.
Qed.

Lemma rank_posting_ok lv p :
  good_posting lv p → rank_posting cpu query m p = Ok (mkRanked p (dist (entry_of p).2)).
Proof.
  intros (Hb & _ & Hl). unfold rank_posting. rewrite posting_vector_ok by done. cbn [of_encoding res_map_err res_bind].
  by rewrite dist_ok.
Qed.

Lemma check_level_ok l lv p : tl_level l = lv → good_posting lv p → check_level l p = Ok tt.
Proof. intros <- (_ & Hl & _). unfold check_level. by rewrite Hl, Z.eqb_refl. Qed.

(** [h] are the [k] nearest of the entries [es] *)
Record best (k : Z) (es h : list Entry) : Prop := {
  best_nodup : NoDup h;
  best_sub : h ⊆ es;
  best_len : blen h ≤ k;
  best_rest e : e ∈ es → e ∉ h → blen h = k ∧ ∀ x, x ∈ h → closer x e;
}.

Lemma best_perm k es h h' : h ≡ₚ h' → best k es h → best k es h'.
Proof.
  intros Hp [H1 H2 H3 H4]. split; [by rewrite <-Hp|intros x; rewrite <-Hp; apply H2|unfold blen in *; by rewrite <-Hp|].
  intros e He Hn. rewrite <-Hp in Hn. destruct (H4 e He Hn) as [Hl Hc]. split; [unfold blen in *; by rewrite <-Hp|].
  intros x. rewrite <-Hp. apply Hc.
Qed.

Lemma best_known k es h e : e ∈ h → best k es h → best k (es ++ [e]) h.
Proof.
  intros He [H1 H2 H3 H4]. split; [done|set_solver|done|].
  intros x [Hx|Hx%list_elem_of_singleton]%elem_of_app Hn; [by apply H4|by subst].
Qed.

Lemma best_room k es h e : e ∉ h → blen h < k → best k es h → best k (es ++ [e]) (e :: h).
Proof.
  intros He Hk [H1 H2 H3 H4]. split; [by constructor|set_solver|unfold blen in *; cbn [length]; lia|].
  intros x Hx [Hn1 Hn2]%not_elem_of_cons. apply elem_of_app in Hx as [Hx|Hx%list_elem_of_singleton]; [|done].
  apply H4 in Hx as [Hx _]; [lia|done].
Qed.

(** a full heap whose greatest element is [w] *)
Lemma best_worse k es r w e :
  (∀ x, x ∈ r → closer x w) → closer w e → blen (w :: r) = k → best k es (w :: r) → best k (es ++ [e]) (w :: r).
Proof.
  intros Hm Hc Hk [H1 H2 H3 H4]. split; [done|set_solver|done|].
  intros x [Hx|Hx%list_elem_of_singleton]%elem_of_app Hn; [by apply H4|]. subst x. split; [done|].
  intros x [->|Hx]%elem_of_cons; [done|]. trans w; [by apply Hm|done].
Qed.

Lemma best_replace k es r w e :
  (∀ x, x ∈ r → closer x w) → closer e w → e ∉ w :: r → blen (w :: r) = k → best k es (w :: r) →
  best k (es ++ [e]) (e :: r).
Proof.
  intros Hm Hc [_ Hn]%not_elem_of_cons Hk [H1 H2 H3 H4]. apply NoDup_cons in H1 as [Hw H1].
  split; [by constructor|set_solver|by unfold blen in *; cbn [length] in *|].
  intros x Hx [Hn1 Hn2]%not_elem_of_cons. apply elem_of_app in Hx as [Hx|Hx%list_elem_of_singleton]; [|done].
  split; [by unfold blen in *; cbn [length] in *|].
  assert (He' : x = w ∨ closer w x).
  { destruct (decide (x = w)) as [|Hne]; [by left|]. right. apply H4; [done|by rewrite not_elem_of_cons|left]. }
  intros y [->|Hy]%elem_of_cons; destruct He' as [->|He']; [done|by trans w|by apply Hm|trans w; [by apply Hm|done]].
Qed.

(** the state of the loop after the entries [es] *)
Record heap_inv (k : Z) (es : list Entry) (acc : gset Z * list RankedPosting) : Prop := {
  hi_ids : acc.1 = list_to_set (r_entry <$> acc.2).*1;
  hi_good : Forall good_ranked acc.2;
  hi_best : best k es (r_entry <$> acc.2);
}.

Lemma heap_ids_mem k es acc e :
  heap_inv k es acc → functional (es ++ [e]) → e.1 ∈ acc.1 ↔ e ∈ r_entry <$> acc.2.
Proof.
  intros [-> _ Hb] Hf. rewrite elem_of_list_to_set, list_elem_of_fmap. split.
  - intros (h & He & Hh). assert (e = h) as ->; [|done]. apply Hf; [set_solver| |done].
    apply elem_of_app. left. by apply (best_sub _ _ _ Hb).
  - intros He. by exists e.
Qed.

(** the element a full heap gives up is the furthest *)
Lemma heap_worst k es ranked w rest :
  functional es → Forall good_ranked ranked → best k es (r_entry <$> ranked) →
  heap_pop_by ranked_cmp ranked = Some (w, rest) → ∀ x, x ∈ r_entry <$> rest → closer x (r_entry w).
Proof.
  intros Hf Hg Hb Epop. pose proof (heap_pop_perm ranked_cmp ranked) as Hperm. rewrite Epop in Hperm.
  assert (Hmax : Forall (λ e, ranked_cmp e w ≠ Gt) rest).
  { eapply (heap_pop_max ranked_cmp good_ranked); [..|exact Hg|exact Epop].
    - intros a b Ha Hb'. rewrite !ranked_cmp_good by done. unfold ecmp.
      rewrite (Z.compare_antisym (dkey (dist (r_entry a).2))), (Z.compare_antisym (r_entry a).1). by destruct (_ ?= _).
    - intros a b d Ha Hb' Hd. rewrite !ranked_cmp_good by done. intros H1 H2.
      pose proof (ecmp_spec (r_entry a) (r_entry b)). pose proof (ecmp_spec (r_entry b) (r_entry d)).
      pose proof (ecmp_spec (r_entry a) (r_entry d)).
      destruct (ecmp (r_entry a) (r_entry b)), (ecmp (r_entry b) (r_entry d)), (ecmp (r_entry a) (r_entry d)); try done; lia. }
  apply (best_perm _ _ _ (r_entry w :: (r_entry <$> rest))) in Hb; [|by rewrite Hperm].
  rewrite Hperm in Hg. apply Forall_cons in Hg as [Hgw Hgr]. destruct Hb as [Hnd Hsub _ _].
  apply NoDup_cons in Hnd as [Hnw _]. intros h (r & -> & Hr)%list_elem_of_fmap. rewrite Forall_forall in Hmax, Hgr.
  specialize (Hmax r Hr). rewrite ranked_cmp_good in Hmax by auto. pose proof (ecmp_spec (r_entry r) (r_entry w)) as Hs.
  apply closer_spec. destruct (ecmp (r_entry r) (r_entry w)); try done.
  exfalso. apply Hnw. apply list_elem_of_fmap. exists r. split; [|done]. symmetry.
  apply Hf; [apply Hsub; right; by apply list_elem_of_fmap_2|apply Hsub; left|apply Hs].
Qed.

Lemma ids_replace es (h : list RankedPosting) w rest :
  functional es → best (blen h) es (r_entry <$> h) → h ≡ₚ w :: rest →
  (list_to_set (r_entry <$> h).*1 : gset Z) ∖ {[(r_entry w).1]} = list_to_set (r_entry <$> rest).*1.
Proof.
  intros Hf Hb Hp. apply (best_perm _ _ _ (r_entry w :: (r_entry <$> rest))) in Hb; [|by rewrite Hp].
  destruct Hb as [Hnd Hsub _ _]. apply NoDup_cons in Hnd as [Hnw _].
  assert ((r_entry w).1 ∉ (list_to_set (r_entry <$> rest).*1 : gset Z)) as Hni.
  { rewrite elem_of_list_to_set. intros (x & He & Hx)%list_elem_of_fmap. apply Hnw.
    rewrite (Hf (r_entry w) x); [done|apply Hsub; left|apply Hsub; by right|done]. }
  apply set_eq. intros x. rewrite elem_of_difference, !elem_of_list_to_set, Hp, fmap_cons, fmap_cons, elem_of_cons,
    elem_of_singleton. rewrite elem_of_list_to_set in Hni. naive_solver.
Qed.
Lemma heap_step_inv l lv k es acc p :
  0 < k → tl_level l = lv → good_posting lv p → functional (es ++ [entry_of p]) → heap_inv k es acc →
  ∃ acc', rank_heap_step cpu l query m k acc p = Ok acc' ∧ heap_inv k (es ++ [entry_of p]) acc'.
Proof.
  intros Hk Hl Hp Hf Hi. pose proof (heap_ids_mem k es acc (entry_of p) Hi Hf) as Hmem. destruct Hi as [Hids Hg Hb].
  assert (Hfe : functional es) by (eapply functional_subseteq; [|exact Hf]; set_solver).
  destruct acc as [ids ranked]. cbn [fst snd] in *. unfold rank_heap_step. rewrite (check_level_ok l lv) by done. cbn [res_bind].
  rewrite (rank_posting_ok lv) by done. cbn [res_bind]. remember (mkRanked p (dist (entry_of p).2)) as c eqn:Hc.
  assert (Hgc : good_ranked c) by (subst c; split; [apply Hp|done]). assert (Hec : r_entry c = entry_of p) by (by subst c).
  change (p_id p) with (entry_of p).1 in *. rewrite <-Hec in *. clear Hc Hec Hp.
  assert (Hl' : blen (r_entry <$> ranked) = blen ranked) by (unfold blen; by rewrite length_fmap).
  case_bool_decide as Hin.
  { eexists. split; [done|]. split; [done|done|]. by apply best_known; [apply Hmem|]. }
  rewrite Hmem in Hin. case_z.
  { eexists. split; [done|]. split; cbn [fst snd]; [|by constructor|by rewrite fmap_cons; apply best_room; [|lia|]].
    rewrite !fmap_cons. cbn [list_to_set]. by rewrite Hids. }
  pose proof (heap_pop_perm ranked_cmp ranked) as Hperm. pose proof (best_len _ _ _ Hb) as Hlen.
  destruct (heap_pop_by ranked_cmp ranked) as [[w rest]|] eqn:Epop; [|subst ranked; unfold blen in *; cbn in *; lia].
  pose proof (heap_worst _ _ _ _ _ Hfe Hg Hb Epop) as Hw.
  assert (Hb' : best k es (r_entry w :: (r_entry <$> rest))) by (eapply best_perm; [|exact Hb]; by rewrite Hperm).
  assert (Hk' : blen (r_entry w :: (r_entry <$> rest)) = k).
  { rewrite <-(fmap_cons r_entry w rest). unfold blen in *. rewrite length_fmap, <-Hperm. lia. }
  assert (Hin' : r_entry c ∉ r_entry w :: (r_entry <$> rest)) by (rewrite <-fmap_cons; by rewrite <-Hperm).
  assert (Hgw : good_ranked w) by (rewrite Hperm in Hg; by apply Forall_cons in Hg as [? _]).
  rewrite ranked_cmp_good by done. pose proof (ecmp_spec (r_entry c) (r_entry w)) as Hs.
  assert (Hwc : ecmp (r_entry c) (r_entry w) ≠ Lt → closer (r_entry w) (r_entry c)).
  { intros Hne. apply closer_spec. destruct (ecmp (r_entry c) (r_entry w)); [exfalso|done|lia]. apply Hin'.
    rewrite (Hf (r_entry c) (r_entry w)); [left|set_solver| |apply Hs]. apply elem_of_app. left. apply (best_sub _ _ _ Hb'). left. }
  destruct (ecmp (r_entry c) (r_entry w)) eqn:Ec.
  2: { eexists. split; [done|]. split; cbn [fst snd]; rewrite ?fmap_cons; cbn [list_to_set].
    - f_equal. rewrite Hids. eapply ids_replace; [done| |done]. replace (blen ranked) with k by lia. done.
    - rewrite Hperm in Hg. apply Forall_cons in Hg as [_ Hg]. by constructor.
    - by eapply best_replace. }
  all: eexists; (split; [done|]); split; cbn [fst snd]; [done|done|].
  all: apply (best_perm _ _ (r_entry w :: (r_entry <$> rest))); [by rewrite Hperm|by apply best_worse; [|apply Hwc|..]].
Qed.

(** every posting once, when the limit is [usize::MAX] *)
Record all_inv (es : list Entry) (acc : gset Z * list RankedPosting) : Prop := {
  ai_ids : acc.1 = list_to_set (r_entry <$> acc.2).*1;
  ai_good : Forall good_ranked acc.2;
  ai_nodup : NoDup (r_entry <$> acc.2);
  ai_mem e : e ∈ r_entry <$> acc.2 ↔ e ∈ es;
}.

Lemma all_step_inv l lv es acc p :
  tl_level l = lv → good_posting lv p → functional (es ++ [entry_of p]) → all_inv es acc →
  ∃ acc', rank_all_step cpu l query m acc p = Ok acc' ∧ all_inv (es ++ [entry_of p]) acc'.
Proof.
  intros Hl Hp Hf [Hids Hg Hn Hm]. destruct acc as [ids ranked]. cbn [fst snd] in *. unfold rank_all_step.
  rewrite (check_level_ok l lv) by done. cbn [res_bind].
  assert (Hmem : (entry_of p).1 ∈ ids ↔ entry_of p ∈ es).
  { rewrite Hids, elem_of_list_to_set, list_elem_of_fmap. setoid_rewrite Hm. split; [|by eexists].
    intros (e & He & Hin). assert (entry_of p = e) as ->; [|done]. apply Hf; set_solver. }
  change (p_id p) with (entry_of p).1. case_bool_decide as Hin; rewrite Hmem in Hin.
  - eexists. split; [done|]. split; cbn [fst snd]; try done. intros e. rewrite Hm. set_solver.
  - rewrite (rank_posting_ok lv) by done. cbn [res_bind]. eexists. split; [done|]. split; cbn [fst snd].
    + rewrite !fmap_app, list_to_set_app_L. cbn. rewrite Hids. set_solver.
    + apply Forall_app. split; [done|]. constructor; [|done]. split; [apply Hp|done].
    + rewrite fmap_app. apply NoDup_app. split_and!; [done| |apply NoDup_singleton].
      intros e He. rewrite Hm in He. cbn. intros ->%list_elem_of_singleton. done.
    + intros e. rewrite fmap_app, elem_of_app, Hm. cbn. by rewrite elem_of_app.
Qed.

Lemma rank_loop_inv {I : list Entry → gset Z * list RankedPosting → Prop} step ps es acc :
  (∀ es acc p, p ∈ ps → functional (es ++ [entry_of p]) → I es acc →
     ∃ acc', step acc p = Ok acc' ∧ I (es ++ [entry_of p]) acc') →
  functional (es ++ entries ps) → I es acc → ∃ acc', rank_loop step acc ps = Ok acc' ∧ I (es ++ entries ps) acc'.
Proof.
  revert es acc. induction ps as [|p ps IH]; intros es acc Hs Hf Hi; [exists acc; by rewrite app_nil_r|].
  cbn [rank_loop entries fmap list_fmap] in *. fold (entries ps) in *.
  destruct (Hs es acc p ltac:(left)) as (acc1 & -> & Hi1); [|done|].
  { eapply functional_subseteq; [|exact Hf]. set_solver. }
  cbn [res_bind]. destruct (IH (es ++ [entry_of p]) acc1) as (acc' & Ha & Hi'); [|by rewrite <-app_assoc|done|].
  - intros; apply Hs; [by right|done..].
  - exists acc'. split; [done|]. by rewrite <-app_assoc in Hi'.
Qed.

Lemma ranked_sorted ranked :
  Forall good_ranked ranked → entries (rp_posting <$> sort_by ranked_le ranked) = sort_by closer_le (r_entry <$> ranked).
Proof.
  intros Hg. unfold entries. rewrite <-list_fmap_compose. apply (sort_by_fmap ranked_le closer_le r_entry).
  intros x y Hx Hy. rewrite Forall_forall in Hg. unfold ranked_le, closer_le. by rewrite ranked_cmp_good by auto.
Qed.

Lemma ranked_in_bounds ranked :
  Forall good_ranked ranked → Forall in_bounds (rp_posting <$> sort_by ranked_le ranked).
Proof.
  intros Hg. apply Forall_fmap, Forall_forall. intros r. rewrite sort_by_perm. rewrite Forall_forall in Hg. apply Hg.
Qed.

(** The ranking returns the nearest entries of the lists. *)
Lemma score_and_rank_spec l lv pls k :
  0 ≤ k → tl_level l = lv → Forall (good_posting lv) (concat pls) → functional (entries (concat pls)) →
  ∃ ps, score_and_rank cpu l query m pls k = Ok ps ∧ entries ps = nearest k (entries (concat pls)) ∧
    Forall in_bounds ps.
Proof.
  intros Hk Hl Hp Hf. rewrite Forall_forall in Hp. unfold score_and_rank.
  destruct (Z.eqb_spec k 0) as [->|Hk0]; [by exists []|]. cbn [orb]. case_bool_decide as He.
  { subst pls. exists []. cbn. unfold nearest. cbn. unfold limit. by destruct (k =? _), (Z.to_nat k). }
  destruct (Z.eqb_spec k USIZE_MAX) as [->|Hmax].
  - destruct (rank_loop_inv (I:=all_inv) (rank_all_step cpu l query m) (concat pls) [] (∅, [])) as ([ids ranked] & -> & Hi).
    { intros es acc p Hin. apply (all_step_inv l lv); auto. }
    { done. } { split; cbn; try done; constructor. }
    cbn [res_bind]. cbn [app] in Hi. destruct Hi as [_ Hg Hn Hm]. cbn [snd] in *. eexists. split; [done|].
    rewrite ranked_sorted by done. split.
    + unfold nearest, limit. rewrite Z.eqb_refl. apply (sorted_ext closer).
      * apply sort_closer; [done|]. eapply functional_subseteq; [|exact Hf]. intros x. by rewrite Hm.
      * apply sort_closer; [apply NoDup_remove_dups|]. eapply functional_subseteq; [|exact Hf]. intros x. by rewrite elem_of_remove_dups.
      * intros x. by rewrite !sort_by_perm, elem_of_remove_dups.
    + by apply ranked_in_bounds.
  - destruct (rank_loop_inv (I:=heap_inv k) (rank_heap_step cpu l query m k) (concat pls) [] (∅, [])) as ([ids ranked] & -> & Hi).
    { intros es acc p Hin. apply (heap_step_inv l lv); auto; lia. }
    { done. } { split; [done|done|]. split; cbn; [apply NoDup_nil_2|done|unfold blen; cbn; lia|]. by intros e ?%not_elem_of_nil. }
    cbn [res_bind]. cbn [app] in Hi. destruct Hi as [_ Hg Hb]. cbn [snd] in *. eexists. split; [done|].
    rewrite ranked_sorted by done. split; [|by apply ranked_in_bounds].
    destruct (sort_split (r_entry <$> ranked) (entries (concat pls))) as (rest & Hs & Hr); [apply Hb|apply Hb|done| |].
    { intros x y Hx Hn Hy. by apply (best_rest _ _ _ Hb). }
    unfold nearest, limit. rewrite Hs. destruct (Z.eqb_spec k USIZE_MAX); [done|]. pose proof (best_len _ _ _ Hb) as Hlen.
    assert (Hlh : length (sort_by closer_le (r_entry <$> ranked)) = length (r_entry <$> ranked)) by (by rewrite sort_by_perm).
    destruct rest as [|x rest]; [rewrite app_nil_r, take_ge; [done|unfold blen in *; lia]|].
    assert (Hx : x ∈ x :: rest) by left. apply Hr in Hx as [Hx Hnx]. destruct (best_rest _ _ _ Hb x Hx Hnx) as [Hk' _].
    rewrite take_app_length'; [done|]. unfold blen in *. lia.
Qed.
End spec.

(** ** Descending the tree *)
Section tree.
Context `{!FloatOps Z} (cpu : Cpu) (index : LeveledCentroidIndex) (dims : nat).
Let depth := ix_depth index.
Let met := ix_metric index.
Let top := max_inner_level depth.

(** what reading a node gives *)
Definition fetch (c : VectorId) : res DbError PostingList :=
  if decide (c = ROOT_VECTOR_ID) then maybe_get (read_root (ix_reader index))
  else maybe_get (read_postings (ix_reader index) c).
Definition loaded (c : VectorId) : PostingList := match fetch c with Ok pl => pl | _ => [] end.
Definition list_of (c : VectorId) : list Entry := entries (loaded c).

(** the entries of the tree *)
Inductive Reached : Entry → Prop :=
| reached_root root p : fetch ROOT_VECTOR_ID = Ok root → p ∈ root → Reached (entry_of p)
| reached_node c v pl p : Reached (c, v) → 1 < level c → fetch c = Ok pl → p ∈ pl → Reached (entry_of p).

(** a list whose postings belong to level [lv] *)
Definition node_ok (lv : Z) (pl : PostingList) : Prop :=
  pl ≠ [] ∧ Forall in_bounds pl ∧ ∀ p, p ∈ pl → level (p_id p) = lv.

Record TreeOk : Prop := {
  ok_depth : 3 ≤ depth ≤ 255;
  ok_beam : 0 < ix_beam index;
  ok_root : ∃ root, fetch ROOT_VECTOR_ID = Ok root ∧ node_ok top root;
  ok_node c v : Reached (c, v) → 1 < level c → ∃ pl, fetch c = Ok pl ∧ node_ok (level c - 1) pl;
  ok_dims c v : Reached (c, v) → length v = dims;
  ok_vector c v v' : Reached (c, v) → Reached (c, v') → v = v';
}.

Context (HT : TreeOk) (query : list Z) (Hq : length query = dims) (k : Z) (Hk : 0 ≤ k).

(** [n] levels below the level of the entries [es]: at each level the nodes of the nearest
    [max beam k] entries are read, at the last one the nearest [k] entries returned *)
Fixpoint beam_search (n : nat) (es : list Entry) : list Entry :=
  match n with
  | O => nearest cpu query met k es
  | S n => beam_search n ((nearest cpu query met (Z.max (ix_beam index) k) es).*1 ≫= list_of)
  end.

Lemma reached_functional es : (∀ e, e ∈ es → Reached e) → functional es.
Proof. intros H [c v] [c' v'] Ha Hb. cbn. intros ->. by rewrite (ok_vector HT c' v v') by (by apply H). Qed.

Lemma beam_search_ext n es es' :
  (∀ e, e ∈ es → Reached e) → (∀ e, e ∈ es ↔ e ∈ es') → beam_search n es = beam_search n es'.
Proof.
  intros Hr He. pose proof (reached_functional es Hr) as Hf. destruct n as [|n]; cbn [beam_search].
  - by apply nearest_ext.
  - by rewrite (nearest_ext cpu query met _ es es').
Qed.

(** lists read so far whose postings belong to level [lv], with entries [es] *)
Definition found_ok (lv : Z) (cp : VectorId * PostingList) : Prop :=
  fetch cp.1 = Ok cp.2 ∧ node_ok lv cp.2 ∧ ∀ p, p ∈ cp.2 → Reached (entry_of p).

Definition Rep (lv : Z) (rs : ResumableCentroidSearch) (es : list Entry) : Prop :=
  next_level_down (rs_level rs) = Ok (Inner lv depth) ∧ rs_found rs ++ rs_read rs ≠ [] ∧
  Forall (found_ok lv) (rs_found rs ++ rs_read rs) ∧
  ∀ e, e ∈ es ↔ ∃ cp, cp ∈ rs_found rs ++ rs_read rs ∧ e ∈ entries cp.2.

(** the reads of a blocked search, all of which will succeed *)
Definition fetched (c : VectorId) : res DbError (VectorId * PostingList) := let? p := fetch c in Ok (c, p).

Definition BlockedRep (lv : Z) (b : BlockedCentroidSearch) (es : list Entry) : Prop :=
  ∃ reads, bl_reads b = (λ c, (c, fetched c)) <$> reads ∧
    Rep lv (mkResumable (bl_level b) (bl_found b) ((λ c, (c, loaded c)) <$> reads)) es.

Definition Outcome (t : Z) (n : nat) (es : list Entry) (r : SearchResult) : Prop :=
  match r with
  | Ann ps => entries ps = beam_search n es ∧ Forall in_bounds ps
  | ReadsRequired b => ∃ n' es', (n' < n)%nat ∧ beam_search n' es' = beam_search n es ∧ BlockedRep (t + Z.of_nat n') b es'
  end.

Lemma rep_reached lv rs es e : Rep lv rs es → e ∈ es → Reached e.
Proof.
  intros (_ & _ & Hf & He) Hin. apply He in Hin as (cp & Hcp & (p & -> & Hp)%list_elem_of_fmap).
  rewrite Forall_forall in Hf. by apply (Hf cp Hcp).
Qed.

Lemma rep_nonempty lv rs es : Rep lv rs es → ∃ e, e ∈ es.
Proof.
  intros (_ & Hn & Hf & He). destruct (rs_found rs ++ rs_read rs) as [|cp l]; [done|].
  apply Forall_cons in Hf as [(_ & (Hne & _) & _) _]. destruct cp as [c [|p pl]]; [done|].
  exists (entry_of p). apply He. exists (c, p :: pl). split; [left|]. apply list_elem_of_fmap. exists p. split; [done|left].
Qed.

Lemma rep_level lv rs es e : Rep lv rs es → e ∈ es → level e.1 = lv.
Proof.
  intros (_ & _ & Hf & He) Hin. apply He in Hin as (cp & Hcp & (p & -> & Hp)%list_elem_of_fmap).
  rewrite Forall_forall in Hf. destruct (Hf cp Hcp) as (_ & (_ & _ & Hl) & _). by apply Hl.
Qed.

(** the ranking of the lists read *)
Lemma rep_rank lv rs es kk :
  0 ≤ kk → Rep lv rs es →
  ∃ ps, score_and_rank cpu (Inner lv depth) query met ((rs_found rs).*2 ++ (rs_read rs).*2) kk = Ok ps ∧
    entries ps = nearest cpu query met kk es ∧ Forall in_bounds ps.
Proof.
  intros Hkk Hrep. pose proof Hrep as (_ & _ & Hf & He). rewrite <-fmap_app.
  set (cps := rs_found rs ++ rs_read rs) in *. rewrite Forall_forall in Hf.
  assert (Hel : ∀ p, p ∈ concat cps.*2 ↔ ∃ cp, cp ∈ cps ∧ p ∈ cp.2).
  { intros p. rewrite elem_of_concat. split.
    - intros (pl & Hp & (cp & -> & Hcp)%list_elem_of_fmap). eauto.
    - intros (cp & Hcp & Hp). exists cp.2. split; [done|]. by apply list_elem_of_fmap_2. }
  assert (Hes : ∀ e, e ∈ entries (concat cps.*2) ↔ e ∈ es).
  { intros e. rewrite He. unfold entries. rewrite list_elem_of_fmap. setoid_rewrite Hel. setoid_rewrite list_elem_of_fmap. naive_solver. }
  assert (Hr : ∀ e, e ∈ entries (concat cps.*2) → Reached e) by (intros e ?%Hes; by eapply rep_reached).
  destruct (score_and_rank_spec cpu query met (Inner lv depth) lv cps.*2 kk) as (ps & H1 & H2 & H3); [done|done|..].
  - apply Forall_forall. intros p Hp. pose proof Hp as (cp & Hcp & Hpp)%Hel. destruct (Hf cp Hcp) as (_ & (_ & Hb & Hl) & Hre).
    rewrite Forall_forall in Hb. split_and!; [by apply Hb|by apply Hl|]. rewrite Hq.
    apply (ok_dims HT (p_id p) (entry_of p).2). by apply Hre.
  - by apply reached_functional.
  - exists ps. split_and!; [done| |done]. rewrite H2. apply nearest_ext; [by apply reached_functional|done].
Qed.
Lemma level_down lv : 1 < lv ≤ top → next_level_down (Inner lv depth) = Ok (Inner (lv - 1) depth).
Proof.
  intros Hl. unfold next_level_down, tl_inner, top, LEAF_LEVEL in *.
  by rewrite !(proj2 (Z.ltb_lt _ _)), (proj2 (Z.leb_le _ _)) by lia.
Qed.

Lemma root_not_inner lv c : lv ≤ top → level c = lv → c ≠ ROOT_VECTOR_ID.
Proof.
  intros Hl Hc ->. pose proof (ok_depth HT). unfold top, max_inner_level in *.
  change (level ROOT_VECTOR_ID) with 255 in Hc. lia.
Qed.

Definition is_future {T} (x : MaybeCached T) : bool := match x with MFuture _ => true | MValue _ => false end.

(** the nodes of the nearest entries: some in memory, some to be read *)
Lemma split_reads_rep lv ids :
  1 < lv ≤ top → ids ≠ [] → (∀ c, c ∈ ids → level c = lv ∧ ∃ v, Reached (c, v)) →
  ∃ found reads,
    split_reads ((λ c, (c, read_postings (ix_reader index) c)) <$> ids) = (found, (λ c, (c, fetched c)) <$> reads) ∧
    Forall (λ f, level f.1 = lv) found ∧
    Rep (lv - 1) (mkResumable (Inner lv depth) found ((λ c, (c, loaded c)) <$> reads)) (ids ≫= list_of).
Proof.
  intros Hlv Hne Hids.
  assert (Hn : ∀ c, c ∈ ids → found_ok (lv - 1) (c, loaded c)).
  { intros c Hc. destruct (Hids c Hc) as (Hl & v & Hr). destruct (ok_node HT c v Hr) as (pl & Hpl & Hok); [lia|].
    unfold found_ok, loaded. cbn. rewrite Hpl. rewrite Hl in Hok. split_and!; try apply Hok; [done|].
    intros p Hp. eapply reached_node; [exact Hr|lia|exact Hpl|done]. }
  assert (Hrd : ∀ c, c ∈ ids → fetch c = maybe_get (read_postings (ix_reader index) c)).
  { intros c Hc. unfold fetch. rewrite decide_False; [done|]. eapply root_not_inner; [|apply (Hids c Hc)]. lia. }
  exists (omap (λ c, match read_postings (ix_reader index) c with MValue p => Some (c, p) | MFuture _ => None end) ids).
  exists (filter (λ c, is_future (read_postings (ix_reader index) c) = true) ids).
  set (found := omap _ ids). set (reads := filter _ ids).
  assert (Hfm : ∀ cp, cp ∈ found ++ ((λ c, (c, loaded c)) <$> reads) ↔ ∃ c, c ∈ ids ∧ cp = (c, loaded c)).
  { intros cp. rewrite elem_of_app, list_elem_of_fmap. unfold found, reads. rewrite list_elem_of_omap.
    setoid_rewrite list_elem_of_filter. split.
    - intros [(c & Hc & H)|(c & -> & _ & Hc)]; [|eauto]. exists c. split; [done|].
      unfold loaded. rewrite (Hrd c Hc). destruct (read_postings _ c); [|done]. cbn. by injection H as <-.
    - intros (c & Hc & ->). destruct (read_postings (ix_reader index) c) eqn:E.
      + left. exists c. rewrite E. split; [done|]. unfold loaded. by rewrite (Hrd c Hc), E.
      + right. exists c. by rewrite E. }
  unfold Rep. cbn [rs_level rs_found rs_read]. split_and!.
  - unfold split_reads, found, reads. clear -Hrd. f_equal; induction ids as [|c ids IH]; try done.
    + cbn [fmap list_fmap omap list_omap snd fst]. change (list_omap _ _ ?f ?l) with (omap f l).
      change (list_fmap _ _ ?f ?l) with (f <$> l). rewrite IH by (intros; apply Hrd; by right).
      by destruct (read_postings _ c).
    + rewrite fmap_cons. cbn [omap list_omap snd fst]. change (list_omap _ _ ?f ?l) with (omap f l).
      rewrite IH by (intros; apply Hrd; by right).
      pose proof (Hrd c ltac:(left)) as Hc. destruct (read_postings _ c) as [v|f] eqn:E.
      * rewrite filter_cons_False by (by rewrite E). done.
      * rewrite filter_cons_True by (by rewrite E). rewrite fmap_cons. unfold fetched at 2. rewrite Hc. done.
  - apply Forall_forall. intros f Hf. assert (Hf' : f ∈ found ++ ((λ c, (c, loaded c)) <$> reads)) by (apply elem_of_app; by left).
    apply Hfm in Hf' as (c & Hc & ->). by apply Hids.
  - by apply level_down.
  - intros He. destruct ids as [|c ids]; [done|].
    apply (not_elem_of_nil (c, loaded c)). rewrite <-He. apply Hfm. exists c. split; [left|done].
  - apply Forall_forall. intros cp (c & Hc & ->)%Hfm. by apply Hn.
  - intros e. rewrite list_elem_of_bind. unfold list_of. setoid_rewrite Hfm. naive_solver.
Qed.

Lemma resume_spec t n fuel rs es :
  (n < fuel)%nat → 1 ≤ t → t + Z.of_nat n ≤ top → Rep (t + Z.of_nat n) rs es →
  ∃ r, resume_search_in_level cpu index query k (Inner t depth) fuel rs = Ok r ∧ Outcome t n es r.
Proof.
  intros Hf Ht. revert n rs es Hf. induction fuel as [|fuel IH]; intros n rs es Hf Hn Hrep; [lia|].
  cbn [resume_search_in_level]. unfold check_depth. rewrite bool_decide_eq_true_2 by done. cbn [rust_assert res_bind].
  pose proof Hrep as (Hd & Hne & _). rewrite bool_decide_eq_false_2 by (rewrite <-fmap_app; by intros ?%fmap_nil_inv).
  cbn [negb rust_assert res_bind]. rewrite Hd. cbn [res_bind]. change (ix_metric index) with met. destruct n as [|n].
  - rewrite Z.add_0_r in *. rewrite bool_decide_eq_true_2 by done.
    destruct (rep_rank t rs es k Hk Hrep) as (ps & -> & He & Hb). cbn [res_bind]. by exists (Ann ps).
  - rewrite bool_decide_eq_false_2 by (intros [= H]; lia). set (lv := t + Z.of_nat (S n)) in *.
    destruct (rep_rank lv rs es (Z.max (ix_beam index) k) ltac:(lia) Hrep) as (ps & -> & He & Hb). cbn [res_bind].
    assert (Hids : p_id <$> ps = (nearest cpu query met (Z.max (ix_beam index) k) es).*1) by (by rewrite <-He, entries_ids).
    destruct (rep_nonempty _ _ _ Hrep) as [e0 He0].
    destruct (split_reads_rep lv (p_id <$> ps)) as (found & reads & Hs & Hl & Hrep').
    { unfold lv. lia. }
    { intros Hnil. rewrite Hids in Hnil. apply fmap_nil_inv in Hnil. revert Hnil. pose proof (ok_beam HT).
      apply nearest_nonempty with e0; [lia|done]. }
    { intros c. rewrite Hids. intros ([c' v] & -> & Hin%nearest_subseteq)%list_elem_of_fmap. cbn.
      split; [exact (rep_level _ _ _ _ Hrep Hin)|]. exists v. exact (rep_reached _ _ _ _ Hrep Hin). }
    unfold search_inner_level, check_depth. rewrite bool_decide_eq_true_2 by done. cbn [rust_assert res_bind]. rewrite Hs.
    replace (lv - 1) with (t + Z.of_nat n) in Hrep' by lia. rewrite Hids in Hrep'.
    destruct reads as [|c reads]; cbn [fmap list_fmap].
    + unfold all_found. cbn [tl_level]. rewrite (proj2 (forallb_forall _ _)).
      2: { intros f Hf'%list_elem_of_In. rewrite Forall_forall in Hl. rewrite (Hl f Hf'). apply Z.eqb_refl. }
      cbn [rust_assert res_bind]. destruct (IH n _ _ ltac:(lia) ltac:(lia) Hrep') as (r & Hr & Ho). exists r. split; [exact Hr|].
      destruct r as [b|ps']; [|exact Ho]. destruct Ho as (n' & es' & Hn' & Hb' & Hbr). exists n', es'. split_and!; [lia|exact Hb'|done].
    + eexists. split; [done|]. exists n, ((nearest cpu query met (Z.max (ix_beam index) k) es).*1 ≫= list_of).
      split; [lia|]. split; [reflexivity|]. exists (c :: reads). by split.
Qed.
(** the search starts with the root, in memory or not *)
Lemma search_in_level_spec t n fuel :
  (n < fuel)%nat → 1 ≤ t → t + Z.of_nat n = top →
  ∃ r, search_in_level cpu index query k (Inner t depth) fuel = Ok r ∧
    (Outcome t n (list_of ROOT_VECTOR_ID) r ∨
     ∃ b, r = ReadsRequired b ∧ BlockedRep (t + Z.of_nat n) b (list_of ROOT_VECTOR_ID)).
Proof.
  intros Hf Ht Hn. unfold search_in_level, check_depth. rewrite bool_decide_eq_true_2 by done. cbn [rust_assert res_bind].
  destruct (ok_root HT) as (root & Hroot & Hok). pose proof (ok_depth HT) as Hd.
  assert (Hdown : next_level_down (Root depth) = Ok (Inner top depth)).
  { unfold next_level_down, tl_inner, top, max_inner_level in *. by rewrite (proj2 (Z.ltb_lt _ _)), Z.leb_refl by lia. }
  assert (Hfo : found_ok top (ROOT_VECTOR_ID, root)).
  { split_and!; try apply Hok; [done|]. intros p Hp. by eapply reached_root. }
  assert (Hlo : loaded ROOT_VECTOR_ID = root) by (unfold loaded; by rewrite Hroot).
  assert (Hes : ∀ e, e ∈ list_of ROOT_VECTOR_ID ↔ ∃ cp : VectorId * PostingList, cp ∈ [(ROOT_VECTOR_ID, root)] ∧ e ∈ entries cp.2).
  { intros e. unfold list_of. rewrite Hlo. split; [intros; by eexists; split; [left|]|].
    by intros (cp & ->%list_elem_of_singleton & He). }
  assert (Hfr : maybe_get (read_root (ix_reader index)) = Ok root) by (by unfold fetch in Hroot; rewrite decide_True in Hroot).
  destruct (read_root (ix_reader index)) as [v|fut] eqn:Er; cbn [maybe_get] in Hfr.
  - injection Hfr as ->. change (all_found (tl_root (ix_depth index)) [(ROOT_VECTOR_ID, root)])
      with (Ok (E:=DbError) (mkResumable (Root depth) [(ROOT_VECTOR_ID, root)] [])). cbn [res_bind].
    destruct (resume_spec t n fuel (mkResumable (Root depth) [(ROOT_VECTOR_ID, root)] []) (list_of ROOT_VECTOR_ID))
      as (r & Hr & Ho); [done|done|lia| |by eauto]. rewrite Hn. split_and!; cbn; [done|done|by apply Forall_singleton|done].
  - eexists. split; [done|]. right. eexists. split; [done|]. exists [ROOT_VECTOR_ID]. split.
    + cbn. unfold fetched, fetch. by rewrite decide_True, Er by done.
    + rewrite Hn. split_and!; cbn; rewrite ?Hlo; [done|done|by apply Forall_singleton|done].
Qed.
End tree.

(** ** Batches *)
Section batches.
Context `{!FloatOps Z} (cpu : Cpu) (index : LeveledCentroidIndex) (dims : nat) (HT : TreeOk index dims).
Context {HO : HashOrder} {HOL : HashOrderLaws} {K : Type} `{Countable K}.
Context (k : Z) (Hk : 0 ≤ k) (t : Z) (Ht : 1 ≤ t ≤ max_inner_level (ix_depth index)).
Let depth := ix_depth index.
Let top := max_inner_level depth.
Let levels := Z.to_nat (top - t).

Definition answer (query : list Z) : list Entry :=
  beam_search cpu index query k levels (list_of index ROOT_VECTOR_ID).

Definition answered (query : list Z) (ps : list Posting) : Prop := entries ps = answer query ∧ Forall in_bounds ps.

(** a query that needs fewer than [r] more rounds of reads *)
Definition item_ok (r : nat) (it : K * list Z * option ResumableCentroidSearch) : Prop :=
  length it.1.2 = dims ∧
  match it.2 with
  | None => (S levels < r)%nat
  | Some rs => ∃ n es, (n < r)%nat ∧ t + Z.of_nat n ≤ top ∧ Rep index (t + Z.of_nat n) rs es ∧
      beam_search cpu index it.1.2 k n es = answer it.1.2
  end.

Definition reads_ok (b : BlockedCentroidSearch) : Prop :=
  ∀ c f, (c, f) ∈ bl_reads b → f = Ok (c, loaded index c).

Definition result_ok (r : nat) (it : K * list Z * option ResumableCentroidSearch) (y : K * list Z * SearchResult) : Prop :=
  y.1 = it.1 ∧ length it.1.2 = dims ∧
  match y.2 with
  | Ann ps => answered it.1.2 ps
  | ReadsRequired b => reads_ok b ∧ ∃ n es, (n < r)%nat ∧ t + Z.of_nat n ≤ top ∧ BlockedRep index (t + Z.of_nat n) b es ∧
      beam_search cpu index it.1.2 k n es = answer it.1.2
  end.

Lemma blocked_reads_ok lv b es : BlockedRep index lv b es → reads_ok b.
Proof.
  intros (reads & Hr & _ & _ & Hf & _) c f Hin. rewrite Hr in Hin. apply list_elem_of_fmap in Hin as (c' & [= -> ->] & Hc).
  rewrite Forall_forall in Hf. cbn [rs_found rs_read] in Hf. destruct (Hf (c', loaded index c')) as (Hfe & _).
  { apply elem_of_app. right. apply list_elem_of_fmap. eauto. }
  cbn in Hfe. unfold fetched. by rewrite Hfe.
Qed.

Lemma search_one_spec r it :
  item_ok (S r) it → ∃ y, search_one cpu index k (Inner t depth) it = Ok y ∧ result_ok r it y.
Proof.
  destruct it as [[key q] ip]. intros [Hq Hip]. cbn [fst snd] in *. unfold search_one, depth.
  pose proof (ok_depth _ _ HT) as Hd.
  assert (Hfuel : ∀ n : nat, t + Z.of_nat n ≤ top → (n < level_fuel index)%nat).
  { intros n Hn. unfold level_fuel, top, depth, max_inner_level in *. lia. }
  destruct ip as [rs|].
  - destruct Hip as (n & es & Hn & Hlv & Hrep & Hans).
    destruct (resume_spec cpu index dims HT q Hq k Hk t n (level_fuel index) rs es) as (x & -> & Ho);
      [by apply Hfuel|lia|done|done|]. cbn [res_bind]. eexists. split; [done|]. split; [done|]. split; [done|]. cbn [fst snd].
    destruct x as [b|ps].
    + destruct Ho as (n' & es' & Hn' & Hb & Hbr). split; [by eapply blocked_reads_ok|].
      exists n', es'. split_and!; [lia|lia|done|by rewrite Hb].
    + destruct Ho as [Ho Hb]. split; [by rewrite Ho|done].
  - assert (Hlv : t + Z.of_nat levels = top) by (unfold levels, top, depth in *; lia).
    destruct (search_in_level_spec cpu index dims HT q Hq k Hk t levels (level_fuel index)) as (x & -> & Ho);
      [by apply Hfuel; lia|lia|done|]. cbn [res_bind]. eexists. split; [done|]. split; [done|]. split; [done|]. cbn [fst snd].
    destruct Ho as [Ho|(b & -> & Hbr)].
    + destruct x as [b|ps].
      * destruct Ho as (n' & es' & Hn' & Hb & Hbr). split; [by eapply blocked_reads_ok|].
        exists n', es'. split_and!; [lia|lia|done|by rewrite Hb].
      * destruct Ho as [Ho Hb]. by split.
    + split; [by eapply blocked_reads_ok|]. exists levels, (list_of index ROOT_VECTOR_ID). split_and!; [lia|lia|done|done].
Qed.
(** every read of the round is executed once, whichever queries asked for it *)
Lemma gather_reads_spec (ys : list (K * list Z * SearchResult)) :
  (∀ y b, y ∈ ys → y.2 = ReadsRequired b → reads_ok b) →
  (∀ c f, gather_reads ys !! c = Some f → f = Ok (c, loaded index c)) ∧
  (∀ y b c f, y ∈ ys → y.2 = ReadsRequired b → (c, f) ∈ bl_reads b → is_Some (gather_reads ys !! c)).
Proof.
  set (reads := λ y : K * list Z * SearchResult, match y.2 with ReadsRequired b => bl_reads b | Ann _ => [] end).
  assert (He : gather_reads ys = insert_all ∅ (ys ≫= reads)).
  { unfold gather_reads. generalize (∅ : gmap Z (res DbError (VectorId * PostingList))).
    induction ys as [|y ys IH]; intros m0; [done|]. rewrite bind_cons, insert_all_app. cbn [foldl]. rewrite IH. f_equal.
    unfold reads. by destruct y.2. }
  assert (Hm : ∀ c f, (c, f) ∈ ys ≫= reads ↔ ∃ y b, y ∈ ys ∧ y.2 = ReadsRequired b ∧ (c, f) ∈ bl_reads b).
  { intros c f. rewrite list_elem_of_bind. unfold reads. split.
    - intros (y & Hin & Hy). destruct y.2 as [b|] eqn:E; [|by apply not_elem_of_nil in Hin]. eauto.
    - intros (y & b & Hy & E & Hin). exists y. by rewrite E. }
  intros Hys. rewrite He. split.
  - intros c f [(y & b & Hy & E & Hin)%Hm|H']%insert_all_elem; [by apply (Hys y b Hy E)|by rewrite lookup_empty in H'].
  - intros y b c f Hy E Hin. apply insert_all_is_Some. left. apply list_elem_of_fmap. exists (c, f). split; [done|].
    apply Hm. eauto.
Qed.

Lemma execute_reads_spec reads :
  (∀ c f, reads !! c = Some f → f = Ok (c, loaded index c)) →
  ∃ m, execute_reads reads = Ok m ∧ ∀ c, is_Some (reads !! c) → m !! c = Some (loaded index c).
Proof.
  intros Hr. unfold execute_reads.
  destruct (try_map_exists Datatypes.id (λ f cp, f = Ok cp) (hash_values reads)) as (ls & -> & Hls).
  { intros f (c & Hc)%elem_of_hash_values. rewrite (Hr c f Hc). by eexists. }
  cbn [res_bind]. eexists. split; [done|]. intros c [f Hc].
  assert (Hin : (c, loaded index c) ∈ ls).
  { assert (Hf : f ∈ hash_values reads) by (apply elem_of_hash_values; eauto).
    destruct (Forall2_elem_l _ _ _ _ Hls Hf) as (cp & Hcp & ->). by apply Hr in Hc as [= ->]. }
  destruct (insert_all ∅ ls !! c) as [pl|] eqn:E.
  - apply insert_all_elem in E as [E|E]; [|by rewrite lookup_empty in E].
    destruct (Forall2_elem_r _ _ _ _ Hls E) as (f' & (c' & Hc')%elem_of_hash_values & ->). by apply Hr in Hc' as [= -> ->].
  - apply eq_None_not_Some in E. exfalso. apply E. apply insert_all_is_Some. left. apply list_elem_of_fmap. by exists (c, loaded index c).
Qed.

(** the finished searches of a round *)
Lemma add_results_spec r its ys results :
  NoDup (fst ∘ fst <$> its) → Forall2 (result_ok r) its ys →
  (∀ it ps, it ∈ its → (it.1, Ann ps) ∈ ys → add_results results ys !! it.1.1 = Some ps) ∧
  (∀ key, (∀ q ps, (key, q, Ann ps) ∉ ys) → add_results results ys !! key = results !! key).
Proof.
  unfold add_results. intros Hn Hf. revert results. induction Hf as [|it y its ys Hy Hf IH]; intros results; cbn [foldl].
  { split; [by intros ?? ?%not_elem_of_nil|done]. }
  rewrite fmap_cons, NoDup_cons in Hn. destruct Hn as [Hit Hn]. specialize (IH Hn). destruct Hy as [Hy1 Hy2].
  split.
  - intros it' ps Hit' Hps. destruct y as [yq yr]. cbn [fst snd] in *. subst yq.
    apply elem_of_cons in Hps as [Heq|Hps].
    + injection Heq as He <-. cbn. rewrite He. rewrite (proj2 (IH (<[it.1.1 := ps]> results))); [by rewrite lookup_insert_eq|].
      intros q ps' Hin. apply Hit. destruct (Forall2_elem_r _ _ _ _ Hf Hin) as (it2 & Hit2 & Hr & _). cbn in Hr.
      apply list_elem_of_fmap. exists it2. split; [|done]. cbn. by rewrite <-Hr.
    + destruct (Forall2_elem_r _ _ _ _ Hf Hps) as (it2 & Hit2 & Hr & _). cbn in Hr.
      assert (Hi : (it2.1, Ann ps) ∈ ys) by (by rewrite <-Hr). destruct yr; rewrite Hr; by apply (proj1 (IH _) it2 ps Hit2 Hi).
  - intros key Hkey. destruct y as [[key' q'] [b|ps]]; cbn [fst snd].
    + apply IH. intros q ps Hin. apply (Hkey q ps). by right.
    + rewrite (proj2 (IH _)); [|intros q ps' Hin; apply (Hkey q ps'); by right].
      apply lookup_insert_ne. intros ->. apply (Hkey q' ps). left.
Qed.
Lemma nodup_key_inj {A B} (f : A → B) l x y : NoDup (f <$> l) → x ∈ l → y ∈ l → f x = f y → x = y.
Proof.
  induction l as [|z l IH]; [by intros _ ?%not_elem_of_nil|]. rewrite fmap_cons, NoDup_cons. intros [Hz Hn].
  intros [->|Hx]%elem_of_cons [->|Hy]%elem_of_cons He; [done|..|by apply IH]; exfalso; apply Hz.
  - rewrite He. by apply list_elem_of_fmap_2.
  - rewrite <-He. by apply list_elem_of_fmap_2.
Qed.

Lemma pending_of_cons (y : K * list Z * SearchResult) ys :
  pending_of (y :: ys) =
    match y.2 with ReadsRequired b => (y.1.1, y.1.2, (blocked_start b).2) :: pending_of ys | Ann _ => pending_of ys end.
Proof. unfold pending_of. cbn. by destruct y.2. Qed.

(** the searches left, with the lists they asked for *)
Lemma pending_next r its ys postings :
  Forall2 (result_ok r) its ys →
  (∀ y b c f, y ∈ ys → y.2 = ReadsRequired b → (c, f) ∈ bl_reads b → postings !! c = Some (loaded index c)) →
  ∃ next, try_map (λ p : K * list Z * InFlightBlockedCentroidSearch,
                     let? r := in_flight_finish p.2 postings in Ok (p.1.1, p.1.2, Some r)) (pending_of ys) = Ok next ∧
    (∀ it, it ∈ next → item_ok r it ∧ ∃ it0, it0 ∈ its ∧ it0.1 = it.1) ∧
    (∀ it b, it ∈ its → (it.1, ReadsRequired b) ∈ ys → ∃ it', it' ∈ next ∧ it'.1 = it.1) ∧
    fst ∘ fst <$> next `sublist_of` fst ∘ fst <$> its.
Proof.
  intros Hf. induction Hf as [|it y its ys (Hy1 & Hdim & Hy2) Hf IH]; intros Hp.
  { exists []. split_and!; [done|by intros ? ?%not_elem_of_nil|by intros ?? ?%not_elem_of_nil|done]. }
  destruct IH as (next & Hnext & H1 & H2 & H3); [intros; eapply Hp; [by right|done..]|].
  rewrite pending_of_cons. destruct y as [yq [b|ps]]; cbn [fst snd] in *; subst yq.
  - destruct Hy2 as (_ & n & es & Hn & Hlv & (reads & Hr & Hrep) & Hans). cbn [try_map]. unfold in_flight_finish at 1.
    cbn [blocked_start if_level if_found if_reads snd]. rewrite Hr.
    assert (((λ c, (c, fetched index c)) <$> reads).*1 = reads) as -> by (rewrite <-list_fmap_compose; apply list_fmap_id).
    rewrite (try_map_ok _ (λ c, (c, loaded index c))).
    2: { intros c Hc. rewrite (Hp (it.1, ReadsRequired b) b c (fetched index c)); [done|left|done|].
         rewrite Hr. apply list_elem_of_fmap. eauto. }
    cbn [res_bind]. rewrite Hnext. cbn [res_bind]. eexists. split; [done|]. split_and!.
    + intros it' [->|Hin]%elem_of_cons.
      * split; [|exists it; split; [left|by destruct it as [[? ?] ?]]].
        split; [done|]. exists n, es. by split_and!.
      * destruct (H1 it' Hin) as (Hok & it0 & Hit0 & He). split; [done|]. exists it0. split; [by right|done].
    + intros it' b' [->|Hin]%elem_of_cons Hb'.
      * eexists. split; [left|]. by destruct it as [[? ?] ?].
      * apply elem_of_cons in Hb' as [Heq|Hb'].
        -- injection Heq as He _. eexists. split; [left|]. rewrite He. by destruct it as [[? ?] ?].
        -- destruct (H2 it' b' Hin Hb') as (it2 & Hi2 & He2). exists it2. split; [by right|done].
    + rewrite !fmap_cons. by apply sublist_skip.
  - exists next. split_and!; [exact Hnext|..].
    + intros it' Hin. destruct (H1 it' Hin) as (Hok & it0 & Hit0 & He). split; [done|]. exists it0. split; [by right|done].
    + intros it' b' [->|Hin]%elem_of_cons Hb'.
      * apply elem_of_cons in Hb' as [Heq|Hb']; [by injection Heq|]. destruct (Forall2_elem_r _ _ _ _ Hf Hb') as (it2 & Hi2 & He2 & _).
        cbn in He2. rewrite He2 in Hb'. destruct (H2 it2 b' Hi2 Hb') as (it3 & ? & ?). exists it3. split; [done|congruence].
      * apply elem_of_cons in Hb' as [Heq|Hb']; [by injection Heq|]. by apply (H2 it' b').
    + rewrite fmap_cons. by apply sublist_cons.
Qed.

Lemma batch_loop_spec r results its :
  NoDup (fst ∘ fst <$> its) → (0 < r)%nat → (∀ it, it ∈ its → item_ok r it) →
  ∃ results', batch_loop cpu index k (Inner t depth) r results its = Ok results' ∧
    (∀ it, it ∈ its → ∃ ps, results' !! it.1.1 = Some ps ∧ answered it.1.2 ps) ∧
    (∀ key, key ∉ fst ∘ fst <$> its → results' !! key = results !! key).
Proof.
  revert results its. induction r as [|r IH]; intros results its Hn Hr Hits; [lia|]. cbn [batch_loop].
  destruct (try_map_exists (search_one cpu index k (Inner t depth)) (result_ok r) its) as (ys & -> & Hys).
  { intros it Hit. by apply search_one_spec, Hits. }
  cbn [res_bind]. destruct (add_results_spec r its ys results Hn Hys) as [Ha1 Ha2].
  assert (Hcase : ∀ it, it ∈ its → (∃ ps, (it.1, Ann ps) ∈ ys ∧ answered it.1.2 ps) ∨ ∃ b, (it.1, ReadsRequired b) ∈ ys).
  { intros it Hit. destruct (Forall2_elem_l _ _ _ _ Hys Hit) as ([yq [b|ps]] & Hy & Hy1 & _ & Hy2); cbn in Hy1, Hy2; subst yq; eauto. }
  assert (Hkey : ∀ q x key, (key, q, x) ∈ ys → key ∈ fst ∘ fst <$> its).
  { intros q x key Hin. destruct (Forall2_elem_r _ _ _ _ Hys Hin) as (it & Hit & He & _). cbn in He.
    apply list_elem_of_fmap. exists it. split; [cbn; by rewrite <-He|done]. }
  destruct (gather_reads_spec ys) as [Hg1 Hg2].
  { intros y b Hy E. destruct (Forall2_elem_r _ _ _ _ Hys Hy) as (it & _ & _ & _ & Hm). rewrite E in Hm. apply Hm. }
  destruct (execute_reads_spec (gather_reads ys) Hg1) as (postings & Hpost & Hlook).
  destruct (pending_next r its ys postings Hys) as (next & Hnext & Hn1 & Hn2 & Hn3).
  { intros y b c f Hy E Hin. apply Hlook. by eapply Hg2. }
  destruct (pending_of ys) as [|p ps0] eqn:Ep.
  - eexists. split; [done|]. cbn in Hnext. injection Hnext as <-. split.
    + intros it Hit. destruct (Hcase it Hit) as [(ps & Hps & Ha)|(b & Hb)]; [by exists ps; split; [apply Ha1|]|].
      destruct (Hn2 it b Hit Hb) as (? & ?%not_elem_of_nil & _). done.
    + intros key Hk'. apply Ha2. intros q ps Hin. apply Hk'. by eapply Hkey.
  - rewrite <-Ep in *. rewrite Hpost. cbn [res_bind]. rewrite Ep in *. rewrite Hnext. cbn [res_bind].
    assert (Hr' : (0 < r)%nat).
    { destruct r; [|lia]. exfalso. destruct (try_map_forall2 (λ p : K * list Z * InFlightBlockedCentroidSearch,
                     let? r := in_flight_finish p.2 postings in Ok (p.1.1, p.1.2, Some r)) (p :: ps0) next) as [Hx _].
      apply Hx in Hnext. inversion Hnext as [|? it0 ? next' _ _ E1 E2]; subst.
      destruct (Hn1 it0) as ((_ & Hok) & _); [left|]. destruct (it0.2); [destruct Hok as (? & ? & ? & _)|]; lia. }
    destruct (IH (add_results results ys) next) as (results' & Hb & Hi1 & Hi2); [by eapply sublist_NoDup|done|by apply Hn1|].
    exists results'. split; [exact Hb|]. split.
    + intros it Hit. destruct (Hcase it Hit) as [(ps & Hps & Ha)|(b & Hb')].
      * destruct (decide (it.1.1 ∈ fst ∘ fst <$> next)) as [Hin|Hin].
        -- apply list_elem_of_fmap in Hin as (it' & He & Hin). destruct (Hn1 it' Hin) as (_ & it0 & Hit0 & He0).
           destruct (Hi1 it' Hin) as (ps' & Hps' & Ha'). exists ps'. rewrite He. split; [done|].
           assert (it0 = it) as ->.
           { eapply (nodup_key_inj (fst ∘ fst)); [exact Hn|done..|]. cbn. rewrite He0. done. }
           by rewrite He0.
        -- exists ps. split; [|done]. rewrite Hi2 by done. by apply Ha1.
      * destruct (Hn2 it b Hit Hb') as (it' & Hin & He). destruct (Hi1 it' Hin) as (ps & Hps & Ha). rewrite <-He. eauto.
    + intros key Hk'. rewrite Hi2.
      * apply Ha2. intros q ps Hin. apply Hk'. by eapply Hkey.
      * intros Hin. apply Hk'. eapply elem_of_submseteq; [exact Hin|by apply sublist_submseteq].
Qed.
Lemma batch_search_spec (queries : list (K * list Z)) :
  NoDup queries.*1 → Forall (λ q, length q.2 = dims) queries →
  ∃ results, batch_search_centroids_in_level cpu index k (Inner t depth) queries = Ok results ∧
    (∀ key q, (key, q) ∈ queries → ∃ ps, results !! key = Some ps ∧ answered q ps) ∧
    (∀ key, key ∉ queries.*1 → results !! key = None).
Proof.
  intros Hn Hd. unfold batch_search_centroids_in_level. pose proof (ok_depth _ _ HT) as Hdep.
  assert (Hkeys : fst ∘ fst <$> ((λ q : K * list Z, (q.1, q.2, None : option ResumableCentroidSearch)) <$> queries) = queries.*1)
    by (by rewrite <-list_fmap_compose).
  destruct (batch_loop_spec (level_fuel index) ∅ ((λ q : K * list Z, (q.1, q.2, None)) <$> queries)) as (results & Hr & H1 & H2).
  - by rewrite Hkeys.
  - unfold level_fuel. lia.
  - intros it (q & -> & Hq)%list_elem_of_fmap. rewrite Forall_forall in Hd. split; [exact (Hd q Hq)|]. cbn.
    unfold level_fuel, levels, top, depth, max_inner_level in *. lia.
  - exists results. split; [exact Hr|]. rewrite Hkeys in H2. split.
    + intros key q Hin. apply (H1 (key, q, None)). apply list_elem_of_fmap. by exists (key, q).
    + intros key Hk'. by rewrite H2, lookup_empty.
Qed.
End batches.

(** the answer depends on what the reader returns, not on what it has in memory *)
Lemma beam_search_same `{!FloatOps Z} cpu index index' query k n es :
  ix_beam index' = ix_beam index → ix_metric index' = ix_metric index → (∀ c, fetch index' c = fetch index c) →
  beam_search cpu index' query k n es = beam_search cpu index query k n es.
Proof.
  intros Hb Hm Hf. revert es. induction n as [|n IH]; intros es; cbn [beam_search]; rewrite Hm; [done|]. rewrite IH, Hb. f_equal.
  apply list_bind_ext; [|done]. intros c. unfold list_of, loaded. by rewrite Hf.
Qed.

(** Ranking with a heap of [k] candidates, or all of them when the limit is
    [usize::MAX], returns what sorting would: the [k] nearest distinct postings of the
    lists, nearest first, ties by id, whatever the order of the lists and however often
    a posting occurs in them. *)
Theorem ranking_nearest `{!FloatOps Z} cpu query m l pls k :
  0 ≤ k → Forall (good_posting query (tl_level l)) (concat pls) → functional (entries (concat pls)) →
  ∃ ps, score_and_rank cpu l query m pls k = Ok ps ∧ entries ps = nearest cpu query m k (entries (concat pls)) ∧
    ∀ pls', concat pls' ≡ₚ concat pls →
      ∃ ps', score_and_rank cpu l query m pls' k = Ok ps' ∧ entries ps' = entries ps.
Proof.
  intros Hk Hg Hf. destruct (score_and_rank_spec cpu query m l (tl_level l) pls k Hk eq_refl Hg Hf) as (ps & H1 & H2 & _).
  exists ps. split_and!; [done|done|]. intros pls' Hp.
  assert (He : entries (concat pls') ≡ₚ entries (concat pls)) by (unfold entries; by rewrite Hp).
  assert (Hf' : functional (entries (concat pls'))) by (eapply functional_subseteq; [|exact Hf]; intros x; by rewrite He).
  destruct (score_and_rank_spec cpu query m l (tl_level l) pls' k Hk eq_refl) as (ps' & H1' & H2' & _); [by rewrite Hp|done|].
  exists ps'. split; [done|]. rewrite H2, H2'. apply nearest_ext; [done|]. intros e. by rewrite He.
Qed.

(** C22: A batch of searches in the centroid tree, suspended for reads and resumed in
    rounds, ends with an answer for every query: the result of descending the tree
    level by level, at each keeping the nearest [max(100, k)] nodes.  What is in memory
    and what has to be read changes nothing: a reader that returns the same lists gives
    the same answers. *)
Theorem tree_search_exact `{!FloatOps Z} `{HashOrderLaws} {K} `{Countable K} cpu index dims k t (queries : list (K * list Z)) :
  TreeOk index dims → 0 ≤ k → 1 ≤ t ≤ max_inner_level (ix_depth index) →
  NoDup queries.*1 → Forall (λ q, length q.2 = dims) queries →
  ∃ results, batch_search_centroids_in_level cpu index k (Inner t (ix_depth index)) queries = Ok results ∧
    (∀ key, is_Some (results !! key) ↔ key ∈ queries.*1) ∧
    (∀ key q, (key, q) ∈ queries → ∃ ps, results !! key = Some ps ∧ entries ps = answer cpu index k t q ∧ Forall in_bounds ps) ∧
    (∀ index', TreeOk index' dims → ix_depth index' = ix_depth index → ix_beam index' = ix_beam index →
       ix_metric index' = ix_metric index → (∀ c, fetch index' c = fetch index c) →
       ∃ results', batch_search_centroids_in_level cpu index' k (Inner t (ix_depth index)) queries = Ok results' ∧
         ∀ key, entries <$> results' !! key = entries <$> results !! key).
Proof.
  intros HT Hk Ht Hn Hd. destruct (batch_search_spec cpu index dims HT k Hk t Ht queries Hn Hd) as (results & Hr & A1 & A2).
  exists results. split; [exact Hr|]. split_and!.
  - intros key. split; [|intros ([key' q] & -> & Hin)%list_elem_of_fmap; destruct (A1 _ _ Hin) as (ps & Hps & _); by exists ps].
    intros [ps Hps]. destruct (decide (key ∈ queries.*1)) as [|Hnk]; [done|]. by rewrite A2 in Hps.
  - intros key q Hin. destruct (A1 key q Hin) as (ps & Hps & Ha). exists ps. split; [done|exact Ha].
  - intros index' HT' Hdep Hb Hm Hf. rewrite <-Hdep in Ht.
    destruct (batch_search_spec cpu index' dims HT' k Hk t Ht queries Hn Hd) as (results' & Hr' & A1' & A2').
    rewrite Hdep in Hr'. exists results'. split; [exact Hr'|]. intros key.
    destruct (decide (key ∈ queries.*1)) as [Hin|Hnk]; [|by rewrite A2, A2'].
    apply list_elem_of_fmap in Hin as ([key' q] & -> & Hin). cbn.
    destruct (A1 _ _ Hin) as (ps & -> & He & _), (A1' _ _ Hin) as (ps' & -> & He' & _). cbn. f_equal. rewrite He, He'.
    unfold answer. rewrite Hdep, (beam_search_same cpu index index') by done. f_equal. unfold list_of, loaded. by rewrite Hf.
Qed.

Lemma ranking_nearest_witness :
  let p id x := posting_new (2 ^ 56 + id) [x] in
  let pls := [[p 1 0x40400000; p 2 0x3f800000]; [p 2 0x3f800000; p 3 0x40000000]] in
  ∃ ps, score_and_rank (mkCpu false false false) (Inner 1 3) [0] L2 pls 2 = Ok ps ∧
    entries ps = [(2 ^ 56 + 2, [0x3f800000]); (2 ^ 56 + 3, [0x40000000])].
Proof.
  cbv zeta. destruct (ranking_nearest (mkCpu false false false) [0] L2 (Inner 1 3)
    [[posting_new (2 ^ 56 + 1) [0x40400000]; posting_new (2 ^ 56 + 2) [0x3f800000]];
     [posting_new (2 ^ 56 + 2) [0x3f800000]; posting_new (2 ^ 56 + 3) [0x40000000]]] 2) as (ps & H1 & H2 & _).
  - lia.
  - apply Forall_forall. intros p Hp. repeat (apply elem_of_cons in Hp as [->|Hp]; [split_and!; vm_compute; lia|]).
    by apply not_elem_of_nil in Hp.
  - intros a b Ha Hb. cbn in Ha, Hb. repeat (apply elem_of_cons in Ha as [->|Ha]; [
      repeat (apply elem_of_cons in Hb as [->|Hb]; [by vm_compute|]); by apply not_elem_of_nil in Hb|]).
    by apply not_elem_of_nil in Ha.
  - exists ps. split; [done|]. rewrite H2. vm_compute. reflexivity.
Defined.

(** a tree of two inner levels, partly in memory *)
Definition demo_nodes (c : VectorId) : PostingList :=
  if c =? 2 * 2 ^ 56 + 1 then [posting_new (2 ^ 56 + 3) [0]; posting_new (2 ^ 56 + 4) [0x3f800000]]
  else if c =? 2 * 2 ^ 56 + 2 then [posting_new (2 ^ 56 + 5) [0x40400000]]
  else [posting_new (2 * 2 ^ 56 + 1) [0]; posting_new (2 * 2 ^ 56 + 2) [0x40400000]].

Definition demo_index (cached : VectorId → bool) : LeveledCentroidIndex :=
  let rd c := if cached c then MValue (demo_nodes c) else MFuture (Ok (demo_nodes c)) in
  leveled_new 4 L2 (mkReader (rd ROOT_VECTOR_ID) rd).

Lemma demo_fetch cached c : fetch (demo_index cached) c = Ok (demo_nodes c).
Proof. unfold fetch. cbn. destruct (decide (c = ROOT_VECTOR_ID)) as [->|]; by destruct (cached _). Qed.

Lemma demo_reached cached e :
  Reached (demo_index cached) e →
  e ∈ [(2 * 2 ^ 56 + 1, [0]); (2 * 2 ^ 56 + 2, [0x40400000]);
       (2 ^ 56 + 3, [0]); (2 ^ 56 + 4, [0x3f800000]); (2 ^ 56 + 5, [0x40400000])].
Proof.
  induction 1 as [root p Hr Hp|c v pl p Hr IH Hc Hf Hp]; rewrite demo_fetch in *; simplify_eq.
  - cbn in Hp. repeat (apply elem_of_cons in Hp as [->|Hp]; [cbn; set_solver|]). by apply not_elem_of_nil in Hp.
  - repeat (apply elem_of_cons in IH as [[= -> ->]|IH]; [try (vm_compute in Hc; discriminate Hc); cbn in Hp;
      repeat (apply elem_of_cons in Hp as [->|Hp]; [cbn; set_solver|]); by apply not_elem_of_nil in Hp|]).
    by apply not_elem_of_nil in IH.
Qed.

Lemma demo_tree cached : TreeOk (demo_index cached) 1.
Proof.
  split; [done|done|..].
  - eexists. split; [apply demo_fetch|]. split_and!; [done|by repeat constructor|].
    intros p Hp. cbn in Hp. repeat (apply elem_of_cons in Hp as [->|Hp]; [by vm_compute|]). by apply not_elem_of_nil in Hp.
  - intros c v Hr%demo_reached Hc. eexists. split; [apply demo_fetch|].
    repeat (apply elem_of_cons in Hr as [[= -> ->]|Hr]; [first [vm_compute in Hc; discriminate Hc|split_and!;
      [done|by repeat constructor|]; intros p Hp; cbn in Hp; repeat (apply elem_of_cons in Hp as [->|Hp]; [by vm_compute|]);
      by apply not_elem_of_nil in Hp]|]). by apply not_elem_of_nil in Hr.
  - intros c v Hr%demo_reached. repeat (apply elem_of_cons in Hr as [[= -> ->]|Hr]; [done|]). by apply not_elem_of_nil in Hr.
  - intros c v v' Hr%demo_reached Hr'%demo_reached.
    assert (He : (c, v) = (c, v')); [|by injection He].
    eapply (nodup_key_inj fst); [|exact Hr|exact Hr'|done]. apply (bool_decide_unpack _). by vm_compute.
Qed.

Lemma tree_search_exact_witness :
  let cached c := c =? 2 * 2 ^ 56 + 1 in
  ∃ results, @batch_search_centroids_in_level _ (mkCpu false false false) tree_order Z _ _ (demo_index cached) 2 (Inner 1 4)
      [(7, [0]); (8, [0x40400000])] = Ok results ∧
    entries <$> results !! 7 = Some [(2 ^ 56 + 3, [0]); (2 ^ 56 + 4, [0x3f800000])] ∧
    is_Some (results !! 8).
Proof.
  cbv zeta. destruct (@tree_search_exact _ tree_order tree_order_laws Z _ _ (mkCpu false false false)
    (demo_index (λ c, c =? 2 * 2 ^ 56 + 1)) 1 2 1 [(7, [0]); (8, [0x40400000])]) as (results & Hr & Hs & Ha & _).
  - apply demo_tree.
  - lia.
  - vm_compute. split; intros [=].
  - apply (bool_decide_unpack _). vm_compute. exact I.
  - by repeat constructor.
  - exists results. split; [exact Hr|]. split; [|apply Hs; right; left].
    destruct (Ha 7 [0]) as (ps & -> & He & _); [left|]. cbn [fmap option_fmap option_map]. rewrite He. vm_compute. reflexivity.
Defined.
End VecSearchSpec.
