(* ===== verification/VecStore.v ===== *)
(** * vector: records of the store

    [storage/record.rs] and [storage/mod.rs]: the operations written by an indexing
    round and the typed reads of a snapshot, over any store ([KvStore.v]).  Strings are
    their UTF-8 bytes, [f32] and [f64] values their bit patterns. *)
From stdpp Require Import gmap.
From S2P Require Import Prelude HashMap ByteRange Storage KvStore VecSerde VecPosting VecMerge VecList VecSearch.
#[local] Open Scope Z_scope.

Module VecStore.
Import Vec VecPosting VecMerge VecList VecSearch.

(** ** Attributes *)
Inductive AttributeValue : Type :=
| AString (s : bytes)
| AInt64 (v : Z)
| AFloat64 (bits : Z)
| ABool (b : bool)
| AVector (v : list Z).

#[global] Instance AttributeValue_eq_dec : EqDecision AttributeValue.
Proof. solve_decision. Defined.

Definition field_of_attribute (a : AttributeValue) : FieldValue :=
  match a with
  | AString s => FString s
  | AInt64 v => FInt64 v
  | AFloat64 v => FFloat64 v
  | ABool v => FBool v
  | AVector v => FVector v
  end.

Definition attribute_of_field (f : FieldValue) : AttributeValue :=
  match f with
  | FString s => AString s
  | FInt64 v => AInt64 v
  | FFloat64 v => AFloat64 v
  | FBool v => ABool v
  | FVector v => AVector v
  end.

Lemma attribute_field_roundtrip a : attribute_of_field (field_of_attribute a) = a.
Proof. by destruct a. Qed.

(** ** storage/record.rs *)
(** [RecordOp::Put(Record::new(key, value).into())] *)
Definition put_op (key value : bytes) : RecordOp := Put (mkRecord key value) TtlDefault.
Definition merge_op (key value : bytes) : RecordOp := Merge (mkRecord key value) TtlDefault.

Definition put_id_dictionary (external_id : bytes) (internal_id : VectorId) : res DbError RecordOp :=
  let? v := of_encoding (id_dictionary_value_new internal_id) in
  Ok (put_op (id_dictionary_key_encode external_id) (id_dictionary_value_encode v)).

Definition delete_id_dictionary (external_id : bytes) : RecordOp := Delete (id_dictionary_key_encode external_id).

Definition fields_of (attributes : list (bytes * AttributeValue)) : list Field :=
  (λ a, mkField a.1 (field_of_attribute a.2)) <$> attributes.

Definition put_vector_data (internal_id : VectorId) (external_id : bytes) (attributes : list (bytes * AttributeValue)) :
    res DbError RecordOp :=
  let? k := of_encoding (vector_data_key_new internal_id) in
  let? v := of_encoding (vector_data_encode (vector_data_new external_id (fields_of attributes))) in
  Ok (put_op (vector_data_key_encode k) v).

Definition delete_vector_data (internal_id : VectorId) : res DbError RecordOp :=
  let? k := of_encoding (vector_data_key_new internal_id) in Ok (Delete (vector_data_key_encode k)).

Definition put_vector_index_data (internal_id : VectorId) (value : VectorIndexDataValue) : res DbError RecordOp :=
  let? k := of_encoding (vector_index_data_key_new internal_id) in
  let? v := of_encoding (index_data_encode value) in
  Ok (put_op (vector_index_data_key_encode k) v).

Definition delete_vector_index_data (internal_id : VectorId) : res DbError RecordOp :=
  let? k := of_encoding (vector_index_data_key_new internal_id) in Ok (Delete (vector_index_data_key_encode k)).

Section records.
Context {HO : HashOrder} {RT : RoaringTreemap}.

Definition merge_posting_list (centroid_id : VectorId) (postings : list PostingUpdate) : res DbError RecordOp :=
  let? k := of_encoding (posting_list_key_new centroid_id) in
  Ok (merge_op (posting_list_key_encode k) (postings_encode (from_posting_updates postings))).

Definition merge_centroid_stats (centroid_id : VectorId) (delta : Z) : res DbError RecordOp :=
  let? k := of_encoding (centroid_stats_key_new centroid_id) in
  Ok (merge_op (centroid_stats_key_encode k) (centroid_stats_encode delta)).

Definition merge_metadata_index_bitmap (encoded_key : bytes) (value : MetadataIndexValue) : res DbError RecordOp :=
  let? v := of_encoding (index_encode value) in Ok (merge_op encoded_key v).

(** ** storage/mod.rs *)
Context {St : Type} `{!KvStore St} (now : Z) (snapshot : St).

Definition get_value (key : bytes) : res DbError (option bytes) :=
  let? r := of_storage (kv_get now key snapshot) in Ok (value <$> r).

(** a record decoded when it is there *)
Definition get_decoded {A} (key : bytes) (decode : bytes → res Error A) : res DbError (option A) :=
  let? r := get_value key in
  match r with
  | Some v => let? a := of_encoding (decode v) in Ok (Some a)
  | None => Ok None
  end.

Definition lookup_internal_id (external_id : bytes) : res DbError (option VectorId) :=
  get_decoded (id_dictionary_key_encode external_id) id_dictionary_value_decode.

Definition get_vector_data (internal_id : VectorId) (dimensions : nat) : res DbError (option VectorDataValue) :=
  let? k := of_encoding (vector_data_key_new internal_id) in
  get_decoded (vector_data_key_encode k) (vector_data_decode dimensions).

Definition get_vector_index_data (internal_id : VectorId) : res DbError (option VectorIndexDataValue) :=
  let? k := of_encoding (vector_index_data_key_new internal_id) in
  get_decoded (vector_index_data_key_encode k) index_data_decode.

Definition get_centroids_meta : res DbError (option Z) := get_decoded centroids_key_encode centroids_decode.

Definition get_centroid_info (centroid_id : VectorId) : res DbError (option CentroidInfoValue) :=
  let? k := of_encoding (centroid_info_key_new centroid_id) in
  get_decoded (centroid_info_key_encode k) centroid_info_decode.

(** a scan over the key and its successor, to read one record *)
Definition get_posting_list (centroid_id : VectorId) (dimensions : nat) : res DbError (list PostingUpdate) :=
  let? _ := rust_assert (is_tree_node centroid_id) in
  let? k := of_encoding (posting_list_key_new centroid_id) in
  let key := posting_list_key_encode k in
  let key_next := key ++ [x00] in
  let? _ := rust_assert (blt key key_next) in
  let? records := of_storage (kv_scan now (mkRange (Included key) (Included key_next)) snapshot) in
  match records with
  | r :: _ => if bool_decide (Storage.key r ≠ key) then Ok [] else of_encoding (postings_decode dimensions (value r))
  | [] => Ok []
  end.

Definition get_root_posting_list (dimensions : nat) : res DbError (list PostingUpdate) :=
  get_posting_list ROOT_VECTOR_ID dimensions.

Definition get_centroid_stats (centroid_id : VectorId) : res DbError Z :=
  let? k := of_encoding (centroid_stats_key_new centroid_id) in
  let? v := get_decoded (centroid_stats_key_encode k) centroid_stats_decode in
  Ok (default 0 v).

(** the records of a range, key and value decoded *)
Definition scan_decoded {K A} (range : BytesRange) (key_decode : bytes → res Error K) (decode : bytes → res Error A) :
    res DbError (list (K * A)) :=
  let? records := of_storage (kv_scan now range snapshot) in
  try_map (λ r, let? k := of_encoding (key_decode (Storage.key r)) in
                let? v := of_encoding (decode (value r)) in Ok (k, v)) records.

Definition scan_all_centroid_stats : res DbError (list (VectorId * Z)) :=
  scan_decoded (ByteRange.prefix (start_key CentroidStats)) centroid_stats_key_decode centroid_stats_decode.

Definition scan_all_centroid_info : res DbError (list (VectorId * CentroidInfoValue)) :=
  scan_decoded (ByteRange.prefix (start_key CentroidInfo)) centroid_info_key_decode centroid_info_decode.

Definition scan_all_posting_lists (dimensions : nat) : res DbError (list (VectorId * list PostingUpdate)) :=
  scan_decoded (ByteRange.prefix (start_key Vec.PostingList)) posting_list_key_decode (postings_decode dimensions).

Definition scan_all_inner_posting_lists (dimensions : nat) : res DbError (list (VectorId * list PostingUpdate)) :=
  let? range := of_encoding inner_level_bytes_range in
  scan_decoded range posting_list_key_decode (postings_decode dimensions).

Definition get_metadata_index (field : bytes) (value : FieldValue) : res DbError MetadataIndexValue :=
  let? key := of_encoding (metadata_index_key_encode (mkIndexKey field value)) in
  let? v := get_decoded key index_decode in
  Ok (default index_new v).

(** ** StoredCentroidReader *)
Definition stored_reader (dimensions : nat) : CentroidReader :=
  let read c := MFuture (let? value := get_posting_list c dimensions in of_encoding (from_value value)) in
  mkReader (read ROOT_VECTOR_ID) read.
End records.
End VecStore.
