(* ===== verification/VecState.v ===== *)
(** * vector: state and deltas of the index

    [write/indexer/tree/state.rs] and the centroid cache of
    [write/indexer/tree/centroids.rs]: what the indexer keeps in memory between rounds,
    what a round accumulates in its delta, how the delta is frozen into the state, the
    cache and the operations for the store, and the view of the index that a round
    reads while it writes.  Failed assertions and [expect]s are [Panic].  Hash maps and
    sets are iterated in any order ([HashMap.v]). *)
From stdpp Require Import gmap.
From S2P Require Import Prelude HashMap Storage KvStore Sequence VecSerde VecPosting VecMerge VecList VecSearch VecStore.
#[local] Open Scope Z_scope.

Module VecState.
Import Vec VecPosting VecMerge VecList VecSearch VecStore.

(** ** AllCentroidsCache *)
Record WrittenPostingList : Type := mkWritten { wr_posting_list : PostingList; written_epoch : Z }.

Abbreviation CentroidCache := (gmap Z WrittenPostingList).

(** [AllCentroidsCache::postings] *)
Definition cache_postings (cache : CentroidCache) (centroid_ids : list VectorId) (epoch : Z) : list PostingList :=
  omap (λ p, if epoch <? written_epoch p then None else Some (wr_posting_list p))
    (omap (λ c, cache !! c) centroid_ids).

Definition cache_posting (cache : CentroidCache) (centroid_id : VectorId) (epoch : Z) : option PostingList :=
  head (cache_postings cache [centroid_id] epoch).

Definition cache_root (cache : CentroidCache) (epoch : Z) : option PostingList :=
  cache_posting cache ROOT_VECTOR_ID epoch.

(** [AllCentroidsCacheWriter::new] *)
Definition cache_new (root_posting_list : PostingList) (centroid_postings : list (VectorId * PostingList)) :
    res DbError CentroidCache :=
  let? _ := rust_assert (forallb (λ cp : VectorId * PostingList, (1 <? level cp.1) && is_centroid cp.1) centroid_postings) in
  Ok (insert_all ∅ (((λ cp, (cp.1, mkWritten cp.2 0)) <$> centroid_postings) ++
                    [(ROOT_VECTOR_ID, mkWritten root_posting_list 0)])).

(** [CachedCentroidReader] over a [StoredCentroidReader] of snapshot [epoch] *)
Definition cached_reader (cache : CentroidCache) (epoch : Z) (inner : CentroidReader) : CentroidReader :=
  mkReader
    (match cache_root cache epoch with Some root => MValue root | None => read_root inner end)
    (λ c, match cache_posting cache c epoch with Some postings => MValue postings | None => read_postings inner c end).

Section state.
Context {HO : HashOrder} {RT : RoaringTreemap}.

(** the elements of a [HashSet] *)
Definition hash_elements (s : gset Z) : list Z := hash_keys (gset_to_gmap tt s).

(** [for x in xs { f(x)? }] on a state *)
Fixpoint for_each {A S} (f : A → S → res DbError S) (xs : list A) (s : S) : res DbError S :=
  match xs with [] => Ok s | x :: xs => let? s := f x s in for_each f xs s end.

(** [apply_updates] of [update_postings] *)
Definition cache_apply (posting_list : option PostingList) (updates : list PostingUpdate) : res DbError PostingList :=
  match posting_list with
  | None => of_encoding (from_value (from_posting_updates updates))
  | Some posting_list => of_encoding (update_and_flatten posting_list updates)
  end.

Definition update_root (epoch : Z) (root : option (list PostingUpdate)) (root_updates : list PostingUpdate)
    (cache : CentroidCache) : res DbError CentroidCache :=
  match root, root_updates with
  | None, [] => Ok cache
  | _, _ =>
      let? rt := match root with
                 | Some root => cache_apply None root
                 | None => let? w := expect (cache !! ROOT_VECTOR_ID) in Ok (wr_posting_list w)
                 end in
      let? rt := match root_updates with [] => Ok rt | _ => cache_apply (Some rt) root_updates end in
      Ok (<[ROOT_VECTOR_ID := mkWritten rt epoch]> cache)
  end.

Definition add_new_centroid (epoch : Z) (c : VectorId) (cache : CentroidCache) : res DbError CentroidCache :=
  if level c =? LEAF_LEVEL then Ok cache
  else
    let? _ := rust_assert (is_centroid c) in
    Ok (<[c := mkWritten [] epoch]> cache).

Definition update_cached (epoch : Z) (cu : VectorId * list PostingUpdate) (cache : CentroidCache) : res DbError CentroidCache :=
  if level cu.1 =? LEAF_LEVEL then Ok cache
  else
    let? _ := rust_assert (is_centroid cu.1) in
    let? w := expect (cache !! cu.1) in
    let? pl := cache_apply (Some (wr_posting_list w)) cu.2 in
    Ok (<[cu.1 := mkWritten pl epoch]> cache).

Definition remove_cached (c : VectorId) (cache : CentroidCache) : res DbError CentroidCache :=
  let? _ := rust_assert (is_centroid c) in Ok (delete c cache).

Definition update_postings (epoch : Z) (root : option (list PostingUpdate)) (root_updates : list PostingUpdate)
    (new_centroids : gset Z) (centroid_postings : list (VectorId * list PostingUpdate)) (deleted_centroids : gset Z)
    (cache : CentroidCache) : res DbError CentroidCache :=
  let? cache := update_root epoch root root_updates cache in
  let? cache := for_each (add_new_centroid epoch) (hash_elements new_centroids) cache in
  let? cache := for_each (update_cached epoch) centroid_postings cache in
  for_each remove_cached (hash_elements deleted_centroids) cache.

(** ** VectorIndexState *)
Record VectorIndexState : Type := mkState {
  dictionary : gmap bytes VectorId;
  st_centroids_meta : Z;                              (* depth *)
  st_root_centroid_count : Z;
  centroids : gmap Z CentroidInfoValue;
  st_centroid_counts : gmap Z (gmap Z Z);             (* by level, then by centroid *)
  sequence_block_key : bytes;
  sequence_block : AllocatedSeqBlock;
  centroid_sequence_block_key : bytes;
  centroid_sequence_block : AllocatedSeqBlock;
  centroid_cache : CentroidCache;
}.

(** ** ForwardIndexDelta *)
Record ForwardIndexDelta : Type := mkForward {
  dictionary_updates : gmap bytes VectorId;
  vector_updates : gmap Z VectorDataValue;
  vector_index_updates : gmap Z VectorIndexDataValue;
  vector_deletes : gset Z;
  fi_allocator : SequenceAllocator;
  fi_ops : list RecordOp;
}.

Definition forward_new (st : VectorIndexState) : ForwardIndexDelta :=
  mkForward ∅ ∅ ∅ ∅ (mkAllocator (sequence_block_key st) (sequence_block st)) [].

(** a new block is stored with the round that uses its first id *)
Definition alloc_op (seq_alloc_put : option Record_) : list RecordOp :=
  match seq_alloc_put with Some r => [Put r TtlDefault] | None => [] end.

Definition add_vector (external_id : bytes) (attributes : list (bytes * AttributeValue)) (d : ForwardIndexDelta) :
    res DbError (VectorId * ForwardIndexDelta) :=
  let '(n, seq_alloc_put, alloc) := allocate_one (fi_allocator d) in
  let? vector_id := of_encoding (data_vector_id n) in
  let value := vector_data_new external_id (fields_of attributes) in
  Ok (vector_id,
      mkForward (<[external_id := vector_id]> (dictionary_updates d)) (<[vector_id := value]> (vector_updates d))
        (vector_index_updates d) (vector_deletes d) alloc (fi_ops d ++ alloc_op seq_alloc_put)).

Definition update_vector_index_data (vector_id : VectorId) (postings : list VectorId) (indexed_fields : list Field)
    (d : ForwardIndexDelta) : res DbError ForwardIndexDelta :=
  let? _ := rust_assert (is_data_vector vector_id) in
  let? value := of_encoding (index_data_new postings indexed_fields) in
  Ok (mkForward (dictionary_updates d) (vector_updates d) (<[vector_id := value]> (vector_index_updates d))
        (vector_deletes d) (fi_allocator d) (fi_ops d)).

Definition delete_vector (vector_id : VectorId) (d : ForwardIndexDelta) : ForwardIndexDelta :=
  mkForward (dictionary_updates d) (vector_updates d) (delete vector_id (vector_index_updates d))
    ({[vector_id]} ∪ vector_deletes d) (fi_allocator d) (fi_ops d).

Definition dictionary_op (e : bytes * VectorId) : res DbError RecordOp := put_id_dictionary e.1 e.2.
Definition vector_op (e : VectorId * VectorDataValue) : res DbError RecordOp :=
  let? k := of_encoding (vector_data_key_new e.1) in
  let? v := of_encoding (vector_data_encode e.2) in
  Ok (put_op (vector_data_key_encode k) v).
Definition index_op (e : VectorId * VectorIndexDataValue) : res DbError RecordOp := put_vector_index_data e.1 e.2.
Definition delete_ops (v : VectorId) : res DbError (list RecordOp) :=
  let? a := delete_vector_data v in
  let? b := delete_vector_index_data v in
  Ok [a; b].

Definition forward_freeze (d : ForwardIndexDelta) (st : VectorIndexState) (output_ops : list RecordOp) :
    res DbError (VectorIndexState * list RecordOp) :=
  let '(key, block) := freeze (fi_allocator d) in
  let st := mkState (insert_all (dictionary st) (hash_iter (dictionary_updates d))) (st_centroids_meta st)
              (st_root_centroid_count st) (centroids st) (st_centroid_counts st) key block
              (centroid_sequence_block_key st) (centroid_sequence_block st) (centroid_cache st) in
  let? dict := try_map dictionary_op (hash_iter (dictionary_updates d)) in
  let? vecs := try_map vector_op (hash_iter (vector_updates d)) in
  let? idxs := try_map index_op (hash_iter (vector_index_updates d)) in
  let? dels := try_map delete_ops (hash_elements (vector_deletes d)) in
  Ok (st, output_ops ++ fi_ops d ++ dict ++ vecs ++ idxs ++ concat dels).

(** ** SearchIndexDelta *)
Record SearchIndexDelta : Type := mkSearch {
  centroids_meta : Z;
  upserted_centroids : gmap Z CentroidInfoValue;
  new_centroids : gset Z;
  deleted_centroids : gset Z;
  centroid_count_deltas : gmap Z (gmap Z Z);
  root : option (list PostingUpdate);
  root_centroid_count : Z;
  root_updates : list PostingUpdate;
  posting_updates : gmap Z (list PostingUpdate);
  inverted_index_updates : gmap bytes MetadataIndexValue;
  si_allocator : SequenceAllocator;
  current_posting : gmap Z VectorId;
  si_ops : list RecordOp;
}.

Definition search_new (st : VectorIndexState) : SearchIndexDelta :=
  mkSearch (st_centroids_meta st) ∅ ∅ ∅ ∅ None (st_root_centroid_count st) [] ∅ ∅
    (mkAllocator (centroid_sequence_block_key st) (centroid_sequence_block st)) ∅ [].

Definition tree_level (d : SearchIndexDelta) (lv : Z) : res DbError TreeLevel :=
  let? depth := depth_of (centroids_meta d) in tl_of lv depth.

(** [entry(level).or_default().insert(id, count)] *)
Definition set_count (lv id n : Z) (counts : gmap Z (gmap Z Z)) : gmap Z (gmap Z Z) :=
  <[lv := <[id := n]> (default ∅ (counts !! lv))]> counts.

(** [*entry(level).or_default().entry(id).or_insert(0) += n] *)
Definition add_count (lv id n : Z) (counts : gmap Z (gmap Z Z)) : gmap Z (gmap Z Z) :=
  set_count lv id (as_signed 64 (default 0 (default ∅ (counts !! lv) !! id) + n)) counts.

Definition add_centroid (lvl : TreeLevel) (vector : list Z) (parent : VectorId) (d : SearchIndexDelta) :
    res DbError (VectorId * CentroidInfoValue * SearchIndexDelta) :=
  let? parent_level := tree_level d (level parent) in
  let? up := next_level_up lvl in
  let? _ := rust_assert (bool_decide (up = parent_level)) in
  let '(n, seq_alloc_put, alloc) := allocate_one (si_allocator d) in
  let? id := of_encoding (centroid_id (tl_level lvl) n) in
  let? _ := rust_assert (is_centroid id) in
  let? _ := rust_assert (tl_level lvl =? level id) in
  let? centroid := of_encoding (centroid_info_new (tl_level lvl) vector parent) in
  Ok (id, centroid,
      mkSearch (centroids_meta d) (<[id := centroid]> (upserted_centroids d)) ({[id]} ∪ new_centroids d)
        (deleted_centroids d) (set_count (level id) id 0 (centroid_count_deltas d)) (root d) (root_centroid_count d)
        (root_updates d) (posting_updates d) (inverted_index_updates d) alloc (current_posting d)
        (si_ops d ++ alloc_op seq_alloc_put)).

Definition set_root (meta count : Z) (rt : option (list PostingUpdate)) (updates : list PostingUpdate) (d : SearchIndexDelta) :
    SearchIndexDelta :=
  mkSearch meta (upserted_centroids d) (new_centroids d) (deleted_centroids d) (centroid_count_deltas d) rt count updates
    (posting_updates d) (inverted_index_updates d) (si_allocator d) (current_posting d) (si_ops d).

(** [for new_c_vec in new_root_centroids] *)
Fixpoint add_root_centroids (new_level : TreeLevel) (vectors : list (list Z)) (d : SearchIndexDelta) :
    res DbError (list Posting * SearchIndexDelta) :=
  match vectors with
  | [] => Ok ([], d)
  | v :: vectors =>
      let? (id, c, d) := add_centroid new_level v ROOT_VECTOR_ID d in
      let? (ps, d) := add_root_centroids new_level vectors d in
      Ok (posting_new id (ci_vector c) :: ps, d)
  end.

Definition promote_root (new_root_centroids : list (list Z)) (d : SearchIndexDelta) : res DbError (TreeLevel * SearchIndexDelta) :=
  let meta := wrap 8 (centroids_meta d + 1) in
  let d := set_root meta (root_centroid_count d) (root d) (root_updates d) d in
  let? depth := depth_of meta in
  let? new_level := next_level_down (tl_root depth) in
  let? (ps, d) := add_root_centroids new_level new_root_centroids d in
  let? _ := rust_assert (forallb (λ p, level (p_id p) =? max_inner_level depth) ps) in
  let? rt := of_encoding (try_map posting_update ps) in
  Ok (new_level, set_root meta (blen ps) (Some rt) [] d).

Definition add_to_root (centroid_id : VectorId) (vector : list Z) (d : SearchIndexDelta) : res DbError SearchIndexDelta :=
  let? depth := depth_of (centroids_meta d) in
  let? _ := rust_assert (max_inner_level depth =? level centroid_id) in
  let? _ := rust_assert (is_centroid centroid_id) in
  Ok (set_root (centroids_meta d) (wrap 64 (root_centroid_count d + 1)) (root d)
        (root_updates d ++ [PAppend centroid_id vector]) d).

Definition remove_from_root (centroid_id : VectorId) (d : SearchIndexDelta) : res DbError SearchIndexDelta :=
  let? depth := depth_of (centroids_meta d) in
  let? _ := rust_assert (max_inner_level depth =? level centroid_id) in
  let? _ := rust_assert (0 <? root_centroid_count d) in
  Ok (set_root (centroids_meta d) (saturating_sub (root_centroid_count d) 1) (root d)
        (root_updates d ++ [PDelete centroid_id]) d).

Definition update_centroid (centroid_id : VectorId) (entry : CentroidInfoValue) (d : SearchIndexDelta) :
    res DbError SearchIndexDelta :=
  let? _ := rust_assert (level centroid_id =? ci_level entry) in
  let? depth := depth_of (centroids_meta d) in
  let? own := tl_of (level centroid_id) depth in
  let? up := next_level_up own in
  let? parent := tl_of (level (ci_parent entry)) depth in
  let? _ := rust_assert (bool_decide (up = parent)) in
  Ok (mkSearch (centroids_meta d) (<[centroid_id := entry]> (upserted_centroids d)) (new_centroids d) (deleted_centroids d)
        (centroid_count_deltas d) (root d) (root_centroid_count d) (root_updates d) (posting_updates d)
        (inverted_index_updates d) (si_allocator d) (current_posting d) (si_ops d)).

Definition forget_centroid (d : SearchIndexDelta) (c : VectorId) : SearchIndexDelta :=
  mkSearch (centroids_meta d) (delete c (upserted_centroids d)) (new_centroids d ∖ {[c]}) (deleted_centroids d)
    (alter (delete c) (level c) (centroid_count_deltas d)) (root d) (root_centroid_count d) (root_updates d)
    (delete c (posting_updates d)) (inverted_index_updates d) (si_allocator d) (current_posting d) (si_ops d).

Definition delete_centroids (cs : list VectorId) (d : SearchIndexDelta) : SearchIndexDelta :=
  let d := foldl forget_centroid d cs in
  mkSearch (centroids_meta d) (upserted_centroids d) (new_centroids d) (deleted_centroids d ∪ list_to_set cs)
    (centroid_count_deltas d) (root d) (root_centroid_count d) (root_updates d) (posting_updates d)
    (inverted_index_updates d) (si_allocator d) (current_posting d) (si_ops d).

(** [posting_updates.entry(c).or_default().push(u)], and the count *)
Definition push_update (c : VectorId) (u : PostingUpdate) (n : Z) (current : gmap Z VectorId) (d : SearchIndexDelta) :
    SearchIndexDelta :=
  mkSearch (centroids_meta d) (upserted_centroids d) (new_centroids d) (deleted_centroids d)
    (add_count (level c) c n (centroid_count_deltas d)) (root d) (root_centroid_count d) (root_updates d)
    (<[c := default [] (posting_updates d !! c) ++ [u]]> (posting_updates d)) (inverted_index_updates d)
    (si_allocator d) current (si_ops d).

Definition add_to_posting (c vector_id : VectorId) (vector : list Z) (d : SearchIndexDelta) : res DbError SearchIndexDelta :=
  let? _ := rust_assert (wrap 8 (level vector_id + 1) =? level c) in
  Ok (push_update c (PAppend vector_id vector) 1 (<[vector_id := c]> (current_posting d)) d).

Definition remove_from_posting (c vector_id : VectorId) (d : SearchIndexDelta) : res DbError SearchIndexDelta :=
  let? _ := rust_assert (wrap 8 (level vector_id + 1) =? level c) in
  let? current := match current_posting d !! vector_id with
                  | Some cur => let? _ := rust_assert (cur =? c) in Ok (delete vector_id (current_posting d))
                  | None => Ok (current_posting d)
                  end in
  Ok (push_update c (PDelete vector_id) (-1) current d).

Definition update_inverted (key : bytes) (f : MetadataIndexValue → MetadataIndexValue) (d : SearchIndexDelta) : SearchIndexDelta :=
  mkSearch (centroids_meta d) (upserted_centroids d) (new_centroids d) (deleted_centroids d) (centroid_count_deltas d)
    (root d) (root_centroid_count d) (root_updates d) (posting_updates d)
    (<[key := f (default VecMerge.index_new (inverted_index_updates d !! key))]> (inverted_index_updates d))
    (si_allocator d) (current_posting d) (si_ops d).

Definition add_to_inverted_index (field : bytes) (value : FieldValue) (vector_id : VectorId) (d : SearchIndexDelta) :
    res DbError SearchIndexDelta :=
  let? key := of_encoding (metadata_index_key_encode (mkIndexKey field value)) in
  Ok (update_inverted key (include_vector vector_id) d).

Definition remove_from_inverted_index (field : bytes) (value : FieldValue) (vector_id : VectorId) (d : SearchIndexDelta) :
    res DbError SearchIndexDelta :=
  let? key := of_encoding (metadata_index_key_encode (mkIndexKey field value)) in
  Ok (update_inverted key (exclude_vector vector_id) d).

(** ** Freezing a delta *)
(** [u64::saturating_add_signed] *)
Definition saturating_add_signed (a d : Z) : Z := Z.max 0 (Z.min (u_max 64) (a + d)).

(** [*counts.entry(c).or_insert(0)] plus the delta, for each delta *)
Definition apply_count_deltas (counts : gmap Z Z) (deltas : list (VectorId * Z)) : gmap Z Z :=
  foldl (λ m cd, <[cd.1 := saturating_add_signed (default 0 (m !! cd.1)) cd.2]> m) counts deltas.

Definition apply_level_deltas (all : gmap Z (gmap Z Z)) (deltas : list (Z * gmap Z Z)) : gmap Z (gmap Z Z) :=
  foldl (λ m ld, <[ld.1 := apply_count_deltas (default ∅ (m !! ld.1)) (hash_iter ld.2)]> m) all deltas.

(** the updates of centroids of the tree, for the cache *)
Definition cache_posting_updates (cs : gmap Z CentroidInfoValue) (updates : gmap Z (list PostingUpdate)) :
    list (VectorId * list PostingUpdate) :=
  filter (λ cu, match cs !! cu.1 with Some c => 0 <? ci_level c | None => false end = true) (hash_iter updates).

(** what an [if let Ok(op)] keeps *)
Definition ok_ops (rs : list (res DbError RecordOp)) : res DbError (list RecordOp) :=
  foldr (λ r acc, let? l := acc in
                  match r with Ok op => Ok (op :: l) | Err _ => Ok l | Panic => Panic end) (Ok []) rs.

Definition info_op (e : VectorId * CentroidInfoValue) : res DbError RecordOp :=
  let? k := of_encoding (centroid_info_key_new e.1) in
  let? v := of_encoding (centroid_info_encode e.2) in
  Ok (put_op (centroid_info_key_encode k) v).

Definition stats_op (counts : gmap Z Z) (c : VectorId) : res DbError RecordOp :=
  let? count := expect (counts !! c) in
  let? k := of_encoding (centroid_stats_key_new c) in
  let? _ := rust_assert (count <? 2 ^ 31) in
  Ok (put_op (centroid_stats_key_encode k) (centroid_stats_encode count)).

Definition level_stats_ops (all : gmap Z (gmap Z Z)) (deleted : gset Z) (ld : Z * gmap Z Z) : res DbError (list RecordOp) :=
  match all !! ld.1 with
  | None => Ok []
  | Some counts => try_map (stats_op counts) (filter (λ c, c ∉ deleted) (hash_keys ld.2))
  end.

Definition delete_centroid_ops (c : VectorId) : res DbError (list RecordOp) :=
  let? i := of_encoding (centroid_info_key_new c) in
  let? p := of_encoding (posting_list_key_new c) in
  let? s := of_encoding (centroid_stats_key_new c) in
  Ok [Delete (centroid_info_key_encode i); Delete (posting_list_key_encode p); Delete (centroid_stats_key_encode s)].

Definition root_put_op (rt : list PostingUpdate) : res DbError RecordOp :=
  let? k := of_encoding (posting_list_key_new ROOT_VECTOR_ID) in
  Ok (put_op (posting_list_key_encode k) (postings_encode (from_posting_updates rt))).

(** the state after the delta *)
Definition search_freeze_state (d : SearchIndexDelta) (epoch : Z) (st : VectorIndexState) : res DbError VectorIndexState :=
  let counts := apply_level_deltas (st_centroid_counts st) (hash_iter (centroid_count_deltas d)) in
  let counts := (λ m, foldl (λ m c, delete c m) m (hash_elements (deleted_centroids d))) <$> counts in
  let cs := foldl (λ m c, delete c m) (centroids st) (hash_elements (deleted_centroids d)) in
  let cs := insert_all cs (hash_iter (upserted_centroids d)) in
  let? cache := update_postings epoch (root d) (root_updates d) (new_centroids d)
                  (cache_posting_updates cs (posting_updates d)) (deleted_centroids d) (centroid_cache st) in
  let '(key, block) := freeze (si_allocator d) in
  Ok (mkState (dictionary st) (centroids_meta d) (root_centroid_count d) cs counts (sequence_block_key st) (sequence_block st)
        key block cache).

(** the operations for the store, given the counts of the new state *)
Definition search_freeze_ops (d : SearchIndexDelta) (counts : gmap Z (gmap Z Z)) : res DbError (list RecordOp) :=
  let meta := put_op centroids_key_encode (centroids_encode (centroids_meta d)) in
  let? rt := match root d with Some rt => let? op := root_put_op rt in Ok [op] | None => Ok [] end in
  let? rus := match root_updates d with
              | [] => Ok []
              | us => let? op := merge_posting_list ROOT_VECTOR_ID us in Ok [op]
              end in
  let? infos := try_map info_op (hash_iter (upserted_centroids d)) in
  let? posts := ok_ops ((λ cu, merge_posting_list cu.1 cu.2) <$> hash_iter (posting_updates d)) in
  let? stats := try_map (level_stats_ops counts (deleted_centroids d)) (hash_iter (centroid_count_deltas d)) in
  let? idxs := ok_ops ((λ kv, merge_metadata_index_bitmap kv.1 (make_mutually_exclusive kv.2)) <$>
                       hash_iter (inverted_index_updates d)) in
  let? dels := try_map delete_centroid_ops (hash_elements (deleted_centroids d)) in
  Ok (si_ops d ++ [meta] ++ rt ++ rus ++ infos ++ posts ++ concat stats ++ idxs ++ concat dels).

Definition search_freeze (d : SearchIndexDelta) (epoch : Z) (st : VectorIndexState) (output_ops : list RecordOp) :
    res DbError (VectorIndexState * list RecordOp) :=
  let? st := search_freeze_state d epoch st in
  let? ops := search_freeze_ops d (st_centroid_counts st) in
  Ok (st, output_ops ++ ops).

Record VectorIndexDelta : Type := mkDelta { forward_index : ForwardIndexDelta; search_index : SearchIndexDelta }.

Definition delta_new (st : VectorIndexState) : VectorIndexDelta := mkDelta (forward_new st) (search_new st).

Definition delta_freeze (d : VectorIndexDelta) (epoch : Z) (st : VectorIndexState) : res DbError (VectorIndexState * list RecordOp) :=
  let? (st, ops) := forward_freeze (forward_index d) st [] in
  search_freeze (search_index d) epoch st ops.

(** ** DirtyCentroidReader *)
(** a value computed now; a panic on the way is the panic of the read *)
Definition maybe_of {A} (r : res DbError A) : MaybeCached A :=
  match r with Ok a => MValue a | Err e => MFuture (Err e) | Panic => MFuture Panic end.

Definition dirty_root (d : SearchIndexDelta) (reader : CentroidReader) : MaybeCached PostingList :=
  match root d with
  | Some rt => maybe_of (of_encoding (from_value (from_posting_updates (rt ++ root_updates d))))
  | None => maybe_map (λ p, match root_updates d with [] => p | us => update_in_place p us end) (read_root reader)
  end.

Definition dirty_reader (d : SearchIndexDelta) (reader : CentroidReader) : CentroidReader :=
  mkReader (dirty_root d reader)
    (λ c, if c =? ROOT_VECTOR_ID then dirty_root d reader
          else if bool_decide (c ∈ deleted_centroids d) then MValue []
          else maybe_map (λ p, match posting_updates d !! c with Some us => update_in_place p us | None => p end)
                 (read_postings reader c)).

(** ** VectorIndexView *)
Section view.
Context {St : Type} `{!KvStore St} (now : Z).
Context (delta : VectorIndexDelta) (state : VectorIndexState) (snapshot : St) (snapshot_epoch : Z).

Definition view_centroids_meta : Z := centroids_meta (search_index delta).

Definition view_vector_id (external_id : bytes) : option VectorId :=
  match dictionary_updates (forward_index delta) !! external_id with
  | Some id => Some id
  | None => dictionary state !! external_id
  end.

Definition view_vector_data (vector_id : VectorId) (dimensions : nat) : res DbError (option VectorDataValue) :=
  if bool_decide (vector_id ∈ vector_deletes (forward_index delta)) then Ok None
  else match vector_updates (forward_index delta) !! vector_id with
       | Some d => Ok (Some d)
       | None => get_vector_data now snapshot vector_id dimensions
       end.

Definition view_vector_index_data (vector_id : VectorId) : res DbError (option VectorIndexDataValue) :=
  if bool_decide (vector_id ∈ vector_deletes (forward_index delta)) then Ok None
  else match vector_index_updates (forward_index delta) !! vector_id with
       | Some d => Ok (Some d)
       | None => get_vector_index_data now snapshot vector_id
       end.

Definition view_centroid_counts (lvl : TreeLevel) : res DbError (gmap Z Z) :=
  let? _ := rust_assert (tl_is_inner lvl) in
  let counts := default ∅ (st_centroid_counts state !! tl_level lvl) in
  let level_delta := default ∅ (centroid_count_deltas (search_index delta) !! tl_level lvl) in
  let counts := apply_count_deltas counts (hash_iter level_delta) in
  Ok (foldl (λ m c, delete c m) counts (hash_elements (deleted_centroids (search_index delta)))).

Definition view_root_count : Z := root_centroid_count (search_index delta).

Definition view_centroid_reader (dimensions : nat) : CentroidReader :=
  dirty_reader (search_index delta)
    (cached_reader (centroid_cache state) snapshot_epoch (stored_reader now snapshot dimensions)).

Definition view_root_posting_list (dimensions : nat) : MaybeCached PostingList :=
  let check p := let? _ := rust_assert (negb (bool_decide (p = []))) in Ok p in
  match read_root (view_centroid_reader dimensions) with
  | MValue p => maybe_of (check p)
  | MFuture f => MFuture (let? p := f in check p)
  end.

Definition view_posting_list (c : VectorId) (dimensions : nat) : MaybeCached PostingList :=
  read_postings (view_centroid_reader dimensions) c.

Definition view_last_written_posting (vector_id : VectorId) : option VectorId :=
  current_posting (search_index delta) !! vector_id.

Definition view_centroid (c : VectorId) : option CentroidInfoValue :=
  match upserted_centroids (search_index delta) !! c with
  | Some ci => Some ci
  | None => if bool_decide (c ∈ deleted_centroids (search_index delta)) then None else centroids state !! c
  end.

Definition view_centroid_index (dimensions : nat) (m : DistanceMetric) : res DbError LeveledCentroidIndex :=
  let? depth := depth_of view_centroids_meta in
  Ok (leveled_new depth m (view_centroid_reader dimensions)).
End view.
End state.
End VecState.
