(* ===== verification/VecStateSpec.v ===== *)
(** * vector: what a round writes is what it read

    The indexer reads the index through a view that lays the delta of the round over the
    state and the last snapshot; freezing the delta changes the state, the cache and the
    store.  [Coherent] relates the state kept in memory to the store; [delta_step] is one
    operation of a round on its delta, with what the callers guarantee.  However a round is
    made of such steps, the commit leaves memory and store coherent and every read of the
    new index answers as the view of the unfinished round did ([commit_is_view]), while
    the readers of the older snapshot go on seeing the older lists ([old_snapshot_reads]). *)
From stdpp Require Import gmap.
From S2P Require Import Prelude HashMap Codec ByteRange Serde Encoding Storage KvStore Sequence VecSerde VecPosting VecMerge VecList VecSearch VecStore VecState.
#[local] Open Scope Z_scope.

Module VecStateSpec.
Import Vec VecPosting VecMerge VecList VecSearch VecStore VecState.

(** ** A batch, key by key *)
Section batches.
Context (f : MergeOperator).

(** what a batch does to the record of one key *)
Definition effect (k : bytes) (ops : list RecordOp) (v : option bytes) : option bytes :=
  foldl (λ v op, op_value f op v) v (filter (λ op, op_key op = k) ops).

Lemma map_ops_effect m ops k : foldl (map_op f) m ops k = effect k ops (m k).
Proof.
  unfold effect. revert m. induction ops as [|op ops IH]; intros m; [done|]. cbn [foldl]. rewrite IH.
  unfold map_op. destruct (decide (op_key op = k)) as [Hk|Hk].
  - rewrite filter_cons_True by done. cbn [foldl]. by rewrite bool_decide_eq_true_2.
  - rewrite filter_cons_False by done. by rewrite bool_decide_eq_false_2.
Qed.

Lemma effect_app k ops ops' v : effect k (ops ++ ops') v = effect k ops' (effect k ops v).
Proof. unfold effect. by rewrite filter_app, foldl_app. Qed.

Lemma effect_none k ops v : Forall (λ op, op_key op ≠ k) ops → effect k ops v = v.
Proof. intros H. unfold effect. by rewrite filter_none. Qed.

Lemma effect_one k op v : effect k [op] v = if bool_decide (op_key op = k) then op_value f op v else v.
Proof.
  unfold effect. case_bool_decide; [by rewrite filter_cons_True|by rewrite filter_cons_False].
Qed.

(** operations on the key that all say the same, whatever the record was *)
Lemma effect_same k ops x v :
  (∀ op, op ∈ ops → op_key op = k → ∀ w, op_value f op w = x) → (∃ op, op ∈ ops ∧ op_key op = k) → effect k ops v = x.
Proof.
  intros Hall (op & Hin & Hk). unfold effect.
  assert (Hf : Forall (λ op, ∀ w, op_value f op w = x) (filter (λ op, op_key op = k) ops)).
  { apply Forall_forall. intros o [Ho1 Ho2]%list_elem_of_filter. by apply Hall. }
  assert (Hne : filter (λ op, op_key op = k) ops ≠ []).
  { intros He. apply (not_elem_of_nil op). rewrite <-He. by apply list_elem_of_filter. }
  destruct (filter _ _) as [|o os] using rev_ind; [done|]. rewrite foldl_app. cbn. apply Forall_app in Hf as [_ Hf].
  rewrite Forall_singleton in Hf. apply Hf.
Qed.

(** one operation for each element of a list *)
Lemma effect_fmap {A} (F : A → RecordOp) (l : list A) (a : A) v :
  NoDup (op_key ∘ F <$> l) → a ∈ l → effect (op_key (F a)) (F <$> l) v = op_value f (F a) v.
Proof.
  intros Hnd (l1 & l2 & ->)%list_elem_of_split. rewrite fmap_app, fmap_cons. rewrite fmap_app, fmap_cons in Hnd.
  apply NoDup_app in Hnd as (_ & H1 & [H2 _]%NoDup_cons).
  change (F a :: (F <$> l2)) with ([F a] ++ (F <$> l2)). rewrite !effect_app, effect_one, bool_decide_eq_true_2 by done.
  rewrite (effect_none _ (F <$> l1)), effect_none; [done|..]; apply Forall_fmap, Forall_forall; intros b Hb He; cbn in He.
  - apply H2. apply list_elem_of_fmap. by exists b.
  - apply (H1 (op_key (F b))); [apply list_elem_of_fmap; by exists b|]. rewrite He. left.
Qed.
End batches.

(** ** Keys *)
Definition of_type (t : RecordType) (op : RecordOp) : Prop := ∃ s, op_key op = type_bytes t ++ s.

Lemma of_type_other t k op : of_type t op → key_type k ≠ t → op_key op ≠ key_bytes k.
Proof. intros [s Hs] Hk He. rewrite He in Hs. unfold key_bytes in Hs. by apply type_bytes_inj in Hs as [? _]. Qed.

Lemma effect_other f t k ops v : Forall (of_type t) ops → key_type k ≠ t → effect f (key_bytes k) ops v = v.
Proof. intros H Hk. apply effect_none. eapply Forall_impl; [exact H|]. intros op Hop. by eapply of_type_other. Qed.

Lemma vec_key_bytes_inj k k' : wf_key k → wf_key k' → key_bytes k = key_bytes k' → k = k'.
Proof.
  intros Hk Hk' He. pose proof (vec_key_decode_spec k Hk) as H. pose proof (vec_key_decode_spec k' Hk') as H'.
  assert (Ht : key_type k = key_type k') by (unfold key_bytes in He; by apply type_bytes_inj in He as [? _]).
  rewrite He, Ht in H. congruence.
Qed.

Lemma of_type_key k op : op_key op = key_bytes k → of_type (key_type k) op.
Proof. intros H. exists (key_tail k). exact H. Qed.

(** ** Memory and store *)
Definition centroid_ok (c : VectorId) : Prop := in_u 64 c ∧ is_centroid c = true.
Definition data_ok (v : VectorId) : Prop := in_u 64 v ∧ is_data_vector v = true.
Definition node_ok (c : VectorId) : Prop := centroid_ok c ∨ c = ROOT_VECTOR_ID.

Abbreviation posting_key c := (key_bytes (KId Vec.PostingList c)).
Abbreviation info_key c := (key_bytes (KId CentroidInfo c)).
Abbreviation stats_key c := (key_bytes (KId CentroidStats c)).
Abbreviation data_key v := (key_bytes (KId VectorData v)).
Abbreviation index_key v := (key_bytes (KId VectorIndexData v)).

(** the bytes of an encoding that does not fail *)
Definition encoded (r : res Error bytes) : bytes := match r with Ok b => b | _ => [] end.

(** [VectorDbMergeOperator] as the merge operator of the store *)
Definition operator {RT : RoaringTreemap} (dims : nat) : MergeOperator := λ k old operands, encoded (merge_batch dims k old operands).

(** the stored updates of a node *)
Definition PostingAt (dims : nat) (m : bytes → option bytes) (c : VectorId) (us : list PostingUpdate) : Prop :=
  match m (posting_key c) with Some v => Stored dims v us | None => us = [] end.

(** a list in the cache and the stored one hold the same vectors *)
Definition CachedAt (w : WrittenPostingList) (e : Z) (us : list PostingUpdate) : Prop :=
  written_epoch w ≤ e ∧ wf_list (wr_posting_list w) ∧ content (wr_posting_list w) = apply_updates ∅ us.

Definition count_of (counts : gmap Z (gmap Z Z)) (c : VectorId) : option Z := counts !! level c ≫= lookup c.

(** The store [m] holds what the state [st] of the indexer has in memory as of epoch [e]. *)
Record Coherent (dims : nat) (m : bytes → option bytes) (st : VectorIndexState) (e : Z) : Prop := mkCoherent {
  co_meta : in_u 8 (st_centroids_meta st) ∧
    m (key_bytes (KSingleton Centroids)) = Some (centroids_encode (st_centroids_meta st));
  co_dict x : utf8_valid x = true →
    m (key_bytes (KDict x)) = id_dictionary_value_encode <$> dictionary st !! x;
  co_info c : centroid_ok c → m (info_key c) = (λ ci, encoded (centroid_info_encode ci)) <$> centroids st !! c;
  co_stats c : centroid_ok c → m (stats_key c) = centroid_stats_encode <$> count_of (st_centroid_counts st) c;
  co_centroid c ci : centroids st !! c = Some ci → centroid_ok c ∧ wf_val dims (VInfo ci) ∧ ci_level ci = level c ∧
    number c < next_sequence (centroid_sequence_block st);
  co_counts lv counts c n : st_centroid_counts st !! lv = Some counts → counts !! c = Some n →
    lv = level c ∧ is_Some (centroids st !! c);
  co_postings c : node_ok c → ∃ us, PostingAt dims m c us ∧ ∀ w, centroid_cache st !! c = Some w → CachedAt w e us;
  co_cached c : c = ROOT_VECTOR_ID ∨ (is_Some (centroids st !! c) ∧ level c ≠ LEAF_LEVEL) → is_Some (centroid_cache st !! c);
  co_cache_dom c : is_Some (centroid_cache st !! c) →
    c = ROOT_VECTOR_ID ∨ (is_Some (centroids st !! c) ∧ level c ≠ LEAF_LEVEL);
  co_absent c : centroid_ok c → centroids st !! c = None → m (posting_key c) = None;
  co_seq : sequence_block_key st = key_bytes (KSingleton SeqBlock) ∧ block_ok (sequence_block st) ∧
    m (sequence_block_key st) = SeqBlock.serialize <$> current_block (sequence_block st);
  co_centroid_seq : centroid_sequence_block_key st = key_bytes (KSingleton CentroidSeqBlock) ∧
    block_ok (centroid_sequence_block st) ∧
    m (centroid_sequence_block_key st) = SeqBlock.serialize <$> current_block (centroid_sequence_block st);
}.

(** ** What holds of a delta on the way *)
(** the allocator of a round: its operations leave the stored block behind it *)
Record AllocOk (k : bytes) (b : AllocatedSeqBlock) (a : SequenceAllocator) (ops : list RecordOp) : Prop := mkAllocOk {
  al_key : seq_key a = k;
  al_block : block_ok (block a);
  al_next : next_sequence b ≤ next_sequence (block a);
  al_ops : Forall (λ op, ∃ v, op = Put (mkRecord k v) TtlDefault) ops;
  al_effect f : foldl (λ v op, op_value f op v) (SeqBlock.serialize <$> current_block b) ops =
    SeqBlock.serialize <$> current_block (block a);
}.

Record ForwardOk (dims : nat) (st : VectorIndexState) (d : ForwardIndexDelta) : Prop := mkForwardOk {
  fw_dict x v : dictionary_updates d !! x = Some v → utf8_valid x = true ∧ data_ok v;
  fw_data v x : vector_updates d !! v = Some x → data_ok v ∧ wf_val dims (VData x);
  fw_index v x : vector_index_updates d !! v = Some x → data_ok v ∧ wf_val dims (VIndex x);
  fw_deletes v : v ∈ vector_deletes d → data_ok v;
  fw_alloc : AllocOk (sequence_block_key st) (sequence_block st) (fi_allocator d) (fi_ops d);
}.

(** the centroid of the view *)
Definition dirty_centroid (st : VectorIndexState) (d : SearchIndexDelta) (c : VectorId) : option CentroidInfoValue :=
  match upserted_centroids d !! c with
  | Some ci => Some ci
  | None => if bool_decide (c ∈ deleted_centroids d) then None else centroids st !! c
  end.

Definition next_id (d : SearchIndexDelta) : Z := next_sequence (block (si_allocator d)).

Record SearchOk (dims : nat) (st : VectorIndexState) (d : SearchIndexDelta) : Prop := mkSearchOk {
  se_meta : in_u 8 (centroids_meta d);
  se_upserted c ci : upserted_centroids d !! c = Some ci → centroid_ok c ∧ wf_val dims (VInfo ci) ∧ ci_level ci = level c ∧
    number c < next_id d ∧ c ∉ deleted_centroids d ∧ (c ∈ new_centroids d ∨ is_Some (centroids st !! c));
  se_new c : c ∈ new_centroids d → is_Some (upserted_centroids d !! c) ∧ centroids st !! c = None;
  se_deleted c : c ∈ deleted_centroids d → centroid_ok c ∧ number c < next_id d;
  se_postings c us : posting_updates d !! c = Some us → centroid_ok c ∧ Forall (wf_update dims) us ∧
    (is_Some (dirty_centroid st d c) ∨ c ∈ deleted_centroids d);
  se_counts lv deltas c n : centroid_count_deltas d !! lv = Some deltas → deltas !! c = Some n →
    lv = level c ∧ centroid_ok c ∧ (is_Some (dirty_centroid st d c) ∨ c ∈ deleted_centroids d);
  se_root rt : root d = Some rt → Forall (wf_update dims) rt;
  se_root_updates : Forall (wf_update dims) (root_updates d);
  se_inverted k v : inverted_index_updates d !! k = Some v → ∃ s, k = type_bytes MetadataIndex ++ s;
  se_alloc : AllocOk (centroid_sequence_block_key st) (centroid_sequence_block st) (si_allocator d) (si_ops d);
}.

(** ** Operations of a round *)
Definition vector_ok (dims : nat) (v : list Z) : Prop := length v = dims ∧ Forall (in_u 32) v.

(** [n] more ids can be drawn *)
Definition room (n : Z) (a : SequenceAllocator) : Prop := block_end (block a) + n * (1 + DEFAULT_BLOCK_SIZE) < 2 ^ 64.

Section steps.
Context {RT : RoaringTreemap} (dims : nat) (st : VectorIndexState).

Inductive forward_step : ForwardIndexDelta → ForwardIndexDelta → Prop :=
| step_add_vector x attributes v d d' :
    utf8_valid x = true → wf_val dims (VData (vector_data_new x (fields_of attributes))) → room 1 (fi_allocator d) →
    add_vector x attributes d = Ok (v, d') → forward_step d d'
| step_index_data v postings fields d d' :
    in_u 64 v → (∀ x, index_data_new postings fields = Ok x → wf_val dims (VIndex x)) →
    update_vector_index_data v postings fields d = Ok d' → forward_step d d'
| step_delete_vector v d : data_ok v → forward_step d (delete_vector v d).

Inductive search_step : SearchIndexDelta → SearchIndexDelta → Prop :=
| step_add_centroid lvl v parent id ci d d' :
    vector_ok dims v → node_ok parent → room 1 (si_allocator d) →
    add_centroid lvl v parent d = Ok (id, ci, d') → search_step d d'
| step_update_centroid c ci d d' :
    is_Some (dirty_centroid st d c) → wf_val dims (VInfo ci) → update_centroid c ci d = Ok d' → search_step d d'
| step_delete_centroids cs d :
    Forall (λ c, is_Some (dirty_centroid st d c)) cs → search_step d (delete_centroids cs d)
| step_add_to_posting c v vector d d' :
    is_Some (dirty_centroid st d c) → in_u 64 v → vector_ok dims vector →
    add_to_posting c v vector d = Ok d' → search_step d d'
| step_remove_from_posting c v d d' :
    is_Some (dirty_centroid st d c) ∨ c ∈ deleted_centroids d → in_u 64 v →
    remove_from_posting c v d = Ok d' → search_step d d'
| step_promote_root vectors lvl d d' :
    Forall (vector_ok dims) vectors → room (blen vectors) (si_allocator d) →
    promote_root vectors d = Ok (lvl, d') → search_step d d'
| step_add_to_root c vector d d' :
    in_u 64 c → vector_ok dims vector → add_to_root c vector d = Ok d' → search_step d d'
| step_remove_from_root c d d' : in_u 64 c → remove_from_root c d = Ok d' → search_step d d'
| step_include field value v d d' : add_to_inverted_index field value v d = Ok d' → search_step d d'
| step_exclude field value v d d' : remove_from_inverted_index field value v d = Ok d' → search_step d d'.

Inductive delta_step : VectorIndexDelta → VectorIndexDelta → Prop :=
| step_forward fw fw' se : forward_step fw fw' → delta_step (mkDelta fw se) (mkDelta fw' se)
| step_search fw se se' : search_step se se' → delta_step (mkDelta fw se) (mkDelta fw se').

Definition DeltaOk (d : VectorIndexDelta) : Prop := ForwardOk dims st (forward_index d) ∧ SearchOk dims st (search_index d).
End steps.

(** ** Allocators *)
Lemma alloc_ok_step k b a ops n r a' :
  AllocOk k b a ops → room 1 a → allocate_one a = (n, r, a') →
  AllocOk k b a' (ops ++ alloc_op r) ∧ n = next_sequence (block a) ∧ next_sequence (block a') = n + 1 ∧ in_u 64 n ∧
  block_end (block a') ≤ block_end (block a) + (1 + DEFAULT_BLOCK_SIZE).
Proof.
  intros [Hk Hb Hn Ho He] Hr Ha. unfold room in Hr.
  destruct (allocate_spec a 1 n r a' Hb ltac:(lia) ltac:(lia) Ha) as (Hk' & Hb' & -> & Hn' & He' & Hrec).
  destruct Hb as (Hwf & Hnb & Hbe). split_and!; [|done|done|unfold in_u; lia|lia]. split; [congruence|done|lia|..].
  - apply Forall_app. split; [done|]. destruct r as [[rk rv]|]; [|by constructor]. apply Forall_singleton. exists rv.
    destruct Hrec as [Hrk _]. cbn in Hrk. congruence.
  - intros f. rewrite foldl_app, He. destruct r as [[rk rv]|]; cbn [alloc_op foldl op_value].
    + destruct Hrec as (_ & Hrv & _). exact Hrv.
    + by rewrite Hrec.
Qed.

Lemma alloc_ok_start k b : block_ok b → AllocOk k b (mkAllocator k b) [].
Proof. intros Hb. split; [done|done|done|by constructor|done]. Qed.

(** ** Inverting operations that returned *)
Lemma of_encoding_ok {A} (r : res Error A) a : of_encoding r = Ok a → r = Ok a.
Proof. destruct r; by intros [=->]. Qed.

Lemma rust_assert_ok {E} b u : rust_assert (E:=E) b = Ok u → b = true.
Proof. by destruct b. Qed.

Ltac inv_db :=
  repeat (progress (inv_ok; repeat match goal with
    | H : of_encoding _ = Ok _ |- _ => apply of_encoding_ok in H
    | H : rust_assert _ = Ok _ |- _ => apply rust_assert_ok in H
    | p : (_ * _)%type |- _ => destruct p
    | H : let '(_, _) := ?x in _ = Ok _ |- _ => destruct x eqn:?
    end; reflect; simplify_eq)).

(** ** Every step keeps the delta well formed *)
Section steps_ok.
Context {RT : RoaringTreemap} (dims : nat) (Hdims : Z.of_nat dims ≤ u_max 16) (st : VectorIndexState).

Lemma data_vector_id_ok n v : in_u 64 n → data_vector_id n = Ok v → data_ok v.
Proof. intros Hn H. unfold data_vector_id in H. inv_db. split; [done|]. unfold is_data_vector. by apply Z.eqb_eq. Qed.

Lemma forward_step_ok d d' : ForwardOk dims st d → forward_step dims d d' → ForwardOk dims st d'.
Proof.
  intros [H1 H2 H3 H4 H5]. destruct 1 as [x attributes v d d' Hx Hw Hr Ha|v postings fields d d' Hv Hw Hu|v d Hv].
  - unfold add_vector in Ha. destruct (allocate_one _) as [[n r] a'] eqn:E.
    destruct (alloc_ok_step _ _ _ _ _ _ _ H5 Hr E) as (H5' & -> & _ & Hn & _). inv_db.
    match goal with H : data_vector_id _ = _ |- _ => apply data_vector_id_ok in H; [|done] end.
    split; cbn; try done.
    + intros y w [[<- <-]|[_ Hw']]%lookup_insert_Some; [done|by apply H1].
    + intros w y [[<- <-]|[_ Hw']]%lookup_insert_Some; [done|by apply H2].
  - unfold update_vector_index_data in Hu. inv_db. split; cbn; try done.
    intros w y [[<- <-]|[_ Hw']]%lookup_insert_Some; [|by apply H3]. split; [|by apply Hw]. done.
  - split; cbn; try done.
    + intros w y [_ Hw]%lookup_delete_Some. by apply H3.
    + intros w [->%elem_of_singleton|Hw]%elem_of_union; [done|by apply H4].
Qed.
End steps_ok.

(** ** Steps on the search index *)
Section search_ok.
Context {RT : RoaringTreemap} (dims : nat) (Hdims : Z.of_nat dims ≤ u_max 16) (st : VectorIndexState).
Context (Hst : ∀ c ci, centroids st !! c = Some ci → centroid_ok c ∧ number c < next_sequence (centroid_sequence_block st)).

Lemma dirty_known d c : SearchOk dims st d → is_Some (dirty_centroid st d c) → centroid_ok c ∧ number c < next_id d.
Proof.
  intros Hd [ci Hc]. unfold dirty_centroid in Hc. destruct (upserted_centroids d !! c) as [x|] eqn:E.
  - apply (se_upserted _ _ _ Hd) in E. naive_solver.
  - case_bool_decide; [done|]. destruct (Hst _ _ Hc) as [H1 H2]. split; [done|].
    pose proof (al_next _ _ _ _ (se_alloc _ _ _ Hd)). unfold next_id. lia.
Qed.

Lemma vector_info_ok lv v parent : vector_ok dims v → in_u 8 lv → node_ok parent → wf_val dims (VInfo (mkInfo lv v parent)).
Proof.
  intros [Hl Hv] Hlv Hp. cbn. unfold blen. rewrite Hl. split_and!; try done. destruct Hp as [[Hp _]| ->]; [done|]. apply root_in.
Qed.

(** an id drawn now is new *)
Lemma id_is_new d c : SearchOk dims st d → number c = next_id d →
  upserted_centroids d !! c = None ∧ c ∉ deleted_centroids d ∧ centroids st !! c = None.
Proof.
  intros Hd Hc. split_and!.
  - apply eq_None_not_Some. intros [x Hx]. apply (se_upserted _ _ _ Hd) in Hx as (_ & _ & _ & Hx & _). lia.
  - intros Hin. apply (se_deleted _ _ _ Hd) in Hin as [_ Hin]. lia.
  - apply eq_None_not_Some. intros [x Hx]. apply Hst in Hx as [_ Hx].
    pose proof (al_next _ _ _ _ (se_alloc _ _ _ Hd)). unfold next_id in *. lia.
Qed.

Lemma level_range v : 0 ≤ level v < 256.
Proof. pose proof (wrap_range 8 (Z.shiftr v 56)). unfold level, in_u in *. lia. Qed.

Lemma add_centroid_level lvl v parent id ci d d' :
  in_u 8 (centroids_meta d) → add_centroid lvl v parent d = Ok (id, ci, d') → in_u 8 (tl_level lvl).
Proof.
  intros Hm H. unfold add_centroid in H. inv_db.
  match goal with H : tree_level _ _ = Ok _ |- _ => unfold tree_level, depth_of, tl_of, tl_inner, tl_root in H end.
  match goal with H : next_level_up _ = Ok _ |- _ => unfold next_level_up, tl_inner, tl_root in H end.
  unfold in_u, max_inner_level, ROOT_LEVEL, LEAF_LEVEL in *. inv_db; cbn; lia.
Qed.

(** adding a count for a known centroid *)
Lemma set_count_lookup lv id n counts lv' deltas c x :
  set_count lv id n counts !! lv' = Some deltas → deltas !! c = Some x →
  (lv' = lv ∧ c = id) ∨ ∃ old, counts !! lv' = Some old ∧ old !! c = Some x.
Proof.
  unfold set_count. intros [[<- <-]|[_ H]]%lookup_insert_Some Hc; [|right; eauto].
  apply lookup_insert_Some in Hc as [[<- _]|[_ Hc]]; [by left|]. right. destruct (counts !! lv) as [old|]; [by exists old|done].
Qed.

Lemma add_centroid_ok lvl v parent id ci d d' :
  SearchOk dims st d → vector_ok dims v → node_ok parent → room 1 (si_allocator d) →
  add_centroid lvl v parent d = Ok (id, ci, d') →
  SearchOk dims st d' ∧ ci = mkInfo (level id) v parent ∧ centroid_ok id ∧ dirty_centroid st d' id = Some ci ∧
  centroids_meta d' = centroids_meta d ∧
  block_end (block (si_allocator d')) ≤ block_end (block (si_allocator d)) + (1 + DEFAULT_BLOCK_SIZE).
Proof.
  intros Hd Hv Hp Hr Ha. pose proof (add_centroid_level _ _ _ _ _ _ _ (se_meta _ _ _ Hd) Ha) as Hlv.
  unfold add_centroid in Ha. destruct (allocate_one (si_allocator d)) as [[n r] al] eqn:E.
  destruct (alloc_ok_step _ _ _ _ _ _ _ (se_alloc _ _ _ Hd) Hr E) as (Hal & Hn & Hn' & Hin & Hbe).
  inv_db. match goal with H : centroid_id _ _ = Ok _ |- _ => destruct (centroid_id_spec _ _ _ Hlv Hin H) as (Hl & Hnum & Hc & Hu) end.
  match goal with H : centroid_info_new _ _ _ = Ok _ |- _ => unfold centroid_info_new in H; inv_db end.
  destruct (id_is_new d id Hd Hnum) as (Hf1 & Hf2 & Hf3). rewrite Hl.
  assert (Hdirty : ∀ c, is_Some (dirty_centroid st d c) ∨ c ∈ deleted_centroids d →
    is_Some (match <[id := mkInfo (tl_level lvl) v parent]> (upserted_centroids d) !! c with
             | Some ci => Some ci | None => if bool_decide (c ∈ deleted_centroids d) then None else centroids st !! c end) ∨
    c ∈ deleted_centroids d).
  { intros c [Hc'|Hc']; [|by right]. left. destruct (decide (id = c)) as [<-|].
    - by rewrite lookup_insert_eq.
    - by rewrite lookup_insert_ne. }
  split; [|split; [done|split; [by split|split; [by unfold dirty_centroid; cbn; rewrite lookup_insert_eq|by split]]]].
  destruct Hd as [Hm Hup Hnew Hdel Hpost Hcnt Hrt Hru Hinv _]. unfold next_id in *. cbn in *. rewrite <-Hl in *.
  split; unfold next_id; cbn; try done.
  - intros c ci [[<- <-]|[Hne Hc']]%lookup_insert_Some.
    + split; [by split|]. split; [by apply vector_info_ok|]. split; [done|]. split; [lia|]. split; [done|]. left. apply elem_of_union_l. by apply elem_of_singleton.
    + destruct (Hup _ _ Hc') as (? & ? & ? & ? & ? & Hor). do 3 (split; [done|]). split; [lia|]. split; [done|].
      destruct Hor; [left; by apply elem_of_union_r|by right].
  - intros c [->%elem_of_singleton|Hc']%elem_of_union; [by rewrite lookup_insert_eq; eauto|].
    destruct (Hnew _ Hc') as [? ?]. split; [|done]. rewrite lookup_insert. by case_decide.
  - intros c Hc'. destruct (Hdel _ Hc') as [? ?]. split; [done|lia].
  - intros c us Hus. destruct (Hpost _ _ Hus) as (? & ? & ?). do 2 (split; [done|]). by apply Hdirty.
  - intros lv deltas c x H1 H2. destruct (set_count_lookup _ _ _ _ _ _ _ _ H1 H2) as [[-> ->]|(old & Ho & Hx)].
    + split; [done|]. split; [by split|]. left. unfold dirty_centroid; cbn. by rewrite lookup_insert_eq.
    + destruct (Hcnt _ _ _ _ Ho Hx) as (? & ? & ?). do 2 (split; [done|]). by apply Hdirty.
Qed.

(** changes of the root only *)
Lemma set_root_ok meta n rt us d :
  SearchOk dims st d → in_u 8 meta → (∀ r, rt = Some r → Forall (wf_update dims) r) → Forall (wf_update dims) us →
  SearchOk dims st (set_root meta n rt us d).
Proof. intros [Hm Hup Hnew Hdel Hpost Hcnt Hrt Hru Hinv Hal] Hmeta Hr Hu. by split. Qed.

Lemma add_root_centroids_ok lvl vs ps d d' :
  SearchOk dims st d → Forall (vector_ok dims) vs → room (blen vs) (si_allocator d) →
  add_root_centroids lvl vs d = Ok (ps, d') →
  SearchOk dims st d' ∧ centroids_meta d' = centroids_meta d ∧
  Forall2 (λ p v, centroid_ok (p_id p) ∧ p = posting_new (p_id p) v) ps vs.
Proof.
  intros Hd Hvs. revert d ps Hd. induction Hvs as [|v vs Hv Hvs IH]; intros d ps Hd Hr H; cbn [add_root_centroids] in H.
  - inv_db. by split.
  - unfold room, blen in Hr. cbn [length] in Hr. unfold DEFAULT_BLOCK_SIZE in Hr.
    apply res_bind_ok in H as ([[id ci] d1] & H1 & H). apply res_bind_ok in H as ([ps' d2] & H2 & H). injection H as <- <-.
    destruct (add_centroid_ok _ _ _ _ _ _ _ Hd Hv (or_intror eq_refl)
      ltac:(unfold room, DEFAULT_BLOCK_SIZE; lia) H1) as (Hd1 & -> & Hid & _ & Hm & Hb).
    destruct (IH d1 ps' Hd1 ltac:(unfold room, blen, DEFAULT_BLOCK_SIZE in *; lia) H2) as (Hd2 & Hm2 & Hf).
    split; [done|]. split; [congruence|]. constructor; [|done]. by split.
Qed.

Lemma posting_update_ok ps vs us :
  Forall2 (λ p v, centroid_ok (p_id p) ∧ p = posting_new (p_id p) v) ps vs → Forall (vector_ok dims) vs →
  try_map posting_update ps = Ok us → Forall (wf_update dims) us.
Proof.
  intros Hf. revert us. induction Hf as [|p v ps vs [Hp Hpv] Hf IH]; intros us Hvs H; cbn [try_map] in H.
  - inv_db. constructor.
  - apply Forall_cons in Hvs as [[Hl Hv] Hvs]. apply res_bind_ok in H as (u & Hu & H). apply res_bind_ok in H as (us' & Hus & H).
    injection H as <-. constructor; [|by apply IH]. unfold posting_update, posting_vector in Hu. rewrite Hpv in Hu. cbn in Hu.
    rewrite bool_decide_eq_true_2 in Hu by done. cbn in Hu. injection Hu as <-. rewrite firstn_all.
    split; [apply Hp|done].
Qed.

Lemma promote_root_ok vs lvl d d' :
  SearchOk dims st d → Forall (vector_ok dims) vs → room (blen vs) (si_allocator d) →
  promote_root vs d = Ok (lvl, d') → SearchOk dims st d'.
Proof.
  intros Hd Hvs Hr H. unfold promote_root in H. set (meta := wrap 8 (centroids_meta d + 1)) in *. cbv zeta in H.
  apply res_bind_ok in H as (depth & _ & H). apply res_bind_ok in H as (nl & _ & H).
  apply res_bind_ok in H as ([ps d1] & Ha & H). apply res_bind_ok in H as (? & _ & H).
  apply res_bind_ok in H as (rt & Hrt%of_encoding_ok & H). injection H as <- <-.
  assert (Hmeta : in_u 8 meta) by (apply wrap_range; lia).
  destruct (add_root_centroids_ok _ _ _ _ _ (set_root_ok meta _ _ _ _ Hd Hmeta (se_root _ _ _ Hd) (se_root_updates _ _ _ Hd))
    Hvs Hr Ha) as (Hd1 & _ & Hf).
  apply set_root_ok; [done..| |constructor]. intros r [= <-]. by eapply posting_update_ok.
Qed.

(** an update of a posting list and the count *)
Lemma push_update_ok c u n current d :
  SearchOk dims st d → centroid_ok c → (is_Some (dirty_centroid st d c) ∨ c ∈ deleted_centroids d) → wf_update dims u →
  SearchOk dims st (push_update c u n current d).
Proof.
  intros [Hm Hup Hnew Hdel Hpost Hcnt Hrt Hru Hinv Hal] Hc Hor Hu. split; try done; cbn.
  - intros c' us [[<- <-]|[_ H]]%lookup_insert_Some; [|by apply Hpost]. split; [done|]. split; [|done].
    apply Forall_app. split; [|by apply Forall_singleton]. destruct (posting_updates d !! c) as [us|] eqn:E; [|constructor].
    by apply Hpost in E as (_ & ? & _).
  - intros lv deltas c' x H1 H2. unfold add_count in H1. destruct (set_count_lookup _ _ _ _ _ _ _ _ H1 H2) as [[-> ->]|(old & Ho & Hx)].
    + done.
    + by apply (Hcnt _ _ _ _ Ho Hx).
Qed.

Lemma inverted_key_type field value key : metadata_index_key_encode (mkIndexKey field value) = Ok key →
  ∃ s, key = type_bytes MetadataIndex ++ s.
Proof.
  unfold metadata_index_key_encode. cbn [mk_field mk_value]. rewrite terminated_append, start_key_bytes.
  destruct value; cbn [encode_sortable]; intros; inv_db; rewrite ?terminated_append, <-?app_assoc; by eexists.
Qed.

Lemma update_inverted_ok key f d : SearchOk dims st d → (∃ s, key = type_bytes MetadataIndex ++ s) →
  SearchOk dims st (update_inverted key f d).
Proof.
  intros [Hm Hup Hnew Hdel Hpost Hcnt Hrt Hru Hinv Hal] Hk. split; try done; cbn.
  intros k v [[<- _]|[_ H]]%lookup_insert_Some; [done|]. by eapply Hinv.
Qed.

Lemma update_centroid_ok c ci d d' :
  SearchOk dims st d → is_Some (dirty_centroid st d c) → wf_val dims (VInfo ci) → update_centroid c ci d = Ok d' →
  SearchOk dims st d'.
Proof.
  intros Hd Hc Hw H. destruct (dirty_known d c Hd Hc) as [Hok Hn]. unfold update_centroid in H.
  apply res_bind_ok in H as (? & Hl%rust_assert_ok & H). reflect.
  do 4 apply res_bind_ok in H as (? & _ & H). apply res_bind_ok in H as (? & _ & H). injection H as <-.
  assert (Hnd : c ∉ deleted_centroids d ∧ (c ∈ new_centroids d ∨ is_Some (centroids st !! c))).
  { unfold dirty_centroid in Hc. destruct (upserted_centroids d !! c) as [y|] eqn:E.
    - apply (se_upserted _ _ _ Hd) in E. naive_solver.
    - case_bool_decide; [by destruct Hc|]. split; [done|by right]. }
  destruct Hd as [Hm Hup Hnew Hdel Hpost Hcnt Hrt Hru Hinv Hal].
  assert (Hdirty : ∀ c', is_Some (dirty_centroid st d c') ∨ c' ∈ deleted_centroids d →
    is_Some (match <[c := ci]> (upserted_centroids d) !! c' with
             | Some ci => Some ci | None => if bool_decide (c' ∈ deleted_centroids d) then None else centroids st !! c' end) ∨
    c' ∈ deleted_centroids d).
  { intros c' [Hc'|Hc']; [|by right]. left. destruct (decide (c = c')) as [<-|].
    - by rewrite lookup_insert_eq.
    - by rewrite lookup_insert_ne. }
  split; try done; unfold dirty_centroid, next_id; cbn.
  - intros c' y [[<- <-]|[_ Hy]]%lookup_insert_Some; [|by apply Hup]. by destruct Hnd.
  - intros c' Hc'. destruct (Hnew _ Hc') as [? ?]. split; [|done]. rewrite lookup_insert. by case_decide.
  - intros c' us Hus. destruct (Hpost _ _ Hus) as (? & ? & ?). do 2 (split; [done|]). by apply Hdirty.
  - intros lv deltas c' y H1 H2. destruct (Hcnt _ _ _ _ H1 H2) as (? & ? & ?). do 2 (split; [done|]). by apply Hdirty.
Qed.

Lemma lookup_forget {A} (c0 c : Z) cs (m : gmap Z A) :
  (if bool_decide (c ∈ cs) then None else delete c0 m !! c) = (if bool_decide (c ∈ c0 :: cs) then None else m !! c).
Proof.
  rewrite lookup_delete. destruct (decide (c0 = c)) as [->|Hne].
  - rewrite (bool_decide_eq_true_2 (c ∈ c :: cs)) by left. by case_bool_decide.
  - rewrite (bool_decide_ext (c ∈ c0 :: cs) (c ∈ cs)); [done|]. rewrite elem_of_cons. naive_solver.
Qed.

Lemma elem_forget (c0 c : Z) cs (s : gset Z) : c ∈ s ∖ {[c0]} ∧ c ∉ cs ↔ c ∈ s ∧ c ∉ c0 :: cs.
Proof. rewrite elem_of_difference, elem_of_singleton, not_elem_of_cons. naive_solver. Qed.

(** forgetting centroids of this round *)
Lemma forget_fields cs d :
  let d' := foldl forget_centroid d cs in
  (∀ c, upserted_centroids d' !! c = if bool_decide (c ∈ cs) then None else upserted_centroids d !! c) ∧
  (∀ c, c ∈ new_centroids d' ↔ c ∈ new_centroids d ∧ c ∉ cs) ∧
  (∀ c, posting_updates d' !! c = if bool_decide (c ∈ cs) then None else posting_updates d !! c) ∧
  (∀ lv deltas c n, centroid_count_deltas d' !! lv = Some deltas → deltas !! c = Some n →
     ∃ old, centroid_count_deltas d !! lv = Some old ∧ old !! c = Some n) ∧
  deleted_centroids d' = deleted_centroids d ∧ centroids_meta d' = centroids_meta d ∧ root d' = root d ∧
  root_updates d' = root_updates d ∧ inverted_index_updates d' = inverted_index_updates d ∧
  si_allocator d' = si_allocator d ∧ si_ops d' = si_ops d ∧ root_centroid_count d' = root_centroid_count d.
Proof.
  revert d. induction cs as [|c0 cs IH]; intros d; cbn [foldl].
  - cbv zeta. split; [done|]. split; [intros c; split; [|by intros []]; intros; split; [done|apply not_elem_of_nil]|].
    split; [done|]. split; [by eauto|done].
  - destruct (IH (forget_centroid d c0)) as (H1 & H2 & H3 & H4 & H5). clear IH. cbv zeta. split; [|split; [|split; [|split; [|exact H5]]]].
    + intros c. rewrite H1. apply lookup_forget.
    + intros c. rewrite H2. apply elem_forget.
    + intros c. rewrite H3. apply lookup_forget.
    + intros lv deltas c n Hl Hc. destruct (H4 _ _ _ _ Hl Hc) as (old & Ho & Hn). cbn in Ho.
      rewrite lookup_alter in Ho. destruct (decide (level c0 = lv)) as [<-|Hne].
      * destruct (centroid_count_deltas d !! level c0) as [o|]; [|done]. cbn in Ho. injection Ho as <-.
        apply lookup_delete_Some in Hn as [_ Hn]. eauto.
      * eauto.
Qed.

Lemma delete_centroids_ok cs d :
  SearchOk dims st d → Forall (λ c, is_Some (dirty_centroid st d c)) cs → SearchOk dims st (delete_centroids cs d).
Proof.
  intros Hd Hcs. unfold delete_centroids.
  destruct (forget_fields cs d) as (H1 & H2 & H3 & H4 & H5 & H6 & H7 & H8 & H9 & H10 & H11 & H12).
  set (d1 := foldl forget_centroid d cs) in *.
  assert (Hin : ∀ c, c ∈ deleted_centroids d1 ∪ list_to_set cs ↔ c ∈ deleted_centroids d ∨ c ∈ cs).
  { intros c. by rewrite elem_of_union, elem_of_list_to_set, H5. }
  assert (Hdirty : ∀ c, is_Some (dirty_centroid st d c) ∨ c ∈ deleted_centroids d →
    is_Some (match upserted_centroids d1 !! c with
             | Some ci => Some ci
             | None => if bool_decide (c ∈ deleted_centroids d1 ∪ list_to_set cs) then None else centroids st !! c end) ∨
    c ∈ deleted_centroids d1 ∪ list_to_set cs).
  { intros c [Hc|Hc]; [|right; apply Hin; by left]. rewrite H1. destruct (decide (c ∈ cs)) as [Hc'|Hc']; [right; apply Hin; by right|].
    rewrite (bool_decide_eq_false_2 (c ∈ cs)) by done. unfold dirty_centroid in Hc.
    destruct (upserted_centroids d !! c); [left; by eexists|].
    destruct (decide (c ∈ deleted_centroids d)) as [Hb|Hb]; [right; apply Hin; by left|]. rewrite bool_decide_eq_false_2 in Hc by done. left. rewrite bool_decide_eq_false_2; [done|]. rewrite Hin. by intros []. }
  pose proof Hd as [Hm Hup Hnew Hdel Hpost Hcnt Hrt Hru Hinv Hal].
  split; unfold dirty_centroid, next_id; cbn; rewrite ?H6, ?H7, ?H8, ?H9, ?H10, ?H11; try done.
  - intros c ci. rewrite H1. case_bool_decide as Hc; [done|]. intros Hci. destruct (Hup _ _ Hci) as (? & ? & ? & ? & ? & Hor).
    do 4 (split; [done|]). rewrite Hin, H2. split; [by intros []|]. destruct Hor; [by left|by right].
  - intros c [Hc Hc']%H2. rewrite H1, bool_decide_eq_false_2 by done. by apply Hnew.
  - intros c [Hc|Hc]%Hin; [by apply Hdel|]. rewrite Forall_forall in Hcs. by apply dirty_known, Hcs.
  - intros c us. rewrite H3. case_bool_decide as Hc; [done|]. intros Hus. destruct (Hpost _ _ Hus) as (? & ? & ?).
    do 2 (split; [done|]). by apply Hdirty.
  - intros lv deltas c n Hl Hc. destruct (H4 _ _ _ _ Hl Hc) as (old & Ho & Hn). destruct (Hcnt _ _ _ _ Ho Hn) as (? & ? & ?).
    do 2 (split; [done|]). by apply Hdirty.
Qed.

Lemma search_step_ok d d' : SearchOk dims st d → search_step dims st d d' → SearchOk dims st d'.
Proof.
  intros Hd Hstep. pose proof (se_root_updates _ _ _ Hd) as Hru. pose proof (se_meta _ _ _ Hd) as Hm.
  pose proof (se_root _ _ _ Hd) as Hrt.
  destruct Hstep as [lvl v parent id ci d d' Hv Hp Hr H|c ci d d' Hc Hw H|cs d Hcs|c v vector d d' Hc Hv Hvec H|c v d d' Hc Hv H
    |vs lvl d d' Hvs Hr H|c vector d d' Hc Hv H|c d d' Hc H|field value v d d' H|field value v d d' H].
  - by eapply add_centroid_ok.
  - by eapply update_centroid_ok.
  - by apply delete_centroids_ok.
  - unfold add_to_posting in H. apply res_bind_ok in H as (? & _ & H). injection H as <-.
    apply push_update_ok; [done|by eapply dirty_known|by left|]. split; [done|apply Hvec].
  - unfold remove_from_posting in H. apply res_bind_ok in H as (? & _ & H). apply res_bind_ok in H as (cur & _ & H). injection H as <-.
    apply push_update_ok; [done| |done|by split]. destruct Hc as [Hc|Hc]; [by eapply dirty_known|by apply (se_deleted _ _ _ Hd)].
  - by eapply promote_root_ok.
  - unfold add_to_root in H. apply res_bind_ok in H as (? & _ & H). do 2 apply res_bind_ok in H as (? & _ & H). injection H as <-.
    apply set_root_ok; [done..|]. apply Forall_app. split; [done|]. apply Forall_singleton. split; [done|apply Hv].
  - unfold remove_from_root in H. apply res_bind_ok in H as (? & _ & H). do 2 apply res_bind_ok in H as (? & _ & H). injection H as <-.
    apply set_root_ok; [done..|]. apply Forall_app. split; [done|]. by apply Forall_singleton.
  - unfold add_to_inverted_index in H. apply res_bind_ok in H as (k & Hk%of_encoding_ok%inverted_key_type & H). injection H as <-.
    by apply update_inverted_ok.
  - unfold remove_from_inverted_index in H. apply res_bind_ok in H as (k & Hk%of_encoding_ok%inverted_key_type & H). injection H as <-.
    by apply update_inverted_ok.
Qed.
End search_ok.

(** ** The cache after a round *)
Section cache.
Context {HO : HashOrder} {HOL : HashOrderLaws}.

Lemma elem_of_hash_elements (s : gset Z) c : c ∈ hash_elements s ↔ c ∈ s.
Proof.
  unfold hash_elements, hash_keys. rewrite list_elem_of_fmap. split.
  - intros ([k []] & -> & Hk%elem_of_hash_iter). by apply lookup_gset_to_gmap_Some in Hk as [? _].
  - intros Hc. exists (c, tt). split; [done|]. apply elem_of_hash_iter. by apply lookup_gset_to_gmap_Some.
Qed.

(** a list written at [epoch] that holds [es] *)
Definition WrittenAt (epoch : Z) (es : gmap Z (list Z)) (w : WrittenPostingList) : Prop :=
  written_epoch w = epoch ∧ wf_list (wr_posting_list w) ∧ content (wr_posting_list w) = es.

Lemma cache_apply_some pl us : wf_list pl →
  ∃ pl', cache_apply (Some pl) us = Ok pl' ∧ wf_list pl' ∧ content pl' = apply_updates (content pl) us.
Proof.
  intros Hw. unfold cache_apply. rewrite update_and_flatten_spec by done. eexists. split; [done|]. destruct Hw as [_ Hn].
  rewrite <-entries_ids in Hn. split; [by apply from_vectors_wf, updated_entries_nodup|].
  unfold content. by rewrite (proj1 (from_vectors_spec _)), updated_entries_map.
Qed.

Lemma latest_from us k : latest (from_posting_updates us) !! k = latest us !! k.
Proof. apply latest_is_latest, from_posting_updates_spec. Qed.

Lemma sorted_ids_nodup us : StronglySorted id_lt us → NoDup (uid <$> us).
Proof.
  induction 1 as [|u us Hs IH Hu]; [constructor|]. rewrite fmap_cons. apply NoDup_cons. split; [|done].
  intros (v & He & Hv)%list_elem_of_fmap. rewrite Forall_forall in Hu. specialize (Hu _ Hv). unfold id_lt in Hu. lia.
Qed.

(** a value built from updates, read as a list *)
Lemma from_updates_value us : ∃ pl, from_value (from_posting_updates us) = Ok pl ∧ wf_list pl ∧ content pl = apply_updates ∅ us.
Proof.
  destruct (from_value_spec (from_posting_updates us)) as (pl & H1 & H2 & H3 & _).
  { apply sorted_ids_nodup, from_posting_updates_spec. }
  exists pl. split; [done|]. split; [done|]. rewrite H3. apply apply_updates_latest, latest_from.
Qed.

Lemma cache_apply_none us : ∃ pl, cache_apply None us = Ok pl ∧ wf_list pl ∧ content pl = apply_updates ∅ us.
Proof. destruct (from_updates_value us) as (pl & H & ? & ?). exists pl. unfold cache_apply. by rewrite H. Qed.

Lemma update_root_spec epoch rt us cache w :
  cache !! ROOT_VECTOR_ID = Some w → wf_list (wr_posting_list w) →
  ∃ cache', update_root epoch rt us cache = Ok cache' ∧ (∀ c, c ≠ ROOT_VECTOR_ID → cache' !! c = cache !! c) ∧
    ∃ w', cache' !! ROOT_VECTOR_ID = Some w' ∧
      (w' = w ∧ rt = None ∧ us = [] ∨
       WrittenAt epoch (apply_updates (match rt with Some r => apply_updates ∅ r | None => content (wr_posting_list w) end) us) w').
Proof.
  intros Hw Hwf. unfold update_root.
  assert (Hbase : ∃ pl, match rt with Some r => cache_apply None r | None => let? w := expect (cache !! ROOT_VECTOR_ID) in Ok (wr_posting_list w) end
      = Ok pl ∧ wf_list pl ∧ content pl = match rt with Some r => apply_updates ∅ r | None => content (wr_posting_list w) end).
  { destruct rt as [r|]; [apply cache_apply_none|]. rewrite Hw. by exists (wr_posting_list w). }
  destruct Hbase as (pl & Hb & Hwp & Hc).
  assert (Hupd : ∃ pl', match us with [] => Ok pl | _ => cache_apply (Some pl) us end = Ok pl' ∧ wf_list pl' ∧
      content pl' = apply_updates (content pl) us).
  { destruct us; [by exists pl|]. by apply cache_apply_some. }
  destruct Hupd as (pl' & Hu & Hwp' & Hc').
  assert (Hdo : ∃ cache', (let? r := match rt with Some r => cache_apply None r | None => let? w := expect (cache !! ROOT_VECTOR_ID) in Ok (wr_posting_list w) end in
      let? r := match us with [] => Ok r | _ => cache_apply (Some r) us end in
      Ok (<[ROOT_VECTOR_ID := mkWritten r epoch]> cache)) = Ok cache' ∧ (∀ c, c ≠ ROOT_VECTOR_ID → cache' !! c = cache !! c) ∧
    ∃ w', cache' !! ROOT_VECTOR_ID = Some w' ∧ WrittenAt epoch (apply_updates (content pl) us) w').
  { rewrite Hb. cbn [res_bind]. rewrite Hu. cbn [res_bind]. eexists. split; [done|]. split.
    - intros c Hne. by rewrite lookup_insert_ne.
    - eexists. split; [by rewrite lookup_insert_eq|]. split_and!; [done|by apply Hwp'..|done]. }
  rewrite <-Hc. destruct rt as [r|], us as [|u us]; try (destruct Hdo as (c' & Hd & H1 & w' & H2 & H3); exists c'; eauto 10; done).
  exists cache. split; [done|]. split; [done|]. exists w. split; [done|]. by left.
Qed.

Lemma add_new_spec epoch l cache :
  Forall (λ c, is_centroid c = true) l →
  ∃ cache', for_each (add_new_centroid epoch) l cache = Ok cache' ∧
    ∀ c, cache' !! c = if bool_decide (c ∈ l ∧ level c ≠ LEAF_LEVEL) then Some (mkWritten [] epoch) else cache !! c.
Proof.
  intros Hl. revert cache. induction Hl as [|c0 l Hc Hl IH]; intros cache; cbn [for_each].
  - exists cache. split; [done|]. intros c. rewrite bool_decide_eq_false_2; [done|]. by intros [?%not_elem_of_nil _].
  - unfold add_new_centroid at 1. destruct (Z.eqb_spec (level c0) LEAF_LEVEL) as [Hlf|Hlf]; [|rewrite Hc]; cbn [res_bind rust_assert].
    + destruct (IH cache) as (cache' & H1 & H2). exists cache'. split; [done|]. intros c. rewrite H2.
      rewrite (bool_decide_ext (c ∈ c0 :: l ∧ level c ≠ LEAF_LEVEL) (c ∈ l ∧ level c ≠ LEAF_LEVEL)); [done|].
      rewrite elem_of_cons. split; [intros [[->|?] ?]; [done|by split]|intros [? ?]; split; [by right|done]].
    + destruct (IH (<[c0 := mkWritten [] epoch]> cache)) as (cache' & H1 & H2). exists cache'. split; [done|]. intros c. rewrite H2.
      destruct (decide (c0 = c)) as [->|Hne].
      * rewrite lookup_insert_eq, (bool_decide_eq_true_2 (c ∈ c :: l ∧ _)) by (split; [left|done]). by case_bool_decide.
      * rewrite lookup_insert_ne by done.
        rewrite (bool_decide_ext (c ∈ c0 :: l ∧ level c ≠ LEAF_LEVEL) (c ∈ l ∧ level c ≠ LEAF_LEVEL)); [done|].
        rewrite elem_of_cons. split; [intros [[->|?] ?]; [done|by split]|intros [? ?]; split; [by right|done]].
Qed.

Lemma update_cached_spec epoch (l : list (VectorId * list PostingUpdate)) cache :
  NoDup l.*1 →
  (∀ c us, (c, us) ∈ l → is_centroid c = true ∧
     (level c ≠ LEAF_LEVEL → ∃ w, cache !! c = Some w ∧ wf_list (wr_posting_list w))) →
  ∃ cache', for_each (update_cached epoch) l cache = Ok cache' ∧
    (∀ c, c ∉ l.*1 ∨ level c = LEAF_LEVEL → cache' !! c = cache !! c) ∧
    (∀ c us, (c, us) ∈ l → level c ≠ LEAF_LEVEL → ∃ w w', cache !! c = Some w ∧ cache' !! c = Some w' ∧
       WrittenAt epoch (apply_updates (content (wr_posting_list w)) us) w').
Proof.
  revert cache. induction l as [|[c0 us0] l IH]; intros cache Hn Hl; cbn [for_each].
  - exists cache. split; [done|]. split; [done|]. by intros c us ?%not_elem_of_nil.
  - rewrite fmap_cons, NoDup_cons in Hn. destruct Hn as [Hc0 Hn]. cbn [fst] in Hc0.
    destruct (Hl c0 us0 ltac:(left)) as [Hcen Hcached]. unfold update_cached at 1. cbn [fst snd].
    destruct (Z.eqb_spec (level c0) LEAF_LEVEL) as [Hlf|Hlf]; [|rewrite Hcen]; cbn [res_bind rust_assert].
    + destruct (IH cache Hn) as (cache' & H1 & H2 & H3); [intros c us Hin; apply (Hl c us); by right|].
      exists cache'. split; [done|]. split.
      * intros c Hor. apply H2. rewrite fmap_cons, not_elem_of_cons in Hor. destruct Hor as [[_ ?]|?]; [by left|by right].
      * intros c us [[= -> ->]|Hin]%elem_of_cons Hlv; [done|]. by apply H3.
    + destruct (Hcached Hlf) as (w & Hw & Hwf). rewrite Hw. cbn [expect res_bind].
      destruct (cache_apply_some _ us0 Hwf) as (pl & Hpl & Hwp & Hcp). rewrite Hpl. cbn [res_bind].
      destruct (IH (<[c0 := mkWritten pl epoch]> cache) Hn) as (cache' & H1 & H2 & H3).
      { intros c us Hin. destruct (Hl c us ltac:(by right)) as [Hc1 Hc2]. split; [done|]. intros Hlv. destruct (Hc2 Hlv) as (w' & Hw' & ?).
        rewrite lookup_insert_ne; [by exists w'|]. intros <-. apply Hc0. apply list_elem_of_fmap. by exists (c0, us). }
      exists cache'. split; [done|]. split.
      * intros c Hor. rewrite fmap_cons, not_elem_of_cons in Hor. cbn [fst] in Hor. rewrite H2 by (destruct Hor as [[_ ?]|?]; [by left|by right]).
        apply lookup_insert_ne. intros <-. by destruct Hor as [[? _]|?].
      * intros c us [[= -> ->]|Hin]%elem_of_cons Hlv.
        -- exists w, (mkWritten pl epoch). split; [done|]. rewrite H2 by (by left). rewrite lookup_insert_eq. split; [done|].
           split_and!; [done|by apply Hwp..|done].
        -- destruct (H3 c us Hin Hlv) as (v & v' & Hv & Hv' & ?). exists v, v'. rewrite lookup_insert_ne in Hv; [done|].
           intros <-. apply Hc0. apply list_elem_of_fmap. by exists (c0, us).
Qed.

Lemma remove_cached_spec l cache :
  Forall (λ c, is_centroid c = true) l →
  for_each remove_cached l cache = Ok (foldl (λ m c, delete c m) cache l).
Proof.
  intros Hl. revert cache. induction Hl as [|c l Hc Hl IH]; intros cache; [done|]. cbn [for_each foldl]. unfold remove_cached at 1.
  rewrite Hc. cbn [rust_assert res_bind]. apply IH.
Qed.
End cache.

(** ** Freezing *)
Section freezing.
Context {HO : HashOrder} {HOL : HashOrderLaws} {RT : RoaringTreemap} (dims : nat).
Context (m : bytes → option bytes) (st : VectorIndexState) (e : Z) (Hco : Coherent dims m st e).
Context (d : SearchIndexDelta) (Hd : SearchOk dims st d).

(** the centroids of the new state *)
Definition frozen_centroids : gmap Z CentroidInfoValue :=
  insert_all (foldl (λ m c, delete c m) (centroids st) (hash_elements (deleted_centroids d))) (hash_iter (upserted_centroids d)).

Lemma frozen_centroids_lookup c : frozen_centroids !! c = dirty_centroid st d c.
Proof.
  unfold frozen_centroids, dirty_centroid. rewrite insert_all_hash, delete_all_lookup.
  rewrite (bool_decide_ext (c ∈ hash_elements (deleted_centroids d)) (c ∈ deleted_centroids d)) by apply elem_of_hash_elements. done.
Qed.

Lemma state_ids c ci : centroids st !! c = Some ci → centroid_ok c ∧ number c < next_sequence (centroid_sequence_block st).
Proof. intros H. apply (co_centroid _ _ _ _ Hco) in H as (? & _ & _ & ?). done. Qed.

Lemma dirty_info c ci : dirty_centroid st d c = Some ci → centroid_ok c ∧ wf_val dims (VInfo ci) ∧ ci_level ci = level c.
Proof.
  unfold dirty_centroid. destruct (upserted_centroids d !! c) as [x|] eqn:E.
  - intros [= <-]. apply (se_upserted _ _ _ Hd) in E as (? & ? & ? & _). done.
  - case_bool_decide; [done|]. intros H'. apply (co_centroid _ _ _ _ Hco) in H' as (? & ? & ? & _). done.
Qed.

Lemma centroid_not_root c : centroid_ok c → c ≠ ROOT_VECTOR_ID.
Proof. intros [_ H] ->. by vm_compute in H. Qed.

Lemma centroid_level c : centroid_ok c → 0 < level c.
Proof. intros [_ H]. unfold is_centroid in H. apply andb_true_iff in H as [H _]. by apply Z.ltb_lt in H. Qed.

Lemma elem_of_cache_updates c us :
  (c, us) ∈ cache_posting_updates frozen_centroids (posting_updates d) ↔
  posting_updates d !! c = Some us ∧ is_Some (dirty_centroid st d c).
Proof.
  unfold cache_posting_updates. rewrite list_elem_of_filter, elem_of_hash_iter. cbn [fst]. rewrite frozen_centroids_lookup.
  destruct (dirty_centroid st d c) as [ci|] eqn:E; [|split; [by intros []|by intros [_ []]]].
  destruct (dirty_info _ _ E) as (H1 & _ & H2). rewrite H2, (proj2 (Z.ltb_lt 0 (level c))) by by apply centroid_level.
  split; [intros [_ ?]; by split|by intros [? _]].
Qed.

Lemma cache_updates_nodup : NoDup (cache_posting_updates frozen_centroids (posting_updates d)).*1.
Proof. eapply sublist_NoDup; [apply (hash_iter_nodup (posting_updates d))|]. apply fmap_sublist, sublist_filter. Qed.

(** what the cache held before for a node *)
Definition cached_content (c : VectorId) : gmap Z (list Z) :=
  match centroid_cache st !! c with Some w => content (wr_posting_list w) | None => ∅ end.

Lemma cached_wf c w : centroid_cache st !! c = Some w → wf_list (wr_posting_list w) ∧ written_epoch w ≤ e.
Proof.
  intros Hw. assert (Hn : node_ok c).
  { destruct (co_cache_dom _ _ _ _ Hco c ltac:(by eexists)) as [->|[[ci Hci] _]]; [by right|left]. by apply state_ids in Hci as [? _]. }
  destruct (co_postings _ _ _ _ Hco c Hn) as (us & _ & H). destruct (H _ Hw) as (? & ? & _). done.
Qed.

Lemma new_not_cached c : c ∈ new_centroids d → centroid_ok c ∧ centroid_cache st !! c = None ∧ is_Some (dirty_centroid st d c).
Proof.
  intros Hc. destruct (se_new _ _ _ Hd c Hc) as [[ci Hup] Hno]. pose proof Hup as Hup2. apply (se_upserted _ _ _ Hd) in Hup2 as (Hok & _).
  split; [done|]. split; [|unfold dirty_centroid; by rewrite Hup; eexists]. apply eq_None_not_Some. intros Hs.
  destruct (co_cache_dom _ _ _ _ Hco c Hs) as [->|[[x Hx] _]]; [by apply (centroid_not_root _ Hok)|congruence].
Qed.

Lemma freeze_cache epoch :
  ∃ cache', update_postings epoch (root d) (root_updates d) (new_centroids d)
      (cache_posting_updates frozen_centroids (posting_updates d)) (deleted_centroids d) (centroid_cache st) = Ok cache' ∧
    (∃ w w', centroid_cache st !! ROOT_VECTOR_ID = Some w ∧ cache' !! ROOT_VECTOR_ID = Some w' ∧
      (w' = w ∧ root d = None ∧ root_updates d = [] ∨
       WrittenAt epoch (apply_updates (match root d with Some r => apply_updates ∅ r | None => cached_content ROOT_VECTOR_ID end)
                          (root_updates d)) w')) ∧
    (∀ c, c ≠ ROOT_VECTOR_ID → dirty_centroid st d c = None → cache' !! c = None) ∧
    (∀ c, is_Some (dirty_centroid st d c) → level c = LEAF_LEVEL → cache' !! c = centroid_cache st !! c) ∧
    (∀ c, is_Some (dirty_centroid st d c) → level c ≠ LEAF_LEVEL → ∃ w', cache' !! c = Some w' ∧
      (c ∉ new_centroids d ∧ centroid_cache st !! c = Some w' ∧ posting_updates d !! c = None ∨
       WrittenAt epoch (apply_updates (cached_content c) (default [] (posting_updates d !! c))) w')).
Proof.
  destruct (co_cached _ _ _ _ Hco ROOT_VECTOR_ID ltac:(by left)) as [w Hw].
  destruct (update_root_spec epoch (root d) (root_updates d) (centroid_cache st) w Hw ltac:(by eapply cached_wf))
    as (cache1 & H1 & H1' & w' & Hw' & Hroot).
  destruct (add_new_spec epoch (hash_elements (new_centroids d)) cache1) as (cache2 & H2 & H2').
  { apply Forall_forall. intros c Hc%elem_of_hash_elements. by destruct (new_not_cached c Hc) as [[_ ?] _]. }
  set (cu := cache_posting_updates frozen_centroids (posting_updates d)).
  assert (Hin2 : ∀ c, c ∈ hash_elements (new_centroids d) ∧ level c ≠ LEAF_LEVEL ↔ c ∈ new_centroids d ∧ level c ≠ LEAF_LEVEL).
  { intros c. by rewrite elem_of_hash_elements. }
  assert (Hc2 : ∀ c, centroid_ok c → is_Some (dirty_centroid st d c) → level c ≠ LEAF_LEVEL → ∃ w2, cache2 !! c = Some w2 ∧
    wf_list (wr_posting_list w2) ∧ content (wr_posting_list w2) = cached_content c ∧
    (c ∈ new_centroids d ∧ w2 = mkWritten [] epoch ∨ c ∉ new_centroids d ∧ centroid_cache st !! c = Some w2)).
  { intros c Hok Hdc Hlv. rewrite H2'. unfold cached_content. destruct (decide (c ∈ new_centroids d)) as [Hnew|Hnew].
    - rewrite bool_decide_eq_true_2 by (apply Hin2; by split). eexists. split; [done|].
      destruct (new_not_cached c Hnew) as (_ & -> & _). split; [by split; constructor|]. split; [done|by left].
    - rewrite bool_decide_eq_false_2 by (rewrite Hin2; by intros []). rewrite H1' by by apply centroid_not_root.
      destruct (co_cached _ _ _ _ Hco c) as [w2 Hw2].
      { right. split; [|done]. destruct Hdc as [ci Hdc]. unfold dirty_centroid in Hdc. destruct (upserted_centroids d !! c) as [x|] eqn:E.
        - apply (se_upserted _ _ _ Hd) in E as (_ & _ & _ & _ & _ & [?|?]); done.
        - case_bool_decide; [done|by eexists]. }
      exists w2. rewrite Hw2. split; [done|]. split; [by eapply cached_wf|]. split; [done|by right]. }
  destruct (update_cached_spec epoch cu cache2 cache_updates_nodup) as (cache3 & H3 & H3' & H3'').
  { intros c us [Hus Hdc]%elem_of_cache_updates.
    destruct (se_postings _ _ _ Hd _ _ Hus) as (Hok & _). split; [apply Hok|]. intros Hlv.
    destruct (Hc2 c Hok Hdc Hlv) as (w2 & ? & ? & _). by exists w2. }
  assert (Hcu : ∀ c, posting_updates d !! c = None ∨ dirty_centroid st d c = None → c ∉ cu.*1).
  { intros c Hn ([c' us] & -> & [Hin [ci Hci]]%elem_of_cache_updates)%list_elem_of_fmap. cbn [fst] in Hn. destruct Hn; congruence. }
  exists (foldl (λ m c, delete c m) cache3 (hash_elements (deleted_centroids d))). unfold update_postings.
  rewrite H1. cbn [res_bind]. rewrite H2. cbn [res_bind]. fold cu. rewrite H3. cbn [res_bind]. split.
  { apply remove_cached_spec, Forall_forall. intros c Hc%elem_of_hash_elements. by apply (se_deleted _ _ _ Hd) in Hc as [[_ ?] _]. }
  assert (Hdel : ∀ c, foldl (λ m c, delete c m) cache3 (hash_elements (deleted_centroids d)) !! c =
    if bool_decide (c ∈ deleted_centroids d) then None else cache3 !! c).
  { intros c. rewrite delete_all_lookup. by rewrite (bool_decide_ext _ _ (elem_of_hash_elements (deleted_centroids d) c)). }
  assert (Hnd : ∀ c, is_Some (dirty_centroid st d c) → bool_decide (c ∈ deleted_centroids d) = false).
  { intros c [ci Hc]. apply bool_decide_eq_false_2. unfold dirty_centroid in Hc. destruct (upserted_centroids d !! c) as [x|] eqn:E.
    - by apply (se_upserted _ _ _ Hd) in E as (_ & _ & _ & _ & ? & _).
    - by case_bool_decide. }
  assert (Hrd : ROOT_VECTOR_ID ∉ deleted_centroids d).
  { intros Hin. apply (se_deleted _ _ _ Hd) in Hin as [Hin _]. by apply (centroid_not_root _ Hin). }
  split_and!.
  - exists w, w'. split; [done|]. rewrite Hdel, bool_decide_eq_false_2 by done. rewrite H3'.
    + rewrite H2', bool_decide_eq_false_2; [|intros [Hin _]; apply elem_of_hash_elements in Hin].
      * split; [done|]. unfold cached_content. by rewrite Hw.
      * destruct (new_not_cached _ Hin) as [Hok _]. by apply (centroid_not_root _ Hok).
    + left. apply Hcu. left. apply eq_None_not_Some. intros [us Hus].
      apply (se_postings _ _ _ Hd) in Hus as [Hok _]. by apply (centroid_not_root _ Hok).
  - intros c Hnr Hdc. rewrite Hdel. case_bool_decide; [done|]. rewrite H3'.
    + rewrite H2', bool_decide_eq_false_2.
      * rewrite H1' by done. apply eq_None_not_Some. intros Hs. destruct (co_cache_dom _ _ _ _ Hco c Hs) as [->|[[x Hx] _]]; [done|].
        unfold dirty_centroid in Hdc. destruct (upserted_centroids d !! c); [done|]. rewrite bool_decide_eq_false_2 in Hdc by done. congruence.
      * intros [Hin _]. apply elem_of_hash_elements in Hin. destruct (new_not_cached _ Hin) as (_ & _ & [? ?]). congruence.
    + left. apply Hcu. by right.
  - intros c Hdc Hlv. destruct Hdc as [ci Hdc]. destruct (dirty_info _ _ Hdc) as (Hok & _). rewrite Hdel, Hnd by (by eexists).
    rewrite H3' by (by right). rewrite H2', bool_decide_eq_false_2 by (by intros []). apply H1'. by apply centroid_not_root.
  - intros c Hdc Hlv. pose proof Hdc as [ci Hci]. destruct (dirty_info _ _ Hci) as (Hok & _). rewrite Hdel, Hnd by done.
    destruct (Hc2 c Hok Hdc Hlv) as (w2 & Hw2 & Hwf2 & Hcon & Hor).
    destruct (posting_updates d !! c) as [us|] eqn:Hus.
    + destruct (H3'' c us) as (w3 & w3' & Hw3 & Hw3' & Hat); [apply elem_of_cache_updates; by split|done|].
      exists w3'. split; [done|]. right. cbn [default]. rewrite <-Hcon. rewrite Hw2 in Hw3. by injection Hw3 as ->.
    + rewrite H3' by (left; apply Hcu; by left).
      exists w2. split; [done|]. destruct Hor as [[Hnew ->]|[Hnew Hold]]; [right|by left]. cbn [default apply_updates foldl].
      split; [done|]. split; [done|]. done.
Qed.
End freezing.

(** ** The batch of a round *)
Section batch.
Context {HO : HashOrder} {HOL : HashOrderLaws} {RT : RoaringTreemap} (dims : nat).
Context (st : VectorIndexState) (fw : ForwardIndexDelta) (Hfw : ForwardOk dims st fw).
Context (d : SearchIndexDelta) (Hd : SearchOk dims st d).
Context (f : MergeOperator).

Definition dict_op (x : bytes * VectorId) : RecordOp := put_op (key_bytes (KDict x.1)) (id_dictionary_value_encode x.2).
Definition data_op (x : VectorId * VectorDataValue) : RecordOp := put_op (data_key x.1) (encoded (vector_data_encode x.2)).
Definition idx_op (x : VectorId * VectorIndexDataValue) : RecordOp := put_op (index_key x.1) (encoded (index_data_encode x.2)).
Definition forget_ops (v : VectorId) : list RecordOp := [Delete (data_key v); Delete (index_key v)].

Definition centroid_op (x : VectorId * CentroidInfoValue) : RecordOp := put_op (info_key x.1) (encoded (centroid_info_encode x.2)).
Definition posting_op (x : VectorId * list PostingUpdate) : RecordOp :=
  merge_op (posting_key x.1) (postings_encode (from_posting_updates x.2)).
Definition drop_ops (c : VectorId) : list RecordOp := [Delete (info_key c); Delete (posting_key c); Delete (stats_key c)].
Definition count_op (counts : gmap Z (gmap Z Z)) (c : VectorId) : RecordOp :=
  put_op (stats_key c) (centroid_stats_encode (default 0 (count_of counts c))).
Definition count_ids (ld : Z * gmap Z Z) : list VectorId := filter (λ c, c ∉ deleted_centroids d) (hash_keys ld.2).

Definition root_ops : list RecordOp :=
  match root d with
  | Some rt => [put_op (posting_key ROOT_VECTOR_ID) (postings_encode (from_posting_updates rt))]
  | None => []
  end ++
  match root_updates d with [] => [] | us => [posting_op (ROOT_VECTOR_ID, us)] end.

(** the key of an id, as the code builds it *)
Lemma data_key_ok v : data_ok v → vector_data_key_new v = Ok v ∧ vector_data_key_encode v = data_key v ∧
  vector_index_data_key_new v = Ok v ∧ vector_index_data_key_encode v = index_key v.
Proof.
  intros [Hv Hd']. unfold vector_data_key_new, vector_index_data_key_new, rust_assert. rewrite Hd'.
  unfold vector_data_key_encode, vector_index_data_key_encode, vid_encode, key_bytes. by rewrite !start_key_bytes.
Qed.

Lemma centroid_key_ok c : centroid_ok c → centroid_info_key_new c = Ok c ∧ centroid_info_key_encode c = info_key c ∧
  centroid_stats_key_new c = Ok c ∧ centroid_stats_key_encode c = stats_key c.
Proof.
  intros [Hv Hc]. unfold centroid_info_key_new, centroid_stats_key_new, rust_assert. rewrite Hc.
  unfold centroid_info_key_encode, centroid_stats_key_encode, vid_encode, key_bytes. by rewrite !start_key_bytes.
Qed.

Lemma posting_key_ok c : node_ok c → posting_list_key_new c = Ok c ∧ posting_list_key_encode c = posting_key c ∧ is_tree_node c = true.
Proof.
  intros Hc. assert (Ht : is_tree_node c = true).
  { destruct Hc as [[_ Hc]| ->]; [|done]. unfold is_tree_node. by rewrite Hc. }
  assert (Hn : is_centroid c || is_root c = true) by done.
  unfold posting_list_key_new, posting_list_key_encode, vid_encode, key_bytes. rewrite start_key_bytes. by rewrite ?Hn, ?Ht.
Qed.

Lemma dict_key_ok x : id_dictionary_key_encode x = key_bytes (KDict x).
Proof. unfold id_dictionary_key_encode, key_bytes. by rewrite terminated_append, start_key_bytes. Qed.

Lemma forward_ops_ok output :
  forward_freeze fw st output =
  Ok (mkState (insert_all (dictionary st) (hash_iter (dictionary_updates fw))) (st_centroids_meta st)
        (st_root_centroid_count st) (centroids st) (st_centroid_counts st) (seq_key (fi_allocator fw)) (block (fi_allocator fw))
        (centroid_sequence_block_key st) (centroid_sequence_block st) (centroid_cache st),
      output ++ fi_ops fw ++ (dict_op <$> hash_iter (dictionary_updates fw)) ++ (data_op <$> hash_iter (vector_updates fw)) ++
      (idx_op <$> hash_iter (vector_index_updates fw)) ++ concat (forget_ops <$> hash_elements (vector_deletes fw))).
Proof.
  unfold forward_freeze. cbn [freeze].
  rewrite (try_map_ok dictionary_op dict_op).
  2:{ intros [x v] Hin%elem_of_hash_iter. apply (fw_dict _ _ _ Hfw) in Hin as [_ [_ Hv]].
      unfold dictionary_op, put_id_dictionary, id_dictionary_value_new. cbn [fst snd]. rewrite Hv. cbn. unfold dict_op. by rewrite <-dict_key_ok. }
  rewrite (try_map_ok vector_op data_op).
  2:{ intros [v x] Hin%elem_of_hash_iter. apply (fw_data _ _ _ Hfw) in Hin as [Hv Hx].
      destruct (vector_data_roundtrip _ _ Hx) as (enc & He & _). destruct (data_key_ok v Hv) as (H1 & H2 & _).
      unfold vector_op, data_op. cbn [fst snd]. by rewrite H1, He, <-H2. }
  rewrite (try_map_ok index_op idx_op).
  2:{ intros [v x] Hin%elem_of_hash_iter. apply (fw_index _ _ _ Hfw) in Hin as [Hv Hx].
      destruct (index_data_roundtrip _ _ Hx) as (enc & He & _). destruct (data_key_ok v Hv) as (_ & _ & H1 & H2).
      unfold index_op, put_vector_index_data, idx_op. cbn [fst snd]. by rewrite H1, He, <-H2. }
  rewrite (try_map_ok delete_ops forget_ops); [done|].
  intros v Hin%elem_of_hash_elements. apply (fw_deletes _ _ _ Hfw) in Hin. destruct (data_key_ok v Hin) as (H1 & H2 & H3 & H4).
  unfold delete_ops, delete_vector_data, delete_vector_index_data, forget_ops. by rewrite H1, H3, <-H2, <-H4.
Qed.

Lemma ok_ops_all {A} (g : A → res DbError RecordOp) (h : A → RecordOp) l :
  (∀ x, x ∈ l → g x = Ok (h x)) → ok_ops (g <$> l) = Ok (h <$> l).
Proof.
  unfold ok_ops. induction l as [|x l IH]; intros Hg; [done|]. rewrite !fmap_cons. cbn [foldr].
  rewrite IH by (intros; apply Hg; by right). rewrite (Hg x) by left. done.
Qed.

Lemma ok_ops_some {A} (g : A → res DbError RecordOp) (P : RecordOp → Prop) l :
  (∀ x, x ∈ l → g x ≠ Panic) → (∀ x op, x ∈ l → g x = Ok op → P op) → ∃ ops, ok_ops (g <$> l) = Ok ops ∧ Forall P ops.
Proof.
  unfold ok_ops. induction l as [|x l IH]; intros Hp Hg; [by exists []|]. rewrite fmap_cons. cbn [foldr].
  destruct IH as (ops & -> & Ho); [intros; apply Hp; by right|intros y op Hy; apply Hg; by right|]. cbn [res_bind].
  destruct (g x) as [op|er|] eqn:E; [|by exists ops|].
  - exists (op :: ops). split; [done|]. constructor; [|done]. by apply (Hg x); [left|].
  - by destruct (Hp x ltac:(left)).
Qed.

(** counts small enough for their records, and inverted indexes that can be written *)
Definition Fits (counts : gmap Z (gmap Z Z)) : Prop :=
  (∀ lv c n, counts !! lv ≫= lookup c = Some n → 0 ≤ n < 2 ^ 31) ∧
  ∀ k v, inverted_index_updates d !! k = Some v → index_encode (make_mutually_exclusive v) ≠ Panic.

Lemma search_ops_ok counts :
  Fits counts →
  (∀ lv deltas c n, centroid_count_deltas d !! lv = Some deltas → deltas !! c = Some n → c ∉ deleted_centroids d →
     is_Some (count_of counts c)) →
  ∃ idxs, search_freeze_ops d counts = Ok (si_ops d ++ [put_op (key_bytes (KSingleton Centroids)) (centroids_encode (centroids_meta d))] ++
    root_ops ++ (centroid_op <$> hash_iter (upserted_centroids d)) ++ (posting_op <$> hash_iter (posting_updates d)) ++
    concat ((λ ld, count_op counts <$> count_ids ld) <$> hash_iter (centroid_count_deltas d)) ++ idxs ++
    concat (drop_ops <$> hash_elements (deleted_centroids d))) ∧
  Forall (λ op, of_type MetadataIndex op ∧ plain_op op) idxs.
Proof.
  intros [Hfit Hidx] Hcnt. unfold search_freeze_ops. destruct (posting_key_ok ROOT_VECTOR_ID ltac:(by right)) as (Hr1 & Hr2 & _).
  assert (Hmerge : ∀ c us, node_ok c → merge_posting_list c us = Ok (posting_op (c, us))).
  { intros c us Hc. destruct (posting_key_ok c Hc) as (H1 & H2 & _). unfold merge_posting_list, posting_op. cbn [fst snd]. by rewrite H1, <-H2. }
  rewrite (ok_ops_all _ posting_op).
  2:{ intros [c us] Hin%elem_of_hash_iter. apply Hmerge. left. by apply (se_postings _ _ _ Hd) in Hin as [? _]. }
  rewrite (try_map_ok info_op centroid_op).
  2:{ intros [c ci] Hin%elem_of_hash_iter. apply (se_upserted _ _ _ Hd) in Hin as (Hc & Hw & _).
      destruct (centroid_info_roundtrip _ _ Hw) as (enc & He & _). destruct (centroid_key_ok c Hc) as (H1 & H2 & _).
      unfold info_op, centroid_op. cbn [fst snd]. by rewrite H1, He, <-H2. }
  rewrite (try_map_ok (level_stats_ops counts (deleted_centroids d)) (λ ld, count_op counts <$> count_ids ld)).
  2:{ intros [lv deltas] Hin%elem_of_hash_iter. unfold level_stats_ops, count_ids. cbn [fst snd].
      assert (Hids : ∀ c, c ∈ filter (λ c, c ∉ deleted_centroids d) (hash_keys deltas) →
        lv = level c ∧ centroid_ok c ∧ ∃ n, count_of counts c = Some n).
      { intros c [Hnd ([c' n] & -> & Hc%elem_of_hash_iter)%list_elem_of_fmap]%list_elem_of_filter. cbn [fst] in *.
        destruct (se_counts _ _ _ Hd _ _ _ _ Hin Hc) as (H1 & H2 & _). split; [done|]. split; [done|]. by eapply Hcnt. }
      destruct (counts !! lv) as [cs|] eqn:Hlv.
      - apply try_map_ok. intros c Hc. destruct (Hids c Hc) as (-> & Hok & n & Hn). destruct (centroid_key_ok c Hok) as (_ & _ & H1 & H2).
        unfold count_op. rewrite Hn. pose proof (Hfit (level c) c n Hn) as Hb. unfold count_of in Hn. rewrite Hlv in Hn. cbn in Hn.
        unfold stats_op. rewrite Hn, H1. cbn [expect res_bind of_encoding res_map_err].
        rewrite (proj2 (Z.ltb_lt n (2 ^ 31))) by lia. cbn [rust_assert res_bind default]. by rewrite H2.
      - destruct (filter _ _) as [|c cs]; [done|]. destruct (Hids c ltac:(left)) as (-> & _ & n & Hn). unfold count_of in Hn.
        rewrite Hlv in Hn. done. }
  destruct (ok_ops_some (λ kv, merge_metadata_index_bitmap kv.1 (make_mutually_exclusive kv.2))
    (λ op, of_type MetadataIndex op ∧ plain_op op) (hash_iter (inverted_index_updates d))) as (idxs & Hi & Hif).
  { intros [k v] Hin%elem_of_hash_iter. cbn [fst snd]. unfold merge_metadata_index_bitmap. specialize (Hidx _ _ Hin).
    by destruct (index_encode _). }
  { intros [k v] op Hin%elem_of_hash_iter Hop. unfold merge_metadata_index_bitmap in Hop. cbn [fst snd] in Hop.
    destruct (index_encode _); try done. injection Hop as <-. split; [by apply (se_inverted _ _ _ Hd) in Hin|by right]. }
  rewrite Hi. rewrite (try_map_ok delete_centroid_ops drop_ops).
  2:{ intros c Hc%elem_of_hash_elements. apply (se_deleted _ _ _ Hd) in Hc as [Hc _]. destruct (centroid_key_ok c Hc) as (H1 & H2 & H3 & H4).
      destruct (posting_key_ok c ltac:(by left)) as (H5 & H6 & _). unfold delete_centroid_ops, drop_ops. by rewrite H1, H3, H5, <-H2, <-H4, <-H6. }
  exists idxs. split; [|done]. unfold root_ops, root_put_op, posting_op.
  rewrite Hr1. cbn [of_encoding res_map_err res_bind]. rewrite Hr2.
  destruct (root d) as [rt|], (root_updates d) as [|u us]; cbn [res_bind app]; rewrite ?(Hmerge ROOT_VECTOR_ID) by (by right);
    cbn [res_bind app]; done.
Qed.

(** ** The batch, key by key *)
Definition InTypes (ts : list RecordType) (ops : list RecordOp) : Prop := Forall (λ op, ∃ t, t ∈ ts ∧ of_type t op) ops.

Lemma effect_skip g ts k ops v : InTypes ts ops → key_type k ∉ ts → effect g (key_bytes k) ops v = v.
Proof.
  intros H Hk. apply effect_none. eapply Forall_impl; [exact H|]. intros op (t & Ht & Hop). eapply of_type_other; [done|]. by intros <-.
Qed.

Lemma in_types_fmap {A} (g : A → RecordOp) (K : A → Key) t l :
  (∀ a, op_key (g a) = key_bytes (K a)) → (∀ a, key_type (K a) = t) → InTypes [t] (g <$> l).
Proof.
  intros Hk Ht. apply Forall_fmap, Forall_forall. intros a _. exists t. split; [left|]. rewrite <-(Ht a). by apply of_type_key.
Qed.

Lemma in_types_concat {A} (g : A → list RecordOp) ts l : (∀ a, a ∈ l → InTypes ts (g a)) → InTypes ts (concat (g <$> l)).
Proof.
  intros Hg. apply Forall_forall. intros op (l' & Hop & (a & -> & Ha)%list_elem_of_fmap)%elem_of_concat.
  specialize (Hg a Ha). unfold InTypes in Hg. rewrite Forall_forall in Hg. by apply Hg.
Qed.

(** the puts of a map *)
Lemma effect_hash_puts {K A} `{Countable K} (key : K → bytes) (enc : A → bytes) (u : gmap K A) k v :
  (∀ k' x, u !! k' = Some x → key k' = key k → k' = k) →
  effect f (key k) ((λ x, put_op (key x.1) (enc x.2)) <$> hash_iter u) v =
  match u !! k with Some x => Some (enc x) | None => v end.
Proof.
  intros Hinj. destruct (u !! k) as [x|] eqn:E.
  - apply effect_same.
    + intros op ([k' y] & -> & Hy%elem_of_hash_iter)%list_elem_of_fmap Hk w. cbn in Hk |- *.
      rewrite (Hinj _ _ Hy Hk) in Hy. congruence.
    + exists (put_op (key k) (enc x)). split; [|done]. apply list_elem_of_fmap. exists (k, x). by rewrite elem_of_hash_iter.
  - apply effect_none, Forall_fmap, Forall_forall. intros [k' y] Hy%elem_of_hash_iter Hk. cbn in Hk. rewrite (Hinj _ _ Hy Hk) in Hy. congruence.
Qed.

(** deletes of the records of a set of ids *)
Lemma effect_delete_set (g : VectorId → list RecordOp) (key : VectorId → bytes) (s : gset Z) c v :
  (∀ c' op, op ∈ g c' → ∀ w, op_value f op w = None) → (∀ c', ∃ op, op ∈ g c' ∧ op_key op = key c') →
  (∀ c' op, c' ∈ s → op ∈ g c' → op_key op = key c → c' = c) →
  effect f (key c) (concat (g <$> hash_elements s)) v = if bool_decide (c ∈ s) then None else v.
Proof.
  intros Hdel Hkey Hinj.
  assert (Hel : ∀ op, op ∈ concat (g <$> hash_elements s) ↔ ∃ c', c' ∈ s ∧ op ∈ g c').
  { intros op. rewrite elem_of_concat. split.
    - intros (l & Hop & (c' & -> & Hc'%elem_of_hash_elements)%list_elem_of_fmap). by exists c'.
    - intros (c' & Hc' & Hop). exists (g c'). split; [done|]. apply list_elem_of_fmap. exists c'. by rewrite elem_of_hash_elements. }
  case_bool_decide as Hc.
  - apply effect_same.
    + intros op (c' & _ & Hop)%Hel _. by apply (Hdel c').
    + destruct (Hkey c) as (op & Hop & Hk). exists op. split; [|done]. apply Hel. by exists c.
  - apply effect_none, Forall_forall. intros op (c' & Hc' & Hop)%Hel Hk. by rewrite (Hinj _ _ Hc' Hop Hk) in Hc'.
Qed.

Context (Hkey : sequence_block_key st = key_bytes (KSingleton SeqBlock))
  (Hckey : centroid_sequence_block_key st = key_bytes (KSingleton CentroidSeqBlock)).
Context (counts : gmap Z (gmap Z Z)) (idxs : list RecordOp) (Hidxs : Forall (λ op, of_type MetadataIndex op ∧ plain_op op) idxs).

Definition count_ops : list RecordOp := concat ((λ ld, count_op counts <$> count_ids ld) <$> hash_iter (centroid_count_deltas d)).

Definition round_ops : list RecordOp :=
  (fi_ops fw ++ (dict_op <$> hash_iter (dictionary_updates fw)) ++ (data_op <$> hash_iter (vector_updates fw)) ++
   (idx_op <$> hash_iter (vector_index_updates fw)) ++ concat (forget_ops <$> hash_elements (vector_deletes fw))) ++
  (si_ops d ++ [put_op (key_bytes (KSingleton Centroids)) (centroids_encode (centroids_meta d))] ++
    root_ops ++ (centroid_op <$> hash_iter (upserted_centroids d)) ++ (posting_op <$> hash_iter (posting_updates d)) ++
    count_ops ++ idxs ++ concat (drop_ops <$> hash_elements (deleted_centroids d))).

Lemma alloc_types k a b ops t : AllocOk k b a ops → k = key_bytes (KSingleton t) → InTypes [t] ops.
Proof.
  intros Ha ->. eapply Forall_impl; [apply (al_ops _ _ _ _ Ha)|]. intros op [v ->]. exists t. split; [left|].
  by apply (of_type_key (KSingleton t)).
Qed.

Lemma types_cons ts op ops : (∃ t, t ∈ ts ∧ of_type t op) → InTypes ts ops → InTypes ts (op :: ops).
Proof. intros. by constructor. Qed.

Lemma t_fi : InTypes [SeqBlock] (fi_ops fw).
Proof. by eapply alloc_types; [apply (fw_alloc _ _ _ Hfw)|]. Qed.
Lemma t_dict : InTypes [IdDictionary] (dict_op <$> hash_iter (dictionary_updates fw)).
Proof. by apply (in_types_fmap _ (λ x, KDict x.1)). Qed.
Lemma t_data : InTypes [VectorData] (data_op <$> hash_iter (vector_updates fw)).
Proof. by apply (in_types_fmap _ (λ x, KId VectorData x.1)). Qed.
Lemma t_idx : InTypes [VectorIndexData] (idx_op <$> hash_iter (vector_index_updates fw)).
Proof. by apply (in_types_fmap _ (λ x, KId VectorIndexData x.1)). Qed.
Lemma t_forget : InTypes [VectorData; VectorIndexData] (concat (forget_ops <$> hash_elements (vector_deletes fw))).
Proof.
  apply in_types_concat. intros v _. apply types_cons; [exists VectorData; split; [left|by apply (of_type_key (KId VectorData v))]|].
  apply types_cons; [|constructor]. exists VectorIndexData. split; [right; left|by apply (of_type_key (KId VectorIndexData v))].
Qed.
Lemma t_si : InTypes [CentroidSeqBlock] (si_ops d).
Proof. by eapply alloc_types; [apply (se_alloc _ _ _ Hd)|]. Qed.
Lemma t_meta v : InTypes [Centroids] [put_op (key_bytes (KSingleton Centroids)) v].
Proof. apply types_cons; [|constructor]. exists Centroids. split; [left|]. by apply (of_type_key (KSingleton Centroids)). Qed.
Lemma t_root : InTypes [Vec.PostingList] root_ops.
Proof.
  unfold root_ops. apply Forall_app. split.
  - destruct (root d); [|constructor]. apply types_cons; [|constructor]. exists Vec.PostingList. split; [left|].
    by apply (of_type_key (KId Vec.PostingList ROOT_VECTOR_ID)).
  - destruct (root_updates d); [constructor|]. apply types_cons; [|constructor]. exists Vec.PostingList. split; [left|].
    by apply (of_type_key (KId Vec.PostingList ROOT_VECTOR_ID)).
Qed.
Lemma t_info : InTypes [CentroidInfo] (centroid_op <$> hash_iter (upserted_centroids d)).
Proof. by apply (in_types_fmap _ (λ x, KId CentroidInfo x.1)). Qed.
Lemma t_posting : InTypes [Vec.PostingList] (posting_op <$> hash_iter (posting_updates d)).
Proof. by apply (in_types_fmap _ (λ x, KId Vec.PostingList x.1)). Qed.
Lemma t_count : InTypes [CentroidStats] count_ops.
Proof. apply in_types_concat. intros ld _. by apply (in_types_fmap _ (λ c, KId CentroidStats c)). Qed.
Lemma t_idxs : InTypes [MetadataIndex] idxs.
Proof. eapply Forall_impl; [exact Hidxs|]. intros op [Ht _]. exists MetadataIndex. split; [left|done]. Qed.
Lemma t_drop : InTypes [CentroidInfo; Vec.PostingList; CentroidStats] (concat (drop_ops <$> hash_elements (deleted_centroids d))).
Proof.
  apply in_types_concat. intros c _. apply types_cons; [exists CentroidInfo; split; [left|by apply (of_type_key (KId CentroidInfo c))]|].
  apply types_cons; [exists Vec.PostingList; split; [right; left|by apply (of_type_key (KId Vec.PostingList c))]|].
  apply types_cons; [|constructor]. exists CentroidStats. split; [right; right; left|by apply (of_type_key (KId CentroidStats c))].
Qed.

(** drop the parts of the batch that cannot touch the key *)
Ltac not_type := cbn [key_type]; apply (bool_decide_unpack _); exact I.
Ltac skip_part H := try rewrite (effect_skip f _ _ _ _ H) by not_type.
Ltac skip_parts :=
  unfold round_ops; rewrite !effect_app;
  skip_part t_fi; skip_part t_dict; skip_part t_data; skip_part t_idx; skip_part t_forget; skip_part t_si; skip_part (t_meta (centroids_encode (centroids_meta d)));
  skip_part t_root; skip_part t_info; skip_part t_posting; skip_part t_count; skip_part t_idxs; skip_part t_drop.

Lemma wf_ids c : centroid_ok c → wf_key (KId CentroidInfo c) ∧ wf_key (KId CentroidStats c) ∧ wf_key (KId Vec.PostingList c).
Proof. intros [Hc1 Hc2]. split; [done|]. split; [done|]. split; [done|]. unfold is_tree_node. by rewrite Hc2. Qed.

Lemma alloc_effect k a b ops : AllocOk k b a ops →
  effect f k ops (SeqBlock.serialize <$> current_block b) = SeqBlock.serialize <$> current_block (block a).
Proof.
  intros Ha. unfold effect. rewrite filter_all; [apply (al_effect _ _ _ _ Ha)|].
  eapply Forall_impl; [apply (al_ops _ _ _ _ Ha)|]. by intros op [v ->].
Qed.

Lemma round_seq : effect f (key_bytes (KSingleton SeqBlock)) round_ops (SeqBlock.serialize <$> current_block (sequence_block st)) =
  SeqBlock.serialize <$> current_block (block (fi_allocator fw)).
Proof. skip_parts. rewrite <-Hkey. apply alloc_effect, (fw_alloc _ _ _ Hfw). Qed.

Lemma round_centroid_seq :
  effect f (key_bytes (KSingleton CentroidSeqBlock)) round_ops (SeqBlock.serialize <$> current_block (centroid_sequence_block st)) =
  SeqBlock.serialize <$> current_block (block (si_allocator d)).
Proof. skip_parts. rewrite <-Hckey. apply alloc_effect, (se_alloc _ _ _ Hd). Qed.

Lemma round_meta v : effect f (key_bytes (KSingleton Centroids)) round_ops v = Some (centroids_encode (centroids_meta d)).
Proof. skip_parts. rewrite effect_one. by rewrite bool_decide_eq_true_2. Qed.

Lemma round_dict x v : utf8_valid x = true → effect f (key_bytes (KDict x)) round_ops v =
  match dictionary_updates fw !! x with Some id => Some (id_dictionary_value_encode id) | None => v end.
Proof.
  intros Hx. skip_parts. refine (effect_hash_puts (λ x, key_bytes (KDict x)) id_dictionary_value_encode (dictionary_updates fw) x v _). intros x' id Hid Hk.
  apply (fw_dict _ _ _ Hfw) in Hid as [Hx' _]. apply vec_key_bytes_inj in Hk; [|done..]. by injection Hk as ->.
Qed.

Lemma elem_of_forget op c : op ∈ forget_ops c → op = Delete (data_key c) ∨ op = Delete (index_key c).
Proof. unfold forget_ops. by rewrite elem_of_cons, list_elem_of_singleton. Qed.

Lemma round_data x v : data_ok x → effect f (data_key x) round_ops v =
  if bool_decide (x ∈ vector_deletes fw) then None
  else match vector_updates fw !! x with Some y => Some (encoded (vector_data_encode y)) | None => v end.
Proof.
  intros Hx. skip_parts. rewrite (effect_delete_set forget_ops (λ x, data_key x)).
  - case_bool_decide; [done|]. refine (effect_hash_puts (λ x, data_key x) (λ y, encoded (vector_data_encode y)) (vector_updates fw) x v _). intros x' y Hy Hk.
    apply (fw_data _ _ _ Hfw) in Hy as [Hx' _]. apply vec_key_bytes_inj in Hk; [|done..]. by injection Hk as ->.
  - by intros c op [-> | ->]%elem_of_forget w.
  - intros c. exists (Delete (data_key c)). split; [left|done].
  - intros c op Hc Hop Hk. apply (fw_deletes _ _ _ Hfw) in Hc.
    apply elem_of_forget in Hop as [-> | ->]; (apply vec_key_bytes_inj in Hk; [|done..]); [by injection Hk as ->|done].
Qed.

Lemma round_index x v : data_ok x → effect f (index_key x) round_ops v =
  if bool_decide (x ∈ vector_deletes fw) then None
  else match vector_index_updates fw !! x with Some y => Some (encoded (index_data_encode y)) | None => v end.
Proof.
  intros Hx. skip_parts. rewrite (effect_delete_set forget_ops (λ x, index_key x)).
  - case_bool_decide; [done|]. refine (effect_hash_puts (λ x, index_key x) (λ y, encoded (index_data_encode y)) (vector_index_updates fw) x v _). intros x' y Hy Hk.
    apply (fw_index _ _ _ Hfw) in Hy as [Hx' _]. apply vec_key_bytes_inj in Hk; [|done..]. by injection Hk as ->.
  - by intros c op [-> | ->]%elem_of_forget w.
  - intros c. exists (Delete (index_key c)). split; [right; left|done].
  - intros c op Hc Hop Hk. apply (fw_deletes _ _ _ Hfw) in Hc.
    apply elem_of_forget in Hop as [-> | ->]; (apply vec_key_bytes_inj in Hk; [|done..]); [done|by injection Hk as ->].
Qed.

Lemma elem_of_drop op c : op ∈ drop_ops c → op = Delete (info_key c) ∨ op = Delete (posting_key c) ∨ op = Delete (stats_key c).
Proof. unfold drop_ops. rewrite 2!elem_of_cons, list_elem_of_singleton. done. Qed.

Lemma wf_node c : node_ok c → wf_key (KId Vec.PostingList c).
Proof. intros [Hc| ->]; [by apply wf_ids|]. split; [apply root_in|done]. Qed.

Lemma drop_effect t c v :
  t ∈ [CentroidInfo; Vec.PostingList; CentroidStats] → wf_key (KId t c) →
  effect f (key_bytes (KId t c)) (concat (drop_ops <$> hash_elements (deleted_centroids d))) v =
  if bool_decide (c ∈ deleted_centroids d) then None else v.
Proof.
  intros Ht Hc. apply (effect_delete_set drop_ops (λ c, key_bytes (KId t c))).
  - by intros c' op [-> | [-> | ->]]%elem_of_drop w.
  - intros c'. unfold drop_ops. rewrite !elem_of_cons in Ht. destruct Ht as [-> |[-> |[-> |[]%not_elem_of_nil]]].
    + exists (Delete (info_key c')). split; [left|done].
    + exists (Delete (posting_key c')). split; [right; left|done].
    + exists (Delete (stats_key c')). split; [right; right; left|done].
  - intros c' op Hc' Hop Hk. apply (se_deleted _ _ _ Hd) in Hc' as [Hc' _]. destruct (wf_ids c' Hc') as (H1 & H2 & H3).
    apply elem_of_drop in Hop as [-> | [-> | ->]]; (apply vec_key_bytes_inj in Hk; [|done..]); by injection Hk.
Qed.

Lemma round_info c v : centroid_ok c → effect f (info_key c) round_ops v =
  if bool_decide (c ∈ deleted_centroids d) then None
  else match upserted_centroids d !! c with Some ci => Some (encoded (centroid_info_encode ci)) | None => v end.
Proof.
  intros Hc. skip_parts. rewrite drop_effect; [|left|by apply wf_ids]. case_bool_decide; [done|].
  refine (effect_hash_puts (λ c, info_key c) (λ ci, encoded (centroid_info_encode ci)) (upserted_centroids d) c v _).
  intros c' ci Hci Hk. apply (se_upserted _ _ _ Hd) in Hci as [Hc' _].
  apply vec_key_bytes_inj in Hk; [|by apply wf_ids..]. by injection Hk.
Qed.

(** the centroids whose count changed in this round *)
Definition counted (c : VectorId) : Prop := is_Some (centroid_count_deltas d !! level c ≫= lookup c).

Lemma round_stats c v : centroid_ok c → effect f (stats_key c) round_ops v =
  if bool_decide (c ∈ deleted_centroids d) then None
  else if bool_decide (counted c) then Some (centroid_stats_encode (default 0 (count_of counts c))) else v.
Proof.
  intros Hc. skip_parts. rewrite drop_effect; [|right; right; left|by apply wf_ids]. case_bool_decide as Hdel; [done|].
  assert (Hel : ∀ op, op ∈ count_ops → op_key op = stats_key c → op = count_op counts c ∧ counted c).
  { intros op (l & Hop & ([lv deltas] & -> & Hin%elem_of_hash_iter)%list_elem_of_fmap)%elem_of_concat Hk.
    apply list_elem_of_fmap in Hop as (c' & -> & [_ ([c'' n] & -> & Hn%elem_of_hash_iter)%list_elem_of_fmap]%list_elem_of_filter).
    cbn [fst snd] in *. destruct (se_counts _ _ _ Hd _ _ _ _ Hin Hn) as (-> & Hc' & _).
    apply vec_key_bytes_inj in Hk; [|by apply wf_ids..]. injection Hk as ->. split; [done|]. unfold counted. rewrite Hin. by exists n. }
  case_bool_decide as Hco.
  - apply effect_same.
    + intros op Hop Hk w. by destruct (Hel op Hop Hk) as [-> _].
    + exists (count_op counts c). split; [|done]. destruct Hco as [n Hn]. apply bind_Some in Hn as (deltas & Hl & Hn).
      apply elem_of_concat. exists (count_op counts <$> count_ids (level c, deltas)). split.
      * apply list_elem_of_fmap_2, list_elem_of_filter. split; [done|]. apply list_elem_of_fmap. exists (c, n). by rewrite elem_of_hash_iter.
      * apply list_elem_of_fmap. exists (level c, deltas). by rewrite elem_of_hash_iter.
  - apply effect_none, Forall_forall. intros op Hop Hk. by destruct (Hel op Hop Hk).
Qed.

Lemma posting_part c v : node_ok c → effect f (posting_key c) (posting_op <$> hash_iter (posting_updates d)) v =
  match posting_updates d !! c with Some us => op_value f (posting_op (c, us)) v | None => v end.
Proof.
  intros Hc. assert (Hinj : ∀ c' us, posting_updates d !! c' = Some us → posting_key c' = posting_key c → c' = c).
  { intros c' us Hus Hk. apply (se_postings _ _ _ Hd) in Hus as [Hc' _].
    apply vec_key_bytes_inj in Hk; [|by apply wf_ids|by apply wf_node]. by injection Hk. }
  destruct (posting_updates d !! c) as [us|] eqn:E.
  - change (posting_key c) with (op_key (posting_op (c, us))). apply effect_fmap; [|by apply elem_of_hash_iter].
    change (op_key ∘ posting_op) with ((λ c : Z, posting_key c) ∘ @fst Z (list PostingUpdate)).
    rewrite list_fmap_compose. apply NoDup_fmap_2_strong; [|apply hash_iter_nodup].
    intros c1 c2 ([? us1] & -> & H1%elem_of_hash_iter)%list_elem_of_fmap ([? us2] & -> & H2%elem_of_hash_iter)%list_elem_of_fmap Hk.
    cbn [fst] in *. apply (se_postings _ _ _ Hd) in H1 as [H1 _], H2 as [H2 _].
    apply vec_key_bytes_inj in Hk; [|by apply wf_ids..]. by injection Hk.
  - apply effect_none, Forall_fmap, Forall_forall. intros [c' us] Hus%elem_of_hash_iter Hk. cbn in Hk.
    rewrite (Hinj _ _ Hus Hk) in Hus. congruence.
Qed.

Lemma round_posting c v : centroid_ok c → effect f (posting_key c) round_ops v =
  if bool_decide (c ∈ deleted_centroids d) then None
  else match posting_updates d !! c with Some us => op_value f (posting_op (c, us)) v | None => v end.
Proof.
  intros Hc. skip_parts. rewrite drop_effect; [|right; left|by apply wf_ids]. case_bool_decide; [done|].
  rewrite posting_part by (by left). rewrite (effect_none _ _ root_ops); [done|].
  assert (Hne : posting_key ROOT_VECTOR_ID ≠ posting_key c).
  { intros Hk. apply vec_key_bytes_inj in Hk; [|by apply wf_node; right|by apply wf_ids]. injection Hk as <-.
    by apply (centroid_not_root _ Hc). }
  unfold root_ops. apply Forall_app. split.
  - destruct (root d); [|constructor]. apply Forall_singleton. done.
  - destruct (root_updates d); [constructor|]. apply Forall_singleton. done.
Qed.

Lemma round_root v : effect f (posting_key ROOT_VECTOR_ID) round_ops v =
  let base := match root d with Some rt => Some (postings_encode (from_posting_updates rt)) | None => v end in
  match root_updates d with [] => base | us => op_value f (posting_op (ROOT_VECTOR_ID, us)) base end.
Proof.
  skip_parts. rewrite drop_effect; [|right; left|by apply wf_node; right].
  rewrite bool_decide_eq_false_2.
  2:{ intros Hin. apply (se_deleted _ _ _ Hd) in Hin as [Hin _]. by apply (centroid_not_root _ Hin). }
  rewrite posting_part by (by right).
  assert (posting_updates d !! ROOT_VECTOR_ID = None) as ->.
  { apply eq_None_not_Some. intros [us Hus]. apply (se_postings _ _ _ Hd) in Hus as [Hok _]. by apply (centroid_not_root _ Hok). }
  unfold root_ops. rewrite effect_app.
  assert (Hr : effect f (posting_key ROOT_VECTOR_ID) (match root d with
      | Some rt => [put_op (posting_key ROOT_VECTOR_ID) (postings_encode (from_posting_updates rt))] | None => [] end) v =
    match root d with Some rt => Some (postings_encode (from_posting_updates rt)) | None => v end).
  { destruct (root d); [|done]. rewrite effect_one. by rewrite bool_decide_eq_true_2. }
  rewrite Hr. destruct (root_updates d) as [|u us]; [done|]. rewrite effect_one. by rewrite bool_decide_eq_true_2.
Qed.

Lemma alloc_plain k a b ops : AllocOk k b a ops → Forall plain_op ops.
Proof. intros Ha. eapply Forall_impl; [apply (al_ops _ _ _ _ Ha)|]. intros op [v ->]. by right. Qed.

Lemma plain_fmap {A} (g : A → RecordOp) l : (∀ a, plain_op (g a)) → Forall plain_op (g <$> l).
Proof. intros Hg. apply Forall_fmap, Forall_forall. intros a _. apply Hg. Qed.

Lemma plain_concat {A} (g : A → list RecordOp) l : (∀ a, Forall plain_op (g a)) → Forall plain_op (concat (g <$> l)).
Proof.
  intros Hg. apply Forall_forall. intros op (l' & Hop & (a & -> & _)%list_elem_of_fmap)%elem_of_concat.
  specialize (Hg a). rewrite Forall_forall in Hg. by apply Hg.
Qed.

Lemma round_plain : Forall plain_op round_ops.
Proof.
  assert (Hput : ∀ k v, plain_op (put_op k v)) by (intros; by right).
  assert (Hmerge : ∀ k v, plain_op (merge_op k v)) by (intros; by right).
  unfold round_ops, count_ops, root_ops. rewrite !Forall_app. split_and!.
  - eapply alloc_plain, (fw_alloc _ _ _ Hfw).
  - apply plain_fmap. intros. apply Hput.
  - apply plain_fmap. intros. apply Hput.
  - apply plain_fmap. intros. apply Hput.
  - apply plain_concat. intros. by repeat constructor.
  - eapply alloc_plain, (se_alloc _ _ _ Hd).
  - apply Forall_singleton, Hput.
  - destruct (root d); [|constructor]. apply Forall_singleton, Hput.
  - destruct (root_updates d); [constructor|]. apply Forall_singleton, Hmerge.
  - apply plain_fmap. intros. apply Hput.
  - apply plain_fmap. intros. apply Hmerge.
  - apply plain_concat. intros. apply plain_fmap. intros. apply Hput.
  - eapply Forall_impl; [exact Hidxs|]. by intros op [_ ?].
  - apply plain_concat. intros. by repeat constructor.
Qed.
End batch.
End VecStateSpec.
