(* ===== verification/VecCommit.v ===== *)
(** * vector: the commit of a round

    The two theorems on rounds announced in [VecStateSpec.v]: the committed index reads as
    the view of the unfinished round did, and readers of the older snapshot are not
    disturbed by the cache they share with the writer. *)
From stdpp Require Import gmap.
From S2P Require Import Prelude HashMap Codec ByteRange Serde Encoding Storage KvStore Sequence VecSerde VecPosting VecMerge VecList VecSearch VecStore VecState VecStateSpec.
#[local] Open Scope Z_scope.

Module VecCommit.
Import Vec VecPosting VecMerge VecList VecSearch VecStore VecState VecStateSpec.

(** ** Counts *)
(** a loop that changes each entry of a map once *)
Lemma foldl_entries {A B} (g : option B → A → B) (l : list (Z * A)) (m : gmap Z B) k :
  NoDup l.*1 →
  foldl (λ m e, <[e.1 := g (m !! e.1) e.2]> m) m l !! k =
  match list_to_map (M:=gmap Z A) l !! k with Some x => Some (g (m !! k) x) | None => m !! k end.
Proof.
  revert m. induction l as [|[k' x] l IH]; intros m Hn; [done|]. rewrite fmap_cons, NoDup_cons in Hn. destruct Hn as [Hk Hn].
  cbn [foldl fst snd]. rewrite IH by done. rewrite list_to_map_cons. destruct (decide (k' = k)) as [<-|Hne].
  - rewrite (not_elem_of_list_to_map_1 (M:=gmap Z) l k' Hk). by rewrite !lookup_insert_eq.
  - by rewrite !lookup_insert_ne.
Qed.

Section counts.
Context {HO : HashOrder} {HOL : HashOrderLaws}.

Lemma count_deltas_lookup counts (deltas : gmap Z Z) c :
  apply_count_deltas counts (hash_iter deltas) !! c =
  match deltas !! c with Some n => Some (saturating_add_signed (default 0 (counts !! c)) n) | None => counts !! c end.
Proof.
  unfold apply_count_deltas. rewrite (foldl_entries (λ o n, saturating_add_signed (default 0 o) n)) by apply hash_iter_nodup.
  by rewrite hash_iter_map.
Qed.

Lemma level_deltas_lookup all (deltas : gmap Z (gmap Z Z)) lv :
  apply_level_deltas all (hash_iter deltas) !! lv =
  match deltas !! lv with Some ds => Some (apply_count_deltas (default ∅ (all !! lv)) (hash_iter ds)) | None => all !! lv end.
Proof.
  unfold apply_level_deltas. rewrite (foldl_entries (λ o ds, apply_count_deltas (default ∅ o) (hash_iter ds))) by apply hash_iter_nodup.
  by rewrite hash_iter_map.
Qed.

(** the counts after the round *)
Definition frozen_counts (st : VectorIndexState) (d : SearchIndexDelta) : gmap Z (gmap Z Z) :=
  (λ m, foldl (λ m c, delete c m) m (hash_elements (deleted_centroids d))) <$>
  apply_level_deltas (st_centroid_counts st) (hash_iter (centroid_count_deltas d)).

Lemma frozen_counts_lookup st d lv c :
  frozen_counts st d !! lv ≫= lookup c =
  if bool_decide (c ∈ deleted_centroids d) then None
  else match centroid_count_deltas d !! lv ≫= lookup c with
       | Some n => Some (saturating_add_signed (default 0 (st_centroid_counts st !! lv ≫= lookup c)) n)
       | None => st_centroid_counts st !! lv ≫= lookup c
       end.
Proof.
  unfold frozen_counts. rewrite lookup_fmap, level_deltas_lookup.
  destruct (centroid_count_deltas d !! lv) as [ds|] eqn:E1; cbn [fmap option_fmap option_map mbind option_bind].
  - rewrite delete_all_lookup, (bool_decide_ext _ _ (elem_of_hash_elements (deleted_centroids d) c)).
    case_bool_decide; [done|]. rewrite count_deltas_lookup.
    by destruct (st_centroid_counts st !! lv); cbn [default mbind option_bind]; rewrite ?lookup_empty.
  - destruct (st_centroid_counts st !! lv) as [cs|]; cbn [fmap option_fmap option_map mbind option_bind]; [|by case_bool_decide].
    by rewrite delete_all_lookup, (bool_decide_ext _ _ (elem_of_hash_elements (deleted_centroids d) c)).
Qed.

Lemma hash_empty {K A} `{Countable K} : hash_iter (∅ : gmap K A) = [].
Proof. apply Permutation_nil_r. rewrite hash_iter_perm. by rewrite map_to_list_empty. Qed.

Lemma hash_elements_empty : hash_elements ∅ = [].
Proof. unfold hash_elements, hash_keys. by rewrite gset_to_gmap_empty, hash_empty. Qed.

(** the view of the counts is the new counts *)
Lemma view_counts_frozen d st lvl cs :
  view_centroid_counts d st lvl = Ok cs →
  cs = default ∅ (frozen_counts st (search_index d) !! tl_level lvl).
Proof.
  unfold view_centroid_counts. intros H. apply res_bind_ok in H as (_ & _ & H). injection H as <-.
  unfold frozen_counts. rewrite lookup_fmap, level_deltas_lookup. set (s := search_index d).
  destruct (centroid_count_deltas s !! tl_level lvl) as [ds|]; cbn [default]; [done|]. rewrite hash_empty. cbn [apply_count_deltas foldl].
  destruct (st_centroid_counts st !! tl_level lvl) as [cs|]; cbn [default fmap option_fmap option_map]; [done|].
  apply map_eq. intros c. rewrite delete_all_lookup. by case_bool_decide.
Qed.
End counts.

(** ** Stored posting lists *)
Section stored.
Context {HO : HashOrder} {HOL : HashOrderLaws} {RT : RoaringTreemap} (dims : nat).

Lemma merge_posting_key c old ops : merge_batch dims (posting_key c) old ops = merge_batch_posting_list old ops dims.
Proof. done. Qed.

Lemma wf_latest us us' : IsLatest us us' → Forall (wf_update dims) us → Forall (wf_update dims) us'.
Proof. intros [_ H] Hw. rewrite Forall_forall in *. intros u Hu. apply H in Hu. apply latest_id in Hu as [_ Hu]. by apply Hw. Qed.

Lemma posting_stored_encode us : Forall (wf_update dims) us → Stored dims (postings_encode (from_posting_updates us)) (from_posting_updates us).
Proof.
  intros Hw. pose proof (from_posting_updates_spec us) as Hl. split; [done|]. split; [by eapply wf_latest|apply Hl].
Qed.

(** merging updates into the record of a node *)
Lemma merge_posting_at c old us0 us :
  match old with Some v => Stored dims v us0 | None => us0 = [] end → Forall (wf_update dims) us →
  ∃ v us', op_value (operator dims) (posting_op (c, us)) old = Some v ∧ Stored dims v us' ∧
    apply_updates ∅ us' = apply_updates (apply_updates ∅ us0) us.
Proof.
  intros Hold Hw. pose proof (posting_stored_encode us Hw) as Hnew.
  set (srcs := match old with Some _ => [us0] | None => [] end ++ [from_posting_updates us]).
  destruct (posting_merge_spec dims old [postings_encode (from_posting_updates us)] srcs) as (v & l & Hv & Hs & Hl).
  { unfold srcs. destruct old as [o|]; cbn [option_list option_rect app].
    - constructor; [done|]. by constructor.
    - by constructor. }
  exists v, l. split.
  - cbn [op_value posting_op merge_op fst snd key value]. unfold operator. cbn [Storage.key Storage.value].
    by rewrite merge_posting_key, Hv.
  - split; [done|]. rewrite <-apply_updates_app. apply apply_updates_latest. intros k. rewrite (latest_is_latest _ _ k Hl).
    unfold srcs. destruct old as [o|]; [cbn [concat app]|subst us0; cbn [concat app]]; rewrite ?app_nil_r.
    + rewrite !latest_app. by rewrite latest_from.
    + apply latest_from.
Qed.

(** ** Reads *)
Definition fetch (r : CentroidReader) (c : VectorId) : res DbError PostingList :=
  if decide (c = ROOT_VECTOR_ID) then maybe_get (read_root r) else maybe_get (read_postings r c).

(** the list of [c] reads as holding [es] *)
Definition ReadsAs (r : CentroidReader) (c : VectorId) (es : gmap Z (list Z)) : Prop :=
  ∃ pl, fetch r c = Ok pl ∧ wf_list pl ∧ content pl = es.

Context {St : Type} {KV : KvStore St} {KL : KvStoreLaws St} (now : Z).

Lemma blt_successor k : blt k (k ++ [x00]) = true.
Proof. rewrite <-(app_nil_r k) at 1. by rewrite blt_app_l. Qed.

Lemma get_posting_spec s c us : kv_ok s → node_ok c → PostingAt dims (kv_map s) c us → get_posting_list now s c dims = Ok us.
Proof.
  intros Hok Hc Hus. destruct (posting_key_ok c Hc) as (H1 & H2 & H3). unfold get_posting_list. rewrite H1, H3.
  cbn [rust_assert res_bind of_encoding res_map_err]. rewrite H2.
  pose proof (blt_successor (posting_key c)) as Hlt.
  rewrite Hlt. cbn [rust_assert res_bind].
  destruct (law_scan now (mkRange (Included (posting_key c)) (Included (posting_key c ++ [x00]))) s Hok) as (recs & -> & Hsort & Hrecs).
  { unfold BTreeMap.range_panics. cbn [start end_]. rewrite blt_not_ble, (blt_ble _ _ Hlt). done. }
  cbn [of_storage res_map_err res_bind]. unfold PostingAt in Hus.
  assert (Hcont : contains (mkRange (Included (posting_key c)) (Included (posting_key c ++ [x00]))) (posting_key c) = true).
  { unfold contains. cbn [start end_]. by rewrite ble_refl, (blt_ble _ _ Hlt). }
  destruct recs as [|r recs].
  - destruct (kv_map s (posting_key c)) as [v|] eqn:E; [|by rewrite Hus]. exfalso.
    apply (not_elem_of_nil (mkRecord (posting_key c) v)), Hrecs. done.
  - destruct (kv_map s (posting_key c)) as [v|] eqn:E.
    + assert (Hin : mkRecord (posting_key c) v ∈ r :: recs) by (by apply Hrecs).
      assert (r = mkRecord (posting_key c) v) as ->.
      { apply elem_of_cons in Hin as [<-|Hin]; [done|]. exfalso. apply StronglySorted_inv in Hsort as [_ Hall].
        rewrite Forall_forall in Hall. specialize (Hall _ Hin). cbn [Storage.key] in Hall.
        destruct r as [rk rv]. destruct (proj1 (Hrecs rk rv) ltac:(left)) as [Hb _]. unfold contains in Hb. cbn [start end_] in Hb.
        apply andb_true_iff in Hb as [Hb _]. unfold ble in Hb. rewrite bcmp_opp in Hall. cbn [Storage.key] in Hall.
        by destruct (bcmp (posting_key c) rk). }
      cbn [Storage.key value]. rewrite bool_decide_eq_false_2 by (by intros []). by rewrite (stored_updates_decode dims v us Hus).
    + rewrite bool_decide_eq_true_2; [by rewrite Hus|]. intros Hk. destruct r as [rk rv]. cbn [Storage.key] in Hk. subst rk.
      destruct (proj1 (Hrecs (posting_key c) rv) ltac:(left)) as [_ Hb]. congruence.
Qed.

Lemma stored_at_nodup m c us : PostingAt dims m c us → NoDup (uid <$> us).
Proof.
  unfold PostingAt. destruct (m (posting_key c)); [intros (_ & _ & Hs); by apply sorted_ids_nodup|intros ->; constructor].
Qed.

Lemma stored_read s c us : kv_ok s → node_ok c → PostingAt dims (kv_map s) c us →
  ReadsAs (stored_reader now s dims) c (apply_updates ∅ us) ∧
  ∃ pl, maybe_get (read_postings (stored_reader now s dims) c) = Ok pl ∧ wf_list pl ∧ content pl = apply_updates ∅ us.
Proof.
  intros Hok Hc Hus. destruct (from_value_spec us (stored_at_nodup _ _ _ Hus)) as (pl & H1 & H2 & H3 & _).
  assert (Hr : maybe_get (read_postings (stored_reader now s dims) c) = Ok pl).
  { unfold stored_reader. cbn [read_postings maybe_get]. rewrite (get_posting_spec s c us) by done. cbn [res_bind]. by rewrite H1. }
  split; [|by exists pl]. exists pl. split; [|done]. unfold fetch. case_decide as He; [|done]. subst c. exact Hr.
Qed.
End stored.

(** ** Readers of an older snapshot *)
Section isolation.
Context {HO : HashOrder} {HOL : HashOrderLaws} {RT : RoaringTreemap}.

(** entries changed only by removals and by lists written after [e] *)
Definition Isolated (e : Z) (cache cache' : CentroidCache) : Prop :=
  ∀ c, cache' !! c = cache !! c ∨ cache' !! c = None ∨ ∃ w, cache' !! c = Some w ∧ e < written_epoch w.

#[global] Instance isolated_preorder e : PreOrder (Isolated e).
Proof.
  split.
  - intros cache c. by left.
  - intros c1 c2 c3 H1 H2 c. destruct (H2 c) as [-> | H]; [apply H1|by right].
Qed.

Lemma isolated_insert e c w cache : e < written_epoch w → Isolated e cache (<[c := w]> cache).
Proof.
  intros Hw c'. destruct (decide (c = c')) as [<-|Hne]; [|left; by rewrite lookup_insert_ne].
  right; right. exists w. by rewrite lookup_insert_eq.
Qed.

Lemma isolated_delete e c cache : Isolated e cache (delete c cache).
Proof.
  intros c'. destruct (decide (c = c')) as [<-|Hne]; [right; left; apply lookup_delete_eq|left; by rewrite lookup_delete_ne].
Qed.

Lemma isolated_for_each {A} e (g : A → CentroidCache → res DbError CentroidCache) l cache cache' :
  (∀ a c c', g a c = Ok c' → Isolated e c c') → for_each g l cache = Ok cache' → Isolated e cache cache'.
Proof.
  intros Hg. revert cache. induction l as [|a l IH]; intros cache H; cbn [for_each] in H; [by injection H as ->|].
  apply res_bind_ok in H as (c1 & H1 & H). trans c1; [by eapply Hg|by apply IH].
Qed.

Lemma update_postings_isolated e epoch rt us new cps deleted cache cache' :
  e < epoch → update_postings epoch rt us new cps deleted cache = Ok cache' → Isolated e cache cache'.
Proof.
  intros He H. unfold update_postings in H. apply res_bind_ok in H as (c1 & H1 & H).
  apply res_bind_ok in H as (c2 & H2 & H). apply res_bind_ok in H as (c3 & H3 & H).
  trans c1; [|trans c2; [|trans c3]].
  - unfold update_root in H1. destruct rt as [r|], us as [|u us]; [..|by injection H1 as ->|];
      (apply res_bind_ok in H1 as (pl & _ & H1); apply res_bind_ok in H1 as (pl' & _ & H1); injection H1 as <-;
       by apply isolated_insert).
  - eapply isolated_for_each; [|exact H2]. intros c ca ca' Ha. unfold add_new_centroid in Ha.
    destruct (level c =? LEAF_LEVEL); [by injection Ha as ->|]. apply res_bind_ok in Ha as (? & _ & Ha). injection Ha as <-.
    by apply isolated_insert.
  - eapply isolated_for_each; [|exact H3]. intros c ca ca' Ha. unfold update_cached in Ha.
    destruct (level c.1 =? LEAF_LEVEL); [by injection Ha as ->|]. apply res_bind_ok in Ha as (? & _ & Ha).
    apply res_bind_ok in Ha as (? & _ & Ha). apply res_bind_ok in Ha as (? & _ & Ha). injection Ha as <-.
    by apply isolated_insert.
  - eapply isolated_for_each; [|exact H]. intros c ca ca' Ha. unfold remove_cached in Ha.
    apply res_bind_ok in Ha as (? & _ & Ha). injection Ha as <-. apply isolated_delete.
Qed.

(** a commit after epoch [e] *)
Definition commit_after (e : Z) (st st' : VectorIndexState) : Prop :=
  ∃ d epoch ops, e < epoch ∧ delta_freeze d epoch st = Ok (st', ops).

Lemma commit_isolated e st st' : commit_after e st st' → Isolated e (centroid_cache st) (centroid_cache st').
Proof.
  intros (d & epoch & ops & He & H). unfold delta_freeze in H. apply res_bind_ok in H as ([st1 ops1] & H1 & H).
  assert (Hc1 : centroid_cache st1 = centroid_cache st).
  { unfold forward_freeze in H1. cbn [freeze] in H1. do 4 apply res_bind_ok in H1 as (? & _ & H1). by injection H1 as <- <-. }
  unfold search_freeze, search_freeze_state in H. apply res_bind_ok in H as (st2 & H2 & H). apply res_bind_ok in H as (ops2 & _ & H).
  injection H as <- _. apply res_bind_ok in H2 as (cache & H2 & H3). cbn [freeze] in H3. injection H3 as <-. cbn [centroid_cache].
  rewrite <-Hc1. by eapply update_postings_isolated.
Qed.

Context {St : Type} {KV : KvStore St} {KL : KvStoreLaws St} (now : Z) (dims : nat).

(** a reader of the snapshot, over a cache that has moved on *)
Lemma isolated_read st s e cache' c :
  Coherent dims (kv_map s) st e → kv_ok s → Isolated e (centroid_cache st) cache' → node_ok c →
  ∃ us, PostingAt dims (kv_map s) c us ∧ ReadsAs (cached_reader cache' e (stored_reader now s dims)) c (apply_updates ∅ us) ∧
    ∃ pl, maybe_get (read_postings (cached_reader cache' e (stored_reader now s dims)) c) = Ok pl ∧ wf_list pl ∧
      content pl = apply_updates ∅ us.
Proof.
  intros Hco Hok Hiso Hc. destruct (co_postings _ _ _ _ Hco c Hc) as (us & Hus & Hcached). exists us. split; [done|].
  destruct (stored_read dims now s c us Hok Hc Hus) as (Hst & Hst').
  assert (Hlook : ∀ c' w, cache_posting cache' c' e = Some w → c' = c → wf_list w ∧ content w = apply_updates ∅ us).
  { intros c' pl Hpl ->. unfold cache_posting, cache_postings in Hpl. cbn [omap list_omap] in Hpl.
    destruct (cache' !! c) as [w|] eqn:Ew; [|done]. cbn [omap list_omap] in Hpl.
    destruct (Z.ltb_spec e (written_epoch w)) as [|Hle]; [done|]. cbn in Hpl. injection Hpl as <-.
    destruct (Hiso c) as [Heq|[Heq|(w' & Heq & Hlt)]]; [|congruence|].
    - rewrite Ew in Heq. symmetry in Heq. destruct (Hcached w Heq) as (_ & ? & ?). done.
    - rewrite Ew in Heq. injection Heq as <-. lia. }
  assert (Hrd : ∃ pl, maybe_get (read_postings (cached_reader cache' e (stored_reader now s dims)) c) = Ok pl ∧ wf_list pl ∧
      content pl = apply_updates ∅ us).
  { cbn [read_postings cached_reader]. destruct (cache_posting cache' c e) as [pl|] eqn:E; [|done].
    destruct (Hlook c pl E eq_refl) as [? ?]. by exists pl. }
  split; [|done]. unfold ReadsAs, fetch. case_decide as Her; [|done]. subst c. cbn [read_root cached_reader]. unfold cache_root.
  destruct (cache_posting cache' ROOT_VECTOR_ID e) as [pl|] eqn:E.
  - destruct (Hlook _ pl E eq_refl) as [? ?]. by exists pl.
  - exact Hst'.
Qed.

(** the record of a node fixes what is read *)
Lemma posting_at_unique m c us us' : PostingAt dims m c us → PostingAt dims m c us' → us = us'.
Proof.
  unfold PostingAt. destruct (m (posting_key c)) as [v|]; [|congruence]. intros H1 H2.
  pose proof (stored_updates_decode dims v us H1) as D1. pose proof (stored_updates_decode dims v us' H2) as D2. congruence.
Qed.
End isolation.

(** ** The commit *)
(** Two views of the index answer the same. *)
Record SameView {HO : HashOrder} {St} `{!KvStore St} (now : Z) (dims : nat)
    (d : VectorIndexDelta) (st : VectorIndexState) (s : St) (e : Z)
    (d' : VectorIndexDelta) (st' : VectorIndexState) (s' : St) (e' : Z) : Prop := mkSameView {
  sv_meta : view_centroids_meta d = view_centroids_meta d';
  sv_root_count : view_root_count d = view_root_count d';
  sv_vector_id x : view_vector_id d st x = view_vector_id d' st' x;
  sv_vector_data v : data_ok v → view_vector_data now d s v dims = view_vector_data now d' s' v dims;
  sv_index_data v : data_ok v → view_vector_index_data now d s v = view_vector_index_data now d' s' v;
  sv_centroid c : view_centroid d st c = view_centroid d' st' c;
  sv_counts lvl : view_centroid_counts d st lvl = view_centroid_counts d' st' lvl;
  sv_postings c : node_ok c → ∃ es, ReadsAs (view_centroid_reader now d st s e dims) c es ∧
    ReadsAs (view_centroid_reader now d' st' s' e' dims) c es;
}.

Section commit.
Context {HO : HashOrder} {HOL : HashOrderLaws} {RT : RoaringTreemap} (dims : nat).
Context {St : Type} {KV : KvStore St} {KL : KvStoreLaws St} {KM : KvMergeLaws St (operator dims)} (now : Z).
Context (s : St) (Hs : kvm_ok s) (st : VectorIndexState) (e : Z) (Hco : Coherent dims (kv_map s) st e).
Context (d : VectorIndexDelta) (Hd : DeltaOk dims st d).
Let fw := forward_index d.
Let se := search_index d.
Let Hfw : ForwardOk dims st fw := proj1 Hd.
Let Hse : SearchOk dims st se := proj2 Hd.

(** what the list of a node holds for the unfinished round, given what it held *)
Definition dirty_content (c : VectorId) (es : gmap Z (list Z)) : gmap Z (list Z) :=
  if decide (c = ROOT_VECTOR_ID)
  then apply_updates (match root se with Some rt => apply_updates ∅ rt | None => es end) (root_updates se)
  else if bool_decide (c ∈ deleted_centroids se) then ∅
  else apply_updates es (default [] (posting_updates se !! c)).

Lemma maybe_map_get {A B} (g : A → B) x : maybe_get (maybe_map g x) = let? a := maybe_get x in Ok (g a).
Proof. by destruct x. Qed.

(** the view of the unfinished round *)
Lemma dirty_read (r : CentroidReader) c es :
  node_ok c → ReadsAs r c es → ReadsAs (dirty_reader se r) c (dirty_content c es).
Proof.
  intros Hc (pl & Hf & Hw & <-). unfold ReadsAs, dirty_content, fetch in *. case_decide as Hr.
  - cbn [read_root dirty_reader]. unfold dirty_root. destruct (root se) as [rt|].
    + destruct (from_updates_value (rt ++ root_updates se)) as (pl' & H1 & H2 & H3). rewrite H1. cbn [of_encoding res_map_err maybe_of maybe_get].
      exists pl'. split; [done|]. split; [done|]. by rewrite H3, apply_updates_app.
    + rewrite maybe_map_get, Hf. cbn [res_bind]. destruct (root_updates se) as [|u us] eqn:Eu; [by exists pl|].
      eexists. split; [done|]. apply update_in_place_spec. done.
  - cbn [read_postings dirty_reader]. destruct (Z.eqb_spec c ROOT_VECTOR_ID) as [|_]; [done|].
    case_bool_decide; [exists []; split; [done|]; split; [by split; constructor|done]|].
    rewrite maybe_map_get, Hf. cbn [res_bind]. destruct (posting_updates se !! c) as [us|]; cbn [default]; [|by exists pl].
    eexists. split; [done|]. by apply update_in_place_spec.
Qed.

(** the records of the new store *)
Context (counts : gmap Z (gmap Z Z)) (idxs : list RecordOp) (Hidxs : Forall (λ op, of_type MetadataIndex op ∧ plain_op op) idxs).
Context (s' : St) (Hs' : kvm_ok s')
  (Hmap : ∀ k, kv_map s' k = effect (operator dims) k (round_ops fw se counts idxs) (kv_map s k)).
Let Hkey := proj1 (co_seq _ _ _ _ Hco).
Let Hckey := proj1 (co_centroid_seq _ _ _ _ Hco).

Lemma new_posting c us :
  node_ok c → PostingAt dims (kv_map s) c us → ∃ us', PostingAt dims (kv_map s') c us' ∧
    apply_updates ∅ us' = dirty_content c (apply_updates ∅ us).
Proof.
  intros Hc Hus. unfold PostingAt in Hus |- *. rewrite Hmap. unfold dirty_content. destruct Hc as [Hc| ->].
  - rewrite decide_False by by apply centroid_not_root.
    rewrite (round_posting dims st fw Hfw se Hse (operator dims) Hkey Hckey counts idxs Hidxs) by done.
    case_bool_decide; [by exists []|]. destruct (posting_updates se !! c) as [ups|] eqn:E; [|by exists us].
    apply (se_postings _ _ _ Hse) in E as (_ & Hw & _).
    destruct (merge_posting_at dims c _ us ups Hus Hw) as (v & us' & -> & Hst & Heq). by exists us'.
  - rewrite decide_True by done. rewrite (round_root dims st fw Hfw se Hse (operator dims) Hkey Hckey counts idxs Hidxs).
    cbv zeta. set (base := match root se with Some rt => Some _ | None => _ end).
    assert (Hb : ∃ us0, match base with Some v => Stored dims v us0 | None => us0 = [] end ∧
      apply_updates ∅ us0 = match root se with Some rt => apply_updates ∅ rt | None => apply_updates ∅ us end).
    { unfold base. destruct (root se) as [rt|] eqn:Er; [|by exists us]. exists (from_posting_updates rt). split.
      - apply posting_stored_encode. by apply (se_root _ _ _ Hse).
      - apply apply_updates_latest, latest_from. }
    destruct Hb as (us0 & Hst0 & Heq0). rewrite <-Heq0. destruct (root_updates se) as [|u ups] eqn:Eu; [by exists us0|].
    pose proof (se_root_updates _ _ _ Hse) as Hw. rewrite Eu in Hw.
    destruct (merge_posting_at dims ROOT_VECTOR_ID _ us0 (u :: ups) Hst0 Hw) as (v & us' & -> & Hst & Heq). by exists us'.
Qed.

(** records of vectors *)
Lemma get_record {A} k (decode : bytes → res Error A) s0 :
  kv_ok s0 → get_decoded now s0 k decode =
  match kv_map s0 k with Some v => let? a := of_encoding (decode v) in Ok (Some a) | None => Ok None end.
Proof.
  intros Hok. unfold get_decoded, get_value. rewrite law_get by done. cbn [of_storage res_map_err res_bind].
  by destruct (kv_map s0 k).
Qed.

Lemma new_vector_data v : data_ok v →
  get_vector_data now s' v dims = view_vector_data now d s v dims.
Proof.
  intros Hv. destruct (data_key_ok v Hv) as (H1 & H2 & _). unfold view_vector_data, get_vector_data. rewrite H1.
  cbn [of_encoding res_map_err res_bind]. rewrite H2. rewrite !get_record by (by apply kvm_ok_kv_ok).
  rewrite Hmap, (round_data dims st fw Hfw se Hse (operator dims) Hkey Hckey counts idxs Hidxs) by done.
  fold fw. case_bool_decide; [done|]. destruct (vector_updates fw !! v) as [x|] eqn:E; [|done].
  apply (fw_data _ _ _ Hfw) in E as [_ Hx]. destruct (vector_data_roundtrip _ _ Hx) as (enc & He & Hdec).
  rewrite He. cbn [encoded]. by rewrite Hdec.
Qed.

Lemma new_index_data v : data_ok v → get_vector_index_data now s' v = view_vector_index_data now d s v.
Proof.
  intros Hv. destruct (data_key_ok v Hv) as (_ & _ & H1 & H2). unfold view_vector_index_data, get_vector_index_data. rewrite H1.
  cbn [of_encoding res_map_err res_bind]. rewrite H2. rewrite !get_record by (by apply kvm_ok_kv_ok).
  rewrite Hmap, (round_index dims st fw Hfw se Hse (operator dims) Hkey Hckey counts idxs Hidxs) by done.
  fold fw. case_bool_decide; [done|]. destruct (vector_index_updates fw !! v) as [x|] eqn:E; [|done].
  apply (fw_index _ _ _ Hfw) in E as [_ Hx]. destruct (index_data_roundtrip _ _ Hx) as (enc & He & Hdec).
  rewrite He. cbn [encoded]. by rewrite Hdec.
Qed.

(** the state after the commit *)
Definition new_state (cache' : CentroidCache) : VectorIndexState :=
  mkState (insert_all (dictionary st) (hash_iter (dictionary_updates fw))) (centroids_meta se) (root_centroid_count se)
    (frozen_centroids st se) (frozen_counts st se) (seq_key (fi_allocator fw)) (block (fi_allocator fw))
    (seq_key (si_allocator se)) (block (si_allocator se)) cache'.

Context (Hcounts : counts = frozen_counts st se).

Lemma not_deleted c : is_Some (dirty_centroid st se c) → c ∉ deleted_centroids se.
Proof.
  intros [ci Hc]. unfold dirty_centroid in Hc. destruct (upserted_centroids se !! c) as [x|] eqn:E.
  - by apply (se_upserted _ _ _ Hse) in E as (_ & _ & _ & _ & ? & _).
  - by case_bool_decide.
Qed.

Lemma old_is_dirty c : is_Some (centroids st !! c) → c ∉ deleted_centroids se → is_Some (dirty_centroid st se c).
Proof. intros H1 H2. unfold dirty_centroid. destruct (upserted_centroids se !! c); [by eexists|]. by rewrite bool_decide_eq_false_2. Qed.

Lemma new_info c : centroid_ok c →
  kv_map s' (info_key c) = (λ ci, encoded (centroid_info_encode ci)) <$> frozen_centroids st se !! c.
Proof.
  intros Hc. rewrite Hmap, (round_info dims st fw Hfw se Hse (operator dims) Hkey Hckey counts idxs Hidxs) by done.
  rewrite (co_info _ _ _ _ Hco) by done. rewrite frozen_centroids_lookup. unfold dirty_centroid.
  destruct (upserted_centroids se !! c) as [ci|] eqn:E.
  - rewrite bool_decide_eq_false_2; [done|]. by apply (se_upserted _ _ _ Hse) in E as (_ & _ & _ & _ & ? & _).
  - by case_bool_decide.
Qed.

Lemma new_stats c : centroid_ok c → kv_map s' (stats_key c) = centroid_stats_encode <$> count_of (frozen_counts st se) c.
Proof.
  intros Hc. rewrite Hmap, (round_stats dims st fw Hfw se Hse (operator dims) Hkey Hckey counts idxs Hidxs) by done.
  rewrite (co_stats _ _ _ _ Hco) by done. rewrite Hcounts. unfold count_of. rewrite frozen_counts_lookup. unfold counted.
  case_bool_decide; [done|]. destruct (centroid_count_deltas se !! level c ≫= lookup c) as [n|] eqn:E.
  - by rewrite bool_decide_eq_true_2.
  - rewrite bool_decide_eq_false_2; [done|]. by intros [].
Qed.

Lemma new_counts lv cs c n : frozen_counts st se !! lv = Some cs → cs !! c = Some n →
  lv = level c ∧ is_Some (frozen_centroids st se !! c).
Proof.
  intros H1 H2. assert (Hl : frozen_counts st se !! lv ≫= lookup c = Some n) by (by rewrite H1).
  rewrite frozen_counts_lookup in Hl. case_bool_decide as Hdel; [done|]. rewrite frozen_centroids_lookup.
  destruct (centroid_count_deltas se !! lv) as [ds|] eqn:E1; cbn [mbind option_bind] in Hl.
  - destruct (ds !! c) as [x|] eqn:E2.
    + destruct (se_counts _ _ _ Hse _ _ _ _ E1 E2) as (-> & _ & [?|?]); done.
    + apply bind_Some in Hl as (old & Ho & Hn). destruct (co_counts _ _ _ _ Hco _ _ _ _ Ho Hn) as [-> ?]. split; [done|]. by apply old_is_dirty.
  - apply bind_Some in Hl as (old & Ho & Hn). destruct (co_counts _ _ _ _ Hco _ _ _ _ Ho Hn) as [-> ?]. split; [done|]. by apply old_is_dirty.
Qed.

Lemma new_absent c : centroid_ok c → dirty_centroid st se c = None → kv_map s' (posting_key c) = None.
Proof.
  intros Hc Hdc. rewrite Hmap, (round_posting dims st fw Hfw se Hse (operator dims) Hkey Hckey counts idxs Hidxs) by done.
  case_bool_decide as Hdel; [done|]. destruct (posting_updates se !! c) as [us|] eqn:E.
  - apply (se_postings _ _ _ Hse) in E as (_ & _ & [[? ?]|?]); [congruence|done].
  - apply (co_absent _ _ _ _ Hco); [done|]. unfold dirty_centroid in Hdc. destruct (upserted_centroids se !! c); [done|].
    by rewrite bool_decide_eq_false_2 in Hdc.
Qed.

Lemma old_content c us : node_ok c → PostingAt dims (kv_map s) c us → is_Some (centroid_cache st !! c) ∨ c ∈ new_centroids se →
  cached_content st c = apply_updates ∅ us.
Proof.
  intros Hc Hus Hor. destruct (co_postings _ _ _ _ Hco c Hc) as (us0 & Hus0 & Hca).
  rewrite (posting_at_unique dims _ _ _ _ Hus Hus0). unfold cached_content. destruct (centroid_cache st !! c) as [w|].
  - by destruct (Hca w eq_refl) as (_ & _ & ?).
  - destruct Hor as [[? ?]|Hnew]; [done|]. destruct (se_new _ _ _ Hse c Hnew) as [_ Hno].
    destruct Hc as [Hc| ->].
    + unfold PostingAt in Hus0. rewrite (co_absent _ _ _ _ Hco c Hc Hno) in Hus0. by rewrite Hus0.
    + destruct (new_not_cached dims _ st e Hco se Hse ROOT_VECTOR_ID Hnew) as [Hok _]. by destruct (centroid_not_root _ Hok).
Qed.

Lemma written_cached epoch w es us : WrittenAt epoch es w → es = apply_updates ∅ us → CachedAt w epoch us.
Proof. intros (H1 & H2 & H3) ->. split; [lia|done]. Qed.

(** the new cache against the new records *)
Lemma new_cached epoch cache' c us us' w' :
  e ≤ epoch → update_postings epoch (root se) (root_updates se) (new_centroids se)
    (cache_posting_updates (frozen_centroids st se) (posting_updates se)) (deleted_centroids se) (centroid_cache st) = Ok cache' →
  node_ok c → PostingAt dims (kv_map s) c us → apply_updates ∅ us' = dirty_content c (apply_updates ∅ us) →
  cache' !! c = Some w' → CachedAt w' epoch us'.
Proof.
  intros Hep Hup Hc Hus Heq Hw'. destruct (freeze_cache dims _ st e Hco se Hse epoch) as (cache0 & Hup0 & H1 & H2 & H3 & H4).
  rewrite Hup in Hup0. injection Hup0 as <-.
  assert (Hkeep : ∀ w, centroid_cache st !! c = Some w → apply_updates ∅ us' = apply_updates ∅ us → CachedAt w epoch us').
  { intros w Hw He'. destruct (co_postings _ _ _ _ Hco c Hc) as (us0 & Hus0 & Hca).
    rewrite (posting_at_unique dims _ _ _ _ Hus Hus0) in He'. destruct (Hca w Hw) as (Hle & ? & Hcon). split; [lia|].
    split; [done|]. congruence. }
  unfold dirty_content in Heq. destruct Hc as [Hc| ->].
  - rewrite decide_False in Heq by by apply centroid_not_root.
    destruct (dirty_centroid st se c) as [ci|] eqn:Edc; [|rewrite H2 in Hw' by (done || by apply centroid_not_root); done].
    rewrite bool_decide_eq_false_2 in Heq by (apply not_deleted; by eexists).
    destruct (decide (level c = LEAF_LEVEL)) as [Hlv|Hlv].
    + rewrite H3 in Hw' by (done || by eexists). destruct (co_cache_dom _ _ _ _ Hco c ltac:(by eexists)) as [->|[_ ?]]; [|done].
      by destruct (centroid_not_root _ Hc).
    + destruct (H4 c ltac:(by eexists) Hlv) as (w & Hw & Hor). rewrite Hw' in Hw. injection Hw as <-.
      destruct Hor as [(_ & Hold & Hno)|Hat].
      * apply Hkeep; [done|]. by rewrite Hno in Heq.
      * eapply written_cached; [exact Hat|]. rewrite Heq. f_equal. apply old_content; [by left|done|].
        destruct (centroid_cache st !! c) as [w|] eqn:Ew; [left; by eexists|]. right.
        unfold dirty_centroid in Edc. destruct (upserted_centroids se !! c) as [x|] eqn:E.
        -- apply (se_upserted _ _ _ Hse) in E as (_ & _ & _ & _ & _ & [?|?]); [done|].
           destruct (co_cached _ _ _ _ Hco c) as [? ?]; [by right|congruence].
        -- case_bool_decide; [done|]. destruct (co_cached _ _ _ _ Hco c) as [? ?]; [right; split; [by eexists|done]|congruence].
  - rewrite decide_True in Heq by done. destruct H1 as (w & w1 & Hw & Hw1 & Hor). rewrite Hw' in Hw1. injection Hw1 as <-.
    destruct Hor as [(-> & Hrt & Hru)|Hat].
    + apply Hkeep; [done|]. by rewrite Hrt, Hru in Heq.
    + eapply written_cached; [exact Hat|]. rewrite Heq. f_equal. destruct (root se); [done|].
      apply old_content; [by right|done|left; by eexists].
Qed.

Lemma new_coherent epoch cache' :
  e ≤ epoch → update_postings epoch (root se) (root_updates se) (new_centroids se)
    (cache_posting_updates (frozen_centroids st se) (posting_updates se)) (deleted_centroids se) (centroid_cache st) = Ok cache' →
  Coherent dims (kv_map s') (new_state cache') epoch.
Proof.
  intros Hep Hup. pose proof (freeze_cache dims _ st e Hco se Hse epoch) as (cache0 & Hup0 & H1 & H2 & H3 & H4).
  rewrite Hup in Hup0. injection Hup0 as <-. split; cbn [dictionary st_centroids_meta centroids st_centroid_counts centroid_cache
    sequence_block_key sequence_block centroid_sequence_block_key centroid_sequence_block new_state].
  - split; [apply (se_meta _ _ _ Hse)|]. rewrite Hmap. apply (round_meta dims st fw Hfw se Hse (operator dims) Hkey Hckey counts idxs Hidxs).
  - intros x Hx. rewrite Hmap, (round_dict dims st fw Hfw se Hse (operator dims) Hkey Hckey counts idxs Hidxs) by done.
    rewrite insert_all_hash, (co_dict _ _ _ _ Hco) by done. by destruct (dictionary_updates fw !! x).
  - exact new_info.
  - exact new_stats.
  - intros c ci Hc. rewrite frozen_centroids_lookup in Hc. destruct (dirty_info dims _ st e Hco se Hse c ci Hc) as (? & ? & ?).
    do 3 (split; [done|]). eapply (dirty_known dims st (state_ids dims _ st e Hco) se c Hse). by eexists.
  - exact new_counts.
  - intros c Hc. destruct (co_postings _ _ _ _ Hco c Hc) as (us & Hus & _). destruct (new_posting c us Hc Hus) as (us' & Hus' & Heq).
    exists us'. split; [done|]. intros w' Hw'. by eapply new_cached.
  - intros c [->|[Hc Hlv]]; [destruct H1 as (w & w' & _ & Hw' & _); by eexists|]. rewrite frozen_centroids_lookup in Hc.
    destruct (H4 c Hc Hlv) as (w' & Hw' & _). by eexists.
  - intros c Hc. destruct (decide (c = ROOT_VECTOR_ID)) as [|Hr]; [by left|right]. rewrite frozen_centroids_lookup.
    destruct (dirty_centroid st se c) as [ci|] eqn:E; [|rewrite H2 in Hc by done; by destruct Hc]. split; [by eexists|]. intros Hlv.
    rewrite H3 in Hc by (done || by eexists). destruct (co_cache_dom _ _ _ _ Hco c Hc) as [|[_ ?]]; done.
  - intros c Hc Hno. rewrite frozen_centroids_lookup in Hno. by apply new_absent.
  - pose proof (co_seq _ _ _ _ Hco) as (Hk & _ & Hm). pose proof (fw_alloc _ _ _ Hfw) as Ha. rewrite (al_key _ _ _ _ Ha).
    split; [done|]. split; [apply (al_block _ _ _ _ Ha)|]. rewrite Hmap, Hm, Hk.
    apply (round_seq dims st fw Hfw se Hse (operator dims) Hkey Hckey counts idxs Hidxs).
  - pose proof (co_centroid_seq _ _ _ _ Hco) as (Hk & _ & Hm). pose proof (se_alloc _ _ _ Hse) as Ha. rewrite (al_key _ _ _ _ Ha).
    split; [done|]. split; [apply (al_block _ _ _ _ Ha)|]. rewrite Hmap, Hm, Hk.
    apply (round_centroid_seq dims st fw Hfw se Hse (operator dims) Hkey Hckey counts idxs Hidxs).
Qed.
End commit.

(** ** Rounds *)
Section rounds.
Context {HO : HashOrder} {HOL : HashOrderLaws} {RT : RoaringTreemap} (dims : nat).
Context {St : Type} {KV : KvStore St} {KL : KvStoreLaws St} {KM : KvMergeLaws St (operator dims)} (now : Z).

Lemma delta_new_ok m st e : Coherent dims m st e → DeltaOk dims st (delta_new st).
Proof.
  intros Hco. pose proof (co_seq _ _ _ _ Hco) as (_ & Hb & _). pose proof (co_centroid_seq _ _ _ _ Hco) as (_ & Hcb & _).
  split; split; cbn; try done; try (by apply alloc_ok_start); try (intros; set_solver).
  apply (co_meta _ _ _ _ Hco).
Qed.

Lemma round_ok m st e d :
  Z.of_nat dims ≤ u_max 16 → Coherent dims m st e → rtc (delta_step dims st) (delta_new st) d → DeltaOk dims st d.
Proof.
  intros Hdims Hco Hr. pose proof (delta_new_ok m st e Hco) as H0. revert H0.
  induction Hr as [|d1 d2 d3 Hstep _ IH]; [done|]. intros [Hf Hs]. apply IH. destruct Hstep as [fw fw' se Hstep|fw se se' Hstep].
  - split; [by eapply forward_step_ok|done].
  - split; [done|]. eapply search_step_ok; [exact Hdims| |exact Hs|exact Hstep]. apply (state_ids dims m st e Hco).
Qed.

Lemma freeze_ok m st e d epoch :
  Coherent dims m st e → DeltaOk dims st d → e ≤ epoch → Fits (search_index d) (frozen_counts st (search_index d)) →
  ∃ cache' idxs, delta_freeze d epoch st = Ok (new_state st d cache', round_ops (forward_index d) (search_index d)
      (frozen_counts st (search_index d)) idxs) ∧
    Forall (λ op, of_type MetadataIndex op ∧ plain_op op) idxs ∧
    update_postings epoch (root (search_index d)) (root_updates (search_index d)) (new_centroids (search_index d))
      (cache_posting_updates (frozen_centroids st (search_index d)) (posting_updates (search_index d)))
      (deleted_centroids (search_index d)) (centroid_cache st) = Ok cache'.
Proof.
  intros Hco [Hf Hse] Hep Hfit. destruct (freeze_cache dims m st e Hco _ Hse epoch) as (cache' & Hup & _).
  destruct (search_ops_ok dims st _ Hse (frozen_counts st (search_index d)) Hfit) as (idxs & Hops & Hidx).
  { intros lv deltas c n H1 H2 Hnd. destruct (se_counts _ _ _ Hse _ _ _ _ H1 H2) as (-> & _).
    unfold count_of. rewrite frozen_counts_lookup, bool_decide_eq_false_2 by done. rewrite H1. cbn [mbind option_bind]. rewrite H2. by eexists. }
  exists cache', idxs. split; [|done]. unfold delta_freeze. rewrite (forward_ops_ok dims st _ Hf []). cbn [res_bind app].
  unfold search_freeze, search_freeze_state. cbn [centroids centroid_cache st_centroid_counts dictionary sequence_block_key sequence_block].
  change (insert_all _ (hash_iter (upserted_centroids (search_index d)))) with (frozen_centroids st (search_index d)).
  rewrite Hup. cbn [res_bind freeze st_centroid_counts].
  change (_ <$> apply_level_deltas _ _) with (frozen_counts st (search_index d)). rewrite Hops. cbn [res_bind]. done.
Qed.

(** the view of a round that has done nothing reads through *)
Lemma fresh_read st r c es : ReadsAs r c es → ReadsAs (dirty_reader (search_new st) r) c es.
Proof.
  intros (pl & Hf & Hw). exists pl. split; [|done]. revert Hf. unfold fetch. cbn. unfold dirty_root. cbn. case_decide as Hr; intros Hf.
  - by rewrite maybe_map_get, Hf.
  - destruct (Z.eqb_spec c ROOT_VECTOR_ID); [done|]. rewrite bool_decide_eq_false_2 by apply not_elem_of_empty.
    by rewrite maybe_map_get, Hf, lookup_empty.
Qed.

(** the new state, the batch and its effect on the store *)
Lemma commit_round s st e d epoch :
  Z.of_nat dims ≤ u_max 16 → kvm_ok s → Coherent dims (kv_map s) st e → DeltaOk dims st d →
  e ≤ epoch → Fits (search_index d) (frozen_counts st (search_index d)) →
  ∃ cache' idxs s' n,
    let ops := round_ops (forward_index d) (search_index d) (frozen_counts st (search_index d)) idxs in
    delta_freeze d epoch st = Ok (new_state st d cache', ops) ∧ kv_apply now ops s = Ok (s', n) ∧ kvm_ok s' ∧
    Forall (λ op, of_type MetadataIndex op ∧ plain_op op) idxs ∧
    (∀ k, kv_map s' k = effect (operator dims) k ops (kv_map s k)) ∧
    Coherent dims (kv_map s') (new_state st d cache') epoch.
Proof.
  intros Hdims Hs Hco Hd Hep Hfit.
  destruct (freeze_ok _ _ _ _ _ Hco Hd Hep Hfit) as (cache' & idxs & Hfr & Hidx & Hup).
  destruct (law_apply now (round_ops (forward_index d) (search_index d) (frozen_counts st (search_index d)) idxs) s Hs
    (round_plain dims st _ (proj1 Hd) _ (proj2 Hd) (frozen_counts st (search_index d)) idxs Hidx)) as (s' & n & Ha & Hs' & Hmap).
  assert (Hmap' : ∀ k, kv_map s' k = effect (operator dims) k (round_ops (forward_index d) (search_index d)
    (frozen_counts st (search_index d)) idxs) (kv_map s k)) by (intros k; by rewrite Hmap, map_ops_effect).
  exists cache', idxs, s', n. split; [exact Hfr|]. split; [exact Ha|]. split; [done|]. split; [done|]. split; [done|].
  by eapply (new_coherent dims s st e Hco d Hd _ idxs Hidx s' Hmap' eq_refl).
Qed.

(** C6: The commit of an indexing round is exactly what the round saw while it worked.
    Start from a coherent index (memory, cache and store agree as of epoch [e]) and make
    any sequence of the round's operations: add, update and delete vectors, create, update
    and delete centroids, move entries between posting lists, grow the tree by a level,
    change the inverted indexes.  Freezing the delta does not panic, the store applies the
    batch, and memory, cache and store are coherent again, the id blocks included.  A view
    of the new index then answers every read as the view of the unfinished round
    did: external ids, vector records, index assignments, centroids, counts, the root and
    every posting list, from the cache or the store. *)
Theorem commit_is_view s st e d epoch :
  Z.of_nat dims ≤ u_max 16 → kvm_ok s → Coherent dims (kv_map s) st e → rtc (delta_step dims st) (delta_new st) d →
  e ≤ epoch → Fits (search_index d) (frozen_counts st (search_index d)) →
  ∃ st' ops s' n, delta_freeze d epoch st = Ok (st', ops) ∧ kv_apply now ops s = Ok (s', n) ∧ kvm_ok s' ∧
    Coherent dims (kv_map s') st' epoch ∧ SameView now dims d st s e (delta_new st') st' s' epoch.
Proof.
  intros Hdims Hs Hco Hr Hep Hfit. pose proof (round_ok _ _ _ _ Hdims Hco Hr) as Hd.
  destruct (commit_round s st e d epoch Hdims Hs Hco Hd Hep Hfit) as (cache' & idxs & s' & n & Hfr & Ha & Hs' & Hidx & Hmap' & Hco').
  do 4 eexists. split; [exact Hfr|]. split; [exact Ha|]. split; [exact Hs'|]. split; [exact Hco'|].
  split; try done.
  - intros x. unfold view_vector_id. cbn. rewrite lookup_empty, insert_all_hash. done.
  - intros v Hv. symmetry. etrans; [|exact (new_vector_data dims now s Hs st e Hco d Hd _ idxs Hidx s' Hs' Hmap' v Hv)].
    unfold view_vector_data. cbn. by rewrite bool_decide_eq_false_2 by apply not_elem_of_empty.
  - intros v Hv. symmetry. etrans; [|exact (new_index_data dims now s Hs st e Hco d Hd _ idxs Hidx s' Hs' Hmap' v Hv)].
    unfold view_vector_index_data. cbn. by rewrite bool_decide_eq_false_2 by apply not_elem_of_empty.
  - intros c. change (view_centroid d st c) with (dirty_centroid st (search_index d) c).
    unfold view_centroid. cbn. rewrite lookup_empty, bool_decide_eq_false_2 by apply not_elem_of_empty. symmetry. apply frozen_centroids_lookup.
  - intros lvl. destruct (view_centroid_counts d st lvl) as [cs|er|] eqn:E1.
    + pose proof (view_counts_frozen _ _ _ _ E1) as ->. unfold view_centroid_counts in E1 |- *.
      apply res_bind_ok in E1 as (u & -> & _). cbn [res_bind]. cbn. rewrite lookup_empty. cbn. by rewrite hash_empty, hash_elements_empty.
    + unfold view_centroid_counts in E1. by destruct (tl_is_inner lvl).
    + unfold view_centroid_counts in E1 |- *. by destruct (tl_is_inner lvl).
  - intros c Hc. destruct (isolated_read now dims st s e (centroid_cache st) c Hco (kvm_ok_kv_ok _ Hs) ltac:(reflexivity) Hc)
      as (us & Hus & Hread & _).
    destruct (new_posting dims s st e Hco d Hd _ idxs Hidx s' Hmap' c us Hc Hus) as (us' & Hus' & Heq).
    destruct (isolated_read now dims _ s' epoch cache' c Hco' (kvm_ok_kv_ok _ Hs') ltac:(reflexivity) Hc) as (us2 & Hus2 & Hread2 & _).
    rewrite (posting_at_unique dims _ _ _ _ Hus2 Hus'), Heq in Hread2.
    exists (dirty_content d c (apply_updates ∅ us)). split; [by apply dirty_read|].
    by apply fresh_read.
Qed.

(** C24: Readers of an older snapshot keep seeing it while the writer moves on.  The
    cache of centroid lists is shared with the writer and updated in place; a reader of the
    snapshot of epoch [e] skips entries written after [e] and reads its snapshot instead.
    After any number of later commits, whatever they did, every node of the tree reads for
    it as before. *)
Theorem old_snapshot_reads s st e st' c es :
  kvm_ok s → Coherent dims (kv_map s) st e → rtc (commit_after e) st st' → node_ok c →
  ReadsAs (cached_reader (centroid_cache st) e (stored_reader now s dims)) c es →
  ReadsAs (cached_reader (centroid_cache st') e (stored_reader now s dims)) c es.
Proof.
  intros Hs Hco Hr Hc Hread. assert (Hiso : Isolated e (centroid_cache st) (centroid_cache st')).
  { clear Hco Hread. induction Hr as [|st1 st2 st3 H1 _ IH]; [reflexivity|]. trans (centroid_cache st2); [by apply commit_isolated|done]. }
  destruct (isolated_read now dims st s e (centroid_cache st) c Hco (kvm_ok_kv_ok _ Hs) ltac:(reflexivity) Hc) as (us & Hus & H1 & _).
  destruct (isolated_read now dims st s e (centroid_cache st') c Hco (kvm_ok_kv_ok _ Hs) Hiso Hc) as (us' & Hus' & H2 & _).
  rewrite (posting_at_unique dims _ _ _ _ Hus' Hus) in H2.
  destruct H1 as (p1 & Hf1 & _ & E1), Hread as (p & Hf & _ & E). rewrite Hf1 in Hf. injection Hf as ->. by rewrite <-E, E1.
Qed.
End rounds.

(** ** A first round on an empty tree *)
Module Demo.
#[local] Instance demo_treemap : RoaringTreemap := Plain.plain_treemap.
#[local] Instance demo_order : HashOrder := tree_order.
#[local] Instance demo_order_laws : HashOrderLaws := tree_order_laws.

Definition seq_block : SeqBlock.t := SeqBlock.new 0 4096.

(** a tree of depth 3 with an empty root; the first centroid number has been used *)
Definition demo_state : VectorIndexState :=
  mkState ∅ 3 0 ∅ ∅ (key_bytes (KSingleton SeqBlock)) (mkAllocated None 0)
    (key_bytes (KSingleton CentroidSeqBlock)) (mkAllocated (Some seq_block) 1) {[ROOT_VECTOR_ID := mkWritten [] 0]}.

Definition demo_store : InMemory.t :=
  InMemory.set_data (InMemory.new (Some (operator 2)) None false)
    [(key_bytes (KSingleton Centroids), InMemory.mkStored (centroids_encode 3) None);
     (key_bytes (KSingleton CentroidSeqBlock), InMemory.mkStored (SeqBlock.serialize seq_block) None)].

Lemma demo_other k : key_type k ≠ CentroidSeqBlock → key_type k ≠ Centroids → kv_map demo_store (key_bytes k) = None.
Proof.
  intros H1 H2. cbn [kv_map in_memory_laws]. unfold in_memory_map, demo_store. cbn [InMemory.set_data InMemory.data BTreeMap.get].
  assert (Hne : ∀ t, key_type k ≠ t → bcmp (key_bytes k) (key_bytes (KSingleton t)) ≠ Eq).
  { intros t Ht He%bcmp_eq. unfold key_bytes in He. cbn [key_type] in He. by apply type_bytes_inj in He as [? _]. }
  pose proof (Hne _ H1). pose proof (Hne _ H2).
  destruct (bcmp (key_bytes k) (key_bytes (KSingleton Centroids))); [done|..];
    by destruct (bcmp (key_bytes k) (key_bytes (KSingleton CentroidSeqBlock))).
Qed.

Lemma demo_coherent : kvm_ok (f:=operator 2) demo_store ∧ Coherent 2 (kv_map demo_store) demo_state 0.
Proof.
  split.
  - split; [|done]. split_and!; [repeat constructor|done| |done]. intros k sv. unfold demo_store. cbn.
    destruct (bcmp _ _); [by intros [= <-]|..]; (destruct (bcmp _ _); [by intros [= <-]|done..]).
  - split; cbn [dictionary st_centroids_meta centroids st_centroid_counts centroid_cache sequence_block_key sequence_block
      centroid_sequence_block_key centroid_sequence_block demo_state].
    + split; [by vm_compute|]. by vm_compute.
    + intros x _. by rewrite demo_other.
    + intros c _. by rewrite demo_other.
    + intros c _. by rewrite demo_other.
    + intros c ci H. by rewrite lookup_empty in H.
    + intros lv cs c n H. by rewrite lookup_empty in H.
    + intros c _. exists []. unfold PostingAt. rewrite demo_other by done. split; [done|]. intros w [<- <-]%lookup_singleton_Some.
      split; [done|]. split; [by split; constructor|done].
    + intros c [->|[[x Hx] _]]; [by rewrite lookup_singleton_eq|]. by rewrite lookup_empty in Hx.
    + intros c [w [<- _]%lookup_singleton_Some]. by left.
    + intros c _ _. by rewrite demo_other.
    + split; [done|]. split; [by split_and!|by rewrite demo_other].
    + split; [done|]. split; [|by vm_compute]. split_and!; [intros b [= <-]; by vm_compute|by vm_compute..].
Qed.

Definition demo_vector : list Z := [0x3f800000; 0].
Definition demo_centroid : VectorId := 2 ^ 56 + 1.

Definition or_else {A} (r : res DbError A) (a : A) : A := match r with Ok x => x | _ => a end.

(** one centroid below the root and one vector in its list *)
Definition demo_delta0 : VectorIndexDelta := delta_new demo_state.
Definition demo_search1 : SearchIndexDelta :=
  (or_else (add_centroid (Inner 1 3) demo_vector ROOT_VECTOR_ID (search_index demo_delta0)) (0, mkInfo 0 [] 0, search_index demo_delta0)).2.
Definition demo_search2 : SearchIndexDelta := or_else (add_to_root demo_centroid demo_vector demo_search1) demo_search1.
Definition demo_forward1 : ForwardIndexDelta :=
  (or_else (add_vector [x61] [(VECTOR_FIELD_NAME, AVector demo_vector)] (forward_index demo_delta0)) (0, forward_index demo_delta0)).2.
Definition demo_search3 : SearchIndexDelta := or_else (add_to_posting demo_centroid 0 demo_vector demo_search2) demo_search2.
Definition demo_forward2 : ForwardIndexDelta := or_else (update_vector_index_data 0 [demo_centroid] [] demo_forward1) demo_forward1.
Definition demo_delta : VectorIndexDelta := mkDelta demo_forward2 demo_search3.

Lemma demo_vector_ok : vector_ok 2 demo_vector.
Proof. split; [done|]. repeat constructor; by vm_compute. Qed.

Lemma demo_centroid_ok : node_ok demo_centroid.
Proof. left. split; by vm_compute. Qed.

Lemma demo_steps : rtc (delta_step 2 demo_state) demo_delta0 demo_delta.
Proof.
  assert (Hc : in_u 64 demo_centroid) by (by vm_compute).
  apply (rtc_l _ _ (mkDelta (forward_index demo_delta0) demo_search1)).
  { apply step_search. apply (step_add_centroid 2 _ (Inner 1 3) demo_vector ROOT_VECTOR_ID demo_centroid (mkInfo 1 demo_vector ROOT_VECTOR_ID));
      [apply demo_vector_ok|by right|by vm_compute|by vm_compute]. }
  apply (rtc_l _ _ (mkDelta (forward_index demo_delta0) demo_search2)).
  { apply step_search. apply (step_add_to_root 2 _ demo_centroid demo_vector); [done|apply demo_vector_ok|by vm_compute]. }
  apply (rtc_l _ _ (mkDelta demo_forward1 demo_search2)).
  { apply step_forward. apply (step_add_vector 2 [x61] [(VECTOR_FIELD_NAME, AVector demo_vector)] 0); [done| |by vm_compute|by vm_compute].
    split; [by split|]. split; [by vm_compute|]. repeat constructor; unfold wf_value, in_u; simpl; try done; try lia. }
  apply (rtc_l _ _ (mkDelta demo_forward1 demo_search3)).
  { apply step_search. apply (step_add_to_posting 2 _ demo_centroid 0 demo_vector);
      [by vm_compute; eexists|by vm_compute|apply demo_vector_ok|by vm_compute]. }
  apply rtc_once. apply step_forward. apply (step_index_data 2 0 [demo_centroid] []); [by vm_compute| |by vm_compute].
  intros x [= <-]. split_and!; [by vm_compute|by vm_compute| |constructor]. constructor; [|constructor]. split; [done|by vm_compute].
Qed.

Lemma commit_is_view_witness :
  ∃ st' ops s' n, delta_freeze demo_delta 1 demo_state = Ok (st', ops) ∧ kv_apply 0 ops demo_store = Ok (s', n) ∧
    view_vector_id (delta_new st') st' [x61] = Some 0 ∧
    ReadsAs (view_centroid_reader 0 (delta_new st') st' s' 1 2) demo_centroid {[0 := demo_vector]}.
Proof.
  destruct demo_coherent as [Hok Hco].
  destruct (commit_is_view 2 0 demo_store demo_state 0 demo_delta 1) as (st' & ops & s' & n & Hf & Ha & _ & _ & Hv);
    [by vm_compute|exact Hok|exact Hco|exact demo_steps|lia| |].
  - split.
    + intros lv c m H. unfold frozen_counts in H.
      assert (Hl : (frozen_counts demo_state (search_index demo_delta)) = {[1 := {[demo_centroid := 1]}]}) by (by vm_compute).
      unfold frozen_counts in Hl. rewrite Hl in H. apply bind_Some in H as (cs & [<- <-]%lookup_singleton_Some & [<- <-]%lookup_singleton_Some). lia.
    + intros k v H. assert (Hi : inverted_index_updates (search_index demo_delta) = ∅) by (by vm_compute). by rewrite Hi, lookup_empty in H.
  - exists st', ops, s', n. split; [exact Hf|]. split; [exact Ha|]. split.
    + rewrite <-(sv_vector_id _ _ _ _ _ _ _ _ _ _ Hv). by vm_compute.
    + pose proof (sv_postings _ _ _ _ _ _ _ _ _ _ Hv demo_centroid demo_centroid_ok) as (es & (pl & Hpl & _ & Hes) & H2).
      vm_compute in Hpl. injection Hpl as Hpl. rewrite <-Hpl in Hes. vm_compute in Hes. rewrite <-Hes in H2. exact H2.
Defined.

Definition demo_commit : VectorIndexState * list RecordOp := or_else (delta_freeze demo_delta 1 demo_state) (demo_state, []).

Lemma old_snapshot_reads_witness :
  commit_after 0 demo_state demo_commit.1 ∧ is_Some (head (wr_posting_list <$> option_list (centroid_cache demo_commit.1 !! ROOT_VECTOR_ID))) ∧
  ReadsAs (cached_reader (centroid_cache demo_commit.1) 0 (stored_reader 0 demo_store 2)) ROOT_VECTOR_ID ∅.
Proof.
  destruct demo_coherent as [Hok Hco].
  assert (Hc : commit_after 0 demo_state demo_commit.1).
  { exists demo_delta, 1, demo_commit.2. split; [lia|]. vm_compute. reflexivity. }
  split; [exact Hc|]. split; [vm_compute; by eexists|].
  apply (old_snapshot_reads 2 0 demo_store demo_state 0); [exact Hok|exact Hco|by apply rtc_once|by right|].
  exists []. split; [vm_compute; reflexivity|]. split; [by split; constructor|done].
Defined.
End Demo.
End VecCommit.
