(* ===== verification/VecKmeans.v ===== *)
(** * vector: two-means clustering

    [math/kmeans.rs]: the two centroids of a split.  Few vectors start from the farthest
    pair, many from a random pair drawn as in k-means++; the generator of the [rand] crate
    is an argument ([Rng]).  At most twenty rounds of assignment and averaging follow. *)
From Stdlib Require Import SpecFloat.
From S2P Require Import Prelude VecSerde VecMath VecSearch.
#[local] Open Scope Z_scope.

(** the draws of one call of [rand::thread_rng()]: [gen_range] over indexes and over [0.0..total], which panics when
    the bounds are not finite *)
Record Rng : Type := mkRng { gen_index : nat → nat; gen_float : Z → option Z }.

(** an index below the bound *)
Definition RngOk (rng : Rng) : Prop := ∀ n, (0 < n)%nat → (gen_index rng n < n)%nat.

Module VecKmeans.
Import Vec VecMath VecSearch.

(** [n as f32] *)
Definition f32_of_usize (n : nat) : Z := bits_of_f32 (binary_normalize 24 128 (Z.of_nat n) 0 false).

Section kmeans.
Context {FO : FloatOps Z} (cpu : Cpu) (rng : Rng).

(** [mean[i] += val] for each element; out of bounds when the vector is longer *)
Fixpoint add_into (mean v : list Z) : res DbError (list Z) :=
  match v, mean with
  | [], _ => Ok mean
  | x :: v, a :: mean => let? rest := add_into mean v in Ok (fadd a x :: rest)
  | _ :: _, [] => Panic
  end.

Fixpoint add_vectors (mean : list Z) (vectors : list (list Z)) : res DbError (list Z) :=
  match vectors with
  | [] => Ok mean
  | v :: vectors => let? mean := add_into mean v in add_vectors mean vectors
  end.

Definition mean_vector (vectors : list (list Z)) (dimensions : nat) : res DbError (list Z) :=
  let mean := replicate dimensions fzero in
  if bool_decide (vectors = []) then Ok mean
  else
    let? mean := add_vectors mean vectors in
    let n := f32_of_usize (length vectors) in
    Ok ((λ val, fdiv val n) <$> mean).

Abbreviation Best := (option VectorDistance * (nat * nat))%type.

(** [for j in (i + 1)..vectors.len()] *)
Fixpoint farthest_from (m : DistanceMetric) (i : nat) (v : list Z) (j : nat) (rest : list (list Z)) (best : Best) : res DbError Best :=
  match rest with
  | [] => Ok best
  | w :: rest =>
      let? d := of_encoding (compute_distance cpu v w m) in
      let best := match best.1 with
                  | Some b => match distance_cmp d b with Gt => (Some d, (i, j)) | _ => best end
                  | None => (Some d, (i, j))
                  end in
      farthest_from m i v (S j) rest best
  end.

Fixpoint farthest_loop (m : DistanceMetric) (i : nat) (vectors : list (list Z)) (best : Best) : res DbError Best :=
  match vectors with
  | [] => Ok best
  | v :: rest => let? best := farthest_from m i v (S i) rest best in farthest_loop m (S i) rest best
  end.

Definition farthest_pair_init (vectors : list (list Z)) (m : DistanceMetric) : res DbError (nat * nat) :=
  let? best := farthest_loop m 0 vectors (None, (0%nat, 1%nat)) in Ok best.2.

(** the first index whose cumulated distance reaches the threshold, or 0 *)
Fixpoint choose (threshold : Z) (cumsum : Z) (i : nat) (distances : list Z) : nat :=
  match distances with
  | [] => 0%nat
  | d :: distances =>
      let cumsum := fadd cumsum d in
      match fcmp cumsum threshold with
      | Some Gt | Some Eq => i
      | _ => choose threshold cumsum (S i) distances
      end
  end.

Definition squared_l2 (a b : list Z) : Z :=
  sum_f32 (zip_with (λ x y, fmul (fsub x y) (fsub x y)) a b).

Definition kmeans_pp_init_l2 (vectors : list (list Z)) : res DbError (nat * nat) :=
  let idx_a := gen_index rng (length vectors) in
  let? a := expect (vectors !! idx_a) in
  let distances := (λ v, squared_l2 v a) <$> vectors in
  let total := sum_f32 distances in
  let? idx_b := match fcmp total fzero with
                | Some Gt => let? threshold := expect (gen_float rng total) in Ok (choose threshold fzero 0 distances)
                | _ => Ok (if (idx_a =? 0)%nat then 1%nat else 0%nat)
                end in
  Ok (idx_a, idx_b).

(** whether each vector is nearer to [c1] *)
Definition assign (m : DistanceMetric) (c0 c1 : list Z) (vectors : list (list Z)) : res DbError (list bool) :=
  try_map (λ v, let? d0 := of_encoding (compute_distance cpu v c0 m) in
                let? d1 := of_encoding (compute_distance cpu v c1 m) in
                Ok (distance_lt d1 d0)) vectors.

Definition cluster (side : bool) (vectors : list (list Z)) (assignments : list bool) : list (list Z) :=
  (filter (λ va : list Z * bool, va.2 = side) (zip vectors assignments)).*1.

(** a cluster that has no vector keeps its centroid *)
Definition recenter (dimensions : nat) (c : list Z) (vectors : list (list Z)) : res DbError (list Z) :=
  if bool_decide (vectors = []) then Ok c else mean_vector vectors dimensions.

(** [for _ in 0..max_iterations], [update_centroid] being the identity *)
Fixpoint kmeans_loop (iterations : nat) (vectors : list (list Z)) (dimensions : nat) (m : DistanceMetric) (prev : list bool) (c0 c1 : list Z) :
    res DbError (list Z * list Z) :=
  match iterations with
  | O => Ok (c0, c1)
  | S iterations =>
      let? assignments := assign m c0 c1 vectors in
      if bool_decide (assignments = prev) then Ok (c0, c1)
      else
        let? c0 := recenter dimensions c0 (cluster false vectors assignments) in
        let? c1 := recenter dimensions c1 (cluster true vectors assignments) in
        kmeans_loop iterations vectors dimensions m assignments c0 c1
  end.

Definition max_iterations : nat := 20.

(** the ids that come with the vectors are not used *)
Definition two_means (m : DistanceMetric) (vectors : list (list Z)) (dimensions : nat) : res DbError (list Z * list Z) :=
  let? _ := rust_assert (2 <=? length vectors)%nat in
  let? (idx_a, idx_b) := if (length vectors <=? 100)%nat then farthest_pair_init vectors L2 else kmeans_pp_init_l2 vectors in
  let? c0 := expect (vectors !! idx_a) in
  let? c1 := expect (vectors !! idx_b) in
  kmeans_loop max_iterations vectors dimensions m [] c0 c1.
End kmeans.
End VecKmeans.
