(* ===== verification/VecQuery.v ===== *)
(** * vector: queries

    [query_engine.rs] and the query types of [model.rs]: a search finds the nearest leaf
    centroids, prunes them, loads and scores their lists, filters the candidates by
    metadata and merges the lists until it has [k] vectors that exist.  Orders that the
    standard library leaves open (an unstable sort, which of several equal entries a heap
    pops) are an argument of the code ([AnyOrder]). *)
From stdpp Require Import gmap strings.
From S2P Require Import Prelude HashMap Heap SortBy Storage KvStore VecSerde VecPosting VecMerge VecMath VecList VecSearch VecStore.
#[local] Open Scope Z_scope.

(** some rearrangement of a list *)
Class AnyOrder : Type := { any_order {A} : list A → list A }.
Class AnyOrderLaws `{!AnyOrder} : Prop := { any_order_perm {A} (l : list A) : any_order l ≡ₚ l }.

Module VecQuery.
Import Vec VecPosting VecMerge VecMath VecList VecSearch VecStore.

(** ** model.rs *)
Record Attribute : Type := mkAttribute { attr_name : bytes; attr_value : AttributeValue }.
Record Vector : Type := mkVector { v_id : bytes; v_attributes : list Attribute }.

Inductive Filter : Type :=
| FltEq (field : bytes) (value : AttributeValue)
| FltNeq (field : bytes) (value : AttributeValue)
| FltIn (field : bytes) (values : list AttributeValue)
| FltAnd (filters : list Filter)
| FltOr (filters : list Filter).

Inductive FieldSelection : Type := SelAll | SelNone | SelFields (names : list bytes).

Record Query : Type := mkQuery {
  q_vector : list Z;
  q_limit : nat;
  q_filter : option Filter;
  q_include_fields : FieldSelection;
}.

Record SearchOptions : Type := mkOptions { nprobe : option Z }.
Record QueryResult : Type := mkResult { r_score : Z; r_vector : Vector }.

Record QueryEngineOptions : Type := mkEngineOptions {
  qe_dimensions : nat;
  qe_metric : DistanceMetric;
  query_pruning_factor : option Z;
}.

Record ScoredCandidate : Type := mkScored { sc_id : VectorId; sc_distance : VectorDistance }.
Definition scored_le (a b : ScoredCandidate) : bool := distance_le (sc_distance a) (sc_distance b).

(** [MergeEntry]: the head of a list and the rest; [Reverse] turns the order around *)
Abbreviation MergeEntry := (ScoredCandidate * list ScoredCandidate)%type.
Definition reverse_cmp (a b : MergeEntry) : comparison := distance_cmp (sc_distance b.1) (sc_distance a.1).

Definition push_list (list_ : list ScoredCandidate) (heap : list MergeEntry) : list MergeEntry :=
  match list_ with first :: iter => (first, iter) :: heap | [] => heap end.

Definition vector_data_to_vector (d : VectorDataValue) : Vector :=
  mkVector (vd_external_id d) ((λ f, mkAttribute (field_name f) (attribute_of_field (field_value f))) <$> vd_fields d).

Definition apply_field_selection (results : list QueryResult) (selection : FieldSelection) : list QueryResult :=
  match selection with
  | SelAll => results
  | SelNone => (λ r, mkResult (r_score r) (mkVector (v_id (r_vector r)) [])) <$> results
  | SelFields names =>
      (λ r, mkResult (r_score r) (mkVector (v_id (r_vector r))
                                    (filter (λ a, attr_name a ∈ names) (v_attributes (r_vector r))))) <$> results
  end.

(** a task of its own: its panic is an error of the join *)
Definition spawned {A} (r : res DbError A) : res DbError A :=
  match r with Panic => Err (EInternal "task join error"%string) | _ => r end.

(** futures polled together: the first panic ends the task, errors are values *)
Fixpoint join_all {A} (futures : list (res DbError A)) : res DbError (list (DbError + A)) :=
  match futures with
  | [] => Ok []
  | f :: futures =>
      match f with
      | Panic => Panic
      | Err e => let? l := join_all futures in Ok (inl e :: l)
      | Ok a => let? l := join_all futures in Ok (inr a :: l)
      end
  end.

Section engine.
Context {HO : HashOrder} {AO : AnyOrder} {RT : RoaringTreemap} `{!FloatOps Z} (cpu : Cpu).
Context {St : Type} `{!KvStore St} (now : Z).
Context (options : QueryEngineOptions) (centroid_index : LeveledCentroidIndex) (storage : St).

Let dimensions := qe_dimensions options.

Definition engine_get (external_id : bytes) : res DbError (option Vector) :=
  let? internal_id := lookup_internal_id now storage external_id in
  match internal_id with
  | None => Ok None
  | Some internal_id =>
      let? d := get_vector_data now storage internal_id dimensions in
      Ok (vector_data_to_vector <$> d)
  end.

(** [f.powi(2)] *)
Definition square (x : Z) : Z := fmul x x.
Definition f32_le (a b : Z) : bool := match fcmp a b with Some Gt | None => false | _ => true end.
Definition partial_le (a b : VectorId * Z) : bool := match fcmp a.2 b.2 with Some Gt => false | _ => true end.

Fixpoint take_while {A} (p : A → bool) (l : list A) : list A :=
  match l with [] => [] | x :: l => if p x then x :: take_while p l else [] end.

Definition prune_centroids (centroid_ids : list Posting) (query : list Z) : res DbError (list VectorId) :=
  match query_pruning_factor options with
  | None => Ok (p_id <$> centroid_ids)
  | Some epsilon =>
      let m := qe_metric options in
      let? scored := try_map (λ p, let? v := of_encoding (posting_vector p) in
                                   let? d := of_encoding (raw_distance cpu query v m) in Ok (p_id p, d)) centroid_ids in
      let scored := sort_by partial_le scored in
      match scored with
      | [] => Ok []
      | (_, closest_dist) :: _ =>
          if match fcmp closest_dist fzero with Some Lt => true | _ => false end then Ok scored.*1
          else
            let factor := fadd fone epsilon in
            let threshold := match m with
                             | L2 | Cosine => fmul (square factor) closest_dist
                             | DotProduct => fmul factor closest_dist
                             end in
            Ok (take_while (λ s, f32_le s.2 threshold) scored).*1
      end
  end.

Definition score_posting (query : list Z) (p : Posting) : res DbError ScoredCandidate :=
  let? v := of_encoding (posting_vector p) in
  let? d := of_encoding (compute_distance cpu query v (qe_metric options)) in
  Ok (mkScored (p_id p) d).

Definition load_list (query : list Z) (cid : VectorId) : res DbError (list ScoredCandidate) :=
  spawned (
    let? value := get_posting_list now storage cid dimensions in
    let? posting_list := of_encoding (from_value value) in
    let? scored := try_map (score_posting query) posting_list in
    Ok (sort_by scored_le (any_order scored))).

Definition load_and_score (centroid_ids : list VectorId) (query : list Z) : res DbError (list (list ScoredCandidate)) :=
  let? lists := try_map (load_list query) centroid_ids in
  Ok (filter (λ l, l ≠ []) lists).

(** [while batch.len() < k - results.len()] *)
Fixpoint drain (fuel : nat) (want : nat) (heap : list MergeEntry) (seen : gset Z) (batch : list ScoredCandidate) :
    res DbError (list MergeEntry * gset Z * list ScoredCandidate) :=
  match want with
  | O => Ok (heap, seen, batch)
  | S want' =>
      match heap_pop_by reverse_cmp (any_order heap) with
      | None => Ok (heap, seen, batch)
      | Some ((candidate, iter), heap) =>
          match fuel with
          | O => Panic
          | S fuel =>
              let heap := push_list iter heap in
              if bool_decide (sc_id candidate ∈ seen) then drain fuel want heap seen batch
              else drain fuel want' heap ({[sc_id candidate]} ∪ seen) (batch ++ [candidate])
          end
      end
  end.

(** the vectors of a batch that exist, until there are [k] results; whether [k] was reached *)
Fixpoint add_loaded (k : nat) (loaded : list (ScoredCandidate * (DbError + option VectorDataValue))) (results : list QueryResult) :
    res DbError (bool * list QueryResult) :=
  match loaded with
  | [] => Ok (false, results)
  | (sr, inl e) :: _ => Err e
  | (sr, inr None) :: loaded => add_loaded k loaded results
  | (sr, inr (Some d)) :: loaded =>
      let results := results ++ [mkResult (score (sc_distance sr)) (vector_data_to_vector d)] in
      if bool_decide (length results = k) then Ok (true, results) else add_loaded k loaded results
  end.

Fixpoint resolve_loop (fuel k : nat) (heap : list MergeEntry) (seen : gset Z) (results : list QueryResult) :
    res DbError (list QueryResult) :=
  match fuel with
  | O => Panic
  | S fuel =>
      let entries := sum_list ((λ e : MergeEntry, S (length e.2)) <$> heap) in
      let? (heap, seen, batch) := drain entries (k - length results) heap seen [] in
      if bool_decide (batch = []) then Ok results
      else
        let? loaded := join_all ((λ sr, get_vector_data now storage (sc_id sr) dimensions) <$> batch) in
        let? (done_, results) := add_loaded k (zip batch loaded) results in
        if done_ then Ok results else resolve_loop fuel k heap seen results
  end.

Definition resolve_top_k (sorted_lists : list (list ScoredCandidate)) (k : nat) : res DbError (list QueryResult) :=
  let heap := foldl (λ heap l, push_list l heap) [] sorted_lists in
  resolve_loop (S (length (concat sorted_lists))) k heap ∅ [].

(** ** Filters *)
Definition index_ids_of (field : bytes) (value : AttributeValue) : res DbError (gset Z) :=
  let? bitmap := get_metadata_index now storage field (field_of_attribute value) in
  Ok (effective_vector_ids bitmap).

(** [result |= ..] over the elements *)
Fixpoint union_all {A} (f : A → res DbError (gset Z)) (xs : list A) (result : gset Z) : res DbError (gset Z) :=
  match xs with [] => Ok result | x :: xs => let? s := f x in union_all f xs (result ∪ s) end.

(** [result &= ..] over the elements *)
Fixpoint inter_all {A} (f : A → res DbError (gset Z)) (xs : list A) (result : gset Z) : res DbError (gset Z) :=
  match xs with [] => Ok result | x :: xs => let? s := f x in inter_all f xs (result ∩ s) end.

Fixpoint evaluate_filter (f : Filter) (candidates : gset Z) : res DbError (gset Z) :=
  match f with
  | FltEq field value => index_ids_of field value
  | FltNeq field value => let? s := index_ids_of field value in Ok (candidates ∖ s)
  | FltIn field values => union_all (index_ids_of field) values ∅
  | FltAnd [] => Ok candidates
  | FltAnd (f0 :: filters) =>
      let? s := evaluate_filter f0 candidates in
      inter_all (λ g, evaluate_filter g candidates) filters s
  | FltOr filters => union_all (λ g, evaluate_filter g candidates) filters ∅
  end.

Definition apply_filter (sorted_lists : list (list ScoredCandidate)) (f : Filter) : res DbError (list (list ScoredCandidate)) :=
  let candidates := list_to_set (sc_id <$> concat sorted_lists) in
  let? allowed := evaluate_filter f candidates in
  Ok (filter (λ c, sc_id c ∈ allowed) <$> sorted_lists).

(** ** Searches *)
(** from the chosen centroids on *)
Definition search_lists (query : Query) (query_vector : list Z) (centroid_ids : list VectorId) : res DbError (list QueryResult) :=
  let? sorted_lists := load_and_score centroid_ids query_vector in
  if bool_decide (sorted_lists = []) then Ok []
  else
    let? sorted_lists := match q_filter query with
                         | Some f => apply_filter sorted_lists f
                         | None => Ok sorted_lists
                         end in
    let? results := resolve_top_k sorted_lists (q_limit query) in
    Ok (apply_field_selection results (q_include_fields query)).

Definition check_dimensions (query : Query) : res DbError unit :=
  if bool_decide (length (q_vector query) = dimensions) then Ok tt
  else Err (EInvalidInput "Query dimension mismatch"%string).

Definition search_exact_nprobe (query : Query) (n : nat) : res DbError (list QueryResult) :=
  let? _ := check_dimensions query in
  let query_vector := normalize_if_needed (qe_metric options) (q_vector query) in
  let? centroid_candidates := search_centroids cpu centroid_index query_vector USIZE_MAX in
  let probed := take n centroid_candidates in
  if bool_decide (probed = []) then Ok []
  else
    let? centroid_ids := prune_centroids probed query_vector in
    search_lists query query_vector centroid_ids.

Definition search_with_options (query : Query) (opts : SearchOptions) : res DbError (list QueryResult) :=
  let n := default (Z.max 10 (Z.min 100 (Z.of_nat (q_limit query)))) (nprobe opts) in
  let? _ := check_dimensions query in
  let query_vector := normalize_if_needed (qe_metric options) (q_vector query) in
  let? centroid_candidates := search_centroids cpu centroid_index query_vector n in
  if bool_decide (centroid_candidates = []) then Ok []
  else
    let? centroid_ids := prune_centroids centroid_candidates query_vector in
    search_lists query query_vector centroid_ids.
End engine.
End VecQuery.
