(* ===== verification/VecIndexer.v ===== *)
(** * vector: the rounds of the indexer

    [write/indexer/drivers.rs], [write/indexer/tree/vector.rs], [merge.rs], [split.rs],
    [root.rs] and [mod.rs]: a round writes the vectors of a batch, merges and splits
    centroids level by level, moves vectors to their nearest centroids, grows the tree when
    the root is full, and freezes the delta.  Batches of reads finish in any order
    ([AnyOrder]); log lines and the statistics that only feed them are left out. *)
From stdpp Require Import gmap strings.
From S2P Require Import Prelude HashMap SortBy Storage KvStore VecSerde VecPosting VecMerge VecMath VecList VecSearch VecStore VecState VecKmeans VecQuery.
#[local] Open Scope Z_scope.

Module VecIndexer.
Import Vec VecPosting VecMerge VecMath VecList VecSearch VecStore VecState VecKmeans VecQuery.

(** [AsyncBatchDriver::execute]: a panic of a task is a panic; results in any order *)
Definition async_batch {AO : AnyOrder} {A} (batch : list (res DbError A)) : res DbError (list (DbError + A)) :=
  let? results := join_all batch in Ok (any_order results).

(** [for r in results { out.push(r?) }] *)
Fixpoint collect_results {A} (results : list (DbError + A)) : res DbError (list A) :=
  match results with
  | [] => Ok []
  | inl e :: _ => Err e
  | inr a :: results => let? l := collect_results results in Ok (a :: l)
  end.

Definition async_collect {AO : AnyOrder} {A} (batch : list (res DbError A)) : res DbError (list A) :=
  let? results := async_batch batch in collect_results results.

(** ** Options and writes *)
Record IndexerOpts : Type := mkOpts {
  o_dimensions : nat;
  o_metric : DistanceMetric;
  root_threshold_vectors : Z;
  merge_threshold_vectors : Z;
  split_threshold_vectors : Z;
  split_search_neighbourhood : Z;
  indexed_fields : gset bytes;
}.

Record VectorWrite : Type := mkWrite {
  external_id : bytes;
  values : list Z;
  attributes : list (bytes * AttributeValue);
}.

Record ReassignVector : Type := mkReassign {
  rv_vector_id : VectorId;
  rv_vector : list Z;
  rv_current_centroid : VectorId;
  rv_level : TreeLevel;
}.

Definition reassign_new (vector_id : VectorId) (vector : list Z) (current_centroid : VectorId) (lvl : TreeLevel) : res DbError ReassignVector :=
  let? _ := rust_assert (wrap 8 (level vector_id + 1) =? level current_centroid) in
  let? _ := rust_assert (tl_level lvl =? level current_centroid) in
  Ok (mkReassign vector_id vector current_centroid lvl).

Definition on_forward {A} (f : ForwardIndexDelta → res DbError (A * ForwardIndexDelta)) (d : VectorIndexDelta) : res DbError (A * VectorIndexDelta) :=
  let? (a, fw) := f (forward_index d) in Ok (a, mkDelta fw (search_index d)).
Definition in_forward (f : ForwardIndexDelta → res DbError ForwardIndexDelta) (d : VectorIndexDelta) : res DbError VectorIndexDelta :=
  let? fw := f (forward_index d) in Ok (mkDelta fw (search_index d)).
Definition in_search (f : SearchIndexDelta → res DbError SearchIndexDelta) (d : VectorIndexDelta) : res DbError VectorIndexDelta :=
  let? se := f (search_index d) in Ok (mkDelta (forward_index d) se).

(** the calls of [rand::thread_rng()] in an update: the split of a centroid in a round of a level (numbered from the last), and the
    split of the root; each draws afresh *)
Inductive Draw : Type := DrawSplit (lvl : TreeLevel) (rounds : nat) (c : VectorId) | DrawRoot.

Section indexer.
Context {HO : HashOrder} {AO : AnyOrder} {RT : RoaringTreemap} {FO : FloatOps Z} (cpu : Cpu) (rng : Draw → Rng).
Context {St : Type} `{!KvStore St} (now : Z) (opts : IndexerOpts).
Context (state : VectorIndexState) (snapshot : St) (snapshot_epoch : Z).

Let dims := o_dimensions opts.
Let centroid_index (d : VectorIndexDelta) := view_centroid_index now d state snapshot snapshot_epoch dims (o_metric opts).

(** ** WriteVectors *)
Definition compact_writes (updates : list VectorWrite) : list VectorWrite :=
  hash_values (insert_all ∅ ((λ w, (external_id w, w)) <$> updates)).

Definition is_indexed (a : bytes * AttributeValue) : Prop := a.1 ≠ VECTOR_FIELD_NAME ∧ a.1 ∈ indexed_fields opts.

Definition collect_indexed_fields (attributes : list (bytes * AttributeValue)) : list Field :=
  (λ a, mkField a.1 (field_of_attribute a.2)) <$> filter is_indexed attributes.

(** the first posting of each query *)
Fixpoint first_centroids (search_result : list (bytes * list Posting)) (assignments : gmap bytes VectorId) : res DbError (gmap bytes VectorId) :=
  match search_result with
  | [] => Ok assignments
  | (x, centroids) :: rest =>
      match centroids with
      | [] => Err (EInternal "no centroids found"%string)
      | c :: _ => first_centroids rest (<[x := p_id c]> assignments)
      end
  end.

Definition assign_centroids (writes : list (bytes * list Z)) (index : LeveledCentroidIndex) : res DbError (gmap bytes VectorId) :=
  let? search_result := batch_search_centroids cpu index 1 writes in
  first_centroids (hash_iter search_result) ∅.

(** the entries of the inverted indexes of a new vector *)
Definition index_attribute (vector_id : VectorId) (a : bytes * AttributeValue) (d : VectorIndexDelta) : res DbError VectorIndexDelta :=
  if decide (is_indexed a) then in_search (add_to_inverted_index a.1 (field_of_attribute a.2) vector_id) d else Ok d.

Definition add_write (centroid : VectorId) (w : VectorWrite) (d : VectorIndexDelta) : res DbError VectorIndexDelta :=
  let? (vector_id, d) := on_forward (add_vector (external_id w) (attributes w)) d in
  let? d := in_search (add_to_posting centroid vector_id (values w)) d in
  let? d := in_forward (update_vector_index_data vector_id [centroid] (collect_indexed_fields (attributes w))) d in
  for_each (index_attribute vector_id) (attributes w) d.

Definition assigned (assignments : gmap bytes VectorId) (x : bytes) : res DbError VectorId :=
  match assignments !! x with Some c => Ok c | None => Err (EInternal "missing centroid assignment"%string) end.

Definition apply_insert (assignments : gmap bytes VectorId) (w : VectorWrite) (d : VectorIndexDelta) : res DbError VectorIndexDelta :=
  let? centroid := assigned assignments (external_id w) in add_write centroid w d.

Abbreviation ResolvedUpsert := (VectorWrite * (VectorId * VectorIndexDataValue))%type.

Definition remove_old (old : VectorId) (data : VectorIndexDataValue) (d : VectorIndexDelta) : res DbError VectorIndexDelta :=
  let? d := in_forward (λ fw, Ok (delete_vector old fw)) d in
  let? d := for_each (λ c, in_search (remove_from_posting c old)) (vi_postings data) d in
  for_each (λ f, in_search (remove_from_inverted_index (field_name f) (field_value f) old)) (vi_indexed_fields data) d.

Definition apply_upsert (assignments : gmap bytes VectorId) (u : ResolvedUpsert) (d : VectorIndexDelta) : res DbError VectorIndexDelta :=
  let? centroid := assigned assignments (external_id u.1) in
  let? d := remove_old u.2.1 u.2.2 d in
  add_write centroid u.1 d.

(** the read of the old index data of an update *)
Definition resolve_upsert (d : VectorIndexDelta) (w : VectorWrite) (old : VectorId) : res DbError ResolvedUpsert :=
  let? data := view_vector_index_data now d snapshot old in
  match data with
  | Some data => Ok (w, (old, data))
  | None => Err (EInternal "missing vector index data"%string)
  end.

(** what is not in the dictionary is an insert *)
Definition split_writes (d : VectorIndexDelta) (writes : list VectorWrite) : list VectorWrite * list (VectorWrite * VectorId) :=
  (filter (λ w, view_vector_id d state (external_id w) = None) writes,
   omap (λ w, pair w <$> view_vector_id d state (external_id w)) writes).

Definition write_vectors (writes : list VectorWrite) (d : VectorIndexDelta) : res DbError (nat * nat * VectorIndexDelta) :=
  if bool_decide (writes = []) then Ok (0%nat, 0%nat, d)
  else
    let writes := compact_writes writes in
    let? index := centroid_index d in
    let '(inserts, existing) := split_writes d writes in
    let assignments := assign_centroids ((λ w, (external_id w, values w)) <$> writes) index in
    let resolved := async_batch ((λ p, resolve_upsert d p.1 p.2) <$> existing) in
    (* both are driven to the end; an error of the assignment is reported first *)
    match assignments, resolved with
    | Panic, _ | _, Panic => Panic
    | Err e, _ => Err e
    | _, Err e => Err e
    | Ok assignments, Ok resolved =>
        let? upserts := collect_results resolved in
        let? d := for_each (apply_insert assignments) inserts d in
        let? d := for_each (apply_upsert assignments) upserts d in
        Ok (length inserts, length upserts, d)
    end.

(** ** ReassignVectors *)
Abbreviation VerifiedReassignment := (ReassignVector * VectorId)%type.

(** the level of the vector, and where it was last put in this round *)
Definition refresh (d : VectorIndexDelta) (lvl : TreeLevel) (r : ReassignVector) : res DbError ReassignVector :=
  let? _ := rust_assert (wrap 8 (level (rv_vector_id r) + 1) =? tl_level lvl) in
  let? _ := rust_assert (bool_decide (rv_level r = lvl)) in
  Ok (match view_last_written_posting d (rv_vector_id r) with
      | Some p => mkReassign (rv_vector_id r) (rv_vector r) p (rv_level r)
      | None => r
      end).

(** the nearest centroid, if it is another one *)
Definition needs_move (assignments : gmap Z (list Posting)) (r : ReassignVector) : res DbError (option VerifiedReassignment) :=
  let? found := expect (assignments !! rv_vector_id r) in
  let? closest := expect (head found) in
  Ok (if p_id closest =? rv_current_centroid r then None else Some (r, p_id closest)).

Definition move_centroid (m : VerifiedReassignment * CentroidInfoValue) (d : VectorIndexDelta) : res DbError VectorIndexDelta :=
  let '((r, new_centroid), data) := m in
  let? d := in_search (remove_from_posting (rv_current_centroid r) (rv_vector_id r)) d in
  let? d := in_search (add_to_posting new_centroid (rv_vector_id r) (rv_vector r)) d in
  in_search (update_centroid (rv_vector_id r) (mkInfo (ci_level data) (ci_vector data) new_centroid)) d.

Definition execute_centroid_reassignments (reassignments : list VerifiedReassignment) (d : VectorIndexDelta) : res DbError (nat * VectorIndexDelta) :=
  let? resolved := try_map (λ m, let? data := expect (view_centroid d state (rv_vector_id m.1)) in Ok (m, data)) reassignments in
  let? d := for_each move_centroid resolved d in
  Ok (length resolved, d).

Definition move_vector (m : VerifiedReassignment * VectorIndexDataValue) (d : VectorIndexDelta) : res DbError VectorIndexDelta :=
  let '((r, new_centroid), data) := m in
  let? _ := rust_assert (length (vi_postings data) =? 1)%nat in
  let? old_centroid := expect (vi_postings data !! 0%nat) in
  let? _ := rust_assert (old_centroid =? rv_current_centroid r) in
  let? d := in_search (remove_from_posting old_centroid (rv_vector_id r)) d in
  let? d := in_search (add_to_posting new_centroid (rv_vector_id r) (rv_vector r)) d in
  in_forward (update_vector_index_data (rv_vector_id r) [new_centroid] (vi_indexed_fields data)) d.

Definition execute_vector_reassignments (reassignments : list VerifiedReassignment) (d : VectorIndexDelta) : res DbError (nat * VectorIndexDelta) :=
  let? resolved := async_collect ((λ m : VerifiedReassignment,
      let? data := view_vector_index_data now d snapshot (rv_vector_id m.1) in
      let? data := expect data in Ok (m, data)) <$> reassignments) in
  let? d := for_each move_vector resolved d in
  Ok (length resolved, d).

Definition reassign_level (lvl : TreeLevel) (reassignments : list ReassignVector) (d : VectorIndexDelta) : res DbError (nat * VectorIndexDelta) :=
  if bool_decide (reassignments = []) then Ok (0%nat, d)
  else
    let? _ := rust_assert (bool_decide (NoDup (rv_vector_id <$> reassignments))) in
    let? index := centroid_index d in
    let? reassignments := try_map (refresh d lvl) reassignments in
    let? assignments := batch_search_centroids_in_level cpu index 1 lvl ((λ r, (rv_vector_id r, rv_vector r)) <$> reassignments) in
    let? verified := try_map (needs_move assignments) reassignments in
    let verified := omap Datatypes.id verified in
    if tl_is_leaf lvl then execute_vector_reassignments verified d else execute_centroid_reassignments verified d.

(** the levels of the tree from the leaves up, the root left out *)
Fixpoint levels_from (fuel : nat) (lvl : TreeLevel) : res DbError (list TreeLevel) :=
  if tl_is_root lvl then Ok []
  else match fuel with
       | O => Panic
       | S fuel => let? up := next_level_up lvl in let? rest := levels_from fuel up in Ok (lvl :: rest)
       end.

Definition inner_levels : res DbError (list TreeLevel) :=
  let? depth := depth_of (st_centroids_meta state) in levels_from (Z.to_nat depth) (tl_leaf depth).

Fixpoint reassign_levels (levels : list TreeLevel) (reassigns : list ReassignVector) (d : VectorIndexDelta) : res DbError (nat * VectorIndexDelta) :=
  match levels with
  | [] => Ok (0%nat, d)
  | lvl :: levels =>
      let? (n, d) := reassign_level lvl (filter (λ r, rv_level r = lvl) reassigns) d in
      let? (n', d) := reassign_levels levels reassigns d in
      Ok ((n + n')%nat, d)
  end.

Definition reassign_vectors (reassigns : list ReassignVector) (d : VectorIndexDelta) : res DbError (nat * VectorIndexDelta) :=
  let? levels := inner_levels in
  let? (n, d) := reassign_levels levels reassigns d in
  let? _ := rust_assert (forallb (λ r, bool_decide (rv_level r ∈ levels)) reassigns) in
  Ok (n, d).

(** ** MergeCentroids *)
Abbreviation MergeCentroid := (VectorId * CentroidInfoValue * PostingList)%type.

(** take a centroid out of the tree: the centroid and its entry above *)
Definition detach (lvl : TreeLevel) (c : VectorId) (info : CentroidInfoValue) (d : VectorIndexDelta) : res DbError VectorIndexDelta :=
  let? d := in_search (λ se, Ok (delete_centroids [c] se)) d in
  let? up := next_level_up lvl in
  if is_centroid (ci_parent info) then
    let? _ := rust_assert (tl_level up =? level (ci_parent info)) in
    in_search (remove_from_posting (ci_parent info) c) d
  else
    let? _ := rust_assert (is_root (ci_parent info)) in
    let? _ := rust_assert (tl_is_root up) in
    in_search (remove_from_root c) d.

Definition reassign_all (c : VectorId) (lvl : TreeLevel) (postings : PostingList) : res DbError (list ReassignVector) :=
  try_map (λ p, let? v := of_encoding (posting_vector p) in reassign_new (p_id p) v c lvl) postings.

Fixpoint merge_all (lvl : TreeLevel) (resolved : list MergeCentroid) (d : VectorIndexDelta) : res DbError (list ReassignVector * VectorIndexDelta) :=
  match resolved with
  | [] => Ok ([], d)
  | (c, info, postings) :: resolved =>
      let? d := detach lvl c info d in
      let? rs := reassign_all c lvl postings in
      let? (rest, d) := merge_all lvl resolved d in
      Ok (rs ++ rest, d)
  end.

Definition merge_centroids (lvl : TreeLevel) (d : VectorIndexDelta) : res DbError (list ReassignVector * nat * VectorIndexDelta) :=
  let? counts := view_centroid_counts d state lvl in
  let to_merge := (filter (λ kv : Z * Z, kv.2 < merge_threshold_vectors opts) (hash_iter counts)).*1 in
  if bool_decide (to_merge = []) then Ok ([], 0%nat, d)
  else if bool_decide (size counts ≤ length to_merge)%nat then Ok ([], 0%nat, d)
  else
    let? to_resolve := try_map (λ c, let? info := expect (view_centroid d state c) in
        Ok (let? postings := maybe_get (view_posting_list now d state snapshot snapshot_epoch c dims) in Ok (c, info, postings))) to_merge in
    let? resolved := async_collect to_resolve in
    let? (reassignments, d) := merge_all lvl resolved d in
    Ok (reassignments, length resolved, d).

(** ** SplitCentroid *)
Record SplitPostings : Type := mkSplitPostings { centroid_vec : list Z; sp_postings : PostingList }.

Record SplitResult : Type := mkSplitResult {
  sr_c : VectorId;
  sr_info : CentroidInfoValue;
  sr_c0 : SplitPostings;
  sr_c1 : SplitPostings;
  reassign_vectors_ : list ReassignVector;
  candidates_evaluated : nat;
  candidates_returned : nat;
}.

Record SplitCentroid : Type := mkSplit {
  sc_c : VectorId;
  sc_count : Z;
  sc_info : CentroidInfoValue;
  neighbours : list VectorId;
  sc_level : TreeLevel;
}.

Definition vectors_of (postings : PostingList) : res DbError (list (VectorId * list Z)) :=
  try_map (λ p, let? v := of_encoding (posting_vector p) in Ok (p_id p, v)) postings.

(** each vector to the nearer of the two, to the first of two as near *)
Fixpoint partition_by_distance (c0 c1 : list Z) (vectors : list (VectorId * list Z)) : res DbError (PostingList * PostingList) :=
  match vectors with
  | [] => Ok ([], [])
  | (id, v) :: vectors =>
      let? d0 := of_encoding (compute_distance cpu v c0 (o_metric opts)) in
      let? d1 := of_encoding (compute_distance cpu v c1 (o_metric opts)) in
      let? (p0, p1) := partition_by_distance c0 c1 vectors in
      Ok (if distance_le d0 d1 then (posting_new id v :: p0, p1) else (p0, posting_new id v :: p1))
  end.

(** the postings that pass a heuristic, as candidates for another centroid *)
Fixpoint candidates (heuristic : list Z → res Error bool) (c : VectorId) (lvl : TreeLevel) (postings : PostingList) : res DbError (list ReassignVector) :=
  match postings with
  | [] => Ok []
  | p :: postings =>
      let? v := of_encoding (posting_vector p) in
      let? hit := of_encoding (heuristic v) in
      let? r := if hit : bool then let? r := reassign_new (p_id p) v c lvl in Ok [r] else Ok [] in
      let? rest := candidates heuristic c lvl postings in
      Ok (r ++ rest)
  end.

Definition compute_split_reassignments (s : SplitCentroid) (postings : PostingList) (c0 c1 : list Z) : res DbError (list ReassignVector) :=
  candidates (λ v, split_heuristic cpu v (ci_vector (sc_info s)) c0 c1 (o_metric opts)) (sc_c s) (sc_level s) postings.

Definition compute_neighbour_reassignments (s : SplitCentroid) (postings : gmap Z PostingList) (c0 c1 : list Z) : res DbError (list ReassignVector) :=
  let? rs := try_map (λ n, let? pl := expect (postings !! n) in
      candidates (λ v, neighbour_split_heuristic cpu v (ci_vector (sc_info s)) c0 c1 (o_metric opts)) n (sc_level s) pl) (neighbours s) in
  Ok (concat rs).

(** [None]: the clusters are imbalanced *)
Definition split_one (draw : Rng) (s : SplitCentroid) (postings : gmap Z PostingList) : res DbError (option SplitResult) :=
  let? c_postings := expect (postings !! sc_c s) in
  let? _ := rust_assert (2 <=? length c_postings)%nat in
  let? c_vectors := vectors_of c_postings in
  let? (c0, c1) := two_means cpu draw (o_metric opts) c_vectors.*2 dims in
  let? (p0, p1) := partition_by_distance c0 c1 c_vectors in
  if bool_decide (p0 = [] ∨ p1 = []) then Ok None
  else
    let evaluated := (length c_postings + sum_list (length <$> omap (λ n, postings !! n) (neighbours s)))%nat in
    let? own := compute_split_reassignments s c_postings c0 c1 in
    let? others := compute_neighbour_reassignments s postings c0 c1 in
    let rs := own ++ others in
    Ok (Some (mkSplitResult (sc_c s) (sc_info s) (mkSplitPostings c0 p0) (mkSplitPostings c1 p1) rs evaluated (length rs))).

(** ** SplitCentroids *)
Record SplitState : Type := mkSplitState {
  ss_delta : VectorIndexDelta;
  ss_reassignments : gmap Z ReassignVector;
  ss_splits : list (VectorId * list (VectorId * CentroidInfoValue));
  ss_imbalanced : list (VectorId * Z);
}.

Definition detach_split (lvl : TreeLevel) (r : SplitResult) (d : VectorIndexDelta) : res DbError VectorIndexDelta :=
  let? d := in_search (λ se, Ok (delete_centroids [sr_c r] se)) d in
  let? up := next_level_up lvl in
  if is_centroid (ci_parent (sr_info r)) then
    let? _ := rust_assert (tl_level up =? level (ci_parent (sr_info r))) in
    let? _ := rust_assert (negb (tl_is_root up)) in
    in_search (remove_from_posting (ci_parent (sr_info r)) (sr_c r)) d
  else
    let? _ := rust_assert (tl_is_root up) in
    in_search (remove_from_root (sr_c r)) d.

(** an entry of a new centroid: the posting and what points back to the centroid *)
Definition add_entry (lvl : TreeLevel) (indexed : gmap Z VectorIndexDataValue) (c_id : VectorId) (p : Posting) (d : VectorIndexDelta) : res DbError VectorIndexDelta :=
  let? v := of_encoding (posting_vector p) in
  let? d := in_search (add_to_posting c_id (p_id p) v) d in
  if tl_is_leaf lvl then
    let? data := expect (indexed !! p_id p) in
    in_forward (update_vector_index_data (p_id p) [c_id] (vi_indexed_fields data)) d
  else
    let? down := next_level_down lvl in
    let? info := of_encoding (centroid_info_new (tl_level down) v c_id) in
    in_search (update_centroid (p_id p) info) d.

(** one of the two new centroids, below the parent of the old one *)
Definition add_half (lvl : TreeLevel) (indexed : gmap Z VectorIndexDataValue) (parent : VectorId) (half : SplitPostings)
    (d : VectorIndexDelta) (reassignments : gmap Z ReassignVector) :
    res DbError ((VectorId * CentroidInfoValue) * VectorIndexDelta * gmap Z ReassignVector) :=
  let? (c_id, entry, se) := add_centroid lvl (centroid_vec half) parent (search_index d) in
  let d := mkDelta (forward_index d) se in
  let? (d, reassignments) :=
    if is_centroid parent then
      let? d := in_search (add_to_posting parent c_id (ci_vector entry)) d in
      let? up := next_level_up lvl in
      let? r := reassign_new c_id (ci_vector entry) parent up in
      Ok (d, <[c_id := r]> reassignments)
    else
      let? d := in_search (add_to_root c_id (ci_vector entry)) d in
      Ok (d, reassignments) in
  let? d := for_each (add_entry lvl indexed c_id) (sp_postings half) d in
  Ok ((c_id, entry), d, reassignments).

Definition apply_split (lvl : TreeLevel) (indexed : gmap Z VectorIndexDataValue) (task : SplitCentroid * option SplitResult) (s : SplitState) : res DbError SplitState :=
  match task.2 with
  | None => Ok (mkSplitState (ss_delta s) (ss_reassignments s) (ss_splits s) (ss_imbalanced s ++ [(sc_c task.1, sc_count task.1)]))
  | Some r =>
      let reassignments := insert_all (ss_reassignments s) ((λ v, (rv_vector_id v, v)) <$> reassign_vectors_ r) in
      let? d := detach_split lvl r (ss_delta s) in
      let? (n0, d, reassignments) := add_half lvl indexed (ci_parent (sr_info r)) (sr_c0 r) d reassignments in
      let? (n1, d, reassignments) := add_half lvl indexed (ci_parent (sr_info r)) (sr_c1 r) d reassignments in
      Ok (mkSplitState d reassignments (ss_splits s ++ [(sr_c r, [n0; n1])]) (ss_imbalanced s))
  end.

Definition count_desc (a b : Z * Z) : bool := b.2 <=? a.2.

(** the index data of every vector that moves to a new leaf *)
Definition prefetch_index_data (lvl : TreeLevel) (results : list SplitResult) (d : VectorIndexDelta) : res DbError (gmap Z VectorIndexDataValue) :=
  if tl_is_leaf lvl then
    let ids : gset Z := list_to_set (concat ((λ r, p_id <$> sp_postings (sr_c0 r) ++ sp_postings (sr_c1 r)) <$> results)) in
    let? data := async_collect ((λ v, let? x := view_vector_index_data now d snapshot v in
                                      let? x := expect x in Ok (v, x)) <$> hash_elements ids) in
    Ok (insert_all ∅ data)
  else Ok ∅.

Definition split_tasks (lvl : TreeLevel) (d : VectorIndexDelta) (to_split : list (Z * Z)) : res DbError (list SplitCentroid) :=
  let? resolved := try_map (λ cn : Z * Z, let? info := expect (view_centroid d state cn.1) in Ok (cn, info)) to_split in
  let? index := centroid_index d in
  let? near := if 0 <? split_search_neighbourhood opts
               then batch_search_centroids_in_level cpu index (split_search_neighbourhood opts + 1) lvl
                      ((λ x : Z * Z * CentroidInfoValue, (x.1.1, ci_vector x.2)) <$> resolved)
               else Ok ∅ in
  Ok ((λ x : Z * Z * CentroidInfoValue,
        mkSplit x.1.1 x.1.2 x.2 (p_id <$> default [] (near !! x.1.1)) lvl) <$> resolved).

(** splits, imbalanced, reassignments; no centroid count exceeds the cap on splits *)
Definition split_centroids (rounds : nat) (lvl : TreeLevel) (d : VectorIndexDelta) : res DbError (SplitState * list ReassignVector) :=
  let? counts := view_centroid_counts d state lvl in
  let to_split := sort_by count_desc (filter (λ kv : Z * Z, split_threshold_vectors opts ≤ kv.2) (hash_iter counts)) in
  if bool_decide (to_split = []) then Ok (mkSplitState d ∅ [] [], [])
  else
    let? splits := split_tasks lvl d to_split in
    let to_read : gset Z := list_to_set (to_split.*1 ++ concat (neighbours <$> splits)) in
    let? read := async_collect ((λ c, let? pl := maybe_get (view_posting_list now d state snapshot snapshot_epoch c dims) in Ok (c, pl)) <$> hash_elements to_read) in
    let postings := insert_all ∅ read in
    let? results := try_map (λ s, let? r := split_one (rng (DrawSplit lvl rounds (sc_c s))) s postings in Ok (s, r)) splits in
    let? indexed := prefetch_index_data lvl (omap snd results) d in
    let? s := for_each (apply_split lvl indexed) results (mkSplitState d ∅ [] []) in
    Ok (s, hash_values (ss_reassignments s)).

(** ** SplitRoot *)
(** [LeveledCentroidIndex::search_root] *)
Definition search_root (index : LeveledCentroidIndex) (query : list Z) (k : Z) : res DbError SearchResult :=
  let? lvl := next_level_down (tl_root (ix_depth index)) in
  search_in_level cpu index query k lvl (level_fuel index).

Definition adopt (d : VectorIndexDelta) (index : LeveledCentroidIndex) (new_level : TreeLevel) (p : Posting) : res DbError (VectorId * CentroidInfoValue) :=
  let? original := expect (view_centroid d state (p_id p)) in
  let? v := of_encoding (posting_vector p) in
  let? found := search_root index v 1 in
  match found with
  | Ann found =>
      let? root_c := expect (head found) in
      let? _ := rust_assert (level (p_id root_c) =? tl_level new_level) in
      Ok (p_id p, mkInfo (ci_level original) (ci_vector original) (p_id root_c))
  | ReadsRequired _ => Panic
  end.

Definition connect (e : VectorId * CentroidInfoValue) (d : VectorIndexDelta) : res DbError VectorIndexDelta :=
  let? d := in_search (add_to_posting (ci_parent e.2) e.1 (ci_vector e.2)) d in
  in_search (update_centroid e.1 e.2) d.

Definition split_root (d : VectorIndexDelta) : res DbError VectorIndexDelta :=
  if view_root_count d <? root_threshold_vectors opts then Ok d
  else
    let? postings := maybe_get (view_root_posting_list now d state snapshot snapshot_epoch dims) in
    let? root_vecs := vectors_of postings in
    let? (c0, c1) := two_means cpu (rng DrawRoot) (o_metric opts) root_vecs.*2 dims in
    let? (new_level, se) := promote_root [c0; c1] (search_index d) in
    let d := mkDelta (forward_index d) se in
    let? index := centroid_index d in
    let? updates := try_map (adopt d index new_level) postings in
    for_each connect (hash_iter (insert_all ∅ updates)) d.

(** ** Indexer *)
Definition leaf_centroid_count (cs : gmap Z CentroidInfoValue) : nat := length (filter (λ c, ci_level c = 1) (hash_values cs)).

(** [loop]: splits until none is left; the thousandth round gives up *)
Fixpoint split_rounds (rounds : nat) (lvl : TreeLevel) (d : VectorIndexDelta) : res DbError VectorIndexDelta :=
  match rounds with
  | O => Panic
  | S rounds =>
      let? (s, reassignments) := split_centroids rounds lvl d in
      if bool_decide (ss_splits s = []) then Ok (ss_delta s)
      else
        let? (_, d) := reassign_vectors reassignments (ss_delta s) in
        split_rounds rounds lvl d
  end.

Definition MAX_SPLIT_ROUNDS : nat := 1000.

Definition rebalance_level (lvl : TreeLevel) (d : VectorIndexDelta) : res DbError VectorIndexDelta :=
  let? (reassigns, _, d) := merge_centroids lvl d in
  let? (_, d) := reassign_vectors reassigns d in
  split_rounds MAX_SPLIT_ROUNDS lvl d.

(** the round on the delta *)
Definition index_round (updates : list VectorWrite) (d : VectorIndexDelta) : res DbError VectorIndexDelta :=
  let? (_, _, d) := write_vectors updates d in
  let? levels := inner_levels in
  let? d := for_each rebalance_level levels d in
  split_root d.

Record IndexUpdateResults : Type := mkUpdateResults {
  ur_ops : list RecordOp;
  ur_leaf_centroids : nat;
  ur_depth : Z;
}.

(** the new state (whose cache the results share) and the results *)
Definition update_index (updates : list VectorWrite) (update_epoch : Z) : res DbError (VectorIndexState * IndexUpdateResults) :=
  let? d := index_round updates (delta_new state) in
  let? (st, ops) := delta_freeze d update_epoch state in
  let? _ := expect (cache_root (centroid_cache st) (u_max 64)) in
  let? depth := depth_of (st_centroids_meta st) in
  Ok (st, mkUpdateResults ops (leaf_centroid_count (centroids st)) depth).
End indexer.
End VecIndexer.
