(* ===== verification/VecIndexerSpec.v ===== *)
(** * vector: splitting a centroid

    What [two_means] and [split_one] compute: the clustering ends within its rounds for
    any vectors of the right length (or panics in the draw when the summed distances of many vectors overflow), the two halves of a split are exactly the vectors
    nearer to each new centroid, and the candidates for other centroids are exactly those
    the two heuristics name. *)
From stdpp Require Import gmap.
From S2P Require Import Prelude HashMap Storage KvStore VecSerde VecPosting VecMerge VecMath VecList VecSearch VecSearchSpec VecStore VecState VecKmeans VecQuery VecIndexer.
#[local] Open Scope Z_scope.

Module VecIndexerSpec.
Import Vec VecPosting VecMerge VecMath VecList VecSearch VecSearchSpec VecStore VecState VecKmeans VecQuery VecIndexer.

(** ** Two means *)
Section two_means.
Context {FO : FloatOps Z} (cpu : Cpu) (rng : Rng) (m : DistanceMetric) (dims : nat).

Abbreviation sized := (Forall (λ v : list Z, length v = dims)).

Lemma add_into_ok (mean v : list Z) : length v = length mean → ∃ r, add_into mean v = Ok r ∧ length r = length mean.
Proof.
  revert mean. induction v as [|x v IH]; intros [|a mean] Hl; cbn [add_into]; try done; [by exists []|].
  destruct (IH mean) as (r & -> & Hr); [by injection Hl|]. cbn [res_bind]. eexists. split; [done|]. cbn. by rewrite Hr.
Qed.

Lemma add_vectors_ok vs (mean : list Z) : length mean = dims → sized vs → ∃ r, add_vectors mean vs = Ok r ∧ length r = dims.
Proof.
  revert mean. induction vs as [|v vs IH]; intros mean Hm Hv; cbn [add_vectors]; [by exists mean|].
  apply Forall_cons in Hv as [Hv Hvs]. destruct (add_into_ok mean v) as (r & -> & Hr); [congruence|]. cbn [res_bind]. apply IH; [congruence|done].
Qed.

Lemma mean_vector_ok vs : sized vs → ∃ r, mean_vector vs dims = Ok r ∧ length r = dims.
Proof.
  intros Hv. unfold mean_vector. case_bool_decide; [eexists; split; [done|apply length_replicate]|].
  destruct (add_vectors_ok vs (replicate dims fzero)) as (r & -> & Hr); [apply length_replicate|done|]. cbn [res_bind].
  eexists. split; [done|]. by rewrite length_fmap.
Qed.

Lemma recenter_ok c vs : length c = dims → sized vs → ∃ r, recenter dims c vs = Ok r ∧ length r = dims.
Proof. intros Hc Hv. unfold recenter. case_bool_decide; [by exists c|by apply mean_vector_ok]. Qed.

Lemma assign_ok c0 c1 vs : length c0 = dims → length c1 = dims → sized vs →
  assign cpu m c0 c1 vs = Ok ((λ v, distance_lt (dist cpu v m c1) (dist cpu v m c0)) <$> vs).
Proof.
  intros H0 H1 Hv. unfold assign. rewrite Forall_forall in Hv. apply try_map_ok. intros v Hin.
  by rewrite !dist_ok by (by rewrite (Hv v Hin)).
Qed.

Lemma cluster_sized side vs bs : sized vs → sized (cluster side vs bs).
Proof.
  intros Hv. unfold cluster. apply Forall_fmap, Forall_forall. intros [v b] [_ Hin]%list_elem_of_filter.
  rewrite Forall_forall in Hv. apply Hv. by eapply elem_of_zip_l.
Qed.

Lemma kmeans_loop_ok n vs prev c0 c1 : length c0 = dims → length c1 = dims → sized vs →
  ∃ r, kmeans_loop cpu n vs dims m prev c0 c1 = Ok r ∧ length r.1 = dims ∧ length r.2 = dims.
Proof.
  intros H0 H1 Hv. revert prev c0 c1 H0 H1. induction n as [|n IH]; intros prev c0 c1 H0 H1; cbn [kmeans_loop]; [by eexists|].
  rewrite (assign_ok c0 c1 vs H0 H1 Hv). cbn [res_bind]. case_bool_decide; [by eexists|]. set (bs := _ <$> vs).
  destruct (recenter_ok c0 _ H0 (cluster_sized false vs bs Hv)) as (a & -> & Ha). cbn [res_bind].
  destruct (recenter_ok c1 _ H1 (cluster_sized true vs bs Hv)) as (b & -> & Hb). cbn [res_bind]. by apply IH.
Qed.

(** both indexes of the best pair are in range *)
Lemma farthest_from_ok i v j rest (best : option VectorDistance * (nat * nat)) total : length v = dims → sized rest →
  (i < total)%nat → (j + length rest)%nat = total → (best.2.1 < total ∧ best.2.2 < total)%nat →
  ∃ b, farthest_from cpu L2 i v j rest best = Ok b ∧ (b.2.1 < total ∧ b.2.2 < total)%nat.
Proof.
  intros Hv Hr Hi. revert j best. induction rest as [|w rest IH]; intros j best Hj Hb; cbn [farthest_from]; [by exists best|].
  apply Forall_cons in Hr as [Hw Hr]. rewrite dist_ok by congruence. cbn [of_encoding res_map_err res_bind].
  apply (IH Hr); [cbn in Hj; lia|]. cbn in Hj. destruct best.1; [destruct (distance_cmp _ _); [done..|]|]; cbn; lia.
Qed.

Lemma farthest_loop_ok i vs (best : option VectorDistance * (nat * nat)) total : sized vs →
  (i + length vs)%nat = total → (best.2.1 < total ∧ best.2.2 < total)%nat →
  ∃ b, farthest_loop cpu L2 i vs best = Ok b ∧ (b.2.1 < total ∧ b.2.2 < total)%nat.
Proof.
  revert i best. induction vs as [|v vs IH]; intros i best Hv Hi Hb; cbn [farthest_loop]; [by exists best|].
  apply Forall_cons in Hv as [Hv Hvs]. cbn in Hi.
  destruct (farthest_from_ok i v (S i) vs best total Hv Hvs ltac:(lia) ltac:(lia) Hb) as (b & -> & Hb'). cbn [res_bind]. apply IH; [done|lia|done].
Qed.

Lemma choose_lt threshold cumsum i ds total : (0 < total)%nat → (i + length ds)%nat = total → (choose threshold cumsum i ds < total)%nat.
Proof.
  intros Ht. revert cumsum i. induction ds as [|d ds IH]; intros cumsum i Hi; cbn [choose]; [done|]. cbn in Hi.
  assert (choose threshold (fadd cumsum d) (S i) ds < total)%nat by (apply IH; lia).
  destruct (fcmp _ _) as [[]|]; lia.
Qed.

(** more than a hundred vectors, and the summed distances from the first one drawn are positive but allow no draw below
    them: they overflowed to infinity *)
Definition draw_fails (vs : list (list Z)) : Prop :=
  (100 < length vs)%nat ∧ ∃ a, vs !! gen_index rng (length vs) = Some a ∧
    let total := sum_f32 ((λ v, squared_l2 v a) <$> vs) in fcmp total fzero = Some Gt ∧ gen_float rng total = None.

Lemma init_ok vs : sized vs → (2 ≤ length vs)%nat → RngOk rng → ¬ draw_fails vs →
  ∃ a b, (if (length vs <=? 100)%nat then farthest_pair_init cpu vs L2 else kmeans_pp_init_l2 rng vs) = Ok (a, b) ∧
    (a < length vs ∧ b < length vs)%nat.
Proof.
  intros Hv Hn Hr Hd. destruct (Nat.leb_spec (length vs) 100).
  - unfold farthest_pair_init. destruct (farthest_loop_ok 0 vs (None, (0%nat, 1%nat)) (length vs) Hv) as (b & -> & Hb); [done|cbn; lia|].
    exists b.2.1, b.2.2. split; [|done]. cbn. by destruct b as [? []].
  - unfold kmeans_pp_init_l2. pose proof (Hr (length vs) ltac:(lia)) as Ha.
    destruct (lookup_lt_is_Some_2 vs _ Ha) as [a Hva]. rewrite Hva. cbn [expect res_bind].
    destruct (fcmp _ _) as [[]|] eqn:Hf; cbn [res_bind].
    1,2,4: do 2 eexists; (split; [done|]); split; [done|]; destruct (gen_index rng (length vs) =? 0)%nat; lia.
    destruct (gen_float _ _) as [t|] eqn:Hg; [|by destruct Hd; split; [|exists a]]. cbn [expect res_bind]. do 2 eexists. split; [done|]. split; [done|].
    apply choose_lt; [lia|]. cbn. by rewrite length_fmap.
Qed.

Lemma two_means_panics vs : draw_fails vs → two_means cpu rng m vs dims = Panic.
Proof.
  intros (Hn & a & Ha & Hf & Hg). unfold two_means. rewrite (proj2 (Nat.leb_le 2 (length vs))) by lia. cbn [rust_assert res_bind].
  rewrite (proj2 (Nat.leb_gt (length vs) 100)) by lia. unfold kmeans_pp_init_l2. rewrite Ha. cbn [expect res_bind]. by rewrite Hf, Hg.
Qed.

Lemma two_means_ok vs : sized vs → (2 ≤ length vs)%nat → RngOk rng → ¬ draw_fails vs →
  ∃ c0 c1, two_means cpu rng m vs dims = Ok (c0, c1) ∧ length c0 = dims ∧ length c1 = dims.
Proof.
  intros Hv Hn Hr Hd. unfold two_means. rewrite (proj2 (Nat.leb_le 2 (length vs)) Hn). cbn [rust_assert res_bind].
  destruct (init_ok vs Hv Hn Hr Hd) as (a & b & -> & Ha & Hb). cbn [res_bind].
  destruct (lookup_lt_is_Some_2 vs _ Ha) as [va Hva], (lookup_lt_is_Some_2 vs _ Hb) as [vb Hvb]. rewrite Hva, Hvb. cbn [expect res_bind].
  rewrite Forall_forall in Hv. destruct (kmeans_loop_ok max_iterations vs [] va vb) as ([c0 c1] & Hk & ? & ?).
  - apply Hv. by eapply list_elem_of_lookup_2.
  - apply Hv. by eapply list_elem_of_lookup_2.
  - by apply Forall_forall.
  - by exists c0, c1.
Qed.
End two_means.

(** ** A split *)
Section split.
Context {FO : FloatOps Z} (cpu : Cpu) (rng : Rng) (opts : IndexerOpts).
Let dims := o_dimensions opts.
Let m := o_metric opts.

(** entries of the right length, one level below the centroid *)
Definition list_ok (c : VectorId) (pl : PostingList) : Prop :=
  Forall in_bounds pl ∧ Forall (λ e, length e.2 = dims ∧ wrap 8 (level e.1 + 1) = level c) (entries pl).

Definition nearer_first (c0 c1 : list Z) (e : VectorId * list Z) : Prop := distance_le (dist cpu e.2 m c0) (dist cpu e.2 m c1) = true.

(** a vector of the split centroid that was at least as near to the old one as to both new ones *)
Definition lost (old c0 c1 : list Z) (e : VectorId * list Z) : Prop :=
  distance_le (dist cpu e.2 m old) (dist cpu e.2 m c0) && distance_le (dist cpu e.2 m old) (dist cpu e.2 m c1) = true.

(** a vector of a neighbour for which one of the new ones is at least as near as the old one was *)
Definition attracted (old c0 c1 : list Z) (e : VectorId * list Z) : Prop :=
  distance_le (dist cpu e.2 m c0) (dist cpu e.2 m old) || distance_le (dist cpu e.2 m c1) (dist cpu e.2 m old) = true.

#[local] Instance nearer_first_dec c0 c1 e : Decision (nearer_first c0 c1 e).
Proof. unfold nearer_first. apply _. Defined.
#[local] Instance lost_dec old c0 c1 e : Decision (lost old c0 c1 e).
Proof. unfold lost. apply _. Defined.
#[local] Instance attracted_dec old c0 c1 e : Decision (attracted old c0 c1 e).
Proof. unfold attracted. apply _. Defined.

Lemma vectors_of_ok pl : Forall in_bounds pl → vectors_of pl = Ok (entries pl).
Proof.
  intros Hb. unfold vectors_of, entries. rewrite Forall_forall in Hb. apply try_map_ok. intros p Hp.
  by rewrite posting_vector_ok by by apply Hb.
Qed.

Lemma partition_ok c0 c1 vs : length c0 = dims → length c1 = dims → Forall (λ e : VectorId * list Z, length e.2 = dims) vs →
  ∃ p0 p1, partition_by_distance cpu opts c0 c1 vs = Ok (p0, p1) ∧
    entries p0 = filter (nearer_first c0 c1) vs ∧ entries p1 = filter (λ e, ¬ nearer_first c0 c1 e) vs.
Proof.
  intros H0 H1. induction vs as [|[id v] vs IH]; intros Hv; cbn [partition_by_distance]; [by exists [], []|].
  apply Forall_cons in Hv as [Hv Hvs]. cbn [snd] in Hv. destruct (IH Hvs) as (p0 & p1 & -> & E0 & E1).
  rewrite !dist_ok by congruence. cbn [of_encoding res_map_err res_bind].
  assert (He : ∀ p, entries (posting_new id v :: p) = (id, v) :: entries p).
  { intros p. unfold entries. cbn. unfold entry_of. cbn. by rewrite drop_0, firstn_all. }
  rewrite !filter_cons. fold m. destruct (decide (nearer_first c0 c1 (id, v))) as [Hn|Hn].
  - rewrite decide_False by tauto. unfold nearer_first in Hn. cbn [snd] in Hn. rewrite Hn. do 2 eexists. split; [done|]. by rewrite He, E0, E1.
  - rewrite decide_True by done. unfold nearer_first in Hn. cbn [snd] in Hn. apply not_true_is_false in Hn. rewrite Hn.
    do 2 eexists. split; [done|]. by rewrite He, E0, E1.
Qed.

Lemma candidates_ok (h : list Z → res Error bool) (P : VectorId * list Z → Prop) `{∀ e, Decision (P e)} c lvl pl :
  list_ok c pl → level c = tl_level lvl → (∀ e, length e.2 = dims → h e.2 = Ok (bool_decide (P e))) →
  candidates h c lvl pl = Ok ((λ e, mkReassign e.1 e.2 c lvl) <$> filter P (entries pl)).
Proof.
  intros [Hb He] Hl Hh. induction pl as [|p pl IH]; [done|]. cbn [candidates]. unfold entries in He. rewrite fmap_cons in He.
  apply Forall_cons in Hb as [Hb Hbs]. apply Forall_cons in He as [[Hp Hlv] Hes]. rewrite posting_vector_ok by done. cbn [of_encoding res_map_err res_bind].
  rewrite (Hh (entry_of p) Hp), (IH Hbs Hes). cbn [of_encoding res_map_err res_bind]. unfold entries. rewrite fmap_cons, filter_cons.
  case_bool_decide as Hd; [rewrite decide_True by done|by rewrite decide_False].
  unfold reassign_new. cbn [entry_of fst] in Hlv. rewrite Hlv, <-Hl, !Z.eqb_refl. done.
Qed.

Lemma heuristics_ok old c0 c1 e : length old = dims → length c0 = dims → length c1 = dims → length e.2 = dims →
  split_heuristic cpu e.2 old c0 c1 m = Ok (bool_decide (lost old c0 c1 e)) ∧
  neighbour_split_heuristic cpu e.2 old c0 c1 m = Ok (bool_decide (attracted old c0 c1 e)).
Proof.
  intros Ho H0 H1 He. unfold split_heuristic, neighbour_split_heuristic, lost, attracted. rewrite !dist_ok by congruence. cbn [res_bind].
  assert (Hb : ∀ b : bool, b = bool_decide (b = true)) by (by intros []). split; f_equal; apply Hb.
Qed.

(** what a split looks at *)
Record SplitReady (s : SplitCentroid) (postings : gmap Z PostingList) (pl : PostingList) : Prop := mkReady {
  rd_own : postings !! sc_c s = Some pl;
  rd_two : (2 ≤ length pl)%nat;
  rd_old : length (ci_vector (sc_info s)) = dims;
  rd_lists n : n = sc_c s ∨ n ∈ neighbours s → level n = tl_level (sc_level s) ∧ ∃ pl', postings !! n = Some pl' ∧ list_ok n pl';
  rd_rng : RngOk rng;
}.

Lemma own_ok s postings pl c0 c1 : SplitReady s postings pl → length c0 = dims → length c1 = dims →
  compute_split_reassignments cpu opts s pl c0 c1 =
    Ok ((λ e, mkReassign e.1 e.2 (sc_c s) (sc_level s)) <$> filter (lost (ci_vector (sc_info s)) c0 c1) (entries pl)).
Proof.
  intros Hr H0 H1. destruct (rd_lists _ _ _ Hr (sc_c s) ltac:(by left)) as (Hl & pl' & Hpl & Hok).
  rewrite (rd_own _ _ _ Hr) in Hpl. injection Hpl as <-. apply candidates_ok; [done..|].
  intros e He. by apply heuristics_ok; [apply (rd_old _ _ _ Hr)|..].
Qed.

Lemma others_ok s postings pl c0 c1 : SplitReady s postings pl → length c0 = dims → length c1 = dims →
  compute_neighbour_reassignments cpu opts s postings c0 c1 =
    Ok (concat ((λ n, (λ e, mkReassign e.1 e.2 n (sc_level s)) <$>
      filter (attracted (ci_vector (sc_info s)) c0 c1) (entries (default [] (postings !! n)))) <$> neighbours s)).
Proof.
  intros Hr H0 H1. unfold compute_neighbour_reassignments.
  rewrite (try_map_ok _ (λ n, (λ e, mkReassign e.1 e.2 n (sc_level s)) <$>
      filter (attracted (ci_vector (sc_info s)) c0 c1) (entries (default [] (postings !! n))))); [done|].
  intros n Hn. destruct (rd_lists _ _ _ Hr n ltac:(by right)) as (Hl & pl' & -> & Hok). cbn [expect res_bind default from_option].
  apply candidates_ok; [done..|]. intros e He. by apply heuristics_ok; [apply (rd_old _ _ _ Hr)|..].
Qed.

(** the candidates of a split *)
Definition split_candidates (s : SplitCentroid) (postings : gmap Z PostingList) (pl : PostingList) (c0 c1 : list Z) : list ReassignVector :=
  ((λ e, mkReassign e.1 e.2 (sc_c s) (sc_level s)) <$> filter (lost (ci_vector (sc_info s)) c0 c1) (entries pl)) ++
  concat ((λ n, (λ e, mkReassign e.1 e.2 n (sc_level s)) <$>
    filter (attracted (ci_vector (sc_info s)) c0 c1) (entries (default [] (postings !! n)))) <$> neighbours s).

Lemma split_one_ok s postings pl c0 c1 p0 p1 : SplitReady s postings pl →
  two_means cpu rng m (entries pl).*2 dims = Ok (c0, c1) → length c0 = dims → length c1 = dims →
  partition_by_distance cpu opts c0 c1 (entries pl) = Ok (p0, p1) →
  ∃ ev, split_one cpu opts rng s postings =
    if bool_decide (p0 = [] ∨ p1 = []) then Ok None
    else Ok (Some (mkSplitResult (sc_c s) (sc_info s) (mkSplitPostings c0 p0) (mkSplitPostings c1 p1) (split_candidates s postings pl c0 c1) ev
                     (length (split_candidates s postings pl c0 c1)))).
Proof.
  intros Hr Htm H0 H1 Hpart. destruct (rd_lists _ _ _ Hr (sc_c s) ltac:(by left)) as (_ & pl' & Hpl & Hb & _).
  rewrite (rd_own _ _ _ Hr) in Hpl. injection Hpl as <-. eexists.
  unfold split_one. rewrite (rd_own _ _ _ Hr). cbn [expect res_bind]. rewrite (proj2 (Nat.leb_le 2 _) (rd_two _ _ _ Hr)). cbn [rust_assert res_bind].
  rewrite vectors_of_ok by done. cbn [res_bind]. fold m dims. rewrite Htm. cbn [res_bind]. rewrite Hpart. cbn [res_bind].
  rewrite (own_ok s postings pl c0 c1 Hr H0 H1), (others_ok s postings pl c0 c1 Hr H0 H1). cbn [res_bind]. reflexivity.
Qed.

Lemma elem_of_candidates s postings pl c0 c1 rv : SplitReady s postings pl →
  rv ∈ split_candidates s postings pl c0 c1 ↔ ∃ n pl' e, postings !! n = Some pl' ∧ e ∈ entries pl' ∧ rv = mkReassign e.1 e.2 n (sc_level s) ∧
    (n = sc_c s ∧ lost (ci_vector (sc_info s)) c0 c1 e ∨ n ∈ neighbours s ∧ attracted (ci_vector (sc_info s)) c0 c1 e).
Proof.
  intros Hr. unfold split_candidates. rewrite elem_of_app, list_elem_of_fmap, elem_of_concat. split.
  - intros [(e & -> & [Hlost He]%list_elem_of_filter)|(l & Hrv & (n & -> & Hn)%list_elem_of_fmap)].
    + exists (sc_c s), pl, e. split_and!; [apply Hr|done..|by left].
    + apply list_elem_of_fmap in Hrv as (e & -> & [Hat He]%list_elem_of_filter).
      destruct (rd_lists _ _ _ Hr n ltac:(by right)) as (_ & pl' & Hpl' & _). rewrite Hpl' in He. exists n, pl', e. split_and!; [done..|by right].
  - intros (n & pl' & e & Hpl' & He & -> & [[-> Hlost]|[Hn Hat]]).
    + left. rewrite (rd_own _ _ _ Hr) in Hpl'. injection Hpl' as <-. exists e. split; [done|]. by apply list_elem_of_filter.
    + right. eexists. split; [|apply list_elem_of_fmap; by exists n]. apply list_elem_of_fmap. exists e. split; [done|].
      apply list_elem_of_filter. by rewrite Hpl'.
Qed.

(** C21: Splitting a full centroid puts every vector of it below exactly one of the two new
    centroids, the nearer one.  Clustering ends with two centroids of the right length, whatever the
    vectors (duplicates, NaNs and infinities included), unless there are more than a hundred
    and the summed squared distances from the vector drawn first overflow: then it panics.  If all vectors are nearer to the
    same one, nothing is split.  Otherwise the first half is the vectors at least as near
    to the first, the second half the others, both in the old order; and the vectors that
    go on to a search for a nearer centroid are exactly those of the two heuristics:
    vectors of the old centroid that were at least as near to it as to both new ones, and
    vectors of neighbours for which a new one is at least as near as the old one was. *)
Theorem split_partitions s postings pl :
  SplitReady s postings pl →
  (draw_fails rng (entries pl).*2 → split_one cpu opts rng s postings = Panic) ∧
  (¬ draw_fails rng (entries pl).*2 →
   ∃ c0 c1 r, two_means cpu rng m (entries pl).*2 dims = Ok (c0, c1) ∧ length c0 = dims ∧ length c1 = dims ∧
    split_one cpu opts rng s postings = Ok r ∧
    let first := filter (nearer_first c0 c1) (entries pl) in
    let second := filter (λ e, ¬ nearer_first c0 c1 e) (entries pl) in
    match r with
    | None => first = [] ∨ second = []
    | Some r => first ≠ [] ∧ second ≠ [] ∧ sr_c r = sc_c s ∧ sr_info r = sc_info s ∧
        centroid_vec (sr_c0 r) = c0 ∧ centroid_vec (sr_c1 r) = c1 ∧
        entries (sp_postings (sr_c0 r)) = first ∧ entries (sp_postings (sr_c1 r)) = second ∧
        ∀ rv, rv ∈ reassign_vectors_ r ↔ ∃ n pl' e, postings !! n = Some pl' ∧ e ∈ entries pl' ∧ rv = mkReassign e.1 e.2 n (sc_level s) ∧
          (n = sc_c s ∧ lost (ci_vector (sc_info s)) c0 c1 e ∨ n ∈ neighbours s ∧ attracted (ci_vector (sc_info s)) c0 c1 e)
    end).
Proof.
  intros Hr. destruct (rd_lists _ _ _ Hr (sc_c s) ltac:(by left)) as (_ & pl' & Hpl & Hb & Hsz).
  rewrite (rd_own _ _ _ Hr) in Hpl. injection Hpl as <-. split.
  { intros Hf. unfold split_one. rewrite (rd_own _ _ _ Hr). cbn [expect res_bind]. rewrite (proj2 (Nat.leb_le 2 _) (rd_two _ _ _ Hr)). cbn [rust_assert res_bind].
    rewrite vectors_of_ok by done. cbn [res_bind]. fold m dims. by rewrite two_means_panics. }
  intros Hnf.
  assert (Hlen : length (entries pl) = length pl) by apply length_fmap.
  destruct (two_means_ok cpu rng m dims (entries pl).*2) as (c0 & c1 & Htm & H0 & H1).
  { apply Forall_fmap. by eapply Forall_impl; [exact Hsz|]; intros e []. }
  { rewrite length_fmap, Hlen. apply (rd_two _ _ _ Hr). }
  { apply (rd_rng _ _ _ Hr). }
  { exact Hnf. }
  destruct (partition_ok c0 c1 (entries pl) H0 H1) as (p0 & p1 & Hpart & E0 & E1).
  { by eapply Forall_impl; [exact Hsz|]; intros e []. }
  assert (Hnil : ∀ p, entries p = [] ↔ p = []) by (intros p; split; [apply fmap_nil_inv|by intros ->]).
  destruct (split_one_ok s postings pl c0 c1 p0 p1 Hr Htm H0 H1 Hpart) as (ev & Hone). exists c0, c1. case_bool_decide as Hc.
  - exists None. split_and!; try done. cbv zeta. rewrite <-E0, <-E1, !Hnil. done.
  - eexists. split_and!; [done..|exact Hone|]. cbv zeta. cbn [sr_c sr_info sr_c0 sr_c1 centroid_vec sp_postings reassign_vectors_].
    rewrite <-E0, <-E1, !Hnil. split_and!; [tauto|tauto|done..|]. intros rv. by apply elem_of_candidates.
Qed.
End split.

(** ** A split of three vectors *)
Module Demo.
Definition one : Z := 0x3f800000.
Definition leaf : VectorId := 2 ^ 56 + 1.
Definition beside : VectorId := 2 ^ 56 + 2.
Definition opts : IndexerOpts := mkOpts 2 L2 100 1 3 4 ∅.
Definition own : PostingList := [posting_new 1 [0; 0]; posting_new 2 [one; one]; posting_new 3 [0; one]].
Definition next_to : PostingList := [posting_new 4 [one; 0]].
Definition lists : gmap Z PostingList := {[leaf := own; beside := next_to]}.
Definition task : SplitCentroid := mkSplit leaf 3 (mkInfo 1 [0; 0] ROOT_VECTOR_ID) [beside] (Inner 1 3).
Definition rng : Rng := mkRng (λ _, 0%nat) (λ _, None).

Lemma task_ready : SplitReady rng opts task lists own.
Proof.
  split; [by vm_compute|cbn; lia|done| |intros n Hn; exact Hn].
  intros n Hn. assert (Hc : n = leaf ∨ n = beside) by (destruct Hn as [-> | ->%list_elem_of_singleton]; auto).
  destruct Hc as [-> | ->]; (split; [by vm_compute|]).
  - exists own. split; [by vm_compute|]. split; [by repeat constructor|]. repeat (apply Forall_cons_2; [by vm_compute|]). constructor.
  - exists next_to. split; [by vm_compute|]. split; [by repeat constructor|]. repeat (apply Forall_cons_2; [by vm_compute|]). constructor.
Qed.

(** a hundred zeros and a vector whose square overflows *)
Example draw_overflow :
  draw_fails (mkRng (λ _, 0%nat) (λ t, if t =? 0x7f800000 then None else Some 0)) (replicate 100 [0; 0] ++ [[0x7f000000; 0]]).
Proof. split; [by vm_compute|]. exists [0; 0]. split; [done|]. by vm_compute. Qed.

Lemma split_partitions_witness :
  ∃ r, split_one (mkCpu false false false) opts rng task lists = Ok (Some r) ∧ entries (sp_postings (sr_c0 r)) = [(1, [0; 0]); (3, [0; one])] ∧
    entries (sp_postings (sr_c1 r)) = [(2, [one; one])] ∧ mkReassign 4 [one; 0] beside (Inner 1 3) ∈ reassign_vectors_ r.
Proof.
  destruct (split_partitions (mkCpu false false false) rng opts task lists own task_ready) as [_ Hgo].
  destruct Hgo as (c0 & c1 & r & Hc & _ & _ & Hr & Hm); [intros [Hn _]; cbn in Hn; lia|].
  assert (Hcs : (c0, c1) = match two_means (mkCpu false false false) rng L2 (entries own).*2 2 with Ok cs => cs | _ => ([], []) end)
    by (change (o_metric opts) with L2 in Hc; change (o_dimensions opts) with 2%nat in Hc; by rewrite Hc).
  clear Hc. vm_compute in Hcs. injection Hcs as -> ->. destruct r as [r|]; cbv zeta in Hm.
  - destruct Hm as (_ & _ & _ & _ & _ & _ & H0 & H1 & Hrv). exists r. split; [exact Hr|]. split; [rewrite H0; by vm_compute|].
    split; [rewrite H1; by vm_compute|]. apply Hrv. exists beside, next_to, (4, [one; 0]). split_and!; [by vm_compute|left|done|].
    right. split; [left|by vm_compute].
  - exfalso. destruct Hm as [Hm|Hm]; by vm_compute in Hm.
Defined.
End Demo.
End VecIndexerSpec.
