(* ===== verification/VecQuerySpec.v ===== *)
(** * vector: what a search returns

    [evaluate_filter] is the boolean meaning of a filter over the inverted indexes, the
    k-way merge of [resolve_top_k] yields the nearest vectors that exist, and a search over
    stored posting lists returns the nearest matching ones. *)
From stdpp Require Import gmap strings sorting.
From S2P Require Import Prelude HashMap Heap SortBy Storage KvStore VecSerde VecPosting VecMerge VecMath VecList VecSearch VecStore VecQuery.
From S2P Require Import VecSearchSpec VecState VecStateSpec VecCommit.
#[local] Open Scope Z_scope.

Module VecQuerySpec.
Import Vec VecPosting VecMerge VecMath VecList VecSearch VecStore VecQuery VecSearchSpec VecState VecStateSpec VecCommit.

(** ** The meaning of a filter *)
(** [has field value]: the vector is in the index of the field and value *)
Fixpoint matches (has : bytes → AttributeValue → bool) (f : Filter) : bool :=
  match f with
  | FltEq field value => has field value
  | FltNeq field value => negb (has field value)
  | FltIn field values => existsb (has field) values
  | FltAnd filters => forallb (matches has) filters
  | FltOr filters => existsb (matches has) filters
  end.

(** the fields and values that a filter looks up *)
Fixpoint mentions (f : Filter) : list (bytes * AttributeValue) :=
  match f with
  | FltEq field value | FltNeq field value => [(field, value)]
  | FltIn field values => pair field <$> values
  | FltAnd filters | FltOr filters => concat (mentions <$> filters)
  end.

(** induction with the hypothesis for every subfilter of a list *)
Lemma filter_ind_all (P : Filter → Prop) :
  (∀ field value, P (FltEq field value)) → (∀ field value, P (FltNeq field value)) →
  (∀ field values, P (FltIn field values)) →
  (∀ filters, Forall P filters → P (FltAnd filters)) → (∀ filters, Forall P filters → P (FltOr filters)) → ∀ f, P f.
Proof.
  intros H1 H2 H3 H4 H5. fix IH 1. intros [field value|field value|field values|filters|filters]; [done|done|done|apply H4|apply H5];
    induction filters as [|f filters IHl]; constructor; done.
Qed.

Section filters.
Context {RT : RoaringTreemap} {St : Type} `{!KvStore St} (now : Z) (storage : St).
Context (ids : bytes → AttributeValue → gset Z).

Definition member (id : Z) (field : bytes) (value : AttributeValue) : bool := bool_decide (id ∈ ids field value).

(** the indexes that the filter looks up can be read *)
Definition Readable (f : Filter) : Prop :=
  ∀ field value, (field, value) ∈ mentions f → index_ids_of now storage field value = Ok (ids field value).

(** a set answers for the candidates *)
Definition Decides (candidates : gset Z) (s : gset Z) (p : Z → bool) : Prop := ∀ id, id ∈ candidates → id ∈ s ↔ p id = true.

Lemma union_all_decides {A} (g : A → res DbError (gset Z)) (p : A → Z → bool) candidates xs s0 p0 :
  Decides candidates s0 p0 → (∀ x, x ∈ xs → ∃ s, g x = Ok s ∧ Decides candidates s (p x)) →
  ∃ s, union_all g xs s0 = Ok s ∧ Decides candidates s (λ id, p0 id || existsb (λ x, p x id) xs).
Proof.
  revert s0 p0. induction xs as [|x xs IH]; intros s0 p0 H0 Hg; cbn [union_all existsb].
  - exists s0. split; [done|]. intros id Hid. rewrite orb_false_r. by apply H0.
  - destruct (Hg x ltac:(left)) as (s & -> & Hs). cbn [res_bind].
    destruct (IH (s0 ∪ s) (λ id, p0 id || p x id)) as (s' & H1 & H2).
    { intros id Hid. rewrite elem_of_union, orb_true_iff, (H0 id Hid), (Hs id Hid). done. }
    { intros y Hy. apply Hg. by right. }
    exists s'. split; [done|]. intros id Hid. rewrite (H2 id Hid), orb_assoc. done.
Qed.

Lemma inter_all_decides {A} (g : A → res DbError (gset Z)) (p : A → Z → bool) candidates xs s0 p0 :
  Decides candidates s0 p0 → (∀ x, x ∈ xs → ∃ s, g x = Ok s ∧ Decides candidates s (p x)) →
  ∃ s, inter_all g xs s0 = Ok s ∧ Decides candidates s (λ id, p0 id && forallb (λ x, p x id) xs).
Proof.
  revert s0 p0. induction xs as [|x xs IH]; intros s0 p0 H0 Hg; cbn [inter_all forallb].
  - exists s0. split; [done|]. intros id Hid. rewrite andb_true_r. by apply H0.
  - destruct (Hg x ltac:(left)) as (s & -> & Hs). cbn [res_bind].
    destruct (IH (s0 ∩ s) (λ id, p0 id && p x id)) as (s' & H1 & H2).
    { intros id Hid. rewrite elem_of_intersection, andb_true_iff, (H0 id Hid), (Hs id Hid). done. }
    { intros y Hy. apply Hg. by right. }
    exists s'. split; [done|]. intros id Hid. rewrite (H2 id Hid), andb_assoc. done.
Qed.

Lemma readable_sub f filters :
  Readable (FltAnd filters) → f ∈ filters → Readable f.
Proof.
  intros Hr Hf field value Hin. apply Hr. cbn [mentions]. apply list_elem_of_In, in_concat. exists (mentions f).
  split; [apply list_elem_of_In; by apply list_elem_of_fmap_2|by apply list_elem_of_In].
Qed.

Lemma evaluate_filter_spec f candidates :
  Readable f → ∃ s, evaluate_filter now storage f candidates = Ok s ∧ Decides candidates s (λ id, matches (member id) f).
Proof.
  assert (Hone : ∀ field value, index_ids_of now storage field value = Ok (ids field value) →
    ∃ s, index_ids_of now storage field value = Ok s ∧ Decides candidates s (λ id, member id field value)).
  { intros field value ->. eexists. split; [done|]. intros id _. unfold member. by rewrite bool_decide_eq_true. }
  induction f as [field value|field value|field values|filters IH|filters IH] using filter_ind_all; intros Hr; cbn [evaluate_filter matches].
  - apply Hone, Hr. left.
  - rewrite (Hr field value) by left. cbn [res_bind]. eexists. split; [done|]. intros id Hid. unfold member.
    rewrite elem_of_difference, negb_true_iff, bool_decide_eq_false. tauto.
  - apply (union_all_decides (index_ids_of now storage field) (λ value id, member id field value) candidates values ∅ (λ _, false)).
    + intros id _. split; [by intros ?%not_elem_of_empty|done].
    + intros value Hv. apply Hone, Hr. by apply list_elem_of_fmap_2.
  - rewrite Forall_forall in IH. destruct filters as [|f0 filters].
    + eexists. split; [done|]. done.
    + destruct (IH f0 ltac:(left)) as (s & -> & Hs); [eapply readable_sub; [exact Hr|left]|]. cbn [res_bind forallb].
      apply (inter_all_decides _ (λ f id, matches (member id) f)); [done|]. intros f Hf. apply IH; [by right|].
      eapply readable_sub; [exact Hr|by right].
  - rewrite Forall_forall in IH.
    apply (union_all_decides _ (λ f id, matches (member id) f) candidates filters ∅ (λ _, false)).
    + intros id _. split; [by intros ?%not_elem_of_empty|done].
    + intros f Hf. apply IH; [done|]. by eapply readable_sub.
Qed.

Lemma filter_agree {A} (P Q : A → Prop) `{!∀ x, Decision (P x)} `{!∀ x, Decision (Q x)} (l : list A) :
  (∀ x, x ∈ l → P x ↔ Q x) → filter P l = filter Q l.
Proof.
  induction l as [|x l IH]; intros Hpq; [done|]. rewrite !filter_cons, IH by (intros y Hy; apply Hpq; by right).
  pose proof (Hpq x ltac:(left)). destruct (decide (P x)), (decide (Q x)); tauto.
Qed.

Lemma apply_filter_spec f lists :
  Readable f →
  apply_filter now storage lists f = Ok (filter (λ c, matches (member (sc_id c)) f = true) <$> lists).
Proof.
  intros Hr. unfold apply_filter. destruct (evaluate_filter_spec f (list_to_set (sc_id <$> concat lists)) Hr) as (s & -> & Hs).
  cbn [res_bind]. f_equal. apply list_fmap_ext. intros i l Hl. apply filter_agree. intros c Hc. apply Hs.
  apply elem_of_list_to_set, list_elem_of_fmap_2, list_elem_of_In, in_concat. exists l.
  split; apply list_elem_of_In; [by eapply list_elem_of_lookup_2|done].
Qed.

(** C23: A metadata filter keeps exactly the candidates it describes.  If the indexes it
    looks up can be read, [apply_filter] keeps the candidates whose ids satisfy the boolean
    meaning of the filter over the index entries: equality, its negation relative to the
    candidates, membership, conjunction (the empty one keeps all) and disjunction, nested
    in any way, and leaves the order of every list as it was.  A filter that compares a
    field with a vector has no index key and panics the query. *)
Theorem filter_exact f lists :
  Readable f →
  apply_filter now storage lists f = Ok (filter (λ c, matches (member (sc_id c)) f = true) <$> lists) ∧
  ∀ field v, apply_filter now storage lists (FltEq field (AVector v)) = Panic.
Proof. intros Hr. split; [by apply apply_filter_spec|done]. Qed.
End filters.

(** ** The k-way merge *)
Section merge.
Context {AO : AnyOrder} {AOL : AnyOrderLaws} (m : DistanceMetric).

Abbreviation le a b := (scored_le a b = true).
Definition same_metric (c : ScoredCandidate) : Prop := metric (sc_distance c) = m.

Lemma le_refl c : le c c.
Proof. unfold scored_le, distance_le. by rewrite distance_cmp_refl. Qed.

Lemma scored_le_spec a b : le a b ↔ distance_cmp (sc_distance a) (sc_distance b) ≠ Gt.
Proof. unfold scored_le, distance_le. by destruct (distance_cmp _ _). Qed.

Lemma distance_cmp_le a b : metric a = m → metric b = m →
  distance_cmp a b ≠ Gt ↔ match m with DotProduct => total_key (score b) ≤ total_key (score a) | _ => total_key (score a) ≤ total_key (score b) end.
Proof. intros Ha Hb. unfold distance_cmp, total_cmp. rewrite Ha. by destruct m. Qed.

Lemma le_trans a b c : same_metric a → same_metric b → same_metric c → le a b → le b c → le a c.
Proof. unfold same_metric. intros Ha Hb Hc. rewrite !scored_le_spec, !distance_cmp_le by done. destruct m; lia. Qed.

(** what is left in the heap *)
Definition remaining (heap : list MergeEntry) : list ScoredCandidate := concat ((λ e : MergeEntry, e.1 :: e.2) <$> heap).

Definition entry_ok (e : MergeEntry) : Prop :=
  Forall same_metric (e.1 :: e.2) ∧ StronglySorted (λ a b, le a b) (e.1 :: e.2).

#[local] Instance remaining_perm : Proper ((≡ₚ) ==> (≡ₚ)) remaining.
Proof. intros h h' H. unfold remaining. by rewrite H. Qed.

Lemma remaining_push l h : remaining (push_list l h) = l ++ remaining h.
Proof. by destruct l. Qed.

Lemma remaining_length h : sum_list ((λ e : MergeEntry, S (length e.2)) <$> h) = length (remaining h).
Proof. unfold remaining. rewrite length_concat, <-list_fmap_compose. done. Qed.

(** the popped candidate is a nearest one *)
Lemma pop_min heap : Forall entry_ok heap →
  match heap_pop_by reverse_cmp (any_order heap) with
  | None => heap = []
  | Some ((c, iter), heap') =>
      remaining heap ≡ₚ c :: iter ++ remaining heap' ∧ Forall entry_ok (push_list iter heap') ∧
      same_metric c ∧ Forall (λ x, le c x) (iter ++ remaining heap')
  end.
Proof.
  intros Hok. rewrite <-(any_order_perm heap) in Hok. pose proof (heap_pop_perm reverse_cmp (any_order heap)) as Hp.
  destruct (heap_pop_by reverse_cmp (any_order heap)) as [[[c iter] heap']|] eqn:E.
  - pose proof (heap_pop_max reverse_cmp entry_ok) as Hmax. specialize (λ a b, Hmax a b (any_order heap) (c, iter) heap' Hok E).
    assert (Hmax' : Forall (λ e, reverse_cmp e (c, iter) ≠ Gt) heap').
    { apply Hmax.
      - intros a b [Ha _]%proj1%Forall_cons [Hb _]%proj1%Forall_cons. apply distance_cmp_antisym. unfold same_metric in *. congruence.
      - intros a b d [Ha _]%proj1%Forall_cons [Hb _]%proj1%Forall_cons [Hd _]%proj1%Forall_cons. unfold reverse_cmp.
        rewrite !distance_cmp_le by done. destruct m; lia. }
    rewrite Hp in Hok. apply Forall_cons in Hok as [[Hc Hs] Hok]. cbn [fst snd] in Hc, Hs.
    apply Forall_cons in Hc as [Hc Hi]. apply StronglySorted_inv in Hs as [Hs Hle].
    split_and!.
    + by rewrite <-(any_order_perm heap), Hp.
    + destruct iter as [|x iter]; [done|]. constructor; [|done]. by split.
    + done.
    + apply Forall_app. split; [done|]. unfold remaining. apply Forall_concat, Forall_fmap. rewrite Forall_forall in Hmax', Hok.
      apply Forall_forall. intros e He. specialize (Hmax' e He). destruct (Hok e He) as [Hm Hse].
      apply Forall_cons in Hm as [He1 Hm]. apply StronglySorted_inv in Hse as [_ Hse]. cbn.
      assert (Hce : le c e.1) by (by apply scored_le_spec). constructor; [done|].
      rewrite Forall_forall in Hm, Hse. apply Forall_forall. intros x Hx.
      apply (le_trans c e.1 x); [done|done|by apply Hm|done|by apply Hse].
  - pose proof (any_order_perm heap) as Hh. rewrite Hp in Hh. by apply Permutation_nil in Hh.
Qed.

(** [D]: the candidates taken so far, first occurrences in order *)
Record Taken (all D : list ScoredCandidate) (heap : list MergeEntry) (seen : gset Z) : Prop := mkTaken {
  tk_sorted : StronglySorted (λ a b, le a b) D;
  tk_below x y : x ∈ D → y ∈ remaining heap → le x y;
  tk_nodup : NoDup (sc_id <$> D);
  tk_seen : seen = list_to_set (sc_id <$> D);
  tk_all c : c ∈ all → c ∈ remaining heap ∨ ∃ d, d ∈ D ∧ sc_id d = sc_id c ∧ le d c;
  tk_from : D ++ remaining heap ⊆ all;
  tk_ok : Forall entry_ok heap;
  tk_metric : Forall same_metric D;
}.

Lemma taken_pop all D heap seen c iter heap' :
  Taken all D heap seen → remaining heap ≡ₚ c :: iter ++ remaining heap' → Forall entry_ok (push_list iter heap') →
  same_metric c → Forall (λ x, le c x) (iter ++ remaining heap') →
  if bool_decide (sc_id c ∈ seen) then Taken all D (push_list iter heap') seen
  else Taken all (D ++ [c]) (push_list iter heap') ({[sc_id c]} ∪ seen).
Proof.
  intros [Hs Hb Hn -> Ha Hf Hok Hm] Hp Hok' Hc Hle. rewrite <-(remaining_push iter heap') in Hp, Hle.
  assert (Hsub : ∀ x, x ∈ remaining (push_list iter heap') → x ∈ remaining heap) by (intros x Hx; rewrite Hp; by right).
  assert (Hcin : c ∈ remaining heap) by (rewrite Hp; left).
  assert (Hall : ∀ x, x ∈ all → x ∈ remaining (push_list iter heap') ∨ x = c ∨ ∃ d, d ∈ D ∧ sc_id d = sc_id x ∧ le d x).
  { intros x Hx. destruct (Ha x Hx) as [Hin|Hd]; [|by right; right]. rewrite Hp in Hin. apply elem_of_cons in Hin as [->|Hin]; auto. }
  case_bool_decide as Hin.
  - apply elem_of_list_to_set, list_elem_of_fmap in Hin as (d & Hid & Hd). split; try done.
    + intros x y Hx Hy. by apply Hb, Hsub.
    + intros x Hx. destruct (Hall x Hx) as [?|[->|?]]; [by left|right|by right]. exists d. split; [done|]. split; [done|by apply Hb].
    + intros x [Hx|Hx]%elem_of_app; apply Hf, elem_of_app; [by left|right; by apply Hsub].
  - rewrite Forall_forall in Hle. split.
    + apply sorted_app; [done|by repeat constructor|]. intros x y Hx ->%list_elem_of_singleton. by apply Hb.
    + intros x y [Hx| ->%list_elem_of_singleton]%elem_of_app Hy; [by apply Hb, Hsub|by apply Hle].
    + rewrite fmap_app. apply NoDup_app. split; [done|]. split; [|apply NoDup_singleton].
      intros i Hi ->%list_elem_of_singleton. by apply Hin, elem_of_list_to_set.
    + rewrite fmap_app, list_to_set_app_L. cbn. set_solver.
    + intros x Hx. destruct (Hall x Hx) as [?|[->|(d & Hd & ?)]]; [by left|right; exists c|right; exists d].
      * split; [apply elem_of_app; right; left|]. split; [done|apply le_refl].
      * split; [by apply elem_of_app; left|done].
    + intros x [[Hx| ->%list_elem_of_singleton]%elem_of_app|Hx]%elem_of_app; apply Hf, elem_of_app; [by left|by right|right; by apply Hsub].
    + done.
    + apply Forall_app. by split; [|constructor].
Qed.

Lemma drain_spec all fuel want heap seen batch D :
  Taken all D heap seen → (length (remaining heap) ≤ fuel)%nat →
  ∃ heap' seen' new, drain fuel want heap seen batch = Ok (heap', seen', batch ++ new) ∧ Taken all (D ++ new) heap' seen' ∧
    (length new ≤ want)%nat ∧ (length new = want ∨ heap' = []) ∧
    (length new + length (remaining heap') ≤ length (remaining heap))%nat.
Proof.
  revert want heap seen batch D. induction fuel as [|fuel IH]; intros want heap seen batch D Ht Hf;
    destruct want as [|want]; cbn [drain]; try (exists heap, seen, []; rewrite !app_nil_r; split_and!; [done|done|done|by left|done]);
    pose proof (pop_min heap (tk_ok _ _ _ _ Ht)) as Hpop;
    destruct (heap_pop_by reverse_cmp (any_order heap)) as [[[c iter] heap']|];
    try (exists heap, seen, []; rewrite !app_nil_r; split_and!; [done|done|cbn; lia|by right|done]);
    destruct Hpop as (Hp & Hok & Hc & Hle).
  - apply Permutation_length in Hp. cbn in Hp. lia.
  - pose proof (taken_pop _ _ _ _ _ _ _ Ht Hp Hok Hc Hle) as Hnext. apply Permutation_length in Hp. cbn [length] in Hp.
    rewrite <-remaining_push in Hp. case_bool_decide.
    + destruct (IH (S want) _ _ batch D Hnext ltac:(lia)) as (h' & s' & new & H1 & H2 & H3 & H4 & H5).
      exists h', s', new. split_and!; [done|done|done|done|lia].
    + destruct (IH want _ _ (batch ++ [c]) _ Hnext ltac:(lia)) as (h' & s' & new & H1 & H2 & H3 & H4 & H5).
      exists h', s', (c :: new). rewrite <-!app_assoc in H1, H2. split_and!; [done|done|cbn; lia| |cbn; lia].
      destruct H4 as [H4|H4]; [left; cbn; lia|by right].
Qed.
End merge.

(** ** Resolving the nearest *)
(** [chosen] are the [k] nearest distinct members of [all] that satisfy [live], in order;
    ties at the end may go either way *)
Record TopK (live : ScoredCandidate → Prop) (k : nat) (all : ScoredCandidate → Prop) (chosen : list ScoredCandidate) : Prop := mkTopK {
  top_sorted : StronglySorted (λ a b, scored_le a b = true) chosen;
  top_distinct : NoDup (sc_id <$> chosen);
  top_from c : c ∈ chosen → all c ∧ live c;
  top_length : (length chosen ≤ k)%nat;
  top_nearest c : all c → live c →
    (∃ d, d ∈ chosen ∧ sc_id d = sc_id c ∧ scored_le d c = true) ∨
    (length chosen = k ∧ ∀ d, d ∈ chosen → scored_le d c = true);
}.

Section resolve.
Context {AO : AnyOrder} {AOL : AnyOrderLaws} (m : DistanceMetric).
Context {St : Type} `{!KvStore St} (now : Z) (options : QueryEngineOptions) (storage : St).
Context (data : Z → option VectorDataValue).

Definition to_result (c : ScoredCandidate) : option QueryResult :=
  (λ d, mkResult (score (sc_distance c)) (vector_data_to_vector d)) <$> data (sc_id c).

Definition exists_ (c : ScoredCandidate) : Prop := is_Some (data (sc_id c)).

Lemma to_result_live (D : list ScoredCandidate) : omap to_result D = omap to_result (filter exists_ D).
Proof.
  induction D as [|c D IH]; [done|]. rewrite filter_cons. case_decide as Hd; cbn; rewrite IH; [done|].
  unfold to_result at 1. destruct (data (sc_id c)) as [d|] eqn:E; [|done]. destruct Hd. by eexists.
Qed.

Lemma to_result_length (D : list ScoredCandidate) : Forall exists_ D → length (omap to_result D) = length D.
Proof.
  induction 1 as [|c D [d Hd] _ IH]; [done|]. cbn. unfold to_result at 1. rewrite Hd. cbn. by rewrite IH.
Qed.

Lemma join_all_ok {A B} (f : A → res DbError B) (g : A → B) l :
  (∀ x, x ∈ l → f x = Ok (g x)) → join_all (f <$> l) = Ok (inr ∘ g <$> l).
Proof.
  induction l as [|x l IH]; intros H; [done|]. rewrite !fmap_cons. cbn [join_all]. rewrite (H x) by left.
  rewrite IH; [done|]. intros y Hy. apply H. by right.
Qed.

Lemma add_loaded_spec k batch results :
  length results ≠ k → (length results + length batch ≤ k)%nat →
  add_loaded k (zip batch (inr ∘ (data ∘ sc_id) <$> batch)) results =
    Ok (bool_decide (length (results ++ omap to_result batch) = k), results ++ omap to_result batch).
Proof.
  revert results. induction batch as [|c batch IH]; intros results Hne Hl; cbn.
  - rewrite app_nil_r. by rewrite bool_decide_eq_false_2.
  - assert (Hr : to_result c = (λ d, mkResult (score (sc_distance c)) (vector_data_to_vector d)) <$> data (sc_id c)) by done.
    cbn in Hl. destruct (data (sc_id c)) as [d|]; cbn in Hr; rewrite !Hr; cbn; [|apply IH; [done|lia]]. case_bool_decide as Hk.
    + rewrite length_app in Hk. cbn in Hk. assert (batch = []) as -> by (apply length_zero_iff_nil; lia).
      cbn. rewrite bool_decide_eq_true_2; [done|]. rewrite length_app. cbn. lia.
    + rewrite IH; [by rewrite <-app_assoc|done|]. rewrite length_app. cbn. lia.
Qed.

Lemma resolve_loop_spec all fuel k heap seen D :
  (∀ c, c ∈ all → get_vector_data now storage (sc_id c) (qe_dimensions options) = Ok (data (sc_id c))) →
  Taken m all D heap seen → (length (remaining heap) < fuel)%nat →
  (length (omap to_result D) < k ∨ k = 0 ∧ D = [])%nat →
  ∃ D' heap' seen', resolve_loop now options storage fuel k heap seen (omap to_result D) = Ok (omap to_result D') ∧
    Taken m all D' heap' seen' ∧ (length (omap to_result D') ≤ k)%nat ∧ (heap' = [] ∨ length (omap to_result D') = k).
Proof.
  intros Hdata. revert heap seen D. induction fuel as [|fuel IH]; intros heap seen D Ht Hf Hk; [lia|]. cbn [resolve_loop].
  rewrite remaining_length.
  destruct (drain_spec m all (length (remaining heap)) (k - length (omap to_result D)) heap seen [] D Ht ltac:(lia))
    as (h' & s' & new & -> & Ht' & Hlen & Hend & Hdec). cbn [res_bind app].
  case_bool_decide as Hnew.
  - subst new. rewrite app_nil_r in Ht'. exists D, h', s'. split_and!; [done|done|destruct Hk as [?|[-> ->]]; [lia|done]|].
    destruct Hend as [Hend|Hend]; [|by left]. cbn in Hend. right. destruct Hk as [?|[-> ->]]; [lia|done].
  - destruct Hk as [Hk|[-> ->]]; [|cbn in Hlen; destruct new; [done|cbn in Hlen; lia]].
    rewrite (join_all_ok _ (data ∘ sc_id)).
    2: { intros c Hc. apply Hdata, (tk_from _ _ _ _ _ Ht'), elem_of_app. left. apply elem_of_app. by right. }
    cbn [res_bind]. rewrite add_loaded_spec by lia. cbn [res_bind]. rewrite <-omap_app.
    assert (Hle : (length (omap to_result (D ++ new)) ≤ k)%nat).
    { rewrite omap_app, length_app. assert (length (omap to_result new) ≤ length new)%nat; [|lia].
      clear. induction new as [|c new IHn]; cbn; [lia|]. destruct (to_result c); cbn; lia. }
    case_bool_decide as Hd.
    + exists (D ++ new), h', s'. split_and!; [done|done|done|by right].
    + apply IH; [done|destruct new; [done|cbn in Hdec; lia]|left; lia].
Qed.

Definition list_ok (l : list ScoredCandidate) : Prop :=
  Forall (same_metric m) l ∧ StronglySorted (λ a b, scored_le a b = true) l.

Lemma heap_seed_spec lists heap :
  Forall list_ok lists → Forall (entry_ok m) heap →
  Forall (entry_ok m) (foldl (λ heap l, push_list l heap) heap lists) ∧
  remaining (foldl (λ heap l, push_list l heap) heap lists) ≡ₚ concat lists ++ remaining heap.
Proof.
  intros Hl. revert heap. induction Hl as [|l lists Hl _ IH]; intros heap Hh; [done|]. cbn [foldl concat].
  destruct (IH (push_list l heap)) as [H1 H2]; [destruct l; [done|by constructor]|]. split; [done|].
  rewrite H2, remaining_push. by rewrite !app_assoc, (Permutation_app_comm (concat lists) l).
Qed.

Lemma resolve_top_k_spec lists k :
  (∀ c, c ∈ concat lists → get_vector_data now storage (sc_id c) (qe_dimensions options) = Ok (data (sc_id c))) →
  Forall list_ok lists →
  ∃ chosen, resolve_top_k now options storage lists k = Ok (omap to_result chosen) ∧
    TopK exists_ k (λ c, c ∈ concat lists) chosen.
Proof.
  intros Hdata Hl. unfold resolve_top_k. destruct (heap_seed_spec lists [] Hl ltac:(constructor)) as [Hok Hrem].
  set (heap := foldl _ [] lists) in *. cbn in Hrem. rewrite app_nil_r in Hrem.
  assert (Ht : Taken m (concat lists) [] heap ∅).
  { split; [constructor|by intros ? ? ?%not_elem_of_nil|constructor|done| | |done|constructor].
    - intros c Hc. left. by rewrite Hrem.
    - intros c Hc. cbn in Hc. by rewrite <-Hrem. }
  destruct (resolve_loop_spec (concat lists) (S (length (concat lists))) k heap ∅ [] Hdata Ht) as (D & h' & s' & He & HD & Hlen & Hend).
  { rewrite Hrem. lia. }
  { cbn. destruct k; [by right|left; lia]. }
  exists (filter exists_ D). rewrite <-to_result_live. split; [exact He|].
  assert (Hlive : Forall exists_ (filter exists_ D)) by (apply Forall_forall; by intros c [? _]%list_elem_of_filter).
  rewrite to_result_live, to_result_length in Hlen, Hend by done. split.
  - apply sorted_filter, HD.
  - eapply sublist_NoDup; [exact (tk_nodup _ _ _ _ _ HD)|]. apply fmap_sublist, sublist_filter.
  - intros c [Hc Hin]%list_elem_of_filter. split; [|done]. apply (tk_from _ _ _ _ _ HD), elem_of_app. by left.
  - done.
  - intros c Hc Hex. destruct (tk_all _ _ _ _ _ HD c Hc) as [Hin|(d & Hd & Hid & Hle)].
    + destruct Hend as [->|Hend]; [by apply not_elem_of_nil in Hin|]. right. split; [done|].
      intros d [_ Hd]%list_elem_of_filter. by apply (tk_below _ _ _ _ _ HD).
    + left. exists d. split; [|done]. apply list_elem_of_filter. split; [|done]. unfold exists_ in *. by rewrite Hid.
Qed.
End resolve.

(** ** Searches *)
Section search.
Context {HO : HashOrder} {HOL : HashOrderLaws} {AO : AnyOrder} {AOL : AnyOrderLaws} {RT : RoaringTreemap} {FO : FloatOps Z} (cpu : Cpu).
Context {St : Type} {KV : KvStore St} {KL : KvStoreLaws St} (now : Z) (options : QueryEngineOptions) (storage : St).
Let dims := qe_dimensions options.
Let m := qe_metric options.

(** a vector of the stored list of [cid] and its distance to the query *)
Definition Listed (q : list Z) (cid : VectorId) (c : ScoredCandidate) : Prop :=
  ∃ us v, PostingAt dims (kv_map storage) cid us ∧ apply_updates ∅ us !! sc_id c = Some v ∧ sc_distance c = dist cpu q m v.

Lemma scored_sorted l :
  Forall (same_metric m) l → StronglySorted (λ a b, scored_le a b = true) (sort_by scored_le l).
Proof.
  (* the order is total on one metric *)
  intros Hm. induction l as [|x l IH]; [constructor|]. apply Forall_cons in Hm as [Hx Hm]. specialize (IH Hm).
  change (sort_by scored_le (x :: l)) with (insert_by scored_le x (sort_by scored_le l)).
  assert (Hm' : Forall (same_metric m) (sort_by scored_le l)) by (by rewrite sort_by_perm).
  induction IH as [|y l' Hl' IH' Hy]; simpl; [by repeat constructor|]. apply Forall_cons in Hm' as [Hym Hm'].
  destruct (scored_le x y) eqn:E.
  - constructor; [by constructor|]. constructor; [done|]. rewrite Forall_forall in Hy, Hm' |- *. intros z Hz.
    apply (le_trans m x y z); [done|done|by apply Hm'|done|by apply Hy].
  - constructor; [by apply IH'|]. rewrite insert_by_perm. constructor; [|done].
    apply scored_le_spec. apply not_true_iff_false in E. rewrite scored_le_spec in E. unfold same_metric in *.
    rewrite (distance_cmp_antisym (sc_distance x)) by congruence.
    by destruct (distance_cmp (sc_distance x) (sc_distance y)); [destruct E|destruct E|].
Qed.

Lemma load_list_spec q cid us :
  kv_ok storage → node_ok cid → PostingAt dims (kv_map storage) cid us → length q = dims →
  ∃ l, load_list cpu now options storage q cid = Ok l ∧ list_ok m l ∧ ∀ c, c ∈ l ↔ Listed q cid c.
Proof.
  intros Hok Hc Hus Hq. unfold load_list. fold dims. rewrite (get_posting_spec dims now storage cid us) by done. cbn [res_bind].
  destruct (from_value_spec us (stored_at_nodup dims _ _ _ Hus)) as (pl & -> & [Hb Hnd] & Hcont & Hent). cbn [of_encoding res_map_err res_bind].
  rewrite (try_map_ok _ (λ p, mkScored (p_id p) (dist cpu q m (entry_of p).2))).
  2: { intros p Hp. unfold score_posting. rewrite Forall_forall in Hb. rewrite posting_vector_ok by auto.
    cbn [of_encoding res_map_err res_bind]. fold m. rewrite dist_ok; [done|]. rewrite Hq.
    assert (Hin : entry_of p ∈ appended us) by (rewrite <-Hent; by apply list_elem_of_fmap_2).
    destruct (entry_of p) as [id v] eqn:E. apply elem_of_appended in Hin. unfold PostingAt in Hus.
    destruct (kv_map storage (posting_key cid)); [|subst us; by apply not_elem_of_nil in Hin].
    destruct Hus as (_ & Hw & _). rewrite Forall_forall in Hw. by destruct (Hw _ Hin) as (_ & ? & _). }
  cbn [res_bind spawned].
  eexists. split; [done|]. set (l := _ <$> pl).
  assert (Hperm : sort_by scored_le (any_order l) ≡ₚ l) by (by rewrite sort_by_perm, any_order_perm).
  assert (Hm : Forall (same_metric m) l) by (unfold l; apply Forall_fmap, Forall_forall; intros p _; apply dist_metric).
  split; [split; [by rewrite Hperm|apply scored_sorted; by rewrite any_order_perm]|].
  intros c. rewrite Hperm. unfold l, Listed.
  assert (Hlook : ∀ id v, apply_updates ∅ us !! id = Some v ↔ (id, v) ∈ entries pl).
  { intros id v. rewrite <-Hcont. unfold content. rewrite <-elem_of_list_to_map; [done|]. unfold entries.
    rewrite <-list_fmap_compose. exact Hnd. }
  split.
  - intros (p & -> & Hp)%list_elem_of_fmap. exists us, (entry_of p).2. split; [done|]. split; [|done].
    apply Hlook. change (entry_of p ∈ entries pl). by apply list_elem_of_fmap_2.
  - intros (us' & v & Hus' & Hv & Hd). rewrite (posting_at_unique dims _ _ _ _ Hus' Hus) in Hv.
    apply Hlook, list_elem_of_fmap in Hv as (p & He & Hp). apply list_elem_of_fmap. exists p. split; [|done].
    destruct c as [id d]. cbn [sc_id sc_distance] in *. rewrite Hd, <-He. f_equal. exact (f_equal fst He).
Qed.

Lemma load_and_score_spec q cids :
  kv_ok storage → (∀ cid, cid ∈ cids → node_ok cid ∧ ∃ us, PostingAt dims (kv_map storage) cid us) → length q = dims →
  ∃ lists, load_and_score cpu now options storage cids q = Ok lists ∧ Forall (list_ok m) lists ∧
    ∀ c, c ∈ concat lists ↔ ∃ cid, cid ∈ cids ∧ Listed q cid c.
Proof.
  intros Hok Hc Hq. unfold load_and_score.
  destruct (try_map_exists (load_list cpu now options storage q) (λ cid l, list_ok m l ∧ ∀ c, c ∈ l ↔ Listed q cid c) cids)
    as (lists & -> & Hl).
  { intros cid Hcid. destruct (Hc cid Hcid) as (Hn & us & Hus). by eapply load_list_spec. }
  cbn [res_bind]. eexists. split; [done|]. split.
  - apply Forall_forall. intros l [_ Hin]%list_elem_of_filter. by destruct (Forall2_elem_r _ _ _ _ Hl Hin) as (cid & _ & ? & _).
  - intros c. rewrite list_elem_of_In, in_concat. split.
    + intros (l & Hin%list_elem_of_In & Hcl%list_elem_of_In). apply list_elem_of_filter in Hin as [_ Hin].
      destruct (Forall2_elem_r _ _ _ _ Hl Hin) as (cid & Hcid & _ & Hiff). exists cid. split; [done|by apply Hiff].
    + intros (cid & Hcid & Hlist). destruct (Forall2_elem_l _ _ _ _ Hl Hcid) as (l & Hin & _ & Hiff). apply Hiff in Hlist.
      exists l. split; apply list_elem_of_In; [|done]. apply list_elem_of_filter. split; [|done]. intros ->. by apply not_elem_of_nil in Hlist.
Qed.

Section matching.
Context (data : Z → option VectorDataValue) (ids : bytes → AttributeValue → gset Z).

Definition passes (query : Query) (c : ScoredCandidate) : Prop :=
  match q_filter query with Some f => matches (member ids (sc_id c)) f = true | None => True end.

(** the vector exists and matches the filter of the query *)
Definition Wanted (query : Query) (c : ScoredCandidate) : Prop := exists_ data c ∧ passes query c.

Lemma filtered_lists query lists :
  (∀ f, q_filter query = Some f → Readable now storage ids f) → Forall (list_ok m) lists →
  ∃ lists', match q_filter query with Some f => apply_filter now storage lists f | None => Ok lists end = Ok lists' ∧
    Forall (list_ok m) lists' ∧ ∀ c, c ∈ concat lists' ↔ c ∈ concat lists ∧ passes query c.
Proof.
  intros Hf Hl. unfold passes. destruct (q_filter query) as [f|].
  - rewrite (apply_filter_spec now storage ids f lists (Hf f eq_refl)). eexists. split; [done|]. split.
    + apply Forall_fmap. eapply Forall_impl; [exact Hl|]. intros l [Ha Hb]. split; [by apply Forall_filter|by apply sorted_filter].
    + intros c. rewrite !list_elem_of_In, !in_concat. split.
      * intros (l & (l0 & -> & Hl0)%list_elem_of_In%list_elem_of_fmap & [Hk Hcl]%list_elem_of_In%list_elem_of_filter).
        split; [|done]. exists l0. split; by apply list_elem_of_In.
      * intros [(l & Hl0 & Hcl) Hk]. eexists. split; [apply list_elem_of_In, list_elem_of_fmap_2, list_elem_of_In, Hl0|].
        apply list_elem_of_In, list_elem_of_filter. split; [done|by apply list_elem_of_In].
  - exists lists. split; [done|]. split; [done|]. intros c. tauto.
Qed.

(** C10: A search over the chosen centroids returns the nearest matching vectors: those of
    the stored lists that exist and satisfy the filter, each once though several lists may
    hold it, nearest first, at most [limit]; a vector left out is no nearer than any
    returned, and only when [limit] were found.  Scores and attributes are those of the
    stored records, the attributes restricted to the requested fields.  The order in which
    the heap and the unstable sort leave ties does not matter. *)
Theorem search_nearest query q cids :
  kv_ok storage → (∀ cid, cid ∈ cids → node_ok cid ∧ ∃ us, PostingAt dims (kv_map storage) cid us) → length q = dims →
  (∀ cid c, cid ∈ cids → Listed q cid c → get_vector_data now storage (sc_id c) dims = Ok (data (sc_id c))) →
  (∀ f, q_filter query = Some f → Readable now storage ids f) →
  ∃ chosen, search_lists cpu now options storage query q cids =
      Ok (apply_field_selection (omap (to_result data) chosen) (q_include_fields query)) ∧
    TopK (Wanted query) (q_limit query) (λ c, ∃ cid, cid ∈ cids ∧ Listed q cid c) chosen.
Proof.
  intros Hok Hc Hq Hdata Hf. unfold search_lists. destruct (load_and_score_spec q cids Hok Hc Hq) as (lists & -> & Hl & Hin).
  cbn [res_bind]. case_bool_decide as He.
  { subst lists. exists []. split; [by destruct (q_include_fields query)|].
    split; [constructor|constructor|by intros ? ?%not_elem_of_nil|cbn; lia|]. intros c Hlc. apply Hin in Hlc. by apply not_elem_of_nil in Hlc. }
  destruct (filtered_lists query lists Hf Hl) as (lists' & -> & Hl' & Hin'). cbn [res_bind].
  destruct (resolve_top_k_spec m now options storage data lists' (q_limit query)) as (chosen & -> & [H1 H2 H3 H4 H5]); [|done|].
  { intros c [(cid & Hcid & Hlc)%Hin _]%Hin'. by eapply Hdata. }
  cbn [res_bind]. exists chosen. split; [done|]. split; [done|done| |done|].
  - intros c Hcc. destruct (H3 c Hcc) as [[Ha Hk]%Hin' Hex]. split; [by apply Hin|by split].
  - intros c Hlc [Hex Hk]. apply H5; [|done]. apply Hin'. split; [by apply Hin|done].
Qed.
End matching.
End search.

(** ** Two lists that share a vector; one vector was deleted *)
Module Demo.
#[local] Instance demo_treemap : RoaringTreemap := Plain.plain_treemap.
#[local] Instance demo_hash_order : HashOrder := tree_order.
#[local] Instance demo_hash_laws : HashOrderLaws := tree_order_laws.
#[local] Instance demo_any_order : AnyOrder := {| any_order A l := l |}.
#[local] Instance demo_any_laws : AnyOrderLaws.
Proof. by constructor. Qed.

Definition one : Z := 0x3f800000.
Definition near : VectorId := 2 ^ 56 + 1.
Definition far : VectorId := 2 ^ 56 + 2.
Definition near_list : list PostingUpdate := [PAppend 0 [one; 0]; PAppend 1 [0; one]].
Definition far_list : list PostingUpdate := [PAppend 0 [one; 0]; PAppend 2 [one; one]].
Definition record_of (name : bytes) (v : list Z) : VectorDataValue := vector_data_new name [mkField VECTOR_FIELD_NAME (FVector v)].

Definition store : InMemory.t :=
  InMemory.set_data (InMemory.new None None false)
    [(key_bytes (KId Vec.PostingList near), InMemory.mkStored (postings_encode near_list) None);
     (key_bytes (KId Vec.PostingList far), InMemory.mkStored (postings_encode far_list) None);
     (key_bytes (KId VectorData 0), InMemory.mkStored (encoded (vector_data_encode (record_of [x61] [one; 0]))) None);
     (key_bytes (KId VectorData 2), InMemory.mkStored (encoded (vector_data_encode (record_of [x63] [one; one]))) None)].

Definition options : QueryEngineOptions := mkEngineOptions 2 L2 None.
Definition query : Query := mkQuery [0; 0] 10 (Some (FltNeq [x6e] (ABool true))) SelNone.
Definition data (id : Z) : option VectorDataValue := match get_vector_data 0 store id 2 with Ok d => d | _ => None end.

Lemma store_ok : kv_ok store.
Proof.
  split_and!; [repeat constructor|done| |done]. intros k sv. unfold store. cbn.
  do 3 (destruct (bcmp _ _); [by intros [= <-]|..]); (destruct (bcmp _ _); [by intros [= <-]|done..]).
Qed.

Lemma lists_at c : c ∈ [near; far] → PostingAt 2 (kv_map store) c (if decide (c = near) then near_list else far_list).
Proof.
  intros Hc. rewrite !elem_of_cons in Hc. unfold PostingAt.
  assert (Hw : ∀ us, us ∈ [near_list; far_list] → Forall (wf_update 2) us ∧ StronglySorted id_lt us).
  { intros us [->|[->|?%not_elem_of_nil]%elem_of_cons]%elem_of_cons; [..|done];
      (split; [repeat constructor; by vm_compute|repeat constructor; by vm_compute]). }
  destruct Hc as [->|[->|?%not_elem_of_nil]]; [..|done].
  - change (Stored 2 (postings_encode near_list) near_list). split; [done|]. apply Hw. left.
  - change (Stored 2 (postings_encode far_list) far_list). split; [done|]. apply Hw. right. left.
Qed.

Lemma node_near c : c ∈ [near; far] → node_ok c.
Proof. intros [->|[->|?%not_elem_of_nil]%elem_of_cons]%elem_of_cons; [..|done]; left; split; by vm_compute. Qed.

Lemma listed_ids q c cand : c ∈ [near; far] → Listed (mkCpu false false false) options store q c cand → sc_id cand ∈ [0; 1; 2].
Proof.
  intros Hc (us & v & Hus & Hv & _). pose proof (posting_at_unique 2 _ _ _ _ Hus (lists_at c Hc)) as ->.
  rewrite !elem_of_cons. case_decide; cbn in Hv; apply lookup_insert_Some in Hv as [[<- _]|[_ [[<- _]|[_ Hv]]%lookup_insert_Some]]; auto; done.
Qed.

Lemma index_empty : index_ids_of 0 store [x6e] (ABool true) = Ok ∅.
Proof. by vm_compute. Qed.

Lemma search_nearest_witness :
  ∃ chosen, search_lists (mkCpu false false false) 0 options store query [0; 0] [near; far] =
      Ok (apply_field_selection (omap (to_result data) chosen) SelNone) ∧
    TopK (Wanted data (λ _ _, ∅) query) 10 (λ c, ∃ cid, cid ∈ [near; far] ∧ Listed (mkCpu false false false) options store [0; 0] cid c) chosen.
Proof.
  apply (search_nearest (mkCpu false false false) 0 options store data (λ _ _, ∅) query [0; 0] [near; far]).
  - exact store_ok.
  - intros cid Hc. split; [by apply node_near|]. eexists. by apply lists_at.
  - done.
  - intros cid c Hcid Hl. apply listed_ids in Hl; [|done]. unfold data.
    rewrite !elem_of_cons in Hl. destruct Hl as [->|[->|[->|?%not_elem_of_nil]]]; [by vm_compute..|done].
  - intros f [= <-] field value [[= -> ->]|?%not_elem_of_nil]%elem_of_cons; [apply index_empty|done].
Defined.

(** the shared vector once, the deleted one not *)
Example search_result :
  (let? rs := search_lists (mkCpu false false false) 0 options store query [0; 0] [near; far] in
   Ok ((λ r, v_id (r_vector r)) <$> rs)) = Ok [[x61]; [x63]].
Proof. by vm_compute. Qed.

Lemma filter_exact_witness :
  apply_filter 0 store [[mkScored 0 (mkDistance one L2)]] (FltNeq [x6e] (ABool true)) = Ok [[mkScored 0 (mkDistance one L2)]].
Proof.
  destruct (filter_exact 0 store (λ _ _, ∅) (FltNeq [x6e] (ABool true)) [[mkScored 0 (mkDistance one L2)]]) as [-> _]; [|by vm_compute].
  intros field value [[= -> ->]|?%not_elem_of_nil]%elem_of_cons; [apply index_empty|done].
Defined.
End Demo.
End VecQuerySpec.
