(* ===== verification/VecWriteSpec.v ===== *)
(** * vector: writing a batch of vectors

    What [WriteVectors] does to the delta of a round: every external id of the batch gets
    a new vector that holds its last write, in the leaf nearest to it, and the vector it
    had before is gone from the forward index and from its posting lists. *)
From stdpp Require Import gmap strings.
From S2P Require Import Prelude HashMap Serde Encoding Storage KvStore Sequence VecSerde VecPosting VecMerge VecMath VecList VecSearch VecSearchSpec VecStore VecState VecStateSpec VecKmeans VecQuery VecQuerySpec VecIndexer.
#[local] Open Scope Z_scope.

Module VecWriteSpec.
Import Vec VecPosting VecMerge VecMath VecList VecSearch VecStore VecState VecStateSpec VecKmeans VecQuery VecQuerySpec VecIndexer.
Import VecSearchSpec (Entry, fetch, loaded, list_of, Reached, TreeOk, nearest, beam_search, answer).

Abbreviation next_of d := (next_sequence (block (fi_allocator (forward_index d)))).
Abbreviation updates_of d c := (default [] (posting_updates (search_index d) !! c)).

(** ** Steps of a batch *)
Section writes.
Context (lo : Z).

(** a new vector is appended, an old one deleted *)
Definition write_update (n : Z) (u : PostingUpdate) : Prop :=
  match u with PAppend id _ => n ≤ id | PDelete id => id < lo end.

(** what writing the external ids [X] leaves as it was; new vectors have ids from [next_of d] on, old ones are below [lo] *)
Record Step (X : gset bytes) (d d' : VectorIndexDelta) : Prop := mkStep {
  ws_next : next_of d ≤ next_of d';
  ws_dict x : x ∉ X → dictionary_updates (forward_index d') !! x = dictionary_updates (forward_index d) !! x;
  ws_data v : v < next_of d → vector_updates (forward_index d') !! v = vector_updates (forward_index d) !! v;
  ws_index v : lo ≤ v < next_of d → vector_index_updates (forward_index d') !! v = vector_index_updates (forward_index d) !! v;
  ws_deletes v : v ∈ vector_deletes (forward_index d) → v ∈ vector_deletes (forward_index d');
  ws_deleted v : v ∈ vector_deletes (forward_index d') → v ∈ vector_deletes (forward_index d) ∨ v < lo;
  ws_postings c : ∃ us, updates_of d' c = updates_of d c ++ us ∧ Forall (write_update (next_of d)) us;
  ws_current v : v < lo → v < next_of d → current_posting (search_index d) !! v = None → current_posting (search_index d') !! v = None;
}.

Lemma step_refl X d : Step X d d.
Proof. split; try done; [by left|]. intros c. exists []. by rewrite app_nil_r. Qed.

Lemma step_trans X Y d1 d2 d3 : Step X d1 d2 → Step Y d2 d3 → Step (X ∪ Y) d1 d3.
Proof.
  intros [A1 A2 A3 A4 A5 A6 A7 A8] [B1 B2 B3 B4 B5 B6 B7 B8]. split.
  - lia.
  - intros x [? ?]%not_elem_of_union. rewrite B2, A2; done.
  - intros v Hv. rewrite B3, A3; [done|lia..].
  - intros v Hv. rewrite B4, A4; [done|lia..].
  - auto.
  - intros v [[?|?]%A6|?]%B6; auto.
  - intros c. destruct (B7 c) as (us' & -> & Hu'), (A7 c) as (us & -> & Hu). exists (us ++ us'). rewrite app_assoc. split; [done|].
    apply Forall_app. split; [done|]. eapply Forall_impl; [exact Hu'|]. intros [id v|id]; cbn; lia.
  - intros v H1 H2 H3. apply B8; [lia..|]. by apply A8.
Qed.

Lemma step_trans_same X d1 d2 d3 : Step X d1 d2 → Step X d2 d3 → Step X d1 d3.
Proof. intros H1 H2. pose proof (step_trans _ _ _ _ _ H1 H2) as H. by rewrite union_idemp_L in H. Qed.

(** the last update of an entry decides *)
Definition LastIs (d : VectorIndexDelta) (c id : VectorId) (r : option (list Z)) : Prop :=
  ∀ m : gmap Z (list Z), apply_updates m (updates_of d c) !! id = r.

Lemma updates_other us (m : gmap Z (list Z)) id : Forall (λ u, uid u ≠ id) us → apply_updates m us !! id = m !! id.
Proof.
  revert m. induction us as [|u us IH]; intros m Hu; [done|]. apply Forall_cons in Hu as [Hu Hus].
  change (apply_updates (apply_update m u) us !! id = m !! id). rewrite IH by done.
  destruct u; cbn in *; [by rewrite lookup_insert_ne|by rewrite lookup_delete_ne].
Qed.

Lemma updates_deleted us (m : gmap Z (list Z)) id :
  Forall (λ u, match u with PAppend i _ => i ≠ id | PDelete _ => True end) us → m !! id = None → apply_updates m us !! id = None.
Proof.
  revert m. induction us as [|u us IH]; intros m Hu Hm; [done|]. apply Forall_cons in Hu as [Hu Hus]. apply (IH (apply_update m u)); [done|].
  destruct u; cbn in *; [by rewrite lookup_insert_ne|]. apply lookup_delete_None. by right.
Qed.

Lemma last_is_new X d d' c id v : Step X d d' → lo ≤ id < next_of d → LastIs d c id (Some v) → LastIs d' c id (Some v).
Proof.
  intros Hs Hid Hl m. destruct (ws_postings _ _ _ Hs c) as (us & -> & Hu). unfold apply_updates. rewrite foldl_app.
  fold (apply_updates m (updates_of d c)). rewrite <-(Hl m). apply updates_other. eapply Forall_impl; [exact Hu|]. intros [i w|i]; cbn; lia.
Qed.

Lemma last_is_old X d d' c id : Step X d d' → id < next_of d → LastIs d c id None → LastIs d' c id None.
Proof.
  intros Hs Hid Hl m. destruct (ws_postings _ _ _ Hs c) as (us & -> & Hu). unfold apply_updates. rewrite foldl_app.
  apply updates_deleted; [|apply Hl]. eapply Forall_impl; [exact Hu|]. intros [i w|i]; cbn; lia.
Qed.

(** ** What is kept of a write *)
(** the vector of a write *)
Record Written (d : VectorIndexDelta) (w : VectorWrite) (v : VectorId) (data : VectorIndexDataValue) (c : VectorId) : Prop := mkWrittenTo {
  wr_dict : dictionary_updates (forward_index d) !! external_id w = Some v;
  wr_range : lo ≤ v < next_of d;
  wr_live : v ∉ vector_deletes (forward_index d);
  wr_data : vector_updates (forward_index d) !! v = Some (vector_data_new (external_id w) (fields_of (attributes w)));
  wr_index : vector_index_updates (forward_index d) !! v = Some data;
  wr_posting : vi_postings data = [c];
  wr_listed : LastIs d c v (Some (values w));
}.

(** the vector before it *)
Record Gone (d : VectorIndexDelta) (old : VectorId) (data : VectorIndexDataValue) : Prop := mkGone {
  go_range : old < lo ∧ old < next_of d;
  go_deleted : old ∈ vector_deletes (forward_index d);
  go_unlisted c : c ∈ vi_postings data → LastIs d c old None;
}.

Lemma written_step X d d' w v data c : Step X d d' → external_id w ∉ X → Written d w v data c → Written d' w v data c.
Proof.
  intros Hs Hx [H1 H2 H3 H4 H5 H6 H7]. pose proof (ws_next _ _ _ Hs). split; [..|done|].
  - by rewrite (ws_dict _ _ _ Hs).
  - lia.
  - intros [?|?]%(ws_deleted _ _ _ Hs); [done|lia].
  - rewrite (ws_data _ _ _ Hs); [done|lia].
  - by rewrite (ws_index _ _ _ Hs).
  - by eapply last_is_new.
Qed.

Lemma gone_step X d d' old data : Step X d d' → Gone d old data → Gone d' old data.
Proof.
  intros Hs [H1 H2 H3]. pose proof (ws_next _ _ _ Hs). split; [lia|by apply (ws_deletes _ _ _ Hs)|]. intros c Hc.
  eapply last_is_old; [done|lia|by apply H3].
Qed.
End writes.

(** ** The operations *)
Section batch.
Context {HO : HashOrder} {HOL : HashOrderLaws} {AO : AnyOrder} {AOL : AnyOrderLaws} {RT : RoaringTreemap} {FO : FloatOps Z} (cpu : Cpu).
Context {St : Type} `{!KvStore St} (now : Z) (opts : IndexerOpts) (state : VectorIndexState) (snapshot : St) (snapshot_epoch : Z).
Let dims := o_dimensions opts.
Let lo := next_sequence (sequence_block state).

(** [n] more vectors fit *)
Record Ready (n : Z) (d : VectorIndexDelta) : Prop := mkWriteReady {
  wd_alloc : AllocOk (sequence_block_key state) (sequence_block state) (fi_allocator (forward_index d)) (fi_ops (forward_index d));
  wd_room : block_end (block (fi_allocator (forward_index d))) + n * (1 + DEFAULT_BLOCK_SIZE) < 2 ^ 56;
  wd_current v : v < lo → current_posting (search_index d) !! v = None;
  wd_deletes v : v ∈ vector_deletes (forward_index d) → v < lo;
}.

Lemma ready_lo n d : Ready n d → lo ≤ next_of d.
Proof. intros [Ha _ _ _]. apply (al_next _ _ _ _ Ha). Qed.

(** operations on inverted indexes *)
Definition SameLists (d d' : VectorIndexDelta) : Prop :=
  forward_index d' = forward_index d ∧ posting_updates (search_index d') = posting_updates (search_index d) ∧
  current_posting (search_index d') = current_posting (search_index d).

Lemma same_step X d d' : SameLists d d' → Step lo X d d'.
Proof.
  intros (Hf & Hp & Hc). split; rewrite ?Hf; try done; [by left| |by rewrite Hc].
  intros c. exists []. by rewrite Hp, app_nil_r.
Qed.

Lemma same_ready n d d' : SameLists d d' → Ready n d → Ready n d'.
Proof. intros (Hf & Hp & Hc) [H1 H2 H3 H4]. split; by rewrite ?Hf, ?Hc. Qed.

Lemma same_written d d' w v data c : SameLists d d' → Written lo d w v data c → Written lo d' w v data c.
Proof. intros (Hf & Hp & Hc) [H1 H2 H3 H4 H5 H6 H7]. split; rewrite ?Hf; try done. intros m. rewrite Hp. apply H7. Qed.

Lemma for_each_same {A} (f : A → VectorIndexDelta → res DbError VectorIndexDelta) xs d :
  (∀ x d, x ∈ xs → ∃ d', f x d = Ok d' ∧ SameLists d d') → ∃ d', for_each f xs d = Ok d' ∧ SameLists d d'.
Proof.
  revert d. induction xs as [|x xs IH]; intros d Hf; cbn [for_each]; [by exists d|]. destruct (Hf x d ltac:(left)) as (d1 & -> & H1 & H2 & H3). cbn [res_bind].
  destruct (IH d1) as (d2 & -> & H4 & H5 & H6); [intros; apply Hf; by right|]. exists d2. split; [done|]. split_and!; congruence.
Qed.

Definition encodable (f : Field) : Prop := ∃ k, metadata_index_key_encode (mkIndexKey (field_name f) (field_value f)) = Ok k.

Definition attribute_ok (a : bytes * AttributeValue) : Prop := is_indexed opts a → encodable (mkField a.1 (field_of_attribute a.2)).

Lemma index_attributes_ok v l d : Forall attribute_ok l → ∃ d', for_each (index_attribute opts v) l d = Ok d' ∧ SameLists d d'.
Proof.
  rewrite Forall_forall. intros Ha. apply for_each_same. intros a d0 Hin. unfold index_attribute. case_decide as Hi; [|by exists d0].
  destruct (Ha a Hin Hi) as (k & Hk). cbn [field_name field_value] in Hk.
  unfold in_search, add_to_inverted_index. rewrite Hk. cbn. by eexists.
Qed.

Lemma collect_fields_named l : forallb (λ f, negb (bool_decide (field_name f = VECTOR_FIELD_NAME))) (collect_indexed_fields opts l) = true.
Proof.
  apply forallb_forall. intros f (a & -> & [[Hn _] _]%list_elem_of_filter)%list_elem_of_In%list_elem_of_fmap. cbn.
  by rewrite bool_decide_eq_false_2.
Qed.

Lemma level_small n : 0 ≤ n < 2 ^ 56 → level n = 0.
Proof.
  intros Hn. destruct (level_div n) as [-> _]; [unfold in_u; lia|by apply Z.div_small].
Qed.

Lemma leaf_is_centroid c : level c = 1 → is_centroid c = true.
Proof. intros Hc. unfold is_centroid, is_root. rewrite Hc, (proj2 (Z.eqb_neq c ROOT_VECTOR_ID)); [done|]. by intros ->. Qed.

(** a new vector is written *)
Lemma add_write_ok n c w d : 0 ≤ n → Ready (n + 1) d → level c = 1 → Forall attribute_ok (attributes w) →
  ∃ d' v data, add_write opts c w d = Ok d' ∧ Ready n d' ∧ Step lo {[external_id w]} d d' ∧ Written lo d' w v data c.
Proof.
  intros Hn Hr Hc Ha. pose proof (ready_lo _ _ Hr) as Hlo. destruct Hr as [Hal Hroom Hcur Hdel]. destruct d as [fw se]. cbn [forward_index search_index] in *.
  destruct (allocate_one (fi_allocator fw)) as [[v r] a'] eqn:Ealloc.
  assert (Hrm : room 1 (fi_allocator fw)) by (unfold room, DEFAULT_BLOCK_SIZE in *; lia).
  destruct (alloc_ok_step _ _ _ _ _ _ _ Hal Hrm Ealloc) as (Hal' & -> & Hnext & Hin & Hend).
  destruct (al_block _ _ _ _ Hal') as (_ & Hne & _).
  set (v := next_sequence (block (fi_allocator fw))) in *. assert (Hlv : level v = 0).
  { apply level_small. unfold in_u, DEFAULT_BLOCK_SIZE in *. lia. }
  unfold add_write, on_forward, in_search, in_forward, add_vector. cbn [forward_index search_index]. rewrite Ealloc.
  unfold data_vector_id. rewrite Hlv. cbn [rust_assert Z.eqb of_encoding res_map_err res_bind forward_index search_index].
  unfold add_to_posting. rewrite Hlv, Hc. change (wrap 8 (0 + 1) =? 1) with true. cbn [rust_assert res_bind forward_index search_index].
  unfold update_vector_index_data, is_data_vector, index_data_new. rewrite Hlv. cbn [rust_assert Z.eqb res_bind forallb andb].
  rewrite (leaf_is_centroid c Hc), collect_fields_named. cbn [rust_assert res_bind of_encoding res_map_err andb forward_index search_index].
  set (data := mkIndexData [c] _). set (d3 := mkDelta (mkForward _ _ _ _ _ _) _).
  destruct (index_attributes_ok v (attributes w) d3 Ha) as (d4 & -> & Hsame). exists d4, v, data. split; [done|].
  assert (Hp : ∀ c', updates_of d3 c' = updates_of (mkDelta fw se) c' ++ if decide (c' = c) then [PAppend v (values w)] else []).
  { intros c'. cbn. rewrite lookup_insert. destruct (decide (c = c')) as [<-|Hne']; [by rewrite decide_True|by rewrite decide_False, app_nil_r]. }
  assert (Hs : Step lo {[external_id w]} (mkDelta fw se) d3).
  { split; cbn [d3 forward_index search_index dictionary_updates vector_updates vector_index_updates vector_deletes fi_allocator current_posting push_update].
    - lia.
    - intros x Hx%not_elem_of_singleton. by rewrite lookup_insert_ne.
    - intros v' Hv'. by rewrite lookup_insert_ne by lia.
    - intros v' Hv'. by rewrite lookup_insert_ne by lia.
    - done.
    - by left.
    - intros c'. rewrite Hp. eexists. split; [done|]. case_decide; [|done]. apply Forall_singleton. cbn. lia.
    - intros v' H1 H2 H3. by rewrite lookup_insert_ne by lia. }
  split; [|split].
  - eapply same_ready; [done|]. split; cbn [d3 forward_index search_index fi_allocator fi_ops current_posting push_update].
    + done.
    + lia.
    + intros v' Hv'. rewrite lookup_insert_ne by lia. by apply Hcur.
    + done.
  - eapply step_trans_same; [done|]. by apply same_step.
  - eapply same_written; [done|]. split; cbn [d3 forward_index search_index dictionary_updates vector_updates vector_index_updates vector_deletes fi_allocator].
    + by rewrite lookup_insert_eq.
    + lia.
    + intros ?%Hdel. lia.
    + by rewrite lookup_insert_eq.
    + by rewrite lookup_insert_eq.
    + done.
    + intros m. rewrite Hp, decide_True by done. unfold apply_updates. rewrite foldl_app. cbn. by rewrite lookup_insert_eq.
Qed.

(** an old vector leaves a posting list *)
Lemma remove_posting_ok X n c old d : Ready n d → old < lo → level old = 0 → level c = 1 →
  ∃ d', in_search (remove_from_posting c old) d = Ok d' ∧ Ready n d' ∧ Step lo X d d' ∧ LastIs d' c old None ∧ forward_index d' = forward_index d.
Proof.
  intros Hr Hold Hlv Hc. pose proof (ready_lo _ _ Hr) as Hlo. destruct Hr as [Hal Hroom Hcur Hdel]. unfold in_search, remove_from_posting.
  rewrite Hlv, Hc, (Hcur old Hold). change (wrap 8 (0 + 1) =? 1) with true. cbn [rust_assert res_bind]. eexists. split; [done|].
  set (d' := mkDelta _ _).
  assert (Hp : ∀ c', updates_of d' c' = updates_of d c' ++ if decide (c' = c) then [PDelete old] else []).
  { intros c'. cbn. rewrite lookup_insert. destruct (decide (c = c')) as [<-|Hne']; [by rewrite decide_True|by rewrite decide_False, app_nil_r]. }
  split_and!; [by split| |intros m|done].
  - split; try done; [by left|]. intros c'. rewrite Hp. eexists. split; [done|]. case_decide; [|done]. by apply Forall_singleton.
  - rewrite Hp, decide_True by done. unfold apply_updates. rewrite foldl_app. cbn. by rewrite lookup_delete_eq.
Qed.

Lemma remove_postings_ok X n old cs d : Ready n d → old < lo → level old = 0 → Forall (λ c, level c = 1) cs →
  ∃ d', for_each (λ c, in_search (remove_from_posting c old)) cs d = Ok d' ∧ Ready n d' ∧ Step lo X d d' ∧
    (∀ c, c ∈ cs → LastIs d' c old None) ∧ forward_index d' = forward_index d.
Proof.
  intros Hr Hold Hlv. revert d Hr. induction cs as [|c cs IH]; intros d Hr Hcs; cbn [for_each].
  { exists d. split_and!; [done|done|apply step_refl|by intros c ?%not_elem_of_nil|done]. }
  apply Forall_cons in Hcs as [Hc Hcs]. destruct (remove_posting_ok X n c old d Hr Hold Hlv Hc) as (d1 & -> & Hr1 & Hs1 & Hl1 & Hf1). cbn [res_bind].
  destruct (IH d1 Hr1 Hcs) as (d2 & -> & Hr2 & Hs2 & Hl2 & Hf2). exists d2. split; [done|]. split; [done|].
  split; [by eapply step_trans_same|]. split; [|congruence]. intros c' [->|Hc']%elem_of_cons; [|by apply Hl2].
  eapply last_is_old; [done| |done]. pose proof (ready_lo _ _ Hr1). lia.
Qed.

Lemma remove_indexes_ok old fs d : Forall encodable fs →
  ∃ d', for_each (λ f, in_search (remove_from_inverted_index (field_name f) (field_value f) old)) fs d = Ok d' ∧ SameLists d d'.
Proof.
  rewrite Forall_forall. intros Hf. apply for_each_same. intros f d0 (k & Hk)%Hf. unfold in_search, remove_from_inverted_index.
  rewrite Hk. cbn. by eexists.
Qed.

(** an old vector can be removed *)
Definition removable (old : VectorId) (data : VectorIndexDataValue) : Prop :=
  old < lo ∧ level old = 0 ∧ Forall (λ c, level c = 1) (vi_postings data) ∧ Forall encodable (vi_indexed_fields data).

Lemma remove_old_ok X n old data d : Ready n d → removable old data →
  ∃ d', remove_old old data d = Ok d' ∧ Ready n d' ∧ Step lo X d d' ∧ Gone lo d' old data.
Proof.
  intros Hr (Hold & Hlv & Hps & Hfs). pose proof (ready_lo _ _ Hr) as Hlo. unfold remove_old, in_forward at 1. cbn [res_bind].
  set (d1 := mkDelta _ _). assert (Hr1 : Ready n d1).
  { destruct Hr as [H1 H2 H3 H4]. split; try done. intros v [->%elem_of_singleton|?]%elem_of_union; [done|by apply H4]. }
  assert (Hs1 : Step lo X d d1).
  { split; try done.
    - intros v Hv. cbn. by rewrite lookup_delete_ne by lia.
    - intros v Hv. cbn. apply elem_of_union. by right.
    - intros v [->%elem_of_singleton|?]%elem_of_union; [by right|by left].
    - intros c. exists []. by rewrite app_nil_r. }
  destruct (remove_postings_ok X n old (vi_postings data) d1 Hr1 Hold Hlv Hps) as (d2 & -> & Hr2 & Hs2 & Hl2 & Hf2). cbn [res_bind].
  destruct (remove_indexes_ok old (vi_indexed_fields data) d2 Hfs) as (d3 & -> & Hsame). exists d3. split; [done|].
  split; [by eapply same_ready|]. split; [eapply step_trans_same; [done|]; eapply step_trans_same; [done|]; by apply same_step|].
  apply (gone_step lo X d2 d3); [by apply same_step|]. split; [pose proof (ready_lo _ _ Hr2); lia| |done].
  rewrite Hf2. cbn. apply elem_of_union. left. by apply elem_of_singleton.
Qed.

(** ** A batch of writes *)
(** writes to different ids, one after the other *)
Lemma for_each_writes {A} (key : A → bytes) (f : A → VectorIndexDelta → res DbError VectorIndexDelta) (P : A → VectorIndexDelta → Prop) :
  (∀ a X d d', Step lo X d d' → key a ∉ X → P a d → P a d') →
  ∀ l n d, 0 ≤ n → Ready (n + blen l) d → NoDup (key <$> l) →
  (∀ a n d, a ∈ l → 0 ≤ n → Ready (n + 1) d → ∃ d', f a d = Ok d' ∧ Ready n d' ∧ Step lo {[key a]} d d' ∧ P a d') →
  ∃ d', for_each f l d = Ok d' ∧ Ready n d' ∧ Step lo (list_to_set (key <$> l)) d d' ∧ ∀ a, a ∈ l → P a d'.
Proof.
  intros HP. induction l as [|a l IH]; intros n d Hn Hr Hnd Hf; cbn [for_each].
  { exists d. split_and!; [done| |apply step_refl|by intros a ?%not_elem_of_nil]. unfold blen in Hr. cbn in Hr. by rewrite Z.add_0_r in Hr. }
  rewrite fmap_cons, NoDup_cons in Hnd. destruct Hnd as [Ha Hnd]. assert (0 ≤ blen l) by (unfold blen; lia).
  destruct (Hf a (n + blen l) d) as (d1 & -> & Hr1 & Hs1 & Hp1); [by left|lia| |].
  { replace (n + blen l + 1) with (n + blen (a :: l)); [done|]. unfold blen. cbn. lia. }
  cbn [res_bind]. destruct (IH n d1 Hn Hr1 Hnd) as (d2 & -> & Hr2 & Hs2 & Hp2); [intros; apply Hf; [by right|done..]|].
  exists d2. split; [done|]. split; [done|]. split; [by apply (step_trans lo _ _ _ d1)|].
  intros b [->|Hb]%elem_of_cons; [|by apply Hp2]. apply (HP a _ d1 d2 Hs2); [|done]. rewrite elem_of_list_to_set. done.
Qed.

(** ** Compaction *)
(** the last write to an id *)
Definition last_write (writes : list VectorWrite) (x : bytes) : option VectorWrite := last (filter (λ w, external_id w = x) writes).

Lemma insert_writes writes x : insert_all ∅ ((λ w, (external_id w, w)) <$> writes) !! x = last_write writes x.
Proof.
  unfold last_write. induction writes as [|w writes IH] using rev_ind; [done|]. rewrite fmap_app, insert_all_app, filter_app, (filter_cons _ w []), filter_nil.
  change (insert_all ?m ((λ w, (external_id w, w)) <$> [w])) with (<[external_id w := w]> m).
  rewrite lookup_insert. case_decide as He; [by rewrite last_snoc|]. by rewrite app_nil_r.
Qed.

Lemma last_write_id writes x w : last_write writes x = Some w → w ∈ writes ∧ external_id w = x.
Proof. intros H. apply last_Some_elem_of, list_elem_of_filter in H. tauto. Qed.

Lemma elem_of_compact writes w : w ∈ compact_writes writes ↔ last_write writes (external_id w) = Some w.
Proof.
  unfold compact_writes. rewrite elem_of_hash_values. setoid_rewrite insert_writes. split; [|by eexists].
  intros (x & Hx). by destruct (last_write_id _ _ _ Hx) as [_ ->].
Qed.

Lemma compact_nodup writes : NoDup (external_id <$> compact_writes writes).
Proof.
  unfold compact_writes, hash_values. rewrite <-list_fmap_compose. set (m := insert_all ∅ _).
  rewrite (list_fmap_ext (external_id ∘ snd) fst); [apply hash_iter_nodup|].
  intros i [x w] Hi%list_elem_of_lookup_2%elem_of_hash_iter. cbn. unfold m in Hi. rewrite insert_writes in Hi. by apply last_write_id in Hi as [_ ->].
Qed.

(** ** The nearest leaf *)
Lemma beam_search_level index q n es : TreeOk index dims → es ≠ [] →
  (∀ e, e ∈ es → Reached index e ∧ level e.1 = 1 + Z.of_nat n) →
  ∃ e rest, beam_search cpu index q 1 n es = e :: rest ∧ level e.1 = 1.
Proof.
  intros HT. revert es. induction n as [|n IH]; intros es Hne Hes; cbn [beam_search].
  - destruct es as [|e0 es]; [done|]. pose proof (VecSearchSpec.nearest_nonempty cpu q (ix_metric index) 1 (e0 :: es) e0 ltac:(lia) ltac:(left)) as Hnn.
    destruct (nearest _ _ _ _ _) as [|e rest] eqn:E; [done|]. exists e, rest. split; [done|].
    destruct (Hes e); [|lia]. apply (VecSearchSpec.nearest_subseteq cpu q (ix_metric index) 1). rewrite E. left.
  - set (k := Z.max (ix_beam index) 1). set (near := nearest cpu q (ix_metric index) k es).
    assert (Hsub : ∀ e, e ∈ near → Reached index e ∧ level e.1 = 1 + Z.of_nat (S n)).
    { intros e He. apply Hes. by apply (VecSearchSpec.nearest_subseteq cpu q (ix_metric index) k). }
    assert (Hnode : ∀ e, e ∈ near → ∃ pl, fetch index e.1 = Ok pl ∧ VecSearchSpec.node_ok (level e.1 - 1) pl ∧ list_of index e.1 = entries pl).
    { intros [c v] He. destruct (Hsub _ He) as [Hr Hl]. destruct (VecSearchSpec.ok_node _ _ HT c v Hr) as (pl & Hf & Hok); [cbn in Hl; lia|].
      exists pl. split; [done|]. split; [done|]. unfold list_of, loaded. cbn [fst]. by rewrite Hf. }
    apply IH.
    + destruct es as [|e0 es]; [done|]. pose proof (VecSearchSpec.nearest_nonempty cpu q (ix_metric index) k (e0 :: es) e0 ltac:(lia) ltac:(left)) as Hnn.
      fold near in Hnn. destruct near as [|e rest] eqn:E; [done|]. destruct (Hnode e ltac:(left)) as (pl & _ & (Hpl & _) & Hlist).
      intros Hn%(f_equal length). cbn in Hn. rewrite length_app, Hlist in Hn. unfold entries in Hn. rewrite length_fmap in Hn. destruct pl; cbn in Hn; [done|lia].
    + intros e (c & He & ([c' v] & -> & Hc)%list_elem_of_fmap)%list_elem_of_bind. cbn [fst] in He.
      destruct (Hnode _ Hc) as (pl & Hf & (_ & _ & Hlev) & Hlist), (Hsub _ Hc) as [Hr Hl]. cbn [fst] in *. rewrite Hlist in He.
      apply list_elem_of_fmap in He as (p & -> & Hp). split; [eapply VecSearchSpec.reached_node; [done|lia|done|done]|].
      cbn. rewrite (Hlev p Hp). lia.
Qed.

Lemma nearest_leaf index q : TreeOk index dims → ∃ e rest, answer cpu index 1 1 q = e :: rest ∧ level e.1 = 1.
Proof.
  intros HT. destruct (VecSearchSpec.ok_root _ _ HT) as (root & Hroot & Hne & _ & Hlev). pose proof (VecSearchSpec.ok_depth _ _ HT) as Hd.
  assert (Hlist : list_of index ROOT_VECTOR_ID = entries root) by (unfold list_of, loaded; by rewrite Hroot).
  apply beam_search_level; [done|rewrite Hlist; by intros ?%fmap_nil_inv|]. rewrite Hlist. intros e (p & -> & Hp)%list_elem_of_fmap.
  split; [by eapply VecSearchSpec.reached_root|]. cbn. rewrite (Hlev p Hp). unfold max_inner_level. lia.
Qed.

Lemma first_centroids_ok (l : list (bytes * list Posting)) asg : NoDup l.*1 → Forall (λ r, r.2 ≠ []) l →
  ∃ asg', first_centroids l asg = Ok asg' ∧ (∀ x p ps, (x, p :: ps) ∈ l → asg' !! x = Some (p_id p)) ∧ ∀ x, x ∉ l.*1 → asg' !! x = asg !! x.
Proof.
  revert asg. induction l as [|[x ps] l IH]; intros asg Hn Hl; cbn [first_centroids].
  { exists asg. split_and!; [done|by intros ??? ?%not_elem_of_nil|done]. }
  apply Forall_cons in Hl as [Hx Hl]. rewrite fmap_cons, NoDup_cons in Hn. destruct Hn as [Hxl Hn]. destruct ps as [|p ps]; [done|].
  destruct (IH (<[x := p_id p]> asg) Hn Hl) as (asg' & -> & H1 & H2). exists asg'. split; [done|]. split.
  - intros y q qs [[= -> -> ->]|Hy]%elem_of_cons; [|by eapply H1]. by rewrite H2, lookup_insert_eq.
  - intros y Hy. rewrite fmap_cons, not_elem_of_cons in Hy. destruct Hy as [Hne Hy]. by rewrite H2, lookup_insert_ne.
Qed.

(** every write is assigned to the leaf nearest to it *)
Lemma assign_centroids_ok index ws : TreeOk index dims → NoDup (external_id <$> ws) → Forall (λ w, length (values w) = dims) ws →
  ∃ asg, assign_centroids cpu ((λ w, (external_id w, values w)) <$> ws) index = Ok asg ∧
    ∀ w, w ∈ ws → ∃ e rest, answer cpu index 1 1 (values w) = e :: rest ∧ asg !! external_id w = Some e.1 ∧ level e.1 = 1.
Proof.
  intros HT Hn Hd. unfold assign_centroids, batch_search_centroids. pose proof (VecSearchSpec.ok_depth _ _ HT) as Hdep.
  set (queries := (λ w, (external_id w, values w)) <$> ws).
  destruct (VecSearchSpec.batch_search_spec cpu index dims HT 1 ltac:(lia) 1 ltac:(unfold max_inner_level; lia) queries) as (res & Hr & A1 & A2).
  { unfold queries. by rewrite <-list_fmap_compose. }
  { unfold queries. by rewrite Forall_fmap. }
  change (tl_leaf (ix_depth index)) with (Inner 1 (ix_depth index)). rewrite Hr. cbn [res_bind].
  assert (Hans : ∀ x ps, res !! x = Some ps → ∃ q, (x, q) ∈ queries ∧ entries ps = answer cpu index 1 1 q).
  { intros x ps Hx. destruct (decide (x ∈ queries.*1)) as [Hin|Hno]; [|by rewrite A2 in Hx].
    apply list_elem_of_fmap in Hin as ([x' q] & -> & Hq). exists q. split; [done|]. destruct (A1 _ _ Hq) as (ps' & Hps' & He & _). cbn in Hx. congruence. }
  destruct (first_centroids_ok (hash_iter res) ∅) as (asg & Hasg & H1 & _).
  { apply hash_iter_nodup. }
  { apply Forall_forall. intros [x ps] Hx%elem_of_hash_iter Hps. cbn in Hps. subst ps. destruct (Hans _ _ Hx) as (q & _ & He).
    destruct (nearest_leaf index q HT) as (e & rest & Ha & _). by rewrite Ha in He. }
  exists asg. split; [done|]. intros w Hw. assert (Hq : (external_id w, values w) ∈ queries) by (apply list_elem_of_fmap; by exists w).
  destruct (A1 _ _ Hq) as (ps & Hps & He & _). destruct (nearest_leaf index (values w) HT) as (e & rest & Ha & Hl).
  exists e, rest. split; [done|]. split; [|done]. rewrite Ha in He. destruct ps as [|p ps]; [done|]. injection He as <- _.
  apply (H1 _ p ps). by apply elem_of_hash_iter.
Qed.

(** ** Reads in any order *)
Lemma collect_results_ok {A} (xs : list (DbError + A)) l : xs ≡ₚ inr <$> l → ∃ l', collect_results xs = Ok l' ∧ l' ≡ₚ l.
Proof.
  intros Hp. assert (Hall : Forall (λ x, ∃ a, x = inr a) xs).
  { rewrite Hp. apply Forall_fmap, Forall_forall. intros a _. by exists a. }
  assert (Hc : ∃ l', collect_results xs = Ok l' ∧ xs = inr <$> l').
  { clear Hp. induction xs as [|x xs IH]; [by exists []|]. apply Forall_cons in Hall as [(a & ->) Hall]. destruct (IH Hall) as (l' & Hl & ->).
    exists (a :: l'). cbn [collect_results]. by rewrite Hl. }
  destruct Hc as (l' & Hl & ->). exists l'. split; [done|].
  apply (omap_Permutation (λ x : DbError + A, match x with inr a => Some a | inl _ => None end)) in Hp.
  assert (Ho : ∀ k : list A, omap (λ x : DbError + A, match x with inr a => Some a | inl _ => None end) (inr <$> k) = k)
    by (induction k as [|a k IH]; [done|]; cbn; by rewrite IH). by rewrite !Ho in Hp.
Qed.

Lemma async_batch_ok {A B} (f : A → res DbError B) (g : A → B) l : (∀ x, x ∈ l → f x = Ok (g x)) →
  ∃ xs, async_batch (f <$> l) = Ok xs ∧ xs ≡ₚ inr <$> (g <$> l).
Proof. intros H. unfold async_batch. rewrite (join_all_ok f g) by done. cbn [res_bind]. eexists. split; [done|]. by rewrite any_order_perm, <-list_fmap_compose. Qed.

(** ** Writing *)
(** the index of the round, the writes, and the records of the vectors to be replaced *)
Record UpsertReady (writes : list VectorWrite) (index : LeveledCentroidIndex) : Prop := mkUpsertReady {
  up_index : view_centroid_index now (delta_new state) state snapshot snapshot_epoch dims (o_metric opts) = Ok index;
  up_tree : TreeOk index dims;
  up_write w : w ∈ writes → length (values w) = dims ∧ Forall attribute_ok (attributes w);
  up_known x old : dictionary state !! x = Some old → ∃ data, get_vector_index_data now snapshot old = Ok (Some data) ∧ removable old data;
  up_block : block_ok (sequence_block state);
  up_room : block_end (sequence_block state) + blen writes * (1 + DEFAULT_BLOCK_SIZE) < 2 ^ 56;
}.

Definition PutAt (index : LeveledCentroidIndex) (w : VectorWrite) (d : VectorIndexDelta) : Prop :=
  ∃ v data e rest, answer cpu index 1 1 (values w) = e :: rest ∧ Written lo d w v data e.1.

Lemma put_step index w X d d' : Step lo X d d' → external_id w ∉ X → PutAt index w d → PutAt index w d'.
Proof. intros Hs Hx (v & data & e & rest & Ha & Hw). exists v, data, e, rest. split; [done|]. by eapply written_step. Qed.

Lemma apply_insert_ok index asg w n d e rest : answer cpu index 1 1 (values w) = e :: rest → asg !! external_id w = Some e.1 → level e.1 = 1 →
  Forall attribute_ok (attributes w) → 0 ≤ n → Ready (n + 1) d →
  ∃ d', apply_insert opts asg w d = Ok d' ∧ Ready n d' ∧ Step lo {[external_id w]} d d' ∧ PutAt index w d'.
Proof.
  intros Ha Hasg Hl Hat Hn Hr. unfold apply_insert, assigned. rewrite Hasg. cbn [res_bind].
  destruct (add_write_ok n e.1 w d Hn Hr Hl Hat) as (d' & v & data & -> & Hr' & Hs & Hw). exists d'. split_and!; [done..|]. by exists v, data, e, rest.
Qed.

Lemma apply_upsert_ok index asg w old data n d e rest : answer cpu index 1 1 (values w) = e :: rest → asg !! external_id w = Some e.1 → level e.1 = 1 →
  Forall attribute_ok (attributes w) → removable old data → 0 ≤ n → Ready (n + 1) d →
  ∃ d', apply_upsert opts asg (w, (old, data)) d = Ok d' ∧ Ready n d' ∧ Step lo {[external_id w]} d d' ∧ PutAt index w d' ∧ Gone lo d' old data.
Proof.
  intros Ha Hasg Hl Hat Hold Hn Hr. unfold apply_upsert, assigned. cbn [fst snd]. rewrite Hasg. cbn [res_bind].
  destruct (remove_old_ok {[external_id w]} (n + 1) old data d Hr Hold) as (d1 & -> & Hr1 & Hs1 & Hg1). cbn [res_bind].
  destruct (add_write_ok n e.1 w d1 Hn Hr1 Hl Hat) as (d' & v & idx & -> & Hr' & Hs & Hw). exists d'. split_and!; [done..| |by exists v, idx, e, rest|].
  - by eapply step_trans_same.
  - by eapply gone_step.
Qed.

Lemma split_lengths ws : (length (split_writes state (delta_new state) ws).1 + length (split_writes state (delta_new state) ws).2)%nat = length ws.
Proof.
  unfold split_writes. cbn [fst snd]. induction ws as [|w ws IH]; [done|]. rewrite filter_cons. cbn [omap list_omap].
  destruct (view_vector_id (delta_new state) state (external_id w)) as [v|] eqn:E.
  - rewrite decide_False by done. cbn [fmap option_fmap option_map length]. cbn in IH. rewrite Nat.add_succ_r. by f_equal.
  - rewrite decide_True by done. cbn [fmap option_fmap option_map length]. cbn in IH. rewrite Nat.add_succ_l. by f_equal.
Qed.

Lemma compact_length writes : (length (compact_writes writes) ≤ length writes)%nat.
Proof.
  rewrite <-(length_fmap external_id (compact_writes writes)), <-(length_fmap external_id writes). apply submseteq_length, NoDup_submseteq; [apply compact_nodup|].
  intros x (w & -> & Hw%elem_of_compact)%list_elem_of_fmap. apply last_write_id in Hw as [Hw _]. apply list_elem_of_fmap. by exists w.
Qed.

Definition old_data (old : VectorId) : VectorIndexDataValue :=
  match get_vector_index_data now snapshot old with Ok (Some data) => data | _ => mkIndexData [] [] end.

Lemma resolve_upsert_ok writes index w old : UpsertReady writes index → dictionary state !! external_id w = Some old →
  resolve_upsert now snapshot (delta_new state) w old = Ok (w, (old, old_data old)) ∧ removable old (old_data old) ∧
  get_vector_index_data now snapshot old = Ok (Some (old_data old)).
Proof.
  intros Hu Hold. destruct (up_known _ _ Hu _ _ Hold) as (data & Hd & Hr). unfold old_data. rewrite Hd. split; [|done].
  unfold resolve_upsert, view_vector_index_data. cbn. rewrite bool_decide_eq_false_2 by apply not_elem_of_empty. by rewrite lookup_empty, Hd.
Qed.

Lemma elem_of_existing ws w old : (w, old) ∈ (split_writes state (delta_new state) ws).2 ↔ w ∈ ws ∧ dictionary state !! external_id w = Some old.
Proof.
  unfold split_writes. cbn [snd]. rewrite list_elem_of_omap. unfold view_vector_id. cbn. split.
  - intros (w' & Hw' & Hf). rewrite lookup_empty in Hf. destruct (dictionary state !! external_id w') eqn:E; [|done]. by injection Hf as -> ->.
  - intros [Hw Ho]. exists w. split; [done|]. by rewrite lookup_empty, Ho.
Qed.

Lemma elem_of_inserts ws w : w ∈ (split_writes state (delta_new state) ws).1 ↔ w ∈ ws ∧ dictionary state !! external_id w = None.
Proof. unfold split_writes, view_vector_id. cbn [fst]. rewrite list_elem_of_filter. cbn. rewrite lookup_empty. tauto. Qed.

Lemma split_nodup ws : NoDup (external_id <$> ws) →
  NoDup (external_id <$> (split_writes state (delta_new state) ws).1) ∧ NoDup ((λ p, external_id p.1) <$> (split_writes state (delta_new state) ws).2).
Proof.
  intros Hn. split; [eapply sublist_NoDup; [exact Hn|]; apply fmap_sublist, sublist_filter|].
  eapply sublist_NoDup; [exact Hn|]. unfold split_writes. cbn [snd]. clear Hn. induction ws as [|w ws IH]; [done|].
  cbn [omap list_omap]. destruct (view_vector_id (delta_new state) state (external_id w)); cbn; [by apply sublist_skip|by apply sublist_cons].
Qed.

Lemma start_ready n : block_ok (sequence_block state) → block_end (sequence_block state) + n * (1 + DEFAULT_BLOCK_SIZE) < 2 ^ 56 → Ready n (delta_new state).
Proof. intros Hb Hroom. split; cbn; [by apply alloc_ok_start|done|intros v _; apply lookup_empty|by intros v ?%not_elem_of_empty]. Qed.

(** the inserts of a batch *)
Lemma inserts_ok writes index asg ws n d : UpsertReady writes index → (∀ w, w ∈ ws → w ∈ writes) → NoDup (external_id <$> ws) →
  (∀ w, w ∈ ws → ∃ e rest, answer cpu index 1 1 (values w) = e :: rest ∧ asg !! external_id w = Some e.1 ∧ level e.1 = 1) →
  0 ≤ n → Ready (n + blen ws) d →
  ∃ d', for_each (apply_insert opts asg) ws d = Ok d' ∧ Ready n d' ∧ Step lo (list_to_set (external_id <$> ws)) d d' ∧ ∀ w, w ∈ ws → PutAt index w d'.
Proof.
  intros Hu Hws Hnd Hasg Hn Hr. apply for_each_writes; [intros a X d1 d2; apply put_step|done..|]. intros w n' d1 Hw Hn' Hr1.
  destruct (Hasg w Hw) as (e & rest & Ha & Hc & Hl). eapply apply_insert_ok; try done. by apply (up_write _ _ Hu), Hws.
Qed.

(** the updates of a batch *)
Lemma upserts_ok writes index asg (us : list (VectorWrite * (VectorId * VectorIndexDataValue))) n d : UpsertReady writes index → (∀ u, u ∈ us → u.1 ∈ writes ∧ removable u.2.1 u.2.2) → NoDup ((λ u, external_id u.1) <$> us) →
  (∀ u, u ∈ us → ∃ e rest, answer cpu index 1 1 (values u.1) = e :: rest ∧ asg !! external_id u.1 = Some e.1 ∧ level e.1 = 1) →
  0 ≤ n → Ready (n + blen us) d →
  ∃ d', for_each (apply_upsert opts asg) us d = Ok d' ∧ Ready n d' ∧ Step lo (list_to_set ((λ u, external_id u.1) <$> us)) d d' ∧
    ∀ u, u ∈ us → PutAt index u.1 d' ∧ Gone lo d' u.2.1 u.2.2.
Proof.
  intros Hu Hus Hnd Hasg Hn Hr. apply (for_each_writes (λ u, external_id u.1) _ (λ u d, PutAt index u.1 d ∧ Gone lo d u.2.1 u.2.2)); [|done..|].
  - intros u X d1 d2 Hs Hx [Hp Hg]. split; [by eapply put_step|by eapply gone_step].
  - intros [w [old data]] n' d1 Hw Hn' Hr1. destruct (Hasg _ Hw) as (e & rest & Ha & Hc & Hl), (Hus _ Hw) as [Hin Hrem]. cbn [fst snd] in *.
    eapply apply_upsert_ok; try done. by apply (up_write _ _ Hu).
Qed.

Lemma write_batch_ok writes index : UpsertReady writes index →
  ∃ ni nu d', write_vectors cpu now opts state snapshot snapshot_epoch writes (delta_new state) = Ok (ni, nu, d') ∧
    Step lo (list_to_set (external_id <$> compact_writes writes)) (delta_new state) d' ∧
    ∀ w, w ∈ compact_writes writes → PutAt index w d' ∧
      ∀ old, dictionary state !! external_id w = Some old → get_vector_index_data now snapshot old = Ok (Some (old_data old)) ∧ Gone lo d' old (old_data old).
Proof.
  intros Hu. unfold write_vectors. case_bool_decide as Hnil.
  { subst writes. exists 0%nat, 0%nat, (delta_new state). split; [done|]. split; [apply step_refl|]. intros w Hw%elem_of_compact. by apply last_write_id in Hw as [?%not_elem_of_nil _]. }
  fold dims. rewrite (up_index _ _ Hu). cbn [res_bind]. set (ws := compact_writes writes).
  assert (Hin : ∀ w, w ∈ ws → w ∈ writes) by (intros w Hw%elem_of_compact; by apply last_write_id in Hw as [? _]).
  pose proof (compact_nodup writes) as Hnd. fold ws in Hnd.
  destruct (assign_centroids_ok index ws (up_tree _ _ Hu) Hnd) as (asg & Hasg & Hans).
  { apply Forall_forall. intros w Hw. by apply (up_write _ _ Hu), Hin. }
  destruct (split_writes state (delta_new state) ws) as [ins ex] eqn:Esp.
  pose proof (split_lengths ws) as Hlen. rewrite Esp in Hlen. cbn [fst snd] in Hlen.
  assert (Hins : ∀ w, w ∈ ins ↔ w ∈ ws ∧ dictionary state !! external_id w = None) by (intros w; pose proof (elem_of_inserts ws w) as H; by rewrite Esp in H).
  assert (Hex : ∀ w old, (w, old) ∈ ex ↔ w ∈ ws ∧ dictionary state !! external_id w = Some old) by (intros w old; pose proof (elem_of_existing ws w old) as H; by rewrite Esp in H).
  rewrite Hasg. set (g := λ p : VectorWrite * VectorId, (p.1, (p.2, old_data p.2))).
  destruct (async_batch_ok (λ p, resolve_upsert now snapshot (delta_new state) p.1 p.2) g ex) as (xs & -> & Hxs).
  { intros [w old] [_ Ho]%Hex. by apply (resolve_upsert_ok writes index). }
  destruct (collect_results_ok xs (g <$> ex) Hxs) as (us & Hus & Hperm). rewrite Hus. cbn [res_bind].
  destruct (split_nodup ws Hnd) as [Hni Hne]. rewrite Esp in Hni, Hne. cbn [fst snd] in Hni, Hne. pose proof (compact_length writes) as Hcl. fold ws in Hcl.
  assert (Hul : length us = length ex) by (by rewrite Hperm, length_fmap).
  assert (Hstart : Ready (blen us + blen ins) (delta_new state)).
  { apply start_ready; [apply (up_block _ _ Hu)|]. pose proof (up_room _ _ Hu) as Hroom. unfold blen, DEFAULT_BLOCK_SIZE in *. lia. }
  destruct (inserts_ok writes index asg ins (blen us) (delta_new state)) as (d1 & -> & Hr1 & Hs1 & Hp1); try done.
  { intros w [Hw _]%Hins. by apply Hin. }
  { intros w [Hw _]%Hins. by apply Hans. }
  { unfold blen. lia. }
  cbn [res_bind].
  assert (Hmem : ∀ u, u ∈ us ↔ ∃ old, (u.1, old) ∈ ex ∧ u = (u.1, (old, old_data old))).
  { intros u. rewrite Hperm, list_elem_of_fmap. split; [intros ([w old] & -> & Hp); by exists old|intros (old & Hp & Hu'); exists (u.1, old); by split]. }
  destruct (upserts_ok writes index asg us 0 d1) as (d2 & -> & Hr2 & Hs2 & Hp2); try done.
  { intros u (old & [Hw Ho]%Hex & ->)%Hmem. cbn [fst snd] in *. split; [by apply Hin|]. by apply (resolve_upsert_ok writes index u.1). }
  { assert (Heq : (λ u, external_id u.1) <$> us ≡ₚ (λ p, external_id p.1) <$> ex); [|by rewrite Heq].
    rewrite Hperm, <-list_fmap_compose. done. }
  { intros u (old & [Hw _]%Hex & _)%Hmem. by apply Hans. }
  cbn [res_bind]. do 3 eexists. split; [done|]. split.
  - pose proof (step_trans lo _ _ _ _ _ Hs1 Hs2) as Hs. assert (HX : ∀ x, x ∉ (list_to_set (external_id <$> ws) : gset bytes) →
      x ∉ (list_to_set (external_id <$> ins) ∪ list_to_set ((λ u, external_id u.1) <$> us) : gset bytes)).
    { intros x Hx. rewrite elem_of_list_to_set in Hx. rewrite elem_of_union, !elem_of_list_to_set, !list_elem_of_fmap.
      intros [(w & -> & [Hw _]%Hins)|(u & -> & (old & [Hw _]%Hex & _)%Hmem)]; apply Hx, list_elem_of_fmap; by eexists. }
    destruct Hs as [H1 H2 H3 H4 H5 H6 H7 H8]. split; try done. intros x Hx. apply H2. by apply HX.
  - intros w Hw. destruct (dictionary state !! external_id w) as [old|] eqn:Ho.
    + assert (Hwu : (w, (old, old_data old)) ∈ us) by (apply Hmem; exists old; split; [by apply Hex|done]).
      destruct (Hp2 _ Hwu) as [Hput Hgone]. split; [done|]. intros old' [= <-]. split; [|done]. by apply (resolve_upsert_ok writes index w).
    + split; [|done]. eapply put_step; [exact Hs2| |by apply Hp1, Hins].
      rewrite elem_of_list_to_set, list_elem_of_fmap. intros (u & Hx & (old & [_ Ho']%Hex & _)%Hmem). congruence.
Qed.

(** C9: Writing a batch is an upsert of every external id in it.  On a sound tree the
    whole batch is written, and afterwards, as the round sees it: an id has a new vector,
    never used before, that holds exactly the last write to it in the batch; the vector
    is indexed under one leaf, the one the search of the tree finds nearest, whose posting
    list has it with its values; different ids have different vectors.  The vector an id
    had before is gone: its record, its index data, and its entry in every posting list it
    was in.  Ids the batch does not name keep their vectors. *)
Theorem write_vectors_upserts writes index :
  UpsertReady writes index →
  ∃ ni nu d', write_vectors cpu now opts state snapshot snapshot_epoch writes (delta_new state) = Ok (ni, nu, d') ∧
    (∀ x, match last_write writes x with
     | None => view_vector_id d' state x = dictionary state !! x
     | Some w => ∃ v data e rest, answer cpu index 1 1 (values w) = e :: rest ∧
         view_vector_id d' state x = Some v ∧ next_sequence (sequence_block state) ≤ v ∧
         view_vector_data now d' snapshot v dims = Ok (Some (vector_data_new x (fields_of (attributes w)))) ∧
         view_vector_index_data now d' snapshot v = Ok (Some data) ∧ vi_postings data = [e.1] ∧ LastIs d' e.1 v (Some (values w)) ∧
         ∀ old, dictionary state !! x = Some old →
           view_vector_data now d' snapshot old dims = Ok None ∧ view_vector_index_data now d' snapshot old = Ok None ∧
           ∀ data c, get_vector_index_data now snapshot old = Ok (Some data) → c ∈ vi_postings data → LastIs d' c old None
     end) ∧
    ∀ x y v, is_Some (last_write writes x) → is_Some (last_write writes y) →
      view_vector_id d' state x = Some v → view_vector_id d' state y = Some v → x = y.
Proof.
  intros Hu. destruct (write_batch_ok writes index Hu) as (ni & nu & d' & Hok & Hs & Hput). exists ni, nu, d'. split; [done|].
  assert (Hlast : ∀ x w, last_write writes x = Some w → external_id w = x ∧ w ∈ compact_writes writes).
  { intros x w Hw. destruct (last_write_id _ _ _ Hw) as [_ <-]. split; [done|]. by apply elem_of_compact. }
  split.
  - intros x. destruct (last_write writes x) as [w|] eqn:Ew.
    + destruct (Hlast _ _ Ew) as [<- Hc]. destruct (Hput w Hc) as [(v & data & e & rest & Ha & Hwr) Hgone]. exists v, data, e, rest.
      unfold view_vector_id, view_vector_data, view_vector_index_data. destruct Hwr as [W1 W2 W3 W4 W5 W6 W7].
      rewrite W1, W4, W5, (bool_decide_eq_false_2 (v ∈ _)) by done. split_and!; try done; [apply W2|]. intros old Ho.
      destruct (Hgone old Ho) as (Hd & [_ G2 G3]). rewrite !(bool_decide_eq_true_2 (old ∈ _)) by done. split_and!; [done..|].
      intros data' c Hd' Hc'. apply G3. congruence.
    + unfold view_vector_id. rewrite (ws_dict _ _ _ _ Hs); [cbn; by rewrite lookup_empty|].
      rewrite elem_of_list_to_set, list_elem_of_fmap. intros (w & -> & Hw%elem_of_compact). congruence.
  - intros x y v [w Hw] [w' Hw'] Hx Hy. destruct (Hlast _ _ Hw) as [<- Hc], (Hlast _ _ Hw') as [<- Hc'].
    destruct (Hput w Hc) as [(v1 & ? & ? & ? & _ & [W1 _ _ W4 _ _ _]) _], (Hput w' Hc') as [(v2 & ? & ? & ? & _ & [W1' _ _ W4' _ _ _]) _].
    unfold view_vector_id in Hx, Hy. rewrite W1 in Hx. rewrite W1' in Hy. assert (v1 = v2) as <- by congruence. rewrite W4 in W4'.
    injection W4'. by intros _ ->.
Qed.
End batch.

(** ** A batch that inserts one vector and replaces another *)
Module Demo.
#[local] Instance demo_treemap : RoaringTreemap := Plain.plain_treemap.
#[local] Instance demo_hash_order : HashOrder := tree_order.
#[local] Instance demo_hash_laws : HashOrderLaws := tree_order_laws.
#[local] Instance demo_any_order : AnyOrder := {| any_order A l := l |}.
#[local] Instance demo_any_laws : AnyOrderLaws.
Proof. by constructor. Qed.

Definition one : Z := 0x3f800000.
Definition leaf : VectorId := 2 ^ 56 + 1.
Definition opts : IndexerOpts := mkOpts 2 L2 100 1 100 4 ∅.
Definition cpu : Cpu := mkCpu false false false.

(** one leaf below the root, with one vector *)
Definition state : VectorIndexState :=
  mkState {[ [x61] := 0 ]} 3 1 {[leaf := mkInfo 1 [0; 0] ROOT_VECTOR_ID]} {[1 := {[leaf := 1]}]}
    (key_bytes (KSingleton SeqBlock)) (mkAllocated (Some (SeqBlock.new 0 4096)) 1)
    (key_bytes (KSingleton CentroidSeqBlock)) (mkAllocated (Some (SeqBlock.new 0 4096)) 2)
    {[ROOT_VECTOR_ID := mkWritten [posting_new leaf [0; 0]] 0]}.

Definition store : InMemory.t :=
  InMemory.set_data (InMemory.new None None false)
    [(key_bytes (KId VectorIndexData 0), InMemory.mkStored (encoded (index_data_encode (mkIndexData [leaf] []))) None)].

Definition index : LeveledCentroidIndex := leveled_new 3 L2 (view_centroid_reader 0 (delta_new state) state store 0 2).

Definition put (x : bytes) (v : list Z) : VectorWrite := mkWrite x v [(VECTOR_FIELD_NAME, AVector v)].
Definition batch : list VectorWrite := [put [x61] [one; 0]; put [x62] [0; one]; put [x61] [one; one]].

Lemma reached_leaf e : Reached index e → e = (leaf, [0; 0]).
Proof.
  induction 1 as [root p Hr Hp|c v pl p _ IH Hc _ _].
  - assert (Hroot : fetch index ROOT_VECTOR_ID = Ok [posting_new leaf [0; 0]]) by (by vm_compute). rewrite Hroot in Hr. injection Hr as <-.
    by apply list_elem_of_singleton in Hp as ->.
  - injection IH as -> ->. exfalso. by vm_compute in Hc.
Qed.

Lemma batch_ready : UpsertReady 0 opts state store 0 batch index.
Proof.
  split.
  - unfold view_centroid_index. assert (Hd : depth_of (view_centroids_meta (delta_new state)) = Ok 3) by (by vm_compute). by rewrite Hd.
  - split; [done|done|..].
    + exists [posting_new leaf [0; 0]]. split; [by vm_compute|]. split_and!; [done|by repeat constructor|].
      intros p ->%list_elem_of_singleton. by vm_compute.
    + intros c v [= -> ->]%reached_leaf Hc. exfalso. by vm_compute in Hc.
    + by intros c v [= -> ->]%reached_leaf.
    + by intros c v v' [= _ ->]%reached_leaf [= _ ->]%reached_leaf.
  - intros w Hw. assert (Hall : Forall (λ w, length (values w) = 2%nat ∧ Forall (attribute_ok opts) (attributes w)) batch).
    { repeat apply Forall_cons_2; try apply Forall_nil_2; (split; [done|]); (apply Forall_singleton; intros [Hn _]; by destruct Hn). }
    rewrite Forall_forall in Hall. by apply Hall.
  - intros x old Hx. cbn in Hx. apply lookup_singleton_Some in Hx as [_ <-]. exists (mkIndexData [leaf] []). split; [by vm_compute|].
    split_and!; [by vm_compute|by vm_compute|by apply Forall_singleton|by constructor].
  - split; [intros b [= <-]; by vm_compute|by vm_compute].
  - by vm_compute.
Qed.

Lemma write_vectors_upserts_witness :
  ∃ ni nu d', write_vectors cpu 0 opts state store 0 batch (delta_new state) = Ok (ni, nu, d') ∧
    (∃ v, view_vector_id d' state [x61] = Some v ∧ 1 ≤ v ∧
       view_vector_data 0 d' store v 2 = Ok (Some (vector_data_new [x61] [mkField VECTOR_FIELD_NAME (FVector [one; one])])) ∧
       LastIs d' leaf v (Some [one; one])) ∧
    view_vector_data 0 d' store 0 2 = Ok None ∧ LastIs d' leaf 0 None ∧ is_Some (view_vector_id d' state [x62]).
Proof.
  destruct (write_vectors_upserts cpu 0 opts state store 0 batch index batch_ready) as (ni & nu & d' & Hok & Hx & _).
  exists ni, nu, d'. split; [exact Hok|]. pose proof (Hx [x61]) as Ha. pose proof (Hx [x62]) as Hb. clear Hx.
  assert (Ea : last_write batch [x61] = Some (put [x61] [one; one])) by (by vm_compute). rewrite Ea in Ha.
  assert (Eb : last_write batch [x62] = Some (put [x62] [0; one])) by (by vm_compute). rewrite Eb in Hb.
  destruct Ha as (v & data & e & rest & Hans & Hid & Hv & Hdata & _ & _ & Hlast & Hold).
  assert (He : e = (leaf, [0; 0])).
  { assert (Hc : answer cpu index 1 1 [one; one] = [(leaf, [0; 0])]) by (by vm_compute).
    change (values (put [x61] [one; one])) with [one; one] in Hans. rewrite Hc in Hans. by injection Hans as <- _. }
  subst e. destruct (Hold 0) as (Hg & _ & Hun); [by vm_compute|]. split_and!.
  - exists v. split_and!; [exact Hid|exact Hv|exact Hdata|exact Hlast].
  - exact Hg.
  - apply (Hun (mkIndexData [leaf] [])); [by vm_compute|left].
  - destruct Hb as (v' & ? & ? & ? & _ & Hid' & _). by exists v'.
Defined.
End Demo.
End VecWriteSpec.
