(* ===== verification/VecDb.v ===== *)
(** * vector: the database

    [write/delta.rs], [write/flusher.rs] and [db.rs]: validation of writes, the buffered
    batch of the write coordinator, the flusher that indexes a batch and commits it, the
    creation of the tree on an empty store, and loading everything back on a restart.  The
    write coordinator itself is [Coordinator.v]; [validate] runs only in debug builds. *)
From stdpp Require Import gmap strings.
From S2P Require Import Prelude HashMap ByteRange Storage KvStore Sequence VecSerde VecPosting VecMerge VecMath VecList VecSearch VecStore VecState VecKmeans VecQuery VecIndexer.
#[local] Open Scope Z_scope.

Module VecDb.
Import Vec VecPosting VecMerge VecMath VecList VecSearch VecStore VecState VecKmeans VecQuery VecIndexer.

(** ** Configuration *)
Record Config : Type := mkConfig {
  cf_dimensions : nat;
  cf_metric : DistanceMetric;
  cf_split_threshold : Z;
  cf_merge_threshold : Z;
  cf_neighbourhood : Z;
  cf_pruning_factor : option Z;
  metadata_fields : list MetadataFieldSpec;
}.

Definition indexer_opts (config : Config) : IndexerOpts :=
  mkOpts (cf_dimensions config) (cf_metric config) (cf_split_threshold config) (cf_merge_threshold config)
    (cf_split_threshold config) (cf_neighbourhood config)
    (list_to_set (fs_name <$> filter (λ s, fs_indexed s = true) (metadata_fields config))).

(** ** Writes *)
Definition attributes_to_map (attributes : list Attribute) : gmap bytes AttributeValue :=
  insert_all ∅ ((λ a, (attr_name a, attr_value a)) <$> attributes).

Definition attribute_type (v : AttributeValue) : FieldType :=
  match v with
  | AString _ => TString
  | AInt64 _ => TInt64
  | AFloat64 _ => TFloat64
  | ABool _ => TBool
  | AVector _ => TVector
  end.

Section writes.
Context {HO : HashOrder} {FO : FloatOps Z} (config : Config).

Definition schema : gmap bytes FieldType := insert_all ∅ ((λ s, (fs_name s, fs_type s)) <$> metadata_fields config).

Definition check_attribute (a : bytes * AttributeValue) : res DbError unit :=
  if bool_decide (a.1 = VECTOR_FIELD_NAME) then Ok tt
  else match schema !! a.1 with
       | Some expected => if bool_decide (attribute_type a.2 = expected) then Ok tt else Err (EInvalidInput "Type mismatch"%string)
       | None => Err (EInvalidInput "Unknown metadata field"%string)
       end.

Definition validate_attributes (metadata : gmap bytes AttributeValue) : res DbError unit :=
  let? _ := try_map check_attribute (hash_iter metadata) in Ok tt.

Definition prepare_vector_write (vector : Vector) : res DbError VectorWrite :=
  if 64 <? blen (v_id vector) then Err (EInvalidInput "External ID too long"%string)
  else
    let attributes := attributes_to_map (v_attributes vector) in
    match attributes !! VECTOR_FIELD_NAME with
    | Some (AVector values) =>
        if bool_decide (length values ≠ cf_dimensions config) then Err (EInvalidInput "Vector dimension mismatch"%string)
        else
          let values := normalize_if_needed (cf_metric config) values in
          let? _ := if bool_decide (metadata_fields config = []) then Ok tt else validate_attributes attributes in
          Ok (mkWrite (v_id vector) values (hash_iter attributes))
    | Some _ => Err (EInvalidInput "Field 'vector' must have type Vector"%string)
    | None => Err (EInvalidInput "Missing required field 'vector'"%string)
    end.

(** [VectorDb::write] up to the submission of the batch: all or nothing *)
Definition prepare_writes (vectors : list Vector) : res DbError (list VectorWrite) := try_map prepare_vector_write vectors.
End writes.

(** ** The delta of the coordinator *)
Definition delta_init : list VectorWrite := [].
Definition delta_apply (writes : list VectorWrite) (view : list VectorWrite) : list VectorWrite := view ++ writes.
Definition delta_estimate_size (view : list VectorWrite) : nat := length view.

Section db.
Context {HO : HashOrder} {AO : AnyOrder} {RT : RoaringTreemap} {FO : FloatOps Z} (cpu : Cpu) (rng : Z → Draw → Rng).
Context {St : Type} `{!KvStore St} (now : Z) (config : Config).

Let dims := cf_dimensions config.

(** ** The flusher *)
(** after a flush the cache is the writer's own, updated in place ([None]); the one
    loaded when the database is opened is not *)
Record LastAppliedSnapshot : Type := mkLastApplied {
  la_snapshot : St;
  la_epoch : Z;
  la_cache : option CentroidCache;
  la_depth : Z;
  la_centroid_count : nat;
}.

(** the query index of a snapshot, over a cache *)
Definition query_index (cache : CentroidCache) (la : LastAppliedSnapshot) : LeveledCentroidIndex :=
  leveled_new (la_depth la) (cf_metric config) (cached_reader cache (la_epoch la) (stored_reader now (la_snapshot la) dims)).

Record VectorDbFlusher : Type := mkFlusher {
  fl_storage : St;
  last_snapshot : St;
  last_snapshot_epoch : Z;
  fl_state : VectorIndexState;
  last_applied : LastAppliedSnapshot;
  poisoned : option DbError;
}.

Inductive FlushError : Type := Poisoned (err : DbError) | FlushFailed (err : DbError).

Definition apply_and_snapshot (f : VectorDbFlusher) (r : IndexUpdateResults) (epoch : Z) :
    St * res DbError (St * LastAppliedSnapshot) :=
  match of_storage (kv_apply now (ur_ops r) (fl_storage f)) with
  | Ok (storage, _) =>
      (storage, let? snapshot := of_storage (kv_snapshot storage) in
                Ok (snapshot, mkLastApplied snapshot epoch None (ur_depth r) (ur_leaf_centroids r)))
  | Err e => (fl_storage f, Err e)
  | Panic => (fl_storage f, Panic)
  end.

(** [None]: the flush task panicked *)
Definition flush_delta (f : VectorDbFlusher) (writes : list VectorWrite) (epoch_end : Z) :
    option (VectorDbFlusher * (FlushError + St)) :=
  match poisoned f with
  | Some err => Some (f, inl (Poisoned err))
  | None =>
      let update_epoch := saturating_sub epoch_end 1 in
      match update_index cpu (rng update_epoch) now (indexer_opts config) (fl_state f) (last_snapshot f) (last_snapshot_epoch f) writes update_epoch with
      | Panic => None
      | Err e => Some (f, inl (FlushFailed e))
      | Ok (st, r) =>
          let '(storage, result) := apply_and_snapshot f r update_epoch in
          match result with
          | Panic => None
          | Err e =>
              Some (mkFlusher storage (last_snapshot f) (last_snapshot_epoch f) st (last_applied f) (Some e), inl (FlushFailed e))
          | Ok (snapshot, la) => Some (mkFlusher storage snapshot update_epoch st la None, inr snapshot)
          end
      end
  end.

Definition flush_storage (f : VectorDbFlusher) : res DbError VectorDbFlusher :=
  let? s := of_storage (kv_flush (fl_storage f)) in
  Ok (mkFlusher s (last_snapshot f) (last_snapshot_epoch f) (fl_state f) (last_applied f) (poisoned f)).

(** ** Creating and loading the index *)
Definition of_sequence {A} (r : res SequenceError A) : res DbError A :=
  res_map_err (λ e, match e with SeqStorage e => EStorage e | SeqDeserialize e => EEncoding (ErrDeserialize e) end) r.

Definition load_allocator (storage : St) (k : bytes) : res DbError SequenceAllocator :=
  of_sequence (load (λ k, kv_get now k storage) k).

(** the records of one initial centroid *)
Definition bootstrap_centroid (vector : list Z) (a : SequenceAllocator) : res DbError (list RecordOp * PostingUpdate * SequenceAllocator) :=
  let '(n, seq_alloc_put, a) := allocate_one a in
  let? id := of_encoding (centroid_id 1 n) in
  let? info := of_encoding (centroid_info_new 1 vector ROOT_VECTOR_ID) in
  let? k := of_encoding (centroid_info_key_new id) in
  let? v := of_encoding (centroid_info_encode info) in
  let? sk := of_encoding (centroid_stats_key_new id) in
  Ok (alloc_op seq_alloc_put ++ [put_op (centroid_info_key_encode k) v; put_op (centroid_stats_key_encode sk) (centroid_stats_encode 0)],
      PAppend id vector, a).

Fixpoint bootstrap_centroids (vectors : list (list Z)) (a : SequenceAllocator) : res DbError (list RecordOp * list PostingUpdate * SequenceAllocator) :=
  match vectors with
  | [] => Ok ([], [], a)
  | v :: vectors =>
      let? (ops, u, a) := bootstrap_centroid v a in
      let? (ops', us, a) := bootstrap_centroids vectors a in
      Ok (ops ++ ops', u :: us, a)
  end.

Definition bootstrap_ops (centroids : list (list Z)) (a : SequenceAllocator) : res DbError (list RecordOp) :=
  let '(root_id, seq_alloc_put, a) := allocate_one a in
  let? _ := rust_assert (root_id =? 0) in
  let? (ops, root_postings, _) := bootstrap_centroids centroids a in
  let? rt := root_put_op root_postings in
  Ok (alloc_op seq_alloc_put ++ ops ++ [put_op centroids_key_encode (centroids_encode 3); rt]).

Definition bootstrap_tree_index_if_needed (storage snapshot : St) (centroids : list (list Z)) (a : SequenceAllocator) : res DbError St :=
  let? meta := get_centroids_meta now snapshot in
  match meta with
  | Some _ => Ok storage
  | None =>
      if bool_decide (centroids = []) then Err (EInvalidInput "Centroids must be provided when creating a new database"%string)
      else if bool_decide (Exists (λ c, length c ≠ dims) centroids) then Err (EInvalidInput "Centroid dimension mismatch"%string)
      else
        let? ops := bootstrap_ops centroids a in
        let? (storage, _) := of_storage (kv_apply now ops storage) in
        Ok storage
  end.

Definition load_dictionary_from_storage (snapshot : St) : res DbError (gmap bytes VectorId) :=
  let? entries := scan_decoded now snapshot (ByteRange.prefix (start_key IdDictionary)) id_dictionary_key_decode id_dictionary_value_decode in
  Ok (insert_all ∅ entries).

Definition load_centroid_counts_from_storage (snapshot : St) : res DbError (gmap Z (gmap Z Z)) :=
  let? stats := scan_all_centroid_stats now snapshot in
  Ok (foldl (λ counts cn, set_count (level cn.1) cn.1 (Z.max 0 cn.2) counts) ∅ stats).

Record LoadedTreeIndex : Type := mkLoaded {
  lt_meta : Z;
  lt_root_count : Z;
  lt_centroids : gmap Z CentroidInfoValue;
  lt_counts : gmap Z (gmap Z Z);
  lt_cache : CentroidCache;
  lt_leaf_centroids : nat;
}.

(** the lists of the inner centroids that are in the tree *)
Fixpoint inner_postings (cs : gmap Z CentroidInfoValue) (lists : list (VectorId * list PostingUpdate)) : res DbError (list (VectorId * PostingList)) :=
  match lists with
  | [] => Ok []
  | (c, value) :: lists =>
      let? _ := rust_assert (negb (c =? ROOT_VECTOR_ID)) in
      match cs !! c with
      | None => inner_postings cs lists
      | Some info =>
          let? _ := rust_assert (LEAF_LEVEL <? ci_level info) in
          let? pl := of_encoding (from_value value) in
          let? rest := inner_postings cs lists in
          Ok ((c, pl) :: rest)
      end
  end.

Definition load_tree_index (snapshot : St) : res DbError LoadedTreeIndex :=
  let? meta := get_centroids_meta now snapshot in
  match meta with
  | None => Err (EStorageText "missing centroid tree metadata"%string)
  | Some meta =>
      let? root_value := get_root_posting_list now snapshot dims in
      let? root := of_encoding (from_value root_value) in
      let? infos := scan_all_centroid_info now snapshot in
      let cs := insert_all ∅ infos in
      let? counts := load_centroid_counts_from_storage snapshot in
      let? lists := scan_all_inner_posting_lists now snapshot dims in
      let? postings := inner_postings cs lists in
      let? cache := cache_new root postings in
      let? depth := depth_of meta in
      Ok (mkLoaded meta (blen root) cs counts cache (size (default ∅ (counts !! 1))))
  end.

Definition load_indexer_state (storage snapshot : St) : res DbError VectorIndexState :=
  let? ids := load_allocator storage seq_block_key_encode in
  let? cids := load_allocator storage centroid_seq_block_key_encode in
  let? dict := load_dictionary_from_storage snapshot in
  let? tree := load_tree_index snapshot in
  let '(k, b) := freeze ids in
  let '(ck, cb) := freeze cids in
  Ok (mkState dict (lt_meta tree) (lt_root_count tree) (lt_centroids tree) (lt_counts tree) k b ck cb (lt_cache tree)).

(** ** VectorDb *)
Definition load_or_init_db (storage : St) (centroids : list (list Z)) : res DbError VectorDbFlusher :=
  let? _ := load_allocator storage seq_block_key_encode in
  let? centroid_ids := load_allocator storage centroid_seq_block_key_encode in
  let? initial := of_storage (kv_snapshot storage) in
  let? storage := bootstrap_tree_index_if_needed storage initial centroids centroid_ids in
  let? snapshot := of_storage (kv_snapshot storage) in
  let? tree := load_tree_index snapshot in
  let la := mkLastApplied snapshot 0 (Some (lt_cache tree)) (lt_meta tree) (lt_leaf_centroids tree) in
  let? st := load_indexer_state storage snapshot in
  Ok (mkFlusher storage snapshot 0 st la None).

Definition open_with_storage (storage : St) : res DbError VectorDbFlusher :=
  load_or_init_db storage [replicate dims fzero].

(** the engine of a query: the last applied snapshot and its index *)
Definition query_engine (f : VectorDbFlusher) : QueryEngineOptions * LeveledCentroidIndex * St :=
  (mkEngineOptions dims (cf_metric config) (cf_pruning_factor config),
   query_index (default (centroid_cache (fl_state f)) (la_cache (last_applied f))) (last_applied f), la_snapshot (last_applied f)).
End db.
End VecDb.
