(* ===== verification/VecDbSpec.v ===== *)
(** * vector: creation, restarts and the flusher

    What the records of a store that the database wrote look like ([Tidy]), that loading
    such a store gives back a coherent index, and how the flusher behaves when the store
    fails. *)
From stdpp Require Import gmap strings.
From S2P Require Import Prelude HashMap Codec Serde ByteRange Encoding Storage KvStore Sequence VecSerde VecPosting VecMerge VecMath VecList VecSearch VecStore VecState VecStateSpec VecCommit VecKmeans VecQuery VecIndexer VecDb.
#[local] Open Scope Z_scope.

Module VecDbSpec.
Import Vec VecPosting VecMerge VecMath VecList VecSearch VecStore VecState VecStateSpec VecCommit VecKmeans VecQuery VecIndexer VecDb.

#[local] Instance index_key_eq_dec : EqDecision MetadataIndexKey.
Proof. solve_decision. Defined.
#[local] Instance key_eq_dec : EqDecision Key.
Proof. solve_decision. Defined.

(** ** The keys of a store *)
(** a key of the database; inverted indexes with any field and value *)
Definition KeyFine (k : bytes) : Prop := (∃ vk, wf_key vk ∧ k = key_bytes vk) ∨ ∃ s, k = type_bytes MetadataIndex ++ s.

(** the store has only records of the database; external ids name vectors, counts fit their records *)
Record Tidy (m : bytes → option bytes) (st : VectorIndexState) : Prop := mkTidy {
  ti_keys k v : m k = Some v → KeyFine k;
  ti_dict x v : dictionary st !! x = Some v → utf8_valid x = true ∧ data_ok v;
  ti_counts c n : count_of (st_centroid_counts st) c = Some n → 0 ≤ n < 2 ^ 31;
  ti_depth : 3 ≤ st_centroids_meta st;
  ti_levels c : is_Some (centroids st !! c) → level c < ROOT_LEVEL;
}.

(** ** Levels *)
Section levels.
Context {HO : HashOrder} {HOL : HashOrderLaws} {RT : RoaringTreemap} (dims : nat) (st : VectorIndexState).
Context (Hst : ∀ c, is_Some (centroids st !! c) → level c < ROOT_LEVEL).

(** the tree has a leaf level below the root, and no centroid is at the level of the root *)
Definition Shape (d : SearchIndexDelta) : Prop :=
  3 ≤ centroids_meta d ∧ ∀ c, is_Some (upserted_centroids d !! c) → level c < ROOT_LEVEL.

Lemma shape_dirty d c : Shape d → is_Some (dirty_centroid st d c) → level c < ROOT_LEVEL.
Proof.
  intros [_ Hs] Hc. unfold dirty_centroid in Hc. destruct (upserted_centroids d !! c) eqn:E; [apply Hs; by eexists|].
  case_bool_decide; [by destruct Hc|by apply Hst].
Qed.

Lemma add_centroid_shape lvl v parent id ci d d' : Shape d → add_centroid lvl v parent d = Ok (id, ci, d') → Shape d'.
Proof.
  intros [Hm Hs] H. unfold add_centroid in H. apply res_bind_ok in H as (? & _ & H). apply res_bind_ok in H as (? & _ & H).
  apply res_bind_ok in H as (? & _ & H). destruct (allocate_one _) as [[n r] al].
  apply res_bind_ok in H as (id' & Hid%of_encoding_ok & H). apply res_bind_ok in H as (? & _ & H).
  apply res_bind_ok in H as (? & Hlv%rust_assert_ok & H). apply res_bind_ok in H as (ci' & _ & H). injection H as <- <- <-.
  split; [done|]. intros c Hc. cbn in Hc. destruct (decide (c = id')) as [->|Hne]; [|apply Hs; by rewrite lookup_insert_ne in Hc].
  unfold centroid_id in Hid. apply res_bind_ok in Hid as (? & _ & Hid). apply res_bind_ok in Hid as (? & Hne%rust_assert_ok & _).
  apply Z.eqb_eq in Hlv. apply negb_true_iff, Z.eqb_neq in Hne. pose proof (wrap_range 8 (Z.shiftr id' 56) ltac:(lia)) as Hr.
  change (wrap 8 (Z.shiftr id' 56)) with (level id') in Hr. unfold in_u in Hr. unfold ROOT_LEVEL. lia.
Qed.

Lemma add_root_centroids_shape lvl vs ps d d' : Shape d → add_root_centroids lvl vs d = Ok (ps, d') → Shape d'.
Proof.
  revert d ps. induction vs as [|v vs IH]; intros d ps Hs H; cbn [add_root_centroids] in H; [by injection H as <- <-|].
  apply res_bind_ok in H as ([[id ci] d1] & H1 & H). apply res_bind_ok in H as ([ps' d2] & H2 & H). injection H as <- <-.
  eapply IH; [by eapply add_centroid_shape|done].
Qed.

Lemma forget_upserted cs d c : is_Some (upserted_centroids (foldl forget_centroid d cs) !! c) → is_Some (upserted_centroids d !! c).
Proof.
  revert d. induction cs as [|x cs IH]; intros d H; [done|]. apply IH in H. cbn in H. destruct H as [y [_ Hy]%lookup_delete_Some]. by eexists.
Qed.

Lemma forget_meta cs d : centroids_meta (foldl forget_centroid d cs) = centroids_meta d.
Proof. revert d. induction cs as [|x cs IH]; intros d; [done|]. cbn [foldl]. by rewrite IH. Qed.

Lemma search_step_shape d d' : Shape d → search_step dims st d d' → Shape d'.
Proof.
  intros Hs. destruct 1 as [lvl v parent id ci d d' _ _ _ H|c ci d d' Hc _ H|cs d _|c v vec d d' _ _ _ H|c v d d' _ _ H|
    vs lvl d d' _ _ H|c vec d d' _ _ H|c d d' _ H|f v x d d' H|f v x d d' H].
  - by eapply add_centroid_shape.
  - unfold update_centroid in H. do 6 apply res_bind_ok in H as (? & _ & H). injection H as <-. split; [apply Hs|].
    intros c' Hc'. cbn in Hc'. destruct (decide (c = c')) as [<-|Hne]; [by eapply shape_dirty|]. rewrite lookup_insert_ne in Hc' by done. by apply Hs.
  - split; cbn; [rewrite forget_meta; apply Hs|]. intros c Hc%forget_upserted. by apply Hs.
  - unfold add_to_posting in H. apply res_bind_ok in H as (? & _ & H). by injection H as <-.
  - unfold remove_from_posting in H. do 2 apply res_bind_ok in H as (? & _ & H). by injection H as <-.
  - unfold promote_root in H. set (meta := wrap 8 (centroids_meta d + 1)) in *. cbv zeta in H.
    apply res_bind_ok in H as (depth & Hd & H). apply res_bind_ok in H as (nl & _ & H). apply res_bind_ok in H as ([ps d1] & Ha & H).
    apply res_bind_ok in H as (? & _ & H). apply res_bind_ok in H as (rt & _ & H). injection H as <- <-.
    unfold depth_of in Hd. apply res_bind_ok in Hd as (? & Hge%rust_assert_ok & _). apply Z.leb_le in Hge.
    split; [exact Hge|]. eapply add_root_centroids_shape in Ha; [apply Ha|]. split; [exact Hge|apply Hs].
  - unfold add_to_root in H. do 3 apply res_bind_ok in H as (? & _ & H). by injection H as <-.
  - unfold remove_from_root in H. do 3 apply res_bind_ok in H as (? & _ & H). by injection H as <-.
  - unfold add_to_inverted_index in H. apply res_bind_ok in H as (? & _ & H). by injection H as <-.
  - unfold remove_from_inverted_index in H. apply res_bind_ok in H as (? & _ & H). by injection H as <-.
Qed.

Lemma round_shape d : 3 ≤ st_centroids_meta st → rtc (delta_step dims st) (delta_new st) d → Shape (search_index d).
Proof.
  intros Hm Hr. assert (H0 : Shape (search_index (delta_new st))) by (split; [done|]; intros c [? Hc]; cbn in Hc; by rewrite lookup_empty in Hc).
  revert H0. induction Hr as [|d1 d2 d3 Hstep _ IH]; [done|]. intros Hs. apply IH. destruct Hstep as [|fw se se' Hstep]; [done|].
  by eapply search_step_shape.
Qed.
End levels.

Section tidy.
Context {HO : HashOrder} {HOL : HashOrderLaws} {RT : RoaringTreemap} (dims : nat).

Lemma fine_key vk op : wf_key vk → op_key op = key_bytes vk → KeyFine (op_key op).
Proof. intros H1 H2. left. by exists vk. Qed.

Lemma alloc_fine k b a ops t :
  AllocOk k b a ops → k = key_bytes (KSingleton t) → wf_key (KSingleton t) → Forall (λ op, KeyFine (op_key op)) ops.
Proof.
  intros Ha -> Ht. eapply Forall_impl; [apply (al_ops _ _ _ _ Ha)|]. intros op [v ->]. by apply (fine_key (KSingleton t)).
Qed.

Lemma hash_fine {K A} `{Countable K} (op : K * A → RecordOp) (vk : K * A → Key) (u : gmap K A) :
  (∀ x, op_key (op x) = key_bytes (vk x)) → (∀ k a, u !! k = Some a → wf_key (vk (k, a))) →
  Forall (λ o, KeyFine (op_key o)) (op <$> hash_iter u).
Proof.
  intros Hk Hw. apply Forall_fmap, Forall_forall. intros [k a] Hin%elem_of_hash_iter. cbn. apply (fine_key (vk (k, a))); [by apply Hw|done].
Qed.

Lemma set_fine (g : VectorId → list RecordOp) (s : gset Z) :
  (∀ c, c ∈ s → Forall (λ o, KeyFine (op_key o)) (g c)) → Forall (λ o, KeyFine (op_key o)) (concat (g <$> hash_elements s)).
Proof. intros Hg. apply Forall_concat, Forall_fmap, Forall_forall. intros c Hc%elem_of_hash_elements. by apply Hg. Qed.

Lemma round_keys st d idxs counts :
  sequence_block_key st = key_bytes (KSingleton SeqBlock) → centroid_sequence_block_key st = key_bytes (KSingleton CentroidSeqBlock) →
  DeltaOk dims st d → Forall (λ op, of_type MetadataIndex op ∧ plain_op op) idxs →
  Forall (λ op, KeyFine (op_key op)) (round_ops (forward_index d) (search_index d) counts idxs).
Proof.
  intros Hk Hck [Hfw Hse] Hidx. unfold round_ops. rewrite !Forall_app. split_and!.
  - eapply alloc_fine; [apply (fw_alloc _ _ _ Hfw)|exact Hk|by vm_compute; repeat constructor].
  - apply (hash_fine _ (λ x, KDict x.1)); [done|]. intros x v H. by apply (fw_dict _ _ _ Hfw) in H as [? _].
  - apply (hash_fine _ (λ x, KId VectorData x.1)); [done|]. intros x v H. by apply (fw_data _ _ _ Hfw) in H as [? _].
  - apply (hash_fine _ (λ x, KId VectorIndexData x.1)); [done|]. intros x v H. by apply (fw_index _ _ _ Hfw) in H as [? _].
  - apply set_fine. intros c Hc. apply (fw_deletes _ _ _ Hfw) in Hc. constructor; [|constructor; [|constructor]].
    + by apply (fine_key (KId VectorData c)).
    + by apply (fine_key (KId VectorIndexData c)).
  - eapply alloc_fine; [apply (se_alloc _ _ _ Hse)|exact Hck|by vm_compute; repeat constructor].
  - constructor; [|constructor]. apply (fine_key (KSingleton Centroids)); [by vm_compute; repeat constructor|done].
  - unfold root_ops. assert (Hr : KeyFine (posting_key ROOT_VECTOR_ID)) by (left; exists (KId Vec.PostingList ROOT_VECTOR_ID); split; [by apply wf_node; right|done]).
    apply Forall_app. split; [destruct (root _)|destruct (root_updates _)]; try apply Forall_nil_2; by apply Forall_singleton.
  - apply (hash_fine _ (λ x, KId CentroidInfo x.1)); [done|]. intros c ci H. apply (se_upserted _ _ _ Hse) in H as [? _]. by apply wf_ids.
  - apply (hash_fine _ (λ x, KId Vec.PostingList x.1)); [done|]. intros c ci H. apply (se_postings _ _ _ Hse) in H as [? _]. by apply wf_ids.
  - apply Forall_concat, Forall_fmap, Forall_forall. intros [lv deltas] Hin%elem_of_hash_iter. apply Forall_fmap, Forall_forall.
    intros c [_ ([c' n] & -> & Hn%elem_of_hash_iter)%list_elem_of_fmap]%list_elem_of_filter. cbn [snd fst] in *.
    destruct (se_counts _ _ _ Hse _ _ _ _ Hin Hn) as (_ & Hc & _). apply (fine_key (KId CentroidStats c')); [by apply wf_ids|done].
  - eapply Forall_impl; [exact Hidx|]. intros op [[s Hs] _]. right. by exists s.
  - apply set_fine. intros c Hc. apply (se_deleted _ _ _ Hse) in Hc as [Hc _]. destruct (wf_ids c Hc) as (H1 & H2 & H3).
    apply Forall_cons_2; [by apply (fine_key (KId CentroidInfo c))|]. apply Forall_cons_2; [by apply (fine_key (KId Vec.PostingList c))|].
    apply Forall_singleton. by apply (fine_key (KId CentroidStats c)).
Qed.

(** the commit of a round leaves the store tidy *)
Lemma commit_tidy m st e d cache' counts idxs m' :
  Coherent dims m st e → Tidy m st → DeltaOk dims st d → Shape (search_index d) → Fits (search_index d) (frozen_counts st (search_index d)) →
  Forall (λ op, of_type MetadataIndex op ∧ plain_op op) idxs →
  (∀ k, m' k = effect (operator dims) k (round_ops (forward_index d) (search_index d) counts idxs) (m k)) →
  Tidy m' (new_state st d cache').
Proof.
  intros Hco [H1 H2 H3 H4 H5] Hd Hsh [Hfit _] Hidx Hm. pose proof (co_seq _ _ _ _ Hco) as (Hk & _). pose proof (co_centroid_seq _ _ _ _ Hco) as (Hck & _).
  split.
  - intros k v Hv. rewrite Hm in Hv. pose proof (round_keys st d idxs counts Hk Hck Hd Hidx) as Hf.
    destruct (decide (Forall (λ op, op_key op ≠ k) (round_ops (forward_index d) (search_index d) counts idxs))) as [Hno|Hyes].
    + rewrite effect_none in Hv by done. by eapply H1.
    + apply not_Forall_Exists in Hyes; [|apply _]. apply Exists_exists in Hyes as (op & Hop & Hk'). rewrite Forall_forall in Hf.
      apply dec_stable in Hk'. rewrite <-Hk'. by apply Hf.
  - intros x v. cbn [dictionary new_state]. rewrite insert_all_hash. destruct (dictionary_updates _ !! x) as [v'|] eqn:E.
    + intros [= <-]. by apply (fw_dict _ _ _ (proj1 Hd)) in E.
    + apply H2.
  - intros c n Hn. by apply (Hfit (level c) c n).
  - apply Hsh.
  - intros c Hc. cbn [centroids new_state] in Hc. rewrite frozen_centroids_lookup in Hc. by eapply (shape_dirty st).
Qed.
End tidy.

(** ** Loading *)
Section loading.
Context {HO : HashOrder} {HOL : HashOrderLaws} {RT : RoaringTreemap} (dims : nat).
Context {St : Type} {KV : KvStore St} {KL : KvStoreLaws St} (now : Z).

Lemma fine_in_type t k :
  KeyFine k → contains (ByteRange.prefix (start_key t)) k = true → t ≠ MetadataIndex → ∃ vk, wf_key vk ∧ key_type vk = t ∧ k = key_bytes vk.
Proof.
  intros [(vk & Hw & ->)|[s ->]] Hc Ht.
  - exists vk. split; [done|]. split; [by apply type_range_exact|done].
  - rewrite prefix_contains_exact, start_key_bytes in Hc. destruct Hc as [r Hr]. apply type_bytes_inj in Hr as [Hr _]. by destruct Ht.
Qed.

Lemma loaded_lookup {K A} `{Countable K} (l : list (K * A)) k a : NoDup l.*1 → insert_all ∅ l !! k = Some a ↔ (k, a) ∈ l.
Proof.
  intros Hn. rewrite insert_all_lookup by done. rewrite elem_of_list_to_map by done.
  destruct (list_to_map l !! k); [done|]. by rewrite lookup_empty.
Qed.

(** a scan whose records all decode *)
Lemma scan_decoded_ok {K A} (s : St) range (kb : K → bytes) keydec (dec : bytes → res Error A) :
  kv_ok s → BTreeMap.range_panics range = false →
  (∀ k v, contains range k = true → kv_map s k = Some v → ∃ x a, k = kb x ∧ keydec k = Ok x ∧ dec v = Ok a) →
  ∃ l, scan_decoded now s range keydec dec = Ok l ∧ NoDup l.*1 ∧
    ∀ x a, (x, a) ∈ l ↔ ∃ k v, contains range k = true ∧ kv_map s k = Some v ∧ keydec k = Ok x ∧ dec v = Ok a.
Proof.
  intros Hok Hrp Hall. unfold scan_decoded. destruct (law_scan now range s Hok Hrp) as (recs & -> & Hsort & Hrecs).
  cbn [of_storage res_map_err res_bind].
  set (g := λ r : Record_, _). destruct (try_map_exists g (λ r xa, g r = Ok xa ∧ key r = kb xa.1) recs) as (l & Hl & HF).
  { intros [k v] [Hc Hm]%Hrecs. destruct (Hall k v Hc Hm) as (x & a & Hk & Hkd & Hd). exists (x, a).
    assert (Hg : g (mkRecord k v) = Ok (x, a)) by (unfold g; cbn [key value]; by rewrite Hkd, Hd). by split_and!. }
  exists l. split; [done|]. split.
  - apply (NoDup_fmap_1 kb). assert (kb <$> l.*1 = key <$> recs) as ->.
    { clear -HF. induction HF as [|r xa recs l [_ He] _ IH]; [done|]. rewrite !fmap_cons, IH. by f_equal. }
    clear -Hsort. induction Hsort as [|r recs _ IH Hr]; [constructor|]. rewrite fmap_cons. apply NoDup_cons. split; [|done].
    intros (r' & He & Hin)%list_elem_of_fmap. rewrite Forall_forall in Hr. specialize (Hr r' Hin). rewrite He, bcmp_refl in Hr. done.
  - intros x a. split.
    + intros Hin. destruct (Forall2_elem_r _ _ _ _ HF Hin) as ([k v] & Hr & Hg & Hk). apply Hrecs in Hr as [Hc Hm]. cbn [key fst] in Hk. subst k.
      exists (kb x), v. split; [done|]. split; [done|]. unfold g in Hg. cbn [key value] in Hg.
      destruct (keydec (kb x)) as [x'|?|]; cbn [of_encoding res_map_err res_bind] in Hg; [|done..].
      destruct (dec v) as [a'|?|]; cbn [of_encoding res_map_err res_bind] in Hg; [|done..]. by injection Hg as -> ->.
    + intros (k & v & Hc & Hm & Hkd & Hd). assert (Hin : mkRecord k v ∈ recs) by (by apply Hrecs).
      destruct (Forall2_elem_l _ _ _ _ HF Hin) as (xa & Hxa & Hg & _). unfold g in Hg. cbn [key value] in Hg. rewrite Hkd, Hd in Hg.
      by injection Hg as <-.
Qed.

Lemma prefix_range_ok t : BTreeMap.range_panics (ByteRange.prefix (start_key t)) = false.
Proof. by destruct t. Qed.

Lemma id_dictionary_value_ok v : data_ok v → id_dictionary_value_decode (id_dictionary_value_encode v) = Ok v.
Proof.
  intros [Hv _]. unfold id_dictionary_value_decode, id_dictionary_value_encode, vid_encode, vid_decode. cbn [app].
  rewrite be_bytes_length. cbn [bool_decide decide_rel]. rewrite !bool_decide_eq_false_2 by lia. cbn [res_bind].
  rewrite take_ge by (by rewrite be_bytes_length). by rewrite (from_be_roundtrip 8).
Qed.

Lemma stats_value_ok n : 0 ≤ n < 2 ^ 31 → centroid_stats_decode (centroid_stats_encode n) = Ok n.
Proof.
  intros Hn. unfold centroid_stats_decode, centroid_stats_encode. rewrite le_bytes_length, bool_decide_eq_false_2 by lia.
  rewrite take_ge by (by rewrite le_bytes_length). rewrite (from_le_roundtrip 4) by (apply wrap_range; lia).
  assert (Hw : wrap 32 n = n) by (unfold wrap; apply Z.mod_small; lia).
  f_equal. unfold as_signed. rewrite !Hw. rewrite bool_decide_eq_true_2; [done|]. lia.
Qed.

Lemma centroids_value_ok n : in_u 8 n → centroids_decode (centroids_encode n) = Ok n.
Proof. intros Hn. unfold centroids_decode, centroids_encode. rewrite u8_to_u8, Z.mod_small; [done|]. unfold in_u in Hn. lia. Qed.

Context (s : St) (Hok : kv_ok s) (st : VectorIndexState) (e : Z) (Hco : Coherent dims (kv_map s) st e) (Hti : Tidy (kv_map s) st).

(** a scan of records of one kind *)
Lemma load_records {K A} range (mk : K → Key) (good : K → Prop) keydec (dec : bytes → res Error A) (look : K → option A) :
  BTreeMap.range_panics range = false →
  (∀ k, KeyFine k → contains range k = true → ∃ x, k = key_bytes (mk x) ∧ good x) →
  (∀ x, good x → contains range (key_bytes (mk x)) = true ∧ keydec (key_bytes (mk x)) = Ok x) →
  (∀ x v, good x → kv_map s (key_bytes (mk x)) = Some v → ∃ a, look x = Some a ∧ dec v = Ok a) →
  (∀ x a, look x = Some a → good x ∧ is_Some (kv_map s (key_bytes (mk x)))) →
  ∃ l, scan_decoded now s range keydec dec = Ok l ∧ NoDup l.*1 ∧ ∀ x a, (x, a) ∈ l ↔ look x = Some a.
Proof.
  intros Hrp Hfine Hgood Hval Hlook.
  destruct (scan_decoded_ok s range (λ x, key_bytes (mk x)) keydec dec Hok Hrp) as (l & Hl & Hnd & Hin).
  { intros k v Hc Hm. destruct (Hfine k (ti_keys _ _ Hti _ _ Hm) Hc) as (x & -> & Hx). destruct (Hval x v Hx Hm) as (a & _ & Ha).
    exists x, a. split; [done|]. split; [by apply Hgood|done]. }
  exists l. split; [done|]. split; [done|]. intros x a. rewrite Hin. split.
  - intros (k & v & Hc & Hm & Hk & Hv). destruct (Hfine k (ti_keys _ _ Hti _ _ Hm) Hc) as (x' & -> & Hx').
    destruct (Hgood x' Hx') as [_ Hk']. rewrite Hk' in Hk. injection Hk as ->. destruct (Hval x v Hx' Hm) as (a' & Ha' & Hv'). congruence.
  - intros Ha. destruct (Hlook x a Ha) as (Hx & v & Hv). destruct (Hgood x Hx) as [Hc Hk]. destruct (Hval x v Hx Hv) as (a' & Ha' & Hd).
    exists (key_bytes (mk x)), v. split_and!; [done|done|done|congruence].
Qed.

Lemma load_dictionary_ok : load_dictionary_from_storage now s = Ok (dictionary st).
Proof.
  unfold load_dictionary_from_storage.
  destruct (load_records (ByteRange.prefix (start_key IdDictionary)) KDict (λ x, utf8_valid x = true) id_dictionary_key_decode
    id_dictionary_value_decode (λ x, dictionary st !! x) (prefix_range_ok _)) as (l & -> & Hnd & Hl).
  - intros k Hk Hc. destruct (fine_in_type IdDictionary k Hk Hc ltac:(done)) as (vk & Hw & Ht & ->).
    destruct vk as [t|t c|x|?]; try done; [cbn in Ht; subst t; cbn in Hw; set_solver|cbn in Ht; by subst t|by exists x].
  - intros x Hx. split; [by apply type_range_exact|]. pose proof (vec_key_decode_spec (KDict x) Hx) as H. cbn [key_type key_decode] in H.
    destruct (id_dictionary_key_decode _); [|done..]. cbn in H. by injection H as ->.
  - intros x v Hx Hm. rewrite (co_dict _ _ _ _ Hco x Hx) in Hm. destruct (dictionary st !! x) as [id|] eqn:E; [|done].
    exists id. split; [done|]. injection Hm as <-. apply id_dictionary_value_ok. by apply (ti_dict _ _ Hti x).
  - intros x id Hid. destruct (ti_dict _ _ Hti x id Hid) as [Hx _]. split; [done|]. rewrite (co_dict _ _ _ _ Hco x Hx), Hid. by eexists.
  - cbn [res_bind]. f_equal. apply map_eq. intros x. apply option_eq. intros id. by rewrite loaded_lookup, Hl.
Qed.

(** keys of centroids *)
Lemma centroid_range t k :
  t = CentroidInfo ∨ t = CentroidStats → KeyFine k → contains (ByteRange.prefix (start_key t)) k = true → ∃ c, k = key_bytes (KId t c) ∧ centroid_ok c.
Proof.
  intros Ht Hk Hc. destruct (fine_in_type t k Hk Hc) as (vk & Hw & Hkt & ->); [by destruct Ht as [-> | ->]|].
  destruct vk as [t'|t' c|x|?]; cbn in Hkt; subst; [exfalso; cbn in Hw; destruct Ht as [-> | ->]; set_solver| |by destruct Ht..].
  exists c. split; [done|]. by destruct Ht as [-> | ->].
Qed.

Lemma id_key_decode_ok t c : wf_key (KId t c) → id_key_decode t (key_bytes (KId t c)) = Ok c.
Proof.
  intros Hw. pose proof (vec_key_decode_spec (KId t c) Hw) as H. cbn [key_type] in H.
  destruct t; try done; cbn [key_decode] in H;
    unfold posting_list_key_decode, vector_data_key_decode, vector_index_data_key_decode, centroid_stats_key_decode, centroid_info_key_decode in H;
    (destruct (id_key_decode _ _); [|done..]); cbn in H; by injection H as ->.
Qed.

Lemma load_infos_ok : ∃ l, scan_all_centroid_info now s = Ok l ∧ insert_all ∅ l = centroids st.
Proof.
  destruct (load_records (ByteRange.prefix (start_key CentroidInfo)) (KId CentroidInfo) centroid_ok centroid_info_key_decode
    centroid_info_decode (λ c, centroids st !! c) (prefix_range_ok _)) as (l & Hl & Hnd & Hin).
  - intros k. apply centroid_range. by left.
  - intros c Hc. split; [by apply type_range_exact|]. apply id_key_decode_ok. by apply wf_ids.
  - intros c v Hc Hm. rewrite (co_info _ _ _ _ Hco c Hc) in Hm. destruct (centroids st !! c) as [ci|] eqn:E; [|done].
    exists ci. split; [done|]. injection Hm as <-. destruct (co_centroid _ _ _ _ Hco c ci E) as (_ & Hw & _).
    destruct (centroid_info_roundtrip _ _ Hw) as (enc & He & Hd). by rewrite He.
  - intros c ci Hci. destruct (co_centroid _ _ _ _ Hco c ci Hci) as (Hc & _). split; [done|]. rewrite (co_info _ _ _ _ Hco c Hc), Hci. by eexists.
  - exists l. split; [done|]. apply map_eq. intros x. apply option_eq. intros id. by rewrite loaded_lookup, Hin.
Qed.

(** the counts by level *)
Lemma count_of_set x n counts c : count_of (set_count (level x) x n counts) c = if decide (c = x) then Some n else count_of counts c.
Proof.
  unfold count_of, set_count. case_decide as Hc.
  - subst c. rewrite lookup_insert_eq. cbn. by rewrite lookup_insert_eq.
  - destruct (decide (level c = level x)) as [He|Hne]; [|by rewrite lookup_insert_ne by congruence].
    rewrite He, lookup_insert_eq. cbn. rewrite lookup_insert_ne by congruence. by destruct (counts !! level x).
Qed.

Definition by_level (counts : gmap Z (gmap Z Z)) : Prop := ∀ lv cs c n, counts !! lv = Some cs → cs !! c = Some n → lv = level c.

Lemma by_level_set x n counts : by_level counts → by_level (set_count (level x) x n counts).
Proof.
  intros H lv cs c k. unfold set_count. intros [[<- <-]|[_ Hl]]%lookup_insert_Some.
  - intros [[<- _]|[_ Hk]]%lookup_insert_Some; [done|]. destruct (counts !! level x) as [cs|] eqn:E; cbn in Hk; [by eapply H|by rewrite lookup_empty in Hk].
  - by apply (H lv cs c k).
Qed.

Lemma load_counts_ok :
  ∃ counts, load_centroid_counts_from_storage now s = Ok counts ∧ by_level counts ∧ ∀ c, count_of counts c = count_of (st_centroid_counts st) c.
Proof.
  unfold load_centroid_counts_from_storage.
  assert (Hex : ∀ c n, count_of (st_centroid_counts st) c = Some n → centroid_ok c).
  { intros c n Hn. unfold count_of in Hn. apply bind_Some in Hn as (cs & H1 & H2).
    destruct (co_counts _ _ _ _ Hco _ _ _ _ H1 H2) as (_ & ci & Hci). by apply (co_centroid _ _ _ _ Hco c ci). }
  destruct (load_records (ByteRange.prefix (start_key CentroidStats)) (KId CentroidStats) centroid_ok centroid_stats_key_decode
    centroid_stats_decode (count_of (st_centroid_counts st)) (prefix_range_ok _)) as (l & Hl & Hnd & Hin).
  - intros k. apply centroid_range. by right.
  - intros c Hc. split; [by apply type_range_exact|]. apply id_key_decode_ok. by apply wf_ids.
  - intros c v Hc Hm. rewrite (co_stats _ _ _ _ Hco c Hc) in Hm. destruct (count_of (st_centroid_counts st) c) as [n|] eqn:E; [|done].
    exists n. split; [done|]. injection Hm as <-. apply stats_value_ok. by apply (ti_counts _ _ Hti c).
  - intros c n Hn. pose proof (Hex c n Hn) as Hc. split; [done|]. rewrite (co_stats _ _ _ _ Hco c Hc), Hn. by eexists.
  - unfold scan_all_centroid_stats. rewrite Hl. cbn [res_bind]. eexists. split; [done|].
    assert (Hgen : ∀ acc, by_level acc → by_level (foldl (λ counts cn, set_count (level cn.1) cn.1 (Z.max 0 cn.2) counts) acc l) ∧
      ∀ c, count_of (foldl (λ counts cn, set_count (level cn.1) cn.1 (Z.max 0 cn.2) counts) acc l) c =
        match list_to_map (M:=gmap Z Z) l !! c with Some n => Some (Z.max 0 n) | None => count_of acc c end).
    { clear -Hnd. induction l as [|[x n] l IH]; intros acc Hacc; [done|]. rewrite fmap_cons in Hnd. apply NoDup_cons in Hnd as [Hx Hnd].
      cbn [foldl list_to_map foldr fst snd]. destruct (IH Hnd _ (by_level_set x (Z.max 0 n) acc Hacc)) as [H1 H2]. split; [done|].
      intros c. rewrite H2, count_of_set. destruct (decide (c = x)) as [->|Hne].
      - rewrite lookup_insert_eq. by rewrite not_elem_of_list_to_map_1.
      - by rewrite lookup_insert_ne. }
    destruct (Hgen ∅) as [H1 H2]; [by intros lv cs c n; rewrite lookup_empty|]. split; [done|]. intros c. rewrite H2.
    destruct (list_to_map l !! c) as [n|] eqn:E.
    + apply elem_of_list_to_map in E; [|done]. apply Hin in E. rewrite E. pose proof (ti_counts _ _ Hti c n E). f_equal. lia.
    + unfold count_of at 1. rewrite lookup_empty. cbn. symmetry. apply eq_None_not_Some. intros [n Hn]. apply Hin in Hn.
      apply not_elem_of_list_to_map in E. apply E. apply list_elem_of_fmap. by exists (c, n).
Qed.

(** ** The lists of the inner centroids *)
Definition inner_ok (c : VectorId) : Prop := centroid_ok c ∧ LEAF_LEVEL < level c < ROOT_LEVEL.

Definition inner_range : BytesRange :=
  mkRange (Included (encode_prefix_for_level (LEAF_LEVEL + 1))) (Excluded (posting_list_key_encode ROOT_VECTOR_ID)).

Lemma inner_range_eq : inner_level_bytes_range = Ok inner_range.
Proof. done. Qed.

Lemma inner_centroid c : in_u 64 c → is_tree_node c = true → LEAF_LEVEL < level c < ROOT_LEVEL → inner_ok c.
Proof.
  intros Hc Ht Hr. split; [|done]. split; [done|]. unfold is_tree_node in Ht. apply orb_true_iff in Ht as [?|Ht]; [done|].
  exfalso. unfold is_root in Ht. apply Z.eqb_eq in Ht. subst c. destruct Hr as [_ Hr]. by vm_compute in Hr.
Qed.

Lemma inner_range_fine k : KeyFine k → contains inner_range k = true → ∃ c, k = posting_key c ∧ inner_ok c.
Proof.
  intros Hk. unfold contains, inner_range. cbn [start end_]. destruct Hk as [(vk & Hw & ->)|[t ->]]; [|intros H; exfalso; by vm_compute in H].
  destruct vk as [t|t v|x|[f v]]; [| |intros H; exfalso; by vm_compute in H..].
  - cbn [wf_key] in Hw. repeat (apply elem_of_cons in Hw as [-> | Hw]; [intros H; exfalso; by vm_compute in H|]). by apply not_elem_of_nil in Hw.
  - assert (Hv : in_u 64 v) by (by destruct t, Hw). rewrite inner_range_exact by done. intros [-> Hl]. exists v. split; [done|].
    apply inner_centroid; [done|by destruct Hw|done].
Qed.

Lemma inner_range_has c : inner_ok c → contains inner_range (posting_key c) = true.
Proof. intros [[Hc Hic] Hl]. unfold contains, inner_range. cbn [start end_]. by apply inner_range_exact. Qed.

Lemma load_lists_ok :
  ∃ l, scan_all_inner_posting_lists now s dims = Ok l ∧ NoDup l.*1 ∧
    ∀ c us, (c, us) ∈ l ↔ inner_ok c ∧ is_Some (kv_map s (posting_key c)) ∧ PostingAt dims (kv_map s) c us.
Proof.
  unfold scan_all_inner_posting_lists. rewrite inner_range_eq. cbn [of_encoding res_map_err res_bind].
  assert (Hrp : BTreeMap.range_panics inner_range = false) by (by vm_compute).
  set (look := λ c, match kv_map s (posting_key c) with
                    | Some v => if decide (inner_ok c) then match postings_decode dims v with Ok us => Some us | _ => None end else None
                    | None => None end).
  assert (Hlook : ∀ c us, look c = Some us ↔ inner_ok c ∧ is_Some (kv_map s (posting_key c)) ∧ PostingAt dims (kv_map s) c us).
  { intros c us. unfold look, PostingAt. destruct (kv_map s (posting_key c)) as [v|] eqn:E; [|split; [done|by intros (_ & [? ?] & _)]].
    case_decide as Hi; [|split; [done|by intros [? _]]]. destruct (co_postings _ _ _ _ Hco c ltac:(left; apply Hi)) as (us' & Hus & _).
    unfold PostingAt in Hus. rewrite E in Hus. rewrite (stored_updates_decode dims v us' Hus). split.
    - intros [= <-]. split; [done|]. split; [by eexists|done].
    - intros (_ & _ & H). f_equal. pose proof (stored_updates_decode dims v us' Hus). pose proof (stored_updates_decode dims v us H). congruence. }
  destruct (load_records inner_range (KId Vec.PostingList) inner_ok posting_list_key_decode (postings_decode dims) look Hrp) as (l & Hl & Hnd & Hin).
  - intros k Hk Hc. destruct (inner_range_fine k Hk Hc) as (c & -> & H). by exists c.
  - intros c Hc. split; [by apply inner_range_has|]. apply id_key_decode_ok. apply wf_ids, Hc.
  - intros c v Hc Hm. destruct (co_postings _ _ _ _ Hco c ltac:(left; apply Hc)) as (us & Hus & _). exists us.
    split; [apply Hlook; split; [done|]; split; [by rewrite Hm; eexists|done]|]. unfold PostingAt in Hus. rewrite Hm in Hus.
    by apply stored_updates_decode.
  - intros c us H. apply Hlook in H as (H1 & H2 & _). done.
  - exists l. split; [done|]. split; [done|]. intros c us. by rewrite Hin, Hlook.
Qed.

Lemma inner_postings_ok (l : list (VectorId * list PostingUpdate)) :
  (∀ c us, (c, us) ∈ l → inner_ok c ∧ is_Some (kv_map s (posting_key c)) ∧ PostingAt dims (kv_map s) c us) →
  ∃ ps, inner_postings (centroids st) l = Ok ps ∧
    Forall2 (λ cu cp, cp.1 = cu.1 ∧ wf_list cp.2 ∧ content cp.2 = apply_updates ∅ cu.2) l ps.
Proof.
  induction l as [|[c us] l IH]; intros Hl; [by exists []|]. cbn [inner_postings].
  destruct (Hl c us ltac:(left)) as ([Hc [Hlv _]] & [v Hv] & Hus). destruct IH as (ps & Hps & HF); [intros; apply Hl; by right|].
  rewrite (proj2 (Z.eqb_neq c ROOT_VECTOR_ID)) by by apply centroid_not_root. cbn [negb rust_assert res_bind].
  destruct (centroids st !! c) as [ci|] eqn:E; [|by rewrite (co_absent _ _ _ _ Hco c Hc E) in Hv].
  destruct (co_centroid _ _ _ _ Hco c ci E) as (_ & _ & -> & _). rewrite (proj2 (Z.ltb_lt _ _) Hlv). cbn [rust_assert res_bind].
  destruct (from_value_spec us (stored_at_nodup dims _ _ _ Hus)) as (pl & -> & Hw & Hcont & _). cbn [of_encoding res_map_err res_bind].
  rewrite Hps. cbn [res_bind]. exists ((c, pl) :: ps). split; [done|]. by constructor.
Qed.

(** ** The state after a restart *)
(** every inner centroid has a list in the store *)
Definition Loadable (m : bytes → option bytes) (st : VectorIndexState) : Prop :=
  ∀ c, is_Some (centroids st !! c) → level c ≠ LEAF_LEVEL → is_Some (m (posting_key c)).

Lemma load_allocator_ok (s0 : St) k b :
  kv_ok s0 → block_ok b → kv_map s0 k = SeqBlock.serialize <$> current_block b →
  load_allocator now s0 k = Ok (mkAllocator k (mkAllocated (current_block b) (block_end b))).
Proof.
  intros H0 Hb Hm. pose proof (load_spec k b Hb) as Hl. unfold load_allocator, load, load_block in *. rewrite law_get by done.
  unfold get_stored in Hl. rewrite bool_decide_eq_true_2 in Hl by done. rewrite Hm.
  destruct (res_bind _ _) as [x|?|]; [|done..]. by injection Hl as ->.
Qed.

Lemma cache_new_ok root ps :
  NoDup ps.*1 → Forall (λ cp : VectorId * PostingList, inner_ok cp.1) ps →
  ∃ cache, cache_new root ps = Ok cache ∧ cache !! ROOT_VECTOR_ID = Some (mkWritten root 0) ∧
    ∀ c w, c ≠ ROOT_VECTOR_ID → cache !! c = Some w ↔ ∃ pl, (c, pl) ∈ ps ∧ w = mkWritten pl 0.
Proof.
  intros Hnd Hin. rewrite Forall_forall in Hin. unfold cache_new.
  assert (Hb : forallb (λ cp : VectorId * PostingList, (1 <? level cp.1) && is_centroid cp.1) ps = true).
  { apply forallb_forall. intros cp Hcp%list_elem_of_In. destruct (Hin cp Hcp) as [[_ Hc] [Hl _]]. rewrite Hc, andb_true_r. by apply Z.ltb_lt. }
  rewrite Hb. cbn [rust_assert res_bind]. eexists. split; [done|]. set (l := (λ cp, (cp.1, mkWritten cp.2 0)) <$> ps).
  assert (Hl1 : l.*1 = ps.*1) by (unfold l; by rewrite <-list_fmap_compose).
  assert (Hall : NoDup (l ++ [(ROOT_VECTOR_ID, mkWritten root 0)]).*1).
  { rewrite fmap_app, Hl1. apply NoDup_app. split; [done|]. split; [|apply NoDup_singleton].
    intros c (cp & -> & Hcp)%list_elem_of_fmap Hr%list_elem_of_singleton. destruct (Hin cp Hcp) as [Hc _]. by apply (centroid_not_root cp.1). }
  split.
  - apply loaded_lookup; [done|]. apply elem_of_app. right. left.
  - intros c w Hne. rewrite loaded_lookup by done. rewrite elem_of_app, list_elem_of_singleton. unfold l. rewrite list_elem_of_fmap. split.
    + intros [([c' pl] & He & Hcp)|He]; [|by injection He]. injection He as -> ->. by exists pl.
    + intros (pl & Hcp & ->). left. by exists (c, pl).
Qed.

Lemma load_tree_ok (config : Config) :
  cf_dimensions config = dims →
  ∃ t, load_tree_index now config s = Ok t ∧ lt_meta t = st_centroids_meta st ∧ lt_centroids t = centroids st ∧
    by_level (lt_counts t) ∧ (∀ c, count_of (lt_counts t) c = count_of (st_centroid_counts st) c) ∧
    (∀ c, is_Some (lt_cache t !! c) ↔
       c = ROOT_VECTOR_ID ∨ is_Some (centroids st !! c) ∧ level c ≠ LEAF_LEVEL ∧ is_Some (kv_map s (posting_key c))) ∧
    (∀ c w us, lt_cache t !! c = Some w → PostingAt dims (kv_map s) c us → CachedAt w 0 us).
Proof.
  intros Hdims. unfold load_tree_index. rewrite Hdims. destruct (co_meta _ _ _ _ Hco) as [Hm8 Hm].
  unfold get_centroids_meta. rewrite (get_record now) by done. change centroids_key_encode with (key_bytes (KSingleton Centroids)).
  rewrite Hm, (centroids_value_ok _ Hm8). cbn [of_encoding res_map_err res_bind].
  destruct (co_postings _ _ _ _ Hco ROOT_VECTOR_ID ltac:(by right)) as (rus & Hrus & _).
  unfold get_root_posting_list. rewrite (get_posting_spec dims now s ROOT_VECTOR_ID rus Hok ltac:(by right) Hrus). cbn [res_bind].
  destruct (from_value_spec rus (stored_at_nodup dims _ _ _ Hrus)) as (root & -> & Hrw & Hrc & _). cbn [of_encoding res_map_err res_bind].
  destruct load_infos_ok as (infos & -> & Hcs). cbn [res_bind]. rewrite Hcs.
  destruct load_counts_ok as (counts & -> & Hlv & Hcnt). cbn [res_bind].
  destruct load_lists_ok as (lists & -> & Hnd & Hlists). cbn [res_bind].
  destruct (inner_postings_ok lists ltac:(by intros c us ?%Hlists)) as (ps & -> & HF). cbn [res_bind].
  assert (Hps1 : ps.*1 = lists.*1) by (clear -HF; induction HF as [|? ? ? ? [He _] _ IH]; [done|]; rewrite !fmap_cons, IH; by f_equal).
  assert (Hps : ∀ c pl, (c, pl) ∈ ps → ∃ us, (c, us) ∈ lists ∧ wf_list pl ∧ content pl = apply_updates ∅ us).
  { intros c pl Hp. destruct (Forall2_elem_r _ _ _ _ HF Hp) as ([c' us] & Hin & Hc' & H). cbn in Hc'. subst c'. by exists us. }
  destruct (cache_new_ok root ps) as (cache & -> & Hroot & Hother).
  { by rewrite Hps1. }
  { apply Forall_forall. intros [c pl] Hp. destruct (Hps c pl Hp) as (us & Hin & _). by apply Hlists in Hin as [? _]. }
  cbn [res_bind]. unfold depth_of. rewrite (proj2 (Z.leb_le 3 _)) by apply (ti_depth _ _ Hti). cbn [rust_assert res_bind].
  eexists. split; [done|]. cbn [lt_meta lt_centroids lt_counts lt_cache]. split; [done|]. split; [done|]. split; [done|]. split; [done|]. split.
  - intros c. destruct (decide (c = ROOT_VECTOR_ID)) as [->|Hne]; [rewrite Hroot; split; [by left|by eexists]|]. split.
    + intros [w Hw]. apply Hother in Hw as (pl & Hp & _); [|done]. destruct (Hps c pl Hp) as (us & Hin & _).
      apply Hlists in Hin as ([Hc [Hl _]] & [v Hv] & _). right. split; [|split; [lia|by eexists]].
      destruct (centroids st !! c) eqn:E; [by eexists|]. by rewrite (co_absent _ _ _ _ Hco c Hc E) in Hv.
    + intros [|([ci Hci] & Hl & Hrec)]; [done|].
      destruct (co_centroid _ _ _ _ Hco c ci Hci) as (Hc & _). destruct (co_postings _ _ _ _ Hco c ltac:(by left)) as (us & Hus & _).
      assert (Hin : (c, us) ∈ lists).
      { apply Hlists. split; [|done]. split; [done|]. pose proof (centroid_level c Hc). pose proof (ti_levels _ _ Hti c ltac:(by eexists)).
        unfold LEAF_LEVEL in *. lia. }
      destruct (Forall2_elem_l _ _ _ _ HF Hin) as ([c' pl] & Hp & Hc' & _). cbn in Hc'. subst c'.
      exists (mkWritten pl 0). apply Hother; [done|]. by exists pl.
  - intros c w us Hw Hus. destruct (decide (c = ROOT_VECTOR_ID)) as [->|Hne].
    + rewrite Hroot in Hw. injection Hw as <-. rewrite (posting_at_unique dims _ _ _ _ Hus Hrus). done.
    + apply Hother in Hw as (pl & Hp & ->); [|done]. destruct (Hps c pl Hp) as (us' & Hin & Hwf & Hcon).
      apply Hlists in Hin as (_ & _ & Hus'). rewrite (posting_at_unique dims _ _ _ _ Hus Hus'). done.
Qed.

(** the allocator continues after the stored block *)
Lemma reloaded_block_ok b : block_ok b → block_ok (mkAllocated (current_block b) (block_end b)).
Proof. intros (H1 & H2 & H3). split; [done|]. unfold block_end in *. cbn in *. lia. Qed.

(** what a loaded state is, whatever the lists *)
Record Reloaded (st' : VectorIndexState) : Prop := mkReloaded {
  re_dict : dictionary st' = dictionary st;
  re_meta : st_centroids_meta st' = st_centroids_meta st;
  re_centroids : centroids st' = centroids st;
  re_levels : by_level (st_centroid_counts st');
  re_counts c : count_of (st_centroid_counts st') c = count_of (st_centroid_counts st) c;
  re_cached c : is_Some (centroid_cache st' !! c) ↔
    c = ROOT_VECTOR_ID ∨ is_Some (centroids st !! c) ∧ level c ≠ LEAF_LEVEL ∧ is_Some (kv_map s (posting_key c));
  re_content c w us : centroid_cache st' !! c = Some w → PostingAt dims (kv_map s) c us → CachedAt w 0 us;
  re_seq : sequence_block_key st' = key_bytes (KSingleton SeqBlock) ∧
    sequence_block st' = mkAllocated (current_block (sequence_block st)) (block_end (sequence_block st));
  re_centroid_seq : centroid_sequence_block_key st' = key_bytes (KSingleton CentroidSeqBlock) ∧
    centroid_sequence_block st' = mkAllocated (current_block (centroid_sequence_block st)) (block_end (centroid_sequence_block st));
}.

Lemma load_state_ok (config : Config) (s0 : St) :
  cf_dimensions config = dims → kv_ok s0 → (∀ k, kv_map s0 k = kv_map s k) →
  ∃ st', load_indexer_state now config s0 s = Ok st' ∧ Reloaded st'.
Proof.
  intros Hdims Hok0 Hmap. destruct (co_seq _ _ _ _ Hco) as (Hk & Hb & Hseq). destruct (co_centroid_seq _ _ _ _ Hco) as (Hck & Hcb & Hcseq).
  destruct (load_tree_ok config Hdims) as (t & Ht & Hmeta & Hcs & Hlv & Hcnt & Hcached & Hcontent).
  unfold load_indexer_state. change seq_block_key_encode with (key_bytes (KSingleton SeqBlock)).
  change centroid_seq_block_key_encode with (key_bytes (KSingleton CentroidSeqBlock)).
  rewrite (load_allocator_ok s0 _ (sequence_block st) Hok0 Hb) by (by rewrite Hmap, <-Hk).
  rewrite (load_allocator_ok s0 _ (centroid_sequence_block st) Hok0 Hcb) by (by rewrite Hmap, <-Hck).
  cbn [res_bind]. rewrite load_dictionary_ok. cbn [res_bind]. rewrite Ht. cbn [res_bind freeze seq_key block].
  eexists. split; [done|]. by split.
Qed.

Lemma reloaded_coherent st' : Reloaded st' → Loadable (kv_map s) st → Coherent dims (kv_map s) st' 0.
Proof.
  intros [Hd Hmeta Hcs Hlv Hcnt Hcached Hcontent [Hk' Hb'] [Hck' Hcb']] Hload.
  destruct (co_seq _ _ _ _ Hco) as (Hk & Hb & Hseq). destruct (co_centroid_seq _ _ _ _ Hco) as (Hck & Hcb & Hcseq). split.
  - rewrite Hmeta. apply (co_meta _ _ _ _ Hco).
  - rewrite Hd. apply (co_dict _ _ _ _ Hco).
  - rewrite Hcs. apply (co_info _ _ _ _ Hco).
  - intros c Hc. rewrite Hcnt. by apply (co_stats _ _ _ _ Hco).
  - intros c ci. rewrite Hcs. intros Hci. destruct (co_centroid _ _ _ _ Hco c ci Hci) as (H1 & H2 & H3 & H4). split_and!; [done..|].
    rewrite Hcb'. cbn [next_sequence]. destruct Hcb as (_ & Hcb & _). lia.
  - intros lv counts c n H1 H2. pose proof (Hlv lv counts c n H1 H2) as ->. split; [done|]. rewrite Hcs.
    assert (Hn : count_of (st_centroid_counts st') c = Some n) by (unfold count_of; by rewrite H1). rewrite Hcnt in Hn.
    unfold count_of in Hn. apply bind_Some in Hn as (cs & H3 & H4). by apply (co_counts _ _ _ _ Hco _ _ _ _ H3 H4).
  - intros c Hc. destruct (co_postings _ _ _ _ Hco c Hc) as (us & Hus & _). exists us. split; [done|]. intros w Hw. by eapply Hcontent.
  - intros c. rewrite Hcs. intros [->|[Hc Hl]]; apply Hcached; [by left|right]. split; [done|]. split; [done|by apply Hload].
  - intros c Hc. rewrite Hcs. apply Hcached in Hc. tauto.
  - rewrite Hcs. apply (co_absent _ _ _ _ Hco).
  - rewrite Hk', Hb', <-Hk. split; [done|]. split; [by apply reloaded_block_ok|done].
  - rewrite Hck', Hcb', <-Hck. split; [done|]. split; [by apply reloaded_block_ok|done].
Qed.

Lemma reloaded_tidy st' : Reloaded st' → Tidy (kv_map s) st'.
Proof.
  intros [Hd Hmeta Hcs Hlv Hcnt _ _ _ _]. split.
  - apply (ti_keys _ _ Hti).
  - rewrite Hd. apply (ti_dict _ _ Hti).
  - intros c n. rewrite Hcnt. apply (ti_counts _ _ Hti).
  - rewrite Hmeta. apply (ti_depth _ _ Hti).
  - rewrite Hcs. apply (ti_levels _ _ Hti).
Qed.
End loading.

(** ** Opening a database *)
Section opening.
Context {HO : HashOrder} {HOL : HashOrderLaws} {AO : AnyOrder} {RT : RoaringTreemap} {FO : FloatOps Z}.
Context (config : Config) (now : Z).
Let dims := cf_dimensions config.
Context {St : Type} {KV : KvStore St} {KL : KvStoreLaws St} {KM : KvMergeLaws St (operator dims)}.

Lemma coherent_ext (m m' : bytes → option bytes) st e : (∀ k, m' k = m k) → Coherent dims m st e → Coherent dims m' st e.
Proof.
  intros Hm [H1 H2 H3 H4 H5 H6 H7 H8 H9 H10 H11 H12]. split; try done.
  all: try (intros; rewrite Hm; auto; fail).
  intros c Hc. destruct (H7 c Hc) as (us & Hus & Hw). exists us. unfold PostingAt in *. by rewrite Hm.
Qed.

Lemma tidy_ext (m m' : bytes → option bytes) st : (∀ k, m' k = m k) → Tidy m st → Tidy m' st.
Proof. intros Hm [H1 H2 H3 H4 H5]. split; try done. intros k v. rewrite Hm. apply H1. Qed.

Lemma get_meta_ok (s : St) : kv_ok s →
  get_centroids_meta now s = match kv_map s (key_bytes (KSingleton Centroids)) with
                             | Some v => let? a := of_encoding (centroids_decode v) in Ok (Some a)
                             | None => Ok None
                             end.
Proof. intros Hok. unfold get_centroids_meta. by rewrite (get_record now) by done. Qed.

Lemma reloaded_ext (s s' : St) st st' : (∀ k, kv_map s' k = kv_map s k) → Reloaded dims s' st st' → Reloaded dims s st st'.
Proof.
  intros Hm [Hd Hmeta Hcs Hlv Hcnt Hcached Hcontent H1 H2]. split; try done.
  - intros c. by rewrite Hcached, Hm.
  - intros c w us Hw Hus. apply (Hcontent c); [done|]. unfold PostingAt in *. by rewrite Hm.
Qed.

(** a snapshot is taken and everything is read from it *)
Lemma load_snapshot (s : St) st e :
  kv_ok s → Coherent dims (kv_map s) st e → Tidy (kv_map s) st →
  ∃ f, (let? snapshot := of_storage (kv_snapshot s) in
        let? tree := load_tree_index now config snapshot in
        let? st := load_indexer_state now config s snapshot in
        Ok (mkFlusher s snapshot 0 st (mkLastApplied snapshot 0 (Some (lt_cache tree)) (lt_meta tree) (lt_leaf_centroids tree)) None)) = Ok f ∧
    fl_storage f = s ∧ (∀ k, kv_map (last_snapshot f) k = kv_map s k) ∧
    kv_ok (last_snapshot f) ∧ last_snapshot_epoch f = 0 ∧ poisoned f = None ∧ Reloaded dims s st (fl_state f).
Proof.
  intros Hok Hco Hti. destruct (law_snapshot s Hok) as (s2 & -> & Hok2 & Hm2). cbn [of_storage res_map_err res_bind].
  pose proof (coherent_ext _ _ _ _ Hm2 Hco) as Hco2. pose proof (tidy_ext _ _ _ Hm2 Hti) as Hti2.
  destruct (load_tree_ok dims now s2 Hok2 st e Hco2 Hti2 config eq_refl) as (t & -> & _). cbn [res_bind].
  destruct (load_state_ok dims now s2 Hok2 st e Hco2 Hti2 config s eq_refl Hok ltac:(intros k; by rewrite Hm2)) as (st' & -> & Hr). cbn [res_bind].
  eexists. split; [done|]. cbn [fl_storage last_snapshot last_snapshot_epoch poisoned fl_state]. split_and!; [done..|]. by apply (reloaded_ext s s2).
Qed.

(** a database that is there already is loaded *)
Lemma open_existing (s : St) st e :
  kv_ok s → Coherent dims (kv_map s) st e → Tidy (kv_map s) st →
  ∃ f, open_with_storage now config s = Ok f ∧ fl_storage f = s ∧ (∀ k, kv_map (last_snapshot f) k = kv_map s k) ∧
    kv_ok (last_snapshot f) ∧ last_snapshot_epoch f = 0 ∧ poisoned f = None ∧ Reloaded dims s st (fl_state f).
Proof.
  intros Hok Hco Hti. destruct (co_seq _ _ _ _ Hco) as (Hk & Hb & Hseq). destruct (co_centroid_seq _ _ _ _ Hco) as (Hck & Hcb & Hcseq).
  destruct (co_meta _ _ _ _ Hco) as [Hm8 Hm]. unfold open_with_storage, load_or_init_db.
  change seq_block_key_encode with (key_bytes (KSingleton SeqBlock)). change centroid_seq_block_key_encode with (key_bytes (KSingleton CentroidSeqBlock)).
  rewrite (load_allocator_ok now s _ (sequence_block st) Hok Hb) by (by rewrite <-Hk).
  rewrite (load_allocator_ok now s _ (centroid_sequence_block st) Hok Hcb) by (by rewrite <-Hck). cbn [res_bind].
  destruct (law_snapshot s Hok) as (s1 & Hs1 & Hok1 & Hm1). rewrite Hs1. cbn [of_storage res_map_err res_bind].
  unfold bootstrap_tree_index_if_needed. rewrite (get_meta_ok s1 Hok1), Hm1, Hm, (centroids_value_ok _ Hm8). cbn [of_encoding res_map_err res_bind].
  by apply (load_snapshot s st e).
Qed.

(** ** An empty store *)
Section create.
Context (Hzero : in_u 32 fzero) (Hdims : Z.of_nat dims ≤ u_max 16).

Let zero : list Z := replicate dims fzero.
Definition first_centroid : VectorId := 2 ^ 56 + 1.
Definition first_block : SeqBlock.t := SeqBlock.new 0 DEFAULT_BLOCK_SIZE.
Definition first_root : list PostingUpdate := from_posting_updates [PAppend first_centroid zero].

(** the records of a new database *)
Definition first_records : list (Key * bytes) :=
  [(KSingleton CentroidSeqBlock, SeqBlock.serialize first_block);
   (KId CentroidInfo first_centroid, encoded (centroid_info_encode (mkInfo 1 zero ROOT_VECTOR_ID)));
   (KId CentroidStats first_centroid, centroid_stats_encode 0);
   (KSingleton Centroids, centroids_encode 3);
   (KId Vec.PostingList ROOT_VECTOR_ID, postings_encode first_root)].

Definition put_record (kv : Key * bytes) : RecordOp := put_op (key_bytes kv.1) kv.2.

Lemma zero_ok : vector_ok dims zero.
Proof. split; [apply length_replicate|]. by apply Forall_replicate. Qed.

Lemma first_ok : centroid_ok first_centroid.
Proof. split; by vm_compute. Qed.

Lemma first_info_ok : wf_val dims (VInfo (mkInfo 1 zero ROOT_VECTOR_ID)).
Proof. apply vector_info_ok; [done|apply zero_ok|by vm_compute|by right]. Qed.

Lemma bootstrap_ops_ok :
  bootstrap_ops [zero] (mkAllocator (key_bytes (KSingleton CentroidSeqBlock)) (mkAllocated None 0)) = Ok (put_record <$> first_records).
Proof.
  destruct (centroid_info_roundtrip _ _ first_info_ok) as (enc & He & _).
  destruct (centroid_key_ok first_centroid first_ok) as (H1 & H2 & H3 & H4).
  destruct (posting_key_ok ROOT_VECTOR_ID ltac:(by right)) as (H5 & H6 & _).
  unfold bootstrap_ops. change (allocate_one (mkAllocator (key_bytes (KSingleton CentroidSeqBlock)) (mkAllocated None 0))) with
    (0, Some (mkRecord (key_bytes (KSingleton CentroidSeqBlock)) (SeqBlock.serialize first_block)),
     mkAllocator (key_bytes (KSingleton CentroidSeqBlock)) (mkAllocated (Some first_block) 1)).
  cbn [rust_assert res_bind Z.eqb bootstrap_centroids]. unfold bootstrap_centroid at 1.
  change (allocate_one (mkAllocator (key_bytes (KSingleton CentroidSeqBlock)) (mkAllocated (Some first_block) 1))) with
    (1, @None Record_, mkAllocator (key_bytes (KSingleton CentroidSeqBlock)) (mkAllocated (Some first_block) 2)).
  cbv beta iota. assert (Hid : centroid_id 1 1 = Ok first_centroid) by done. rewrite Hid. cbn [of_encoding res_map_err res_bind].
  assert (Hnew : centroid_info_new 1 zero ROOT_VECTOR_ID = Ok (mkInfo 1 zero ROOT_VECTOR_ID)) by done. rewrite Hnew.
  cbn [of_encoding res_map_err res_bind].
  rewrite H1, H3. cbn [of_encoding res_map_err res_bind]. rewrite He. cbn [of_encoding res_map_err res_bind].
  unfold root_put_op. rewrite H5. cbn [of_encoding res_map_err res_bind alloc_op app]. rewrite H2, H4, H6.
  unfold first_records, put_record. cbn [fmap list_fmap fst snd]. by rewrite He.
Qed.

Lemma first_wf : Forall (λ kv, wf_key kv.1) first_records ∧ NoDup first_records.*1.
Proof.
  destruct (wf_ids first_centroid first_ok) as (H1 & H2 & _). split.
  - repeat apply Forall_cons_2; try apply Forall_nil_2; cbn [fst]; try done; try (by vm_compute; repeat constructor).
  - apply (bool_decide_unpack _). by vm_compute.
Qed.

Section created.
Context (m : bytes → option bytes) (Hm : ∀ k, m k = effect (operator dims) k (put_record <$> first_records) None).

Lemma first_in vk b : (vk, b) ∈ first_records → m (key_bytes vk) = Some b.
Proof.
  intros Hin. rewrite Hm. destruct first_wf as [Hw Hnd]. change (key_bytes vk) with (op_key (put_record (vk, b))).
  rewrite effect_fmap; [done| |done]. change (op_key ∘ put_record) with (key_bytes ∘ @fst Key bytes). rewrite list_fmap_compose.
  apply NoDup_fmap_2_strong; [|done]. intros k1 k2 (kv1 & -> & H1)%list_elem_of_fmap (kv2 & -> & H2)%list_elem_of_fmap.
  rewrite Forall_forall in Hw. apply vec_key_bytes_inj; by apply Hw.
Qed.

Lemma first_out vk : wf_key vk → vk ∉ first_records.*1 → m (key_bytes vk) = None.
Proof.
  intros Hvk Hno. rewrite Hm. apply effect_none, Forall_fmap, Forall_forall. intros kv Hkv Hk. destruct first_wf as [Hw _].
  rewrite Forall_forall in Hw. apply vec_key_bytes_inj in Hk; [|by apply Hw|done]. apply Hno. rewrite <-Hk. by apply list_elem_of_fmap_2.
Qed.

Lemma first_fine k v : m k = Some v → KeyFine k.
Proof.
  rewrite Hm. intros Hv. destruct (decide (Forall (λ op, op_key op ≠ k) (put_record <$> first_records))) as [Hno|Hyes].
  - by rewrite effect_none in Hv.
  - apply not_Forall_Exists in Hyes; [|apply _]. apply Exists_exists in Hyes as (op & (kv & -> & Hkv)%list_elem_of_fmap & Hk').
    apply dec_stable in Hk'. left. exists kv.1. destruct first_wf as [Hw _]. rewrite Forall_forall in Hw. split; [by apply Hw|done].
Qed.

Definition first_state (pl : PostingList) : VectorIndexState :=
  mkState ∅ 3 1 {[first_centroid := mkInfo 1 zero ROOT_VECTOR_ID]} {[1 := {[first_centroid := 0]}]}
    (key_bytes (KSingleton SeqBlock)) (mkAllocated None 0) (key_bytes (KSingleton CentroidSeqBlock)) (mkAllocated (Some first_block) 2)
    {[ROOT_VECTOR_ID := mkWritten pl 0]}.

Lemma first_count c : count_of {[1 := {[first_centroid := 0]}]} c = if decide (c = first_centroid) then Some 0 else None.
Proof.
  unfold count_of. case_decide as Hc; [subst c; by vm_compute|]. destruct (decide (level c = 1)) as [->|Hl].
  - rewrite lookup_singleton_eq. cbn. by rewrite lookup_singleton_ne by congruence.
  - by rewrite lookup_singleton_ne by congruence.
Qed.

Lemma first_coherent : ∃ pl, Coherent dims m (first_state pl) 0 ∧ Tidy m (first_state pl) ∧ Loadable m (first_state pl).
Proof.
  assert (Hroot : Stored dims (postings_encode first_root) first_root).
  { apply posting_stored_encode, Forall_singleton. split; [by vm_compute|apply zero_ok]. }
  assert (Hw : wf_key (KId Vec.PostingList ROOT_VECTOR_ID)) by (apply wf_node; by right).
  destruct (from_value_spec first_root) as (pl & _ & Hpw & Hpc & _); [apply sorted_ids_nodup, Hroot|].
  exists pl. split; [|split].
  - split; cbn [dictionary centroids st_centroids_meta st_centroid_counts centroid_cache sequence_block_key sequence_block
      centroid_sequence_block_key centroid_sequence_block first_state].
    + split; [by vm_compute|]. apply first_in. do 3 right. left.
    + intros x Hx. rewrite lookup_empty. apply first_out; [done|]. apply (bool_decide_unpack _). by vm_compute.
    + intros c Hc. destruct (decide (c = first_centroid)) as [->|Hne].
      * rewrite lookup_singleton_eq. apply first_in. right. left.
      * rewrite lookup_singleton_ne by congruence. apply first_out; [by apply wf_ids|]. cbn. rewrite !not_elem_of_cons. split_and!; try done; [|by apply not_elem_of_nil]. congruence.
    + intros c Hc. rewrite first_count. case_decide as Hf; [subst c; apply first_in; do 2 right; left|].
      apply first_out; [by apply wf_ids|]. cbn. rewrite !not_elem_of_cons. split_and!; try done; [|by apply not_elem_of_nil]. congruence.
    + intros c ci [<- <-]%lookup_singleton_Some. split; [apply first_ok|]. split; [apply first_info_ok|]. split; by vm_compute.
    + intros lv cs c n [<- <-]%lookup_singleton_Some [<- <-]%lookup_singleton_Some. split; [by vm_compute|]. rewrite lookup_singleton_eq. by eexists.
    + intros c Hc. destruct (decide (c = ROOT_VECTOR_ID)) as [->|Hne].
      * exists first_root. unfold PostingAt. rewrite (first_in (KId Vec.PostingList ROOT_VECTOR_ID) (postings_encode first_root)) by (do 4 right; left).
        split; [done|]. intros w [_ <-]%lookup_singleton_Some. done.
      * exists []. unfold PostingAt. rewrite (first_out (KId Vec.PostingList c)).
        -- split; [done|]. intros w [<- _]%lookup_singleton_Some. done.
        -- by apply wf_node.
        -- cbn. rewrite !not_elem_of_cons. split_and!; try done; [|by apply not_elem_of_nil]. congruence.
    + intros c [->|[[ci [<- _]%lookup_singleton_Some] Hl]]; [rewrite lookup_singleton_eq; by eexists|]. by vm_compute in Hl.
    + intros c [w [<- _]%lookup_singleton_Some]. by left.
    + intros c Hc _. apply (first_out (KId Vec.PostingList c)); [by apply wf_ids|]. cbn. rewrite !not_elem_of_cons. split_and!; try done; [|by apply not_elem_of_nil].
      intros [= ->]. by apply (centroid_not_root _ Hc).
    + split; [done|]. split; [by split_and!|]. apply (first_out (KSingleton SeqBlock)); [by vm_compute; repeat constructor|]. apply (bool_decide_unpack _). by vm_compute.
    + split; [done|]. split; [split_and!; [intros b [= <-]; by vm_compute|by vm_compute..]|]. apply first_in. left.
  - split; cbn [dictionary centroids st_centroids_meta st_centroid_counts first_state].
    + apply first_fine.
    + intros x v Hx. by rewrite lookup_empty in Hx.
    + intros c n. rewrite first_count. case_decide; [|done]. intros [= <-]. lia.
    + done.
    + intros c [ci [<- _]%lookup_singleton_Some]. by vm_compute.
  - intros c [ci Hci] Hl. cbn [centroids first_state] in Hci. apply lookup_singleton_Some in Hci as [<- _]. by vm_compute in Hl.
Qed.
End created.

(** a new database *)
Lemma open_empty (s : St) :
  kvm_ok s → (∀ k, kv_map s k = None) →
  ∃ f, open_with_storage now config s = Ok f ∧ kvm_ok (fl_storage f) ∧
    (∀ k, kv_map (last_snapshot f) k = kv_map (fl_storage f) k) ∧ kv_ok (last_snapshot f) ∧ last_snapshot_epoch f = 0 ∧ poisoned f = None ∧
    Coherent dims (kv_map (fl_storage f)) (fl_state f) 0 ∧ Tidy (kv_map (fl_storage f)) (fl_state f).
Proof.
  intros Hs Hempty. pose proof (kvm_ok_kv_ok _ Hs) as Hok.
  assert (Hnone : block_ok (mkAllocated None 0)) by (by split_and!).
  destruct (law_apply now (put_record <$> first_records) s Hs) as (s' & n & Ha & Hs' & Hm).
  { apply Forall_fmap, Forall_forall. intros kv _. by right. }
  assert (Hm' : ∀ k, kv_map s' k = effect (operator dims) k (put_record <$> first_records) None).
  { intros k. by rewrite Hm, map_ops_effect, Hempty. }
  destruct (first_coherent (kv_map s') Hm') as (pl & Hco & Hti & Hload). pose proof (kvm_ok_kv_ok _ Hs') as Hok'.
  unfold open_with_storage, load_or_init_db.
  change seq_block_key_encode with (key_bytes (KSingleton SeqBlock)). change centroid_seq_block_key_encode with (key_bytes (KSingleton CentroidSeqBlock)).
  rewrite !(load_allocator_ok now s _ (mkAllocated None 0) Hok Hnone) by (by rewrite Hempty). cbn [res_bind].
  destruct (law_snapshot s Hok) as (s1 & -> & Hok1 & Hm1). cbn [of_storage res_map_err res_bind].
  unfold bootstrap_tree_index_if_needed. rewrite (get_meta_ok s1 Hok1), Hm1, Hempty. cbn [res_bind].
  rewrite bool_decide_eq_false_2 by done. rewrite bool_decide_eq_false_2.
  2: { rewrite Exists_cons, Exists_nil, length_replicate. by intros [|]. }
  change (block_end (mkAllocated None 0)) with 0. cbn [current_block].
  change (replicate (cf_dimensions config) fzero) with zero. rewrite bootstrap_ops_ok. cbn [res_bind]. rewrite Ha. cbn [of_storage res_map_err res_bind].
  destruct (load_snapshot s' _ _ Hok' Hco Hti) as (f & Hf & <- & H1 & H2 & H3 & H4 & Hr).
  exists f. split; [exact Hf|]. split_and!; [done..| |].
  - by eapply reloaded_coherent.
  - by eapply reloaded_tidy.
Qed.
End create.

(** ** A database over many commits and restarts *)
Record Life : Type := mkLife { life_store : St; life_state : VectorIndexState; life_epoch : Z }.

(** a round of the indexer is committed; or the database is closed and opened again *)
Inductive life_step : Life → Life → Prop :=
| life_commit s st e d epoch st' ops s' n :
    rtc (delta_step dims st) (delta_new st) d → e ≤ epoch → Fits (search_index d) (frozen_counts st (search_index d)) →
    delta_freeze d epoch st = Ok (st', ops) → kv_apply now ops s = Ok (s', n) →
    life_step (mkLife s st e) (mkLife s' st' epoch)
| life_restart s st e f :
    Loadable (kv_map s) st → open_with_storage now config s = Ok f →
    life_step (mkLife s st e) (mkLife (fl_storage f) (fl_state f) 0).

Definition Sound (l : Life) : Prop :=
  kvm_ok (life_store l) ∧ Coherent dims (kv_map (life_store l)) (life_state l) (life_epoch l) ∧
  Tidy (kv_map (life_store l)) (life_state l).

Lemma sound_commit s st e d epoch :
  Z.of_nat dims ≤ u_max 16 → Sound (mkLife s st e) → rtc (delta_step dims st) (delta_new st) d → e ≤ epoch →
  Fits (search_index d) (frozen_counts st (search_index d)) →
  ∃ st' ops s' n, delta_freeze d epoch st = Ok (st', ops) ∧ kv_apply now ops s = Ok (s', n) ∧ Sound (mkLife s' st' epoch).
Proof.
  intros Hdims (Hs & Hco & Hti) Hr He Hfit. cbn in Hs, Hco, Hti. pose proof (round_ok dims _ _ _ _ Hdims Hco Hr) as Hd.
  destruct (commit_round dims now s st e d epoch Hdims Hs Hco Hd He Hfit) as (cache' & idxs & s' & n & Hf & Ha & Hs' & Hidx & Hm & Hco').
  do 4 eexists. split; [exact Hf|]. split; [exact Ha|]. split; [done|]. split; [done|].
  eapply (commit_tidy dims); try done. apply (round_shape dims st); [apply (ti_levels _ _ Hti)|apply (ti_depth _ _ Hti)|done].
Qed.

Lemma sound_step l l' : Z.of_nat dims ≤ u_max 16 → Sound l → life_step l l' → Sound l'.
Proof.
  intros Hdims Hl. destruct 1 as [s st e d epoch st' ops s' n Hr He Hfit Hf Ha|s st e f Hload Hf].
  - destruct (sound_commit _ _ _ _ _ Hdims Hl Hr He Hfit) as (st2 & ops2 & s2 & n2 & Hf2 & Ha2 & H). congruence.
  - destruct Hl as (Hs & Hco & Hti). cbn in Hs, Hco, Hti.
    destruct (open_existing s st e (kvm_ok_kv_ok _ Hs) Hco Hti) as (f' & Hf' & Hfs & _ & _ & _ & _ & Hre).
    assert (f' = f) as -> by congruence. rewrite Hfs. split; [done|]. split.
    + by eapply reloaded_coherent.
    + by eapply reloaded_tidy.
Qed.

(** C8: A database created on an empty store stays whole over any history of commits and
    restarts.  Opening the empty store succeeds.  From there let any number of indexing
    rounds be committed, each any sequence of the round's operations, with closing and
    reopening in between (at points where every inner centroid has a posting record).
    Memory, cache and store always agree; the next round, whatever it does, freezes without
    a panic and its batch is applied; and opening the store again at any such point succeeds
    and restores the dictionary, the centroids, their counts and the depth exactly, with
    ids allocated from above everything handed out before. *)
Theorem index_survives_restarts (s : St) :
  in_u 32 fzero → Z.of_nat dims ≤ u_max 16 → kvm_ok s → (∀ k, kv_map s k = None) →
  ∃ f0, open_with_storage now config s = Ok f0 ∧
    ∀ l, rtc life_step (mkLife (fl_storage f0) (fl_state f0) 0) l →
      Sound l ∧
      (∀ d epoch, rtc (delta_step dims (life_state l)) (delta_new (life_state l)) d → life_epoch l ≤ epoch →
         Fits (search_index d) (frozen_counts (life_state l) (search_index d)) →
         ∃ st' ops s' n, delta_freeze d epoch (life_state l) = Ok (st', ops) ∧ kv_apply now ops (life_store l) = Ok (s', n)) ∧
      ∃ f, open_with_storage now config (life_store l) = Ok f ∧
        dictionary (fl_state f) = dictionary (life_state l) ∧ centroids (fl_state f) = centroids (life_state l) ∧
        (∀ c, count_of (st_centroid_counts (fl_state f)) c = count_of (st_centroid_counts (life_state l)) c) ∧
        st_centroids_meta (fl_state f) = st_centroids_meta (life_state l) ∧
        next_sequence (sequence_block (life_state l)) ≤ next_sequence (sequence_block (fl_state f)) ∧
        next_sequence (centroid_sequence_block (life_state l)) ≤ next_sequence (centroid_sequence_block (fl_state f)).
Proof.
  intros Hz Hdims Hs Hempty. destruct (open_empty Hz Hdims s Hs Hempty) as (f0 & Hf0 & Hs0 & _ & _ & _ & _ & Hco0 & Hti0).
  exists f0. split; [done|]. intros l Hl. assert (H : Sound l).
  { assert (H0 : Sound (mkLife (fl_storage f0) (fl_state f0) 0)) by done. revert H0.
    induction Hl as [|l1 l2 l3 Hstep _ IH]; [done|]. intros H1. apply IH. by eapply sound_step. }
  split; [done|]. split.
  - intros d epoch Hr He Hfit. destruct l as [s1 st e]. destruct (sound_commit _ _ _ _ _ Hdims H Hr He Hfit) as (st' & ops & s' & n & ? & ? & _).
    by exists st', ops, s', n.
  - destruct H as (Hs1 & Hco & Hti). destruct (open_existing _ _ _ (kvm_ok_kv_ok _ Hs1) Hco Hti) as (f & Hf & _ & _ & _ & _ & _ & Hre).
    exists f. split; [done|]. destruct Hre as [H1 H2 H3 _ H5 _ _ [_ H6] [_ H7]]. rewrite H6, H7. cbn [next_sequence].
    destruct (co_seq _ _ _ _ Hco) as (_ & (_ & ?) & _), (co_centroid_seq _ _ _ _ Hco) as (_ & (_ & ?) & _).
    split_and!; [done..|lia|lia].
Qed.

(** ** An inner list that is not there *)
Lemma for_each_without {A} (f : A → CentroidCache → res DbError CentroidCache) (c : VectorId) xs cache cache' :
  (∀ x m m', x ∈ xs → m !! c = None → f x m = Ok m' → m' !! c = None) →
  cache !! c = None → for_each f xs cache = Ok cache' → cache' !! c = None.
Proof.
  revert cache. induction xs as [|x xs IH]; intros cache Hf Hc H; cbn [for_each] in H; [by injection H as <-|].
  apply res_bind_ok in H as (m1 & H1 & H). eapply IH; [|eapply Hf; [left|done|done]|done]. intros y m m' Hy. apply Hf. by right.
Qed.

Lemma update_cached_missing epoch c us (cache cache' : CentroidCache) l :
  level c ≠ LEAF_LEVEL → (c, us) ∈ l → cache !! c = None → for_each (update_cached epoch) l cache ≠ Ok cache'.
Proof.
  intros Hl. revert cache. induction l as [|[x xs] l IH]; intros cache Hin Hc H; [by apply elem_of_nil in Hin|].
  cbn [for_each] in H. apply res_bind_ok in H as (m1 & H1 & H). unfold update_cached in H1. cbn [fst snd] in H1.
  destruct (decide (x = c)) as [->|Hne].
  - rewrite (proj2 (Z.eqb_neq _ _) Hl) in H1. apply res_bind_ok in H1 as (? & _ & H1). by rewrite Hc in H1.
  - apply elem_of_cons in Hin as [[= <- _]|Hin]; [done|]. revert H. apply (IH m1 Hin).
    destruct (level x =? LEAF_LEVEL); [by injection H1 as <-|].
    do 3 apply res_bind_ok in H1 as (? & _ & H1). injection H1 as <-. by rewrite lookup_insert_ne.
Qed.

Lemma update_root_other epoch rt us (cache cache' : CentroidCache) c :
  c ≠ ROOT_VECTOR_ID → update_root epoch rt us cache = Ok cache' → cache' !! c = cache !! c.
Proof.
  intros Hc H. unfold update_root in H. destruct rt, us; [..|by injection H as <-|];
    do 2 apply res_bind_ok in H as (? & _ & H); injection H as <-; by rewrite lookup_insert_ne.
Qed.

Lemma freeze_missing st d epoch r c ci :
  centroids st !! c = Some ci → 0 < ci_level ci → level c ≠ LEAF_LEVEL → c ≠ ROOT_VECTOR_ID → centroid_cache st !! c = None →
  is_Some (posting_updates (search_index d) !! c) → upserted_centroids (search_index d) !! c = None →
  c ∉ new_centroids (search_index d) → c ∉ deleted_centroids (search_index d) → delta_freeze d epoch st ≠ Ok r.
Proof.
  intros Hci Hlv Hl Hroot Hc [us Hus] Hup Hnew Hdel H. unfold delta_freeze in H. apply res_bind_ok in H as ([st1 ops] & H1 & H).
  assert (Hst1 : centroids st1 = centroids st ∧ centroid_cache st1 = centroid_cache st).
  { unfold forward_freeze in H1. destruct (freeze _). cbv zeta in H1. do 4 apply res_bind_ok in H1 as (? & _ & H1). by injection H1 as <- _. }
  destruct Hst1 as [Hcs Hcache]. unfold search_freeze in H. apply res_bind_ok in H as (st2 & H2 & _).
  unfold search_freeze_state in H2. cbv zeta in H2. apply res_bind_ok in H2 as (cache' & H2 & _).
  unfold update_postings in H2. apply res_bind_ok in H2 as (m1 & Hm1 & H2). apply res_bind_ok in H2 as (m2 & Hm2 & H2).
  apply res_bind_ok in H2 as (m3 & Hm3 & _). rewrite Hcache in Hm1. apply (update_root_other _ _ _ _ _ c Hroot) in Hm1.
  revert Hm3. apply (update_cached_missing epoch c us); [done| |].
  - unfold cache_posting_updates. rewrite list_elem_of_filter, elem_of_hash_iter. cbn [fst]. split; [|done].
    change (insert_all _ _) with (frozen_centroids st1 (search_index d)). rewrite frozen_centroids_lookup. unfold dirty_centroid.
    rewrite Hup, bool_decide_eq_false_2, Hcs, Hci by done. by apply Z.ltb_lt.
  - eapply (for_each_without (add_new_centroid epoch) c); [|by rewrite Hm1|exact Hm2].
    intros x m m' Hx%elem_of_hash_elements Hm Ha. unfold add_new_centroid in Ha. destruct (level x =? LEAF_LEVEL); [by injection Ha as <-|].
    apply res_bind_ok in Ha as (? & _ & Ha). injection Ha as <-. rewrite lookup_insert_ne; [done|]. by intros ->.
Qed.

(** C40: A restart forgets inner posting lists that are empty.  The list of a centroid
    above the leaves is written when its first entry is added, but only lists with a
    record are loaded on a restart, where the running index has an (empty) cached list for
    every inner centroid from the moment it is created.  So when the store of a coherent
    index has an inner centroid without a posting record, opening it succeeds and the
    centroid is back, its cached list is not, and every later round that touches the list
    (without creating, updating or deleting the centroid) cannot be frozen: it panics,
    where before the restart it was committed. *)
Theorem restart_forgets_empty_list (s : St) st e c ci :
  Z.of_nat dims ≤ u_max 16 → Sound (mkLife s st e) →
  centroids st !! c = Some ci → level c ≠ LEAF_LEVEL → kv_map s (posting_key c) = None →
  ∃ f, open_with_storage now config s = Ok f ∧ centroids (fl_state f) !! c = Some ci ∧
    ∀ d, is_Some (posting_updates (search_index d) !! c) → upserted_centroids (search_index d) !! c = None →
      c ∉ new_centroids (search_index d) → c ∉ deleted_centroids (search_index d) →
      (∀ epoch r, delta_freeze d epoch (fl_state f) ≠ Ok r) ∧
      (∀ epoch, rtc (delta_step dims st) (delta_new st) d → e ≤ epoch → Fits (search_index d) (frozen_counts st (search_index d)) →
         ∃ r, delta_freeze d epoch st = Ok r).
Proof.
  intros Hdims Hl Hci Hlv Hrec. destruct Hl as (Hs & Hco & Hti). cbn in Hs, Hco, Hti.
  destruct (open_existing s st e (kvm_ok_kv_ok _ Hs) Hco Hti) as (f & Hf & _ & _ & _ & _ & _ & Hre). exists f.
  destruct (co_centroid _ _ _ _ Hco _ _ Hci) as (Hok & _ & Hlev & _). pose proof (centroid_level c Hok) as Hpos.
  pose proof (re_centroids _ _ _ _ Hre) as Hcs. split; [done|]. split; [by rewrite Hcs|]. intros d H1 H2 H3 H4. split.
  - intros epoch r. apply (freeze_missing _ _ _ _ c ci); try done; [by rewrite Hcs|lia|by apply centroid_not_root|].
    apply eq_None_not_Some. rewrite (re_cached _ _ _ _ Hre). intros [->|(_ & _ & [? Hx])]; [by apply (centroid_not_root _ Hok)|congruence].
  - intros epoch Hr He Hfit. destruct (sound_commit s st e d epoch Hdims) as (st' & ops & ? & ? & H & _); [done..|]. by exists (st', ops).
Qed.
End opening.

(** ** The flusher *)
Section flusher.
Context {HO : HashOrder} {AO : AnyOrder} {RT : RoaringTreemap} {FO : FloatOps Z} (cpu : Cpu) (rng : Z → Draw → Rng) (config : Config) (now : Z).
Context {St : Type} `{!KvStore St}.

(** flushes one after the other *)
Fixpoint flush_all (f : VectorDbFlusher) (batches : list (list VectorWrite * Z)) : option (VectorDbFlusher * list (FlushError + St)) :=
  match batches with
  | [] => Some (f, [])
  | (writes, epoch_end) :: batches =>
      match flush_delta cpu rng now config f writes epoch_end with
      | None => None
      | Some (f, r) => match flush_all f batches with None => None | Some (f, rs) => Some (f, r :: rs) end
      end
  end.

Lemma poisoned_flushes (f : VectorDbFlusher) err batches : poisoned f = Some err →
  flush_all f batches = Some (f, replicate (length batches) (inl (Poisoned err))).
Proof.
  intros Hp. induction batches as [|[ws ep] batches IH]; [done|]. cbn [flush_all]. unfold flush_delta at 1. by rewrite Hp, IH.
Qed.

(** the store refused the batch, or its snapshot *)
Definition store_failed (f f' : VectorDbFlusher) (ur : IndexUpdateResults) (err : DbError) : Prop :=
  (∃ e, kv_apply now (ur_ops ur) (fl_storage f) = Err e ∧ err = EStorage e ∧ fl_storage f' = fl_storage f) ∨
  (∃ n e, kv_apply now (ur_ops ur) (fl_storage f) = Ok (fl_storage f', n) ∧ kv_snapshot (fl_storage f') = Err e ∧ err = EStorage e).

(** C25: A flush either commits a batch completely or keeps the published snapshot,
    and after a failure of the store nothing is ever written again.  A flush that
    succeeds applied exactly the indexer's batch of operations to the store, took its
    snapshot afterwards, and published that snapshot to readers with the epoch before the
    end of its range.  A flush that fails keeps the snapshot, epoch and depth that are published (the cache that readers
    share with the writer is the new one; [old_snapshot_reads] is about reads through it).  If the indexer
    refused the batch nothing has changed at all.  If the store failed to apply it or to take
    the snapshot, memory is that of the round, ahead of the store, and the flusher is poisoned with the error of the store:
    every later flush, however many, is refused with it and changes nothing. *)
Theorem flush_commits_or_poisons (f f' : VectorDbFlusher) writes epoch_end r :
  flush_delta cpu rng now config f writes epoch_end = Some (f', r) →
  let epoch := saturating_sub epoch_end 1 in
  let updated := update_index cpu (rng epoch) now (indexer_opts config) (fl_state f) (last_snapshot f) (last_snapshot_epoch f) writes epoch in
  match r with
  | inr snapshot =>
      poisoned f = None ∧ poisoned f' = None ∧
      (∃ ur n, updated = Ok (fl_state f', ur) ∧
         kv_apply now (ur_ops ur) (fl_storage f) = Ok (fl_storage f', n) ∧ la_depth (last_applied f') = ur_depth ur) ∧
      kv_snapshot (fl_storage f') = Ok snapshot ∧ last_snapshot f' = snapshot ∧ last_snapshot_epoch f' = epoch ∧
      la_snapshot (last_applied f') = snapshot ∧ la_epoch (last_applied f') = epoch
  | inl (Poisoned err) => f' = f ∧ poisoned f = Some err
  | inl (FlushFailed err) =>
      poisoned f = None ∧ last_snapshot f' = last_snapshot f ∧ last_snapshot_epoch f' = last_snapshot_epoch f ∧ last_applied f' = last_applied f ∧
      match updated with
      | Ok (st, ur) =>
          fl_state f' = st ∧ store_failed f f' ur err ∧ poisoned f' = Some err ∧
          ∀ batches, flush_all f' batches = Some (f', replicate (length batches) (inl (Poisoned err)))
      | Err e => f' = f ∧ err = e
      | Panic => False
      end
  end.
Proof.
  intros H epoch updated. unfold flush_delta in H. destruct (poisoned f) as [err|] eqn:Hp; [by injection H as <- <-|]. cbv zeta in H.
  fold epoch in H. fold updated in H. destruct updated as [[st ur]|e|] eqn:Hu; [|by injection H as <- <-|done].
  destruct (apply_and_snapshot now f ur _) as [storage result] eqn:Ha. unfold apply_and_snapshot in Ha.
  destruct (kv_apply now (ur_ops ur) (fl_storage f)) as [[s n]|e|] eqn:Hk; cbn [of_storage res_map_err] in Ha; injection Ha as <- <-; [| |done].
  - destruct (kv_snapshot s) as [snap|e|] eqn:Hsn; cbn [of_storage res_map_err res_bind] in H; [| |done]; injection H as <- <-.
    + cbn. split_and!; try done. by exists ur, n.
    + cbn. split_and!; try done; [right; by exists n, e|]. intros batches. by apply poisoned_flushes.
  - injection H as <- <-. cbn. split_and!; try done; [left; by exists e|]. intros batches. by apply poisoned_flushes.
Qed.
End flusher.

(** ** A new database, one commit and a restart *)
Module Demo.
#[local] Instance demo_treemap : RoaringTreemap := Plain.plain_treemap.
#[local] Instance demo_hash_order : HashOrder := tree_order.
#[local] Instance demo_hash_laws : HashOrderLaws := tree_order_laws.
#[local] Instance demo_any_order : AnyOrder := {| any_order A l := l |}.

Definition config : Config := mkConfig 2 L2 100 10 4 None [].
Definition empty_store : InMemory.t := InMemory.new (Some (operator 2)) None false.

Lemma empty_ok : kvm_ok (f:=operator 2) empty_store ∧ ∀ k, kv_map empty_store k = None.
Proof. split; [|done]. split; [|done]. split_and!; [by constructor|done|done|done]. Qed.

(** the new database *)
Definition opened : VectorDbFlusher :=
  match open_with_storage 0 config empty_store with
  | Ok f => f
  | _ => mkFlusher empty_store empty_store 0 VecCommit.Demo.demo_state (mkLastApplied empty_store 0 None 3 0) None
  end.
Definition state : VectorIndexState := fl_state opened.

(** a first vector *)
Definition vector : list Z := [0x3f800000; 0].
Definition start : VectorIndexDelta := delta_new state.
Definition forward1 : ForwardIndexDelta :=
  (VecCommit.Demo.or_else (add_vector [x61] [(VECTOR_FIELD_NAME, AVector vector)] (forward_index start)) (0, forward_index start)).2.
Definition search1 : SearchIndexDelta := VecCommit.Demo.or_else (add_to_posting first_centroid 0 vector (search_index start)) (search_index start).
Definition written : VectorIndexDelta := mkDelta forward1 search1.

Lemma vector_fits : vector_ok 2 vector.
Proof. split; [done|]. repeat constructor; by vm_compute. Qed.

Lemma written_steps : rtc (delta_step 2 state) start written.
Proof.
  apply (rtc_l _ _ (mkDelta forward1 (search_index start))).
  { apply step_forward. apply (step_add_vector 2 [x61] [(VECTOR_FIELD_NAME, AVector vector)] 0); [done| |by vm_compute|by vm_compute].
    split; [by split|]. split; [by vm_compute|]. repeat constructor; unfold wf_value, in_u; simpl; try done; try lia. }
  apply rtc_once, step_search. apply (step_add_to_posting 2 _ first_centroid 0 vector); [by vm_compute; eexists|by vm_compute|apply vector_fits|by vm_compute].
Qed.

Lemma written_fits : Fits (search_index written) (frozen_counts state (search_index written)).
Proof.
  split.
  - intros lv c m H. unfold frozen_counts in H.
    assert (Hl : frozen_counts state (search_index written) = {[1 := {[first_centroid := 1]}]}) by (by vm_compute).
    unfold frozen_counts in Hl. rewrite Hl in H. apply bind_Some in H as (cs & [<- <-]%lookup_singleton_Some & [<- <-]%lookup_singleton_Some). lia.
  - intros k v H. assert (Hi : inverted_index_updates (search_index written) = ∅) by (by vm_compute). by rewrite Hi, lookup_empty in H.
Qed.

Lemma index_survives_restarts_witness :
  ∃ st' ops s' n f, open_with_storage 0 config empty_store = Ok opened ∧ delta_freeze written 1 state = Ok (st', ops) ∧
    kv_apply 0 ops (fl_storage opened) = Ok (s', n) ∧ open_with_storage 0 config s' = Ok f ∧
    dictionary (fl_state f) = {[ [x61] := 0 ]} ∧ 1 ≤ next_sequence (sequence_block (fl_state f)).
Proof.
  destruct (index_survives_restarts config 0 empty_store) as (f0 & Hf0 & Hall); [by vm_compute|by vm_compute|apply empty_ok|apply empty_ok|].
  assert (Hop : opened = f0) by (unfold opened; by rewrite Hf0). rewrite <-Hop in *. clear Hop f0.
  destruct (Hall _ (rtc_refl _ _)) as (_ & Hcommit & _).
  destruct (Hcommit written 1 written_steps ltac:(cbn; lia) written_fits) as (st' & ops & s' & n & Hfr & Ha).
  cbn [life_state life_store] in Hfr, Ha. fold state in Hfr. destruct (Hall (mkLife s' st' 1)) as (_ & _ & f & Hf & Hdict & _ & _ & _ & Hseq & _).
  { apply rtc_once. by eapply (life_commit config 0 _ _ 0 written 1); [apply written_steps|lia|apply written_fits|exact Hfr|exact Ha]. }
  exists st', ops, s', n, f. split; [exact Hf0|]. split; [exact Hfr|]. split; [exact Ha|]. split; [exact Hf|].
  assert (Hst : dictionary st' = {[ [x61] := 0 ]} ∧ next_sequence (sequence_block st') = 1).
  { assert (Hd : bool_decide (match delta_freeze written 1 state with Ok (st, _) => (dictionary st, next_sequence (sequence_block st)) | _ => (∅, 0) end =
      ({[ [x61] := 0 ]}, 1)) = true) by (vm_compute; reflexivity). apply bool_decide_eq_true in Hd. rewrite Hfr in Hd. exact (conj (f_equal fst Hd) (f_equal snd Hd)). }
  cbn [life_state] in Hdict, Hseq. destruct Hst as [<- Hn]. split; [exact Hdict|]. by rewrite Hn in Hseq.
Defined.

(** the tree grows by a level; nothing is put below the two new nodes *)
Definition grown : VectorIndexDelta :=
  mkDelta (forward_index start)
    (VecCommit.Demo.or_else (promote_root [vector; [0; 0]] (search_index start)) (Root 4, search_index start)).2.
Definition node : VectorId := 2 * 2 ^ 56 + 4096.

Definition after_growth : VectorIndexState * InMemory.t :=
  match delta_freeze grown 1 state with
  | Ok (st, ops) => match kv_apply 0 ops (fl_storage opened) with Ok (s, _) => (st, s) | _ => (st, empty_store) end
  | _ => (state, empty_store)
  end.

Lemma grown_steps : rtc (delta_step 2 state) start grown.
Proof.
  apply rtc_once, step_search. apply (step_promote_root 2 _ [vector; [0; 0]] (Inner 2 4)); [|by vm_compute|by vm_compute].
  repeat apply Forall_cons_2; [apply vector_fits| |constructor]. split; [done|]. repeat constructor; by vm_compute.
Qed.

Lemma grown_fits : Fits (search_index grown) (frozen_counts state (search_index grown)).
Proof.
  split.
  - intros lv c m H. assert (Hb : bool_decide (map_Forall (λ _ cs, map_Forall (λ _ n, 0 ≤ n < 2 ^ 31) cs) (frozen_counts state (search_index grown))) = true) by (by vm_compute).
    apply bool_decide_eq_true in Hb. apply bind_Some in H as (cs & Hcs & Hm). exact (Hb _ _ Hcs _ _ Hm).
  - intros k v H. assert (Hi : inverted_index_updates (search_index grown) = ∅) by (by vm_compute).
    pose proof (eq_trans (eq_sym H) (f_equal (lookup k) Hi)) as Hbad. rewrite lookup_empty in Hbad. discriminate Hbad.
Qed.

Lemma opened_sound : Sound config (mkLife (fl_storage opened) state 0).
Proof.
  destruct empty_ok as [Hok He]. assert (Hz : in_u 32 fzero) by (by vm_compute). assert (Hd : Z.of_nat (cf_dimensions config) ≤ u_max 16) by (by vm_compute).
  pose proof (open_empty config 0 Hz Hd empty_store Hok He) as (f & Hf & Hs & _ & _ & _ & _ & Hco & Hti).
  assert (Hop : opened = f) by (unfold opened; by rewrite Hf). unfold state. rewrite Hop. exact (conj Hs (conj Hco Hti)).
Qed.

Lemma restart_forgets_empty_list_witness :
  ∃ f, open_with_storage 0 config after_growth.2 = Ok f ∧ is_Some (centroids (fl_state f) !! node) ∧
    ∀ v se, add_to_posting node first_centroid v (search_new (fl_state f)) = Ok se →
      ∀ epoch r, delta_freeze (mkDelta (forward_new (fl_state f)) se) epoch (fl_state f) ≠ Ok r.
Proof.
  destruct (sound_commit config 0 _ _ _ grown 1 ltac:(by vm_compute) opened_sound grown_steps ltac:(lia) grown_fits) as (st' & ops & s' & n & Hfr & Ha & Hs).
  assert (Hafter : after_growth = (st', s')) by (unfold after_growth; rewrite Hfr; cbv beta iota; rewrite Ha; reflexivity).
  assert (Hc : is_Some (centroids after_growth.1 !! node)) by (vm_compute; by eexists).
  assert (Hk : kv_map after_growth.2 (posting_key node) = None) by (by vm_compute). rewrite Hafter in Hc, Hk |- *. cbn [fst snd] in *.
  destruct Hc as [ci Hci]. destruct (restart_forgets_empty_list config 0 s' st' 1 node ci) as (f & Hf & Hcs & Hd); [by vm_compute|exact Hs|exact Hci|by vm_compute|exact Hk|].
  exists f. split; [exact Hf|]. split; [by exists ci|]. intros v se Hse epoch r. apply Hd.
  - unfold add_to_posting in Hse. apply res_bind_ok in Hse as (? & _ & Hse). injection Hse as <-. cbn [search_index push_update posting_updates]. rewrite lookup_insert_eq. by eexists.
  - unfold add_to_posting in Hse. apply res_bind_ok in Hse as (? & _ & Hse). by injection Hse as <-.
  - unfold add_to_posting in Hse. apply res_bind_ok in Hse as (? & _ & Hse). injection Hse as <-. apply not_elem_of_empty.
  - unfold add_to_posting in Hse. apply res_bind_ok in Hse as (? & _ & Hse). injection Hse as <-. apply not_elem_of_empty.
Defined.

(** ** A store that stops accepting batches *)
Record Broken : Type := mkBroken { inner : InMemory.t }.

#[local] Instance broken_store : KvStore Broken := {
  kv_put now recs s := Err StorageErr_Internal;
  kv_apply now ops s := Err StorageErr_Internal;
  kv_get now k s := kv_get now k (inner s);
  kv_scan now r s := kv_scan now r (inner s);
  kv_flush s := Ok s;
  kv_snapshot s := Ok s;
}.

Definition cpu : Cpu := mkCpu false false false.
Definition rng : Z → Draw → Rng := λ _ _, mkRng (λ _, 0%nat) (λ _, None).
Definition write : VectorWrite := mkWrite [x61] vector [(VECTOR_FIELD_NAME, AVector vector)].

Definition running : VectorDbFlusher :=
  let s := mkBroken (fl_storage opened) in mkFlusher s s 0 state (mkLastApplied s 0 None 3 1) None.

Definition failed : VectorDbFlusher :=
  let s := mkBroken (fl_storage opened) in
  match update_index cpu (rng 1) 0 (indexer_opts config) state s 0 [write] 1 with
  | Ok (st, _) => mkFlusher s s 0 st (mkLastApplied s 0 None 3 1) (Some (EStorage StorageErr_Internal))
  | _ => running
  end.

Lemma flush_commits_or_poisons_witness :
  flush_delta cpu rng 0 config running [write] 2 = Some (failed, inl (FlushFailed (EStorage StorageErr_Internal))) ∧
  flush_all cpu rng config 0 failed [([write], 3); ([], 4)] =
    Some (failed, replicate 2 (inl (Poisoned (EStorage StorageErr_Internal)))).
Proof.
  assert (Hf : flush_delta cpu rng 0 config running [write] 2 = Some (failed, inl (FlushFailed (EStorage StorageErr_Internal)))).
  { unfold flush_delta, failed, running. cbn [poisoned fl_state last_snapshot last_snapshot_epoch]. change (saturating_sub 2 1) with 1.
    destruct (update_index _ _ _ _ _ _ _ _ _) as [[st r]|e|] eqn:E; [reflexivity|exfalso..].
    - assert (Hok : is_ok (update_index cpu (rng 1) 0 (indexer_opts config) state (mkBroken (fl_storage opened)) 0 [write] 1) = true) by (vm_compute; reflexivity).
      rewrite E in Hok. discriminate Hok.
    - assert (Hok : is_ok (update_index cpu (rng 1) 0 (indexer_opts config) state (mkBroken (fl_storage opened)) 0 [write] 1) = true) by (vm_compute; reflexivity).
      rewrite E in Hok. discriminate Hok. }
  split; [exact Hf|]. pose proof (flush_commits_or_poisons cpu rng config 0 _ _ _ _ _ Hf) as Hp. cbv zeta beta iota in Hp. destruct Hp as (_ & _ & _ & _ & Hp).
  destruct (update_index _ _ _ _ _ _ _ _ _) as [[st r]|e|]; [exact (proj2 (proj2 (proj2 Hp)) [([write], 3); ([], 4)])|exfalso|done].
  destruct Hp as [Heq _]. assert (Hpo : poisoned failed = None) by (rewrite Heq; reflexivity). vm_compute in Hpo. discriminate Hpo.
Defined.
End Demo.
End VecDbSpec.
