(* ===== verification/PqBatch.v ===== *)
(** * timeseries: the data of the query engine

    [promql/memory.rs] (the ledger of bytes a query has reserved),
    [promql/batch.rs] (bit sets, series rosters, step batches),
    [promql/operator.rs] (the step grid) and [promql/source.rs] (what
    an engine asks of a store of samples).  An [f64] is its bit pattern; a [usize] that
    counts or indexes elements of a vector is a [nat], one that counts bytes a [Z]. *)
From S2P Require Import Prelude Storage TsSerde.
#[local] Open Scope Z_scope.

Module Pq.
Import Ts.

Definition USIZE_MAX : Z := u_max 64.
Definition i64_min : Z := - 2 ^ 63.
Definition i64_max : Z := 2 ^ 63 - 1.

(** [usize::saturating_add], [saturating_mul]; [i64::saturating_add], [saturating_sub] *)
Definition usize_add (a b : Z) : Z := Z.min USIZE_MAX (a + b).
Definition usize_mul (a b : Z) : Z := Z.min USIZE_MAX (a * b).
Definition i64_sat (z : Z) : Z := Z.max i64_min (Z.min i64_max z).

(** ** memory.rs *)
(** the texts of [Internal], as constructors *)
Inductive InternalError : Type :=
| Reader (e : Error)
| InvalidRegex
| UnsupportedRegex
| EmptyAlternative
| NonUtf8Literal
| NeedMetricName
| MissingFromForwardIndex (series_id : Z)
| InvalidBucketId (bucket_id : Z).

Inductive QueryError : Type :=
| MemoryLimit (requested cap already_reserved : Z)
| Internal (e : InternalError).

(** the counters behind the [Arc]: the state every clone shares *)
Record MemoryReservation : Type := mkMem { cap : Z; reserved : Z; high_water : Z }.

Definition new_reservation (cap : Z) : MemoryReservation := mkMem cap 0 0.

Definition try_grow (m : MemoryReservation) (bytes : Z) : MemoryReservation * res QueryError unit :=
  if bytes =? 0 then (m, Ok tt)
  else
    let new := reserved m + bytes in
    if (new <=? USIZE_MAX) && (new <=? cap m) then (mkMem (cap m) new (Z.max (high_water m) new), Ok tt)
    else (m, Err (MemoryLimit bytes (cap m) (reserved m))).

Definition release (m : MemoryReservation) (bytes : Z) : MemoryReservation :=
  if bytes =? 0 then m else mkMem (cap m) (saturating_sub (reserved m) bytes) (high_water m).

(** what the ledger keeps *)
Definition mem_ok (m : MemoryReservation) : Prop := 0 ≤ reserved m ≤ high_water m ∧ high_water m ≤ cap m ∧ in_u 64 (cap m).

(** ** batch.rs *)
Record BitSet : Type := mkBits { bs_bits : list Z; bs_len : nat }.

Definition word_count (len : nat) : nat := ((len + 63) / 64)%nat.

Definition with_len (len : nat) : BitSet := mkBits (replicate (word_count len) 0) len.

Definition all_set (len : nat) : BitSet :=
  let bits := replicate (word_count len) (u_max 64) in
  let bits :=
    if (len mod 64 =? 0)%nat then bits
    else match bits with
         | [] => []
         | _ => <[(length bits - 1)%nat := 2 ^ Z.of_nat (len mod 64) - 1]> bits
         end in
  mkBits bits len.

Definition bit_get {E} (b : BitSet) (idx : nat) : res E bool :=
  let? _ := rust_assert (idx <? bs_len b)%nat in
  let? word := expect (bs_bits b !! (idx / 64)%nat) in
  Ok (Z.land (Z.shiftr word (Z.of_nat (idx mod 64))) 1 =? 1).

Definition bit_set {E} (b : BitSet) (idx : nat) : res E BitSet :=
  let? _ := rust_assert (idx <? bs_len b)%nat in
  let? word := expect (bs_bits b !! (idx / 64)%nat) in
  Ok (mkBits (<[(idx / 64)%nat := Z.lor word (Z.shiftl 1 (Z.of_nat (idx mod 64)))]> (bs_bits b)) (bs_len b)).

Definition bit_clear {E} (b : BitSet) (idx : nat) : res E BitSet :=
  let? _ := rust_assert (idx <? bs_len b)%nat in
  let? word := expect (bs_bits b !! (idx / 64)%nat) in
  Ok (mkBits (<[(idx / 64)%nat := Z.ldiff word (Z.shiftl 1 (Z.of_nat (idx mod 64)))]> (bs_bits b)) (bs_len b)).

Abbreviation Labels := (list Label).

Record SeriesSchema : Type := mkSchema { sch_labels : list Labels; sch_fingerprints : list Z }.

Definition schema_new {E} (labels : list Labels) (fingerprints : list Z) : res E SeriesSchema :=
  let? _ := rust_assert (length labels =? length fingerprints)%nat in
  Ok (mkSchema labels fingerprints).

Definition schema_empty : SeriesSchema := mkSchema [] [].
Definition schema_len (s : SeriesSchema) : nat := length (sch_labels s).

Inductive SchemaRef : Type := Static (s : SeriesSchema) | Deferred.

(** a half-open range of indices *)
Record Range : Type := mkRange { r_start : nat; r_end : nat }.
Definition range_len (r : Range) : nat := (r_end r - r_start r)%nat.

Record StepBatch : Type := mkBatch {
  b_step_timestamps : list Z;
  b_step_range : Range;
  b_series : SchemaRef;
  b_series_range : Range;
  b_values : list Z;
  b_validity : BitSet;
  b_source_timestamps : option (list Z);
}.

Definition batch_new (step_timestamps : list Z) (step_range : Range) (series : SchemaRef) (series_range : Range)
    (values : list Z) (validity : BitSet) : StepBatch :=
  mkBatch step_timestamps step_range series series_range values validity None.

Definition with_source_timestamps (b : StepBatch) (source_timestamps : list Z) : StepBatch :=
  mkBatch (b_step_timestamps b) (b_step_range b) (b_series b) (b_series_range b) (b_values b) (b_validity b)
    (Some source_timestamps).

Definition step_count (b : StepBatch) : nat := range_len (b_step_range b).
Definition series_count (b : StepBatch) : nat := range_len (b_series_range b).
Definition cell_index (b : StepBatch) (step_offset series_offset : nat) : nat :=
  (step_offset * series_count b + series_offset)%nat.

Definition batch_get {E} (b : StepBatch) (step_offset series_offset : nat) : res E (option Z) :=
  let idx := cell_index b step_offset series_offset in
  let? valid := bit_get (b_validity b) idx in
  if valid : bool then let? v := expect (b_values b !! idx) in Ok (Some v) else Ok None.

(** ** operator.rs *)
Record StepGrid : Type := mkGrid { g_start_ms : Z; g_end_ms : Z; g_step_ms : Z; g_step_count : nat }.
Record OperatorSchema : Type := mkOpSchema { os_series : SchemaRef; os_step_grid : StepGrid }.

Inductive Poll (A : Type) : Type := Pending | Ready (a : A).
Arguments Pending {A}.
Arguments Ready {A} a.

(** ** source.rs *)
Record TimeRange : Type := mkTimeRange { start_ms : Z; end_ms_exclusive : Z }.
Definition range_is_empty (r : TimeRange) : bool := end_ms_exclusive r <=? start_ms r.

Record ResolvedSeriesRef : Type := mkSeriesRef { sref_bucket_id : Z; sref_series_id : Z; sref_metric_name : bytes }.

#[global] Instance ResolvedSeriesRef_eq_dec : EqDecision ResolvedSeriesRef.
Proof. solve_decision. Defined.

Record ResolvedSeriesChunk : Type := mkSeriesChunk {
  ch_bucket_id : Z;
  ch_labels : list Labels;
  ch_series : list ResolvedSeriesRef;
}.

Record SamplesRequest : Type := mkRequest { rq_series : list ResolvedSeriesRef; rq_time_range : TimeRange }.

Record SampleBlock : Type := mkBlock { bl_timestamps : list (list Z); bl_values : list (list Z) }.

Definition with_series_count (n : nat) : SampleBlock := mkBlock (replicate n []) (replicate n []).

Record SampleBatch : Type := mkSampleBatch { sb_series_range : Range; sb_samples : SampleBlock }.

(** model.rs *)
Definition STALE_NAN : Z := 0x7ff0000000000002.
Definition is_stale_nan (v : Z) : bool := v =? STALE_NAN.

(** ** The ledger *)
Lemma try_grow_spec m bytes m' r :
  mem_ok m → 0 ≤ bytes → try_grow m bytes = (m', r) →
  mem_ok m' ∧ cap m' = cap m ∧
  match r with
  | Ok _ => reserved m' = reserved m + bytes
  | Err e => m' = m ∧ e = MemoryLimit bytes (cap m) (reserved m) ∧ cap m < reserved m + bytes
  | Panic => False
  end.
Proof.
  unfold try_grow, mem_ok, in_u. intros (H1 & H2 & H3) Hb. destruct (Z.eqb_spec bytes 0) as [->|Hn].
  { intros [= <- <-]. split_and!; (done || lia). }
  destruct (_ && _) eqn:E; intros [= <- <-]; cbn; reflect; split_and!; try (done || lia).
  apply andb_false_iff in E as [E|E]; apply Z.leb_gt in E; unfold USIZE_MAX, u_max in *; lia.
Qed.

Lemma release_spec m bytes :
  mem_ok m → 0 ≤ bytes ≤ reserved m →
  mem_ok (release m bytes) ∧ cap (release m bytes) = cap m ∧ reserved (release m bytes) = reserved m - bytes.
Proof.
  unfold release, mem_ok, saturating_sub. intros (H1 & H2 & H3) Hb. destruct (Z.eqb_spec bytes 0) as [->|Hn]; cbn; split_and!; lia || done.
Qed.

(** ** Bit sets *)

(** the bit of an index, false past the words *)
Definition bit_at (b : BitSet) (idx : nat) : bool :=
  Z.testbit (default 0 (bs_bits b !! (idx / 64)%nat)) (Z.of_nat (idx mod 64)).

Definition bits_ok (b : BitSet) : Prop := length (bs_bits b) = word_count (bs_len b).

Lemma word_lt idx len : (idx < len)%nat → (idx / 64 < word_count len)%nat.
Proof. unfold word_count. intros H. pose proof (Nat.div_mod_eq (len + 63) 64). pose proof (Nat.div_mod_eq idx 64). pose proof (Nat.mod_upper_bound (len + 63) 64). pose proof (Nat.mod_upper_bound idx 64). lia. Qed.

Lemma with_len_ok len : bits_ok (with_len len).
Proof. unfold bits_ok, with_len. cbn. apply length_replicate. Qed.

Lemma with_len_at len idx : bit_at (with_len len) idx = false.
Proof.
  unfold bit_at, with_len. cbn [bs_bits]. destruct (_ !! _) eqn:E; cbn [default from_option Datatypes.id]; [|by rewrite Z.testbit_0_l].
  apply lookup_replicate in E as [-> _]. by rewrite Z.testbit_0_l.
Qed.

Lemma bit_get_spec {E} b idx : bits_ok b → (idx < bs_len b)%nat → bit_get (E:=E) b idx = Ok (bit_at b idx).
Proof.
  intros Hok Hi. unfold bit_get, rust_assert. rewrite (proj2 (Nat.ltb_lt _ _) Hi). cbn [res_bind].
  destruct (lookup_lt_is_Some_2 (bs_bits b) (idx / 64)) as [w Hw]; [rewrite Hok; by apply word_lt|].
  unfold bit_at. rewrite Hw. cbn [expect res_bind default from_option Datatypes.id]. f_equal. rewrite Z.testbit_eqb by lia.
  change 1 with (Z.ones 1) at 1. rewrite Z.land_ones, Z.shiftr_div_pow2 by lia. done.
Qed.

Lemma bit_set_spec {E} b idx :
  bits_ok b → (idx < bs_len b)%nat →
  ∃ b', bit_set (E:=E) b idx = Ok b' ∧ bits_ok b' ∧ bs_len b' = bs_len b ∧
        ∀ j, bit_at b' j = (if decide (j = idx) then true else bit_at b j).
Proof.
  intros Hok Hi. unfold bit_set, rust_assert. rewrite (proj2 (Nat.ltb_lt _ _) Hi). cbn [res_bind].
  destruct (lookup_lt_is_Some_2 (bs_bits b) (idx / 64)) as [w Hw]; [rewrite Hok; by apply word_lt|].
  rewrite Hw. cbn [expect res_bind]. eexists. split; [done|].
  split; [unfold bits_ok; cbn [bs_bits bs_len]; by rewrite length_insert|]. split; [done|].
  intros j. unfold bit_at. cbn [bs_bits]. rewrite Z.shiftl_1_l. destruct (decide (j / 64 = idx / 64)%nat) as [Ew|Ew].
  - rewrite Ew, list_lookup_insert_eq by (by apply lookup_lt_Some in Hw). rewrite Hw. cbn [default from_option Datatypes.id]. rewrite Z.lor_spec.
    rewrite Z.pow2_bits_eqb by lia. destruct (decide (j = idx)) as [->|Hne]; [by rewrite Z.eqb_refl, orb_true_r|].
    rewrite (proj2 (Z.eqb_neq _ _)), orb_false_r; [done|]. intros H. apply Hne.
    rewrite (Nat.div_mod_eq j 64), (Nat.div_mod_eq idx 64). lia.
  - rewrite list_lookup_insert_ne by done. by destruct (decide (j = idx)) as [->|].
Qed.
End Pq.
