(* ===== verification/PqSource.v ===== *)
(** * timeseries: where the query engine gets its series and samples

    [query.rs] (the reader of buckets, a class), [promql/source.rs] (the source an
    engine reads, a class), [promql/source_adapter.rs] with
    [promql/index_cache.rs] (the source over a reader: matchers, resolution of
    a selector bucket by bucket, sample batches) and, from
    [promql/plan/physical.rs], the roster of a leaf.

    The regular expression parser (regex-syntax) is an argument that gives the
    tree of a pattern.  The futures of a fan-out are an argument too: the order in which they end.
    The buckets of a selector resolve concurrently but their cache entries have the bucket in their
    key, so they are taken one after the other. *)
From stdpp Require Import gmap.
From S2P Require Import Prelude HashMap SortBy Encoding Storage TsSerde TsDb TsQuery PqBatch.
#[local] Open Scope Z_scope.

Module PqSource.
Import Ts TsDb TsQuery Pq.

(** ** query.rs *)
Class QueryReader (R : Type) : Type := {
  qr_list_buckets : R → res Error (list TimeBucket);
  qr_inverted_index : R → TimeBucket → list Label → res Error InvertedIndex;
  qr_forward_index_one : R → TimeBucket → Z → res Error (option SeriesSpec);
  qr_samples : R → TimeBucket → Z → bytes → Z → Z → res Error (list Sample);
}.

(** ** Selectors of the parser *)
Inductive MatchOp : Type := Equal | NotEqual | Re | NotRe.
Record Matcher : Type := mkMatcher { m_op : MatchOp; m_name : bytes; m_value : bytes }.
Record VectorSelector : Type := mkSelector { vs_name : option bytes; vs_matchers : list Matcher }.

(** the kinds of node of a parsed pattern the code tells apart *)
Inductive Hir : Type :=
| HirEmpty
| HirLiteral (l : bytes)
| HirConcat (hirs : list Hir)
| HirAlternation (alts : list Hir)
| HirOther.

Class RegexSyntax : Type := { regex_parse : bytes → option Hir }.

Definition is_equal (op : MatchOp) : bool := match op with Equal => true | _ => false end.
Definition bempty (b : bytes) : bool := match b with [] => true | _ => false end.

(** [impl Ord for Label] *)
Definition label_le (a b : Label) : bool :=
  match cmp_then (bcmp (l_name a) (l_name b)) (bcmp (l_value a) (l_value b)) with Gt => false | _ => true end.
Definition sort_labels (ls : list Label) : list Label := sort_by label_le ls.

(** a hash set of ids, collected and sorted; also the iteration of a bitmap *)
Definition sorted_ids (s : gset Z) : list Z := sort_by Z.leb (elements s).

(** ** source.rs: the trait *)
Class SeriesSource (S : Type) : Type := {
  ss_resolve : S → VectorSelector → TimeRange → S * list (res QueryError ResolvedSeriesChunk);
  ss_samples : S → SamplesRequest → list (res QueryError SampleBatch);
}.

Section adapter.
Context {R : Type} {QR : QueryReader R} {RX : RegexSyntax} (reader : R) (completion : list Z → list Z).

(** ** index_cache.rs: the two caches the adapter uses *)
Record IndexCache : Type := mkCache {
  ic_inverted : gmap (TimeBucket * list Label) InvertedIndex;
  ic_forward_series : gmap (TimeBucket * Z) (option SeriesSpec);
}.
Definition cache_new : IndexCache := mkCache ∅ ∅.

Definition internal {A} (m : res Error A) : res QueryError A := res_map_err (λ e, Internal (Reader e)) m.

(** code that reads through the cache *)
Definition cached (A : Type) : Type := IndexCache → IndexCache * res QueryError A.
Definition cbind {A B} (m : cached A) (k : A → cached B) : cached B := λ c,
  match m c with
  | (c, Ok a) => k a c
  | (c, Err e) => (c, Err e)
  | (c, Panic) => (c, Panic)
  end.
Definition pure {A} (r : res QueryError A) : cached A := λ c, (c, r).

Definition cache_inverted_index (bucket : TimeBucket) (terms : list Label) : cached InvertedIndex := λ c,
  let key := (bucket, sort_labels terms) in
  match ic_inverted c !! key with
  | Some hit => (c, Ok hit)
  | None =>
      match internal (qr_inverted_index reader bucket key.2) with
      | Ok value => (mkCache (<[key := value]> (ic_inverted c)) (ic_forward_series c), Ok value)
      | Err e => (c, Err e)
      | Panic => (c, Panic)
      end
  end.

Definition cache_forward_index_one (bucket : TimeBucket) (series_id : Z) : cached (option SeriesSpec) := λ c,
  let key := (bucket, series_id) in
  match ic_forward_series c !! key with
  | Some hit => (c, Ok hit)
  | None =>
      match internal (qr_forward_index_one reader bucket series_id) with
      | Ok value => (mkCache (ic_inverted c) (<[key := value]> (ic_forward_series c)), Ok value)
      | Err e => (c, Err e)
      | Panic => (c, Panic)
      end
  end.

(** ** source_adapter.rs: selector_util *)
Fixpoint parse_literal (hir : Hir) : res InternalError bytes :=
  match hir with
  | HirEmpty => Err EmptyAlternative
  | HirLiteral l => if utf8_valid l then Ok l else Err NonUtf8Literal
  | HirConcat hirs =>
      (fix concat_literals (hirs : list Hir) : res InternalError bytes :=
         match hirs with
         | [] => Ok []
         | h :: hirs => let? s := parse_literal h in let? rest := concat_literals hirs in Ok (s ++ rest)
         end) hirs
  | _ => Err UnsupportedRegex
  end.

Definition parse_limited_regex (pattern : bytes) : res InternalError (list bytes) :=
  match regex_parse pattern with
  | None => Err InvalidRegex
  | Some hir =>
      match hir with
      | HirAlternation alts => try_map parse_literal alts
      | HirLiteral _ | HirConcat _ => let? l := parse_literal hir in Ok [l]
      | _ => Err UnsupportedRegex
      end
  end.

Definition has_negative_matchers (selector : VectorSelector) : bool :=
  existsb (λ m, match m_op m with NotEqual | NotRe => true | _ => false end) (vs_matchers selector).

Definition has_empty_string_matchers (selector : VectorSelector) : bool :=
  existsb (λ m, is_equal (m_op m) && bempty (m_value m)) (vs_matchers selector).

Definition has_label (labels : list Label) (name value : bytes) : bool :=
  existsb (λ l, bool_decide (l_name l = name) && bool_decide (l_value l = value)) labels.

Definition has_label_with_non_empty_value (labels : list Label) (name : bytes) : bool :=
  existsb (λ l, bool_decide (l_name l = name) && negb (bempty (l_value l))) labels.

(** the loop over the matchers: the terms a series must all have, and the groups of which it must have one *)
Fixpoint positive_terms (matchers : list Matcher) (and_terms : list Label) (or_groups : list (list Label)) :
    res QueryError (list Label * list (list Label)) :=
  match matchers with
  | [] => Ok (and_terms, or_groups)
  | m :: matchers =>
      match m_op m with
      | Equal =>
          if bempty (m_value m) then positive_terms matchers and_terms or_groups
          else positive_terms matchers (and_terms ++ [mkLabel (m_name m) (m_value m)]) or_groups
      | Re =>
          let? values := res_map_err Internal (parse_limited_regex (m_value m)) in
          positive_terms matchers and_terms (or_groups ++ [mkLabel (m_name m) <$> values])
      | _ => positive_terms matchers and_terms or_groups
      end
  end.

(** one turn of the loop over the groups *)
Definition intersect_group (inv : InvertedIndex) (and_terms : list Label) (result_set : gset Z) (or_terms : list Label) : gset Z :=
  let or_result := foldl (λ acc term, acc ∪ intersect inv [term]) ∅ or_terms in
  if bool_decide (and_terms = []) && bool_decide (result_set = ∅) then or_result
  else result_set ∩ or_result.

Definition find_candidates (bucket : TimeBucket) (selector : VectorSelector) : cached (list Z) :=
  let and_terms := match vs_name selector with Some name => [mkLabel name_label name] | None => [] end in
  cbind (pure (positive_terms (vs_matchers selector) and_terms [])) (λ '(and_terms, or_groups),
    if bool_decide (and_terms = []) && bool_decide (or_groups = []) then
      if negb (has_empty_string_matchers selector) then pure (Ok [])
      else match vs_name selector with
           | Some name =>
               let metric_term := mkLabel name_label name in
               cbind (cache_inverted_index bucket [metric_term]) (λ inv,
                 pure (Ok (sorted_ids (intersect inv [metric_term]))))
           | None => pure (Err (Internal NeedMetricName))
           end
    else
      cbind (cache_inverted_index bucket (concat or_groups ++ and_terms)) (λ inv,
        let result_set := if bool_decide (and_terms = []) then ∅ else intersect inv and_terms in
        pure (Ok (sorted_ids (foldl (intersect_group inv and_terms) result_set or_groups))))).

(** [out.retain(|id| specs.get(id).map(f).unwrap_or(false))] *)
Definition retain_specs (specs : gmap Z SeriesSpec) (f : SeriesSpec → bool) (out : list Z) : list Z :=
  filter (λ id, match specs !! id with Some spec => f spec | None => false end = true) out.

Fixpoint apply_negative_map (specs : gmap Z SeriesSpec) (matchers : list Matcher) (out : list Z) : res QueryError (list Z) :=
  match matchers with
  | [] => Ok out
  | m :: matchers =>
      match m_op m with
      | NotEqual =>
          apply_negative_map specs matchers
            (retain_specs specs (λ spec, negb (has_label (sp_labels spec) (m_name m) (m_value m))) out)
      | NotRe =>
          let? values := res_map_err Internal (parse_limited_regex (m_value m)) in
          apply_negative_map specs matchers
            (retain_specs specs (λ spec, negb (existsb (has_label (sp_labels spec) (m_name m)) values)) out)
      | _ => apply_negative_map specs matchers out
      end
  end.

Definition apply_empty_string_map (specs : gmap Z SeriesSpec) (matchers : list Matcher) (out : list Z) : list Z :=
  foldl (λ out m,
    if is_equal (m_op m) && bempty (m_value m)
    then retain_specs specs (λ spec, negb (has_label_with_non_empty_value (sp_labels spec) (m_name m))) out
    else out) out matchers.

Definition apply_post_filters_map (specs : gmap Z SeriesSpec) (candidates : list Z) (selector : VectorSelector) :
    res QueryError (list Z) :=
  let? out := if has_negative_matchers selector then apply_negative_map specs (vs_matchers selector) candidates
              else Ok candidates in
  Ok (if has_empty_string_matchers selector then apply_empty_string_map specs (vs_matchers selector) out else out).

(** ** source_adapter.rs: buckets *)
Definition encode_bucket (bucket : TimeBucket) : Z := Z.lor (Z.shiftl (bk_start bucket) 8) (bk_size bucket).

Definition decode_bucket (bucket_id : Z) : option TimeBucket :=
  let size_bits := Z.land bucket_id 0xFF in
  let start := wrap 32 (Z.shiftr bucket_id 8) in
  if size_bits =? 0 then None else Some (mkBucket start size_bits).

Definition bucket_ms_window (bucket : TimeBucket) : Z * Z :=
  let start_ms := bk_start bucket * 60 * 1000 in
  (start_ms, start_ms + size_in_mins bucket * 60 * 1000).

Definition bucket_overlaps (bucket : TimeBucket) (time_range : TimeRange) : bool :=
  if range_is_empty time_range then false
  else
    let '(bucket_start_ms, bucket_end_ms) := bucket_ms_window bucket in
    negb ((bucket_end_ms <=? start_ms time_range) || (end_ms_exclusive time_range <=? bucket_start_ms)).

(** ** source_adapter.rs: resolve *)
Fixpoint fetch_specs (bucket : TimeBucket) (ids : list Z) (specs : gmap Z SeriesSpec) : cached (gmap Z SeriesSpec) :=
  match ids with
  | [] => pure (Ok specs)
  | sid :: ids =>
      cbind (cache_forward_index_one bucket sid) (λ slot,
        fetch_specs bucket ids (match slot with Some spec => <[sid := spec]> specs | None => specs end))
  end.

(** the labels and the handle of one series *)
Definition resolve_series (bucket_id : Z) (specs : gmap Z SeriesSpec) (sid : Z) : res QueryError (Labels * ResolvedSeriesRef) :=
  match specs !! sid with
  | None => Err (Internal (MissingFromForwardIndex sid))
  | Some spec =>
      let labs := sort_labels (sp_labels spec) in
      let metric_name :=
        match List.find (λ l, bool_decide (l_name l = name_label)) labs with Some l => l_value l | None => [] end in
      Ok (labs, mkSeriesRef bucket_id sid metric_name)
  end.

Definition unique_ids (candidates : list Z) : list Z := dedup_by (λ a b, a =? b) (sort_by Z.leb candidates).

Definition resolve_one_bucket (bucket : TimeBucket) (selector : VectorSelector) : cached (option ResolvedSeriesChunk) :=
  cbind (find_candidates bucket selector) (λ candidates,
  match candidates with
  | [] => pure (Ok None)
  | _ =>
      cbind (fetch_specs bucket (completion (unique_ids candidates)) ∅) (λ specs,
      let needs_filter := has_negative_matchers selector || has_empty_string_matchers selector in
      pure (
        let? filtered := if needs_filter then apply_post_filters_map specs candidates selector else Ok candidates in
        match filtered with
        | [] => Ok None
        | _ =>
            let bucket_id := encode_bucket bucket in
            let? resolved := try_map (resolve_series bucket_id specs) filtered in
            Ok (Some (mkSeriesChunk bucket_id (fst <$> resolved) (snd <$> resolved)))
        end))
  end).

(** the loop over the buckets: stops at the first error *)
Fixpoint resolve_buckets (selector : VectorSelector) (buckets : list TimeBucket) (c : IndexCache) :
    IndexCache * list (res QueryError ResolvedSeriesChunk) :=
  match buckets with
  | [] => (c, [])
  | bucket :: buckets =>
      match resolve_one_bucket bucket selector c with
      | (c, Ok (Some chunk)) => let '(c, out) := resolve_buckets selector buckets c in (c, Ok chunk :: out)
      | (c, Ok None) => resolve_buckets selector buckets c
      | (c, Err e) => (c, [Err e])
      | (c, Panic) => (c, [Panic])
      end
  end.

Definition resolve_stream (selector : VectorSelector) (time_range : TimeRange) (c : IndexCache) :
    IndexCache * list (res QueryError ResolvedSeriesChunk) :=
  match internal (qr_list_buckets reader) with
  | Ok buckets =>
      resolve_buckets selector
        (sort_by (λ a b, bk_start a <=? bk_start b) (filter (λ b, bucket_overlaps b time_range = true) buckets)) c
  | Err e => (c, [Err e])
  | Panic => (c, [Panic])
  end.

(** ** source_adapter.rs: samples *)
Record BucketRun : Type := mkRun { run_bucket_id : Z; run_range : Range }.

Fixpoint runs_from (series : list ResolvedSeriesRef) (idx start : nat) (current_bucket : Z) : list BucketRun :=
  match series with
  | [] => [mkRun current_bucket (mkRange start idx)]
  | sref :: series =>
      if sref_bucket_id sref =? current_bucket then runs_from series (S idx) start current_bucket
      else mkRun current_bucket (mkRange start idx) :: runs_from series (S idx) idx (sref_bucket_id sref)
  end.

Definition contiguous_bucket_runs (series : list ResolvedSeriesRef) : list BucketRun :=
  match series with
  | [] => []
  | sref :: series => runs_from series 1 0 (sref_bucket_id sref)
  end.

Definition build_batch_for_run (series : list ResolvedSeriesRef) (time_range : TimeRange) (run : BucketRun) :
    res QueryError SampleBatch :=
  match decode_bucket (run_bucket_id run) with
  | None => Err (Internal (InvalidBucketId (run_bucket_id run)))
  | Some bucket =>
      let from := i64_sat (start_ms time_range - 1) in
      let to := i64_sat (end_ms_exclusive time_range - 1) in
      let refs := take (range_len (run_range run)) (drop (r_start (run_range run)) series) in
      let? columns := try_map (λ r,
        internal (qr_samples reader bucket (sref_series_id r) (sref_metric_name r) from to)) refs in
      Ok (mkSampleBatch (run_range run)
            (mkBlock ((λ col : list Sample, timestamp_ms <$> col) <$> columns) ((λ col : list Sample, s_value <$> col) <$> columns)))
  end.

Definition build_sample_batches (request : SamplesRequest) : res QueryError (list SampleBatch) :=
  if bool_decide (rq_series request = []) || range_is_empty (rq_time_range request) then Ok []
  else try_map (build_batch_for_run (rq_series request) (rq_time_range request))
         (contiguous_bucket_runs (rq_series request)).

Definition samples_stream (request : SamplesRequest) : list (res QueryError SampleBatch) :=
  match build_sample_batches request with
  | Ok batches => Ok <$> batches
  | Err e => [Err e]
  | Panic => [Panic]
  end.
End adapter.

(** [QueryReaderSource]: the reader and the cache of the query *)
Definition query_reader_source {R} {QR : QueryReader R} {RX : RegexSyntax} (completion : list Z → list Z) :
    SeriesSource (R * IndexCache) := {|
  ss_resolve := λ self selector time_range,
    let '(c, out) := resolve_stream self.1 completion selector time_range self.2 in ((self.1, c), out);
  ss_samples := λ self request, samples_stream self.1 request;
|}.

(** ** plan/physical.rs: the roster of a leaf *)
Inductive PlanError : Type :=
| PlanMemoryLimit (e : QueryError)
| SourceError (e : QueryError)
| PhysicalPlanFailed (e : QueryError).

Definition map_source_err (e : QueryError) : PlanError :=
  match e with MemoryLimit _ _ _ => PlanMemoryLimit e | _ => SourceError e end.
Definition map_construct_err (e : QueryError) : PlanError :=
  match e with MemoryLimit _ _ _ => PlanMemoryLimit e | _ => PhysicalPlanFailed e end.

Inductive AtModifier : Type := AtValue (v : Z) | AtStart | AtEnd.
(** [Offset] with its duration in milliseconds, as [as_millis() as i64] *)
Inductive Offset : Type := OffsetPos (d : Z) | OffsetNeg (d : Z).

Definition step_grid_from_ctx (is_instant : bool) (start_ms end_ms step_ms : Z) : StepGrid :=
  let count := if is_instant then 1%nat
               else (Z.to_nat (Z.max (as_signed 64 (end_ms - start_ms)) 0 / Z.max step_ms 1) + 1)%nat in
  mkGrid start_ms end_ms (Z.max step_ms 1) count.

Definition signed_ms (o : Offset) : Z := match o with OffsetPos d => d | OffsetNeg d => as_signed 64 (- d) end.

(** what the leaf operators are built with *)
Definition to_parser_at (a : AtModifier) : AtModifier := match a with AtValue ms => AtValue (Z.max ms 0) | _ => a end.
Definition to_parser_offset (o : Offset) : Offset :=
  match o with OffsetPos ms => OffsetPos (as_signed 64 (wrap 64 ms)) | OffsetNeg ms => OffsetNeg (as_signed 64 (wrap 64 ms)) end.

Definition selector_time_range (grid : StepGrid) (lookback_ms range_ms : Z) (at_ : option AtModifier) (offset : Offset) : TimeRange :=
  let '(pin_start, pin_end) :=
    match at_ with
    | Some (AtValue v) => (v, v)
    | Some AtStart => (g_start_ms grid, g_start_ms grid)
    | Some AtEnd => (g_end_ms grid, g_end_ms grid)
    | None => (g_start_ms grid, g_end_ms grid)
    end in
  let signed := signed_ms offset in
  let effective_start := i64_sat (pin_start - signed) in
  let effective_end := i64_sat (pin_end - signed) in
  let window_ms := Z.max (Z.max lookback_ms range_ms) 0 in
  let start := i64_sat (effective_start - window_ms) in
  let end_exclusive := i64_sat (effective_end + 1) in
  mkTimeRange start (Z.max end_exclusive start).

Record ResolvedLeaf : Type := mkLeaf { rl_schema : SeriesSchema; rl_request_series : list (list ResolvedSeriesRef) }.

Record Roster : Type := mkRoster {
  ro_index : gmap Labels nat;
  ro_labels : list Labels;
  ro_fingerprints : list Z;
  ro_refs : list (list ResolvedSeriesRef);
}.

Section leaf.
Context {B : Blake3}.

Definition canonicalize_labels (labels : Labels) : Labels := sort_labels labels.

Definition roster_add (ro : Roster) (e : Labels * ResolvedSeriesRef) : res PlanError Roster :=
  let canonical := canonicalize_labels e.1 in
  match ro_index ro !! canonical with
  | Some idx =>
      let? refs := expect (ro_refs ro !! idx) in
      Ok (mkRoster (ro_index ro) (ro_labels ro) (ro_fingerprints ro) (<[idx := refs ++ [e.2]]> (ro_refs ro)))
  | None =>
      Ok (mkRoster (<[canonical := length (ro_labels ro)]> (ro_index ro)) (ro_labels ro ++ [canonical])
            (ro_fingerprints ro ++ [fingerprint canonical]) (ro_refs ro ++ [[e.2]]))
  end.

Fixpoint roster_series (l : list (Labels * ResolvedSeriesRef)) (ro : Roster) : res PlanError Roster :=
  match l with
  | [] => Ok ro
  | e :: l => let? ro := roster_add ro e in roster_series l ro
  end.

Fixpoint roster_chunks (chunks : list (res QueryError ResolvedSeriesChunk)) (ro : Roster) : res PlanError Roster :=
  match chunks with
  | [] => Ok ro
  | item :: chunks =>
      let? chunk := res_map_err map_source_err item in
      let? ro := roster_series (zip (ch_labels chunk) (ch_series chunk)) ro in
      roster_chunks chunks ro
  end.

Definition sref_le (a b : ResolvedSeriesRef) : bool :=
  match cmp_then (sref_bucket_id a ?= sref_bucket_id b) (sref_series_id a ?= sref_series_id b) with Gt => false | _ => true end.

Definition leaf_bytes (labels : list Labels) : Z :=
  usize_add (foldl usize_add 0 ((λ l, usize_mul (blen l) 48) <$> labels)) (usize_mul (blen labels) 32).

Definition resolve_leaf {S} {SS : SeriesSource S} (source : S) (selector : VectorSelector) (time_range : TimeRange)
    (m : MemoryReservation) : S * MemoryReservation * res PlanError ResolvedLeaf :=
  let '(source, chunks) := ss_resolve source selector time_range in
  match roster_chunks chunks (mkRoster ∅ [] [] []) with
  | Ok ro =>
      let refs := sort_by sref_le <$> ro_refs ro in
      let '(m, grown) := try_grow m (leaf_bytes (ro_labels ro)) in
      (source, m,
       let? _ := res_map_err map_construct_err grown in
       let? schema := schema_new (ro_labels ro) (ro_fingerprints ro) in
       Ok (mkLeaf schema refs))
  | Err e => (source, m, Err e)
  | Panic => (source, m, Panic)
  end.
End leaf.
End PqSource.
