(* ===== verification/PqSourceSpec.v ===== *)
(** * timeseries: what a selector resolves to

    The matchers of a selector over the label sets of a bucket, against
    [PqSource]: the cache of index lookups changes no answer, a selector
    with a term that narrows resolves to the series that match it, and what the code does with
    several regular expressions and no other term. *)
From stdpp Require Import gmap.
From stdpp Require sorting.
From S2P Require Import Prelude HashMap SortBy Encoding Storage TsSerde TsDb TsQuery PqBatch PqSource.
#[local] Open Scope Z_scope.

Module PqSourceSpec.
Import Ts TsDb TsQuery Pq PqSource.

Lemma filter_same {A} (P Q : A → Prop) `{!∀ x, Decision (P x), !∀ x, Decision (Q x)} (l : list A) :
  (∀ x, x ∈ l → P x ↔ Q x) → filter P l = filter Q l.
Proof.
  induction l as [|x l IH]; intros Hpq; [done|]. rewrite !filter_cons. rewrite IH by (intros; apply Hpq; by right).
  pose proof (Hpq x ltac:(left)). repeat case_decide; tauto || done.
Qed.

(** ** Reading through the cache *)
Section cache.
Context {R : Type} {QR : QueryReader R} {RX : RegexSyntax} (reader : R).

(** every entry is what the reader answers *)
Definition cache_ok (c : IndexCache) : Prop :=
  (∀ k v, ic_inverted c !! k = Some v → qr_inverted_index reader k.1 k.2 = Ok v) ∧
  (∀ k v, ic_forward_series c !! k = Some v → qr_forward_index_one reader k.1 k.2 = Ok v).

(** [m] answers [r] from any cache of the query, and leaves one *)
Definition answers {A} (m : cached A) (r : res QueryError A) : Prop :=
  ∀ c, cache_ok c → (m c).2 = r ∧ cache_ok (m c).1.

Lemma answers_pure {A} (r : res QueryError A) : answers (pure r) r.
Proof. intros c Hc. by split. Qed.

Lemma answers_bind {A B} (m : cached A) (k : A → cached B) a r :
  answers m (Ok a) → answers (k a) r → answers (cbind m k) r.
Proof.
  intros Hm Hk c Hc. unfold cbind. destruct (Hm c Hc) as [Hr Hc']. destruct (m c) as [c' r0]. cbn in Hr, Hc'. subst r0.
  by apply Hk.
Qed.

Lemma answers_inverted b terms :
  answers (cache_inverted_index reader b terms) (internal (qr_inverted_index reader b (sort_labels terms))).
Proof.
  intros c Hc. unfold cache_inverted_index. cbv zeta. destruct (ic_inverted c !! _) as [hit|] eqn:E.
  - split; [|done]. apply Hc in E. cbn in E. by rewrite E.
  - cbn [snd]. destruct (internal _) as [v| |] eqn:Ei; cbn; split; try done. destruct Hc as [H1 H2]. split; [|done].
    intros k v' Hk. cbn [ic_inverted] in Hk. apply lookup_insert_Some in Hk as [[<- <-]|[_ Hk]]; [|by apply H1]. unfold internal in Ei. cbn.
    destruct (qr_inverted_index _ _ _); cbn in Ei; congruence.
Qed.

Lemma answers_forward b sid :
  answers (cache_forward_index_one reader b sid) (internal (qr_forward_index_one reader b sid)).
Proof.
  intros c Hc. unfold cache_forward_index_one. cbv zeta. destruct (ic_forward_series c !! _) as [hit|] eqn:E.
  - split; [|done]. apply Hc in E. cbn in E. by rewrite E.
  - destruct (internal _) as [v| |] eqn:Ei; cbn; split; try done. destruct Hc as [H1 H2]. split; [done|].
    intros k v' Hk. cbn [ic_forward_series] in Hk. apply lookup_insert_Some in Hk as [[<- <-]|[_ Hk]]; [|by apply H2]. unfold internal in Ei. cbn.
    destruct (qr_forward_index_one _ _ _); cbn in Ei; congruence.
Qed.
End cache.

(** ** What a selector means *)

(** the value of a label of a series, empty when it has none *)
Definition value_of (labels : list Label) (name : bytes) : bytes :=
  match List.find (λ l, bool_decide (l_name l = name)) labels with Some l => l_value l | None => [] end.

(** what the write path stores: a name has one value, and it is not empty *)
Definition labels_wf (labels : list Label) : Prop := NoDup (l_name <$> labels) ∧ Forall (λ l, l_value l ≠ []) labels.

Lemma value_of_elem labels name v :
  labels_wf labels → v ≠ [] → value_of labels name = v ↔ mkLabel name v ∈ labels.
Proof.
  intros [Hn Hv] Hne. unfold value_of. induction labels as [|l labels IH]; cbn [List.find]; [split; [by intros <-|by intros ?%elem_of_nil]|].
  apply NoDup_cons in Hn as [Hl Hn]. apply Forall_cons in Hv as [Hvl Hv]. specialize (IH Hn Hv). rewrite elem_of_cons.
  case_bool_decide as E.
  - split; [intros <-; left; subst; by destruct l|]. intros [<-|He]; [done|]. exfalso. apply Hl. rewrite E.
    apply list_elem_of_fmap. by exists (mkLabel name v).
  - rewrite IH. split; [by right|]. intros [<-|?]; [done|done].
Qed.

Lemma has_label_elem labels name v : has_label labels name v = true ↔ mkLabel name v ∈ labels.
Proof.
  unfold has_label. rewrite existsb_exists. setoid_rewrite <- list_elem_of_In. split.
  - intros (l & Hl & Hb). reflect. destruct l; cbn in *; by subst.
  - intros H. eexists. split; [exact H|]. cbn. by rewrite !bool_decide_true.
Qed.

Lemma has_label_non_empty_elem labels name :
  labels_wf labels → has_label_with_non_empty_value labels name = true ↔ value_of labels name ≠ [].
Proof.
  intros Hw. unfold has_label_with_non_empty_value. rewrite existsb_exists. setoid_rewrite <- list_elem_of_In. split.
  - intros (l & Hl & Hb). reflect. destruct l as [n v]; cbn in *. subst.
    assert (v ≠ []) by (by destruct v). rewrite (proj2 (value_of_elem labels name v Hw ltac:(done))); done.
  - intros Hne. assert (He : mkLabel name (value_of labels name) ∈ labels) by (by apply value_of_elem).
    eexists. split; [exact He|]. cbn. rewrite bool_decide_true by done. by destruct (value_of labels name).
Qed.

Section meaning.
Context {RX : RegexSyntax}.

Definition alternatives (m : Matcher) : list bytes :=
  match parse_limited_regex (m_value m) with Ok values => values | _ => [] end.

Definition matcher_selects (labels : list Label) (m : Matcher) : bool :=
  let v := value_of labels (m_name m) in
  match m_op m with
  | Equal => bool_decide (v = m_value m)
  | NotEqual => negb (bool_decide (v = m_value m))
  | Re => bool_decide (v ∈ alternatives m)
  | NotRe => negb (bool_decide (v ∈ alternatives m))
  end.

Definition selects (sel : VectorSelector) (labels : list Label) : bool :=
  match vs_name sel with Some name => bool_decide (value_of labels name_label = name) | None => true end &&
  forallb (matcher_selects labels) (vs_matchers sel).

(** the patterns are alternations of literals, and no matcher asks for the absence of the
    empty value, which the code does not understand *)
Definition matcher_supported (m : Matcher) : Prop :=
  match m_op m with
  | Equal => True
  | NotEqual => m_value m ≠ []
  | Re | NotRe => ∃ values, parse_limited_regex (m_value m) = Ok values ∧ [] ∉ values
  end.

Definition supported (sel : VectorSelector) : Prop :=
  vs_name sel ≠ Some [] ∧ Forall matcher_supported (vs_matchers sel).

(** the terms every matching series has, and the groups of which it has one *)
Definition and_terms_of (sel : VectorSelector) : list Label :=
  match vs_name sel with Some name => [mkLabel name_label name] | None => [] end ++
  ((λ m, mkLabel (m_name m) (m_value m)) <$> filter (λ m, is_equal (m_op m) && negb (bempty (m_value m)) = true) (vs_matchers sel)).

Definition or_groups_of (sel : VectorSelector) : list (list Label) :=
  (λ m, mkLabel (m_name m) <$> alternatives m) <$> filter (λ m, match m_op m with Re => true | _ => false end = true) (vs_matchers sel).

Lemma positive_terms_spec matchers ands ors :
  Forall matcher_supported matchers →
  positive_terms matchers ands ors =
    Ok (ands ++ and_terms_of (mkSelector None matchers), ors ++ or_groups_of (mkSelector None matchers)).
Proof.
  unfold and_terms_of, or_groups_of. cbn [vs_name vs_matchers app]. intros Hs. revert ands ors.
  induction Hs as [|m matchers Hm Hs IH]; intros ands ors; cbn [positive_terms]; [by rewrite !app_nil_r|].
  unfold matcher_supported in Hm. rewrite !filter_cons. destruct (m_op m) eqn:Eo; cbn [is_equal andb].
  - destruct (m_value m) as [|x v] eqn:Ev; cbn [bempty negb].
    + rewrite decide_False by done. rewrite decide_False by done. apply IH.
    + rewrite decide_True by done. rewrite decide_False by done. rewrite IH, <- app_assoc, fmap_cons. by rewrite Ev.
  - do 2 rewrite decide_False by done. apply IH.
  - rewrite decide_False, decide_True by done. destruct Hm as (values & Hp & _). rewrite Hp. cbn [res_map_err res_bind].
    rewrite IH, <- app_assoc, fmap_cons. unfold alternatives. by rewrite Hp.
  - do 2 rewrite decide_False by done. apply IH.
Qed.
End meaning.

Section bucket.
Context {R : Type} {QR : QueryReader R} {RX : RegexSyntax} (reader : R) (completion : list Z → list Z).
Context (completion_perm : ∀ ids, completion ids ≡ₚ ids).

(** the reader of a bucket that has the series [specs]: its index answers for every term asked *)
Record bucket_indexed (b : TimeBucket) (specs : gmap Z SeriesSpec) : Prop := {
  bi_inverted terms : ∃ inv, qr_inverted_index reader b terms = Ok inv ∧
    ∀ t id, t ∈ terms → id ∈ default ∅ (inv !! t) ↔ ∃ spec, specs !! id = Some spec ∧ t ∈ sp_labels spec;
  bi_forward id : qr_forward_index_one reader b id = Ok (specs !! id);
  bi_labels id spec : specs !! id = Some spec → labels_wf (sp_labels spec);
}.

Context (b : TimeBucket) (specs : gmap Z SeriesSpec) (Hb : bucket_indexed b specs).

(** the series with every term and one of each group *)
Definition has_terms (ands : list Label) (ors : list (list Label)) (labels : list Label) : Prop :=
  (∀ t, t ∈ ands → t ∈ labels) ∧ ∀ g, g ∈ ors → ∃ t, t ∈ g ∧ t ∈ labels.

Lemma group_union inv (g : list Label) acc x :
  x ∈ foldl (λ acc term, acc ∪ intersect inv [term]) acc g ↔ x ∈ acc ∨ ∃ t, t ∈ g ∧ x ∈ default ∅ (inv !! t).
Proof.
  revert acc. induction g as [|t g IH]; intros acc; cbn [foldl]; [set_solver|]. rewrite IH, elem_of_union.
  rewrite (proj1 (index_queries inv [t] x)). setoid_rewrite list_elem_of_singleton. setoid_rewrite elem_of_cons. naive_solver.
Qed.

(** with a term that every series must have, the loop over the groups intersects *)
Lemma intersect_groups inv ands groups init x :
  ands ≠ [] →
  x ∈ foldl (intersect_group inv ands) init groups ↔
  x ∈ init ∧ ∀ g, g ∈ groups → ∃ t, t ∈ g ∧ x ∈ default ∅ (inv !! t).
Proof.
  intros Hne. revert init. induction groups as [|g groups IH]; intros init; cbn [foldl]; [set_solver|].
  rewrite IH. unfold intersect_group. rewrite (bool_decide_false (ands = [])) by done. cbn [andb].
  rewrite elem_of_intersection, group_union. setoid_rewrite elem_of_cons. set_solver.
Qed.

(** a term that narrows the search: an equality, or one regular expression only *)
Definition narrows (sel : VectorSelector) : Prop :=
  and_terms_of sel ≠ [] ∨ ∃ g, or_groups_of sel = [g].

Lemma terms_of_selector sel :
  supported sel →
  positive_terms (vs_matchers sel) (match vs_name sel with Some name => [mkLabel name_label name] | None => [] end) [] =
    Ok (and_terms_of sel, or_groups_of sel).
Proof. intros [_ Hs]. by rewrite positive_terms_spec. Qed.

(** an index of the terms of a selector *)
Definition term_index (sel : VectorSelector) (inv : InvertedIndex) : Prop :=
  ∀ t id, t ∈ concat (or_groups_of sel) ++ and_terms_of sel →
    id ∈ default ∅ (inv !! t) ↔ ∃ spec, specs !! id = Some spec ∧ t ∈ sp_labels spec.

Definition found_in (sel : VectorSelector) (inv : InvertedIndex) : gset Z :=
  foldl (intersect_group inv (and_terms_of sel))
    (if bool_decide (and_terms_of sel = []) then ∅ else intersect inv (and_terms_of sel)) (or_groups_of sel).

Lemma find_candidates_spec sel :
  supported sel → and_terms_of sel ≠ [] ∨ or_groups_of sel ≠ [] →
  ∃ inv, term_index sel inv ∧ answers reader (find_candidates reader b sel) (Ok (sorted_ids (found_in sel inv))).
Proof.
  intros Hs Hn. set (terms := concat (or_groups_of sel) ++ and_terms_of sel).
  destruct (bi_inverted b specs Hb (sort_labels terms)) as (inv & Hinv & Hi). exists inv. split.
  { intros t id Ht. apply Hi. unfold sort_labels. by rewrite sort_by_perm. }
  unfold find_candidates. cbv zeta. eapply answers_bind; [rewrite terms_of_selector by done; apply answers_pure|]. cbv beta iota.
  assert (Hc : bool_decide (and_terms_of sel = []) && bool_decide (or_groups_of sel = []) = false).
  { destruct Hn; [by rewrite bool_decide_false|]. by rewrite (bool_decide_false (or_groups_of sel = [])), andb_false_r. }
  rewrite Hc. eapply answers_bind; [|apply answers_pure].
  replace (Ok inv) with (internal (qr_inverted_index reader b (sort_labels terms))); [apply answers_inverted|by rewrite Hinv].
Qed.

(** one group and no other term: the union of the group *)
Lemma found_in_group sel inv g id :
  term_index sel inv → and_terms_of sel = [] → or_groups_of sel = [g] →
  id ∈ found_in sel inv ↔ ∃ spec, specs !! id = Some spec ∧ has_terms [] [g] (sp_labels spec).
Proof.
  unfold term_index, found_in. intros Hi Ha Ho. rewrite Ha, Ho in *. cbn [foldl]. unfold intersect_group. rewrite !bool_decide_true by done. cbn [andb].
  rewrite group_union. assert (Hg : ∀ t, t ∈ g → t ∈ concat [g] ++ []) by (intros; cbn; by rewrite !app_nil_r).
  unfold has_terms. setoid_rewrite list_elem_of_singleton. split.
  - intros [?|(t & Ht & (spec & ? & ?)%Hi)]; [set_solver| |by apply Hg]. exists spec. set_solver.
  - intros (spec & Hsp & _ & H). destruct (H g) as (t & Ht & ?); [done|]. right. exists t. split; [done|]. apply Hi; eauto.
Qed.

(** two groups and no other term: a first group that no series has is overwritten *)
Lemma first_group_empty sel inv g1 g2 id :
  term_index sel inv → and_terms_of sel = [] → or_groups_of sel = [g1; g2] →
  (∀ id spec t, specs !! id = Some spec → t ∈ g1 → t ∉ sp_labels spec) →
  id ∈ found_in sel inv ↔ ∃ spec, specs !! id = Some spec ∧ has_terms [] [g2] (sp_labels spec).
Proof.
  unfold term_index, found_in. intros Hi Ha Ho Hno. rewrite Ha, Ho in *. cbn [foldl].
  assert (Hg : ∀ t, t ∈ g1 ∨ t ∈ g2 → t ∈ concat [g1; g2] ++ []) by (intros; cbn; rewrite !app_nil_r; by apply elem_of_app).
  assert (H1 : intersect_group inv [] (if bool_decide ([] = @nil Label) then ∅ else intersect inv []) g1 = ∅).
  { unfold intersect_group. rewrite !bool_decide_true by done. cbn [andb]. apply set_eq. intros x. rewrite group_union.
    split; [|set_solver]. intros [?|(t & Ht & (spec & Hsp & ?)%Hi)]; [done|by destruct (Hno _ _ t Hsp Ht)|by auto]. }
  rewrite H1. unfold intersect_group. rewrite !bool_decide_true by done. cbn [andb]. rewrite group_union.
  unfold has_terms. setoid_rewrite list_elem_of_singleton. split.
  - intros [?|(t & Ht & (spec & ? & ?)%Hi)]; [set_solver| |by auto]. exists spec. set_solver.
  - intros (spec & Hsp & _ & H). destruct (H g2) as (t & Ht & ?); [done|]. right. exists t. split; [done|]. apply Hi; eauto.
Qed.

Lemma found_in_narrow sel inv id :
  term_index sel inv → narrows sel →
  id ∈ found_in sel inv ↔ ∃ spec, specs !! id = Some spec ∧ has_terms (and_terms_of sel) (or_groups_of sel) (sp_labels spec).
Proof.
  intros Hi Hn. destruct (decide (and_terms_of sel = [])) as [Ha|Ha].
  { destruct Hn as [|[g Hg]]; [done|]. rewrite Ha, Hg. by apply found_in_group. }
  unfold found_in. rewrite intersect_groups, bool_decide_false by done. unfold term_index in Hi.
  set (ands := and_terms_of sel) in *. set (ors := or_groups_of sel) in *.
  assert (Hands : ∀ t, t ∈ ands → t ∈ concat ors ++ ands) by (intros; apply elem_of_app; by right).
  assert (Hors : ∀ g t, g ∈ ors → t ∈ g → t ∈ concat ors ++ ands) by (intros; apply elem_of_app; left; apply elem_of_concat; eauto).
  rewrite (proj1 (index_queries inv ands id)). unfold has_terms. split.
  - intros [[_ H1] H2]. destruct ands as [|t0 ands'] eqn:Ea; [done|].
    pose proof (H1 t0 ltac:(left)) as (spec & Hsp & _)%Hi; [|apply Hands; left]. exists spec. split; [done|]. split.
    + intros t Ht. pose proof (H1 t Ht) as (spec' & Hsp' & ?)%Hi; [|by apply Hands]. by simplify_eq.
    + intros g Hg. destruct (H2 g Hg) as (t & Ht & (spec' & Hsp' & ?)%Hi); [|by apply (Hors g)]. exists t. simplify_eq. eauto.
  - intros (spec & Hsp & H1 & H2). split; [split; [done|]; intros t Ht; apply Hi; [by apply Hands|eauto]|].
    intros g Hg. destruct (H2 g Hg) as (t & Ht & ?). exists t. split; [done|]. apply Hi; [by apply (Hors g)|eauto].
Qed.

(** what the filters after the index keep *)
Definition negative_keep (labels : list Label) (m : Matcher) : bool :=
  match m_op m with
  | NotEqual => negb (has_label labels (m_name m) (m_value m))
  | NotRe => negb (existsb (has_label labels (m_name m)) (alternatives m))
  | _ => true
  end.

Definition empty_keep (labels : list Label) (m : Matcher) : bool :=
  if is_equal (m_op m) && bempty (m_value m) then negb (has_label_with_non_empty_value labels (m_name m)) else true.

Lemma existsb_has_label labels name values :
  labels_wf labels → [] ∉ values →
  existsb (has_label labels name) values = bool_decide (value_of labels name ∈ values).
Proof.
  intros Hw Hne. apply eq_bool_prop_intro. rewrite !Is_true_true, bool_decide_eq_true, existsb_exists. setoid_rewrite <- list_elem_of_In.
  setoid_rewrite has_label_elem. split.
  - intros (v & Hv & He). assert (v ≠ []) by (by intros ->). apply value_of_elem in He; [by rewrite He|done|done].
  - intros H. exists (value_of labels name). split; [done|]. apply value_of_elem; [done| |done]. by intros E; rewrite E in H.
Qed.

Lemma elem_of_terms labels m :
  labels_wf labels → matcher_supported m →
  matcher_selects labels m =
    match m_op m with
    | Equal => if bempty (m_value m) then empty_keep labels m else has_label labels (m_name m) (m_value m)
    | Re => existsb (has_label labels (m_name m)) (alternatives m)
    | _ => negative_keep labels m
    end.
Proof.
  intros Hw Hm. unfold matcher_selects, matcher_supported, negative_keep, empty_keep, alternatives in *. destruct (m_op m); cbn [is_equal andb].
  - destruct (m_value m) as [|x v] eqn:Ev; cbn [bempty].
    + apply eq_bool_prop_intro. rewrite !Is_true_true, bool_decide_eq_true, negb_true_iff, <- not_true_iff_false, has_label_non_empty_elem by done.
      destruct (value_of labels (m_name m)); naive_solver.
    + apply eq_bool_prop_intro. rewrite !Is_true_true, bool_decide_eq_true, has_label_elem. by apply value_of_elem.
  - f_equal. apply eq_bool_prop_intro. rewrite !Is_true_true, bool_decide_eq_true, has_label_elem. by apply value_of_elem.
  - destruct Hm as (values & -> & Hne). by rewrite existsb_has_label.
  - destruct Hm as (values & -> & Hne). by rewrite existsb_has_label.
Qed.

Lemma selects_split sel labels :
  labels_wf labels → supported sel →
  selects sel labels = true ↔
  has_terms (and_terms_of sel) (or_groups_of sel) labels ∧
  forallb (negative_keep labels) (vs_matchers sel) = true ∧ forallb (empty_keep labels) (vs_matchers sel) = true.
Proof.
  intros Hw [Hname Hs]. unfold selects, has_terms, and_terms_of, or_groups_of. rewrite andb_true_iff.
  setoid_rewrite elem_of_app. setoid_rewrite list_elem_of_fmap. setoid_rewrite list_elem_of_filter. rewrite !forallb_forall.
  setoid_rewrite <- list_elem_of_In. rewrite Forall_forall in Hs.
  assert (Hn : match vs_name sel with Some name => bool_decide (value_of labels name_label = name) | None => true end = true ↔
               ∀ t, t ∈ match vs_name sel with Some name => [mkLabel name_label name] | None => [] end → t ∈ labels).
  { destruct (vs_name sel) as [name|]; [|set_solver]. setoid_rewrite list_elem_of_singleton. rewrite bool_decide_eq_true.
    rewrite value_of_elem by (done || (intros ->; done)). naive_solver. }
  rewrite Hn. clear Hn. split.
  - intros [H1 H2]. split_and!.
    + intros t [Ht|(m & -> & Hk & Hm)]; [by apply H1|]. specialize (H2 m Hm). rewrite elem_of_terms in H2 by auto.
      destruct (m_op m); cbn in Hk; try done. destruct (m_value m) eqn:Ev; cbn in *; [done|]. rewrite <- Ev in *. by apply has_label_elem.
    + intros g (m & -> & Hk & Hm). specialize (H2 m Hm). rewrite elem_of_terms in H2 by auto. destruct (m_op m); try done.
      apply existsb_exists in H2 as (v & Hv%list_elem_of_In & Hl%has_label_elem). exists (mkLabel (m_name m) v). split; [|done].
      apply list_elem_of_fmap. eauto.
    + intros m Hm. specialize (H2 m Hm). rewrite elem_of_terms in H2 by auto. unfold negative_keep in *. by destruct (m_op m).
    + intros m Hm. specialize (H2 m Hm). rewrite elem_of_terms in H2 by auto. unfold empty_keep in *.
      destruct (m_op m); try done. cbn in *. destruct (bempty _); done.
  - intros ([H1 H2] & H3 & H4). split; [intros t Ht; apply H1; by left|]. intros m Hm. rewrite elem_of_terms by auto.
    specialize (H3 m Hm). specialize (H4 m Hm). destruct (m_op m) eqn:Eo; try done.
    + destruct (bempty _) eqn:Eb; [done|]. apply has_label_elem, H1. right. exists m. rewrite Eo, Eb. done.
    + destruct (H2 (mkLabel (m_name m) <$> alternatives m)) as (t & (v & -> & Hv)%list_elem_of_fmap & Ht); [exists m; by rewrite Eo|].
      apply existsb_exists. exists v. by rewrite <- list_elem_of_In, has_label_elem.
Qed.

(** ** The filters and the forward index *)
Definition spec_keeps (f : list Label → bool) (id : Z) : bool :=
  match specs !! id with Some spec => f (sp_labels spec) | None => false end.

Lemma retain_specs_twice sp f g out :
  retain_specs sp g (retain_specs sp f out) = retain_specs sp (λ s, f s && g s) out.
Proof.
  unfold retain_specs. rewrite list_filter_filter. apply list_filter_iff. intros id.
  destruct (sp !! id); [|naive_solver]. rewrite andb_true_iff. naive_solver.
Qed.

Lemma apply_negative_spec sp matchers out :
  Forall matcher_supported matchers → Forall (λ id, is_Some (sp !! id)) out →
  apply_negative_map sp matchers out = Ok (retain_specs sp (λ s, forallb (negative_keep (sp_labels s)) matchers) out).
Proof.
  intros Hs Hp. revert out Hp. induction Hs as [|m matchers Hm Hs IH]; intros out Hp; cbn [apply_negative_map forallb].
  { unfold retain_specs. rewrite filter_all; [done|]. eapply Forall_impl; [exact Hp|]. intros id [? ->]. done. }
  assert (Hr : ∀ f, Forall (λ id, is_Some (sp !! id)) (retain_specs sp f out)) by (intros; by apply Forall_filter).
  unfold matcher_supported in Hm. unfold negative_keep at 1. destruct (m_op m) eqn:Eo.
  - rewrite IH by done. done.
  - rewrite IH by done. by rewrite retain_specs_twice.
  - rewrite IH by done. done.
  - destruct Hm as (values & Hv & _). rewrite Hv. cbn [res_map_err res_bind]. rewrite IH by done. rewrite retain_specs_twice.
    unfold alternatives. by rewrite Hv.
Qed.

Lemma apply_empty_spec sp matchers out :
  Forall (λ id, is_Some (sp !! id)) out →
  apply_empty_string_map sp matchers out = retain_specs sp (λ s, forallb (empty_keep (sp_labels s)) matchers) out.
Proof.
  unfold apply_empty_string_map. revert out. induction matchers as [|m matchers IH]; intros out Hp; cbn [foldl forallb].
  { unfold retain_specs. rewrite filter_all; [done|]. eapply Forall_impl; [exact Hp|]. intros id [? ->]. done. }
  unfold empty_keep at 1. destruct (_ && _).
  - rewrite IH by (by apply Forall_filter). by rewrite retain_specs_twice.
  - by rewrite IH.
Qed.

Lemma no_negative sel labels : has_negative_matchers sel = false → forallb (negative_keep labels) (vs_matchers sel) = true.
Proof.
  unfold has_negative_matchers, negative_keep. induction (vs_matchers sel) as [|m ms IH]; cbn; [done|].
  intros [H1 H2]%orb_false_iff. rewrite IH by done. by destruct (m_op m).
Qed.

Lemma no_empty sel labels : has_empty_string_matchers sel = false → forallb (empty_keep labels) (vs_matchers sel) = true.
Proof.
  unfold has_empty_string_matchers, empty_keep. induction (vs_matchers sel) as [|m ms IH]; cbn; [done|].
  intros [H1 H2]%orb_false_iff. by rewrite H1, IH.
Qed.

Lemma retain_specs_true sp f out :
  Forall (λ id, ∃ s, sp !! id = Some s ∧ f s = true) out → retain_specs sp f out = out.
Proof. intros H. apply filter_all. eapply Forall_impl; [exact H|]. by intros id (s & -> & ?). Qed.

(** the filters are the same whether or not the code skips them *)
Lemma post_filters_spec sp sel out :
  supported sel → Forall (λ id, is_Some (sp !! id)) out →
  (if has_negative_matchers sel || has_empty_string_matchers sel then apply_post_filters_map sp out sel else Ok out) =
    Ok (retain_specs sp (λ s, forallb (negative_keep (sp_labels s)) (vs_matchers sel) &&
                              forallb (empty_keep (sp_labels s)) (vs_matchers sel)) out).
Proof.
  intros [_ Hs] Hp. unfold apply_post_filters_map. rewrite <- retain_specs_twice.
  set (neg := retain_specs sp (λ s, forallb (negative_keep (sp_labels s)) (vs_matchers sel)) out).
  assert (Hn : (if has_negative_matchers sel then apply_negative_map sp (vs_matchers sel) out else Ok out) = Ok neg).
  { destruct (has_negative_matchers sel) eqn:E; [by apply apply_negative_spec|]. f_equal. symmetry. apply retain_specs_true.
    eapply Forall_impl; [exact Hp|]. intros id [s ?]. exists s. split; [done|]. by apply no_negative. }
  assert (Hp' : Forall (λ id, is_Some (sp !! id)) neg) by (by apply Forall_filter).
  rewrite Hn. cbn [res_bind]. destruct (has_empty_string_matchers sel) eqn:E.
  { rewrite orb_true_r. f_equal. by apply apply_empty_spec. }
  rewrite orb_false_r. rewrite retain_specs_true; [by destruct (has_negative_matchers sel)|].
  eapply Forall_impl; [exact Hp'|]. intros id [s ?]. exists s. split; [done|]. by apply no_empty.
Qed.

Lemma fetch_specs_spec ids acc :
  acc ⊆ specs →
  ∃ m, answers reader (fetch_specs reader b ids acc) (Ok m) ∧ m ⊆ specs ∧ acc ⊆ m ∧
       ∀ id spec, id ∈ ids → specs !! id = Some spec → m !! id = Some spec.
Proof.
  revert acc. induction ids as [|id ids IH]; intros acc Hacc; cbn [fetch_specs].
  { exists acc. split; [apply answers_pure|]. split; [done|]. split; [done|]. by intros ? ? ?%elem_of_nil. }
  set (acc' := match specs !! id with Some spec => <[id := spec]> acc | None => acc end).
  assert (Hsub : acc ⊆ acc' ∧ acc' ⊆ specs).
  { subst acc'. destruct (specs !! id) as [spec|] eqn:E; [|done]. split.
    - destruct (acc !! id) as [s|] eqn:Ea.
      + pose proof (lookup_weaken _ _ _ _ Ea Hacc). simplify_eq. by rewrite insert_id.
      + by apply insert_subseteq.
    - by apply insert_subseteq_l. }
  destruct Hsub as [Hs1 Hs2]. destruct (IH acc' Hs2) as (m & Hm & Hm1 & Hm2 & Hm3). exists m. split_and!.
  - eapply answers_bind; [|exact Hm].
    replace (Ok (specs !! id)) with (internal (qr_forward_index_one reader b id)); [apply answers_forward|].
    by rewrite (bi_forward b specs Hb).
  - done.
  - by etrans.
  - intros id' spec [->|Hid]%elem_of_cons Hsp; [|by apply Hm3]. eapply lookup_weaken; [|exact Hm2]. subst acc'. rewrite Hsp.
    by rewrite lookup_insert_eq.
Qed.

(** ** The series of a bucket that match *)
Definition matching (sel : VectorSelector) : list Z := filter (λ id, spec_keeps (selects sel) id = true) (sorted_ids (dom specs)).

Definition labels_at (id : Z) : Labels := sort_labels (match specs !! id with Some spec => sp_labels spec | None => [] end).

Definition series_at (id : Z) : ResolvedSeriesRef := mkSeriesRef (encode_bucket b) id (value_of (labels_at id) name_label).

Definition chunk_of (ids : list Z) : option ResolvedSeriesChunk :=
  match ids with
  | [] => None
  | _ => Some (mkSeriesChunk (encode_bucket b) (labels_at <$> ids) (series_at <$> ids))
  end.

Lemma sorted_ids_sorted (s : gset Z) : StronglySorted Z.le (sorted_ids s).
Proof.
  assert (H : StronglySorted (λ a b, (a <=? b) = true) (sorted_ids s)).
  { apply sort_by_sorted; [intros x y ?%Z.leb_gt; apply Z.leb_le; lia|intros x y z ?%Z.leb_le ?%Z.leb_le; apply Z.leb_le; lia]. }
  induction H as [|x l Hl IH Hx]; constructor; [done|]. eapply Forall_impl; [exact Hx|]. intros y. by apply Z.leb_le.
Qed.

Lemma elem_of_sorted_ids (s : gset Z) x : x ∈ sorted_ids s ↔ x ∈ s.
Proof. unfold sorted_ids. by rewrite sort_by_perm, elem_of_elements. Qed.

Lemma series_ids_nodup (s : gset Z) : NoDup (sorted_ids s).
Proof. unfold sorted_ids. rewrite sort_by_perm. apply NoDup_elements. Qed.

Lemma sorted_unique (l l' : list Z) :
  StronglySorted Z.le l → StronglySorted Z.le l' → NoDup l → NoDup l' → (∀ x, x ∈ l ↔ x ∈ l') → l = l'.
Proof. intros Hl Hl' Hn Hn' He. apply (stdpp.sorting.StronglySorted_unique Z.le); [done|done|]. by apply NoDup_Permutation. Qed.

Lemma dedup_keeps (l : list Z) prev x : x ∈ l → x = prev ∨ x ∈ dedup_from (λ a b, a =? b) prev l.
Proof.
  revert prev. induction l as [|y l IH]; intros prev Hx; [by apply elem_of_nil in Hx|]. cbn [dedup_from].
  apply elem_of_cons in Hx as [->|Hx].
  - destruct (Z.eqb_spec y prev); [by left|]. right. left.
  - destruct (Z.eqb_spec y prev); [by apply IH|]. destruct (IH y Hx) as [->|?]; right; [left|by right].
Qed.

Lemma unique_ids_elem (l : list Z) x : x ∈ l → x ∈ unique_ids l.
Proof.
  unfold unique_ids, dedup_by. intros Hx. rewrite <- (sort_by_perm Z.leb l) in Hx. destruct (sort_by Z.leb l) as [|y s]; [done|].
  apply elem_of_cons in Hx as [->|Hx]; [left|]. destruct (dedup_keeps s y x Hx) as [->|?]; [left|by right].
Qed.

Lemma resolve_series_spec sp ids :
  sp ⊆ specs → Forall (λ id, is_Some (sp !! id)) ids →
  try_map (resolve_series (encode_bucket b) sp) ids = Ok ((λ id, (labels_at id, series_at id)) <$> ids).
Proof.
  intros Hsub Hp. apply try_map_ok. intros id Hid. rewrite Forall_forall in Hp. destruct (Hp id Hid) as [spec Hs].
  unfold resolve_series, series_at, labels_at. rewrite Hs. by rewrite (lookup_weaken _ _ _ _ Hs Hsub).
Qed.

(** what the filters after the index keep of the candidates *)
Definition kept (sel : VectorSelector) (found : gset Z) : list Z :=
  filter (λ id, spec_keeps (λ labels, forallb (negative_keep labels) (vs_matchers sel) &&
                                      forallb (empty_keep labels) (vs_matchers sel)) id = true) (sorted_ids found).

Lemma retain_kept sel m (found : gset Z) :
  m ⊆ specs → (∀ id, id ∈ found → is_Some (m !! id)) →
  retain_specs m (λ s, forallb (negative_keep (sp_labels s)) (vs_matchers sel) &&
                       forallb (empty_keep (sp_labels s)) (vs_matchers sel)) (sorted_ids found) = kept sel found.
Proof.
  intros Hsub Hp. unfold retain_specs, kept, spec_keeps. apply filter_same.
  intros id Hid%elem_of_sorted_ids. destruct (Hp id Hid) as [s Hs]. by rewrite Hs, (lookup_weaken _ _ _ _ Hs Hsub).
Qed.

Lemma resolve_found sel (found : gset Z) :
  supported sel → answers reader (find_candidates reader b sel) (Ok (sorted_ids found)) →
  (∀ id, id ∈ found → is_Some (specs !! id)) →
  answers reader (resolve_one_bucket reader completion b sel) (Ok (chunk_of (kept sel found))).
Proof.
  intros Hs Hc Hf.
  destruct (fetch_specs_spec (completion (unique_ids (sorted_ids found))) ∅ (map_empty_subseteq _)) as (m & Hm & Hsub & _ & Hget).
  assert (Hp : ∀ id, id ∈ found → is_Some (m !! id)).
  { intros id Hid. pose proof Hid as [spec Hsp]%Hf. exists spec.
    apply Hget; [|done]. rewrite completion_perm. by apply unique_ids_elem, elem_of_sorted_ids. }
  pose proof (retain_kept sel m found Hsub Hp) as Hkept.
  unfold resolve_one_bucket. eapply answers_bind; [exact Hc|]. destruct (sorted_ids found) as [|c0 cs] eqn:Ec.
  { rewrite <- Hkept. apply answers_pure. }
  rewrite <- Ec in *. eapply answers_bind; [exact Hm|]. cbv zeta.
  rewrite post_filters_spec; [|done|apply Forall_forall; intros id Hid%elem_of_sorted_ids; by apply Hp].
  rewrite Hkept. cbn [res_bind]. unfold chunk_of. pose proof (resolve_series_spec m (kept sel found) Hsub) as Hr.
  destruct (kept sel found) as [|i0 ids] eqn:Em; [apply answers_pure|].
  rewrite Hr; [cbn [res_bind]; rewrite <- !list_fmap_compose; apply answers_pure|].
  rewrite <- Em. apply Forall_forall. by intros id [_ ?%elem_of_sorted_ids%Hp]%list_elem_of_filter.
Qed.

Lemma kept_matching sel (found : gset Z) :
  supported sel →
  (∀ id, id ∈ found ↔ ∃ spec, specs !! id = Some spec ∧ has_terms (and_terms_of sel) (or_groups_of sel) (sp_labels spec)) →
  kept sel found = matching sel.
Proof.
  intros Hs Hf.
  apply sorted_unique; try (apply sorted_filter, sorted_ids_sorted); try (apply NoDup_filter, series_ids_nodup).
  intros id. unfold kept, matching, spec_keeps. rewrite !list_elem_of_filter, !elem_of_sorted_ids, elem_of_dom, Hf.
  destruct (specs !! id) as [spec|] eqn:Hsp; [|naive_solver]. rewrite selects_split, andb_true_iff by (done || by eapply bi_labels).
  split; [intros [? (? & [= <-] & ?)]; eauto|]. intros [(? & ? & ?) _]. eauto.
Qed.

(** in a bucket whose indexes answer for its series, a selector made of
    equalities, inequalities and alternations of literals, one of which narrows, resolves to the series
    whose labels match every matcher, in the order of their ids, from any state of the cache. *)
Lemma selector_exact sel :
  supported sel → narrows sel →
  answers reader (resolve_one_bucket reader completion b sel) (Ok (chunk_of (matching sel))).
Proof.
  intros Hs Hn. destruct (find_candidates_spec sel Hs) as (inv & Hi & Hc); [destruct Hn as [|[g ->]]; auto|].
  pose proof (λ id, found_in_narrow sel inv id Hi Hn) as Hf. rewrite <- (kept_matching sel (found_in sel inv) Hs Hf).
  apply resolve_found; [done|done|]. intros id (spec & Hsp & _)%Hf. by exists spec.
Qed.

(** C33: with two regular expressions and no other term, a first expression that no series of the bucket matches is
    forgotten: the selector resolves to the series that match the second, though none matches both. *)
Theorem unmatched_regex_forgotten m1 m2 :
  m_op m1 = Re → m_op m2 = Re → supported (mkSelector None [m1; m2]) →
  (∀ id, spec_keeps (λ labels, matcher_selects labels m1) id = false) →
  answers reader (resolve_one_bucket reader completion b (mkSelector None [m1; m2])) (Ok (chunk_of (matching (mkSelector None [m2])))) ∧
  matching (mkSelector None [m1; m2]) = [].
Proof.
  intros H1 H2 Hs Hno. set (sel := mkSelector None [m1; m2]). set (sel2 := mkSelector None [m2]).
  assert (Hs2 : supported sel2) by (destruct Hs as [? [_ ?]%Forall_cons]; by split).
  assert (Ha : and_terms_of sel = [] ∧ and_terms_of sel2 = []) by (unfold and_terms_of; cbn [vs_name vs_matchers sel sel2 app]; by rewrite !filter_cons, H1, H2).
  set (g1 := mkLabel (m_name m1) <$> alternatives m1). set (g2 := mkLabel (m_name m2) <$> alternatives m2).
  assert (Ho : or_groups_of sel = [g1; g2] ∧ or_groups_of sel2 = [g2]).
  { unfold or_groups_of; cbn [vs_matchers sel sel2]. by rewrite !filter_cons, H1, H2. }
  destruct Ha as [Ha Ha2], Ho as [Ho Ho2].
  destruct (find_candidates_spec sel Hs) as (inv & Hi & Hc); [by right; rewrite Ho|].
  pose proof (λ id, first_group_empty sel inv g1 g2 id Hi Ha Ho) as Hf.
  assert (Hnone : ∀ id spec t, specs !! id = Some spec → t ∈ g1 → t ∉ sp_labels spec).
  { intros id spec t Hsp (v & -> & Hv)%list_elem_of_fmap Ht. specialize (Hno id). unfold spec_keeps in Hno. rewrite Hsp in Hno.
    destruct Hs as [_ [Hm1 _]%Forall_cons]. rewrite elem_of_terms, H1 in Hno by (done || by eapply bi_labels).
    apply not_true_iff_false in Hno. apply Hno, existsb_exists. exists v. by rewrite <- list_elem_of_In, has_label_elem. }
  split.
  - rewrite <- (kept_matching sel2 (found_in sel inv) Hs2); [|intros id; rewrite Ha2, Ho2; by apply Hf].
    replace (kept sel2 (found_in sel inv)) with (kept sel (found_in sel inv)).
    + apply resolve_found; [done|done|]. intros id (spec & Hsp & _)%Hf; [by exists spec|done].
    + unfold kept. apply list_filter_iff. intros id. unfold spec_keeps. destruct (specs !! id); [|done].
      unfold sel, sel2, negative_keep, empty_keep. cbn. by rewrite H1, H2.
  - apply filter_none, Forall_forall. intros id _. specialize (Hno id). unfold spec_keeps, selects in *.
    destruct (specs !! id); [|done]. cbn. by rewrite Hno.
Qed.
End bucket.

(** ** A reader of one table of series, for the examples *)
Record Table : Type := mkTable { tb_buckets : list TimeBucket; tb_specs : gmap Z SeriesSpec; tb_samples : TimeBucket → Z → list Sample }.

Definition postings_of (specs : gmap Z SeriesSpec) (l : Label) : gset Z := dom (filter (λ p : Z * SeriesSpec, l ∈ sp_labels p.2) specs).

#[global] Instance table_reader : QueryReader Table := {
  qr_list_buckets t := Ok (tb_buckets t);
  qr_inverted_index t _ terms := Ok (list_to_map ((λ l, (l, postings_of (tb_specs t) l)) <$> terms));
  qr_forward_index_one t _ id := Ok (tb_specs t !! id);
  qr_samples t b id _ from to := Ok (filter (λ s, from < timestamp_ms s ≤ to) (tb_samples t b id));
}.

Lemma table_index {A} (g : Label → A) terms t : t ∈ terms → (list_to_map ((λ l, (l, g l)) <$> terms) : gmap Label A) !! t = Some (g t).
Proof.
  induction terms as [|x terms IH]; [by intros ?%elem_of_nil|]. cbn [fmap list_fmap list_to_map foldr fst snd]. intros Ht. destruct (decide (x = t)) as [->|Hne].
  - by rewrite lookup_insert_eq.
  - rewrite lookup_insert_ne by done. apply IH. apply elem_of_cons in Ht as [->|]; done.
Qed.

Lemma table_indexed t b : (∀ id spec, tb_specs t !! id = Some spec → labels_wf (sp_labels spec)) → bucket_indexed t b (tb_specs t).
Proof.
  intros Hwf. split; [|done|done]. intros terms. eexists. split; [reflexivity|]. intros l id Hl. rewrite table_index by done.
  cbn [default from_option]. unfold Datatypes.id, postings_of. rewrite (elem_of_dom (D := gset Z)). unfold is_Some. by setoid_rewrite map_lookup_filter_Some.
Qed.

Definition up_labels : list Label := [mkLabel name_label [x75; x70]; mkLabel [x6a; x6f; x62] [x61]].   (* up{job="a"} *)
Definition up_table (buckets : list TimeBucket) (samples : TimeBucket → Z → list Sample) : Table := mkTable buckets {[ 7 := mkSpec None None up_labels ]} samples.

Lemma up_wf buckets samples id spec : tb_specs (up_table buckets samples) !! id = Some spec → labels_wf (sp_labels spec).
Proof. cbn [tb_specs up_table]. intros [<- <-]%lookup_singleton_Some. split; [|by repeat constructor]. apply (bool_decide_unpack _). by vm_compute. Qed.

(** every pattern a literal *)
#[local] Instance literal_syntax : RegexSyntax := { regex_parse p := Some (HirLiteral p) }.

Lemma unmatched_regex_witness :
  let t := up_table [] (λ _ _, []) in
  let sel := mkSelector None [mkMatcher Re [x6a; x6f; x62] [x7a]; mkMatcher Re name_label [x75; x70]] in     (* {job=~"z", __name__=~"up"} *)
  matching (tb_specs t) sel = [] ∧
  (resolve_one_bucket t (λ ids, ids) (mkBucket 60 1) sel cache_new).2 = Ok (Some (mkSeriesChunk 15361 [up_labels] [mkSeriesRef 15361 7 [x75; x70]])).
Proof.
  intros t sel.
  destruct (unmatched_regex_forgotten t (λ ids, ids) (λ ids, reflexivity ids) (mkBucket 60 1) (tb_specs t) (table_indexed t _ (up_wf [] (λ _ _, [])))
    (mkMatcher Re [x6a; x6f; x62] [x7a]) (mkMatcher Re name_label [x75; x70])) as [Ha Hm]; [done|done| | |].
  - split; [done|]. repeat constructor; eexists; (split; [by vm_compute|]); by apply (bool_decide_unpack _); vm_compute.
  - intros id. unfold spec_keeps. destruct (tb_specs t !! id) as [spec|] eqn:E; [|done]. cbn [t tb_specs up_table] in E; apply lookup_singleton_Some in E as [<- <-]. by vm_compute.
  - split; [exact Hm|]. etrans; [apply (Ha cache_new); by split|]. by vm_compute.
Defined.
End PqSourceSpec.
