(* ===== verification/PqLeaf.v ===== *)
(** * timeseries: the leaf operators of the query engine

    [promql/operators/vector_selector.rs] and [promql/operators/matrix_selector.rs]: how
    the samples of a series become the value of a step, or the window of a step.

    The two operators are one state machine with a different builder of batches, so the
    machine is written once ([Leaf]) over the builder and its cursors.  Polling the future that hydrates a chunk
    finds [ready] events of the source's stream (batches, or its end); the ledger of bytes is
    passed to each poll, as other operators use it in between.  A poll that unwinds leaves [Transitioning]. *)
From S2P Require Import Prelude Storage TsSerde TsDb PqBatch PqSource.
#[local] Open Scope Z_scope.

Module PqLeaf.
Import Ts TsDb Pq PqSource.

Record BatchShape : Type := mkShape { step_chunk : nat; series_chunk : nat }.

Definition shape_new {E} (step_chunk series_chunk : nat) : res E BatchShape :=
  let? _ := rust_assert (0 <? step_chunk)%nat in
  let? _ := rust_assert (0 <? series_chunk)%nat in
  Ok (mkShape step_chunk series_chunk).

Definition default_shape : BatchShape := mkShape 64 512.

(** ** Evaluation times *)
Definition step_timestamps (grid : StepGrid) : list Z :=
  (λ k, as_signed 64 (g_start_ms grid + Z.of_nat k * g_step_ms grid)) <$> seq 0 (g_step_count grid).

Definition offset_ms (offset : option Offset) : Z :=
  match offset with Some (OffsetPos d) => as_signed 64 (- d) | Some (OffsetNeg d) => d | None => 0 end.

Definition compute_times (steps : list Z) (grid : StepGrid) (at_ : option AtModifier) (offset : option Offset) : list Z :=
  let times :=
    match at_ with
    | Some (AtValue pin) => replicate (length steps) pin
    | Some AtStart => replicate (length steps) (g_start_ms grid)
    | Some AtEnd => replicate (length steps) (g_end_ms grid)
    | None => steps
    end in
  (λ t, i64_sat (t + offset_ms offset)) <$> times.

(** [time_range_with_lookback], [time_range_with_range] *)
Definition time_range_with (times : list Z) (lookback_ms : Z) : TimeRange :=
  let min := foldl (λ a t, if t <? a then t else a) i64_max times in
  let max := foldl (λ a t, if a <? t then t else a) i64_min times in
  if min =? i64_max then mkTimeRange 0 0
  else mkTimeRange (i64_sat (i64_sat (min - lookback_ms) + 1)) (i64_sat (max + 1)).

(** ** Samples of a chunk of series *)
Definition samples_bytes (n : Z) : Z := usize_mul n 16.

Record ChunkSamples : Type := mkChunk {
  cs_bytes : Z;
  cs_timestamps : list (list Z);
  cs_values : list (list Z);
}.

Definition chunk_new (chunk_len : nat) : ChunkSamples := mkChunk 0 (replicate chunk_len []) (replicate chunk_len []).

Fixpoint absorb_columns (cols : list (list Z * list Z)) (request_to_series : list nat) (request_idx : nat) (cs : ChunkSamples) :
    res QueryError ChunkSamples :=
  match cols with
  | [] => Ok cs
  | (ts_col, val_col) :: cols =>
      let? local_idx := expect (request_to_series !! request_idx) in
      let? ts := expect (cs_timestamps cs !! local_idx) in
      let? vs := expect (cs_values cs !! local_idx) in
      absorb_columns cols request_to_series (S request_idx)
        (mkChunk (cs_bytes cs) (<[local_idx := ts ++ ts_col]> (cs_timestamps cs)) (<[local_idx := vs ++ val_col]> (cs_values cs)))
  end.

Definition absorb (m : MemoryReservation) (cs : ChunkSamples) (batch : SampleBatch) (request_to_series : list nat) :
    MemoryReservation * res QueryError ChunkSamples :=
  let total_new := foldl usize_add 0 (blen <$> bl_timestamps (sb_samples batch)) in
  let bytes := samples_bytes total_new in
  match try_grow m bytes with
  | (m, Ok _) =>
      let r := absorb_columns (zip (bl_timestamps (sb_samples batch)) (bl_values (sb_samples batch))) request_to_series
                 (r_start (sb_series_range batch)) (mkChunk (usize_add (cs_bytes cs) bytes) (cs_timestamps cs) (cs_values cs)) in
      (match r with Panic => release m bytes | _ => m end, r)      (* unwinding drops what was counted *)
  | (m, Err e) => (m, Err e)
  | (m, Panic) => (m, Panic)
  end.

(** the future of a chunk: where it waits, or what it gives *)
Inductive Hydration : Type :=
| Waiting (items : list (res QueryError SampleBatch)) (cs : ChunkSamples)
| Hydrated (r : res QueryError ChunkSamples).

Fixpoint hydrate (ready : nat) (request_to_series : list nat) (items : list (res QueryError SampleBatch)) (cs : ChunkSamples)
    (m : MemoryReservation) : MemoryReservation * Hydration :=
  match ready with
  | O => (m, Waiting items cs)
  | S ready =>
      match items with
      | [] => (m, Hydrated (Ok cs))
      | Ok batch :: items =>
          match absorb m cs batch request_to_series with
          | (m, Ok cs) => hydrate ready request_to_series items cs m
          | (m, Err e) => (release m (cs_bytes cs), Hydrated (Err e))      (* [samples] is dropped *)
          | (m, Panic) => (release m (cs_bytes cs), Hydrated Panic)
          end
      | Err e :: _ => (release m (cs_bytes cs), Hydrated (Err e))
      | Panic :: _ => (release m (cs_bytes cs), Hydrated Panic)
      end
  end.

(** the handles of a chunk, flat, and the series of each *)
Fixpoint flatten_refs (series : list (list ResolvedSeriesRef)) (series_off : nat) : list ResolvedSeriesRef * list nat :=
  match series with
  | [] => ([], [])
  | refs :: series =>
      let '(flat, request_to_series) := flatten_refs series (S series_off) in
      (refs ++ flat, replicate (length refs) series_off ++ request_to_series)
  end.

(** ** The state machine *)
Section Leaf.
Context {Batch Cur : Type}.
Context (samples : SamplesRequest → list (res QueryError SampleBatch)).
Context (request_series : list (list ResolvedSeriesRef)) (step_count : nat) (window : TimeRange) (shape : BatchShape).
Context (new_cursors : nat → Cur).
(** a batch with the steps it covers, and the cursors after it *)
Context (build : nat → nat → ChunkSamples → Cur → nat → MemoryReservation → MemoryReservation * res QueryError (Batch * nat * Cur)).

Inductive State : Type :=
| Init
| LoadingChunk (chunk_start chunk_len : nat) (request_to_series : list nat) (items : list (res QueryError SampleBatch)) (cs : ChunkSamples)
| Emitting (chunk_start chunk_len : nat) (cs : ChunkSamples) (cursors : Cur) (next_step_chunk_start : nat)
| Done
| Errored
| Transitioning.

Definition total_series : nat := length request_series.

Definition chunk_request (chunk_start chunk_end : nat) : SamplesRequest * list nat :=
  let '(flat, request_to_series) := flatten_refs (take (chunk_end - chunk_start) (drop chunk_start request_series)) 0 in
  (mkRequest flat window, request_to_series).

Definition start_chunk_load (chunk_start : nat) : State :=
  let chunk_end := ((chunk_start + series_chunk shape) `min` total_series)%nat in
  let chunk_len := (chunk_end - chunk_start)%nat in
  let '(request, request_to_series) := chunk_request chunk_start chunk_end in
  LoadingChunk chunk_start chunk_len request_to_series (samples request) (chunk_new chunk_len).

(** one turn of the loop of [next] and of [windows]: the state after it, and what it returns when it returns *)
Definition turn (ready : nat) (st : State) (m : MemoryReservation) :
    State * MemoryReservation * option (Poll (option (res QueryError Batch))) :=
  match st with
  | Init =>
      if (total_series =? 0)%nat || (step_count =? 0)%nat then (Done, m, Some (Ready None))
      else (start_chunk_load 0, m, None)
  | LoadingChunk chunk_start chunk_len request_to_series items cs =>
      match hydrate ready request_to_series items cs m with
      | (m, Waiting items cs) => (LoadingChunk chunk_start chunk_len request_to_series items cs, m, Some Pending)
      | (m, Hydrated (Ok cs)) => (Emitting chunk_start chunk_len cs (new_cursors chunk_len) 0, m, None)
      | (m, Hydrated (Err e)) => (Errored, m, Some (Ready (Some (Err e))))
      | (m, Hydrated Panic) => (Transitioning, m, Some (Ready (Some Panic)))
      end
  | Emitting chunk_start chunk_len cs cursors next_step_chunk_start =>
      if (step_count <=? next_step_chunk_start)%nat then
        let next_chunk_start := (chunk_start + chunk_len)%nat in
        let m := release m (cs_bytes cs) in
        if (total_series <=? next_chunk_start)%nat then (Done, m, Some (Ready None))
        else (start_chunk_load next_chunk_start, m, None)
      else
        match build chunk_start chunk_len cs cursors next_step_chunk_start m with
        | (m, Ok (batch, step_advance, cursors)) =>
            (Emitting chunk_start chunk_len cs cursors (next_step_chunk_start + step_advance), m, Some (Ready (Some (Ok batch))))
        | (m, Err e) => (Errored, release m (cs_bytes cs), Some (Ready (Some (Err e))))
        | (m, Panic) => (Transitioning, release m (cs_bytes cs), Some (Ready (Some Panic)))
        end
  | Done | Errored => (Done, m, Some (Ready None))
  | Transitioning => (Transitioning, m, Some (Ready (Some Panic)))
  end.

(** the loop, for at most [fuel] turns *)
Fixpoint turns (fuel : nat) (ready : nat) (st : State) (m : MemoryReservation) :
    option (State * MemoryReservation * Poll (option (res QueryError Batch))) :=
  match fuel with
  | O => None
  | S fuel =>
      match turn ready st m with
      | (st, m, Some p) => Some (st, m, p)
      | (st, m, None) => turns fuel ready st m
      end
  end.

Definition next (ready : nat) (st : State) (m : MemoryReservation) :
    option (State * MemoryReservation * Poll (option (res QueryError Batch))) := turns 4 ready st m.
End Leaf.

(** [while *cursor < ts.len() && ts[*cursor] <= bound { *cursor += 1 }], on the samples from the cursor on *)
Fixpoint advance_while (rest : list Z) (cursor : nat) (bound : Z) : nat :=
  match rest with
  | t :: rest => if t <=? bound then advance_while rest (S cursor) bound else cursor
  | [] => cursor
  end.

(** ** vector_selector.rs *)
Definition F64_NAN : Z := 0x7ff8000000000000.

Definition cell_bytes (len : nat) : Z :=
  usize_add (usize_mul (Z.of_nat len) 8) (usize_mul (Z.of_nat (word_count len)) 8).

Record BatchBuffers : Type := mkBuffers { bb_values : list Z; bb_validity : BitSet; bb_source_timestamps : list Z }.

Definition fill_cell (buf : BatchBuffers) (cell : nat) (t v : Z) : res QueryError BatchBuffers :=
  let? _ := expect (bb_values buf !! cell) in
  let? validity := bit_set (bb_validity buf) cell in
  Ok (mkBuffers (<[cell := v]> (bb_values buf)) validity (<[cell := t]> (bb_source_timestamps buf))).

(** the sample a cursor points behind, unless it is out of the window or stale *)
Definition fill_series (ts vs : list Z) (cursor : nat) (window_lo : Z) (cell : nat) (buf : BatchBuffers) : res QueryError BatchBuffers :=
  if (cursor =? 0)%nat then Ok buf
  else
    let idx := (cursor - 1)%nat in
    let? t := expect (ts !! idx) in
    if t <=? window_lo then Ok buf
    else
      let? v := expect (vs !! idx) in
      if is_stale_nan v then Ok buf else fill_cell buf cell t v.

Fixpoint fill_row (window_lo window_hi : Z) (cell : nat) (tss vss : list (list Z)) (cursors : list nat) (buf : BatchBuffers) :
    res QueryError (list nat * BatchBuffers) :=
  match cursors with
  | [] => Ok ([], buf)
  | cursor :: cursors =>
      match tss, vss with
      | ts :: tss, vs :: vss =>
          let cursor := advance_while (drop cursor ts) cursor window_hi in
          let? buf := fill_series ts vs cursor window_lo cell buf in
          let? (cursors, buf) := fill_row window_lo window_hi (S cell) tss vss cursors buf in
          Ok (cursor :: cursors, buf)
      | _, _ => Panic
      end
  end.

Fixpoint fill_rows (effective_times : list Z) (lookback_ms : Z) (chunk_len : nat) (cs : ChunkSamples) (step_idxs : list nat)
    (step_off : nat) (cursors : list nat) (buf : BatchBuffers) : res QueryError BatchBuffers :=
  match step_idxs with
  | [] => Ok buf
  | step_idx :: step_idxs =>
      let? effective := expect (effective_times !! step_idx) in
      let window_lo := i64_sat (effective - lookback_ms) in
      let? (cursors, buf) :=
        fill_row window_lo effective (step_off * chunk_len) (cs_timestamps cs) (cs_values cs) cursors buf in
      fill_rows effective_times lookback_ms chunk_len cs step_idxs (S step_off) cursors buf
  end.

Section vector.
Context (schema : SeriesSchema) (grid : StepGrid) (effective_times : list Z) (lookback_ms : Z) (shape : BatchShape).

Definition build_batch (chunk_start chunk_len : nat) (cs : ChunkSamples) (step_chunk_start : nat) (m : MemoryReservation) :
    MemoryReservation * res QueryError StepBatch :=
  let step_chunk_end := ((step_chunk_start + step_chunk shape) `min` g_step_count grid)%nat in
  let step_count := (step_chunk_end - step_chunk_start)%nat in
  let cell_count := (step_count * chunk_len)%nat in
  let bytes := cell_bytes cell_count in
  match try_grow m bytes with
  | (m, Ok _) =>
      let buf := mkBuffers (replicate cell_count F64_NAN) (with_len cell_count) (replicate cell_count 0) in
      (release m bytes,
       let? buf := fill_rows effective_times lookback_ms chunk_len cs (seq step_chunk_start step_count) 0 (replicate chunk_len 0%nat) buf in
       Ok (with_source_timestamps
             (batch_new (step_timestamps grid) (mkRange step_chunk_start step_chunk_end) (Static schema)
                (mkRange chunk_start (chunk_start + chunk_len)) (bb_values buf) (bb_validity buf))
             (bb_source_timestamps buf)))
  | (m, Err e) => (m, Err e)
  | (m, Panic) => (m, Panic)
  end.

Definition vector_build (chunk_start chunk_len : nat) (cs : ChunkSamples) (_ : unit) (step_chunk_start : nat) (m : MemoryReservation) :
    MemoryReservation * res QueryError (StepBatch * nat * unit) :=
  let '(m, r) := build_batch chunk_start chunk_len cs step_chunk_start m in
  (m, let? b := r in Ok (b, step_count b, tt)).
End vector.

(** the plan-time inputs of an operator; [rg] is the lookback or the bracketed range *)
Record LeafOp : Type := mkLeafOp {
  lo_schema : SeriesSchema;
  lo_request_series : list (list ResolvedSeriesRef);
  lo_grid : StepGrid;
  lo_at : option AtModifier;
  lo_offset : option Offset;
  lo_rg : Z;
  lo_shape : BatchShape;
}.

Definition lo_times (op : LeafOp) : list Z := compute_times (step_timestamps (lo_grid op)) (lo_grid op) (lo_at op) (lo_offset op).

(** [VectorSelectorOp::new] *)
Definition vector_selector_new {E} (schema : SeriesSchema) (request_series : list (list ResolvedSeriesRef)) (grid : StepGrid)
    (at_ : option AtModifier) (offset : option Offset) (lookback_ms : Z) (shape : BatchShape) : res E LeafOp :=
  let? _ := rust_assert (schema_len schema =? length request_series)%nat in
  Ok (mkLeafOp schema request_series grid at_ offset lookback_ms shape).

Definition vector_next (samples : SamplesRequest → list (res QueryError SampleBatch)) (op : LeafOp) (ready : nat)
    (st : State) (m : MemoryReservation) : option (State * MemoryReservation * Poll (option (res QueryError StepBatch))) :=
  next samples (lo_request_series op) (g_step_count (lo_grid op)) (time_range_with (lo_times op) (lo_rg op)) (lo_shape op)
    (λ _, tt) (vector_build (lo_schema op) (lo_grid op) (lo_times op) (lo_rg op) (lo_shape op)) ready st m.

(** ** matrix_selector.rs *)
Record CellIndex : Type := mkCell { c_offset : Z; c_len : Z }.
Definition EMPTY : CellIndex := mkCell 0 0.

Record MatrixWindowBatch : Type := mkWindows {
  w_step_timestamps : list Z;
  w_step_range : Range;
  w_series : SchemaRef;
  w_series_range : Range;
  w_timestamps : list Z;
  w_values : list Z;
  w_cells : list CellIndex;
  w_effective_times : option (list Z);
}.

Definition w_step_count (w : MatrixWindowBatch) : nat := range_len (w_step_range w).
Definition w_series_count (w : MatrixWindowBatch) : nat := range_len (w_series_range w).

(** [&data[r]] *)
Definition slice_of {E A} (data : list A) (c : CellIndex) : res E (list A) :=
  let start := Z.to_nat (c_offset c) in
  let end_ := (start + Z.to_nat (c_len c))%nat in
  if (end_ <=? length data)%nat then Ok (take (end_ - start) (drop start data)) else Panic.

Definition cell_samples {E} (w : MatrixWindowBatch) (step_off series_off : nat) : res E (list Z * list Z) :=
  let idx := (step_off * w_series_count w + series_off)%nat in
  let? c := expect (w_cells w !! idx) in
  let? ts := slice_of (w_timestamps w) c in
  let? vs := slice_of (w_values w) c in
  Ok (ts, vs).

Definition window_bytes (cells samples : Z) : Z :=
  usize_add (usize_add (usize_mul cells 8) (usize_mul samples 8)) (usize_mul samples 8).

Record WindowBuffers : Type := mkWinBuf { wb_bytes : Z; wb_timestamps : list Z; wb_values : list Z; wb_cells : list CellIndex }.

Definition allocate_windows (m : MemoryReservation) (cell_count : nat) : MemoryReservation * res QueryError WindowBuffers :=
  let bytes := window_bytes (Z.of_nat cell_count) 0 in
  let '(m, r) := try_grow m bytes in
  (m, let? _ := r in Ok (mkWinBuf bytes [] [] (replicate cell_count EMPTY))).

Definition grow_samples (m : MemoryReservation) (buf : WindowBuffers) (extra : nat) : MemoryReservation * res QueryError WindowBuffers :=
  if (extra =? 0)%nat then (m, Ok buf)
  else
    let bytes := usize_mul (Z.of_nat extra) 16 in
    let '(m, r) := try_grow m bytes in
    (m, let? _ := r in Ok (mkWinBuf (usize_add (wb_bytes buf) bytes) (wb_timestamps buf) (wb_values buf) (wb_cells buf))).

Record SeriesCursor : Type := mkCursor { sc_lo : nat; sc_hi : nat; sc_last_window_hi : Z }.
Definition cursor_new : SeriesCursor := mkCursor 0 0 i64_min.

(** the cursor after, and the range of samples in the window *)
Definition advance (self : SeriesCursor) (timestamps : list Z) (window_lo_exclusive window_hi_inclusive : Z) : SeriesCursor * Range :=
  let '(lo, hi) := if window_hi_inclusive <? sc_last_window_hi self then (0, 0)%nat else (sc_lo self, sc_hi self) in
  let lo := advance_while (drop lo timestamps) lo window_lo_exclusive in
  let hi := if (hi <? lo)%nat then lo else hi in
  let hi := advance_while (drop hi timestamps) hi window_hi_inclusive in
  let hi := if (hi <? lo)%nat then lo else hi in
  (mkCursor lo hi window_hi_inclusive, mkRange lo hi).

(** the samples of a window: [vs[i]] and [ts[i]] for [i] in the range, stale ones dropped *)
Fixpoint pack_window (ts vs : list Z) (idxs : list nat) : res QueryError (list (Z * Z)) :=
  match idxs with
  | [] => Ok []
  | i :: idxs =>
      let? v := expect (vs !! i) in
      if is_stale_nan v then pack_window ts vs idxs
      else
        let? t := expect (ts !! i) in
        let? rest := pack_window ts vs idxs in
        Ok ((t, v) :: rest)
  end.

Definition pack_series (m : MemoryReservation) (ts vs : list Z) (cursor : SeriesCursor) (window_lo window_hi : Z) (cell_idx : nat)
    (buf : WindowBuffers) : MemoryReservation * res QueryError (SeriesCursor * WindowBuffers) :=
  let '(cursor, r) := advance cursor ts window_lo window_hi in
  match pack_window ts vs (seq (r_start r) (range_len r)) with
  | Ok packed =>
      let in_cell := length packed in
      let '(m, grown) := grow_samples m buf in_cell in
      (match grown with Ok _ => m | _ => release m (wb_bytes buf) end,      (* [buffers] is dropped *)
       let? buf := grown in
       let cell := mkCell (wrap 32 (blen (wb_timestamps buf))) (wrap 32 (Z.of_nat in_cell)) in
       Ok (cursor, mkWinBuf (wb_bytes buf) (wb_timestamps buf ++ packed.*1) (wb_values buf ++ packed.*2)
                     (<[cell_idx := cell]> (wb_cells buf))))
  | Err e => (release m (wb_bytes buf), Err e)
  | Panic => (release m (wb_bytes buf), Panic)
  end.

Fixpoint pack_row (window_lo window_hi : Z) (cell_idx : nat) (tss vss : list (list Z)) (cursors : list SeriesCursor)
    (buf : WindowBuffers) (m : MemoryReservation) : MemoryReservation * res QueryError (list SeriesCursor * WindowBuffers) :=
  match cursors with
  | [] => (m, Ok ([], buf))
  | cursor :: cursors =>
      match tss, vss with
      | ts :: tss, vs :: vss =>
          match pack_series m ts vs cursor window_lo window_hi cell_idx buf with
          | (m, Ok (cursor, buf)) =>
              let '(m, r) := pack_row window_lo window_hi (S cell_idx) tss vss cursors buf m in
              (m, let? (cursors, buf) := r in Ok (cursor :: cursors, buf))
          | (m, Err e) => (m, Err e)
          | (m, Panic) => (m, Panic)
          end
      | _, _ => (release m (wb_bytes buf), Panic)
      end
  end.

Fixpoint pack_rows (effective_times : list Z) (range_ms : Z) (chunk_len : nat) (cs : ChunkSamples) (step_idxs : list nat)
    (step_off : nat) (cursors : list SeriesCursor) (buf : WindowBuffers) (m : MemoryReservation) :
    MemoryReservation * res QueryError (list SeriesCursor * WindowBuffers) :=
  match step_idxs with
  | [] => (m, Ok (cursors, buf))
  | step_idx :: step_idxs =>
      match effective_times !! step_idx with
      | None => (release m (wb_bytes buf), Panic)
      | Some effective =>
          let window_lo := i64_sat (effective - range_ms) in
          match pack_row window_lo effective (step_off * chunk_len) (cs_timestamps cs) (cs_values cs) cursors buf m with
          | (m, Ok (cursors, buf)) =>
              pack_rows effective_times range_ms chunk_len cs step_idxs (S step_off) cursors buf m
          | (m, Err e) => (m, Err e)
          | (m, Panic) => (m, Panic)
          end
      end
  end.

Definition has_effective_shift (at_ : option AtModifier) (offset : option Offset) : bool :=
  match at_ with
  | Some _ => true
  | None => match offset with Some (OffsetPos d) | Some (OffsetNeg d) => negb (d =? 0) | None => false end
  end.

Section matrix.
Context (op : LeafOp).

Definition build_window_batch (chunk_start chunk_len : nat) (cs : ChunkSamples) (cursors : list SeriesCursor) (step_chunk_start : nat)
    (m : MemoryReservation) : MemoryReservation * res QueryError (MatrixWindowBatch * nat * list SeriesCursor) :=
  let step_chunk_end := ((step_chunk_start + step_chunk (lo_shape op)) `min` g_step_count (lo_grid op))%nat in
  let step_count := (step_chunk_end - step_chunk_start)%nat in
  let cell_count := (step_count * chunk_len)%nat in
  match allocate_windows m cell_count with
  | (m, Ok buf) =>
      match pack_rows (lo_times op) (lo_rg op) chunk_len cs (seq step_chunk_start step_count) 0 cursors buf m with
      | (m, Ok (cursors, buf)) =>
          let w := mkWindows (step_timestamps (lo_grid op)) (mkRange step_chunk_start step_chunk_end) (Static (lo_schema op))
                     (mkRange chunk_start (chunk_start + chunk_len)) (wb_timestamps buf) (wb_values buf) (wb_cells buf)
                     (if has_effective_shift (lo_at op) (lo_offset op) then Some (lo_times op) else None) in
          (release m (wb_bytes buf), Ok (w, w_step_count w, cursors))
      | (m, Err e) => (m, Err e)
      | (m, Panic) => (m, Panic)
      end
  | (m, Err e) => (m, Err e)
  | (m, Panic) => (m, Panic)
  end.

Definition windows (samples : SamplesRequest → list (res QueryError SampleBatch)) (ready : nat) (st : State) (m : MemoryReservation) :
    option (State * MemoryReservation * Poll (option (res QueryError MatrixWindowBatch))) :=
  next samples (lo_request_series op) (g_step_count (lo_grid op)) (time_range_with (lo_times op) (lo_rg op)) (lo_shape op)
    (λ n, replicate n cursor_new) build_window_batch ready st m.
End matrix.

(** [MatrixSelectorOp::new] *)
Definition matrix_selector_new {E} (schema : SeriesSchema) (request_series : list (list ResolvedSeriesRef)) (grid : StepGrid)
    (at_ : option AtModifier) (offset : option Offset) (range_ms : Z) (shape : BatchShape) : res E LeafOp :=
  let? _ := rust_assert (schema_len schema =? length request_series)%nat in
  let? _ := rust_assert (0 <? range_ms) in
  Ok (mkLeafOp schema request_series grid at_ offset range_ms shape).

(** ** plan/physical.rs: the leaves of a plan, [build_node_inner] on a vector selector and on the matrix selector of a rollup *)
Section plan.
Context {B : Blake3} {S : Type} {SS : SeriesSource S}.

Definition build_vector_selector (source : S) (selector : VectorSelector) (grid : StepGrid) (at_ : option AtModifier) (offset : Offset)
    (lookback : Z) (m : MemoryReservation) : S * MemoryReservation * res PlanError LeafOp :=
  let time_range := selector_time_range grid lookback 0 at_ offset in
  let '(source, m, resolved) := resolve_leaf source selector time_range m in
  (source, m,
   let? leaf := resolved in
   vector_selector_new (rl_schema leaf) (rl_request_series leaf) grid (to_parser_at <$> at_) (Some (to_parser_offset offset)) lookback default_shape).

Definition build_matrix_selector (source : S) (selector : VectorSelector) (grid : StepGrid) (at_ : option AtModifier) (offset : Offset)
    (range_ms : Z) (m : MemoryReservation) : S * MemoryReservation * res PlanError LeafOp :=
  let time_range := selector_time_range grid 0 range_ms at_ offset in
  let '(source, m, resolved) := resolve_leaf source selector time_range m in
  (source, m,
   let? leaf := resolved in
   matrix_selector_new (rl_schema leaf) (rl_request_series leaf) grid (to_parser_at <$> at_) (Some (to_parser_offset offset)) range_ms default_shape).
End plan.
End PqLeaf.
