(* ===== verification/PqLeafSpec.v ===== *)
(** * timeseries: what the leaf operators emit

    [Delivers] is what a leaf asks of its source; [leaf_poll] says what
    one poll of the state machine of [PqLeaf] does, over any builder of
    batches; the builders of the two operators are then shown to give the
    latest sample of every lookback window, and the samples of every range. *)
From S2P Require Import Prelude Storage TsSerde PqBatch PqSource PqLeaf.
#[local] Open Scope Z_scope.

Module PqLeafSpec.
Import Ts Pq PqSource PqLeaf.

Abbreviation column := (list (Z * Z)).

(** ** Samples of a chunk *)
Definition batch_cols (b : SampleBatch) : list (list Z * list Z) := zip (bl_timestamps (sb_samples b)) (bl_values (sb_samples b)).

(** what a batch carries for the series [j] of a request *)
Fixpoint col_arrivals (cols : list (list Z * list Z)) (r2s : list nat) (idx j : nat) : column :=
  match cols with
  | [] => []
  | c :: cols => (if decide (r2s !! idx = Some j) then zip c.1 c.2 else []) ++ col_arrivals cols r2s (S idx) j
  end.

Definition arrivals (r2s : list nat) (batches : list SampleBatch) (j : nat) : column :=
  batches ≫= λ b, col_arrivals (batch_cols b) r2s (r_start (sb_series_range b)) j.

(** the columns of a batch are pairs of equal length, for indices of the request *)
Definition batch_wf (n : nat) (b : SampleBatch) : Prop :=
  Forall (λ c : list Z * list Z, length c.1 = length c.2) (batch_cols b) ∧
  length (bl_timestamps (sb_samples b)) = length (bl_values (sb_samples b)) ∧
  (r_start (sb_series_range b) + length (bl_timestamps (sb_samples b)) ≤ n)%nat.

Definition holds (cs : ChunkSamples) (cols : list column) : Prop :=
  cs_timestamps cs = (fmap fst : column → list Z) <$> cols ∧ cs_values cs = (fmap snd : column → list Z) <$> cols.

Lemma zip_columns {A B} (a : list A) (b : list B) : length a = length b → (zip a b).*1 = a ∧ (zip a b).*2 = b.
Proof. intros H. split; [apply fst_zip|apply snd_zip]; lia. Qed.

Lemma insert_fmap_seq {A} (g : nat → A) n j x :
  (j < n)%nat → <[j := x]> (g <$> seq 0 n) = (λ i, if decide (i = j) then x else g i) <$> seq 0 n.
Proof.
  intros Hj. apply list_eq. intros i. rewrite list_lookup_insert, !list_lookup_fmap, length_fmap, length_seq.
  case_decide as Hij; [destruct Hij as [<- _]; rewrite lookup_seq_lt by done; cbn; by rewrite decide_True|].
  destruct (seq 0 n !! i) as [i'|] eqn:Ei; [|done]. apply lookup_seq in Ei as [-> Hi]. cbn. rewrite decide_False; [done|]. intros ->. tauto.
Qed.

Lemma chunk_new_holds n : holds (chunk_new n) ((λ _, []) <$> seq 0 n).
Proof. unfold holds, chunk_new. cbn. generalize 0%nat. induction n as [|n IH]; intros i; cbn; [done|]. destruct (IH (S i)) as [-> ->]. done. Qed.

Lemma absorb_columns_spec zs r2s idx cs n (f : nat → column) :
  holds cs (f <$> seq 0 n) → Forall (λ j, (j < n)%nat) r2s → Forall (λ c : list Z * list Z, length c.1 = length c.2) zs →
  (idx + length zs ≤ length r2s)%nat →
  ∃ cs', absorb_columns zs r2s idx cs = Ok cs' ∧ cs_bytes cs' = cs_bytes cs ∧
         holds cs' ((λ j, f j ++ col_arrivals zs r2s idx j) <$> seq 0 n).
Proof.
  intros Hc Hr Hz. revert idx cs f Hc. induction Hz as [|c zs Hc0 Hz IH]; intros idx cs f Hc Hl; cbn [absorb_columns col_arrivals].
  { exists cs. split; [done|]. split; [done|]. erewrite list_fmap_ext; [exact Hc|]. intros. cbn. by rewrite app_nil_r. }
  destruct c as [tc vc]. cbn [length] in Hl. destruct (lookup_lt_is_Some_2 r2s idx) as [j Hj]; [lia|]. rewrite Hj. cbn [expect res_bind].
  assert (Hjn : (j < n)%nat) by (by eapply Forall_lookup_1 in Hr). destruct Hc as [Ht Hv]. rewrite Ht, Hv, !list_lookup_fmap.
  rewrite lookup_seq_lt by done. cbn [fmap option_fmap option_map expect res_bind plus].
  set (f' := λ i, if decide (i = j) then f i ++ zip tc vc else f i).
  destruct (zip_columns tc vc Hc0) as [Ez1 Ez2].
  edestruct (IH (S idx)) with (f := f') as (cs' & -> & Hb & Hh); [|lia|]; cycle 1.
  - exists cs'. split; [done|]. split; [done|]. erewrite list_fmap_ext; [exact Hh|]. intros k i _. subst f'. cbn.
    destruct (decide (Some j = Some i)) as [[= ->]|Hne]; [by rewrite decide_True, <- app_assoc|].
    rewrite decide_False by congruence. done.
  - split; cbn [cs_timestamps cs_values]; rewrite <- !list_fmap_compose, insert_fmap_seq by done; apply list_fmap_ext;
      intros _ i _; subst f'; cbn; (case_decide as Hi; [|done]); subst i; by rewrite fmap_app, ?Ez1, ?Ez2.
Qed.

(** ** The ledger around a poll: what the operator holds is counted *)
Definition ledger (m : MemoryReservation) (held : Z) : Prop := mem_ok m ∧ 0 ≤ held ≤ reserved m.

(** from [m] with [held] counted to [m'] with [held'] counted, nothing else changed *)
Definition accounted (m : MemoryReservation) (held : Z) (m' : MemoryReservation) (held' : Z) : Prop :=
  ledger m' held' ∧ cap m' = cap m ∧ reserved m' - held' = reserved m - held.

Lemma accounted_refl m held : ledger m held → accounted m held m held.
Proof. by split. Qed.

Lemma accounted_trans m1 h1 m2 h2 m3 h3 : accounted m1 h1 m2 h2 → accounted m2 h2 m3 h3 → accounted m1 h1 m3 h3.
Proof. intros (_ & ? & ?) (? & ? & ?). split; [done|]. split; [congruence|lia]. Qed.

Lemma accounted_release m held : ledger m held → accounted m held (release m held) 0.
Proof.
  intros [Hm Hh]. destruct (release_spec m held Hm Hh) as (? & ? & ?). unfold accounted, ledger. split_and!; try done; lia.
Qed.

Lemma accounted_keep m m' held : accounted m 0 m' 0 → ledger m held → accounted m held m' held.
Proof. intros ([Hm _] & Hc & Hr) [_ Hh]. unfold accounted, ledger. split_and!; try done; lia. Qed.

Lemma try_grow_grows m held bytes m' r :
  ledger m held → 0 ≤ bytes → try_grow m bytes = (m', r) →
  match r with
  | Ok _ => accounted m held m' (usize_add held bytes) ∧ usize_add held bytes = held + bytes
  | Err e => m' = m ∧ e = MemoryLimit bytes (cap m) (reserved m)
  | Panic => False
  end.
Proof.
  intros [Hm Hh] Hb Hg. destruct (try_grow_spec _ _ _ _ Hm Hb Hg) as (Hm' & Hc & Hr). destruct r as [[]|e|]; [|naive_solver|done].
  assert (usize_add held bytes = held + bytes).
  { unfold usize_add, USIZE_MAX, u_max. unfold mem_ok, in_u in Hm'. lia. }
  unfold accounted, ledger. split_and!; try done; lia.
Qed.

Lemma usize_mul_nonneg a b : 0 ≤ a → 0 ≤ b → 0 ≤ usize_mul a b.
Proof. unfold usize_mul, USIZE_MAX, u_max. intros. apply Z.min_glb; nia. Qed.

Lemma batch_bytes_nonneg b : 0 ≤ samples_bytes (foldl usize_add 0 (blen <$> bl_timestamps (sb_samples b))).
Proof.
  apply usize_mul_nonneg; [|lia]. assert (H : ∀ l a, 0 ≤ a → 0 ≤ foldl usize_add a (blen (A := Z) <$> l)).
  { induction l as [|x l IH]; intros a Ha; cbn; [done|]. apply IH. unfold usize_add, USIZE_MAX, u_max, blen. lia. }
  by apply H.
Qed.

Lemma absorb_spec m cs b r2s n f :
  ledger m (cs_bytes cs) → holds cs (f <$> seq 0 n) → Forall (λ j, (j < n)%nat) r2s → batch_wf (length r2s) b →
  match absorb m cs b r2s with
  | (m', Ok cs') => accounted m (cs_bytes cs) m' (cs_bytes cs') ∧ holds cs' ((λ j, f j ++ arrivals r2s [b] j) <$> seq 0 n)
  | (m', Err e) => m' = m ∧ ∃ bytes, e = MemoryLimit bytes (cap m) (reserved m)
  | (_, Panic) => False
  end.
Proof.
  intros Hl Hh Hr (Hz & Hlen & Hn). unfold absorb. cbv zeta. destruct (try_grow m _) as [m' r] eqn:Eg.
  pose proof (try_grow_grows _ _ _ _ _ Hl (batch_bytes_nonneg b) Eg) as Hg. destruct r as [[]|e|]; [|naive_solver|done].
  destruct Hg as [Ha Hb]. edestruct (absorb_columns_spec (batch_cols b) r2s (r_start (sb_series_range b))) as (cs' & Hcs & Hb' & Hh');
    [|exact Hr|exact Hz| |]; cycle 2.
  - unfold batch_cols in Hcs. rewrite Hcs. cbn [cs_bytes] in Hb'. rewrite Hb'. split; [exact Ha|].
    erewrite list_fmap_ext; [exact Hh'|]. intros. cbn. by rewrite app_nil_r.
  - exact Hh.
  - unfold batch_cols. rewrite length_zip_with. lia.
Qed.

Definition no_panic (items : list (res QueryError SampleBatch)) (n : nat) : Prop :=
  Forall (λ i, match i with Ok b => batch_wf n b | Err _ => True | Panic => False end) items.

Lemma hydrate_spec ready r2s items cs m n f :
  ledger m (cs_bytes cs) → holds cs (f <$> seq 0 n) → Forall (λ j, (j < n)%nat) r2s → no_panic items (length r2s) →
  match hydrate ready r2s items cs m with
  | (m', Waiting items' cs') =>
      accounted m (cs_bytes cs) m' (cs_bytes cs') ∧
      ∃ done, items = (Ok <$> done) ++ items' ∧ length done = ready ∧ holds cs' ((λ j, f j ++ arrivals r2s done j) <$> seq 0 n)
  | (m', Hydrated (Ok cs')) =>
      accounted m (cs_bytes cs) m' (cs_bytes cs') ∧
      ∃ done, items = Ok <$> done ∧ holds cs' ((λ j, f j ++ arrivals r2s done j) <$> seq 0 n)
  | (m', Hydrated (Err e)) =>
      accounted m (cs_bytes cs) m' 0 ∧ (Err e ∈ items ∨ ∃ bytes already, e = MemoryLimit bytes (cap m) already)
  | (_, Hydrated Panic) => False
  end.
Proof.
  intros Hl Hh Hr Hi. revert items cs m f Hl Hh Hi. induction ready as [|ready IH]; intros items cs m f Hl Hh Hi; cbn [hydrate].
  { split; [by apply accounted_refl|]. exists []. split; [done|]. split; [done|].
    erewrite list_fmap_ext; [exact Hh|]. intros. cbn. by rewrite app_nil_r. }
  destruct items as [|item items].
  { split; [by apply accounted_refl|]. exists []. split; [done|]. erewrite list_fmap_ext; [exact Hh|]. intros. cbn. by rewrite app_nil_r. }
  apply Forall_cons in Hi as [Hitem Hi]. destruct item as [b|e|]; [| |done].
  2:{ split; [by apply accounted_release|]. left. left. }
  pose proof (absorb_spec m cs b r2s n f Hl Hh Hr Hitem) as Ha. destruct (absorb m cs b r2s) as [m1 [cs1|e|]]; [| |done].
  2:{ destruct Ha as [-> [bytes ->]]. split; [by apply accounted_release|]. right. eauto. }
  destruct Ha as [Ha Hh1]. specialize (IH items cs1 m1 _ (proj1 Ha) Hh1 Hi).
  assert (Happ : ∀ done cs', holds cs' ((λ j, (f j ++ arrivals r2s [b] j) ++ arrivals r2s done j) <$> seq 0 n) →
                             holds cs' ((λ j, f j ++ arrivals r2s (b :: done) j) <$> seq 0 n)).
  { intros done cs' H. erewrite list_fmap_ext; [exact H|]. intros. cbn. by rewrite app_nil_r, app_assoc. }
  destruct (hydrate ready r2s items cs1 m1) as [m2 [items' cs2|[cs2|e|]]]; [| | |done].
  - destruct IH as (Ha2 & done & -> & Hd & Hh2). split; [by eapply accounted_trans|]. exists (b :: done). cbn. split; [done|]. split; [lia|]. by apply Happ.
  - destruct IH as (Ha2 & done & -> & Hh2). split; [by eapply accounted_trans|]. exists (b :: done). split; [done|]. by apply Happ.
  - destruct IH as [Ha2 He]. split; [by eapply accounted_trans|]. destruct He as [He|(bytes & al & He)]; [left; by right|right].
    exists bytes, al. rewrite He. f_equal. apply Ha.
Qed.

(** ** What a leaf asks of its source

    [data] is what the source has for a handle in a window of time: the batches it streams,
    put together, are that, and none of their shapes makes the operator panic. *)
Class Delivers (samples : SamplesRequest → list (res QueryError SampleBatch)) (data : TimeRange → ResolvedSeriesRef → column) : Prop := {
  deliver_wf rq : no_panic (samples rq) (length (rq_series rq));
  deliver_data rq batches r2s j :
    samples rq = Ok <$> batches → length r2s = length (rq_series rq) →
    arrivals r2s batches j = zip r2s (rq_series rq) ≫= λ p, if decide (p.1 = j) then data (rq_time_range rq) p.2 else [];
}.

Lemma bind_same {A B} (l : list A) (f g : A → list B) : (∀ x, x ∈ l → f x = g x) → l ≫= f = l ≫= g.
Proof. induction l as [|x l IH]; intros H; [done|]. cbn. rewrite H by left. f_equal. apply IH. intros. apply H. by right. Qed.

Lemma bind_nil {A B} (l : list A) : (l ≫= λ _, []) = @nil B.
Proof. by induction l. Qed.

Lemma zip_replicate_bind {A B} (k : nat) (refs : list A) (f : nat * A → list B) :
  zip (replicate (length refs) k) refs ≫= f = refs ≫= λ r, f (k, r).
Proof. induction refs as [|r refs IH]; [done|]. cbn. by rewrite <- IH. Qed.

Lemma flatten_refs_spec series off flat r2s :
  flatten_refs series off = (flat, r2s) →
  length r2s = length flat ∧ Forall (λ k, off ≤ k < off + length series)%nat r2s ∧
  ∀ (d : ResolvedSeriesRef → column) j,
    (zip r2s flat ≫= λ p, if decide (p.1 = off + j)%nat then d p.2 else []) = default [] (series !! j) ≫= d.
Proof.
  revert off flat r2s. induction series as [|refs series IH]; intros off flat r2s; cbn [flatten_refs].
  { intros [= <- <-]. split_and!; [done|constructor|]. done. }
  destruct (flatten_refs series (S off)) as [flat' r2s'] eqn:E. intros [= <- <-]. destruct (IH _ _ _ E) as (H1 & H2 & H3). split_and!.
  - rewrite !length_app, length_replicate. lia.
  - apply Forall_app. split; [apply Forall_replicate; cbn; lia|]. eapply Forall_impl; [exact H2|]. cbn. intros. lia.
  - intros d j. rewrite zip_with_app by (by rewrite length_replicate). rewrite bind_app, zip_replicate_bind. destruct j as [|j].
    + rewrite (bind_same (zip r2s' flat') _ (λ _, [])), bind_nil, app_nil_r.
      * apply bind_same. intros r _. cbn. by rewrite decide_True by lia.
      * intros [k r] Hk%elem_of_zip_l. rewrite Forall_forall in H2. specialize (H2 k Hk). cbn. by rewrite decide_False by lia.
    + rewrite (bind_same refs _ (λ _, [])), bind_nil; [|intros r _; cbn; by rewrite decide_False by lia]. cbn [app lookup list_lookup].
      rewrite <- H3. apply bind_same. intros p _. by replace (off + S j)%nat with (S off + j)%nat by lia.
Qed.

(** ** Tiles *)
Fixpoint starts (n from bound c : nat) : list nat :=
  match n with
  | O => []
  | S n => if (from <? bound)%nat then from :: starts n ((from + c) `min` bound)%nat bound c else []
  end.

Lemma starts_fuel n n' from bound c :
  (0 < c)%nat → (bound - from ≤ n)%nat → (bound - from ≤ n')%nat → starts n from bound c = starts n' from bound c.
Proof.
  intros Hc. revert n' from. induction n as [|n IH]; intros [|n'] from Hn Hn'; cbn [starts]; try done;
    destruct (Nat.ltb_spec from bound); try (lia || done). f_equal. apply IH; lia.
Qed.

Lemma starts_unfold from bound c :
  (0 < c)%nat → (from < bound)%nat → starts bound from bound c = from :: starts bound ((from + c) `min` bound)%nat bound c.
Proof.
  intros Hc Hf. rewrite (starts_fuel bound (S bound) from) by lia. cbn [starts]. by rewrite (proj2 (Nat.ltb_lt _ _) Hf).
Qed.

Lemma starts_end from bound c : (bound ≤ from)%nat → starts bound from bound c = [].
Proof. intros H. destruct bound as [|b]; [done|]. cbn [starts]. by rewrite (proj2 (Nat.ltb_ge _ _) H). Qed.

(** the tiles cover every index once *)
Lemma starts_cover n from bound c i :
  (0 < c)%nat → (bound - from ≤ n)%nat → (from ≤ i < bound)%nat →
  ∃ s, s ∈ starts n from bound c ∧ (s ≤ i < (s + c) `min` bound)%nat ∧
       ∀ s', s' ∈ starts n from bound c → (s' ≤ i < (s' + c) `min` bound)%nat → s' = s.
Proof.
  intros Hc. revert from. induction n as [|n IH]; intros from Hn Hi; [lia|]. cbn [starts]. rewrite (proj2 (Nat.ltb_lt from bound)) by lia.
  assert (Hge : ∀ n from s, s ∈ starts n from bound c → (from ≤ s)%nat).
  { clear -Hc. induction n as [|n IH]; intros from s; cbn [starts]; [by intros ?%elem_of_nil|].
    destruct (Nat.ltb_spec from bound); [|by intros ?%elem_of_nil]. intros [->|Hs%IH]%elem_of_cons; lia. }
  destruct (decide (i < (from + c) `min` bound)%nat) as [Hlt|Hge'].
  - exists from. split; [left|]. split; [lia|]. intros s' [->|Hs'%Hge]%elem_of_cons Hr; [done|]. lia.
  - destruct (IH ((from + c) `min` bound)%nat) as (s & Hs & Hr & Hu); [lia|lia|]. exists s. split; [by right|]. split; [done|].
    intros s' [->|Hs']%elem_of_cons Hr'; [lia|]. by apply Hu.
Qed.

Lemma starts_lt n from bound c s : s ∈ starts n from bound c → (s < bound)%nat.
Proof.
  revert from. induction n as [|n IH]; intros from; cbn [starts]; [by intros ?%elem_of_nil|].
  destruct (Nat.ltb_spec from bound); [|by intros ?%elem_of_nil]. intros [->|Hs%IH]%elem_of_cons; lia.
Qed.

Lemma starts_nodup n from bound c : (0 < c)%nat → NoDup (starts n from bound c).
Proof.
  intros Hc. revert from. induction n as [|n IH]; intros from; cbn [starts]; [constructor|].
  destruct (Nat.ltb_spec from bound); [|constructor]. constructor; [|apply IH].
  assert (Hge : ∀ n from s, s ∈ starts n from bound c → (from ≤ s)%nat).
  { clear -Hc. induction n as [|n IH]; intros from s; cbn [starts]; [by intros ?%elem_of_nil|].
    destruct (Nat.ltb_spec from bound); [|by intros ?%elem_of_nil]. intros [->|Hs%IH]%elem_of_cons; lia. }
  intros Hin%Hge. lia.
Qed.

Lemma Forall2_filter_iff {A B} (P : A → B → Prop) (Q : A → Prop) (R : B → Prop) `{!∀ x, Decision (Q x), !∀ x, Decision (R x)} l k :
  (∀ x y, P x y → Q x ↔ R y) → Forall2 P l k → Forall2 P (filter Q l) (filter R k).
Proof.
  intros HPQ. induction 1 as [|x y l k Hxy _ IH]; [constructor|]. rewrite !filter_cons. pose proof (HPQ x y Hxy).
  repeat case_decide; try tauto. by constructor.
Qed.

(** ** The state machine *)
Section machine.
Context {Batch Cur : Type} (samples : SamplesRequest → list (res QueryError SampleBatch)).
Context (data : TimeRange → ResolvedSeriesRef → column) {D : Delivers samples data}.
Context (request_series : list (list ResolvedSeriesRef)) (step_count : nat) (window : TimeRange) (shape : BatchShape).
Context (new_cursors : nat → Cur).
Context (build : nat → nat → ChunkSamples → Cur → nat → MemoryReservation → MemoryReservation * res QueryError (Batch * nat * Cur)).
Context (Hstep : (0 < step_chunk shape)%nat) (Hseries : (0 < series_chunk shape)%nat).

Let total : nat := length request_series.
Definition chunk_end (s : nat) : nat := ((s + series_chunk shape) `min` total)%nat.
Definition step_end (k : nat) : nat := ((k + step_chunk shape) `min` step_count)%nat.

(** the samples of a series, and of the series of a chunk *)
Definition series_data (refs : list ResolvedSeriesRef) : column := refs ≫= data window.
Definition chunk_data (s : nat) : list column := series_data <$> take (chunk_end s - s) (drop s request_series).

(** what the builder is to give: [Shows s k b], the tile of the series from [s] and the steps from [k] *)
Context (Shows : nat → nat → Batch → Prop) (CurOk : nat → Cur → nat → Prop) (cap_ok : Z → Prop).
Context (new_ok : ∀ s, (s < total)%nat → CurOk s (new_cursors (chunk_end s - s)) 0).
Context (build_ok : ∀ s cs cur k m,
  (s < total)%nat → (k < step_count)%nat → holds cs (chunk_data s) → CurOk s cur k → mem_ok m → cap_ok (cap m) →
  match build s (chunk_end s - s) cs cur k m with
  | (m', Ok (b, adv, cur')) => Shows s k b ∧ adv = (step_end k - k)%nat ∧ CurOk s cur' (step_end k) ∧ accounted m 0 m' 0
  | (m', Err e) => accounted m 0 m' 0 ∧ ∃ bytes already, e = MemoryLimit bytes (cap m) already
  | (_, Panic) => False
  end).

Definition request_at (s : nat) : SamplesRequest * list nat := chunk_request request_series window s (chunk_end s).
Definition items_at (s : nat) : list (res QueryError SampleBatch) := samples (request_at s).1.

Definition held (st : State (Cur := Cur)) : Z :=
  match st with LoadingChunk _ _ _ _ cs | Emitting _ _ cs _ _ => cs_bytes cs | _ => 0 end.

Definition state_ok (st : State (Cur := Cur)) : Prop :=
  match st with
  | LoadingChunk s len r2s items cs =>
      (s < total)%nat ∧ (0 < step_count)%nat ∧ len = (chunk_end s - s)%nat ∧ r2s = (request_at s).2 ∧
      ∃ done, items_at s = (Ok <$> done) ++ items ∧ holds cs (arrivals r2s done <$> seq 0 len)
  | Emitting s len cs cur k =>
      (s < total)%nat ∧ (0 < step_count)%nat ∧ len = (chunk_end s - s)%nat ∧ (k ≤ step_count)%nat ∧ holds cs (chunk_data s) ∧
      ((k < step_count)%nat → CurOk s cur k)
  | Transitioning => False
  | _ => True
  end.

Definition step_tiles (s k : nat) : list (nat * nat) := (λ k', (s, k')) <$> starts step_count k step_count (step_chunk shape).
Definition tiles_from (s : nat) : list (nat * nat) := starts total s total (series_chunk shape) ≫= λ s, step_tiles s 0.

(** the tiles a state has still to emit *)
Definition rest (st : State (Cur := Cur)) : list (nat * nat) :=
  match st with
  | Init => tiles_from 0
  | LoadingChunk s _ _ _ _ => tiles_from s
  | Emitting s _ _ _ k => step_tiles s k ++ tiles_from (chunk_end s)
  | _ => []
  end.

(** the events of the source and the tiles that are left *)
Definition cost_from (s : nat) : nat :=
  sum_list ((λ s, S (length (items_at s)) + length (step_tiles s 0))%nat <$> starts total s total (series_chunk shape)).
Definition cost (st : State (Cur := Cur)) : nat :=
  match st with
  | Init => cost_from 0
  | LoadingChunk s _ _ items _ => (S (length items) + length (step_tiles s 0) + cost_from (chunk_end s))%nat
  | Emitting s _ _ _ k => (length (step_tiles s k) + cost_from (chunk_end s))%nat
  | _ => 0
  end.

(** an error comes from the source or from the limit of the ledger *)
Definition blamed (cap : Z) (e : QueryError) : Prop :=
  (∃ rq, Err e ∈ samples rq) ∨ ∃ bytes already, e = MemoryLimit bytes cap already.

Definition polled (ready : nat) (st : State) (m : MemoryReservation) (r : option (State * MemoryReservation * Poll (option (res QueryError Batch)))) : Prop :=
  ∃ st' m' p, r = Some (st', m', p) ∧ state_ok st' ∧ accounted m (held st) m' (held st') ∧
  match p with
  | Pending => rest st' = rest st ∧ ((0 < ready)%nat → (cost st' < cost st)%nat)
  | Ready (Some (Ok b)) => ∃ s k, rest st = (s, k) :: rest st' ∧ Shows s k b ∧ (cost st' < cost st)%nat
  | Ready (Some (Err e)) => st' = Errored ∧ blamed (cap m) e
  | Ready (Some Panic) => False
  | Ready None => rest st = [] ∧ st' = Done
  end.

Let turns' := turns samples request_series step_count window shape new_cursors build.

Lemma chunk_end_bounds s : (s < total)%nat → (s < chunk_end s ≤ total)%nat.
Proof. unfold chunk_end. lia. Qed.

Lemma step_end_bounds k : (k < step_count)%nat → (k < step_end k ≤ step_count)%nat.
Proof. unfold step_end. lia. Qed.

Lemma tiles_from_unfold s : (s < total)%nat → tiles_from s = step_tiles s 0 ++ tiles_from (chunk_end s).
Proof. intros H. unfold tiles_from at 1. rewrite starts_unfold by done. done. Qed.

Lemma cost_from_unfold s : (s < total)%nat → cost_from s = (S (length (items_at s)) + length (step_tiles s 0) + cost_from (chunk_end s))%nat.
Proof. intros H. unfold cost_from at 1. rewrite starts_unfold by done. done. Qed.

Lemma step_tiles_unfold s k : (k < step_count)%nat → step_tiles s k = (s, k) :: step_tiles s (step_end k).
Proof. intros H. unfold step_tiles at 1. rewrite starts_unfold by done. done. Qed.

Lemma step_tiles_end s k : (step_count ≤ k)%nat → step_tiles s k = [].
Proof. intros H. unfold step_tiles. by rewrite starts_end. Qed.

Lemma tiles_from_end s : (total ≤ s)%nat → tiles_from s = [].
Proof. intros H. unfold tiles_from. by rewrite starts_end. Qed.

Lemma request_at_spec s :
  (s < total)%nat →
  let '(rq, r2s) := request_at s in
  length r2s = length (rq_series rq) ∧ Forall (λ j, (j < chunk_end s - s)%nat) r2s ∧
  ∀ batches, samples rq = Ok <$> batches → arrivals r2s batches <$> seq 0 (chunk_end s - s) = chunk_data s.
Proof.
  intros Hs. pose proof (chunk_end_bounds s Hs) as Hb. unfold request_at, chunk_request.
  set (part := take (chunk_end s - s) (drop s request_series)). destruct (flatten_refs part 0) as [flat r2s] eqn:E.
  destruct (flatten_refs_spec _ _ _ _ E) as (H1 & H2 & H3). split; [done|].
  assert (Hlen : length part = (chunk_end s - s)%nat).
  { subst part. rewrite length_take, length_drop. fold total. lia. }
  split; [eapply Forall_impl; [exact H2|]; cbn; lia|]. intros batches Hi. unfold chunk_data. fold part. apply list_eq. intros j.
  rewrite !list_lookup_fmap. destruct (decide (j < chunk_end s - s)%nat) as [Hj|Hj].
  - rewrite lookup_seq_lt by done. destruct (lookup_lt_is_Some_2 part j) as [refs Hr]; [lia|]. rewrite Hr. cbn. f_equal.
    rewrite (deliver_data _ _ _ j Hi) by done. cbn [rq_series rq_time_range]. specialize (H3 (data window) j). cbn [plus] in H3.
    rewrite H3, Hr. done.
  - rewrite lookup_seq_ge by lia. rewrite lookup_ge_None_2 by lia. done.
Qed.
Lemma turns_unfold n ready st m :
  turns' (S n) ready st m =
  match turn samples request_series step_count window shape new_cursors build ready st m with
  | (st, m, Some p) => Some (st, m, p)
  | (st, m, None) => turns' n ready st m
  end.
Proof. done. Qed.

Lemma emit_polled n ready s len cs cur k m :
  state_ok (Emitting s len cs cur k) → (k < step_count)%nat → ledger m (cs_bytes cs) → cap_ok (cap m) →
  polled ready (Emitting s len cs cur k) m (turns' (S n) ready (Emitting s len cs cur k) m).
Proof.
  intros (Hs & Hc & -> & _ & Hh & Hcur) Hk Hl Hcap. unfold turns'. cbn [turns turn]. rewrite (proj2 (Nat.leb_gt _ _) Hk).
  pose proof (build_ok s cs cur k m Hs Hk Hh (Hcur Hk) (proj1 Hl) Hcap) as Hb. pose proof (step_end_bounds k Hk) as He.
  destruct (build s (chunk_end s - s) cs cur k m) as [m' [[[b adv] cur']|e|]]; [| |done].
  - destruct Hb as (Hshow & -> & Hcur' & Ha). eexists _, m', _. split; [done|]. replace (k + (step_end k - k))%nat with (step_end k) by lia.
    split; [split_and!; [done|done|done|lia|done|done]|]. split; [by apply accounted_keep|]. exists s, k. cbn [rest cost].
    rewrite step_tiles_unfold by done. split; [done|]. split; [done|]. cbn [length]. lia.
  - destruct Hb as (Ha & bytes & al & ->). pose proof (accounted_keep _ _ _ Ha Hl) as Ha'. eexists _, _, _. split; [done|]. split; [done|].
    split; [eapply accounted_trans; [exact Ha'|apply accounted_release, Ha']|]. split; [done|]. right. eauto.
Qed.

Lemma load_polled n ready s len r2s items cs m :
  state_ok (LoadingChunk s len r2s items cs) → ledger m (cs_bytes cs) → cap_ok (cap m) →
  polled ready (LoadingChunk s len r2s items cs) m (turns' (S (S n)) ready (LoadingChunk s len r2s items cs) m).
Proof.
  intros (Hs & Hc & -> & -> & done & Hi & Hh) Hl Hcap. rewrite turns_unfold. cbn [turn].
  pose proof (request_at_spec s Hs) as Hq. pose proof Hi as Hi'. unfold items_at in Hi'.
  destruct (request_at s) as [rq r2s] eqn:Eq. cbn [fst snd] in *. destruct Hq as (Hlen & Hr & Hdata).
  assert (Hnp : no_panic items (length r2s)).
  { rewrite Hlen. pose proof (deliver_wf rq) as Hw. rewrite Hi' in Hw. by apply Forall_app in Hw as [_ ?]. }
  pose proof (hydrate_spec ready r2s items cs m _ _ Hl Hh Hr Hnp) as Hy.
  assert (Happ : ∀ done' cs', holds cs' ((λ j, arrivals r2s done j ++ arrivals r2s done' j) <$> seq 0 (chunk_end s - s)) →
                 holds cs' (arrivals r2s (done ++ done') <$> seq 0 (chunk_end s - s))).
  { intros done' cs' H. erewrite list_fmap_ext; [exact H|]. intros. unfold arrivals. by rewrite bind_app. }
  destruct (hydrate ready r2s items cs m) as [m' [items' cs'|[cs'|e|]]]; [| | |done].
  - destruct Hy as (Ha & done' & -> & Hd & Hh'). eexists _, m', _. split; [reflexivity|]. split; [split_and!; try done|].
    + by rewrite Eq.
    + exists (done ++ done'). split; [|by apply Happ]. rewrite fmap_app, <- app_assoc. done.
    + split; [done|]. split; [done|]. intros Hr0. cbn [cost]. rewrite length_app, length_fmap. lia.
  - destruct Hy as (Ha & done' & -> & Hh'). rewrite <- fmap_app in Hi'. pose proof (Hdata _ Hi') as Hd.
    assert (Hok : state_ok (Emitting s (chunk_end s - s) cs' (new_cursors (chunk_end s - s)) 0)).
    { split_and!; [done|done|done|lia| |by intros; apply new_ok]. rewrite <- Hd. by apply Happ. }
    destruct (emit_polled n ready _ _ _ _ _ m' Hok Hc (proj1 Ha)) as (st' & m2 & p & Hp & Hok' & Ha2 & Hpost); [by rewrite (proj1 (proj2 Ha))|].
    exists st', m2, p. split; [done|]. split; [done|]. split; [by eapply accounted_trans|].
    assert (Hrest : rest (Emitting s (chunk_end s - s) cs' (new_cursors (chunk_end s - s)) 0) =
      rest (LoadingChunk s (chunk_end s - s) r2s (Ok <$> done') cs)) by (symmetry; by apply tiles_from_unfold).
    rewrite Hrest in Hpost. cbn [cost] in *. destruct p as [|[[b|e|]|]]; try done.
    + destruct Hpost as [? Hp1]. split; [done|]. intros Hr0. specialize (Hp1 Hr0). lia.
    + destruct Hpost as (s0 & k & ? & ? & ?). exists s0, k. split; [done|]. split; [done|]. lia.
    + destruct Hpost as [? He]. split; [done|]. by rewrite (proj1 (proj2 Ha)) in He.
  - destruct Hy as [Ha He]. eexists _, m', _. split; [reflexivity|]. split; [done|]. split; [done|]. split; [done|].
    destruct He as [He|He]; [left|by right]. exists rq. rewrite Hi'. apply elem_of_app. by right.
Qed.

Lemma start_ok s : (s < total)%nat → (0 < step_count)%nat →
  let st := start_chunk_load samples request_series window shape (Cur := Cur) s in
  (∃ len r2s items cs, st = LoadingChunk s len r2s items cs) ∧
  state_ok st ∧ held st = 0 ∧ rest st = tiles_from s ∧ cost st = cost_from s.
Proof.
  intros Hs Hc. cbv zeta. change (start_chunk_load samples request_series window shape s) with
    (let '(rq, r2s) := request_at s in LoadingChunk (Cur := Cur) s (chunk_end s - s) r2s (samples rq) (chunk_new (chunk_end s - s))).
  destruct (request_at s) as [rq r2s] eqn:E. split; [eauto|]. cbn [state_ok held rest cost cs_bytes chunk_new]. rewrite E. split; [split_and!; try done|].
  - exists []. unfold items_at. rewrite E. split; [done|]. apply chunk_new_holds.
  - split; [done|]. split; [done|]. rewrite (cost_from_unfold s Hs). unfold items_at. by rewrite E.
Qed.

(** a turn that starts to load the chunk from [s], and the turns after it *)
Lemma started_polled n ready st m m1 s :
  (s < total)%nat → (0 < step_count)%nat → cap_ok (cap m) → accounted m (held st) m1 0 →
  rest st = tiles_from s → cost st = cost_from s →
  polled ready st m (turns' (S (S n)) ready (start_chunk_load samples request_series window shape s) m1).
Proof.
  intros Hs Hc Hcap Ha Hrest Hcost. destruct (start_ok s Hs Hc) as ((len & r2s & items & cs & Hst) & Hok & Hheld & Hr & Hco). cbv zeta in *.
  set (st1 := start_chunk_load samples request_series window shape s) in *.
  assert (Hpoll : polled ready st1 m1 (turns' (S (S n)) ready st1 m1)).
  { pose proof (proj1 Ha) as Hl. rewrite <- Hheld in Hl. rewrite <- (proj1 (proj2 Ha)) in Hcap. rewrite Hst in *. by apply load_polled. }
  destruct Hpoll as (st' & m2 & p & Hp & Hok' & Ha2 & Hpost). exists st', m2, p. split; [done|]. split; [done|].
  rewrite Hheld in Ha2. split; [by eapply accounted_trans|]. rewrite Hr, Hco, <- ?Hrest, <- ?Hcost, (proj1 (proj2 Ha)) in Hpost. done.
Qed.

(** one poll returns, keeps the invariant and the ledger, and emits the next tile or says why not *)
Lemma leaf_poll ready st m :
  state_ok st → ledger m (held st) → cap_ok (cap m) →
  polled ready st m (next samples request_series step_count window shape new_cursors build ready st m).
Proof.
  intros Hok Hl Hcap. unfold next. fold turns'. destruct st as [|s len r2s items cs|s len cs cur k| | |]; [| | | | |done].
  - rewrite turns_unfold. cbn [turn]. unfold total_series. fold total. destruct (Nat.eqb_spec total 0) as [Ht|Ht].
    { cbn [orb]. eexists _, m, _. split; [reflexivity|]. split; [done|]. split; [by apply accounted_refl|]. split; [|done]. apply tiles_from_end. lia. }
    destruct (Nat.eqb_spec step_count 0) as [Hc|Hc]; cbn [orb].
    { eexists _, m, _. split; [reflexivity|]. split; [done|]. split; [by apply accounted_refl|]. split; [|done].
      unfold rest, tiles_from. rewrite (bind_same _ _ (λ _, [])), bind_nil; [done|]. intros. apply step_tiles_end. lia. }
    apply started_polled; [lia|lia|done|by apply accounted_refl|done|done].
  - by apply load_polled.
  - destruct (decide (k < step_count)%nat) as [Hk|Hk]; [by apply emit_polled|]. destruct Hok as (Hs & Hc & -> & Hk' & Hh & _).
    pose proof (chunk_end_bounds s Hs) as Hb. rewrite turns_unfold. cbn [turn]. rewrite (proj2 (Nat.leb_le _ _)) by lia. cbv zeta.
    replace (s + (chunk_end s - s))%nat with (chunk_end s) by lia. unfold total_series. fold total.
    assert (Hrest : rest (Emitting s (chunk_end s - s) cs cur k) = tiles_from (chunk_end s)) by (cbn; by rewrite step_tiles_end by lia).
    destruct (Nat.leb_spec total (chunk_end s)) as [Hd|Hd].
    + eexists _, _, _. split; [reflexivity|]. split; [done|]. split; [by apply accounted_release|]. split; [|done]. rewrite Hrest. by apply tiles_from_end.
    + apply started_polled; [done|done|done|by apply accounted_release|done|]. cbn [cost]. rewrite step_tiles_end by lia. done.
  - eexists _, m, _. split; [reflexivity|]. split; [done|]. split; [by apply accounted_refl|]. done.
  - eexists _, m, _. split; [reflexivity|]. split; [done|]. split; [by apply accounted_refl|]. done.
Qed.

(** ** Sequences of polls *)

(** polls with the number of events each finds; between two polls others may use the ledger *)
Inductive run : State (Cur := Cur) → list (nat * Poll (option (res QueryError Batch))) → State (Cur := Cur) → Prop :=
| run_nil st : run st [] st
| run_poll st ready m st1 m1 p outs st' :
    ledger m (held st) → cap_ok (cap m) →
    next samples request_series step_count window shape new_cursors build ready st m = Some (st1, m1, p) →
    run st1 outs st' → run st ((ready, p) :: outs) st'.

Definition emitted (outs : list (nat * Poll (option (res QueryError Batch)))) : list Batch :=
  omap (λ o, match o.2 with Ready (Some (Ok b)) => Some b | _ => None end) outs.

Definition is_failure (o : nat * Poll (option (res QueryError Batch))) : bool :=
  match o.2 with Ready (Some (Err _)) | Ready (Some Panic) => true | _ => false end.

Definition is_end (o : nat * Poll (option (res QueryError Batch))) : bool := match o.2 with Ready None => true | _ => false end.

Lemma run_ended st outs st' :
  st = Errored ∨ st = Done → run st outs st' → emitted outs = [] ∧ forallb is_end outs = true ∧ (st' = Errored ∨ st' = Done).
Proof.
  intros Hst Hrun. induction Hrun as [|st ready m st1 m1 p outs st' Hl Hcap Hn Hrun IH]; [done|].
  assert (st1 = Done ∧ p = Ready None) as [-> ->] by (destruct Hst; subst; cbn in Hn; by simplify_eq).
  destruct IH as (H1 & H2 & H3); [by right|]. done.
Qed.

(** the batches of a run show the first tiles; when it ends without a failure, all of them *)
Lemma run_shows st outs st' :
  state_ok st → run st outs st' →
  ∃ shown, shown `prefix_of` rest st ∧ Forall2 (λ t b, Shows t.1 t.2 b) shown (emitted outs) ∧
    Forall (λ o : nat * Poll (option (res QueryError Batch)), o.2 ≠ Ready (Some Panic)) outs ∧
    (existsb is_failure outs = false → existsb is_end outs = true → shown = rest st).
Proof.
  intros Hok Hrun. induction Hrun as [st|st ready m st1 m1 p outs st' Hl Hcap Hn Hrun IH].
  { exists []. split; [apply prefix_nil|]. split; [constructor|]. split; [constructor|]. done. }
  destruct (leaf_poll ready st m Hok Hl Hcap) as (st2 & m2 & p2 & Hn2 & Hok2 & _ & Hpost). rewrite Hn in Hn2. injection Hn2 as <- <- <-.
  destruct (IH Hok2) as (shown & Hpre & Hsh & Hnp & Hall). destruct p as [|[[b|e|]|]].
  - destruct Hpost as [Hr _]. rewrite <- Hr. exists shown. split_and!; [done|done|by constructor|done].
  - destruct Hpost as (s & k & Hr & Hs & _). rewrite Hr. exists ((s, k) :: shown). split_and!.
    + by apply prefix_cons.
    + by constructor.
    + by constructor.
    + cbn. intros Hf He. by rewrite Hall.
  - destruct Hpost as [-> _]. destruct (run_ended Errored outs st') as (He & _); [by left|done|]. exists []. split_and!.
    + apply prefix_nil.
    + cbn. unfold emitted in *. cbn. rewrite He. constructor.
    + by constructor.
    + done.
  - done.
  - destruct Hpost as [Hr ->]. destruct (run_ended Done outs st') as (He & _); [by right|done|]. exists []. rewrite Hr. split_and!.
    + done.
    + unfold emitted in *. cbn. rewrite He. constructor.
    + by constructor.
    + done.
Qed.

(** polls that each find an event end *)
Lemma run_ends st outs st' :
  state_ok st → run st outs st' → Forall (λ o, (0 < o.1)%nat) outs → (cost st < length outs)%nat →
  existsb is_end outs = true ∨ existsb is_failure outs = true.
Proof.
  intros Hok Hrun. induction Hrun as [st|st ready m st1 m1 p outs st' Hl Hcap Hn Hrun IH]; intros Hr Hlen; [cbn in Hlen; lia|].
  apply Forall_cons in Hr as [Hr0 Hr]. cbn [fst length] in *.
  destruct (leaf_poll ready st m Hok Hl Hcap) as (st2 & m2 & p2 & Hn2 & Hok2 & _ & Hpost). rewrite Hn in Hn2. injection Hn2 as <- <- <-.
  cbn [existsb]. destruct p as [|[[b|e|]|]]; [| |by right|done|by left].
  - destruct Hpost as [_ Hc]. specialize (Hc Hr0). cbn. apply IH; [done|done|lia].
  - destruct Hpost as (s & k & _ & _ & Hc). cbn. apply IH; [done|done|lia].
Qed.
Definition tile_covers (K I : nat) (t : nat * nat) : Prop :=
  (t.1 ≤ I < chunk_end t.1)%nat ∧ (t.2 ≤ K < step_end t.2)%nat.

#[global] Instance tile_covers_dec K I t : Decision (tile_covers K I t).
Proof. unfold tile_covers. apply _. Defined.

(** every cell is in exactly one tile *)
Lemma tiles_cover K I :
  (K < step_count)%nat → (I < total)%nat →
  ∃ t, filter (tile_covers K I) (tiles_from 0) = [t] ∧ tile_covers K I t.
Proof.
  intros HK HI. destruct (starts_cover (total) 0 (total) (series_chunk shape) I) as (s & Hs & Hsr & Hsu); [done|lia|lia|].
  destruct (starts_cover step_count 0 step_count (step_chunk shape) K) as (k & Hk & Hkr & Hku); [done|lia|lia|].
  assert (Hcov : tile_covers K I (s, k)) by (unfold tile_covers, chunk_end, step_end; cbn; lia).
  exists (s, k). split; [|done].
  assert (Hin : ∀ t, t ∈ tiles_from 0 ↔
     t.1 ∈ starts (total) 0 (total) (series_chunk shape) ∧ t.2 ∈ starts step_count 0 step_count (step_chunk shape)).
  { intros [s' k']. unfold tiles_from. rewrite list_elem_of_bind. setoid_rewrite list_elem_of_fmap. cbn. split.
    - intros (s0 & (k0 & [= -> ->] & ?) & ?). done.
    - intros [? ?]. exists s'. eauto. }
  assert (Hnd : NoDup (tiles_from 0)).
  { unfold tiles_from. apply NoDup_bind; [|intros s0 _; apply NoDup_fmap_2; [intros ?? [= ->]; done|by apply starts_nodup]|by apply starts_nodup].
    intros s1 s2 t _ _ (k1 & -> & _)%list_elem_of_fmap (k2 & [= -> _] & _)%list_elem_of_fmap. done. }
  apply Permutation_singleton_r, NoDup_Permutation; [by apply NoDup_filter|apply NoDup_singleton|].
  intros t. rewrite list_elem_of_filter, Hin, list_elem_of_singleton. split.
  - intros [[H1 H2] [H3 H4]]. destruct t as [s' k']. cbn in *. f_equal; [by apply Hsu|by apply Hku].
  - intros ->. done.
Qed.

(** what a run from the start emits, for a [covers] that says which cells a batch has *)
Lemma run_exact (covers : nat → nat → Batch → Prop) `{!∀ K I b, Decision (covers K I b)} outs st' :
  (∀ s k b, Shows s k b → ∀ K I, covers K I b ↔ tile_covers K I (s, k)) → run Init outs st' →
  Forall (λ o, o.2 ≠ Ready (Some Panic)) outs ∧
  (∀ b, b ∈ emitted outs → ∃ s k, Shows s k b) ∧
  (existsb is_failure outs = false → existsb is_end outs = true →
   ∀ K I, (K < step_count)%nat → (I < total)%nat →
   ∃ s k b, filter (covers K I) (emitted outs) = [b] ∧ Shows s k b ∧ tile_covers K I (s, k)) ∧
  (Forall (λ o, (0 < o.1)%nat) outs → (cost Init < length outs)%nat → existsb is_end outs = true ∨ existsb is_failure outs = true).
Proof.
  intros Hcovers Hrun. assert (Hok : state_ok Init) by done. destruct (run_shows Init outs st' Hok Hrun) as (shown & Hpre & Hsh & Hnp & Hall).
  split; [done|]. split; [|split].
  - intros b Hb. apply (Forall2_elem_r _ _ _ _ Hsh) in Hb as ([s k] & _ & Hs). eauto.
  - intros Hf He K I HK HI. rewrite (Hall Hf He) in Hsh. destruct (tiles_cover K I HK HI) as ([s k] & Ht & Hcov).
    assert (Hfil : Forall2 (λ t b, Shows t.1 t.2 b) [(s, k)] (filter (covers K I) (emitted outs))).
    { rewrite <- Ht. apply Forall2_filter_iff; [|done]. intros [s' k'] b Hb. symmetry. by apply Hcovers. }
    inversion Hfil as [|? b ? l Hb Hl]; subst. inversion Hl; subst. by exists s, k, b.
  - by apply run_ends with (st' := st').
Qed.
End machine.

(** ** Windows of a column *)
Definition in_order (col : column) : Prop := StronglySorted (λ a b : Z * Z, a.1 ≤ b.1) col.

Abbreviation upto hi := (filter (λ p : Z * Z, p.1 ≤ hi)).

(** samples before the cursor are within the bound *)
Definition behind (col : column) (c : nat) (bound : Z) : Prop := (c ≤ length col)%nat ∧ Forall (λ p : Z * Z, p.1 ≤ bound) (take c col).

Lemma behind_le col c b b' : b ≤ b' → behind col c b → behind col c b'.
Proof. intros Hb [Hc Hf]. split; [done|]. eapply Forall_impl; [exact Hf|]. cbn. lia. Qed.

Lemma advance_while_spec col c bound :
  in_order col → behind col c bound →
  let c' := advance_while (drop c col.*1) c bound in
  (c ≤ c' ≤ length col)%nat ∧ take c' col = upto bound col ∧ behind col c' bound.
Proof.
  intros Hs. remember (length col - c)%nat as n eqn:En. revert c En. induction n as [|n IH]; intros c En [Hc Hf]; cbv zeta.
  - rewrite drop_ge by (rewrite length_fmap; lia). cbn [advance_while]. rewrite (take_ge col) in Hf by lia.
    split; [lia|]. split; [rewrite take_ge by lia; by rewrite filter_all|]. split; [lia|]. by rewrite take_ge by lia.
  - destruct (lookup_lt_is_Some_2 col c) as [p Hp]; [lia|].
    rewrite <- fmap_drop, (drop_S _ _ _ Hp), fmap_cons. cbn [advance_while]. destruct (Z.leb_spec p.1 bound) as [Hle|Hgt].
    + rewrite fmap_drop. destruct (IH (S c)) as (H1 & H2 & H3); [lia| |split; [lia|done]].
      split; [apply lookup_lt_Some in Hp; lia|]. rewrite (take_S_r _ _ _ Hp). apply Forall_app. split; [done|]. by constructor.
    + split; [lia|]. split; [|done]. rewrite <- (take_drop c col) at 2. rewrite filter_app, (filter_all _ (take c col)) by done.
      rewrite (filter_none _ (drop c col)); [by rewrite app_nil_r|]. rewrite (drop_S _ _ _ Hp).
      pose proof Hs as Hs'. rewrite <- (take_drop c col), (drop_S _ _ _ Hp) in Hs'. apply StronglySorted_app_inv in Hs' as (_ & Hs' & _).
      apply StronglySorted_inv in Hs' as [_ Hall]. constructor; [lia|]. eapply Forall_impl; [exact Hall|]. cbn. lia.
Qed.

(** the value of a window: its latest sample, unless that one is stale *)
Definition instant (lo hi : Z) (col : column) : option (Z * Z) :=
  match last (upto hi col) with
  | Some (t, v) => if (lo <? t) && negb (is_stale_nan v) then Some (t, v) else None
  | None => None
  end.

(** ** Buffers of a batch *)
Definition buf_shows (n : nat) (buf : BatchBuffers) (cells : nat → option (Z * Z)) : Prop :=
  length (bb_values buf) = n ∧ length (bb_source_timestamps buf) = n ∧ bits_ok (bb_validity buf) ∧ bs_len (bb_validity buf) = n ∧
  ∀ i, (i < n)%nat → bit_at (bb_validity buf) i = bool_decide (is_Some (cells i)) ∧
    ∀ t v, cells i = Some (t, v) → bb_values buf !! i = Some v ∧ bb_source_timestamps buf !! i = Some t.

Lemma buf_shows_ext n buf f g : buf_shows n buf f → (∀ i, (i < n)%nat → f i = g i) → buf_shows n buf g.
Proof. intros (? & ? & ? & ? & H) Hfg. split_and!; try done; intros; rewrite <- Hfg by done; by apply H. Qed.

Lemma fill_cell_spec n buf cells cell t v :
  buf_shows n buf cells → (cell < n)%nat →
  ∃ buf', fill_cell buf cell t v = Ok buf' ∧ buf_shows n buf' (λ i, if decide (i = cell) then Some (t, v) else cells i).
Proof.
  intros (H1 & H2 & H3 & H4 & H5) Hc. unfold fill_cell.
  destruct (lookup_lt_is_Some_2 (bb_values buf) cell) as [x Hx]; [lia|]. rewrite Hx. cbn [expect res_bind].
  destruct (bit_set_spec (E := QueryError) (bb_validity buf) cell H3) as (b' & Hb & Hok & Hlen & Hat); [lia|]. rewrite Hb. cbn [res_bind].
  eexists. split; [done|]. split_and!; cbn [bb_values bb_source_timestamps bb_validity]; try (by rewrite length_insert); try done; [lia|].
  intros i Hi. rewrite Hat. destruct (H5 i Hi) as [Hv Hs]. split; [case_decide; [by rewrite bool_decide_true by eauto|done]|].
  intros t' v'. case_decide as Hd; [intros [= <- <-]; subst; by rewrite !list_lookup_insert_eq by lia|].
  rewrite !list_lookup_insert_ne by done. apply Hs.
Qed.

Lemma fill_series_spec n buf cells cell col c lo hi :
  buf_shows n buf cells → (cell < n)%nat → cells cell = None → take c col = upto hi col → (c ≤ length col)%nat →
  ∃ buf', fill_series col.*1 col.*2 c lo cell buf = Ok buf' ∧
          buf_shows n buf' (λ i, if decide (i = cell) then instant lo hi col else cells i).
Proof.
  intros Hb Hc Hn Ht Hl. unfold fill_series, instant. rewrite <- Ht.
  assert (Hskip : buf_shows n buf (λ i, if decide (i = cell) then None else cells i)).
  { eapply buf_shows_ext; [exact Hb|]. intros i _. cbn. by case_decide as Hd; [rewrite Hd|]. }
  destruct (Nat.eqb_spec c 0) as [->|Hc0]; [by exists buf|].
  destruct (lookup_lt_is_Some_2 col (c - 1)) as [[t v] Hp]; [lia|]. rewrite !list_lookup_fmap, Hp. cbn [fmap option_fmap option_map fst snd expect res_bind].
  assert (Hlast : last (take c col) = Some (t, v)).
  { rewrite last_lookup, length_take, lookup_take_lt by lia. rewrite <- Hp. f_equal. lia. }
  rewrite Hlast. rewrite Z.ltb_antisym. destruct (t <=? lo); [by exists buf|]. cbn [negb andb].
  destruct (is_stale_nan v); [by exists buf|]. by apply fill_cell_spec.
Qed.

Lemma fill_row_spec n lo hi prev cols cursors cell buf cells :
  prev ≤ hi → Forall in_order cols → Forall2 (λ col c, behind col c prev) cols cursors → buf_shows n buf cells →
  (cell + length cols ≤ n)%nat → (∀ i, (cell ≤ i < cell + length cols)%nat → cells i = None) →
  ∃ cursors' buf',
    fill_row lo hi cell ((fmap fst : column → list Z) <$> cols) ((fmap snd : column → list Z) <$> cols) cursors buf = Ok (cursors', buf') ∧
    Forall2 (λ col c, behind col c hi) cols cursors' ∧
    buf_shows n buf' (λ i, if decide (cell ≤ i < cell + length cols)%nat then instant lo hi (default [] (cols !! (i - cell)%nat)) else cells i).
Proof.
  intros Hp Ho Hc. revert cell buf cells Ho. induction Hc as [|col c cols cursors Hbc Hc IH]; intros cell buf cells Ho Hb Hl Hn; cbn [fill_row fmap list_fmap].
  { exists [], buf. split; [done|]. split; [constructor|]. eapply buf_shows_ext; [exact Hb|]. intros i _. cbn. by rewrite decide_False by lia. }
  apply Forall_cons in Ho as [Ho1 Ho]. cbn [length] in *.
  destruct (advance_while_spec col c hi Ho1 (behind_le _ _ _ _ Hp Hbc)) as (H1 & H2 & H3). set (c' := advance_while _ _ _) in *.
  destruct (fill_series_spec n buf cells cell col c' lo hi Hb) as (buf1 & -> & Hb1); [lia|apply Hn; lia|done|lia|]. cbn [res_bind].
  destruct (IH (S cell) buf1 (λ i, if decide (i = cell) then instant lo hi col else cells i)) as (cursors' & buf' & -> & Hc' & Hb');
    [done|done|lia| |].
  { intros i Hi. cbn. rewrite decide_False by lia. apply Hn. lia. }
  cbn [res_bind]. exists (c' :: cursors'), buf'. split; [done|]. split; [by constructor|]. eapply buf_shows_ext; [exact Hb'|]. intros i _. cbn beta.
  destruct (decide (i = cell)) as [->|Hne].
  - rewrite decide_False by lia. rewrite decide_True by lia. by rewrite Nat.sub_diag.
  - destruct (decide (S cell ≤ i < S cell + length cols)%nat); [|by rewrite decide_False by lia].
    rewrite decide_True by lia. replace (i - cell)%nat with (S (i - S cell)) by lia. done.
Qed.

Lemma sorted_next (l : list Z) k a b : StronglySorted Z.le l → l !! k = Some a → l !! S k = Some b → a ≤ b.
Proof.
  intros Hs. revert k. induction Hs as [|x l Hl IH Hx]; intros k Ha Hb; [done|]. destruct k as [|k]; cbn in *; [|by eapply IH].
  injection Ha as <-. rewrite Forall_forall in Hx. by apply Hx, list_elem_of_lookup_2 with 0%nat.
Qed.

Section rows.
Context (times : list Z) (rg : Z) (cols : list column) (cs : ChunkSamples).
Context (Hcs : holds cs cols) (Ho : Forall in_order cols) (Hne : (0 < length cols)%nat).
Let L : nat := length cols.

Definition time_at (k : nat) : Z := times !!! k.
Definition window_lo (k : nat) : Z := i64_sat (time_at k - rg).

Lemma row_of i q r : (r < L)%nat → i = (q * L + r)%nat → (i / L = q ∧ i mod L = r)%nat.
Proof.
  intros Hr ->. split; [rewrite Nat.div_add_l by lia; rewrite Nat.div_small by done; lia|].
  rewrite Nat.add_comm, Nat.Div0.mod_add. by apply Nat.mod_small.
Qed.

(** the cells of the rows from [off], which are the steps from [k] *)
Definition cells_from (off cnt k : nat) (cells : nat → option (Z * Z)) (i : nat) : option (Z * Z) :=
  if decide (off * L ≤ i < (off + cnt) * L)%nat
  then instant (window_lo (k + (i / L - off))) (time_at (k + (i / L - off))) (default [] (cols !! (i mod L)%nat))
  else cells i.

Lemma fill_rows_spec n cnt k off cursors buf cells prev :
  StronglySorted Z.le times → (k + cnt ≤ length times)%nat → ((0 < cnt)%nat → prev ≤ time_at k) →
  Forall2 (λ col c, behind col c prev) cols cursors → buf_shows n buf cells → ((off + cnt) * L ≤ n)%nat →
  (∀ i, (off * L ≤ i < (off + cnt) * L)%nat → cells i = None) →
  ∃ buf', fill_rows times rg L cs (seq k cnt) off cursors buf = Ok buf' ∧ buf_shows n buf' (cells_from off cnt k cells).
Proof.
  intros Hs. revert k off cursors buf cells prev. induction cnt as [|cnt IH]; intros k off cursors buf cells prev Hk Hprev Hc Hb Hn Hnone; cbn [seq fill_rows].
  { exists buf. split; [done|]. eapply buf_shows_ext; [exact Hb|]. intros i _. unfold cells_from. by rewrite decide_False by nia. }
  destruct (lookup_lt_is_Some_2 times k) as [t Ht]; [lia|]. rewrite Ht. cbn [expect res_bind].
  assert (Htk : time_at k = t) by (by apply list_lookup_total_correct).
  destruct Hcs as [-> ->]. rewrite Htk in Hprev.
  destruct (fill_row_spec n (i64_sat (t - rg)) t prev cols cursors (off * L) buf cells) as (cursors' & buf1 & -> & Hc' & Hb1);
    [apply Hprev; lia|done|done|done|fold L; nia|intros i Hi; apply Hnone; fold L in Hi; nia|]. cbn [res_bind].
  pose proof (λ H1 H2, IH (S k) (S off) cursors' buf1 _ t H1 H2 Hc' Hb1) as IH'.
  destruct IH' as (buf' & Hf & Hb'); [lia| |nia| |].
  { intros Hcnt. destruct (lookup_lt_is_Some_2 times (S k)) as [t' Ht']; [lia|]. unfold time_at. rewrite (list_lookup_total_correct _ _ _ Ht').
    by eapply sorted_next. }
  { intros i Hi. cbn beta. rewrite decide_False by (fold L; nia). apply Hnone. nia. }
  exists buf'. split; [done|]. eapply buf_shows_ext; [exact Hb'|]. intros i _. unfold cells_from. fold L.
  destruct (decide (S off * L ≤ i < (S off + cnt) * L)%nat) as [Hi|Hi].
  - rewrite decide_True by nia. assert (S off ≤ i / L)%nat by (apply Nat.div_le_lower_bound; nia).
    by replace (S k + (i / L - S off))%nat with (k + (i / L - off))%nat by lia.
  - destruct (decide (off * L ≤ i < off * L + L)%nat) as [Hj|Hj]; [|by rewrite decide_False by nia].
    rewrite decide_True by nia. destruct (row_of i off (i - off * L)) as [-> ->]; [lia|lia|].
    rewrite Nat.sub_diag, Nat.add_0_r. unfold window_lo. by rewrite Htk.
Qed.
End rows.

(** ** VectorSelectorOp *)

Lemma i64_sat_mono a b : a ≤ b → i64_sat a ≤ i64_sat b.
Proof. unfold i64_sat. lia. Qed.

(** a grid whose last step is an [i64] *)
Definition grid_ok (g : StepGrid) : Prop :=
  in_i 64 (g_start_ms g) ∧ 0 < g_step_ms g ∧ g_start_ms g + (Z.of_nat (g_step_count g) - 1) * g_step_ms g ≤ i64_max.

Lemma as_signed_id z : in_i 64 z → as_signed 64 z = z.
Proof.
  unfold as_signed, wrap, in_i. intros H. case_bool_decide as Hb.
  - destruct (decide (0 ≤ z)); [rewrite Z.mod_small in * by lia; done|].
    exfalso. revert Hb. replace (z mod 2 ^ 64) with (z + 2 ^ 64) by (apply Z.mod_unique with (-1); lia). lia.
  - destruct (decide (0 ≤ z)); [rewrite Z.mod_small in Hb by lia; lia|].
    replace (z mod 2 ^ 64) with (z + 2 ^ 64) by (apply Z.mod_unique with (-1); lia). lia.
Qed.

Lemma step_timestamp_at g k : grid_ok g → (k < g_step_count g)%nat →
  step_timestamps g !! k = Some (g_start_ms g + Z.of_nat k * g_step_ms g).
Proof.
  intros (H1 & H2 & H3) Hk. unfold step_timestamps. rewrite list_lookup_fmap, lookup_seq_lt by done. cbn. f_equal. apply as_signed_id.
  unfold in_i in *. unfold i64_max in H3. split; nia.
Qed.

Lemma sorted_of_lookup (l : list Z) :
  (∀ i j a b, (i < j)%nat → l !! i = Some a → l !! j = Some b → a ≤ b) → StronglySorted Z.le l.
Proof.
  induction l as [|x l IH]; intros H; [constructor|]. constructor.
  - apply IH. intros i j a b Hij Ha Hb. by apply (H (S i) (S j)); [lia| |].
  - apply Forall_forall. intros y [i Hi]%list_elem_of_lookup. by apply (H 0%nat (S i)); [lia| |].
Qed.

(** the evaluation times do not go back *)
Lemma times_sorted op : grid_ok (lo_grid op) → StronglySorted Z.le (lo_times op).
Proof.
  intros Hg. apply sorted_of_lookup. unfold lo_times, compute_times. intros i j a b Hij.
  rewrite !list_lookup_fmap. intros (ta & Ha & ->)%fmap_Some (tb & Hb & ->)%fmap_Some. apply i64_sat_mono.
  assert (ta ≤ tb); [|lia]. destruct (lo_at op) as [[pin| |]|].
  1-3: apply lookup_replicate in Ha as [-> _]; apply lookup_replicate in Hb as [-> _]; done.
  pose proof (lookup_lt_Some _ _ _ Hb) as Hl. unfold step_timestamps in Hl. rewrite length_fmap, length_seq in Hl.
  rewrite step_timestamp_at in Ha, Hb by (done || lia). simplify_eq. destruct Hg as (_ & ? & _). nia.
Qed.

Lemma times_length op : length (lo_times op) = g_step_count (lo_grid op).
Proof.
  unfold lo_times, compute_times. rewrite length_fmap. assert (length (step_timestamps (lo_grid op)) = g_step_count (lo_grid op)).
  { unfold step_timestamps. by rewrite length_fmap, length_seq. }
  destruct (lo_at op) as [[]|]; by rewrite ?length_replicate.
Qed.

(** the samples of a series of an operator, in the window it asks for *)
Definition op_window (op : LeafOp) : TimeRange := time_range_with (lo_times op) (lo_rg op).
Definition op_data (data : TimeRange → ResolvedSeriesRef → column) (op : LeafOp) (I : nat) : column :=
  series_data data (op_window op) (lo_request_series op !!! I).

Definition op_ok (op : LeafOp) : Prop :=
  (0 < step_chunk (lo_shape op))%nat ∧ (0 < series_chunk (lo_shape op))%nat ∧ grid_ok (lo_grid op).

Definition data_ok (data : TimeRange → ResolvedSeriesRef → column) (op : LeafOp) : Prop :=
  ∀ I, (I < length (lo_request_series op))%nat → in_order (op_data data op I).

Section leaf_op.
Context (data : TimeRange → ResolvedSeriesRef → column) (op : LeafOp) (Hop : op_ok op) (Hd : data_ok data op).

Abbreviation chunk_end' := (chunk_end (lo_request_series op) (lo_shape op)).
Abbreviation step_end' := (step_end (g_step_count (lo_grid op)) (lo_shape op)).
Abbreviation chunk_data' := (chunk_data data (lo_request_series op) (op_window op) (lo_shape op)).

Lemma chunk_data_length s : (s < length (lo_request_series op))%nat → length (chunk_data' s) = (chunk_end' s - s)%nat.
Proof.
  intros Hs. unfold chunk_data. rewrite length_fmap, length_take, length_drop. unfold chunk_end. lia.
Qed.

Lemma chunk_data_lookup s j : (s < length (lo_request_series op))%nat → (j < chunk_end' s - s)%nat →
  chunk_data' s !! j = Some (op_data data op (s + j)).
Proof.
  intros Hs Hj. unfold chunk_data. rewrite list_lookup_fmap, lookup_take_lt, lookup_drop by done. unfold op_data.
  destruct (lookup_lt_is_Some_2 (lo_request_series op) (s + j)) as [refs Hr]; [unfold chunk_end in Hj; lia|].
  rewrite (list_lookup_total_correct _ _ _ Hr), Hr. done.
Qed.

Lemma chunk_data_sorted s : (s < length (lo_request_series op))%nat → Forall in_order (chunk_data' s).
Proof.
  intros Hs. apply Forall_lookup. intros j col Hj. pose proof (lookup_lt_Some _ _ _ Hj) as Hl. rewrite chunk_data_length in Hl by done.
  rewrite chunk_data_lookup in Hj by done. injection Hj as <-. apply Hd. unfold chunk_end in Hl. lia.
Qed.

(** the cell of a step and a series: the latest sample within the lookback, unless it is stale *)
Definition instant_at (K I : nat) : option (Z * Z) :=
  instant (window_lo (lo_times op) (lo_rg op) K) (time_at (lo_times op) K) (op_data data op I).

Definition instant_batch (s k : nat) (b : StepBatch) : Prop :=
  b_step_timestamps b = step_timestamps (lo_grid op) ∧ b_series b = Static (lo_schema op) ∧
  b_step_range b = mkRange k (step_end' k) ∧ b_series_range b = mkRange s (chunk_end' s) ∧
  ∀ K I, (k ≤ K < step_end' k)%nat → (s ≤ I < chunk_end' s)%nat →
    batch_get (E := QueryError) b (K - k) (I - s) = Ok (snd <$> instant_at K I) ∧
    ∀ t v, instant_at K I = Some (t, v) → ∃ ts, b_source_timestamps b = Some ts ∧ ts !! cell_index b (K - k) (I - s) = Some t.

Lemma empty_buffers n : buf_shows n (mkBuffers (replicate n F64_NAN) (with_len n) (replicate n 0)) (λ _, None).
Proof.
  split_and!; cbn [bb_values bb_source_timestamps bb_validity]; try (by rewrite length_replicate); [apply with_len_ok|done|].
  intros i _. rewrite with_len_at. done.
Qed.

Lemma cell_bytes_nonneg n : 0 ≤ cell_bytes n.
Proof. unfold cell_bytes, usize_add. pose proof (usize_mul_nonneg (Z.of_nat n) 8). pose proof (usize_mul_nonneg (Z.of_nat (word_count n)) 8). unfold USIZE_MAX, u_max. lia. Qed.

(** a batch made of filled buffers shows the cells *)
Lemma buf_batch s k buf :
  (s < length (lo_request_series op))%nat → (k < g_step_count (lo_grid op))%nat →
  let L := length (chunk_data' s) in
  buf_shows ((step_end' k - k) * L) buf
    (cells_from (lo_times op) (lo_rg op) (chunk_data' s) 0 (step_end' k - k) k (λ _, None)) →
  instant_batch s k
    (with_source_timestamps
       (batch_new (step_timestamps (lo_grid op)) (mkRange k (step_end' k)) (Static (lo_schema op)) (mkRange s (s + L))
          (bb_values buf) (bb_validity buf)) (bb_source_timestamps buf)).
Proof.
  intros Hs Hk L (H1 & H2 & H3 & H4 & H5). destruct Hop as (Hst & Hse & _). assert (HL : L = (chunk_end' s - s)%nat) by (by apply chunk_data_length).
  assert (Hcb : (s < chunk_end' s)%nat) by (unfold chunk_end; lia).
  split_and!; cbn; [done|done|done|by replace (s + L)%nat with (chunk_end' s) by lia|]. intros K I HK HI.
  unfold batch_get, cell_index, series_count, range_len. cbn [b_series_range b_validity b_values b_source_timestamps r_end r_start with_source_timestamps batch_new].
  replace (s + L - s)%nat with L by lia. set (idx := ((K - k) * L + (I - s))%nat). assert (Hidx : (idx < (step_end' k - k) * L)%nat) by (subst idx; nia).
  destruct (row_of (chunk_data' s) ltac:(fold L; lia) idx (K - k) (I - s)) as [Hq Hr]; [fold L; lia|done|]. fold L in Hq, Hr.
  assert (Hcell : cells_from (lo_times op) (lo_rg op) (chunk_data' s) 0 (step_end' k - k) k (λ _, None) idx = instant_at K I).
  { unfold cells_from. fold L. rewrite decide_True by lia. rewrite Hq, Hr, (chunk_data_lookup s (I - s)) by lia. unfold instant_at. cbn [default from_option].
    replace (k + (K - k - 0))%nat with K by lia. by replace (s + (I - s))%nat with I by lia. }
  destruct (H5 idx Hidx) as [Hv Hs']. rewrite Hcell in Hv, Hs'. rewrite bit_get_spec by (done || (cbn; rewrite H4; lia)). cbn [res_bind]. rewrite Hv. split.
  - destruct (instant_at K I) as [[t v]|] eqn:E.
    + rewrite bool_decide_true by eauto. destruct (Hs' t v eq_refl) as [-> _]. done.
    + rewrite bool_decide_false by (by intros [? ?]). done.
  - intros t v Ht. destruct (Hs' t v Ht) as [_ Hst']. eauto.
Qed.

Lemma vector_build_ok s cs cur k m :
  (s < length (lo_request_series op))%nat → (k < g_step_count (lo_grid op))%nat → holds cs (chunk_data' s) → mem_ok m →
  match vector_build (lo_schema op) (lo_grid op) (lo_times op) (lo_rg op) (lo_shape op) s (chunk_end' s - s) cs cur k m with
  | (m', Ok (b, adv, cur')) => instant_batch s k b ∧ adv = (step_end' k - k)%nat ∧ True ∧ accounted m 0 m' 0
  | (m', Err e) => accounted m 0 m' 0 ∧ ∃ bytes already, e = MemoryLimit bytes (cap m) already
  | (_, Panic) => False
  end.
Proof.
  intros Hs Hk Hh Hm. destruct Hop as (Hst & Hse & Hg).
  assert (Hcb : (s < chunk_end' s)%nat) by (unfold chunk_end; lia). assert (Hsb : (k < step_end' k ≤ g_step_count (lo_grid op))%nat) by (unfold step_end; lia).
  unfold vector_build, build_batch. cbv zeta. fold (step_end' k). set (cnt := (step_end' k - k)%nat). set (L := (chunk_end' s - s)%nat).
  assert (Hl0 : ledger m 0) by (split; [done|]; destruct Hm; lia).
  destruct (try_grow m _) as [m' r] eqn:Eg. pose proof (try_grow_grows m 0 _ _ _ Hl0 (cell_bytes_nonneg _) Eg) as Hgr.
  destruct r as [[]|e|]; [|destruct Hgr as [-> ->]; split; [by apply accounted_refl|eauto]|done]. destruct Hgr as [Ha Hb].
  rewrite Hb, Z.add_0_l in Ha. pose proof (accounted_trans _ _ _ _ _ _ Ha (accounted_release _ _ (proj1 Ha))) as Hacc.
  pose proof (chunk_data_length s Hs) as HL. fold L in HL.
  destruct (fill_rows_spec (lo_times op) (lo_rg op) (chunk_data' s) cs Hh (chunk_data_sorted s Hs) ltac:(lia) (cnt * L) cnt k 0 (replicate L 0%nat)
    (mkBuffers (replicate (cnt * L) F64_NAN) (with_len (cnt * L)) (replicate (cnt * L) 0)) (λ _, None) (time_at (lo_times op) k) (times_sorted op Hg) ltac:(rewrite times_length; lia) ltac:(done)) as (buf & Hf & Hbuf);
    [|apply empty_buffers|rewrite HL; lia|done|].
  { apply Forall2_same_length_lookup_2; [rewrite length_replicate; lia|]. intros i col c _ [-> _]%lookup_replicate. split; [lia|constructor]. }
  rewrite HL in Hf. rewrite Hf. cbn [res_bind]. split; [|split; [|split; [done|exact Hacc]]].
  - pose proof (buf_batch s k buf Hs Hk) as Hbb. cbv zeta in Hbb. rewrite HL in Hbb. by apply Hbb.
  - done.
Qed.
End leaf_op.

Definition batch_covers (K I : nat) (b : StepBatch) : Prop :=
  (r_start (b_step_range b) ≤ K < r_end (b_step_range b))%nat ∧ (r_start (b_series_range b) ≤ I < r_end (b_series_range b))%nat.

#[global] Instance batch_covers_dec K I b : Decision (batch_covers K I b).
Proof. unfold batch_covers. apply _. Defined.

(** polls of [VectorSelectorOp::next] *)
Definition vector_run (samples : SamplesRequest → list (res QueryError SampleBatch)) (op : LeafOp) :=
  run samples (lo_request_series op) (g_step_count (lo_grid op)) (op_window op) (lo_shape op) (λ _, tt)
    (vector_build (lo_schema op) (lo_grid op) (lo_times op) (lo_rg op) (lo_shape op)) (λ _, True).

(** over any sequence of polls, however the source's batches arrive and whatever others reserve in
    between, an instant vector selector never panics, the cells of every batch it emits are the latest sample of the
    series within the lookback of the step's time (none when that sample is stale), and when it ends without a failure every step of
    every series is in exactly one batch; polls that each find an event of the source end. *)
Lemma instant_vector_exact samples data op outs st' :
  Delivers samples data → op_ok op → data_ok data op → vector_run samples op Init outs st' →
  Forall (λ o, o.2 ≠ Ready (Some Panic)) outs ∧
  (∀ b, b ∈ emitted outs → ∃ s k, instant_batch data op s k b) ∧
  (existsb is_failure outs = false → existsb is_end outs = true →
   ∀ K I, (K < g_step_count (lo_grid op))%nat → (I < length (lo_request_series op))%nat →
   ∃ b, filter (batch_covers K I) (emitted outs) = [b] ∧
        batch_get (E := QueryError) b (K - r_start (b_step_range b)) (I - r_start (b_series_range b)) = Ok (snd <$> instant_at data op K I)) ∧
  (Forall (λ o, (0 < o.1)%nat) outs →
   (cost (Cur := unit) samples (lo_request_series op) (g_step_count (lo_grid op)) (op_window op) (lo_shape op) Init < length outs)%nat →
   existsb is_end outs = true ∨ existsb is_failure outs = true).
Proof.
  intros HD Hop Hd Hrun. pose proof Hop as (Hst & Hse & _). set (CurOk := λ (_ : nat) (_ : unit) (_ : nat), True).
  pose proof (λ s cs cur k m Hs Hk Hh (_ : CurOk s cur k) Hm (_ : True), vector_build_ok data op Hop Hd s cs cur k m Hs Hk Hh Hm) as Hbuild.
  destruct (run_exact samples data _ _ _ _ (λ _, tt) _ Hst Hse (instant_batch data op) CurOk (λ _, True) (λ _ _, Logic.I) Hbuild batch_covers outs st')
    as (H1 & H2 & H3 & H4); [|exact Hrun|].
  { intros s k b (_ & _ & Hb1 & Hb2 & _) K I. unfold batch_covers, tile_covers. rewrite Hb1, Hb2. cbn. tauto. }
  split; [done|]. split; [done|]. split; [|done]. intros Hf He K I HK HI. destruct (H3 Hf He K I HK HI) as (s & k & b & Hfil & Hb & HcI & HcK).
  exists b. split; [done|]. destruct Hb as (_ & _ & Hb1 & Hb2 & Hb3). rewrite Hb1, Hb2. by apply Hb3.
Qed.

(** ** MatrixSelectorOp *)

(** the samples of a window, in order, stale ones dropped *)
Abbreviation fresh := (filter (λ p : Z * Z, is_stale_nan p.2 = false)).
Abbreviation between lo hi := (filter (λ p : Z * Z, lo < p.1 ≤ hi)).
Definition range_window (lo hi : Z) (col : column) : column := fresh (between lo hi col).

Lemma take_upto_drop col c bound : take c col = upto bound col → Forall (λ p : Z * Z, bound < p.1) (drop c col).
Proof.
  intros H. rewrite <- (take_drop c col) in H at 2. rewrite filter_app in H.
  assert (Hall : Forall (λ p : Z * Z, p.1 ≤ bound) (take c col)).
  { rewrite H. apply Forall_app. split; apply Forall_forall; by intros ? [??]%list_elem_of_filter. }
  rewrite (filter_all _ (take c col)) in H by done. apply (f_equal length) in H. rewrite length_app in H.
  assert (Hz : upto bound (drop c col) = []) by (apply length_zero_iff_nil; lia).
  apply Forall_forall. intros p Hp. destruct (decide (p.1 ≤ bound)) as [Hle|]; [|lia]. exfalso.
  assert (p ∈ upto bound (drop c col)) by (by apply list_elem_of_filter). rewrite Hz in H0. by apply elem_of_nil in H0.
Qed.

(** a cursor covers what its last window needs *)
Definition cursor_ok (rg : Z) (col : column) (cur : SeriesCursor) : Prop :=
  (sc_lo cur ≤ sc_hi cur)%nat ∧ behind col (sc_lo cur) (i64_sat (sc_last_window_hi cur - rg)) ∧ behind col (sc_hi cur) (sc_last_window_hi cur).

Lemma cursor_new_ok rg col : cursor_ok rg col cursor_new.
Proof. unfold cursor_ok, behind. cbn. split_and!; (lia || constructor). Qed.

Lemma cursor_advance_spec rg col cur hi :
  0 ≤ rg → i64_min ≤ hi → in_order col → cursor_ok rg col cur →
  let '(cur', r) := advance cur col.*1 (i64_sat (hi - rg)) hi in
  cursor_ok rg col cur' ∧ (r_start r ≤ r_end r ≤ length col)%nat ∧
  take (range_len r) (drop (r_start r) col) = between (i64_sat (hi - rg)) hi col.
Proof.
  intros Hrg Hhi Ho (H1 & H2 & H3). unfold advance. set (lo := i64_sat (hi - rg)). assert (Hlo : lo ≤ hi) by (subst lo; unfold i64_sat, i64_min in *; lia).
  set (p := if hi <? sc_last_window_hi cur then (0, 0)%nat else (sc_lo cur, sc_hi cur)).
  assert (Hp : behind col p.1 lo ∧ behind col p.2 hi).
  { subst p. destruct (Z.ltb_spec hi (sc_last_window_hi cur)); cbn [fst snd]; [split; split; (lia || constructor)|].
    split; (eapply behind_le; [|done]); [apply i64_sat_mono|]; lia. }
  destruct p as [l0 h0]. cbn [fst snd] in Hp. destruct Hp as [Hp1 Hp2].
  destruct (advance_while_spec col l0 lo Ho Hp1) as (L1 & L2 & L3). set (l1 := advance_while (drop l0 col.*1) l0 lo) in *.
  set (h1 := if (h0 <? l1)%nat then l1 else h0). assert (Hh1 : (l1 ≤ h1)%nat ∧ behind col h1 hi).
  { subst h1. destruct (Nat.ltb_spec h0 l1); [|done]. split; [lia|]. by eapply behind_le. }
  destruct Hh1 as [Hl1 Hb1]. destruct (advance_while_spec col h1 hi Ho Hb1) as (R1 & R2 & R3). set (h2 := advance_while (drop h1 col.*1) h1 hi) in *.
  rewrite (proj2 (Nat.ltb_ge h2 l1)) by lia. split; [split_and!; cbn; [lia|done|done]|]. cbn [r_start r_end range_len]. split; [lia|].
  pose proof (take_upto_drop col l1 lo L2) as Dl. pose proof (take_upto_drop col h2 hi R2) as Dh.
  assert (Hsplit : col = take l1 col ++ take (h2 - l1) (drop l1 col) ++ drop h2 col).
  { rewrite <- (take_drop l1 col) at 1. f_equal. rewrite <- (take_drop (h2 - l1) (drop l1 col)) at 1. f_equal. rewrite drop_drop. f_equal. lia. }
  unfold range_len. cbn [r_start r_end]. rewrite Hsplit at 2. rewrite !filter_app.
  rewrite (filter_none _ (take l1 col)) by (destruct L3 as [_ L3]; eapply Forall_impl; [exact L3|]; cbn; lia).
  rewrite (filter_none _ (drop h2 col)) by (eapply Forall_impl; [exact Dh|]; cbn; lia). rewrite app_nil_r, app_nil_l. symmetry. apply filter_all.
  apply Forall_forall. intros q Hq. destruct R3 as [_ R3]. rewrite Forall_forall in Dl, R3. split.
  - apply Dl. by eapply elem_of_take in Hq as (? & ? & ?); eapply list_elem_of_lookup_2.
  - apply R3. assert (Hsub : q ∈ drop l1 (take h2 col)); [|by eapply subseteq_drop].
    replace (drop l1 (take h2 col)) with (take (h2 - l1) (drop l1 col)); [done|]. rewrite take_drop_commute. f_equal. f_equal. lia.
Qed.

Lemma pack_window_spec col r :
  (r_start r ≤ r_end r ≤ length col)%nat →
  pack_window col.*1 col.*2 (seq (r_start r) (range_len r)) = Ok (fresh (take (range_len r) (drop (r_start r) col))).
Proof.
  unfold range_len. destruct r as [s e]. cbn [r_start r_end]. remember (e - s)%nat as n eqn:En. revert s En.
  induction n as [|n IH]; intros s En Hr; cbn [seq pack_window]; [done|].
  destruct (lookup_lt_is_Some_2 col s) as [[t v] Hp]; [lia|]. rewrite !list_lookup_fmap, Hp, (drop_S _ _ _ Hp). cbn [fmap option_fmap option_map expect res_bind fst snd firstn].
  rewrite filter_cons. cbn [snd]. rewrite IH by lia. cbn [res_bind]. destruct (is_stale_nan v); [by rewrite decide_False|by rewrite decide_True].
Qed.

(** the cells that have been written hold their windows; the samples are counted *)
Definition win_shows (n : nat) (buf : WindowBuffers) (wins : nat → option column) : Prop :=
  length (wb_values buf) = length (wb_timestamps buf) ∧ length (wb_cells buf) = n ∧ 16 * blen (wb_timestamps buf) ≤ wb_bytes buf ∧
  ∀ i w, (i < n)%nat → wins i = Some w →
    ∃ c, wb_cells buf !! i = Some c ∧ slice_of (E := QueryError) (wb_timestamps buf) c = Ok w.*1 ∧
         slice_of (E := QueryError) (wb_values buf) c = Ok w.*2.

Lemma win_shows_ext n buf f g : win_shows n buf f → (∀ i, (i < n)%nat → f i = g i) → win_shows n buf g.
Proof. intros (? & ? & ? & H) Hfg. split_and!; try done. intros i w Hi Hw. rewrite <- Hfg in Hw by done. by apply H. Qed.

Lemma slice_of_app {A} (data extra r : list A) c : slice_of (E := QueryError) data c = Ok r → slice_of (E := QueryError) (data ++ extra) c = Ok r.
Proof.
  unfold slice_of. cbv zeta. destruct (Nat.leb_spec (Z.to_nat (c_offset c) + Z.to_nat (c_len c)) (length data)) as [Hl|Hl]; [|done].
  intros [= <-]. rewrite length_app. rewrite (proj2 (Nat.leb_le _ _)) by lia. rewrite drop_app_le, take_app_le by (rewrite ?length_drop; lia). done.
Qed.

Lemma slice_of_end {A} (data w : list A) : blen (data ++ w) < 2 ^ 32 →
  slice_of (E := QueryError) (data ++ w) (mkCell (wrap 32 (blen data)) (wrap 32 (blen w))) = Ok w.
Proof.
  unfold blen. rewrite length_app. intros H. unfold slice_of. cbn [c_offset c_len]. rewrite !wrap_small by (unfold in_u; lia). rewrite !Nat2Z.id, length_app.
  rewrite (proj2 (Nat.leb_le _ _)) by lia. rewrite drop_app_length, take_ge by lia. done.
Qed.

Definition small_cap (cap : Z) : Prop := cap < 2 ^ 36.

Lemma grow_samples_ok m buf extra :
  ledger m (wb_bytes buf) → small_cap (cap m) →
  match grow_samples m buf extra with
  | (m', Ok buf') => accounted m (wb_bytes buf) m' (wb_bytes buf') ∧ wb_bytes buf' = wb_bytes buf + 16 * Z.of_nat extra ∧
      wb_timestamps buf' = wb_timestamps buf ∧ wb_values buf' = wb_values buf ∧ wb_cells buf' = wb_cells buf
  | (m', Err e) => m' = m ∧ ∃ bytes, e = MemoryLimit bytes (cap m) (reserved m)
  | (_, Panic) => False
  end.
Proof.
  intros Hl Hcap. unfold grow_samples. destruct (Nat.eqb_spec extra 0) as [->|He].
  { split; [by apply accounted_refl|]. split_and!; (lia || done). }
  cbv zeta. destruct (try_grow m _) as [m' r] eqn:Eg. pose proof (try_grow_grows m (wb_bytes buf) _ _ _ Hl (usize_mul_nonneg (Z.of_nat extra) 16 ltac:(lia) ltac:(lia)) Eg) as Hg.
  destruct r as [[]|e|]; cbn [res_bind]; [|naive_solver|done]. destruct Hg as [Ha Hb]. cbn [wb_bytes wb_timestamps wb_values wb_cells].
  split; [done|]. split; [|done]. rewrite Hb. f_equal. rewrite (Z.mul_comm 16). unfold usize_mul. apply Z.min_r.
  destruct Ha as ((Hm' & Hr) & Hc & _). unfold mem_ok, small_cap in *. rewrite Hb in Hr. unfold usize_mul, USIZE_MAX, u_max in Hr. unfold USIZE_MAX, u_max.
  destruct Hl as [_ ?]. lia.
Qed.

Lemma pack_series_spec m n buf wins rg col cur hi cell :
  0 ≤ rg → i64_min ≤ hi → in_order col → cursor_ok rg col cur → (cell < n)%nat →
  ledger m (wb_bytes buf) → small_cap (cap m) → win_shows n buf wins →
  match pack_series m col.*1 col.*2 cur (i64_sat (hi - rg)) hi cell buf with
  | (m', Ok (cur', buf')) =>
      accounted m (wb_bytes buf) m' (wb_bytes buf') ∧ cursor_ok rg col cur' ∧
      win_shows n buf' (λ i, if decide (i = cell) then Some (range_window (i64_sat (hi - rg)) hi col) else wins i)
  | (m', Err e) => accounted m (wb_bytes buf) m' 0 ∧ ∃ bytes already, e = MemoryLimit bytes (cap m) already
  | (_, Panic) => False
  end.
Proof.
  intros Hrg Hhi Ho Hcur Hc Hl Hcap (W1 & W2 & W3 & W4). unfold pack_series. pose proof (cursor_advance_spec rg col cur hi Hrg Hhi Ho Hcur) as Ha.
  destruct (advance cur col.*1 (i64_sat (hi - rg)) hi) as [cur' r]. destruct Ha as (Hcur' & Hr & Hw). rewrite (pack_window_spec col r Hr), Hw.
  fold (range_window (i64_sat (hi - rg)) hi col). set (w := range_window (i64_sat (hi - rg)) hi col).
  pose proof (grow_samples_ok m buf (length w) Hl Hcap) as Hg. destruct (grow_samples m buf (length w)) as [m' [buf'|e|]]; cbn [res_bind]; [| |done].
  2:{ destruct Hg as [-> [bytes ->]]. split; [by apply accounted_release|eauto]. }
  destruct Hg as (Hacc & Hb & Ht & Hv & Hcells). split; [done|]. split; [done|].
  assert (Hsmall : blen (wb_timestamps buf ++ w.*1) < 2 ^ 32).
  { destruct Hacc as (([[? ?] [? ?]] & Hle) & ? & _). unfold small_cap in Hcap. unfold blen in *. rewrite length_app, length_fmap. lia. }
  split_and!; cbn [wb_timestamps wb_values wb_cells wb_bytes].
  - rewrite Ht, Hv, !length_app, !length_fmap. lia.
  - rewrite Hcells. by rewrite length_insert.
  - rewrite Ht, Hb. unfold blen in *. rewrite length_app, length_fmap. lia.
  - intros i w' Hi. rewrite Ht, Hv, Hcells. case_decide as Hd.
    + intros [= <-]. subst i. rewrite list_lookup_insert_eq by lia. eexists. split; [done|].
      replace (Z.of_nat (length w)) with (blen w.*1) by (unfold blen; by rewrite length_fmap). split; [by apply slice_of_end|].
      replace (blen (wb_timestamps buf)) with (blen (wb_values buf)) by (unfold blen; lia). replace (blen w.*1) with (blen w.*2) by (unfold blen; by rewrite !length_fmap).
      apply slice_of_end. unfold blen in *. rewrite length_app, length_fmap in *. lia.
    + rewrite list_lookup_insert_ne by done. intros Hwi. destruct (W4 i w' Hi Hwi) as (c & ? & ? & ?). exists c. split; [done|]. split; by apply slice_of_app.
Qed.

Lemma pack_row_spec n rg hi cols cursors cell buf m wins :
  0 ≤ rg → i64_min ≤ hi → Forall in_order cols → Forall2 (cursor_ok rg) cols cursors → (cell + length cols ≤ n)%nat →
  ledger m (wb_bytes buf) → small_cap (cap m) → win_shows n buf wins →
  match pack_row (i64_sat (hi - rg)) hi cell ((fmap fst : column → list Z) <$> cols) ((fmap snd : column → list Z) <$> cols) cursors buf m with
  | (m', Ok (cursors', buf')) =>
      accounted m (wb_bytes buf) m' (wb_bytes buf') ∧ Forall2 (cursor_ok rg) cols cursors' ∧
      win_shows n buf' (λ i, if decide (cell ≤ i < cell + length cols)%nat
                             then Some (range_window (i64_sat (hi - rg)) hi (default [] (cols !! (i - cell)%nat))) else wins i)
  | (m', Err e) => accounted m (wb_bytes buf) m' 0 ∧ ∃ bytes already, e = MemoryLimit bytes (cap m) already
  | (_, Panic) => False
  end.
Proof.
  intros Hrg Hhi Ho Hc. revert cell buf m wins Ho. induction Hc as [|col c cols cursors Hcc Hc IH]; intros cell buf m wins Ho Hl Hled Hcap Hw; cbn [pack_row fmap list_fmap].
  { split; [by apply accounted_refl|]. split; [constructor|]. eapply win_shows_ext; [exact Hw|]. intros i _. cbn. by rewrite decide_False by lia. }
  apply Forall_cons in Ho as [Ho1 Ho]. cbn [length] in *.
  pose proof (pack_series_spec m n buf wins rg col c hi cell Hrg Hhi Ho1 Hcc ltac:(lia) Hled Hcap Hw) as Hs.
  destruct (pack_series _ _ _ _ _ _ _ _) as [m1 [[c1 buf1]|e|]]; [|done|done]. destruct Hs as (Ha & Hc1 & Hw1).
  pose proof (IH (S cell) buf1 m1 _ Ho ltac:(lia) (proj1 Ha) ltac:(by rewrite (proj1 (proj2 Ha))) Hw1) as Hrow.
  destruct (pack_row _ _ _ _ _ _ _ _) as [m2 [[cs2 buf2]|e|]]; cbn [res_bind]; [| |done].
  - destruct Hrow as (Ha2 & Hc2 & Hw2). split; [by eapply accounted_trans|]. split; [by constructor|]. eapply win_shows_ext; [exact Hw2|]. intros i _. cbn beta.
    destruct (decide (i = cell)) as [->|Hne].
    + rewrite decide_False by lia. rewrite decide_True by lia. by rewrite Nat.sub_diag.
    + destruct (decide (S cell ≤ i < S cell + length cols)%nat); [|by rewrite decide_False by lia].
      rewrite decide_True by lia. by replace (i - cell)%nat with (S (i - S cell)) by lia.
  - destruct Hrow as (Ha2 & bytes & al & ->). split; [by eapply accounted_trans|]. rewrite (proj1 (proj2 Ha)). eauto.
Qed.

Section win_rows.
Context (times : list Z) (rg : Z) (cols : list column) (cs : ChunkSamples).
Context (Hrg : 0 ≤ rg) (Htimes : Forall (λ t, i64_min ≤ t) times).
Context (Hcs : holds cs cols) (Ho : Forall in_order cols) (Hne : (0 < length cols)%nat).
Let L : nat := length cols.

Definition windows_from (off cnt k : nat) (wins : nat → option column) (i : nat) : option column :=
  if decide (off * L ≤ i < (off + cnt) * L)%nat
  then Some (range_window (window_lo times rg (k + (i / L - off))) (time_at times (k + (i / L - off))) (default [] (cols !! (i mod L)%nat)))
  else wins i.

Lemma pack_rows_spec n cnt k off cursors buf m wins :
  (k + cnt ≤ length times)%nat → Forall2 (cursor_ok rg) cols cursors → ((off + cnt) * L ≤ n)%nat →
  ledger m (wb_bytes buf) → small_cap (cap m) → win_shows n buf wins →
  match pack_rows times rg L cs (seq k cnt) off cursors buf m with
  | (m', Ok (cursors', buf')) =>
      accounted m (wb_bytes buf) m' (wb_bytes buf') ∧ Forall2 (cursor_ok rg) cols cursors' ∧ win_shows n buf' (windows_from off cnt k wins)
  | (m', Err e) => accounted m (wb_bytes buf) m' 0 ∧ ∃ bytes already, e = MemoryLimit bytes (cap m) already
  | (_, Panic) => False
  end.
Proof.
  revert k off cursors buf m wins. induction cnt as [|cnt IH]; intros k off cursors buf m wins Hk Hc Hn Hl Hcap Hw; cbn [seq pack_rows].
  { split; [by apply accounted_refl|]. split; [done|]. eapply win_shows_ext; [exact Hw|]. intros i _. unfold windows_from. by rewrite decide_False by nia. }
  destruct (lookup_lt_is_Some_2 times k) as [t Ht]; [lia|]. rewrite Ht. assert (Htk : time_at times k = t) by (by apply list_lookup_total_correct).
  assert (Hmin : i64_min ≤ t) by (by eapply Forall_lookup_1 in Htimes). destruct Hcs as [Hts Hvs]. rewrite Hts, Hvs.
  pose proof (pack_row_spec n rg t cols cursors (off * L) buf m wins Hrg Hmin Ho Hc ltac:(fold L; nia) Hl Hcap Hw) as Hrow.
  destruct (pack_row _ _ _ _ _ _ _ _) as [m1 [[cs1 buf1]|e|]]; [|done|done]. destruct Hrow as (Ha & Hc1 & Hw1).
  pose proof (IH (S k) (S off) cs1 buf1 m1 _ ltac:(lia) Hc1 ltac:(nia) (proj1 Ha) ltac:(by rewrite (proj1 (proj2 Ha))) Hw1) as Hrest.
  destruct (pack_rows _ _ _ _ _ _ _ _ _) as [m2 [[cs2 buf2]|e|]]; [| |done].
  2:{ destruct Hrest as (Ha2 & bytes & al & ->). split; [by eapply accounted_trans|]. rewrite (proj1 (proj2 Ha)). eauto. }
  destruct Hrest as (Ha2 & Hc2 & Hw2). split; [by eapply accounted_trans|]. split; [done|]. eapply win_shows_ext; [exact Hw2|].
  intros i _. unfold windows_from. fold L. destruct (decide (S off * L ≤ i < (S off + cnt) * L)%nat) as [Hi|Hi].
  - rewrite decide_True by nia. assert (S off ≤ i / L)%nat by (apply Nat.div_le_lower_bound; nia).
    by replace (S k + (i / L - S off))%nat with (k + (i / L - off))%nat by lia.
  - destruct (decide (off * L ≤ i < off * L + L)%nat) as [Hj|Hj]; [|by rewrite decide_False by nia].
    rewrite decide_True by nia. destruct (row_of cols Hne i off (i - off * L)) as [Hq Hr]; [fold L; lia|fold L; lia|]. fold L in Hq, Hr. rewrite Hq, Hr.
    rewrite Nat.sub_diag, Nat.add_0_r. unfold window_lo. by rewrite Htk.
Qed.
End win_rows.

Lemma times_min op : Forall (λ t, i64_min ≤ t) (lo_times op).
Proof. unfold lo_times, compute_times. apply Forall_fmap, Forall_forall. intros t _. cbn. unfold i64_sat. lia. Qed.

Section matrix_op.
Context (data : TimeRange → ResolvedSeriesRef → column) (op : LeafOp) (Hop : op_ok op) (Hd : data_ok data op) (Hrg : 0 ≤ lo_rg op).

Abbreviation chunk_end' := (chunk_end (lo_request_series op) (lo_shape op)).
Abbreviation step_end' := (step_end (g_step_count (lo_grid op)) (lo_shape op)).
Abbreviation chunk_data' := (chunk_data data (lo_request_series op) (op_window op) (lo_shape op)).

(** the window of a step and a series: the samples within the range that are not stale *)
Definition window_at (K I : nat) : column :=
  range_window (window_lo (lo_times op) (lo_rg op) K) (time_at (lo_times op) K) (op_data data op I).

Definition window_batch (s k : nat) (w : MatrixWindowBatch) : Prop :=
  w_step_timestamps w = step_timestamps (lo_grid op) ∧ w_series w = Static (lo_schema op) ∧
  w_step_range w = mkRange k (step_end' k) ∧ w_series_range w = mkRange s (chunk_end' s) ∧
  w_effective_times w = (if has_effective_shift (lo_at op) (lo_offset op) then Some (lo_times op) else None) ∧
  ∀ K I, (k ≤ K < step_end' k)%nat → (s ≤ I < chunk_end' s)%nat →
    cell_samples (E := QueryError) w (K - k) (I - s) = Ok ((window_at K I).*1, (window_at K I).*2).

Definition cursors_ok (s : nat) (cursors : list SeriesCursor) (_ : nat) : Prop := Forall2 (cursor_ok (lo_rg op)) (chunk_data' s) cursors.

Lemma new_cursors_ok s : (s < length (lo_request_series op))%nat → cursors_ok s (replicate (chunk_end' s - s) cursor_new) 0.
Proof.
  intros Hs. apply Forall2_same_length_lookup_2; [rewrite length_replicate; by apply chunk_data_length|].
  intros i col c _ [-> _]%lookup_replicate. apply cursor_new_ok.
Qed.

Lemma empty_windows n : win_shows n (mkWinBuf (window_bytes (Z.of_nat n) 0) [] [] (replicate n EMPTY)) (λ _, None).
Proof.
  split_and!; cbn [wb_bytes wb_timestamps wb_values wb_cells]; [done|by rewrite length_replicate| |done].
  unfold blen, window_bytes, usize_add, usize_mul, USIZE_MAX, u_max. cbn [length]. lia.
Qed.

(** a batch made of packed buffers shows the windows *)
Lemma buf_windows s k buf :
  (s < length (lo_request_series op))%nat → (k < g_step_count (lo_grid op))%nat →
  let L := length (chunk_data' s) in
  win_shows ((step_end' k - k) * L) buf
    (windows_from (lo_times op) (lo_rg op) (chunk_data' s) 0 (step_end' k - k) k (λ _, None)) →
  window_batch s k
    (mkWindows (step_timestamps (lo_grid op)) (mkRange k (step_end' k)) (Static (lo_schema op)) (mkRange s (s + L))
       (wb_timestamps buf) (wb_values buf) (wb_cells buf) (if has_effective_shift (lo_at op) (lo_offset op) then Some (lo_times op) else None)).
Proof.
  intros Hs Hk L (H1 & H2 & H3 & H4). destruct Hop as (Hst & Hse & _). assert (HL : L = (chunk_end' s - s)%nat) by (by apply chunk_data_length).
  assert (Hcb : (s < chunk_end' s)%nat) by (unfold chunk_end; lia).
  split_and!; cbn; [done|done|done|by replace (s + L)%nat with (chunk_end' s) by lia|done|]. intros K I HK HI.
  unfold cell_samples, w_series_count, range_len. cbn [w_series_range w_cells w_timestamps w_values r_end r_start].
  replace (s + L - s)%nat with L by lia. set (idx := ((K - k) * L + (I - s))%nat). assert (Hidx : (idx < (step_end' k - k) * L)%nat) by (subst idx; nia).
  destruct (row_of (chunk_data' s) ltac:(fold L; lia) idx (K - k) (I - s)) as [Hq Hr]; [fold L; lia|done|]. fold L in Hq, Hr.
  destruct (H4 idx (window_at K I) Hidx) as (c & Hc & Ht & Hv).
  { unfold windows_from. fold L. rewrite decide_True by lia. rewrite Hq, Hr, (chunk_data_lookup data op s (I - s)) by lia. unfold window_at. cbn [default from_option].
    replace (k + (K - k - 0))%nat with K by lia. by replace (s + (I - s))%nat with I by lia. }
  rewrite Hc. cbn [expect res_bind]. rewrite Ht. cbn [res_bind]. rewrite Hv. done.
Qed.

Lemma matrix_build_ok s cs cursors k m :
  (s < length (lo_request_series op))%nat → (k < g_step_count (lo_grid op))%nat → holds cs (chunk_data' s) →
  cursors_ok s cursors k → mem_ok m → small_cap (cap m) →
  match build_window_batch op s (chunk_end' s - s) cs cursors k m with
  | (m', Ok (w, adv, cursors')) => window_batch s k w ∧ adv = (step_end' k - k)%nat ∧ cursors_ok s cursors' (step_end' k) ∧ accounted m 0 m' 0
  | (m', Err e) => accounted m 0 m' 0 ∧ ∃ bytes already, e = MemoryLimit bytes (cap m) already
  | (_, Panic) => False
  end.
Proof.
  intros Hs Hk Hh Hc Hm Hcap. destruct Hop as (Hst & Hse & Hg).
  assert (Hcb : (s < chunk_end' s)%nat) by (unfold chunk_end; lia). assert (Hsb : (k < step_end' k ≤ g_step_count (lo_grid op))%nat) by (unfold step_end; lia).
  unfold build_window_batch, allocate_windows. cbv zeta. fold (step_end' k). set (cnt := (step_end' k - k)%nat). set (L := (chunk_end' s - s)%nat).
  assert (Hl0 : ledger m 0) by (split; [done|]; destruct Hm; lia). destruct (try_grow m _) as [m' r] eqn:Eg.
  assert (Hbytes : 0 ≤ window_bytes (Z.of_nat (cnt * L)) 0) by (unfold window_bytes, usize_add, usize_mul, USIZE_MAX, u_max; lia).
  pose proof (try_grow_grows m 0 _ _ _ Hl0 Hbytes Eg) as Hgr.
  destruct r as [[]|e|]; cbn [res_bind]; [|destruct Hgr as [-> ->]; split; [by apply accounted_refl|eauto]|done]. destruct Hgr as [Ha Hb].
  rewrite Hb, Z.add_0_l in Ha. pose proof (chunk_data_length data op s Hs) as HL. fold L in HL.
  assert (HLpos : (0 < length (chunk_data' s))%nat) by lia.
  assert (Hroom : ((0 + cnt) * length (chunk_data' s) ≤ cnt * L)%nat) by (rewrite HL; lia).
  assert (Htl : (k + cnt ≤ length (lo_times op))%nat) by (rewrite times_length; lia).
  pose proof (pack_rows_spec (lo_times op) (lo_rg op) (chunk_data' s) cs Hrg (times_min op) Hh (chunk_data_sorted data op Hd s Hs) HLpos (cnt * L) cnt k 0
    cursors (mkWinBuf (window_bytes (Z.of_nat (cnt * L)) 0) [] [] (replicate (cnt * L) EMPTY)) m' (λ _, None) Htl Hc Hroom (proj1 Ha) ltac:(by rewrite (proj1 (proj2 Ha))) (empty_windows (cnt * L))) as Hp.
  rewrite HL in Hp. destruct (pack_rows _ _ _ _ _ _ _ _ _) as [m2 [[cs2 buf2]|e|]]; [| |done].
  - destruct Hp as (Ha2 & Hc2 & Hw2). pose proof (buf_windows s k buf2 Hs Hk) as Hbw. cbv zeta in Hbw. rewrite HL in Hbw. split; [by apply Hbw|].
    split; [done|]. split; [done|]. eapply accounted_trans; [exact Ha|]. eapply accounted_trans; [exact Ha2|]. apply accounted_release, Ha2.
  - destruct Hp as (Ha2 & bytes & al & ->). split; [by eapply accounted_trans|]. rewrite (proj1 (proj2 Ha)). eauto.
Qed.
End matrix_op.

Definition window_covers (K I : nat) (w : MatrixWindowBatch) : Prop :=
  (r_start (w_step_range w) ≤ K < r_end (w_step_range w))%nat ∧ (r_start (w_series_range w) ≤ I < r_end (w_series_range w))%nat.

#[global] Instance window_covers_dec K I w : Decision (window_covers K I w).
Proof. unfold window_covers. apply _. Defined.

(** polls of [MatrixSelectorOp::windows], under a limit of 64 GiB *)
Definition matrix_run (samples : SamplesRequest → list (res QueryError SampleBatch)) (op : LeafOp) :=
  run samples (lo_request_series op) (g_step_count (lo_grid op)) (op_window op) (lo_shape op) (λ n, replicate n cursor_new)
    (build_window_batch op) small_cap.

(** over any sequence of polls, a range selector never panics, the cell of every step and series in the
    batches it emits has the samples of the series within the range before the step's time, in order and without the stale ones, whichever
    way the evaluation times move; when it ends without a failure every step of every series is in exactly one
    batch, and polls that each find an event of the source end. *)
Lemma range_windows_exact samples data op outs st' :
  Delivers samples data → op_ok op → data_ok data op → 0 ≤ lo_rg op → matrix_run samples op Init outs st' →
  Forall (λ o, o.2 ≠ Ready (Some Panic)) outs ∧
  (∀ w, w ∈ emitted outs → ∃ s k, window_batch data op s k w) ∧
  (existsb is_failure outs = false → existsb is_end outs = true →
   ∀ K I, (K < g_step_count (lo_grid op))%nat → (I < length (lo_request_series op))%nat →
   ∃ w, filter (window_covers K I) (emitted outs) = [w] ∧
        cell_samples (E := QueryError) w (K - r_start (w_step_range w)) (I - r_start (w_series_range w)) =
          Ok ((window_at data op K I).*1, (window_at data op K I).*2)) ∧
  (Forall (λ o, (0 < o.1)%nat) outs →
   (cost (Cur := list SeriesCursor) samples (lo_request_series op) (g_step_count (lo_grid op)) (op_window op) (lo_shape op) Init < length outs)%nat →
   existsb is_end outs = true ∨ existsb is_failure outs = true).
Proof.
  intros HD Hop Hd Hrg Hrun. pose proof Hop as (Hst & Hse & _).
  destruct (run_exact samples data _ _ _ _ (λ n, replicate n cursor_new) _ Hst Hse (window_batch data op) (cursors_ok data op) small_cap (new_cursors_ok data op)
    (matrix_build_ok data op Hop Hd Hrg) window_covers outs st') as (H1 & H2 & H3 & H4); [|exact Hrun|].
  { intros s k b (_ & _ & Hb1 & Hb2 & _) K I. unfold window_covers, tile_covers. rewrite Hb1, Hb2. cbn. tauto. }
  split; [done|]. split; [done|]. split; [|done]. intros Hf He K I HK HI. destruct (H3 Hf He K I HK HI) as (s & k & b & Hfil & Hb & HcI & HcK).
  exists b. split; [done|]. destruct Hb as (_ & _ & Hb1 & Hb2 & _ & Hb3). rewrite Hb1, Hb2. by apply Hb3.
Qed.
End PqLeafSpec.
