(* ===== verification/PqQuery.v ===== *)
(** * timeseries: a selector query from the buckets to the batches

    The source over a reader of buckets ([PqSource]) gives the leaf operators
    ([PqLeaf]) what they ask for ([Delivers]); the roster of a leaf has
    one row for every label set that matches, with a handle for every bucket that has it; and together: what
    a query for an instant vector or for range windows reads from the buckets. *)
From stdpp Require Import gmap.
From stdpp Require sorting.
From S2P Require Import Prelude HashMap SortBy Encoding Storage TsSerde TsDb TsQuery PqBatch PqSource PqSourceSpec PqLeaf PqLeafSpec.
#[local] Open Scope Z_scope.

Module PqQuery.
Import Ts TsDb TsQuery Pq PqSource PqSourceSpec PqLeaf PqLeafSpec.

Definition sample_pair (s : Sample) : Z * Z := (timestamp_ms s, s_value s).

(** what the reader of a bucket promises of the samples of a series: they are in order,
    in the half-open interval asked for and in the hours of the bucket *)
Class QueryReaderLaws {R} {QR : QueryReader R} (reader : R) : Prop := {
  qr_samples_no_panic b id name from to : qr_samples reader b id name from to ≠ Panic;
  qr_samples_ok b id name from to l : qr_samples reader b id name from to = Ok l →
    in_order (sample_pair <$> l) ∧ Forall (λ s, from < timestamp_ms s ≤ to) l ∧
    Forall (λ s, (bucket_ms_window b).1 ≤ timestamp_ms s < (bucket_ms_window b).2) l;
}.

Section delivers.
Context {R : Type} {QR : QueryReader R} (reader : R) {QL : QueryReaderLaws reader}.

(** what the reader has for a handle in a window *)
Definition reader_data (window : TimeRange) (ref : ResolvedSeriesRef) : column :=
  match decode_bucket (sref_bucket_id ref) with
  | None => []
  | Some b =>
      match qr_samples reader b (sref_series_id ref) (sref_metric_name ref) (i64_sat (start_ms window - 1)) (i64_sat (end_ms_exclusive window - 1)) with
      | Ok l => sample_pair <$> l
      | _ => []
      end
  end.

Lemma reader_data_empty window ref : range_is_empty window = true → reader_data window ref = [].
Proof.
  unfold range_is_empty, reader_data. intros He%Z.leb_le. destruct (decode_bucket _) as [b|]; [|done].
  destruct (qr_samples _ _ _ _ _ _) as [l| |] eqn:E; [|done|done]. destruct (qr_samples_ok _ _ _ _ _ _ E) as (_ & Hr & _).
  destruct l as [|s l]; [done|]. apply Forall_cons in Hr as [Hs _]. unfold i64_sat in Hs. lia.
Qed.

(** ** Runs of one bucket *)
Fixpoint chained (series : list ResolvedSeriesRef) (from : nat) (runs : list BucketRun) : Prop :=
  match runs with
  | [] => from = length series
  | r :: runs =>
      r_start (run_range r) = from ∧ (from < r_end (run_range r) ≤ length series)%nat ∧
      (∀ i ref, (from ≤ i < r_end (run_range r))%nat → series !! i = Some ref → sref_bucket_id ref = run_bucket_id r) ∧
      chained series (r_end (run_range r)) runs
  end.

Lemma runs_from_chained series idx start cur :
  (start < idx ≤ length series)%nat → (∀ i ref, (start ≤ i < idx)%nat → series !! i = Some ref → sref_bucket_id ref = cur) →
  chained series start (runs_from (drop idx series) idx start cur).
Proof.
  remember (length series - idx)%nat as n eqn:En. revert idx start cur En. induction n as [|n IH]; intros idx start cur En Hi Hb.
  - rewrite drop_ge by lia. cbn. split_and!; [done|lia|lia|done|lia].
  - destruct (lookup_lt_is_Some_2 series idx) as [ref Hr]; [lia|]. rewrite (drop_S _ _ _ Hr). cbn [runs_from].
    destruct (Z.eqb_spec (sref_bucket_id ref) cur) as [He|He].
    + apply IH; [lia|lia|]. intros i ref' Hi' Hr'. destruct (decide (i = idx)) as [->|]; [by simplify_eq|]. apply (Hb i); [lia|done].
    + cbn. split_and!; [done|lia|lia|done|]. apply IH; [lia|lia|]. intros i ref' Hi' Hr'. replace i with idx in Hr' by lia. by simplify_eq.
Qed.

Lemma runs_chained series : series ≠ [] → chained series 0 (contiguous_bucket_runs series).
Proof.
  destruct series as [|ref series]; [done|]. intros _. change series with (drop 1 (ref :: series)) at 2. apply runs_from_chained; [cbn; lia|].
  intros i ref' Hi. replace i with 0%nat by lia. cbn. by intros [= <-].
Qed.

Lemma col_arrivals_zip (r2s : list nat) (refs : list ResolvedSeriesRef) (d : ResolvedSeriesRef → column) idx j :
  (idx + length refs ≤ length r2s)%nat →
  col_arrivals ((λ r, ((d r).*1, (d r).*2)) <$> refs) r2s idx j =
    zip (take (length refs) (drop idx r2s)) refs ≫= λ p, if decide (p.1 = j) then d p.2 else [].
Proof.
  revert idx. induction refs as [|ref refs IH]; intros idx Hl; cbn [fmap list_fmap col_arrivals length]; [by destruct (take _ _)|]. cbn [length] in Hl.
  destruct (lookup_lt_is_Some_2 r2s idx) as [k Hk]; [lia|]. rewrite Hk, (drop_S _ _ _ Hk). cbn [firstn zip zip_with mbind list_bind fst snd].
  rewrite IH by lia. f_equal. destruct (decide (Some k = Some j)) as [[= ->]|Hne].
  - rewrite decide_True by done. by rewrite zip_fst_snd.
  - by rewrite decide_False by congruence.
Qed.

(** the columns a run reads, and that they are those of its handles *)
Lemma run_batch series window from r batch r2s j :
  r_start (run_range r) = from → (from < r_end (run_range r) ≤ length series)%nat →
  (∀ i ref, (from ≤ i < r_end (run_range r))%nat → series !! i = Some ref → sref_bucket_id ref = run_bucket_id r) →
  build_batch_for_run reader series window r = Ok batch → length r2s = length series →
  let n := (r_end (run_range r) - from)%nat in
  batch_wf (length series) batch ∧ r_start (sb_series_range batch) = from ∧
  arrivals r2s [batch] j = zip (take n (drop from r2s)) (take n (drop from series)) ≫= λ p, if decide (p.1 = j) then reader_data window p.2 else [].
Proof.
  intros Hs Hr Hb Hbuild Hl. cbv zeta. set (n := (r_end (run_range r) - from)%nat). unfold build_batch_for_run in Hbuild.
  destruct (decode_bucket (run_bucket_id r)) as [b|] eqn:Ed; [|done]. cbv zeta in Hbuild. apply res_bind_ok in Hbuild as (columns & Hc & [= <-]).
  unfold range_len in Hc. rewrite Hs in Hc. fold n in Hc. set (refs := take n (drop from series)) in *.
  assert (Hn : length refs = n) by (subst refs n; rewrite length_take, length_drop; lia).
  assert (Hcols : (λ c : list Sample, (timestamp_ms <$> c, s_value <$> c)) <$> columns = (λ ref, ((reader_data window ref).*1, (reader_data window ref).*2)) <$> refs).
  { apply try_map_forall2 in Hc. apply list_eq. intros i. rewrite !list_lookup_fmap. destruct (refs !! i) as [ref|] eqn:Er.
    - destruct (Forall2_lookup_l _ _ _ _ _ Hc Er) as (c & -> & Hq). cbn. f_equal. unfold reader_data.
      assert (Hbid : sref_bucket_id ref = run_bucket_id r).
      { pose proof (lookup_lt_Some _ _ _ Er) as Hi. subst refs. rewrite lookup_take_lt, lookup_drop in Er by lia. eapply Hb; [|exact Er]. subst n. lia. }
      rewrite Hbid, Ed. unfold internal in Hq. destruct (qr_samples _ _ _ _ _ _); cbn in Hq; [|done|done]. injection Hq as ->.
      rewrite <- !list_fmap_compose. done.
    - apply Forall2_length in Hc. rewrite lookup_ge_None_2; [done|]. apply lookup_ge_None in Er. lia. }
  assert (Hbc : batch_cols (mkSampleBatch (run_range r) (mkBlock ((λ col : list Sample, timestamp_ms <$> col) <$> columns) ((λ col : list Sample, s_value <$> col) <$> columns))) =
    (λ ref, ((reader_data window ref).*1, (reader_data window ref).*2)) <$> refs).
  { rewrite <- Hcols. unfold batch_cols. cbn. clear. induction columns as [|c cs IH]; [done|]. cbn. by rewrite IH. }
  apply try_map_forall2, Forall2_length in Hc. split; [|split; [done|]].
  - split_and!; [|cbn; by rewrite !length_fmap|cbn; rewrite length_fmap, Hs; lia]. rewrite Hbc. apply Forall_fmap, Forall_forall. intros ref _. cbn. by rewrite !length_fmap.
  - unfold arrivals. cbn [mbind list_bind]. rewrite app_nil_r, Hbc. cbn [sb_series_range]. rewrite Hs, col_arrivals_zip by lia. by rewrite Hn.
Qed.

Lemma runs_arrivals series window from runs batches r2s j :
  chained series from runs → Forall2 (λ r b, build_batch_for_run reader series window r = Ok b) runs batches → length r2s = length series →
  Forall (batch_wf (length series)) batches ∧
  arrivals r2s batches j = zip (drop from r2s) (drop from series) ≫= λ p, if decide (p.1 = j) then reader_data window p.2 else [].
Proof.
  intros Hch Hf Hl. revert from Hch. induction Hf as [|r b runs batches Hb Hf IH]; intros from Hch; cbn [chained] in Hch.
  { subst from. rewrite (drop_ge series) by lia. split; [constructor|]. by destruct (drop _ r2s). }
  destruct Hch as (H1 & H2 & H3 & H4). destruct (run_batch series window from r b r2s j H1 H2 H3 Hb Hl) as (Hwf & _ & Ha).
  destruct (IH _ H4) as [Hwfs Has]. split; [by constructor|]. set (n := (r_end (run_range r) - from)%nat) in *.
  replace (arrivals r2s (b :: batches) j) with (arrivals r2s [b] j ++ arrivals r2s batches j) by (unfold arrivals; cbn; by rewrite app_nil_r).
  rewrite Ha, Has. replace (r_end (run_range r)) with (from + n)%nat by lia. rewrite <- !drop_drop, <- bind_app, <- zip_with_app.
  - by rewrite !take_drop.
  - rewrite !length_take, !length_drop. lia.
Qed.

Lemma try_map_no_panic {E A B} (f : A → res E B) l : (∀ x, f x ≠ Panic) → try_map f l ≠ Panic.
Proof.
  intros Hf. induction l as [|x l IH]; cbn [try_map]; [done|]. intros [H|(y & _ & [H|(ys & _ & H)]%res_bind_panic)]%res_bind_panic; [by apply (Hf x)|done|done].
Qed.

Lemma batches_no_panic rq : build_sample_batches reader rq ≠ Panic.
Proof.
  unfold build_sample_batches. destruct (_ || _); [done|]. apply try_map_no_panic. intros r. unfold build_batch_for_run.
  destruct (decode_bucket _); [|done]. cbv zeta. intros [H|(c & _ & H)]%res_bind_panic; [|done]. revert H. apply try_map_no_panic.
  intros ref. unfold internal. pose proof (qr_samples_no_panic (reader := reader) t (sref_series_id ref) (sref_metric_name ref)) as Hn.
  specialize (Hn (i64_sat (start_ms (rq_time_range rq) - 1)) (i64_sat (end_ms_exclusive (rq_time_range rq) - 1))).
  by destruct (qr_samples _ _ _ _ _ _).
Qed.

(** the source over a reader gives the leaf operators what they ask for *)
#[global] Instance samples_stream_delivers : Delivers (samples_stream reader) reader_data.
Proof.
  assert (Hok : ∀ rq batches r2s j, build_sample_batches reader rq = Ok batches → length r2s = length (rq_series rq) →
    Forall (batch_wf (length (rq_series rq))) batches ∧
    arrivals r2s batches j = zip r2s (rq_series rq) ≫= λ p, if decide (p.1 = j) then reader_data (rq_time_range rq) p.2 else []).
  { intros rq batches r2s j Hb Hl. unfold build_sample_batches in Hb. destruct (bool_decide (rq_series rq = [])) eqn:E1.
    { reflect. injection Hb as <-. split; [constructor|]. rewrite E1. by destruct r2s. }
    destruct (range_is_empty _) eqn:E2; cbn [orb] in Hb.
    - injection Hb as <-. split; [constructor|]. rewrite (bind_same _ _ (λ _, [])), bind_nil; [done|].
      intros p _. case_decide; [by apply reader_data_empty|done].
    - apply try_map_forall2 in Hb. reflect. by eapply (runs_arrivals _ _ 0); [apply runs_chained|exact Hb|]. }
  split.
  - intros rq. unfold samples_stream, no_panic. destruct (build_sample_batches reader rq) as [batches|e|] eqn:E; [|by repeat constructor|].
    + apply Forall_fmap. by destruct (Hok rq batches (replicate (length (rq_series rq)) 0%nat) 0%nat E) as [? _]; [apply length_replicate|].
    + by apply batches_no_panic in E.
  - intros rq batches r2s j Hs Hl. unfold samples_stream in Hs. destruct (build_sample_batches reader rq) as [bs|e|] eqn:E.
    + apply list_fmap_eq_inj in Hs; [|by intros ?? [= ->]]. subst. by eapply Hok.
    + by destruct batches.
    + by destruct batches.
Qed.
End delivers.

(** ** The roster of a leaf *)
Lemma sort_by_id {A} (le : A → A → bool) l : StronglySorted (λ a b, le a b = true) l → sort_by le l = l.
Proof.
  induction 1 as [|x l Hl IH Hx]; [done|]. cbn. fold (sort_by le l). rewrite IH. destruct l as [|y l]; [done|]. cbn.
  apply Forall_cons in Hx as [-> _]. done.
Qed.

Lemma canonical_sorted labels : canonicalize_labels (sort_labels labels) = sort_labels labels.
Proof.
  unfold canonicalize_labels, sort_labels. apply sort_by_id. apply sort_by_sorted.
  - intros x y. unfold label_le. rewrite (bcmp_opp (l_name x)), (bcmp_opp (l_value x)).
    destruct (bcmp (l_name x) (l_name y)); cbn; try done. by destruct (bcmp (l_value x) (l_value y)).
  - intros x y z. unfold label_le, cmp_then.
    destruct (bcmp (l_name x) (l_name y)) eqn:E1, (bcmp (l_name y) (l_name z)) eqn:E2; try done.
    + apply bcmp_eq in E1, E2. rewrite E1, E2, bcmp_refl. intros H1 H2.
      pose proof (ble_trans (l_value x) (l_value y) (l_value z)) as Ht. unfold ble in Ht. by apply Ht.
    + apply bcmp_eq in E1. rewrite E1, E2. done.
    + apply bcmp_eq in E2. rewrite <- E2, E1. done.
    + by rewrite (bcmp_lt_trans _ _ _ E1 E2).
Qed.

Section roster.
Context {B : Blake3}.

Abbreviation entry := (Labels * ResolvedSeriesRef)%type.
Definition row (done : list entry) (l : Labels) : list ResolvedSeriesRef := snd <$> filter (λ e : entry, canonicalize_labels e.1 = l) done.

Record RosterOk (done : list entry) (ro : Roster) : Prop := {
  ro_nodup : NoDup (ro_labels ro);
  ro_indexed l i : ro_index ro !! l = Some i ↔ ro_labels ro !! i = Some l;
  ro_rows : ro_refs ro = row done <$> ro_labels ro;
  ro_all l : l ∈ ro_labels ro ↔ l ∈ (λ e : entry, canonicalize_labels e.1) <$> done;
  ro_fps : length (ro_fingerprints ro) = length (ro_labels ro);
}.

Lemma row_snoc done (e : entry) l : row (done ++ [e]) l = row done l ++ (if decide (canonicalize_labels e.1 = l) then [e.2] else []).
Proof. unfold row. rewrite filter_app, fmap_app, filter_cons. by case_decide. Qed.

Lemma roster_add_ok done ro e : RosterOk done ro → ∃ ro', roster_add ro e = Ok ro' ∧ RosterOk (done ++ [e]) ro'.
Proof.
  intros [H1 H2 H3 H4 H5]. unfold roster_add. set (canonical := canonicalize_labels e.1). destruct (ro_index ro !! canonical) as [idx|] eqn:Ei.
  - apply H2 in Ei. rewrite H3, list_lookup_fmap, Ei. cbn [fmap option_fmap option_map expect res_bind]. eexists. split; [done|]. split; cbn; try done.
    + apply list_eq. intros i. rewrite list_lookup_insert, !list_lookup_fmap, length_fmap. case_decide as Hd.
      * destruct Hd as [<- _]. rewrite Ei. cbn. rewrite row_snoc. by rewrite decide_True.
      * destruct (ro_labels ro !! i) as [l|] eqn:El; [|done]. cbn. rewrite row_snoc, decide_False, app_nil_r; [done|].
        intros Hl. apply Hd. rewrite <- Hl in El. split; [|by eapply lookup_lt_Some]. by eapply NoDup_lookup.
    + intros l. rewrite fmap_app, elem_of_app, <- H4. cbn. rewrite list_elem_of_singleton. split; [auto|]. intros [?| ->]; [done|]. by eapply list_elem_of_lookup_2.
  - assert (Hnew : canonical ∉ ro_labels ro).
    { intros [i Hi]%list_elem_of_lookup. apply H2 in Hi. congruence. }
    eexists. split; [done|]. split; cbn.
    + apply NoDup_app. split; [done|]. split; [|apply NoDup_singleton]. intros l Hl ->%list_elem_of_singleton. done.
    + intros l i. rewrite lookup_insert_Some, lookup_app_Some, list_lookup_singleton_Some, H2. split.
      * intros [[<- <-]|[Hne Hl]]; [right; split; [lia|split; [lia|done]]|by left].
      * intros [Hl|(Hge & Hi & <-)]; [right; split; [|done]|left; split; [done|lia]]. intros <-. apply Hnew. by eapply list_elem_of_lookup_2.
    + rewrite fmap_app, H3. cbn. f_equal.
      * apply list_fmap_ext. intros i l Hl. rewrite row_snoc, decide_False, app_nil_r; [done|]. intros <-. apply Hnew. by eapply list_elem_of_lookup_2.
      * rewrite row_snoc, decide_True by done. unfold row. rewrite filter_none; [done|]. apply Forall_forall. intros e' He' Hc. apply Hnew, H4.
        apply list_elem_of_fmap. by exists e'.
    + intros l. rewrite fmap_app, !elem_of_app, H4. done.
    + rewrite !length_app. cbn. lia.
Qed.

Lemma roster_series_ok l done ro : RosterOk done ro → ∃ ro', roster_series l ro = Ok ro' ∧ RosterOk (done ++ l) ro'.
Proof.
  revert done ro. induction l as [|e l IH]; intros done ro Hok; cbn [roster_series]; [exists ro; by rewrite app_nil_r|].
  destruct (roster_add_ok done ro e Hok) as (ro1 & -> & Hok1). cbn [res_bind]. destruct (IH _ _ Hok1) as (ro2 & -> & Hok2).
  exists ro2. by rewrite <- app_assoc in Hok2.
Qed.

Lemma roster_chunks_ok chunks done ro :
  RosterOk done ro →
  ∃ ro', roster_chunks (Ok <$> chunks) ro = Ok ro' ∧ RosterOk (done ++ (chunks ≫= λ c, zip (ch_labels c) (ch_series c))) ro'.
Proof.
  revert done ro. induction chunks as [|c chunks IH]; intros done ro Hok; cbn [fmap list_fmap roster_chunks mbind list_bind]; [exists ro; by rewrite app_nil_r|].
  cbn [res_map_err res_bind]. destruct (roster_series_ok (zip (ch_labels c) (ch_series c)) done ro Hok) as (ro1 & -> & Hok1). cbn [res_bind].
  destruct (IH _ _ Hok1) as (ro2 & -> & Hok2). exists ro2. by rewrite <- app_assoc in Hok2.
Qed.

Lemma roster_empty_ok : RosterOk [] (mkRoster ∅ [] [] []).
Proof. split; cbn; try done. constructor. Qed.
End roster.

(** ** A query over the buckets of a reader *)
Definition hour_bucket (b : TimeBucket) : Prop := bk_size b = 1 ∧ in_u 32 (bk_start b) ∧ bk_start b mod 60 = 0.

Lemma bucket_id_roundtrip b : hour_bucket b → encode_bucket b = bk_start b * 256 + 1 ∧ decode_bucket (encode_bucket b) = Some b.
Proof.
  intros (Hs & Hr & _). unfold in_u in Hr. assert (He : encode_bucket b = bk_start b * 256 + 1).
  { unfold encode_bucket. rewrite Hs, Z.shiftl_mul_pow2 by lia. change (2 ^ 8) with 256. change 256 with (2 ^ 8). apply lor_low_bits; lia. }
  split; [done|]. unfold decode_bucket. rewrite He. change 255 with (Z.ones 8). rewrite Z.land_ones, Z.shiftr_div_pow2 by lia. change (2 ^ 8) with 256.
  replace ((bk_start b * 256 + 1) mod 256) with 1 by (apply Z.mod_unique with (bk_start b); lia).
  replace ((bk_start b * 256 + 1) / 256) with (bk_start b) by (apply Z.div_unique with 1; lia).
  rewrite wrap_small by (unfold in_u; lia). cbn. f_equal. destruct b as [st sz]; cbn in *. by subst.
Qed.

Lemma hours_apart b b' : hour_bucket b → hour_bucket b' → bk_start b < bk_start b' → (bucket_ms_window b).2 ≤ (bucket_ms_window b').1.
Proof.
  intros (Hs & _ & Hm) (_ & _ & Hm') Hlt. unfold bucket_ms_window, size_in_mins. rewrite Hs. cbn [fst snd].
  change (wrap 8 (wrap 8 (1 * 1) * 60)) with 60. apply Z.mod_divide in Hm as [q Hq]; [|done]. apply Z.mod_divide in Hm' as [q' Hq']; [|done]. lia.
Qed.

(** ** The leaves of a plan *)

(** the time a step is evaluated at *)
Definition eval_time (grid : StepGrid) (at_ : option AtModifier) (offset : Offset) (K : nat) : Z :=
  match at_ with
  | Some (AtValue v) => v
  | Some AtStart => g_start_ms grid
  | Some AtEnd => g_end_ms grid
  | None => g_start_ms grid + Z.of_nat K * g_step_ms grid
  end - match offset with OffsetPos d => d | OffsetNeg d => - d end.

Definition sane (t : Z) : Prop := - 2 ^ 61 ≤ t ≤ 2 ^ 61.

(** a plan in a sane range of time, 70 million years around the epoch: the steps of the grid are before its end, and [@] is not before the epoch *)
Record plan_ok (grid : StepGrid) (at_ : option AtModifier) (offset : Offset) (rg : Z) : Prop := {
  po_start : sane (g_start_ms grid);
  po_end : sane (g_end_ms grid);
  po_step : 0 < g_step_ms grid;
  po_last K : (K < g_step_count grid)%nat → g_start_ms grid + Z.of_nat K * g_step_ms grid ≤ g_end_ms grid;
  po_at v : at_ = Some (AtValue v) → 0 ≤ v ≤ 2 ^ 61;
  po_offset d : offset = OffsetPos d ∨ offset = OffsetNeg d → 0 ≤ d ≤ 2 ^ 61;
  po_rg : 0 ≤ rg ≤ 2 ^ 61;
}.

Definition planned (schema : SeriesSchema) (refs : list (list ResolvedSeriesRef)) grid at_ offset rg : LeafOp :=
  mkLeafOp schema refs grid (to_parser_at <$> at_) (Some (to_parser_offset offset)) rg default_shape.

Section plan.
Context (grid : StepGrid) (at_ : option AtModifier) (offset : Offset) (rg : Z) (Hp : plan_ok grid at_ offset rg).

Lemma plan_grid_ok : grid_ok grid.
Proof.
  destruct Hp as [H1 H2 H3 H4 _ _ _]. unfold grid_ok, in_i, i64_max. split; [unfold sane in *; lia|]. split; [done|].
  destruct (g_step_count grid) as [|n] eqn:En; [unfold sane in *; lia|]. specialize (H4 n ltac:(lia)). unfold sane in *. lia.
Qed.

Lemma plan_op_ok schema refs : op_ok (planned schema refs grid at_ offset rg).
Proof. split; [cbn; lia|]. split; [cbn; lia|]. apply plan_grid_ok. Qed.

Lemma eval_time_small K : (K < g_step_count grid)%nat → - 2 ^ 62 ≤ eval_time grid at_ offset K ≤ 2 ^ 62.
Proof.
  destruct Hp as [H1 H2 H3 H4 H5 H6 _]. intros HK. specialize (H4 K HK). unfold eval_time, sane in *.
  assert (- 2 ^ 61 ≤ match offset with OffsetPos d => d | OffsetNeg d => - d end ≤ 2 ^ 61).
  { destruct offset as [d|d]; specialize (H6 d ltac:(auto)); lia. }
  destruct at_ as [[v| |]|]; [specialize (H5 v eq_refl)| | |]; lia.
Qed.

Lemma planned_times schema refs : lo_times (planned schema refs grid at_ offset rg) = eval_time grid at_ offset <$> seq 0 (g_step_count grid).
Proof.
  destruct Hp as [H1 H2 H3 H4 H5 H6 _].
  assert (Ho : offset_ms (Some (to_parser_offset offset)) = - match offset with OffsetPos d => d | OffsetNeg d => - d end).
  { destruct offset as [d|d]; specialize (H6 d ltac:(auto)); cbn; unfold wrap; rewrite (Z.mod_small d) by lia; rewrite !as_signed_id; unfold in_i; rewrite ?as_signed_id; unfold in_i; lia. }
  unfold lo_times, compute_times. cbn [lo_grid lo_at lo_offset planned]. rewrite Ho.
  assert (Hl : length (step_timestamps grid) = g_step_count grid) by (unfold step_timestamps; by rewrite length_fmap, length_seq).
  apply list_eq. intros K. rewrite !list_lookup_fmap. destruct (decide (K < g_step_count grid)%nat) as [HK|HK].
  - rewrite lookup_seq_lt by done. cbn [fmap option_fmap option_map Nat.add]. pose proof (eval_time_small K HK) as Hs. pose proof (step_timestamp_at grid K plan_grid_ok HK) as Hk.
    unfold eval_time in *. unfold i64_sat, i64_min, i64_max.
    destruct at_ as [[v| |]|]; cbn [fmap option_fmap option_map to_parser_at]; rewrite ?lookup_replicate_2 by lia; rewrite ?Hk; cbn [fmap option_fmap option_map]; f_equal;
      try (specialize (H5 v eq_refl)); lia.
  - rewrite (lookup_ge_None_2 (seq _ _)) by (rewrite length_seq; lia). cbn. apply fmap_None, lookup_ge_None.
    destruct at_ as [[v| |]|]; cbn; rewrite ?length_replicate; lia.
Qed.

Lemma least_le l a : foldl (λ a t : Z, if t <? a then t else a) a l ≤ a ∧ ∀ t, t ∈ l → foldl (λ a t : Z, if t <? a then t else a) a l ≤ t.
Proof.
  revert a. induction l as [|x l IH]; intros a; cbn; [split; [lia|by intros ? ?%elem_of_nil]|].
  destruct (IH (if x <? a then x else a)) as [H1 H2]. destruct (Z.ltb_spec x a); (split; [lia|]); intros t [->|Ht]%elem_of_cons; [lia|by apply H2|lia|by apply H2].
Qed.

Lemma greatest_ge l a : a ≤ foldl (λ a t : Z, if a <? t then t else a) a l ∧ ∀ t, t ∈ l → t ≤ foldl (λ a t : Z, if a <? t then t else a) a l.
Proof.
  revert a. induction l as [|x l IH]; intros a; cbn; [split; [lia|by intros ? ?%elem_of_nil]|].
  destruct (IH (if a <? x then x else a)) as [H1 H2]. destruct (Z.ltb_spec a x); (split; [lia|]); intros t [->|Ht]%elem_of_cons; [lia|by apply H2|lia|by apply H2].
Qed.

(** what the operator asks for covers the window of every step *)
Lemma window_covers_step schema refs K :
  (K < g_step_count grid)%nat → let w := op_window (planned schema refs grid at_ offset rg) in let t := eval_time grid at_ offset K in
  i64_sat (start_ms w - 1) ≤ t - rg ∧ t ≤ i64_sat (end_ms_exclusive w - 1).
Proof.
  intros HK. cbv zeta. pose proof (eval_time_small K HK) as Hs. destruct Hp as [_ _ _ _ _ _ Hrg].
  unfold op_window, time_range_with. rewrite planned_times. cbn [lo_rg planned]. set (ts := _ <$> seq _ _).
  assert (Hin : eval_time grid at_ offset K ∈ ts) by (apply list_elem_of_fmap; exists K; split; [done|]; apply elem_of_seq; lia).
  pose proof (proj2 (least_le ts i64_max) _ Hin) as Hmin. pose proof (proj2 (greatest_ge ts i64_min) _ Hin) as Hmax.
  set (mn := foldl _ i64_max ts) in *. set (mx := foldl _ i64_min ts) in *. rewrite (proj2 (Z.eqb_neq _ _)) by (unfold i64_max; lia). cbn [start_ms end_ms_exclusive].
  unfold i64_sat, i64_min, i64_max in *. lia.
Qed.

(** so does the range its buckets are chosen for *)
Lemma range_covers_step lookback range_ms K :
  (K < g_step_count grid)%nat → rg = Z.max lookback range_ms →
  let r := selector_time_range grid lookback range_ms at_ offset in let t := eval_time grid at_ offset K in
  start_ms r ≤ t - rg ∧ t < end_ms_exclusive r.
Proof.
  intros HK Hr. cbv zeta. pose proof (eval_time_small K HK) as Hs. destruct Hp as [H1 H2 H3 H4 H5 H6 Hrg]. specialize (H4 K HK).
  assert (Ho : signed_ms offset = match offset with OffsetPos d => d | OffsetNeg d => - d end ∧ - 2 ^ 61 ≤ match offset with OffsetPos d => d | OffsetNeg d => - d end ≤ 2 ^ 61).
  { destruct offset as [d|d]; specialize (H6 d ltac:(auto)); cbn; [lia|]. rewrite as_signed_id; unfold in_i; lia. }
  destruct Ho as [Ho Hb]. unfold selector_time_range. rewrite Ho. unfold eval_time in *. set (off := match offset with OffsetPos d => d | OffsetNeg d => - d end) in *. clearbody off.
  destruct at_ as [[v| |]|]; cbn [start_ms end_ms_exclusive]; rewrite <- Hr; unfold i64_sat, i64_min, i64_max, sane in *; nia.
Qed.
End plan.

(** in order, the value of an instant depends on the samples of its window alone *)
Lemma instant_between lo hi col :
  in_order col →
  instant lo hi col = match last (between lo hi col) with Some (t, v) => if is_stale_nan v then None else Some (t, v) | None => None end.
Proof.
  intros Hs. unfold instant.
  assert (Hu : between lo hi col = filter (λ p : Z * Z, lo < p.1) (upto hi col)) by (rewrite list_filter_filter; apply list_filter_iff; intros; lia).
  rewrite Hu. assert (Hsu : in_order (upto hi col)) by (by apply sorted_filter). revert Hsu. generalize (upto hi col) as u. clear.
  intros u. destruct u as [|[t v] u _] using rev_ind; [done|]. intros Hs. rewrite last_snoc, filter_app, filter_cons, filter_nil. cbn [fst].
  destruct (Z.ltb_spec lo t) as [Hl|Hl].
  - rewrite decide_True by done. rewrite last_snoc. cbn. by destruct (is_stale_nan v).
  - rewrite decide_False by lia. rewrite app_nil_r, filter_none; [done|]. apply Forall_forall. intros p Hpu.
    assert (p.1 ≤ t); [|lia]. induction u as [|q u IH]; [by apply elem_of_nil in Hpu|]. cbn in Hs. apply StronglySorted_inv in Hs as [Hs Hq].
    apply elem_of_cons in Hpu as [->|Hpu]; [|by apply IH]. rewrite Forall_forall in Hq. apply (Hq (t, v)). apply elem_of_app. right. left.
Qed.

Section query.
Context {R : Type} {QR : QueryReader R} {RX : RegexSyntax} {B : Blake3} (reader : R) {QL : QueryReaderLaws reader}.
Context (completion : list Z → list Z) (completion_perm : ∀ ids, completion ids ≡ₚ ids).
Context (buckets : list TimeBucket) (specs : TimeBucket → gmap Z SeriesSpec) (store : TimeBucket → Z → bytes → list Sample).

(** the reader has these hour buckets, with an index of their series and their samples, in order and of the bucket's hour; a bucket
    has one series for a label set *)
Record reader_ok : Prop := {
  ro_buckets : qr_list_buckets reader = Ok buckets;
  ro_distinct : NoDup buckets;
  ro_hours : Forall hour_bucket buckets;
  ro_index_ok b : b ∈ buckets → bucket_indexed reader b (specs b);
  ro_one_series b i j : b ∈ buckets → is_Some (specs b !! i) → is_Some (specs b !! j) → labels_at (specs b) i = labels_at (specs b) j → i = j;
  ro_samples b id name from to : b ∈ buckets →
    qr_samples reader b id name from to = Ok (filter (λ s, from < timestamp_ms s ≤ to) (store b id name));
  ro_store_order b id name : b ∈ buckets → in_order (sample_pair <$> store b id name);
  ro_store_hour b id name : b ∈ buckets →
    Forall (λ s, (bucket_ms_window b).1 ≤ timestamp_ms s < (bucket_ms_window b).2) (store b id name);
}.

Context (Hok : reader_ok) (sel : VectorSelector) (Hsup : supported sel) (Hnar : narrows sel).

Abbreviation by_start := (λ a b : TimeBucket, bk_start a <=? bk_start b).

(** the buckets of the reader, oldest first, and those a selector looks at *)
Definition timeline : list TimeBucket := sort_by by_start buckets.
Definition hours (range : TimeRange) : list TimeBucket := sort_by by_start (filter (λ b, bucket_overlaps b range = true) buckets).

Lemma bucket_hour b : b ∈ buckets → hour_bucket b.
Proof. intros Hb. pose proof (ro_hours Hok) as Hf. rewrite Forall_forall in Hf. by apply Hf. Qed.

Lemma by_start_sorted l : StronglySorted (λ a b, by_start a b = true) (sort_by by_start l).
Proof. apply sort_by_sorted; [intros x y ?%Z.leb_gt; apply Z.leb_le; lia|intros x y z ?%Z.leb_le ?%Z.leb_le; apply Z.leb_le; lia]. Qed.

Lemma by_start_eq x y : x ∈ buckets → y ∈ buckets → by_start x y = true → by_start y x = true → x = y.
Proof. intros [Hx _]%bucket_hour [Hy _]%bucket_hour H1%Z.leb_le H2%Z.leb_le. destruct x, y. cbn in *. f_equal; lia. Qed.

Lemma timeline_perm : timeline ≡ₚ buckets.
Proof. apply sort_by_perm. Qed.

Lemma hours_timeline range : hours range = filter (λ b, bucket_overlaps b range = true) timeline.
Proof.
  apply (sorting.StronglySorted_unique_strong (λ a b, by_start a b = true)).
  - intros x y Hx Hy. unfold hours in Hx. rewrite sort_by_perm in Hx. apply list_elem_of_filter in Hx as [_ Hx], Hy as [_ Hy].
    rewrite timeline_perm in Hy. by apply by_start_eq.
  - apply by_start_sorted.
  - apply sorted_filter, by_start_sorted.
  - unfold hours. by rewrite sort_by_perm, timeline_perm.
Qed.

Lemma timeline_sorted : StronglySorted (λ a b, bk_start a < bk_start b) timeline.
Proof.
  pose proof (by_start_sorted buckets) as Hs. fold timeline in Hs.
  assert (Hnd : NoDup timeline) by (rewrite timeline_perm; apply Hok).
  assert (Hh : ∀ b, b ∈ timeline → b ∈ buckets) by (intros b; by rewrite timeline_perm).
  induction Hs as [|x l Hl IH Hx]; [constructor|]. apply NoDup_cons in Hnd as [Hx' Hnd]. constructor; [apply IH; [done|intros; apply Hh; by right]|].
  rewrite Forall_forall in Hx |- *. intros y Hy. specialize (Hx y Hy). destruct (decide (bk_start y ≤ bk_start x)) as [He|]; [|lia].
  exfalso. apply Hx'. assert (x = y) as ->; [|done]. apply by_start_eq; [apply Hh; left|apply Hh; by right|done|by apply Z.leb_le].
Qed.

(** hour buckets of the reader, oldest first *)
Definition some_hours (hs : list TimeBucket) : Prop := StronglySorted (λ a b, bk_start a < bk_start b) hs ∧ ∀ b, b ∈ hs → b ∈ buckets.

Lemma timeline_hours : some_hours timeline.
Proof. split; [apply timeline_sorted|]. intros b. by rewrite timeline_perm. Qed.

Lemma range_hours range : some_hours (hours range).
Proof.
  rewrite hours_timeline. split; [apply sorted_filter, timeline_sorted|]. intros b [_ Hb]%list_elem_of_filter. by rewrite <- timeline_perm.
Qed.

Definition entries_of (b : TimeBucket) : list (Labels * ResolvedSeriesRef) :=
  (λ id, (labels_at (specs b) id, series_at b (specs b) id)) <$> matching (specs b) sel.

Lemma resolve_buckets_spec bs c :
  (∀ b, b ∈ bs → b ∈ buckets) → cache_ok reader c →
  ∃ c', resolve_buckets reader completion sel bs c = (c', Ok <$> omap (λ b, chunk_of b (specs b) (matching (specs b) sel)) bs) ∧ cache_ok reader c'.
Proof.
  revert c. induction bs as [|b bs IH]; intros c Hb Hc; cbn [resolve_buckets]; [by exists c|].
  destruct (selector_exact reader completion completion_perm b (specs b) (ro_index_ok Hok b (Hb b ltac:(left))) sel Hsup Hnar c Hc) as [Hr Hc1].
  destruct (resolve_one_bucket reader completion b sel c) as [c1 r]. cbn in Hr, Hc1. subst r.
  destruct (IH c1 ltac:(intros; apply Hb; by right) Hc1) as (c' & Hrest & Hc'). exists c'. split; [|done].
  rewrite Hrest. cbn [omap list_omap]. by destruct (chunk_of b (specs b) (matching (specs b) sel)).
Qed.

Lemma chunk_entries b :
  match chunk_of b (specs b) (matching (specs b) sel) with Some c => zip (ch_labels c) (ch_series c) | None => [] end = entries_of b.
Proof.
  unfold entries_of, chunk_of. destruct (matching (specs b) sel) as [|i ids]; [done|]. cbn [ch_labels ch_series].
  generalize (i :: ids) as l. induction l as [|x l IH]; [done|]. cbn. by rewrite IH.
Qed.

(** the handles of a label set, a bucket after the other *)
Definition handles (hs : list TimeBucket) (labels : Labels) : list ResolvedSeriesRef :=
  hs ≫= λ b, series_at b (specs b) <$> filter (λ id, labels_at (specs b) id = labels) (matching (specs b) sel).

Lemma row_handles hs labels : row (hs ≫= entries_of) labels = handles hs labels.
Proof.
  unfold row, handles. induction hs as [|b bs IH]; [done|]. cbn [mbind list_bind]. rewrite filter_app, fmap_app. f_equal; [|exact IH].
  unfold entries_of. rewrite filter_fmap, <- list_fmap_compose. f_equal. apply filter_same. intros id _. cbn.
  unfold labels_at. by rewrite canonical_sorted.
Qed.

Lemma one_handle b labels :
  b ∈ buckets →
  let f := series_at b (specs b) <$> filter (λ id, labels_at (specs b) id = labels) (matching (specs b) sel) in
  f = [] ∨ ∃ id, f = [series_at b (specs b) id].
Proof.
  intros Hb. cbv zeta. set (ids := filter _ _). assert (Hnd : NoDup ids) by (apply NoDup_filter, NoDup_filter, series_ids_nodup).
  assert (Hone : ∀ i j, i ∈ ids → j ∈ ids → i = j).
  { intros i j [Hi [Hi' _]%list_elem_of_filter]%list_elem_of_filter [Hj [Hj' _]%list_elem_of_filter]%list_elem_of_filter. unfold spec_keeps in *.
    apply (ro_one_series Hok b i j Hb); [by destruct (specs b !! i)|by destruct (specs b !! j)|congruence]. }
  destruct ids as [|i [|j ids]]; [by left|right; by exists i|]. exfalso. assert (i = j) as -> by (apply Hone; [left|right; left]).
  apply NoDup_cons in Hnd as [Hn _]. apply Hn. left.
Qed.

Lemma elem_of_handles hs labels ref :
  ref ∈ handles hs labels ↔ ∃ b id, b ∈ hs ∧ id ∈ matching (specs b) sel ∧ labels_at (specs b) id = labels ∧ ref = series_at b (specs b) id.
Proof.
  unfold handles. rewrite list_elem_of_bind. split.
  - intros (b & (id & -> & [Hl Hid]%list_elem_of_filter)%list_elem_of_fmap & Hb). by exists b, id.
  - intros (b & id & Hb & Hid & Hl & ->). exists b. split; [|done]. apply list_elem_of_fmap. exists id. by rewrite list_elem_of_filter.
Qed.

(** what a handle is: a series of a bucket of the reader *)
Lemma handle_bucket hs labels ref :
  some_hours hs → ref ∈ handles hs labels → ∃ b id, b ∈ buckets ∧ ref = series_at b (specs b) id ∧
    sref_bucket_id ref = bk_start b * 256 + 1 ∧ decode_bucket (sref_bucket_id ref) = Some b.
Proof.
  intros [_ Hin] (b & id & Hb%Hin & _ & _ & ->)%elem_of_handles. exists b, id. split; [done|]. split; [done|]. apply bucket_id_roundtrip, bucket_hour, Hb.
Qed.

Lemma handles_sorted hs labels : some_hours hs → StronglySorted (λ r r', sref_bucket_id r < sref_bucket_id r') (handles hs labels).
Proof.
  intros [Hs Hin]. induction Hs as [|b bs Hs IH Hb]; [constructor|]. specialize (IH ltac:(intros; apply Hin; by right)).
  assert (Hbs : some_hours bs) by (split; [done|intros; apply Hin; by right]).
  unfold handles. cbn [mbind list_bind]. fold (handles bs labels). pose proof (Hin b ltac:(left)) as Hbb.
  destruct (one_handle b labels Hbb) as [-> | [id ->]]; [done|]. cbn [app]. constructor; [done|].
  apply Forall_forall. intros ref Hr. pose proof Hr as (b' & id' & Hb' & _ & _ & ->)%elem_of_handles. cbn.
  rewrite Forall_forall in Hb. specialize (Hb b' Hb').
  destruct (bucket_id_roundtrip b (bucket_hour b Hbb)) as [-> _], (bucket_id_roundtrip b' (bucket_hour b' (Hin b' ltac:(by right)))) as [-> _]. lia.
Qed.

(** ** The samples of a label set *)
Definition ref_samples (ref : ResolvedSeriesRef) : column :=
  match decode_bucket (sref_bucket_id ref) with Some b => sample_pair <$> store b (sref_series_id ref) (sref_metric_name ref) | None => [] end.

(** everything the reader has for the label set, in every bucket where the selector matches it *)
Definition history (labels : Labels) : column := handles timeline labels ≫= ref_samples.

(** what a leaf is given: the samples in a window of the buckets it looks at *)
Definition delivered (range : TimeRange) (labels : Labels) (window : TimeRange) : column := handles (hours range) labels ≫= reader_data reader window.

Lemma reader_data_store hs labels window ref :
  some_hours hs → ref ∈ handles hs labels →
  reader_data reader window ref =
    filter (λ p : Z * Z, i64_sat (start_ms window - 1) < p.1 ≤ i64_sat (end_ms_exclusive window - 1)) (ref_samples ref).
Proof.
  intros Hs (b & id & Hb & -> & _ & Hd)%(handle_bucket hs); [|done]. unfold reader_data, ref_samples. rewrite Hd, (ro_samples Hok) by done.
  by rewrite filter_fmap.
Qed.

Lemma bind_in_order {A} (refs : list A) (d : A → column) :
  StronglySorted (λ a b, ∀ x y, x ∈ d a → y ∈ d b → x.1 ≤ y.1) refs → Forall (λ r, in_order (d r)) refs → in_order (refs ≫= d).
Proof.
  induction 1 as [|r refs Hs IH Hr]; intros Hf; [constructor|]. apply Forall_cons in Hf as [Hf1 Hf]. cbn [mbind list_bind].
  apply sorted_app; [done|by apply IH|]. intros x y Hx (r' & Hy & Hr')%list_elem_of_bind. rewrite Forall_forall in Hr. by apply (Hr r').
Qed.

Lemma ref_samples_hour b id x : b ∈ buckets → x ∈ ref_samples (series_at b (specs b) id) → (bucket_ms_window b).1 ≤ x.1 < (bucket_ms_window b).2.
Proof.
  intros Hb. unfold ref_samples, series_at. cbn [sref_bucket_id sref_series_id sref_metric_name].
  destruct (bucket_id_roundtrip b (bucket_hour b Hb)) as [_ ->]. intros (s & -> & Hs)%list_elem_of_fmap.
  pose proof (ro_store_hour Hok b id (value_of (labels_at (specs b) id) name_label) Hb) as Hf. rewrite Forall_forall in Hf. by apply Hf.
Qed.

(** samples of handles are in order when each handle's are and none is out of its hour *)
Lemma handles_in_order hs labels (d : ResolvedSeriesRef → column) :
  some_hours hs → (∀ ref, ref ∈ handles hs labels → in_order (d ref) ∧ d ref ⊆ ref_samples ref) → in_order (handles hs labels ≫= d).
Proof.
  intros Hhs Hd. apply bind_in_order; [|apply Forall_forall; intros; by apply Hd]. pose proof (handles_sorted hs labels Hhs) as Hs.
  pose proof (λ r, handle_bucket hs labels r Hhs) as Hel.
  induction Hs as [|r l Hs IH Hr]; [constructor|]. constructor; [apply IH; intros; first [apply Hd; by right|apply Hel; by right]|].
  rewrite Forall_forall in Hr |- *. intros r' Hr' x y Hx Hy. specialize (Hr r' Hr').
  apply (proj2 (Hd r ltac:(left))) in Hx. apply (proj2 (Hd r' ltac:(by right))) in Hy.
  destruct (Hel r ltac:(left)) as (b & id & Hb & -> & E1 & _), (Hel r' ltac:(by right)) as (b' & id' & Hb' & -> & E2 & _).
  apply ref_samples_hour in Hx, Hy; [|done|done]. pose proof (hours_apart b b' (bucket_hour b Hb) (bucket_hour b' Hb') ltac:(lia)). lia.
Qed.

Lemma ref_samples_in_order b id : b ∈ buckets → in_order (ref_samples (series_at b (specs b) id)).
Proof.
  intros Hb. unfold ref_samples, series_at. cbn [sref_bucket_id sref_series_id sref_metric_name].
  destruct (bucket_id_roundtrip b (bucket_hour b Hb)) as [_ ->]. by apply (ro_store_order Hok).
Qed.

Lemma history_in_order labels : in_order (history labels).
Proof.
  apply handles_in_order; [apply timeline_hours|]. intros ref (b & id & Hb & -> & _)%(handle_bucket timeline); [|apply timeline_hours].
  split; [by apply ref_samples_in_order|done].
Qed.

Lemma delivered_in_order range labels window : in_order (delivered range labels window).
Proof.
  apply handles_in_order; [apply range_hours|]. intros ref Hr. pose proof Hr as (b & id & Hb & E & _)%(handle_bucket _ _ _ (range_hours range)).
  rewrite (reader_data_store _ _ window _ (range_hours range) Hr). subst ref. split; [by apply sorted_filter, ref_samples_in_order|].
  intros x. by intros [_ ?]%list_elem_of_filter.
Qed.

Lemma filter_bind {A X} (P : X → Prop) `{!∀ x, Decision (P x)} (l : list A) (f : A → list X) : filter P (l ≫= f) = l ≫= λ a, filter P (f a).
Proof. induction l as [|a l IH]; [done|]. cbn [mbind list_bind]. by rewrite filter_app, IH. Qed.

Lemma bind_filter {A X} (P : A → Prop) `{!∀ x, Decision (P x)} (l : list A) (f : A → list X) :
  (∀ a, a ∈ l → ¬ P a → f a = []) → filter P l ≫= f = l ≫= f.
Proof.
  induction l as [|a l IH]; intros Hn; [done|]. rewrite filter_cons. case_decide as Hp; cbn [mbind list_bind];
    (rewrite IH; [|intros; apply Hn; [by right|done]]); [done|].
  by rewrite (Hn a ltac:(left) Hp).
Qed.

Lemma bind_bind {A X Y} (l : list A) (f : A → list X) (g : X → list Y) : (l ≫= f) ≫= g = l ≫= λ a, f a ≫= g.
Proof. induction l as [|a l IH]; [done|]. cbn [mbind list_bind]. by rewrite bind_app, <- IH. Qed.

(** a window of time that a range and a request both cover has the same samples in what is delivered as in the history *)
Lemma delivered_between range labels window lo hi :
  i64_sat (start_ms window - 1) ≤ lo → hi ≤ i64_sat (end_ms_exclusive window - 1) →
  start_ms range ≤ lo + 1 → hi < end_ms_exclusive range →
  between lo hi (delivered range labels window) = between lo hi (history labels).
Proof.
  intros Hw1 Hw2 Hr1 Hr2. unfold delivered, history. rewrite !filter_bind.
  trans (handles (hours range) labels ≫= λ ref, between lo hi (ref_samples ref)).
  { apply bind_same. intros ref Hr. rewrite (reader_data_store _ _ window _ (range_hours range) Hr), list_filter_filter. apply list_filter_iff. intros x. lia. }
  rewrite hours_timeline. unfold handles. rewrite !bind_bind. apply bind_filter.
  intros b Hb Hov. rewrite timeline_perm in Hb. rewrite (bind_same _ _ (λ _, [])), bind_nil; [done|].
  intros ref (id & -> & _)%list_elem_of_fmap. apply filter_none, Forall_forall. intros x Hx%ref_samples_hour Hp; [|done].
  apply Hov. unfold bucket_overlaps, range_is_empty. destruct (bucket_ms_window b) as [b0 b1]. cbn in Hx.
  rewrite (proj2 (Z.leb_gt _ _)) by lia. apply negb_true_iff, orb_false_iff. split; apply Z.leb_gt; lia.
Qed.

Lemma leaf_bytes_nonneg labels : 0 ≤ leaf_bytes labels.
Proof.
  unfold leaf_bytes. assert (H : ∀ (l : list Labels) a, 0 ≤ a → 0 ≤ foldl usize_add a ((λ l, usize_mul (blen l) 48) <$> l)).
  { induction l as [|x l IH]; intros a Ha; cbn; [done|]. apply IH. unfold usize_add, usize_mul, USIZE_MAX, u_max, blen. lia. }
  specialize (H labels 0 ltac:(lia)). pose proof (usize_mul_nonneg (blen labels) 32). unfold usize_add, USIZE_MAX, u_max, blen in *. lia.
Qed.

Lemma sorted_impl {A} (P Q : A → A → Prop) l : (∀ x y, P x y → Q x y) → StronglySorted P l → StronglySorted Q l.
Proof. intros H. induction 1 as [|x l _ IH Hf]; constructor; [done|]. eapply Forall_impl; [exact Hf|auto]. Qed.

(** the leaf of a selector: a row for every label set that matches, with its handles, or the limit of the ledger *)
Lemma resolve_leaf_spec range c m src m' r :
  cache_ok reader c → mem_ok m →
  @resolve_leaf B (R * IndexCache) (query_reader_source completion) (reader, c) sel range m = (src, m', r) →
  src.1 = reader ∧ cache_ok reader src.2 ∧
  match r with
  | Ok leaf =>
      NoDup (sch_labels (rl_schema leaf)) ∧ rl_request_series leaf = handles (hours range) <$> sch_labels (rl_schema leaf) ∧
      ∀ labels, labels ∈ sch_labels (rl_schema leaf) ↔ ∃ b id, b ∈ hours range ∧ id ∈ matching (specs b) sel ∧ labels_at (specs b) id = labels
  | Err e => ∃ q, e = PlanMemoryLimit q
  | Panic => False
  end.
Proof.
  intros Hc Hm. unfold resolve_leaf. cbn [ss_resolve query_reader_source fst snd]. unfold resolve_stream. rewrite (ro_buckets Hok). cbn [internal res_map_err].
  fold (hours range). destruct (resolve_buckets_spec (hours range) c) as (c' & -> & Hc'); [apply range_hours|done|].
  destruct (roster_chunks_ok (omap (λ b, chunk_of b (specs b) (matching (specs b) sel)) (hours range)) [] _ roster_empty_ok) as (ro & -> & Hro). cbn [app] in Hro.
  assert (Hent : (omap (λ b, chunk_of b (specs b) (matching (specs b) sel)) (hours range) ≫= λ c, zip (ch_labels c) (ch_series c)) = hours range ≫= entries_of).
  { clear. induction (hours range) as [|b bs IH]; [done|]. cbn [omap list_omap mbind list_bind]. rewrite <- (chunk_entries b).
    destruct (chunk_of b (specs b) (matching (specs b) sel)); cbn [mbind list_bind]; [by rewrite <- IH|done]. }
  rewrite Hent in Hro. destruct (try_grow m _) as [m1 g] eqn:Eg. intros [= <- <- <-]. split; [done|]. split; [done|].
  pose proof (leaf_bytes_nonneg (ro_labels ro)) as Hb.
  destruct (try_grow_spec _ _ _ _ Hm Hb Eg) as (_ & _ & Hg). destruct g as [[]|e|]; cbn [res_map_err res_bind]; [| |done].
  2:{ destruct Hg as (_ & -> & _). cbn. eauto. }
  destruct Hro as [H1 _ H3 H4 H5]. unfold schema_new. rewrite H5, Nat.eqb_refl. cbn. split; [done|]. split.
  - rewrite H3, <- list_fmap_compose. apply list_fmap_ext. intros i l _. cbn. rewrite row_handles. apply sort_by_id.
    pose proof (handles_sorted (hours range) l (range_hours range)) as Hs. eapply sorted_impl; [|exact Hs]. intros r r' Hr. unfold sref_le. by rewrite (proj2 (Z.compare_lt_iff _ _) Hr).
  - intros labels. rewrite H4. rewrite list_elem_of_fmap. setoid_rewrite list_elem_of_bind. split.
    + intros (e & -> & b & (id & -> & Hid)%list_elem_of_fmap & Hb'). exists b, id. cbn. unfold labels_at. by rewrite canonical_sorted.
    + intros (b & id & Hb' & Hid & <-). exists (labels_at (specs b) id, series_at b (specs b) id). cbn. split; [unfold labels_at; by rewrite canonical_sorted|].
      exists b. split; [|done]. apply list_elem_of_fmap. eauto.
Qed.
(** ** Queries *)
Section leaf.
Context (grid : StepGrid) (at_ : option AtModifier) (offset : Offset) (rg : Z) (Hp : plan_ok grid at_ offset rg).

(** a leaf over a range that covers the steps: its rows, and that what it is given for a row has, in the window of a step, the history of the label set *)
Record leaf_ok (range : TimeRange) (leaf : ResolvedLeaf) : Prop := {
  lk_rows : NoDup (sch_labels (rl_schema leaf));
  lk_refs : rl_request_series leaf = handles (hours range) <$> sch_labels (rl_schema leaf);
  lk_all labels : labels ∈ sch_labels (rl_schema leaf) ↔ ∃ b id, b ∈ hours range ∧ id ∈ matching (specs b) sel ∧ labels_at (specs b) id = labels;
}.

Definition leaf_op_of (leaf : ResolvedLeaf) : LeafOp := planned (rl_schema leaf) (rl_request_series leaf) grid at_ offset rg.

Lemma leaf_data range leaf I labels :
  leaf_ok range leaf → sch_labels (rl_schema leaf) !! I = Some labels →
  op_data (reader_data reader) (leaf_op_of leaf) I = delivered range labels (op_window (leaf_op_of leaf)).
Proof.
  intros [_ Hr _] Hl. unfold op_data, series_data. cbn [lo_request_series leaf_op_of planned]. rewrite Hr.
  rewrite (list_lookup_total_correct _ _ (handles (hours range) labels)); [done|]. by rewrite list_lookup_fmap, Hl.
Qed.

Lemma leaf_data_ok range leaf : leaf_ok range leaf → data_ok (reader_data reader) (leaf_op_of leaf).
Proof.
  intros Hk I HI. cbn [lo_request_series leaf_op_of planned] in HI. rewrite (lk_refs _ _ Hk), length_fmap in HI.
  destruct (lookup_lt_is_Some_2 _ _ HI) as [labels Hl]. rewrite (leaf_data range leaf I labels Hk Hl). apply delivered_in_order.
Qed.

Abbreviation low K := (eval_time grid at_ offset K - rg).
Abbreviation high K := (eval_time grid at_ offset K).

Lemma leaf_window leaf K :
  (K < g_step_count grid)%nat →
  time_at (lo_times (leaf_op_of leaf)) K = high K ∧ window_lo (lo_times (leaf_op_of leaf)) (lo_rg (leaf_op_of leaf)) K = low K.
Proof.
  intros HK. assert (Ht : time_at (lo_times (leaf_op_of leaf)) K = high K).
  { unfold time_at. apply list_lookup_total_correct. unfold leaf_op_of. by rewrite planned_times, list_lookup_fmap, lookup_seq_lt. }
  split; [done|]. unfold window_lo. rewrite Ht. cbn [lo_rg leaf_op_of planned]. pose proof (eval_time_small _ _ _ _ Hp K HK). destruct Hp as [_ _ _ _ _ _ Hrg].
  unfold i64_sat, i64_min, i64_max. lia.
Qed.

Definition covers_steps (range : TimeRange) : Prop := ∀ K, (K < g_step_count grid)%nat → start_ms range ≤ low K ∧ high K < end_ms_exclusive range.

Lemma leaf_between range leaf labels K :
  covers_steps range → (K < g_step_count grid)%nat →
  between (low K) (high K) (delivered range labels (op_window (leaf_op_of leaf))) = between (low K) (high K) (history labels).
Proof.
  intros Hc HK. destruct (Hc K HK) as [Hc1 Hc2]. destruct (window_covers_step _ _ _ _ Hp (rl_schema leaf) (rl_request_series leaf) K HK) as [Hw1 Hw2].
  apply delivered_between; [done|done|lia|done].
Qed.

Lemma no_row range leaf labels K :
  leaf_ok range leaf → covers_steps range → (K < g_step_count grid)%nat → labels ∉ sch_labels (rl_schema leaf) →
  between (low K) (high K) (history labels) = [].
Proof.
  intros Hk Hc HK Hn. rewrite <- (leaf_between range leaf labels K Hc HK). unfold delivered.
  destruct (handles (hours range) labels) as [|ref refs] eqn:Eh; [done|]. exfalso. apply Hn, (lk_all _ _ Hk).
  assert (Hin : ref ∈ handles (hours range) labels) by (rewrite Eh; left). apply elem_of_handles in Hin as (b & id & Hb & Hid & Hl & _). by exists b, id.
Qed.

(** the plan of a leaf: what [resolve_leaf] gives, checked by [new] *)
Lemma leaf_rows range leaf : leaf_ok range leaf → (schema_len (rl_schema leaf) =? length (rl_request_series leaf))%nat = true.
Proof. intros [_ -> _]. unfold schema_len. rewrite length_fmap. apply Nat.eqb_refl. Qed.

Lemma leaf_resolved range c m src m' r :
  cache_ok reader c → mem_ok m →
  @resolve_leaf B (R * IndexCache) (query_reader_source completion) (reader, c) sel range m = (src, m', r) →
  match r with Ok leaf => leaf_ok range leaf | Err e => ∃ q, e = PlanMemoryLimit q | Panic => False end.
Proof.
  intros Hc Hm Hr. destruct (resolve_leaf_spec range c m src m' r Hc Hm Hr) as (_ & _ & Hs). destruct r as [leaf|e|]; [|done|done].
  destruct Hs as (H1 & H2 & H3). by split.
Qed.
End leaf.

(** the label sets of a query's result *)
Definition rows (op : LeafOp) : list Labels := sch_labels (lo_schema op).

(** C7: a query for an instant vector over the buckets of a reader, for the selectors the code understands: a metric name, equalities,
    inequalities with a non-empty value and patterns that are alternations of non-empty literals ([supported]), with a name, an equality to a
    non-empty value or exactly one positive pattern among them ([narrows]; [unmatched_regex_forgotten] shows the others go wrong).  The reader answers for
    hour buckets with one series for a label set in each ([reader_ok]); the plan's times are within 2^61 ms of the epoch, its steps
    before its end and [@] not before the epoch ([plan_ok]).  Then the plan fails with the memory limit only; when its polls end
    without a failure, every label set the selector matches has, at every step, the latest sample at most the lookback before the step's time in
    everything the reader stores for it, in exactly one cell of the batches (nothing when that sample is stale: a stale marker
    ends the series); a label set without a row has nothing to show at any step, and no poll panics. *)
Theorem instant_query_exact grid at_ offset lookback c m src m' r :
  plan_ok grid at_ offset lookback → cache_ok reader c → mem_ok m →
  build_vector_selector (SS := query_reader_source completion) (reader, c) sel grid at_ offset lookback m = (src, m', r) →
  match r with
  | Ok op =>
      NoDup (rows op) ∧
      ∀ outs st', vector_run (samples_stream reader) op Init outs st' →
      Forall (λ o, o.2 ≠ Ready (Some Panic)) outs ∧
      (existsb is_failure outs = false → existsb is_end outs = true → ∀ K labels, (K < g_step_count grid)%nat →
       let t := eval_time grid at_ offset K in
       let value := instant (t - lookback) t (history labels) in
       (labels ∉ rows op → value = None) ∧
       ∀ I, rows op !! I = Some labels →
       ∃ b, filter (batch_covers K I) (emitted outs) = [b] ∧
            batch_get (E := QueryError) b (K - r_start (b_step_range b)) (I - r_start (b_series_range b)) = Ok (snd <$> value))
  | Err e => ∃ q, e = PlanMemoryLimit q
  | Panic => False
  end.
Proof.
  intros Hp Hc Hm Hb. unfold build_vector_selector in Hb. destruct (resolve_leaf _ _ _ _) as [[src1 m1] r1] eqn:Er. injection Hb as -> -> <-.
  pose proof (leaf_resolved _ c m _ _ _ Hc Hm Er) as Hl. destruct r1 as [leaf|e|]; [|done|done]. cbn [res_bind].
  unfold vector_selector_new. rewrite (leaf_rows _ _ Hl). cbn [rust_assert res_bind]. fold (leaf_op_of grid at_ offset lookback leaf).
  assert (Hcov : covers_steps grid at_ offset lookback (selector_time_range grid lookback 0 at_ offset)).
  { intros K HK. apply (range_covers_step _ _ _ _ Hp); [done|]. pose proof (po_rg _ _ _ _ Hp). lia. }
  split; [apply Hl|]. intros outs st' Hrun.
  destruct (instant_vector_exact (samples_stream reader) (reader_data reader) (leaf_op_of grid at_ offset lookback leaf) outs st' _ (plan_op_ok _ _ _ _ Hp _ _) (leaf_data_ok grid at_ offset lookback _ leaf Hl) Hrun)
    as (H1 & _ & H3 & _).
  split; [done|]. intros Hf He K labels HK. cbv zeta. rewrite (instant_between _ _ (history labels)) by apply history_in_order. split.
  - intros Hn. by rewrite (no_row grid at_ offset lookback Hp _ leaf labels K Hl Hcov HK Hn).
  - intros I HI. assert (Hlen : (I < length (lo_request_series (leaf_op_of grid at_ offset lookback leaf)))%nat).
    { cbn. rewrite (lk_refs _ _ Hl), length_fmap. by eapply lookup_lt_Some. }
    destruct (H3 Hf He K I HK Hlen) as (b & Hb & Hv). exists b. split; [done|]. rewrite Hv. unfold instant_at.
    destruct (leaf_window grid at_ offset lookback Hp leaf K HK) as [-> ->]. rewrite (leaf_data _ _ _ _ _ leaf I labels Hl HI).
    by rewrite instant_between, (leaf_between grid at_ offset lookback Hp) by (done || apply delivered_in_order).
Qed.

(** C11: a query for range windows over the buckets of a reader, for the selectors, readers and plans of the instant query ([supported],
    [narrows], [reader_ok], [plan_ok]) and a range that is not empty: the plan fails with the memory limit only; when its polls (with a memory limit below 64 GiB) end without a failure, every
    label set the selector matches has, at every step, the samples of the range before the step's time in everything the reader stores
    for it, in order and without the stale ones, in exactly one cell of the batches; a label set without a row has none, and no poll panics. *)
Theorem range_query_exact grid at_ offset range_ms c m src m' r :
  plan_ok grid at_ offset range_ms → 0 < range_ms → cache_ok reader c → mem_ok m →
  build_matrix_selector (SS := query_reader_source completion) (reader, c) sel grid at_ offset range_ms m = (src, m', r) →
  match r with
  | Ok op =>
      NoDup (rows op) ∧
      ∀ outs st', matrix_run (samples_stream reader) op Init outs st' →
      Forall (λ o, o.2 ≠ Ready (Some Panic)) outs ∧
      (existsb is_failure outs = false → existsb is_end outs = true → ∀ K labels, (K < g_step_count grid)%nat →
       let t := eval_time grid at_ offset K in
       let samples := range_window (t - range_ms) t (history labels) in
       (labels ∉ rows op → samples = []) ∧
       ∀ I, rows op !! I = Some labels →
       ∃ w, filter (window_covers K I) (emitted outs) = [w] ∧
            cell_samples (E := QueryError) w (K - r_start (w_step_range w)) (I - r_start (w_series_range w)) = Ok (samples.*1, samples.*2))
  | Err e => ∃ q, e = PlanMemoryLimit q
  | Panic => False
  end.
Proof.
  intros Hp Hpos Hc Hm Hb. unfold build_matrix_selector in Hb. destruct (resolve_leaf _ _ _ _) as [[src1 m1] r1] eqn:Er. injection Hb as -> -> <-.
  pose proof (leaf_resolved _ c m _ _ _ Hc Hm Er) as Hl. destruct r1 as [leaf|e|]; [|done|done]. cbn [res_bind].
  unfold matrix_selector_new. rewrite (leaf_rows _ _ Hl), (proj2 (Z.ltb_lt _ _) Hpos). cbn [rust_assert res_bind]. fold (leaf_op_of grid at_ offset range_ms leaf).
  assert (Hcov : covers_steps grid at_ offset range_ms (selector_time_range grid 0 range_ms at_ offset)).
  { intros K HK. apply (range_covers_step _ _ _ _ Hp); [done|]. lia. }
  split; [apply Hl|]. intros outs st' Hrun.
  destruct (range_windows_exact (samples_stream reader) (reader_data reader) (leaf_op_of grid at_ offset range_ms leaf) outs st' _ (plan_op_ok _ _ _ _ Hp _ _) (leaf_data_ok grid at_ offset range_ms _ leaf Hl)
    (proj1 (po_rg _ _ _ _ Hp)) Hrun) as (H1 & _ & H3 & _).
  split; [done|]. intros Hf He K labels HK. cbv zeta. unfold range_window. split.
  - intros Hn. by rewrite (no_row grid at_ offset range_ms Hp _ leaf labels K Hl Hcov HK Hn).
  - intros I HI. assert (Hlen : (I < length (lo_request_series (leaf_op_of grid at_ offset range_ms leaf)))%nat).
    { cbn. rewrite (lk_refs _ _ Hl), length_fmap. by eapply lookup_lt_Some. }
    destruct (H3 Hf He K I HK Hlen) as (b & Hb & Hv). exists b. split; [done|]. rewrite Hv. unfold window_at, range_window.
    destruct (leaf_window grid at_ offset range_ms Hp leaf K HK) as [-> ->]. rewrite (leaf_data _ _ _ _ _ leaf I labels Hl HI).
    by rewrite (leaf_between grid at_ offset range_ms Hp).
Qed.
End query.

(** ** A query on a table of one series, in one hour *)
#[local] Instance literal_patterns : RegexSyntax := { regex_parse p := Some (HirLiteral p) }.
#[local] Instance plain_digest : Blake3 := { blake3 bs := bs }.

Definition first_hour : TimeBucket := mkBucket 60 1.
Definition up_samples (b : TimeBucket) (id : Z) : list Sample :=
  if bool_decide (b = first_hour) && (id =? 7) then [mkSample 3600010 1; mkSample 3600500 2; mkSample 3600600 3] else [].
Abbreviation up := (up_table [first_hour] up_samples).
Definition up_selector : VectorSelector := mkSelector (Some [x75; x70]) [].
Definition up_grid : StepGrid := mkGrid 3600100 3600700 300 3.

Lemma up_samples_ok b id :
  in_order (sample_pair <$> up_samples b id) ∧ Forall (λ s, (bucket_ms_window b).1 ≤ timestamp_ms s < (bucket_ms_window b).2) (up_samples b id).
Proof.
  unfold up_samples. case_bool_decide as Hb; [|split; constructor]. subst. destruct (id =? 7); cbn [andb]; [|split; constructor].
  split; [repeat constructor; cbn; lia|]. repeat constructor; vm_compute; done.
Qed.

#[local] Instance up_laws : QueryReaderLaws up.
Proof.
  split; [done|]. intros b id name from to l [= <-]. destruct (up_samples_ok b id) as [H1 H2]. split_and!.
  - replace (sample_pair <$> filter _ _) with (filter (λ p : Z * Z, from < p.1 ≤ to) (sample_pair <$> up_samples b id)) by (by rewrite filter_fmap). by apply sorted_filter.
  - apply Forall_forall. by intros s [? _]%list_elem_of_filter.
  - rewrite Forall_forall in H2 |- *. intros s [_ ?]%list_elem_of_filter. by apply H2.
Qed.

Lemma up_reader_ok : reader_ok up [first_hour] (λ _, tb_specs up) (λ b id _, up_samples b id).
Proof.
  split; try done.
  - apply NoDup_singleton.
  - repeat constructor; cbn; lia.
  - intros b _. apply table_indexed, up_wf.
  - intros b i j _ [? Hi] [? Hj] _. cbn [tb_specs up_table] in Hi, Hj. apply lookup_singleton_Some in Hi as [<- _], Hj as [<- _]. done.
  - intros b id _ _. apply up_samples_ok.
  - intros b id _ _. apply up_samples_ok.
Qed.

Lemma up_selector_ok : supported up_selector ∧ narrows up_selector.
Proof. split; [by split|by left]. Qed.

Lemma up_plan_ok rg : 0 ≤ rg ≤ 1000 → plan_ok up_grid None (OffsetPos 0) rg.
Proof.
  intros Hr. split; try (unfold sane; cbn [g_start_ms g_end_ms g_step_ms up_grid]; lia); [|intros v [=]|intros d [[= <-]|[=]]; lia].
  intros K. cbn [g_start_ms g_end_ms g_step_ms g_step_count up_grid]. lia.
Qed.

Definition up_op (rg : Z) : LeafOp :=
  planned (mkSchema [up_labels] [fingerprint up_labels]) [[mkSeriesRef 15361 7 [x75; x70]]] up_grid None (OffsetPos 0) rg.

Lemma instant_query_witness :
  ∃ b, vector_run (samples_stream up) (up_op 250) Init [(2%nat, Ready (Some (Ok b))); (1%nat, Ready None)] Done ∧
       (λ K, batch_get (E := QueryError) b K 0) <$> [0; 1; 2]%nat = [Ok (Some 1); Ok None; Ok (Some 3)] ∧
       ∃ b', filter (batch_covers 2 0) [b] = [b'] ∧
         batch_get (E := QueryError) b' (2 - r_start (b_step_range b')) (0 - r_start (b_series_range b')) =
           Ok (snd <$> instant 3600450 3600700 (history [first_hour] (λ _, tb_specs up) (λ b id _, up_samples b id) up_selector up_labels)).
Proof.
  assert (Hbuild : (build_vector_selector (SS := query_reader_source (λ ids, ids)) (up, cache_new) up_selector up_grid None (OffsetPos 0) 250 (new_reservation 100000)).2 = Ok (up_op 250))
    by (vm_compute; reflexivity).
  destruct (build_vector_selector _ _ _ _ _ _ _) as [[src m'] r] eqn:E. cbn in Hbuild. subst r.
  pose proof (instant_query_exact up (λ ids, ids) (λ ids, reflexivity ids) [first_hour] (λ _, tb_specs up) (λ b id _, up_samples b id) up_reader_ok up_selector
    (proj1 up_selector_ok) (proj2 up_selector_ok) up_grid None (OffsetPos 0) 250 cache_new (new_reservation 100000) src m' (Ok (up_op 250))
    (up_plan_ok 250 ltac:(lia)) ltac:(by split) ltac:(by vm_compute) E) as [_ H].
  assert (Hrun : ∃ b, vector_run (samples_stream up) (up_op 250) Init [(2%nat, Ready (Some (Ok b))); (1%nat, Ready None)] Done ∧
       (λ K, batch_get (E := QueryError) b K 0) <$> [0; 1; 2]%nat = [Ok (Some 1); Ok None; Ok (Some 3)]).
  { eexists. split.
    eapply (run_poll _ _ _ _ _ _ _ _ _ _ (new_reservation 100000)); [split; vm_compute; done|done|vm_compute; reflexivity|].
    eapply (run_poll _ _ _ _ _ _ _ _ _ _ (mkMem 100000 100 100)); [split; vm_compute; done|done|vm_compute; reflexivity|constructor].
    vm_compute; reflexivity. }
  destruct Hrun as (b & Hrun & Hv). exists b. split; [done|]. split; [done|].
  destruct (H _ _ Hrun) as [_ H2]. destruct (H2 eq_refl eq_refl 2%nat up_labels ltac:(cbn; lia)) as [_ H3]. exact (H3 0%nat eq_refl).
Defined.

Lemma range_query_witness :
  ∃ w, matrix_run (samples_stream up) (up_op 500) Init [(2%nat, Ready (Some (Ok w))); (1%nat, Ready None)] Done ∧
       (λ K, cell_samples (E := QueryError) w K 0) <$> [0; 1; 2]%nat =
         [Ok ([3600010], [1]); Ok ([3600010], [1]); Ok ([3600500; 3600600], [2; 3])] ∧
       ∃ w', filter (window_covers 2 0) [w] = [w'] ∧
         let samples := range_window 3600200 3600700 (history [first_hour] (λ _, tb_specs up) (λ b id _, up_samples b id) up_selector up_labels) in
         cell_samples (E := QueryError) w' (2 - r_start (w_step_range w')) (0 - r_start (w_series_range w')) = Ok (samples.*1, samples.*2).
Proof.
  assert (Hbuild : (build_matrix_selector (SS := query_reader_source (λ ids, ids)) (up, cache_new) up_selector up_grid None (OffsetPos 0) 500 (new_reservation 100000)).2 = Ok (up_op 500))
    by (vm_compute; reflexivity).
  destruct (build_matrix_selector _ _ _ _ _ _ _) as [[src m'] r] eqn:E. cbn in Hbuild. subst r.
  pose proof (range_query_exact up (λ ids, ids) (λ ids, reflexivity ids) [first_hour] (λ _, tb_specs up) (λ b id _, up_samples b id) up_reader_ok up_selector
    (proj1 up_selector_ok) (proj2 up_selector_ok) up_grid None (OffsetPos 0) 500 cache_new (new_reservation 100000) src m' (Ok (up_op 500))
    (up_plan_ok 500 ltac:(lia)) ltac:(lia) ltac:(by split) ltac:(by vm_compute) E) as [_ H].
  assert (Hrun : ∃ w, matrix_run (samples_stream up) (up_op 500) Init [(2%nat, Ready (Some (Ok w))); (1%nat, Ready None)] Done ∧
       (λ K, cell_samples (E := QueryError) w K 0) <$> [0; 1; 2]%nat =
         [Ok ([3600010], [1]); Ok ([3600010], [1]); Ok ([3600500; 3600600], [2; 3])]).
  { eexists. split.
    eapply (run_poll _ _ _ _ _ _ _ _ _ _ (new_reservation 100000)); [split; vm_compute; done|done|vm_compute; reflexivity|].
    eapply (run_poll _ _ _ _ _ _ _ _ _ _ (mkMem 100000 100 100)); [split; vm_compute; done|done|vm_compute; reflexivity|constructor].
    vm_compute; reflexivity. }
  destruct Hrun as (w & Hrun & Hv). exists w. split; [done|]. split; [done|].
  destruct (H _ _ Hrun) as [_ H2]. destruct (H2 eq_refl eq_refl 2%nat up_labels ltac:(cbn; lia)) as [_ H3]. exact (H3 0%nat eq_refl).
Defined.
End PqQuery.
